(* ===== verification/_CoqProject ===== *)
-Q . S2P
Prelude.v
ArithUint256.v
Script.v
Interpreter.v
InterpreterFacts.v
InterpreterSpecs.v
StandardScripts.v
Serialize.v
Transaction.v
SigHash.v
Standard.v
Coins.v
CoinsFacts.v
Block.v
Chain.v
ChainFacts.v
TxVerify.v
Pow.v
Pos.v
VersionBits.v
VersionBitsFacts.v
Activate.v
ActivateFacts.v
BlockChecks.v
BlockChecksFacts.v
Headers.v
HeadersFacts.v
BlockVerdict.v
Contracts.v
ContractState.v
ContractsFacts.v
CondensingFacts.v
ConnectBlock.v
ConnectBlockFacts.v
ConnectBlockSpecs.v
Hasher.v
Sha256.v
Sha256Facts.v
Sha256D64.v
Ripemd160.v
Sha1.v
HashFacts.v
HashFunctions.v
Strings.v
StringsFacts.v
Base58.v
Base58Facts.v
Bech32.v
KeyIO.v
KeyIOFacts.v
Keccak.v
Genesis.v
Compressor.v
CoinsDB.v
Replay.v
PartialMerkle.v
PartialMerkleFacts.v
CoinSelection.v
CoinSelectionFacts.v
Mempool.v
MempoolFacts.v
MempoolInv.v
MempoolOps.v
MempoolRemove.v
MempoolAdd.v
MempoolNew.v
MempoolBlock.v
MempoolAccept.v
MempoolAcceptFacts.v
MempoolLimits.v
MempoolSafe.v
