(* ===== verification/Prelude.v ===== *)
(** * A verified model of the core of slucore

    slucore is a full node of a chain derived from Bitcoin Core and Qtum:
    Bitcoin transactions and scripts, proof of stake, and contract outputs that
    run on an Ethereum virtual machine.  This library translates the part of its
    C++ code that decides what a valid transaction, block and chain is, keeps the
    coins and the memory pool, and chooses the coins of a payment, function by
    function, and proves the properties that make it correct.

    ** The program and the files that model it

    Paths are relative to src/src/.  Each file states its theorems after its
    definitions; a theorem marked C<n> is one of the numbered properties.

    - Prelude: C++ integer conversions ([wrap], [swrap], [u32], [i64], ...), the
      type [result] of code that can fail with its bind notation, little-endian
      bytes, arithmetic lemmas, the hint databases [results] and [bounds], the
      tactic [inv_ok].
    - ArithUint256 (arith_uint256.h/.cpp): 256-bit integers as eight 32-bit
      limbs, with the loops of the source for addition, multiplication, division,
      shifts, comparison, and the compact format of difficulty targets.
    - Script (script/script.h/.cpp): script numbers, opcodes, building and
      parsing scripts, templates, signature operation counts.
    - Interpreter (script/interpreter.cpp): [EvalScript] with every instruction,
      the signature and key encoding checks, [VerifyScript],
      [VerifyWitnessProgram].  The hash functions and the low-S test are the
      class [Crypto]; the signature checker is the record [SignatureChecker].
    - InterpreterFacts, InterpreterSpecs, StandardScripts: theorems about the
      interpreter: soft forks, limits, termination, multisignature matching, DER
      and minimal pushes, FindAndDelete, pay-to-pubkey-hash, contract outputs.
    - Serialize (serialize.h): integers, compact sizes, variable-length integers,
      vectors; the class [Serial] with the round-trip laws [SerialLaws].
    - Transaction (primitives/transaction.h/.cpp, amount.h): transactions, their
      two serialization formats, hashes, classification and output sums.
    - SigHash (script/interpreter.cpp, pubkey.h): signature hashes of both
      versions, the precomputed hashes and the transaction signature checker
      that implements [SignatureChecker].
    - Standard (script/standard.h/.cpp, silubium/silubiumtransaction.h): [Solver]
      with the contract templates and gas rules, destinations and their scripts.
    - Coins (coins.h/.cpp, txdb.cpp, parts of validation.cpp) and CoinsFacts: the
      coin database and its stack of caches behind the class [CoinsView] with
      the laws [CoinsViewLaws]; the coin updates of connecting and disconnecting
      blocks.
    - Block (primitives/block.h/.cpp, consensus/merkle.cpp): headers with the
      proof-of-stake fields, blocks, Merkle roots.
    - Chain (chain.h/.cpp, AddToBlockIndex of validation.cpp) and ChainFacts: the
      block index with skip pointers, accumulated work and median time, and the
      active chain.
    - TxVerify (consensus/tx_verify.cpp, consensus/consensus.h/.cpp): the checks
      of transactions, lock times, signature operation costs.
    - Pow (pow.cpp, consensus/params.h): difficulty.
    - Pos (pos.cpp, pos.h, VerifySignature of script/sign.cpp): proof of stake.
    - VersionBits (versionbits.cpp) and VersionBitsFacts: the deployment state
      machine with its cache.
    - Activate (ActivateBestChain and what it calls in validation.cpp) and
      ActivateFacts: choosing the most-work chain, disconnecting and connecting
      towards it, invalid blocks.  Connecting one block is the class [Ledger].
    - BlockChecks (CheckBlock, ContextualCheckBlock, rewards, witness commitments
      of validation.cpp) and BlockChecksFacts.
    - Headers (AcceptBlockHeader, ProcessNewBlockHeaders, AcceptBlock) and
      HeadersFacts; BlockVerdict: which failures mark a header for good.
    - Contracts (contract outputs as calls, silubium/silubiumtransaction.h,
      SilubiumTxConverter), ContractState (silubium/silubiumstate.h/.cpp, the
      execution and its results in validation.cpp; the virtual machine is the
      class [Executive]), ContractsFacts, CondensingFacts.
    - ConnectBlock ([ConnectBlock] and [CheckInputs] of validation.cpp),
      ConnectBlockFacts, ConnectBlockSpecs.
    - Hasher (crypto/common.h and the streaming part of the hash classes), Sha256,
      Sha256Facts, Sha256D64 (crypto/sha256.cpp), Ripemd160, Sha1 and HashFacts
      (crypto/ripemd160.cpp, crypto/sha1.cpp), HashFunctions (hash.h): the hash
      functions, which implement the class [Crypto].
    - Strings and StringsFacts (utilstrencodings, uint256.cpp): hexadecimal, base
      64, base 32 and regrouping of bits; Base58 and Base58Facts (base58.cpp);
      Bech32 (bech32.cpp); KeyIO and KeyIOFacts (key_io.cpp): addresses and keys
      as text.
    - Keccak (libdevcore/SHA3.cpp, RLP.cpp) and Genesis (chainparams.cpp): the
      first blocks of the three chains.
    - Compressor (compressor.h/.cpp, coins.h, undo.h): amounts, scripts, coins and
      undo data as they are stored; keys on the curve are the class [CurveKeys].
    - CoinsDB (txdb.cpp, dbwrapper.h): the coin database on disk over the class
      [LevelDB]; Replay (ReplayBlocks, RollforwardBlock of validation.cpp): start
      after a write that was interrupted.
    - PartialMerkle and PartialMerkleFacts (merkleblock.h/.cpp): proofs that a
      block contains given transactions.
    - CoinSelection and CoinSelectionFacts (wallet/coinselection.h/.cpp,
      policy/feerate.cpp, SelectCoinsMinConf of wallet/wallet.cpp).
    - Mempool (txmempool.h/.cpp): the memory pool and its operations;
      MempoolAccept (AcceptToMemoryPoolWorker, LimitMempoolSize of
      validation.cpp): conflicts, replacement and what acceptance does to the
      pool.  MempoolFacts: walks over the links and sums; MempoolInv: the
      invariant; MempoolOps, MempoolRemove, MempoolAdd, MempoolNew, MempoolBlock,
      MempoolAcceptFacts: that each operation keeps it; MempoolLimits: the
      limits on chains of transactions; MempoolSafe: the pool as a machine and
      the theorems about it.

    The parts meet as in the program: ConnectBlock runs TxVerify on the caches of
    Coins and the index of Chain, verifies scripts with the Interpreter and the
    checker of SigHash, and executes the calls of Contracts on the ContractState;
    Headers runs the checks of BlockChecks, Pow and Pos; Activate decides which
    blocks are connected and disconnected.  Where one part only relies on what
    another promises, the promise is a class: a cache is proved correct over any
    [CoinsView] that keeps its laws, and is itself such a view, so stacks of any
    depth are covered; the interpreter is proved over any [Crypto], which the
    modelled hash functions implement.

    ** Conventions

    A C++ integer is a [Z] and every conversion or operation that may leave its
    width is written out.  A byte string is a list of [Z].  A pointer to a block
    index entry is the hash under which it is stored.  State is passed and
    returned; exceptions, failed assertions and null dereferences are [Err].
    Loops are structural where the source walks a list, and carry fuel where it
    does not; the fuel is a bound of the source's own loop (the script length,
    the height, the list length), and each is proved to be enough where a result
    is claimed: [eval_script_terminates], [merkle_loop_ends],
    [ancestor_loop_spec], [set_tip_loop_spec], [find_fork_loop_spec],
    [activate_best_chain_correct], [walk_ancestors_spec],
    [walk_descendants_spec], [trim_loop_ok].

    ** What the theorems show

    - Coins: any sequence of cache operations behaves like a plain map of
      unspent coins; flushing reaches the database; disconnecting a block undoes
      connecting it.
    - Transactions: [CheckTransaction] and [CheckTxInputs] accept exactly the
      transactions that satisfy their declarative conditions, and conserve
      value; absolute and relative lock times are enforced.
    - Scripts: flags only restrict, limits hold, evaluation terminates, standard
      spends need exactly the right key and signature; signature hashes commit
      to what they should.
    - Chain: adding a header keeps the index consistent; skip pointers, the
      active chain vector and fork search agree with walking predecessors;
      median time never goes back; Merkle roots bind the transaction list.
    - Chain selection: [ActivateBestChain] ends on a valid chain of most work.
    - Blocks: the checks accept exactly what their declarative conditions say;
      an accepted block changes the coins as its transactions say, creates no
      more than the subsidy, and runs every script; failures that are marked
      permanent concern what the header commits to.
    - Contracts: outputs become the calls they carry; refunds are covered by the
      fee; condensing transactions conserve value and are tracked.
    - Hashing: the unrolled code computes SHA-256, SHA-1, RIPEMD-160 and Keccak as
      their standards define them, however the data is cut; the first blocks have
      the hashes that the code asserts.
    - Data: serialization and text encodings are read back, canonical encodings,
      256-bit arithmetic, compact targets, exact retargeting, a transparent stake
      cache, error detection of Bech32.
    - Storage: compressed coins and undo data are read back; the coin database
      shows on disk what the cache held; after a crash in the middle of a write,
      replaying blocks restores the coins of the tip if the write only added blocks.
    - Partial trees: an accepted proof with the right number of transactions is of
      transactions of the block, and the proof that is sent for a block is accepted
      with its matches.
    - Payments: the search for coins without change decides its problem and finds
      the least waste; the coins chosen pay for the transaction.
    - Memory pool: without reorganizations, every pool that the operations lead to
      is consistent, and no operation fails an assertion; the limits on chains hold,
      but for the size of an entry that is alone; a block
      takes out its transactions, their conflicts and nothing else; replacements
      pay for what they put out.

    ** Not modelled

    Networking, storage engines, RPC and user interface, which are mostly input
    and output; the wallet apart from coin selection; the vendored curve, JSON,
    LevelDB and Ethereum libraries (the virtual machine is an interface); vector
    and assembler variants of the hash functions; concurrency (the modelled code
    runs under the locks of the chain state and of the memory pool).  Of the
    memory pool, adding back the transactions of disconnected blocks, fee
    estimation and the rolling minimum fee, which are floating-point numbers, and
    the address indices; the standardness rules that only decide what is relayed;
    block files, pruning and node start apart from replaying blocks. *)
From Stdlib Require Export ZArith Lia Bool Btauto.
From stdpp Require Export base list numbers option strings gmap sorting.
Global Open Scope Z_scope.

(** ** Notation for the C++ bit operators *)

Declare Scope cxx_scope.
Delimit Scope cxx_scope with cxx.
Notation "x &' y" := (Z.land x y) (at level 40, left associativity) : cxx_scope.
Notation "x |' y" := (Z.lor x y) (at level 42, left associativity) : cxx_scope.
Notation "x ^' y" := (Z.lxor x y) (at level 41, left associativity) : cxx_scope.
Notation "x <<' n" := (Z.shiftl x n) (at level 38, left associativity) : cxx_scope.
Notation "x >>' n" := (Z.shiftr x n) (at level 38, left associativity) : cxx_scope.
Global Open Scope cxx_scope.

(** ** Fixed-width integers

    An unsigned [w]-bit value is a [Z] in [0, 2^w); a signed one is a [Z] in
    [-2^(w-1), 2^(w-1)).  [wrap] and [swrap] are the conversions C++ applies. *)

Definition wrap (w x : Z) : Z := x mod 2 ^ w.
Definition swrap (w x : Z) : Z := (x + 2 ^ (w - 1)) mod 2 ^ w - 2 ^ (w - 1).

Definition u8 : Z → Z := wrap 8.
Definition u32 : Z → Z := wrap 32.
Definition u64 : Z → Z := wrap 64.
Definition i32 : Z → Z := swrap 32.
Definition i64 : Z → Z := swrap 64.

Definition in_u (w x : Z) : Prop := 0 ≤ x < 2 ^ w.
Definition in_s (w x : Z) : Prop := - 2 ^ (w - 1) ≤ x < 2 ^ (w - 1).

#[global] Instance in_u_dec w x : Decision (in_u w x).
Proof. unfold in_u. apply _. Defined.
#[global] Instance in_s_dec w x : Decision (in_s w x).
Proof. unfold in_s. apply _. Defined.

(** ** Results of code that can fail or throw *)

Inductive result (E A : Type) : Type :=
| Ok (a : A)
| Err (e : E).
Arguments Ok {E A} a.
Arguments Err {E A} e.

Definition rbind {E A B} (m : result E A) (k : A → result E B) : result E B :=
  match m with Ok a => k a | Err e => Err e end.

Notation "'let*' x := m 'in' k" := (rbind m (λ x, k))
  (at level 10, x binder, m at level 100, k at level 200) : cxx_scope.

(** [require b e] is the guard [if (!b) return set_error(e);]. *)
Definition require {E} (b : bool) (e : E) : result E unit :=
  if b then Ok tt else Err e.

Definition is_ok {E A} (r : result E A) : bool :=
  match r with Ok _ => true | Err _ => false end.

Lemma rbind_Ok {E A B} (m : result E A) (k : A → result E B) b :
  rbind m k = Ok b ↔ ∃ a, m = Ok a ∧ k a = Ok b.
Proof. destruct m; simpl; naive_solver. Qed.

Lemma require_Ok {E} b (e : E) u : require b e = Ok u ↔ b = true.
Proof. destruct b, u; simpl; naive_solver. Qed.

(** Success of a sequence, and of a value. *)
Lemma seq_Ok {E A} (m : result E unit) (k : result E A) v : (let* _ := m in k) = Ok v ↔ m = Ok tt ∧ k = Ok v.
Proof. destruct m as [[]|]; simpl; naive_solver. Qed.
Lemma Ok_eq {E A} (x y : A) : (Ok x : result E A) = Ok y ↔ x = y.
Proof. naive_solver. Qed.

(** [autorewrite with results] turns the success of straight-line checks into
    the conjunction of their conditions. *)
Create HintDb results.
#[export] Hint Rewrite @seq_Ok @require_Ok @Ok_eq : results.

(** Invert a hypothesis that says a fallible computation succeeded: split its
    binds, and the conditions and matches that guard its result. *)
Ltac inv_ok :=
  repeat match goal with
  | H : rbind _ _ = Ok _ |- _ => apply rbind_Ok in H as (? & ? & H)
  | H : Ok _ = Ok _ |- _ => injection H as H; subst
  | H : Some _ = Some _ |- _ => injection H as H; subst
  | H : Err _ = Ok _ |- _ => discriminate H
  | H : None = Some _ |- _ => discriminate H
  | H : (if ?b then _ else _) = Ok _ |- _ => destruct b eqn:?
  | H : (if ?b then _ else _) = Some _ |- _ => destruct b eqn:?
  | H : (match ?x with _ => _ end) = Ok _ |- _ => destruct x eqn:?
  end.

(** ** Bytes *)

Abbreviation bytes := (list Z).
Definition is_byte (b : Z) : Prop := 0 ≤ b < 256.
Definition bytes_ok (l : bytes) : Prop := Forall is_byte l.
#[global] Instance is_byte_dec b : Decision (is_byte b).
Proof. unfold is_byte. apply _. Defined.
#[global] Instance bytes_ok_dec l : Decision (bytes_ok l).
Proof. unfold bytes_ok. apply _. Defined.

(** ** Arithmetic lemmas *)

Lemma wrap_small w x : in_u w x → wrap w x = x.
Proof. apply Z.mod_small. Qed.

Lemma wrap_range w x : 0 ≤ w → in_u w (wrap w x).
Proof. intros. apply Z.mod_pos_bound. apply Z.pow_pos_nonneg; lia. Qed.

Lemma swrap_small w x : 0 < w → in_s w x → swrap w x = x.
Proof.
  unfold swrap, in_s. intros Hw H.
  assert (2 ^ w = 2 * 2 ^ (w - 1)) by (rewrite <- Z.pow_succ_r by lia; f_equal; lia).
  rewrite Z.mod_small; lia.
Qed.

Lemma swrap_range w x : 0 < w → in_s w (swrap w x).
Proof.
  unfold swrap, in_s. intros Hw.
  assert (2 ^ w = 2 * 2 ^ (w - 1)) by (rewrite <- Z.pow_succ_r by lia; f_equal; lia).
  assert (0 < 2 ^ (w - 1)) by (apply Z.pow_pos_nonneg; lia).
  pose proof (Z.mod_pos_bound (x + 2 ^ (w - 1)) (2 ^ w)). lia.
Qed.

(** [auto with bounds] finds the range of a converted value. *)
Create HintDb bounds.
#[export] Hint Resolve wrap_range swrap_range : bounds.
#[export] Hint Extern 1 (_ ≤ _) => lia : bounds.
#[export] Hint Extern 1 (_ < _) => lia : bounds.

Lemma u32_small x : 0 ≤ x < 2 ^ 32 → u32 x = x.
Proof. apply wrap_small. Qed.
Lemma u64_small x : 0 ≤ x < 2 ^ 64 → u64 x = x.
Proof. apply wrap_small. Qed.
Lemma u64_add_l x y : u64 (u64 x + y) = u64 (x + y).
Proof. unfold u64, wrap. apply Zplus_mod_idemp_l. Qed.
Lemma u64_sub_l x y : u64 (u64 x - y) = u64 (x - y).
Proof. unfold u64, wrap. apply Zminus_mod_idemp_l. Qed.
Lemma u64_sub_r x y : u64 (x - u64 y) = u64 (x - y).
Proof. unfold u64, wrap. apply Zminus_mod_idemp_r. Qed.
Lemma i64_small x : - 2 ^ 63 ≤ x < 2 ^ 63 → i64 x = x.
Proof. intros. apply swrap_small; unfold in_s; lia. Qed.
Lemma i32_small x : - 2 ^ 31 ≤ x < 2 ^ 31 → i32 x = x.
Proof. intros. apply swrap_small; unfold in_s; lia. Qed.

(** Masking with 2^k-1 and shifting right are [mod] and [/]. *)
Lemma land_mask k x : 0 ≤ k → x &' (2 ^ k - 1) = x mod 2 ^ k.
Proof. intros. rewrite <- Z.land_ones by lia. by rewrite Z.ones_equiv. Qed.

Lemma shr_div x k : 0 ≤ k → x >>' k = x / 2 ^ k.
Proof. apply Z.shiftr_div_pow2. Qed.

Lemma shl_mul x k : 0 ≤ k → x <<' k = x * 2 ^ k.
Proof. apply Z.shiftl_mul_pow2. Qed.

(** The bits of a value below 2^w stop at [w]. *)
Lemma testbit_high w x n : 0 ≤ x < 2 ^ w → w ≤ n → Z.testbit x n = false.
Proof.
  intros Hx Hn. destruct (decide (w < 0)).
  { rewrite Z.pow_neg_r in Hx by lia. lia. }
  rewrite <- (Z.mod_small x (2 ^ w)) by lia.
  apply Z.mod_pow2_bits_high. lia.
Qed.

Lemma bounded_testbit w x :
  0 ≤ w → 0 ≤ x → (∀ n, w ≤ n → Z.testbit x n = false) → x < 2 ^ w.
Proof.
  intros Hw Hx H.
  assert (x mod 2 ^ w = x) as <-; [|apply Z.mod_pos_bound, Z.pow_pos_nonneg; lia].
  apply Z.bits_inj'. intros n Hn. destruct (decide (w ≤ n)).
  - rewrite Z.mod_pow2_bits_high by lia. by rewrite H.
  - rewrite Z.mod_pow2_bits_low by lia. done.
Qed.

Lemma lor_range w x y : 0 ≤ w → in_u w x → in_u w y → in_u w (x |' y).
Proof.
  unfold in_u. intros Hw Hx Hy. split.
  - rewrite Z.lor_nonneg. lia.
  - apply bounded_testbit; [lia|rewrite Z.lor_nonneg; lia|].
    intros n Hn. rewrite Z.lor_spec.
    by rewrite !(testbit_high w) by lia.
Qed.

Lemma land_range_l w x y : 0 ≤ w → in_u w x → in_u w (x &' y).
Proof.
  unfold in_u. intros Hw Hx. split.
  - rewrite Z.land_nonneg. lia.
  - apply bounded_testbit; [lia|rewrite Z.land_nonneg; lia|].
    intros n Hn. rewrite Z.land_spec. by rewrite (testbit_high w) by lia.
Qed.

Lemma lxor_range w x y : 0 ≤ w → in_u w x → in_u w y → in_u w (x ^' y).
Proof.
  unfold in_u. intros Hw Hx Hy. split.
  - rewrite Z.lxor_nonneg. lia.
  - apply bounded_testbit; [lia|rewrite Z.lxor_nonneg; lia|].
    intros n Hn. rewrite Z.lxor_spec.
    by rewrite !(testbit_high w) by lia.
Qed.

(** A disjoint [or] is a sum. *)
Lemma lor_add_disjoint hi lo k :
  0 ≤ k → 0 ≤ lo < 2 ^ k → (hi * 2 ^ k) |' lo = hi * 2 ^ k + lo.
Proof.
  intros Hk Hlo. rewrite <- (Z.add_lor_land (hi * 2 ^ k)).
  enough (Z.land (hi * 2 ^ k) lo = 0) as -> by lia.
  apply Z.bits_inj'. intros n Hn. rewrite Z.land_spec, Z.bits_0.
  destruct (decide (k ≤ n)).
  - rewrite (testbit_high k lo) by lia. apply andb_false_r.
  - by rewrite Z.mul_pow2_bits_low by lia.
Qed.

(** The value of a negated 32-bit word. *)
Lemma u32_lnot x : in_u 32 x → u32 (Z.lnot x) = 2 ^ 32 - 1 - x.
Proof.
  unfold in_u, u32, wrap. intros. rewrite Z.lnot_eq_pred_opp.
  replace (- x - 1) with ((2 ^ 32 - 1 - x) + (-1) * 2 ^ 32) by lia.
  rewrite Z.mod_add, Z.mod_small; lia.
Qed.

(** Putting a low digit back under a reduced high part. *)
Lemma mod_digit x t B M :
  0 ≤ x < B → 0 < M → x + B * (t mod M) = (x + B * t) mod (B * M).
Proof.
  intros Hx HM. pose proof (Z.mod_pos_bound t M HM).
  assert (0 < B * M) by (apply Z.mul_pos_pos; lia).
  rewrite (Z.div_mod t M) at 2 by lia.
  replace (x + B * (M * (t / M) + t mod M))
    with ((x + B * (t mod M)) + (t / M) * (B * M)) by ring.
  rewrite Z.mod_add by lia. symmetry. apply Z.mod_small. nia.
Qed.

(** Splitting the 64-bit sum of a limb loop into its low word and its carry. *)
Lemma split32 n : n &' 0xffffffff + 2 ^ 32 * (n >>' 32) = n.
Proof.
  change 0xffffffff with (2 ^ 32 - 1). rewrite land_mask, shr_div by lia.
  pose proof (Z.div_mod n (2 ^ 32)). lia.
Qed.
Lemma mask32_range n : in_u 32 (n &' 0xffffffff).
Proof.
  change 0xffffffff with (2 ^ 32 - 1). rewrite land_mask by lia.
  apply Z.mod_pos_bound. lia.
Qed.
Lemma carry32_range n M : 0 ≤ n < 2 ^ 32 * M → 0 ≤ n >>' 32 < M.
Proof.
  intros. rewrite shr_div by lia. split.
  - apply Z.div_pos; lia.
  - apply Z.div_lt_upper_bound; lia.
Qed.

(** ** Little-endian byte strings *)

Fixpoint le_value (l : bytes) : Z :=
  match l with [] => 0 | b :: l' => b + 256 * le_value l' end.

Lemma le_value_app l k : le_value (l ++ k) = le_value l + 256 ^ Z.of_nat (length l) * le_value k.
Proof.
  induction l as [|b l IH]; cbn [app le_value length].
  - change (256 ^ Z.of_nat 0) with 1. lia.
  - rewrite IH, Nat2Z.inj_succ, Z.pow_succ_r by lia. ring.
Qed.

Lemma le_value_snoc l b : le_value (l ++ [b]) = le_value l + 256 ^ Z.of_nat (length l) * b.
Proof. rewrite le_value_app. cbn [le_value]. ring. Qed.

Lemma pow256_pos n : 0 < 256 ^ Z.of_nat n.
Proof. apply Z.pow_pos_nonneg; lia. Qed.

Lemma le_value_range l : bytes_ok l → 0 ≤ le_value l < 256 ^ Z.of_nat (length l).
Proof.
  induction 1 as [|b l Hb _ IH]; [done|]. unfold is_byte in Hb.
  cbn [le_value length]. rewrite Nat2Z.inj_succ, Z.pow_succ_r by lia. lia.
Qed.

Lemma pow256_2 n : 0 ≤ n → 256 ^ n = 2 ^ (8 * n).
Proof. intros. change 256 with (2 ^ 8). by rewrite <- Z.pow_mul_r by lia. Qed.

(** Case analysis on a list by its last element. *)
Lemma snoc_cases {A} (l : list A) : l = [] ∨ ∃ k x, l = k ++ [x].
Proof. destruct l as [|x k _] using rev_ind; [by left|right; by eauto]. Qed.

Lemma bytes_ok_snoc l b : bytes_ok (l ++ [b]) ↔ bytes_ok l ∧ is_byte b.
Proof. unfold bytes_ok. rewrite Forall_app, Forall_singleton. done. Qed.

(** Bit 7 of a byte. *)
Lemma byte_bit7 b : is_byte b → (b &' 0x80 =? 0) = (b <? 128).
Proof.
  unfold is_byte. intros Hb. change 0x80 with (2 ^ 7).
  assert (b &' 2 ^ 7 = (b / 2 ^ 7) * 2 ^ 7) as ->.
  { apply Z.bits_inj'. intros n Hn. rewrite Z.land_spec, Z.pow2_bits_eqb by lia.
    destruct (Z.eqb_spec 7 n) as [<-|Hne].
    - rewrite Z.mul_pow2_bits by lia. rewrite Z.div_pow2_bits by lia. apply andb_true_r.
    - rewrite andb_false_r. destruct (decide (n < 7)).
      + by rewrite Z.mul_pow2_bits_low by lia.
      + rewrite Z.mul_pow2_bits, Z.div_pow2_bits by lia. symmetry.
        apply (testbit_high 8); lia. }
  destruct (Z.ltb_spec b (2 ^ 7)).
  - by rewrite Z.div_small by lia.
  - apply Z.eqb_neq. pose proof (Z.div_le_lower_bound b (2 ^ 7) 1). lia.
Qed.

Lemma byte_low7 b : is_byte b → b &' 0x7f = b mod 128.
Proof. intros. change 0x7f with (2 ^ 7 - 1). by rewrite land_mask by lia. Qed.

Lemma u64_i64 x : u64 (i64 x) = u64 x.
Proof.
  unfold u64, i64, wrap, swrap. rewrite Zminus_mod_idemp_l. f_equal. lia.
Qed.

(** [x & ~(1 << k)] on 64-bit words, when bit [k] is set. *)
Lemma clear_bit64 x k :
  0 ≤ x < 2 ^ 64 → 0 ≤ k < 64 → Z.testbit x k = true →
  x &' u64 (Z.lnot (2 ^ k)) = x - 2 ^ k.
Proof.
  intros Hx Hk Hb.
  assert (Z.land x (2 ^ k) = 2 ^ k) as Hl.
  { apply Z.bits_inj'. intros n Hn. rewrite Z.land_spec, Z.pow2_bits_eqb by lia.
    destruct (Z.eqb_spec k n) as [<-|]; [by rewrite Hb|apply andb_false_r]. }
  rewrite <- Hl at 2. rewrite Z.sub_land_same_l.
  apply Z.bits_inj'. intros n Hn. rewrite !Z.land_spec. unfold u64, wrap.
  destruct (decide (n < 64)).
  - by rewrite Z.mod_pow2_bits_low by lia.
  - by rewrite (testbit_high 64 x) by lia.
Qed.

(** ** Sums over lists *)

Definition sum_of {A} (f : A → Z) (l : list A) : Z := foldr (λ x n, f x + n) 0 l.
Lemma sum_of_app {A} (f : A → Z) l k : sum_of f (l ++ k) = sum_of f l + sum_of f k.
Proof. induction l as [|x l IH]; simpl; [done|]. lia. Qed.
Lemma sum_of_fmap {A B} (f : B → Z) (g : A → B) l : sum_of f (g <$> l) = sum_of (λ x, f (g x)) l.
Proof. unfold sum_of. induction l as [|x l IH]; [done|]. cbn. by rewrite IH. Qed.
Lemma sum_of_perm {A} (f : A → Z) l k : l ≡ₚ k → sum_of f l = sum_of f k.
Proof. unfold sum_of. induction 1; cbn; lia. Qed.
Lemma sum_of_le {A} (f g : A → Z) l : (∀ x, x ∈ l → f x ≤ g x) → sum_of f l ≤ sum_of g l.
Proof.
  induction l as [|x l IH]; intros Hfg; [done|]. cbn. specialize (IH (λ y Hy, Hfg y (list_elem_of_further _ _ _ Hy))).
  specialize (Hfg x (list_elem_of_here _ _)). unfold sum_of in IH. lia.
Qed.
Lemma sum_of_nonneg {A} (f : A → Z) l : (∀ x, x ∈ l → 0 ≤ f x) → 0 ≤ sum_of f l.
Proof.
  intros Hf. transitivity (sum_of (λ _, 0) l); [|by apply sum_of_le]. induction l as [|x l IH]; [done|].
  cbn. apply IH. intros y Hy. apply Hf. by apply list_elem_of_further.
Qed.
Lemma sum_of_ext {A} (f g : A → Z) l : (∀ x, x ∈ l → f x = g x) → sum_of f l = sum_of g l.
Proof. intros Hfg. apply Z.le_antisymm; apply sum_of_le; intros x Hx; by rewrite Hfg. Qed.
Lemma sum_of_cons {A} (f : A → Z) x l : sum_of f (x :: l) = f x + sum_of f l.
Proof. done. Qed.
