(* ===== verification/ArithUint256.v ===== *)
(** * 256-bit unsigned integers on 32-bit limbs (arith_uint256.h, arith_uint256.cpp)

    [BaseUint] models [base_uint<256>]: the array [pn] of eight 32-bit words,
    least significant first, and its operators as the loops of the source.
    [value] is the abstraction function to [Z]; every operator is shown to
    compute the mathematical operation modulo 2^256.  The second part models
    the compact format of difficulty targets ([SetCompact], [GetCompact]) and
    the conversions to and from the opaque 32-byte [uint256]. *)
From S2P Require Import Prelude.

Module BaseUint.

Definition WIDTH : nat := 8.
Abbreviation base_uint := (list Z).

Definition zero : base_uint := replicate WIDTH 0.

(** [base_uint(uint64_t b)] and [operator=(uint64_t b)]. *)
Definition of_u64 (b : Z) : base_uint :=
  u32 b :: u32 (b >>' 32) :: replicate (WIDTH - 2) 0.

Definition op_not (a : base_uint) : base_uint := (λ x, u32 (Z.lnot x)) <$> a.

Fixpoint op_inc (a : base_uint) : base_uint :=
  match a with
  | [] => []
  | x :: a' => let x' := u32 (x + 1) in
               if x' =? 0 then x' :: op_inc a' else x' :: a'
  end.

Fixpoint op_dec (a : base_uint) : base_uint :=
  match a with
  | [] => []
  | x :: a' => let x' := u32 (x - 1) in
               if x' =? u32 (-1) then x' :: op_dec a' else x' :: a'
  end.

Definition op_neg (a : base_uint) : base_uint := op_inc (op_not a).

Definition op_xor (a b : base_uint) : base_uint := zip_with Z.lxor a b.
Definition op_and (a b : base_uint) : base_uint := zip_with Z.land a b.
Definition op_or (a b : base_uint) : base_uint := zip_with Z.lor a b.

Fixpoint add_loop (carry : Z) (a b : base_uint) : base_uint :=
  match a, b with
  | x :: a', y :: b' =>
      let n := u64 (u64 (carry + x) + y) in
      (n &' 0xffffffff) :: add_loop (n >>' 32) a' b'
  | _, _ => []
  end.
Definition op_add (a b : base_uint) : base_uint := add_loop 0 a b.
Definition op_sub (a b : base_uint) : base_uint := op_add a (op_neg b).
Definition op_add_u64 (a : base_uint) (b64 : Z) : base_uint := op_add a (of_u64 b64).
Definition op_sub_u64 (a : base_uint) (b64 : Z) : base_uint := op_add a (op_neg (of_u64 b64)).

(** [operator<<=] and [operator>>=]: one pass over the words of the copy [a],
    each word or-ed into the (one or two) words it lands in. *)
Definition or_at (i : Z) (x : Z) (pn : base_uint) : base_uint :=
  <[ Z.to_nat i := nth (Z.to_nat i) pn 0 |' x ]> pn.

Definition shl_step (a : base_uint) (k s : Z) (pn : base_uint) (i : nat) : base_uint :=
  let ai := nth i a 0 in
  let i := Z.of_nat i in
  let pn := if (i + k + 1 <? Z.of_nat WIDTH) && negb (s =? 0)
            then or_at (i + k + 1) (ai >>' (32 - s)) pn else pn in
  if i + k <? Z.of_nat WIDTH then or_at (i + k) (u32 (ai <<' s)) pn else pn.
Definition op_shl (a : base_uint) (shift : Z) : base_uint :=
  foldl (shl_step a (shift / 32) (shift mod 32)) zero (seq 0 WIDTH).

Definition shr_step (a : base_uint) (k s : Z) (pn : base_uint) (i : nat) : base_uint :=
  let ai := nth i a 0 in
  let i := Z.of_nat i in
  let pn := if (0 <=? i - k - 1) && negb (s =? 0)
            then or_at (i - k - 1) (u32 (ai <<' (32 - s))) pn else pn in
  if 0 <=? i - k then or_at (i - k) (ai >>' s) pn else pn.
Definition op_shr (a : base_uint) (shift : Z) : base_uint :=
  foldl (shr_step a (shift / 32) (shift mod 32)) zero (seq 0 WIDTH).

(** [operator*=(uint32_t)] and the schoolbook [operator*=(const base_uint&)]:
    [mul_row] is the inner loop, run on the words [a.pn[j..]]. *)
Fixpoint mul32_loop (b32 carry : Z) (a : base_uint) : base_uint :=
  match a with
  | [] => []
  | x :: a' =>
      let n := u64 (carry + u64 (b32 * x)) in
      (n &' 0xffffffff) :: mul32_loop b32 (n >>' 32) a'
  end.
Definition op_mul32 (a : base_uint) (b32 : Z) : base_uint := mul32_loop b32 0 a.

Fixpoint mul_row (pnj carry : Z) (a b : base_uint) : base_uint :=
  match a, b with
  | x :: a', y :: b' =>
      let n := u64 (u64 (carry + x) + u64 (pnj * y)) in
      (n &' 0xffffffff) :: mul_row pnj (n >>' 32) a' b'
  | _, _ => a
  end.
Definition mul_step (pn b a : base_uint) (j : nat) : base_uint :=
  take j a ++ mul_row (nth j pn 0) 0 (drop j a) b.
Definition op_mul (pn b : base_uint) : base_uint :=
  foldl (mul_step pn b) zero (seq 0 WIDTH).

Fixpoint compare_loop (a b : base_uint) (n : nat) : Z :=
  match n with
  | O => 0
  | S i => if nth i a 0 <? nth i b 0 then -1
           else if nth i a 0 >? nth i b 0 then 1
           else compare_loop a b i
  end.
Definition CompareTo (a b : base_uint) : Z := compare_loop a b WIDTH.
Definition op_gt (a b : base_uint) : bool := CompareTo a b >? 0.
Definition op_lt (a b : base_uint) : bool := CompareTo a b <? 0.
Definition op_ge (a b : base_uint) : bool := CompareTo a b >=? 0.
Definition op_le (a b : base_uint) : bool := CompareTo a b <=? 0.
Definition op_eq (a b : base_uint) : bool := bool_decide (a = b).

Definition EqualTo (a : base_uint) (b : Z) : bool :=
  forallb (λ i, nth i a 0 =? 0) (seq 2 (WIDTH - 2)) &&
  (nth 1 a 0 =? b >>' 32) && (nth 0 a 0 =? b &' 0xffffffff).

(** [top_bit x 31] is the loop [for (nbits = 31; nbits > 0; nbits--)] of [bits]. *)
Fixpoint top_bit (x : Z) (nbits : nat) : Z :=
  match nbits with
  | O => 1
  | S k => if x &' (1 <<' Z.of_nat nbits) =? 0 then top_bit x k
           else Z.of_nat nbits + 1
  end.
Fixpoint bits_loop (a : base_uint) (n : nat) : Z :=
  match n with
  | O => 0
  | S pos => let x := nth pos a 0 in
             if x =? 0 then bits_loop a pos else 32 * Z.of_nat pos + top_bit x 31
  end.
Definition bits (a : base_uint) : Z := bits_loop a WIDTH.

Definition GetLow64 (a : base_uint) : Z := nth 0 a 0 |' u64 (nth 1 a 0 <<' 32).

(** [operator/=]: shift-and-subtract; [div_loop n] runs the iterations
    [shift = n-1, ..., 0].  The exception is [Err]. *)
Definition set_bit (shift : nat) (q : base_uint) : base_uint :=
  or_at (Z.of_nat (shift / 32)) (1 <<' Z.of_nat (shift mod 32)) q.
Fixpoint div_loop (n : nat) (num div q : base_uint) : base_uint :=
  match n with
  | O => q
  | S shift =>
      if op_ge num div
      then div_loop shift (op_sub num div) (op_shr div 1) (set_bit shift q)
      else div_loop shift num (op_shr div 1) q
  end.
Inductive uint_error := division_by_zero.
Definition op_div (a b : base_uint) : result uint_error base_uint :=
  let num_bits := bits a in
  let div_bits := bits b in
  if div_bits =? 0 then Err division_by_zero
  else if num_bits <? div_bits then Ok zero
  else let shift := num_bits - div_bits in
       Ok (div_loop (Z.to_nat shift + 1) a (op_shl b shift) zero).

(** ** The abstraction function and the representation invariant *)

Fixpoint value (a : base_uint) : Z :=
  match a with [] => 0 | x :: a' => x + 2 ^ 32 * value a' end.

Definition limbs_ok (a : base_uint) : Prop := Forall (in_u 32) a.
Definition wf (a : base_uint) : Prop := length a = WIDTH ∧ limbs_ok a.
#[global] Instance wf_dec a : Decision (wf a).
Proof. unfold wf, limbs_ok. apply _. Defined.

(** 2^(32 n), the modulus of an [n]-limb number. *)
Definition base_pow (n : nat) : Z := 2 ^ (32 * Z.of_nat n).

Lemma base_pow_S n : base_pow (S n) = 2 ^ 32 * base_pow n.
Proof. unfold base_pow. rewrite <- Z.pow_add_r by lia. f_equal. lia. Qed.
Lemma base_pow_pos n : 0 < base_pow n.
Proof. apply Z.pow_pos_nonneg; lia. Qed.
Lemma base_pow_add m n : base_pow (m + n) = base_pow m * base_pow n.
Proof. unfold base_pow. rewrite <- Z.pow_add_r by lia. f_equal. lia. Qed.
Lemma base_pow_WIDTH : base_pow WIDTH = 2 ^ 256.
Proof. reflexivity. Qed.

Lemma value_range a : limbs_ok a → 0 ≤ value a < base_pow (length a).
Proof.
  induction 1 as [|x a Hx Ha IH]; [done|]. simpl length. rewrite base_pow_S.
  unfold in_u in Hx. cbn [value]. nia.
Qed.
Lemma value_wf_range a : wf a → 0 ≤ value a < 2 ^ 256.
Proof. intros [Hl Ha]. apply value_range in Ha. by rewrite Hl in Ha. Qed.

Lemma value_app a b : value (a ++ b) = value a + base_pow (length a) * value b.
Proof.
  induction a as [|x a IH]; cbn [app value length].
  - change (base_pow 0) with 1. lia.
  - rewrite IH, base_pow_S. lia.
Qed.

Lemma value_zeros n : value (replicate n 0) = 0.
Proof. induction n as [|n IH]; [done|]. cbn [replicate value]. rewrite IH. lia. Qed.

Lemma value_inj a b :
  limbs_ok a → limbs_ok b → length a = length b → value a = value b → a = b.
Proof.
  intros Ha. revert b. induction Ha as [|x a Hx Ha IH]; intros [|y b] Hb Hl Hv; try done.
  inversion Hb as [|?? Hy Hb']; subst. unfold in_u in *. cbn [value] in Hv.
  assert (x = y ∧ value a = value b) as [-> ?] by lia.
  f_equal. apply IH; auto.
Qed.

(** ** Addition, negation, subtraction, increments *)

Lemma add_loop_correct c a b :
  length a = length b → limbs_ok a → limbs_ok b → 0 ≤ c ≤ 1 →
  limbs_ok (add_loop c a b) ∧ length (add_loop c a b) = length a ∧
  value (add_loop c a b) = (c + value a + value b) mod base_pow (length a).
Proof.
  revert c b. induction a as [|x a IH]; intros c [|y b] Hl Ha Hb Hc; try done.
  { repeat split; [constructor|]. by rewrite Z.mod_1_r. }
  inversion Ha as [|?? Hx Ha']; inversion Hb as [|?? Hy Hb']; subst.
  unfold in_u in Hx, Hy. cbn [add_loop length value].
  rewrite (u64_small (c + x)), u64_small by lia.
  set (n := c + x + y).
  destruct (IH (n >>' 32) b) as (Hok & Hlen & Hval); auto.
  { pose proof (carry32_range n 2). lia. }
  split_and!; [constructor; [apply mask32_range|done]|lia|].
  rewrite Hval, base_pow_S.
  rewrite mod_digit by (apply mask32_range || apply base_pow_pos).
  f_equal. pose proof (split32 n). lia.
Qed.

Lemma op_not_correct a :
  limbs_ok a → limbs_ok (op_not a) ∧ length (op_not a) = length a ∧
  value (op_not a) = base_pow (length a) - 1 - value a.
Proof.
  induction 1 as [|x a Hx Ha IH]; [split_and!; [constructor|done|done]|].
  destruct IH as (Hok & Hl & Hv). cbn [op_not fmap list_fmap value length].
  unfold op_not in *. rewrite base_pow_S, u32_lnot by done. split_and!; [|lia|lia].
  constructor; [|done]. unfold in_u in *. lia.
Qed.

Lemma op_inc_correct a :
  limbs_ok a → limbs_ok (op_inc a) ∧ length (op_inc a) = length a ∧
  value (op_inc a) = (value a + 1) mod base_pow (length a).
Proof.
  induction 1 as [|x a Hx Ha IH]; [split_and!; [constructor|done|done]|].
  destruct IH as (Hok & Hl & Hv). cbn [op_inc value length]. rewrite base_pow_S.
  pose proof (value_range a Ha). unfold in_u in Hx.
  destruct (decide (x = 2 ^ 32 - 1)) as [->|].
  - change (u32 (2 ^ 32 - 1 + 1)) with 0. cbn [Z.eqb length value].
    split_and!; [by constructor|lia|].
    rewrite Hv, mod_digit by (lia || apply base_pow_pos). f_equal. lia.
  - rewrite u32_small by lia.
    destruct (Z.eqb_spec (x + 1) 0) as [|_]; [lia|]. cbn [length value].
    split_and!; [constructor; [unfold in_u; lia|done]|done|].
    rewrite Z.mod_small; nia.
Qed.

Lemma op_dec_correct a :
  limbs_ok a → limbs_ok (op_dec a) ∧ length (op_dec a) = length a ∧
  value (op_dec a) = (value a - 1) mod base_pow (length a).
Proof.
  induction 1 as [|x a Hx Ha IH]; [split_and!; [constructor|done|done]|].
  destruct IH as (Hok & Hl & Hv). cbn [op_dec value length]. rewrite base_pow_S.
  pose proof (value_range a Ha). unfold in_u in Hx.
  destruct (decide (x = 0)) as [->|].
  - change (u32 (0 - 1)) with (2 ^ 32 - 1). cbn [length value].
    change (2 ^ 32 - 1 =? u32 (-1)) with true. cbv iota. cbn [length value].
    split_and!; [by constructor|lia|].
    rewrite Hv, mod_digit by (lia || apply base_pow_pos). f_equal. lia.
  - rewrite u32_small by lia. change (u32 (-1)) with (2 ^ 32 - 1).
    destruct (Z.eqb_spec (x - 1) (2 ^ 32 - 1)) as [|_]; [lia|]. cbn [length value].
    split_and!; [constructor; [unfold in_u; lia|done]|done|].
    rewrite Z.mod_small; nia.
Qed.

Lemma wf_add a b :
  wf a → wf b → wf (op_add a b) ∧ value (op_add a b) = (value a + value b) mod 2 ^ 256.
Proof.
  intros [Hla Ha] [Hlb Hb].
  destruct (add_loop_correct 0 a b) as (? & ? & Hv); [congruence|done|done|lia|].
  unfold op_add, wf. rewrite Hv, Hla. split_and!; [congruence|done|done].
Qed.

Lemma wf_not a : wf a → wf (op_not a) ∧ value (op_not a) = 2 ^ 256 - 1 - value a.
Proof.
  intros [Hl Ha]. destruct (op_not_correct a Ha) as (? & ? & Hv).
  unfold wf. rewrite Hv, Hl. split_and!; [congruence|done|done].
Qed.

Lemma wf_neg a : wf a → wf (op_neg a) ∧ value (op_neg a) = (- value a) mod 2 ^ 256.
Proof.
  intros Ha. destruct (wf_not a Ha) as [[Hl Hn] Hv].
  destruct (op_inc_correct (op_not a) Hn) as (? & Hl' & Hv').
  unfold op_neg, wf. rewrite Hv', Hl', Hv, Hl. split_and!; [done|done|].
  rewrite base_pow_WIDTH.
  replace (2 ^ 256 - 1 - value a + 1) with (- value a + 1 * 2 ^ 256) by lia.
  by rewrite Z.mod_add by lia.
Qed.

Lemma wf_sub a b :
  wf a → wf b → wf (op_sub a b) ∧ value (op_sub a b) = (value a - value b) mod 2 ^ 256.
Proof.
  intros Ha Hb. destruct (wf_neg b Hb) as [Hn Hv].
  destruct (wf_add a (op_neg b) Ha Hn) as [Hs Hv']. split; [done|].
  unfold op_sub. by rewrite Hv', Hv, Zplus_mod_idemp_r.
Qed.

Lemma wf_zero : wf zero.
Proof. apply (bool_decide_unpack _). vm_compute. done. Qed.

Lemma value_of_u64 b : 0 ≤ b < 2 ^ 64 → wf (of_u64 b) ∧ value (of_u64 b) = b.
Proof.
  intros Hb. pose proof (carry32_range b (2 ^ 32)).
  unfold of_u64. rewrite (u32_small (b >>' 32)) by lia. split.
  - split; [done|]. repeat constructor; try done; try apply wrap_range; lia.
  - cbn [value]. rewrite value_zeros, shr_div by lia. unfold u32, wrap.
    pose proof (Z.div_mod b (2 ^ 32)). lia.
Qed.

(** ** Multiplication *)

Lemma mul32_loop_correct b c a :
  in_u 32 b → in_u 32 c → limbs_ok a →
  limbs_ok (mul32_loop b c a) ∧ length (mul32_loop b c a) = length a ∧
  value (mul32_loop b c a) = (c + b * value a) mod base_pow (length a).
Proof.
  intros Hb Hc Ha. revert c Hc. induction Ha as [|x a Hx Ha IH]; intros c Hc.
  { split_and!; [constructor|done|]. by rewrite Z.mod_1_r. }
  unfold in_u in Hb, Hc, Hx. cbn [mul32_loop length value].
  assert (0 ≤ b * x ≤ (2 ^ 32 - 1) * (2 ^ 32 - 1)) by nia.
  rewrite (u64_small (b * x)), u64_small by lia.
  set (n := c + b * x). pose proof (carry32_range n (2 ^ 32)).
  destruct (IH (n >>' 32)) as (Hok & Hlen & Hv); [unfold in_u; lia|].
  split_and!; [constructor; [apply mask32_range|done]|lia|].
  rewrite Hv, base_pow_S, mod_digit by (apply mask32_range || apply base_pow_pos).
  f_equal. pose proof (split32 n). lia.
Qed.

Lemma mul_row_correct x c a b :
  in_u 32 x → in_u 32 c → limbs_ok a → limbs_ok b → (length a ≤ length b)%nat →
  limbs_ok (mul_row x c a b) ∧ length (mul_row x c a b) = length a ∧
  value (mul_row x c a b) = (c + value a + x * value b) mod base_pow (length a).
Proof.
  intros Hx Hc Ha. revert c Hc b. induction Ha as [|y a Hy Ha IH]; intros c Hc b Hb Hl.
  { split_and!; [constructor|by destruct b|]. rewrite Z.mod_1_r. by destruct b. }
  destruct b as [|z b]; [simpl in Hl; lia|]. inversion Hb as [|?? Hz Hb']; subst.
  unfold in_u in Hx, Hc, Hy, Hz. cbn [mul_row length value].
  assert (0 ≤ x * z ≤ (2 ^ 32 - 1) * (2 ^ 32 - 1)) by nia.
  rewrite (u64_small (x * z)), (u64_small (c + y)), u64_small by lia.
  set (n := c + y + x * z). pose proof (carry32_range n (2 ^ 32)).
  destruct (IH (n >>' 32) ltac:(unfold in_u; lia) b) as (Hok & Hlen & Hv);
    [done|simpl in Hl; lia|].
  split_and!; [constructor; [apply mask32_range|done]|lia|].
  rewrite Hv, base_pow_S, mod_digit by (apply mask32_range || apply base_pow_pos).
  f_equal. pose proof (split32 n). lia.
Qed.

Lemma value_take_drop j a :
  (j ≤ length a)%nat → value a = value (take j a) + base_pow j * value (drop j a).
Proof.
  intros Hj. rewrite <- (take_drop j a) at 1. rewrite value_app.
  by rewrite length_take_le by lia.
Qed.

Lemma limbs_nth a i : limbs_ok a → in_u 32 (nth i a 0).
Proof.
  intros Ha. destruct (nth_in_or_default i a 0) as [Hin | ->]; [|done].
  by apply (proj1 (List.Forall_forall _ _) Ha).
Qed.

Lemma mul_step_correct pn b acc j :
  wf pn → wf b → wf acc → (j < WIDTH)%nat →
  wf (mul_step pn b acc j) ∧
  value (mul_step pn b acc j)
    = (value acc + base_pow j * (nth j pn 0 * value b)) mod 2 ^ 256.
Proof.
  intros [_ Hpn] [Hlb Hb] [Hla Hacc] Hj. unfold mul_step.
  assert (length (take j acc) = j) as Hlt by (rewrite length_take_le; lia).
  destruct (mul_row_correct (nth j pn 0) 0 (drop j acc) b) as (Hok & Hlen & Hv);
    [by apply limbs_nth|done|by apply Forall_drop|done|rewrite length_drop; lia|].
  rewrite length_drop in Hlen, Hv. split.
  - split; [rewrite length_app; lia|]. apply Forall_app. split; [by apply Forall_take|done].
  - rewrite value_app, Hlt, Hv, (mod_digit _ _ _ (base_pow (length acc - j))).
    + rewrite <- base_pow_add, Hla. replace (j + (WIDTH - j))%nat with WIDTH by lia.
      rewrite base_pow_WIDTH. f_equal. rewrite (value_take_drop j acc) by lia. ring.
    + pose proof (value_range (take j acc)) as Hr. rewrite Hlt in Hr.
      by apply Hr, Forall_take.
    + apply base_pow_pos.
Qed.

Lemma op_mul_prefix pn b j :
  wf pn → wf b → (j ≤ WIDTH)%nat →
  let acc := foldl (mul_step pn b) zero (seq 0 j) in
  wf acc ∧ value acc = (value (take j pn) * value b) mod 2 ^ 256.
Proof.
  intros Hpn Hb. induction j as [|j IH]; intros Hj; [by split; [apply wf_zero|]|].
  destruct IH as [Hwf Hv]; [lia|]. cbv zeta in *. rewrite seq_S, foldl_app. simpl.
  destruct (mul_step_correct pn b _ j Hpn Hb Hwf ltac:(lia)) as [Hwf' Hv'].
  split; [done|]. rewrite Hv', Hv, Zplus_mod_idemp_l. f_equal.
  destruct (lookup_lt_is_Some_2 pn j) as [x Hx]; [destruct Hpn; lia|].
  rewrite (take_S_r pn j x), value_app, length_take_le by (done || destruct Hpn; lia).
  rewrite nth_lookup, Hx. unfold default, id. cbn [value]. ring.
Qed.

Lemma wf_mul a b :
  wf a → wf b → wf (op_mul a b) ∧ value (op_mul a b) = (value a * value b) mod 2 ^ 256.
Proof.
  intros Ha Hb. destruct (op_mul_prefix a b WIDTH Ha Hb) as [Hwf Hv]; [done|].
  split; [done|]. unfold op_mul. rewrite Hv, firstn_all2; [done|]. destruct Ha; lia.
Qed.

Lemma wf_mul32 a b :
  wf a → in_u 32 b → wf (op_mul32 a b) ∧ value (op_mul32 a b) = (value a * b) mod 2 ^ 256.
Proof.
  intros [Hl Ha] Hb. destruct (mul32_loop_correct b 0 a) as (? & ? & Hv); [done|done|done|].
  unfold op_mul32, wf. rewrite Hv, Hl. split_and!; [congruence|done|]. f_equal; lia.
Qed.

(** ** Bits and shifts *)

Lemma value_testbit a n :
  limbs_ok a → 0 ≤ n →
  Z.testbit (value a) n = Z.testbit (nth (Z.to_nat (n / 32)) a 0) (n mod 32).
Proof.
  intros Ha. revert n. induction Ha as [|x a Hx Ha IH]; intros n Hn.
  { cbn [value]. rewrite Z.bits_0. destruct (Z.to_nat (n / 32)); by rewrite Z.bits_0. }
  cbn [value]. unfold in_u in Hx. destruct (decide (n < 32)).
  - rewrite Z.div_small, Z.mod_small by lia.
    rewrite <- (Z.mod_pow2_bits_low _ 32) by lia.
    rewrite (Z.mul_comm (2 ^ 32)), Z.mod_add, Z.mod_small by lia. done.
  - replace n with ((n - 32) + 32) at 1 by lia. rewrite <- Z.div_pow2_bits by lia.
    replace ((x + 2 ^ 32 * value a) / 2 ^ 32) with (value a) by (apply (Z.div_unique _ _ _ x); lia).
    rewrite IH by lia.
    replace (n / 32) with ((n - 32) / 32 + 1)
      by (rewrite <- Z.div_add by lia; f_equal; lia).
    replace (n mod 32) with ((n - 32) mod 32)
      by (rewrite <- (Z.mod_add (n - 32) 1) by lia; f_equal; lia).
    rewrite Z2Nat.inj_add by (try apply Z.div_pos; lia).
    by rewrite Nat.add_1_r.
Qed.

Lemma length_or_at i x pn : length (or_at i x pn) = length pn.
Proof. apply length_insert. Qed.

(** The effect of a guarded [pn[i] |= x] on one bit of one limb. *)
Lemma or_if_bit (c : bool) i x pn j b :
  (c = true → 0 ≤ i < Z.of_nat (length pn)) →
  Z.testbit (nth j (if c then or_at i x pn else pn) 0) b =
    Z.testbit (nth j pn 0) b || c && (i =? Z.of_nat j) && Z.testbit x b.
Proof.
  destruct c; intros Hi; [|by rewrite orb_false_r]. specialize (Hi eq_refl).
  unfold or_at. rewrite !nth_lookup. destruct (Z.eqb_spec i (Z.of_nat j)) as [->|].
  - rewrite Nat2Z.id, list_lookup_insert_eq by lia. cbn. apply Z.lor_spec.
  - rewrite list_lookup_insert_ne by lia. cbn. by rewrite orb_false_r.
Qed.

Lemma limbs_ok_or_at i x pn : limbs_ok pn → in_u 32 x → limbs_ok (or_at i x pn).
Proof.
  intros Hpn Hx. apply Forall_insert; [done|].
  apply lor_range; [lia|by apply limbs_nth|done].
Qed.

Lemma in_u32_shr x s : 0 ≤ s → in_u 32 x → in_u 32 (x >>' s).
Proof.
  unfold in_u. intros Hs Hx. rewrite shr_div by lia.
  assert (0 < 2 ^ s) by (apply Z.pow_pos_nonneg; lia). split; [apply Z.div_pos; lia|].
  apply Z.div_lt_upper_bound; nia.
Qed.

Lemma shl_step_wf a k s pn i :
  limbs_ok a → 0 ≤ s < 32 → wf pn → wf (shl_step a k s pn i).
Proof.
  intros Ha Hs [Hl Hpn]. pose proof (limbs_nth a i Ha).
  unfold shl_step, wf. repeat case_match; rewrite ?length_or_at; split; try done;
    repeat apply limbs_ok_or_at; try done; try (by apply wrap_range);
    apply in_u32_shr; (done || lia).
Qed.
Lemma shr_step_wf a k s pn i :
  limbs_ok a → 0 ≤ s < 32 → wf pn → wf (shr_step a k s pn i).
Proof.
  intros Ha Hs [Hl Hpn]. pose proof (limbs_nth a i Ha).
  unfold shr_step, wf. repeat case_match; rewrite ?length_or_at; split; try done;
    repeat apply limbs_ok_or_at; try done; try (by apply wrap_range);
    apply in_u32_shr; (done || lia).
Qed.

Lemma foldl_wf {B} (f : base_uint → B → base_uint) pn l :
  (∀ pn x, wf pn → wf (f pn x)) → wf pn → wf (foldl f pn l).
Proof. intros Hf. revert pn. induction l; simpl; auto. Qed.

(** Bit [b] of limb [j] after the first [m] iterations. *)
Lemma shl_prefix_bit a k s m j b :
  limbs_ok a → 0 ≤ k → 0 ≤ s < 32 → (j < WIDTH)%nat → 0 ≤ b < 32 →
  Z.testbit (nth j (foldl (shl_step a k s) zero (seq 0 m)) 0) b =
    bool_decide (k + 1 ≤ Z.of_nat j < Z.of_nat m + k + 1) && negb (s =? 0) &&
      Z.testbit (nth (Z.to_nat (Z.of_nat j - k - 1)) a 0) (b + (32 - s))
    || bool_decide (k ≤ Z.of_nat j < Z.of_nat m + k) &&
      Z.testbit (nth (Z.to_nat (Z.of_nat j - k)) a 0) (b - s).
Proof.
  intros Ha Hk Hs Hj Hb. induction m as [|m IH].
  { rewrite !bool_decide_eq_false_2 by lia. simpl foldl.
    unfold zero. rewrite nth_lookup, lookup_replicate_2 by done. apply Z.bits_0. }
  rewrite seq_S, foldl_app. cbn [foldl Nat.add].
  assert (wf (foldl (shl_step a k s) zero (seq 0 m))) as [Hl _]
    by (apply foldl_wf; [intros; by apply shl_step_wf|apply wf_zero]).
  unfold shl_step at 1. unfold WIDTH in *.
  rewrite or_if_bit by (case_match; rewrite ?length_or_at, Z.ltb_lt; lia).
  rewrite or_if_bit by (rewrite andb_true_iff, Z.ltb_lt; lia).
  rewrite IH. unfold u32, wrap.
  rewrite Z.shiftr_spec, Z.mod_pow2_bits_low, Z.shiftl_spec by lia.
  destruct (Z.eqb_spec (Z.of_nat m + k + 1) (Z.of_nat j)) as [E1|E1];
  destruct (Z.eqb_spec (Z.of_nat m + k) (Z.of_nat j)) as [E2|E2]; [lia| | |].
  - replace (Z.to_nat (Z.of_nat j - k - 1)) with m by lia.
    rewrite (proj2 (Z.ltb_lt _ _)) by lia.
    rewrite (bool_decide_eq_true_2 (k + 1 ≤ Z.of_nat j < Z.of_nat (S m) + k + 1)) by lia.
    rewrite !bool_decide_eq_false_2 by lia. btauto.
  - replace (Z.to_nat (Z.of_nat j - k)) with m by lia.
    rewrite (proj2 (Z.ltb_lt (Z.of_nat m + k) _)) by lia.
    rewrite (bool_decide_ext (k + 1 ≤ Z.of_nat j < Z.of_nat (S m) + k + 1)
              (k + 1 ≤ Z.of_nat j < Z.of_nat m + k + 1)) by lia.
    rewrite (bool_decide_eq_true_2 (k ≤ Z.of_nat j < Z.of_nat (S m) + k)) by lia.
    rewrite (bool_decide_eq_false_2 (k ≤ Z.of_nat j < Z.of_nat m + k)) by lia. btauto.
  - rewrite (bool_decide_ext (k + 1 ≤ Z.of_nat j < Z.of_nat (S m) + k + 1)
              (k + 1 ≤ Z.of_nat j < Z.of_nat m + k + 1)) by lia.
    rewrite (bool_decide_ext (k ≤ Z.of_nat j < Z.of_nat (S m) + k)
              (k ≤ Z.of_nat j < Z.of_nat m + k)) by lia.
    btauto.
Qed.

Lemma shr_prefix_bit a k s m j b :
  limbs_ok a → 0 ≤ k → 0 ≤ s < 32 → (m ≤ WIDTH)%nat → (j < WIDTH)%nat → 0 ≤ b < 32 →
  Z.testbit (nth j (foldl (shr_step a k s) zero (seq 0 m)) 0) b =
    bool_decide (Z.of_nat j + k + 1 < Z.of_nat m) && negb (s =? 0) &&
      Z.testbit (nth (Z.to_nat (Z.of_nat j + k + 1)) a 0) (b - (32 - s))
    || bool_decide (Z.of_nat j + k < Z.of_nat m) &&
      Z.testbit (nth (Z.to_nat (Z.of_nat j + k)) a 0) (b + s).
Proof.
  intros Ha Hk Hs Hm Hj Hb. induction m as [|m IH].
  { rewrite !bool_decide_eq_false_2 by lia. simpl foldl.
    unfold zero. rewrite nth_lookup, lookup_replicate_2 by done. apply Z.bits_0. }
  rewrite seq_S, foldl_app. cbn [foldl Nat.add].
  assert (wf (foldl (shr_step a k s) zero (seq 0 m))) as [Hl _]
    by (apply foldl_wf; [intros; by apply shr_step_wf|apply wf_zero]).
  unfold shr_step at 1. unfold WIDTH in *.
  rewrite or_if_bit by (case_match; rewrite ?length_or_at, Z.leb_le; lia).
  rewrite or_if_bit by (rewrite andb_true_iff, Z.leb_le; lia).
  rewrite IH by lia. unfold u32, wrap.
  rewrite Z.shiftr_spec, Z.mod_pow2_bits_low, Z.shiftl_spec by lia.
  destruct (Z.eqb_spec (Z.of_nat m - k - 1) (Z.of_nat j)) as [E1|E1];
  destruct (Z.eqb_spec (Z.of_nat m - k) (Z.of_nat j)) as [E2|E2]; [lia| | |].
  - replace (Z.to_nat (Z.of_nat j + k + 1)) with m by lia.
    rewrite (proj2 (Z.leb_le _ _)) by lia.
    rewrite (bool_decide_eq_true_2 (Z.of_nat j + k + 1 < Z.of_nat (S m))) by lia.
    rewrite (bool_decide_eq_true_2 (Z.of_nat j + k < Z.of_nat (S m))) by lia.
    rewrite (bool_decide_eq_false_2 (Z.of_nat j + k + 1 < Z.of_nat m)) by lia.
    rewrite (bool_decide_eq_true_2 (Z.of_nat j + k < Z.of_nat m)) by lia. btauto.
  - replace (Z.to_nat (Z.of_nat j + k)) with m by lia.
    rewrite (proj2 (Z.leb_le 0 (Z.of_nat m - k))) by lia.
    rewrite (bool_decide_eq_true_2 (Z.of_nat j + k < Z.of_nat (S m))) by lia.
    rewrite !bool_decide_eq_false_2 by lia. btauto.
  - rewrite (bool_decide_ext (Z.of_nat j + k + 1 < Z.of_nat (S m))
               (Z.of_nat j + k + 1 < Z.of_nat m)) by lia.
    rewrite (bool_decide_ext (Z.of_nat j + k < Z.of_nat (S m))
               (Z.of_nat j + k < Z.of_nat m)) by lia.
    btauto.
Qed.

Lemma shift_range x : 0 ≤ x / 32 → 0 ≤ x.
Proof. intros. pose proof (Z.div_mod x 32). pose proof (Z.mod_pos_bound x 32). lia. Qed.

(** Two well-formed numbers below 2^256 are equal when their 256 bits are. *)
Lemma eq_by_bits256 x y :
  0 ≤ x < 2 ^ 256 → 0 ≤ y < 2 ^ 256 →
  (∀ n, 0 ≤ n < 256 → Z.testbit x n = Z.testbit y n) → x = y.
Proof.
  intros Hx Hy H. apply Z.bits_inj'. intros n Hn. destruct (decide (n < 256)); [auto|].
  by rewrite !(testbit_high 256) by lia.
Qed.

Lemma wf_shl a sh :
  wf a → 0 ≤ sh → wf (op_shl a sh) ∧ value (op_shl a sh) = (value a * 2 ^ sh) mod 2 ^ 256.
Proof.
  intros [Hl Ha] Hsh. set (k := sh / 32). set (s := sh mod 32).
  assert (0 ≤ k) by (apply Z.div_pos; lia).
  assert (0 ≤ s < 32) by (apply Z.mod_pos_bound; lia).
  assert (sh = 32 * k + s) as Esh by (apply Z.div_mod; lia).
  assert (wf (op_shl a sh)) as Hwf
    by (apply foldl_wf; [intros; by apply shl_step_wf|apply wf_zero]).
  split; [done|]. apply eq_by_bits256; [by apply value_wf_range|apply Z.mod_pos_bound; lia|].
  intros n Hn. rewrite Z.mod_pow2_bits_low, value_testbit by (apply Hwf || lia).
  unfold op_shl. fold k s. set (j := n / 32). set (b := n mod 32).
  assert (0 ≤ j < 8) by (subst j; split; [apply Z.div_pos|apply Z.div_lt_upper_bound]; lia).
  assert (0 ≤ b < 32) by (apply Z.mod_pos_bound; lia).
  assert (n = 32 * j + b) as En by (apply Z.div_mod; lia).
  rewrite shl_prefix_bit, Z2Nat.id by (done || unfold WIDTH; lia).
  rewrite <- shl_mul, Z.shiftl_spec by lia.
  destruct (decide (0 ≤ n - sh)) as [Hge|Hlt].
  - rewrite value_testbit by done. destruct (decide (s ≤ b)).
    + assert ((n - sh) / 32 = j - k) as -> by (symmetry; apply (Z.div_unique _ _ _ (b - s)); lia).
      assert ((n - sh) mod 32 = b - s) as ->
        by (symmetry; apply (Z.mod_unique _ _ (j - k)); lia).
      rewrite (bool_decide_eq_true_2 (k ≤ j < _)) by (unfold WIDTH; lia).
      rewrite (testbit_high 32 _ (b + (32 - s))) by (apply limbs_nth || lia; done).
      by rewrite andb_false_r.
    + assert ((n - sh) / 32 = j - k - 1) as ->
        by (symmetry; apply (Z.div_unique _ _ _ (b - s + 32)); lia).
      assert ((n - sh) mod 32 = b - s + 32) as ->
        by (symmetry; apply (Z.mod_unique _ _ (j - k - 1)); lia).
      rewrite (bool_decide_eq_true_2 (k + 1 ≤ j < _)) by (unfold WIDTH; lia).
      rewrite (proj2 (Z.eqb_neq s 0)), (Z.testbit_neg_r _ (b - s)) by lia.
      rewrite andb_false_r, orb_false_r. cbn. f_equal. lia.
  - rewrite (Z.testbit_neg_r _ (n - sh)) by lia.
    rewrite (bool_decide_eq_false_2 (k + 1 ≤ j < _)) by lia. cbn.
    destruct (decide (k ≤ j)); [|by rewrite bool_decide_eq_false_2 by lia].
    rewrite (Z.testbit_neg_r _ (b - s)) by lia. apply andb_false_r.
Qed.

Lemma wf_shr a sh :
  wf a → 0 ≤ sh → wf (op_shr a sh) ∧ value (op_shr a sh) = value a / 2 ^ sh.
Proof.
  intros [Hl Ha] Hsh. set (k := sh / 32). set (s := sh mod 32).
  assert (0 ≤ k) by (apply Z.div_pos; lia).
  assert (0 ≤ s < 32) by (apply Z.mod_pos_bound; lia).
  assert (sh = 32 * k + s) as Esh by (apply Z.div_mod; lia).
  assert (wf (op_shr a sh)) as Hwf
    by (apply foldl_wf; [intros; by apply shr_step_wf|apply wf_zero]).
  assert (0 < 2 ^ sh) by (apply Z.pow_pos_nonneg; lia).
  pose proof (value_wf_range a (conj Hl Ha)) as Hva.
  split; [done|]. apply eq_by_bits256; [by apply value_wf_range| |].
  { split; [apply Z.div_pos; lia|]. apply Z.div_lt_upper_bound; nia. }
  intros n Hn. rewrite Z.div_pow2_bits, value_testbit by (apply Hwf || lia).
  unfold op_shr. fold k s. set (j := n / 32). set (b := n mod 32).
  assert (0 ≤ j < 8) by (subst j; split; [apply Z.div_pos|apply Z.div_lt_upper_bound]; lia).
  assert (0 ≤ b < 32) by (apply Z.mod_pos_bound; lia).
  assert (n = 32 * j + b) as En by (apply Z.div_mod; lia).
  rewrite shr_prefix_bit, Z2Nat.id by (done || unfold WIDTH; lia).
  rewrite value_testbit by (done || lia).
  assert (∀ i, 8 ≤ i → nth (Z.to_nat i) a 0 = 0) as Hout
    by (intros; apply nth_overflow; unfold WIDTH in *; lia).
  destruct (decide (b + s < 32)).
  - assert ((n + sh) / 32 = j + k) as -> by (symmetry; apply (Z.div_unique _ _ _ (b + s)); lia).
    assert ((n + sh) mod 32 = b + s) as ->
      by (symmetry; apply (Z.mod_unique _ _ (j + k)); lia).
    rewrite (Z.testbit_neg_r _ (b - (32 - s))) by lia. rewrite andb_false_r. cbn.
    case_bool_decide; [done|]. rewrite Hout by (unfold WIDTH in *; lia). by rewrite Z.bits_0.
  - assert ((n + sh) / 32 = j + k + 1) as ->
      by (symmetry; apply (Z.div_unique _ _ _ (b + s - 32)); lia).
    assert ((n + sh) mod 32 = b + s - 32) as ->
      by (symmetry; apply (Z.mod_unique _ _ (j + k + 1)); lia).
    rewrite (testbit_high 32 _ (b + s)) by (apply limbs_nth || lia; done).
    rewrite andb_false_r, orb_false_r, (proj2 (Z.eqb_neq s 0)) by lia. cbn.
    case_bool_decide; cbn; [f_equal; lia|].
    rewrite Hout by (unfold WIDTH in *; lia). by rewrite Z.bits_0.
Qed.

(** ** Comparison, bit length and division *)

Lemma value_take_S a i :
  (i < length a)%nat → value (take (S i) a) = value (take i a) + base_pow i * nth i a 0.
Proof.
  intros Hi. destruct (lookup_lt_is_Some_2 a i Hi) as [x Hx].
  rewrite (take_S_r a i x Hx), value_app, length_take_le by lia.
  rewrite nth_lookup, Hx. unfold default, id. cbn [value]. ring.
Qed.

Lemma value_take_range a i :
  limbs_ok a → (i ≤ length a)%nat → 0 ≤ value (take i a) < base_pow i.
Proof.
  intros Ha Hi. pose proof (value_range (take i a)) as H.
  rewrite length_take_le in H by lia. by apply H, Forall_take.
Qed.

Definition sign_of (c : comparison) : Z :=
  match c with Lt => -1 | Eq => 0 | Gt => 1 end.

Lemma compare_loop_correct a b n :
  wf a → wf b → (n ≤ WIDTH)%nat →
  compare_loop a b n = sign_of (value (take n a) ?= value (take n b)).
Proof.
  intros [Hla Ha] [Hlb Hb]. induction n as [|n IH]; intros Hn; [done|].
  cbn [compare_loop]. rewrite !value_take_S by lia.
  pose proof (value_take_range a n Ha). pose proof (value_take_range b n Hb).
  destruct (Z.ltb_spec (nth n a 0) (nth n b 0)).
  { rewrite (proj2 (Z.compare_lt_iff _ _)); [done|nia]. }
  rewrite Z.gtb_ltb. destruct (Z.ltb_spec (nth n b 0) (nth n a 0)).
  { rewrite (proj2 (Z.compare_gt_iff _ _)); [done|nia]. }
  rewrite IH by lia. replace (nth n a 0) with (nth n b 0) by lia.
  f_equal. by rewrite !(Z.add_comm _ (base_pow n * _)), Z.add_compare_mono_l.
Qed.

Lemma CompareTo_correct a b : wf a → wf b → CompareTo a b = sign_of (value a ?= value b).
Proof.
  intros Ha Hb. unfold CompareTo. rewrite compare_loop_correct by done.
  rewrite !firstn_all2; [done|destruct Hb; lia|destruct Ha; lia].
Qed.

Lemma op_ge_spec a b : wf a → wf b → op_ge a b = (value b <=? value a).
Proof.
  intros. unfold op_ge. rewrite CompareTo_correct by done.
  destruct (Z.compare_spec (value a) (value b)), (Z.leb_spec (value b) (value a)); lia || done.
Qed.
Lemma op_gt_spec a b : wf a → wf b → op_gt a b = (value b <? value a).
Proof.
  intros. unfold op_gt. rewrite CompareTo_correct by done.
  destruct (Z.compare_spec (value a) (value b)), (Z.ltb_spec (value b) (value a)); lia || done.
Qed.
Lemma op_le_spec a b : wf a → wf b → op_le a b = (value a <=? value b).
Proof.
  intros. unfold op_le. rewrite CompareTo_correct by done.
  destruct (Z.compare_spec (value a) (value b)), (Z.leb_spec (value a) (value b)); lia || done.
Qed.
Lemma op_lt_spec a b : wf a → wf b → op_lt a b = (value a <? value b).
Proof.
  intros. unfold op_lt. rewrite CompareTo_correct by done.
  destruct (Z.compare_spec (value a) (value b)), (Z.ltb_spec (value a) (value b)); lia || done.
Qed.
Lemma op_eq_spec a b : wf a → wf b → op_eq a b = (value a =? value b).
Proof.
  intros [Hla Ha] [Hlb Hb]. unfold op_eq.
  destruct (Z.eqb_spec (value a) (value b)) as [E|E]; case_bool_decide; try done.
  - exfalso. apply value_inj in E; [done|done|done|congruence].
  - congruence.
Qed.

Lemma EqualTo_spec a b :
  wf a → 0 ≤ b < 2 ^ 64 → EqualTo a b = (value a =? b).
Proof.
  intros [Hl Ha] Hb. destruct a as [|a0 [|a1 a]]; [done|done|].
  pose proof (carry32_range b (2 ^ 32)). pose proof (split32 b).
  pose proof (mask32_range b) as Hm. unfold in_u in Hm.
  inversion Ha as [|?? Hx0 Ha']; inversion Ha' as [|?? Hx1 Ha'']; subst. unfold in_u in *.
  assert (forallb (λ i, nth i (a0 :: a1 :: a) 0 =? 0) (seq 2 (WIDTH - 2)) = (value a =? 0)) as Hz.
  { do 7 (destruct a as [|? a]; [try discriminate Hl|]); [|discriminate Hl].
    repeat match goal with H : Forall _ (_ :: _) |- _ => inversion H; clear H; subst end.
    unfold in_u in *. cbn [forallb seq WIDTH Nat.sub nth].
    apply eq_true_iff_eq. rewrite !andb_true_iff, !Z.eqb_eq. cbn [value]. lia. }
  unfold EqualTo. rewrite Hz. pose proof (value_range a Ha'') as Hva.
  apply eq_true_iff_eq. rewrite !andb_true_iff, !Z.eqb_eq. cbn [value nth].
  generalize dependent (value a). intros; lia.
Qed.

Lemma log2_high v m x :
  0 ≤ m → 0 ≤ v < 2 ^ m → 0 < x → Z.log2 (v + 2 ^ m * x) = m + Z.log2 x.
Proof.
  intros Hm Hv Hx. pose proof (Z.log2_spec x Hx) as [Hlo Hhi].
  pose proof (Z.log2_nonneg x).
  rewrite Z.pow_succ_r in Hhi by done.
  apply Z.log2_unique; [lia|]. rewrite Z.pow_succ_r, Z.pow_add_r by lia. nia.
Qed.

Lemma top_bit_correct x n : 0 < x < 2 ^ (Z.of_nat n + 1) → top_bit x n = Z.log2 x + 1.
Proof.
  induction n as [|n IH]; intros Hx.
  { change (2 ^ (Z.of_nat 0 + 1)) with 2 in Hx. by replace x with 1 by lia. }
  cbn [top_bit].
  assert (x &' (1 <<' Z.of_nat (S n)) =? 0 = negb (Z.testbit x (Z.of_nat (S n)))) as ->.
  { rewrite Z.shiftl_1_l. apply eq_true_iff_eq. rewrite Z.eqb_eq, negb_true_iff. split.
    - intros H%(f_equal (λ z, Z.testbit z (Z.of_nat (S n)))).
      rewrite Z.land_spec, Z.pow2_bits_true, Z.bits_0, andb_true_r in H by lia. done.
    - intros H. apply Z.bits_inj'. intros k Hk. rewrite Z.land_spec, Z.bits_0.
      rewrite Z.pow2_bits_eqb by lia. destruct (Z.eqb_spec (Z.of_nat (S n)) k) as [<-|].
      + by rewrite H.
      + apply andb_false_r. }
  destruct (Z.testbit x (Z.of_nat (S n))) eqn:Hb; cbn [negb].
  - destruct (decide (x < 2 ^ Z.of_nat (S n))) as [Hlt|Hge].
    { rewrite (testbit_high (Z.of_nat (S n))) in Hb by lia. done. }
    f_equal. symmetry. apply Z.log2_unique; [lia|]. rewrite <- Z.add_1_r. lia.
  - apply IH. split; [lia|]. apply bounded_testbit; [lia|lia|].
    intros k Hk. destruct (decide (k = Z.of_nat (S n))) as [->|]; [done|].
    apply (testbit_high (Z.of_nat (S n) + 1)); lia.
Qed.

(** The bit length: zero for zero, the position of the top bit plus one otherwise. *)
Definition bit_length (v : Z) : Z := if v =? 0 then 0 else Z.log2 v + 1.

Lemma bits_loop_correct a n :
  wf a → (n ≤ WIDTH)%nat → bits_loop a n = bit_length (value (take n a)).
Proof.
  intros [Hl Ha]. induction n as [|n IH]; intros Hn; [done|].
  cbn [bits_loop]. pose proof (limbs_nth a n Ha) as Hx. unfold in_u in Hx.
  rewrite value_take_S by lia. pose proof (value_take_range a n Ha ltac:(lia)) as Hv.
  destruct (Z.eqb_spec (nth n a 0) 0) as [->|Hne].
  { rewrite IH by lia. f_equal. lia. }
  unfold bit_length, base_pow in *.
  destruct (Z.eqb_spec (value (take n a) + 2 ^ (32 * Z.of_nat n) * nth n a 0) 0); [nia|].
  rewrite log2_high, top_bit_correct by (change (2 ^ (Z.of_nat 31 + 1)) with (2 ^ 32); lia).
  lia.
Qed.
Lemma bits_correct a : wf a → bits a = bit_length (value a).
Proof.
  intros Ha. unfold bits. rewrite bits_loop_correct by done.
  rewrite firstn_all2; [done|destruct Ha; lia].
Qed.

Lemma bit_length_spec v : 0 < v → 2 ^ (bit_length v - 1) ≤ v < 2 ^ bit_length v.
Proof.
  intros Hv. unfold bit_length. destruct (Z.eqb_spec v 0); [lia|].
  pose proof (Z.log2_spec v Hv). rewrite Z.add_simpl_r, Z.add_1_r. lia.
Qed.
Lemma bit_length_pos v : 0 < v → 0 < bit_length v.
Proof.
  intros Hv. unfold bit_length. destruct (Z.eqb_spec v 0); [lia|].
  pose proof (Z.log2_nonneg v). lia.
Qed.
Lemma bit_length_le v w : 0 ≤ w → 0 ≤ v < 2 ^ w → 0 ≤ bit_length v ≤ w.
Proof.
  intros Hw Hv. unfold bit_length. destruct (Z.eqb_spec v 0); [lia|].
  pose proof (Z.log2_nonneg v). pose proof (Z.log2_lt_pow2 v w ltac:(lia)). lia.
Qed.

Lemma set_bit_correct n q :
  wf q → (n < 256)%nat → Z.testbit (value q) (Z.of_nat n) = false →
  wf (set_bit n q) ∧ value (set_bit n q) = value q + 2 ^ Z.of_nat n.
Proof.
  intros [Hl Hq] Hn Hbit. unfold set_bit.
  assert (n mod 32 < 32)%nat by (apply Nat.mod_upper_bound; lia).
  assert (n / 32 < 8)%nat by (apply Nat.Div0.div_lt_upper_bound; lia).
  assert (in_u 32 (1 <<' Z.of_nat (n mod 32))) as Hin.
  { rewrite Z.shiftl_1_l. split; [lia|]. apply Z.pow_lt_mono_r; lia. }
  assert (wf (or_at (Z.of_nat (n / 32)) (1 <<' Z.of_nat (n mod 32)) q)) as Hwf
    by (split; [by rewrite length_or_at|by apply limbs_ok_or_at]).
  split; [done|].
  assert (Z.land (value q) (2 ^ Z.of_nat n) = 0) as Hland.
  { apply Z.bits_inj'. intros k Hk. rewrite Z.land_spec, Z.bits_0, Z.pow2_bits_eqb by lia.
    destruct (Z.eqb_spec (Z.of_nat n) k) as [<-|]; [by rewrite Hbit|apply andb_false_r]. }
  rewrite <- (Z.add_lor_land (value q)), Hland, Z.add_0_r.
  apply Z.bits_inj'. intros k Hk. rewrite value_testbit by (apply Hwf || done).
  rewrite (or_if_bit true) by (unfold WIDTH in *; lia).
  rewrite Z.lor_spec, value_testbit by done. f_equal. cbn [andb].
  rewrite Z.shiftl_1_l, !Z.pow2_bits_eqb by lia.
  rewrite Z2Nat.id by (apply Z.div_pos; lia).
  rewrite Nat2Z.inj_div, Nat2Z.inj_mod. change (Z.of_nat 32) with 32.
  pose proof (Z.div_mod (Z.of_nat n) 32). pose proof (Z.div_mod k 32).
  apply eq_true_iff_eq. rewrite andb_true_iff, !Z.eqb_eq. split; [lia|]. by intros ->.
Qed.

Lemma div_loop_correct D n num div q :
  0 < D → wf num → wf div → wf q → (n ≤ 256)%nat →
  value num < D * 2 ^ Z.of_nat n →
  (∀ m, n = S m → value div = D * 2 ^ Z.of_nat m) →
  value q mod 2 ^ Z.of_nat n = 0 →
  wf (div_loop n num div q) ∧
  value (div_loop n num div q) = value q + value num / D.
Proof.
  intros HD. revert num div q. induction n as [|n IH]; intros num div q Hnum Hdiv Hq Hn Hlt Hd Hm.
  { cbn [div_loop]. split; [done|]. pose proof (value_wf_range num Hnum).
    change (2 ^ Z.of_nat 0) with 1 in Hlt. rewrite Z.div_small; lia. }
  specialize (Hd n eq_refl). cbn [div_loop].
  destruct (wf_shr div 1 Hdiv ltac:(lia)) as [Hdiv' Hdv'].
  assert (2 ^ Z.of_nat (S n) = 2 * 2 ^ Z.of_nat n) as Hpow
    by (rewrite Nat2Z.inj_succ, Z.pow_succ_r; lia).
  assert (0 < 2 ^ Z.of_nat n) by (apply Z.pow_pos_nonneg; lia).
  assert (∀ m, n = S m → value (op_shr div 1) = D * 2 ^ Z.of_nat m) as Hd'.
  { intros m ->. rewrite Hdv', Hd, Nat2Z.inj_succ, Z.pow_succ_r by lia.
    change (2 ^ 1) with 2. symmetry. apply (Z.div_unique _ _ _ 0); lia. }
  assert (value q mod 2 ^ Z.of_nat n = 0) as Hm'.
  { apply Z.mod_divide in Hm as [z Hz]; [|lia]. rewrite Hz, Hpow.
    replace (z * (2 * 2 ^ Z.of_nat n)) with (z * 2 * 2 ^ Z.of_nat n) by ring.
    by apply Z.mod_mul; lia. }
  pose proof (value_wf_range num Hnum) as Hrn.
  rewrite op_ge_spec by done. destruct (Z.leb_spec (value div) (value num)) as [Hge|Hge].
  - destruct (wf_sub num div Hnum Hdiv) as [Hnum' Hsub].
    pose proof (value_wf_range div Hdiv). rewrite Z.mod_small in Hsub by lia.
    assert (Z.testbit (value q) (Z.of_nat n) = false) as Hbit.
    { rewrite <- (Z.mod_pow2_bits_low _ (Z.of_nat (S n))) by lia. by rewrite Hm, Z.bits_0. }
    destruct (set_bit_correct n q Hq ltac:(lia) Hbit) as [Hq' Hvq'].
    destruct (IH (op_sub num div) (op_shr div 1) (set_bit n q)) as [Hw Hv];
      [done|done|done|lia|nia|done| |].
    { rewrite Hvq', <- Z.add_mod_idemp_l, Hm', Z.add_0_l by lia. by apply Z.mod_same; lia. }
    split; [done|]. rewrite Hv, Hvq', Hsub, Hd.
    replace (value num) with (value num - D * 2 ^ Z.of_nat n + 2 ^ Z.of_nat n * D) at 2 by ring.
    rewrite Z.div_add by lia. lia.
  - apply IH; [done|done|done|lia|nia|done|done].
Qed.

Lemma wf_div a b :
  wf a → wf b →
  op_div a b = Err division_by_zero ∧ value b = 0 ∨
  ∃ q, op_div a b = Ok q ∧ wf q ∧ value b ≠ 0 ∧ value q = value a / value b.
Proof.
  intros Ha Hb. pose proof (value_wf_range a Ha). pose proof (value_wf_range b Hb).
  unfold op_div. rewrite !bits_correct by done.
  destruct (decide (value b = 0)) as [E|E]; [left; by rewrite E|right].
  pose proof (bit_length_pos (value b) ltac:(lia)).
  pose proof (bit_length_spec (value b) ltac:(lia)) as [Hb1 Hb2].
  destruct (Z.eqb_spec (bit_length (value b)) 0); [lia|].
  destruct (Z.ltb_spec (bit_length (value a)) (bit_length (value b))) as [Hlt|Hge].
  { exists zero. split_and!; [done|apply wf_zero|done|]. unfold zero. rewrite value_zeros.
    symmetry. apply Z.div_small. destruct (decide (value a = 0)); [lia|].
    pose proof (bit_length_spec (value a) ltac:(lia)).
    assert (2 ^ bit_length (value a) ≤ 2 ^ (bit_length (value b) - 1))
      by (apply Z.pow_le_mono_r; lia). lia. }
  assert (0 < value a) as Hpa.
  { destruct (decide (value a = 0)) as [E0|]; [|lia]. rewrite E0 in Hge. cbn in Hge. lia. }
  pose proof (bit_length_spec (value a) Hpa) as [Ha1 Ha2].
  pose proof (bit_length_le (value a) 256 ltac:(lia) ltac:(lia)).
  set (sh := bit_length (value a) - bit_length (value b)) in *.
  assert (value b * 2 ^ sh < 2 ^ bit_length (value a)) as Hsmall.
  { replace (bit_length (value a)) with (bit_length (value b) + sh) by lia.
    rewrite Z.pow_add_r by lia. apply Z.mul_lt_mono_pos_r; [apply Z.pow_pos_nonneg|]; lia. }
  assert (2 ^ bit_length (value a) ≤ 2 ^ 256) by (apply Z.pow_le_mono_r; lia).
  destruct (wf_shl b sh Hb ltac:(lia)) as [Hwd Hvd].
  rewrite Z.mod_small in Hvd by (split; [apply Z.mul_nonneg_nonneg; lia|lia]).
  destruct (div_loop_correct (value b) (Z.to_nat sh + 1) a (op_shl b sh) zero) as [Hwq Hvq].
  - lia.
  - done.
  - done.
  - apply wf_zero.
  - lia.
  - replace (Z.of_nat (Z.to_nat sh + 1)) with (sh + 1) by lia.
    replace (bit_length (value a)) with ((bit_length (value b) - 1) + (sh + 1)) in Ha2 by lia.
    rewrite Z.pow_add_r in Ha2 by lia.
    assert (0 < 2 ^ (sh + 1)) by (apply Z.pow_pos_nonneg; lia). nia.
  - intros m Hm. rewrite Hvd. do 2 f_equal. lia.
  - unfold zero. rewrite value_zeros. apply Z.mod_0_l.
    assert (0 < 2 ^ Z.of_nat (Z.to_nat sh + 1)) by (apply Z.pow_pos_nonneg; lia). lia.
  - eexists. split_and!; [done|done|done|]. rewrite Hvq. unfold zero. by rewrite value_zeros.
Qed.

End BaseUint.
Import BaseUint.

(** [SetCompact] returns the target with the two output flags. *)
Definition SetCompact (nCompact : Z) : base_uint * bool * bool :=
  let nSize := nCompact >>' 24 in
  let nWord := nCompact &' 0x007fffff in
  let '(nWord, target) :=
    if nSize <=? 3 then
      let nWord := nWord >>' (8 * (3 - nSize)) in (nWord, of_u64 nWord)
    else (nWord, op_shl (of_u64 nWord) (8 * (nSize - 3))) in
  (target,
   negb (nWord =? 0) && negb (nCompact &' 0x00800000 =? 0),
   negb (nWord =? 0) && ((nSize >? 34) || ((nWord >? 0xff) && (nSize >? 33))
                         || ((nWord >? 0xffff) && (nSize >? 32)))).
Definition SetCompact_target (nCompact : Z) : base_uint := (SetCompact nCompact).1.1.

(** [GetCompact]; [None] is a failed assertion. *)
Definition GetCompact (a : base_uint) (fNegative : bool) : option Z :=
  let nSize := (bits a + 7) / 8 in
  let nCompact :=
    if nSize <=? 3 then u32 (u64 (GetLow64 a <<' (8 * (3 - nSize))))
    else u32 (GetLow64 (op_shr a (8 * (nSize - 3)))) in
  let '(nCompact, nSize) :=
    if nCompact &' 0x00800000 =? 0 then (nCompact, nSize)
    else (nCompact >>' 8, nSize + 1) in
  if negb (nCompact &' u32 (Z.lnot 0x007fffff) =? 0) then None
  else if negb (nSize <? 256) then None
  else
    let nCompact := nCompact |' u32 (nSize <<' 24) in
    Some (nCompact |' (if fNegative && negb (nCompact &' 0x007fffff =? 0)
                       then 0x00800000 else 0)).

(** ReadLE32/WriteLE32 (crypto/common.h) and the [uint256] conversions. *)
Definition WriteLE32 (x : Z) : bytes :=
  [u8 x; u8 (x >>' 8); u8 (x >>' 16); u8 (x >>' 24)].
Definition ReadLE32 (p : bytes) (off : nat) : Z :=
  nth off p 0 |' (nth (off + 1) p 0 <<' 8) |' (nth (off + 2) p 0 <<' 16)
  |' (nth (off + 3) p 0 <<' 24).
Definition ArithToUint256 (a : base_uint) : bytes := a ≫= WriteLE32.
Definition UintToArith256 (b : bytes) : base_uint :=
  (λ x, ReadLE32 b (x * 4)) <$> seq 0 WIDTH.

(** ** The compact format *)

Lemma GetLow64_correct a : wf a → GetLow64 a = value a mod 2 ^ 64.
Proof.
  intros [Hl Ha]. destruct a as [|a0 [|a1 a]]; [done|done|].
  inversion Ha as [|?? Hx0 Ha']; inversion Ha' as [|?? Hx1 Ha'']; subst. unfold in_u in *.
  unfold GetLow64. cbn [nth value]. rewrite shl_mul by lia. rewrite u64_small by lia.
  rewrite Z.lor_comm, lor_add_disjoint by lia.
  replace (a0 + 2 ^ 32 * (a1 + 2 ^ 32 * value a)) with (a1 * 2 ^ 32 + a0 + value a * 2 ^ 64) by ring.
  rewrite Z.mod_add, Z.mod_small; lia.
Qed.

(** The (mantissa, exponent) pair [GetCompact] computes for a value [v]. *)
Definition byte_length (v : Z) : Z := (bit_length v + 7) / 8.
Definition raw_mantissa (v : Z) : Z :=
  if byte_length v <=? 3 then v * 2 ^ (8 * (3 - byte_length v))
  else v / 2 ^ (8 * (byte_length v - 3)).
Definition compact_parts (v : Z) : Z * Z :=
  if raw_mantissa v <? 2 ^ 23 then (raw_mantissa v, byte_length v)
  else (raw_mantissa v / 2 ^ 8, byte_length v + 1).

Lemma byte_length_spec v :
  0 < v →
  1 ≤ byte_length v ∧ 2 ^ (8 * (byte_length v - 1)) ≤ v < 2 ^ (8 * byte_length v).
Proof.
  intros Hv. pose proof (bit_length_pos v Hv). pose proof (bit_length_spec v Hv) as [Hlo Hhi].
  pose proof (Z.div_mod (bit_length v + 7) 8 ltac:(lia)) as Hd. fold (byte_length v) in Hd.
  pose proof (Z.mod_pos_bound (bit_length v + 7) 8 ltac:(lia)).
  split; [lia|]. split.
  - eapply Z.le_trans; [|exact Hlo]. apply Z.pow_le_mono_r; lia.
  - eapply Z.lt_le_trans; [exact Hhi|]. apply Z.pow_le_mono_r; lia.
Qed.

(** Before normalisation the mantissa has exactly three bytes. *)
Lemma raw_mantissa_spec v : 0 < v → 2 ^ 16 ≤ raw_mantissa v < 2 ^ 24.
Proof.
  intros Hv. destruct (byte_length_spec v Hv) as (Hs & Hlo & Hhi).
  unfold raw_mantissa. destruct (Z.leb_spec (byte_length v) 3).
  - assert (byte_length v = 1 ∨ byte_length v = 2 ∨ byte_length v = 3) as [E|[E|E]] by lia;
      rewrite E in *; cbn in *; lia.
  - set (k := 8 * (byte_length v - 3)) in *. assert (0 < 2 ^ k) by (apply Z.pow_pos_nonneg; lia).
    replace (8 * (byte_length v - 1)) with (16 + k) in Hlo by lia.
    replace (8 * byte_length v) with (24 + k) in Hhi by lia. rewrite Z.pow_add_r in * by lia.
    split; [apply Z.div_le_lower_bound|apply Z.div_lt_upper_bound]; lia.
Qed.
Lemma raw_mantissa_range v : 0 ≤ v → 0 ≤ raw_mantissa v < 2 ^ 24.
Proof.
  intros Hv. destruct (decide (v = 0)) as [->|]; [by vm_compute|].
  pose proof (raw_mantissa_spec v). lia.
Qed.

Lemma compact_parts_range v m s :
  0 ≤ v < 2 ^ 256 → compact_parts v = (m, s) →
  0 ≤ m < 2 ^ 23 ∧ 0 ≤ s ≤ 33 ∧ (s = 33 → m < 2 ^ 16).
Proof.
  intros Hv. destruct (decide (v = 0)) as [->|]; [by intros [= <- <-]|].
  pose proof (raw_mantissa_spec v ltac:(lia)) as Hm. unfold compact_parts.
  pose proof (bit_length_le v 256 ltac:(lia) Hv).
  destruct (byte_length_spec v ltac:(lia)) as (Hs & _).
  assert (byte_length v < 33) by (apply Z.div_lt_upper_bound; lia).
  destruct (Z.ltb_spec (raw_mantissa v) (2 ^ 23)); intros [= <- <-]; [lia|].
  assert (0 ≤ raw_mantissa v / 2 ^ 8 < 2 ^ 16)
    by (split; [apply Z.div_pos|apply Z.div_lt_upper_bound]; lia).
  lia.
Qed.

Lemma bit23_clear m : 0 ≤ m < 2 ^ 24 → (m &' 0x00800000 =? 0) = (m <? 2 ^ 23).
Proof.
  intros Hm. change 0x00800000 with (2 ^ 23).
  destruct (Z.ltb_spec m (2 ^ 23)) as [H|H].
  - apply Z.eqb_eq, Z.bits_inj'. intros n Hn.
    rewrite Z.land_spec, Z.pow2_bits_eqb, Z.bits_0 by lia.
    destruct (Z.eqb_spec 23 n) as [<-|]; [|apply andb_false_r].
    by rewrite (testbit_high 23) by lia.
  - apply Z.eqb_neq. intros E%(f_equal (λ z, Z.testbit z 23)).
    rewrite Z.land_spec, Z.pow2_bits_true, Z.bits_0, andb_true_r in E by lia.
    assert (m < 2 ^ 23); [|lia]. apply bounded_testbit; [lia|lia|].
    intros n Hn. destruct (decide (n = 23)) as [->|]; [done|].
    apply (testbit_high 24); lia.
Qed.

Lemma mask_high_zero m : 0 ≤ m < 2 ^ 23 → m &' u32 (Z.lnot 0x007fffff) = 0.
Proof.
  intros Hm. change (u32 (Z.lnot 0x007fffff)) with ((2 ^ 9 - 1) * 2 ^ 23).
  apply Z.bits_inj'. intros n Hn. rewrite Z.land_spec, Z.bits_0.
  destruct (decide (n < 23)).
  - rewrite Z.mul_pow2_bits_low by lia. apply andb_false_r.
  - by rewrite (testbit_high 23) by lia.
Qed.

(** Neither assertion of [GetCompact] fails, and the result packs the exponent
    byte above the 23-bit mantissa. *)
Lemma GetCompact_parts a m s :
  wf a → compact_parts (value a) = (m, s) → GetCompact a false = Some (s * 2 ^ 24 + m).
Proof.
  intros Ha Hp. pose proof (value_wf_range a Ha) as Hv.
  destruct (compact_parts_range _ _ _ Hv Hp) as (Hm & Hs & _).
  unfold GetCompact. rewrite bits_correct by done. fold (byte_length (value a)).
  assert ((if byte_length (value a) <=? 3
           then u32 (u64 (GetLow64 a <<' (8 * (3 - byte_length (value a)))))
           else u32 (GetLow64 (op_shr a (8 * (byte_length (value a) - 3)))))
          = raw_mantissa (value a)) as ->.
  { destruct (decide (value a = 0)) as [E|E].
    { rewrite GetLow64_correct by done. by rewrite E. }
    pose proof (raw_mantissa_spec (value a) ltac:(lia)) as Hr. unfold raw_mantissa in *.
    destruct (byte_length_spec (value a) ltac:(lia)) as (Hs1 & _ & Hhi).
    destruct (Z.leb_spec (byte_length (value a)) 3) as [Hle|Hgt].
    - assert (2 ^ (8 * byte_length (value a)) ≤ 2 ^ 24) by (apply Z.pow_le_mono_r; lia).
      rewrite GetLow64_correct, Z.mod_small, shl_mul by (done || lia).
      rewrite u64_small by lia. apply u32_small. lia.
    - destruct (wf_shr a (8 * (byte_length (value a) - 3)) Ha ltac:(lia)) as [Hw Hval].
      rewrite GetLow64_correct, Hval by done. rewrite Z.mod_small by lia. apply u32_small. lia. }
  unfold compact_parts in Hp.
  pose proof (raw_mantissa_range (value a) ltac:(lia)) as Hraw.
  rewrite bit23_clear by done. rewrite <- shr_div in Hp by lia.
  destruct (raw_mantissa (value a) <? 2 ^ 23); injection Hp as -> ->;
    rewrite mask_high_zero by lia; cbn [negb Z.eqb andb];
    rewrite (proj2 (Z.ltb_lt s 256)) by lia; cbn [negb];
    rewrite Z.lor_0_r, shl_mul, u32_small by lia;
    f_equal; rewrite Z.lor_comm; apply lor_add_disjoint; lia.
Qed.

Lemma SetCompact_parts m s :
  0 ≤ m < 2 ^ 23 → 0 ≤ s < 256 →
  let '(t, neg, ovf) := SetCompact (s * 2 ^ 24 + m) in
  wf t ∧ neg = false ∧
  value t = (if s <=? 3 then m / 2 ^ (8 * (3 - s)) else (m * 2 ^ (8 * (s - 3))) mod 2 ^ 256) ∧
  (s < 33 → ovf = false) ∧ (s = 33 → m < 2 ^ 16 → ovf = false).
Proof.
  intros Hm Hs. unfold SetCompact. rewrite shr_div by lia.
  change 0x007fffff with (2 ^ 23 - 1). rewrite land_mask by lia.
  replace ((s * 2 ^ 24 + m) / 2 ^ 24) with s by (apply (Z.div_unique _ _ _ m); lia).
  replace ((s * 2 ^ 24 + m) mod 2 ^ 23) with m
    by (replace (s * 2 ^ 24 + m) with (m + (s * 2) * 2 ^ 23) by ring;
        rewrite Z.mod_add, Z.mod_small; lia).
  assert ((s * 2 ^ 24 + m) &' 0x00800000 = 0) as ->.
  { apply Z.bits_inj'. intros n Hn. change 0x00800000 with (2 ^ 23).
    rewrite Z.land_spec, Z.pow2_bits_eqb, Z.bits_0 by lia.
    destruct (Z.eqb_spec 23 n) as [<-|]; [|apply andb_false_r].
    rewrite <- (Z.mod_pow2_bits_low _ 24), Z.add_comm, Z.mod_add, Z.mod_small by lia.
    by rewrite (testbit_high 23) by lia. }
  destruct (Z.leb_spec s 3).
  - rewrite shr_div by lia.
    assert (0 ≤ m / 2 ^ (8 * (3 - s)) < 2 ^ 23).
    { assert (0 < 2 ^ (8 * (3 - s))) by (apply Z.pow_pos_nonneg; lia).
      split; [apply Z.div_pos|apply Z.div_lt_upper_bound]; nia. }
    destruct (value_of_u64 (m / 2 ^ (8 * (3 - s))) ltac:(lia)) as [Hw Hval].
    split_and!; [done|apply andb_false_r|done| |lia].
    intros _. rewrite !Z.gtb_ltb, !(proj2 (Z.ltb_ge _ s)) by lia. btauto.
  - destruct (value_of_u64 m ltac:(lia)) as [Hw Hval].
    destruct (wf_shl (of_u64 m) (8 * (s - 3)) Hw ltac:(lia)) as [Hw' Hval'].
    rewrite Hval in Hval'. rewrite !Z.gtb_ltb.
    split_and!; [done|apply andb_false_r|done| |].
    + intros. rewrite !(proj2 (Z.ltb_ge _ s)) by lia. btauto.
    + intros -> ?. rewrite (proj2 (Z.ltb_ge 34 33)), (proj2 (Z.ltb_ge 33 33)),
        (proj2 (Z.ltb_ge 0xffff m)) by lia. btauto.
Qed.

Definition compact_value (m s : Z) : Z :=
  if s <=? 3 then m / 2 ^ (8 * (3 - s)) else m * 2 ^ (8 * (s - 3)).

Lemma byte_length_unique v b :
  1 ≤ b → 2 ^ (8 * (b - 1)) ≤ v < 2 ^ (8 * b) → byte_length v = b.
Proof.
  intros Hb [Hlo Hhi]. assert (0 < 2 ^ (8 * (b - 1))) by (apply Z.pow_pos_nonneg; lia).
  destruct (byte_length_spec v ltac:(lia)) as (Hs & Hlo' & Hhi').
  assert (8 * (b - 1) < 8 * byte_length v) by (apply (Z.pow_lt_mono_r_iff 2); lia).
  assert (8 * (byte_length v - 1) < 8 * b) by (apply (Z.pow_lt_mono_r_iff 2); lia).
  lia.
Qed.

(** Clearing the [e] low bits of [v] keeps its byte length. *)
Lemma byte_length_floor v e :
  0 < v → 0 ≤ e ≤ 8 * (byte_length v - 1) →
  byte_length (v / 2 ^ e * 2 ^ e) = byte_length v.
Proof.
  intros Hv He. destruct (byte_length_spec v Hv) as (Hb & Hlo & Hhi).
  apply byte_length_unique; [done|]. assert (0 < 2 ^ e) by (apply Z.pow_pos_nonneg; lia).
  pose proof (Z.mul_div_le v (2 ^ e) ltac:(lia)). split; [|lia].
  replace (8 * (byte_length v - 1)) with ((8 * (byte_length v - 1) - e) + e) in * by lia.
  rewrite Z.pow_add_r in * by lia. apply Z.mul_le_mono_nonneg_r; [lia|].
  apply Z.div_le_lower_bound; lia.
Qed.

(** Decoding what [GetCompact] packed gives [v] with its [e] low bits cleared,
    and encoding that value again gives the same pair. *)
Lemma compact_small v m s :
  0 < v → byte_length v ≤ 2 ∨ byte_length v = 3 ∧ raw_mantissa v < 2 ^ 23 →
  compact_parts v = (m, s) → compact_value m s = v.
Proof.
  intros Hv Hb Hp. destruct (byte_length_spec v Hv) as (Hb1 & _).
  pose proof (raw_mantissa_spec v Hv) as Hr.
  unfold compact_parts, compact_value, raw_mantissa in *.
  destruct (Z.leb_spec (byte_length v) 3); [|lia].
  set (r := 8 * (3 - byte_length v)) in *.
  destruct (Z.ltb_spec (v * 2 ^ r) (2 ^ 23)); injection Hp as <- <-.
  - rewrite (proj2 (Z.leb_le (byte_length v) 3)) by lia. fold r.
    apply Z.div_mul, Z.pow_nonzero; lia.
  - rewrite (proj2 (Z.leb_le (byte_length v + 1) 3)) by lia.
    replace (8 * (3 - (byte_length v + 1))) with (r - 8) by lia.
    replace (2 ^ r) with (2 ^ (r - 8) * 2 ^ 8) by (rewrite <- Z.pow_add_r by lia; f_equal; lia).
    rewrite Z.mul_assoc, Z.div_mul by lia. apply Z.div_mul, Z.pow_nonzero; lia.
Qed.

Lemma compact_large v m s :
  0 < v → byte_length v > 3 ∨ byte_length v = 3 ∧ 2 ^ 23 ≤ raw_mantissa v →
  compact_parts v = (m, s) →
  let k := 8 * (byte_length v - 3) in
  let e := if raw_mantissa v <? 2 ^ 23 then k else k + 8 in
  m = v / 2 ^ e ∧ s > 3 ∧ e = 8 * (s - 3) ∧ 2 ^ (15 + e) ≤ v.
Proof.
  intros Hv Hb Hp k. destruct (byte_length_spec v Hv) as (_ & Hlo & _).
  assert (raw_mantissa v = v / 2 ^ k) as Hraw.
  { unfold raw_mantissa. destruct (Z.leb_spec (byte_length v) 3) as [Hle|Hle]; [|done].
    assert (byte_length v = 3) as E by lia. subst k. rewrite E. cbn. rewrite Z.div_1_r. lia. }
  unfold compact_parts in Hp. rewrite Hraw in Hp, Hb |- *.
  assert (0 < 2 ^ k) by (apply Z.pow_pos_nonneg; lia).
  destruct (Z.ltb_spec (v / 2 ^ k) (2 ^ 23)) as [Hlt|Hge]; injection Hp as <- <-; cbv zeta.
  - split_and!; [done|lia|lia|]. eapply Z.le_trans; [|exact Hlo]. apply Z.pow_le_mono_r; lia.
  - split_and!; [|lia|lia|].
    + rewrite Z.pow_add_r by lia. apply Z.div_div; lia.
    + replace (15 + (k + 8)) with (23 + k) by lia. rewrite Z.pow_add_r by lia.
      pose proof (Z.mul_div_le v (2 ^ k)). nia.
Qed.

Lemma compact_idempotent v m s :
  0 < v → compact_parts v = (m, s) → compact_parts (compact_value m s) = (m, s).
Proof.
  intros Hv Hp. pose proof (raw_mantissa_spec v Hv) as Hr.
  destruct (byte_length_spec v Hv) as (Hb1 & Hlo & Hhi).
  destruct (decide (byte_length v ≤ 2 ∨ byte_length v = 3 ∧ raw_mantissa v < 2 ^ 23)) as [D|D].
  { by rewrite (compact_small v). }
  destruct (compact_large v m s Hv ltac:(lia) Hp) as (Hm & Hs & He & _).
  set (k := 8 * (byte_length v - 3)) in *.
  unfold compact_value. rewrite (proj2 (Z.leb_gt s 3)), <- He by lia. rewrite Hm at 1.
  set (e := if raw_mantissa v <? 2 ^ 23 then k else k + 8) in *.
  assert (k ≤ e ≤ k + 8) as Hek by (subst e; case_match; lia).
  assert (0 < 2 ^ k) by (apply Z.pow_pos_nonneg; lia).
  assert (byte_length (v / 2 ^ e * 2 ^ e) = byte_length v) as Hbl by (apply byte_length_floor; lia).
  assert (raw_mantissa (v / 2 ^ e * 2 ^ e) = m * 2 ^ (e - k)) as Hraw.
  { unfold raw_mantissa. rewrite Hbl, <- Hm. fold k.
    replace (2 ^ e) with (2 ^ (e - k) * 2 ^ k) by (rewrite <- Z.pow_add_r by lia; f_equal; lia).
    rewrite Z.mul_assoc. destruct (Z.leb_spec (byte_length v) 3); [|apply Z.div_mul; lia].
    assert (byte_length v = 3) as E by lia. subst k. rewrite E. cbn. lia. }
  unfold compact_parts in Hp |- *. rewrite Hraw, Hbl. subst e.
  destruct (Z.ltb_spec (raw_mantissa v) (2 ^ 23)); injection Hp as Hm' Hs'.
  - rewrite Z.sub_diag, Z.mul_1_r. rewrite (proj2 (Z.ltb_lt m _)) by lia. congruence.
  - replace (k + 8 - k) with 8 by lia. rewrite (proj2 (Z.ltb_ge (m * 2 ^ 8) _)).
    + rewrite Z.div_mul by lia. congruence.
    + rewrite <- Hm'. change (2 ^ 23) with (2 ^ 15 * 2 ^ 8).
      apply Z.mul_le_mono_nonneg_r; [lia|]. apply Z.div_le_lower_bound; lia.
Qed.

(** Clearing low bits loses at most one part in 2^15. *)
Lemma compact_precision v m s :
  0 < v → compact_parts v = (m, s) →
  let t := compact_value m s in 0 ≤ t ≤ v ∧ 2 ^ 15 * (v - t) ≤ v.
Proof.
  intros Hv Hp. cbv zeta.
  destruct (decide (byte_length v ≤ 2 ∨ byte_length v = 3 ∧ raw_mantissa v < 2 ^ 23)) as [D|D].
  { rewrite (compact_small v); [lia|done|done|done]. }
  destruct (byte_length_spec v Hv) as (Hb & _).
  destruct (compact_large v m s Hv ltac:(lia) Hp) as (Hm & Hs & He & Hle).
  unfold compact_value. rewrite (proj2 (Z.leb_gt s 3)), <- He by lia. rewrite Hm at 1 2 3.
  set (e := if raw_mantissa v <? 2 ^ 23 then _ else _) in *.
  assert (0 ≤ e) by lia. rewrite Z.pow_add_r in Hle by lia.
  assert (0 < 2 ^ e) by (apply Z.pow_pos_nonneg; lia).
  pose proof (Z.div_mod v (2 ^ e) ltac:(lia)). pose proof (Z.mod_pos_bound v (2 ^ e) ltac:(lia)).
  pose proof (Z.div_pos v (2 ^ e) ltac:(lia) ltac:(lia)). nia.
Qed.

(** ** Conversion to and from the opaque 256-bit blob *)

Lemma le32_sum b0 b1 b2 b3 :
  is_byte b0 → is_byte b1 → is_byte b2 → is_byte b3 →
  b0 |' (b1 <<' 8) |' (b2 <<' 16) |' (b3 <<' 24)
    = b0 + b1 * 2 ^ 8 + b2 * 2 ^ 16 + b3 * 2 ^ 24.
Proof.
  unfold is_byte. intros. rewrite !shl_mul by lia.
  rewrite (Z.lor_comm b0), lor_add_disjoint by lia.
  rewrite (Z.lor_comm (_ + b0)), lor_add_disjoint by lia.
  rewrite (Z.lor_comm (_ + _)), lor_add_disjoint by lia. lia.
Qed.

Lemma byte_split x : in_u 32 x →
  u8 x + u8 (x >>' 8) * 2 ^ 8 + u8 (x >>' 16) * 2 ^ 16 + u8 (x >>' 24) * 2 ^ 24 = x.
Proof.
  unfold in_u, u8, wrap. intros. rewrite !shr_div by lia.
  change (2 ^ 16) with (2 ^ 8 * 2 ^ 8). change (2 ^ 24) with (2 ^ 8 * (2 ^ 8 * 2 ^ 8)).
  rewrite <- !Z.div_div by lia. set (a := x / 2 ^ 8). set (b := a / 2 ^ 8).
  set (c := b / 2 ^ 8).
  pose proof (Z.div_mod x (2 ^ 8)). pose proof (Z.div_mod a (2 ^ 8)).
  pose proof (Z.div_mod b (2 ^ 8)). rewrite (Z.mod_small c); [lia|].
  subst c b a. rewrite !Z.div_div by lia.
  split; [apply Z.div_pos|apply Z.div_lt_upper_bound]; lia.
Qed.

Lemma u8_byte x : is_byte (u8 x).
Proof. apply (wrap_range 8); lia. Qed.

Lemma UintToArith256_ArithToUint256 a : wf a → UintToArith256 (ArithToUint256 a) = a.
Proof.
  intros [Hl Ha]. do 9 (destruct a as [|? a]; [try discriminate Hl|]); [|discriminate Hl].
  repeat match goal with H : limbs_ok (_ :: _) |- _ => inversion H; clear H; subst
                       | H : Forall _ (_ :: _) |- _ => inversion H; clear H; subst end.
  unfold UintToArith256, ArithToUint256, ReadLE32. cbn -[Z.lor Z.shiftl Z.shiftr u8].
  repeat f_equal; rewrite le32_sum by apply u8_byte; by apply byte_split.
Qed.

Lemma UintToArith256_wf b : bytes_ok b → wf (UintToArith256 b).
Proof.
  intros Hb. split; [done|]. apply Forall_fmap, Forall_forall. intros x _. simpl.
  assert (∀ i, is_byte (nth i b 0)) as Hn.
  { intros i. destruct (nth_in_or_default i b 0) as [Hin | ->]; [|done].
    by apply (proj1 (List.Forall_forall _ _) Hb). }
  unfold ReadLE32. rewrite le32_sum by done.
  pose proof (Hn (x * 4)%nat). pose proof (Hn (x * 4 + 1)%nat).
  pose proof (Hn (x * 4 + 2)%nat). pose proof (Hn (x * 4 + 3)%nat).
  unfold is_byte, in_u in *. lia.
Qed.

(** ** Main statements *)

(** C26: On well-formed limb arrays the loops of [operator+=], [operator-=],
    [operator*=] (both overloads), unary minus, [~], [<<=] and [>>=] keep the
    representation invariant and compute the mathematical operation modulo
    2^256; no 64-bit intermediate overflows. *)
Theorem base_uint_arith_correct a b x sh :
  wf a → wf b → in_u 32 x → 0 ≤ sh →
  (wf (op_add a b) ∧ value (op_add a b) = (value a + value b) mod 2 ^ 256) ∧
  (wf (op_sub a b) ∧ value (op_sub a b) = (value a - value b) mod 2 ^ 256) ∧
  (wf (op_mul a b) ∧ value (op_mul a b) = (value a * value b) mod 2 ^ 256) ∧
  (wf (op_mul32 a x) ∧ value (op_mul32 a x) = (value a * x) mod 2 ^ 256) ∧
  (wf (op_neg a) ∧ value (op_neg a) = (- value a) mod 2 ^ 256) ∧
  (wf (op_not a) ∧ value (op_not a) = 2 ^ 256 - 1 - value a) ∧
  (wf (op_shl a sh) ∧ value (op_shl a sh) = (value a * 2 ^ sh) mod 2 ^ 256) ∧
  (wf (op_shr a sh) ∧ value (op_shr a sh) = value a / 2 ^ sh).
Proof.
  intros Ha Hb Hx Hsh.
  exact (conj (wf_add a b Ha Hb) (conj (wf_sub a b Ha Hb) (conj (wf_mul a b Ha Hb)
    (conj (wf_mul32 a x Ha Hx) (conj (wf_neg a Ha) (conj (wf_not a Ha)
    (conj (wf_shl a sh Ha Hsh) (wf_shr a sh Ha Hsh)))))))).
Qed.

Lemma base_uint_arith_correct_witness :
  value (op_mul (of_u64 0xffffffffffffffff) (of_u64 0xffffffffffffffff))
    = (0xffffffffffffffff * 0xffffffffffffffff) mod 2 ^ 256.
Proof.
  destruct (base_uint_arith_correct (of_u64 0xffffffffffffffff) (of_u64 0xffffffffffffffff) 7 3)
    as (_ & _ & H & _);
    [apply (bool_decide_unpack _); vm_compute; exact I
    |apply (bool_decide_unpack _); vm_compute; exact I|split; [lia|reflexivity]|lia|].
  exact (proj2 H).
Defined.

(** [operator/=] throws exactly on a zero divisor; otherwise its
    shift-and-subtract loop ends with the truncated quotient. *)
Theorem base_uint_div_correct a b :
  wf a → wf b →
  op_div a b = Err division_by_zero ∧ value b = 0 ∨
  ∃ q, op_div a b = Ok q ∧ wf q ∧ value b ≠ 0 ∧ value q = value a / value b.
Proof. apply wf_div. Qed.

Lemma base_uint_div_correct_witness :
  ∃ q, op_div (of_u64 1000000007) (of_u64 13) = Ok q ∧ value q = 1000000007 / 13.
Proof.
  destruct (base_uint_div_correct (of_u64 1000000007) (of_u64 13)) as [[_ H]|(q & Hq & _ & _ & Hv)];
    [apply (bool_decide_unpack _); vm_compute; exact I
    |apply (bool_decide_unpack _); vm_compute; exact I|discriminate H|].
  exists q. split; [exact Hq|exact Hv].
Defined.

(** [GetCompact] never fails an assertion; [SetCompact] decodes its result
    without setting either flag, to a value below the original by at most one
    part in 2^15; and encoding the decoded value gives the same 32-bit word. *)
Theorem compact_roundtrip a :
  wf a →
  ∃ c t, GetCompact a false = Some c ∧ in_u 32 c ∧ SetCompact c = (t, false, false) ∧
         wf t ∧ value t ≤ value a ∧ 2 ^ 15 * (value a - value t) ≤ value a ∧
         GetCompact t false = Some c.
Proof.
  intros Ha. pose proof (value_wf_range a Ha) as Hv.
  destruct (compact_parts (value a)) as [m s] eqn:Hp.
  destruct (compact_parts_range _ _ _ Hv Hp) as (Hm & Hs & H33).
  pose proof (SetCompact_parts m s Hm ltac:(lia)) as HS.
  destruct (SetCompact (s * 2 ^ 24 + m)) as [[t neg] ovf] eqn:ES.
  destruct HS as (Hwt & -> & Hvt & Ho1 & Ho2).
  assert (value t = compact_value m s) as Hvt'.
  { rewrite Hvt. unfold compact_value. destruct (Z.leb_spec s 3); [done|].
    apply Z.mod_small. split; [apply Z.mul_nonneg_nonneg; lia|].
    destruct (decide (value a = 0)) as [E|E].
    { rewrite E in Hp. vm_compute in Hp. injection Hp as <- <-. lia. }
    pose proof (compact_precision (value a) m s ltac:(lia) Hp) as Hc. cbv zeta in Hc.
    unfold compact_value in Hc. rewrite (proj2 (Z.leb_gt s 3)) in Hc by lia. lia. }
  exists (s * 2 ^ 24 + m), t.
  assert (ovf = false) as -> by (destruct (decide (s = 33)); [apply Ho2; auto|apply Ho1; lia]).
  split; [by apply GetCompact_parts|]. split; [unfold in_u; lia|]. split; [done|].
  split; [done|]. rewrite Hvt'. destruct (decide (value a = 0)) as [E|E].
  { rewrite E in Hp |- *. vm_compute in Hp. injection Hp as <- <-.
    split_and!; [done|done|]. by apply GetCompact_parts; [|rewrite Hvt']. }
  pose proof (compact_precision (value a) m s ltac:(lia) Hp) as [[_ ?] ?].
  split_and!; [done|done|]. apply GetCompact_parts; [done|]. rewrite Hvt'.
  by apply (compact_idempotent (value a)); [lia|].
Qed.

Lemma compact_roundtrip_witness :
  ∃ c t, GetCompact (of_u64 0x12345678) false = Some c ∧ SetCompact c = (t, false, false) ∧
         GetCompact t false = Some c.
Proof.
  destruct (compact_roundtrip (of_u64 0x12345678)) as (c & t & H1 & _ & H2 & _ & _ & _ & H3);
    [apply (bool_decide_unpack _); vm_compute; exact I|].
  exists c, t. split; [exact H1|]. split; [exact H2|exact H3].
Defined.
