(* ===== verification/Script.v ===== *)
(** * Scripts: numbers, opcodes, parsing and templates (script/script.h, script/script.cpp)

    A script is the list of its bytes.  An iterator into a script is modelled
    by the suffix it points at, so [pc < end] is [pc <> nil].  [GetScriptOp]
    returns the four things the source returns through its references: the
    success flag, the opcode, the pushed data and the advanced iterator (which
    moves even when the call fails). *)
From S2P Require Import Prelude ArithUint256.

(** ** Opcodes

    [opcodetype] is a C++ enumeration whose values are any byte; opcodes are
    integers with the source's names. *)

Definition OP_0 : Z := 0x00.
Definition OP_FALSE : Z := OP_0.
Definition OP_PUSHDATA1 : Z := 0x4c.
Definition OP_PUSHDATA2 : Z := 0x4d.
Definition OP_PUSHDATA4 : Z := 0x4e.
Definition OP_1NEGATE : Z := 0x4f.
Definition OP_RESERVED : Z := 0x50.
Definition OP_1 : Z := 0x51.
Definition OP_TRUE : Z := OP_1.
Definition OP_2 : Z := 0x52.
Definition OP_3 : Z := 0x53.
Definition OP_4 : Z := 0x54.
Definition OP_5 : Z := 0x55.
Definition OP_6 : Z := 0x56.
Definition OP_7 : Z := 0x57.
Definition OP_8 : Z := 0x58.
Definition OP_9 : Z := 0x59.
Definition OP_10 : Z := 0x5a.
Definition OP_11 : Z := 0x5b.
Definition OP_12 : Z := 0x5c.
Definition OP_13 : Z := 0x5d.
Definition OP_14 : Z := 0x5e.
Definition OP_15 : Z := 0x5f.
Definition OP_16 : Z := 0x60.
Definition OP_NOP : Z := 0x61.
Definition OP_VER : Z := 0x62.
Definition OP_IF : Z := 0x63.
Definition OP_NOTIF : Z := 0x64.
Definition OP_VERIF : Z := 0x65.
Definition OP_VERNOTIF : Z := 0x66.
Definition OP_ELSE : Z := 0x67.
Definition OP_ENDIF : Z := 0x68.
Definition OP_VERIFY : Z := 0x69.
Definition OP_RETURN : Z := 0x6a.
Definition OP_TOALTSTACK : Z := 0x6b.
Definition OP_FROMALTSTACK : Z := 0x6c.
Definition OP_2DROP : Z := 0x6d.
Definition OP_2DUP : Z := 0x6e.
Definition OP_3DUP : Z := 0x6f.
Definition OP_2OVER : Z := 0x70.
Definition OP_2ROT : Z := 0x71.
Definition OP_2SWAP : Z := 0x72.
Definition OP_IFDUP : Z := 0x73.
Definition OP_DEPTH : Z := 0x74.
Definition OP_DROP : Z := 0x75.
Definition OP_DUP : Z := 0x76.
Definition OP_NIP : Z := 0x77.
Definition OP_OVER : Z := 0x78.
Definition OP_PICK : Z := 0x79.
Definition OP_ROLL : Z := 0x7a.
Definition OP_ROT : Z := 0x7b.
Definition OP_SWAP : Z := 0x7c.
Definition OP_TUCK : Z := 0x7d.
Definition OP_CAT : Z := 0x7e.
Definition OP_SUBSTR : Z := 0x7f.
Definition OP_LEFT : Z := 0x80.
Definition OP_RIGHT : Z := 0x81.
Definition OP_SIZE : Z := 0x82.
Definition OP_INVERT : Z := 0x83.
Definition OP_AND : Z := 0x84.
Definition OP_OR : Z := 0x85.
Definition OP_XOR : Z := 0x86.
Definition OP_EQUAL : Z := 0x87.
Definition OP_EQUALVERIFY : Z := 0x88.
Definition OP_RESERVED1 : Z := 0x89.
Definition OP_RESERVED2 : Z := 0x8a.
Definition OP_1ADD : Z := 0x8b.
Definition OP_1SUB : Z := 0x8c.
Definition OP_2MUL : Z := 0x8d.
Definition OP_2DIV : Z := 0x8e.
Definition OP_NEGATE : Z := 0x8f.
Definition OP_ABS : Z := 0x90.
Definition OP_NOT : Z := 0x91.
Definition OP_0NOTEQUAL : Z := 0x92.
Definition OP_ADD : Z := 0x93.
Definition OP_SUB : Z := 0x94.
Definition OP_MUL : Z := 0x95.
Definition OP_DIV : Z := 0x96.
Definition OP_MOD : Z := 0x97.
Definition OP_LSHIFT : Z := 0x98.
Definition OP_RSHIFT : Z := 0x99.
Definition OP_BOOLAND : Z := 0x9a.
Definition OP_BOOLOR : Z := 0x9b.
Definition OP_NUMEQUAL : Z := 0x9c.
Definition OP_NUMEQUALVERIFY : Z := 0x9d.
Definition OP_NUMNOTEQUAL : Z := 0x9e.
Definition OP_LESSTHAN : Z := 0x9f.
Definition OP_GREATERTHAN : Z := 0xa0.
Definition OP_LESSTHANOREQUAL : Z := 0xa1.
Definition OP_GREATERTHANOREQUAL : Z := 0xa2.
Definition OP_MIN : Z := 0xa3.
Definition OP_MAX : Z := 0xa4.
Definition OP_WITHIN : Z := 0xa5.
Definition OP_RIPEMD160 : Z := 0xa6.
Definition OP_SHA1 : Z := 0xa7.
Definition OP_SHA256 : Z := 0xa8.
Definition OP_HASH160 : Z := 0xa9.
Definition OP_HASH256 : Z := 0xaa.
Definition OP_CODESEPARATOR : Z := 0xab.
Definition OP_CHECKSIG : Z := 0xac.
Definition OP_CHECKSIGVERIFY : Z := 0xad.
Definition OP_CHECKMULTISIG : Z := 0xae.
Definition OP_CHECKMULTISIGVERIFY : Z := 0xaf.
Definition OP_NOP1 : Z := 0xb0.
Definition OP_CHECKLOCKTIMEVERIFY : Z := 0xb1.
Definition OP_NOP2 : Z := OP_CHECKLOCKTIMEVERIFY.
Definition OP_CHECKSEQUENCEVERIFY : Z := 0xb2.
Definition OP_NOP3 : Z := OP_CHECKSEQUENCEVERIFY.
Definition OP_NOP4 : Z := 0xb3.
Definition OP_NOP5 : Z := 0xb4.
Definition OP_NOP6 : Z := 0xb5.
Definition OP_NOP7 : Z := 0xb6.
Definition OP_NOP8 : Z := 0xb7.
Definition OP_NOP9 : Z := 0xb8.
Definition OP_NOP10 : Z := 0xb9.
Definition OP_CREATE : Z := 0xc1.
Definition OP_CALL : Z := 0xc2.
Definition OP_SPEND : Z := 0xc3.
Definition OP_GAS_PRICE : Z := 0xf5.
Definition OP_VERSION : Z := 0xf6.
Definition OP_GAS_LIMIT : Z := 0xf7.
Definition OP_DATA : Z := 0xf8.
Definition OP_SMALLINTEGER : Z := 0xfa.
Definition OP_PUBKEYS : Z := 0xfb.
Definition OP_PUBKEYHASH : Z := 0xfd.
Definition OP_PUBKEY : Z := 0xfe.
Definition OP_INVALIDOPCODE : Z := 0xff.

Definition MAX_OPCODE : Z := OP_NOP10.
Definition MAX_SCRIPT_ELEMENT_SIZE : Z := 128000.
Definition MAX_OPS_PER_SCRIPT : Z := 201.
Definition MAX_PUBKEYS_PER_MULTISIG : Z := 20.
Definition MAX_SCRIPT_SIZE : Z := 129000.
Definition MAX_STACK_SIZE : Z := 1000.
Definition LOCKTIME_THRESHOLD : Z := 500000000.

Abbreviation CScript := bytes (only parsing).
Abbreviation valtype := bytes (only parsing).

Definition size {A} (l : list A) : Z := Z.of_nat (length l).
Lemma size_nonneg {A} (l : list A) : 0 ≤ size l.
Proof. unfold size. lia. Qed.
Definition back {A} (l : list A) : option A := last l.

(** ** Script numbers ([CScriptNum]) *)
Module ScriptNum.

Inductive scriptnum_error := number_overflow | non_minimal | negative_gas.
Definition nDefaultMaxNumSize : Z := 4.

(** The loop [while (absvalue) { push_back(absvalue & 0xff); absvalue >>= 8; }];
    a 64-bit magnitude has at most eight bytes. *)
Fixpoint abs_bytes (fuel : nat) (absvalue : Z) : bytes :=
  match fuel with
  | O => []
  | S fuel => if absvalue =? 0 then []
              else (absvalue &' 0xff) :: abs_bytes fuel (absvalue >>' 8)
  end.

(** [result.back() |= 0x80], [result.back() & 0x80]. *)
Fixpoint or_back (x : Z) (l : bytes) : bytes :=
  match l with
  | [] => []
  | [b] => [b |' x]
  | b :: l' => b :: or_back x l'
  end.
Definition back_bit7 (l : bytes) : bool :=
  match back l with Some b => negb (b &' 0x80 =? 0) | None => false end.

Definition serialize (value : Z) : bytes :=
  if value =? 0 then []
  else
    let neg := value <? 0 in
    let absvalue := u64 (if neg then - value else value) in
    let result := abs_bytes 8 absvalue in
    if back_bit7 result then result ++ [if neg then 0x80 else 0]
    else if neg then or_back 0x80 result
    else result.

(** [result |= (int64_t)vch[i] << 8*i] over the vector, from index [i]. *)
Fixpoint le_or (i : Z) (vch : bytes) (acc : Z) : Z :=
  match vch with
  | [] => acc
  | b :: vch' => le_or (i + 1) vch' (acc |' (b <<' (8 * i)))
  end.

Definition set_vch (vch : bytes) : Z :=
  match vch with
  | [] => 0
  | _ =>
    let result := i64 (le_or 0 vch 0) in
    if back_bit7 vch
    then - (i64 (u64 result &' u64 (Z.lnot (0x80 <<' (8 * (size vch - 1))))))
    else result
  end.

Definition CScriptNum (vch : bytes) (fRequireMinimal : bool) (nMaxNumSize : Z)
  : result scriptnum_error Z :=
  if size vch >? nMaxNumSize then Err number_overflow
  else if fRequireMinimal && (size vch >? 0) &&
          (default 0 (back vch) &' 0x7f =? 0) &&
          ((size vch <=? 1) || (nth (length vch - 2) vch 0 &' 0x80 =? 0))
       then Err non_minimal
  else Ok (set_vch vch).

Definition getint (m_value : Z) : Z :=
  if m_value >? 2 ^ 31 - 1 then 2 ^ 31 - 1
  else if m_value <? - 2 ^ 31 then - 2 ^ 31
  else m_value.

Definition vch_to_uint64 (vch : bytes) : result scriptnum_error Z :=
  if size vch >? 8 then Err number_overflow
  else match vch with
       | [] => Ok 0
       | _ => let result := u64 (le_or 0 vch 0) in
              if back_bit7 vch then Err negative_gas else Ok result
       end.
End ScriptNum.

(** ** Building scripts ([operator<<]) *)

Definition WriteLE16 (x : Z) : bytes := [u8 x; u8 (x >>' 8)].
Definition ReadLE16 (p : bytes) : Z := nth 0 p 0 |' (nth 1 p 0 <<' 8).

Definition push_data (script : CScript) (b : bytes) : CScript :=
  script ++
  (if size b <? OP_PUSHDATA1 then [u8 (size b)]
   else if size b <=? 0xff then [OP_PUSHDATA1; u8 (size b)]
   else if size b <=? 0xffff then OP_PUSHDATA2 :: WriteLE16 (wrap 16 (size b))
   else OP_PUSHDATA4 :: WriteLE32 (u32 (size b))) ++ b.

Definition push_int64 (script : CScript) (n : Z) : CScript :=
  if (n =? -1) || ((n >=? 1) && (n <=? 16)) then script ++ [u8 (n + (OP_1 - 1))]
  else if n =? 0 then script ++ [OP_0]
  else push_data script (ScriptNum.serialize n).

Definition push_opcode (script : CScript) (opcode : Z) : CScript := script ++ [u8 opcode].

Definition DecodeOP_N (opcode : Z) : Z :=
  if opcode =? OP_0 then 0 else opcode - (OP_1 - 1).
Definition EncodeOP_N (n : Z) : Z := if n =? 0 then OP_0 else OP_1 + n - 1.

(** ** Reading scripts *)

(** [GetScriptOp(pc, end, opcodeRet, pvchRet)]. *)
Definition GetScriptOp (pc : bytes) : bool * Z * bytes * bytes :=
  match pc with
  | [] => (false, OP_INVALIDOPCODE, [], pc)
  | opcode :: pc =>
      if opcode <=? OP_PUSHDATA4 then
        let fail pc := (false, OP_INVALIDOPCODE, [], pc) in
        let push nSize pc :=
          if size pc <? nSize then fail pc
          else (true, opcode, take (Z.to_nat nSize) pc, drop (Z.to_nat nSize) pc) in
        if opcode <? OP_PUSHDATA1 then push opcode pc
        else if opcode =? OP_PUSHDATA1 then
          match pc with [] => fail pc | n :: pc => push n pc end
        else if opcode =? OP_PUSHDATA2 then
          if size pc <? 2 then fail pc else push (ReadLE16 pc) (drop 2 pc)
        else
          if size pc <? 4 then fail pc else push (ReadLE32 pc 0) (drop 4 pc)
      else (true, opcode, [], pc)
  end.

(** The loops over a script run at most once per byte; [fuel] is the length of
    the script and runs out exactly when [pc] reaches the end. *)
Fixpoint Find_loop (fuel : nat) (op : Z) (pc : bytes) (nFound : Z) : Z :=
  match fuel with
  | O => nFound
  | S fuel =>
      match pc with
      | [] => nFound
      | _ => let '(ok, opcode, _, pc') := GetScriptOp pc in
             if ok then Find_loop fuel op pc' (if opcode =? op then nFound + 1 else nFound)
             else nFound
      end
  end.
Definition Find (script : CScript) (op : Z) : Z := Find_loop (length script) op script 0.

Definition HasOpCreate (script : CScript) : bool := Find script OP_CREATE =? 1.
Definition HasOpCall (script : CScript) : bool := Find script OP_CALL =? 1.
Definition HasOpSpend (script : CScript) : bool :=
  (size script =? 1) && (nth 0 script 0 =? OP_SPEND).

Definition IsUnspendable (script : CScript) : bool :=
  ((size script >? 0) && (nth 0 script 0 =? OP_RETURN)) || (size script >? MAX_SCRIPT_SIZE).

Fixpoint GetSigOpCount_loop (fuel : nat) (fAccurate : bool) (lastOpcode : Z) (pc : bytes) (n : Z) : Z :=
  match fuel with
  | O => n
  | S fuel =>
      match pc with
      | [] => n
      | _ =>
        let '(ok, opcode, _, pc') := GetScriptOp pc in
        if negb ok then n
        else
          let n :=
            if (opcode =? OP_CHECKSIG) || (opcode =? OP_CHECKSIGVERIFY) then u32 (n + 1)
            else if (opcode =? OP_CHECKMULTISIG) || (opcode =? OP_CHECKMULTISIGVERIFY) then
              if fAccurate && (lastOpcode >=? OP_1) && (lastOpcode <=? OP_16)
              then u32 (n + DecodeOP_N lastOpcode)
              else u32 (n + MAX_PUBKEYS_PER_MULTISIG)
            else n in
          GetSigOpCount_loop fuel fAccurate opcode pc' n
      end
  end.
Definition GetSigOpCount (script : CScript) (fAccurate : bool) : Z :=
  GetSigOpCount_loop (length script) fAccurate OP_INVALIDOPCODE script 0.

Definition at_ (s : bytes) (i : nat) : Z := nth i s 0.

Definition IsPayToScriptHash (s : CScript) : bool :=
  (size s =? 23) && (at_ s 0 =? OP_HASH160) && (at_ s 1 =? 0x14) && (at_ s 22 =? OP_EQUAL).

Definition IsPayToPubkey (s : CScript) : bool :=
  ((size s =? 35) && (at_ s 0 =? 33) && (at_ s 34 =? OP_CHECKSIG)
     && ((at_ s 1 =? 0x02) || (at_ s 1 =? 0x03)))
  || ((size s =? 67) && (at_ s 0 =? 65) && (at_ s 66 =? OP_CHECKSIG) && (at_ s 1 =? 0x04)).

Definition IsPayToPubkeyHash (s : CScript) : bool :=
  (size s =? 25) && (at_ s 0 =? OP_DUP) && (at_ s 1 =? OP_HASH160) && (at_ s 2 =? 0x14)
  && (at_ s 23 =? OP_EQUALVERIFY) && (at_ s 24 =? OP_CHECKSIG).

Definition IsPayToWitnessScriptHash (s : CScript) : bool :=
  (size s =? 34) && (at_ s 0 =? OP_0) && (at_ s 1 =? 0x20).

(** [IsWitnessProgram] returns the version and the program it writes. *)
Definition IsWitnessProgram (s : CScript) : option (Z * bytes) :=
  if (size s <? 4) || (size s >? 42) then None
  else if negb (at_ s 0 =? OP_0) && ((at_ s 0 <? OP_1) || (at_ s 0 >? OP_16)) then None
  else if at_ s 1 + 2 =? size s then Some (DecodeOP_N (at_ s 0), drop 2 s)
  else None.

(** The last data item a push-only script leaves, [None] on a parse failure or
    an opcode above [OP_16]: the loop of [GetSigOpCount(const CScript&)]. *)
Fixpoint last_push_loop (fuel : nat) (pc vData : bytes) : option bytes :=
  match fuel with
  | O => Some vData
  | S fuel =>
      match pc with
      | [] => Some vData
      | _ => let '(ok, opcode, vData, pc') := GetScriptOp pc in
             if negb ok then None
             else if opcode >? OP_16 then None
             else last_push_loop fuel pc' vData
      end
  end.
Definition GetSigOpCount_p2sh (script scriptSig : CScript) : Z :=
  if negb (IsPayToScriptHash script) then GetSigOpCount script true
  else match last_push_loop (length scriptSig) scriptSig [] with
       | None => 0
       | Some vData => GetSigOpCount vData true
       end.

Fixpoint IsPushOnly_loop (fuel : nat) (pc : bytes) : bool :=
  match fuel with
  | O => true
  | S fuel =>
      match pc with
      | [] => true
      | _ => let '(ok, opcode, _, pc') := GetScriptOp pc in
             if negb ok then false
             else if opcode >? OP_16 then false
             else IsPushOnly_loop fuel pc'
      end
  end.
Definition IsPushOnly (script : CScript) : bool := IsPushOnly_loop (length script) script.

Fixpoint HasValidOps_loop (fuel : nat) (pc : bytes) : bool :=
  match fuel with
  | O => true
  | S fuel =>
      match pc with
      | [] => true
      | _ => let '(ok, opcode, item, pc') := GetScriptOp pc in
             if negb ok || (opcode >? MAX_OPCODE) || (size item >? MAX_SCRIPT_ELEMENT_SIZE)
             then false else HasValidOps_loop fuel pc'
      end
  end.
Definition HasValidOps (script : CScript) : bool := HasValidOps_loop (length script) script.

(** ** Script numbers: the encoding is a bijection with its minimal forms *)
Module ScriptNumFacts.
Import ScriptNum.

Lemma le_or_spec i vch acc :
  0 ≤ i → bytes_ok vch → 0 ≤ acc < 256 ^ i → le_or i vch acc = acc + 256 ^ i * le_value vch.
Proof.
  intros Hi Hb. revert i acc Hi. induction Hb as [|b vch Hb _ IH]; intros i acc Hi Hacc.
  { cbn. lia. }
  cbn [le_or le_value]. rewrite pow256_2 in Hacc by lia.
  rewrite Z.lor_comm, shl_mul, lor_add_disjoint by lia. unfold is_byte in Hb.
  rewrite <- pow256_2 in * by lia.
  rewrite IH by (rewrite ?Z.add_1_r, ?Z.pow_succ_r; nia).
  rewrite Z.add_1_r, Z.pow_succ_r by lia. ring.
Qed.

Lemma le_or_value vch : bytes_ok vch → le_or 0 vch 0 = le_value vch.
Proof. intros H. rewrite le_or_spec by (done || lia). change (256 ^ 0) with 1. lia. Qed.

Lemma back_bit7_snoc k b : is_byte b → back_bit7 (k ++ [b]) = (128 <=? b).
Proof.
  intros Hb. unfold back_bit7, back. rewrite last_snoc, byte_bit7 by done.
  destruct (Z.ltb_spec b 128), (Z.leb_spec 128 b); lia || done.
Qed.

(** The sign-magnitude number a byte vector denotes. *)
Definition decoded (k : bytes) (b : Z) : Z :=
  if 128 <=? b then - le_value (k ++ [b - 128]) else le_value (k ++ [b]).

Lemma set_vch_snoc k b :
  bytes_ok k → is_byte b → (length k ≤ 7)%nat → set_vch (k ++ [b]) = decoded k b.
Proof.
  intros Hk Hb Hl. assert (bytes_ok (k ++ [b])) as Hkb by (by apply bytes_ok_snoc).
  pose proof (le_value_range _ Hk) as Hr. pose proof (le_value_range _ Hkb) as Hr'.
  assert (256 ^ Z.of_nat (length k) ≤ 256 ^ 7) by (apply Z.pow_le_mono_r; lia).
  pose proof (pow256_pos (length k)).
  unfold set_vch, decoded. destruct (k ++ [b]) as [|z l] eqn:E; [by destruct k|]. rewrite <- E in *.
  rewrite le_or_value, back_bit7_snoc by done. rewrite le_value_snoc in *. unfold is_byte in Hb.
  rewrite length_app in Hr'. simpl in Hr'.
  assert (256 ^ Z.of_nat (length k + 1) ≤ 256 ^ 8) by (apply Z.pow_le_mono_r; lia).
  change (256 ^ 7) with (2 ^ 56) in *. change (256 ^ 8) with (2 ^ 64) in *.
  destruct (Z.leb_spec 128 b) as [Hge|Hlt].
  - f_equal. rewrite le_value_snoc. unfold size. rewrite length_app. cbn [length].
    set (n := length k) in *. set (V := le_value k) in *.
    replace (8 * (Z.of_nat (n + 1) - 1)) with (8 * Z.of_nat n) by lia.
    rewrite shl_mul, <- pow256_2 by lia.
    assert (128 * 256 ^ Z.of_nat n = 2 ^ (8 * Z.of_nat n + 7)) as ->
      by (rewrite Z.pow_add_r, <- pow256_2 by lia; lia).
    rewrite u64_i64, u64_small, clear_bit64.
    + rewrite Z.pow_add_r, <- pow256_2 by lia. change (2 ^ 7) with 128.
      rewrite i64_small by nia. ring.
    + nia.
    + lia.
    + replace (8 * Z.of_nat n + 7) with (7 + 8 * Z.of_nat n) by lia.
      rewrite <- Z.div_pow2_bits, <- pow256_2 by lia.
      rewrite Z.mul_comm, Z.div_add, Z.div_small by lia. cbn [Z.add].
      pose proof (byte_bit7 b Hb). apply not_false_iff_true. intros Hf.
      assert (b < 2 ^ 7); [|lia]. apply bounded_testbit; [lia|lia|].
      intros m Hm. destruct (decide (m = 7)) as [->|]; [done|]. apply (testbit_high 8); lia.
    + nia.
  - apply i64_small. nia.
Qed.

(** ** Digits of the magnitude *)

Lemma abs_bytes_ok n a : bytes_ok (abs_bytes n a).
Proof.
  revert a. induction n as [|n IH]; intros a; cbn [abs_bytes]; [constructor|].
  case_match; [constructor|]. constructor; [|apply IH].
  change 0xff with (2 ^ 8 - 1). rewrite land_mask by lia. apply Z.mod_pos_bound. lia.
Qed.

Lemma abs_bytes_value n a : 0 ≤ a < 256 ^ Z.of_nat n → le_value (abs_bytes n a) = a.
Proof.
  revert a. induction n as [|n IH]; intros a Ha; cbn [abs_bytes].
  { change (256 ^ Z.of_nat 0) with 1 in Ha. cbn. lia. }
  rewrite Nat2Z.inj_succ, Z.pow_succ_r in Ha by lia.
  destruct (Z.eqb_spec a 0) as [->|]; [done|]. cbn [le_value].
  change 0xff with (2 ^ 8 - 1). rewrite land_mask, shr_div by lia. rewrite IH.
  - change 256 with (2 ^ 8). pose proof (Z.div_mod a (2 ^ 8)). lia.
  - split; [apply Z.div_pos|apply Z.div_lt_upper_bound]; lia.
Qed.

(** The magnitude's digits never end in a zero byte, and are determined by
    their value. *)
Lemma abs_bytes_digits n d :
  bytes_ok d → last d ≠ Some 0 → (length d ≤ n)%nat → abs_bytes n (le_value d) = d.
Proof.
  intros Hd. revert n. induction Hd as [|b d Hb Hd IH]; intros n Hl Hn.
  { by destruct n. }
  destruct n as [|n]; [simpl in Hn; lia|]. unfold is_byte in Hb. cbn [abs_bytes le_value].
  pose proof (le_value_range d Hd).
  assert (last d ≠ Some 0) as Hl'.
  { destruct d as [|c d]; [done|]. by rewrite last_cons_cons in Hl. }
  assert (b + 256 * le_value d ≠ 0) as Hne.
  { intros E. assert (b = 0) as -> by lia. assert (le_value d = 0) as E0 by lia.
    rewrite E0 in IH. specialize (IH (length d) Hl' ltac:(lia)).
    destruct d; [done|]. simpl length in IH. cbn in IH. done. }
  destruct (Z.eqb_spec (b + 256 * le_value d) 0); [done|].
  change 0xff with (2 ^ 8 - 1). rewrite land_mask, shr_div by lia. change 256 with (2 ^ 8).
  f_equal.
  - rewrite Z.mul_comm, Z.mod_add, Z.mod_small; lia.
  - rewrite Z.mul_comm, Z.div_add, Z.div_small, Z.add_0_l by lia. apply IH; [done|].
    simpl in Hn; lia.
Qed.

Lemma abs_bytes_last n a : 0 ≤ a < 256 ^ Z.of_nat n → last (abs_bytes n a) ≠ Some 0.
Proof.
  revert a. induction n as [|n IH]; intros a Ha; [done|]. cbn [abs_bytes].
  rewrite Nat2Z.inj_succ, Z.pow_succ_r in Ha by lia.
  destruct (Z.eqb_spec a 0) as [->|Hne]; [done|].
  assert (0 ≤ a >>' 8 < 256 ^ Z.of_nat n) as Hq.
  { rewrite shr_div by lia. split; [apply Z.div_pos|apply Z.div_lt_upper_bound]; lia. }
  pose proof (abs_bytes_value n _ Hq) as Hv. specialize (IH _ Hq).
  destruct (abs_bytes n (a >>' 8)) as [|c l]; [|by rewrite last_cons_cons].
  cbn in Hv |- *. intros [= E]. change 0xff with (2 ^ 8 - 1) in E.
  rewrite land_mask in E by lia. rewrite shr_div in Hv by lia.
  pose proof (Z.div_mod a (2 ^ 8)). lia.
Qed.

Lemma abs_bytes_length n a : (length (abs_bytes n a) ≤ n)%nat.
Proof.
  revert a. induction n as [|n IH]; intros a; cbn [abs_bytes]; [done|].
  case_match; cbn [length]; [lia|]. specialize (IH (a >>' 8)). lia.
Qed.

Lemma abs_bytes_snoc a :
  0 < a < 2 ^ 64 → ∃ k b, abs_bytes 8 a = k ++ [b] ∧ bytes_ok k ∧ 0 < b < 256 ∧
                          (length k ≤ 7)%nat ∧ le_value (k ++ [b]) = a.
Proof.
  intros Ha. assert (0 ≤ a < 256 ^ Z.of_nat 8) as Ha8
    by (change (256 ^ Z.of_nat 8) with (2 ^ 64); lia).
  pose proof (abs_bytes_ok 8 a) as Hok. pose proof (abs_bytes_value 8 a Ha8) as Hv.
  pose proof (abs_bytes_last 8 a Ha8) as Hl. pose proof (abs_bytes_length 8 a) as Hn.
  destruct (snoc_cases (abs_bytes 8 a)) as [E|(k & b & E)]; rewrite E in *.
  { cbn in Hv. lia. }
  rewrite last_snoc in Hl. rewrite length_app in Hn. cbn [length] in Hn.
  apply bytes_ok_snoc in Hok as [Hk Hb]. unfold is_byte in Hb.
  exists k, b. split_and!; try done; try lia. assert (b ≠ 0) by congruence. lia.
Qed.

Lemma or_back_snoc x k b : or_back x (k ++ [b]) = k ++ [b |' x].
Proof.
  induction k as [|c k IH]; [done|]. cbn [app or_back]. rewrite IH.
  by destruct k.
Qed.

Lemma lor_0x80 b : 0 ≤ b < 128 → b |' 0x80 = b + 128.
Proof.
  intros Hb. change 0x80 with (1 * 2 ^ 7). rewrite Z.lor_comm, lor_add_disjoint; lia.
Qed.

(** The encoding of a nonzero number in terms of its magnitude's digits. *)
Lemma serialize_digits v k b :
  v ≠ 0 → - 2 ^ 63 < v < 2 ^ 63 → bytes_ok k → 0 < b < 256 → (length k ≤ 7)%nat →
  le_value (k ++ [b]) = Z.abs v →
  serialize v = if b <? 128 then k ++ [if v <? 0 then b + 128 else b]
                else k ++ [b] ++ [if v <? 0 then 0x80 else 0].
Proof.
  intros Hv Hr Hk Hb Hlen Habs. unfold serialize.
  destruct (Z.eqb_spec v 0); [done|].
  replace (if v <? 0 then - v else v) with (Z.abs v) by (destruct (Z.ltb_spec v 0); lia).
  rewrite u64_small, <- Habs by lia. rewrite abs_bytes_digits.
  - rewrite back_bit7_snoc by (unfold is_byte; lia).
    destruct (Z.ltb_spec b 128), (Z.leb_spec 128 b); try lia.
    + destruct (v <? 0); [|done]. rewrite or_back_snoc, lor_0x80; [done|lia].
    + by rewrite <- app_assoc.
  - apply bytes_ok_snoc. unfold is_byte. split; [done|lia].
  - rewrite last_snoc. intros [= ->]. lia.
  - rewrite length_app. simpl. lia.
Qed.

Lemma serialize_set_vch v : - 2 ^ 63 < v < 2 ^ 63 → set_vch (serialize v) = v.
Proof.
  intros Hv. destruct (decide (v = 0)) as [->|Hne]; [done|].
  destruct (abs_bytes_snoc (Z.abs v)) as (k & b & _ & Hk & Hb & Hl & Hval); [lia|].
  rewrite (serialize_digits v k b) by (done || lia).
  destruct (Z.ltb_spec b 128) as [Hs|Hs].
  - rewrite set_vch_snoc; [|done|unfold is_byte; case_match; lia|done]. unfold decoded.
    destruct (Z.ltb_spec v 0).
    + rewrite (proj2 (Z.leb_le 128 (b + 128))) by lia.
      replace (b + 128 - 128) with b by lia. lia.
    + rewrite (proj2 (Z.leb_gt 128 b)) by lia. lia.
  - assert (length k ≤ 6)%nat as Hl6.
    { destruct (decide (length k = 7%nat)) as [E|]; [|lia].
      rewrite le_value_snoc, E in Hval. change (256 ^ Z.of_nat 7) with (2 ^ 56) in Hval.
      pose proof (le_value_range k Hk). lia. }
    rewrite app_assoc, set_vch_snoc.
    + unfold decoded. destruct (Z.ltb_spec v 0); cbn [Z.leb Z.compare Pos.compare Pos.compare_cont].
      * replace (0x80 - 128) with 0 by lia. rewrite le_value_snoc. cbn. lia.
      * rewrite (le_value_snoc (k ++ [b])). cbn. lia.
    + apply bytes_ok_snoc. unfold is_byte. split; [done|lia].
    + unfold is_byte. case_match; lia.
    + rewrite length_app. simpl. lia.
Qed.

(** When the minimality test of the constructor rejects [k ++ [b]]. *)
Definition padded (k : bytes) (b : Z) : bool :=
  (b mod 128 =? 0) && match last k with None => true | Some c => c <? 128 end.

Lemma CScriptNum_snoc k b n :
  bytes_ok k → is_byte b → n ≤ 8 →
  CScriptNum (k ++ [b]) true n =
    if size (k ++ [b]) >? n then Err number_overflow
    else if padded k b then Err non_minimal else Ok (decoded k b).
Proof.
  intros Hk Hb Hn. unfold CScriptNum. rewrite Z.gtb_ltb.
  destruct (Z.ltb_spec n (size (k ++ [b]))) as [|Hle]; [done|].
  unfold size in Hle. rewrite length_app in Hle. cbn [length] in Hle.
  rewrite set_vch_snoc by (done || lia). unfold back. rewrite last_snoc. cbn [default].
  rewrite byte_low7 by done. unfold padded, size. rewrite length_app. cbn [length].
  rewrite (proj2 (Z.gtb_lt _ 0)) by lia. cbn [andb].
  destruct (snoc_cases k) as [->|(k' & c & ->)]; [done|].
  apply bytes_ok_snoc in Hk as [_ Hc]. rewrite last_snoc, length_app. cbn [length].
  rewrite (proj2 (Z.leb_gt _ 1)) by lia. cbn [orb].
  rewrite !nth_lookup, <- !app_assoc. cbn [app].
  rewrite lookup_app_r by lia.
  replace (length k' + 1 + 1 - 2 - length k')%nat with 0%nat by lia. cbn.
  by rewrite byte_bit7.
Qed.

Lemma serialize_ok v : - 2 ^ 63 < v < 2 ^ 63 → bytes_ok (serialize v).
Proof.
  intros Hv. destruct (decide (v = 0)) as [->|Hne]; [constructor|].
  destruct (abs_bytes_snoc (Z.abs v)) as (k & b & _ & Hk & Hb & Hl & Hval); [lia|].
  rewrite (serialize_digits v k b) by (done || lia).
  destruct (Z.ltb_spec b 128), (v <? 0); rewrite ?app_assoc; apply bytes_ok_snoc;
    rewrite ?bytes_ok_snoc; unfold is_byte; split_and?; done || lia.
Qed.

Lemma CScriptNum_serialize v n :
  - 2 ^ 63 < v < 2 ^ 63 → n ≤ 8 →
  CScriptNum (serialize v) true n =
    if size (serialize v) >? n then Err number_overflow else Ok v.
Proof.
  intros Hv Hn. destruct (decide (v = 0)) as [->|Hne].
  { unfold CScriptNum. cbn [serialize Z.eqb]. by destruct (size [] >? n). }
  pose proof (serialize_set_vch v Hv) as Hset. pose proof (serialize_ok v Hv) as Hok.
  destruct (abs_bytes_snoc (Z.abs v)) as (k & b & _ & Hk & Hb & Hl & Hval); [lia|].
  pose proof (serialize_digits v k b Hne Hv Hk Hb Hl Hval) as Hs.
  assert (∃ k' b', serialize v = k' ++ [b'] ∧ padded k' b' = false) as (k' & b' & E & Hp).
  { destruct (Z.ltb_spec b 128).
    - eexists _, _. split; [done|]. unfold padded.
      replace ((if v <? 0 then b + 128 else b) mod 128) with b.
      + by rewrite (proj2 (Z.eqb_neq b 0)) by lia.
      + destruct (v <? 0); [replace (b + 128) with (b + 1 * 128) by lia; rewrite Z.mod_add by lia|];
          rewrite Z.mod_small; lia.
    - eexists (k ++ [b]), _. split; [by rewrite <- app_assoc|]. unfold padded.
      rewrite last_snoc, (proj2 (Z.ltb_ge b 128)) by lia. apply andb_false_r. }
  rewrite E in *. apply bytes_ok_snoc in Hok as [Hk' Hb'].
  rewrite CScriptNum_snoc, Hp by done. destruct (size (k' ++ [b']) >? n) eqn:Hsz; [done|].
  rewrite Z.gtb_ltb, Z.ltb_ge in Hsz. unfold size in Hsz. rewrite length_app in Hsz.
  cbn [length] in Hsz. rewrite set_vch_snoc in Hset by (done || lia). by rewrite Hset.
Qed.

Lemma decoded_range k b :
  bytes_ok k → is_byte b → (length k ≤ 7)%nat → - 2 ^ 63 < decoded k b < 2 ^ 63.
Proof.
  intros Hk Hb Hl. pose proof (le_value_range k Hk). unfold is_byte in Hb.
  assert (256 ^ Z.of_nat (length k) ≤ 256 ^ 7) by (apply Z.pow_le_mono_r; lia).
  change (256 ^ 7) with (2 ^ 56) in *. unfold decoded.
  destruct (Z.leb_spec 128 b); rewrite le_value_snoc; nia.
Qed.

Lemma CScriptNum_minimal vch n v :
  bytes_ok vch → n ≤ 8 → CScriptNum vch true n = Ok v → serialize v = vch.
Proof.
  intros Hok Hn. destruct (snoc_cases vch) as [->|(k & b & ->)].
  { unfold CScriptNum. destruct (size [] >? n); cbn; by intros [= <-]. }
  apply bytes_ok_snoc in Hok as [Hk Hb]. rewrite CScriptNum_snoc by done.
  destruct (size (k ++ [b]) >? n) eqn:Hsz; [done|].
  rewrite Z.gtb_ltb, Z.ltb_ge in Hsz. unfold size in Hsz. rewrite length_app in Hsz.
  cbn [length] in Hsz. destruct (padded k b) eqn:Hp; [done|]. intros [= <-].
  pose proof (decoded_range k b Hk Hb ltac:(lia)) as Hr. pose proof (le_value_range k Hk).
  pose proof (pow256_pos (length k)). unfold is_byte in Hb. unfold padded in Hp.
  destruct (Z.eqb_spec (b mod 128) 0) as [E|E].
  - destruct (snoc_cases k) as [->|(k' & c & ->)]; [done|]. rewrite last_snoc in Hp.
    apply Z.ltb_ge in Hp. apply bytes_ok_snoc in Hk as [Hk' Hc]. unfold is_byte in Hc.
    pose proof (le_value_range k' Hk'). pose proof (pow256_pos (length k')).
    assert (b = 0 ∨ b = 128) as Hbb by (pose proof (Z.div_mod b 128); lia).
    assert (0 < le_value (k' ++ [c])) by (rewrite le_value_snoc; nia).
    assert (decoded (k' ++ [c]) b = if b =? 0 then le_value (k' ++ [c]) else - le_value (k' ++ [c])) as Hd.
    { unfold decoded. destruct Hbb as [-> | ->].
      - change (128 <=? 0) with false. change (0 =? 0) with true. cbv iota.
        rewrite (le_value_app (k' ++ [c]) [0]). cbn [le_value]. lia.
      - change (128 <=? 128) with true. change (128 - 128) with 0.
        rewrite (le_value_snoc (k' ++ [c])). change (128 =? 0) with false. cbv iota. lia. }
    rewrite length_app in Hsz. cbn [length] in Hsz.
    rewrite (serialize_digits _ k' c); try done; try lia.
    + rewrite (proj2 (Z.ltb_ge c 128)) by lia. rewrite Hd, <- app_assoc. do 2 f_equal.
      destruct Hbb as [-> | ->]; [change (0 =? 0) with true|change (128 =? 0) with false]; cbv iota;
        [rewrite (proj2 (Z.ltb_ge _ 0))|rewrite (proj2 (Z.ltb_lt _ 0))]; done || lia.
    + rewrite Hd. case_match; lia.
    + rewrite Hd. case_match; lia.
  - clear Hp. unfold decoded in *. destruct (Z.leb_spec 128 b).
    + assert (b - 128 ≠ 0) by (intros E'; apply E; by replace b with 128 by lia).
      rewrite le_value_snoc in Hr.
      rewrite (serialize_digits _ k (b - 128)); try done; try lia; rewrite ?le_value_snoc; try nia.
      rewrite (proj2 (Z.ltb_lt (b - 128) 128)), (proj2 (Z.ltb_lt _ 0)) by nia.
      do 2 f_equal. lia.
    + assert (b ≠ 0) by (intros ->; done). rewrite le_value_snoc in Hr.
      rewrite (serialize_digits _ k b); try done; try lia; rewrite ?le_value_snoc; try nia.
      rewrite (proj2 (Z.ltb_lt b 128)), (proj2 (Z.ltb_ge _ 0)) by nia. done.
Qed.
End ScriptNumFacts.

(** ** Parsing *)

Lemma GetScriptOp_consumes pc opcode vch pc' :
  GetScriptOp pc = (true, opcode, vch, pc') →
  (length pc' < length pc)%nat ∧ ∃ pre, pc = pre ++ pc' ∧ pre ≠ [].
Proof.
  destruct pc as [|b pc]; [done|]. cbn [GetScriptOp].
  assert (∀ n (q : bytes), take n q ++ drop n q = q) as Htd by (intros; apply take_drop).
  intros H. enough (∃ pre, b :: pc = pre ++ pc' ∧ pre ≠ []) as (pre & E & Hne).
  { split; [|eauto]. rewrite E, length_app. destruct pre; [done|]. cbn. lia. }
  repeat (case_match; simplify_eq).
  - eexists (_ :: take _ _). by rewrite <- app_comm_cons, Htd.
  - eexists (_ :: _ :: take _ _). by rewrite <- !app_comm_cons, Htd.
  - eexists (_ :: take 2 pc ++ take _ (drop 2 pc)).
    by rewrite <- app_comm_cons, <- app_assoc, Htd, Htd.
  - eexists (_ :: take 4 pc ++ take _ (drop 4 pc)).
    by rewrite <- app_comm_cons, <- app_assoc, Htd, Htd.
  - by exists [opcode].
Qed.

Lemma ReadLE16_Write n rest : 0 ≤ n < 2 ^ 16 → ReadLE16 (WriteLE16 n ++ rest) = n.
Proof.
  intros Hn. unfold ReadLE16, WriteLE16, u8, wrap. cbn [app nth].
  rewrite shr_div by lia. rewrite (Z.mod_small (n / 2 ^ 8)).
  2:{ split; [apply Z.div_pos|apply Z.div_lt_upper_bound]; lia. }
  pose proof (Z.mod_pos_bound n (2 ^ 8)). pose proof (Z.div_mod n (2 ^ 8)).
  rewrite shl_mul, Z.lor_comm, lor_add_disjoint by lia. lia.
Qed.

Lemma ReadLE32_Write n rest : 0 ≤ n < 2 ^ 32 → ReadLE32 (WriteLE32 n ++ rest) 0 = n.
Proof.
  intros Hn. unfold ReadLE32, WriteLE32. cbn [app nth Nat.add].
  rewrite le32_sum by apply u8_byte. by apply byte_split.
Qed.

Lemma take_drop_exact {A} (b rest : list A) :
  take (Z.to_nat (size b)) (b ++ rest) = b ∧ drop (Z.to_nat (size b)) (b ++ rest) = rest.
Proof. unfold size. rewrite Nat2Z.id, take_app_length, drop_app_length. done. Qed.

Lemma size_app_not_lt {A} (b rest : list A) : (size (b ++ rest) <? size b) = false.
Proof. apply Z.ltb_ge. unfold size. rewrite length_app. lia. Qed.

(** The opcode byte [operator<<] chooses for a data push of [n] bytes. *)
Definition push_opcode_for (n : Z) : Z :=
  if n <? OP_PUSHDATA1 then n
  else if n <=? 0xff then OP_PUSHDATA1
  else if n <=? 0xffff then OP_PUSHDATA2 else OP_PUSHDATA4.

Lemma GetScriptOp_push b rest :
  size b < 2 ^ 32 →
  GetScriptOp (push_data [] b ++ rest) = (true, push_opcode_for (size b), b, rest).
Proof.
  intros Hb. assert (0 ≤ size b) by (unfold size; lia).
  destruct (take_drop_exact b rest) as [Ht Hd]. unfold push_data, push_opcode_for.
  destruct (Z.ltb_spec (size b) OP_PUSHDATA1) as [H1|H1].
  { unfold OP_PUSHDATA1 in *. cbn [app GetScriptOp]. unfold u8. rewrite wrap_small by (unfold in_u; lia).
    unfold OP_PUSHDATA4, OP_PUSHDATA1.
    rewrite (proj2 (Z.leb_le (size b) 0x4e)), (proj2 (Z.ltb_lt (size b) 0x4c)) by lia.
    by rewrite size_app_not_lt, Ht, Hd. }
  destruct (Z.leb_spec (size b) 0xff) as [H2|H2].
  { cbn [app GetScriptOp]. unfold u8. rewrite wrap_small by (unfold in_u; lia).
    change (OP_PUSHDATA1 <=? OP_PUSHDATA4) with true. change (OP_PUSHDATA1 <? OP_PUSHDATA1) with false.
    change (OP_PUSHDATA1 =? OP_PUSHDATA1) with true. cbv iota.
    by rewrite size_app_not_lt, Ht, Hd. }
  destruct (Z.leb_spec (size b) 0xffff) as [H3|H3].
  { rewrite wrap_small by (unfold in_u; lia). pose proof (ReadLE16_Write (size b) (b ++ rest)) as HR.
    cbn [app GetScriptOp WriteLE16] in *.
    change (OP_PUSHDATA2 <=? OP_PUSHDATA4) with true. change (OP_PUSHDATA2 <? OP_PUSHDATA1) with false.
    change (OP_PUSHDATA2 =? OP_PUSHDATA1) with false. change (OP_PUSHDATA2 =? OP_PUSHDATA2) with true.
    cbv iota. rewrite HR by lia. rewrite (proj2 (Z.ltb_ge _ 2)) by (unfold size; cbn [length]; lia).
    cbn [drop]. rewrite !drop_0. by rewrite size_app_not_lt, Ht, Hd. }
  unfold u32. rewrite wrap_small by (unfold in_u; lia).
  pose proof (ReadLE32_Write (size b) (b ++ rest)) as HR. cbn [app GetScriptOp WriteLE32] in *.
  change (OP_PUSHDATA4 <=? OP_PUSHDATA4) with true. change (OP_PUSHDATA4 <? OP_PUSHDATA1) with false.
  change (OP_PUSHDATA4 =? OP_PUSHDATA1) with false. change (OP_PUSHDATA4 =? OP_PUSHDATA2) with false.
  cbv iota. rewrite HR by lia. rewrite (proj2 (Z.ltb_ge _ 4)) by (unfold size; cbn [length]; lia).
  cbn [drop]. rewrite !drop_0. by rewrite size_app_not_lt, Ht, Hd.
Qed.

(** ** Output templates *)

Lemma IsPayToScriptHash_spec s :
  IsPayToScriptHash s = true ↔ ∃ h, size h = 20 ∧ s = [OP_HASH160; 0x14] ++ h ++ [OP_EQUAL].
Proof.
  unfold IsPayToScriptHash. split.
  - intros H. apply andb_true_iff in H as [H H22%Z.eqb_eq]. apply andb_true_iff in H as [H H1%Z.eqb_eq].
    apply andb_true_iff in H as [Hsz%Z.eqb_eq H0%Z.eqb_eq].
    destruct s as [|a [|b t]]; try (unfold size in Hsz; cbn in Hsz; lia).
    unfold at_ in H0, H1, H22. cbn [nth] in H0, H1, H22. subst a b.
    unfold size in Hsz. cbn [length] in Hsz.
    destruct (snoc_cases t) as [->|(h & x & ->)]; [cbn in Hsz; lia|]. rewrite length_app in Hsz. cbn in Hsz.
    exists h. split; [unfold size; lia|]. do 4 f_equal.
    rewrite app_nth2 in H22 by lia. replace (20 - length h)%nat with 0%nat in H22 by lia. by cbn in H22; rewrite H22.
  - intros (h & Hh & ->). unfold size in *. rewrite !length_app. cbn [length].
    rewrite (proj2 (Z.eqb_eq _ 23)) by lia. cbn [andb]. unfold at_. cbn [app nth].
    change (OP_HASH160 =? OP_HASH160) with true. cbn [andb]. change (0x14 =? 0x14) with true. cbn [andb].
    rewrite app_nth2 by lia. replace (20 - length h)%nat with 0%nat by lia. done.
Qed.

Lemma IsWitnessProgram_spec s v p :
  IsWitnessProgram s = Some (v, p) ↔ 0 ≤ v ≤ 16 ∧ 2 ≤ size p ≤ 40 ∧ s = [EncodeOP_N v; size p] ++ p.
Proof.
  unfold IsWitnessProgram. split.
  - destruct (_ || _) eqn:Hsz; [done|]. apply orb_false_iff in Hsz as [Hlo%Z.ltb_ge Hhi].
    rewrite Z.gtb_ltb, Z.ltb_ge in Hhi. destruct (_ && _) eqn:Hop; [done|].
    destruct (Z.eqb_spec (at_ s 1 + 2) (size s)) as [Hlen|]; [|done]. intros [= <- <-].
    destruct s as [|a [|b t]]; try (unfold size in Hlo; cbn in Hlo; lia).
    change (at_ (a :: b :: t) 0) with a in *. change (at_ (a :: b :: t) 1) with b in Hlen.
    change (drop 2 (a :: b :: t)) with (drop 0 t). rewrite drop_0.
    unfold size in *. cbn [length] in *. unfold DecodeOP_N, EncodeOP_N, OP_0, OP_1, OP_16 in *.
    assert (b = Z.of_nat (length t)) as -> by lia. cbn [app].
    destruct (Z.eqb_spec a 0) as [->|]; cbn [negb andb] in Hop; [split_and!; done || lia|].
    rewrite (proj2 (Z.eqb_neq _ 0)) by lia. split_and!; try lia. f_equal. lia.
  - intros (Hv & Hp & ->). unfold size in *. cbn [app length].
    rewrite (proj2 (Z.ltb_ge _ 4)), Z.gtb_ltb, (proj2 (Z.ltb_ge 42 _)) by lia. cbn [orb].
    unfold at_. cbn [nth]. unfold EncodeOP_N, DecodeOP_N, OP_0, OP_1, OP_16.
    rewrite (proj2 (Z.eqb_eq (Z.of_nat (length p) + 2) _)) by lia. cbn [drop]. rewrite drop_0.
    destruct (Z.eqb_spec v 0) as [->|]; [done|].
    rewrite (proj2 (Z.eqb_neq (0x51 + v - 1) 0)) by lia. cbn [negb andb].
    rewrite (proj2 (Z.ltb_ge (0x51 + v - 1) 0x51)), Z.gtb_ltb, (proj2 (Z.ltb_ge 0x60 _)) by lia. cbn [orb].
    do 2 f_equal. lia.
Qed.

(** ** Main statements *)

(** Script numbers are in bijection with their minimal encodings: the
    constructor with the minimality check reads back what [serialize] wrote
    (or reports an overflow when the encoding is longer than the limit), and
    whatever it accepts is the encoding [serialize] gives. *)
Theorem scriptnum_bijection nMax :
  nMax ≤ 8 →
  (∀ v, - 2 ^ 63 < v < 2 ^ 63 →
     ScriptNum.CScriptNum (ScriptNum.serialize v) true nMax =
       if size (ScriptNum.serialize v) >? nMax then Err ScriptNum.number_overflow else Ok v) ∧
  (∀ vch v, bytes_ok vch → ScriptNum.CScriptNum vch true nMax = Ok v → ScriptNum.serialize v = vch).
Proof.
  intros Hn. split; intros.
  - by apply ScriptNumFacts.CScriptNum_serialize.
  - by eapply ScriptNumFacts.CScriptNum_minimal.
Qed.

Lemma scriptnum_bijection_witness :
  ScriptNum.CScriptNum (ScriptNum.serialize (-255)) true 4 = Ok (-255) ∧
  ScriptNum.serialize (-255) = [0xff; 0x80].
Proof.
  destruct (scriptnum_bijection 4 ltac:(lia)) as [H1 H2]. split.
  - rewrite H1 by lia. reflexivity.
  - apply H2; [by vm_compute; repeat constructor|]. reflexivity.
Defined.

(** The output templates are exactly the byte patterns they name: a script
    is pay-to-script-hash when it is [OP_HASH160 <20 bytes> OP_EQUAL], and a
    witness program of version [v] when it is the small-integer opcode of [v]
    followed by one direct push of 2 to 40 bytes. *)
Lemma script_templates s :
  (IsPayToScriptHash s = true ↔ ∃ h, size h = 20 ∧ s = [OP_HASH160; 0x14] ++ h ++ [OP_EQUAL]) ∧
  (∀ v p, IsWitnessProgram s = Some (v, p) ↔
     0 ≤ v ≤ 16 ∧ 2 ≤ size p ≤ 40 ∧ s = [EncodeOP_N v; size p] ++ p).
Proof. split; [apply IsPayToScriptHash_spec|intros v p; apply IsWitnessProgram_spec]. Qed.
