(* ===== verification/Interpreter.v ===== *)
(** * The script interpreter (script/interpreter.cpp, script/interpreter.h, script/script_error.h)

    Stacks are lists whose head is the vector's back, so [stacktop(-1)] is the
    head.  An iterator into the script is the suffix it points at.  A run ends
    in [Ok] (the source returns true, with the stack it leaves) or in
    [Err e] (the source returns false with [*serror = e]); exceptions thrown by
    [CScriptNum] are caught by the source and become
    [SCRIPT_ERR_UNKNOWN_ERROR].  Hash functions, the signature checker and
    [CPubKey::CheckLowS] are arguments of the definitions that use them. *)
From S2P Require Import Prelude ArithUint256 Script.

(** ** Errors, flags and interfaces *)

Inductive ScriptError :=
  | SCRIPT_ERR_OK
  | SCRIPT_ERR_UNKNOWN_ERROR
  | SCRIPT_ERR_EVAL_FALSE
  | SCRIPT_ERR_OP_RETURN
  | SCRIPT_ERR_SCRIPT_SIZE
  | SCRIPT_ERR_PUSH_SIZE
  | SCRIPT_ERR_OP_COUNT
  | SCRIPT_ERR_STACK_SIZE
  | SCRIPT_ERR_SIG_COUNT
  | SCRIPT_ERR_PUBKEY_COUNT
  | SCRIPT_ERR_VERIFY
  | SCRIPT_ERR_EQUALVERIFY
  | SCRIPT_ERR_CHECKMULTISIGVERIFY
  | SCRIPT_ERR_CHECKSIGVERIFY
  | SCRIPT_ERR_NUMEQUALVERIFY
  | SCRIPT_ERR_BAD_OPCODE
  | SCRIPT_ERR_DISABLED_OPCODE
  | SCRIPT_ERR_INVALID_STACK_OPERATION
  | SCRIPT_ERR_INVALID_ALTSTACK_OPERATION
  | SCRIPT_ERR_UNBALANCED_CONDITIONAL
  | SCRIPT_ERR_NEGATIVE_LOCKTIME
  | SCRIPT_ERR_UNSATISFIED_LOCKTIME
  | SCRIPT_ERR_SIG_HASHTYPE
  | SCRIPT_ERR_SIG_DER
  | SCRIPT_ERR_MINIMALDATA
  | SCRIPT_ERR_SIG_PUSHONLY
  | SCRIPT_ERR_SIG_HIGH_S
  | SCRIPT_ERR_SIG_NULLDUMMY
  | SCRIPT_ERR_PUBKEYTYPE
  | SCRIPT_ERR_CLEANSTACK
  | SCRIPT_ERR_MINIMALIF
  | SCRIPT_ERR_SIG_NULLFAIL
  | SCRIPT_ERR_DISCOURAGE_UPGRADABLE_NOPS
  | SCRIPT_ERR_DISCOURAGE_UPGRADABLE_WITNESS_PROGRAM
  | SCRIPT_ERR_WITNESS_PROGRAM_WRONG_LENGTH
  | SCRIPT_ERR_WITNESS_PROGRAM_WITNESS_EMPTY
  | SCRIPT_ERR_WITNESS_PROGRAM_MISMATCH
  | SCRIPT_ERR_WITNESS_MALLEATED
  | SCRIPT_ERR_WITNESS_MALLEATED_P2SH
  | SCRIPT_ERR_WITNESS_UNEXPECTED
  | SCRIPT_ERR_WITNESS_PUBKEYTYPE
  | SCRIPT_ERR_OP_CODESEPARATOR
  | SCRIPT_ERR_SIG_FINDANDDELETE
  | SCRIPT_ERR_ERROR_COUNT.
#[global] Instance ScriptError_eq_dec : EqDecision ScriptError.
Proof. solve_decision. Defined.

Definition SIGHASH_ALL : Z := 1.
Definition SIGHASH_NONE : Z := 2.
Definition SIGHASH_SINGLE : Z := 3.
Definition SIGHASH_ANYONECANPAY : Z := 0x80.

Definition SCRIPT_VERIFY_NONE : Z := 0.
Definition SCRIPT_VERIFY_P2SH : Z := 1 <<' 0.
Definition SCRIPT_VERIFY_STRICTENC : Z := 1 <<' 1.
Definition SCRIPT_VERIFY_DERSIG : Z := 1 <<' 2.
Definition SCRIPT_VERIFY_LOW_S : Z := 1 <<' 3.
Definition SCRIPT_VERIFY_NULLDUMMY : Z := 1 <<' 4.
Definition SCRIPT_VERIFY_SIGPUSHONLY : Z := 1 <<' 5.
Definition SCRIPT_VERIFY_MINIMALDATA : Z := 1 <<' 6.
Definition SCRIPT_VERIFY_DISCOURAGE_UPGRADABLE_NOPS : Z := 1 <<' 7.
Definition SCRIPT_VERIFY_CLEANSTACK : Z := 1 <<' 8.
Definition SCRIPT_VERIFY_CHECKLOCKTIMEVERIFY : Z := 1 <<' 9.
Definition SCRIPT_VERIFY_CHECKSEQUENCEVERIFY : Z := 1 <<' 10.
Definition SCRIPT_VERIFY_WITNESS : Z := 1 <<' 11.
Definition SCRIPT_VERIFY_DISCOURAGE_UPGRADABLE_WITNESS_PROGRAM : Z := 1 <<' 12.
Definition SCRIPT_VERIFY_MINIMALIF : Z := 1 <<' 13.
Definition SCRIPT_VERIFY_NULLFAIL : Z := 1 <<' 14.
Definition SCRIPT_VERIFY_WITNESS_PUBKEYTYPE : Z := 1 <<' 15.
Definition SCRIPT_VERIFY_CONST_SCRIPTCODE : Z := 1 <<' 16.

(** [(flags & f) != 0]. *)
Definition flag_set (flags f : Z) : bool := negb (flags &' f =? 0).

Inductive SigVersion := BASE | WITNESS_V0.
#[global] Instance SigVersion_eq_dec : EqDecision SigVersion.
Proof. solve_decision. Defined.
Definition is_base (v : SigVersion) : bool := match v with BASE => true | WITNESS_V0 => false end.
Definition is_v0 (v : SigVersion) : bool := negb (is_base v).

Definition WITNESS_V0_SCRIPTHASH_SIZE : Z := 32.
Definition WITNESS_V0_KEYHASH_SIZE : Z := 20.

(** The checker interface: what [EvalScript] asks of the transaction being
    verified. *)
Record SignatureChecker := {
  CheckSig : bytes → bytes → CScript → SigVersion → bool;
  CheckLockTime : Z → bool;
  CheckSequence : Z → bool
}.
Definition BaseSignatureChecker : SignatureChecker :=
  {| CheckSig _ _ _ _ := false; CheckLockTime _ := false; CheckSequence _ := false |}.

(** The primitive hash functions, each from a message to its digest, and the
    low-S test of the signature library. *)
Class Crypto := {
  CSHA256 : bytes → bytes;
  CSHA1 : bytes → bytes;
  CRIPEMD160 : bytes → bytes;
  CheckLowS : bytes → bool
}.

(** Digest sizes ([OUTPUT_SIZE] of each hasher). *)
Class CryptoSizes (C : Crypto) : Prop := {
  CSHA256_size m : size (CSHA256 m) = 32;
  CSHA1_size m : size (CSHA1 m) = 20;
  CRIPEMD160_size m : size (CRIPEMD160 m) = 20
}.

Definition CHash256 `{Crypto} (m : bytes) : bytes := CSHA256 (CSHA256 m).
Definition CHash160 `{Crypto} (m : bytes) : bytes := CRIPEMD160 (CSHA256 m).

(** ** Helpers of the interpreter *)

Fixpoint CastToBool (vch : valtype) : bool :=
  match vch with
  | [] => false
  | b :: vch' =>
      if negb (b =? 0)
      then negb (match vch' with [] => b =? 0x80 | _ => false end)
      else CastToBool vch'
  end.

Definition COMPRESSED_PUBLIC_KEY_SIZE : Z := 33.
Definition PUBLIC_KEY_SIZE : Z := 65.

Definition IsCompressedOrUncompressedPubKey (vchPubKey : valtype) : bool :=
  if size vchPubKey <? COMPRESSED_PUBLIC_KEY_SIZE then false
  else if at_ vchPubKey 0 =? 0x04 then
    if negb (size vchPubKey =? PUBLIC_KEY_SIZE) then false else true
  else if (at_ vchPubKey 0 =? 0x02) || (at_ vchPubKey 0 =? 0x03) then
    if negb (size vchPubKey =? COMPRESSED_PUBLIC_KEY_SIZE) then false else true
  else false.

Definition IsCompressedPubKey (vchPubKey : valtype) : bool :=
  if negb (size vchPubKey =? COMPRESSED_PUBLIC_KEY_SIZE) then false
  else if negb (at_ vchPubKey 0 =? 0x02) && negb (at_ vchPubKey 0 =? 0x03) then false
  else true.

(** [sig[i]] at an index computed as an unsigned integer. *)
Definition atZ (s : bytes) (i : Z) : Z := nth (Z.to_nat i) s 0.

Definition IsValidSignatureEncoding (sig : bytes) (haveHashType : bool) : bool :=
  if size sig <? 9 then false
  else if size sig >? 73 then false
  else if negb (atZ sig 0 =? 0x30) then false
  else if negb (atZ sig 1 =? size sig - (if haveHashType then 3 else 2)) then false
  else
    let lenR := atZ sig 3 in
    if 5 + lenR >=? size sig then false
    else
      let lenS := atZ sig (5 + lenR) in
      if negb (lenR + lenS + (if haveHashType then 7 else 6) =? size sig) then false
      else if negb (atZ sig 2 =? 0x02) then false
      else if lenR =? 0 then false
      else if negb (atZ sig 4 &' 0x80 =? 0) then false
      else if (lenR >? 1) && (atZ sig 4 =? 0) && (atZ sig 5 &' 0x80 =? 0) then false
      else if negb (atZ sig (lenR + 4) =? 0x02) then false
      else if lenS =? 0 then false
      else if negb (atZ sig (lenR + 6) &' 0x80 =? 0) then false
      else if (lenS >? 1) && (atZ sig (lenR + 6) =? 0) && (atZ sig (lenR + 7) &' 0x80 =? 0) then false
      else true.

Definition IsDefinedHashtypeSignature (vchSig : valtype) : bool :=
  match back vchSig with
  | None => false
  | Some b =>
      let nHashType := u8 (b &' Z.lnot SIGHASH_ANYONECANPAY) in
      negb ((nHashType <? SIGHASH_ALL) || (nHashType >? SIGHASH_SINGLE))
  end.

Section Encoding.
Context `{Crypto}.

(** The checks that return false with [serror] set are [Err]. *)
Definition IsLowDERSignature (vchSig : valtype) (haveHashType : bool) : result ScriptError unit :=
  if negb (IsValidSignatureEncoding vchSig haveHashType) then Err SCRIPT_ERR_SIG_DER
  else
    let vchSigCopy := take (length vchSig - (if haveHashType then 1 else 0)) vchSig in
    if negb (CheckLowS vchSigCopy) then Err SCRIPT_ERR_SIG_HIGH_S else Ok tt.

Definition IsDERSignature (vchSig : valtype) (haveHashType : bool) : result ScriptError unit :=
  if negb (IsValidSignatureEncoding vchSig haveHashType) then Err SCRIPT_ERR_SIG_DER else Ok tt.

Definition CheckSignatureEncoding (vchSig : valtype) (flags : Z) : result ScriptError unit :=
  if size vchSig =? 0 then Ok tt
  else if flag_set flags (SCRIPT_VERIFY_DERSIG |' SCRIPT_VERIFY_LOW_S |' SCRIPT_VERIFY_STRICTENC)
          && negb (IsValidSignatureEncoding vchSig true) then Err SCRIPT_ERR_SIG_DER
  else
    match (if flag_set flags SCRIPT_VERIFY_LOW_S then IsLowDERSignature vchSig true else Ok tt) with
    | Err e => Err e
    | Ok _ =>
        if flag_set flags SCRIPT_VERIFY_STRICTENC && negb (IsDefinedHashtypeSignature vchSig)
        then Err SCRIPT_ERR_SIG_HASHTYPE else Ok tt
    end.

Definition CheckPubKeyEncoding (vchPubKey : valtype) (flags : Z) (sigversion : SigVersion)
  : result ScriptError unit :=
  if flag_set flags SCRIPT_VERIFY_STRICTENC && negb (IsCompressedOrUncompressedPubKey vchPubKey)
  then Err SCRIPT_ERR_PUBKEYTYPE
  else if flag_set flags SCRIPT_VERIFY_WITNESS_PUBKEYTYPE && is_v0 sigversion
          && negb (IsCompressedPubKey vchPubKey)
  then Err SCRIPT_ERR_WITNESS_PUBKEYTYPE
  else Ok tt.
End Encoding.

(** Called with [0 <= opcode <= OP_PUSHDATA4], which the source asserts. *)
Definition CheckMinimalPush (data : valtype) (opcode : Z) : bool :=
  if size data =? 0 then opcode =? OP_0
  else if (size data =? 1) && (at_ data 0 >=? 1) && (at_ data 0 <=? 16) then false
  else if (size data =? 1) && (at_ data 0 =? 0x81) then false
  else if size data <=? 75 then opcode =? size data
  else if size data <=? 255 then opcode =? OP_PUSHDATA1
  else if size data <=? 65535 then opcode =? OP_PUSHDATA2
  else true.

(** The inner [while] of [FindAndDelete]; [b] is not empty, so it runs at most
    once per byte of [pc]. *)
Fixpoint skip_matches (fuel : nat) (b pc : bytes) (nFound : Z) : bytes * Z :=
  match fuel with
  | O => (pc, nFound)
  | S fuel =>
      if (size pc >=? size b) && bool_decide (take (length b) pc = b)
      then skip_matches fuel b (drop (length b) pc) (nFound + 1)
      else (pc, nFound)
  end.

(** The outer [do ... while]: the copied bytes are those from [pc2] to [pc]. *)
Fixpoint FindAndDelete_loop (fuel : nat) (b pc2 pc result : bytes) (nFound : Z) : bytes * bytes * Z :=
  let result := result ++ take (length pc2 - length pc) pc2 in
  let '(pc, nFound) := skip_matches (length pc) b pc nFound in
  match fuel with
  | O => (result, pc, nFound)
  | S fuel =>
      let '(ok, _, _, pc') := GetScriptOp pc in
      if ok then FindAndDelete_loop fuel b pc pc' result nFound else (result, pc, nFound)
  end.

(** The script after the call and the number of matches removed. *)
Definition FindAndDelete (script b : CScript) : CScript * Z :=
  match b with
  | [] => (script, 0)
  | _ =>
      let '(result, pc2, nFound) := FindAndDelete_loop (length script) b script script [] 0 in
      if nFound >? 0 then (result ++ pc2, nFound) else (script, nFound)
  end.

(** ** Operations *)

Definition vchFalse : valtype := [].
Definition vchTrue : valtype := [1].
Definition bool_vch (b : bool) : valtype := if b then vchTrue else vchFalse.
Definition bool_num (b : bool) : Z := if b then 1 else 0.
Abbreviation stack_t := (list valtype).

(** [stacktop(-i)] for [1 <= i <= stack.size()]. *)
Definition stacktop (stack : stack_t) (i : Z) : valtype := nth (Z.to_nat (i - 1)) stack [].

(** [CScriptNum(vch, fRequireMinimal, nMax)] inside [EvalScript]'s [try]. *)
Definition num (fRequireMinimal : bool) (nMax : Z) (vch : valtype) : result ScriptError Z :=
  match ScriptNum.CScriptNum vch fRequireMinimal nMax with
  | Ok n => Ok n
  | Err _ => Err SCRIPT_ERR_UNKNOWN_ERROR
  end.
Definition num4 (fRequireMinimal : bool) : valtype → result ScriptError Z :=
  num fRequireMinimal ScriptNum.nDefaultMaxNumSize.

Abbreviation stack_err := (Err SCRIPT_ERR_INVALID_STACK_OPERATION).

Definition op_pushnum (opcode : Z) (stack : stack_t) : result ScriptError stack_t :=
  Ok (ScriptNum.serialize (opcode - (OP_1 - 1)) :: stack).

Definition op_VERIFY (stack : stack_t) : result ScriptError stack_t :=
  match stack with
  | x :: s => if CastToBool x then Ok s else Err SCRIPT_ERR_VERIFY
  | _ => stack_err
  end.
Definition op_2DROP (stack : stack_t) : result ScriptError stack_t :=
  match stack with _ :: _ :: s => Ok s | _ => stack_err end.
Definition op_2DUP (stack : stack_t) : result ScriptError stack_t :=
  match stack with x2 :: x1 :: s => Ok (x2 :: x1 :: x2 :: x1 :: s) | _ => stack_err end.
Definition op_3DUP (stack : stack_t) : result ScriptError stack_t :=
  match stack with
  | x3 :: x2 :: x1 :: s => Ok (x3 :: x2 :: x1 :: x3 :: x2 :: x1 :: s)
  | _ => stack_err
  end.
Definition op_2OVER (stack : stack_t) : result ScriptError stack_t :=
  match stack with
  | x4 :: x3 :: x2 :: x1 :: s => Ok (x2 :: x1 :: x4 :: x3 :: x2 :: x1 :: s)
  | _ => stack_err
  end.
Definition op_2ROT (stack : stack_t) : result ScriptError stack_t :=
  match stack with
  | x6 :: x5 :: x4 :: x3 :: x2 :: x1 :: s => Ok (x2 :: x1 :: x6 :: x5 :: x4 :: x3 :: s)
  | _ => stack_err
  end.
Definition op_2SWAP (stack : stack_t) : result ScriptError stack_t :=
  match stack with
  | x4 :: x3 :: x2 :: x1 :: s => Ok (x2 :: x1 :: x4 :: x3 :: s)
  | _ => stack_err
  end.
Definition op_IFDUP (stack : stack_t) : result ScriptError stack_t :=
  match stack with
  | x :: s => if CastToBool x then Ok (x :: x :: s) else Ok (x :: s)
  | _ => stack_err
  end.
Definition op_DEPTH (stack : stack_t) : result ScriptError stack_t :=
  Ok (ScriptNum.serialize (size stack) :: stack).
Definition op_DROP (stack : stack_t) : result ScriptError stack_t :=
  match stack with _ :: s => Ok s | _ => stack_err end.
Definition op_DUP (stack : stack_t) : result ScriptError stack_t :=
  match stack with x :: s => Ok (x :: x :: s) | _ => stack_err end.
Definition op_NIP (stack : stack_t) : result ScriptError stack_t :=
  match stack with x2 :: _ :: s => Ok (x2 :: s) | _ => stack_err end.
Definition op_OVER (stack : stack_t) : result ScriptError stack_t :=
  match stack with x2 :: x1 :: s => Ok (x1 :: x2 :: x1 :: s) | _ => stack_err end.

Definition op_PICK_ROLL (fRequireMinimal : bool) (opcode : Z) (stack : stack_t)
  : result ScriptError stack_t :=
  match stack with
  | top :: (_ :: _) as s =>
      let* v := num4 fRequireMinimal top in
      let n := ScriptNum.getint v in
      let s := tail stack in
      if (n <? 0) || (n >=? size s) then stack_err
      else
        let vch := stacktop s (n + 1) in
        Ok (vch :: (if opcode =? OP_ROLL then take (Z.to_nat n) s ++ drop (S (Z.to_nat n)) s else s))
  | _ => stack_err
  end.

Definition op_ROT (stack : stack_t) : result ScriptError stack_t :=
  match stack with x3 :: x2 :: x1 :: s => Ok (x1 :: x3 :: x2 :: s) | _ => stack_err end.
Definition op_SWAP (stack : stack_t) : result ScriptError stack_t :=
  match stack with x2 :: x1 :: s => Ok (x1 :: x2 :: s) | _ => stack_err end.
Definition op_TUCK (stack : stack_t) : result ScriptError stack_t :=
  match stack with x2 :: x1 :: s => Ok (x2 :: x1 :: x2 :: s) | _ => stack_err end.
Definition op_SIZE (stack : stack_t) : result ScriptError stack_t :=
  match stack with x :: s => Ok (ScriptNum.serialize (size x) :: x :: s) | _ => stack_err end.

Definition op_EQUAL (opcode : Z) (stack : stack_t) : result ScriptError stack_t :=
  match stack with
  | x2 :: x1 :: s =>
      let fEqual := bool_decide (x1 = x2) in
      if opcode =? OP_EQUALVERIFY
      then if fEqual then Ok s else Err SCRIPT_ERR_EQUALVERIFY
      else Ok (bool_vch fEqual :: s)
  | _ => stack_err
  end.

(** The arithmetic is on 64-bit integers whose operands have at most 4 bytes, so
    it does not overflow ([numeric_no_overflow] below). *)
Definition unary_num (opcode bn : Z) : Z :=
  if opcode =? OP_1ADD then bn + 1
  else if opcode =? OP_1SUB then bn - 1
  else if opcode =? OP_NEGATE then - bn
  else if opcode =? OP_ABS then (if bn <? 0 then - bn else bn)
  else if opcode =? OP_NOT then bool_num (bn =? 0)
  else bool_num (negb (bn =? 0)).
Definition op_unary (fRequireMinimal : bool) (opcode : Z) (stack : stack_t) : result ScriptError stack_t :=
  match stack with
  | x :: s => let* bn := num4 fRequireMinimal x in
              Ok (ScriptNum.serialize (unary_num opcode bn) :: s)
  | _ => stack_err
  end.

Definition binary_num (opcode bn1 bn2 : Z) : Z :=
  if opcode =? OP_ADD then bn1 + bn2
  else if opcode =? OP_SUB then bn1 - bn2
  else if opcode =? OP_BOOLAND then bool_num (negb (bn1 =? 0) && negb (bn2 =? 0))
  else if opcode =? OP_BOOLOR then bool_num (negb (bn1 =? 0) || negb (bn2 =? 0))
  else if opcode =? OP_NUMEQUAL then bool_num (bn1 =? bn2)
  else if opcode =? OP_NUMEQUALVERIFY then bool_num (bn1 =? bn2)
  else if opcode =? OP_NUMNOTEQUAL then bool_num (negb (bn1 =? bn2))
  else if opcode =? OP_LESSTHAN then bool_num (bn1 <? bn2)
  else if opcode =? OP_GREATERTHAN then bool_num (bn1 >? bn2)
  else if opcode =? OP_LESSTHANOREQUAL then bool_num (bn1 <=? bn2)
  else if opcode =? OP_GREATERTHANOREQUAL then bool_num (bn1 >=? bn2)
  else if opcode =? OP_MIN then (if bn1 <? bn2 then bn1 else bn2)
  else (if bn1 >? bn2 then bn1 else bn2).
Definition op_binary (fRequireMinimal : bool) (opcode : Z) (stack : stack_t) : result ScriptError stack_t :=
  match stack with
  | x2 :: x1 :: s =>
      let* bn1 := num4 fRequireMinimal x1 in
      let* bn2 := num4 fRequireMinimal x2 in
      let out := ScriptNum.serialize (binary_num opcode bn1 bn2) in
      if opcode =? OP_NUMEQUALVERIFY
      then if CastToBool out then Ok s else Err SCRIPT_ERR_NUMEQUALVERIFY
      else Ok (out :: s)
  | _ => stack_err
  end.

Definition op_WITHIN (fRequireMinimal : bool) (stack : stack_t) : result ScriptError stack_t :=
  match stack with
  | x3 :: x2 :: x1 :: s =>
      let* bn1 := num4 fRequireMinimal x1 in
      let* bn2 := num4 fRequireMinimal x2 in
      let* bn3 := num4 fRequireMinimal x3 in
      Ok (bool_vch ((bn2 <=? bn1) && (bn1 <? bn3)) :: s)
  | _ => stack_err
  end.

Definition op_hash `{Crypto} (opcode : Z) (stack : stack_t) : result ScriptError stack_t :=
  match stack with
  | vch :: s =>
      let vchHash :=
        if opcode =? OP_RIPEMD160 then CRIPEMD160 vch
        else if opcode =? OP_SHA1 then CSHA1 vch
        else if opcode =? OP_SHA256 then CSHA256 vch
        else if opcode =? OP_HASH160 then CHash160 vch
        else CHash256 vch in
      Ok (vchHash :: s)
  | _ => stack_err
  end.

(** The cases of the [switch] that only read and write the main stack. *)
Definition stack_case `{Crypto} (fRequireMinimal : bool) (opcode : Z)
  : option (stack_t → result ScriptError stack_t) :=
  if (opcode =? OP_1NEGATE) || ((OP_1 <=? opcode) && (opcode <=? OP_16)) then Some (op_pushnum opcode)
  else if opcode =? OP_NOP then Some Ok
  else if opcode =? OP_VERIFY then Some op_VERIFY
  else if opcode =? OP_RETURN then Some (λ _, Err SCRIPT_ERR_OP_RETURN)
  else if opcode =? OP_2DROP then Some op_2DROP
  else if opcode =? OP_2DUP then Some op_2DUP
  else if opcode =? OP_3DUP then Some op_3DUP
  else if opcode =? OP_2OVER then Some op_2OVER
  else if opcode =? OP_2ROT then Some op_2ROT
  else if opcode =? OP_2SWAP then Some op_2SWAP
  else if opcode =? OP_IFDUP then Some op_IFDUP
  else if opcode =? OP_DEPTH then Some op_DEPTH
  else if opcode =? OP_DROP then Some op_DROP
  else if opcode =? OP_DUP then Some op_DUP
  else if opcode =? OP_NIP then Some op_NIP
  else if opcode =? OP_OVER then Some op_OVER
  else if (opcode =? OP_PICK) || (opcode =? OP_ROLL) then Some (op_PICK_ROLL fRequireMinimal opcode)
  else if opcode =? OP_ROT then Some op_ROT
  else if opcode =? OP_SWAP then Some op_SWAP
  else if opcode =? OP_TUCK then Some op_TUCK
  else if opcode =? OP_SIZE then Some op_SIZE
  else if (opcode =? OP_EQUAL) || (opcode =? OP_EQUALVERIFY) then Some (op_EQUAL opcode)
  else if (opcode =? OP_1ADD) || (opcode =? OP_1SUB) || (opcode =? OP_NEGATE) || (opcode =? OP_ABS)
          || (opcode =? OP_NOT) || (opcode =? OP_0NOTEQUAL) then Some (op_unary fRequireMinimal opcode)
  else if (opcode =? OP_ADD) || (opcode =? OP_SUB) || (opcode =? OP_BOOLAND) || (opcode =? OP_BOOLOR)
          || (opcode =? OP_NUMEQUAL) || (opcode =? OP_NUMEQUALVERIFY) || (opcode =? OP_NUMNOTEQUAL)
          || (opcode =? OP_LESSTHAN) || (opcode =? OP_GREATERTHAN) || (opcode =? OP_LESSTHANOREQUAL)
          || (opcode =? OP_GREATERTHANOREQUAL) || (opcode =? OP_MIN) || (opcode =? OP_MAX)
       then Some (op_binary fRequireMinimal opcode)
  else if opcode =? OP_WITHIN then Some (op_WITHIN fRequireMinimal)
  else if (opcode =? OP_RIPEMD160) || (opcode =? OP_SHA1) || (opcode =? OP_SHA256)
          || (opcode =? OP_HASH160) || (opcode =? OP_HASH256) then Some (op_hash opcode)
  else None.

(** ** Signature operations *)
Section SigOps.
Context `{Crypto} (checker : SignatureChecker) (flags : Z) (sigversion : SigVersion).

Definition fRequireMinimal : bool := flag_set flags SCRIPT_VERIFY_MINIMALDATA.

(** Drop one signature from the script code of a pre-segwit script. *)
Definition drop_signature (scriptCode : CScript) (vchSig : valtype) : result ScriptError CScript :=
  if is_base sigversion then
    let '(scriptCode, found) := FindAndDelete scriptCode (push_data [] vchSig) in
    if (found >? 0) && flag_set flags SCRIPT_VERIFY_CONST_SCRIPTCODE
    then Err SCRIPT_ERR_SIG_FINDANDDELETE else Ok scriptCode
  else Ok scriptCode.

Definition op_CHECKSIG (opcode : Z) (pbegincodehash : bytes) (stack : stack_t)
  : result ScriptError stack_t :=
  match stack with
  | vchPubKey :: vchSig :: s =>
      let* scriptCode := drop_signature pbegincodehash vchSig in
      let* _ := CheckSignatureEncoding vchSig flags in
      let* _ := CheckPubKeyEncoding vchPubKey flags sigversion in
      let fSuccess := CheckSig checker vchSig vchPubKey scriptCode sigversion in
      if negb fSuccess && flag_set flags SCRIPT_VERIFY_NULLFAIL && negb (size vchSig =? 0)
      then Err SCRIPT_ERR_SIG_NULLFAIL
      else if opcode =? OP_CHECKSIGVERIFY
           then if fSuccess then Ok s else Err SCRIPT_ERR_CHECKSIGVERIFY
           else Ok (bool_vch fSuccess :: s)
  | _ => stack_err
  end.

(** [for (k = 0; k < nSigsCount; k++)]: the loop at index [k]. *)
Fixpoint drop_signatures (n : nat) (k isig : Z) (stack : stack_t) (scriptCode : CScript)
  : result ScriptError CScript :=
  match n with
  | O => Ok scriptCode
  | S n => let* scriptCode := drop_signature scriptCode (stacktop stack (isig + k)) in
           drop_signatures n (k + 1) isig stack scriptCode
  end.

(** [while (fSuccess && nSigsCount > 0)]: each iteration uses up one key, so
    [nKeysCount] iterations are enough. *)
Fixpoint multisig_loop (fuel : nat) (stack : stack_t) (scriptCode : CScript)
    (fSuccess : bool) (isig nSigsCount ikey nKeysCount : Z) : result ScriptError bool :=
  match fuel with
  | O => Ok fSuccess
  | S fuel =>
      if fSuccess && (nSigsCount >? 0) then
        let vchSig := stacktop stack isig in
        let vchPubKey := stacktop stack ikey in
        let* _ := CheckSignatureEncoding vchSig flags in
        let* _ := CheckPubKeyEncoding vchPubKey flags sigversion in
        let fOk := CheckSig checker vchSig vchPubKey scriptCode sigversion in
        let '(isig, nSigsCount) := if fOk then (isig + 1, nSigsCount - 1) else (isig, nSigsCount) in
        let ikey := ikey + 1 in
        let nKeysCount := nKeysCount - 1 in
        multisig_loop fuel stack scriptCode (negb (nSigsCount >? nKeysCount)) isig nSigsCount ikey nKeysCount
      else Ok fSuccess
  end.

(** [while (i-- > 1)]: [n] more iterations. *)
Fixpoint multisig_cleanup (n : nat) (fSuccess : bool) (ikey2 : Z) (stack : stack_t)
  : result ScriptError stack_t :=
  match n with
  | O => Ok stack
  | S n =>
      if negb fSuccess && flag_set flags SCRIPT_VERIFY_NULLFAIL && (ikey2 =? 0)
         && negb (size (stacktop stack 1) =? 0)
      then Err SCRIPT_ERR_SIG_NULLFAIL
      else multisig_cleanup n fSuccess (if ikey2 >? 0 then ikey2 - 1 else ikey2) (tail stack)
  end.

(** The stack and the operation count after the instruction. *)
Definition op_CHECKMULTISIG (opcode nOpCount : Z) (pbegincodehash : bytes) (stack : stack_t)
  : result ScriptError (stack_t * Z) :=
  let i := 1 in
  if size stack <? i then stack_err else
  let* v := num4 fRequireMinimal (stacktop stack i) in
  let nKeysCount := ScriptNum.getint v in
  if (nKeysCount <? 0) || (nKeysCount >? MAX_PUBKEYS_PER_MULTISIG) then Err SCRIPT_ERR_PUBKEY_COUNT else
  let nOpCount := nOpCount + nKeysCount in
  if nOpCount >? MAX_OPS_PER_SCRIPT then Err SCRIPT_ERR_OP_COUNT else
  let ikey := i + 1 in
  let ikey2 := nKeysCount + 2 in
  let i := ikey + nKeysCount in
  if size stack <? i then stack_err else
  let* v := num4 fRequireMinimal (stacktop stack i) in
  let nSigsCount := ScriptNum.getint v in
  if (nSigsCount <? 0) || (nSigsCount >? nKeysCount) then Err SCRIPT_ERR_SIG_COUNT else
  let isig := i + 1 in
  let i := isig + nSigsCount in
  if size stack <? i then stack_err else
  let* scriptCode := drop_signatures (Z.to_nat nSigsCount) 0 isig stack pbegincodehash in
  let* fSuccess := multisig_loop (Z.to_nat nKeysCount) stack scriptCode true isig nSigsCount ikey nKeysCount in
  let* s := multisig_cleanup (Z.to_nat (i - 1)) fSuccess ikey2 stack in
  match s with
  | [] => stack_err
  | dummy :: s =>
      if flag_set flags SCRIPT_VERIFY_NULLDUMMY && negb (size dummy =? 0) then Err SCRIPT_ERR_SIG_NULLDUMMY
      else if opcode =? OP_CHECKMULTISIGVERIFY
           then if fSuccess then Ok (s, nOpCount) else Err SCRIPT_ERR_CHECKMULTISIGVERIFY
           else Ok (bool_vch fSuccess :: s, nOpCount)
  end.
End SigOps.

(** ** [EvalScript] *)

Definition SEQUENCE_LOCKTIME_DISABLE_FLAG : Z := 1 <<' 31.

(** The local variables of [EvalScript]; [vfExec] has its back first. *)
Record exec_state := mk_state {
  stack : stack_t;
  altstack : stack_t;
  vfExec : list bool;
  nOpCount : Z;
  pc : bytes;
  pbegincodehash : bytes
}.

(** What an instruction does: fall through to the size check and the next
    iteration, or return true from [EvalScript] with this stack. *)
Inductive outcome := Continue (st : exec_state) | ReturnTrue (s : stack_t).

Definition with_stack (st : exec_state) (s : stack_t) : exec_state :=
  mk_state s (altstack st) (vfExec st) (nOpCount st) (pc st) (pbegincodehash st).
Definition with_alt (st : exec_state) (s a : stack_t) : exec_state :=
  mk_state s a (vfExec st) (nOpCount st) (pc st) (pbegincodehash st).
Definition with_exec (st : exec_state) (s : stack_t) (vf : list bool) : exec_state :=
  mk_state s (altstack st) vf (nOpCount st) (pc st) (pbegincodehash st).
Definition with_count (st : exec_state) (s : stack_t) (n : Z) : exec_state :=
  mk_state s (altstack st) (vfExec st) n (pc st) (pbegincodehash st).
Definition with_codehash (st : exec_state) (p : bytes) : exec_state :=
  mk_state (stack st) (altstack st) (vfExec st) (nOpCount st) (pc st) p.

Definition disabled_opcode (opcode : Z) : bool :=
  (opcode =? OP_CAT) || (opcode =? OP_SUBSTR) || (opcode =? OP_LEFT) || (opcode =? OP_RIGHT)
  || (opcode =? OP_INVERT) || (opcode =? OP_AND) || (opcode =? OP_OR) || (opcode =? OP_XOR)
  || (opcode =? OP_2MUL) || (opcode =? OP_2DIV) || (opcode =? OP_MUL) || (opcode =? OP_DIV)
  || (opcode =? OP_MOD) || (opcode =? OP_LSHIFT) || (opcode =? OP_RSHIFT).

Section Eval.
Context `{Crypto} (checker : SignatureChecker) (flags : Z) (sigversion : SigVersion).

Definition op_CHECKLOCKTIMEVERIFY (st : exec_state) : result ScriptError exec_state :=
  if negb (flag_set flags SCRIPT_VERIFY_CHECKLOCKTIMEVERIFY) then Ok st
  else match stack st with
       | [] => stack_err
       | top :: _ =>
           let* nLockTime := num (fRequireMinimal flags) 5 top in
           if nLockTime <? 0 then Err SCRIPT_ERR_NEGATIVE_LOCKTIME
           else if negb (CheckLockTime checker nLockTime) then Err SCRIPT_ERR_UNSATISFIED_LOCKTIME
           else Ok st
       end.

Definition op_CHECKSEQUENCEVERIFY (st : exec_state) : result ScriptError exec_state :=
  if negb (flag_set flags SCRIPT_VERIFY_CHECKSEQUENCEVERIFY) then Ok st
  else match stack st with
       | [] => stack_err
       | top :: _ =>
           let* nSequence := num (fRequireMinimal flags) 5 top in
           if nSequence <? 0 then Err SCRIPT_ERR_NEGATIVE_LOCKTIME
           else if negb (nSequence &' SEQUENCE_LOCKTIME_DISABLE_FLAG =? 0) then Ok st
           else if negb (CheckSequence checker nSequence) then Err SCRIPT_ERR_UNSATISFIED_LOCKTIME
           else Ok st
       end.

Definition op_NOPS (st : exec_state) : result ScriptError exec_state :=
  if flag_set flags SCRIPT_VERIFY_DISCOURAGE_UPGRADABLE_NOPS
  then Err SCRIPT_ERR_DISCOURAGE_UPGRADABLE_NOPS else Ok st.

Definition op_IF (fExec : bool) (opcode : Z) (st : exec_state) : result ScriptError exec_state :=
  if fExec then
    match stack st with
    | [] => Err SCRIPT_ERR_UNBALANCED_CONDITIONAL
    | vch :: s =>
        if is_v0 sigversion && flag_set flags SCRIPT_VERIFY_MINIMALIF
           && ((size vch >? 1) || ((size vch =? 1) && negb (at_ vch 0 =? 1)))
        then Err SCRIPT_ERR_MINIMALIF
        else
          let fValue := CastToBool vch in
          let fValue := if opcode =? OP_NOTIF then negb fValue else fValue in
          Ok (with_exec st s (fValue :: vfExec st))
    end
  else Ok (with_exec st (stack st) (false :: vfExec st)).

Definition op_ELSE (st : exec_state) : result ScriptError exec_state :=
  match vfExec st with
  | [] => Err SCRIPT_ERR_UNBALANCED_CONDITIONAL
  | b :: vf => Ok (with_exec st (stack st) (negb b :: vf))
  end.
Definition op_ENDIF (st : exec_state) : result ScriptError exec_state :=
  match vfExec st with
  | [] => Err SCRIPT_ERR_UNBALANCED_CONDITIONAL
  | _ :: vf => Ok (with_exec st (stack st) vf)
  end.

Definition op_TOALTSTACK (st : exec_state) : result ScriptError exec_state :=
  match stack st with
  | [] => stack_err
  | x :: s => Ok (with_alt st s (x :: altstack st))
  end.
Definition op_FROMALTSTACK (st : exec_state) : result ScriptError exec_state :=
  match altstack st with
  | [] => Err SCRIPT_ERR_INVALID_ALTSTACK_OPERATION
  | x :: a => Ok (with_alt st (x :: stack st) a)
  end.

Definition continue (r : result ScriptError exec_state) : result ScriptError outcome :=
  let* st := r in Ok (Continue st).

(** The [switch], on the state whose [pc] is already past the instruction. *)
Definition exec_op (fExec : bool) (opcode : Z) (st : exec_state) : result ScriptError outcome :=
  match stack_case (fRequireMinimal flags) opcode with
  | Some f => continue (let* s := f (stack st) in Ok (with_stack st s))
  | None =>
      if opcode =? OP_CHECKLOCKTIMEVERIFY then continue (op_CHECKLOCKTIMEVERIFY st)
      else if opcode =? OP_CHECKSEQUENCEVERIFY then continue (op_CHECKSEQUENCEVERIFY st)
      else if (opcode =? OP_NOP1) || ((OP_NOP4 <=? opcode) && (opcode <=? OP_NOP10)) then continue (op_NOPS st)
      else if (opcode =? OP_IF) || (opcode =? OP_NOTIF) then continue (op_IF fExec opcode st)
      else if opcode =? OP_ELSE then continue (op_ELSE st)
      else if opcode =? OP_ENDIF then continue (op_ENDIF st)
      else if opcode =? OP_TOALTSTACK then continue (op_TOALTSTACK st)
      else if opcode =? OP_FROMALTSTACK then continue (op_FROMALTSTACK st)
      else if opcode =? OP_CODESEPARATOR then continue (Ok (with_codehash st (pc st)))
      else if (opcode =? OP_CHECKSIG) || (opcode =? OP_CHECKSIGVERIFY) then
        continue (let* s := op_CHECKSIG checker flags sigversion opcode (pbegincodehash st) (stack st) in
                  Ok (with_stack st s))
      else if (opcode =? OP_CHECKMULTISIG) || (opcode =? OP_CHECKMULTISIGVERIFY) then
        continue (let* r := op_CHECKMULTISIG checker flags sigversion opcode (nOpCount st)
                              (pbegincodehash st) (stack st) in
                  Ok (with_count st r.1 r.2))
      else if opcode =? OP_SPEND then Ok (ReturnTrue (stack st))
      else if (opcode =? OP_CREATE) || (opcode =? OP_CALL) then
        Ok (ReturnTrue ((opcode :: pc st) :: stack st))
      else Err SCRIPT_ERR_BAD_OPCODE
  end.

(** Every condition on the [if]-stack is true: [!count(vfExec, false)]. *)
Definition executing (st : exec_state) : bool := forallb (λ b, b) (vfExec st).

(** One iteration of the main loop, with [pc < pend]. *)
Definition step (st : exec_state) : result ScriptError outcome :=
  let fExec := executing st in
  let '(ok, opcode, vchPushValue, pc') := GetScriptOp (pc st) in
  if negb ok then Err SCRIPT_ERR_BAD_OPCODE
  else if size vchPushValue >? MAX_SCRIPT_ELEMENT_SIZE then Err SCRIPT_ERR_PUSH_SIZE
  else
    let n := if opcode >? OP_16 then nOpCount st + 1 else nOpCount st in
    if (opcode >? OP_16) && (n >? MAX_OPS_PER_SCRIPT) then Err SCRIPT_ERR_OP_COUNT
    else if disabled_opcode opcode then Err SCRIPT_ERR_DISABLED_OPCODE
    else if (opcode =? OP_CODESEPARATOR) && is_base sigversion
            && flag_set flags SCRIPT_VERIFY_CONST_SCRIPTCODE
    then Err SCRIPT_ERR_OP_CODESEPARATOR
    else
      let st := mk_state (stack st) (altstack st) (vfExec st) n pc' (pbegincodehash st) in
      let* o :=
        if fExec && (0 <=? opcode) && (opcode <=? OP_PUSHDATA4) then
          if fRequireMinimal flags && negb (CheckMinimalPush vchPushValue opcode)
          then Err SCRIPT_ERR_MINIMALDATA
          else Ok (Continue (with_stack st (vchPushValue :: stack st)))
        else if fExec || ((OP_IF <=? opcode) && (opcode <=? OP_ENDIF)) then exec_op fExec opcode st
        else Ok (Continue st) in
      match o with
      | ReturnTrue s => Ok (ReturnTrue s)
      | Continue st =>
          if size (stack st) + size (altstack st) >? MAX_STACK_SIZE then Err SCRIPT_ERR_STACK_SIZE
          else Ok (Continue st)
      end.

(** The main loop and what follows it.  Every iteration consumes at least one
    byte of the script, so the length of the script is enough fuel. *)
Fixpoint run (fuel : nat) (st : exec_state) : result ScriptError stack_t :=
  match pc st with
  | [] => match vfExec st with
          | [] => Ok (stack st)
          | _ => Err SCRIPT_ERR_UNBALANCED_CONDITIONAL
          end
  | _ =>
      match fuel with
      | O => Err SCRIPT_ERR_ERROR_COUNT
      | S fuel =>
          let* o := step st in
          match o with
          | ReturnTrue s => Ok s
          | Continue st => run fuel st
          end
      end
  end.

Definition EvalScript (s : stack_t) (script : CScript) : result ScriptError stack_t :=
  if size script >? MAX_SCRIPT_SIZE then Err SCRIPT_ERR_SCRIPT_SIZE
  else run (length script) (mk_state s [] [] 0 script script).
End Eval.

(** ** [VerifyScript] *)

(** A failing call either returns false with an error or fails an assertion. *)
Inductive verify_error := serror (e : ScriptError) | assertion_failed.
#[global] Instance verify_error_eq_dec : EqDecision verify_error.
Proof. solve_decision. Defined.

Definition lift_script {A} (r : result ScriptError A) : result verify_error A :=
  match r with Ok a => Ok a | Err e => Err (serror e) end.

Section Verify.
Context `{Crypto} (checker : SignatureChecker) (flags : Z).

(** The tests on the final stack of a top-level script. *)
Definition true_stack (s : stack_t) : result ScriptError unit :=
  match s with
  | [] => Err SCRIPT_ERR_EVAL_FALSE
  | top :: _ => if CastToBool top then Ok tt else Err SCRIPT_ERR_EVAL_FALSE
  end.

Definition p2pkh_script (program : bytes) : CScript :=
  push_opcode (push_opcode (push_data (push_opcode (push_opcode [] OP_DUP) OP_HASH160) program)
    OP_EQUALVERIFY) OP_CHECKSIG.

(** The witness stack is in transaction order (its back is the last item). *)
Definition VerifyWitnessProgram (witness : list bytes) (witversion : Z) (program : bytes)
  : result ScriptError unit :=
  if witversion =? 0 then
    let* (sp : CScript * stack_t) :=
      if size program =? WITNESS_V0_SCRIPTHASH_SIZE then
        match rev witness with
        | [] => Err SCRIPT_ERR_WITNESS_PROGRAM_WITNESS_EMPTY
        | scriptPubKey :: rest =>
            if bool_decide (take 32 (CSHA256 scriptPubKey) = take 32 program)
            then Ok (scriptPubKey, rest)
            else Err SCRIPT_ERR_WITNESS_PROGRAM_MISMATCH
        end
      else if size program =? WITNESS_V0_KEYHASH_SIZE then
        if negb (size witness =? 2) then Err SCRIPT_ERR_WITNESS_PROGRAM_MISMATCH
        else Ok (p2pkh_script program, rev witness)
      else Err SCRIPT_ERR_WITNESS_PROGRAM_WRONG_LENGTH in
    if negb (forallb (λ e, size e <=? MAX_SCRIPT_ELEMENT_SIZE) sp.2) then Err SCRIPT_ERR_PUSH_SIZE
    else
      let* s := EvalScript checker flags WITNESS_V0 sp.2 sp.1 in
      if negb (size s =? 1) then Err SCRIPT_ERR_CLEANSTACK else true_stack s
  else if flag_set flags SCRIPT_VERIFY_DISCOURAGE_UPGRADABLE_WITNESS_PROGRAM
       then Err SCRIPT_ERR_DISCOURAGE_UPGRADABLE_WITNESS_PROGRAM
       else Ok tt.

(** [stack.resize(1)] on a vector whose back comes first here: it keeps the
    first element of the vector. *)
Definition resize1 (s : stack_t) : stack_t :=
  match rev s with [] => [[]] | x :: _ => [x] end.

(** The witness-program branches: the stack afterwards and [hadWitness]. *)
Definition bare_witness (scriptSig scriptPubKey : CScript) (witness : list bytes) (s : stack_t)
  : result ScriptError (stack_t * bool) :=
  if flag_set flags SCRIPT_VERIFY_WITNESS then
    match IsWitnessProgram scriptPubKey with
    | Some (witnessversion, witnessprogram) =>
        if negb (size scriptSig =? 0) then Err SCRIPT_ERR_WITNESS_MALLEATED
        else let* _ := VerifyWitnessProgram witness witnessversion witnessprogram in
             Ok (resize1 s, true)
    | None => Ok (s, false)
    end
  else Ok (s, false).

Definition p2sh_witness (scriptSig pubKey2 : CScript) (witness : list bytes) (s : stack_t) (hadWitness : bool)
  : result ScriptError (stack_t * bool) :=
  if flag_set flags SCRIPT_VERIFY_WITNESS then
    match IsWitnessProgram pubKey2 with
    | Some (witnessversion, witnessprogram) =>
        if negb (bool_decide (scriptSig = push_data [] pubKey2)) then Err SCRIPT_ERR_WITNESS_MALLEATED_P2SH
        else let* _ := VerifyWitnessProgram witness witnessversion witnessprogram in
             Ok (resize1 s, true)
    | None => Ok (s, hadWitness)
    end
  else Ok (s, hadWitness).

Definition verify_p2sh (scriptSig scriptPubKey : CScript) (witness : list bytes)
    (s stackCopy : stack_t) (hadWitness : bool) : result verify_error (stack_t * bool) :=
  if flag_set flags SCRIPT_VERIFY_P2SH && IsPayToScriptHash scriptPubKey then
    if negb (IsPushOnly scriptSig) then Err (serror SCRIPT_ERR_SIG_PUSHONLY)
    else match stackCopy with
         | [] => Err assertion_failed
         | pubKey2 :: s =>
             lift_script (
               let* s := EvalScript checker flags BASE s pubKey2 in
               let* _ := true_stack s in
               p2sh_witness scriptSig pubKey2 witness s hadWitness)
         end
  else Ok (s, hadWitness).

Definition VerifyScript (scriptSig scriptPubKey : CScript) (witness : list bytes)
  : result verify_error unit :=
  if flag_set flags SCRIPT_VERIFY_SIGPUSHONLY && negb (IsPushOnly scriptSig)
  then Err (serror SCRIPT_ERR_SIG_PUSHONLY)
  else
    let* s := lift_script (EvalScript checker flags BASE [] scriptSig) in
    let stackCopy := s in
    let* s := lift_script (EvalScript checker flags BASE s scriptPubKey) in
    let* _ := lift_script (true_stack s) in
    let* r := lift_script (bare_witness scriptSig scriptPubKey witness s) in
    let* r := verify_p2sh scriptSig scriptPubKey witness r.1 stackCopy r.2 in
    let* _ :=
      if flag_set flags SCRIPT_VERIFY_CLEANSTACK then
        if negb (flag_set flags SCRIPT_VERIFY_P2SH) then Err assertion_failed
        else if negb (flag_set flags SCRIPT_VERIFY_WITNESS) then Err assertion_failed
        else if negb (size r.1 =? 1) then Err (serror SCRIPT_ERR_CLEANSTACK)
        else Ok tt
      else Ok tt in
    if flag_set flags SCRIPT_VERIFY_WITNESS then
      if negb (flag_set flags SCRIPT_VERIFY_P2SH) then Err assertion_failed
      else if negb r.2 && negb (size witness =? 0) then Err (serror SCRIPT_ERR_WITNESS_UNEXPECTED)
      else Ok tt
    else Ok tt.
End Verify.

(** ** Witness signature operations *)

Definition WitnessSigOps (witversion : Z) (witprogram : bytes) (witness : list bytes) : Z :=
  if witversion =? 0 then
    if size witprogram =? WITNESS_V0_KEYHASH_SIZE then 1
    else if (size witprogram =? WITNESS_V0_SCRIPTHASH_SIZE) && (size witness >? 0)
         then GetSigOpCount (default [] (back witness)) true
         else 0
  else 0.

(** The last data item of a push-only script ([scriptSig.GetOp] in a loop that
    ignores failures); [fuel] is the length of the script. *)
Fixpoint last_data (fuel : nat) (pc data : bytes) : bytes :=
  match fuel with
  | O => data
  | S fuel =>
      match pc with
      | [] => data
      | _ => let '(_, _, data, pc') := GetScriptOp pc in last_data fuel pc' data
      end
  end.

(** [None] is the failed assertion that WITNESS implies P2SH. *)
Definition CountWitnessSigOps (scriptSig scriptPubKey : CScript) (witness : list bytes) (flags : Z) : option Z :=
  if negb (flag_set flags SCRIPT_VERIFY_WITNESS) then Some 0
  else if negb (flag_set flags SCRIPT_VERIFY_P2SH) then None
  else Some
    match IsWitnessProgram scriptPubKey with
    | Some (witnessversion, witnessprogram) => WitnessSigOps witnessversion witnessprogram witness
    | None =>
        if IsPayToScriptHash scriptPubKey && IsPushOnly scriptSig then
          match IsWitnessProgram (last_data (length scriptSig) scriptSig []) with
          | Some (witnessversion, witnessprogram) => WitnessSigOps witnessversion witnessprogram witness
          | None => 0
          end
        else 0
    end.
