(* ===== verification/InterpreterFacts.v ===== *)
(** * Properties of the script interpreter *)
From S2P Require Import Prelude ArithUint256 Script Interpreter.

(** ** The main loop ends *)
Section Loop.
Context `{Crypto} (checker : SignatureChecker) (flags : Z) (sigversion : SigVersion).
Local Abbreviation exec_op := (exec_op checker flags sigversion).
Local Abbreviation step := (step checker flags sigversion).
Local Abbreviation run := (run checker flags sigversion).

(** No instruction moves the program counter or the script it runs. *)
Lemma exec_op_pc fExec opcode st st' :
  exec_op fExec opcode st = Ok (Continue st') → pc st' = pc st.
Proof.
  unfold Interpreter.exec_op, continue, op_CHECKLOCKTIMEVERIFY, op_CHECKSEQUENCEVERIFY,
    op_NOPS, op_IF, op_ELSE, op_ENDIF, op_TOALTSTACK, op_FROMALTSTACK.
  intros Hx. inv_ok; try done; by destruct st.
Qed.

Lemma step_consumes st st' :
  step st = Ok (Continue st') → (length (pc st') < length (pc st))%nat.
Proof.
  unfold Interpreter.step. destruct (GetScriptOp (pc st)) as [[[ok opcode] vch] pc'] eqn:E.
  intros Hs. destruct ok; [|done]. apply GetScriptOp_consumes in E as [Hlen _].
  cbn [negb] in Hs. inv_ok; cbn [stack altstack pc] in *;
    repeat match goal with
    | Hx : Interpreter.exec_op _ _ _ _ _ _ = Ok _ |- _ => apply exec_op_pc in Hx; rewrite Hx
    end; done.
Qed.

(** One iteration, with no fuel in sight. *)
Definition run_body (k : exec_state → result ScriptError stack_t) (st : exec_state)
  : result ScriptError stack_t :=
  match pc st with
  | [] => match vfExec st with
          | [] => Ok (stack st)
          | _ => Err SCRIPT_ERR_UNBALANCED_CONDITIONAL
          end
  | _ => let* o := step st in
         match o with ReturnTrue s => Ok s | Continue st => k st end
  end.

Lemma run_fuel f g st :
  (length (pc st) ≤ f)%nat → (length (pc st) ≤ g)%nat → run f st = run g st.
Proof.
  revert g st. induction f as [|f IH]; intros g st Hf Hg.
  { destruct g; cbn; destruct (pc st); cbn in Hf; done || lia. }
  destruct g as [|g]; cbn [Interpreter.run]; destruct (pc st) as [|b p] eqn:E; cbn in Hf, Hg; try done; [lia|].
  destruct (step st) as [[st'|s]|e] eqn:Hs; cbn [rbind]; try done.
  apply step_consumes in Hs. rewrite E in Hs. cbn in Hs. apply IH; lia.
Qed.

Lemma run_unfold st f :
  (length (pc st) ≤ f)%nat →
  run f st = run_body (λ st', run (length (pc st')) st') st.
Proof.
  intros Hf. unfold run_body. destruct (pc st) as [|b p] eqn:E.
  { destruct f; cbn; by rewrite E. }
  destruct f as [|f]; [cbn in Hf; lia|]. cbn [Interpreter.run]. rewrite E.
  destruct (step st) as [[st'|s]|e] eqn:Hs; cbn [rbind]; try done.
  apply step_consumes in Hs. rewrite E in Hs. cbn in Hs, Hf. apply run_fuel; lia.
Qed.

(** Rule induction over a successful run. *)
Lemma run_ind (P : exec_state → Prop) (Q : stack_t → Prop) f st s :
  (∀ st st', P st → step st = Ok (Continue st') → P st') →
  (∀ st s, P st → step st = Ok (ReturnTrue s) → Q s) →
  (∀ st, P st → pc st = [] → vfExec st = [] → Q (stack st)) →
  P st → run f st = Ok s → Q s.
Proof.
  intros Hstep Hret Hend. revert st. induction f as [|f IH]; intros st HP; cbn [Interpreter.run];
    intros Hr; inv_ok; eauto.
Qed.
End Loop.

(** ** Verification flags only restrict *)

Definition flags_sub (a b : Z) : Prop := ∀ f, flag_set a f = true → flag_set b f = true.

Lemma flag_set_lor a b f : flag_set (a |' b) f = flag_set a f || flag_set b f.
Proof.
  unfold flag_set. rewrite Z.land_lor_distr_l, <- negb_andb. f_equal.
  apply eq_bool_prop_intro.
  rewrite !Is_true_true, andb_true_iff, !Z.eqb_eq. apply Z.lor_eq_0_iff.
Qed.

Lemma flags_sub_lor a b : flags_sub a (a |' b).
Proof. intros f E. by rewrite flag_set_lor, E. Qed.

(** Split on every flag test of the goal, carrying each set flag over to the
    larger flag word. *)
Ltac split_flags Hsub :=
  repeat match type of Hsub with
  | flags_sub ?a _ =>
      match goal with
      | |- context [flag_set a ?f] =>
          let E := fresh "Hflag" in
          destruct (flag_set a f) eqn:E; [apply Hsub in E|]
      end
  end.

Section Mono.
Context `{Crypto} (checker : SignatureChecker) (a b : Z) (Hsub : flags_sub a b).

Lemma num_mono (m m' : bool) n v x :
  (m = true → m' = true) → num m' n v = Ok x → num m n v = Ok x.
Proof.
  unfold num, ScriptNum.CScriptNum. intros Hm.
  destruct (size v >? n); [done|]. destruct m; [by rewrite Hm|]. cbn [andb].
  by destruct (m' && _ && _ && _).
Qed.

Lemma op_PICK_ROLL_mono (m m' : bool) op s s' :
  (m = true → m' = true) → op_PICK_ROLL m' op s = Ok s' → op_PICK_ROLL m op s = Ok s'.
Proof.
  intros Hm. unfold op_PICK_ROLL, num4. destruct s as [|top [|y s]]; try done.
  destruct (num m' _ top) as [v|] eqn:E; [|done]. cbn [rbind].
  by rewrite (num_mono m m' _ _ _ Hm E).
Qed.

Lemma stack_case_mono (m m' : bool) op :
  (m = true → m' = true) →
  match stack_case m' op, stack_case m op with
  | Some f', Some f => ∀ s s', f' s = Ok s' → f s = Ok s'
  | None, None => True
  | _, _ => False
  end.
Proof.
  intros Hm. unfold stack_case. repeat (case_match; try done; simplify_eq/=);
    intros s s'; try done; try by apply op_PICK_ROLL_mono.
  - unfold op_unary. intros Hx. inv_ok. unfold num4 in *. erewrite num_mono by done. done.
  - unfold op_binary. intros Hx. inv_ok; unfold num4 in *;
      do 2 (erewrite num_mono by done; cbn [rbind]); repeat case_match; done.
  - unfold op_WITHIN. intros Hx. inv_ok. unfold num4 in *.
    do 3 (erewrite num_mono by done; cbn [rbind]). done.
Qed.

Lemma require_minimal_mono : fRequireMinimal a = true → fRequireMinimal b = true.
Proof. apply Hsub. Qed.

Lemma CheckSignatureEncoding_mono sig u :
  CheckSignatureEncoding sig b = Ok u → CheckSignatureEncoding sig a = Ok u.
Proof.
  unfold CheckSignatureEncoding. intros Hx. destruct (size sig =? 0); [done|].
  split_flags Hsub; rewrite ?Hflag, ?Hflag0, ?Hflag1 in Hx; cbn [andb] in *; inv_ok;
    repeat (case_match; simplify_eq/=); done.
Qed.

Lemma CheckPubKeyEncoding_mono pk sv u :
  CheckPubKeyEncoding pk b sv = Ok u → CheckPubKeyEncoding pk a sv = Ok u.
Proof.
  unfold CheckPubKeyEncoding. intros Hx.
  split_flags Hsub; rewrite ?Hflag, ?Hflag0 in Hx; cbn [andb] in *; inv_ok; done.
Qed.

Lemma drop_signature_mono sv code sig r :
  drop_signature b sv code sig = Ok r → drop_signature a sv code sig = Ok r.
Proof.
  unfold drop_signature. intros Hx. destruct (is_base sv); [|done].
  destruct (FindAndDelete code (push_data [] sig)) as [code' found].
  split_flags Hsub; rewrite ?Hflag in Hx; rewrite ?andb_false_r; inv_ok; done.
Qed.

Lemma drop_signatures_mono sv n k isig s code r :
  drop_signatures b sv n k isig s code = Ok r → drop_signatures a sv n k isig s code = Ok r.
Proof.
  revert k code. induction n as [|n IH]; intros k code; cbn; [done|]. intros Hx. inv_ok.
  erewrite drop_signature_mono by done. cbn [rbind]. by apply IH.
Qed.

Lemma multisig_loop_mono sv f s code ok isig ns ikey nk r :
  multisig_loop checker b sv f s code ok isig ns ikey nk = Ok r →
  multisig_loop checker a sv f s code ok isig ns ikey nk = Ok r.
Proof.
  revert ok isig ns ikey nk. induction f as [|f IH]; intros ok isig ns ikey nk; cbn; [done|].
  destruct (ok && (ns >? 0)); [|done]. intros Hx. apply rbind_Ok in Hx as ([] & H1 & Hx).
  apply rbind_Ok in Hx as ([] & H2 & Hx). rewrite (CheckSignatureEncoding_mono _ _ H1).
  cbn [rbind]. rewrite (CheckPubKeyEncoding_mono _ _ _ H2). cbn [rbind].
  destruct (CheckSig _ _ _ _ _); eauto.
Qed.

Lemma multisig_cleanup_mono n ok ikey2 s r :
  multisig_cleanup b n ok ikey2 s = Ok r → multisig_cleanup a n ok ikey2 s = Ok r.
Proof.
  revert ikey2 s. induction n as [|n IH]; intros ikey2 s; cbn; [done|]. intros Hx.
  split_flags Hsub; rewrite ?Hflag in Hx; inv_ok; rewrite ?andb_false_r; cbn [andb]; eauto.
Qed.

Lemma op_CHECKSIG_mono sv op code s r :
  op_CHECKSIG checker b sv op code s = Ok r → op_CHECKSIG checker a sv op code s = Ok r.
Proof.
  unfold op_CHECKSIG. destruct s as [|pk [|sig s]]; try done. intros Hx.
  apply rbind_Ok in Hx as (c & H1 & Hx). apply rbind_Ok in Hx as (u & H2 & Hx).
  apply rbind_Ok in Hx as (v & H3 & Hx). rewrite (drop_signature_mono _ _ _ _ H1). cbn [rbind].
  rewrite (CheckSignatureEncoding_mono _ _ H2). cbn [rbind].
  rewrite (CheckPubKeyEncoding_mono _ _ _ H3). cbn [rbind].
  split_flags Hsub; rewrite ?Hflag in Hx; [done|]. rewrite andb_false_r. cbn [andb].
  inv_ok; done.
Qed.

Lemma op_CHECKMULTISIG_mono sv op n code s r :
  op_CHECKMULTISIG checker b sv op n code s = Ok r → op_CHECKMULTISIG checker a sv op n code s = Ok r.
Proof.
  unfold op_CHECKMULTISIG. intros Hx. destruct (size s <? 1); [done|].
  apply rbind_Ok in Hx as (nk & H1 & Hx).
  rewrite (num_mono _ _ _ _ _ require_minimal_mono H1 : num4 _ _ = _). cbn [rbind].
  destruct (_ || _) in Hx |- *; [done|]. destruct (_ >? _) in Hx |- *; [done|].
  destruct (_ <? _) in Hx |- *; [done|]. apply rbind_Ok in Hx as (ns & H2 & Hx).
  rewrite (num_mono _ _ _ _ _ require_minimal_mono H2 : num4 _ _ = _). cbn [rbind].
  destruct (_ || _) in Hx |- *; [done|]. destruct (_ <? _) in Hx |- *; [done|].
  apply rbind_Ok in Hx as (c & H3 & Hx). apply rbind_Ok in Hx as (ok & H4 & Hx).
  apply rbind_Ok in Hx as (s' & H5 & Hx).
  rewrite (drop_signatures_mono _ _ _ _ _ _ _ H3). cbn [rbind].
  rewrite (multisig_loop_mono _ _ _ _ _ _ _ _ _ _ H4). cbn [rbind].
  rewrite (multisig_cleanup_mono _ _ _ _ _ H5). cbn [rbind].
  destruct s' as [|d s']; [done|].
  split_flags Hsub; rewrite ?Hflag in Hx; inv_ok; done.
Qed.

Lemma cltv_mono st st' :
  op_CHECKLOCKTIMEVERIFY checker b st = Ok st' → op_CHECKLOCKTIMEVERIFY checker a st = Ok st'.
Proof.
  unfold op_CHECKLOCKTIMEVERIFY. intros Hx.
  split_flags Hsub; rewrite ?Hflag in Hx; cbn [negb] in *; [|by inv_ok].
  destruct (stack st); [done|]. apply rbind_Ok in Hx as (v & H1 & Hx).
  by rewrite (num_mono _ _ _ _ _ require_minimal_mono H1).
Qed.

Lemma csv_mono st st' :
  op_CHECKSEQUENCEVERIFY checker b st = Ok st' → op_CHECKSEQUENCEVERIFY checker a st = Ok st'.
Proof.
  unfold op_CHECKSEQUENCEVERIFY. intros Hx.
  split_flags Hsub; rewrite ?Hflag in Hx; cbn [negb] in *; [|by inv_ok].
  destruct (stack st); [done|]. apply rbind_Ok in Hx as (v & H1 & Hx).
  by rewrite (num_mono _ _ _ _ _ require_minimal_mono H1).
Qed.

Lemma nops_mono st st' : op_NOPS b st = Ok st' → op_NOPS a st = Ok st'.
Proof. unfold op_NOPS. intros Hx. split_flags Hsub; rewrite ?Hflag in Hx; inv_ok; done. Qed.

Lemma if_mono sv fExec op st st' : op_IF b sv fExec op st = Ok st' → op_IF a sv fExec op st = Ok st'.
Proof.
  unfold op_IF. intros Hx. destruct fExec; [|done]. destruct (stack st); [done|].
  split_flags Hsub; rewrite ?Hflag in Hx; [done|]. rewrite andb_false_r. cbn [andb].
  by destruct (is_v0 sv && _ && _).
Qed.

Lemma continue_mono r r' o :
  (∀ st, r = Ok st → r' = Ok st) → continue r = Ok o → continue r' = Ok o.
Proof. unfold continue. intros Hr. destruct r; [|done]. by rewrite (Hr _ eq_refl). Qed.

Lemma rbind_mono {A B} (r r' : result ScriptError A) (k : A → result ScriptError B) o :
  (∀ x, r = Ok x → r' = Ok x) → rbind r k = Ok o → rbind r' k = Ok o.
Proof. intros Hr. destruct r; [|done]. by rewrite (Hr _ eq_refl). Qed.

Lemma exec_op_mono sv fExec op st o :
  exec_op checker b sv fExec op st = Ok o → exec_op checker a sv fExec op st = Ok o.
Proof.
  unfold exec_op. pose proof (stack_case_mono _ _ op require_minimal_mono) as Hsc.
  destruct (stack_case (fRequireMinimal b) op) as [f'|], (stack_case (fRequireMinimal a) op) as [f|];
    [|destruct Hsc|destruct Hsc|].
  { apply continue_mono. intros st' Hx. apply rbind_Ok in Hx as (s & Hx & Hs).
    by rewrite (Hsc _ _ Hx). }
  clear Hsc.
  repeat match goal with
  | |- (if ?c then continue _ else _) = _ → (if ?c then _ else _) = _ =>
      destruct c; [apply continue_mono; intros st'|]
  end; auto using cltv_mono, csv_mono, nops_mono, if_mono.
  - apply rbind_mono, op_CHECKSIG_mono.
  - apply rbind_mono, op_CHECKMULTISIG_mono.
Qed.

Lemma step_mono sv st o : step checker b sv st = Ok o → step checker a sv st = Ok o.
Proof.
  unfold step. destruct (GetScriptOp (pc st)) as [[[ok op] vch] pc'].
  destruct ok; cbn [negb]; [|done]. destruct (size vch >? _); [done|].
  destruct ((op >? OP_16) && _); [done|]. destruct (disabled_opcode op); [done|].
  intros Hx. destruct (_ && flag_set b _) eqn:E; [done|].
  replace ((op =? OP_CODESEPARATOR) && is_base sv && flag_set a SCRIPT_VERIFY_CONST_SCRIPTCODE) with false.
  2:{ split_flags Hsub; [by rewrite Hflag in E|by rewrite andb_false_r]. }
  apply rbind_Ok in Hx as (o' & Ho & Hx).
  match goal with |- rbind ?m _ = _ => enough (m = Ok o') as -> by exact Hx end. clear Hx.
  destruct (executing st && _ && _).
  - destruct (fRequireMinimal a) eqn:Em; [by rewrite (require_minimal_mono Em) in Ho|].
    by destruct (fRequireMinimal b && _).
  - destruct (executing st || _); [|done]. by apply exec_op_mono.
Qed.

Lemma run_mono sv f st s : run checker b sv f st = Ok s → run checker a sv f st = Ok s.
Proof.
  revert st. induction f as [|f IH]; intros st; cbn [run]; destruct (pc st) as [|byte p];
    [exact id|discriminate|exact id|].
  intros Hx. apply rbind_Ok in Hx as (o & Ho & Hx). rewrite (step_mono _ _ _ Ho). cbn [rbind].
  destruct o as [st'|s']; [apply IH, Hx|exact Hx].
Qed.

Lemma EvalScript_mono sv s script s' :
  EvalScript checker b sv s script = Ok s' → EvalScript checker a sv s script = Ok s'.
Proof. unfold EvalScript. destruct (_ >? _); [done|]. apply run_mono. Qed.
End Mono.

(** The flag words [VerifyScript] may be called with: its assertions. *)
Definition flags_consistent (flags : Z) : bool :=
  implb (flag_set flags SCRIPT_VERIFY_WITNESS) (flag_set flags SCRIPT_VERIFY_P2SH) &&
  implb (flag_set flags SCRIPT_VERIFY_CLEANSTACK)
        (flag_set flags SCRIPT_VERIFY_P2SH && flag_set flags SCRIPT_VERIFY_WITNESS).

Lemma lift_script_Ok {A} (r : result ScriptError A) x : lift_script r = Ok x ↔ r = Ok x.
Proof. destruct r; cbn; naive_solver. Qed.

Section VerifyMono.
Context `{Crypto} (checker : SignatureChecker) (a b : Z) (Hsub : flags_sub a b).

Lemma VerifyWitnessProgram_mono wit v prog u :
  VerifyWitnessProgram checker b wit v prog = Ok u → VerifyWitnessProgram checker a wit v prog = Ok u.
Proof.
  unfold VerifyWitnessProgram. intros Hx. destruct (v =? 0).
  - apply rbind_Ok in Hx as (sp & -> & Hx). cbn [rbind].
    destruct (negb (forallb _ _)); [done|]. apply rbind_Ok in Hx as (s & Hs & Hx).
    by rewrite (EvalScript_mono checker a b Hsub _ _ _ _ Hs).
  - split_flags Hsub; rewrite ?Hflag in Hx; inv_ok; done.
Qed.

Lemma bare_witness_mono sig pk wit s r :
  flag_set a SCRIPT_VERIFY_WITNESS = true →
  bare_witness checker b sig pk wit s = Ok r → bare_witness checker a sig pk wit s = Ok r.
Proof.
  unfold bare_witness. intros Ha. rewrite Ha, (Hsub _ Ha).
  destruct (IsWitnessProgram pk) as [[v prog]|]; [|done]. destruct (negb _); [done|].
  intros Hx. apply rbind_Ok in Hx as (u & Hu & Hx). by rewrite (VerifyWitnessProgram_mono _ _ _ _ Hu).
Qed.

Lemma p2sh_witness_mono sig pk2 wit s had r :
  flag_set a SCRIPT_VERIFY_WITNESS = true →
  p2sh_witness checker b sig pk2 wit s had = Ok r → p2sh_witness checker a sig pk2 wit s had = Ok r.
Proof.
  unfold p2sh_witness. intros Ha. rewrite Ha, (Hsub _ Ha).
  destruct (IsWitnessProgram pk2) as [[v prog]|]; [|done]. destruct (negb _); [done|].
  intros Hx. apply rbind_Ok in Hx as (u & Hu & Hx). by rewrite (VerifyWitnessProgram_mono _ _ _ _ Hu).
Qed.

(** With P2SH in the smaller flag word the P2SH branch is taken under both. *)
Lemma verify_p2sh_mono sig pk wit s s' copy had had' r :
  verify_p2sh checker b sig pk wit s copy had = Ok r →
  (flag_set a SCRIPT_VERIFY_WITNESS = true → s' = s ∧ had' = had ∧ flag_set a SCRIPT_VERIFY_P2SH = true) →
  ∃ r', verify_p2sh checker a sig pk wit s' copy had' = Ok r' ∧
        (flag_set a SCRIPT_VERIFY_WITNESS = true → r' = r).
Proof.
  unfold verify_p2sh. intros Hx Hw.
  destruct (flag_set a SCRIPT_VERIFY_P2SH) eqn:Ha; cbn [andb].
  2:{ eexists. split; [done|]. intros HW. by destruct (Hw HW) as (_ & _ & ?). }
  rewrite (Hsub _ Ha) in Hx. cbn [andb] in Hx. destruct (IsPayToScriptHash pk).
  2:{ inv_ok. eexists. split; [done|]. intros HW. by destruct (Hw HW) as (-> & -> & _). }
  destruct (negb _); [done|]. destruct copy as [|pk2 st]; [done|].
  apply lift_script_Ok in Hx. apply rbind_Ok in Hx as (s1 & H1 & Hx).
  rewrite (EvalScript_mono checker a b Hsub _ _ _ _ H1). cbn [rbind].
  apply rbind_Ok in Hx as (u & -> & Hx). cbn [rbind].
  destruct (flag_set a SCRIPT_VERIFY_WITNESS) eqn:HW.
  - destruct (Hw eq_refl) as (-> & -> & _). exists r. rewrite lift_script_Ok.
    split; [by apply p2sh_witness_mono|done].
  - unfold p2sh_witness. rewrite HW. eexists. split; done.
Qed.

Lemma VerifyScript_mono sig pk wit :
  flags_consistent a = true →
  VerifyScript checker b sig pk wit = Ok tt → VerifyScript checker a sig pk wit = Ok tt.
Proof.
  intros Hc Hx. unfold flags_consistent in Hc. apply andb_true_iff in Hc as [Hc1 Hc2].
  unfold VerifyScript in *.
  assert (flag_set a SCRIPT_VERIFY_SIGPUSHONLY && negb (IsPushOnly sig) = false) as ->.
  { split_flags Hsub; [rewrite Hflag in Hx|done]. by destruct (IsPushOnly sig). }
  destruct (_ && _) in Hx; [done|].
  apply rbind_Ok in Hx as (s0 & H0 & Hx). apply lift_script_Ok in H0.
  rewrite (EvalScript_mono checker a b Hsub _ _ _ _ H0). cbn [lift_script rbind].
  apply rbind_Ok in Hx as (s1 & H1 & Hx). apply lift_script_Ok in H1.
  rewrite (EvalScript_mono checker a b Hsub _ _ _ _ H1). cbn [lift_script rbind].
  apply rbind_Ok in Hx as (u & -> & Hx). cbn [rbind].
  apply rbind_Ok in Hx as (r1 & H2 & Hx). apply lift_script_Ok in H2.
  apply rbind_Ok in Hx as (r2 & H3 & Hx). apply rbind_Ok in Hx as (u' & H4 & Hx).
  destruct (flag_set a SCRIPT_VERIFY_WITNESS) eqn:HW; cbn [implb] in *.
  - rewrite (bare_witness_mono _ _ _ _ _ HW H2). cbn [lift_script rbind].
    destruct (verify_p2sh_mono sig pk wit r1.1 r1.1 s0 r1.2 r1.2 r2 H3) as (r' & -> & Hr); [done|].
    rewrite (Hr HW). cbn [rbind]. rewrite Hc1. cbn [negb].
    rewrite (Hsub _ HW), (Hsub _ Hc1) in *. cbn [negb] in *.
    split_flags Hsub; rewrite ?Hflag in H4; destruct (negb (_ =? 1)) in H4 |- *; by inv_ok.
  - destruct (flag_set a SCRIPT_VERIFY_CLEANSTACK) eqn:HC; cbn [implb] in Hc2.
    { rewrite andb_false_r in Hc2. done. }
    unfold bare_witness at 1. rewrite HW. cbn [lift_script rbind fst snd].
    destruct (verify_p2sh_mono sig pk wit r1.1 s1 s0 r1.2 false r2 H3) as (r' & -> & _); [congruence|].
    done.
Qed.
End VerifyMono.

(** ** Resource limits *)

Definition small (e : valtype) : Prop := size e ≤ MAX_SCRIPT_ELEMENT_SIZE.

Lemma serialize_small v : small (ScriptNum.serialize v).
Proof.
  unfold small, size, MAX_SCRIPT_ELEMENT_SIZE.
  enough (length (ScriptNum.serialize v) ≤ 9)%nat by lia. unfold ScriptNum.serialize.
  destruct (v =? 0); [cbn; lia|].
  pose proof (ScriptNumFacts.abs_bytes_length 8 (u64 (if v <? 0 then - v else v))) as Hl.
  destruct (snoc_cases (ScriptNum.abs_bytes 8 (u64 (if v <? 0 then - v else v)))) as [E|(k & x & E)];
    rewrite E in *.
  { cbn. by destruct (v <? 0); cbn; lia. }
  destruct (ScriptNum.back_bit7 _); [rewrite length_app; cbn; lia|].
  destruct (v <? 0); [rewrite ScriptNumFacts.or_back_snoc|]; rewrite !length_app in *; cbn in *; lia.
Qed.

Lemma bool_vch_small x : small (bool_vch x).
Proof. by destruct x. Qed.

Lemma size_cons {A} (x : A) l : size (x :: l) = size l + 1.
Proof. unfold size. cbn. lia. Qed.

Lemma GetScriptOp_opcode pc opcode vch pc' :
  GetScriptOp pc = (true, opcode, vch, pc') → OP_PUSHDATA4 < opcode → pc = opcode :: pc'.
Proof.
  destruct pc as [|x pc]; [done|]. cbn [GetScriptOp]. intros Hg Hop.
  destruct (Z.leb_spec x OP_PUSHDATA4); [|congruence].
  repeat (case_match; simplify_eq); lia.
Qed.

Lemma stacktop_small s i : Forall small s → small (stacktop s i).
Proof.
  intros Hs. unfold stacktop. generalize (Z.to_nat (i - 1)) as n.
  induction Hs; intros [|n]; cbn; auto; unfold small, size; cbn; done.
Qed.

Section Limits.
Context `{Hc : Crypto} {Hsz : CryptoSizes Hc} (checker : SignatureChecker) (flags : Z) (sv : SigVersion).

Lemma hash_small op x s s' : Forall small s → small x → op_hash op (x :: s) = Ok s' → Forall small s'.
Proof.
  intros Hs Hx Ho. unfold op_hash in Ho. inv_ok. constructor; [|done].
  unfold small, CHash160, CHash256, MAX_SCRIPT_ELEMENT_SIZE.
  repeat case_match; rewrite ?CSHA256_size, ?CSHA1_size, ?CRIPEMD160_size; lia.
Qed.

Lemma pick_roll_small m op s s' : Forall small s → op_PICK_ROLL m op s = Ok s' → Forall small s'.
Proof.
  intros Hs Ho. unfold op_PICK_ROLL in Ho. destruct s as [|top [|y s]]; try done.
  apply rbind_Ok in Ho as (v & _ & Ho). cbn [tail] in Ho. destruct (_ || _) in Ho; [done|]. inv_ok.
  apply Forall_cons in Hs as [_ Hs].
  assert (small (stacktop (y :: s) (ScriptNum.getint v + 1)))
    by by apply stacktop_small.
  constructor; [done|]. case_match; [|done].
  apply Forall_app. split; [by apply Forall_take|]. apply Forall_drop. by apply Forall_cons in Hs as [].
Qed.

Lemma stack_case_small m op f s s' :
  stack_case m op = Some f → Forall small s → f s = Ok s' → Forall small s'.
Proof.
  intros Hf Hs Ho. unfold stack_case in Hf.
  repeat match type of Hf with (if ?c then _ else _) = _ => destruct c; [injection Hf as <-|] end;
    try discriminate;
    try (eapply pick_roll_small; eassumption);
    try (destruct s as [|x s]; [done|]; apply Forall_cons in Hs as []; eapply hash_small; eassumption);
    unfold op_pushnum, op_VERIFY, op_2DROP, op_2DUP, op_3DUP, op_2OVER, op_2ROT, op_2SWAP, op_IFDUP,
      op_DEPTH, op_DROP, op_DUP, op_NIP, op_OVER, op_ROT, op_SWAP, op_TUCK, op_SIZE, op_EQUAL,
      op_unary, op_binary, op_WITHIN in Ho;
    inv_ok; rewrite ?Forall_cons in *; destruct_and?;
    split_and?; auto using serialize_small, bool_vch_small.
Qed.

Lemma multisig_cleanup_drop n ok ikey2 s s' :
  multisig_cleanup flags n ok ikey2 s = Ok s' → s' = drop n s.
Proof.
  revert ikey2 s. induction n as [|n IH]; intros ikey2 s; cbn; [by intros [= ->]|].
  case_match; [done|]. intros Hx. apply IH in Hx as ->. destruct s; cbn; by rewrite ?drop_nil.
Qed.

Lemma checkmultisig_within op n code s r :
  Forall small s → op_CHECKMULTISIG checker flags sv op n code s = Ok r →
  Forall small r.1 ∧ r.2 ≤ MAX_OPS_PER_SCRIPT.
Proof.
  intros Hs Hx. unfold op_CHECKMULTISIG in Hx. destruct (size s <? 1); [done|].
  apply rbind_Ok in Hx as (nk & _ & Hx). destruct (_ || _) in Hx; [done|].
  destruct (_ >? _) eqn:Hops in Hx; [done|]. rewrite Z.gtb_ltb, Z.ltb_ge in Hops.
  destruct (_ <? _) in Hx; [done|]. apply rbind_Ok in Hx as (ns & _ & Hx).
  destruct (_ || _) in Hx; [done|]. destruct (_ <? _) in Hx; [done|].
  apply rbind_Ok in Hx as (c & _ & Hx). apply rbind_Ok in Hx as (ok & _ & Hx).
  apply rbind_Ok in Hx as (s' & Hcl & Hx). apply multisig_cleanup_drop in Hcl as Hd.
  assert (Forall small s') as Hs' by (rewrite Hd; by apply Forall_drop).
  destruct s' as [|d s']; [done|]. apply Forall_cons in Hs' as [_ Hs'].
  inv_ok; cbn; split; auto using bool_vch_small.
Qed.

(** What every instruction preserves; the limit on the number of stack
    elements is enforced after the instruction. *)
Definition within (st : exec_state) : Prop :=
  Forall small (stack st) ∧ Forall small (altstack st) ∧ nOpCount st ≤ MAX_OPS_PER_SCRIPT.

Lemma exec_op_within fExec op st st' :
  within st → exec_op checker flags sv fExec op st = Ok (Continue st') → within st'.
Proof.
  intros (Hs & Ha & Hn) Hx. unfold exec_op in Hx.
  destruct (stack_case _ op) as [f|] eqn:E.
  { unfold continue in Hx. inv_ok. split_and!; try done. cbn. eauto using stack_case_small. }
  unfold continue, op_CHECKLOCKTIMEVERIFY, op_CHECKSEQUENCEVERIFY,
    op_NOPS, op_IF, op_ELSE, op_ENDIF, op_TOALTSTACK, op_FROMALTSTACK, op_CHECKSIG in Hx.
  inv_ok; try discriminate; unfold within, with_stack, with_alt, with_exec, with_codehash; cbn [stack altstack nOpCount] in *;
    try match goal with Hm : op_CHECKMULTISIG _ _ _ _ _ _ _ = Ok _ |- _ =>
      apply checkmultisig_within in Hm as []; [|done]; done end;
    repeat match goal with Hq : _ = _ :: _ |- _ => rewrite Hq in *; clear Hq end;
    rewrite ?Forall_cons in *; destruct_and?; split_and?; auto using bool_vch_small.
Qed.

Lemma exec_op_return fExec op st s :
  exec_op checker flags sv fExec op st = Ok (ReturnTrue s) →
  s = stack st ∨ ((op = OP_CREATE ∨ op = OP_CALL) ∧ s = (op :: pc st) :: stack st).
Proof.
  intros Hx. unfold exec_op, continue in Hx. inv_ok; try done; [by left|right].
  split; [|done]. match goal with Hcc : (_ || _) = true |- _ => apply orb_true_iff in Hcc as [?%Z.eqb_eq|?%Z.eqb_eq] end; auto.
Qed.

(** The loop invariant of a run of [script]. *)
Definition run_inv (script : CScript) (st : exec_state) : Prop :=
  within st ∧ size (stack st) + size (altstack st) ≤ MAX_STACK_SIZE ∧ pc st `suffix_of` script.

(** The stack a successful run leaves: within the limits, or, when the script
    ran into a contract instruction, within the limits below the rest of the
    script, which that instruction pushes. *)
Definition final_stack (script : CScript) (s : stack_t) : Prop :=
  (Forall small s ∧ size s ≤ MAX_STACK_SIZE) ∨
  (∃ op rest s', s = (op :: rest) :: s' ∧ (op = OP_CREATE ∨ op = OP_CALL) ∧
     (op :: rest) `suffix_of` script ∧ Forall small s' ∧ size s' ≤ MAX_STACK_SIZE).

Lemma step_limits script st o :
  run_inv script st → step checker flags sv st = Ok o →
  match o with Continue st' => run_inv script st' | ReturnTrue s => final_stack script s end.
Proof.
  intros ((Hs & Ha & Hn) & Hsize & Hsuf) Hx. unfold step in Hx.
  destruct (GetScriptOp (pc st)) as [[[ok op] vch] pc'] eqn:E. destruct ok; [|done].
  destruct (GetScriptOp_consumes _ _ _ _ E) as [_ (pre & Hpc & _)].
  assert (pc' `suffix_of` script) as Hsuf' by (etrans; [exists pre; exact Hpc|done]).
  cbn [negb] in Hx. destruct (_ >? _) eqn:Hv in Hx; [done|]. rewrite Z.gtb_ltb, Z.ltb_ge in Hv.
  destruct (_ && _) eqn:Hop in Hx; [done|]. destruct (disabled_opcode op); [done|].
  destruct (_ && _) in Hx; [done|]. apply rbind_Ok in Hx as (o' & Ho & Hx).
  set (st1 := mk_state _ _ _ _ _ _) in Ho.
  assert (within st1) as Hw.
  { split_and!; try done. subst st1. cbn. destruct (op >? OP_16); cbn in Hop; [|done].
    rewrite Z.gtb_ltb, Z.ltb_ge in Hop. done. }
  assert (∀ st', o' = Continue st' → within st' ∧ pc st' = pc') as Hcont.
  { intros st' ->. destruct (executing st && _ && _) eqn:?.
    - destruct (fRequireMinimal flags && _); [done|]. inv_ok. split; [|done].
      destruct Hw as (? & ? & ?). split_and!; try done. constructor; done.
    - destruct (executing st || _); [|by inv_ok].
      split; [by eapply exec_op_within|by eapply exec_op_pc in Ho]. }
  destruct o' as [st'|s].
  - destruct (_ >? _) eqn:Hsz' in Hx; [done|]. injection Hx as <-. rewrite Z.gtb_ltb, Z.ltb_ge in Hsz'.
    destruct (Hcont _ eq_refl) as [Hw' Hpc']. split_and!; [done|done|by rewrite Hpc'].
  - injection Hx as <-. destruct (_ && _ && _) in Ho; [by inv_ok|]. destruct (_ || _) in Ho; [|by inv_ok].
    pose proof (size_nonneg (altstack st)).
    apply exec_op_return in Ho as [->|(Hcc & ->)]; [left|right]; subst st1; cbn in *.
    + split; [done|lia].
    + exists op, pc', (stack st). split_and!; try done; [|lia].
      apply GetScriptOp_opcode in E; [|destruct Hcc as [-> | ->]; done].
      rewrite <- E. done.
Qed.

Lemma EvalScript_final s script s' :
  Forall small s → size s ≤ MAX_STACK_SIZE →
  EvalScript checker flags sv s script = Ok s' →
  size script ≤ MAX_SCRIPT_SIZE ∧ final_stack script s'.
Proof.
  intros Hs Hsize. unfold EvalScript. destruct (_ >? _) eqn:Hl; [done|].
  rewrite Z.gtb_ltb, Z.ltb_ge in Hl. intros Hr. split; [done|]. revert Hr.
  apply (run_ind checker flags sv (run_inv script) (final_stack script)).
  - intros st st' Hi Hst. apply (step_limits _ _ _ Hi Hst).
  - intros st r Hi Hst. apply (step_limits _ _ _ Hi Hst).
  - intros st ((Hst & _ & _) & Hsz' & _) _ _. left. pose proof (size_nonneg (altstack st)).
    split; [done|lia].
  - split; [by split_and!|]. split; [|done]. cbn [stack altstack]. unfold size at 2. cbn [length]. lia.
Qed.
End Limits.

(** ** Collisions *)

(** Two different inputs of the double hash with the same digest. *)
Definition collision (C : Crypto) : Prop := ∃ x y : bytes, x ≠ y ∧ CHash256 x = CHash256 y.

Lemma CHash256_inj (C : Crypto) x y : CHash256 x = CHash256 y → x = y ∨ collision C.
Proof. intros E. destruct (decide (x = y)); [by left|right; by exists x, y]. Qed.

(** ** Main statements *)

(** A concrete instance of the hash functions and the signature test, used to
    run the interpreter on examples: each digest is a prefix of the padded
    message. *)
Definition toy_digest (n : nat) (m : bytes) : bytes := take n (m ++ replicate n 0).
Definition toy_crypto : Crypto := {|
  CSHA256 := toy_digest 32; CSHA1 := toy_digest 20; CRIPEMD160 := toy_digest 20; CheckLowS _ := true
|}.
Lemma toy_digest_size n m : size (toy_digest n m) = Z.of_nat n.
Proof. unfold size, toy_digest. rewrite length_take, length_app, length_replicate. lia. Qed.
#[global] Instance toy_sizes : CryptoSizes toy_crypto.
Proof. split; intros; apply toy_digest_size. Qed.
Definition toy_checker (ok : bool) : SignatureChecker :=
  {| CheckSig _ _ _ _ := ok; CheckLockTime _ := ok; CheckSequence _ := ok |}.

(** C8: "All flags are intended to be soft forks": adding flags never makes an
    invalid spend valid.  Whatever [VerifyScript] accepts under [A | B] it
    accepts under [A], for every flag word [A] its assertions allow. *)
Theorem verify_flags_are_soft_forks (C : Crypto) checker A B scriptSig scriptPubKey witness :
  flags_consistent A = true →
  VerifyScript checker (A |' B) scriptSig scriptPubKey witness = Ok tt →
  VerifyScript checker A scriptSig scriptPubKey witness = Ok tt.
Proof. apply VerifyScript_mono, flags_sub_lor. Qed.

Lemma verify_flags_are_soft_forks_witness :
  VerifyScript (H:=toy_crypto) (toy_checker true) SCRIPT_VERIFY_P2SH [OP_1] [OP_DUP; OP_VERIFY] [] = Ok tt.
Proof.
  apply (verify_flags_are_soft_forks toy_crypto (toy_checker true) SCRIPT_VERIFY_P2SH SCRIPT_VERIFY_MINIMALDATA);
    reflexivity.
Defined.

(** [EvalScript] enforces its limits.  From a stack within the limits a
    successful run is of a script of at most [MAX_SCRIPT_SIZE] bytes and leaves
    at most [MAX_STACK_SIZE] elements of at most [MAX_SCRIPT_ELEMENT_SIZE]
    bytes each; the one exception is a run that reached OP_CREATE or OP_CALL,
    which leaves the rest of the script on top of such a stack. *)
Theorem eval_script_limits (C : Crypto) (Csizes : CryptoSizes C) checker flags sigversion stack0 script s :
  Forall small stack0 → size stack0 ≤ MAX_STACK_SIZE →
  EvalScript checker flags sigversion stack0 script = Ok s →
  size script ≤ MAX_SCRIPT_SIZE ∧ final_stack script s.
Proof. apply EvalScript_final. Qed.

Lemma eval_script_limits_witness :
  size [OP_1; OP_DUP; OP_SHA256] ≤ MAX_SCRIPT_SIZE ∧
  final_stack [OP_1; OP_DUP; OP_SHA256] [toy_digest 32 [1]; [1]].
Proof.
  apply (eval_script_limits toy_crypto toy_sizes (toy_checker true) 0 BASE []); [constructor|done|reflexivity].
Defined.

(** C27: the main loop terminates: each iteration that continues leaves a
    strictly shorter rest of the script, so the length of the script is enough
    fuel, any more gives the same result, and the run satisfies the fuel-free
    loop equation. *)
Theorem eval_script_terminates (C : Crypto) checker flags sigversion st fuel :
  (length (pc st) ≤ fuel)%nat →
  run checker flags sigversion fuel st = run checker flags sigversion (length (pc st)) st ∧
  run checker flags sigversion fuel st =
    run_body checker flags sigversion (λ st', run checker flags sigversion (length (pc st')) st') st ∧
  (∀ st', step checker flags sigversion st = Ok (Continue st') → (length (pc st') < length (pc st))%nat).
Proof.
  intros Hf. split_and!; [by apply run_fuel|by apply run_unfold|apply step_consumes].
Qed.

Lemma eval_script_terminates_witness :
  run (H:=toy_crypto) (toy_checker true) 0 BASE 9 (mk_state [] [] [] 0 [OP_1; OP_IF; OP_ENDIF] []) = Ok [].
Proof.
  destruct (eval_script_terminates toy_crypto (toy_checker true) 0 BASE
    (mk_state [] [] [] 0 [OP_1; OP_IF; OP_ENDIF] []) 9) as [H _]; [cbn; lia|]. rewrite H. reflexivity.
Defined.
