(* ===== verification/InterpreterSpecs.v ===== *)
(** * Specifications of the interpreter's operations and of standard scripts *)
From S2P Require Import Prelude ArithUint256 Script Interpreter InterpreterFacts.

(** ** Truth of a stack element *)

Lemma CastToBool_decoded k b :
  bytes_ok k → is_byte b → CastToBool (k ++ [b]) = negb (ScriptNumFacts.decoded k b =? 0).
Proof.
  intros Hk Hb. unfold is_byte in Hb. induction Hk as [|x k Hx Hk IH].
  { cbn. unfold ScriptNumFacts.decoded. cbn [app le_value].
    destruct (Z.eqb_spec b 0) as [->|]; [done|]. cbn. f_equal.
    destruct (Z.eqb_spec b 128) as [->|]; [done|]. symmetry. apply Z.eqb_neq.
    destruct (Z.leb_spec 128 b); lia. }
  unfold is_byte in Hx. cbn [app CastToBool].
  unfold ScriptNumFacts.decoded in *. cbn [app le_value].
  assert (bytes_ok (k ++ [b - 128]) ∨ b < 128) as Hr.
  { destruct (decide (b < 128)); [by right|left]. apply bytes_ok_snoc. unfold is_byte. split; [done|lia]. }
  assert (0 ≤ le_value (k ++ [b])) by (apply le_value_range; by apply bytes_ok_snoc).
  destruct (Z.eqb_spec x 0) as [->|Hx0]; cbn [negb].
  { rewrite IH. f_equal. destruct (128 <=? b); apply eq_true_iff_eq; rewrite !Z.eqb_eq; lia. }
  destruct (k ++ [b]) as [|y l] eqn:E; [by destruct k|]. rewrite <- E in *. cbn. symmetry.
  apply negb_true_iff, Z.eqb_neq. destruct (Z.leb_spec 128 b); [|lia].
  destruct Hr as [Hr|]; [|lia]. apply le_value_range in Hr. lia.
Qed.

Lemma CastToBool_num vch :
  bytes_ok vch → size vch ≤ 8 → CastToBool vch = negb (ScriptNum.set_vch vch =? 0).
Proof.
  intros Hv Hs. destruct (snoc_cases vch) as [->|(k & b & ->)]; [done|].
  apply bytes_ok_snoc in Hv as [Hk Hb]. unfold size in Hs. rewrite length_app in Hs. cbn in Hs.
  rewrite ScriptNumFacts.set_vch_snoc by (done || lia). by apply CastToBool_decoded.
Qed.

(** ** Minimal pushes *)

(** The low byte and the rest of [x + 256 y]. *)
Lemma u8_low x y : is_byte x → u8 (x + y * 2 ^ 8) = x.
Proof. unfold is_byte, u8, wrap. intros Hx. rewrite Z.mod_add, Z.mod_small; lia. Qed.
Lemma shr8_low x y : is_byte x → (x + y * 2 ^ 8) >>' 8 = y.
Proof. unfold is_byte. intros Hx. rewrite shr_div, Z.div_add, Z.div_small; lia. Qed.

Lemma u8_id x : is_byte x → u8 x = x.
Proof. intros Hx. rewrite <- (u8_low x 0 Hx) at 2. f_equal. lia. Qed.

Lemma WriteLE16_Read x y : is_byte x → is_byte y → WriteLE16 (ReadLE16 [x; y]) = [x; y].
Proof.
  intros Hx Hy. unfold ReadLE16, WriteLE16. cbn [nth].
  rewrite shl_mul, Z.lor_comm, lor_add_disjoint, Z.add_comm by (unfold is_byte in *; lia).
  by rewrite u8_low, shr8_low, u8_id.
Qed.

Lemma WriteLE32_Read x y z w :
  is_byte x → is_byte y → is_byte z → is_byte w →
  WriteLE32 (ReadLE32 [x; y; z; w] 0) = [x; y; z; w].
Proof.
  intros Hx Hy Hz Hw. unfold ReadLE32, WriteLE32. cbn [nth Nat.add]. rewrite le32_sum by done.
  replace (x + y * 2 ^ 8 + z * 2 ^ 16 + w * 2 ^ 24) with (x + (y + (z + w * 2 ^ 8) * 2 ^ 8) * 2 ^ 8) by ring.
  change 24 with (8 + 8 + 8). change 16 with (8 + 8). rewrite <- !Z.shiftr_shiftr by lia.
  by rewrite !shr8_low, !u8_low, u8_id by done.
Qed.

(** The bytes a push opcode puts before its data. *)
Definition push_header (op n : Z) : bytes :=
  if op <? OP_PUSHDATA1 then [op]
  else if op =? OP_PUSHDATA1 then [op; n]
  else if op =? OP_PUSHDATA2 then op :: WriteLE16 n
  else op :: WriteLE32 n.
(** The largest size each push opcode can express. *)
Definition push_fits (op n : Z) : Prop :=
  if op <? OP_PUSHDATA1 then n = op
  else if op =? OP_PUSHDATA1 then n ≤ 0xff
  else if op =? OP_PUSHDATA2 then n ≤ 0xffff
  else n < 2 ^ 32.

Lemma take_drop_push n (pc data rest : bytes) :
  0 ≤ n → (size pc <? n) = false → data = take (Z.to_nat n) pc → rest = drop (Z.to_nat n) pc →
  pc = data ++ rest ∧ size data = n.
Proof.
  intros Hn Hs -> ->. apply Z.ltb_ge in Hs. rewrite take_drop. split; [done|].
  unfold size in *. rewrite length_take. lia.
Qed.

Lemma GetScriptOp_shape pc op data rest :
  bytes_ok pc → GetScriptOp pc = (true, op, data, rest) → op ≤ OP_PUSHDATA4 →
  0 ≤ op ∧ push_fits op (size data) ∧ pc = push_header op (size data) ++ data ++ rest.
Proof.
  intros Hb Hg Hop. destruct pc as [|x pc]; [done|]. apply Forall_cons in Hb as [Hx Hb].
  unfold GetScriptOp in Hg. destruct (Z.leb_spec x OP_PUSHDATA4); [|simplify_eq; lia].
  assert (x = op) as -> by (repeat case_match; by simplify_eq).
  unfold push_fits, push_header. split; [by destruct Hx|].
  destruct (Z.ltb_spec op OP_PUSHDATA1).
  { destruct (size pc <? op) eqn:Hs; [done|]. injection Hg as <- <-.
    edestruct (take_drop_push op pc) as [E1 E2]; [by destruct Hx|done..|].
    rewrite E2. split; [done|]. by rewrite <- E1. }
  destruct (Z.eqb_spec op OP_PUSHDATA1) as [->|].
  { destruct pc as [|n pc]; [done|]. apply Forall_cons in Hb as [Hn Hb].
    destruct (size pc <? n) eqn:Hs; [done|]. injection Hg as <- <-.
    edestruct (take_drop_push n pc) as [E1 E2]; [by destruct Hn|done..|].
    rewrite E2. unfold is_byte in Hn. split; [lia|]. cbn. by rewrite <- E1. }
  destruct (Z.eqb_spec op OP_PUSHDATA2) as [->|].
  { destruct (Z.ltb_spec (size pc) 2) as [|Hl]; [done|].
    destruct pc as [|x [|y pc]]; unfold size in Hl; cbn in Hl; try lia. clear Hl.
    apply Forall_cons in Hb as [Hx' Hb]. apply Forall_cons in Hb as [Hy Hb].
    pose proof (WriteLE16_Read x y Hx' Hy) as HW. change (ReadLE16 (x :: y :: pc)) with (ReadLE16 [x; y]) in Hg.
    assert (0 ≤ ReadLE16 [x; y] ≤ 0xffff) as HR.
    { unfold ReadLE16, is_byte in *. cbn [nth].
      rewrite shl_mul, Z.lor_comm, lor_add_disjoint by lia. lia. }
    cbn [drop] in Hg. rewrite !drop_0 in Hg. destruct (size pc <? _) eqn:Hs; [done|]. injection Hg as <- <-.
    edestruct (take_drop_push (ReadLE16 [x; y]) pc) as [E1 E2]; [lia|done..|].
    rewrite E2, HW. split; [lia|]. cbn. by rewrite <- E1. }
  assert (op = OP_PUSHDATA4) as -> by (unfold OP_PUSHDATA1, OP_PUSHDATA2, OP_PUSHDATA4 in *; lia).
  destruct (Z.ltb_spec (size pc) 4) as [|Hl]; [done|].
  destruct pc as [|x [|y [|z [|w pc]]]]; unfold size in Hl; cbn in Hl; try lia. clear Hl.
  unfold bytes_ok in Hb. rewrite !Forall_cons in Hb. destruct Hb as (Hx' & Hy & Hz & Hw & Hb).
  pose proof (WriteLE32_Read x y z w Hx' Hy Hz Hw) as HW.
  change (ReadLE32 (x :: y :: z :: w :: pc) 0) with (ReadLE32 [x; y; z; w] 0) in Hg.
  assert (0 ≤ ReadLE32 [x; y; z; w] 0 < 2 ^ 32) as HR.
  { unfold ReadLE32. cbn [nth Nat.add]. rewrite le32_sum by done. unfold is_byte in *. lia. }
  cbn [drop] in Hg. rewrite !drop_0 in Hg. destruct (size pc <? _) eqn:Hs; [done|]. injection Hg as <- <-.
  edestruct (take_drop_push (ReadLE32 [x; y; z; w] 0) pc) as [E1 E2]; [lia|done..|].
  rewrite E2, HW. split; [lia|]. cbn. by rewrite <- E1.
Qed.

(** A parsed push is the canonical encoding of its data exactly when it uses
    the opcode [operator<<] would use. *)
Lemma push_canonical pc op data rest :
  bytes_ok pc → GetScriptOp pc = (true, op, data, rest) → op ≤ OP_PUSHDATA4 →
  op = push_opcode_for (size data) ↔ pc = push_data [] data ++ rest.
Proof.
  intros Hpc Hg Hop. destruct (GetScriptOp_shape _ _ _ _ Hpc Hg Hop) as (H0 & Hf & ->).
  assert (size data < 2 ^ 32) as Hs.
  { unfold push_fits, OP_PUSHDATA1, OP_PUSHDATA2, OP_PUSHDATA4 in *. repeat case_match; lia. }
  split.
  2:{ intros E. rewrite E, GetScriptOp_push in Hg by done. congruence. }
  intros ->. clear Hg. unfold push_data. cbn [app]. rewrite <- app_assoc. f_equal. clear Hf.
  pose proof (size_nonneg data). unfold push_header, push_opcode_for.
  unfold u8, u32, wrap. unfold OP_PUSHDATA1, OP_PUSHDATA2, OP_PUSHDATA4 in *.
  destruct (Z.ltb_spec (size data) 0x4c).
  { rewrite (proj2 (Z.ltb_lt _ _)), Z.mod_small by lia. done. }
  destruct (Z.leb_spec (size data) 0xff); cbn [Z.ltb Z.eqb Z.compare Pos.compare Pos.compare_cont Pos.eqb].
  { by rewrite Z.mod_small by lia. }
  destruct (Z.leb_spec (size data) 0xffff); cbn [Z.ltb Z.eqb Z.compare Pos.compare Pos.compare_cont Pos.eqb];
    by rewrite Z.mod_small by lia.
Qed.

(** The data [push_int64] writes with an opcode of its own. *)
Definition small_number (data : bytes) : bool :=
  match data with [x] => ((1 <=? x) && (x <=? 16)) || (x =? 0x81) | _ => false end.

Lemma CheckMinimalPush_spec pc op data rest :
  bytes_ok pc → GetScriptOp pc = (true, op, data, rest) → op ≤ OP_PUSHDATA4 →
  CheckMinimalPush data op = true ↔
  pc = push_data [] data ++ rest ∧ small_number data = false.
Proof.
  intros Hpc Hg Hop. rewrite <- (push_canonical pc op data rest) by done.
  destruct (GetScriptOp_shape _ _ _ _ Hpc Hg Hop) as (H0 & Hf & _).
  clear Hg Hpc. pose proof (size_nonneg data). unfold CheckMinimalPush, push_opcode_for.
  unfold push_fits, OP_PUSHDATA1, OP_PUSHDATA2, OP_PUSHDATA4, OP_0 in *.
  destruct data as [|x [|y data]].
  - change (size []) with 0. change (0 =? 0) with true. change (0 <? 0x4c) with true. cbv iota.
    rewrite Z.eqb_eq. naive_solver.
  - change (size [x]) with 1. change (1 =? 0) with false. change (1 =? 1) with true.
    change (1 <=? 75) with true. change (1 <? 0x4c) with true. cbv iota. cbn [andb small_number].
    unfold at_. cbn [nth]. rewrite Z.geb_leb.
    destruct ((1 <=? x) && (x <=? 16)) eqn:E1; cbn [orb]; [naive_solver|].
    destruct (x =? 0x81); [naive_solver|]. rewrite Z.eqb_eq. naive_solver.
  - cbn [small_number]. set (n := size (x :: y :: data)) in *.
    assert (2 ≤ n) by (unfold n, size; cbn [length]; lia).
    rewrite (proj2 (Z.eqb_neq n 0)), (proj2 (Z.eqb_neq n 1)) by lia. cbn [andb].
    destruct (Z.leb_spec n 75), (Z.ltb_spec n 0x4c); try lia.
    destruct (Z.leb_spec n 255); [rewrite Z.eqb_eq; naive_solver|].
    destruct (Z.leb_spec n 65535); [rewrite Z.eqb_eq; naive_solver|].
    split; [intros _|done]. split; [|done]. repeat case_match; lia.
Qed.

(** ** Strict DER signatures *)

Lemma atZ_app (l k : bytes) i : size l ≤ i → atZ (l ++ k) i = atZ k (i - size l).
Proof.
  unfold atZ, size. intros Hi. rewrite !nth_lookup, lookup_app_r by lia. do 2 f_equal. lia.
Qed.
Lemma atZ_cons x (k : bytes) i : 1 ≤ i → atZ (x :: k) i = atZ k (i - 1).
Proof. intros Hi. by apply (atZ_app [x]). Qed.

Lemma split_at (l : bytes) n : 0 ≤ n ≤ size l → ∃ a b, l = a ++ b ∧ size a = n.
Proof.
  intros Hn. exists (take (Z.to_nat n) l), (drop (Z.to_nat n) l). rewrite take_drop. split; [done|].
  unfold size in *. rewrite length_take. lia.
Qed.

Lemma size_app {A} (l k : list A) : size (l ++ k) = size l + size k.
Proof. unfold size. rewrite length_app. lia. Qed.

(** A positive big-endian integer in the fewest bytes that keep its sign bit
    clear. *)
Definition der_int (r : bytes) : bool :=
  match r with
  | [] => false
  | [x] => x <? 128
  | x :: y :: _ => (x <? 128) && ((negb (x =? 0)) || (128 <=? y))
  end.

Definition der_signature (r s : bytes) : bytes :=
  [0x30; size r + size s + 4; 0x02; size r] ++ r ++ [0x02; size s] ++ s.

(** The tests of the source on one integer of [len] bytes at the head of a
    byte string. *)
Lemma der_int_tests r k :
  bytes_ok r →
  (negb (size r =? 0) && (atZ (r ++ k) 0 &' 0x80 =? 0) &&
   negb ((size r >? 1) && (atZ (r ++ k) 0 =? 0) && (atZ (r ++ k) 1 &' 0x80 =? 0))) = der_int r.
Proof.
  intros Hr. destruct r as [|x [|y r]]; [done| |].
  - apply Forall_cons in Hr as [Hx _]. cbn [app]. unfold atZ. cbn [Z.to_nat nth der_int].
    change (size [x]) with 1. change (1 =? 0) with false. change (1 >? 1) with false. cbn [negb andb].
    by rewrite byte_bit7, andb_true_r.
  - apply Forall_cons in Hr as [Hx Hr]. apply Forall_cons in Hr as [Hy Hr].
    cbn [app]. unfold atZ. cbn [Z.to_nat nth der_int]. change (Pos.to_nat 1) with 1%nat. cbn [nth].
    assert (2 ≤ size (x :: y :: r)) by (unfold size; cbn [length]; lia).
    rewrite (proj2 (Z.eqb_neq _ 0)), (proj2 (Z.gtb_lt _ 1)), !byte_bit7 by (done || lia). cbn [negb andb].
    f_equal. rewrite negb_andb. f_equal. rewrite Z.ltb_antisym. by rewrite negb_involutive.
Qed.

Lemma IsValidSignatureEncoding_der r s t (hash : bool) :
  bytes_ok r → bytes_ok s → size t = (if hash then 1 else 0) →
  IsValidSignatureEncoding (der_signature r s ++ t) hash =
    der_int r && der_int s && (9 <=? size r + size s + 6 + size t) && (size r + size s + 6 + size t <=? 73).
Proof.
  intros Hr Hs Ht. pose proof (size_nonneg r). pose proof (size_nonneg s).
  rewrite <- (der_int_tests r ([0x02; size s] ++ s ++ t)) by done.
  rewrite <- (der_int_tests s t) by done.
  assert (size (der_signature r s ++ t) = size r + size s + 6 + size t) as Hsz.
  { unfold der_signature. rewrite !size_app. unfold size; cbn [length]. lia. }
  assert (∀ i, 4 ≤ i → atZ (der_signature r s ++ t) i = atZ (r ++ [0x02; size s] ++ s ++ t) (i - 4)) as HR.
  { intros i Hi. unfold der_signature. rewrite <- !app_assoc. by rewrite atZ_app. }
  assert (∀ i, 6 + size r ≤ i → atZ (der_signature r s ++ t) i = atZ (s ++ t) (i - 6 - size r)) as HS.
  { intros i Hi. rewrite HR, (atZ_app r), (atZ_app [0x02; size s]) by (try change (size [_; _]) with 2; lia).
    change (size [_; _]) with 2. f_equal. lia. }
  assert (∀ i, i = 4 + size r → atZ (der_signature r s ++ t) i = 2) as H2.
  { intros i ->. rewrite HR, atZ_app by lia. by replace (4 + size r - 4 - size r) with 0 by lia. }
  assert (∀ i, i = 5 + size r → atZ (der_signature r s ++ t) i = size s) as HlenS.
  { intros i ->. rewrite HR, atZ_app by lia. by replace (5 + size r - 4 - size r) with 1 by lia. }
  unfold IsValidSignatureEncoding. rewrite Hsz.
  change (atZ (der_signature r s ++ t) 0) with 0x30. change (atZ (der_signature r s ++ t) 2) with 0x02.
  change (atZ (der_signature r s ++ t) 1) with (size r + size s + 4).
  change (atZ (der_signature r s ++ t) 3) with (size r).
  rewrite (HlenS (5 + size r)), (H2 (size r + 4)), (HR 4), (HR 5), (HS (size r + 6)), (HS (size r + 7)) by lia.
  change (4 - 4) with 0. change (5 - 4) with 1.
  replace (size r + 6 - 6 - size r) with 0 by lia. replace (size r + 7 - 6 - size r) with 1 by lia.
  rewrite Ht. change (negb (0x30 =? 0x30)) with false. change (negb (0x02 =? 0x02)) with false. cbv iota.
  generalize (atZ (r ++ [0x02; size s] ++ s ++ t) 0 &' 0x80), (atZ (r ++ [0x02; size s] ++ s ++ t) 0),
    (atZ (r ++ [0x02; size s] ++ s ++ t) 1 &' 0x80), (atZ (s ++ t) 0 &' 0x80), (atZ (s ++ t) 0),
    (atZ (s ++ t) 1 &' 0x80). intros.
  destruct hash; cbv iota;
    repeat match goal with |- (if ?c then false else _) = _ => destruct c eqn:?; [lia|] end; lia.
Qed.

Lemma IsValidSignatureEncoding_shape sig (hash : bool) :
  bytes_ok sig → IsValidSignatureEncoding sig hash = true →
  ∃ r s t, sig = der_signature r s ++ t ∧ size t = (if hash then 1 else 0).
Proof.
  intros Hb Hv. unfold IsValidSignatureEncoding in Hv.
  destruct (Z.ltb_spec (size sig) 9) as [|H9]; [done|]. destruct (size sig >? 73); [done|].
  destruct sig as [|a [|b [|c [|d l]]]]; try (unfold size in H9; cbn in H9; lia).
  assert (is_byte d) as Hd by (unfold bytes_ok in Hb; rewrite !Forall_cons in Hb; naive_solver).
  assert (bytes_ok l) as Hl by (unfold bytes_ok in *; rewrite !Forall_cons in Hb; naive_solver).
  assert (size (a :: b :: c :: d :: l) = size l + 4) as Hsz by (unfold size; cbn [length]; lia).
  rewrite Hsz in *. clear Hb Hsz. unfold is_byte in Hd.
  change (atZ (a :: b :: c :: d :: l) 0) with a in Hv. change (atZ (a :: b :: c :: d :: l) 1) with b in Hv.
  change (atZ (a :: b :: c :: d :: l) 2) with c in Hv. change (atZ (a :: b :: c :: d :: l) 3) with d in Hv.
  destruct (Z.eqb_spec a 0x30) as [->|]; [cbn [negb] in Hv|done].
  destruct (Z.eqb_spec b (size l + 4 - (if hash then 3 else 2))) as [->|]; [cbn [negb] in Hv|done].
  rewrite Z.geb_leb in Hv. destruct (Z.leb_spec (size l + 4) (5 + d)) as [|Hd5]; [done|].
  destruct (split_at l d) as (r & l' & -> & Hr); [lia|]. rewrite size_app in *.
  change (48 :: ?b :: c :: d :: r ++ l') with ([48; b; c; d] ++ r ++ l') in Hv.
  rewrite (atZ_app [_; _; _; _]), (atZ_app r) in Hv by (try change (size [_; _; _; _]) with 4; lia).
  change (size [_; _; _; _]) with 4 in Hv. replace (5 + d - 4 - size r) with 1 in Hv by lia.
  destruct l' as [|e [|f l']]; try (unfold size in *; cbn in *; lia).
  change (atZ (e :: f :: l') 1) with f in Hv.
  destruct (Z.eqb_spec (d + f + (if hash then 7 else 6)) (size r + size (e :: f :: l') + 4)) as [Hf|]; [|done].
  cbn [negb] in Hv. destruct (Z.eqb_spec c 2) as [->|]; [cbn [negb] in Hv|done].
  assert (is_byte f) as Hfb.
  { unfold bytes_ok in Hl. rewrite Forall_app, !Forall_cons in Hl. naive_solver. }
  unfold is_byte in Hfb. rewrite !size_cons in Hf.
  destruct (split_at l' f) as (s & t & -> & Hs); [destruct hash; lia|].
  rewrite size_app in *. exists r, s, t.
  assert (e = 2) as ->.
  { repeat match type of Hv with (if ?c then false else _) = _ => destruct c eqn:?; [done|] end.
    match goal with He : negb (atZ _ (d + 4) =? 2) = false |- _ =>
      rewrite (atZ_app [_; _; _; _]), (atZ_app r) in He by (try change (size [_; _; _; _]) with 4; lia);
      change (size [_; _; _; _]) with 4 in He; replace (d + 4 - 4 - size r) with 0 in He by lia;
      by apply negb_false_iff, Z.eqb_eq in He end. }
  split; [|destruct hash; lia]. unfold der_signature. rewrite <- !app_assoc. cbn [app].
  rewrite Hr, Hs. do 2 f_equal. rewrite !size_cons, size_app. destruct hash; lia.
Qed.

(** ** Multisignature checking *)

(** The signatures match distinct keys in the order of the keys. *)
Inductive matches (check : bytes → bytes → bool) : list bytes → list bytes → Prop :=
  | matches_nil keys : matches check [] keys
  | matches_here s k sigs keys : check s k = true → matches check sigs keys → matches check (s :: sigs) (k :: keys)
  | matches_skip k sigs keys : matches check sigs keys → matches check sigs (k :: keys).

Lemma matches_length check sigs keys : matches check sigs keys → (length sigs ≤ length keys)%nat.
Proof. induction 1; cbn in *; lia. Qed.

Lemma matches_drop_sig check s sigs keys : matches check (s :: sigs) keys → matches check sigs keys.
Proof.
  remember (s :: sigs) as l eqn:E. intros Hm. revert s sigs E.
  induction Hm; intros s' sigs' E; simplify_eq; eauto using matches.
Qed.

(** Giving a signature the first key that accepts it loses no solution. *)
Lemma matches_greedy check s k sigs keys :
  check s k = true → matches check (s :: sigs) (k :: keys) ↔ matches check sigs keys.
Proof.
  intros Hc. split; [|eauto using matches]. intros Hm. inversion Hm; subst; [done|].
  by eapply matches_drop_sig.
Qed.

Lemma matches_reject check s k sigs keys :
  check s k = false → matches check (s :: sigs) (k :: keys) ↔ matches check (s :: sigs) keys.
Proof.
  intros Hc. split; [|eauto using matches]. intros Hm. inversion Hm; subst; [congruence|done].
Qed.

Section Multisig.
Context `{Crypto} (checker : SignatureChecker) (flags : Z) (sv : SigVersion) (code : CScript).
Let check (s k : bytes) : bool := CheckSig checker s k code sv.

Definition encodings_ok (sigs keys : list bytes) : Prop :=
  Forall (λ s, CheckSignatureEncoding s flags = Ok tt) sigs ∧
  Forall (λ k, CheckPubKeyEncoding k flags sv = Ok tt) keys.

(** [l] is found on the stack at the positions from [i] down. *)
Definition on_stack (stack : stack_t) (i : Z) (l : list bytes) : Prop :=
  ∃ rest, drop (Z.to_nat (i - 1)) stack = l ++ rest.

Lemma on_stack_cons stack i x l :
  1 ≤ i → on_stack stack i (x :: l) → stacktop stack i = x ∧ on_stack stack (i + 1) l.
Proof.
  intros Hi (rest & Hd). split.
  - unfold stacktop. rewrite nth_lookup. rewrite <- (Nat.add_0_r (Z.to_nat (i - 1))), <- lookup_drop, Hd. done.
  - exists rest. replace (Z.to_nat (i + 1 - 1)) with (Z.to_nat (i - 1) + 1)%nat by lia.
    by rewrite <- drop_drop, Hd.
Qed.

Lemma multisig_loop_matches stack sigs keys isig ikey :
  encodings_ok sigs keys → 1 ≤ isig → 1 ≤ ikey → on_stack stack isig sigs → on_stack stack ikey keys →
  ∃ ok, multisig_loop checker flags sv (length keys) stack code (size sigs <=? size keys)
          isig (size sigs) ikey (size keys) = Ok ok ∧
        (ok = true ↔ matches check sigs keys).
Proof.
  intros [Hes Hek]. revert sigs isig ikey Hes. induction Hek as [|k keys Hk Hek IH];
    intros sigs isig ikey Hes Hi Hj Hs Hkeys; cbn [length multisig_loop].
  { eexists. split; [done|]. destruct sigs; cbn; split; intros Hm; try done; eauto using matches.
    by inversion Hm. }
  destruct (Z.leb_spec (size sigs) (size (k :: keys))) as [Hle|Hgt]; cbn [andb].
  2:{ eexists. split; [done|]. split; [done|]. intros Hm%matches_length. unfold size in *. lia. }
  destruct sigs as [|s sigs].
  { eexists. split; [done|]. split; eauto using matches. }
  rewrite (proj2 (Z.gtb_lt (size (s :: sigs)) 0)) by (unfold size; cbn [length]; lia).
  apply Forall_cons in Hes as [Hse Hes].
  destruct (on_stack_cons _ _ _ _ Hi Hs) as [-> Hs']. destruct (on_stack_cons _ _ _ _ Hj Hkeys) as [-> Hkeys'].
  rewrite Hse, Hk. cbn [rbind]. fold (check s k).
  replace (size (k :: keys) - 1) with (size keys) by (rewrite size_cons; lia).
  destruct (check s k) eqn:Hc.
  - setoid_rewrite (matches_greedy _ _ _ sigs keys Hc).
    replace (size (s :: sigs) - 1) with (size sigs) by (rewrite size_cons; lia).
    rewrite Z.gtb_ltb, <- Z.leb_antisym. apply IH; done || lia.
  - setoid_rewrite (matches_reject _ _ _ sigs keys Hc). rewrite Z.gtb_ltb, <- Z.leb_antisym.
    apply IH; try done; [by constructor|lia].
Qed.

(** The script code after dropping each signature in turn. *)
Definition drop_sigs (sigs : list bytes) (c : CScript) : result ScriptError CScript :=
  foldl (λ r s, let* c := r in drop_signature flags sv c s) (Ok c) sigs.

Lemma drop_signatures_sigs stack sigs isig k c :
  1 ≤ isig + k → on_stack stack (isig + k) sigs →
  drop_signatures flags sv (length sigs) k isig stack c = drop_sigs sigs c.
Proof.
  unfold drop_sigs. revert k c. induction sigs as [|s sigs IH]; intros k c Hi Hs; [done|].
  destruct (on_stack_cons _ _ _ _ Hi Hs) as [Ht Hs']. cbn [length drop_signatures foldl rbind].
  rewrite Ht. destruct (drop_signature flags sv c s) as [c'|e]; cbn [rbind].
  - apply IH; [lia|]. by replace (isig + (k + 1)) with (isig + k + 1) by lia.
  - clear. by induction sigs.
Qed.

Lemma multisig_cleanup_args args n ok s :
  multisig_cleanup flags (length args + n) ok (size args) (args ++ s) = multisig_cleanup flags n ok 0 s.
Proof.
  induction args as [|x args IH]; [done|]. cbn [length Nat.add multisig_cleanup app tail].
  rewrite size_cons. pose proof (size_nonneg args).
  rewrite (proj2 (Z.eqb_neq (size args + 1) 0)), andb_false_r by lia. cbn [andb].
  rewrite (proj2 (Z.gtb_lt (size args + 1) 0)) by lia.
  by replace (size args + 1 - 1) with (size args) by lia.
Qed.

Lemma multisig_cleanup_sigs sigs ok s :
  multisig_cleanup flags (length sigs) ok 0 (sigs ++ s) =
    if negb ok && flag_set flags SCRIPT_VERIFY_NULLFAIL && existsb (λ x, negb (size x =? 0)) sigs
    then Err SCRIPT_ERR_SIG_NULLFAIL else Ok s.
Proof.
  induction sigs as [|x sigs IH]; cbn [length multisig_cleanup app tail existsb].
  { by rewrite andb_false_r. }
  change (stacktop (x :: sigs ++ s) 1) with x. change (0 =? 0) with true. change (0 >? 0) with false. cbv iota.
  rewrite andb_true_r, IH. by destruct (negb ok && flag_set flags _), (negb (size x =? 0)).
Qed.

Lemma num4_small m n : 0 ≤ n < 128 → num4 m (ScriptNum.serialize n) = Ok n.
Proof.
  intros Hn. unfold num4. apply (num_mono m true); [done|]. unfold num.
  rewrite ScriptNumFacts.CScriptNum_serialize by (unfold ScriptNum.nDefaultMaxNumSize; lia).
  rewrite Z.gtb_ltb, (proj2 (Z.ltb_ge _ _)); [done|]. destruct (decide (n = 0)) as [->|]; [done|].
  rewrite (ScriptNumFacts.serialize_digits n [] n); cbn; try done; try lia; [|constructor].
  rewrite (proj2 (Z.ltb_lt n 128)) by lia. destruct (n <? 0); done.
Qed.

Lemma getint_small n : 0 ≤ n < 128 → ScriptNum.getint n = n.
Proof.
  intros Hn. unfold ScriptNum.getint. rewrite Z.gtb_ltb.
  rewrite (proj2 (Z.ltb_ge (2 ^ 31 - 1) n)), (proj2 (Z.ltb_ge n (- 2 ^ 31))) by lia. done.
Qed.

Lemma stacktop_app (l : list bytes) x k i : i = size l + 1 → stacktop (l ++ x :: k) i = x.
Proof.
  intros ->. unfold stacktop. rewrite nth_lookup, lookup_app_r by (unfold size; lia).
  replace (_ - _)%nat with 0%nat by (unfold size; lia). done.
Qed.

Lemma on_stack_app (l k rest : list bytes) i : i = size l + 1 → on_stack (l ++ k ++ rest) i k.
Proof.
  intros ->. exists rest. replace (Z.to_nat (size l + 1 - 1)) with (length l) by (unfold size; lia).
  apply drop_app_length.
Qed.

(** The arguments of a multisignature check, top of the stack first. *)
Definition multisig_args (keys sigs : list bytes) : stack_t :=
  ScriptNum.serialize (size keys) :: keys ++ ScriptNum.serialize (size sigs) :: sigs.

Lemma op_CHECKMULTISIG_spec op n pbegin keys sigs dummy rest :
  size keys ≤ MAX_PUBKEYS_PER_MULTISIG → size sigs ≤ size keys →
  n + size keys ≤ MAX_OPS_PER_SCRIPT → encodings_ok sigs keys → drop_sigs sigs pbegin = Ok code →
  ∃ ok, (ok = true ↔ matches check sigs keys) ∧
    op_CHECKMULTISIG checker flags sv op n pbegin (multisig_args keys sigs ++ dummy :: rest) =
      if negb ok && flag_set flags SCRIPT_VERIFY_NULLFAIL && existsb (λ x, negb (size x =? 0)) sigs
      then Err SCRIPT_ERR_SIG_NULLFAIL
      else if flag_set flags SCRIPT_VERIFY_NULLDUMMY && negb (size dummy =? 0)
      then Err SCRIPT_ERR_SIG_NULLDUMMY
      else if op =? OP_CHECKMULTISIGVERIFY
           then if ok then Ok (rest, n + size keys) else Err SCRIPT_ERR_CHECKMULTISIGVERIFY
           else Ok (bool_vch ok :: rest, n + size keys).
Proof.
  intros Hk Hs Hn Henc Hdrop. pose proof (size_nonneg keys). pose proof (size_nonneg sigs).
  unfold MAX_PUBKEYS_PER_MULTISIG in Hk.
  set (st := multisig_args keys sigs ++ dummy :: rest).
  assert (st = (ScriptNum.serialize (size keys) :: keys) ++ ScriptNum.serialize (size sigs) :: sigs ++ dummy :: rest)
    as Est by (unfold st, multisig_args; cbn; by rewrite <- app_assoc).
  assert (size st = size keys + size sigs + 3 + size rest) as Hsz.
  { rewrite Est, size_app, size_cons, size_cons, size_app, size_cons. lia. }
  pose proof (size_nonneg rest).
  assert (on_stack st 2 keys) as Hok.
  { rewrite Est. apply (on_stack_app [_]). done. }
  assert (on_stack st (size keys + 3) sigs) as Hos.
  { rewrite Est. replace (_ :: keys) with ([ScriptNum.serialize (size keys)] ++ keys) by done.
    rewrite <- app_assoc. change (?a ++ ?b ++ ?c :: ?d ++ ?e) with (a ++ b ++ [c] ++ d ++ e).
    rewrite !app_assoc, <- (app_assoc _ sigs). apply on_stack_app. rewrite !size_app. unfold size; cbn; lia. }
  destruct (multisig_loop_matches st sigs keys (size keys + 3) 2 Henc) as (ok & Hloop & Hmatch); try done; [lia|].
  exists ok. split; [done|]. unfold op_CHECKMULTISIG.
  change (stacktop st 1) with (ScriptNum.serialize (size keys)).
  rewrite Hsz, (proj2 (Z.ltb_ge _ 1)), num4_small by lia. cbn [rbind].
  rewrite getint_small by lia. unfold MAX_PUBKEYS_PER_MULTISIG.
  rewrite (proj2 (Z.ltb_ge (size keys) 0)), !Z.gtb_ltb, (proj2 (Z.ltb_ge 20 (size keys))) by lia. cbn [orb].
  rewrite (proj2 (Z.ltb_ge MAX_OPS_PER_SCRIPT _)) by lia.
  change (1 + 1) with 2. rewrite (proj2 (Z.ltb_ge _ (2 + size keys))) by lia.
  rewrite Est at 1. rewrite stacktop_app by (rewrite size_cons; lia). rewrite num4_small by lia. cbn [rbind].
  rewrite getint_small by lia.
  rewrite (proj2 (Z.ltb_ge (size sigs) 0)), Z.gtb_ltb, (proj2 (Z.ltb_ge (size keys) (size sigs))) by lia. cbn [orb].
  rewrite (proj2 (Z.ltb_ge _ (2 + size keys + 1 + size sigs))) by lia.
  replace (2 + size keys + 1) with (size keys + 3) by lia.
  replace (Z.to_nat (size sigs)) with (length sigs) by (unfold size; lia).
  replace (Z.to_nat (size keys)) with (length keys) by (unfold size; lia).
  rewrite drop_signatures_sigs by (rewrite ?Z.add_0_r; done || lia). rewrite Hdrop. cbn [rbind].
  rewrite (proj2 (Z.leb_le (size sigs) (size keys))) in Hloop by lia. rewrite Hloop. cbn [rbind].
  replace (Z.to_nat (size keys + 3 + size sigs - 1)) with
    (length ((ScriptNum.serialize (size keys) :: keys) ++ [ScriptNum.serialize (size sigs)]) + length sigs)%nat
    by (rewrite length_app; unfold size; cbn [length]; lia).
  replace (size keys + 2) with (size ((ScriptNum.serialize (size keys) :: keys) ++ [ScriptNum.serialize (size sigs)]))
    by (rewrite size_app, size_cons; unfold size at 2; cbn [length]; lia).
  rewrite Est. change (_ :: sigs ++ dummy :: rest) with ([ScriptNum.serialize (size sigs)] ++ sigs ++ dummy :: rest) at 1.
  rewrite app_assoc, multisig_cleanup_args, multisig_cleanup_sigs.
  by destruct (negb ok && _ && _).
Qed.
End Multisig.

(** ** Deleting a signature from a script *)

(** [deleted b pc out n]: reading [pc] one instruction at a time and dropping
    every copy of [b] found at an instruction boundary leaves [out] and drops
    [n] copies. *)
Inductive deleted (b : bytes) : bytes → bytes → Z → Prop :=
  | deleted_match pc out n : deleted b pc out n → deleted b (b ++ pc) out (n + 1)
  | deleted_op pc ins opcode vch pc' out n :
      ¬ b `prefix_of` pc → GetScriptOp pc = (true, opcode, vch, pc') → pc = ins ++ pc' →
      deleted b pc' out n → deleted b pc (ins ++ out) n
  | deleted_end pc opcode vch pc' :
      ¬ b `prefix_of` pc → GetScriptOp pc = (false, opcode, vch, pc') → deleted b pc pc 0.

Lemma deleted_count b pc out n : deleted b pc out n → 0 ≤ n.
Proof. induction 1; lia. Qed.

Lemma deleted_zero b pc out n : deleted b pc out n → n = 0 → out = pc.
Proof.
  induction 1 as [pc out n Hd _|pc ins opcode vch pc' out n _ _ Hpc _ IH|]; intros Hn; [| |done].
  - apply deleted_count in Hd. lia.
  - by rewrite IH.
Qed.

Lemma deleted_size b pc out n : deleted b pc out n → size pc = size out + n * size b.
Proof.
  induction 1 as [pc out n _ IH|pc ins opcode vch pc' out n _ _ Hpc _ IH|]; [| |lia].
  - rewrite size_app. lia.
  - rewrite Hpc, !size_app. lia.
Qed.

Lemma prefix_test (b pc : bytes) :
  (size pc >=? size b) && bool_decide (take (length b) pc = b) = bool_decide (b `prefix_of` pc).
Proof.
  apply eq_bool_prop_intro. rewrite !Is_true_true, andb_true_iff, !bool_decide_eq_true. split.
  - intros [_ E]. exists (drop (length b) pc). by rewrite <- E at 1; rewrite take_drop.
  - intros [k ->]. rewrite take_app_length. split; [|done]. rewrite size_app.
    pose proof (size_nonneg k). lia.
Qed.

Lemma skip_matches_spec b f pc n pc1 n1 :
  b ≠ [] → (length pc ≤ f)%nat → skip_matches f b pc n = (pc1, n1) →
  ¬ b `prefix_of` pc1 ∧ (length pc1 ≤ length pc)%nat ∧
  ∀ out m, deleted b pc1 out m → deleted b pc out (m + (n1 - n)).
Proof.
  intros Hb. revert pc n. induction f as [|f IH]; intros pc n Hl; cbn [skip_matches].
  - intros [= -> ->]. destruct pc1; [|cbn in Hl; lia]. split_and!; [|done|].
    + intros Hp%prefix_nil_inv. done.
    + intros out m Hd. by replace (m + (n1 - n1)) with m by lia.
  - rewrite prefix_test. destruct (bool_decide_reflect (b `prefix_of` pc)) as [[k ->]|Hn].
    + rewrite drop_app_length. rewrite length_app in Hl. intros Hs.
      assert (0 < length b)%nat by (destruct b; [done|cbn; lia]).
      destruct (IH k (n + 1)) as (H1 & H2 & H3); [lia|done|]. rewrite length_app. split_and!; [done|lia|].
      intros out m Hd. replace (m + (n1 - n)) with (m + (n1 - (n + 1)) + 1) by lia.
      constructor. by apply H3.
    + intros [= <- <-]. split_and!; [done|done|]. intros out m Hd. by replace (m + (n - n)) with m by lia.
Qed.

Lemma FindAndDelete_loop_spec b f cp pc result n res pcE nE :
  b ≠ [] → (length pc ≤ f)%nat →
  FindAndDelete_loop f b (cp ++ pc) pc result n = (res, pcE, nE) →
  ∃ out, deleted b pc out (nE - n) ∧ res ++ pcE = result ++ cp ++ out.
Proof.
  intros Hb. revert cp pc result n. induction f as [|f IH]; intros cp pc result n Hl;
    cbn [FindAndDelete_loop]; rewrite length_app, Nat.add_sub, take_app_length;
    destruct (skip_matches (length pc) b pc n) as [pc1 n1] eqn:Hs;
    destruct (skip_matches_spec b _ _ _ _ _ Hb (Nat.le_refl _) Hs) as (Hn & Hl1 & Hd).
  - intros [= <- <- <-]. exists pc1. split; [|by rewrite app_assoc].
    destruct pc1; [|cbn in Hl1; lia]. apply (Hd [] 0). by eapply deleted_end.
  - destruct (GetScriptOp pc1) as [[[ok op] vch] pc2] eqn:Hg. destruct ok.
    + destruct (GetScriptOp_consumes _ _ _ _ Hg) as [Hlt (ins & -> & _)]. intros Hr.
      apply IH in Hr as (out & Ho & Hr); [|lia]. exists (ins ++ out). split.
      * replace (nE - n) with (nE - n1 + (n1 - n)) by lia. apply Hd. by eapply deleted_op.
      * by rewrite Hr, <- !app_assoc.
    + intros [= <- <- <-]. exists pc1. split; [|by rewrite app_assoc]. apply (Hd pc1 0).
      by eapply deleted_end.
Qed.

Lemma FindAndDelete_deleted script b out n :
  b ≠ [] → FindAndDelete script b = (out, n) → deleted b script out n.
Proof.
  intros Hb. unfold FindAndDelete. destruct b as [|x b]; [done|].
  destruct (FindAndDelete_loop _ _ _ _ _ _) as [[res pcE] nE] eqn:Hl.
  apply (FindAndDelete_loop_spec _ _ []) in Hl as (o & Hd & Hr); [|done|done].
  replace (nE - 0) with nE in Hd by lia. cbn in Hr.
  rewrite Z.gtb_ltb. destruct (Z.ltb_spec 0 nE); intros [= <- <-].
  - by rewrite Hr.
  - pose proof (deleted_count _ _ _ _ Hd). assert (nE = 0) as -> by lia.
    by rewrite <- (deleted_zero _ _ _ _ Hd eq_refl) at 2.
Qed.

(** ** Main statements *)

(** The minimal-push test accepts exactly the canonical encodings: a parsed
    push of [data] passes [CheckMinimalPush] when its bytes are those
    [operator<<] writes for [data] and [data] is not one of the numbers -1 and
    1..16 that have an opcode of their own. *)
Theorem minimal_push_is_canonical pc opcode data rest :
  bytes_ok pc → GetScriptOp pc = (true, opcode, data, rest) → opcode ≤ OP_PUSHDATA4 →
  CheckMinimalPush data opcode = true ↔ pc = push_data [] data ++ rest ∧ small_number data = false.
Proof. apply CheckMinimalPush_spec. Qed.

Lemma minimal_push_is_canonical_witness :
  CheckMinimalPush [7; 7] OP_PUSHDATA1 ≠ true.
Proof.
  intros H. apply (minimal_push_is_canonical [OP_PUSHDATA1; 2; 7; 7; 9] OP_PUSHDATA1 [7; 7] [9]) in H as [H _];
    [discriminate H|by vm_compute; repeat constructor|reflexivity|done].
Defined.

(** [IsValidSignatureEncoding] accepts exactly the strict DER encodings
    [30 len 02 lenR R 02 lenS S] followed by one hash-type byte, with R and S
    positive, minimally padded integers, of at most 73 bytes in total. *)
Theorem strict_der_encoding sig :
  bytes_ok sig →
  IsValidSignatureEncoding sig true = true ↔
  ∃ r s h, sig = der_signature r s ++ [h] ∧ der_int r = true ∧ der_int s = true ∧ size sig ≤ 73.
Proof.
  intros Hb. split.
  - intros Hv. destruct (IsValidSignatureEncoding_shape sig true Hb Hv) as (r & s & t & -> & Ht).
    destruct t as [|h [|]]; try (unfold size in Ht; cbn in Ht; lia).
    assert (bytes_ok r ∧ bytes_ok s) as [Hr Hs].
    { unfold der_signature, bytes_ok in Hb. rewrite !Forall_app in Hb. naive_solver. }
    rewrite IsValidSignatureEncoding_der in Hv by done.
    rewrite !andb_true_iff, !Z.leb_le in Hv. exists r, s, h. unfold der_signature. rewrite !size_app.
    unfold size in *. cbn [length] in *. naive_solver lia.
  - intros (r & s & h & -> & Hr & Hs & Hsz).
    assert (bytes_ok r ∧ bytes_ok s) as [Hbr Hbs].
    { unfold der_signature, bytes_ok in Hb. rewrite !Forall_app in Hb. naive_solver. }
    rewrite IsValidSignatureEncoding_der, Hr, Hs by done. unfold der_signature in Hsz. rewrite !size_app in Hsz.
    assert (1 ≤ size r) by (destruct r; [done|rewrite size_cons; pose proof (size_nonneg r); lia]).
    assert (1 ≤ size s) by (destruct s; [done|rewrite size_cons; pose proof (size_nonneg s); lia]).
    change (size [_; _; _; _]) with 4 in Hsz. change (size [_; _]) with 2 in Hsz.
    change (size [h]) with 1 in *. cbn [andb]. rewrite andb_true_iff, !Z.leb_le. lia.
Qed.

Lemma strict_der_encoding_witness :
  IsValidSignatureEncoding (der_signature [0x21] [0; 0xff] ++ [SIGHASH_ALL]) true = true.
Proof.
  apply strict_der_encoding; [by vm_compute; repeat constructor|].
  exists [0x21], [0; 0xff], SIGHASH_ALL. split_and!; reflexivity || done.
Defined.

(** C21: OP_CHECKMULTISIG computes m-of-n matching.  With well-encoded arguments
    the pass over the keys, which gives each signature the first key that
    accepts it, succeeds exactly when some order-preserving assignment of
    distinct keys to the signatures exists; the operation then leaves that
    truth value (or fails, for the VERIFY form), except that NULLFAIL rejects a
    failed check with a non-empty signature and NULLDUMMY a non-empty dummy. *)
Theorem checkmultisig_matches (C : Crypto) checker flags sigversion code op n pbegin keys sigs dummy rest :
  size keys ≤ MAX_PUBKEYS_PER_MULTISIG → size sigs ≤ size keys → n + size keys ≤ MAX_OPS_PER_SCRIPT →
  encodings_ok flags sigversion sigs keys → drop_sigs flags sigversion sigs pbegin = Ok code →
  ∃ ok, (ok = true ↔ matches (λ s k, CheckSig checker s k code sigversion) sigs keys) ∧
    op_CHECKMULTISIG checker flags sigversion op n pbegin (multisig_args keys sigs ++ dummy :: rest) =
      if negb ok && flag_set flags SCRIPT_VERIFY_NULLFAIL && existsb (λ x, negb (size x =? 0)) sigs
      then Err SCRIPT_ERR_SIG_NULLFAIL
      else if flag_set flags SCRIPT_VERIFY_NULLDUMMY && negb (size dummy =? 0)
      then Err SCRIPT_ERR_SIG_NULLDUMMY
      else if op =? OP_CHECKMULTISIGVERIFY
           then if ok then Ok (rest, n + size keys) else Err SCRIPT_ERR_CHECKMULTISIGVERIFY
           else Ok (bool_vch ok :: rest, n + size keys).
Proof. apply op_CHECKMULTISIG_spec. Qed.

(** A checker that accepts a signature for the key equal to it. *)
Definition eq_checker : SignatureChecker :=
  {| CheckSig s k _ _ := bool_decide (s = k); CheckLockTime _ := true; CheckSequence _ := true |}.

Lemma checkmultisig_matches_witness :
  op_CHECKMULTISIG (H:=toy_crypto) eq_checker 0 WITNESS_V0 OP_CHECKMULTISIG 1 []
    (multisig_args [[3]; [5]; [7]] [[3]; [7]] ++ [] :: []) = Ok ([vchTrue], 4).
Proof.
  destruct (checkmultisig_matches toy_crypto eq_checker 0 WITNESS_V0 [] OP_CHECKMULTISIG 1 []
    [[3]; [5]; [7]] [[3]; [7]] [] []) as (ok & Hok & E);
    [done|done|done|split; repeat constructor|reflexivity|].
  assert (ok = true) as -> by (apply Hok; repeat constructor).
  rewrite E. reflexivity.
Defined.

(** [FindAndDelete] terminates and removes exactly the copies of the pattern
    that start at an instruction boundary, counts them, and changes nothing
    else: the new script is shorter by the pattern's size for each copy. *)
Theorem find_and_delete_correct script b :
  b ≠ [] →
  ∃ out n, FindAndDelete script b = (out, n) ∧ deleted b script out n ∧
    size script = size out + n * size b ∧ (n = 0 → out = script).
Proof.
  intros Hb. destruct (FindAndDelete script b) as [out n] eqn:E.
  pose proof (FindAndDelete_deleted _ _ _ _ Hb E) as Hd. exists out, n.
  split_and!; [done|done|by apply deleted_size|by eapply deleted_zero].
Qed.

Lemma find_and_delete_correct_witness :
  ∃ out n, FindAndDelete [OP_1; 2; 9; 9; OP_DUP; 2; 9; 9] [2; 9; 9] = (out, n) ∧ out = [OP_1; OP_DUP].
Proof.
  destruct (find_and_delete_correct [OP_1; 2; 9; 9; OP_DUP; 2; 9; 9] [2; 9; 9]) as (out & n & E & _); [done|].
  exists out, n. split; [exact E|]. vm_compute in E. by injection E as <- _.
Defined.
