(* ===== verification/StandardScripts.v ===== *)
(** * What the interpreter does on pay-to-pubkey-hash and contract scripts *)
From S2P Require Import Prelude ArithUint256 Script Interpreter InterpreterFacts InterpreterSpecs.

Section Runs.
Context `{Crypto} (checker : SignatureChecker) (flags : Z) (sv : SigVersion).
Local Abbreviation run st := (Interpreter.run checker flags sv (length (pc st)) st).
Local Abbreviation step := (Interpreter.step checker flags sv).
Local Abbreviation exec_op := (Interpreter.exec_op checker flags sv).

(** The size check that ends an iteration. *)
Definition checked (o : outcome) : result ScriptError outcome :=
  match o with
  | ReturnTrue s => Ok (ReturnTrue s)
  | Continue st =>
      if size (stack st) + size (altstack st) >? MAX_STACK_SIZE then Err SCRIPT_ERR_STACK_SIZE
      else Ok (Continue st)
  end.

Lemma step_opcode st op rest :
  pc st = op :: rest → OP_16 < op → nOpCount st < MAX_OPS_PER_SCRIPT →
  disabled_opcode op = false → op ≠ OP_CODESEPARATOR → vfExec st = [] →
  step st = let* o := exec_op true op
              (mk_state (stack st) (altstack st) [] (nOpCount st + 1) rest (pbegincodehash st)) in
            checked o.
Proof.
  intros Hpc Hop Hn Hd Hcs Hvf. unfold Interpreter.step, executing. rewrite Hvf, Hpc. cbn [GetScriptOp forallb].
  assert (OP_PUSHDATA4 < op) by (unfold OP_16, OP_PUSHDATA4 in *; lia).
  rewrite (proj2 (Z.leb_gt op OP_PUSHDATA4)) by lia. cbn [negb].
  change (size [] >? MAX_SCRIPT_ELEMENT_SIZE) with false. cbv iota.
  rewrite (proj2 (Z.gtb_lt op OP_16)) by lia. cbn [andb].
  rewrite Z.gtb_ltb, (proj2 (Z.ltb_ge _ _)) by lia. rewrite Hd.
  rewrite (proj2 (Z.eqb_neq op OP_CODESEPARATOR)) by done. cbn [andb].
  by rewrite (proj2 (Z.leb_gt op OP_PUSHDATA4)), andb_false_r by lia.
Qed.

(** A data push the interpreter accepts. *)
Definition push_ok (d : valtype) : bool :=
  (size d <=? MAX_SCRIPT_ELEMENT_SIZE) && implb (fRequireMinimal flags) (negb (small_number d)).

Lemma CheckMinimalPush_push d :
  size d < 2 ^ 32 → small_number d = false → CheckMinimalPush d (push_opcode_for (size d)) = true.
Proof.
  intros Hs Hn. unfold CheckMinimalPush, push_opcode_for, OP_PUSHDATA1 in *.
  destruct d as [|x [|y d]]; [done| |].
  - change (size [x]) with 1. change (1 =? 0) with false. change (1 =? 1) with true.
    change (1 <=? 75) with true. change (1 <? 0x4c) with true. cbn [andb small_number orb] in *.
    unfold at_. cbn [nth]. rewrite Z.geb_leb. apply orb_false_iff in Hn as [-> ->]. done.
  - set (n := size (x :: y :: d)) in *. assert (2 ≤ n) by (unfold n, size; cbn [length]; lia).
    rewrite (proj2 (Z.eqb_neq n 0)), (proj2 (Z.eqb_neq n 1)) by lia. cbn [andb].
    destruct (Z.leb_spec n 75), (Z.ltb_spec n 0x4c); try lia.
    destruct (Z.leb_spec n 255); [done|]. by destruct (Z.leb_spec n 65535).
Qed.

Lemma step_push st d rest :
  pc st = push_data [] d ++ rest → push_ok d = true → vfExec st = [] →
  step st = checked (Continue
    (mk_state (d :: stack st) (altstack st) [] (nOpCount st) rest (pbegincodehash st))).
Proof.
  intros Hpc Hd Hvf. unfold push_ok in Hd. apply andb_true_iff in Hd as [Hs%Z.leb_le Hm].
  unfold MAX_SCRIPT_ELEMENT_SIZE in Hs. unfold Interpreter.step, executing.
  rewrite Hvf, Hpc, GetScriptOp_push by lia. cbn [negb forallb]. unfold MAX_SCRIPT_ELEMENT_SIZE.
  rewrite Z.gtb_ltb, (proj2 (Z.ltb_ge 128000 (size d))) by lia.
  assert (0 ≤ push_opcode_for (size d) ≤ OP_PUSHDATA4) as Ho.
  { pose proof (size_nonneg d). unfold push_opcode_for, OP_PUSHDATA1, OP_PUSHDATA2, OP_PUSHDATA4.
    repeat case_match; lia. }
  assert (fRequireMinimal flags && negb (CheckMinimalPush d (push_opcode_for (size d))) = false) as Hmin.
  { destruct (fRequireMinimal flags); [|done]. cbn in Hm |- *. apply negb_true_iff in Hm.
    rewrite CheckMinimalPush_push; done || lia. }
  revert Ho Hmin. generalize (push_opcode_for (size d)). intros op Ho Hmin. unfold OP_PUSHDATA4 in *.
  unfold OP_16, OP_CODESEPARATOR. rewrite Z.gtb_ltb, (proj2 (Z.ltb_ge 0x60 op)) by lia. cbn [andb].
  assert (disabled_opcode op = false) as ->.
  { unfold disabled_opcode, OP_CAT, OP_SUBSTR, OP_LEFT, OP_RIGHT, OP_INVERT, OP_AND, OP_OR, OP_XOR,
      OP_2MUL, OP_2DIV, OP_MUL, OP_DIV, OP_MOD, OP_LSHIFT, OP_RSHIFT. lia. }
  rewrite (proj2 (Z.eqb_neq op 0xab)) by lia. cbn [andb].
  rewrite (proj2 (Z.leb_le 0 op)), (proj2 (Z.leb_le op 0x4e)) by lia. cbn [andb].
  by rewrite Hmin.
Qed.

Lemma run_step st o :
  pc st ≠ [] → step st = Ok o →
  run st = match o with ReturnTrue s => Ok s | Continue st' => run st' end.
Proof.
  intros Hpc Hs. rewrite run_unfold by done. unfold run_body.
  destruct (pc st); [done|]. rewrite Hs. cbn [rbind]. by destruct o.
Qed.

Lemma run_step_err st e : pc st ≠ [] → step st = Err e → run st = Err e.
Proof.
  intros Hpc Hs. rewrite run_unfold by done. unfold run_body.
  destruct (pc st); [done|]. by rewrite Hs.
Qed.

Definition pushes (ds : list valtype) : bytes := concat (push_data [] <$> ds).

Lemma push_data_ne d : push_data [] d ≠ [].
Proof. unfold push_data. cbn. by repeat case_match. Qed.

(** A run of pushes leaves their data on the stack. *)
Lemma run_pushes ds s alt n rest code :
  forallb push_ok ds = true → size s + size alt + size ds ≤ MAX_STACK_SIZE →
  run (mk_state s alt [] n (pushes ds ++ rest) code) = run (mk_state (rev ds ++ s) alt [] n rest code).
Proof.
  revert s. induction ds as [|d ds IH]; intros s Hok Hsz; [done|].
  cbn [forallb] in Hok. apply andb_true_iff in Hok as [Hd Hok]. rewrite size_cons in Hsz.
  pose proof (size_nonneg ds).
  rewrite (run_step _ (Continue (mk_state (d :: s) alt [] n (pushes ds ++ rest) code))).
  - rewrite IH by (rewrite ?size_cons; done || lia). cbn [rev]. by rewrite <- app_assoc.
  - cbn [pc]. change (pushes (d :: ds)) with (push_data [] d ++ pushes ds).
    pose proof (push_data_ne d). by destruct (push_data [] d).
  - rewrite (step_push _ d (pushes ds ++ rest)); try done.
    + cbn [checked stack altstack]. rewrite size_cons, Z.gtb_ltb, (proj2 (Z.ltb_ge _ _)) by lia. done.
    + cbn [pc]. change (pushes (d :: ds)) with (push_data [] d ++ pushes ds). by rewrite <- app_assoc.
Qed.

Lemma EvalScript_run s script :
  size script ≤ MAX_SCRIPT_SIZE →
  EvalScript checker flags sv s script = run (mk_state s [] [] 0 script script).
Proof.
  intros Hs. unfold EvalScript. rewrite Z.gtb_ltb, (proj2 (Z.ltb_ge _ _)) by lia. done.
Qed.

(** One instruction outside conditionals. *)
Lemma run_exec s n op rest code :
  OP_16 < op → n < MAX_OPS_PER_SCRIPT → disabled_opcode op = false → op ≠ OP_CODESEPARATOR →
  run (mk_state s [] [] n (op :: rest) code) =
    match exec_op true op (mk_state s [] [] (n + 1) rest code) with
    | Err e => Err e
    | Ok (ReturnTrue s') => Ok s'
    | Ok (Continue st) => if size (stack st) + size (altstack st) >? MAX_STACK_SIZE
                          then Err SCRIPT_ERR_STACK_SIZE else run st
    end.
Proof.
  intros Hop Hn Hd Hcs. set (st := mk_state _ _ _ n _ _).
  pose proof (step_opcode st op rest eq_refl Hop Hn Hd Hcs eq_refl) as Hs.
  cbn [stack st altstack nOpCount pbegincodehash] in Hs.
  destruct (exec_op _ _ _) as [[st'|s']|e]; cbn [rbind checked] in Hs;
    [|by rewrite (run_step st _ ltac:(done) Hs)|by apply run_step_err].
  destruct (_ >? _); [by apply run_step_err|]. by rewrite (run_step st _ ltac:(done) Hs).
Qed.

Lemma run_op s n op rest code f :
  stack_case (fRequireMinimal flags) op = Some f → OP_16 < op → n < MAX_OPS_PER_SCRIPT →
  disabled_opcode op = false → op ≠ OP_CODESEPARATOR →
  run (mk_state s [] [] n (op :: rest) code) =
    match f s with
    | Err e => Err e
    | Ok s1 => if size s1 >? MAX_STACK_SIZE then Err SCRIPT_ERR_STACK_SIZE
               else run (mk_state s1 [] [] (n + 1) rest code)
    end.
Proof.
  intros Hsc Hop Hn Hd Hcs. rewrite run_exec by done. unfold Interpreter.exec_op. rewrite Hsc.
  cbn [stack]. destruct (f s) as [s1|e]; [|done]. cbn [rbind continue with_stack stack altstack].
  change (size []) with 0. by rewrite Z.add_0_r.
Qed.

(** ** Pay to public key hash *)

Lemma p2pkh_bytes h :
  p2pkh_script h = [OP_DUP; OP_HASH160] ++ push_data [] h ++ [OP_EQUALVERIFY; OP_CHECKSIG].
Proof. unfold p2pkh_script, push_opcode, push_data. cbn [app]. by rewrite <- !app_assoc. Qed.

Lemma size_push_data d : size (push_data [] d) ≤ size d + 5.
Proof.
  unfold push_data. cbn [app]. rewrite size_app. unfold WriteLE16, WriteLE32, size.
  repeat case_match; cbn [length]; lia.
Qed.

Lemma p2pkh_eval h pk sig s :
  size h = 20 → size s + 4 ≤ MAX_STACK_SIZE →
  EvalScript checker flags sv (pk :: sig :: s) (p2pkh_script h) =
    if bool_decide (CHash160 pk = h)
    then op_CHECKSIG checker flags sv OP_CHECKSIG (p2pkh_script h) (pk :: sig :: s)
    else Err SCRIPT_ERR_EQUALVERIFY.
Proof.
  intros Hh Hs. unfold MAX_STACK_SIZE in Hs. pose proof (size_nonneg s) as Hs0.
  assert (size (p2pkh_script h) ≤ MAX_SCRIPT_SIZE) as Hsz.
  { pose proof (size_push_data h). rewrite p2pkh_bytes, !size_app. unfold size at 1 3. cbn [length].
    unfold MAX_SCRIPT_SIZE. lia. }
  rewrite EvalScript_run by done. generalize (p2pkh_script h) at 2 4 5 as code. intros code.
  rewrite p2pkh_bytes. cbn [app].
  rewrite (run_op _ _ _ _ _ op_DUP) by done. cbn [op_DUP]. unfold MAX_STACK_SIZE.
  rewrite !size_cons, Z.gtb_ltb, (proj2 (Z.ltb_ge _ _)) by lia.
  rewrite (run_op _ _ _ _ _ (op_hash OP_HASH160)) by done.
  change (op_hash OP_HASH160 (pk :: pk :: sig :: s)) with (Ok (E:=ScriptError) (CHash160 pk :: pk :: sig :: s)).
  cbv beta iota. unfold MAX_STACK_SIZE. rewrite !size_cons, Z.gtb_ltb, (proj2 (Z.ltb_ge _ _)) by lia.
  pose proof (run_pushes [h] (CHash160 pk :: pk :: sig :: s) [] (0 + 1 + 1) [OP_EQUALVERIFY; OP_CHECKSIG] code) as Hp.
  change (pushes [h]) with (push_data [] h ++ []) in Hp. rewrite app_nil_r in Hp. rewrite Hp; clear Hp.
  2:{ cbn [forallb]. unfold push_ok. rewrite Hh. destruct h as [|x [|y h]]; [done|done|]. cbn.
      by rewrite implb_true_r. }
  2:{ rewrite !size_cons. unfold size at 2 3. cbn [length]. unfold MAX_STACK_SIZE. lia. }
  cbn [rev app]. rewrite (run_op _ _ _ _ _ (op_EQUAL OP_EQUALVERIFY)) by done.
  change (op_EQUAL OP_EQUALVERIFY (h :: CHash160 pk :: pk :: sig :: s)) with
    (if bool_decide (CHash160 pk = h) then Ok (pk :: sig :: s) else Err SCRIPT_ERR_EQUALVERIFY).
  destruct (bool_decide (CHash160 pk = h)); [|done]. cbv beta iota.
  unfold MAX_STACK_SIZE. rewrite !size_cons, Z.gtb_ltb, (proj2 (Z.ltb_ge _ _)) by lia.
  rewrite run_exec by done.
  change (exec_op true OP_CHECKSIG ?st) with
    (continue (let* s := op_CHECKSIG checker flags sv OP_CHECKSIG (pbegincodehash st) (stack st) in
               Ok (with_stack st s))).
  cbn [pbegincodehash stack].
  destruct (op_CHECKSIG checker flags sv OP_CHECKSIG code (pk :: sig :: s)) as [s1|e] eqn:Hc; [|done].
  cbn [rbind continue with_stack stack altstack].
  assert (size s1 = size s + 1) as ->.
  { unfold op_CHECKSIG in Hc. inv_ok; [done|by rewrite size_cons]. }
  unfold MAX_STACK_SIZE. change (size []) with 0. rewrite Z.gtb_ltb, (proj2 (Z.ltb_ge _ _)) by lia. done.
Qed.
End Runs.

Lemma IsPushOnly_loop_pushes ds f :
  Forall (λ d, size d < 2 ^ 32) ds → IsPushOnly_loop f (pushes ds) = true.
Proof.
  intros Hd. revert f. induction Hd as [|d ds Hd _ IH]; intros f; [by destruct f|].
  destruct f as [|f]; [done|]. cbn [IsPushOnly_loop].
  change (pushes (d :: ds)) with (push_data [] d ++ pushes ds).
  destruct (push_data [] d ++ pushes ds) as [|x l] eqn:E; [done|]. rewrite <- E.
  rewrite GetScriptOp_push by done. cbn [negb].
  assert (push_opcode_for (size d) ≤ OP_16).
  { unfold push_opcode_for, OP_PUSHDATA1, OP_PUSHDATA2, OP_PUSHDATA4, OP_16. repeat case_match; lia. }
  rewrite Z.gtb_ltb, (proj2 (Z.ltb_ge _ _)) by lia. apply IH.
Qed.

Section Verify.
Context `{Crypto} (checker : SignatureChecker) (flags : Z).

Lemma push_ok_size sv ds :
  forallb (push_ok sv) ds = true → Forall (λ d, size d < 2 ^ 32) ds.
Proof.
  intros Hd. apply Forall_forall. intros d Hin.
  assert (push_ok sv d = true) as Hok.
  { rewrite forallb_forall in Hd. apply Hd. by apply list_elem_of_In. }
  unfold push_ok, MAX_SCRIPT_ELEMENT_SIZE in Hok. lia.
Qed.

Lemma eval_pushes sv ds :
  forallb (push_ok flags) ds = true → size ds ≤ MAX_STACK_SIZE → size (pushes ds) ≤ MAX_SCRIPT_SIZE →
  EvalScript checker flags sv [] (pushes ds) = Ok (rev ds).
Proof.
  intros Hd Hn Hs. rewrite EvalScript_run by done.
  pose proof (run_pushes checker flags sv ds [] [] 0 [] (pushes ds) Hd) as Hr.
  rewrite !app_nil_r in Hr. rewrite Hr; [done|]. unfold size at 1 2. cbn [length]. lia.
Qed.

(** The whole verification of a pay-to-pubkey-hash spend. *)
Lemma p2pkh_verify h pk sig :
  flags_consistent flags = true → size h = 20 → forallb (push_ok flags) [sig; pk] = true →
  size (pushes [sig; pk]) ≤ MAX_SCRIPT_SIZE →
  VerifyScript checker flags (pushes [sig; pk]) (p2pkh_script h) [] =
    if bool_decide (CHash160 pk = h)
    then lift_script (let* s := op_CHECKSIG checker flags BASE OP_CHECKSIG (p2pkh_script h) [pk; sig] in
                      true_stack s)
    else Err (serror SCRIPT_ERR_EQUALVERIFY).
Proof.
  intros Hc Hh Hd Hs. unfold VerifyScript.
  assert (IsPushOnly (pushes [sig; pk]) = true) as Hpo
    by (apply IsPushOnly_loop_pushes; by eapply push_ok_size).
  rewrite Hpo. cbn [negb]. rewrite andb_false_r.
  rewrite eval_pushes by done. cbn [lift_script rbind rev app].
  rewrite p2pkh_eval by (rewrite ?Hh; done).
  destruct (bool_decide (CHash160 pk = h)); [|done].
  destruct (op_CHECKSIG _ _ _ _ _ _) as [s|e] eqn:Hop; [|done]. cbn [lift_script rbind].
  destruct (true_stack s) as [[]|e] eqn:Ht; [|done]. cbn [lift_script rbind].
  assert (size s = 1) as Hsz.
  { unfold op_CHECKSIG in Hop. inv_ok; done. }
  assert (IsWitnessProgram (p2pkh_script h) = None) as Hw.
  { unfold IsWitnessProgram. destruct (_ || _); [done|]. by rewrite p2pkh_bytes. }
  assert (IsPayToScriptHash (p2pkh_script h) = false) as Hp.
  { unfold IsPayToScriptHash. rewrite p2pkh_bytes. cbn [app]. unfold at_ at 1. cbn [nth].
    change (OP_DUP =? OP_HASH160) with false. by rewrite andb_false_r. }
  unfold bare_witness, verify_p2sh. rewrite Hw, Hp, andb_false_r.
  unfold flags_consistent in Hc. apply andb_true_iff in Hc as [Hc1 Hc2].
  destruct (flag_set flags SCRIPT_VERIFY_WITNESS) eqn:EW, (flag_set flags SCRIPT_VERIFY_P2SH) eqn:EP,
    (flag_set flags SCRIPT_VERIFY_CLEANSTACK) eqn:EC; try done; cbn [lift_script rbind fst snd negb];
    by rewrite ?Hsz.
Qed.

(** ** Contract scripts *)

Lemma contract_eval sv s ds op rest :
  op = OP_CREATE ∨ op = OP_CALL → forallb (push_ok flags) ds = true →
  size s + size ds ≤ MAX_STACK_SIZE → size (pushes ds ++ op :: rest) ≤ MAX_SCRIPT_SIZE →
  EvalScript checker flags sv s (pushes ds ++ op :: rest) = Ok ((op :: rest) :: rev ds ++ s).
Proof.
  intros Hop Hd Hn Hs. rewrite EvalScript_run by done.
  rewrite run_pushes by (change (size []) with 0; done || lia).
  rewrite run_exec by (destruct Hop as [-> | ->]; done).
  by destruct Hop as [-> | ->].
Qed.

Lemma contract_verify ds op rest :
  op = OP_CREATE ∨ op = OP_CALL → forallb (push_ok flags) ds = true →
  size ds ≤ MAX_STACK_SIZE → size (pushes ds ++ op :: rest) ≤ MAX_SCRIPT_SIZE →
  flags_consistent flags = true → flag_set flags SCRIPT_VERIFY_CLEANSTACK = false →
  IsWitnessProgram (pushes ds ++ op :: rest) = None →
  VerifyScript checker flags [] (pushes ds ++ op :: rest) [] = Ok tt.
Proof.
  intros Hop Hd Hn Hs Hc Hcs Hw. unfold VerifyScript.
  rewrite andb_false_r. change (EvalScript checker flags BASE [] []) with (Ok (E:=ScriptError) (@nil valtype)).
  cbn [lift_script rbind]. rewrite contract_eval by done. cbn [lift_script rbind true_stack].
  replace (CastToBool (op :: rest)) with true by (destruct Hop as [-> | ->]; cbn; by destruct rest).
  cbn [lift_script rbind]. unfold bare_witness, verify_p2sh. rewrite Hw, Hcs.
  assert (IsPayToScriptHash (pushes ds ++ op :: rest) = false) as ->.
  { unfold IsPayToScriptHash. assert (at_ (pushes ds ++ op :: rest) 0 ≠ OP_HASH160) as Hne.
    { destruct ds as [|d ds]; [cbn; by destruct Hop as [-> | ->]|].
      change (pushes (d :: ds)) with (push_data [] d ++ pushes ds). unfold push_data, at_. cbn [app].
      pose proof (size_nonneg d). unfold OP_PUSHDATA1, OP_PUSHDATA2, OP_PUSHDATA4, OP_HASH160, u8, wrap.
      destruct (Z.ltb_spec (size d) 0x4c); [cbn [app nth]; rewrite Z.mod_small; lia|].
      by repeat case_match. }
    rewrite (proj2 (Z.eqb_neq _ _) Hne). by rewrite andb_false_r. }
  rewrite andb_false_r. unfold flags_consistent in Hc. apply andb_true_iff in Hc as [Hc1 _].
  destruct (flag_set flags SCRIPT_VERIFY_WITNESS) eqn:EW, (flag_set flags SCRIPT_VERIFY_P2SH) eqn:EP; done.
Qed.
End Verify.

(** ** Main statements *)

(** A pay-to-pubkey-hash output is spent exactly by a key with the right
    hash and a valid signature: for a well-formed spend [VerifyScript] accepts
    if and only if the public key hashes to the committed value, the encoding
    rules of the flags hold, and the checker accepts the signature over the
    script code (the output script with copies of the signature removed). *)
Theorem p2pkh_spend (C : Crypto) checker flags h pk sig :
  flags_consistent flags = true → size h = 20 → forallb (push_ok flags) [sig; pk] = true →
  size (pushes [sig; pk]) ≤ MAX_SCRIPT_SIZE →
  VerifyScript checker flags (pushes [sig; pk]) (p2pkh_script h) [] = Ok tt ↔
    CHash160 pk = h ∧
    ∃ code, drop_signature flags BASE (p2pkh_script h) sig = Ok code ∧
      CheckSignatureEncoding sig flags = Ok tt ∧ CheckPubKeyEncoding pk flags BASE = Ok tt ∧
      CheckSig checker sig pk code BASE = true.
Proof.
  intros Hc Hh Hd Hs. rewrite p2pkh_verify by done.
  destruct (bool_decide_reflect (CHash160 pk = h)) as [Heq|Hne]; [|naive_solver].
  rewrite lift_script_Ok. unfold op_CHECKSIG. split.
  - intros Hx. split; [done|]. apply rbind_Ok in Hx as (s & Hx & Ht).
    apply rbind_Ok in Hx as (code & H1 & Hx). apply rbind_Ok in Hx as ([] & H2 & Hx).
    apply rbind_Ok in Hx as ([] & H3 & Hx). exists code. split_and!; try done.
    destruct (CheckSig checker sig pk code BASE); [done|]. cbn [negb andb] in Hx.
    destruct (_ && _) in Hx; [done|]. by injection Hx as <-.
  - intros (_ & code & -> & -> & -> & Hcs). cbn [rbind]. by rewrite Hcs.
Qed.

Lemma p2pkh_spend_witness :
  VerifyScript (H:=toy_crypto) (toy_checker true) SCRIPT_VERIFY_P2SH
    (pushes [[0x30; 0x06]; 2 :: replicate 32 5]) (p2pkh_script (toy_digest 20 (2 :: replicate 32 5))) [] = Ok tt.
Proof.
  apply (p2pkh_spend toy_crypto (toy_checker true) SCRIPT_VERIFY_P2SH); try reflexivity.
  - vm_compute. discriminate.
  - split; [reflexivity|]. eexists. split_and!; reflexivity.
Defined.

(** Reaching OP_CREATE or OP_CALL ends script evaluation with success: the
    instruction pushes the rest of the script, itself included, which is a true
    value.  So, under any flags without CLEANSTACK, a contract output whose
    arguments are data pushes is satisfied by an empty input script with no
    signature at all: the script system does not protect it. *)
Theorem contract_output_needs_no_signature (C : Crypto) checker flags ds op rest :
  op = OP_CREATE ∨ op = OP_CALL → forallb (push_ok flags) ds = true →
  size ds ≤ MAX_STACK_SIZE → size (pushes ds ++ op :: rest) ≤ MAX_SCRIPT_SIZE →
  (∀ sigversion, EvalScript checker flags sigversion [] (pushes ds ++ op :: rest)
                   = Ok ((op :: rest) :: rev ds)) ∧
  (flags_consistent flags = true → flag_set flags SCRIPT_VERIFY_CLEANSTACK = false →
   IsWitnessProgram (pushes ds ++ op :: rest) = None →
   VerifyScript checker flags [] (pushes ds ++ op :: rest) [] = Ok tt).
Proof.
  intros Hop Hd Hn Hs. split.
  - intros sv. rewrite contract_eval by done. by rewrite app_nil_r.
  - by apply contract_verify.
Qed.

Lemma contract_output_needs_no_signature_witness :
  VerifyScript (H:=toy_crypto) BaseSignatureChecker (SCRIPT_VERIFY_P2SH |' SCRIPT_VERIFY_WITNESS) []
    (pushes [[4]; [0x40; 0x0d; 3]; [40]; replicate 36 0xab; replicate 20 0xcd] ++ [OP_CALL]) [] = Ok tt.
Proof.
  apply (contract_output_needs_no_signature toy_crypto BaseSignatureChecker
    (SCRIPT_VERIFY_P2SH |' SCRIPT_VERIFY_WITNESS)
    [[4]; [0x40; 0x0d; 3]; [40]; replicate 36 0xab; replicate 20 0xcd] OP_CALL []); try reflexivity.
  - by right.
  - vm_compute. discriminate.
  - vm_compute. discriminate.
Defined.
