(* ===== verification/Serialize.v ===== *)
(** * Serialization (serialize.h)

    A stream is the list of the bytes left in it.  Writing appends; reading
    takes bytes from the front and fails with [end_of_data] when there are not
    enough of them.  [Serial] is the interface each serializable type offers,
    [SerialLaws] what it promises: what was written is read back, and whatever
    is read is the one encoding of the value read. *)
From S2P Require Import Prelude ArithUint256 Script InterpreterSpecs.

Inductive ser_error := end_of_data | non_canonical | too_large | unknown_optional_data.

(** ** Readers *)

Definition reader (A : Type) : Type := bytes → result ser_error (A * bytes).
#[global] Instance reader_ret : MRet reader := λ A a s, Ok (a, s).
#[global] Instance reader_bind : MBind reader := λ A B k m s,
  match m s with Ok (a, s') => k a s' | Err e => Err e end.
Definition fail {A} (e : ser_error) : reader A := λ _, Err e.

Definition read (n : Z) : reader bytes := λ s,
  if size s <? n then Err end_of_data else Ok (take (Z.to_nat n) s, drop (Z.to_nat n) s).

Lemma reader_bind_Ok {A B} (m : reader A) (k : A → reader B) s b s' :
  (m ≫= k) s = Ok (b, s') ↔ ∃ a s1, m s = Ok (a, s1) ∧ k a s1 = Ok (b, s').
Proof.
  unfold mbind, reader_bind. destruct (m s) as [[a s1]|e]; naive_solver.
Qed.

Lemma reader_bind_step {A B} (m : reader A) (k : A → reader B) s a s1 :
  m s = Ok (a, s1) → (m ≫= k) s = k a s1.
Proof. unfold mbind, reader_bind. by intros ->. Qed.

Lemma Ok_pair_inj {E A B} (a c : A) (b d : B) : Ok (E:=E) (a, b) = Ok (c, d) → a = c ∧ b = d.
Proof. by intros [= -> ->]. Qed.

Ltac inv_read :=
  repeat match goal with
  | H : (_ ≫= _) _ = Ok _ |- _ => apply reader_bind_Ok in H as (? & ? & ? & H)
  | H : mret _ _ = Ok _ |- _ => unfold mret, reader_ret in H; simplify_eq
  | H : fail _ _ = Ok _ |- _ => discriminate H
  end.

(** ** Fixed-width integers: [ser_writedata8/16/32/64] and their readers

    [n] is the number of bytes. *)

Fixpoint ser_writedata (n : nat) (obj : Z) : bytes :=
  match n with O => [] | S n => u8 obj :: ser_writedata n (obj >>' 8) end.
Definition ser_readdata (n : nat) : reader Z :=
  d ← read (Z.of_nat n); mret (le_value d).

Definition ser_writedata8 : Z → bytes := ser_writedata 1.
Definition ser_writedata16 : Z → bytes := ser_writedata 2.
Definition ser_writedata32 : Z → bytes := ser_writedata 4.
Definition ser_writedata64 : Z → bytes := ser_writedata 8.
Definition ser_readdata8 : reader Z := ser_readdata 1.
Definition ser_readdata16 : reader Z := ser_readdata 2.
Definition ser_readdata32 : reader Z := ser_readdata 4.
Definition ser_readdata64 : reader Z := ser_readdata 8.

(** ** Compact sizes *)

Definition MAX_SIZE : Z := 0x10000000.

Definition GetSizeOfCompactSize (nSize : Z) : Z :=
  if nSize <? 253 then 1
  else if nSize <=? 0xffff then 1 + 2
  else if nSize <=? 0xffffffff then 1 + 4
  else 1 + 8.

Definition WriteCompactSize (nSize : Z) : bytes :=
  if nSize <? 253 then ser_writedata8 nSize
  else if nSize <=? 0xffff then ser_writedata8 253 ++ ser_writedata16 nSize
  else if nSize <=? 0xffffffff then ser_writedata8 254 ++ ser_writedata32 nSize
  else ser_writedata8 255 ++ ser_writedata64 nSize.

Definition ReadCompactSize : reader Z :=
  chSize ← ser_readdata8;
  nSizeRet ←
    (if chSize <? 253 then mret chSize
     else if chSize =? 253 then
       n ← ser_readdata16; if n <? 253 then fail non_canonical else mret n
     else if chSize =? 254 then
       n ← ser_readdata32; if n <? 0x10000 then fail non_canonical else mret n
     else
       n ← ser_readdata64; if n <? 0x100000000 then fail non_canonical else mret n);
  if nSizeRet >? MAX_SIZE then fail too_large else mret nSizeRet.

(** ** Variable-length integers of a [w]-bit unsigned type *)

(** The loop that fills [tmp]; the digits come out in the order they are
    written.  [(w + 6) / 7] digits are enough. *)
Fixpoint varint_digits (fuel : nat) (n : Z) (len : bool) (acc : bytes) : bytes :=
  let digit := (n &' 0x7F) |' (if len then 0x80 else 0x00) in
  match fuel with
  | O => digit :: acc
  | S fuel => if n <=? 0x7F then digit :: acc
              else varint_digits fuel ((n >>' 7) - 1) true (digit :: acc)
  end.
Definition WriteVarInt (w : nat) (n : Z) : bytes := varint_digits ((w + 6) / 7) n false [].

Fixpoint GetSizeOfVarInt_loop (fuel : nat) (n : Z) (nRet : Z) : Z :=
  match fuel with
  | O => nRet + 1
  | S fuel => if n <=? 0x7F then nRet + 1 else GetSizeOfVarInt_loop fuel ((n >>' 7) - 1) (nRet + 1)
  end.
Definition GetSizeOfVarInt (w : nat) (n : Z) : Z := GetSizeOfVarInt_loop ((w + 6) / 7) n 0.

Definition max_u (w : nat) : Z := 2 ^ Z.of_nat w - 1.

(** Each iteration reads a byte, so the length of the stream bounds the loop. *)
Fixpoint ReadVarInt_loop (w fuel : nat) (n : Z) : reader Z :=
  chData ← ser_readdata8;
  if n >? (max_u w) >>' 7 then fail too_large
  else
    let n := wrap (Z.of_nat w) (n <<' 7) |' (chData &' 0x7F) in
    if negb (chData &' 0x80 =? 0) then
      if n =? max_u w then fail too_large
      else match fuel with O => fail end_of_data | S fuel => ReadVarInt_loop w fuel (n + 1) end
    else mret n.
Definition ReadVarInt (w : nat) : reader Z := λ s, ReadVarInt_loop w (length s) 0 s.

(** ** Serializable types *)

Class Serial (A : Type) := {
  Serialize : A → bytes;
  Unserialize : reader A;
  serializable : A → Prop
}.

Class SerialLaws (A : Type) `{Serial A} : Prop := {
  unserialize_serialize a rest : serializable a → Unserialize (Serialize a ++ rest) = Ok (a, rest);
  serialize_unserialize s a rest : bytes_ok s → Unserialize s = Ok (a, rest) →
    serializable a ∧ s = Serialize a ++ rest
}.

(** A serialization is read back the same whatever follows it, so equal streams
    start with equal values. *)
Lemma serialize_app_inj {A} `{SerialLaws A} (a b : A) r s :
  serializable a → serializable b → Serialize a ++ r = Serialize b ++ s → a = b ∧ r = s.
Proof.
  intros Ha Hb E. pose proof (unserialize_serialize a r Ha) as R.
  rewrite E, (unserialize_serialize b s Hb) in R. by apply Ok_pair_inj in R as [-> ->].
Qed.

(** Values written one after the other without their number. *)
Lemma concat_fmap_inj {A} (P : A → Prop) (f : A → bytes) :
  (∀ x, P x → f x ≠ []) →
  (∀ x y r s, P x → P y → f x ++ r = f y ++ s → x = y ∧ r = s) →
  ∀ l k, Forall P l → Forall P k → concat (f <$> l) = concat (f <$> k) → l = k.
Proof.
  intros Hne Hinj l k Hl. revert k. induction Hl as [|x l Hx Hl IH]; intros k Hk; destruct Hk as [|y k Hy Hk]; cbn.
  - done.
  - intros E. symmetry in E. apply app_nil in E as [E _]. by apply Hne in E.
  - intros E. apply app_nil in E as [E _]. by apply Hne in E.
  - intros E. apply Hinj in E as [-> E]; [|done..]. f_equal. by apply IH.
Qed.

(** *** Byte vectors: [std::vector<unsigned char>] and scripts *)

(** The loop that reads a byte vector in blocks of at most 5,000,000 bytes. *)
Fixpoint read_blocks (fuel : nat) (nSize i : Z) (v : bytes) : reader bytes :=
  match fuel with
  | O => mret v
  | S fuel =>
      if i <? nSize then
        let blk := Z.min (nSize - i) (1 + 4999999) in
        d ← read blk;
        read_blocks fuel nSize (i + blk) (v ++ d)
      else mret v
  end.

Definition Serialize_bytes (v : bytes) : bytes := WriteCompactSize (size v) ++ v.
Definition Unserialize_bytes : reader bytes :=
  nSize ← ReadCompactSize; read_blocks (Z.to_nat nSize) nSize 0 [].

(** *** Vectors of serializable elements, read one by one *)

Fixpoint read_many {A} (r : reader A) (n : nat) : reader (list A) :=
  match n with
  | O => mret []
  | S n => x ← r; l ← read_many r n; mret (x :: l)
  end.

Definition Serialize_vector {A} `{Serial A} (v : list A) : bytes :=
  WriteCompactSize (size v) ++ concat (Serialize <$> v).
Definition Unserialize_vector {A} `{Serial A} : reader (list A) :=
  nSize ← ReadCompactSize; read_many Unserialize (Z.to_nat nSize).

(** ** Lemmas on readers and integers *)

Lemma read_app n (a rest : bytes) : size a = n → read n (a ++ rest) = Ok (a, rest).
Proof.
  intros <-. unfold read. destruct (take_drop_exact a rest) as [-> ->].
  by rewrite size_app_not_lt.
Qed.

Lemma read_Ok n s d rest : 0 ≤ n → read n s = Ok (d, rest) → s = d ++ rest ∧ size d = n.
Proof.
  intros Hn. unfold read. destruct (size s <? n) eqn:Hs; [done|]. intros [= <- <-].
  by eapply take_drop_push.
Qed.

Lemma ser_writedata_length n x : length (ser_writedata n x) = n.
Proof. revert x. induction n; intros; cbn; auto. Qed.

Lemma ser_writedata_value n x : le_value (ser_writedata n x) = x mod 256 ^ Z.of_nat n.
Proof.
  revert x. induction n as [|n IH]; intros x; cbn [ser_writedata le_value].
  { change (256 ^ Z.of_nat 0) with 1. by rewrite Z.mod_1_r. }
  rewrite IH, Nat2Z.inj_succ, Z.pow_succ_r, shr_div by lia. unfold u8, wrap. change (2 ^ 8) with 256.
  pose proof (pow256_pos n). rewrite Z.rem_mul_r by lia. lia.
Qed.

Lemma ser_writedata_ok n x : bytes_ok (ser_writedata n x).
Proof.
  revert x. induction n as [|n IH]; intros x; cbn; constructor; [apply u8_byte|apply IH].
Qed.

Lemma ser_writedata_le d : bytes_ok d → ser_writedata (length d) (le_value d) = d.
Proof.
  induction 1 as [|b d Hb Hd IH]; [done|]. cbn [length ser_writedata le_value].
  replace (b + 256 * le_value d) with (b + le_value d * 2 ^ 8) by lia.
  by rewrite u8_low, shr8_low, IH.
Qed.

Lemma readdata_write n x rest :
  0 ≤ x < 256 ^ Z.of_nat n → ser_readdata n (ser_writedata n x ++ rest) = Ok (x, rest).
Proof.
  intros Hx. unfold ser_readdata. erewrite reader_bind_step.
  2:{ apply read_app. unfold size. by rewrite ser_writedata_length. }
  by rewrite ser_writedata_value, Z.mod_small.
Qed.

Lemma readdata_Ok n s x rest :
  bytes_ok s → ser_readdata n s = Ok (x, rest) →
  s = ser_writedata n x ++ rest ∧ 0 ≤ x < 256 ^ Z.of_nat n ∧ bytes_ok rest.
Proof.
  intros Hs Hr. unfold ser_readdata in Hr. inv_read.
  match goal with H : read _ _ = _ |- _ => apply read_Ok in H as [-> Hl]; [|lia] end.
  apply Forall_app in Hs as [Hd Hrest]. unfold size in Hl.
  replace n with (length x0) by lia. split_and!; [|by apply le_value_range..|done].
  by rewrite ser_writedata_le.
Qed.

(** *** Compact sizes *)

Lemma compact_size_write n rest :
  0 ≤ n ≤ MAX_SIZE → ReadCompactSize (WriteCompactSize n ++ rest) = Ok (n, rest).
Proof.
  unfold MAX_SIZE. intros Hn. unfold ReadCompactSize, WriteCompactSize.
  assert (∀ c rest, 0 ≤ c < 256 → ser_readdata8 (ser_writedata8 c ++ rest) = Ok (c, rest)) as H8
    by (intros; apply readdata_write; lia).
  assert (∀ (m : reader Z) s s', m s = Ok (n, s') →
    (x ← m; if x >? MAX_SIZE then fail too_large else mret x) s = Ok (n, s')) as Hend.
  { intros m s s' Hm. rewrite (reader_bind_step _ _ _ _ _ Hm). unfold MAX_SIZE.
    by rewrite Z.gtb_ltb, (proj2 (Z.ltb_ge _ n)) by lia. }
  destruct (Z.ltb_spec n 253).
  { rewrite (reader_bind_step _ _ _ _ _ (H8 n rest ltac:(lia))). apply Hend.
    by rewrite (proj2 (Z.ltb_lt n 253)) by lia. }
  destruct (Z.leb_spec n 0xffff).
  { rewrite <- app_assoc, (reader_bind_step _ _ _ _ _ (H8 253 _ ltac:(lia))). apply Hend. cbn [Z.ltb Z.compare].
    change (253 <? 253) with false. change (253 =? 253) with true. cbv iota.
    erewrite reader_bind_step by (apply readdata_write; lia). by rewrite (proj2 (Z.ltb_ge n 253)) by lia. }
  destruct (Z.leb_spec n 0xffffffff); [|lia].
  rewrite <- app_assoc, (reader_bind_step _ _ _ _ _ (H8 254 _ ltac:(lia))). apply Hend.
  change (254 <? 253) with false. change (254 =? 253) with false. change (254 =? 254) with true. cbv iota.
  erewrite reader_bind_step by (apply readdata_write; lia). by rewrite (proj2 (Z.ltb_ge n 0x10000)) by lia.
Qed.

Lemma compact_size_read s n rest :
  bytes_ok s → ReadCompactSize s = Ok (n, rest) →
  0 ≤ n ≤ MAX_SIZE ∧ s = WriteCompactSize n ++ rest ∧ bytes_ok rest.
Proof.
  intros Hs Hr. unfold ReadCompactSize in Hr. apply reader_bind_Ok in Hr as (c & s1 & H1 & Hr).
  apply (readdata_Ok 1) in H1 as (-> & Hc & Hs1); [|done].
  apply reader_bind_Ok in Hr as (n' & s2 & H2 & Hr).
  destruct (n' >? MAX_SIZE) eqn:Hm; [done|]. rewrite Z.gtb_ltb, Z.ltb_ge in Hm. inv_read.
  enough (0 ≤ n ∧ ser_writedata 1 c ++ s1 = WriteCompactSize n ++ rest ∧ bytes_ok rest) by naive_solver.
  unfold WriteCompactSize. change (256 ^ Z.of_nat 1) with 256 in Hc. unfold MAX_SIZE in Hm.
  destruct (Z.ltb_spec c 253) as [Hlt|Hge].
  { inv_read. rewrite (proj2 (Z.ltb_lt n 253)) by lia. split_and!; [lia|done|done]. }
  destruct (Z.eqb_spec c 253) as [->|].
  { apply reader_bind_Ok in H2 as (m & s3 & H2 & Hf). apply (readdata_Ok 2) in H2 as (-> & Hmr & Hrest); [|done].
    destruct (Z.ltb_spec m 253); [done|]. inv_read. change (256 ^ Z.of_nat 2) with 65536 in Hmr.
    rewrite (proj2 (Z.ltb_ge n 253)), (proj2 (Z.leb_le n 0xffff)), <- app_assoc by lia. split_and!; [lia|done|done]. }
  destruct (Z.eqb_spec c 254) as [->|].
  { apply reader_bind_Ok in H2 as (m & s3 & H2 & Hf). apply (readdata_Ok 4) in H2 as (-> & Hmr & Hrest); [|done].
    destruct (Z.ltb_spec m 0x10000); [done|]. inv_read. change (256 ^ Z.of_nat 4) with 4294967296 in Hmr.
    rewrite (proj2 (Z.ltb_ge n 253)), (proj2 (Z.leb_gt n 0xffff)), (proj2 (Z.leb_le n 0xffffffff)), <- app_assoc by lia.
    split_and!; [lia|done|done]. }
  apply reader_bind_Ok in H2 as (m & s3 & H2 & Hf). destruct (Z.ltb_spec m 0x100000000); [done|].
  apply (readdata_Ok 8) in H2 as (-> & Hmr & Hrest); [|done]. inv_read. lia.
Qed.

Lemma WriteCompactSize_ok n : bytes_ok (WriteCompactSize n).
Proof.
  unfold WriteCompactSize, bytes_ok. repeat case_match; rewrite ?Forall_app; split_and?; apply ser_writedata_ok.
Qed.

Lemma WriteCompactSize_size n : size (WriteCompactSize n) = GetSizeOfCompactSize n.
Proof.
  unfold WriteCompactSize, GetSizeOfCompactSize.
  repeat case_match; unfold size; rewrite ?length_app; unfold ser_writedata8, ser_writedata16, ser_writedata32, ser_writedata64;
    rewrite !ser_writedata_length; lia.
Qed.

(** *** Variable-length integers *)

(** The digits of a number all of which announce a further digit. *)
Lemma varint_digits_app f n len acc acc' :
  varint_digits f n len (acc ++ acc') = varint_digits f n len acc ++ acc'.
Proof.
  revert n len acc. induction f as [|f IH]; intros n len acc; cbn [varint_digits]; [done|].
  case_match; [done|]. by rewrite app_comm_cons, IH.
Qed.

Lemma varint_low n : 0 ≤ n → 0 ≤ n &' 0x7F < 128 ∧ n = (n >>' 7) * 128 + n &' 0x7F.
Proof.
  intros Hn. change 0x7F with (2 ^ 7 - 1). rewrite land_mask, shr_div by lia.
  pose proof (Z.mod_pos_bound n (2 ^ 7)). pose proof (Z.div_mod n (2 ^ 7)). lia.
Qed.

Lemma varint_digit_byte n (len : bool) : 0 ≤ n → is_byte ((n &' 0x7F) |' (if len then 0x80 else 0x00)).
Proof.
  intros Hn. destruct (varint_low n Hn) as [Hr _]. unfold is_byte.
  destruct len; [|rewrite Z.lor_0_r; lia]. rewrite ScriptNumFacts.lor_0x80 by lia. lia.
Qed.

Lemma readdata8_cons b rest : ser_readdata8 (b :: rest) = Ok (b, rest).
Proof.
  unfold ser_readdata8, ser_readdata. rewrite (reader_bind_step _ _ _ [b] rest).
  - cbn [le_value]. unfold mret, reader_ret. do 2 f_equal. lia.
  - apply (read_app 1 [b]). done.
Qed.

(** One digit read by the loop: [m] is the number so far, [r] the digit. *)
Lemma ReadVarInt_digit w f m r (len : bool) rest :
  (7 ≤ w)%nat → 0 ≤ m → 0 ≤ r < 128 → m * 128 + r ≤ max_u w → (len = true → m * 128 + r < max_u w) →
  ReadVarInt_loop w f m ((r |' (if len then 0x80 else 0x00)) :: rest) =
    if len then match f with O => Err end_of_data | S f => ReadVarInt_loop w f (m * 128 + r + 1) rest end
    else Ok (m * 128 + r, rest).
Proof.
  intros Hw Hm Hr Hmax Hlen.
  assert (m >? max_u w >>' 7 = false) as Hgt.
  { rewrite Z.gtb_ltb. apply Z.ltb_ge. rewrite shr_div by lia. apply Z.div_le_lower_bound; lia. }
  assert (wrap (Z.of_nat w) (m <<' 7) = m * 128) as Hwrap.
  { unfold max_u in Hmax. rewrite shl_mul by lia. apply wrap_small. unfold in_u. change (2 ^ 7) with 128. lia. }
  set (d := r |' _) in *.
  assert (d &' 0x7F = r ∧ (d &' 0x80 =? 0) = negb len) as [Hlow Hbit].
  { assert (is_byte d ∧ d = r + (if len then 128 else 0)) as [Hb Hd].
    { unfold d, is_byte. destruct len; [rewrite ScriptNumFacts.lor_0x80 by lia|rewrite Z.lor_0_r]; lia. }
    rewrite byte_low7, byte_bit7 by done. rewrite Hd. destruct len; cbn [negb].
    - replace (r + 128) with (r + 1 * 128) by lia. rewrite Z.mod_add, Z.mod_small by lia. split; [done|].
      apply Z.ltb_ge. lia.
    - rewrite Z.add_0_r, Z.mod_small by lia. split; [done|]. apply Z.ltb_lt. lia. }
  assert (m * 128 |' r = m * 128 + r) as Hlor.
  { change 128 with (2 ^ 7). apply lor_add_disjoint; lia. }
  destruct f as [|f]; cbn [ReadVarInt_loop]; rewrite (reader_bind_step _ _ _ _ _ (readdata8_cons d rest));
    rewrite Hgt, Hwrap, Hlow, Hlor, Hbit; destruct len; cbn [negb]; try done;
    rewrite (proj2 (Z.eqb_neq _ (max_u w))) by (specialize (Hlen eq_refl); lia); done.
Qed.

Definition cont_digits (f : nat) (n : Z) : bytes := varint_digits f n true [].

(** Reading the continuation digits of [n]. *)
Lemma ReadVarInt_cont w f n g rest :
  (7 ≤ w)%nat → 0 ≤ n < max_u w → n < 128 ^ Z.of_nat (S f) → (length (cont_digits f n) ≤ g)%nat →
  ReadVarInt_loop w g 0 (cont_digits f n ++ rest) =
  ReadVarInt_loop w (g - length (cont_digits f n)) (n + 1) rest.
Proof.
  intros Hw. unfold cont_digits. revert n g rest. induction f as [|f IH]; intros n g rest Hn Hf Hg.
  - cbn [varint_digits app length] in *. destruct (varint_low n) as [Hr E]; [lia|].
    change (128 ^ Z.of_nat 1) with 128 in Hf. assert (n &' 0x7F = n) as Hnn.
    { change 0x7F with (2 ^ 7 - 1). rewrite land_mask by lia. apply Z.mod_small. lia. }
    rewrite (ReadVarInt_digit w _ _ _ true) by (done || lia). rewrite Hnn. destruct g; [lia|].
    replace (S g - 1)%nat with g by lia. f_equal.
  - cbn [varint_digits] in *. destruct (varint_low n) as [Hr E]; [lia|].
    destruct (Z.leb_spec n 0x7F) as [Hle|Hgt].
    { assert (n &' 0x7F = n) as Hnn.
      { change 0x7F with (2 ^ 7 - 1). rewrite land_mask by lia. apply Z.mod_small. lia. }
      cbn [app length] in *. rewrite (ReadVarInt_digit w _ _ _ true) by (done || lia). rewrite Hnn. destruct g; [lia|].
      replace (S g - 1)%nat with g by lia. f_equal. }
    set (d := (n &' 0x7F) |' 0x80) in *. set (q := (n >>' 7) - 1) in *.
    assert (varint_digits f q true [d] = varint_digits f q true [] ++ [d]) as Hdig
      by apply (varint_digits_app f q true [] [d]).
    rewrite Hdig in *. rewrite length_app in *. cbn [length] in *.
    assert (1 ≤ n >>' 7) as Hq by (rewrite shr_div by lia; apply Z.div_le_lower_bound; lia).
    rewrite Nat2Z.inj_succ, Z.pow_succ_r in Hf by lia.
    rewrite <- app_assoc. rewrite IH by lia. cbn [app]. unfold d. rewrite (ReadVarInt_digit w _ _ _ true) by lia.
    destruct (g - length (varint_digits f q true []))%nat as [|g'] eqn:Eg; [lia|].
    replace (g - (length (varint_digits f q true []) + 1))%nat with g' by lia. f_equal. lia.
Qed.

Lemma varint_digits_last f n rest :
  varint_digits f n false rest =
    match f with
    | O => [n &' 0x7F] ++ rest
    | S f => if n <=? 0x7F then [n &' 0x7F] ++ rest
             else cont_digits f ((n >>' 7) - 1) ++ [n &' 0x7F] ++ rest
    end.
Proof.
  destruct f; cbn [varint_digits]; rewrite !Z.lor_0_r; [done|]. case_match; [done|].
  unfold cont_digits. apply (varint_digits_app _ _ _ []).
Qed.

Lemma varint_roundtrip w n rest :
  (7 ≤ w)%nat → 0 ≤ n ≤ max_u w → ReadVarInt w (WriteVarInt w n ++ rest) = Ok (n, rest).
Proof.
  intros Hw Hn. unfold WriteVarInt, ReadVarInt. set (s := varint_digits _ _ _ _ ++ rest).
  destruct (varint_low n) as [Hr E]; [lia|].
  assert (n ≤ 0x7F → n &' 0x7F = n) as Hsmall.
  { intros. change 0x7F with (2 ^ 7 - 1). rewrite land_mask by lia. apply Z.mod_small. lia. }
  assert (128 ^ Z.of_nat ((w + 6) / 7) * 128 > 2 ^ Z.of_nat w) as Hpow.
  { change 128 with (2 ^ 7). rewrite <- Z.pow_mul_r, <- Z.pow_add_r by lia.
    apply Z.lt_gt, Z.pow_lt_mono_r; try lia. rewrite Nat2Z.inj_div.
    pose proof (Z.div_mod (Z.of_nat (w + 6)) 7). pose proof (Z.mod_pos_bound (Z.of_nat (w + 6)) 7). lia. }
  unfold s. rewrite varint_digits_last. destruct ((w + 6) / 7)%nat as [|f] eqn:Ef.
  { pose proof (Nat.div_str_pos (w + 6) 7). lia. }
  destruct (Z.leb_spec n 0x7F) as [Hle|Hgt].
  - cbn [app]. pose proof (ReadVarInt_digit w (length (n &' 0x7F :: rest)) 0 (n &' 0x7F) false rest Hw) as Hd.
    cbv iota in Hd. rewrite Z.lor_0_r in Hd. rewrite Hd by (done || lia). rewrite Hsmall by lia. do 2 f_equal.
  - set (q := (n >>' 7) - 1) in *.
    assert (1 ≤ n >>' 7) by (rewrite shr_div by lia; apply Z.div_le_lower_bound; lia).
    rewrite <- app_assoc. rewrite app_nil_r. rewrite ReadVarInt_cont; [|done|lia| |].
    + cbn [app]. pose proof (λ g, ReadVarInt_digit w g (q + 1) (n &' 0x7F) false rest Hw) as Hd.
      cbv iota in Hd. rewrite Z.lor_0_r in Hd. rewrite Hd by (done || lia). do 2 f_equal. lia.
    + unfold max_u in Hn. rewrite Nat2Z.inj_succ, Z.pow_succ_r in Hpow |- * by lia. lia.
    + rewrite length_app. lia.
Qed.

(** *** Vectors *)

(** Reading in blocks is reading at once. *)
Lemma read_blocks_read f nSize i v s :
  0 ≤ i ≤ nSize → (Z.to_nat (nSize - i) ≤ f)%nat →
  read_blocks f nSize i v s = (d ← read (nSize - i); mret (v ++ d)) s.
Proof.
  revert i v s. induction f as [|f IH]; intros i v s Hi Hf; cbn [read_blocks].
  { assert (nSize - i = 0) as -> by lia. unfold mbind, reader_bind, mret, reader_ret, read.
    rewrite (proj2 (Z.ltb_ge _ 0)) by (unfold size; lia). cbn. by rewrite take_0, drop_0, app_nil_r. }
  destruct (Z.ltb_spec i nSize).
  2:{ assert (nSize - i = 0) as -> by lia. unfold mbind, reader_bind, mret, reader_ret, read.
      rewrite (proj2 (Z.ltb_ge _ 0)) by (unfold size; lia). cbn. by rewrite take_0, drop_0, app_nil_r. }
  set (blk := Z.min (nSize - i) (1 + 4999999)).
  assert (1 ≤ blk ≤ nSize - i) as Hblk by lia. clearbody blk.
  unfold mbind at 1, reader_bind at 1, read at 1. destruct (Z.ltb_spec (size s) blk) as [Hs|Hs].
  { unfold mbind, reader_bind, read. by rewrite (proj2 (Z.ltb_lt (size s) (nSize - i))) by lia. }
  rewrite IH by lia. replace (nSize - (i + blk)) with (nSize - i - blk) by lia.
  unfold mbind, reader_bind, mret, reader_ret, read.
  assert (size (drop (Z.to_nat blk) s) = size s - blk) as Hd by (unfold size in *; rewrite length_drop; lia).
  rewrite Hd. destruct (Z.ltb_spec (size s) (nSize - i)); [by rewrite (proj2 (Z.ltb_lt _ _)) by lia|].
  rewrite (proj2 (Z.ltb_ge _ _)) by lia. rewrite drop_drop, <- app_assoc.
  replace (Z.to_nat (nSize - i)) with (Z.to_nat blk + Z.to_nat (nSize - i - blk))%nat by lia.
  by rewrite take_take_drop.
Qed.

#[global] Instance bytes_serial : Serial bytes := {|
  Serialize := Serialize_bytes;
  Unserialize := Unserialize_bytes;
  serializable v := size v ≤ MAX_SIZE ∧ bytes_ok v
|}.

#[global] Instance bytes_laws : SerialLaws bytes.
Proof.
  split; cbn.
  - intros v rest [Hv _]. unfold Unserialize_bytes, Serialize_bytes. rewrite <- app_assoc.
    assert (0 ≤ size v) by (unfold size; lia).
    erewrite reader_bind_step by (apply compact_size_write; lia).
    rewrite read_blocks_read by lia. erewrite reader_bind_step; [done|]. apply read_app. lia.
  - intros s v rest Hs Hr. unfold Unserialize_bytes in Hr. apply reader_bind_Ok in Hr as (n & s1 & H1 & Hr).
    apply compact_size_read in H1 as (Hn & -> & Hs1); [|done]. rewrite read_blocks_read in Hr by lia.
    apply reader_bind_Ok in Hr as (d & s2 & Hd & Hr). unfold mret, reader_ret in Hr. injection Hr as <- <-.
    apply read_Ok in Hd as [-> Hsz]; [|lia]. cbn [app]. unfold Serialize_bytes.
    replace (size d) with n by lia. apply Forall_app in Hs1 as [Hd _]. rewrite <- app_assoc. naive_solver lia.
Qed.

Section Vector.
Context {A} `{SerialLaws A}.

#[global] Instance vector_serial : Serial (list A) := {|
  Serialize := Serialize_vector;
  Unserialize := Unserialize_vector;
  serializable v := size v ≤ MAX_SIZE ∧ Forall serializable v
|}.

Lemma read_many_write (v : list A) rest :
  Forall serializable v → read_many Unserialize (length v) (concat (Serialize <$> v) ++ rest) = Ok (v, rest).
Proof.
  induction 1 as [|x v Hx _ IH]; [done|]. cbn [length read_many fmap list_fmap concat].
  rewrite <- app_assoc. erewrite reader_bind_step by (by apply unserialize_serialize).
  by erewrite reader_bind_step.
Qed.

Lemma read_many_Ok n s (v : list A) rest :
  bytes_ok s → read_many Unserialize n s = Ok (v, rest) →
  length v = n ∧ Forall serializable v ∧ s = concat (Serialize <$> v) ++ rest ∧ bytes_ok rest.
Proof.
  revert s v. induction n as [|n IH]; intros s v Hs Hr; cbn [read_many] in Hr.
  - inv_read. naive_solver.
  - apply reader_bind_Ok in Hr as (x & s1 & Hx & Hr). apply reader_bind_Ok in Hr as (l & s2 & Hl & Hr).
    unfold mret, reader_ret in Hr. injection Hr as <- <-.
    apply serialize_unserialize in Hx as [Hx ->]; [|done]. apply Forall_app in Hs as [_ Hs].
    apply IH in Hl as (Hlen & Hall & -> & Hrest); [|done].
    cbn [fmap list_fmap concat length]. rewrite <- app_assoc. auto.
Qed.

#[global] Instance vector_laws : SerialLaws (list A).
Proof.
  split; cbn.
  - intros v rest [Hv Hall]. unfold Unserialize_vector, Serialize_vector. rewrite <- app_assoc.
    assert (0 ≤ size v) by (unfold size; lia).
    erewrite reader_bind_step by (apply compact_size_write; lia).
    replace (Z.to_nat (size v)) with (length v) by (unfold size; lia). by apply read_many_write.
  - intros s v rest Hs Hr. unfold Unserialize_vector in Hr. apply reader_bind_Ok in Hr as (n & s1 & H1 & Hr).
    apply compact_size_read in H1 as (Hn & -> & Hs1); [|done].
    apply read_many_Ok in Hr as (Hlen & Hall & -> & _); [|done]. unfold Serialize_vector.
    replace (size v) with n by (unfold size; lia). rewrite <- app_assoc. naive_solver lia.
Qed.
End Vector.

(** ** Main statements *)

(** Compact sizes have one encoding each: a size up to [MAX_SIZE] is read back
    from what was written, and a successful read consumed exactly the encoding
    that [WriteCompactSize] produces, whose length is [GetSizeOfCompactSize]. *)
Theorem compact_size_canonical :
  (∀ nSize rest, 0 ≤ nSize ≤ MAX_SIZE →
     ReadCompactSize (WriteCompactSize nSize ++ rest) = Ok (nSize, rest)) ∧
  (∀ s nSize rest, bytes_ok s → ReadCompactSize s = Ok (nSize, rest) →
     0 ≤ nSize ≤ MAX_SIZE ∧ s = WriteCompactSize nSize ++ rest) ∧
  (∀ nSize, size (WriteCompactSize nSize) = GetSizeOfCompactSize nSize).
Proof.
  split_and!; [intros; by apply compact_size_write| |apply WriteCompactSize_size].
  intros s nSize rest Hs Hr. by apply compact_size_read in Hr as (? & ? & _).
Qed.

(** The variable-length integer of an unsigned type of [w] bits is read back,
    without the overflow errors, for every value of the type, the largest
    included, and both loops end. *)
Theorem varint_read_write w n rest :
  (7 ≤ w)%nat → 0 ≤ n ≤ max_u w → ReadVarInt w (WriteVarInt w n ++ rest) = Ok (n, rest).
Proof. apply varint_roundtrip. Qed.

Lemma varint_read_write_witness :
  ReadVarInt 64 (WriteVarInt 64 (2 ^ 64 - 1) ++ [9]) = Ok (2 ^ 64 - 1, [9]) ∧
  WriteVarInt 64 16511 = [0xFF; 0x7F].
Proof. split; [apply varint_read_write; [lia|unfold max_u; lia]|reflexivity]. Defined.
