(* ===== verification/Transaction.v ===== *)
(** * Transactions (primitives/transaction.h, primitives/transaction.cpp, amount.h) *)
From S2P Require Import Prelude ArithUint256 Script Interpreter InterpreterFacts InterpreterSpecs Serialize.

(** ** Amounts *)

Definition COIN : Z := 100000000.
Definition CENT : Z := 1000000.
Definition MAX_MONEY : Z := 107822406 * COIN + 25 * CENT.
Definition MoneyRange (nValue : Z) : bool := (nValue >=? 0) && (nValue <=? MAX_MONEY).

(** ** Data *)

(** A 256-bit opaque blob is the list of its 32 bytes. *)
Abbreviation uint256 := bytes (only parsing).
Definition null_hash : uint256 := replicate 32 0.
Definition IsNull_hash (h : uint256) : bool := forallb (λ b, b =? 0) h.

Record COutPoint := mk_outpoint { hash : uint256; n : Z }.
Record CTxIn := mk_txin {
  prevout : COutPoint;
  scriptSig : CScript;
  nSequence : Z;
  scriptWitness : list bytes
}.
Record CTxOut := mk_txout { nValue : Z; scriptPubKey : CScript }.
Record CTransaction := mk_tx {
  vin : list CTxIn;
  vout : list CTxOut;
  nVersion : Z;
  nLockTime : Z
}.

#[global] Instance COutPoint_eq_dec : EqDecision COutPoint.
Proof. solve_decision. Defined.
#[global] Program Instance COutPoint_countable : Countable COutPoint :=
  inj_countable' (λ o, (hash o, n o)) (λ p, mk_outpoint p.1 p.2) _.
Next Obligation. by intros []. Qed.
#[global] Instance CTxIn_eq_dec : EqDecision CTxIn.
Proof. solve_decision. Defined.
#[global] Instance CTxOut_eq_dec : EqDecision CTxOut.
Proof. solve_decision. Defined.
#[global] Instance CTransaction_eq_dec : EqDecision CTransaction.
Proof. solve_decision. Defined.

Definition SEQUENCE_FINAL : Z := 0xffffffff.
Definition SEQUENCE_LOCKTIME_TYPE_FLAG : Z := 1 <<' 22.
Definition SEQUENCE_LOCKTIME_MASK : Z := 0x0000ffff.
Definition SEQUENCE_LOCKTIME_GRANULARITY : Z := 9.

Definition null_outpoint : COutPoint := mk_outpoint null_hash 0xffffffff.
Definition IsNull_outpoint (o : COutPoint) : bool := IsNull_hash (hash o) && (n o =? 0xffffffff).

(** [CTxOut()] is the null output; the first output of a coin stake is empty. *)
Definition null_txout : CTxOut := mk_txout (-1) [].
Definition IsNull_txout (o : CTxOut) : bool := nValue o =? -1.
Definition empty_txout : CTxOut := mk_txout 0 [].
Definition IsEmpty_txout (o : CTxOut) : bool := (nValue o =? 0) && (size (scriptPubKey o) =? 0).

Definition IsNull_tx (tx : CTransaction) : bool := (size (vin tx) =? 0) && (size (vout tx) =? 0).

Definition IsCoinBase (tx : CTransaction) : bool :=
  match vin tx with
  | [i] => IsNull_outpoint (prevout i) && (size (vout tx) >=? 1)
  | _ => false
  end.

Definition IsCoinStake (tx : CTransaction) : bool :=
  match vin tx, vout tx with
  | i :: _, o :: _ :: _ => negb (IsNull_outpoint (prevout i)) && IsEmpty_txout o
  | _, _ => false
  end.

Definition IsNormalTx (tx : CTransaction) : bool := negb (IsCoinBase tx) && negb (IsCoinStake tx).

Definition HasWitness (tx : CTransaction) : bool :=
  existsb (λ i, negb (size (scriptWitness i) =? 0)) (vin tx).

Definition HasCreateOrCall (tx : CTransaction) : bool :=
  existsb (λ o, HasOpCreate (scriptPubKey o) || HasOpCall (scriptPubKey o)) (vout tx).
Definition HasOpSpend_tx (tx : CTransaction) : bool := existsb (λ i, HasOpSpend (scriptSig i)) (vin tx).
Definition HasOpCreate_tx (tx : CTransaction) : bool := existsb (λ o, HasOpCreate (scriptPubKey o)) (vout tx).
Definition HasOpCall_tx (tx : CTransaction) : bool := existsb (λ o, HasOpCall (scriptPubKey o)) (vout tx).
Definition OpCall : Z := 1.
Definition OpCreate : Z := 2.
Definition GetCreateOrCall (tx : CTransaction) : Z :=
  (if HasOpCall_tx tx then OpCall else 0) + (if HasOpCreate_tx tx then OpCreate else 0).

(** [GetValueOut]: [Err tt] is the exception it throws.  Each partial sum is
    checked before the next addition, so the 64-bit sum does not wrap; [i64]
    is the addition as the source performs it. *)
Fixpoint GetValueOut_loop (outs : list CTxOut) (nValueOut : Z) : result unit Z :=
  match outs with
  | [] => Ok nValueOut
  | o :: outs =>
      let nValueOut := i64 (nValueOut + nValue o) in
      if negb (MoneyRange (nValue o)) || negb (MoneyRange nValueOut) then Err tt
      else GetValueOut_loop outs nValueOut
  end.
Definition GetValueOut (tx : CTransaction) : result unit Z := GetValueOut_loop (vout tx) 0.

(** ** Serialization *)

#[global] Instance outpoint_serial : Serial COutPoint := {|
  Serialize o := hash o ++ ser_writedata32 (n o);
  Unserialize := h ← read 32; i ← ser_readdata32; mret (mk_outpoint h i);
  serializable o := size (hash o) = 32 ∧ bytes_ok (hash o) ∧ in_u 32 (n o)
|}.

(** The witness of an input is serialized by the transaction. *)
Definition strip_in (i : CTxIn) : CTxIn := mk_txin (prevout i) (scriptSig i) (nSequence i) [].

#[global] Instance txin_serial : Serial CTxIn := {|
  Serialize i := Serialize (prevout i) ++ Serialize (scriptSig i) ++ ser_writedata32 (nSequence i);
  Unserialize := o ← Unserialize; s ← Unserialize; q ← ser_readdata32; mret (mk_txin o s q []);
  serializable i := serializable (prevout i) ∧ serializable (scriptSig i) ∧ in_u 32 (nSequence i)
                    ∧ scriptWitness i = []
|}.

#[global] Instance txout_serial : Serial CTxOut := {|
  Serialize o := ser_writedata64 (u64 (nValue o)) ++ Serialize (scriptPubKey o);
  Unserialize := v ← ser_readdata64; s ← Unserialize; mret (mk_txout (i64 v) s);
  serializable o := in_s 64 (nValue o) ∧ serializable (scriptPubKey o)
|}.

(** [fAllowWitness] is [!(s.GetVersion() & SERIALIZE_TRANSACTION_NO_WITNESS)]. *)
Definition SerializeTransaction (fAllowWitness : bool) (tx : CTransaction) : bytes :=
  let flags := if fAllowWitness && HasWitness tx then 1 else 0 in
  ser_writedata32 (u32 (nVersion tx))
  ++ (if flags =? 0 then [] else Serialize (@nil CTxIn) ++ ser_writedata8 flags)
  ++ Serialize (vin tx)
  ++ Serialize (vout tx)
  ++ (if flags &' 1 =? 0 then [] else concat ((λ i, Serialize (scriptWitness i)) <$> vin tx))
  ++ ser_writedata32 (nLockTime tx).

(** The witness stacks, one per input. *)
Fixpoint read_witnesses (vin : list CTxIn) : reader (list CTxIn) :=
  match vin with
  | [] => mret []
  | i :: vin => w ← Unserialize; l ← read_witnesses vin;
                mret (mk_txin (prevout i) (scriptSig i) (nSequence i) w :: l)
  end.

Definition UnserializeTransaction (fAllowWitness : bool) : reader CTransaction :=
  version ← ser_readdata32;
  vin0 ← (Unserialize : reader (list CTxIn));
  r ← (if (size vin0 =? 0) && fAllowWitness then
         flags ← ser_readdata8;
         if negb (flags =? 0) then
           vin ← Unserialize; vout ← Unserialize; mret (flags, vin, vout)
         else mret (flags, vin0, [])
       else vout ← Unserialize; mret (0, vin0, vout));
  let '(flags, vin, vout) := r : Z * list CTxIn * list CTxOut in
  r ← (if negb (flags &' 1 =? 0) && fAllowWitness
       then vin ← read_witnesses vin; mret (flags ^' 1, vin)
       else mret (flags, vin));
  let '(flags, vin) := r : Z * list CTxIn in
  if negb (flags =? 0) then fail unknown_optional_data
  else locktime ← ser_readdata32; mret (mk_tx vin vout (i32 version) locktime).

(** The transaction id and the witness hash ([SerializeHash]); the hash is an
    argument. *)
Definition GetHash `{Crypto} (tx : CTransaction) : uint256 := CHash256 (SerializeTransaction false tx).
Definition GetWitnessHash `{Crypto} (tx : CTransaction) : uint256 :=
  if negb (HasWitness tx) then GetHash tx else CHash256 (SerializeTransaction true tx).
Definition GetTotalSize (tx : CTransaction) : Z := size (SerializeTransaction true tx).

(** ** Laws *)

Lemma read32_Ok s x rest : bytes_ok s → ser_readdata32 s = Ok (x, rest) →
  s = ser_writedata32 x ++ rest ∧ in_u 32 x ∧ bytes_ok rest.
Proof. intros Hs Hr. apply readdata_Ok in Hr as (-> & Hx & Hr); done. Qed.
Lemma read32_write x rest : in_u 32 x → ser_readdata32 (ser_writedata32 x ++ rest) = Ok (x, rest).
Proof. intros Hx. by apply readdata_write. Qed.
Lemma read64_write x rest : in_u 64 x → ser_readdata64 (ser_writedata64 x ++ rest) = Ok (x, rest).
Proof. intros Hx. by apply readdata_write. Qed.

Lemma i64_u64 x : in_s 64 x → i64 (u64 x) = x.
Proof.
  intros Hx. unfold i64, u64, swrap, wrap. rewrite Zplus_mod_idemp_l. unfold in_s in Hx.
  rewrite Z.mod_small; lia.
Qed.
Lemma i32_u32 x : in_s 32 x → i32 (u32 x) = x.
Proof.
  intros Hx. unfold i32, u32, swrap, wrap. rewrite Zplus_mod_idemp_l. unfold in_s in Hx.
  rewrite Z.mod_small; lia.
Qed.
Lemma u64_i64_id x : in_u 64 x → u64 (i64 x) = x.
Proof. intros Hx. rewrite u64_i64. by apply u64_small. Qed.

#[global] Instance outpoint_laws : SerialLaws COutPoint.
Proof.
  split; cbn.
  - intros [h i] rest (Hh & _ & Hi). cbn in *. rewrite <- app_assoc.
    erewrite reader_bind_step by (by apply read_app). by erewrite reader_bind_step by (by apply read32_write).
  - intros s o rest Hs Hr. apply reader_bind_Ok in Hr as (h & s1 & Hh & Hr).
    apply read_Ok in Hh as [-> Hsz]; [|lia]. apply Forall_app in Hs as [Hh Hs].
    apply reader_bind_Ok in Hr as (i & s2 & Hi & Hr). apply read32_Ok in Hi as (-> & Hi & _); [|done].
    unfold mret, reader_ret in Hr. injection Hr as <- <-. cbn. by rewrite <- app_assoc.
Qed.

#[global] Instance txin_laws : SerialLaws CTxIn.
Proof.
  split; cbn [Serialize Unserialize serializable txin_serial].
  - intros [o s q w] rest (Ho & Hs & Hq & Hw). cbn [prevout scriptSig nSequence scriptWitness] in *.
    subst w. rewrite <- !app_assoc.
    erewrite reader_bind_step by (by apply (unserialize_serialize (A:=COutPoint))).
    erewrite reader_bind_step by (by apply (unserialize_serialize (A:=bytes))).
    by erewrite reader_bind_step by (by apply read32_write).
  - intros s i rest Hs Hr. apply reader_bind_Ok in Hr as (o & s1 & Ho & Hr).
    apply serialize_unserialize in Ho as [Ho ->]; [|done]. apply Forall_app in Hs as [_ Hs].
    apply reader_bind_Ok in Hr as (sc & s2 & Hsc & Hr).
    apply serialize_unserialize in Hsc as [Hsc ->]; [|done]. apply Forall_app in Hs as [_ Hs].
    apply reader_bind_Ok in Hr as (q & s3 & Hq & Hr). apply read32_Ok in Hq as (-> & Hq & _); [|done].
    unfold mret, reader_ret in Hr. injection Hr as <- <-. cbn [prevout scriptSig nSequence scriptWitness].
    rewrite <- !app_assoc. auto.
Qed.

#[global] Instance txout_laws : SerialLaws CTxOut.
Proof.
  split; cbn [Serialize Unserialize serializable txout_serial].
  - intros [v s] rest (Hv & Hs). cbn [nValue scriptPubKey] in *. rewrite <- app_assoc.
    erewrite reader_bind_step by (apply read64_write; auto with bounds).
    erewrite reader_bind_step by (by apply (unserialize_serialize (A:=bytes))). by rewrite i64_u64.
  - intros s o rest Hs Hr. apply reader_bind_Ok in Hr as (v & s1 & Hv & Hr).
    apply readdata_Ok in Hv as (-> & Hv & Hs1); [|done].
    apply reader_bind_Ok in Hr as (sc & s2 & Hsc & Hr). apply serialize_unserialize in Hsc as [Hsc ->]; [|done].
    unfold mret, reader_ret in Hr. injection Hr as <- <-. cbn [nValue scriptPubKey].
    rewrite u64_i64_id, <- app_assoc by done. split; [split; [|done]|done]. by apply swrap_range.
Qed.

(** A transaction as it can appear in a block: at least one input and fields of
    their types. *)
Definition tx_wf (tx : CTransaction) : Prop :=
  vin tx ≠ [] ∧ serializable (strip_in <$> vin tx) ∧ serializable (vout tx) ∧
  Forall (λ i, serializable (scriptWitness i)) (vin tx) ∧ in_s 32 (nVersion tx) ∧ in_u 32 (nLockTime tx).

Definition strip (tx : CTransaction) : CTransaction :=
  mk_tx (strip_in <$> vin tx) (vout tx) (nVersion tx) (nLockTime tx).

Lemma Serialize_vin_strip (l : list CTxIn) : Serialize l = Serialize (strip_in <$> l).
Proof.
  cbn. unfold Serialize_vector. unfold size. rewrite length_fmap. f_equal. f_equal. rewrite <- list_fmap_compose. done.
Qed.

Lemma HasWitness_strip l :
  existsb (λ i, negb (size (scriptWitness i) =? 0)) l = false → strip_in <$> l = l.
Proof.
  induction l as [|[o s q w] l IH]; [done|]. cbn [existsb scriptWitness fmap list_fmap]. intros H.
  apply orb_false_iff in H as [Hw Hl]. apply negb_false_iff, Z.eqb_eq in Hw. unfold size in Hw.
  destruct w; [|cbn in Hw; lia]. f_equal. by apply IH.
Qed.

Lemma read_witnesses_write l rest :
  Forall (λ i, serializable (scriptWitness i)) l →
  read_witnesses (strip_in <$> l) (concat ((λ i, Serialize (scriptWitness i)) <$> l) ++ rest) = Ok (l, rest).
Proof.
  induction 1 as [|[o s q w] l Hw _ IH]; [done|]. cbn [fmap list_fmap read_witnesses concat].
  rewrite <- app_assoc. erewrite reader_bind_step by (by apply (unserialize_serialize (A:=list bytes))).
  by erewrite reader_bind_step.
Qed.

Lemma tx_read_basic (allow : bool) tx rest :
  tx_wf tx → allow && HasWitness tx = false →
  UnserializeTransaction allow (SerializeTransaction allow tx ++ rest) = Ok (strip tx, rest).
Proof.
  intros (Hne & Hin & Hout & Hwit & Hv & Hlt) Hw.
  unfold SerializeTransaction. rewrite Hw. change (0 =? 0) with true. change (0 &' 1 =? 0) with true. cbv iota.
  cbn [app]. rewrite <- !app_assoc. unfold UnserializeTransaction.
  erewrite reader_bind_step by (apply read32_write; auto with bounds).
  rewrite Serialize_vin_strip. erewrite reader_bind_step by (by apply unserialize_serialize).
  assert (size (strip_in <$> vin tx) =? 0 = false) as ->.
  { apply Z.eqb_neq. unfold size. rewrite length_fmap. destruct (vin tx); [done|]. cbn. lia. }
  cbn [andb]. erewrite reader_bind_step.
  2:{ erewrite reader_bind_step by (by apply unserialize_serialize). done. }
  cbv beta iota. change (negb (0 &' 1 =? 0)) with false. cbn [andb].
  erewrite reader_bind_step by done. cbv beta iota. change (negb (0 =? 0)) with false. cbv iota.
  erewrite reader_bind_step by (by apply read32_write). by rewrite i32_u32.
Qed.

Lemma tx_read_extended tx rest :
  tx_wf tx → HasWitness tx = true →
  UnserializeTransaction true (SerializeTransaction true tx ++ rest) = Ok (tx, rest).
Proof.
  intros (Hne & Hin & Hout & Hwit & Hv & Hlt) Hw. unfold SerializeTransaction. rewrite Hw. cbn [andb].
  change (1 =? 0) with false. change (1 &' 1 =? 0) with false. cbv iota. rewrite <- !app_assoc.
  unfold UnserializeTransaction. erewrite reader_bind_step by (apply read32_write; auto with bounds).
  erewrite reader_bind_step by (apply unserialize_serialize; by split; [|constructor]).
  change (size [] =? 0) with true. cbn [andb]. erewrite reader_bind_step.
  2:{ change (ser_writedata8 1) with [1]. cbn [app]. erewrite reader_bind_step by apply readdata8_cons.
      change (negb (1 =? 0)) with true. cbv iota. rewrite Serialize_vin_strip.
      erewrite reader_bind_step by (by apply unserialize_serialize).
      erewrite reader_bind_step by (by apply unserialize_serialize). done. }
  cbv beta iota. change (negb (1 &' 1 =? 0)) with true. cbn [andb]. erewrite reader_bind_step.
  2:{ erewrite reader_bind_step by (by apply read_witnesses_write). done. }
  cbv beta iota. change (negb (1 ^' 1 =? 0)) with false. cbv iota.
  erewrite reader_bind_step by (by apply read32_write). rewrite i32_u32 by done. by destruct tx.
Qed.

(** ** Amounts and kinds of transactions *)

Definition total (outs : list CTxOut) : Z := foldr (λ o acc, nValue o + acc) 0 outs.

Lemma MoneyRange_spec v : MoneyRange v = true ↔ 0 ≤ v ≤ MAX_MONEY.
Proof. unfold MoneyRange. rewrite andb_true_iff, Z.geb_leb, !Z.leb_le. done. Qed.

Lemma total_nonneg outs : Forall (λ o, MoneyRange (nValue o) = true) outs → 0 ≤ total outs.
Proof.
  induction 1 as [|o outs Ho _ IH]; [done|]. apply MoneyRange_spec in Ho. unfold total in *. cbn [foldr]. lia.
Qed.

Lemma GetValueOut_loop_spec outs acc v :
  0 ≤ acc ≤ MAX_MONEY →
  GetValueOut_loop outs acc = Ok v ↔
  Forall (λ o, MoneyRange (nValue o) = true) outs ∧ v = acc + total outs ∧ v ≤ MAX_MONEY.
Proof.
  assert (MAX_MONEY < 2 ^ 62) as Hmax by done.
  revert acc. induction outs as [|o outs IH]; intros acc Hacc; cbn [GetValueOut_loop].
  { unfold total. cbn. split; [intros [= ->]|intros (_ & -> & _)]; [|f_equal; lia]. split_and!; [done|lia|lia]. }
  rewrite Forall_cons. destruct (MoneyRange (nValue o)) eqn:Ho; cbn [negb orb]; [|naive_solver].
  apply MoneyRange_spec in Ho as Ho'. rewrite i64_small by lia.
  destruct (MoneyRange (acc + nValue o)) eqn:Hs; cbn [negb].
  - apply MoneyRange_spec in Hs. rewrite IH by lia. unfold total. cbn [foldr]. fold (total outs). naive_solver lia.
  - split; [done|]. intros ((_ & Hall) & Hv & Hle). pose proof (total_nonneg _ Hall).
    unfold total in Hv. cbn [foldr] in Hv. fold (total outs) in Hv.
    assert (MoneyRange (acc + nValue o) = true); [apply MoneyRange_spec; lia|congruence].
Qed.

Lemma coinbase_coinstake_exclusive tx : IsCoinBase tx = true → IsCoinStake tx = false.
Proof.
  unfold IsCoinBase, IsCoinStake. destruct (vin tx) as [|i []]; try done. intros H.
  apply andb_true_iff in H as [-> _]. by destruct (vout tx) as [|? []].
Qed.

Lemma strip_strip tx : strip (strip tx) = strip tx.
Proof. unfold strip. cbn. by rewrite <- list_fmap_compose. Qed.

Lemma SerializeTransaction_strip tx : SerializeTransaction false (strip tx) = SerializeTransaction false tx.
Proof. unfold SerializeTransaction, strip. cbn [vin vout nVersion nLockTime andb]. by rewrite <- Serialize_vin_strip. Qed.

(** A transaction for examples: one input with a witness, two outputs. *)
Definition sample_tx : CTransaction :=
  mk_tx [mk_txin (mk_outpoint (replicate 32 7) 1) [OP_1] SEQUENCE_FINAL [[1; 2]; []]]
        [mk_txout 5000 [OP_DUP]; mk_txout (2 * COIN) []] 2 17.

Ltac solve_tx_wf :=
  repeat match goal with
  | |- _ ∧ _ => split
  | |- Forall _ _ => constructor
  | |- tx_wf _ => unfold tx_wf
  | |- serializable _ => unfold serializable; simpl
  | |- bytes_ok _ => constructor
  | |- is_byte _ => unfold is_byte
  | |- in_u _ _ => unfold in_u
  | |- in_s _ _ => unfold in_s
  end; first [discriminate | reflexivity | lia | (vm_compute; discriminate)].

Lemma sample_tx_wf : tx_wf sample_tx.
Proof. solve_tx_wf. Qed.

(** ** Main statements *)

(** A transaction with at least one input survives serialization in both
    formats: the extended format keeps it whole, the basic format drops only
    the witness stacks, and the transaction id does not depend on them. *)
Theorem transaction_roundtrip (C : Crypto) tx rest :
  tx_wf tx →
  UnserializeTransaction true (SerializeTransaction true tx ++ rest) = Ok (tx, rest) ∧
  UnserializeTransaction false (SerializeTransaction false tx ++ rest) = Ok (strip tx, rest) ∧
  GetHash (strip tx) = GetHash tx.
Proof.
  intros Hwf. split_and!.
  - destruct (HasWitness tx) eqn:Hw; [by apply tx_read_extended|].
    rewrite tx_read_basic by done. unfold strip. unfold HasWitness in Hw.
    rewrite HasWitness_strip by done. by destruct tx.
  - by apply tx_read_basic.
  - unfold GetHash. by rewrite SerializeTransaction_strip.
Qed.

Lemma transaction_roundtrip_witness :
  UnserializeTransaction true (SerializeTransaction true sample_tx ++ [0]) = Ok (sample_tx, [0]).
Proof. apply (transaction_roundtrip toy_crypto sample_tx [0]), sample_tx_wf. Defined.

(** [GetValueOut] never overflows: it returns the exact sum of the outputs
    when each output and the sum are in the money range, and throws
    otherwise. *)
Theorem get_value_out_exact tx v :
  GetValueOut tx = Ok v ↔
  Forall (λ o, MoneyRange (nValue o) = true) (vout tx) ∧ v = total (vout tx) ∧ v ≤ MAX_MONEY.
Proof. apply GetValueOut_loop_spec. done. Qed.
