(* ===== verification/SigHash.v ===== *)
(** * Signature hashes and the transaction signature checker
      (script/interpreter.cpp: [CTransactionSignatureSerializer], [SignatureHash],
      [GenericTransactionSignatureChecker]; pubkey.h)

    The elliptic-curve verification of a signature is an argument, [Verify]. *)
From S2P Require Import Prelude ArithUint256 Script Interpreter InterpreterFacts InterpreterSpecs Serialize Transaction.

(** ** The in-place serializer *)

Section Serializer.
Context (txTo : CTransaction) (scriptCode : CScript) (nIn : nat) (nHashType : Z).

Definition fAnyoneCanPay : bool := negb (nHashType &' SIGHASH_ANYONECANPAY =? 0).
Definition fHashSingle : bool := nHashType &' 0x1f =? SIGHASH_SINGLE.
Definition fHashNone : bool := nHashType &' 0x1f =? SIGHASH_NONE.

(** The two loops of [SerializeScriptCode]; they end when [GetOp] fails, which
    may leave [it] before the end of the script. *)
Fixpoint count_codeseps (fuel : nat) (it : bytes) (nCodeSeparators : Z) : Z :=
  match fuel with
  | O => nCodeSeparators
  | S fuel =>
      let '(ok, opcode, _, it) := GetScriptOp it in
      if ok then count_codeseps fuel it (if opcode =? OP_CODESEPARATOR then nCodeSeparators + 1 else nCodeSeparators)
      else nCodeSeparators
  end.

(** [s.write(&itBegin[0], it - itBegin - k)]. *)
Definition segment (itBegin it : bytes) (k : nat) : bytes := take (length itBegin - length it - k) itBegin.

Fixpoint copy_segments (fuel : nat) (it itBegin out : bytes) : bytes * bytes * bytes :=
  let '(ok, opcode, _, it) := GetScriptOp it in
  match fuel with
  | O => (out, it, itBegin)
  | S fuel =>
      if ok then
        if opcode =? OP_CODESEPARATOR then copy_segments fuel it it (out ++ segment itBegin it 1)
        else copy_segments fuel it itBegin out
      else (out, it, itBegin)
  end.

Definition SerializeScriptCode : bytes :=
  let nCodeSeparators := count_codeseps (length scriptCode) scriptCode 0 in
  let '(out, it, itBegin) := copy_segments (length scriptCode) scriptCode scriptCode [] in
  WriteCompactSize (size scriptCode - nCodeSeparators) ++ out
  ++ (match itBegin with [] => [] | _ => segment itBegin it 0 end).

Definition no_txin : CTxIn := mk_txin null_outpoint [] SEQUENCE_FINAL [].

Definition SerializeInput (nInput : nat) : bytes :=
  let nInput := if fAnyoneCanPay then nIn else nInput in
  let txin := nth nInput (vin txTo) no_txin in
  Serialize (prevout txin)
  ++ (if negb (nInput =? nIn)%nat then Serialize (@nil Z) else SerializeScriptCode)
  ++ ser_writedata32 (if negb (nInput =? nIn)%nat && (fHashSingle || fHashNone) then 0 else nSequence txin).

Definition SerializeOutput (nOutput : nat) : bytes :=
  if fHashSingle && negb (nOutput =? nIn)%nat then Serialize null_txout
  else Serialize (nth nOutput (vout txTo) null_txout).

Definition SerializeForSignature : bytes :=
  let nInputs := if fAnyoneCanPay then 1%nat else length (vin txTo) in
  let nOutputs := if fHashNone then 0%nat else if fHashSingle then S nIn else length (vout txTo) in
  ser_writedata32 (u32 (nVersion txTo))
  ++ WriteCompactSize (Z.of_nat nInputs) ++ concat (SerializeInput <$> seq 0 nInputs)
  ++ WriteCompactSize (Z.of_nat nOutputs) ++ concat (SerializeOutput <$> seq 0 nOutputs)
  ++ ser_writedata32 (nLockTime txTo).
End Serializer.

(** ** [SignatureHash] *)
Section SignatureHash.
Context `{Crypto}.

Definition GetPrevoutHash (txTo : CTransaction) : uint256 :=
  CHash256 (concat ((λ i, Serialize (prevout i)) <$> vin txTo)).
Definition GetSequenceHash (txTo : CTransaction) : uint256 :=
  CHash256 (concat ((λ i, ser_writedata32 (nSequence i)) <$> vin txTo)).
Definition GetOutputsHash (txTo : CTransaction) : uint256 :=
  CHash256 (concat (Serialize <$> vout txTo)).

Record PrecomputedTransactionData := mk_txdata {
  hashPrevouts : uint256; hashSequence : uint256; hashOutputs : uint256; ready : bool
}.
Definition Precompute (txTo : CTransaction) : PrecomputedTransactionData :=
  if HasWitness txTo
  then mk_txdata (GetPrevoutHash txTo) (GetSequenceHash txTo) (GetOutputsHash txTo) true
  else mk_txdata null_hash null_hash null_hash false.

Definition one_hash : uint256 := 1 :: replicate 31 0.

(** The message hashed for a version 0 witness program. *)
Definition witness_preimage (scriptCode : CScript) (txTo : CTransaction) (nIn : nat) (nHashType amount : Z)
    (cache : option PrecomputedTransactionData) : bytes :=
  let base := nHashType &' 0x1f in
  let anyone := negb (nHashType &' SIGHASH_ANYONECANPAY =? 0) in
  let all := negb (base =? SIGHASH_SINGLE) && negb (base =? SIGHASH_NONE) in
  let cached (f : PrecomputedTransactionData → uint256) (h : uint256) :=
    match cache with Some c => if ready c then f c else h | None => h end in
  let hp := if negb anyone then cached hashPrevouts (GetPrevoutHash txTo) else null_hash in
  let hs := if negb anyone && all then cached hashSequence (GetSequenceHash txTo) else null_hash in
  let ho := if all then cached hashOutputs (GetOutputsHash txTo)
            else if (base =? SIGHASH_SINGLE) && (nIn <? length (vout txTo))%nat
                 then CHash256 (Serialize (nth nIn (vout txTo) null_txout))
                 else null_hash in
  let txin := nth nIn (vin txTo) no_txin in
  ser_writedata32 (u32 (nVersion txTo)) ++ hp ++ hs ++ Serialize (prevout txin) ++ Serialize scriptCode
  ++ ser_writedata64 (u64 amount) ++ ser_writedata32 (nSequence txin) ++ ho
  ++ ser_writedata32 (nLockTime txTo) ++ ser_writedata32 (u32 nHashType).

(** [None] is the failed assertion [nIn < txTo.vin.size()]. *)
Definition SignatureHash (scriptCode : CScript) (txTo : CTransaction) (nIn : nat) (nHashType amount : Z)
    (sigversion : SigVersion) (cache : option PrecomputedTransactionData) : option uint256 :=
  if negb (nIn <? length (vin txTo))%nat then None
  else match sigversion with
  | WITNESS_V0 => Some (CHash256 (witness_preimage scriptCode txTo nIn nHashType amount cache))
  | BASE =>
      if (nHashType &' 0x1f =? SIGHASH_SINGLE) && negb (nIn <? length (vout txTo))%nat then Some one_hash
      else Some (CHash256 (SerializeForSignature txTo scriptCode nIn nHashType ++ ser_writedata32 (u32 nHashType)))
  end.

(** ** Public keys *)

Definition GetLen (chHeader : Z) : Z :=
  if (chHeader =? 2) || (chHeader =? 3) then COMPRESSED_PUBLIC_KEY_SIZE
  else if (chHeader =? 4) || (chHeader =? 6) || (chHeader =? 7) then PUBLIC_KEY_SIZE
  else 0.

(** [CPubKey(vch)]: the key bytes, [None] for an invalid key. *)
Definition CPubKey (vch : bytes) : option bytes :=
  let len := match vch with [] => 0 | h :: _ => GetLen h end in
  if negb (len =? 0) && (len =? size vch) then Some vch else None.

(** ** The transaction signature checker *)

Section Checker.
Context (Verify : bytes → uint256 → bytes → bool).
Context (txTo : CTransaction) (nIn : nat) (amount : Z) (txdata : option PrecomputedTransactionData).

(** The input the checker is for exists, so the assertion of [SignatureHash]
    holds; a missing one is no match here. *)
Definition tx_CheckSig (vchSigIn vchPubKey : bytes) (scriptCode : CScript) (sigversion : SigVersion) : bool :=
  match CPubKey vchPubKey with
  | None => false
  | Some pubkey =>
      match back vchSigIn with
      | None => false
      | Some nHashType =>
          let vchSig := take (length vchSigIn - 1) vchSigIn in
          match SignatureHash scriptCode txTo nIn nHashType amount sigversion txdata with
          | Some sighash => Verify pubkey sighash vchSig
          | None => false
          end
      end
  end.

Definition input : CTxIn := nth nIn (vin txTo) no_txin.

Definition tx_CheckLockTime (nLockTime : Z) : bool :=
  let txLock := Transaction.nLockTime txTo in
  if negb (((txLock <? LOCKTIME_THRESHOLD) && (nLockTime <? LOCKTIME_THRESHOLD)) ||
           ((txLock >=? LOCKTIME_THRESHOLD) && (nLockTime >=? LOCKTIME_THRESHOLD))) then false
  else if nLockTime >? txLock then false
  else if SEQUENCE_FINAL =? nSequence input then false
  else true.

Definition tx_CheckSequence (nSequenceIn : Z) : bool :=
  let txToSequence := nSequence input in
  if u32 (nVersion txTo) <? 2 then false
  else if negb (txToSequence &' SEQUENCE_LOCKTIME_DISABLE_FLAG =? 0) then false
  else
    let nLockTimeMask := SEQUENCE_LOCKTIME_TYPE_FLAG |' SEQUENCE_LOCKTIME_MASK in
    let txToSequenceMasked := txToSequence &' nLockTimeMask in
    let nSequenceMasked := nSequenceIn &' nLockTimeMask in
    if negb (((txToSequenceMasked <? SEQUENCE_LOCKTIME_TYPE_FLAG) && (nSequenceMasked <? SEQUENCE_LOCKTIME_TYPE_FLAG)) ||
             ((txToSequenceMasked >=? SEQUENCE_LOCKTIME_TYPE_FLAG) && (nSequenceMasked >=? SEQUENCE_LOCKTIME_TYPE_FLAG)))
    then false
    else if nSequenceMasked >? txToSequenceMasked then false
    else true.

Definition TransactionSignatureChecker : SignatureChecker :=
  {| CheckSig := tx_CheckSig; CheckLockTime := tx_CheckLockTime; CheckSequence := tx_CheckSequence |}.
End Checker.
End SignatureHash.

(** ** The signature serializer refines serialization of a modified copy *)

(** A script without its OP_CODESEPARATORs; [None] when it does not parse. *)
Fixpoint without_codeseps (fuel : nat) (pc : bytes) : option bytes :=
  match pc with
  | [] => Some []
  | _ =>
      match fuel with
      | O => None
      | S fuel =>
          let '(ok, opcode, _, pc') := GetScriptOp pc in
          if ok then
            rest ← without_codeseps fuel pc';
            Some (if opcode =? OP_CODESEPARATOR then rest else take (length pc - length pc') pc ++ rest)
          else None
      end
  end.

Lemma without_codeseps_step fuel pc c :
  without_codeseps (S fuel) pc = Some c → pc ≠ [] →
  ∃ opcode vch ins pc' rest,
    GetScriptOp pc = (true, opcode, vch, pc') ∧ pc = ins ++ pc' ∧ without_codeseps fuel pc' = Some rest ∧
    ((opcode = OP_CODESEPARATOR ∧ ins = [OP_CODESEPARATOR] ∧ c = rest) ∨
     (opcode ≠ OP_CODESEPARATOR ∧ c = ins ++ rest)).
Proof.
  intros Hc Hne. cbn [without_codeseps] in Hc. destruct pc as [|x pc]; [done|].
  destruct (GetScriptOp (x :: pc)) as [[[ok op] vch] pc'] eqn:Hg. destruct ok; [|done].
  destruct (without_codeseps fuel pc') as [rest|] eqn:Hr; [|done]. cbn in Hc. injection Hc as <-.
  destruct (GetScriptOp_consumes _ _ _ _ Hg) as [_ (ins & E & _)].
  exists op, vch, ins, pc', rest. split_and!; try done.
  destruct (Z.eqb_spec op OP_CODESEPARATOR) as [->|]; [left|right].
  - apply GetScriptOp_opcode in Hg; [|done]. split_and!; try done. rewrite Hg in E.
    apply (app_inj_2 [OP_CODESEPARATOR] ins pc' pc') in E as [? _]; [done|done].
  - split; [done|]. f_equal. apply (f_equal length) in E as El. rewrite length_app in El. cbn [length] in El |- *.
    rewrite El, E, Nat.add_sub. apply take_app_length.
Qed.

Lemma GetScriptOp_nil : GetScriptOp [] = (false, OP_INVALIDOPCODE, [], []).
Proof. done. Qed.

Lemma count_codeseps_spec f pc c k :
  without_codeseps f pc = Some c → count_codeseps f pc k = k + (size pc - size c).
Proof.
  revert pc c k. induction f as [|f IH]; intros pc c k Hc.
  { destruct pc; [|done]. injection Hc as <-. cbn. unfold size. cbn. lia. }
  destruct pc as [|x pc]; [injection Hc as <-; cbn; unfold size; cbn; lia|].
  apply without_codeseps_step in Hc as (op & vch & ins & pc' & rest & Hg & E & Hr & Hcase); [|done].
  cbn [count_codeseps]. rewrite Hg, (IH _ _ _ Hr), E, size_app.
  destruct Hcase as [(-> & -> & ->)|[Hne ->]].
  - change (OP_CODESEPARATOR =? OP_CODESEPARATOR) with true. cbv iota.
    change (size [OP_CODESEPARATOR]) with 1. lia.
  - rewrite (proj2 (Z.eqb_neq _ _) Hne), size_app. lia.
Qed.

Lemma copy_segments_spec f pre pc c out :
  without_codeseps f pc = Some c →
  ∃ out' itBegin, copy_segments f pc (pre ++ pc) out = (out', [], itBegin) ∧ out' ++ itBegin = out ++ pre ++ c.
Proof.
  revert pre pc c out. induction f as [|f IH]; intros pre pc c out Hc.
  { destruct pc; [|done]. injection Hc as <-. cbn. eauto. }
  destruct pc as [|x pc]; [injection Hc as <-; cbn; eauto|].
  apply without_codeseps_step in Hc as (op & vch & ins & pc' & rest & Hg & E & Hr & Hcase); [|done].
  cbn [copy_segments]. rewrite Hg. destruct Hcase as [(-> & -> & ->)|[Hne ->]].
  - change (OP_CODESEPARATOR =? OP_CODESEPARATOR) with true. cbv iota.
    destruct (IH [] pc' rest (out ++ segment (pre ++ x :: pc) pc' 1) Hr) as (out' & b & Hcopy & Hout).
    cbn [app] in Hcopy. exists out', b. split; [done|]. rewrite Hout. cbn [app].
    unfold segment. rewrite E. rewrite length_app. cbn [length app].
    replace (length pre + S (length pc') - length pc' - 1)%nat with (length pre) by lia.
    by rewrite take_app_length, app_assoc.
  - rewrite (proj2 (Z.eqb_neq _ _) Hne). rewrite E, app_assoc.
    destruct (IH (pre ++ ins) pc' rest out Hr) as (out' & b & Hcopy & Hout).
    exists out', b. split; [done|]. by rewrite Hout, !app_assoc.
Qed.

Lemma SerializeScriptCode_spec code c :
  without_codeseps (length code) code = Some c → SerializeScriptCode code = Serialize c.
Proof.
  intros Hc. unfold SerializeScriptCode. rewrite (count_codeseps_spec _ _ _ _ Hc).
  destruct (copy_segments_spec _ [] _ _ [] Hc) as (out & b & Hcopy & Hout). cbn [app] in Hcopy, Hout.
  rewrite Hcopy. cbn. unfold Serialize_bytes. f_equal; [f_equal; lia|]. rewrite <- Hout. f_equal.
  destruct b; [done|]. unfold segment. rewrite !Nat.sub_0_r. apply take_ge. cbn [length]. lia.
Qed.

(** The transaction a signature of type [nHashType] for input [nIn] covers: the
    textbook definition, by modifying a copy. *)
Definition with_script (i : CTxIn) (s : CScript) : CTxIn := mk_txin (prevout i) s (nSequence i) [].
Definition blank_input (zero_seq : bool) (i : CTxIn) : CTxIn :=
  mk_txin (prevout i) [] (if zero_seq then 0 else nSequence i) [].

Definition signing_tx (tx : CTransaction) (code : CScript) (nIn : nat) (nHashType : Z) : CTransaction :=
  let single := fHashSingle nHashType in
  let none := fHashNone nHashType in
  let signed := with_script (nth nIn (vin tx) no_txin) code in
  mk_tx
    (if fAnyoneCanPay nHashType then [signed]
     else imap (λ i txin, if (i =? nIn)%nat then signed else blank_input (single || none) txin) (vin tx))
    (if none then []
     else if single then replicate nIn null_txout ++ [nth nIn (vout tx) null_txout]
     else vout tx)
    (nVersion tx) (nLockTime tx).

Lemma concat_fmap_eq {A B} (f : A → bytes) (g : B → bytes) l k :
  f <$> l = g <$> k → concat (f <$> l) = concat (g <$> k).
Proof. by intros ->. Qed.

Lemma SerializeForSignature_spec tx code c nIn nHashType :
  without_codeseps (length code) code = Some c → (nIn < length (vin tx))%nat →
  SerializeForSignature tx code nIn nHashType = SerializeTransaction false (signing_tx tx c nIn nHashType).
Proof.
  intros Hc Hn. unfold SerializeForSignature, SerializeTransaction. cbn [andb].
  change (0 =? 0) with true. change (0 &' 1 =? 0) with true. cbv iota. cbn [app].
  f_equal. cbn [vin vout signing_tx nLockTime nVersion]. rewrite app_assoc. f_equal; [|rewrite app_assoc; f_equal].
  - cbn [Serialize vector_serial]. unfold Serialize_vector, SerializeInput, size.
    destruct (fAnyoneCanPay nHashType).
    + cbn [length]. f_equal. apply concat_fmap_eq. cbn [seq fmap list_fmap]. f_equal.
      rewrite Nat.eqb_refl. cbn [negb andb]. rewrite (SerializeScriptCode_spec _ _ Hc). done.
    + rewrite length_imap. f_equal. apply concat_fmap_eq, list_eq. intros i.
      rewrite !list_lookup_fmap, list_lookup_imap.
      destruct (vin tx !! i) as [txin|] eqn:Hi.
      * rewrite lookup_seq_lt by (by eapply lookup_lt_Some). cbn [fmap option_fmap option_map Nat.add]. f_equal.
        rewrite nth_lookup, Hi. cbn [default]. unfold id. destruct (Nat.eqb_spec i nIn) as [->|Hne]; cbn [negb andb].
        -- rewrite (SerializeScriptCode_spec _ _ Hc), nth_lookup, Hi. done.
        -- done.
      * rewrite lookup_ge_None in Hi. rewrite lookup_seq_ge by lia. done.
  - cbn [Serialize vector_serial]. unfold Serialize_vector, SerializeOutput, size.
    destruct (fHashNone nHashType); [done|]. destruct (fHashSingle nHashType); cbn [andb].
    + rewrite length_app, length_replicate. cbn [length]. f_equal; [f_equal; lia|].
      apply concat_fmap_eq, list_eq. intros i. rewrite !list_lookup_fmap.
      destruct (decide (i < nIn)%nat); [|destruct (decide (i = nIn)) as [->|]].
      * rewrite lookup_seq_lt, lookup_app_l, lookup_replicate_2 by (rewrite ?length_replicate; lia).
        cbn. destruct (Nat.eqb_spec i nIn); [lia|done].
      * rewrite lookup_seq_lt, lookup_app_r, length_replicate, Nat.sub_diag by (rewrite ?length_replicate; lia).
        cbn. by rewrite Nat.eqb_refl.
      * rewrite lookup_seq_ge by lia. rewrite lookup_app_r, length_replicate by (rewrite length_replicate; lia).
        by rewrite (lookup_ge_None_2 [_]) by (cbn; lia).
    + f_equal. apply concat_fmap_eq, list_eq. intros i. rewrite !list_lookup_fmap.
      destruct (vout tx !! i) as [o|] eqn:Hi.
      * rewrite lookup_seq_lt by (by eapply lookup_lt_Some). cbn. by rewrite nth_lookup, Hi.
      * rewrite lookup_ge_None in Hi. by rewrite lookup_seq_ge by lia.
Qed.

Lemma serializable_nth_in tx i :
  tx_wf tx → (i < length (vin tx))%nat →
  serializable (prevout (nth i (vin tx) no_txin)) ∧ in_u 32 (nSequence (nth i (vin tx) no_txin)).
Proof.
  intros (_ & [_ Hin] & _) Hi. rewrite Forall_fmap in Hin.
  destruct (lookup_lt_is_Some_2 _ _ Hi) as [txin Htx].
  rewrite nth_lookup, Htx. cbn [default]. unfold id.
  pose proof (Forall_lookup_1 _ _ _ _ Hin Htx) as (Ho & _ & Hq & _). done.
Qed.

Lemma signing_tx_wf tx c nIn nHashType :
  tx_wf tx → serializable c → (nIn < length (vin tx))%nat →
  (fHashSingle nHashType = true → (nIn < length (vout tx))%nat) →
  tx_wf (signing_tx tx c nIn nHashType).
Proof.
  intros Hwf Hc Hn Hsingle. destruct (serializable_nth_in tx nIn Hwf Hn) as [Hpo Hseq].
  pose proof Hwf as (Hne & [Hlen Hin] & [Hol Hout] & _ & Hv & Hlt). rewrite Forall_fmap in Hin.
  assert (∀ txin, serializable (strip_in txin) → ∀ z, serializable (strip_in (blank_input z txin))) as Hblank.
  { intros txin (H1 & _ & H3 & _) z. split; [exact H1|]. split; [by split; [|constructor]|]. split; [|done].
    cbn [nSequence strip_in blank_input] in *. destruct z; [unfold in_u; lia|exact H3]. }
  assert (serializable (strip_in (with_script (nth nIn (vin tx) no_txin) c))) as Hsigned by by split_and!.
  unfold size in Hlen, Hol. rewrite length_fmap in Hlen.
  unfold signing_tx, tx_wf. cbn [vin vout nVersion nLockTime].
  refine (conj _ (conj (conj _ _) (conj _ (conj _ (conj Hv Hlt))))).
  - destruct (fAnyoneCanPay nHashType); [done|]. by destruct (vin tx).
  - unfold size. rewrite length_fmap. destruct (fAnyoneCanPay nHashType); [done|]. by rewrite length_imap.
  - rewrite Forall_fmap. destruct (fAnyoneCanPay nHashType); [by apply Forall_singleton|]. apply Forall_lookup_2.
    intros i x. rewrite list_lookup_imap. destruct (vin tx !! i) as [txin|] eqn:Hi; [|done].
    cbn. intros [= <-]. case_match; [done|]. apply Hblank. by eapply Forall_lookup_1 in Hin.
  - destruct (fHashNone nHashType); [by split; [|constructor]|].
    destruct (fHashSingle nHashType); [|done]. specialize (Hsingle eq_refl). split.
    + unfold size. rewrite length_app, length_replicate. cbn [length]. lia.
    + apply Forall_app. split; [apply Forall_replicate; split; [vm_compute; split; congruence|by split; [|constructor]]|]. constructor; [|constructor].
      destruct (lookup_lt_is_Some_2 _ _ Hsingle) as [o Ho]. rewrite nth_lookup, Ho.
      exact (Forall_lookup_1 _ _ _ _ Hout Ho).
  - destruct (fAnyoneCanPay nHashType); [by apply Forall_singleton|]. apply Forall_lookup_2.
    intros i x. rewrite list_lookup_imap. destruct (vin tx !! i) as [txin|]; [|done].
    cbn. intros [= <-]. by case_match.
Qed.

Lemma strip_signing tx c nIn nHashType : strip (signing_tx tx c nIn nHashType) = signing_tx tx c nIn nHashType.
Proof.
  unfold strip, signing_tx. cbn [vin vout nVersion nLockTime]. f_equal.
  destruct (fAnyoneCanPay nHashType); [done|]. apply list_eq. intros i.
  rewrite list_lookup_fmap, list_lookup_imap. destruct (vin tx !! i); [|done]. cbn. by case_match.
Qed.

(** What the two transactions must share when signatures cover the same
    message. *)
Lemma signing_message_inj tx1 tx2 c1 c2 n1 n2 h1 h2 :
  tx_wf (signing_tx tx1 c1 n1 h1) → tx_wf (signing_tx tx2 c2 n2 h2) → in_s 32 h1 → in_s 32 h2 →
  SerializeTransaction false (signing_tx tx1 c1 n1 h1) ++ ser_writedata32 (u32 h1) =
  SerializeTransaction false (signing_tx tx2 c2 n2 h2) ++ ser_writedata32 (u32 h2) →
  signing_tx tx1 c1 n1 h1 = signing_tx tx2 c2 n2 h2 ∧ h1 = h2.
Proof.
  intros H1 H2 Hh1 Hh2 E.
  pose proof (tx_read_basic false _ (ser_writedata32 (u32 h1)) H1 eq_refl) as R1.
  rewrite E, (tx_read_basic false _ _ H2 eq_refl), !strip_signing in R1.
  apply Ok_pair_inj in R1 as [-> E2]. split; [done|]. apply (f_equal le_value) in E2. unfold ser_writedata32 in E2.
  rewrite !ser_writedata_value in E2. change (256 ^ Z.of_nat 4) with (2 ^ 32) in E2.
  rewrite !Z.mod_small in E2 by (apply wrap_range; lia).
  rewrite <- (i32_u32 h1), <- (i32_u32 h2) by done. by rewrite E2.
Qed.

(** ** What a version 0 witness signature covers *)

Lemma ser_writedata_inj k x y r s :
  0 ≤ x < 256 ^ Z.of_nat k → 0 ≤ y < 256 ^ Z.of_nat k →
  ser_writedata k x ++ r = ser_writedata k y ++ s → x = y ∧ r = s.
Proof.
  intros Hx Hy E. pose proof (readdata_write k x r Hx) as R. rewrite E, (readdata_write k y s Hy) in R.
  by apply Ok_pair_inj in R as [-> ->].
Qed.
Lemma ser_writedata32_inj x y r s : in_u 32 x → in_u 32 y → ser_writedata32 x ++ r = ser_writedata32 y ++ s → x = y ∧ r = s.
Proof. apply (ser_writedata_inj 4). Qed.
Lemma ser_signed32_inj x y r s :
  in_s 32 x → in_s 32 y → ser_writedata32 (u32 x) ++ r = ser_writedata32 (u32 y) ++ s → x = y ∧ r = s.
Proof.
  intros Hx Hy E. apply ser_writedata32_inj in E as [E ->]; [|apply wrap_range; lia..].
  by rewrite <- (i32_u32 x), <- (i32_u32 y), E.
Qed.
Lemma ser_signed64_inj x y r s :
  in_s 64 x → in_s 64 y → ser_writedata64 (u64 x) ++ r = ser_writedata64 (u64 y) ++ s → x = y ∧ r = s.
Proof.
  intros Hx Hy E. apply (ser_writedata_inj 8) in E as [E ->]; [|apply (wrap_range 64); lia..].
  by rewrite <- (i64_u64 x), <- (i64_u64 y), E.
Qed.

(** *** The three hashes over all inputs and outputs *)
Section Commitments.
Context (C : Crypto) (tx1 tx2 : CTransaction) (Hw1 : tx_wf tx1) (Hw2 : tx_wf tx2).

Lemma vin_fields tx : tx_wf tx → Forall serializable (prevout <$> vin tx) ∧ Forall (in_u 32) (nSequence <$> vin tx).
Proof.
  intros (_ & [_ Hin] & _). rewrite Forall_fmap in Hin. split; apply Forall_fmap; eapply Forall_impl; try done;
    cbn; tauto.
Qed.

Lemma prevout_hash_commits :
  GetPrevoutHash tx1 = GetPrevoutHash tx2 → prevout <$> vin tx1 = prevout <$> vin tx2 ∨ collision C.
Proof.
  intros [E|?]%CHash256_inj; [left|by right].
  rewrite (list_fmap_compose prevout Serialize (vin tx1) : (λ i, _) <$> _ = _),
    (list_fmap_compose prevout Serialize (vin tx2) : (λ i, _) <$> _ = _) in E. revert E.
  apply (concat_fmap_inj serializable); [|apply serialize_app_inj|by apply vin_fields..].
  intros [h i] (Hh & _) [Hn _]%app_nil. cbn in Hh, Hn. by rewrite Hn in Hh.
Qed.
Lemma sequence_hash_commits :
  GetSequenceHash tx1 = GetSequenceHash tx2 → nSequence <$> vin tx1 = nSequence <$> vin tx2 ∨ collision C.
Proof.
  intros [E|?]%CHash256_inj; [left|by right].
  rewrite (list_fmap_compose nSequence ser_writedata32 (vin tx1) : (λ i, _) <$> _ = _),
    (list_fmap_compose nSequence ser_writedata32 (vin tx2) : (λ i, _) <$> _ = _) in E. revert E.
  apply (concat_fmap_inj (in_u 32)); [done|apply ser_writedata32_inj|by apply vin_fields..].
Qed.
Lemma outputs_hash_commits : GetOutputsHash tx1 = GetOutputsHash tx2 → vout tx1 = vout tx2 ∨ collision C.
Proof.
  intros [E|?]%CHash256_inj; [left|by right]. revert E.
  apply (concat_fmap_inj serializable); [done|apply serialize_app_inj|apply Hw1|apply Hw2].
Qed.
End Commitments.

Lemma vin_field_nth tx i : tx_wf tx → (i < length (vin tx))%nat →
  serializable (prevout (nth i (vin tx) no_txin)) ∧ in_u 32 (nSequence (nth i (vin tx) no_txin)).
Proof.
  intros [Hp Hq]%vin_fields Hi. pose proof (proj1 (Forall_forall _ _) Hp) as Hp'.
  pose proof (proj1 (Forall_forall _ _) Hq) as Hq'. assert (nth i (vin tx) no_txin ∈ vin tx) by (apply list_elem_of_In, nth_In; done).
  split; [apply Hp'|apply Hq']; by apply list_elem_of_fmap_2.
Qed.

Lemma SignatureHash_witness (C : Crypto) code tx nIn nHashType amount h :
  SignatureHash code tx nIn nHashType amount WITNESS_V0 None = Some h →
  (nIn < length (vin tx))%nat ∧ h = CHash256 (witness_preimage code tx nIn nHashType amount None).
Proof.
  unfold SignatureHash. destruct (Nat.ltb_spec nIn (length (vin tx))); [|done]. by intros [= <-].
Qed.

(** The hash types are the last field of the message, found from its end. *)
Lemma witness_preimage_hash_type (C : Crypto) code1 code2 tx1 tx2 n1 n2 h1 h2 a1 a2 :
  in_s 32 h1 → in_s 32 h2 →
  witness_preimage code1 tx1 n1 h1 a1 None = witness_preimage code2 tx2 n2 h2 a2 None → h1 = h2.
Proof.
  intros H1 H2. unfold witness_preimage. rewrite !app_assoc. intros [_ E]%app_inj_2; [|done].
  apply (ser_signed32_inj _ _ [] []); [done..|]. by rewrite !app_nil_r.
Qed.

Lemma CHash256_length (C : Crypto) `{!CryptoSizes C} m : length (CHash256 m) = 32%nat.
Proof. pose proof (CSHA256_size (CSHA256 m)). unfold CHash256, size in *. lia. Qed.
Lemma tx_hashes_length (C : Crypto) `{!CryptoSizes C} tx :
  length (GetPrevoutHash tx) = 32%nat ∧ length (GetSequenceHash tx) = 32%nat ∧ length (GetOutputsHash tx) = 32%nat.
Proof. split_and!; by apply CHash256_length. Qed.

(** ** Main statements *)

(** The in-place serializer is the textbook one.  For a script code that
    parses, what [CTransactionSignatureSerializer] writes is the basic
    serialization of the modified copy of the transaction: code separators
    removed, other inputs blanked, and inputs and outputs dropped as the hash
    type says. *)
Theorem signature_serializer_refines tx scriptCode code nIn nHashType :
  without_codeseps (length scriptCode) scriptCode = Some code → (nIn < length (vin tx))%nat →
  SerializeForSignature tx scriptCode nIn nHashType = SerializeTransaction false (signing_tx tx code nIn nHashType).
Proof. apply SerializeForSignature_spec. Qed.

Lemma signature_serializer_refines_witness :
  SerializeForSignature sample_tx [OP_DUP; OP_CODESEPARATOR; OP_CHECKSIG] 0 SIGHASH_ALL =
  SerializeTransaction false (signing_tx sample_tx [OP_DUP; OP_CHECKSIG] 0 SIGHASH_ALL).
Proof. apply signature_serializer_refines; [reflexivity|cbn; lia]. Defined.

(** Signatures commit to what they cover.  If two pre-segwit signing
    messages are equal, their hash types are equal and so are the transactions
    they cover; with SIGHASH_ALL that is the version, the lock time, every
    output, and the outpoint and sequence number of every input. *)
Theorem sighash_all_commits tx1 tx2 code1 code2 c1 c2 n1 n2 h1 h2 :
  tx_wf tx1 → tx_wf tx2 → serializable c1 → serializable c2 → in_s 32 h1 → in_s 32 h2 →
  without_codeseps (length code1) code1 = Some c1 → without_codeseps (length code2) code2 = Some c2 →
  (n1 < length (vin tx1))%nat → (n2 < length (vin tx2))%nat →
  fHashSingle h1 = false → fHashNone h1 = false → fAnyoneCanPay h1 = false →
  SerializeForSignature tx1 code1 n1 h1 ++ ser_writedata32 (u32 h1) =
  SerializeForSignature tx2 code2 n2 h2 ++ ser_writedata32 (u32 h2) →
  (fHashSingle h2 = true → (n2 < length (vout tx2))%nat) →
  h1 = h2 ∧ nVersion tx1 = nVersion tx2 ∧ nLockTime tx1 = nLockTime tx2 ∧ vout tx1 = vout tx2 ∧
  prevout <$> vin tx1 = prevout <$> vin tx2 ∧ nSequence <$> vin tx1 = nSequence <$> vin tx2.
Proof.
  intros Hw1 Hw2 Hc1 Hc2 Hh1 Hh2 Ho1 Ho2 Hn1 Hn2 Hs Hno Ha E Hs2.
  rewrite (SerializeForSignature_spec _ _ _ _ _ Ho1 Hn1), (SerializeForSignature_spec _ _ _ _ _ Ho2 Hn2) in E.
  apply signing_message_inj in E as [E <-]; try done.
  2:{ apply signing_tx_wf; congruence. }
  2:{ by apply signing_tx_wf. }
  unfold signing_tx in E. rewrite Hs, Hno, Ha in E. injection E as Ein Eout Ev El.
  assert (∀ tx c k, (k < length (vin tx))%nat → ∀ (A : Type) (f : CTxIn → A),
    (∀ i, f (with_script i c) = f i) → (∀ i, f (blank_input false i) = f i) →
    f <$> imap (λ i txin, if (i =? k)%nat then with_script (nth k (vin tx) no_txin) c
                          else blank_input false txin) (vin tx) = f <$> vin tx) as Hproj.
  { intros tx c k Hk A f Hf1 Hf2. apply list_eq. intros i. rewrite !list_lookup_fmap, list_lookup_imap.
    destruct (vin tx !! i) as [txin|] eqn:Hi; [|done]. cbn. f_equal.
    destruct (Nat.eqb_spec i k) as [->|]; [|apply Hf2]. rewrite nth_lookup, Hi. apply Hf1. }
  split_and!; try done.
  - rewrite <- (Hproj tx1 c1 n1 Hn1 _ prevout), <- (Hproj tx2 c2 n2 Hn2 _ prevout) by done.
    cbn in Ein. by rewrite Ein.
  - rewrite <- (Hproj tx1 c1 n1 Hn1 _ nSequence), <- (Hproj tx2 c2 n2 Hn2 _ nSequence) by done.
    cbn in Ein. by rewrite Ein.
Qed.

(** C22: a version 0 witness signature commits to what it covers.  Under
    SIGHASH_ALL two signing hashes are equal only when the hash types, the
    script codes, the amounts spent, the outpoint being spent, the version, the
    lock time, all outputs, and the outpoints and sequence numbers of all
    inputs are equal, unless the double hash has a collision. *)
Theorem witness_sighash_commits (C : Crypto) (Csizes : CryptoSizes C) tx1 tx2 c1 c2 n1 n2 h1 h2 a1 a2 digest :
  tx_wf tx1 → tx_wf tx2 → serializable c1 → serializable c2 →
  in_s 32 h1 → in_s 32 h2 → in_s 64 a1 → in_s 64 a2 →
  fHashSingle h1 = false → fHashNone h1 = false → fAnyoneCanPay h1 = false →
  SignatureHash c1 tx1 n1 h1 a1 WITNESS_V0 None = Some digest →
  SignatureHash c2 tx2 n2 h2 a2 WITNESS_V0 None = Some digest →
  (h1 = h2 ∧ c1 = c2 ∧ a1 = a2 ∧ prevout (nth n1 (vin tx1) no_txin) = prevout (nth n2 (vin tx2) no_txin) ∧
   nVersion tx1 = nVersion tx2 ∧ nLockTime tx1 = nLockTime tx2 ∧ vout tx1 = vout tx2 ∧
   prevout <$> vin tx1 = prevout <$> vin tx2 ∧ nSequence <$> vin tx1 = nSequence <$> vin tx2) ∨ collision C.
Proof.
  intros Hw1 Hw2 Hc1 Hc2 Hh1 Hh2 Ha1 Ha2 Hs Hn Ha [Hn1 ->]%SignatureHash_witness [Hn2 E]%SignatureHash_witness.
  apply CHash256_inj in E as [E|?]; [|by right].
  pose proof (witness_preimage_hash_type _ _ _ _ _ _ _ _ _ _ _ Hh1 Hh2 E) as <-.
  unfold witness_preimage in E. unfold fHashSingle in Hs. unfold fHashNone in Hn. unfold fAnyoneCanPay in Ha.
  rewrite Hs, Hn, Ha in E. cbn [negb andb] in E.
  destruct (vin_field_nth tx1 n1 Hw1 Hn1) as [Hp1 Hq1], (vin_field_nth tx2 n2 Hw2 Hn2) as [Hp2 Hq2].
  pose proof Hw1 as (_ & _ & _ & _ & Hv1 & Hl1). pose proof Hw2 as (_ & _ & _ & _ & Hv2 & Hl2).
  apply ser_signed32_inj in E as [Ev E]; [|done..].
  apply app_inj_1 in E as [Ep E]; [|by rewrite !(proj1 (tx_hashes_length C _))].
  apply app_inj_1 in E as [Es E]; [|by rewrite !(proj1 (proj2 (tx_hashes_length C _)))].
  apply serialize_app_inj in E as [Eo E]; [|done..]. apply serialize_app_inj in E as [-> E]; [|done..].
  apply ser_signed64_inj in E as [-> E]; [|done..]. apply ser_writedata32_inj in E as [_ E]; [|done..].
  apply app_inj_1 in E as [Eout E]; [|by rewrite !(proj2 (proj2 (tx_hashes_length C _)))].
  apply ser_writedata32_inj in E as [El _]; [|done..].
  apply prevout_hash_commits in Ep as [Ep|?]; [|by right|done..].
  apply sequence_hash_commits in Es as [Es|?]; [|by right|done..].
  apply outputs_hash_commits in Eout as [Eout|?]; [|by right|done..]. left. by split_and!.
Qed.

(** The sample transaction before it was signed. *)
Definition unsigned_tx : CTransaction :=
  mk_tx [mk_txin (mk_outpoint (replicate 32 7) 1) [] SEQUENCE_FINAL []] (vout sample_tx) 2 17.

Lemma sighash_all_commits_witness :
  prevout <$> vin sample_tx = prevout <$> vin unsigned_tx.
Proof.
  apply (sighash_all_commits sample_tx unsigned_tx [OP_CODESEPARATOR; OP_1] [OP_1] [OP_1] [OP_1] 0 0
    SIGHASH_ALL SIGHASH_ALL);
    first [apply sample_tx_wf | solve [solve_tx_wf] | reflexivity | (split; [done|by repeat constructor])
          | (cbn; lia) | done | (unfold in_s; vm_compute; split; congruence)].
Defined.

Lemma witness_sighash_commits_witness : 9 = 9 ∨ collision toy_crypto.
Proof.
  destruct (witness_sighash_commits toy_crypto toy_sizes sample_tx unsigned_tx [OP_1] [OP_1] 0 0
    SIGHASH_ALL SIGHASH_ALL 9 9
    (CHash256 (H := toy_crypto) (witness_preimage (H := toy_crypto) [OP_1] sample_tx 0 SIGHASH_ALL 9 None)))
    as [(_ & _ & Ha & _)|Hc]; [..|left; exact Ha|right; exact Hc];
    first [apply sample_tx_wf | solve [solve_tx_wf] | reflexivity | (split; [done|by repeat constructor])
          | (unfold in_s; vm_compute; split; congruence)].
Defined.

(** The cached hashes change nothing: with the precomputed data of the
    transaction, of either kind, [SignatureHash] gives what it gives without
    a cache. *)
Theorem sighash_cache_transparent (C : Crypto) scriptCode tx nIn nHashType amount sigversion :
  SignatureHash scriptCode tx nIn nHashType amount sigversion (Some (Precompute tx)) =
  SignatureHash scriptCode tx nIn nHashType amount sigversion None.
Proof.
  unfold SignatureHash. destruct (negb _); [done|]. destruct sigversion; [done|].
  do 2 f_equal. unfold witness_preimage, Precompute. by destruct (HasWitness tx).
Qed.

(** Hash types leave out exactly what they advertise: under SIGHASH_NONE the
    hash does not depend on the outputs, and under ANYONECANPAY it does not
    depend on the other inputs, in both signature versions. *)
Theorem sighash_scope (C : Crypto) scriptCode tx nIn nHashType amount sigversion outs ins :
  (nIn < length (vin tx))%nat →
  (fHashNone nHashType = true →
     SignatureHash scriptCode (mk_tx (vin tx) outs (nVersion tx) (nLockTime tx)) nIn nHashType amount sigversion None
     = SignatureHash scriptCode tx nIn nHashType amount sigversion None) ∧
  (fAnyoneCanPay nHashType = true → (nIn < length ins)%nat → nth nIn ins no_txin = nth nIn (vin tx) no_txin →
     SignatureHash scriptCode (mk_tx ins (vout tx) (nVersion tx) (nLockTime tx)) nIn nHashType amount sigversion None
     = SignatureHash scriptCode tx nIn nHashType amount sigversion None).
Proof.
  intros Hn. split.
  - intros Hnone. unfold SignatureHash. cbn [vin vout]. destruct (negb _); [done|].
    unfold fHashNone in Hnone. apply Z.eqb_eq in Hnone as E. destruct sigversion.
    + rewrite E. change (SIGHASH_NONE =? SIGHASH_SINGLE) with false. cbn [andb].
      unfold SerializeForSignature, fHashNone. rewrite E. done.
    + unfold witness_preimage. cbn [vin vout nVersion nLockTime]. rewrite E. done.
  - intros Hany Hi Hnth. unfold SignatureHash. cbn [vin vout].
    rewrite (proj2 (Nat.ltb_lt nIn (length ins)) Hi), (proj2 (Nat.ltb_lt _ _) Hn). cbn [negb].
    unfold fAnyoneCanPay in Hany. destruct sigversion.
    + destruct (_ && _); [done|]. do 2 f_equal. unfold SerializeForSignature, SerializeInput, fAnyoneCanPay.
      cbn [vin vout nVersion nLockTime]. rewrite Hany. cbn [seq fmap list_fmap concat]. by rewrite Hnth.
    + unfold witness_preimage. cbn [vin vout nVersion nLockTime]. by rewrite Hany, Hnth.
Qed.

Lemma sighash_scope_witness :
  SignatureHash (H:=toy_crypto) [OP_1] (mk_tx (vin sample_tx) [] 2 17) 0 SIGHASH_NONE 5 BASE None =
  SignatureHash (H:=toy_crypto) [OP_1] sample_tx 0 SIGHASH_NONE 5 BASE None.
Proof. apply (sighash_scope toy_crypto [OP_1] sample_tx 0 SIGHASH_NONE 5 BASE [] []); [cbn; lia|reflexivity]. Defined.
