(* ===== verification/Standard.v ===== *)
(** * Standard scripts and destinations (script/standard.cpp, script/standard.h,
      silubium/silubiumtransaction.h) *)
From S2P Require Import Prelude ArithUint256 Script Interpreter InterpreterFacts InterpreterSpecs StandardScripts Serialize Transaction SigHash.

Inductive txnouttype :=
  | TX_NONSTANDARD | TX_PUBKEY | TX_PUBKEYHASH | TX_SCRIPTHASH | TX_MULTISIG | TX_NULL_DATA
  | TX_WITNESS_V0_SCRIPTHASH | TX_WITNESS_V0_KEYHASH | TX_WITNESS_UNKNOWN | TX_CREATE | TX_CALL.
#[global] Instance txnouttype_eq_dec : EqDecision txnouttype.
Proof. solve_decision. Defined.

Definition STANDARD_MINIMUM_GAS_LIMIT : Z := 10000.
Definition STANDARD_MINIMUM_GAS_PRICE : Z := 1.
Definition MAX_BLOCK_GAS_LIMIT_DGP : Z := 1000000000.
Definition DEFAULT_BLOCK_GAS_LIMIT_DGP : Z := 40000000.

(** ** Contract versions

    [VersionVM] is a packed 32-bit record: two bits of format and six of
    [rootVM] in the first byte, then the version byte and 16 bits of flags. *)
Record VersionVM := mk_version { format : Z; rootVM : Z; vmVersion : Z; flagOptions : Z }.
Definition toRaw (v : VersionVM) : Z :=
  format v |' (rootVM v <<' 2) |' (vmVersion v <<' 8) |' (flagOptions v <<' 16).
Definition fromRaw (val : Z) : VersionVM :=
  mk_version (val &' 0x3) ((val >>' 2) &' 0x3f) ((val >>' 8) &' 0xff) ((val >>' 16) &' 0xffff).
Definition GetNoExec : VersionVM := mk_version 0 0 0 0.
Definition GetEVMDefault : VersionVM := mk_version 0 1 0 0.

(** ** [Solver] *)

(** The templates, in the order of the multimap (by type). *)
Definition mTemplates : list (txnouttype * CScript) := [
  (TX_PUBKEY, [OP_PUBKEY; OP_CHECKSIG]);
  (TX_PUBKEYHASH, [OP_DUP; OP_HASH160; OP_PUBKEYHASH; OP_EQUALVERIFY; OP_CHECKSIG]);
  (TX_MULTISIG, [OP_SMALLINTEGER; OP_PUBKEYS; OP_SMALLINTEGER; OP_CHECKMULTISIG]);
  (TX_CREATE, [OP_VERSION; OP_GAS_LIMIT; OP_GAS_PRICE; OP_DATA; OP_CREATE]);
  (TX_CALL, [OP_VERSION; OP_GAS_LIMIT; OP_GAS_PRICE; OP_DATA; OP_PUBKEYHASH; OP_CALL])
].

(** The loop under OP_PUBKEYS: what is left in the variables when it ends. *)
Fixpoint collect_pubkeys (fuel : nat) (opcode1 : Z) (vch1 pc1 : bytes) (vSolutions : list bytes)
  : Z * bytes * bytes * list bytes :=
  match fuel with
  | O => (opcode1, vch1, pc1, vSolutions)
  | S fuel =>
      if (33 <=? size vch1) && (size vch1 <=? 65) then
        let vSolutions := vSolutions ++ [vch1] in
        let '(ok, opcode1, vch1, pc1) := GetScriptOp pc1 in
        if ok then collect_pubkeys fuel opcode1 vch1 pc1 vSolutions
        else (opcode1, vch1, pc1, vSolutions)
      else (opcode1, vch1, pc1, vSolutions)
  end.

(** One instruction against one template opcode: go on with these solutions and
    this [version.rootVM], try the next template, or return false. *)
Inductive op_match := Next (vSolutions : list bytes) (rootVM : Z) | NoMatch | Reject.

Definition gas_limit_ok (contractConsensus : bool) (root val : Z) : bool :=
  if contractConsensus then
    negb ((negb (root =? 0) && (val <? 1)) || (val >? MAX_BLOCK_GAS_LIMIT_DGP))
  else
    negb ((negb (root =? 0) && (val <? STANDARD_MINIMUM_GAS_LIMIT)) || (val >? DEFAULT_BLOCK_GAS_LIMIT_DGP / 2)).
Definition gas_price_ok (contractConsensus : bool) (root val : Z) : bool :=
  if contractConsensus then negb (negb (root =? 0) && (val <? 1))
  else negb (negb (root =? 0) && (val <? STANDARD_MINIMUM_GAS_PRICE)).

Definition match_opcode (contractConsensus : bool) (opcode1 : Z) (vch1 : bytes) (opcode2 : Z) (vch2 : bytes)
    (sols : list bytes) (root : Z) : op_match :=
  if opcode2 =? OP_PUBKEY then
    if (size vch1 <? 33) || (size vch1 >? 65) then NoMatch else Next (sols ++ [vch1]) root
  else if opcode2 =? OP_PUBKEYHASH then
    if negb (size vch1 =? 20) then NoMatch else Next (sols ++ [vch1]) root
  else if opcode2 =? OP_SMALLINTEGER then
    if (opcode1 =? OP_0) || ((opcode1 >=? OP_1) && (opcode1 <=? OP_16))
    then Next (sols ++ [[DecodeOP_N opcode1]]) root else NoMatch
  else if opcode2 =? OP_VERSION then
    if (0 <=? opcode1) && (opcode1 <=? OP_PUSHDATA4) then
      if (size vch1 =? 0) || (size vch1 >? 4) || negb (default 0 (back vch1) &' 0x80 =? 0) then Reject
      else match ScriptNum.vch_to_uint64 vch1 with
           | Err _ => Reject
           | Ok raw =>
               let version := fromRaw (u32 raw) in
               if (toRaw version =? toRaw GetEVMDefault) || (toRaw version =? toRaw GetNoExec)
               then Next sols (rootVM version) else Reject
           end
    else Next sols root
  else if opcode2 =? OP_GAS_LIMIT then
    match ScriptNum.vch_to_uint64 vch1 with
    | Err _ => Reject
    | Ok val => if gas_limit_ok contractConsensus root val then Next sols root else Reject
    end
  else if opcode2 =? OP_GAS_PRICE then
    match ScriptNum.vch_to_uint64 vch1 with
    | Err _ => Reject
    | Ok val => if gas_price_ok contractConsensus root val then Next sols root else Reject
    end
  else if opcode2 =? OP_DATA then
    if (0 <=? opcode1) && (opcode1 <=? OP_PUSHDATA4) && (size vch1 =? 0) then NoMatch else Next sols root
  else if negb (opcode1 =? opcode2) || negb (bool_decide (vch1 = vch2)) then NoMatch
  else Next sols root.

(** The [while (true)] of one template; each iteration reads an opcode of the
    template, so its length bounds the loop. *)
Fixpoint match_template (fuel : nat) (contractConsensus : bool) (pc1 pc2 : bytes) (sols : list bytes) (root : Z)
  : op_match :=
  match pc1, pc2 with
  | [], [] => Next sols root
  | _, _ =>
      match fuel with
      | O => NoMatch
      | S fuel =>
          let '(ok1, opcode1, vch1, pc1) := GetScriptOp pc1 in
          if negb ok1 then NoMatch else
          let '(ok2, opcode2, vch2, pc2) := GetScriptOp pc2 in
          if negb ok2 then NoMatch else
          if opcode2 =? OP_PUBKEYS then
            let '(opcode1, vch1, pc1, sols) := collect_pubkeys (S (length pc1)) opcode1 vch1 pc1 sols in
            let '(ok2, opcode2, vch2, pc2) := GetScriptOp pc2 in
            if negb ok2 then NoMatch else
            match match_opcode contractConsensus opcode1 vch1 opcode2 vch2 sols root with
            | Next sols root => match_template fuel contractConsensus pc1 pc2 sols root
            | r => r
            end
          else
            match match_opcode contractConsensus opcode1 vch1 opcode2 vch2 sols root with
            | Next sols root => match_template fuel contractConsensus pc1 pc2 sols root
            | r => r
            end
      end
  end.

Definition multisig_check (sols : list bytes) : bool :=
  let m := at_ (default [] (head sols)) 0 in
  let n := at_ (default [] (back sols)) 0 in
  negb ((m <? 1) || (n <? 1) || (m >? n) || negb (size sols - 2 =? n)).

(** [version.rootVM] starts at the invalid value 20 for each template. *)
Fixpoint scan_templates (tplates : list (txnouttype * CScript)) (contractConsensus : bool) (script1 : CScript)
  : option (txnouttype * list bytes) :=
  match tplates with
  | [] => None
  | (ty, script2) :: tplates =>
      match match_template (length script2) contractConsensus script1 script2 [] 20 with
      | Next sols _ =>
          if bool_decide (ty = TX_MULTISIG) && negb (multisig_check sols) then None else Some (ty, sols)
      | NoMatch => scan_templates tplates contractConsensus script1
      | Reject => None
      end
  end.

(** [Some] is the value true with the type and solutions it returns. *)
Definition Solver (scriptPubKey : CScript) (contractConsensus : bool) : option (txnouttype * list bytes) :=
  if IsPayToScriptHash scriptPubKey then Some (TX_SCRIPTHASH, [take 20 (drop 2 scriptPubKey)])
  else match IsWitnessProgram scriptPubKey with
  | Some (witnessversion, witnessprogram) =>
      if (witnessversion =? 0) && (size witnessprogram =? WITNESS_V0_KEYHASH_SIZE)
      then Some (TX_WITNESS_V0_KEYHASH, [witnessprogram])
      else if (witnessversion =? 0) && (size witnessprogram =? WITNESS_V0_SCRIPTHASH_SIZE)
      then Some (TX_WITNESS_V0_SCRIPTHASH, [witnessprogram])
      else if negb (witnessversion =? 0)
      then Some (TX_WITNESS_UNKNOWN, [[u8 witnessversion]; witnessprogram])
      else None
  | None =>
      if (size scriptPubKey >=? 1) && (at_ scriptPubKey 0 =? OP_RETURN) && IsPushOnly (drop 1 scriptPubKey)
      then Some (TX_NULL_DATA, [])
      else scan_templates mTemplates contractConsensus scriptPubKey
  end.

(** ** Destinations *)

Inductive CTxDestination :=
  | CNoDestination
  | CKeyID (h : bytes)
  | CScriptID (h : bytes)
  | WitnessV0ScriptHash (h : bytes)
  | WitnessV0KeyHash (h : bytes)
  | WitnessUnknown (version : Z) (program : bytes).

Section Destinations.
Context `{Crypto}.

Definition GetID (pubkey : bytes) : bytes := CHash160 pubkey.

Definition ExtractDestination (scriptPubKey : CScript) : option CTxDestination :=
  match Solver scriptPubKey false with
  | None => None
  | Some (whichType, vSolutions) =>
      let s0 := nth 0 vSolutions [] in
      match whichType with
      | TX_PUBKEY => pubKey ← CPubKey s0; Some (CKeyID (GetID pubKey))
      | TX_PUBKEYHASH => Some (CKeyID s0)
      | TX_SCRIPTHASH => Some (CScriptID s0)
      | TX_WITNESS_V0_KEYHASH => Some (WitnessV0KeyHash s0)
      | TX_WITNESS_V0_SCRIPTHASH => Some (WitnessV0ScriptHash s0)
      | TX_WITNESS_UNKNOWN => Some (WitnessUnknown (at_ s0 0) (nth 1 vSolutions []))
      | _ => None
      end
  end.

(** The destinations and the number of signatures required. *)
Definition ExtractDestinations (scriptPubKey : CScript) : option (txnouttype * list CTxDestination * Z) :=
  match Solver scriptPubKey false with
  | None => None
  | Some (typeRet, vSolutions) =>
      match typeRet with
      | TX_NULL_DATA => None
      | TX_MULTISIG =>
          let keys := take (length vSolutions - 2) (drop 1 vSolutions) in
          let addressRet := omap (λ k, (λ p, CKeyID (GetID p)) <$> CPubKey k) keys in
          if size addressRet =? 0 then None
          else Some (typeRet, addressRet, at_ (nth 0 vSolutions []) 0)
      | _ => address ← ExtractDestination scriptPubKey; Some (typeRet, [address], 1)
      end
  end.

Definition GetScriptForDestination (dest : CTxDestination) : CScript :=
  match dest with
  | CNoDestination => []
  | CKeyID keyID =>
      push_opcode (push_opcode (push_data (push_opcode (push_opcode [] OP_DUP) OP_HASH160) keyID)
        OP_EQUALVERIFY) OP_CHECKSIG
  | CScriptID scriptID => push_opcode (push_data (push_opcode [] OP_HASH160) scriptID) OP_EQUAL
  | WitnessV0KeyHash id => push_data (push_opcode [] OP_0) id
  | WitnessV0ScriptHash id => push_data (push_opcode [] OP_0) id
  | WitnessUnknown version program => push_data (push_opcode [] (EncodeOP_N version)) program
  end.

Definition GetScriptForRawPubKey (pubKey : bytes) : CScript := push_opcode (push_data [] pubKey) OP_CHECKSIG.

Definition GetScriptForMultisig (nRequired : Z) (keys : list bytes) : CScript :=
  push_opcode (push_opcode
    (foldl (λ script key, push_data script key) (push_opcode [] (EncodeOP_N nRequired)) keys)
    (EncodeOP_N (size keys))) OP_CHECKMULTISIG.

Definition GetScriptForWitness (redeemscript : CScript) : CScript :=
  match Solver redeemscript false with
  | Some (TX_PUBKEY, s :: _) => GetScriptForDestination (WitnessV0KeyHash (CHash160 s))
  | Some (TX_PUBKEYHASH, s :: _) => GetScriptForDestination (WitnessV0KeyHash s)
  | _ => GetScriptForDestination (WitnessV0ScriptHash (CSHA256 redeemscript))
  end.

Definition IsValidDestination (dest : CTxDestination) : bool :=
  match dest with CNoDestination => false | _ => true end.
Definition IsValidContractSenderAddress (dest : CTxDestination) : bool :=
  match dest with CKeyID _ => true | _ => false end.
End Destinations.

(** ** Destinations and their scripts *)

Lemma push_data_small (script d : bytes) : size d < 76 → push_data script d = script ++ size d :: d.
Proof.
  intros Hd. pose proof (size_nonneg d). unfold push_data, OP_PUSHDATA1.
  rewrite (proj2 (Z.ltb_lt _ _)) by lia. rewrite u8_id by (unfold is_byte; lia). done.
Qed.

Definition dest_ok (d : CTxDestination) : Prop :=
  match d with
  | CNoDestination => False
  | CKeyID h | CScriptID h | WitnessV0KeyHash h => size h = 20
  | WitnessV0ScriptHash h => size h = 32
  | WitnessUnknown v p => 1 ≤ v ≤ 16 ∧ 2 ≤ size p ≤ 40
  end.

Lemma Solver_witness v p cc :
  0 ≤ v ≤ 16 → 2 ≤ size p ≤ 40 →
  Solver ([EncodeOP_N v; size p] ++ p) cc =
    if (v =? 0) && (size p =? WITNESS_V0_KEYHASH_SIZE) then Some (TX_WITNESS_V0_KEYHASH, [p])
    else if (v =? 0) && (size p =? WITNESS_V0_SCRIPTHASH_SIZE) then Some (TX_WITNESS_V0_SCRIPTHASH, [p])
    else if negb (v =? 0) then Some (TX_WITNESS_UNKNOWN, [[u8 v]; p]) else None.
Proof.
  intros Hv Hp. unfold Solver.
  rewrite (proj2 (IsWitnessProgram_spec _ v p)) by (split_and!; done || lia).
  assert (IsPayToScriptHash ([EncodeOP_N v; size p] ++ p) = false) as ->; [|done].
  unfold IsPayToScriptHash. assert (EncodeOP_N v ≠ OP_HASH160) as Hne.
  { unfold EncodeOP_N, OP_0, OP_1, OP_HASH160. destruct (v =? 0); lia. }
  unfold at_ at 1. cbn [app nth]. rewrite (proj2 (Z.eqb_neq _ _) Hne). by rewrite andb_false_r.
Qed.

Lemma list_20 (h : bytes) : size h = 20 →
  ∃ a b c d e f g i j k l m n o p q r s t u, h = [a; b; c; d; e; f; g; i; j; k; l; m; n; o; p; q; r; s; t; u].
Proof.
  unfold size. intros Hh. do 20 (destruct h as [|? h]; [cbn in Hh; lia|]).
  destruct h; [|cbn in Hh; lia]. by do 20 eexists.
Qed.

Lemma Solver_p2pkh h cc : size h = 20 → Solver (GetScriptForDestination (CKeyID h)) cc = Some (TX_PUBKEYHASH, [h]).
Proof. intros Hh. destruct (list_20 h Hh) as (? & ? & ? & ? & ? & ? & ? & ? & ? & ? & ? & ? & ? & ? & ? & ? & ? & ? & ? & ? & ->). by vm_compute. Qed.

Lemma Solver_p2sh h cc : size h = 20 → Solver (GetScriptForDestination (CScriptID h)) cc = Some (TX_SCRIPTHASH, [h]).
Proof. intros Hh. destruct (list_20 h Hh) as (? & ? & ? & ? & ? & ? & ? & ? & ? & ? & ? & ? & ? & ? & ? & ? & ? & ? & ? & ? & ->). by vm_compute. Qed.

Lemma ExtractDestination_roundtrip (C : Crypto) d :
  dest_ok d → ExtractDestination (GetScriptForDestination d) = Some d.
Proof.
  intros Hd. unfold ExtractDestination. destruct d as [|h|h|h|h|v p]; cbn [dest_ok] in Hd; try done.
  - by rewrite Solver_p2pkh.
  - by rewrite Solver_p2sh.
  - cbn [GetScriptForDestination]. rewrite push_data_small by lia.
    change (push_opcode [] OP_0 ++ size h :: h) with ([EncodeOP_N 0; size h] ++ h).
    rewrite Solver_witness by lia. by rewrite Hd.
  - cbn [GetScriptForDestination]. rewrite push_data_small by lia.
    change (push_opcode [] OP_0 ++ size h :: h) with ([EncodeOP_N 0; size h] ++ h).
    rewrite Solver_witness by lia. by rewrite Hd.
  - cbn [GetScriptForDestination]. rewrite push_data_small by lia. unfold push_opcode. cbn [app].
    assert (is_byte (EncodeOP_N v)) by (unfold is_byte, EncodeOP_N, OP_0, OP_1; case_match; lia).
    rewrite u8_id by done. change (EncodeOP_N v :: size p :: p) with ([EncodeOP_N v; size p] ++ p).
    rewrite Solver_witness by lia. rewrite (proj2 (Z.eqb_neq v 0)) by lia. cbn [andb negb nth at_].
    by rewrite u8_id by (unfold is_byte; lia).
Qed.

(** ** Contract outputs *)

Lemma match_template_push f cc x rest op2 pc2 sols root :
  size x < 2 ^ 32 → OP_PUSHDATA4 < op2 → op2 ≠ OP_PUBKEYS →
  match_template (S f) cc (push_data [] x ++ rest) (op2 :: pc2) sols root =
    match match_opcode cc (push_opcode_for (size x)) x op2 [] sols root with
    | Next sols root => match_template f cc rest pc2 sols root
    | r => r
    end.
Proof.
  intros Hx Hop Hpk. cbn [match_template].
  assert (GetScriptOp (op2 :: pc2) = (true, op2, [], pc2)) as Hg.
  { cbn [GetScriptOp]. by rewrite (proj2 (Z.leb_gt _ _)) by lia. }
  destruct (push_data [] x ++ rest) as [|y l] eqn:E.
  { destruct (push_data [] x) eqn:Ep; [by apply push_data_ne in Ep|done]. }
  rewrite <- E, GetScriptOp_push by done. cbn [negb]. rewrite Hg. cbn [negb].
  by rewrite (proj2 (Z.eqb_neq _ _) Hpk).
Qed.

(** A number a contract script can carry: at most 8 bytes, positive sign. *)
Definition gas_value (vch : bytes) (val : Z) : Prop := ScriptNum.vch_to_uint64 vch = Ok val ∧ size vch ≤ 8.

Lemma contract_args_match f cc gl gp d rest tl lim price :
  gas_value gl lim → gas_value gp price → 0 < size d ≤ MAX_SCRIPT_ELEMENT_SIZE →
  gas_limit_ok cc 1 lim = true → gas_price_ok cc 1 price = true →
  match_template (S (S (S (S f)))) cc (pushes [[4]; gl; gp; d] ++ rest)
    (OP_VERSION :: OP_GAS_LIMIT :: OP_GAS_PRICE :: OP_DATA :: tl) [] 20 = match_template f cc rest tl [] 1.
Proof.
  intros [Hgl Hgls] [Hgp Hgps] Hd Hlim Hprice. unfold MAX_SCRIPT_ELEMENT_SIZE in Hd.
  change (pushes [[4]; gl; gp; d]) with (push_data [] [4] ++ push_data [] gl ++ push_data [] gp ++ push_data [] d ++ []).
  rewrite app_nil_r, <- !app_assoc.
  rewrite match_template_push by done.
  change (match_opcode cc (push_opcode_for (size [4])) [4] OP_VERSION [] [] 20) with (Next [] 1). cbv iota.
  rewrite match_template_push by (done || lia).
  change (match_opcode cc ?o gl OP_GAS_LIMIT [] [] 1) with
    (match ScriptNum.vch_to_uint64 gl with
     | Err _ => Reject | Ok val => if gas_limit_ok cc 1 val then Next [] 1 else Reject end).
  rewrite Hgl, Hlim. rewrite match_template_push by (done || lia).
  change (match_opcode cc ?o gp OP_GAS_PRICE [] [] 1) with
    (match ScriptNum.vch_to_uint64 gp with
     | Err _ => Reject | Ok val => if gas_price_ok cc 1 val then Next [] 1 else Reject end).
  rewrite Hgp, Hprice. rewrite match_template_push by (done || lia).
  change (match_opcode cc ?o d OP_DATA [] [] 1) with
    (if (0 <=? o) && (o <=? OP_PUSHDATA4) && (size d =? 0) then NoMatch else Next [] 1).
  by rewrite (proj2 (Z.eqb_neq (size d) 0)), andb_false_r by lia.
Qed.

(** A script that starts with a one-byte push matches none of the payment
    templates. *)
Lemma Solver_contract cc rest :
  Solver (push_data [] [4] ++ rest) cc =
    scan_templates (drop 3 mTemplates) cc (push_data [] [4] ++ rest).
Proof.
  change (push_data [] [4]) with [1; 4]. unfold Solver.
  assert (IsPayToScriptHash ([1; 4] ++ rest) = false) as ->.
  { unfold IsPayToScriptHash. cbn [app at_ nth]. change (1 =? OP_HASH160) with false. by rewrite andb_false_r. }
  assert (IsWitnessProgram ([1; 4] ++ rest) = None) as ->.
  { unfold IsWitnessProgram. destruct (_ || _); done. }
  change (at_ ([1; 4] ++ rest) 0) with 1. change (1 =? OP_RETURN) with false. rewrite andb_false_r. cbn [andb].
  unfold mTemplates. cbn [drop]. cbn [scan_templates length].
  pose proof (λ f op2 pc2, match_template_push f cc [4] rest op2 pc2 [] 20 ltac:(done)) as Hm.
  change (push_data [] [4]) with [1; 4] in Hm. rewrite !(Hm _ OP_PUBKEY), !(Hm _ OP_DUP), !(Hm _ OP_SMALLINTEGER) by done.
  done.
Qed.

Lemma solve_create cc gl gp d lim price :
  gas_value gl lim → gas_value gp price → 0 < size d ≤ MAX_SCRIPT_ELEMENT_SIZE →
  gas_limit_ok cc 1 lim = true → gas_price_ok cc 1 price = true →
  Solver (pushes [[4]; gl; gp; d] ++ [OP_CREATE]) cc = Some (TX_CREATE, []).
Proof.
  intros Hgl Hgp Hd Hlim Hprice.
  change (pushes [[4]; gl; gp; d]) with (push_data [] [4] ++ pushes [gl; gp; d]). rewrite <- app_assoc.
  rewrite Solver_contract, app_assoc.
  change (push_data [] [4] ++ pushes [gl; gp; d]) with (pushes [[4]; gl; gp; d]).
  unfold mTemplates. cbn [drop scan_templates length].
  by rewrite (contract_args_match 1 cc gl gp d [OP_CREATE] [OP_CREATE] lim price).
Qed.

Lemma solve_call cc gl gp d addr lim price :
  gas_value gl lim → gas_value gp price → 0 < size d ≤ MAX_SCRIPT_ELEMENT_SIZE → size addr = 20 →
  gas_limit_ok cc 1 lim = true → gas_price_ok cc 1 price = true →
  Solver (pushes [[4]; gl; gp; d; addr] ++ [OP_CALL]) cc = Some (TX_CALL, [addr]).
Proof.
  intros Hgl Hgp Hd Haddr Hlim Hprice.
  assert (pushes [[4]; gl; gp; d; addr] ++ [OP_CALL] = pushes [[4]; gl; gp; d] ++ push_data [] addr ++ [OP_CALL]) as E.
  { unfold pushes. cbn [fmap list_fmap concat]. by rewrite !app_nil_r, <- !app_assoc. }
  rewrite E. change (pushes [[4]; gl; gp; d]) with (push_data [] [4] ++ pushes [gl; gp; d]). rewrite <- app_assoc.
  rewrite Solver_contract, app_assoc.
  change (push_data [] [4] ++ pushes [gl; gp; d]) with (pushes [[4]; gl; gp; d]).
  unfold mTemplates. cbn [drop scan_templates length].
  rewrite (contract_args_match 1 cc gl gp d _ [OP_CREATE] lim price) by done.
  rewrite match_template_push by (done || lia).
  assert (match_opcode cc (push_opcode_for (size addr)) addr OP_CREATE [] [] 1 = NoMatch) as ->.
  { rewrite Haddr. done. }
  rewrite (contract_args_match 2 cc gl gp d _ [OP_PUBKEYHASH; OP_CALL] lim price) by done.
  rewrite match_template_push by (done || lia).
  assert (match_opcode cc (push_opcode_for (size addr)) addr OP_PUBKEYHASH [] [] 1 = Next [addr] 1) as ->.
  { unfold match_opcode. change (OP_PUBKEYHASH =? OP_PUBKEY) with false.
    change (OP_PUBKEYHASH =? OP_PUBKEYHASH) with true. by rewrite Haddr. }
  done.
Qed.

(** ** Main statements *)

(** Paying to a destination and reading it back agree: the script
    [GetScriptForDestination] builds for a key hash, script hash, witness key
    or script hash, or a future witness version is recognised by [Solver] and
    [ExtractDestination] returns the same destination. *)
Theorem destination_roundtrip (C : Crypto) d :
  dest_ok d → ExtractDestination (GetScriptForDestination d) = Some d.
Proof. apply ExtractDestination_roundtrip. Qed.

Lemma destination_roundtrip_witness :
  ExtractDestination (H:=toy_crypto) (GetScriptForDestination (WitnessUnknown 3 (replicate 40 9)))
    = Some (WitnessUnknown 3 (replicate 40 9)).
Proof. apply (destination_roundtrip toy_crypto (WitnessUnknown 3 (replicate 40 9))). vm_compute. repeat split; discriminate. Defined.

(** The contract scripts the wallet builds are standard: with the EVM version,
    a gas limit and gas price in range, and non-empty data, [Solver] recognises
    the creation script, and the call script together with the 20-byte
    contract address it returns. *)
Theorem contract_scripts_standard contractConsensus gasLimit gasPrice data addr lim price :
  gas_value gasLimit lim → gas_value gasPrice price → 0 < size data ≤ MAX_SCRIPT_ELEMENT_SIZE → size addr = 20 →
  gas_limit_ok contractConsensus 1 lim = true → gas_price_ok contractConsensus 1 price = true →
  Solver (pushes [[4]; gasLimit; gasPrice; data] ++ [OP_CREATE]) contractConsensus = Some (TX_CREATE, []) ∧
  Solver (pushes [[4]; gasLimit; gasPrice; data; addr] ++ [OP_CALL]) contractConsensus = Some (TX_CALL, [addr]).
Proof. intros. split; [by eapply solve_create|by eapply solve_call]. Qed.

Lemma contract_scripts_standard_witness :
  Solver (pushes [[4]; ScriptNum.serialize 250000; ScriptNum.serialize 40; [0xab]; replicate 20 1] ++ [OP_CALL]) false
    = Some (TX_CALL, [replicate 20 1]).
Proof.
  apply (contract_scripts_standard false (ScriptNum.serialize 250000) (ScriptNum.serialize 40) [0xab]
    (replicate 20 1) 250000 40); first [reflexivity | (split; [reflexivity|done]) | done].
Defined.
