(* ===== verification/Coins.v ===== *)
(** * The coin database and its caches (coins.h, coins.cpp, txdb.cpp, and the coin
      updates of validation.cpp)

    [CoinsView] is the interface a view offers to the cache stacked on top of
    it, [CoinsViewLaws] what it promises: that [GetCoin] returns only unspent
    coins, and that a batch of cache entries prepared against its contents is
    absorbed so that afterwards it shows what the cache above showed.  The
    database and the cache itself are its two implementations.  The memory
    accounting of the cache ([cachedCoinsUsage]) is not modelled. *)
From S2P Require Import Prelude ArithUint256 Script Interpreter InterpreterFacts InterpreterSpecs Serialize Transaction.

(** ** Coins and cache entries *)

Record Coin := mk_coin { out : CTxOut; fCoinBase : bool; fCoinStake : bool; nHeight : Z }.
(** The constructor: the height is stored in a 30-bit field. *)
Definition new_coin (o : CTxOut) (nHeightIn : Z) (fCoinBaseIn fCoinStakeIn : bool) : Coin :=
  mk_coin o fCoinBaseIn fCoinStakeIn (wrap 30 nHeightIn).
Definition coinEmpty : Coin := mk_coin null_txout false false 0.
Definition IsSpent (c : Coin) : bool := IsNull_txout (out c).
Definition Clear : Coin := coinEmpty.

Record CCoinsCacheEntry := mk_entry { coin : Coin; DIRTY : bool; FRESH : bool }.
Abbreviation CCoinsMap := (gmap COutPoint CCoinsCacheEntry).

(** Exceptions and failed assertions of the coin code. *)
Inductive coins_error := logic_error | assertion.

(** What an entry shows to readers of the view. *)
Definition visible (e : CCoinsCacheEntry) : option Coin :=
  if IsSpent (coin e) then None else Some (coin e).
Definition overlay (m : CCoinsMap) (f : COutPoint → option Coin) (o : COutPoint) : option Coin :=
  match m !! o with Some e => visible e | None => f o end.

(** A map of entries prepared against a view that shows [f]. *)
Definition entries_ok (m : CCoinsMap) (f : COutPoint → option Coin) : Prop :=
  ∀ o e, m !! o = Some e →
    (FRESH e = true → f o = None) ∧ (DIRTY e = false → visible e = f o).

(** ** The interface

    [GetCoin] and [GetBestBlock] are what a view answers.  A cache also keeps
    a copy of what it was asked for ([FetchCoin]); that changes no later answer
    ([FetchCoin_shows] of CoinsFacts), so a view that serves as the base of
    another cache is not threaded through its readers. *)

Class CoinsView (V : Type) := {
  GetCoin : V → COutPoint → option Coin;
  GetBestBlock : V → uint256;
  BatchWrite : V → CCoinsMap → uint256 → result coins_error V;
  view_ok : V → Prop
}.
Class CoinsViewReads (V : Type) `{CoinsView V} : Prop := {
  GetCoin_unspent v o c : view_ok v → GetCoin v o = Some c → IsSpent c = false
}.
Class CoinsViewLaws (V : Type) `{CoinsView V} : Prop := {
  #[global] laws_reads :: CoinsViewReads V;
  BatchWrite_absorbs v m h :
    view_ok v → entries_ok m (GetCoin v) → IsNull_hash h = false →
    ∃ v', BatchWrite v m h = Ok v' ∧ view_ok v' ∧ GetBestBlock v' = h ∧
          ∀ o, GetCoin v' o = overlay m (GetCoin v) o
}.

(** ** The database view: a map of unspent coins *)

(** [db_best] is null when no best block is recorded; [db_heads] is the record a
    write leaves while it is under way. *)
Record CCoinsViewDB := mk_db { db : gmap COutPoint Coin; db_best : uint256; db_heads : list uint256 }.

(** The loop over the map; the order in which an unordered map is visited does
    not matter ([BatchWrite_absorbs]). *)
Definition db_write (d : gmap COutPoint Coin) (p : COutPoint * CCoinsCacheEntry) : gmap COutPoint Coin :=
  if DIRTY p.2 then
    if IsSpent (coin p.2) then delete p.1 d else <[p.1 := coin p.2]> d
  else d.

(** The whole write, all its batches having reached the disk. *)
Definition db_BatchWrite (v : CCoinsViewDB) (m : CCoinsMap) (hashBlock : uint256)
  : result coins_error CCoinsViewDB :=
  if IsNull_hash hashBlock then Err assertion
  else if IsNull_hash (db_best v) && (Z.of_nat (length (db_heads v)) =? 2)
          && negb (bool_decide (nth 0 (db_heads v) null_hash = hashBlock)) then Err assertion
  else Ok (mk_db (foldl db_write (db v) (map_to_list m)) hashBlock []).

#[global] Instance db_view : CoinsView CCoinsViewDB := {|
  GetCoin v o := db v !! o;
  GetBestBlock := db_best;
  BatchWrite := db_BatchWrite;
  view_ok v := db_heads v = [] ∧ ∀ o c, db v !! o = Some c → IsSpent c = false
|}.

(** ** The cache *)

Record CCoinsViewCache (V : Type) := mk_cache { base : V; cacheCoins : CCoinsMap; hashBlock : uint256 }.
Arguments mk_cache {V} base cacheCoins hashBlock.
Arguments base {V} _.
Arguments cacheCoins {V} _.
Arguments hashBlock {V} _.

Section Cache.
Context {V : Type} `{CoinsView V}.
Implicit Types c : CCoinsViewCache V.

Definition set_coins c (m : CCoinsMap) : CCoinsViewCache V := mk_cache (base c) m (hashBlock c).

(** The entry found, if any, and the cache it is now in. *)
Definition FetchCoin c (outpoint : COutPoint) : option CCoinsCacheEntry * CCoinsViewCache V :=
  match cacheCoins c !! outpoint with
  | Some e => (Some e, c)
  | None =>
      match GetCoin (base c) outpoint with
      | None => (None, c)
      | Some tmp =>
          let e := mk_entry tmp false (IsSpent tmp) in
          (Some e, set_coins c (<[outpoint := e]> (cacheCoins c)))
      end
  end.

Definition cache_GetCoin c (outpoint : COutPoint) : option Coin * CCoinsViewCache V :=
  let '(it, c) := FetchCoin c outpoint in
  match it with
  | Some e => (if negb (IsSpent (coin e)) then Some (coin e) else None, c)
  | None => (None, c)
  end.

Definition AddCoin c (outpoint : COutPoint) (cn : Coin) (possible_overwrite : bool)
  : result coins_error (CCoinsViewCache V) :=
  if IsSpent cn then Err assertion
  else if IsUnspendable (scriptPubKey (out cn)) then Ok c
  else
    let it := default (mk_entry coinEmpty false false) (cacheCoins c !! outpoint) in
    if negb possible_overwrite && negb (IsSpent (coin it)) then Err logic_error
    else
      let fresh := negb possible_overwrite && negb (DIRTY it) in
      Ok (set_coins c (<[outpoint := mk_entry cn true (FRESH it || fresh)]> (cacheCoins c))).

(** Whether a coin was found, the coin moved out, and the cache. *)
Definition SpendCoin c (outpoint : COutPoint) : option Coin * CCoinsViewCache V :=
  let '(it, c) := FetchCoin c outpoint in
  match it with
  | None => (None, c)
  | Some e =>
      (Some (coin e),
       if FRESH e then set_coins c (delete outpoint (cacheCoins c))
       else set_coins c (<[outpoint := mk_entry Clear true (FRESH e)]> (cacheCoins c)))
  end.

Definition AccessCoin c (outpoint : COutPoint) : Coin * CCoinsViewCache V :=
  let '(it, c) := FetchCoin c outpoint in
  match it with None => (coinEmpty, c) | Some e => (coin e, c) end.

Definition HaveCoin c (outpoint : COutPoint) : bool * CCoinsViewCache V :=
  let '(it, c) := FetchCoin c outpoint in
  match it with None => (false, c) | Some e => (negb (IsSpent (coin e)), c) end.

Definition HaveCoinInCache c (outpoint : COutPoint) : bool :=
  match cacheCoins c !! outpoint with None => false | Some e => negb (IsSpent (coin e)) end.

Definition cache_GetBestBlock c : uint256 :=
  if IsNull_hash (hashBlock c) then GetBestBlock (base c) else hashBlock c.
Definition SetBestBlock c (h : uint256) : CCoinsViewCache V := mk_cache (base c) (cacheCoins c) h.

(** One entry of a child's map written into this cache. *)
Definition write_entry (m : CCoinsMap) (p : COutPoint * CCoinsCacheEntry) : result coins_error CCoinsMap :=
  let '(o, it) := p in
  if negb (DIRTY it) then Ok m
  else match m !! o with
  | None =>
      if negb (FRESH it && IsSpent (coin it))
      then Ok (<[o := mk_entry (coin it) true (FRESH it)]> m) else Ok m
  | Some itUs =>
      if FRESH it && negb (IsSpent (coin itUs)) then Err logic_error
      else if FRESH itUs && IsSpent (coin it) then Ok (delete o m)
      else Ok (<[o := mk_entry (coin it) true (FRESH itUs)]> m)
  end.
Fixpoint write_entries (m : CCoinsMap) (l : list (COutPoint * CCoinsCacheEntry)) : result coins_error CCoinsMap :=
  match l with
  | [] => Ok m
  | p :: l => let* m := write_entry m p in write_entries m l
  end.
Definition cache_BatchWrite c (m : CCoinsMap) (h : uint256) : result coins_error (CCoinsViewCache V) :=
  let* m' := write_entries (cacheCoins c) (map_to_list m) in
  Ok (mk_cache (base c) m' h).

Definition Flush c : result coins_error (CCoinsViewCache V) :=
  let* b := BatchWrite (base c) (cacheCoins c) (hashBlock c) in
  Ok (mk_cache b ∅ (hashBlock c)).

Definition Uncache c (o : COutPoint) : CCoinsViewCache V :=
  match cacheCoins c !! o with
  | Some e => if negb (DIRTY e) && negb (FRESH e) then set_coins c (delete o (cacheCoins c)) else c
  | None => c
  end.

Definition GetCacheSize c : Z := Z.of_nat (map_size (cacheCoins c)).

Definition GetValueIn c (tx : CTransaction) : Z * CCoinsViewCache V :=
  if IsCoinBase tx then (0, c)
  else foldl (λ r txin, let '(cn, c) := AccessCoin r.2 (prevout txin) in (i64 (r.1 + nValue (out cn)), c))
         (0, c) (vin tx).

Fixpoint have_inputs c (l : list CTxIn) : bool * CCoinsViewCache V :=
  match l with
  | [] => (true, c)
  | i :: l => let '(b, c) := HaveCoin c (prevout i) in if negb b then (false, c) else have_inputs c l
  end.
Definition HaveInputs c (tx : CTransaction) : bool * CCoinsViewCache V :=
  if IsCoinBase tx then (true, c) else have_inputs c (vin tx).

(** [AddCoins]: output [i] onwards. *)
Fixpoint add_outputs c (txid : uint256) (i : Z) (outs : list CTxOut) (height : Z) (check fCoinbase fCoinstake : bool)
  : result coins_error (CCoinsViewCache V) :=
  match outs with
  | [] => Ok c
  | o :: outs =>
      let '(overwrite, c) := if check then HaveCoin c (mk_outpoint txid i) else (fCoinbase, c) in
      let* c := AddCoin c (mk_outpoint txid i) (new_coin o height fCoinbase fCoinstake) overwrite in
      add_outputs c txid (i + 1) outs height check fCoinbase fCoinstake
  end.
Definition AddCoins `{Crypto} c (tx : CTransaction) (height : Z) (check : bool)
  : result coins_error (CCoinsViewCache V) :=
  add_outputs c (GetHash tx) 0 (vout tx) height check (IsCoinBase tx) (IsCoinStake tx).

(** [UpdateCoins]: the undo record and the cache; the assertion that every input
    was found is [Err assertion]. *)
Fixpoint spend_inputs c (l : list CTxIn) : result coins_error (list Coin * CCoinsViewCache V) :=
  match l with
  | [] => Ok ([], c)
  | i :: l =>
      let '(spent, c) := SpendCoin c (prevout i) in
      match spent with
      | None => Err assertion
      | Some cn => let* r := spend_inputs c l in Ok (cn :: r.1, r.2)
      end
  end.
Definition UpdateCoins `{Crypto} c (tx : CTransaction) (height : Z)
  : result coins_error (list Coin * CCoinsViewCache V) :=
  let* r := if IsCoinBase tx then Ok ([], c) else spend_inputs c (vin tx) in
  let* c := AddCoins r.2 tx height false in
  Ok (r.1, c).

(** [AccessByTxid] looks at outputs [n], [n+1], ... below [MAX_OUTPUTS_PER_BLOCK]. *)
Fixpoint AccessByTxid_loop (fuel : nat) c (txid : uint256) (i : Z) : Coin * CCoinsViewCache V :=
  match fuel with
  | O => (coinEmpty, c)
  | S fuel =>
      let '(alternate, c) := AccessCoin c (mk_outpoint txid i) in
      if negb (IsSpent alternate) then (alternate, c) else AccessByTxid_loop fuel c txid (i + 1)
  end.
Definition AccessByTxid (MAX_OUTPUTS_PER_BLOCK : Z) c (txid : uint256) : Coin * CCoinsViewCache V :=
  AccessByTxid_loop (Z.to_nat MAX_OUTPUTS_PER_BLOCK) c txid 0.

Inductive DisconnectResult := DISCONNECT_OK | DISCONNECT_UNCLEAN | DISCONNECT_FAILED.

Definition ApplyTxInUndo (MAX_OUTPUTS_PER_BLOCK : Z) (undo : Coin) c (o : COutPoint)
  : result coins_error (DisconnectResult * CCoinsViewCache V) :=
  let '(have, c) := HaveCoin c o in
  let fClean := negb have in
  let '(undo, c) :=
    if nHeight undo =? 0 then
      let '(alternate, c) := AccessByTxid MAX_OUTPUTS_PER_BLOCK c (hash o) in
      if negb (IsSpent alternate)
      then (Some (mk_coin (out undo) (fCoinBase alternate) (fCoinStake undo) (nHeight alternate)), c)
      else (None, c)
    else (Some undo, c) in
  match undo with
  | None => Ok (DISCONNECT_FAILED, c)
  | Some undo =>
      let* c := AddCoin c o undo (negb fClean) in
      Ok (if fClean then DISCONNECT_OK else DISCONNECT_UNCLEAN, c)
  end.

(** [DisconnectBlock]: outputs [i], [i+1], ... of a transaction are spent again;
    the flag stays true while each is found as the block created it. *)
Fixpoint disconnect_outputs c (txid : uint256) (height : Z) (is_coinbase is_coinstake : bool)
    (i : Z) (outs : list CTxOut) (fClean : bool) : bool * CCoinsViewCache V :=
  match outs with
  | [] => (fClean, c)
  | o :: outs =>
      if IsUnspendable (scriptPubKey o)
      then disconnect_outputs c txid height is_coinbase is_coinstake (i + 1) outs fClean
      else
        let '(spent, c) := SpendCoin c (mk_outpoint txid i) in
        let good := match spent with
          | None => false
          | Some cn => bool_decide (o = out cn) && (height =? nHeight cn)
                       && eqb is_coinbase (fCoinBase cn) && eqb is_coinstake (fCoinStake cn)
          end in
        disconnect_outputs c txid height is_coinbase is_coinstake (i + 1) outs (fClean && good)
  end.

(** The inputs and their undo coins, visited from the last to the first;
    [None] is [DISCONNECT_FAILED]. *)
Fixpoint restore_inputs (MAX_OUTPUTS_PER_BLOCK : Z) c (l : list (CTxIn * Coin)) (fClean : bool)
  : result coins_error (option bool * CCoinsViewCache V) :=
  match l with
  | [] => Ok (Some fClean, c)
  | (i, undo) :: l =>
      let* r := ApplyTxInUndo MAX_OUTPUTS_PER_BLOCK undo c (prevout i) in
      match r.1 with
      | DISCONNECT_FAILED => Ok (None, r.2)
      | DISCONNECT_UNCLEAN => restore_inputs MAX_OUTPUTS_PER_BLOCK r.2 l false
      | DISCONNECT_OK => restore_inputs MAX_OUTPUTS_PER_BLOCK r.2 l fClean
      end
  end.

(** One round of the loop; the coinbase (index 0) has no undo record. *)
Definition disconnect_tx `{Crypto} (MAX_OUTPUTS_PER_BLOCK : Z) c (height : Z)
    (tx : CTransaction) (txundo : option (list Coin)) (fClean : bool)
  : result coins_error (option bool * CCoinsViewCache V) :=
  let '(fClean, c) := disconnect_outputs c (GetHash tx) height (IsCoinBase tx) (IsCoinStake tx) 0 (vout tx) fClean in
  match txundo with
  | None => Ok (Some fClean, c)
  | Some vprevout =>
      if negb (Z.of_nat (length vprevout) =? Z.of_nat (length (vin tx))) then Ok (None, c)
      else restore_inputs MAX_OUTPUTS_PER_BLOCK c (rev (zip (vin tx) vprevout)) fClean
  end.
Fixpoint disconnect_txs `{Crypto} (MAX_OUTPUTS_PER_BLOCK : Z) c (height : Z)
    (l : list (CTransaction * option (list Coin))) (fClean : bool)
  : result coins_error (option bool * CCoinsViewCache V) :=
  match l with
  | [] => Ok (Some fClean, c)
  | (tx, txundo) :: l =>
      let* r := disconnect_tx MAX_OUTPUTS_PER_BLOCK c height tx txundo fClean in
      match r.1 with
      | None => Ok (None, r.2)
      | Some fClean => disconnect_txs MAX_OUTPUTS_PER_BLOCK r.2 height l fClean
      end
  end.

(** The block is given by its transactions, [pindex] by its hash, height and the
    hash of its predecessor, the undo file by the record read from it.  The
    state-trie roots and the index databases are not modelled. *)
Definition DisconnectBlock `{Crypto} (MAX_OUTPUTS_PER_BLOCK : Z) (vtx : list CTransaction)
    (blockHash prevHash : uint256) (height : Z) (blockUndo : option (list (list Coin))) c
  : result coins_error (DisconnectResult * CCoinsViewCache V) :=
  if negb (bool_decide (blockHash = cache_GetBestBlock c)) then Err assertion
  else match blockUndo with
  | None => Ok (DISCONNECT_FAILED, c)
  | Some vtxundo =>
      if negb (Z.of_nat (length vtxundo) + 1 =? Z.of_nat (length vtx)) then Ok (DISCONNECT_FAILED, c)
      else
        let* r := disconnect_txs MAX_OUTPUTS_PER_BLOCK c height
                    (rev (zip vtx (None :: map Some vtxundo))) true in
        match r.1 with
        | None => Ok (DISCONNECT_FAILED, r.2)
        | Some fClean => Ok (if fClean then DISCONNECT_OK else DISCONNECT_UNCLEAN, SetBestBlock r.2 prevHash)
        end
  end.

(** [ConnectBlock]'s updates of the coins: every transaction in order, with the
    undo records of all but the first. *)
Fixpoint update_txs `{Crypto} c (height : Z) (vtx : list CTransaction)
  : result coins_error (list (list Coin) * CCoinsViewCache V) :=
  match vtx with
  | [] => Ok ([], c)
  | tx :: vtx =>
      let* r := UpdateCoins c tx height in
      let* q := update_txs r.2 height vtx in
      Ok (r.1 :: q.1, q.2)
  end.
Definition connect_coins `{Crypto} c (height : Z) (blockHash : uint256) (vtx : list CTransaction)
  : result coins_error (list (list Coin) * CCoinsViewCache V) :=
  let* r := update_txs c height vtx in
  Ok (tail r.1, SetBestBlock r.2 blockHash).

(** What the cache shows, and its invariant: every entry agrees with its flags. *)
Definition shows c : COutPoint → option Coin := overlay (cacheCoins c) (GetCoin (base c)).
Definition cache_ok c : Prop := view_ok (base c) ∧ entries_ok (cacheCoins c) (GetCoin (base c)).

#[global] Instance cache_view : CoinsView (CCoinsViewCache V) := {|
  GetCoin := shows;
  GetBestBlock := cache_GetBestBlock;
  BatchWrite := cache_BatchWrite;
  view_ok := cache_ok
|}.
End Cache.
