(* ===== verification/CoinsFacts.v ===== *)
(** * The coin caches implement a map of unspent coins

    [shows c] is what a cache shows to its readers.  Every operation of the
    cache acts on it as the same operation on a plain map, whatever view lies
    below ([CoinsViewLaws]); the database and the cache itself satisfy that
    interface, so stacks of any depth do.  From there: a block connected and
    then disconnected leaves the coins it found. *)
From S2P Require Import Prelude ArithUint256 Script Interpreter InterpreterFacts InterpreterSpecs Serialize Transaction Coins.

(** ** Sets of coins as functions, up to pointwise equality *)

Abbreviation coins := (COutPoint → option Coin).
Definition same_coins (s t : coins) : Prop := ∀ o, s o = t o.
Infix "≐" := same_coins (at level 70).
#[global] Instance same_coins_equiv : Equivalence same_coins.
Proof.
  split; unfold same_coins; [by intros s o|by intros s t H o|].
  intros s t u Hst Htu o. by rewrite Hst.
Qed.

Definition upd (s : coins) (o : COutPoint) (x : option Coin) : coins :=
  λ o', if decide (o = o') then x else s o'.
#[global] Instance upd_proper : Proper (same_coins ==> eq ==> eq ==> same_coins) upd.
Proof. intros s t H o ? <- x ? <- o'. unfold upd. by case_decide. Qed.

Lemma upd_eq s o x : upd s o x o = x.
Proof. unfold upd. by rewrite decide_True. Qed.
Lemma upd_ne s o o' x : o ≠ o' → upd s o x o' = s o'.
Proof. intros. unfold upd. by rewrite decide_False. Qed.
Lemma upd_id s o x : s o = x → upd s o x ≐ s.
Proof. intros <- o'. unfold upd. by case_decide; subst. Qed.
Lemma upd_upd s o x y : upd (upd s o x) o y ≐ upd s o y.
Proof. intros o'. unfold upd. by case_decide. Qed.
Lemma upd_comm s o o' x y : o ≠ o' → upd (upd s o x) o' y ≐ upd (upd s o' y) o x.
Proof. intros ? p. unfold upd. repeat case_decide; congruence. Qed.

(** ** Maps of entries laid over a view *)

Lemma visible_spent e : IsSpent (coin e) = true → visible e = None.
Proof. unfold visible. by intros ->. Qed.
Lemma visible_None e : visible e = None → IsSpent (coin e) = true.
Proof. unfold visible. by destruct (IsSpent (coin e)). Qed.
Lemma visible_Some e cn : visible e = Some cn → coin e = cn ∧ IsSpent cn = false.
Proof. unfold visible. destruct (IsSpent (coin e)) eqn:?; naive_solver. Qed.

Lemma overlay_insert m f o e : overlay (<[o := e]> m) f ≐ upd (overlay m f) o (visible e).
Proof.
  intros o'. unfold overlay, upd. case_decide as Ho; [subst; by rewrite lookup_insert_eq|].
  by rewrite lookup_insert_ne.
Qed.
Lemma overlay_delete m f o : overlay (delete o m) f ≐ upd (overlay m f) o (f o).
Proof.
  intros o'. unfold overlay, upd. case_decide as Ho; [subst; by rewrite lookup_delete_eq|].
  by rewrite lookup_delete_ne.
Qed.
Lemma entries_ok_insert m f o e :
  entries_ok m f → (FRESH e = true → f o = None) → (DIRTY e = false → visible e = f o) →
  entries_ok (<[o := e]> m) f.
Proof.
  intros Hm H1 H2 o' e' [[<- <-]|[? ?]]%lookup_insert_Some; [done|by apply Hm].
Qed.
Lemma entries_ok_delete m f o : entries_ok m f → entries_ok (delete o m) f.
Proof. intros Hm o' e' [? ?]%lookup_delete_Some. by apply Hm. Qed.

(** Writing one entry of a child, when the entry fits what is shown here. *)
Lemma write_entry_spec m f o e :
  entries_ok m f →
  (FRESH e = true → overlay m f o = None) → (DIRTY e = false → visible e = overlay m f o) →
  ∃ m', write_entry m (o, e) = Ok m' ∧ entries_ok m' f ∧ overlay m' f ≐ upd (overlay m f) o (visible e).
Proof.
  intros Hm Hf Hd. unfold write_entry.
  destruct (DIRTY e) eqn:HD; simpl.
  2: { eexists; split_and!; [done|done|]. rewrite upd_id by (symmetry; by apply Hd). done. }
  assert (overlay m f o = match m !! o with Some e => visible e | None => f o end) as Ho by done.
  destruct (m !! o) as [us|] eqn:Hus.
  - pose proof (Hm o us Hus) as [Hu1 Hu2].
    destruct (FRESH e && negb (IsSpent (coin us))) eqn:Hmis.
    { exfalso. apply andb_true_iff in Hmis as [H1 H2%negb_true_iff].
      rewrite Ho in Hf. apply Hf, visible_None in H1. congruence. }
    destruct (FRESH us && IsSpent (coin e)) eqn:Hdel.
    + apply andb_true_iff in Hdel as [H1 H2]. eexists; split_and!; [done|by apply entries_ok_delete|].
      rewrite overlay_delete, (visible_spent e), Hu1 by done. done.
    + eexists; split_and!; [done|by apply entries_ok_insert|].
      by rewrite overlay_insert.
  - destruct (negb (FRESH e && IsSpent (coin e))) eqn:Hskip.
    + eexists; split_and!; [done| |by rewrite overlay_insert].
      apply entries_ok_insert; simpl; [done| |done]. intros. rewrite <- Ho. by apply Hf.
    + apply negb_false_iff, andb_true_iff in Hskip as [H1 H2].
      eexists; split_and!; [done|done|].
      rewrite upd_id; [done|]. rewrite (visible_spent e) by done. by apply Hf.
Qed.

(** What a list of entries shows over a view. *)
Definition over_list (l : list (COutPoint * CCoinsCacheEntry)) (f : coins) : coins :=
  overlay (list_to_map l) f.
Lemma over_list_cons o e l f :
  o ∉ l.*1 → over_list ((o, e) :: l) f ≐ over_list l (upd f o (visible e)).
Proof.
  intros Hl o'. unfold over_list, overlay, upd. simpl. case_decide as Ho.
  - subst. rewrite lookup_insert_eq. by rewrite not_elem_of_list_to_map_1.
  - by rewrite lookup_insert_ne.
Qed.
Lemma over_list_same l f g : f ≐ g → over_list l f ≐ over_list l g.
Proof. intros H o. unfold over_list, overlay. by destruct (list_to_map l !! o). Qed.

(** The entries of a list fit what a view shows. *)
Definition fits (l : list (COutPoint * CCoinsCacheEntry)) (f : coins) : Prop :=
  ∀ o e, (o, e) ∈ l → (FRESH e = true → f o = None) ∧ (DIRTY e = false → visible e = f o).
Lemma fits_tail o e l f : NoDup ((o, e) :: l).*1 → fits ((o, e) :: l) f → fits l (upd f o (visible e)).
Proof.
  intros [Ho _]%NoDup_cons Hf o' e' H'. rewrite !upd_ne; [apply Hf; set_solver|].
  intros <-. apply Ho. apply list_elem_of_fmap. by exists (o, e').
Qed.
Lemma fits_same l f g : f ≐ g → fits l f → fits l g.
Proof. intros H Hf o e He. rewrite <- !(H o). by apply Hf. Qed.

Lemma write_entries_spec l : ∀ m f,
  entries_ok m f → NoDup l.*1 → fits l (overlay m f) →
  ∃ m', write_entries m l = Ok m' ∧ entries_ok m' f ∧ overlay m' f ≐ over_list l (overlay m f).
Proof.
  induction l as [|[o e] l IH]; intros m f Hm Hnd Hfit.
  { eexists; split_and!; [done|done|]. intros o. unfold over_list, overlay at 2. simpl. by rewrite lookup_empty. }
  destruct (Hfit o e) as [H1 H2]; [set_solver|].
  destruct (write_entry_spec m f o e) as (m1 & Hw & Hok & Hsh); [done..|].
  destruct (IH m1 f) as (m2 & Hw2 & Hok2 & Hsh2); [done|by apply NoDup_cons in Hnd as []| |].
  { eapply fits_same; [symmetry; exact Hsh|]. by eapply fits_tail. }
  exists m2. cbn [write_entries]. rewrite Hw. simpl. split_and!; [done|done|].
  rewrite Hsh2, over_list_cons by (by apply NoDup_cons in Hnd as []).
  by apply over_list_same.
Qed.

Lemma fits_map m f : entries_ok m f → fits (map_to_list m) f.
Proof. intros H o e He%elem_of_map_to_list. by apply H. Qed.
Lemma over_list_map m f : over_list (map_to_list m) f ≐ overlay m f.
Proof. intros o. unfold over_list. by rewrite list_to_map_to_list. Qed.

(** ** The database satisfies the interface *)

Lemma db_write_spec l : ∀ d,
  NoDup l.*1 → fits l (λ o, d !! o) → (∀ o c, d !! o = Some c → IsSpent c = false) →
  (∀ o, foldl db_write d l !! o = over_list l (λ o, d !! o) o) ∧
  (∀ o c, foldl db_write d l !! o = Some c → IsSpent c = false).
Proof.
  induction l as [|[o e] l IH]; intros d Hnd Hfit Hd; simpl.
  { split; [|done]. intros o. unfold over_list, overlay. simpl. by rewrite lookup_empty. }
  assert (same_coins (λ p, db_write d (o, e) !! p) (upd (λ p, d !! p) o (visible e))) as Hw.
  { destruct (Hfit o e) as [_ H2]; [set_solver|]. intros p. unfold db_write, upd. simpl.
    destruct (DIRTY e); [|case_decide; [subst; by rewrite H2|done]].
    unfold visible. destruct (IsSpent (coin e)); case_decide; subst;
      by rewrite ?lookup_delete_eq, ?lookup_delete_ne, ?lookup_insert_eq, ?lookup_insert_ne. }
  destruct (IH (db_write d (o, e))) as [H1 H2].
  - by apply NoDup_cons in Hnd as [].
  - eapply fits_same; [symmetry; exact Hw|]. by eapply fits_tail.
  - intros p c Hp. pose proof (Hw p) as Hq. simpl in Hq. rewrite Hp in Hq. unfold upd in Hq.
    case_decide; [by symmetry in Hq; apply visible_Some in Hq as []|by eapply Hd].
  - split; [|done]. intros p. rewrite H1.
    rewrite (over_list_cons o e l _ ltac:(by apply NoDup_cons in Hnd as [])). by apply over_list_same.
Qed.

#[global] Instance db_laws : CoinsViewLaws CCoinsViewDB.
Proof.
  split; [split; intros v o c [_ Hv] Hc; exact (Hv o c Hc)|].
  intros v m h [Hheads Hok] Hm Hh. simpl in *. unfold db_BatchWrite. rewrite Hh, Hheads. simpl. rewrite andb_false_r. simpl.
  destruct (db_write_spec (map_to_list m) (db v)) as [H1 H2];
    [apply NoDup_fst_map_to_list|by apply fits_map|done|].
  eexists; split_and!; [done|done|done|done|]. intros o. simpl. rewrite H1. apply over_list_map.
Qed.

(** ** The cache satisfies it, over any view that does *)

Section Cache.
Context {V : Type} `{CoinsViewReads V}.
Implicit Types c : CCoinsViewCache V.

#[global] Instance cache_laws : CoinsViewLaws (CCoinsViewCache V).
Proof.
  split; [split|].
  - intros c o cn [Hb Hm]. simpl. unfold shows, overlay.
    destruct (cacheCoins c !! o); [by intros []%visible_Some|by apply GetCoin_unspent].
  - intros c m h [Hb Hm] Hfit Hh. simpl in *. unfold cache_BatchWrite.
    destruct (write_entries_spec (map_to_list m) (cacheCoins c) (GetCoin (base c))) as (m' & Hw & Hok & Hsh);
      [done|apply NoDup_fst_map_to_list|by apply fits_map|].
    rewrite Hw. eexists; split_and!; [done|done|unfold cache_GetBestBlock; simpl; by rewrite Hh|].
    intros o. change (overlay m' (GetCoin (base c)) o = overlay m (shows c) o).
    rewrite Hsh. apply over_list_map.
Qed.

(** [c'] is a cache over the same view as [c] and shows [s]. *)
Definition becomes c c' (s : coins) : Prop :=
  cache_ok c' ∧ base c' = base c ∧ hashBlock c' = hashBlock c ∧ shows c' ≐ s.

Lemma becomes_refl c : cache_ok c → becomes c c (shows c).
Proof. done. Qed.
Lemma becomes_trans c c1 c2 s t : becomes c c1 s → becomes c1 c2 t → becomes c c2 t.
Proof. intros (? & Hb & Hh & ?) (? & Hb' & Hh' & ?). split_and!; [done|congruence..|done]. Qed.
Lemma becomes_same c c' s t : becomes c c' s → s ≐ t → becomes c c' t.
Proof. intros (? & ? & ? & Hs) Ht. split_and!; [done..|]. by rewrite Hs. Qed.

Lemma becomes_set c (m : CCoinsMap) s :
  cache_ok c → entries_ok m (GetCoin (base c)) → overlay m (GetCoin (base c)) ≐ s →
  becomes c (set_coins c m) s.
Proof. intros [? ?] ? ?. by split_and!. Qed.

Lemma shows_unspent c o cn : cache_ok c → shows c o = Some cn → IsSpent cn = false.
Proof. intros. by eapply (GetCoin_unspent (V := CCoinsViewCache V)). Qed.

Lemma FetchCoin_shows c o it c' :
  cache_ok c → FetchCoin c o = (it, c') →
  becomes c c' (shows c) ∧ cacheCoins c' !! o = it ∧
  match it with Some e => visible e | None => None end = shows c o.
Proof.
  intros Hc. unfold FetchCoin. pose proof Hc as [Hb Hm].
  assert (shows c o = match cacheCoins c !! o with Some e => visible e | None => GetCoin (base c) o end) as Ho by done.
  rewrite Ho. destruct (cacheCoins c !! o) as [e|] eqn:He; [by intros [= <- <-]|].
  destruct (GetCoin (base c) o) as [tmp|] eqn:Hg; [|by intros [= <- <-]].
  pose proof (GetCoin_unspent _ _ _ Hb Hg) as Hu. intros [= <- <-].
  assert (visible (mk_entry tmp false (IsSpent tmp)) = Some tmp) as Hv by (unfold visible; simpl; by rewrite Hu).
  split_and!; [|apply lookup_insert_eq|done].
  apply becomes_set; [done|apply entries_ok_insert; [done| |]|].
  - simpl. congruence.
  - by rewrite Hv, Hg.
  - rewrite overlay_insert. rewrite upd_id; [done|]. by rewrite Hv.
Qed.

Lemma GetCoin_shows c o : cache_ok c → ∃ c', cache_GetCoin c o = (shows c o, c') ∧ becomes c c' (shows c).
Proof.
  intros Hc. unfold cache_GetCoin. destruct (FetchCoin c o) as [it c'] eqn:Hf.
  apply FetchCoin_shows in Hf as (Hb & _ & <-); [|done].
  exists c'. split; [|done]. unfold visible. destruct it as [e|]; [|done]. by destruct (IsSpent (coin e)).
Qed.
Lemma HaveCoin_shows c o :
  cache_ok c → ∃ c', HaveCoin c o = (bool_decide (is_Some (shows c o)), c') ∧ becomes c c' (shows c).
Proof.
  intros Hc. unfold HaveCoin. destruct (FetchCoin c o) as [it c'] eqn:Hf.
  apply FetchCoin_shows in Hf as (Hb & _ & <-); [|done].
  destruct it as [e|]; (eexists; split; [|done]); [|by rewrite bool_decide_eq_false_2 by (by intros [])].
  unfold visible. by destruct (IsSpent (coin e)).
Qed.
(** [AccessCoin] gives the coin shown, or some spent coin when none is. *)
Lemma AccessCoin_shows c o :
  cache_ok c → ∃ cn c', AccessCoin c o = (cn, c') ∧ becomes c c' (shows c) ∧
    shows c o = if IsSpent cn then None else Some cn.
Proof.
  intros Hc. unfold AccessCoin. destruct (FetchCoin c o) as [it c'] eqn:Hf.
  apply FetchCoin_shows in Hf as (Hb & _ & <-); [|done].
  destruct it as [e|]; by do 2 eexists.
Qed.

Lemma SpendCoin_shows c o :
  cache_ok c → ∃ r c', SpendCoin c o = (r, c') ∧ becomes c c' (upd (shows c) o None) ∧
    shows c o = (r ≫= λ cn, if IsSpent cn then None else Some cn).
Proof.
  intros Hc. unfold SpendCoin. destruct (FetchCoin c o) as [it c1] eqn:Hf.
  apply FetchCoin_shows in Hf as (Hb & He & Ho); [|done].
  destruct it as [e|].
  2: { do 2 eexists. split_and!; [done| |done]. eapply becomes_same; [done|]. symmetry. by apply upd_id. }
  eexists _, _. split_and!; [done| |by rewrite <- Ho].
  eapply becomes_trans; [done|]. pose proof Hb as ([Hv1 Hm1] & Hb1 & _ & Hs1).
  destruct (Hm1 _ _ He) as [Hfr _].
  eapply (becomes_same _ _ (upd (shows c1) o None)); [|by rewrite Hs1].
  destruct (FRESH e) eqn:HF; apply becomes_set; try done.
  - by apply entries_ok_delete.
  - rewrite overlay_delete. by rewrite Hfr.
  - by apply entries_ok_insert.
  - apply overlay_insert.
Qed.

Lemma AddCoin_shows c o cn ow :
  cache_ok c → IsSpent cn = false → IsUnspendable (scriptPubKey (out cn)) = false →
  (ow = false → shows c o = None) →
  ∃ c', AddCoin c o cn ow = Ok c' ∧ becomes c c' (upd (shows c) o (Some cn)).
Proof.
  intros Hc Hs Hu How. unfold AddCoin. rewrite Hs, Hu.
  set (it := default _ _). pose proof Hc as [Hb Hm].
  assert (ow = false → IsSpent (coin it) = true) as Hit.
  { intros H1. specialize (How H1). unfold shows, overlay in How. unfold it.
    destruct (cacheCoins c !! o) as [e|]; simpl; [by apply visible_None|done]. }
  destruct (negb ow && negb (IsSpent (coin it))) eqn:Hg.
  { apply andb_true_iff in Hg as [H1%negb_true_iff H2%negb_true_iff]. rewrite Hit in H2; done. }
  eexists. split; [done|]. apply becomes_set; [done| |].
  - apply entries_ok_insert; [done| |done]. simpl. intros [Hfr|Hfr]%orb_true_iff.
    + unfold it in Hfr. destruct (cacheCoins c !! o) as [e|] eqn:He; simpl in Hfr; [|done].
      by apply (Hm o e).
    + apply andb_true_iff in Hfr as [H1%negb_true_iff H2%negb_true_iff]. specialize (How H1).
      unfold shows, overlay in How. unfold it in H2, Hit.
      destruct (cacheCoins c !! o) as [e|] eqn:He; simpl in *; [|done].
      destruct (Hm o e He) as [_ Hd]. rewrite <- (Hd H2). by apply visible_spent, Hit.
  - rewrite overlay_insert. unfold visible. simpl. by rewrite Hs.
Qed.

Lemma Uncache_shows c o : cache_ok c → becomes c (Uncache c o) (shows c).
Proof.
  intros Hc. unfold Uncache. destruct (cacheCoins c !! o) as [e|] eqn:He; [|done].
  destruct (negb (DIRTY e) && negb (FRESH e)) eqn:Hfl; [|done].
  apply andb_true_iff in Hfl as [HD%negb_true_iff _]. pose proof Hc as [Hb Hm].
  apply becomes_set; [done|by apply entries_ok_delete|].
  rewrite overlay_delete. apply upd_id. destruct (Hm o e He) as [_ Hd].
  change (match cacheCoins c !! o with Some e => visible e | None => GetCoin (base c) o end = GetCoin (base c) o).
  rewrite He. by apply Hd.
Qed.

End Cache.

(** Writing the cache into a view needs the whole contract. *)

Section Machine.
Context {V : Type} `{CoinsViewLaws V}.
Implicit Types c : CCoinsViewCache V.

Lemma Flush_shows c :
  cache_ok c → IsNull_hash (hashBlock c) = false →
  ∃ c', Flush c = Ok c' ∧ cache_ok c' ∧ hashBlock c' = hashBlock c ∧ cacheCoins c' = ∅ ∧
    shows c' ≐ shows c ∧ same_coins (GetCoin (base c')) (shows c) ∧ GetBestBlock (base c') = hashBlock c.
Proof.
  intros [Hb Hm] Hh. unfold Flush.
  destruct (BatchWrite_absorbs (base c) (cacheCoins c) (hashBlock c)) as (b & -> & Hok & Hbest & Hsh); [done..|].
  eexists. split_and!; [done|split; [done|]|done|done| |done|done].
  - intros o e. simpl. by rewrite lookup_empty.
  - intros o. unfold shows at 1. simpl. unfold overlay at 1. rewrite lookup_empty. apply Hsh.
Qed.

(** ** The cache as a state machine, and the map it implements *)

Inductive cache_op :=
| OpGet (o : COutPoint)
| OpHave (o : COutPoint)
| OpSpend (o : COutPoint)
| OpAdd (o : COutPoint) (cn : Coin) (possible_overwrite : bool)
| OpUncache (o : COutPoint)
| OpSetBestBlock (h : uint256)
| OpFlush.

(** The answer to a reader: the coin returned or moved out if it is unspent; a
    coin that stands for presence when only presence is asked. *)
Definition unspent (cn : Coin) : option Coin := if IsSpent cn then None else Some cn.

Definition cache_step c (op : cache_op) : result coins_error (option Coin * CCoinsViewCache V) :=
  match op with
  | OpGet o => Ok (cache_GetCoin c o)
  | OpHave o => let '(b, c) := HaveCoin c o in Ok (if b then Some coinEmpty else None, c)
  | OpSpend o => let '(r, c) := SpendCoin c o in Ok (r ≫= unspent, c)
  | OpAdd o cn ow => let* c := AddCoin c o cn ow in Ok (None, c)
  | OpUncache o => Ok (None, Uncache c o)
  | OpSetBestBlock h => Ok (None, SetBestBlock c h)
  | OpFlush => let* c := Flush c in Ok (None, c)
  end.
Fixpoint cache_run c (ops : list cache_op) : result coins_error (list (option Coin) * CCoinsViewCache V) :=
  match ops with
  | [] => Ok ([], c)
  | op :: ops =>
      let* r := cache_step c op in
      let* q := cache_run r.2 ops in
      Ok (r.1 :: q.1, q.2)
  end.

(** The same operations on a plain map and a block hash. [None]: the caller
    broke the contract (adding a spent coin, adding without the overwrite flag a
    coin that exists, flushing before a best block is known). *)
Definition spec_step (s : coins) (h : uint256) (op : cache_op) : option (option Coin * (coins * uint256)) :=
  match op with
  | OpGet o => Some (s o, (s, h))
  | OpHave o => Some ((λ _, coinEmpty) <$> s o, (s, h))
  | OpSpend o => Some (s o, (upd s o None, h))
  | OpAdd o cn ow =>
      if IsSpent cn then None
      else if IsUnspendable (scriptPubKey (out cn)) then Some (None, (s, h))
      else if negb ow && bool_decide (is_Some (s o)) then None
      else Some (None, (upd s o (Some cn), h))
  | OpUncache o => Some (None, (s, h))
  | OpSetBestBlock h => Some (None, (s, h))
  | OpFlush => if IsNull_hash h then None else Some (None, (s, h))
  end.
Fixpoint spec_run (s : coins) (h : uint256) (ops : list cache_op) : option (list (option Coin) * (coins * uint256)) :=
  match ops with
  | [] => Some ([], (s, h))
  | op :: ops =>
      match spec_step s h op with
      | None => None
      | Some (a, (s, h)) =>
          match spec_run s h ops with None => None | Some (l, z) => Some (a :: l, z) end
      end
  end.

(** The simulation relation. *)
Definition implements c (s : coins) (h : uint256) : Prop :=
  cache_ok c ∧ shows c ≐ s ∧ hashBlock c = h.

Lemma becomes_implements c c' s t h :
  implements c s h → becomes c c' t → implements c' t h.
Proof. intros (? & ? & <-) (? & ? & ? & ?). by split_and!. Qed.

Lemma cache_step_simulates c s h op a s' h' :
  implements c s h → spec_step s h op = Some (a, (s', h')) →
  ∃ c', cache_step c op = Ok (a, c') ∧ implements c' s' h'.
Proof.
  intros Hi Hsp. pose proof Hi as (Hc & Hs & Hh).
  destruct op as [o|o|o|o cn ow|o|h1|]; simpl in Hsp |- *.
  - injection Hsp as <- <- <-. destruct (GetCoin_shows c o Hc) as (c' & -> & Hb). rewrite Hs.
    eexists; split; [done|]. eapply becomes_implements; [done|]. by eapply becomes_same.
  - injection Hsp as <- <- <-. destruct (HaveCoin_shows c o Hc) as (c' & -> & Hb). rewrite Hs.
    eexists; split; [|eapply becomes_implements; [done|by eapply becomes_same]].
    by destruct (s o).
  - injection Hsp as <- <- <-. destruct (SpendCoin_shows c o Hc) as (r & c' & -> & Hb & Ho).
    rewrite Hs in Ho. rewrite Ho. eexists; split; [done|].
    eapply becomes_implements; [done|]. eapply becomes_same; [done|]. by rewrite Hs.
  - destruct (IsSpent cn) eqn:H1; [done|]. destruct (IsUnspendable (scriptPubKey (out cn))) eqn:H2.
    + injection Hsp as <- <- <-. unfold AddCoin. rewrite H1, H2. by eexists.
    + destruct (negb ow && bool_decide (is_Some (s o))) eqn:H3; [done|]. injection Hsp as <- <- <-.
      destruct (AddCoin_shows c o cn ow) as (c' & -> & Hb); [done..| |].
      * intros ->. apply bool_decide_eq_false in H3. rewrite Hs. by apply eq_None_not_Some.
      * eexists; split; [done|]. eapply becomes_implements; [done|]. eapply becomes_same; [done|]. by rewrite Hs.
  - injection Hsp as <- <- <-. eexists; split; [done|]. eapply becomes_implements; [done|].
    eapply becomes_same; [by apply Uncache_shows|done].
  - injection Hsp as <- <- <-. by eexists.
  - destruct (IsNull_hash h) eqn:Hn; [done|]. injection Hsp as <- <- <-. rewrite <- Hh in Hn.
    destruct (Flush_shows c Hc Hn) as (c' & -> & ? & ? & _ & Hs' & _).
    eexists; split; [done|]. split_and!; [done|by rewrite Hs'|congruence].
Qed.

(** C5: The cache implements a map.  Take any view that keeps the coin-view
    contract (the database, or another cache) and a cache over it that shows
    the coins [s].  Any sequence of reads, spends, additions, evictions and
    flushes that a plain map of unspent coins would accept succeeds on the
    cache, gives the same answers, and leaves a cache that shows the map's
    final contents, whatever the DIRTY and FRESH flags did on the way. *)
Theorem coins_cache_refines_map ops c s h answers s' h' :
  implements c s h → spec_run s h ops = Some (answers, (s', h')) →
  ∃ c', cache_run c ops = Ok (answers, c') ∧ implements c' s' h'.
Proof.
  revert c s h answers. induction ops as [|op ops IH]; intros c s h answers Hi Hsp; simpl in Hsp |- *.
  { injection Hsp as <- <- <-. by eexists. }
  destruct (spec_step s h op) as [[a [s1 h1]]|] eqn:Hst; [|done].
  destruct (spec_run s1 h1 ops) as [[l z]|] eqn:Hr; [|done]. injection Hsp as <- ->.
  destruct (cache_step_simulates c s h op a s1 h1 Hi Hst) as (c1 & -> & Hi1). simpl.
  destruct (IH c1 s1 h1 l Hi1 Hr) as (c' & -> & ?). by eexists.
Qed.

End Machine.

Section Transactions.
Context {V : Type} `{CoinsViewReads V}.
Implicit Types c : CCoinsViewCache V.

(** ** Transactions *)

Fixpoint spec_spend (s : coins) (l : list CTxIn) : coins :=
  match l with [] => s | i :: l => spec_spend (upd s (prevout i) None) l end.
Fixpoint spec_add (s : coins) (txid : uint256) (i : Z) (outs : list CTxOut) (height : Z) (cb cs : bool) : coins :=
  match outs with
  | [] => s
  | o :: outs =>
      spec_add (if IsUnspendable (scriptPubKey o) then s
                else upd s (mk_outpoint txid i) (Some (new_coin o height cb cs))) txid (i + 1) outs height cb cs
  end.
Definition spec_update `{Crypto} (s : coins) (tx : CTransaction) (height : Z) : coins :=
  spec_add (if IsCoinBase tx then s else spec_spend s (vin tx)) (GetHash tx) 0 (vout tx) height (IsCoinBase tx) (IsCoinStake tx).

(** The undo record of a list of inputs. *)
Definition undo_of (s : coins) (l : list CTxIn) : list Coin :=
  map (λ i, default coinEmpty (s (prevout i))) l.

Definition spendable (s : coins) (l : list CTxIn) : Prop :=
  NoDup (map prevout l) ∧ Forall (λ i, is_Some (s (prevout i))) l.

Lemma spec_spend_lookup l : ∀ s o, spec_spend s l o = if decide (o ∈ map prevout l) then None else s o.
Proof.
  induction l as [|i l IH]; intros s o; cbn [spec_spend map]; [done|].
  rewrite IH. unfold upd. repeat case_decide; set_solver.
Qed.
#[global] Instance spec_spend_proper : Proper (same_coins ==> eq ==> same_coins) spec_spend.
Proof. intros s t Hst l ? <- o. rewrite !spec_spend_lookup. by rewrite Hst. Qed.

Lemma spend_inputs_shows l : ∀ c,
  cache_ok c → spendable (shows c) l →
  ∃ c', spend_inputs c l = Ok (undo_of (shows c) l, c') ∧ becomes c c' (spec_spend (shows c) l).
Proof.
  induction l as [|i l IH]; intros c Hc [Hnd Hall]; cbn [spend_inputs spec_spend]; [by eexists|].
  apply NoDup_cons in Hnd as [Hi Hnd]. apply Forall_cons in Hall as [[cn Hcn] Hall].
  destruct (SpendCoin_shows c (prevout i) Hc) as (r & c1 & -> & Hb & Ho).
  rewrite Hcn in Ho. destruct r as [cn'|]; [|done]. simpl in Ho.
  destruct (IsSpent cn') eqn:?; [done|]. injection Ho as <-.
  pose proof Hb as (Hc1 & _ & _ & Hs1).
  assert (∀ j, j ∈ l → shows c1 (prevout j) = shows c (prevout j)) as Hrest.
  { intros j Hj. rewrite Hs1. apply upd_ne. intros Heq. apply Hi. rewrite Heq.
    apply list_elem_of_fmap. by exists j. }
  destruct (IH c1 Hc1) as (c2 & -> & Hb2).
  { split; [done|]. apply Forall_forall. intros j Hj. rewrite Hrest by done.
    by eapply Forall_forall in Hall. }
  eexists. split; [|eapply becomes_trans; [done|]; eapply becomes_same; [done|by rewrite Hs1]].
  simpl. rewrite Hcn. simpl. do 2 f_equal.
  f_equal. unfold undo_of. apply list_fmap_ext. intros k j Hj%list_elem_of_lookup_2.
  by rewrite Hrest.
Qed.

(** No output of a transaction, from index [i] on, exists yet. *)
Definition unborn (s : coins) (txid : uint256) (i : Z) (outs : list CTxOut) : Prop :=
  ∀ j, i ≤ j < i + Z.of_nat (length outs) → s (mk_outpoint txid j) = None.
Lemma unborn_tail s txid i o outs : unborn s txid i (o :: outs) → unborn s txid (i + 1) outs.
Proof. intros Hu j Hj. apply Hu. simpl. lia. Qed.
Lemma unborn_upd s txid i j x outs : j < i → unborn s txid i outs → unborn (upd s (mk_outpoint txid j) x) txid i outs.
Proof. intros Hj Hu k Hk. rewrite upd_ne; [by apply Hu|]. intros [= ->]. lia. Qed.
Lemma unborn_same s t txid i outs : s ≐ t → unborn s txid i outs → unborn t txid i outs.
Proof. intros Hst Hu j Hj. rewrite <- (Hst _). by apply Hu. Qed.

#[global] Instance spec_add_proper :
  Proper (same_coins ==> eq ==> eq ==> eq ==> eq ==> eq ==> eq ==> same_coins) spec_add.
Proof.
  intros s t Hst txid ? <- i ? <- outs ? <- height ? <- cb ? <- cs ? <-. revert s t Hst i.
  induction outs as [|o outs IH]; intros s t Hst i; cbn [spec_add]; [done|].
  apply IH. destruct (IsUnspendable (scriptPubKey o)); [done|]. by rewrite Hst.
Qed.
Lemma spec_add_before txid height cb cs outs : ∀ s i j,
  j < i → spec_add s txid i outs height cb cs (mk_outpoint txid j) = s (mk_outpoint txid j).
Proof.
  induction outs as [|o outs IH]; intros s i j Hj; cbn [spec_add]; [done|].
  rewrite IH by lia. destruct (IsUnspendable (scriptPubKey o)); [done|].
  rewrite upd_ne; [done|]. intros [= ->]. lia.
Qed.
Lemma spec_add_upd txid height cb cs outs : ∀ s i j x,
  j < i → upd (spec_add s txid i outs height cb cs) (mk_outpoint txid j) x
          ≐ spec_add (upd s (mk_outpoint txid j) x) txid i outs height cb cs.
Proof.
  induction outs as [|o outs IH]; intros s i j x Hj; cbn [spec_add]; [done|].
  rewrite IH by lia. destruct (IsUnspendable (scriptPubKey o)); [done|].
  rewrite upd_comm; [done|]. intros [= ->]. lia.
Qed.

Lemma add_outputs_shows txid height cb cs outs : ∀ c i,
  cache_ok c → Forall (λ o, IsNull_txout o = false) outs → (cb = false → unborn (shows c) txid i outs) →
  ∃ c', add_outputs c txid i outs height false cb cs = Ok c' ∧
        becomes c c' (spec_add (shows c) txid i outs height cb cs).
Proof.
  induction outs as [|o outs IH]; intros c i Hc Hnull Hu; cbn [add_outputs spec_add]; [by eexists|].
  apply Forall_cons in Hnull as [Ho Hnull].
  destruct (IsUnspendable (scriptPubKey o)) eqn:Hun.
  - unfold AddCoin at 1. change (IsSpent (new_coin o height cb cs)) with (IsNull_txout o). rewrite Ho.
    change (scriptPubKey (out (new_coin o height cb cs))) with (scriptPubKey o). rewrite Hun.
    apply IH; [done..|]. intros Hcb. by apply unborn_tail with o, Hu.
  - destruct (AddCoin_shows c (mk_outpoint txid i) (new_coin o height cb cs) cb) as (c1 & -> & Hb); [done..| |].
    { intros Hcb. apply Hu; [done|]. simpl. lia. }
    pose proof Hb as (Hc1 & _ & _ & Hs1).
    destruct (IH c1 (i + 1)) as (c2 & Ha & Hb2); [done..| |].
    { intros Hcb. eapply unborn_same; [symmetry; exact Hs1|].
      apply unborn_upd; [lia|]. by apply unborn_tail with o, Hu. }
    exists c2. split; [exact Ha|]. eapply becomes_trans; [done|]. eapply becomes_same; [done|].
    by rewrite Hs1.
Qed.

(** [tx] can be connected on the coins [s]. *)
Definition connectable `{Crypto} (s : coins) (tx : CTransaction) : Prop :=
  (IsCoinBase tx = false → spendable s (vin tx)) ∧
  unborn s (GetHash tx) 0 (vout tx) ∧ Forall (λ o, IsNull_txout o = false) (vout tx).

Lemma unborn_spend s l txid i outs : unborn s txid i outs → unborn (spec_spend s l) txid i outs.
Proof. intros Hu j Hj. rewrite spec_spend_lookup. case_decide; [done|]. by apply Hu. Qed.

Lemma UpdateCoins_shows `{Crypto} c tx height :
  cache_ok c → connectable (shows c) tx →
  ∃ c', UpdateCoins c tx height = Ok (if IsCoinBase tx then [] else undo_of (shows c) (vin tx), c') ∧
        becomes c c' (spec_update (shows c) tx height).
Proof.
  intros Hc (Hsp & Hu & Hn). unfold UpdateCoins, AddCoins, spec_update. destruct (IsCoinBase tx) eqn:Hcb; simpl.
  - destruct (add_outputs_shows (GetHash tx) height true (IsCoinStake tx) (vout tx) c 0) as (c' & -> & ?); [done..|].
    by eexists.
  - destruct (spend_inputs_shows (vin tx) c Hc (Hsp eq_refl)) as (c1 & -> & Hb). simpl.
    pose proof Hb as (Hc1 & _ & _ & Hs1).
    destruct (add_outputs_shows (GetHash tx) height false (IsCoinStake tx) (vout tx) c1 0) as (c' & -> & Hb'); [done..| |].
    { intros _. eapply unborn_same; [symmetry; exact Hs1|]. by apply unborn_spend. }
    simpl. eexists; split; [done|]. eapply becomes_trans; [done|]. eapply becomes_same; [done|]. by rewrite Hs1.
Qed.

(** ** Undoing a transaction *)

(** Coins that the undo code can restore from their own record. *)
Definition restorable (cn : Coin) : Prop :=
  nHeight cn ≠ 0 ∧ IsSpent cn = false ∧ IsUnspendable (scriptPubKey (out cn)) = false.
Definition all_restorable (s : coins) : Prop := ∀ o cn, s o = Some cn → restorable cn.

Lemma all_restorable_same s t : s ≐ t → all_restorable s → all_restorable t.
Proof. intros Hst Hs o cn Ho. apply (Hs o). by rewrite (Hst o). Qed.
Lemma all_restorable_spend s l : all_restorable s → all_restorable (spec_spend s l).
Proof. intros Hs o cn. rewrite spec_spend_lookup. case_decide; [done|by apply Hs]. Qed.
Lemma all_restorable_add s txid i outs height cb cs :
  0 < height < 2 ^ 30 → Forall (λ o, IsNull_txout o = false) outs →
  all_restorable s → all_restorable (spec_add s txid i outs height cb cs).
Proof.
  intros Hh Hn. revert s i. induction Hn as [|o outs Ho _ IH]; intros s i Hs; cbn [spec_add]; [done|].
  apply IH. destruct (IsUnspendable (scriptPubKey o)) eqn:Hu; [done|].
  intros p cn. unfold upd. case_decide; [|by apply Hs]. intros [= <-]. split_and!; [|done..].
  simpl. rewrite wrap_small by (unfold in_u; lia). lia.
Qed.
Lemma all_restorable_update `{Crypto} s tx height :
  0 < height < 2 ^ 30 → connectable s tx → all_restorable s → all_restorable (spec_update s tx height).
Proof.
  intros Hh (_ & _ & Hn) Hs. apply all_restorable_add; [done..|].
  destruct (IsCoinBase tx); [done|by apply all_restorable_spend].
Qed.

Lemma disconnect_outputs_shows txid height cb cs outs fClean : ∀ c s i,
  cache_ok c → 0 < height < 2 ^ 30 → Forall (λ o, IsNull_txout o = false) outs →
  unborn s txid i outs → shows c ≐ spec_add s txid i outs height cb cs →
  ∃ c', disconnect_outputs c txid height cb cs i outs fClean = (fClean, c') ∧ becomes c c' s.
Proof.
  induction outs as [|o outs IH]; intros c s i Hc Hh Hnull Hu Hs; cbn [disconnect_outputs spec_add] in *.
  { by exists c. }
  apply Forall_cons in Hnull as [Ho Hnull]. apply unborn_tail in Hu as Hu'.
  destruct (IsUnspendable (scriptPubKey o)) eqn:Hun; [by apply IH|].
  destruct (SpendCoin_shows c (mk_outpoint txid i) Hc) as (r & c1 & -> & Hb & Hr).
  rewrite Hs, spec_add_before, upd_eq in Hr by lia.
  destruct r as [cn|]; [|done]. simpl in Hr. destruct (IsSpent cn); [done|]. injection Hr as <-.
  pose proof Hb as (Hc1 & _ & _ & Hs1).
  destruct (IH c1 s (i + 1)) as (c' & Hd & Hb'); [done..| |].
  { rewrite Hs1, Hs, spec_add_upd, upd_upd by lia. rewrite upd_id; [done|]. apply Hu. simpl. lia. }
  exists c'. split; [|by eapply becomes_trans].
  cbn [out nHeight fCoinBase fCoinStake new_coin]. rewrite wrap_small by (unfold in_u; lia).
  rewrite bool_decide_true, Z.eqb_refl, !eqb_reflx, andb_true_r by done. exact Hd.
Qed.

Lemma ApplyTxInUndo_shows MAX c o cn :
  cache_ok c → shows c o = None → restorable cn →
  ∃ c', ApplyTxInUndo MAX cn c o = Ok (DISCONNECT_OK, c') ∧ becomes c c' (upd (shows c) o (Some cn)).
Proof.
  intros Hc Ho (Hh & Hs & Hu). unfold ApplyTxInUndo.
  destruct (HaveCoin_shows c o Hc) as (c1 & -> & Hb). rewrite Ho.
  rewrite (proj2 (Z.eqb_neq _ _) Hh). pose proof Hb as (Hc1 & _ & _ & Hs1).
  destruct (AddCoin_shows c1 o cn false) as (c2 & Ha & Hb2); [done..|by rewrite Hs1|].
  exists c2. change (negb (negb (bool_decide (is_Some None)))) with false.
  rewrite Ha. split; [done|]. eapply becomes_trans; [done|]. eapply becomes_same; [done|]. by rewrite Hs1.
Qed.

Fixpoint spec_restore (s : coins) (l : list (CTxIn * Coin)) : coins :=
  match l with [] => s | (i, cn) :: l => spec_restore (upd s (prevout i) (Some cn)) l end.

Lemma restore_inputs_shows MAX fClean l : ∀ c,
  cache_ok c → NoDup (map (λ p, prevout p.1) l) →
  Forall (λ p, shows c (prevout p.1) = None ∧ restorable p.2) l →
  ∃ c', restore_inputs MAX c l fClean = Ok (Some fClean, c') ∧ becomes c c' (spec_restore (shows c) l).
Proof.
  induction l as [|[i cn] l IH]; intros c Hc Hnd Hall; cbn [restore_inputs spec_restore]; [by eexists|].
  apply NoDup_cons in Hnd as [Hi Hnd]. apply Forall_cons in Hall as [[Ho Hr] Hall].
  destruct (ApplyTxInUndo_shows MAX c (prevout i) cn Hc Ho Hr) as (c1 & -> & Hb). simpl.
  pose proof Hb as (Hc1 & _ & _ & Hs1).
  destruct (IH c1) as (c2 & Hre & Hb2); [done..| |].
  { apply Forall_forall. intros p Hp. eapply Forall_forall in Hall as [H1 H2]; [|done].
    split; [|done]. rewrite Hs1, upd_ne; [done|]. intros Heq. apply Hi. simpl. rewrite Heq.
    apply list_elem_of_fmap. by exists p. }
  exists c2. split; [exact Hre|]. eapply becomes_trans; [done|]. eapply becomes_same; [done|].
  clear -Hs1. revert Hs1. generalize (upd (shows c) (prevout i) (Some cn)) (shows c1). clear.
  induction l as [|[j cn] l IH]; intros s t Hst; cbn [spec_restore]; [done|]. apply IH. by rewrite Hst.
Qed.

Lemma spec_restore_lookup s l : ∀ t o,
  Forall (λ p, s (prevout p.1) = Some p.2) l →
  spec_restore t l o = if decide (o ∈ map (λ p, prevout p.1) l) then s o else t o.
Proof.
  induction l as [|[i cn] l IH]; intros t o Hl; cbn [spec_restore map]; [done|].
  apply Forall_cons in Hl as [Hi Hl]. rewrite IH by done. unfold upd. simpl in *.
  repeat case_decide; set_solver.
Qed.

Lemma undo_zip s l : spendable s l → Forall (λ p, s (prevout p.1) = Some p.2) (zip l (undo_of s l)).
Proof.
  intros [_ Hl]. induction Hl as [|i l [cn Hi] _ IH]; simpl; [done|].
  constructor; [simpl; by rewrite Hi|done].
Qed.
Lemma map_zip_undo s l : map (λ p, prevout p.1) (zip l (undo_of s l)) = map prevout l.
Proof. induction l as [|i l IH]; simpl; [done|]. by f_equal. Qed.

(** Spending inputs and restoring them, last first, from the undo record. *)
Lemma spend_restore MAX fClean c s l :
  cache_ok c → spendable s l → all_restorable s → shows c ≐ spec_spend s l →
  ∃ c', restore_inputs MAX c (rev (zip l (undo_of s l))) fClean = Ok (Some fClean, c') ∧ becomes c c' s.
Proof.
  intros Hc Hsp Hr Hs. pose proof (undo_zip s l Hsp) as Hz.
  assert (Forall (λ p, s (prevout p.1) = Some p.2) (rev (zip l (undo_of s l)))) as Hz'
    by (rewrite Forall_forall; intros p Hp; eapply Forall_forall in Hz; [done|];
        by rewrite list_elem_of_In, <- in_rev, <- list_elem_of_In in Hp).
  assert (map (λ p : CTxIn * Coin, prevout p.1) (rev (zip l (undo_of s l))) = rev (map prevout l)) as Hm
    by (by rewrite map_rev, map_zip_undo).
  destruct (restore_inputs_shows MAX fClean (rev (zip l (undo_of s l))) c) as (c' & -> & Hb); [done|..].
  - rewrite Hm. apply NoDup_ListNoDup, NoDup_rev, NoDup_ListNoDup. apply Hsp.
  - apply Forall_forall. intros p Hp. eapply Forall_forall in Hz'; [|done]. split; [|by eapply Hr].
    rewrite Hs, spec_spend_lookup, decide_True; [done|].
    rewrite list_elem_of_In, in_rev, <- Hm. rewrite <- list_elem_of_In. apply list_elem_of_fmap. by exists p.
  - eexists; split; [done|]. eapply becomes_same; [done|]. intros o.
    rewrite (spec_restore_lookup s) by done. rewrite Hs, spec_spend_lookup, Hm.
    repeat case_decide; try done. exfalso. by rewrite list_elem_of_In, <- in_rev, <- list_elem_of_In in *.
Qed.

Lemma disconnect_tx_shows `{Crypto} MAX fClean c s tx height :
  cache_ok c → 0 < height < 2 ^ 30 → connectable s tx → all_restorable s →
  shows c ≐ spec_update s tx height →
  ∃ c', disconnect_tx MAX c height tx (if IsCoinBase tx then None else Some (undo_of s (vin tx))) fClean
        = Ok (Some fClean, c') ∧ becomes c c' s.
Proof.
  intros Hc Hh (Hsp & Hu & Hn) Hr Hs. unfold disconnect_tx. unfold spec_update in Hs.
  set (s1 := if IsCoinBase tx then s else spec_spend s (vin tx)) in Hs.
  destruct (disconnect_outputs_shows (GetHash tx) height (IsCoinBase tx) (IsCoinStake tx) (vout tx) fClean c s1 0)
    as (c1 & -> & Hb); [done..| |done|].
  { unfold s1. destruct (IsCoinBase tx); [done|]. by apply unborn_spend. }
  unfold s1 in *. destruct (IsCoinBase tx) eqn:Hcb; [by eexists|].
  rewrite (proj2 (Z.eqb_eq _ _)) by (unfold undo_of; by rewrite length_map). simpl.
  pose proof Hb as (Hc1 & _ & _ & Hs1).
  destruct (spend_restore MAX fClean c1 s (vin tx) Hc1 (Hsp eq_refl) Hr Hs1) as (c2 & -> & Hb2).
  eexists; split; [done|]. by eapply becomes_trans.
Qed.

(** ** Blocks *)

Fixpoint spec_txs `{Crypto} (s : coins) (height : Z) (vtx : list CTransaction) : coins :=
  match vtx with [] => s | tx :: vtx => spec_txs (spec_update s tx height) height vtx end.
Fixpoint connectable_txs `{Crypto} (s : coins) (height : Z) (vtx : list CTransaction) : Prop :=
  match vtx with
  | [] => True
  | tx :: vtx => connectable s tx ∧ connectable_txs (spec_update s tx height) height vtx
  end.
Fixpoint undos `{Crypto} (s : coins) (height : Z) (vtx : list CTransaction) : list (list Coin) :=
  match vtx with
  | [] => []
  | tx :: vtx => (if IsCoinBase tx then [] else undo_of s (vin tx)) :: undos (spec_update s tx height) height vtx
  end.

#[global] Instance spec_update_proper `{Crypto} : Proper (same_coins ==> eq ==> eq ==> same_coins) spec_update.
Proof.
  intros s t Hst tx ? <- height ? <-. unfold spec_update. apply spec_add_proper; try done.
  destruct (IsCoinBase tx); [done|]. by rewrite Hst.
Qed.
Lemma undo_of_same s t l : s ≐ t → undo_of s l = undo_of t l.
Proof. intros Hst. apply map_ext. intros i. by rewrite Hst. Qed.
Lemma connectable_same `{Crypto} s t tx : s ≐ t → connectable s tx → connectable t tx.
Proof.
  intros Hst (Hsp & Hu & Hn). split_and!; [|by eapply unborn_same|done].
  intros Hcb. destruct (Hsp Hcb) as [Hnd Hall]. split; [done|].
  eapply Forall_impl; [exact Hall|]. intros i Hi. simpl in Hi |- *. by rewrite <- (Hst (prevout i)).
Qed.

Lemma update_txs_shows `{Crypto} height vtx : ∀ c s,
  cache_ok c → shows c ≐ s → connectable_txs s height vtx →
  ∃ c', update_txs c height vtx = Ok (undos s height vtx, c') ∧ becomes c c' (spec_txs s height vtx).
Proof.
  induction vtx as [|tx vtx IH]; intros c s Hc Hs Hcon; cbn [update_txs undos spec_txs]; [by eexists|].
  destruct Hcon as [Hcon Hcons].
  destruct (UpdateCoins_shows c tx height Hc) as (c1 & -> & Hb).
  { eapply connectable_same; [symmetry; exact Hs|done]. }
  pose proof Hb as (Hc1 & _ & _ & Hs1). simpl.
  destruct (IH c1 (spec_update s tx height)) as (c2 & -> & Hb2); [done|by rewrite Hs1, Hs|done|].
  simpl. rewrite (undo_of_same _ _ _ Hs). eexists; split; [done|]. by eapply becomes_trans.
Qed.

Lemma disconnect_txs_app `{Crypto} MAX height l1 l2 : ∀ c c1 fc fc1,
  disconnect_txs MAX c height l1 fc = Ok (Some fc1, c1) →
  disconnect_txs MAX c height (l1 ++ l2) fc = disconnect_txs MAX c1 height l2 fc1.
Proof.
  induction l1 as [|[tx u] l1 IH]; intros c c1 fc fc1; cbn [app disconnect_txs]; [by intros [= <- <-]|].
  destruct (disconnect_tx MAX c height tx u fc) as [[[b|] c']|]; simpl; [|done..]. apply IH.
Qed.

(** Every transaction of a block with its undo record. *)
Fixpoint with_undos `{Crypto} (s : coins) (height : Z) (vtx : list CTransaction) : list (CTransaction * option (list Coin)) :=
  match vtx with
  | [] => []
  | tx :: vtx => (tx, if IsCoinBase tx then None else Some (undo_of s (vin tx)))
                 :: with_undos (spec_update s tx height) height vtx
  end.
Lemma disconnect_txs_shows `{Crypto} MAX fClean height vtx : ∀ c s,
  cache_ok c → 0 < height < 2 ^ 30 → connectable_txs s height vtx → all_restorable s →
  shows c ≐ spec_txs s height vtx →
  ∃ c', disconnect_txs MAX c height (rev (with_undos s height vtx)) fClean = Ok (Some fClean, c') ∧ becomes c c' s.
Proof.
  induction vtx as [|tx vtx IH]; intros c s Hc Hh Hcon Hr Hs; cbn [with_undos rev]; [by eexists|].
  destruct Hcon as [Hcon Hcons].
  destruct (IH c (spec_update s tx height)) as (c1 & Hd & Hb); [done..|by apply all_restorable_update|done|].
  rewrite (disconnect_txs_app _ _ _ _ _ _ _ _ Hd). cbn [disconnect_txs].
  pose proof Hb as (Hc1 & _ & _ & Hs1).
  destruct (disconnect_tx_shows MAX fClean c1 s tx height) as (c2 & -> & Hb2); [done..|].
  eexists; split; [done|]. by eapply becomes_trans.
Qed.

Lemma zip_undos `{Crypto} s height vtx :
  Forall (λ tx, IsCoinBase tx = false) vtx →
  zip vtx (map Some (undos s height vtx)) = with_undos s height vtx.
Proof.
  intros Hl. revert s. induction Hl as [|tx vtx Htx _ IH]; intros s; simpl; [done|].
  rewrite Htx. by rewrite IH.
Qed.
Lemma length_undos `{Crypto} height vtx : ∀ s, length (undos s height vtx) = length vtx.
Proof. induction vtx; intros; simpl; [done|]. by f_equal. Qed.

(** Disconnecting a block from a view that shows what it left. *)
Lemma DisconnectBlock_shows `{Crypto} MAX c s height blockHash prevHash coinbase txs :
  cache_ok c → 0 < height < 2 ^ 30 → IsNull_hash blockHash = false → all_restorable s →
  IsCoinBase coinbase = true → Forall (λ tx, IsCoinBase tx = false) txs →
  connectable_txs s height (coinbase :: txs) → shows c ≐ spec_txs s height (coinbase :: txs) → hashBlock c = blockHash →
  ∃ c2, DisconnectBlock MAX (coinbase :: txs) blockHash prevHash height
          (Some (undos (spec_update s coinbase height) height txs)) c = Ok (DISCONNECT_OK, c2) ∧
    cache_ok c2 ∧ shows c2 ≐ s ∧ hashBlock c2 = prevHash.
Proof.
  intros Hc Hh Hbh Hr Hcb Htxs Hcon Hs Hbest.
  destruct (disconnect_txs_shows MAX true height (coinbase :: txs) c s) as (c2 & Hd & (Hc2 & _ & _ & Hs2)); [done..|].
  exists (SetBestBlock c2 prevHash). split_and!; [|done..]. unfold DisconnectBlock.
  assert (blockHash = cache_GetBestBlock c) as Hget by (unfold cache_GetBestBlock; by rewrite Hbest, Hbh).
  rewrite (bool_decide_true _ Hget), length_undos. cbn [negb length].
  rewrite (proj2 (Z.eqb_eq _ _)) by lia. cbn [negb zip_with].
  rewrite zip_undos by done. cbn [with_undos] in Hd. rewrite Hcb in Hd. rewrite Hd. done.
Qed.

(** Disconnecting a block undoes connecting it.  Take a cache in a
    consistent state and a block (a coinbase followed by other transactions)
    whose transactions can be connected in turn: inputs present and distinct,
    outputs not there yet.  Connecting the block succeeds, records the undo
    data, and leaves the coins the transactions describe; disconnecting it with
    that undo data reports a clean result, and the cache again shows exactly
    the coins it showed before, with the previous block as its best block. *)
Theorem disconnect_undoes_connect `{Crypto} MAX c height blockHash prevHash coinbase txs :
  cache_ok c → 0 < height < 2 ^ 30 → IsNull_hash blockHash = false → all_restorable (shows c) →
  IsCoinBase coinbase = true → Forall (λ tx, IsCoinBase tx = false) txs →
  connectable_txs (shows c) height (coinbase :: txs) →
  ∃ undo c1 c2,
    connect_coins c height blockHash (coinbase :: txs) = Ok (undo, c1) ∧
    cache_ok c1 ∧ shows c1 ≐ spec_txs (shows c) height (coinbase :: txs) ∧
    DisconnectBlock MAX (coinbase :: txs) blockHash prevHash height (Some undo) c1 = Ok (DISCONNECT_OK, c2) ∧
    cache_ok c2 ∧ shows c2 ≐ shows c ∧ hashBlock c2 = prevHash.
Proof.
  intros Hc Hh Hbh Hr Hcb Htxs Hcon.
  destruct (update_txs_shows height (coinbase :: txs) c (shows c)) as (c0 & Hup & Hb); [done..|].
  pose proof Hb as (Hc0 & _ & _ & Hs0).
  destruct (DisconnectBlock_shows MAX (SetBestBlock c0 blockHash) (shows c) height blockHash prevHash coinbase txs)
    as (c2 & Hd & Hrest); [done..|].
  exists (undos (spec_update (shows c) coinbase height) height txs), (SetBestBlock c0 blockHash), c2.
  split_and!; [unfold connect_coins; by rewrite Hup|done|done|exact Hd|apply Hrest..].
Qed.
End Transactions.

(** ** Examples *)

Definition sample_coin : Coin := new_coin (mk_txout 5000 [OP_1]) 7 false false.
Definition sample_outpoint : COutPoint := mk_outpoint (replicate 32 9) 3.
Definition sample_db : CCoinsViewDB := mk_db {[ sample_outpoint := sample_coin ]} (replicate 32 1) [].
Definition sample_cache : CCoinsViewCache CCoinsViewDB := mk_cache sample_db ∅ (replicate 32 1).

Lemma sample_db_coins o cn : GetCoin sample_db o = Some cn → o = sample_outpoint ∧ cn = sample_coin.
Proof. simpl. by intros [-> ->]%lookup_singleton_Some. Qed.
Lemma sample_cache_ok : cache_ok sample_cache.
Proof.
  split; [|intros o e; simpl; by rewrite lookup_empty].
  split; [done|]. intros o cn [_ ->]%sample_db_coins. done.
Qed.
Lemma sample_shows o : shows sample_cache o = GetCoin sample_db o.
Proof. done. Qed.

Lemma coins_cache_refines_map_witness :
  ∃ c', cache_run sample_cache
          [OpHave sample_outpoint; OpSpend sample_outpoint; OpAdd null_outpoint sample_coin true; OpFlush; OpGet null_outpoint]
        = Ok ([Some coinEmpty; Some sample_coin; None; None; Some sample_coin], c').
Proof.
  destruct (coins_cache_refines_map
    [OpHave sample_outpoint; OpSpend sample_outpoint; OpAdd null_outpoint sample_coin true; OpFlush; OpGet null_outpoint]
    sample_cache (shows sample_cache) (replicate 32 1)
    [Some coinEmpty; Some sample_coin; None; None; Some sample_coin]
    (upd (upd (shows sample_cache) sample_outpoint None) null_outpoint (Some sample_coin)) (replicate 32 1)) as (c' & H & _).
  - split_and!; [apply sample_cache_ok|done|done].
  - reflexivity.
  - by exists c'.
Defined.

(** A coinbase, and a transaction that spends the coin of the database. *)
Definition sample_coinbase : CTransaction :=
  mk_tx [mk_txin null_outpoint [1; 1] SEQUENCE_FINAL []] [mk_txout 0 []] 2 0.
Definition sample_spend : CTransaction :=
  mk_tx [mk_txin sample_outpoint [] SEQUENCE_FINAL []] [mk_txout 4000 [OP_1]; mk_txout 900 [OP_RETURN]] 2 0.

Lemma disconnect_undoes_connect_witness :
  ∃ undo c1 c2,
    connect_coins (H0 := toy_crypto) sample_cache 8 (replicate 32 2) [sample_coinbase; sample_spend] = Ok (undo, c1) ∧
    DisconnectBlock (H0 := toy_crypto) 1000 [sample_coinbase; sample_spend] (replicate 32 2) (replicate 32 1) 8 (Some undo) c1
      = Ok (DISCONNECT_OK, c2) ∧
    shows c2 sample_outpoint = Some sample_coin.
Proof.
  destruct (disconnect_undoes_connect (H1 := toy_crypto) 1000 sample_cache 8 (replicate 32 2) (replicate 32 1)
    sample_coinbase [sample_spend]) as (undo & c1 & c2 & H1 & _ & _ & H2 & _ & H3 & _).
  - apply sample_cache_ok.
  - lia.
  - reflexivity.
  - intros o cn. rewrite sample_shows. intros [_ ->]%sample_db_coins. by vm_compute.
  - reflexivity.
  - repeat constructor.
  - split; [split_and!|split; [split_and!|exact I]].
    + discriminate.
    + intros j Hj. assert (j = 0) as -> by (simpl in Hj; lia). reflexivity.
    + repeat constructor.
    + intros _. split; [repeat constructor; set_solver|]. repeat constructor. by eexists.
    + intros j Hj. assert (j = 0 ∨ j = 1) as [-> | ->] by (simpl in Hj; lia); reflexivity.
    + repeat constructor.
  - exists undo, c1, c2. split_and!; [done|done|]. rewrite H3. reflexivity.
Defined.

(** Flushing a stack of caches reaches the database.  In a cache over a
    cache over the database, flushing the upper and then the lower one succeeds
    and leaves a database that holds exactly the coins the upper cache showed,
    with its best block. *)
Theorem flush_stack_reaches_database (c : CCoinsViewCache (CCoinsViewCache CCoinsViewDB)) :
  cache_ok c → IsNull_hash (hashBlock c) = false →
  ∃ c1 c2, Flush c = Ok c1 ∧ Flush (base c1) = Ok c2 ∧
    same_coins (λ o, db (base c2) !! o) (shows c) ∧ db_best (base c2) = hashBlock c.
Proof.
  intros Hc Hh. destruct (Flush_shows c Hc Hh) as (c1 & Hf & Hc1 & _ & _ & _ & Hbase & Hbest).
  pose proof Hc1 as [Hb1 _].
  assert (hashBlock (base c1) = hashBlock c) as Hh1.
  { unfold Flush in Hf. simpl in Hf. unfold cache_BatchWrite in Hf. inv_ok. done. }
  destruct (Flush_shows (base c1)) as (c2 & Hf2 & _ & _ & _ & _ & Hbase2 & Hbest2); [done|by rewrite Hh1|].
  exists c1, c2. split_and!; [done|done| |].
  - intros o. rewrite <- (Hbase o). exact (Hbase2 o).
  - rewrite <- Hh1. exact Hbest2.
Qed.

Lemma flush_stack_reaches_database_witness :
  ∃ c1 c2, Flush (mk_cache sample_cache {[ sample_outpoint := mk_entry coinEmpty true false ]} (replicate 32 5)) = Ok c1 ∧
    Flush (base c1) = Ok c2 ∧ db (base c2) !! sample_outpoint = None.
Proof.
  destruct (flush_stack_reaches_database
    (mk_cache sample_cache {[ sample_outpoint := mk_entry coinEmpty true false ]} (replicate 32 5)))
    as (c1 & c2 & H1 & H2 & H3 & _).
  - split; [exact sample_cache_ok|]. intros o e. simpl. by intros [<- <-]%lookup_singleton_Some.
  - reflexivity.
  - exists c1, c2. split_and!; [done|done|]. rewrite (H3 sample_outpoint). reflexivity.
Defined.
