(* ===== verification/Block.v ===== *)
(** * Blocks and Merkle roots (primitives/block.h, primitives/block.cpp,
      consensus/merkle.cpp)

    The header with its proof-of-stake fields, its two hashes, the block, and
    the Merkle root with its detection of duplicated transactions. *)
From S2P Require Import Prelude ArithUint256 Script Interpreter InterpreterFacts InterpreterSpecs Serialize Transaction.

(** ** Headers and blocks *)

Record CBlockHeader := mk_header {
  nVersion_blk : Z; hashPrevBlock : uint256; hashMerkleRoot : uint256; nTime_blk : Z; nBits_blk : Z; nNonce : Z;
  hashStateRoot : uint256; hashUTXORoot : uint256; prevoutStake_blk : COutPoint; vchBlockSig : bytes
}.
Record CBlock := mk_block { header : CBlockHeader; vtx : list CTransaction }.

Definition null_header : CBlockHeader :=
  mk_header 0 null_hash null_hash 0 0 0 null_hash null_hash null_outpoint [].
Definition IsNull_header (h : CBlockHeader) : bool := nBits_blk h =? 0.
Definition IsProofOfStake_header (h : CBlockHeader) : bool := negb (IsNull_outpoint (prevoutStake_blk h)).
Definition IsProofOfWork_header (h : CBlockHeader) : bool := negb (IsProofOfStake_header h).
Definition StakeTime (h : CBlockHeader) : Z := if IsProofOfStake_header h then nTime_blk h else 0.
Definition GetProofOfStake (b : CBlock) : COutPoint * Z :=
  if IsProofOfStake_header (header b) then (prevoutStake_blk (header b), nTime_blk (header b)) else (null_outpoint, 0).

(** [with_signature] is [!(s.GetType() & SER_WITHOUT_SIGNATURE)]. *)
Definition SerializeHeader (with_signature : bool) (h : CBlockHeader) : bytes :=
  ser_writedata32 (u32 (nVersion_blk h)) ++ hashPrevBlock h ++ hashMerkleRoot h
  ++ ser_writedata32 (nTime_blk h) ++ ser_writedata32 (nBits_blk h) ++ ser_writedata32 (nNonce h)
  ++ hashStateRoot h ++ hashUTXORoot h ++ Serialize (prevoutStake_blk h)
  ++ (if with_signature then Serialize (vchBlockSig h) else []).
Definition UnserializeHeader : reader CBlockHeader :=
  v ← ser_readdata32; hp ← read 32; hm ← read 32; t ← ser_readdata32; b ← ser_readdata32; k ← ser_readdata32;
  hs ← read 32; hu ← read 32; o ← Unserialize; sig ← Unserialize;
  mret (mk_header (i32 v) hp hm t b k hs hu o sig).

Definition SerializeBlock (b : CBlock) : bytes :=
  SerializeHeader true (header b) ++ WriteCompactSize (size (vtx b))
  ++ concat (SerializeTransaction true <$> vtx b).
Definition UnserializeBlock : reader CBlock :=
  h ← UnserializeHeader; n ← ReadCompactSize; txs ← read_many (UnserializeTransaction true) (Z.to_nat n);
  mret (mk_block h txs).

Section Hashes.
Context `{Crypto}.

Definition GetBlockHash (h : CBlockHeader) : uint256 := CHash256 (SerializeHeader true h).
Definition GetHashWithoutSign (h : CBlockHeader) : uint256 := CHash256 (SerializeHeader false h).

(** ** The Merkle root *)

(** [SHA256D64]: the double hash of each pair of neighbours. *)
Fixpoint SHA256D64 (hashes : list uint256) : list uint256 :=
  match hashes with
  | a :: b :: l => CHash256 (a ++ b) :: SHA256D64 l
  | _ => []
  end.

(** Whether two neighbours at even positions are equal. *)
Fixpoint equal_pair (hashes : list uint256) : bool :=
  match hashes with
  | a :: b :: l => bool_decide (a = b) || equal_pair l
  | _ => false
  end.

(** An odd list is completed with its last element. *)
Definition complete (hashes : list uint256) : list uint256 :=
  if Nat.odd (length hashes) then hashes ++ [List.last hashes null_hash] else hashes.

Fixpoint merkle_loop (fuel : nat) (hashes : list uint256) (mutation : bool) : list uint256 * bool :=
  match fuel with
  | O => (hashes, mutation)
  | S fuel =>
      if Z.of_nat (length hashes) >? 1 then
        merkle_loop fuel (SHA256D64 (complete hashes)) (mutation || equal_pair hashes)
      else (hashes, mutation)
  end.

(** The root and the flag [mutated]. *)
Definition ComputeMerkleRoot (hashes : list uint256) : uint256 * bool :=
  let '(hashes, mutation) := merkle_loop (length hashes) hashes false in
  (match hashes with [] => null_hash | h :: _ => h end, mutation).

Definition BlockMerkleRoot (b : CBlock) : uint256 * bool := ComputeMerkleRoot (GetHash <$> vtx b).

(** [None]: the code writes past the end of the leaves (an empty block, or a
    proof-of-stake block without a second transaction). *)
Definition BlockWitnessMerkleRoot (b : CBlock) (pfProofOfStake : option bool) : option (uint256 * bool) :=
  let fProofOfStake := default (IsProofOfStake_header (header b)) pfProofOfStake in
  match vtx b, fProofOfStake with
  | _ :: _ :: l, true => Some (ComputeMerkleRoot (null_hash :: null_hash :: (GetWitnessHash <$> l)))
  | _ :: l, false => Some (ComputeMerkleRoot (null_hash :: (GetWitnessHash <$> l)))
  | _, _ => None
  end.
End Hashes.

(** ** Round trips *)

Definition header_wf (h : CBlockHeader) : Prop :=
  in_s 32 (nVersion_blk h) ∧ in_u 32 (nTime_blk h) ∧ in_u 32 (nBits_blk h) ∧ in_u 32 (nNonce h) ∧
  size (hashPrevBlock h) = 32 ∧ size (hashMerkleRoot h) = 32 ∧ size (hashStateRoot h) = 32 ∧ size (hashUTXORoot h) = 32 ∧
  serializable (prevoutStake_blk h) ∧ serializable (vchBlockSig h).

Lemma header_roundtrip h rest :
  header_wf h → UnserializeHeader (SerializeHeader true h ++ rest) = Ok (h, rest).
Proof.
  destruct h as [v hp hm t b k hs hu o sig]. unfold header_wf, SerializeHeader, UnserializeHeader.
  cbn [nVersion_blk hashPrevBlock hashMerkleRoot nTime_blk nBits_blk nNonce hashStateRoot hashUTXORoot prevoutStake_blk vchBlockSig].
  intros (Hv & Ht & Hb & Hk & Hhp & Hhm & Hhs & Hhu & Ho & Hsig). rewrite <- !app_assoc.
  erewrite reader_bind_step by (apply read32_write; auto with bounds).
  do 2 erewrite reader_bind_step by (by apply read_app).
  do 3 erewrite reader_bind_step by (by apply read32_write).
  do 2 erewrite reader_bind_step by (by apply read_app).
  erewrite reader_bind_step by (by apply (unserialize_serialize (A:=COutPoint))).
  erewrite reader_bind_step by (by apply (unserialize_serialize (A:=bytes))).
  by rewrite i32_u32.
Qed.

Lemma tx_roundtrip tx rest :
  tx_wf tx → UnserializeTransaction true (SerializeTransaction true tx ++ rest) = Ok (tx, rest).
Proof.
  intros Hwf. destruct (HasWitness tx) eqn:Hw; [by apply tx_read_extended|].
  rewrite tx_read_basic by (rewrite ?Hw; done). f_equal. f_equal. destruct tx as [i o v l]. unfold strip. simpl.
  f_equal. by apply HasWitness_strip.
Qed.

Lemma read_txs_write txs rest :
  Forall tx_wf txs →
  read_many (UnserializeTransaction true) (length txs) (concat (SerializeTransaction true <$> txs) ++ rest) = Ok (txs, rest).
Proof.
  induction 1 as [|tx txs Htx _ IH]; [done|]. cbn [length read_many fmap list_fmap concat]. rewrite <- app_assoc.
  erewrite reader_bind_step by (by apply tx_roundtrip). by erewrite reader_bind_step by exact IH.
Qed.

(** ** Lemmas on the Merkle tree *)

Lemma pairs_ind {A} (P : list A → Prop) :
  P [] → (∀ x, P [x]) → (∀ a b l, P l → P (a :: b :: l)) → ∀ l, P l.
Proof.
  intros H0 H1 H2 l. enough (P l ∧ ∀ x, P (x :: l)) as [? _] by done.
  induction l as [|y l [IH1 IH2]]; auto.
Qed.

Definition hash_sized (l : list uint256) : Prop := Forall (λ h, size h = 32) l.

Section Merkle.
Context `{C : Crypto} `{!CryptoSizes C}.

Lemma SHA256D64_sized l : hash_sized (SHA256D64 l).
Proof. induction l using pairs_ind; constructor; [apply CSHA256_size|done]. Qed.
Lemma SHA256D64_length l : Nat.even (length l) = true → length (SHA256D64 l) = Nat.div2 (length l).
Proof. induction l as [| |a b l IH] using pairs_ind; simpl; [done..|]. intros. by rewrite IH. Qed.

Lemma app_sized_inj (a b c d : uint256) : size a = 32 → size c = 32 → a ++ b = c ++ d → a = c ∧ b = d.
Proof. unfold size. intros. by apply app_inj_1; [lia|]. Qed.

Lemma SHA256D64_inj l : ∀ k,
  hash_sized l → hash_sized k → Nat.even (length l) = true → Nat.even (length k) = true →
  SHA256D64 l = SHA256D64 k → l = k ∨ collision C.
Proof.
  induction l as [| |a b l IH] using pairs_ind; intros [|c [|d k]] Hl Hk El Ek Heq; try done; [by left|].
  simpl in Heq. injection Heq as H1 H2.
  apply Forall_cons in Hl as [Ha [Hb Hl]%Forall_cons]. apply Forall_cons in Hk as [Hc [Hd Hk]%Forall_cons].
  destruct (decide (a ++ b = c ++ d)) as [Hab|Hne]; [|right; by exists (a ++ b), (c ++ d)].
  apply app_sized_inj in Hab as [-> ->]; [|done..].
  destruct (IH k) as [->|?]; [done..|by left|by right].
Qed.

Lemma equal_pair_snoc2 l x : Nat.even (length l) = true → equal_pair (l ++ [x; x]) = true.
Proof.
  induction l as [| |a b l IH] using pairs_ind; simpl; intros Hev; [|done|by rewrite IH, orb_true_r].
  by rewrite bool_decide_true.
Qed.
Lemma complete_even l : Nat.even (length (complete l)) = true.
Proof.
  unfold complete. destruct (Nat.odd (length l)) eqn:Ho; [|by rewrite <- Nat.negb_odd, Ho].
  rewrite length_app, Nat.add_comm. simpl length. by rewrite Nat.even_succ.
Qed.
Lemma complete_length l : length (complete l) = if Nat.odd (length l) then S (length l) else length l.
Proof. unfold complete. destruct (Nat.odd (length l)); [|done]. rewrite length_app. simpl. lia. Qed.
Lemma complete_sized l : l ≠ [] → hash_sized l → hash_sized (complete l).
Proof.
  intros Hne Hl. unfold complete. destruct (Nat.odd (length l)); [|done]. apply Forall_app. split; [done|].
  destruct (snoc_cases l) as [->|(k & x & ->)]; [done|]. rewrite List.last_last.
  apply Forall_app in Hl as [_ Hx]. done.
Qed.

(** Without an equal pair, the completed list determines the list. *)
Lemma complete_inj_odd l k :
  Nat.odd (length l) = true → Nat.odd (length k) = false → equal_pair k = false → complete l ≠ complete k.
Proof.
  intros Hl Hk Hp Heq. unfold complete in Heq. rewrite Hl, Hk in Heq. subst k.
  destruct (snoc_cases l) as [->|(j & x & ->)]; [done|].
  rewrite List.last_last, <- app_assoc in Hp. cbn [app] in Hp.
  rewrite equal_pair_snoc2 in Hp; [done|].
  rewrite length_app, Nat.add_comm in Hl. simpl length in Hl. by rewrite Nat.odd_succ in Hl.
Qed.
Lemma complete_inj l k :
  equal_pair l = false → equal_pair k = false → complete l = complete k → l = k.
Proof.
  intros Hl Hk Heq. destruct (Nat.odd (length l)) eqn:El, (Nat.odd (length k)) eqn:Ek.
  - unfold complete in Heq. rewrite El, Ek in Heq. by apply app_inj_tail in Heq as [? _].
  - by destruct (complete_inj_odd l k).
  - by destruct (complete_inj_odd k l).
  - unfold complete in Heq. by rewrite El, Ek in Heq.
Qed.

(** The next level of a list with more than one element. *)
Definition next_level (l : list uint256) : list uint256 := SHA256D64 (complete l).
Lemma next_level_length l : (2 * length (next_level l) = length l ∨ 2 * length (next_level l) = length l + 1)%nat.
Proof.
  unfold next_level. rewrite SHA256D64_length by apply complete_even. rewrite complete_length.
  destruct (Nat.odd (length l)) eqn:Ho.
  - apply Nat.odd_spec in Ho as [m ->]. right. replace (S (2 * m + 1)) with (2 * S m)%nat by lia.
    rewrite Nat.div2_double. lia.
  - assert (Nat.even (length l) = true) as [m ->]%Nat.even_spec by (by rewrite <- Nat.negb_odd, Ho).
    left. rewrite Nat.div2_double. lia.
Qed.
Lemma next_level_log2 l k :
  Nat.log2_up (length l) = S k → Nat.log2_up (length (next_level l)) = k ∧ next_level l ≠ [].
Proof.
  intros Hk. assert (1 < length l)%nat as Hlen.
  { destruct (decide (1 < length l)%nat); [done|]. rewrite Nat.log2_up_eqn0 in Hk; lia. }
  pose proof (Nat.log2_up_spec (length l) Hlen) as [Hlo Hhi]. rewrite Hk in Hlo, Hhi. simpl pred in Hlo.
  rewrite Nat.pow_succ_r' in Hhi. pose proof (next_level_length l) as Hn.
  split; [|intros E; rewrite E in Hn; simpl in Hn; lia].
  destruct (decide (k = 0)%nat) as [->|]; [apply Nat.log2_up_eqn0; simpl in *; lia|].
  apply Nat.log2_up_unique; [lia|]. destruct k as [|k]; [lia|]. simpl pred. rewrite Nat.pow_succ_r' in Hlo, Hhi |- *. lia.
Qed.

Lemma merkle_loop_step f l m :
  (1 < length l ≤ f)%nat →
  ∃ f', merkle_loop f l m = merkle_loop f' (next_level l) (m || equal_pair l) ∧ (length (next_level l) ≤ f')%nat.
Proof.
  intros [H1 H2]. destruct f as [|f]; [lia|]. exists f. cbn [merkle_loop].
  rewrite (proj2 (Z.gtb_lt _ _)) by lia. split; [done|]. pose proof (next_level_length l). lia.
Qed.
Lemma merkle_loop_last f l m : (length l ≤ 1)%nat → merkle_loop f l m = (l, m).
Proof.
  intros Hl. destruct f; [done|]. cbn [merkle_loop]. by replace (Z.of_nat (length l) >? 1) with false by lia.
Qed.
Lemma merkle_loop_mutation f : ∀ l, (merkle_loop f l true).2 = true.
Proof. induction f; intros l; cbn [merkle_loop]; [done|]. case_match; [|done]. apply IHf. Qed.

(** The loop ends with the single root. *)
Lemma merkle_loop_ends k : ∀ f l m,
  l ≠ [] → Nat.log2_up (length l) = k → (length l ≤ f)%nat → ∃ r b, merkle_loop f l m = ([r], b).
Proof.
  induction k as [|k IH]; intros f l m Hne Hk Hf.
  - destruct l as [|r [|s l]]; [done| |].
    + exists r, m. apply merkle_loop_last. simpl. lia.
    + pose proof (Nat.log2_up_pos (length (r :: s :: l))). simpl length in *. lia.
  - destruct (next_level_log2 l k Hk) as [Hk' Hne'].
    destruct (merkle_loop_step f l m) as (f' & -> & Hf'); [|by apply IH].
    split; [|done]. destruct (decide (1 < length l)%nat); [done|]. rewrite Nat.log2_up_eqn0 in Hk; lia.
Qed.

Lemma merkle_loop_binds k : ∀ f1 f2 l1 l2 r,
  l1 ≠ [] → l2 ≠ [] → hash_sized l1 → hash_sized l2 →
  Nat.log2_up (length l1) = k → Nat.log2_up (length l2) = k →
  (length l1 ≤ f1)%nat → (length l2 ≤ f2)%nat →
  merkle_loop f1 l1 false = ([r], false) → merkle_loop f2 l2 false = ([r], false) →
  l1 = l2 ∨ collision C.
Proof.
  assert (∀ (l : list uint256) k, Nat.log2_up (length l) = S k → (1 < length l)%nat) as Hgt.
  { intros l j Hk. destruct (decide (1 < length l)%nat); [done|]. rewrite Nat.log2_up_eqn0 in Hk; lia. }
  induction k as [|k IH]; intros f1 f2 l1 l2 r Hn1 Hn2 Hs1 Hs2 Hk1 Hk2 Hf1 Hf2 Hm1 Hm2.
  - assert (∀ l : list uint256, Nat.log2_up (length l) = 0%nat → (length l ≤ 1)%nat) as Hle.
    { intros l Hl. destruct (decide (length l ≤ 1)%nat); [done|]. pose proof (Nat.log2_up_pos (length l)). lia. }
    rewrite merkle_loop_last in Hm1, Hm2 by auto. left. congruence.
  - destruct (merkle_loop_step f1 l1 false) as (g1 & E1 & Hg1); [eauto|].
    destruct (merkle_loop_step f2 l2 false) as (g2 & E2 & Hg2); [eauto|].
    rewrite E1 in Hm1. rewrite E2 in Hm2. cbn [orb] in Hm1, Hm2.
    destruct (equal_pair l1) eqn:P1; [pose proof (merkle_loop_mutation g1 (next_level l1)) as Hx; rewrite Hm1 in Hx; done|].
    destruct (equal_pair l2) eqn:P2; [pose proof (merkle_loop_mutation g2 (next_level l2)) as Hx; rewrite Hm2 in Hx; done|].
    destruct (next_level_log2 l1 k Hk1) as [Hk1' Hn1']. destruct (next_level_log2 l2 k Hk2) as [Hk2' Hn2'].
    destruct (IH g1 g2 (next_level l1) (next_level l2) r) as [Heq|?]; try done; try apply SHA256D64_sized; [|by right].
    apply SHA256D64_inj in Heq as [Heq|?]; try apply complete_even; try (by apply complete_sized); [|by right].
    left. by apply complete_inj.
Qed.

Lemma ComputeMerkleRoot_binds l1 l2 :
  l1 ≠ [] → l2 ≠ [] → hash_sized l1 → hash_sized l2 →
  Nat.log2_up (length l1) = Nat.log2_up (length l2) →
  (ComputeMerkleRoot l1).1 = (ComputeMerkleRoot l2).1 →
  (ComputeMerkleRoot l1).2 = false → (ComputeMerkleRoot l2).2 = false →
  l1 = l2 ∨ collision C.
Proof.
  intros Hn1 Hn2 Hs1 Hs2 Hk. unfold ComputeMerkleRoot.
  destruct (merkle_loop_ends _ (length l1) l1 false Hn1 eq_refl) as (r1 & b1 & E1); [done|].
  destruct (merkle_loop_ends _ (length l2) l2 false Hn2 eq_refl) as (r2 & b2 & E2); [done|].
  rewrite E1, E2. simpl. intros -> -> ->.
  by apply (merkle_loop_binds (Nat.log2_up (length l2)) (length l1) (length l2) l1 l2 r2).
Qed.

(** C18: The Merkle root binds the transaction list.  Two non-empty lists of
    32-byte hashes whose trees have the same number of levels, with the same
    root and neither reported as mutated, are equal, unless the double hash has
    a collision.  So the list [1,2,3,4,5,6,5,6] of CVE-2012-2459 cannot pass as
    [1,2,3,4,5,6] without raising the flag. *)
Theorem merkle_root_binds l1 l2 :
  l1 ≠ [] → l2 ≠ [] → hash_sized l1 → hash_sized l2 →
  Nat.log2_up (length l1) = Nat.log2_up (length l2) →
  (ComputeMerkleRoot l1).1 = (ComputeMerkleRoot l2).1 →
  (ComputeMerkleRoot l1).2 = false → (ComputeMerkleRoot l2).2 = false →
  l1 = l2 ∨ collision C.
Proof. apply ComputeMerkleRoot_binds. Qed.

(** Repeating the last transactions does not change the Merkle root
    (CVE-2012-2459), but [ComputeMerkleRoot] reports it: when a non-empty list
    of odd length above one is extended with its last element, the root stays
    the same and the extended list is flagged as mutated. *)
Lemma merkle_duplicate_detected (l : list uint256) x :
  Nat.even (length l) = true → l ≠ [] →
  (ComputeMerkleRoot (l ++ [x; x])).1 = (ComputeMerkleRoot (l ++ [x])).1 ∧
  (ComputeMerkleRoot (l ++ [x; x])).2 = true.
Proof.
  intros Hev Hne. unfold ComputeMerkleRoot.
  assert (complete (l ++ [x; x]) = l ++ [x; x] ∧ complete (l ++ [x]) = l ++ [x; x]) as [Hc2 Hc1].
  { unfold complete. rewrite !length_app. cbn [app length].
    rewrite (Nat.add_comm (length l) 2), (Nat.add_comm (length l) 1). cbn [Nat.add].
    rewrite !Nat.odd_succ, !Nat.even_succ, <- Nat.negb_even, Hev. cbn [negb].
    by rewrite List.last_last, <- app_assoc. }
  assert (0 < length l)%nat by (destruct l; simpl; [done|lia]).
  destruct (merkle_loop_step (length (l ++ [x; x])) (l ++ [x; x]) false) as (f2 & -> & Hf2);
    [rewrite length_app in *; simpl; lia|].
  destruct (merkle_loop_step (length (l ++ [x])) (l ++ [x]) false) as (f1 & -> & Hf1);
    [rewrite length_app in *; simpl; lia|].
  rewrite equal_pair_snoc2 by done. unfold next_level in *. rewrite Hc1 in *. rewrite Hc2 in *. cbn [orb].
  assert (SHA256D64 (l ++ [x; x]) ≠ []) as Hn by (destruct l as [|a [|b l]]; [done..|discriminate]).
  assert (∀ f g m m', (length (SHA256D64 (l ++ [x; x])) ≤ f)%nat → (length (SHA256D64 (l ++ [x; x])) ≤ g)%nat →
    (merkle_loop f (SHA256D64 (l ++ [x; x])) m).1 = (merkle_loop g (SHA256D64 (l ++ [x; x])) m').1) as Hfst.
  { generalize (SHA256D64 (l ++ [x; x])). clear. intros l.
    remember (length l) as n. revert l Heqn. induction n as [n IH] using lt_wf_ind. intros l -> f g m m' Hf Hg.
    destruct (decide (length l ≤ 1)%nat); [by rewrite !merkle_loop_last|].
    destruct (merkle_loop_step f l m) as (f' & -> & ?); [lia|].
    destruct (merkle_loop_step g l m') as (g' & -> & ?); [lia|].
    pose proof (next_level_length l). eapply (IH (length (next_level l))); [lia|done..]. }
  pose proof (merkle_loop_mutation f2 (SHA256D64 (l ++ [x; x]))) as Hmut.
  specialize (Hfst f2 f1 true (equal_pair (l ++ [x])) Hf2 Hf1).
  destruct (merkle_loop f2 _ true) as [h b] eqn:E1, (merkle_loop f1 _ _) as [h' b'] eqn:E2. simpl in *. by subst.
Qed.
End Merkle.

Lemma merkle_root_binds_witness :
  [replicate 32 1; replicate 32 2; replicate 32 3] = [replicate 32 1; replicate 32 2; replicate 32 3] ∨ collision toy_crypto.
Proof.
  apply (merkle_root_binds (C := toy_crypto) [replicate 32 1; replicate 32 2; replicate 32 3]
    [replicate 32 1; replicate 32 2; replicate 32 3]); try reflexivity; try discriminate; repeat constructor.
Defined.
(** A block survives serialization: header with its proof-of-stake fields
    and signature, and every transaction with its witness. *)
Theorem block_roundtrip b rest :
  header_wf (header b) → Forall tx_wf (vtx b) → size (vtx b) ≤ MAX_SIZE →
  UnserializeBlock (SerializeBlock b ++ rest) = Ok (b, rest).
Proof.
  destruct b as [h txs]. cbn [header vtx]. intros Hh Htx Hsz. unfold SerializeBlock, UnserializeBlock. cbn [header vtx].
  rewrite <- !app_assoc. erewrite reader_bind_step by (by apply header_roundtrip).
  erewrite reader_bind_step by (apply compact_size_write; pose proof (size_nonneg txs); lia).
  unfold size. rewrite Nat2Z.id. by erewrite reader_bind_step by (by apply read_txs_write).
Qed.
Lemma block_roundtrip_witness :
  UnserializeBlock (SerializeBlock (mk_block null_header [sample_tx]) ++ [7]) = Ok (mk_block null_header [sample_tx], [7]).
Proof.
  apply (block_roundtrip (mk_block null_header [sample_tx]) [7]); [|constructor; [apply sample_tx_wf|constructor]|vm_compute; discriminate].
  unfold header_wf. solve_tx_wf.
Defined.
