(* ===== verification/Chain.v ===== *)
(** * The block index and the active chain (chain.h, chain.cpp, and
      AddToBlockIndex of validation.cpp)

    The block index is a map from block hashes to entries; a pointer to an entry
    is the hash it is stored under.  [pprev] makes the index a forest, [pskip]
    are the skip pointers.  [CChain] is a vector of such pointers. *)
From S2P Require Import Prelude ArithUint256 Script Interpreter InterpreterFacts InterpreterSpecs Serialize Transaction Block.
Import BaseUint.

Record CBlockIndex := mk_index {
  pprev : option uint256; pskip : option uint256; nHeight : Z; nChainWork : base_uint; nStatus : Z;
  nTime : Z; nBits : Z; nTimeMax : Z; prevoutStake : COutPoint; nStakeModifier : uint256;
  nVersion_idx : Z; nTx : Z; nChainTx : Z; nSequenceId : Z
}.
Abbreviation BlockMap := (gmap uint256 CBlockIndex).

(** What ends the program: a pointer that leads nowhere, a failed assertion, an
    exception of the arithmetic, or a loop that does not stop. *)
Inductive chain_error := dangling | assertion_failed | division | no_progress.

Definition deref (m : BlockMap) (p : uint256) : result chain_error CBlockIndex :=
  match m !! p with Some b => Ok b | None => Err dangling end.

(** ** Status *)

Definition BLOCK_VALID_HEADER : Z := 1.
Definition BLOCK_VALID_TREE : Z := 2.
Definition BLOCK_VALID_TRANSACTIONS : Z := 3.
Definition BLOCK_VALID_CHAIN : Z := 4.
Definition BLOCK_VALID_SCRIPTS : Z := 5.
Definition BLOCK_VALID_MASK : Z :=
  BLOCK_VALID_HEADER |' BLOCK_VALID_TREE |' BLOCK_VALID_TRANSACTIONS |' BLOCK_VALID_CHAIN |' BLOCK_VALID_SCRIPTS.
Definition BLOCK_HAVE_DATA : Z := 8.
Definition BLOCK_HAVE_UNDO : Z := 16.
Definition BLOCK_FAILED_VALID : Z := 32.
Definition BLOCK_FAILED_CHILD : Z := 64.
Definition BLOCK_FAILED_MASK : Z := BLOCK_FAILED_VALID |' BLOCK_FAILED_CHILD.
Definition BLOCK_OPT_WITNESS : Z := 128.

Definition set_status (b : CBlockIndex) (s : Z) : CBlockIndex :=
  mk_index (pprev b) (pskip b) (nHeight b) (nChainWork b) s (nTime b) (nBits b) (nTimeMax b) (prevoutStake b) (nStakeModifier b)
    (nVersion_idx b) (nTx b) (nChainTx b) (nSequenceId b).

Definition IsValid (b : CBlockIndex) (nUpTo : Z) : bool :=
  if negb (nStatus b &' BLOCK_FAILED_MASK =? 0) then false
  else nStatus b &' BLOCK_VALID_MASK >=? nUpTo.
Definition RaiseValidity (b : CBlockIndex) (nUpTo : Z) : bool * CBlockIndex :=
  if negb (nStatus b &' BLOCK_FAILED_MASK =? 0) then (false, b)
  else if nStatus b &' BLOCK_VALID_MASK <? nUpTo then
    (true, set_status b ((nStatus b &' u32 (Z.lnot BLOCK_VALID_MASK)) |' nUpTo))
  else (false, b).

Definition IsProofOfStake (b : CBlockIndex) : bool := negb (IsNull_outpoint (prevoutStake b)).
Definition IsProofOfWork (b : CBlockIndex) : bool := negb (IsProofOfStake b).
Definition GetBlockTime (b : CBlockIndex) : Z := nTime b.
Definition GetBlockTimeMax (b : CBlockIndex) : Z := nTimeMax b.

(** ** Skip pointers *)

Definition InvertLowestOne (n : Z) : Z := n &' (n - 1).
Definition GetSkipHeight (height : Z) : Z :=
  if height <? 2 then 0
  else if negb (height &' 1 =? 0) then InvertLowestOne (InvertLowestOne (height - 1)) + 1
  else InvertLowestOne height.

(** The loop of [GetAncestor]; the walk ends after at most [heightWalk - height]
    rounds ([GetAncestor_walks]). *)
Fixpoint ancestor_loop (m : BlockMap) (fuel : nat) (pindexWalk : uint256) (heightWalk height : Z)
  : result chain_error uint256 :=
  if heightWalk >? height then
    match fuel with
    | O => Err no_progress
    | S fuel =>
        let heightSkip := GetSkipHeight heightWalk in
        let heightSkipPrev := GetSkipHeight (heightWalk - 1) in
        let* b := deref m pindexWalk in
        match pskip b with
        | Some s =>
            if (heightSkip =? height)
               || ((heightSkip >? height) && negb ((heightSkipPrev <? heightSkip - 2) && (heightSkipPrev >=? height)))
            then ancestor_loop m fuel s heightSkip height
            else match pprev b with
                 | None => Err assertion_failed
                 | Some q => ancestor_loop m fuel q (heightWalk - 1) height
                 end
        | None => match pprev b with
                  | None => Err assertion_failed
                  | Some q => ancestor_loop m fuel q (heightWalk - 1) height
                  end
        end
    end
  else Ok pindexWalk.
Definition GetAncestor (m : BlockMap) (p : uint256) (height : Z) : result chain_error (option uint256) :=
  let* b := deref m p in
  if (height >? nHeight b) || (height <? 0) then Ok None
  else let* q := ancestor_loop m (Z.to_nat (nHeight b - height)) p (nHeight b) height in Ok (Some q).

(** The skip pointer of a new entry. *)
Definition BuildSkip (m : BlockMap) (b : CBlockIndex) : result chain_error (option uint256) :=
  match pprev b with
  | None => Ok (pskip b)
  | Some q => GetAncestor m q (GetSkipHeight (nHeight b))
  end.

(** ** Median time *)

Definition nMedianTimeSpan : nat := 11.
(** The times of the block and its predecessors, at most [n] of them. *)
Fixpoint last_times (m : BlockMap) (n : nat) (p : option uint256) : result chain_error (list Z) :=
  match n, p with
  | S n, Some p =>
      let* b := deref m p in
      let* l := last_times m n (pprev b) in
      Ok (GetBlockTime b :: l)
  | _, _ => Ok []
  end.
Definition sort_times : list Z → list Z := merge_sort Z.le.
Definition GetMedianTimePast (m : BlockMap) (p : uint256) : result chain_error Z :=
  let* l := last_times m nMedianTimeSpan (Some p) in
  let sorted := sort_times l in
  Ok (nth (length sorted / 2) sorted 0).

(** ** Work *)

Definition lift_div {A} (r : result uint_error A) : result chain_error A :=
  match r with Ok a => Ok a | Err _ => Err division end.

Definition GetBlockProof (b : CBlockIndex) : result chain_error base_uint :=
  let '(bnTarget, fNegative, fOverflow) := SetCompact (nBits b) in
  if fNegative || fOverflow || EqualTo bnTarget 0 then Ok zero
  else
    let* q := lift_div (op_div (op_not bnTarget) (op_add_u64 bnTarget 1)) in
    Ok (op_add_u64 q 1).

Definition GetBlockProofEquivalentTime (nPowTargetSpacing : Z) (to from tip : CBlockIndex) : result chain_error Z :=
  let '(r, sign) :=
    if op_gt (nChainWork to) (nChainWork from) then (op_sub (nChainWork to) (nChainWork from), 1)
    else (op_sub (nChainWork from) (nChainWork to), -1) in
  let* proof := GetBlockProof tip in
  let* r := lift_div (op_div (op_mul r (of_u64 (u64 nPowTargetSpacing))) proof) in
  if bits r >? 63 then Ok (sign * (2 ^ 63 - 1)) else Ok (i64 (u64 (sign * GetLow64 r))).

(** ** Adding a header to the index *)

Definition ComputeStakeModifier `{Crypto} (pindexPrev : option CBlockIndex) (kernel : uint256) : uint256 :=
  match pindexPrev with
  | None => null_hash
  | Some b => CHash256 (kernel ++ nStakeModifier b)
  end.

(** The index with its best header; [setStakeSeen] remembers the stakes used. *)
Record block_tree := mk_tree {
  mapBlockIndex : BlockMap; pindexBestHeader : option uint256; setStakeSeen : list (COutPoint * Z)
}.

(** The entry constructed from a header, and the same entry linked to its
    predecessor if that is known. *)
Definition new_entry (block : CBlockHeader) : CBlockIndex :=
  mk_index None None 0 zero 0 (nTime_blk block) (nBits_blk block) 0 (prevoutStake_blk block) null_hash
    (nVersion_blk block) 0 0 0.
Definition link_entry (m : BlockMap) (hash : uint256) (block : CBlockHeader) : result chain_error CBlockIndex :=
  match m !! hashPrevBlock block with
  | None => Ok (new_entry block)
  | Some q =>
      let b := mk_index (Some (hashPrevBlock block)) None (nHeight q + 1) zero 0 (nTime_blk block) (nBits_blk block) 0
                 (prevoutStake_blk block) null_hash (nVersion_blk block) 0 0 0 in
      let* s := BuildSkip (<[hash := b]> m) b in
      Ok (mk_index (pprev b) s (nHeight b) zero 0 (nTime b) (nBits b) 0 (prevoutStake b) null_hash (nVersion_idx b) 0 0 0)
  end.

Definition AddToBlockIndex `{Crypto} (t : block_tree) (block : CBlockHeader) : result chain_error (uint256 * block_tree) :=
  let hash := GetBlockHash block in
  let m := mapBlockIndex t in
  match m !! hash with
  | Some _ => Ok (hash, t)
  | None =>
      let stakes := if IsProofOfStake_header block
                    then (prevoutStake_blk block, nTime_blk block) :: setStakeSeen t else setStakeSeen t in
      (* the new entry is in the map before its predecessor is looked up *)
      let m := <[hash := new_entry block]> m in
      let prev := m !! hashPrevBlock block in
      let* linked := link_entry m hash block in
      let timeMax := match prev with Some q => Z.max (nTimeMax q) (nTime_blk block) | None => nTime_blk block end in
      let* proof := GetBlockProof linked in
      let work := op_add (match prev with Some q => nChainWork q | None => zero end) proof in
      let modifier := ComputeStakeModifier prev
        (if IsProofOfWork_header block then hash else Transaction.hash (prevoutStake_blk block)) in
      let b := (RaiseValidity (mk_index (pprev linked) (pskip linked) (nHeight linked) work (nStatus linked)
                 (nTime linked) (nBits linked) timeMax (prevoutStake linked) modifier
                 (nVersion_idx linked) (nTx linked) (nChainTx linked) (nSequenceId linked)) BLOCK_VALID_TREE).2 in
      let m := <[hash := b]> m in
      let* better := match pindexBestHeader t with
        | None => Ok true
        | Some p => let* h := deref m p in Ok (op_lt (nChainWork h) (nChainWork b))
        end in
      Ok (hash, mk_tree m (if better : bool then Some hash else pindexBestHeader t) stakes)
  end.

(** ** The active chain *)

Abbreviation CChain := (list (option uint256)).
Definition Genesis (c : CChain) : option uint256 := mjoin (c !! 0%nat).
Definition Tip (c : CChain) : option uint256 := mjoin (last c).
Definition at_height (c : CChain) (height : Z) : option uint256 :=
  if (height <? 0) || (height >=? Z.of_nat (length c)) then None else mjoin (c !! Z.to_nat height).
Definition Height (c : CChain) : Z := Z.of_nat (length c) - 1.
Definition Contains (m : BlockMap) (c : CChain) (p : uint256) : result chain_error bool :=
  let* b := deref m p in Ok (bool_decide (at_height c (nHeight b) = Some p)).
Definition Next (m : BlockMap) (c : CChain) (p : uint256) : result chain_error (option uint256) :=
  let* b := deref m p in
  let* here := Contains m c p in
  Ok (if here then at_height c (nHeight b + 1) else None).

(** [vector::resize]. *)
Definition resize_chain (c : CChain) (n : nat) : CChain := take n c ++ replicate (n - length c) None.

Fixpoint set_tip_loop (m : BlockMap) (fuel : nat) (c : CChain) (p : option uint256) : result chain_error CChain :=
  match p with
  | None => Ok c
  | Some q =>
      let* b := deref m q in
      if bool_decide (at_height c (nHeight b) = Some q) then Ok c
      else match fuel with
           | O => Err no_progress
           | S fuel => set_tip_loop m fuel (<[Z.to_nat (nHeight b) := Some q]> c) (pprev b)
           end
  end.
Definition SetTip (m : BlockMap) (c : CChain) (p : option uint256) : result chain_error CChain :=
  match p with
  | None => Ok []
  | Some q =>
      let* b := deref m q in
      set_tip_loop m (Z.to_nat (nHeight b + 1)) (resize_chain c (Z.to_nat (nHeight b + 1))) p
  end.

Fixpoint find_fork_loop (m : BlockMap) (fuel : nat) (c : CChain) (p : option uint256) : result chain_error (option uint256) :=
  match p with
  | None => Ok None
  | Some q =>
      let* b := deref m q in
      let* here := Contains m c q in
      if here then Ok (Some q)
      else match fuel with
           | O => Err no_progress
           | S fuel => find_fork_loop m fuel c (pprev b)
           end
  end.
Definition FindFork (m : BlockMap) (c : CChain) (p : option uint256) : result chain_error (option uint256) :=
  match p with
  | None => Ok None
  | Some q =>
      let* b := deref m q in
      let* start := if nHeight b >? Height c then GetAncestor m q (Height c) else Ok (Some q) in
      find_fork_loop m (Z.to_nat (nHeight b + 1)) c start
  end.

(** [None]: one of the pointers is null and the other is not. *)
Fixpoint common_loop (m : BlockMap) (fuel : nat) (pa pb : option uint256) : result chain_error (option uint256) :=
  if decide (pa = pb) then Ok pa
  else match pa, pb with
  | Some a, Some b =>
      match fuel with
      | O => Err no_progress
      | S fuel => let* x := deref m a in let* y := deref m b in common_loop m fuel (pprev x) (pprev y)
      end
  | _, _ => Err assertion_failed
  end.
Definition LastCommonAncestor (m : BlockMap) (pa pb : uint256) : result chain_error (option uint256) :=
  let* a := deref m pa in
  let* b := deref m pb in
  let* pa := if nHeight a >? nHeight b then GetAncestor m pa (nHeight b) else Ok (Some pa) in
  let* pb := if nHeight b >? nHeight a then GetAncestor m pb (nHeight a) else Ok (Some pb) in
  common_loop m (Z.to_nat (nHeight a + 1)) pa pb.
