(* ===== verification/ChainFacts.v ===== *)
(** * The block index and the active chain: correctness

    [back m p k] follows [pprev] [k] times; it is what the skip pointers, the
    vector of the active chain and the fork searches are measured against.
    [index_ok] is the invariant of the index, kept by [AddToBlockIndex]. *)
From S2P Require Import Prelude ArithUint256 Script Interpreter InterpreterFacts InterpreterSpecs Serialize Transaction Block Chain.
Import BaseUint.

Fixpoint back (m : BlockMap) (p : uint256) (k : nat) : option uint256 :=
  match k with
  | O => Some p
  | S k => match m !! p with Some b => pprev b ≫= λ q, back m q k | None => None end
  end.

Definition link_ok (m : BlockMap) (b : CBlockIndex) : Prop :=
  match pprev b with
  | None => nHeight b = 0
  | Some q => ∃ c, m !! q = Some c ∧ nHeight b = nHeight c + 1
  end.
Definition index_ok (m : BlockMap) : Prop :=
  ∀ p b, m !! p = Some b →
    0 ≤ nHeight b ∧ link_ok m b ∧
    ∀ s, pskip b = Some s → pprev b ≠ None ∧ back m p (Z.to_nat (nHeight b - GetSkipHeight (nHeight b))) = Some s.

(** ** Heights to skip to *)

Lemma InvertLowestOne_range n : 0 ≤ n → 0 ≤ InvertLowestOne n ∧ (InvertLowestOne n < n ∨ n = 0 ∧ InvertLowestOne n = 0).
Proof.
  unfold InvertLowestOne. intros Hn. destruct (decide (n = 0)) as [->|]; [change (0 &' (0 - 1)) with 0; lia|].
  assert (0 ≤ (n - 1) &' Z.lnot n) by (rewrite Z.land_nonneg; lia).
  pose proof (Z.sub_land_same_l (n - 1) n) as Hsub. rewrite Z.land_comm in Hsub.
  assert (0 ≤ n &' (n - 1)) by (rewrite Z.land_nonneg; lia). lia.
Qed.
Lemma GetSkipHeight_range h : 0 < h → 0 ≤ GetSkipHeight h < h.
Proof.
  intros Hh. unfold GetSkipHeight. destruct (Z.ltb_spec h 2); [lia|].
  destruct (h &' 1 =? 0) eqn:Hodd; simpl negb; cbv iota.
  - pose proof (InvertLowestOne_range h). lia.
  - assert (h ≠ 2) by (intros ->; done).
    destruct (InvertLowestOne_range (h - 1)) as [H1 H2]; [lia|].
    destruct (InvertLowestOne_range (InvertLowestOne (h - 1)) H1). lia.
Qed.

(** ** Following predecessors *)

Lemma back_add m j k : ∀ p, back m p (j + k) = back m p j ≫= λ q, back m q k.
Proof.
  induction j as [|j IH]; intros p; simpl; [done|].
  destruct (m !! p) as [b|]; [|done]. destruct (pprev b) as [q|]; simpl; [apply IH|done].
Qed.
Lemma back_height m (k : nat) : ∀ p b,
  index_ok m → m !! p = Some b → Z.of_nat k ≤ nHeight b →
  ∃ q c, back m p k = Some q ∧ m !! q = Some c ∧ nHeight c = nHeight b - Z.of_nat k.
Proof.
  induction k as [|k IH]; intros p b Hok Hp Hk.
  { exists p, b. split_and!; [done|done|lia]. }
  destruct (Hok p b Hp) as (Hnn & Hl & _). unfold link_ok in Hl. cbn [back]. rewrite Hp.
  destruct (pprev b) as [q|]; [|lia]. destruct Hl as (c & Hq & Hh).
  destruct (IH q c) as (r & d & Hb & Hr & Hd); [done..|lia|]. exists r, d. simpl. split_and!; [done|done|lia].
Qed.
Lemma back_height_inv m (k : nat) p b q :
  index_ok m → m !! p = Some b → back m p k = Some q →
  Z.of_nat k ≤ nHeight b ∧ ∃ c, m !! q = Some c ∧ nHeight c = nHeight b - Z.of_nat k.
Proof.
  intros Hok. revert p b. induction k as [|k IH]; intros p b Hp Hb.
  { injection Hb as <-. pose proof (Hok p b Hp). split; [lia|]. exists b. split; [done|lia]. }
  destruct (Hok p b Hp) as (Hnn & Hl & _). unfold link_ok in Hl. cbn [back] in Hb. rewrite Hp in Hb.
  destruct (pprev b) as [r|]; [|done]. destruct Hl as (c & Hr & Hh). simpl in Hb.
  destruct (IH r c Hr Hb) as (H1 & d & Hd & H2). split; [lia|]. exists d. split; [done|lia].
Qed.

(** ** [GetAncestor] *)

Lemma ancestor_loop_spec m height (fuel : nat) : ∀ p b,
  index_ok m → m !! p = Some b → 0 ≤ height ≤ nHeight b → nHeight b - height ≤ Z.of_nat fuel →
  ∃ q, ancestor_loop m fuel p (nHeight b) height = Ok q ∧ back m p (Z.to_nat (nHeight b - height)) = Some q.
Proof.
  induction fuel as [|fuel IH]; intros p b Hok Hp Hh Hf; cbn [ancestor_loop].
  { replace (nHeight b) with height by lia. rewrite Z.sub_diag.
    replace (height >? height) with false by lia. by exists p. }
  destruct (nHeight b >? height) eqn:Hgt; [|exists p; replace (nHeight b - height) with 0 by lia; done].
  unfold deref at 1. rewrite Hp. cbn [rbind]. destruct (Hok p b Hp) as (Hnn & Hl & Hsk).
  set (prev_case := match pprev b with Some q => _ | None => _ end).
  assert (∃ q, prev_case = Ok q ∧ back m p (Z.to_nat (nHeight b - height)) = Some q) as Hprev.
  { unfold prev_case. unfold link_ok in Hl. destruct (pprev b) as [q|] eqn:Hpp; [|lia].
    destruct Hl as (c & Hq & Hhc). destruct (IH q c) as (r & Hr & Hbk); [done..|lia|lia|].
    exists r. replace (nHeight b - 1) with (nHeight c) by lia. split; [done|].
    replace (Z.to_nat (nHeight b - height)) with (S (Z.to_nat (nHeight c - height))) by lia.
    cbn [back]. rewrite Hp, Hpp. done. }
  destruct (pskip b) as [s|]; [|done].
  set (cond := _ || _). assert (cond = true → height ≤ GetSkipHeight (nHeight b)) as Hc by (unfold cond; lia).
  destruct cond; [|done]. destruct (Hsk s eq_refl) as (_ & Hs). specialize (Hc eq_refl).
  pose proof (GetSkipHeight_range (nHeight b) ltac:(lia)).
  destruct (back_height m (Z.to_nat (nHeight b - GetSkipHeight (nHeight b))) p b) as (s' & d & Hs' & Hd & Hhd); [done..|lia|].
  rewrite Hs in Hs'. injection Hs' as <-.
  replace (GetSkipHeight (nHeight b)) with (nHeight d) by lia.
  destruct (IH s d) as (q & Hq & Hbq); [done..|lia|lia|]. exists q. split; [done|].
  replace (Z.to_nat (nHeight b - height))
    with (Z.to_nat (nHeight b - GetSkipHeight (nHeight b)) + Z.to_nat (nHeight d - height))%nat by lia.
  rewrite back_add, Hs. done.
Qed.

Lemma GetAncestor_walks m p b height :
  index_ok m → m !! p = Some b → 0 ≤ height ≤ nHeight b →
  ∃ q, GetAncestor m p height = Ok (Some q) ∧ back m p (Z.to_nat (nHeight b - height)) = Some q.
Proof.
  intros Hok Hp Hh. unfold GetAncestor, deref. rewrite Hp. cbn [rbind].
  replace ((height >? nHeight b) || (height <? 0)) with false by lia.
  destruct (ancestor_loop_spec m height (Z.to_nat (nHeight b - height)) p b) as (q & -> & ?); [done..|lia|by exists q].
Qed.

(** ** Growing the index *)

Lemma back_insert m h b k : ∀ p,
  index_ok m → m !! h = None → is_Some (m !! p) → back (<[h := b]> m) p k = back m p k.
Proof.
  induction k as [|k IH]; intros p Hok Hh [c Hp]; [done|]. cbn [back].
  rewrite lookup_insert_ne by congruence. rewrite Hp. destruct (Hok p c Hp) as (_ & Hl & _).
  unfold link_ok in Hl. destruct (pprev c) as [q|]; [|done]. destruct Hl as (d & Hq & _). simpl. by apply IH.
Qed.
Lemma index_ok_insert m h b :
  index_ok m → m !! h = None → link_ok m b → 0 ≤ nHeight b →
  (∀ s, pskip b = Some s → ∃ q, pprev b = Some q ∧ back m q (Z.to_nat (nHeight b - 1 - GetSkipHeight (nHeight b))) = Some s) →
  index_ok (<[h := b]> m).
Proof.
  intros Hok Hh Hl Hnn Hsk p c [[<- <-]|[Hne Hp]]%lookup_insert_Some.
  - unfold link_ok in *. destruct (pprev b) as [q|] eqn:Hpp.
    + destruct Hl as (d & Hq & Hhd). pose proof (Hok q d Hq) as (Hd0 & _).
      split_and!; [done|exists d; split; [by rewrite lookup_insert_ne by congruence|done]|].
      intros s Hs. destruct (Hsk s Hs) as (q' & [= <-] & Hbk). split; [done|].
      pose proof (GetSkipHeight_range (nHeight b) ltac:(lia)).
      replace (Z.to_nat (nHeight b - GetSkipHeight (nHeight b)))
        with (S (Z.to_nat (nHeight b - 1 - GetSkipHeight (nHeight b)))) by lia.
      cbn [back]. rewrite lookup_insert_eq, Hpp. simpl. by rewrite back_insert.
    + split_and!; [done|done|]. intros s Hs. by destruct (Hsk s Hs) as (q' & ? & _).
  - destruct (Hok p c Hp) as (H1 & H2 & H3). split_and!; [done| |].
    + unfold link_ok in *. destruct (pprev c) as [q|]; [|done]. destruct H2 as (d & Hq & Hd).
      exists d. by rewrite lookup_insert_ne by congruence.
    + intros s Hs. destruct (H3 s Hs). by rewrite back_insert.
Qed.

(** ** Work *)

(** The work of a target: the expected number of hashes. *)
Definition work_of (nBits : Z) : Z :=
  let '(t, neg, over) := SetCompact nBits in
  if neg || over || (value t =? 0) then 0 else 2 ^ 256 / (value t + 1).

Lemma SetCompact_wf n : in_u 32 n → wf (SetCompact_target n) ∧ value (SetCompact_target n) < 2 ^ 256 - 1.
Proof.
  unfold in_u, SetCompact_target, SetCompact. intros Hn.
  assert (0 ≤ n &' 0x007fffff < 2 ^ 23) as Hw.
  { change 0x007fffff with (2 ^ 23 - 1). rewrite land_mask by lia. apply Z.mod_pos_bound. lia. }
  destruct (Z.leb_spec (n >>' 24) 3) as [Hs|Hs]; cbn [fst snd].
  - assert (0 ≤ n >>' 24) by (apply Z.shiftr_nonneg; lia).
    assert (0 ≤ (n &' 0x007fffff) >>' (8 * (3 - n >>' 24)) < 2 ^ 23) as Hr.
    { rewrite shr_div by lia. assert (0 < 2 ^ (8 * (3 - n >>' 24))) by (apply Z.pow_pos_nonneg; lia).
      split; [apply Z.div_pos; lia|]. apply Z.div_lt_upper_bound; [done|]. nia. }
    destruct (value_of_u64 ((n &' 0x007fffff) >>' (8 * (3 - n >>' 24)))) as [Hwf ->]; [lia|]. split; [done|lia].
  - destruct (value_of_u64 (n &' 0x007fffff)) as [Hwf Hv]; [lia|].
    destruct (wf_shl _ (8 * (n >>' 24 - 3)) Hwf ltac:(lia)) as [Hwf' ->]. split; [done|]. rewrite Hv.
    replace (8 * (n >>' 24 - 3)) with (1 + (8 * (n >>' 24 - 3) - 1)) by lia.
    rewrite Z.pow_add_r by lia. change (2 ^ 1) with 2.
    set (x := n &' 0x007fffff * (2 * 2 ^ (8 * (n >>' 24 - 3) - 1))).
    pose proof (Z.mod_pos_bound x (2 ^ 256) ltac:(lia)).
    assert ((x mod 2 ^ 256) mod 2 = 0) as Heven.
    { change (2 ^ 256) with (2 * 2 ^ 255). rewrite Z.rem_mul_r by lia.
      replace x with ((n &' 0x007fffff * 2 ^ (8 * (n >>' 24 - 3) - 1)) * 2) by (unfold x; ring).
      rewrite Z.mod_mul by lia. rewrite Z.add_0_l, Z.mul_comm. by apply Z.mod_mul. }
    destruct (decide (x mod 2 ^ 256 = 2 ^ 256 - 1)) as [E|]; [|lia]. rewrite E in Heven. done.
Qed.

Lemma GetBlockProof_work b :
  in_u 32 (nBits b) → ∃ w, GetBlockProof b = Ok w ∧ wf w ∧ value w = work_of (nBits b).
Proof.
  intros Hn. destruct (SetCompact_wf _ Hn) as [Hwf Hlt]. unfold SetCompact_target in *.
  unfold GetBlockProof, work_of. destruct (SetCompact (nBits b)) as [[t neg] over]. cbn [fst] in *.
  rewrite EqualTo_spec by (done || lia). destruct (neg || over || (value t =? 0)) eqn:Hz.
  { exists zero. split_and!; [done|apply wf_zero|by unfold zero; rewrite value_zeros]. }
  apply orb_false_iff in Hz as [_ Hz%Z.eqb_neq]. pose proof (value_wf_range t Hwf).
  destruct (wf_not t Hwf) as [Hn1 Hn2]. destruct (value_of_u64 1) as [H1 H2]; [lia|].
  destruct (wf_add t (of_u64 1) Hwf H1) as [Ha1 Ha2]. rewrite H2, Z.mod_small in Ha2 by lia.
  unfold op_add_u64. destruct (wf_div (op_not t) (op_add t (of_u64 1)) Hn1 Ha1) as [[_ H0]|(q & -> & Hq & _ & Hv)]; [lia|].
  cbn [lift_div rbind]. destruct (wf_add q (of_u64 1) Hq H1) as [Hw Hwv].
  eexists. split_and!; [done|done|]. rewrite Hwv, H2, Hv, Hn2, Ha2.
  replace (2 ^ 256) with ((2 ^ 256 - 1 - value t) + 1 * (value t + 1)) at 3 by lia.
  rewrite Z.div_add by lia. apply Z.mod_small. split.
  - assert (0 ≤ (2 ^ 256 - 1 - value t) / (value t + 1)) by (apply Z.div_pos; lia). lia.
  - assert ((2 ^ 256 - 1 - value t) / (value t + 1) ≤ 2 ^ 256 - 1 - value t); [|lia].
    apply Z.div_le_upper_bound; nia.
Qed.

(** ** The invariant of the block tree *)

Definition parent (m : BlockMap) (b : CBlockIndex) : option CBlockIndex := pprev b ≫= λ q, m !! q.
Definition parent_work (m : BlockMap) (b : CBlockIndex) : Z :=
  match parent m b with Some c => value (nChainWork c) | None => 0 end.
Definition parent_time (m : BlockMap) (b : CBlockIndex) : Z :=
  match parent m b with Some c => Z.max (nTimeMax c) (nTime b) | None => nTime b end.
(** The accumulated fields of an entry. *)
Definition entry_ok (m : BlockMap) (b : CBlockIndex) : Prop :=
  wf (nChainWork b) ∧ value (nChainWork b) = (parent_work m b + work_of (nBits b)) mod 2 ^ 256 ∧
  nTimeMax b = parent_time m b.
(** The best header is one with the most work. *)
Definition best_ok (t : block_tree) : Prop :=
  match pindexBestHeader t with
  | None => mapBlockIndex t = ∅
  | Some p => ∃ b, mapBlockIndex t !! p = Some b ∧
      ∀ q c, mapBlockIndex t !! q = Some c → value (nChainWork c) ≤ value (nChainWork b)
  end.
Definition tree_ok (t : block_tree) : Prop :=
  index_ok (mapBlockIndex t) ∧ (∀ p b, mapBlockIndex t !! p = Some b → entry_ok (mapBlockIndex t) b) ∧ best_ok t.

Lemma entry_ok_insert m h b c : link_ok m b → m !! h = None → entry_ok m b → entry_ok (<[h := c]> m) b.
Proof.
  intros Hl Hh. unfold entry_ok, parent_work, parent_time, parent. unfold link_ok in Hl.
  destruct (pprev b) as [q|]; simpl; [|done]. destruct Hl as (d & Hq & _).
  by rewrite lookup_insert_ne by congruence.
Qed.

Lemma RaiseValidity_fresh b :
  nStatus b = 0 → (RaiseValidity b BLOCK_VALID_TREE).2 = set_status b BLOCK_VALID_TREE.
Proof. intros Hs. unfold RaiseValidity. by rewrite Hs. Qed.

(** The skip pointer that [BuildSkip] finds for a new entry [b] on [q]. *)
Lemma BuildSkip_finds m h b q c :
  index_ok m → m !! h = None → pprev b = Some q → m !! q = Some c → nHeight b = nHeight c + 1 → pskip b = None →
  ∃ s, BuildSkip (<[h := b]> m) b = Ok (Some s) ∧
       back m q (Z.to_nat (nHeight b - 1 - GetSkipHeight (nHeight b))) = Some s.
Proof.
  intros Hok Hh Hpp Hq Hhc Hps. unfold BuildSkip. rewrite Hpp. pose proof (Hok q c Hq) as (Hc0 & _).
  pose proof (GetSkipHeight_range (nHeight b) ltac:(lia)).
  assert (index_ok (<[h := b]> m)) as Hok'.
  { apply index_ok_insert; [done|done| |lia|by rewrite Hps]. unfold link_ok. rewrite Hpp. by exists c. }
  destruct (GetAncestor_walks (<[h := b]> m) q c (GetSkipHeight (nHeight b))) as (s & -> & Hs);
    [done|by rewrite lookup_insert_ne by congruence|lia|].
  exists s. split; [done|]. rewrite back_insert in Hs by (done || by eexists).
  by replace (nHeight b - 1) with (nHeight c) by lia.
Qed.

Lemma link_entry_spec m h block :
  index_ok m → m !! h = None → hashPrevBlock block ≠ h →
  ∃ l, link_entry (<[h := new_entry block]> m) h block = Ok l ∧
    nStatus l = 0 ∧ nTime l = nTime_blk block ∧ nBits l = nBits_blk block ∧
    pprev l = (λ _, hashPrevBlock block) <$> m !! hashPrevBlock block ∧ link_ok m l ∧ 0 ≤ nHeight l ∧
    (∀ s, pskip l = Some s → ∃ q, pprev l = Some q ∧
       back m q (Z.to_nat (nHeight l - 1 - GetSkipHeight (nHeight l))) = Some s).
Proof.
  intros Hok Hh Hne. unfold link_entry. rewrite lookup_insert_ne by done.
  destruct (m !! hashPrevBlock block) as [q|] eqn:Hq; [|by exists (new_entry block)].
  set (b0 := mk_index _ _ _ _ _ _ _ _ _ _ _ _ _ _). rewrite insert_insert_eq. pose proof (Hok _ _ Hq) as (Hq0 & _).
  destruct (BuildSkip_finds m h b0 (hashPrevBlock block) q) as (s & -> & Hs); [done..|].
  eexists. split; [done|]. cbn [nStatus nTime nBits pprev pskip nHeight b0].
  split_and!; [done|done|done|done|by exists q|lia|]. intros s' [= <-]. by eexists.
Qed.

(** Putting a finished entry into the tree. *)
Lemma tree_ok_insert t h b (better : bool) stakes :
  tree_ok t → mapBlockIndex t !! h = None →
  link_ok (mapBlockIndex t) b → 0 ≤ nHeight b →
  (∀ s, pskip b = Some s → ∃ q, pprev b = Some q ∧
     back (mapBlockIndex t) q (Z.to_nat (nHeight b - 1 - GetSkipHeight (nHeight b))) = Some s) →
  entry_ok (mapBlockIndex t) b →
  (match pindexBestHeader t with
   | None => better = true
   | Some p => ∀ c, mapBlockIndex t !! p = Some c → better = (value (nChainWork c) <? value (nChainWork b))
   end) →
  tree_ok (mk_tree (<[h := b]> (mapBlockIndex t)) (if better then Some h else pindexBestHeader t) stakes).
Proof.
  intros (Hok & Hen & Hbest) Hh Hl Hnn Hsk Hb Hbet. split_and!; cbn [mapBlockIndex].
  - by apply index_ok_insert.
  - intros p c [[<- <-]|[_ Hp]]%lookup_insert_Some; apply entry_ok_insert; try done; [apply Hok with p; done|by eapply Hen].
  - unfold best_ok in *. cbn [mapBlockIndex pindexBestHeader]. destruct (pindexBestHeader t) as [p|].
    + destruct Hbest as (d & Hp & Hmax). rewrite (Hbet d Hp). destruct (Z.ltb_spec (value (nChainWork d)) (value (nChainWork b))).
      * exists b. split; [apply lookup_insert_eq|]. intros q c [[_ <-]|[_ Hq]]%lookup_insert_Some; [lia|].
        specialize (Hmax q c Hq). lia.
      * exists d. split; [by rewrite lookup_insert_ne by congruence|].
        intros q c [[_ <-]|[_ Hq]]%lookup_insert_Some; [lia|by eapply Hmax].
    + rewrite Hbet, Hbest. exists b. split; [apply lookup_insert_eq|].
      intros q c [[_ <-]|[_ Hq]]%lookup_insert_Some; [lia|by rewrite lookup_empty in Hq].
Qed.

Section Tree.
Context `{C : Crypto}.

Lemma AddToBlockIndex_spec t block :
  tree_ok t → in_u 32 (nBits_blk block) → hashPrevBlock block ≠ GetBlockHash block →
  ∃ t' b, AddToBlockIndex t block = Ok (GetBlockHash block, t') ∧ tree_ok t' ∧
    mapBlockIndex t' !! GetBlockHash block = Some b ∧
    (mapBlockIndex t !! GetBlockHash block = None →
       mapBlockIndex t' = <[GetBlockHash block := b]> (mapBlockIndex t) ∧
       pprev b = (λ _, hashPrevBlock block) <$> mapBlockIndex t !! hashPrevBlock block ∧
       nBits b = nBits_blk block ∧ nTime b = nTime_blk block ∧ IsValid b BLOCK_VALID_TREE = true).
Proof.
  intros Ht Hbits Hne. unfold AddToBlockIndex. set (h := GetBlockHash block) in *.
  destruct (mapBlockIndex t !! h) as [b|] eqn:Hh; [by exists t, b|].
  rewrite lookup_insert_ne by done. pose proof Ht as (Hok & Hen & Hbest).
  destruct (link_entry_spec (mapBlockIndex t) h block Hok Hh Hne) as (l & -> & Hst & Htm & Hbi & Hpp & Hl & Hnn & Hsk).
  set (prev := mapBlockIndex t !! hashPrevBlock block) in *.
  cbn [rbind]. destruct (GetBlockProof_work l) as (w & -> & Hw & Hwv); [by rewrite Hbi|]. cbn [rbind].
  rewrite RaiseValidity_fresh by done. set (b := set_status _ _). rewrite insert_insert_eq.
  assert (entry_ok (mapBlockIndex t) b) as Hb.
  { assert (parent (mapBlockIndex t) b = prev) as Hpar
      by (unfold parent; cbn [pprev b set_status]; rewrite Hpp; unfold prev; by destruct (_ !! hashPrevBlock block) eqn:?).
    unfold entry_ok, parent_work, parent_time. rewrite Hpar. cbn [nChainWork nTimeMax nBits nTime b set_status].
    rewrite Htm. rewrite <- Hwv. split; [|split; [|by destruct prev]].
    - apply wf_add; [|done]. unfold prev. destruct (_ !! hashPrevBlock block) eqn:Hq; [by eapply Hen|apply wf_zero].
    - unfold prev. destruct (_ !! hashPrevBlock block) eqn:Hq.
      + by rewrite (proj2 (wf_add _ _ (proj1 (Hen _ _ Hq)) Hw)).
      + rewrite (proj2 (wf_add _ _ wf_zero Hw)). f_equal. }
  assert (IsValid b BLOCK_VALID_TREE = true) as Hval by done.
  set (bet := match pindexBestHeader t with None => _ | Some _ => _ end).
  assert (∃ better, bet = Ok better ∧ match pindexBestHeader t with
    | None => better = true
    | Some p => ∀ c, mapBlockIndex t !! p = Some c → better = (value (nChainWork c) <? value (nChainWork b)) end)
    as (better & -> & Hbet).
  { unfold bet, best_ok in *. destruct (pindexBestHeader t) as [p|]; [|by exists true].
    destruct Hbest as (d & Hp & _). unfold deref. rewrite lookup_insert_ne by congruence. rewrite Hp. cbn [rbind].
    eexists. split; [done|]. intros c Hc. simplify_eq. apply op_lt_spec; [by eapply Hen|apply Hb]. }
  cbn [rbind]. eexists _, b. split; [done|]. split_and!.
  - by apply tree_ok_insert.
  - apply lookup_insert_eq.
  - intros _. split_and!; done.
Qed.

(** C17: Adding a header keeps the block tree consistent.  Starting from a
    consistent tree, [AddToBlockIndex] on a header with 32-bit difficulty bits
    succeeds: the predecessor links and heights, the skip pointers, the
    accumulated chain work (the sum of the expected hash counts modulo 2^256),
    the running maximum of block times and the best header (one with the most
    work) are all as they should be again; the entry of the header is in the
    tree, and no other entry has changed. *)
Theorem add_to_block_index_correct t block :
  tree_ok t → in_u 32 (nBits_blk block) → hashPrevBlock block ≠ GetBlockHash block →
  ∃ t' b, AddToBlockIndex t block = Ok (GetBlockHash block, t') ∧ tree_ok t' ∧
    mapBlockIndex t' !! GetBlockHash block = Some b ∧
    (mapBlockIndex t !! GetBlockHash block = None →
       mapBlockIndex t' = <[GetBlockHash block := b]> (mapBlockIndex t) ∧
       pprev b = (λ _, hashPrevBlock block) <$> mapBlockIndex t !! hashPrevBlock block ∧
       nBits b = nBits_blk block ∧ nTime b = nTime_blk block ∧ IsValid b BLOCK_VALID_TREE = true).
Proof. apply AddToBlockIndex_spec. Qed.
End Tree.

(** C19: [GetAncestor] with its skip pointers finds the same block as walking
    back one predecessor at a time.  In a consistent index the ancestor of a
    block at a height between 0 and its own exists, is the one reached by
    following [pprev], and has that height; outside this range the answer is
    null.  The loop never fails its assertion and takes at most one round per
    block between the two heights. *)
Theorem get_ancestor_correct m p b height :
  index_ok m → m !! p = Some b →
  if (0 <=? height) && (height <=? nHeight b)
  then ∃ q c, GetAncestor m p height = Ok (Some q) ∧ back m p (Z.to_nat (nHeight b - height)) = Some q ∧
              m !! q = Some c ∧ nHeight c = height
  else GetAncestor m p height = Ok None.
Proof.
  intros Hok Hp. destruct ((0 <=? height) && (height <=? nHeight b)) eqn:Hr.
  - destruct (GetAncestor_walks m p b height) as (q & Hg & Hb); [done..|lia|].
    destruct (back_height_inv m _ p b q Hok Hp Hb) as (_ & c & Hc & Hh).
    exists q, c. split_and!; [done..|lia].
  - unfold GetAncestor, deref. rewrite Hp. cbn [rbind].
    by replace ((height >? nHeight b) || (height <? 0)) with true by lia.
Qed.

(** ** The active chain *)

(** Every entry of the vector is a block of that height, above its ancestors. *)
Definition chain_ok (m : BlockMap) (c : CChain) : Prop :=
  ∀ i q, at_height c i = Some q →
    ∃ b, m !! q = Some b ∧ nHeight b = i ∧ ∀ j, 0 ≤ j ≤ i → at_height c j = back m q (Z.to_nat (i - j)).

Lemma at_height_range c i q : at_height c i = Some q → 0 ≤ i < Z.of_nat (length c).
Proof. unfold at_height. case_match eqn:Hr; [done|]. lia. Qed.
Lemma at_height_insert c i j q :
  0 ≤ i < Z.of_nat (length c) →
  at_height (<[Z.to_nat i := Some q]> c) j = if decide (j = i) then Some q else at_height c j.
Proof.
  intros Hi. unfold at_height. rewrite length_insert. case_decide as Hj.
  - subst j. replace ((i <? 0) || (i >=? Z.of_nat (length c))) with false by lia.
    by rewrite list_lookup_insert_eq by lia.
  - destruct ((j <? 0) || (j >=? Z.of_nat (length c))) eqn:Hr; [done|].
    by rewrite list_lookup_insert_ne by lia.
Qed.
Lemma at_height_resize c (n : nat) j :
  at_height (resize_chain c n) j = if j <? Z.of_nat n then at_height c j else None.
Proof.
  unfold at_height, resize_chain. rewrite length_app, length_take, length_replicate.
  replace (Nat.min n (length c) + (n - length c))%nat with n by lia.
  destruct (j <? 0) eqn:Hj0; simpl orb; cbv iota; [by destruct (j <? Z.of_nat n)|].
  destruct (Z.ltb_spec j (Z.of_nat n)); [|by replace (j >=? Z.of_nat n) with true by lia].
  replace (j >=? Z.of_nat n) with false by lia.
  destruct (decide (j < Z.of_nat (length c))).
  - replace (j >=? Z.of_nat (length c)) with false by lia.
    rewrite lookup_app_l by (rewrite length_take; lia). by rewrite lookup_take_lt by lia.
  - replace (j >=? Z.of_nat (length c)) with true by lia.
    rewrite lookup_app_r by (rewrite length_take; lia). rewrite length_take, lookup_replicate_2 by lia. done.
Qed.
Lemma chain_ok_resize m c n : chain_ok m c → chain_ok m (resize_chain c n).
Proof.
  intros Hc i q. rewrite at_height_resize. destruct (Z.ltb_spec i (Z.of_nat n)); [|done].
  intros Hi. destruct (Hc i q Hi) as (b & Hq & Hh & Hb). exists b. split_and!; [done..|].
  intros j Hj. rewrite at_height_resize. replace (j <? Z.of_nat n) with true by lia. by apply Hb.
Qed.

(** The vector holds the chain of [p] at the heights from [i] up to that of [p]. *)
Definition holds_from (m : BlockMap) (p : uint256) (H i : Z) (c : CChain) : Prop :=
  ∀ j, i ≤ j ≤ H → at_height c j = back m p (Z.to_nat (H - j)).

Lemma chain_ok_holds m p b c :
  index_ok m → m !! p = Some b → length c = Z.to_nat (nHeight b + 1) →
  holds_from m p (nHeight b) 0 c → chain_ok m c.
Proof.
  intros Hok Hp Hlen Hh i q Hi. pose proof (Hok p b Hp) as (Hb0 & _).
  pose proof (at_height_range _ _ _ Hi) as Hr. rewrite Hh in Hi by lia.
  destruct (back_height_inv m _ p b q Hok Hp Hi) as (_ & d & Hd & Hhd).
  exists d. split_and!; [done|lia|]. intros j Hj. rewrite Hh by lia.
  replace (Z.to_nat (nHeight b - j)) with (Z.to_nat (nHeight b - i) + Z.to_nat (i - j))%nat by lia.
  by rewrite back_add, Hi.
Qed.

Lemma set_tip_loop_spec m p b c0 (fuel : nat) : ∀ i r c,
  index_ok m → m !! p = Some b → chain_ok m c0 →
  length c = Z.to_nat (nHeight b + 1) → -1 ≤ i ≤ nHeight b → i < Z.of_nat fuel →
  r = (if i <? 0 then None else back m p (Z.to_nat (nHeight b - i))) →
  holds_from m p (nHeight b) (i + 1) c → (∀ j, j ≤ i → at_height c j = at_height c0 j) →
  ∃ c', set_tip_loop m fuel c r = Ok c' ∧ length c' = length c ∧ holds_from m p (nHeight b) 0 c'.
Proof.
  induction fuel as [|fuel IH]; intros i r c Hok Hp Hc0 Hlen Hi Hf -> Hh Hlow.
  { replace (i <? 0) with true by lia. exists c. split_and!; [done|done|]. by replace 0 with (i + 1) by lia. }
  destruct (Z.ltb_spec i 0).
  { exists c. split_and!; [done|done|]. by replace 0 with (i + 1) by lia. }
  destruct (back_height m (Z.to_nat (nHeight b - i)) p b) as (q & d & Hq & Hd & Hhd); [done..|lia|].
  rewrite Hq. cbn [set_tip_loop]. unfold deref at 1. rewrite Hd. cbn [rbind].
  replace (nHeight d) with i by lia. case_bool_decide as Hat.
  - exists c. split_and!; [done|done|]. intros j Hj. destruct (decide (i < j)); [apply Hh; lia|].
    rewrite Hlow by lia. rewrite Hlow in Hat by lia. destruct (Hc0 i q Hat) as (_ & _ & _ & Hb). rewrite Hb by lia.
    replace (Z.to_nat (nHeight b - j)) with (Z.to_nat (nHeight b - i) + Z.to_nat (i - j))%nat by lia.
    by rewrite back_add, Hq.
  - destruct (IH (i - 1) (pprev d) (<[Z.to_nat i := Some q]> c)) as (c' & Hs & Hl' & Hh'); try done; try lia.
    + by rewrite length_insert.
    + destruct (Hok q d Hd) as (_ & Hl & _). unfold link_ok in Hl.
      destruct (Z.ltb_spec (i - 1) 0); [destruct (pprev d) as [x|]; [|done]|].
      { destruct Hl as (e & He & Hhe). pose proof (Hok x e He) as (He0 & _). lia. }
      replace (Z.to_nat (nHeight b - (i - 1))) with (Z.to_nat (nHeight b - i) + 1)%nat by lia.
      rewrite back_add, Hq. cbn [back mbind option_bind]. rewrite Hd. by destruct (pprev d).
    + intros j Hj. rewrite at_height_insert by lia. case_decide; [subst j; done|]. apply Hh. lia.
    + intros j Hj. rewrite at_height_insert by lia. case_decide; [lia|]. apply Hlow. lia.
    + exists c'. rewrite length_insert in Hl'. done.
Qed.

Lemma SetTip_spec m c p b :
  index_ok m → chain_ok m c → m !! p = Some b →
  ∃ c', SetTip m c (Some p) = Ok c' ∧ chain_ok m c' ∧ Height c' = nHeight b ∧
    ∀ j, 0 ≤ j ≤ nHeight b → at_height c' j = back m p (Z.to_nat (nHeight b - j)).
Proof.
  intros Hok Hc Hp. pose proof (Hok p b Hp) as (Hb0 & _). unfold SetTip, deref. rewrite Hp. cbn [rbind].
  set (n := Z.to_nat (nHeight b + 1)).
  assert (length (resize_chain c n) = n) as Hlen
    by (unfold resize_chain; rewrite length_app, length_take, length_replicate; lia).
  destruct (set_tip_loop_spec m p b (resize_chain c n) n (nHeight b) (Some p) (resize_chain c n)) as (c' & -> & Hl & Hh);
    try done; try lia; [by apply chain_ok_resize| | |].
  - replace (nHeight b <? 0) with false by lia. by rewrite Z.sub_diag.
  - intros j Hj. lia.
  - exists c'. split_and!; [done|by eapply chain_ok_holds; [..|by rewrite Hl, Hlen|]|unfold Height; lia|done].
Qed.

(** [SetTip] rebuilds the active chain.  Whatever consistent chain was active
    before, longer, shorter or on another branch, after [SetTip(p)] the vector
    has one entry per height up to that of [p], each the ancestor of [p] at that
    height, although the loop stops as soon as it meets an entry that is
    already right. *)
Theorem set_tip_correct m c p b :
  index_ok m → chain_ok m c → m !! p = Some b →
  ∃ c', SetTip m c (Some p) = Ok c' ∧ chain_ok m c' ∧ Height c' = nHeight b ∧
    ∀ j, 0 ≤ j ≤ nHeight b → at_height c' j = back m p (Z.to_nat (nHeight b - j)).
Proof. apply SetTip_spec. Qed.

(** ** Forks *)

Definition contains (m : BlockMap) (c : CChain) (q : uint256) : bool :=
  match m !! q with Some b => bool_decide (at_height c (nHeight b) = Some q) | None => false end.
Lemma Contains_contains m c q b : m !! q = Some b → Contains m c q = Ok (contains m c q).
Proof. intros Hq. unfold Contains, contains, deref. by rewrite Hq. Qed.

(** The nearest ancestor of [p] on the chain, searched [k] blocks back. *)
Definition nearest (m : BlockMap) (c : CChain) (p : uint256) (r : option uint256) : Prop :=
  match r with
  | Some q => ∃ k, back m p k = Some q ∧ contains m c q = true ∧
      ∀ k' q', back m p k' = Some q' → contains m c q' = true → (k ≤ k')%nat
  | None => ∀ k' q', back m p k' = Some q' → contains m c q' = false
  end.

Lemma nearest_step m c p b q r :
  m !! p = Some b → pprev b = Some q → contains m c p = false → nearest m c q r → nearest m c p r.
Proof.
  intros Hp Hpp Hno. destruct r as [x|]; simpl.
  - intros (k & Hk & Hx & Hmin). exists (S k). split_and!; [by cbn [back]; rewrite Hp, Hpp|done|].
    intros [|k'] q' Hb Hc; [injection Hb as <-; congruence|].
    cbn [back] in Hb. rewrite Hp, Hpp in Hb. apply le_n_S. by eapply Hmin.
  - intros Hall [|k'] q' Hb; [by injection Hb as <-|]. cbn [back] in Hb. rewrite Hp, Hpp in Hb. by eapply Hall.
Qed.
Lemma nearest_far m c p b (d : nat) q r :
  index_ok m → m !! p = Some b → back m p d = Some q → Height c ≤ nHeight b - Z.of_nat d →
  nearest m c q r → nearest m c p r.
Proof.
  intros Hok. revert p b. induction d as [|d IH]; intros p b Hp Hb Hh Hr; [by injection Hb as ->|].
  destruct (back_height_inv m (S d) p b q Hok Hp Hb) as (Hd & _).
  cbn [back] in Hb. rewrite Hp in Hb. destruct (pprev b) as [x|] eqn:Hpp; [|done]. simpl in Hb.
  destruct (Hok p b Hp) as (_ & Hl & _). unfold link_ok in Hl. rewrite Hpp in Hl. destruct Hl as (e & Hx & He).
  eapply nearest_step; [done..| |eapply IH; [done..|lia|done]].
  unfold contains. rewrite Hp. apply bool_decide_eq_false. intros Hat%at_height_range. unfold Height in Hh. lia.
Qed.

Lemma find_fork_loop_spec m c (fuel : nat) : ∀ p b,
  index_ok m → m !! p = Some b → nHeight b < Z.of_nat fuel →
  ∃ r, find_fork_loop m fuel c (Some p) = Ok r ∧ nearest m c p r.
Proof.
  induction fuel as [|fuel IH]; intros p b Hok Hp Hf; destruct (Hok p b Hp) as (H0 & Hl & _); [lia|].
  cbn [find_fork_loop]. unfold deref at 1. rewrite Hp. cbn [rbind]. rewrite (Contains_contains m c p b Hp). cbn [rbind].
  destruct (contains m c p) eqn:Hc.
  { exists (Some p). split; [done|]. exists 0%nat. split_and!; [done|done|lia]. }
  unfold link_ok in Hl. destruct (pprev b) as [q|] eqn:Hpp.
  - destruct Hl as (e & Hq & He). destruct (IH q e) as (r & -> & Hr); [done..|lia|].
    exists r. split; [done|]. by eapply nearest_step.
  - exists None. split; [by destruct fuel|]. intros [|k] q' Hb; [by injection Hb as <-|].
    cbn [back] in Hb. by rewrite Hp, Hpp in Hb.
Qed.

Lemma FindFork_spec m c p b :
  index_ok m → m !! p = Some b → ∃ r, FindFork m c (Some p) = Ok r ∧ nearest m c p r.
Proof.
  intros Hok Hp. pose proof (Hok p b Hp) as (Hb0 & _). unfold FindFork, deref. rewrite Hp. cbn [rbind].
  destruct (nHeight b >? Height c) eqn:Hgt.
  2: { cbn [rbind]. apply find_fork_loop_spec with b; [done..|lia]. }
  destruct (decide (0 ≤ Height c)).
  - destruct (GetAncestor_walks m p b (Height c)) as (q & -> & Hq); [done..|lia|]. cbn [rbind].
    destruct (back_height_inv m _ p b q Hok Hp Hq) as (_ & d & Hd & Hhd).
    destruct (find_fork_loop_spec m c (Z.to_nat (nHeight b + 1)) q d) as (r & -> & Hr); [done..|lia|].
    exists r. split; [done|]. by eapply nearest_far; [..|exact Hr]; [done..|lia].
  - unfold GetAncestor, deref. rewrite Hp. cbn [rbind].
    replace ((Height c >? nHeight b) || (Height c <? 0)) with true by lia. cbn [rbind].
    exists None. split; [by destruct (Z.to_nat (nHeight b + 1))|]. intros k q Hb. unfold contains.
    destruct (m !! q) as [d|]; [|done]. apply bool_decide_eq_false. intros Hat%at_height_range.
    unfold Height in *. lia.
Qed.

(** [FindFork] returns the fork point.  For a block of a consistent index and
    any vector as the active chain, the result is the nearest ancestor of the
    block (itself included) that is on the chain, and null exactly when no
    ancestor is; the jump to the height of the tip skips no candidate. *)
Theorem find_fork_correct m c p b :
  index_ok m → m !! p = Some b → ∃ r, FindFork m c (Some p) = Ok r ∧ nearest m c p r.
Proof. apply FindFork_spec. Qed.

(** ** Median time *)

(** How many elements are below a bound. *)
Definition below (x : Z) (l : list Z) : nat := length (filter (λ y, y < x) l).

Lemma below_cons x y l : below x (y :: l) = ((if decide (y < x)%Z then 1 else 0) + below x l)%nat.
Proof. unfold below. rewrite filter_cons. by case_decide. Qed.
Lemma below_app x l k : below x (l ++ k) = (below x l + below x k)%nat.
Proof. unfold below. by rewrite filter_app, length_app. Qed.
Lemma below_perm x l k : l ≡ₚ k → below x l = below x k.
Proof. intros Hp. unfold below. by rewrite Hp. Qed.

Lemma below_zero x l : Forall (Z.le x) l → below x l = 0%nat.
Proof. induction 1 as [|y l Hy _ IH]; [done|]. rewrite below_cons, IH. case_decide; lia. Qed.
Lemma below_take x n l : (below x (take n l) ≤ below x l)%nat.
Proof. rewrite <- (take_drop n l) at 2. rewrite below_app. lia. Qed.

(** In a sorted list the element at index [i] is at least [x] when at most [i]
    elements are below [x], and at most [i] elements are below it. *)
Lemma sorted_nth_ge l : ∀ i x, Sorted Z.le l → (i < length l)%nat → (below x l ≤ i)%nat → x ≤ nth i l 0.
Proof.
  induction l as [|y l IH]; intros i x Hs Hi Hb; [simpl in Hi; lia|].
  rewrite below_cons in Hb. apply Sorted_StronglySorted in Hs; [|intros ???; lia].
  inversion Hs as [|? ? Hs' Hall]; subst. destruct i as [|i].
  - simpl. case_decide; lia.
  - simpl in Hi |- *. case_decide as Hy.
    + apply IH; [by apply StronglySorted_Sorted|lia|lia].
    + assert (y ≤ nth i l 0); [|lia]. eapply Forall_forall; [exact Hall|]. apply list_elem_of_In, nth_In. lia.
Qed.
Lemma sorted_below_nth l : ∀ i, Sorted Z.le l → (below (nth i l 0%Z) l ≤ i)%nat ∨ (length l ≤ i)%nat.
Proof.
  induction l as [|y l IH]; intros i Hs; [right; simpl; lia|].
  apply Sorted_StronglySorted in Hs; [|intros ???; lia]. inversion Hs as [|? ? Hs' Hall]; subst.
  rewrite below_cons. destruct i as [|i]; cbn [nth length].
  - left. case_decide; [lia|]. by rewrite below_zero.
  - apply StronglySorted_Sorted in Hs'. destruct (IH i Hs'); [left; case_decide; lia|right; lia].
Qed.

Lemma last_times_ok m n : ∀ p,
  index_ok m → is_Some (m !! p) → ∃ l, last_times m n (Some p) = Ok l ∧ (length l ≤ n)%nat ∧ (0 < n → 0 < length l)%nat.
Proof.
  induction n as [|n IH]; intros p Hok [b Hp]; cbn [last_times].
  { exists []. simpl. split_and!; [done|lia|lia]. }
  unfold deref. rewrite Hp. cbn [rbind]. destruct (Hok p b Hp) as (_ & Hl & _). unfold link_ok in Hl.
  destruct (pprev b) as [q|].
  - destruct Hl as (c & Hq & _). destruct (IH q Hok) as (l & -> & Hl & _); [by eexists|].
    cbn [rbind]. eexists. split_and!; [done|simpl; lia|simpl; lia].
  - assert (last_times m n None = Ok []) as -> by (by destruct n). cbn [rbind].
    eexists. split_and!; [done|simpl; lia|simpl; lia].
Qed.
Lemma last_times_take m n : ∀ r l, last_times m (S n) r = Ok l → last_times m n r = Ok (take n l).
Proof.
  induction n as [|n IH]; intros [p|] l; cbn [last_times]; try (by intros [= <-]).
  - intros _. by rewrite take_0.
  - destruct (deref m p) as [b|]; cbn [rbind]; [|done].
    change (match pprev b with Some p0 => _ | None => Ok [] end) with (last_times m (S n) (pprev b)).
    destruct (last_times m (S n) (pprev b)) as [k|] eqn:Hk; cbn [rbind]; [|done]. intros [= <-].
    apply IH in Hk. by rewrite Hk.
Qed.

Lemma sort_times_sorted l : Sorted Z.le (sort_times l).
Proof. apply Sorted_merge_sort. intros x y. lia. Qed.
Lemma sort_times_perm l : sort_times l ≡ₚ l.
Proof. apply merge_sort_Permutation. Qed.

(** Median time never goes back.  If the time of a block is later than the
    median time past of its predecessor, as the contextual header check
    demands, then the median time past of the block is at least that of its
    predecessor, at every height, also while fewer than eleven blocks exist. *)
Theorem median_time_monotone m p b q t :
  index_ok m → m !! p = Some b → pprev b = Some q →
  GetMedianTimePast m q = Ok t → t < nTime b →
  ∃ t', GetMedianTimePast m p = Ok t' ∧ t ≤ t'.
Proof.
  intros Hok Hp Hpp Hq Ht. destruct (Hok p b Hp) as (_ & Hl & _). unfold link_ok in Hl. rewrite Hpp in Hl.
  destruct Hl as (c & Hc & _). unfold GetMedianTimePast in *. unfold nMedianTimeSpan in *.
  destruct (last_times_ok m 11 q Hok) as (w & Hw & Hlen & Hpos); [by eexists|]. specialize (Hpos ltac:(lia)).
  rewrite Hw in Hq. cbn [rbind] in Hq.
  assert (nth (length (sort_times w) / 2) (sort_times w) 0 = t) as Hm by congruence. pose proof (last_times_take m 10 (Some q) w Hw) as Hw10.
  assert (last_times m 11 (Some p) = Ok (nTime b :: take 10 w)) as ->.
  { change (last_times m 11 (Some p)) with (let* b := deref m p in let* l := last_times m 10 (pprev b) in Ok (GetBlockTime b :: l)).
    unfold deref. rewrite Hp. cbn [rbind]. by rewrite Hpp, Hw10. }
  cbn [rbind]. eexists. split; [done|]. set (w' := nTime b :: take 10 w).
  assert (length (sort_times w) = length w) as Hsw by (by rewrite sort_times_perm).
  assert (length (sort_times w') = length w') as Hsw' by (by rewrite sort_times_perm).
  assert (length w ≤ length w' ∧ 0 < length w')%nat as [Hle Hpos'] by (simpl; rewrite length_take; lia).
  apply sorted_nth_ge; [apply sort_times_sorted|rewrite Hsw'; apply Nat.div_lt; lia|].
  rewrite (below_perm _ _ _ (sort_times_perm w')), Hsw'. unfold w' at 1. rewrite below_cons, decide_False by lia.
  pose proof (below_take t 10 w). rewrite Hsw in Hm.
  destruct (sorted_below_nth (sort_times w) (length w / 2) (sort_times_sorted w)) as [Hb|Hb].
  - rewrite Hm in Hb. rewrite (below_perm _ _ _ (sort_times_perm w)) in Hb.
    assert (length w / 2 ≤ length w' / 2)%nat by (apply Nat.Div0.div_le_mono; done). fold w'. lia.
  - rewrite Hsw in Hb. pose proof (Nat.div_lt (length w) 2). lia.
Qed.

(** ** Examples: a genesis block and two blocks on top of it *)

Definition sample_entry (prev : option uint256) (skip : option uint256) (height t : Z) : CBlockIndex :=
  mk_index prev skip height zero 2 t 0x1d00ffff t null_outpoint null_hash 1 1 (height + 1) 0.
Definition hash_g : uint256 := replicate 32 1.
Definition hash_a : uint256 := replicate 32 2.
Definition hash_b : uint256 := replicate 32 3.
Definition sample_index : BlockMap :=
  <[hash_b := sample_entry (Some hash_g) (Some hash_g) 1 200]>
    (<[hash_a := sample_entry (Some hash_g) (Some hash_g) 1 100]> {[hash_g := sample_entry None None 0 50]}).

Lemma sample_index_ok : index_ok sample_index.
Proof.
  apply index_ok_insert; [apply index_ok_insert; [| | | |]| | | |]; try done; try (by eexists).
  1: { intros p b [<- <-]%lookup_singleton_Some. by split_and!. }
  all: intros s [= <-]; by exists hash_g.
Qed.

Lemma get_ancestor_correct_witness : GetAncestor sample_index hash_b 0 = Ok (Some hash_g).
Proof.
  destruct (get_ancestor_correct sample_index hash_b (sample_entry (Some hash_g) (Some hash_g) 1 200) 0)
    as (q & c & Hq & Hb & _); [apply sample_index_ok|reflexivity|].
  rewrite Hq. f_equal. rewrite <- Hb. reflexivity.
Defined.

Lemma set_tip_correct_witness :
  ∃ c, SetTip sample_index [Some hash_g; Some hash_a] (Some hash_b) = Ok c ∧ at_height c 1 = Some hash_b.
Proof.
  destruct (set_tip_correct sample_index [Some hash_g; Some hash_a] hash_b (sample_entry (Some hash_g) (Some hash_g) 1 200))
    as (c & Hc & _ & _ & Hat); [apply sample_index_ok| |reflexivity|].
  - intros i q Hi. pose proof (at_height_range _ _ _ Hi) as Hr. simpl in Hr.
    assert (i = 0 ∨ i = 1) as [-> | ->] by lia; injection Hi as <-; eexists; (split_and!; [reflexivity..|]);
      intros j Hj; [assert (j = 0) as -> by lia|assert (j = 0 ∨ j = 1) as [-> | ->] by lia]; reflexivity.
  - exists c. split; [done|]. rewrite Hat by (simpl; lia). reflexivity.
Defined.

Lemma find_fork_correct_witness :
  ∃ r, FindFork sample_index [Some hash_g; Some hash_a] (Some hash_b) = Ok r ∧ nearest sample_index [Some hash_g; Some hash_a] hash_b r.
Proof.
  apply (find_fork_correct sample_index [Some hash_g; Some hash_a] hash_b (sample_entry (Some hash_g) (Some hash_g) 1 200));
    [apply sample_index_ok|reflexivity].
Defined.

Lemma median_time_monotone_witness : ∃ t', GetMedianTimePast sample_index hash_b = Ok t' ∧ 50 ≤ t'.
Proof.
  apply (median_time_monotone sample_index hash_b (sample_entry (Some hash_g) (Some hash_g) 1 200) hash_g 50);
    [apply sample_index_ok|reflexivity|reflexivity|vm_compute; reflexivity|simpl; lia].
Defined.

Definition sample_header : CBlockHeader :=
  mk_header 1 hash_g null_hash 60 0x1d00ffff 0 null_hash null_hash null_outpoint [].
Lemma add_to_block_index_correct_witness :
  ∃ t' b, AddToBlockIndex (H := toy_crypto) (mk_tree ∅ None []) sample_header = Ok (GetBlockHash (H := toy_crypto) sample_header, t') ∧
    mapBlockIndex t' !! GetBlockHash (H := toy_crypto) sample_header = Some b ∧ nTime b = 60.
Proof.
  destruct (add_to_block_index_correct (C := toy_crypto) (mk_tree ∅ None []) sample_header) as (t' & b & H1 & _ & H2 & H3).
  - split_and!; [intros p b; simpl; by rewrite lookup_empty..|done].
  - split; [vm_compute; discriminate|reflexivity].
  - vm_compute. discriminate.
  - exists t', b. split_and!; [done|done|]. destruct H3 as (_ & _ & _ & H3 & _); [reflexivity|exact H3].
Defined.
