(* ===== verification/TxVerify.v ===== *)
(** * Transaction checks (consensus/tx_verify.cpp, consensus/consensus.h,
      consensus/consensus.cpp)

    The context-free checks, the checks against the coins a transaction spends,
    lock times and signature operation counts. *)
From S2P Require Import Prelude ArithUint256 Script Interpreter InterpreterFacts InterpreterSpecs StandardScripts Serialize Transaction SigHash Standard Coins CoinsFacts Block Chain ChainFacts.

(** ** Consensus constants and the block size parameters *)

Definition COINBASE_MATURITY : Z := 100.
Definition MAX_TRANSACTION_BASE_SIZE : Z := 1000000.
Definition WITNESS_SCALE_FACTOR : Z := 4.
Definition LOCKTIME_VERIFY_SEQUENCE : Z := 1.
Definition LOCKTIME_MEDIAN_TIME_PAST : Z := 2.

Record dgp_params := mk_dgp {
  dgpMaxBlockSerSize : Z; dgpMaxBlockWeight : Z; dgpMaxBlockSize : Z; dgpMaxBlockSigOps : Z;
  dgpMaxProtoMsgLength : Z; dgpMaxTxSigOps : Z
}.
Definition default_dgp : dgp_params := mk_dgp 8000000 8000000 2000000 80000 8000000 16000.
Definition updateBlockSizeParams (p : dgp_params) (newBlockSize : Z) : dgp_params :=
  let newSizeForParams := u32 (WITNESS_SCALE_FACTOR * newBlockSize) in
  let sigops := newSizeForParams / 100 in
  mk_dgp newSizeForParams newSizeForParams (dgpMaxBlockSize p) sigops newSizeForParams (u32 (sigops / 5)).

(** ** Lock times *)

Definition IsFinalTx (tx : CTransaction) (nBlockHeight nBlockTime : Z) : bool :=
  if nLockTime tx =? 0 then true
  else if nLockTime tx <? (if nLockTime tx <? LOCKTIME_THRESHOLD then nBlockHeight else nBlockTime) then true
  else forallb (λ txin, nSequence txin =? SEQUENCE_FINAL) (vin tx).

Definition fEnforceBIP68 (tx : CTransaction) (flags : Z) : bool :=
  (u32 (nVersion tx) >=? 2) && negb (flags &' LOCKTIME_VERIFY_SEQUENCE =? 0).

(** One round of the loop: the new minimum height and time, and the height of
    the coin, set to 0 when it does not matter. *)
Definition sequence_lock (m : BlockMap) (block : uint256) (txin : CTxIn) (nCoinHeight nMinHeight nMinTime : Z)
  : result chain_error (Z * Z * Z) :=
  if negb (nSequence txin &' SEQUENCE_LOCKTIME_DISABLE_FLAG =? 0) then Ok (nMinHeight, nMinTime, 0)
  else if negb (nSequence txin &' SEQUENCE_LOCKTIME_TYPE_FLAG =? 0) then
    let* a := GetAncestor m block (Z.max (nCoinHeight - 1) 0) in
    match a with
    | None => Err dangling
    | Some a =>
        let* nCoinTime := GetMedianTimePast m a in
        Ok (nMinHeight,
            Z.max nMinTime (nCoinTime + ((nSequence txin &' SEQUENCE_LOCKTIME_MASK) <<' SEQUENCE_LOCKTIME_GRANULARITY) - 1),
            nCoinHeight)
    end
  else Ok (Z.max nMinHeight (nCoinHeight + (nSequence txin &' SEQUENCE_LOCKTIME_MASK) - 1), nMinTime, nCoinHeight).
Fixpoint sequence_lock_loop (m : BlockMap) (block : uint256) (l : list (CTxIn * Z)) (nMinHeight nMinTime : Z)
  : result chain_error (Z * Z * list Z) :=
  match l with
  | [] => Ok (nMinHeight, nMinTime, [])
  | (txin, h) :: l =>
      let* r := sequence_lock m block txin h nMinHeight nMinTime in
      let* q := sequence_lock_loop m block l r.1.1 r.1.2 in
      Ok (q.1, r.2 :: q.2)
  end.

(** The lock pair and the coin heights as the call leaves them. *)
Definition CalculateSequenceLocks (m : BlockMap) (tx : CTransaction) (flags : Z) (prevHeights : list Z) (block : uint256)
  : result chain_error (Z * Z * list Z) :=
  if negb (Z.of_nat (length prevHeights) =? Z.of_nat (length (vin tx))) then Err assertion_failed
  else if negb (fEnforceBIP68 tx flags) then Ok (-1, -1, prevHeights)
  else sequence_lock_loop m block (zip (vin tx) prevHeights) (-1) (-1).

Definition EvaluateSequenceLocks (m : BlockMap) (block : uint256) (lockPair : Z * Z) : result chain_error bool :=
  let* b := deref m block in
  match pprev b with
  | None => Err assertion_failed
  | Some q =>
      let* nBlockTime := GetMedianTimePast m q in
      Ok (negb ((lockPair.1 >=? nHeight b) || (lockPair.2 >=? nBlockTime)))
  end.
Definition SequenceLocks (m : BlockMap) (tx : CTransaction) (flags : Z) (prevHeights : list Z) (block : uint256)
  : result chain_error bool :=
  let* r := CalculateSequenceLocks m tx flags prevHeights block in
  EvaluateSequenceLocks m block r.1.

(** ** Signature operations *)

Definition GetLegacySigOpCount (tx : CTransaction) : Z :=
  foldl (λ n txout, u32 (n + GetSigOpCount (scriptPubKey txout) false))
    (foldl (λ n txin, u32 (n + GetSigOpCount (scriptSig txin) false)) 0 (vin tx)) (vout tx).

Section Inputs.
Context `{C : Crypto} {V : Type} `{CoinsView V}.
Implicit Types c : CCoinsViewCache V.

Fixpoint p2sh_sigops c (l : list CTxIn) (nSigOps : Z) : result coins_error (Z * CCoinsViewCache V) :=
  match l with
  | [] => Ok (nSigOps, c)
  | txin :: l =>
      let '(cn, c) := AccessCoin c (prevout txin) in
      if IsSpent cn then Err assertion
      else p2sh_sigops c l
             (if IsPayToScriptHash (scriptPubKey (out cn))
              then u32 (nSigOps + GetSigOpCount_p2sh (scriptPubKey (out cn)) (scriptSig txin)) else nSigOps)
  end.
Definition GetP2SHSigOpCount c (tx : CTransaction) : result coins_error (Z * CCoinsViewCache V) :=
  if IsCoinBase tx then Ok (0, c) else p2sh_sigops c (vin tx) 0.

Fixpoint witness_sigops c (l : list CTxIn) (flags nSigOps : Z) : result coins_error (Z * CCoinsViewCache V) :=
  match l with
  | [] => Ok (nSigOps, c)
  | txin :: l =>
      let '(cn, c) := AccessCoin c (prevout txin) in
      if IsSpent cn then Err assertion
      else match CountWitnessSigOps (scriptSig txin) (scriptPubKey (out cn)) (scriptWitness txin) flags with
           | None => Err assertion
           | Some k => witness_sigops c l flags (i64 (nSigOps + k))
           end
  end.
Definition GetTransactionSigOpCost c (tx : CTransaction) (flags : Z) : result coins_error (Z * CCoinsViewCache V) :=
  let nSigOps := u32 (GetLegacySigOpCount tx * WITNESS_SCALE_FACTOR) in
  if IsCoinBase tx then Ok (nSigOps, c)
  else
    let* r := if negb (flags &' SCRIPT_VERIFY_P2SH =? 0)
              then let* r := GetP2SHSigOpCount c tx in Ok (i64 (nSigOps + u32 (r.1 * WITNESS_SCALE_FACTOR)), r.2)
              else Ok (nSigOps, c) in
    witness_sigops r.2 (vin tx) flags r.1.

(** ** [CheckTransaction] *)

(** The reject reasons; [assert_fails] and [throws] end the check without one. *)
Inductive tx_reject :=
| bad_txns_vin_empty | bad_txns_vout_empty | bad_txns_oversize | bad_txns_vout_negative | bad_txns_vout_toolarge
| bad_txns_txouttotal_toolarge | bad_txns_contract_nonstandard | bad_txns_inputs_duplicate | bad_cb_length
| bad_txns_prevout_null | bad_txns_inputs_missingorspent | bad_txns_premature_spend_of_coinbase
| bad_txns_inputvalues_outofrange | bad_txns_in_belowout | bad_txns_fee_outofrange | assert_fails | throws.

Definition check_output (normal : bool) (txout : CTxOut) (nValueOut : Z) : result tx_reject Z :=
  let* _ := require (negb (IsEmpty_txout txout && normal)) bad_txns_vout_empty in
  let* _ := require (negb (nValue txout <? 0)) bad_txns_vout_negative in
  let* _ := require (negb (nValue txout >? MAX_MONEY)) bad_txns_vout_toolarge in
  let nValueOut := i64 (nValueOut + nValue txout) in
  let* _ := require (MoneyRange nValueOut) bad_txns_txouttotal_toolarge in
  let* _ := require (negb ((HasOpCall (scriptPubKey txout) || HasOpCreate (scriptPubKey txout))
                            && negb (bool_decide (is_Some (Solver (scriptPubKey txout) true)))))
                    bad_txns_contract_nonstandard in
  Ok nValueOut.
Fixpoint check_outputs (normal : bool) (outs : list CTxOut) (nValueOut : Z) : result tx_reject unit :=
  match outs with
  | [] => Ok tt
  | o :: outs => let* v := check_output normal o nValueOut in check_outputs normal outs v
  end.
(** Inserting into a set until an insertion finds its element there. *)
Fixpoint no_duplicates (l : list COutPoint) (vInOutPoints : list COutPoint) : bool :=
  match l with
  | [] => true
  | o :: l => if bool_decide (o ∈ vInOutPoints) then false else no_duplicates l (o :: vInOutPoints)
  end.

(** The script of a coinbase, or the previous outputs of any other transaction. *)
Definition check_prevouts (tx : CTransaction) : result tx_reject unit :=
  if IsCoinBase tx then
    let len := match vin tx with i :: _ => size (scriptSig i) | [] => 0 end in
    require (negb ((len <? 2) || (len >? 100))) bad_cb_length
  else require (forallb (λ i, negb (IsNull_outpoint (prevout i))) (vin tx)) bad_txns_prevout_null.

Definition CheckTransaction (p : dgp_params) (tx : CTransaction) (fCheckDuplicateInputs : bool) : result tx_reject unit :=
  let* _ := require (negb (size (vin tx) =? 0)) bad_txns_vin_empty in
  let* _ := require (negb (size (vout tx) =? 0)) bad_txns_vout_empty in
  let sz := size (SerializeTransaction false tx) in
  let* _ := require (negb ((sz >? MAX_TRANSACTION_BASE_SIZE) || (sz * WITNESS_SCALE_FACTOR >? dgpMaxBlockWeight p)))
                    bad_txns_oversize in
  let* _ := check_outputs (negb (IsCoinBase tx) && negb (IsCoinStake tx)) (vout tx) 0 in
  let* _ := require (negb fCheckDuplicateInputs || no_duplicates (map prevout (vin tx)) []) bad_txns_inputs_duplicate in
  check_prevouts tx.

(** ** [Consensus::CheckTxInputs] *)

Fixpoint check_inputs c (l : list CTxIn) (nSpendHeight nValueIn : Z) : result tx_reject Z * CCoinsViewCache V :=
  match l with
  | [] => (Ok nValueIn, c)
  | txin :: l =>
      let '(cn, c) := AccessCoin c (prevout txin) in
      if IsSpent cn then (Err assert_fails, c)
      else if (fCoinBase cn || fCoinStake cn) && (nSpendHeight - Coins.nHeight cn <? COINBASE_MATURITY)
      then (Err bad_txns_premature_spend_of_coinbase, c)
      else
        let nValueIn := i64 (nValueIn + nValue (out cn)) in
        if negb (MoneyRange (nValue (out cn))) || negb (MoneyRange nValueIn)
        then (Err bad_txns_inputvalues_outofrange, c)
        else check_inputs c l nSpendHeight nValueIn
  end.

(** The fee, [None] for a coin stake, which leaves it alone. *)
Definition tally_fee (tx : CTransaction) (nValueIn : Z) : result tx_reject (option Z) :=
  if negb (IsCoinStake tx) then
    match GetValueOut tx with
    | Err _ => Err throws
    | Ok value_out =>
        if nValueIn <? value_out then Err bad_txns_in_belowout
        else
          let txfee_aux := i64 (nValueIn - value_out) in
          if negb (MoneyRange txfee_aux) then Err bad_txns_fee_outofrange else Ok (Some txfee_aux)
    end
  else Ok None.
Definition CheckTxInputs c (tx : CTransaction) (nSpendHeight : Z) : result tx_reject (option Z) * CCoinsViewCache V :=
  let '(have, c) := HaveInputs c tx in
  if negb have then (Err bad_txns_inputs_missingorspent, c)
  else
    let '(r, c) := check_inputs c (vin tx) nSpendHeight 0 in
    (let* nValueIn := r in tally_fee tx nValueIn, c).
End Inputs.

(** ** [CheckTransaction] accepts exactly the well-formed transactions *)

Definition output_ok (normal : bool) (o : CTxOut) : Prop :=
  (normal = true → IsEmpty_txout o = false) ∧ MoneyRange (nValue o) = true ∧
  (HasOpCall (scriptPubKey o) || HasOpCreate (scriptPubKey o) = true → is_Some (Solver (scriptPubKey o) true)).

Lemma check_output_spec normal o acc v :
  0 ≤ acc ≤ MAX_MONEY →
  check_output normal o acc = Ok v ↔ output_ok normal o ∧ v = acc + nValue o ∧ v ≤ MAX_MONEY.
Proof.
  intros Hacc. unfold check_output, output_ok. cbv zeta. autorewrite with results. rewrite !MoneyRange_spec, !negb_true_iff.
  assert (MAX_MONEY < 2 ^ 62) as Hmax by done.
  destruct (decide (0 ≤ nValue o ≤ MAX_MONEY)) as [Hv|Hv]; [|lia].
  rewrite i64_small by lia. replace (nValue o <? 0) with false by lia. replace (nValue o >? MAX_MONEY) with false by lia.
  destruct (HasOpCall (scriptPubKey o) || HasOpCreate (scriptPubKey o)), normal, (IsEmpty_txout o),
    (Solver (scriptPubKey o) true); simpl;
    (split; [intros (?&?&?&?&?&?)|intros ((H1&?&H3)&?&?)]; try discriminate;
     try (by destruct (H3 eq_refl)); try (by specialize (H1 eq_refl));
     split_and!; try done; try lia; intros; by eexists).
Qed.

Lemma check_outputs_spec normal outs : ∀ acc,
  0 ≤ acc ≤ MAX_MONEY →
  check_outputs normal outs acc = Ok tt ↔ Forall (output_ok normal) outs ∧ acc + total outs ≤ MAX_MONEY.
Proof.
  induction outs as [|o outs IH]; intros acc Hacc; cbn [check_outputs].
  { split; [|done]. intros _. split; [done|]. unfold total. simpl. lia. }
  rewrite rbind_Ok, Forall_cons. cbn [total foldr]. fold (total outs). split.
  - intros (v & Hv & Hr). apply check_output_spec in Hv as (Ho & -> & Hle); [|done].
    pose proof (proj1 (proj2 Ho)) as Hm%MoneyRange_spec. apply IH in Hr as [? ?]; [|lia]. split; [done|lia].
  - intros [[Ho Hall] Hle]. pose proof (proj1 (proj2 Ho)) as Hm%MoneyRange_spec.
    assert (0 ≤ total outs) by (apply total_nonneg; eapply Forall_impl; [exact Hall|]; by intros x (_ & ? & _)).
    exists (acc + nValue o). split; [apply check_output_spec; [done|]; split_and!; [apply Ho..|done|lia]|].
    apply IH; [lia|]. split; [done|lia].
Qed.

Lemma no_duplicates_spec l : ∀ seen, no_duplicates l seen = true ↔ NoDup l ∧ ∀ o, o ∈ l → o ∉ seen.
Proof.
  induction l as [|o l IH]; intros seen; cbn [no_duplicates].
  { split; [|done]. intros _. split; [constructor|]. intros o Ho. by apply not_elem_of_nil in Ho. }
  rewrite NoDup_cons. case_bool_decide as Ho.
  - split; [done|]. intros [_ Hl]. exfalso. apply (Hl o); [left|done].
  - rewrite IH. setoid_rewrite elem_of_cons. split; [intros [? Hl]|intros [[? ?] Hl]]; split_and!; naive_solver.
Qed.

Definition prevouts_ok (tx : CTransaction) : Prop :=
  if IsCoinBase tx then ∃ i l, vin tx = i :: l ∧ 2 ≤ size (scriptSig i) ≤ 100
  else Forall (λ i, IsNull_outpoint (prevout i) = false) (vin tx).
Lemma check_prevouts_spec tx : check_prevouts tx = Ok tt ↔ prevouts_ok tx.
Proof.
  unfold check_prevouts, prevouts_ok. destruct (IsCoinBase tx) eqn:Hc; cbv zeta; rewrite require_Ok.
  - destruct (vin tx) as [|i l] eqn:Hv; [unfold IsCoinBase in Hc; by rewrite Hv in Hc|].
    split; [intros ?; exists i, l; split; [done|lia]|intros (i' & l' & [= <- <-] & ?); lia].
  - rewrite forallb_forall. setoid_rewrite negb_true_iff. rewrite Forall_forall. by setoid_rewrite list_elem_of_In.
Qed.
Lemma nonempty_size {A} (l : list A) : negb (size l =? 0) = true ↔ l ≠ [].
Proof. destruct l as [|x l]; [done|]. rewrite size_cons. pose proof (size_nonneg l). split; [done|]. intros _. lia. Qed.

(** C16: [CheckTransaction] accepts exactly the well-formed transactions.  It has
    inputs and outputs and fits the size limits; each output is non-empty
    (unless the transaction is a coinbase or coin stake), carries an amount in
    the money range and, if it creates or calls a contract, is a standard
    contract script; the sum of the outputs does not exceed the money supply
    (no overflow can hide it); no input is spent twice when duplicates are
    checked; a coinbase has a script of 2 to 100 bytes and any other
    transaction no null input. *)
Theorem check_transaction_accepts p tx dup :
  CheckTransaction p tx dup = Ok tt ↔
  vin tx ≠ [] ∧ vout tx ≠ [] ∧
  size (SerializeTransaction false tx) ≤ MAX_TRANSACTION_BASE_SIZE ∧
  size (SerializeTransaction false tx) * WITNESS_SCALE_FACTOR ≤ dgpMaxBlockWeight p ∧
  Forall (output_ok (IsNormalTx tx)) (vout tx) ∧ total (vout tx) ≤ MAX_MONEY ∧
  (dup = true → NoDup (map prevout (vin tx))) ∧
  prevouts_ok tx.
Proof.
  unfold CheckTransaction. cbv zeta. fold (IsNormalTx tx).
  autorewrite with results. rewrite check_outputs_spec, check_prevouts_spec, !nonempty_size by done.
  assert ((negb dup || no_duplicates (map prevout (vin tx)) []) = true ↔ (dup = true → NoDup (map prevout (vin tx)))) as ->.
  { destruct dup; simpl; [rewrite no_duplicates_spec; set_solver|naive_solver]. }
  rewrite negb_true_iff, orb_false_iff, Z.add_0_l, !Z.gtb_ltb, !Z.ltb_ge. tauto.
Qed.

(** ** Spending coins *)

Section Spending.
Context {V : Type} `{CoinsViewLaws V}.
Implicit Types c : CCoinsViewCache V.

(** The coin an input refers to, its maturity and its value. *)
Definition input_ok (s : coins) (nSpendHeight : Z) (i : CTxIn) : Prop :=
  ∃ cn, s (prevout i) = Some cn ∧ MoneyRange (nValue (out cn)) = true ∧
    (fCoinBase cn || fCoinStake cn = true → COINBASE_MATURITY ≤ nSpendHeight - Coins.nHeight cn).
Definition value_in (s : coins) (l : list CTxIn) : Z :=
  foldr (λ i acc, match s (prevout i) with Some cn => nValue (out cn) | None => 0 end + acc) 0 l.

Lemma value_in_nonneg s height l : Forall (input_ok s height) l → 0 ≤ value_in s l.
Proof.
  induction 1 as [|i l (cn & Hi & Hm & _) _ IH]; [done|]. simpl. rewrite Hi. apply MoneyRange_spec in Hm. lia.
Qed.

Lemma have_inputs_shows l : ∀ c s, cache_ok c → shows c ≐ s →
  ∃ b c', have_inputs c l = (b, c') ∧ becomes c c' s ∧ (b = true ↔ Forall (λ i, is_Some (s (prevout i))) l).
Proof.
  induction l as [|i l IH]; intros c s Hc Hs; cbn [have_inputs].
  { exists true, c. split_and!; [done|by eapply becomes_same|]. by split. }
  destruct (HaveCoin_shows c (prevout i) Hc) as (c1 & -> & Hb). rewrite (Hs (prevout i)).
  pose proof Hb as (Hc1 & _ & _ & Hs1). case_bool_decide as Hi; cbn [negb].
  - destruct (IH c1 s Hc1) as (b & c2 & -> & Hb2 & Hiff); [by rewrite Hs1|].
    exists b, c2. split_and!; [done|by eapply becomes_trans|]. rewrite Hiff, Forall_cons. tauto.
  - exists false, c1. split_and!; [done|by eapply becomes_same|]. rewrite Forall_cons. split; [done|]. by intros [? _].
Qed.

Lemma check_inputs_shows height l : ∀ c s acc,
  cache_ok c → shows c ≐ s → 0 ≤ acc ≤ MAX_MONEY →
  ∃ r c', check_inputs c l height acc = (r, c') ∧ becomes c c' s ∧
    ∀ v, r = Ok v ↔ Forall (input_ok s height) l ∧ v = acc + value_in s l ∧ v ≤ MAX_MONEY.
Proof.
  assert (MAX_MONEY < 2 ^ 62) as Hmax by done.
  induction l as [|i l IH]; intros c s acc Hc Hs Hacc; cbn [check_inputs].
  { exists (Ok acc), c. split_and!; [done|by eapply becomes_same|]. intros v. rewrite Ok_eq. cbn.
    split; [intros <-|intros (_ & -> & _)]; [|lia]. split_and!; [done|lia|lia]. }
  destruct (AccessCoin_shows c (prevout i) Hc) as (cn & c1 & -> & Hb & Hi). rewrite (Hs (prevout i)) in Hi.
  pose proof Hb as (Hc1 & _ & _ & Hs1). assert (becomes c c1 s) as Hbs by (by eapply becomes_same).
  assert (∀ (e : tx_reject), (∀ cn', s (prevout i) = Some cn' → ¬ input_ok s height i ∨ MAX_MONEY < acc + nValue (out cn') ) →
    ∀ v, (Err e : result tx_reject Z) = Ok v ↔ Forall (input_ok s height) (i :: l) ∧ v = acc + value_in s (i :: l) ∧ v ≤ MAX_MONEY) as Hbad.
  { intros e Hno v. split; [done|]. intros ([Hin Hl]%Forall_cons & -> & Hle). exfalso.
    pose proof (value_in_nonneg s height l Hl). destruct Hin as (cn' & Hcn' & Hrest). simpl in Hle. rewrite Hcn' in Hle.
    destruct (Hno cn' Hcn') as [Hn|?]; [apply Hn; by exists cn'|lia]. }
  destruct (IsSpent cn) eqn:Hsp.
  { do 2 eexists. split_and!; [done|done|]. apply Hbad. intros cn' Hcn'. by rewrite Hi in Hcn'. }
  destruct ((fCoinBase cn || fCoinStake cn) && (height - Coins.nHeight cn <? COINBASE_MATURITY)) eqn:Hmat.
  { do 2 eexists. split_and!; [done|done|]. apply Hbad. intros cn' _. left. intros (cn'' & Hcn'' & _ & Hm).
    rewrite Hi in Hcn''. injection Hcn'' as <-. apply andb_true_iff in Hmat as [H1 H2]. specialize (Hm H1). lia. }
  destruct (MoneyRange (nValue (out cn))) eqn:Hmr; cbn [negb orb].
  2: { do 2 eexists. split_and!; [done|done|]. apply Hbad. intros cn' _. left. intros (cn'' & Hcn'' & Hm & _).
       rewrite Hi in Hcn''. injection Hcn'' as <-. congruence. }
  assert (input_ok s height i) as Hin.
  { exists cn. split_and!; [done|done|]. intros H1. rewrite H1 in Hmat. simpl in Hmat. lia. }
  apply MoneyRange_spec in Hmr. rewrite i64_small by lia.
  destruct (MoneyRange (acc + nValue (out cn))) eqn:Hmr2; cbn [negb].
  - apply MoneyRange_spec in Hmr2. destruct (IH c1 s (acc + nValue (out cn))) as (r & c2 & -> & Hb2 & Hv);
      [done|by rewrite Hs1|done|].
    exists r, c2. split_and!; [done|by eapply becomes_trans|]. intros v. rewrite Hv, Forall_cons. simpl. rewrite Hi.
    rewrite Z.add_assoc. tauto.
  - do 2 eexists. split_and!; [done|done|]. apply Hbad. intros cn' Hcn'. rewrite Hi in Hcn'. injection Hcn' as <-. right.
    destruct (decide (acc + nValue (out cn) ≤ MAX_MONEY)); [|lia].
    by rewrite (proj2 (MoneyRange_spec (acc + nValue (out cn)))) in Hmr2 by lia.
Qed.

Lemma tally_fee_spec tx w v :
  IsCoinStake tx = false → w ≤ MAX_MONEY →
  tally_fee tx w = Ok (Some v) ↔
  Forall (λ o, MoneyRange (nValue o) = true) (vout tx) ∧ v = w - total (vout tx) ∧ 0 ≤ v.
Proof.
  intros Hcs Hw. unfold tally_fee. rewrite Hcs. cbn [negb]. assert (MAX_MONEY < 2 ^ 62) as Hmax by done.
  pose proof (GetValueOut_loop_spec (vout tx) 0) as Hgv. fold (GetValueOut tx) in Hgv.
  destruct (GetValueOut tx) as [o|[]] eqn:Ho.
  - destruct (Hgv o) as [Hgo _]; [done|]. destruct (Hgo eq_refl) as (Hout & -> & Hle).
    pose proof (total_nonneg _ Hout). rewrite Z.add_0_l in *. destruct (Z.ltb_spec w (total (vout tx))); [split; [done|lia]|].
    cbv zeta. rewrite i64_small by lia. rewrite (proj2 (MoneyRange_spec _)) by lia. cbn [negb].
    split; [intros [= <-]; split_and!; [done|done|lia]|by intros (_ & -> & _)].
  - split; [done|]. intros (Hout & -> & Hpos). exfalso. destruct (Hgv (0 + total (vout tx))) as [_ Hgo]; [done|].
    enough (Err tt = Ok (0 + total (vout tx)) :> result unit Z) by done. apply Hgo. split_and!; [done|done|lia].
Qed.

(** C7: [CheckTxInputs] conserves value.  For an ordinary transaction (neither
    coinbase nor coin stake) over a consistent cache, it succeeds with fee [f]
    exactly when every input spends a coin the cache shows, with a value in the
    money range and mature if it comes from a coinbase or coin stake, the sums
    of inputs and outputs stay in the money range, and [f] is the
    non-negative difference between them.  The cache shows the same coins
    afterwards. *)
Theorem check_tx_inputs_conserves c tx height :
  cache_ok c → IsCoinBase tx = false → IsCoinStake tx = false →
  ∃ r c', CheckTxInputs c tx height = (r, c') ∧ becomes c c' (shows c) ∧
    ∀ f, r = Ok (Some f) ↔
      Forall (input_ok (shows c) height) (vin tx) ∧ value_in (shows c) (vin tx) ≤ MAX_MONEY ∧
      Forall (λ o, MoneyRange (nValue o) = true) (vout tx) ∧
      f = value_in (shows c) (vin tx) - total (vout tx) ∧ 0 ≤ f.
Proof.
  intros Hc Hcb Hcs. unfold CheckTxInputs, HaveInputs. rewrite Hcb.
  destruct (have_inputs_shows (vin tx) c (shows c) Hc) as (b & c1 & -> & Hb & Hhave); [done|].
  pose proof Hb as (Hc1 & _ & _ & Hs1).
  destruct b; cbn [negb].
  2: { do 2 eexists. split_and!; [done|done|]. intros f. split; [done|]. intros (Hin & _). exfalso.
       enough (false = true) by done. apply Hhave. eapply Forall_impl; [exact Hin|]. intros i (cn & -> & _). by eexists. }
  destruct (check_inputs_shows height (vin tx) c1 (shows c) 0) as (r & c2 & -> & Hb2 & Hv); [done|done|done|].
  do 2 eexists. split_and!; [done|by eapply becomes_trans|]. intros f. rewrite rbind_Ok. setoid_rewrite Hv.
  rewrite Z.add_0_l.
  pose proof (tally_fee_spec tx (value_in (shows c) (vin tx)) f Hcs) as Hfee.
  split.
  - intros (w & (Hin & -> & Hle) & Hr). apply Hfee in Hr; [|done]. tauto.
  - intros (Hin & Hle & Hrest). exists (value_in (shows c) (vin tx)). split; [done|]. by apply Hfee.
Qed.
End Spending.

(** ** Lock times *)

(** The relative lock of one input, in terms of the block it would go into: its
    height [H] and the median time [T] of its predecessor. *)
Definition lock_satisfied (m : BlockMap) (block : uint256) (H T : Z) (p : CTxIn * Z) : Prop :=
  if negb (nSequence p.1 &' SEQUENCE_LOCKTIME_DISABLE_FLAG =? 0) then True
  else if negb (nSequence p.1 &' SEQUENCE_LOCKTIME_TYPE_FLAG =? 0) then
    ∃ a t, GetAncestor m block (Z.max (p.2 - 1) 0) = Ok (Some a) ∧ GetMedianTimePast m a = Ok t ∧
           t + 512 * (nSequence p.1 &' SEQUENCE_LOCKTIME_MASK) ≤ T
  else p.2 + (nSequence p.1 &' SEQUENCE_LOCKTIME_MASK) ≤ H.

Lemma median_exists m a : index_ok m → is_Some (m !! a) → ∃ t, GetMedianTimePast m a = Ok t.
Proof.
  intros Hok Ha. unfold GetMedianTimePast. destruct (last_times_ok m nMedianTimeSpan a Hok Ha) as (l & -> & _).
  by eexists.
Qed.

Lemma sequence_lock_spec m block b H T txin h mh mt :
  index_ok m → m !! block = Some b → 0 ≤ h ≤ nHeight b + 1 →
  ∃ r, sequence_lock m block txin h mh mt = Ok r ∧
    (r.1.1 < H ∧ r.1.2 < T ↔ (mh < H ∧ mt < T) ∧ lock_satisfied m block H T (txin, h)).
Proof.
  intros Hok Hb Hh. unfold sequence_lock, lock_satisfied. cbn [fst snd].
  destruct (negb (nSequence txin &' SEQUENCE_LOCKTIME_DISABLE_FLAG =? 0)); [by eexists; split; [done|]; tauto|].
  destruct (negb (nSequence txin &' SEQUENCE_LOCKTIME_TYPE_FLAG =? 0)).
  - pose proof (Hok block b Hb) as (Hb0 & _).
    destruct (GetAncestor_walks m block b (Z.max (h - 1) 0)) as (a & -> & Ha); [done..|lia|]. cbn [rbind].
    destruct (back_height_inv m _ block b a Hok Hb Ha) as (_ & d & Hd & _).
    destruct (median_exists m a Hok) as (t & Ht); [by eexists|]. rewrite Ht. cbn [rbind].
    eexists. split; [done|]. cbn [fst snd]. unfold SEQUENCE_LOCKTIME_GRANULARITY. rewrite shl_mul by lia. change (2 ^ 9) with 512.
    split.
    + intros [? ?]. split; [lia|]. exists a, t. split_and!; [done|done|lia].
    + intros [? (a' & t' & [= <-] & Ht' & ?)]. rewrite Ht in Ht'. injection Ht' as <-. lia.
  - eexists. split; [done|]. cbn [fst snd]. lia.
Qed.

Lemma sequence_lock_loop_spec m block b H T l : ∀ mh mt,
  index_ok m → m !! block = Some b → Forall (λ p, 0 ≤ p.2 ≤ nHeight b + 1) l →
  ∃ r, sequence_lock_loop m block l mh mt = Ok r ∧
    (r.1.1 < H ∧ r.1.2 < T ↔ (mh < H ∧ mt < T) ∧ Forall (lock_satisfied m block H T) l).
Proof.
  induction l as [|[txin h] l IH]; intros mh mt Hok Hb Hl; cbn [sequence_lock_loop].
  { eexists. split; [done|]. rewrite Forall_nil. tauto. }
  apply Forall_cons in Hl as [Hh Hl].
  destruct (sequence_lock_spec m block b H T txin h mh mt) as (r & -> & Hr); [done..|]. cbn [rbind].
  destruct (IH r.1.1 r.1.2) as (q & -> & Hq); [done..|]. cbn [rbind].
  eexists. split; [done|]. cbn [fst]. rewrite Hq, Hr, Forall_cons. tauto.
Qed.

(** Relative lock times hold input by input (BIP 68).  [SequenceLocks] folds
    the locks of all inputs into one height and one time with their maxima; for
    a block of a consistent index, it answers without failing an assertion, and
    answers yes exactly when the version or the flags switch the rule off or
    every input, on its own, has its lock disabled or has waited the number of
    blocks, or of units of 512 seconds of median time, that it asks for. *)
Theorem sequence_locks_per_input m block b q T tx flags prevHeights :
  index_ok m → m !! block = Some b → pprev b = Some q → GetMedianTimePast m q = Ok T → 0 ≤ T →
  length prevHeights = length (vin tx) → Forall (λ h, 0 ≤ h ≤ nHeight b + 1) prevHeights →
  ∃ r, SequenceLocks m tx flags prevHeights block = Ok r ∧
    (r = true ↔ fEnforceBIP68 tx flags = false ∨
                Forall (lock_satisfied m block (nHeight b) T) (zip (vin tx) prevHeights)).
Proof.
  intros Hok Hb Hq HT HT0 Hlen Hhs. pose proof (Hok block b Hb) as (Hb0 & _).
  unfold SequenceLocks, CalculateSequenceLocks. rewrite (proj2 (Z.eqb_eq _ _)) by lia. cbn [negb].
  assert (∀ lp, EvaluateSequenceLocks m block lp = Ok (negb ((lp.1 >=? nHeight b) || (lp.2 >=? T)))) as Heval.
  { intros lp. unfold EvaluateSequenceLocks, deref. rewrite Hb. cbn [rbind]. by rewrite Hq, HT. }
  destruct (fEnforceBIP68 tx flags); cbn [negb].
  - destruct (sequence_lock_loop_spec m block b (nHeight b) T (zip (vin tx) prevHeights) (-1) (-1)) as (r & -> & Hr); [done..| |].
    { apply Forall_forall. intros [i h] Hp%elem_of_zip_r. by eapply Forall_forall in Hhs. }
    cbn [rbind]. rewrite Heval. eexists. split; [done|]. rewrite negb_true_iff, orb_false_iff, !Z.geb_leb, !Z.leb_gt.
    rewrite Hr. split; [tauto|]. intros [?|?]; [done|]. split; [lia|done].
  - cbn [rbind]. rewrite Heval. eexists. split; [done|]. cbn [fst snd]. split; [by left|]. intros _. lia.
Qed.

(** OP_CHECKLOCKTIMEVERIFY keeps its promise.  When the opcode passes with
    the transaction's own signature checker on a stack whose top is the number
    [n], and the transaction is final for a block of the given height and time,
    then [n] is zero or lies strictly below the height (if [n] is a height) or
    the time (if [n] is a time) of that block. *)
Theorem cltv_enforced `{C : Crypto} Verify tx nIn amount txdata flags st st' top rest height time :
  flag_set flags SCRIPT_VERIFY_CHECKLOCKTIMEVERIFY = true → stack st = top :: rest →
  op_CHECKLOCKTIMEVERIFY (TransactionSignatureChecker Verify tx nIn amount txdata) flags st = Ok st' →
  IsFinalTx tx height time = true →
  ∃ n, num (fRequireMinimal flags) 5 top = Ok n ∧ 0 ≤ n ∧
       (n = 0 ∨ n < (if n <? LOCKTIME_THRESHOLD then height else time)).
Proof.
  intros Hf Hst Hop Hfin. unfold op_CHECKLOCKTIMEVERIFY in Hop. rewrite Hf, Hst in Hop. cbn [negb] in Hop.
  apply rbind_Ok in Hop as (n & Hn & Hop). exists n. split; [done|].
  destruct (Z.ltb_spec n 0); [done|]. split; [done|].
  cbn [CheckLockTime TransactionSignatureChecker] in Hop.
  destruct (tx_CheckLockTime tx nIn n) eqn:Hlock; [clear Hop|done]. unfold tx_CheckLockTime in Hlock.
  destruct (negb _) eqn:Htype in Hlock; [done|]. apply negb_false_iff in Htype.
  destruct (n >? nLockTime tx) eqn:Hle; [done|]. destruct (SEQUENCE_FINAL =? nSequence (input tx nIn)) eqn:Hseq; [done|].
  unfold IsFinalTx in Hfin. destruct (Z.eqb_spec (nLockTime tx) 0); [lia|].
  destruct (nLockTime tx <? (if nLockTime tx <? LOCKTIME_THRESHOLD then height else time)) eqn:Hlt.
  - right. destruct (nLockTime tx <? LOCKTIME_THRESHOLD) eqn:H1, (n <? LOCKTIME_THRESHOLD) eqn:H2; lia.
  - exfalso. rewrite forallb_forall in Hfin. unfold input in Hseq.
    destruct (nth_in_or_default nIn (vin tx) no_txin) as [Hin|Hin]; [apply Hfin in Hin; lia|rewrite Hin in Hseq; done].
Qed.

(** ** Examples *)

Lemma check_tx_inputs_conserves_witness :
  ∃ c', CheckTxInputs sample_cache sample_spend 8 = (Ok (Some 100), c').
Proof.
  destruct (check_tx_inputs_conserves sample_cache sample_spend 8) as (r & c' & Hr & _ & Hf);
    [apply sample_cache_ok|reflexivity|reflexivity|].
  exists c'. rewrite Hr. f_equal. apply Hf. split_and!; [|vm_compute; discriminate|repeat constructor|reflexivity|lia].
  constructor; [|constructor]. exists sample_coin. split_and!; [reflexivity..|discriminate].
Defined.

Lemma sequence_locks_per_input_witness :
  ∃ r, SequenceLocks sample_index (mk_tx [mk_txin sample_outpoint [] 1 []] [] 2 0) 1 [0] hash_b = Ok r ∧ (r = true ↔ 0 + 1 ≤ 1).
Proof.
  destruct (sequence_locks_per_input sample_index hash_b (sample_entry (Some hash_g) (Some hash_g) 1 200) hash_g 50
    (mk_tx [mk_txin sample_outpoint [] 1 []] [] 2 0) 1 [0]) as (r & Hr & Hiff);
    [apply sample_index_ok|reflexivity|reflexivity|vm_compute; reflexivity|lia|reflexivity|repeat constructor; simpl; lia|].
  exists r. split; [done|]. rewrite Hiff. cbn [zip_with vin]. rewrite Forall_singleton.
  split; [intros [?|?]; done|intros ?; right; done].
Defined.

Definition cltv_tx : CTransaction := mk_tx [mk_txin sample_outpoint [] 0 []] [mk_txout 1 []] 2 100.
Definition cltv_state : exec_state := mk_state [[100]] [] [] 0 [] [].
Lemma cltv_enforced_witness :
  ∃ n, num (fRequireMinimal SCRIPT_VERIFY_CHECKLOCKTIMEVERIFY) 5 [100] = Ok n ∧ 0 ≤ n ∧
       (n = 0 ∨ n < (if n <? LOCKTIME_THRESHOLD then 101 else 0)).
Proof.
  apply (cltv_enforced (C := toy_crypto) (λ _ _ _, true) cltv_tx 0 0 None SCRIPT_VERIFY_CHECKLOCKTIMEVERIFY
    cltv_state cltv_state [100] [] 101 0); vm_compute; reflexivity.
Defined.
