(* ===== verification/Pow.v ===== *)
(** * Difficulty (pow.cpp, consensus/params.h)

    The target of the next block, its encoding, and the check of a hash against
    a target, with the separate rules for proof of work, proof of stake and the
    blocks of the second kind ([...SW]). *)
From S2P Require Import Prelude ArithUint256 Script Interpreter InterpreterFacts InterpreterSpecs Serialize Transaction Block Chain ChainFacts.
Import BaseUint.

(** The consensus parameters the difficulty rules read. *)
Record Params := mk_params {
  powLimit : uint256; posLimit : uint256; fPowAllowMinDifficultyBlocks : bool; fPowNoRetargeting : bool;
  fPoSNoRetargeting : bool; nPowTargetSpacing : Z; nPowTargetTimespan : Z
}.
Definition DifficultyAdjustmentInterval (params : Params) : Z := nPowTargetTimespan params ÷ nPowTargetSpacing params.

Definition GetLimit (params : Params) (fProofOfStake : bool) : base_uint :=
  if fProofOfStake then UintToArith256 (posLimit params) else UintToArith256 (powLimit params).

(** Errors: those of the index, and a failed assertion of [GetCompact]. *)
Definition get_compact (a : base_uint) : result chain_error Z :=
  match GetCompact a false with Some n => Ok n | None => Err assertion_failed end.

(** The last block of the given kind, or the first block of all. *)
Fixpoint last_block_loop (m : BlockMap) (fuel : nat) (pindex : uint256) (fProofOfStake : bool) : result chain_error uint256 :=
  let* b := deref m pindex in
  match pprev b with
  | None => Ok pindex
  | Some q =>
      if eqb (IsProofOfStake b) fProofOfStake then Ok pindex
      else match fuel with O => Err no_progress | S fuel => last_block_loop m fuel q fProofOfStake end
  end.
Definition GetLastBlockIndex (m : BlockMap) (pindex : option uint256) (fProofOfStake : bool) : result chain_error (option uint256) :=
  match pindex with
  | None => Ok None
  | Some p =>
      let* b := deref m p in
      let* q := last_block_loop m (Z.to_nat (nHeight b)) p fProofOfStake in
      Ok (Some q)
  end.

(** [CalculateNextWorkRequired] and [CalculateNextWorkRequiredSW] have the same
    body.  The multiplier is converted to 32 bits (operator*=(uint32_t)), the
    divisor to 64. *)
Definition actual_spacing (params : Params) (spacing : Z) : Z :=
  let nTargetSpacing := nPowTargetSpacing params in
  let a := if spacing <? 0 then nTargetSpacing else spacing in
  if a >? nTargetSpacing * 10 then nTargetSpacing * 10 else a.
Definition CalculateNextWorkRequired (pindexLast : CBlockIndex) (nFirstBlockTime : Z) (params : Params) (fProofOfStake : bool)
  : result chain_error Z :=
  if (if fProofOfStake then fPoSNoRetargeting params else fPowNoRetargeting params) then Ok (nBits pindexLast)
  else
    let nTargetSpacing := nPowTargetSpacing params in
    let nActualSpacing := actual_spacing params (GetBlockTime pindexLast - nFirstBlockTime) in
    let bnTargetLimit := GetLimit params fProofOfStake in
    let bnNew := SetCompact_target (nBits pindexLast) in
    let nInterval := DifficultyAdjustmentInterval params in
    let bnNew := op_mul32 bnNew (u32 ((nInterval - 1) * nTargetSpacing + nActualSpacing + nActualSpacing)) in
    let* bnNew := lift_div (op_div bnNew (of_u64 (u64 ((nInterval + 1) * nTargetSpacing)))) in
    let bnNew := if op_le bnNew zero || op_gt bnNew bnTargetLimit then bnTargetLimit else bnNew in
    get_compact bnNew.
Definition CalculateNextWorkRequiredSW := CalculateNextWorkRequired.

(** The last block that was not mined with the minimum difficulty. *)
Fixpoint last_regular_loop (m : BlockMap) (fuel : nat) (pindex : uint256) (interval nTargetLimit : Z) : result chain_error Z :=
  let* b := deref m pindex in
  match pprev b with
  | None => Ok (nBits b)
  | Some q =>
      if negb (Z.rem (nHeight b) interval =? 0) && (nBits b =? nTargetLimit)
      then match fuel with O => Err no_progress | S fuel => last_regular_loop m fuel q interval nTargetLimit end
      else Ok (nBits b)
  end.

(** What [GetNextWorkRequired] and its variant share: [finish] is applied to the
    last block of the kind and the one of that kind before it. *)
Definition next_work (m : BlockMap) (pindexLast : option uint256) (blockTime : Z) (params : Params) (fProofOfStake : bool)
    (nTargetLimit : Z) (finish : CBlockIndex → CBlockIndex → result chain_error Z) : result chain_error Z :=
  match pindexLast with
  | None => Ok nTargetLimit
  | Some last =>
      let* lastb := deref m last in
      let* prev := last_block_loop m (Z.to_nat (nHeight lastb)) last fProofOfStake in
      let* prevb := deref m prev in
      match pprev prevb with
      | None => Ok nTargetLimit
      | Some pp =>
          let* ppb := deref m pp in
          let* prevprev := last_block_loop m (Z.to_nat (nHeight ppb)) pp fProofOfStake in
          let* prevprevb := deref m prevprev in
          match pprev prevprevb with
          | None => Ok nTargetLimit
          | Some _ =>
              if fPowAllowMinDifficultyBlocks params then
                if blockTime >? GetBlockTime lastb + nPowTargetSpacing params * 2 then Ok nTargetLimit
                else last_regular_loop m (Z.to_nat (nHeight lastb)) last (DifficultyAdjustmentInterval params) nTargetLimit
              else finish prevb prevprevb
          end
      end
  end.
Definition GetNextWorkRequired (m : BlockMap) (pindexLast : option uint256) (blockTime : Z) (params : Params) (fProofOfStake : bool)
  : result chain_error Z :=
  let* nTargetLimit := get_compact (GetLimit params fProofOfStake) in
  next_work m pindexLast blockTime params fProofOfStake nTargetLimit
    (λ prev prevprev, CalculateNextWorkRequired prev (GetBlockTime prevprev) params fProofOfStake).
Definition GetNextWorkRequiredSW (m : BlockMap) (pindexLast : option uint256) (blockTime : Z) (params : Params) (fProofOfStake : bool)
  : result chain_error Z :=
  let* nTargetLimit := get_compact (GetLimit params (negb fProofOfStake)) in
  next_work m pindexLast blockTime params fProofOfStake nTargetLimit (λ _ prevprev, Ok (nBits prevprev)).

Definition CheckProofOfWork (hash : uint256) (nBits : Z) (params : Params) (fProofOfStake : bool) : bool :=
  let '(bnTarget, fNegative, fOverflow) := SetCompact nBits in
  if fNegative || EqualTo bnTarget 0 || fOverflow || op_gt bnTarget (GetLimit params fProofOfStake) then false
  else if op_gt (UintToArith256 hash) bnTarget then false
  else true.

(** ** Properties *)

Definition params_ok (params : Params) : Prop :=
  bytes_ok (powLimit params) ∧ bytes_ok (posLimit params) ∧
  0 < nPowTargetSpacing params < 2 ^ 20 ∧ nPowTargetSpacing params ≤ nPowTargetTimespan params < 2 ^ 20.

(** The real number the next target approximates: the old target times
    (interval - 1) * spacing + 2 * actual over (interval + 1) * spacing, kept
    within the limit. *)
Definition retarget (params : Params) (old actual limit : Z) : Z :=
  let s := nPowTargetSpacing params in
  let k := DifficultyAdjustmentInterval params in
  let x := old * ((k - 1) * s + 2 * actual) / ((k + 1) * s) in
  if (x <=? 0) || (x >? limit) then limit else x.

Lemma limit_wf params (pos : bool) : params_ok params → wf (GetLimit params pos).
Proof. intros (? & ? & _). unfold GetLimit. destruct pos; by apply UintToArith256_wf. Qed.
Lemma interval_bounds params :
  params_ok params → 1 ≤ DifficultyAdjustmentInterval params ∧
  DifficultyAdjustmentInterval params * nPowTargetSpacing params ≤ nPowTargetTimespan params.
Proof.
  intros (_ & _ & Hs & Ht). unfold DifficultyAdjustmentInterval. rewrite Z.quot_div_nonneg by lia. split.
  - apply Z.div_le_lower_bound; lia.
  - pose proof (Z.mul_div_le (nPowTargetTimespan params) (nPowTargetSpacing params)). lia.
Qed.
Lemma actual_spacing_range params x :
  params_ok params → 0 ≤ actual_spacing params x ≤ 10 * nPowTargetSpacing params.
Proof. intros (_ & _ & Hs & _). unfold actual_spacing. repeat case_match; lia. Qed.
Lemma get_compact_ok a : wf a → ∃ n, get_compact a = Ok n ∧ GetCompact a false = Some n.
Proof.
  intros Ha. unfold get_compact. destruct (compact_parts (value a)) as [k s] eqn:Hp.
  rewrite (GetCompact_parts a k s Ha Hp). by eexists.
Qed.

(** The difficulty adjustment computes what it says.  With retargeting on,
    sane parameters and an old target whose product with the multiplier fits
    256 bits, no 32-bit or 64-bit conversion loses anything and no division by
    zero occurs: the new target is the compact encoding of the old one scaled
    by the clamped spacing of the last two blocks, rounded down, and never above
    the limit. *)
Theorem retarget_exact params b first (pos : bool) :
  params_ok params → (if pos then fPoSNoRetargeting params else fPowNoRetargeting params) = false →
  in_u 32 (nBits b) → value (SetCompact_target (nBits b)) < 2 ^ 231 →
  ∃ w n, CalculateNextWorkRequired b first params pos = Ok n ∧ GetCompact w false = Some n ∧ wf w ∧
    value w = retarget params (value (SetCompact_target (nBits b)))
                (actual_spacing params (GetBlockTime b - first)) (value (GetLimit params pos)).
Proof.
  intros Hp Hno Hb Hsmall. unfold CalculateNextWorkRequired. rewrite Hno. cbv zeta.
  pose proof (interval_bounds params Hp) as [Hk Hks]. pose proof (actual_spacing_range params (GetBlockTime b - first) Hp) as Ha.
  destruct (SetCompact_wf (nBits b) Hb) as [Ht _]. pose proof (value_wf_range _ Ht) as Hr. pose proof (limit_wf params pos Hp) as Hl.
  pose proof Hp as (_ & _ & Hs & Hts). unfold retarget. cbv zeta.
  set (s := nPowTargetSpacing params) in *. set (k := DifficultyAdjustmentInterval params) in *.
  set (a := actual_spacing params _) in *. set (t := SetCompact_target (nBits b)) in *.
  rewrite u32_small by nia. rewrite (u64_small ((k + 1) * s)) by nia.
  destruct (wf_mul32 t ((k - 1) * s + a + a) Ht) as [Hm Hmv]; [unfold in_u; nia|].
  rewrite Z.mod_small in Hmv by nia. destruct (value_of_u64 ((k + 1) * s)) as [Hd Hdv]; [nia|].
  destruct (wf_div _ _ Hm Hd) as [[_ H0]|(q & -> & Hq & _ & Hqv)]; [nia|]. cbn [lift_div rbind].
  rewrite Hmv, Hdv in Hqv. replace (value t * ((k - 1) * s + a + a)) with (value t * ((k - 1) * s + 2 * a)) in Hqv by ring.
  rewrite op_le_spec, op_gt_spec by (done || apply wf_zero). unfold zero. rewrite value_zeros, <- Hqv, <- Z.gtb_ltb.
  destruct ((value q <=? 0) || (value q >? value (GetLimit params pos))).
  - destruct (get_compact_ok _ Hl) as (n & ? & ?). by exists (GetLimit params pos), n.
  - destruct (get_compact_ok _ Hq) as (n & ? & ?). by exists q, n.
Qed.

Definition main_params : Params :=
  mk_params (replicate 30 0xff ++ [0; 0]) (replicate 28 0xff ++ [0; 0; 0; 0]) false false false 128 960.
Lemma retarget_exact_witness :
  ∃ w n, CalculateNextWorkRequired (sample_entry None None 5 1000) 900 main_params true = Ok n ∧ GetCompact w false = Some n ∧ wf w ∧
    value w = retarget main_params (value (SetCompact_target 0x1d00ffff)) 100 (value (GetLimit main_params true)).
Proof.
  apply (retarget_exact main_params (sample_entry None None 5 1000) 900 true).
  - split_and!; try (simpl; lia); apply (bool_decide_unpack _); vm_compute; exact I.
  - reflexivity.
  - split; [vm_compute; discriminate|reflexivity].
  - vm_compute. reflexivity.
Defined.

(** A hash passes exactly when it is at most the target that the bits encode,
    and that target is positive, encoded without flags and within the limit. *)
Lemma CheckProofOfWork_spec hash nBits params (pos : bool) :
  params_ok params → bytes_ok hash → in_u 32 nBits →
  CheckProofOfWork hash nBits params pos = true ↔
  ∃ t, SetCompact nBits = (t, false, false) ∧ 0 < value t ≤ value (GetLimit params pos) ∧
       value (UintToArith256 hash) ≤ value t.
Proof.
  intros Hp Hh Hb. destruct (SetCompact_wf nBits Hb) as [Ht _]. unfold SetCompact_target in Ht. unfold CheckProofOfWork.
  destruct (SetCompact nBits) as [[t neg] ovf]. cbn [fst] in Ht. pose proof (value_wf_range t Ht).
  rewrite EqualTo_spec by (done || lia). rewrite !op_gt_spec by (done || by apply limit_wf || by apply UintToArith256_wf).
  generalize (value (UintToArith256 hash)). intros v. split.
  - intros Hc. exists t. destruct neg, ovf; simpl in Hc; rewrite ?orb_true_r in Hc; try done.
    destruct (Z.eqb_spec (value t) 0); [done|]. simpl in Hc.
    destruct (_ <? value t) eqn:H1 in Hc; [done|]. destruct (value t <? _) eqn:H2 in Hc; [done|]. split_and!; [done|lia|lia|lia].
  - intros (t' & [= <- -> ->] & ? & ?). simpl. replace (value t =? 0) with false by lia. simpl.
    repeat case_match; lia || done.
Qed.
