(* ===== verification/Pos.v ===== *)
(** * Proof of stake (pos.cpp, pos.h, VerifySignature of script/sign.cpp)

    The kernel hash, the checks of a coin stake, the stake cache of the staker
    and the timestamp rules.  [GetSpentCoinFromMainChain] scans block and undo
    files for a coin spent since the fork; it is the argument [spent_coin].
    Recovering a public key from a signature and verifying signatures are
    arguments too. *)
From S2P Require Import Prelude ArithUint256 Script Interpreter InterpreterFacts InterpreterSpecs StandardScripts Serialize Transaction SigHash Standard Coins CoinsFacts Block Chain ChainFacts TxVerify Pow.
Import BaseUint.

Definition STAKE_TIMESTAMP_MASK : Z := 15.
Definition CheckCoinStakeTimestamp (nTimeBlock : Z) : bool := nTimeBlock &' STAKE_TIMESTAMP_MASK =? 0.
Definition CheckCoinStakeTimestampSW (nTimeBlock : Z) : bool :=
  (nTimeBlock &' 3 =? 0) || (nTimeBlock &' 7 =? 0) || (nTimeBlock &' 11 =? 0) || (nTimeBlock &' 15 =? 0).

Record CStakeCache := mk_stake { blockFromTime : Z; amount : Z }.

Section Kernel.
Context `{C : Crypto}.

(** The weighted target, taken modulo 2^256. *)
Definition weighted_target (nBits prevoutValue : Z) : base_uint :=
  op_mul (SetCompact_target nBits) (of_u64 (u64 prevoutValue)).
Definition kernel_hash (nStakeModifier : uint256) (fromTime : Z) (o : COutPoint) (nTimeBlock : Z) : uint256 :=
  CHash256 (nStakeModifier ++ ser_writedata32 fromTime ++ Transaction.hash o ++ ser_writedata32 (n o) ++ ser_writedata32 nTimeBlock).

(** The answer with the two output parameters, which are only set when the
    times are in order. *)
Definition CheckStakeKernelHash (pindexPrev : CBlockIndex) (nBits fromTime prevoutValue : Z) (o : COutPoint) (nTimeBlock : Z)
  : bool * option (uint256 * uint256) :=
  if nTimeBlock <? fromTime then (false, None)
  else
    let bnTarget := weighted_target nBits prevoutValue in
    let targetProofOfStake := ArithToUint256 bnTarget in
    let hashProofOfStake := kernel_hash (nStakeModifier pindexPrev) fromTime o nTimeBlock in
    (negb (op_gt (UintToArith256 hashProofOfStake) bnTarget), Some (hashProofOfStake, targetProofOfStake)).

Section View.
Context {V : Type} `{CoinsView V} (m : BlockMap) (spent_coin : COutPoint → option Coin).
Implicit Types c : CCoinsViewCache V.

(** The age of a coin in the block after [pindexPrev]. *)
Definition mature (prev : CBlockIndex) (cn : Coin) : bool := negb (nHeight prev + 1 - Coins.nHeight cn <? COINBASE_MATURITY).

(** The body of [CheckKernel] for a prevout that is not in the stake cache. *)
Definition CheckKernel_uncached c (pindexPrev : uint256) (nBits nTimeBlock : Z) (o : COutPoint)
  : result chain_error (bool * CCoinsViewCache V) :=
  let* prev := deref m pindexPrev in
  let '(found, c) := cache_GetCoin c o in
  match (match found with Some cn => Some cn | None => spent_coin o end) with
  | None => Ok (false, c)
  | Some cn =>
      if negb (mature prev cn) then Ok (false, c)
      else
        let* a := GetAncestor m pindexPrev (Coins.nHeight cn) in
        match a with
        | None => Ok (false, c)
        | Some a =>
            let* from := deref m a in
            if IsSpent cn then Ok (false, c)
            else Ok ((CheckStakeKernelHash prev nBits (nTime from) (nValue (out cn)) o nTimeBlock).1, c)
        end
  end.

Definition CheckKernel c (pindexPrev : uint256) (nBits nTimeBlock : Z) (o : COutPoint) (cache : gmap COutPoint CStakeCache)
  : result chain_error (bool * CCoinsViewCache V) :=
  match cache !! o with
  | None => CheckKernel_uncached c pindexPrev nBits nTimeBlock o
  | Some stake =>
      let* prev := deref m pindexPrev in
      if (CheckStakeKernelHash prev nBits (blockFromTime stake) (amount stake) o nTimeBlock).1
      then CheckKernel_uncached c pindexPrev nBits nTimeBlock o
      else Ok (false, c)
  end.
Definition CheckKernelSW c (pindexPrev : uint256) (nBits nTimeBlock : Z) (o : COutPoint) (cache : gmap COutPoint CStakeCache)
  : result chain_error (bool * CCoinsViewCache V) := Ok (true, c).

Definition CacheKernel (cache : gmap COutPoint CStakeCache) (o : COutPoint) (pindexPrev : uint256) c
  : result chain_error (gmap COutPoint CStakeCache * CCoinsViewCache V) :=
  match cache !! o with
  | Some _ => Ok (cache, c)
  | None =>
      let* prev := deref m pindexPrev in
      let '(found, c) := cache_GetCoin c o in
      match found with
      | None => Ok (cache, c)
      | Some cn =>
          if negb (mature prev cn) then Ok (cache, c)
          else
            let* a := GetAncestor m pindexPrev (Coins.nHeight cn) in
            match a with
            | None => Ok (cache, c)
            | Some a =>
                let* from := deref m a in
                Ok (<[o := mk_stake (nTime from) (nValue (out cn))]> cache, c)
            end
      end
  end.

(** [VerifySignature]: the first input of the coin stake against the coin, with
    amount 0 and no witness. *)
Definition VerifySignature (Verify : bytes → uint256 → bytes → bool) (cn : Coin) (txFromHash : uint256) (txTo : CTransaction)
    (nIn : nat) (flags : Z) : bool :=
  match vin txTo !! nIn with
  | None => false
  | Some txin =>
      if bool_decide (Transaction.hash (prevout txin) = txFromHash)
      then is_ok (VerifyScript (TransactionSignatureChecker Verify txTo nIn 0 None) flags (scriptSig txin) (scriptPubKey (out cn)) [])
      else false
  end.

(** The reasons for which [CheckProofOfStake] fails. *)
Inductive stake_error := not_coinstake | prevout_missing | not_mature | block_not_loaded | bad_signature | kernel_failed | index_error.
Definition CheckProofOfStake (Verify : bytes → uint256 → bytes → bool) c (pindexPrev : uint256) (tx : CTransaction)
    (nBits nTimeBlock : Z) : result stake_error (uint256 * uint256) * CCoinsViewCache V :=
  match IsCoinStake tx, vin tx with
  | true, txin :: _ =>
      let '(found, c) := cache_GetCoin c (prevout txin) in
      (match found, m !! pindexPrev with
       | None, _ => Err prevout_missing
       | _, None => Err index_error
       | Some cn, Some prev =>
           if negb (mature prev cn) then Err not_mature
           else match GetAncestor m pindexPrev (Coins.nHeight cn) with
           | Err _ => Err index_error
           | Ok None => Err block_not_loaded
           | Ok (Some a) =>
               match m !! a with
               | None => Err index_error
               | Some from =>
                   if negb (VerifySignature Verify cn (Transaction.hash (prevout txin)) tx 0 SCRIPT_VERIFY_NONE)
                   then Err bad_signature
                   else match CheckStakeKernelHash prev nBits (nTime from) (nValue (out cn)) (prevout txin) nTimeBlock with
                        | (true, Some r) => Ok r
                        | _ => Err kernel_failed
                        end
               end
           end
       end, c)
  | _, _ => (Err not_coinstake, c)
  end.

(** Input and output of the coin stake belong to the same key. *)
Definition CheckBlockInputPubKeyMatchesOutputPubKey (block : CBlock) c : bool * CCoinsViewCache V :=
  let '(found, c) := cache_GetCoin c (prevoutStake_blk (header block)) in
  (match found with
   | None => false
   | Some coinIn =>
       match vtx block !! 1%nat with
       | None => false
       | Some coinstakeTx =>
           match vout coinstakeTx !! 1%nat with
           | None => false
           | Some txout =>
               if bool_decide (scriptPubKey (out coinIn) = scriptPubKey txout) then true
               else match Solver (scriptPubKey (out coinIn)) false, ExtractDestination (scriptPubKey (out coinIn)) with
               | Some (TX_PUBKEYHASH, _), Some (CKeyID k) =>
                   match Solver (scriptPubKey txout) false, ExtractDestination (scriptPubKey txout) with
                   | Some (TX_PUBKEY, _), Some (CKeyID k') => bool_decide (k = k')
                   | _, _ => false
                   end
               | _, _ => false
               end
           end
       end
   end, c).

(** [recover hash sig recid compressed] is the key [RecoverLaxDER] finds. *)
Definition recovery_attempts : list (Z * bool) :=
  [(0, false); (0, true); (1, false); (1, true); (2, false); (2, true); (3, false); (3, true)].
Definition CheckRecoveredPubKeyFromBlockSignature (recover : uint256 → bytes → Z → bool → option bytes)
    (block : CBlockHeader) c : bool * CCoinsViewCache V :=
  let '(found, c) := cache_GetCoin c (prevoutStake_blk block) in
  (match (match found with Some cn => Some cn | None => spent_coin (prevoutStake_blk block) end) with
   | None => false
   | Some cn =>
       let hash := GetHashWithoutSign block in
       if size (vchBlockSig block) =? 0 then false
       else existsb (λ p : Z * bool,
              match recover hash (vchBlockSig block) p.1 p.2 with
              | None => false
              | Some pubkey =>
                  match Solver (scriptPubKey (out cn)) false, ExtractDestination (scriptPubKey (out cn)) with
                  | Some (TX_PUBKEY, _), Some (CKeyID k) | Some (TX_PUBKEYHASH, _), Some (CKeyID k) =>
                      bool_decide (GetID pubkey = k)
                  | _, _ => false
                  end
              end) recovery_attempts
   end, c).
End View.
End Kernel.

(** ** The stake cache does not change answers *)

Section StakeCache.
Context `{C : Crypto} {V : Type} `{CoinsViewLaws V} (m : BlockMap) (spent_coin : COutPoint → option Coin).
Context (p : uint256) (prev : CBlockIndex) (Hok : index_ok m) (Hp : m !! p = Some prev).
Implicit Types c : CCoinsViewCache V.

(** What a stake cache entry should hold for a coin: the time of the block it
    comes from and its value, and only for a mature coin. *)
Definition stake_entry (cn : Coin) : option CStakeCache :=
  if negb (mature prev cn) then None
  else match GetAncestor m p (Coins.nHeight cn) with
       | Ok (Some a) => (λ from, mk_stake (nTime from) (nValue (out cn))) <$> m !! a
       | _ => None
       end.
Definition accurate (s : coins) (cache : gmap COutPoint CStakeCache) : Prop :=
  ∀ o st, cache !! o = Some st → ∃ cn, s o = Some cn ∧ stake_entry cn = Some st.

(** The answer of the uncached check, as a function of the coin found. *)
Definition kernel_answer (found : option Coin) (nBits nTimeBlock : Z) (o : COutPoint) : bool :=
  match (match found with Some cn => Some cn | None => spent_coin o end) with
  | None => false
  | Some cn =>
      match stake_entry cn with
      | None => false
      | Some st => if IsSpent cn then false
                   else (CheckStakeKernelHash prev nBits (blockFromTime st) (amount st) o nTimeBlock).1
      end
  end.

Lemma ancestor_total height :
  ∃ r, GetAncestor m p height = Ok r ∧ ∀ a, r = Some a → is_Some (m !! a).
Proof.
  destruct (decide (0 ≤ height ≤ nHeight prev)) as [Hh|Hh].
  - destruct (GetAncestor_walks m p prev height Hok Hp Hh) as (q & -> & Hq). eexists. split; [done|]. intros a [= <-].
    destruct (back_height_inv m _ p prev q Hok Hp Hq) as (_ & d & Hd & _). by eexists.
  - exists None. split; [|done]. unfold GetAncestor, deref. rewrite Hp. cbn [rbind].
    by replace ((height >? nHeight prev) || (height <? 0)) with true by lia.
Qed.

Lemma CheckKernel_uncached_shows c nBits t o :
  cache_ok c → ∃ c', CheckKernel_uncached m spent_coin c p nBits t o = Ok (kernel_answer (shows c o) nBits t o, c') ∧
                     becomes c c' (shows c).
Proof.
  intros Hc. unfold CheckKernel_uncached, kernel_answer, stake_entry, deref. rewrite Hp. cbn [rbind].
  destruct (GetCoin_shows c o Hc) as (c' & -> & Hb). exists c'. split; [|done].
  destruct (match shows c o with Some cn => Some cn | None => spent_coin o end) as [cn|]; [|done].
  destruct (negb (mature prev cn)); [done|].
  destruct (ancestor_total (Coins.nHeight cn)) as (r & -> & Hr). cbn [rbind]. destruct r as [a|]; [|done].
  destruct (Hr a eq_refl) as [from ->]. cbn. by destruct (IsSpent cn).
Qed.

Lemma CacheKernel_accurate cache o c :
  cache_ok c → accurate (shows c) cache →
  ∃ cache' c', CacheKernel m cache o p c = Ok (cache', c') ∧ becomes c c' (shows c) ∧ accurate (shows c) cache'.
Proof.
  intros Hc Hacc. unfold CacheKernel. destruct (cache !! o) as [st|]; [by exists cache, c|].
  unfold deref. rewrite Hp. cbn [rbind]. destruct (GetCoin_shows c o Hc) as (c' & -> & Hb).
  destruct (shows c o) as [cn|] eqn:Ho; [|by exists cache, c'].
  destruct (negb (mature prev cn)) eqn:Hm; [by exists cache, c'|].
  destruct (ancestor_total (Coins.nHeight cn)) as (r & Hga & Hr). rewrite Hga. cbn [rbind].
  destruct r as [a|]; [|by exists cache, c']. destruct (Hr a eq_refl) as [from Hfrom]. rewrite Hfrom. cbn [rbind].
  do 2 eexists. split_and!; [done|done|]. intros o' st [[<- <-]|[_ Hst]]%lookup_insert_Some; [|by apply Hacc].
  exists cn. split; [done|]. unfold stake_entry. by rewrite Hm, Hga, Hfrom.
Qed.

(** The staker's cache after a list of calls. *)
Fixpoint fill_cache (cache : gmap COutPoint CStakeCache) (l : list COutPoint) c
  : result chain_error (gmap COutPoint CStakeCache * CCoinsViewCache V) :=
  match l with
  | [] => Ok (cache, c)
  | o :: l => let* r := CacheKernel m cache o p c in fill_cache r.1 l r.2
  end.
Lemma accurate_same s t cache : s ≐ t → accurate s cache → accurate t cache.
Proof. intros Hst Ha o st Ho. destruct (Ha o st Ho) as (cn & ? & ?). exists cn. by rewrite <- (Hst o). Qed.
Lemma fill_cache_accurate l : ∀ cache c,
  cache_ok c → accurate (shows c) cache →
  ∃ cache' c', fill_cache cache l c = Ok (cache', c') ∧ becomes c c' (shows c) ∧ accurate (shows c) cache'.
Proof.
  induction l as [|o l IH]; intros cache c Hc Ha; cbn [fill_cache]; [by exists cache, c|].
  destruct (CacheKernel_accurate cache o c Hc Ha) as (k1 & c1 & -> & Hb & Ha1). cbn [rbind fst snd].
  pose proof Hb as (Hc1 & _ & _ & Hs1).
  destruct (IH k1 c1 Hc1) as (k2 & c2 & -> & Hb2 & Ha2); [by eapply accurate_same; [symmetry; exact Hs1|]|].
  exists k2, c2. split_and!; [done| |by eapply accurate_same].
  eapply becomes_trans; [done|]. by eapply becomes_same.
Qed.

(** The stake cache is transparent.  Fill a stake cache with any list of
    outpoints from a consistent view and block index; then [CheckKernel] with
    that cache and [CheckKernel] without it give the same answer for every
    outpoint, difficulty and time, and neither fails or changes what the view
    shows. *)
Theorem stake_cache_transparent c l nBits t o :
  cache_ok c →
  ∃ cache c' b c1 c2,
    fill_cache ∅ l c = Ok (cache, c') ∧
    CheckKernel m spent_coin c' p nBits t o cache = Ok (b, c1) ∧
    CheckKernel m spent_coin c p nBits t o ∅ = Ok (b, c2) ∧
    becomes c c1 (shows c) ∧ becomes c c2 (shows c).
Proof.
  intros Hc. destruct (fill_cache_accurate l ∅ c Hc) as (cache & c' & Hfill & Hb & Hacc);
    [intros o' st; by rewrite lookup_empty|].
  pose proof Hb as (Hc' & _ & _ & Hs'). exists cache, c'.
  destruct (CheckKernel_uncached_shows c nBits t o Hc) as (c2 & Hu2 & Hb2).
  destruct (CheckKernel_uncached_shows c' nBits t o Hc') as (c1 & Hu1 & Hb1). rewrite (Hs' o) in Hu1.
  assert (becomes c c1 (shows c)) as Hbc1
    by (eapply becomes_trans; [exact Hb|]; eapply becomes_same; [exact Hb1|exact Hs']).
  assert (CheckKernel m spent_coin c p nBits t o ∅ = Ok (kernel_answer (shows c o) nBits t o, c2)) as Hun
    by (unfold CheckKernel; by rewrite lookup_empty).
  destruct (cache !! o) as [st|] eqn:Ho.
  2: { exists (kernel_answer (shows c o) nBits t o), c1, c2. split_and!; [done| |done|done|done].
       unfold CheckKernel. by rewrite Ho. }
  assert (∀ b c0, (if (CheckStakeKernelHash prev nBits (blockFromTime st) (amount st) o t).1
      then CheckKernel_uncached m spent_coin c' p nBits t o else Ok (false, c')) = Ok (b, c0) →
    CheckKernel m spent_coin c' p nBits t o cache = Ok (b, c0)) as Hck
    by (intros b c0; unfold CheckKernel, deref; by rewrite Ho, Hp).
  destruct (CheckStakeKernelHash prev nBits (blockFromTime st) (amount st) o t).1 eqn:Hk.
  { exists (kernel_answer (shows c o) nBits t o), c1, c2. split_and!; [done|by apply Hck|done|done|done]. }
  exists false, c', c2. split_and!; [done|by apply Hck| |done|done]. rewrite Hun. do 2 f_equal.
  destruct (Hacc o st Ho) as (cn & Hcn & Hst). unfold kernel_answer. rewrite Hcn, Hst. by destruct (IsSpent cn).
Qed.
End StakeCache.

Lemma stake_cache_transparent_witness :
  ∃ cache c' b c1 c2,
    fill_cache sample_index hash_b ∅ [sample_outpoint] sample_cache = Ok (cache, c') ∧
    CheckKernel (C := toy_crypto) sample_index (λ _, None) c' hash_b 0x1d00ffff 300 sample_outpoint cache = Ok (b, c1) ∧
    CheckKernel (C := toy_crypto) sample_index (λ _, None) sample_cache hash_b 0x1d00ffff 300 sample_outpoint ∅ = Ok (b, c2) ∧
    becomes sample_cache c1 (shows sample_cache) ∧ becomes sample_cache c2 (shows sample_cache).
Proof.
  apply (stake_cache_transparent (C := toy_crypto) sample_index (λ _, None) hash_b (sample_entry (Some hash_g) (Some hash_g) 1 200)
    sample_index_ok eq_refl sample_cache [sample_outpoint] 0x1d00ffff 300 sample_outpoint), sample_cache_ok.
Defined.

(** The weighted target wraps: at the easiest difficulty of the main network a
    coin of 2^33 satoshi (about 86 coins) has a smaller weighted target than a
    coin of 2^32 - 1 satoshi. *)
Lemma weighted_target_wraps :
  value (weighted_target 0x1d00ffff (2 ^ 33)) < value (weighted_target 0x1d00ffff (2 ^ 32 - 1)).
Proof. vm_compute. reflexivity. Qed.
