(* ===== verification/VersionBits.v ===== *)
(** * Deployment of rule changes by version bits (versionbits.h/.cpp, and
      ComputeBlockVersion, IsWitnessEnabled, GetBlockScriptFlags of validation.cpp)

    A checker is a record of the five virtual functions.  [GetStateFor] walks
    back over whole periods until it finds a cached state, and forward again;
    the cache is keyed by the last block before a period.  [bip9_state] is the
    definition without cache and shortcuts that it is compared with. *)
From S2P Require Import Prelude ArithUint256 Script Interpreter InterpreterFacts InterpreterSpecs Serialize Transaction Block Chain ChainFacts.

Definition VERSIONBITS_LAST_OLD_BLOCK_VERSION : Z := 4.
Definition VERSIONBITS_TOP_BITS : Z := 0x20000000.
Definition VERSIONBITS_TOP_MASK : Z := i32 0xE0000000.
Definition VERSIONBITS_NUM_BITS : Z := 29.

Inductive ThresholdState := DEFINED | STARTED | LOCKED_IN | ACTIVE | FAILED.
#[global] Instance ThresholdState_eq_dec : EqDecision ThresholdState.
Proof. solve_decision. Defined.

Record AbstractThresholdConditionChecker := mk_checker {
  Condition : CBlockIndex → bool; BeginTime : Z; EndTime : Z; Period : Z; Threshold : Z
}.
Abbreviation ThresholdConditionCache := (gmap (option uint256) ThresholdState).
Definition ALWAYS_ACTIVE : Z := -1.

Section Checker.
Context (m : BlockMap) (ck : AbstractThresholdConditionChecker).

(** The last block before the period of the block after [p]. *)
Definition period_parent (p : option uint256) : result chain_error (option uint256) :=
  match p with
  | None => Ok None
  | Some q => let* b := deref m q in GetAncestor m q (nHeight b - (nHeight b + 1) mod Period ck)
  end.

(** The first loop; the stack [vToCompute] has its top first. *)
Fixpoint walk_back (fuel : nat) (cache : ThresholdConditionCache) (p : option uint256) (vToCompute : list uint256)
  : result chain_error (ThresholdConditionCache * option uint256 * list uint256) :=
  match cache !! p with
  | Some _ => Ok (cache, p, vToCompute)
  | None =>
      match p with
      | None => Ok (<[None := DEFINED]> cache, None, vToCompute)
      | Some q =>
          let* t := GetMedianTimePast m q in
          if t <? BeginTime ck then Ok (<[Some q := DEFINED]> cache, Some q, vToCompute)
          else
            let* b := deref m q in
            let* a := GetAncestor m q (nHeight b - Period ck) in
            match fuel with
            | O => Err no_progress
            | S fuel => walk_back fuel cache a (q :: vToCompute)
            end
      end
  end.

(** The number of blocks that meet the condition among [q] and the [n - 1]
    blocks before it. *)
Fixpoint count_signals (n : nat) (p : option uint256) : result chain_error Z :=
  match n with
  | O => Ok 0
  | S n =>
      match p with
      | None => Err dangling
      | Some q =>
          let* b := deref m q in
          let* c := count_signals n (pprev b) in
          Ok ((if Condition ck b then 1 else 0) + c)
      end
  end.

(** The [switch]: the state of the period after [q] from that of the one before. *)
Definition next_state (state : ThresholdState) (q : uint256) : result chain_error ThresholdState :=
  match state with
  | DEFINED =>
      let* t := GetMedianTimePast m q in
      Ok (if t >=? EndTime ck then FAILED else if t >=? BeginTime ck then STARTED else DEFINED)
  | STARTED =>
      let* t := GetMedianTimePast m q in
      if t >=? EndTime ck then Ok FAILED
      else
        let* count := count_signals (Z.to_nat (Period ck)) (Some q) in
        Ok (if count >=? Threshold ck then LOCKED_IN else STARTED)
  | LOCKED_IN => Ok ACTIVE
  | FAILED => Ok FAILED
  | ACTIVE => Ok ACTIVE
  end.
Fixpoint walk_forward (cache : ThresholdConditionCache) (state : ThresholdState) (vToCompute : list uint256)
  : result chain_error (ThresholdState * ThresholdConditionCache) :=
  match vToCompute with
  | [] => Ok (state, cache)
  | q :: l => let* st := next_state state q in walk_forward (<[Some q := st]> cache) st l
  end.

Definition GetStateFor (p : option uint256) (cache : ThresholdConditionCache)
  : result chain_error (ThresholdState * ThresholdConditionCache) :=
  if BeginTime ck =? ALWAYS_ACTIVE then Ok (ACTIVE, cache)
  else
    let* p := period_parent p in
    let* fuel := match p with None => Ok 0%nat | Some q => let* b := deref m q in Ok (Z.to_nat (nHeight b + 1)) end in
    let* r := walk_back fuel cache p [] in
    let '(cache, p, vToCompute) := r in
    match cache !! p with
    | None => Err assertion_failed
    | Some state => walk_forward cache state vToCompute
    end.

(** Statistics of the current period. *)
Record BIP9Stats := mk_stats { period : Z; threshold : Z; elapsed : Z; count : Z; possible : bool }.
Definition GetStateStatisticsFor (p : option uint256) : result chain_error BIP9Stats :=
  match p with
  | None => Ok (mk_stats (Period ck) (Threshold ck) 0 0 false)
  | Some q =>
      let* b := deref m q in
      let* e := GetAncestor m q (nHeight b - (nHeight b + 1) mod Period ck) in
      match e with
      | None => Err dangling
      | Some e =>
          let* eb := deref m e in
          let elapsed := nHeight b - nHeight eb in
          let* count := count_signals (Z.to_nat elapsed) (Some q) in
          Ok (mk_stats (Period ck) (Threshold ck) elapsed count (Period ck - Threshold ck >=? elapsed - count))
      end
  end.

(** The loop of [GetStateSinceHeightFor]: [p] is the last block before a period in
    the state [initialState]. *)
Fixpoint since_loop (fuel : nat) (initialState : ThresholdState) (p : uint256) (cache : ThresholdConditionCache)
  : result chain_error (Z * ThresholdConditionCache) :=
  let* b := deref m p in
  let* previousPeriodParent := GetAncestor m p (nHeight b - Period ck) in
  match previousPeriodParent with
  | None => Ok (nHeight b + 1, cache)
  | Some q =>
      let* r := GetStateFor (Some q) cache in
      if bool_decide (r.1 = initialState) then
        match fuel with
        | O => Err no_progress
        | S fuel => since_loop fuel initialState q r.2
        end
      else Ok (nHeight b + 1, r.2)
  end.
Definition GetStateSinceHeightFor (p : option uint256) (cache : ThresholdConditionCache)
  : result chain_error (Z * ThresholdConditionCache) :=
  if BeginTime ck =? ALWAYS_ACTIVE then Ok (0, cache)
  else
    let* r := GetStateFor p cache in
    if bool_decide (r.1 = DEFINED) then Ok (0, r.2)
    else
      let* p := period_parent p in
      match p with
      | None => Err dangling
      | Some q => let* b := deref m q in since_loop (Z.to_nat (nHeight b + 1)) r.1 q r.2
      end.
End Checker.

(** ** Deployments *)

Record BIP9Deployment := mk_deployment { bit : Z; nStartTime : Z; nTimeout : Z }.
Definition NO_TIMEOUT : Z := 2 ^ 63 - 1.
Inductive DeploymentPos := DEPLOYMENT_TESTDUMMY | DEPLOYMENT_CSV | DEPLOYMENT_SEGWIT.
Record vb_params := mk_vb_params {
  nRuleChangeActivationThreshold : Z; nMinerConfirmationWindow : Z; vDeployments : DeploymentPos → BIP9Deployment
}.

Definition VersionBitsMask (params : vb_params) (pos : DeploymentPos) : Z := u32 (1 <<' bit (vDeployments params pos)).
Definition VersionBitsConditionChecker (params : vb_params) (pos : DeploymentPos) : AbstractThresholdConditionChecker := {|
  Condition b := (nVersion_idx b &' VERSIONBITS_TOP_MASK =? VERSIONBITS_TOP_BITS)
                 && negb (u32 (nVersion_idx b) &' VersionBitsMask params pos =? 0);
  BeginTime := nStartTime (vDeployments params pos); EndTime := nTimeout (vDeployments params pos);
  Period := i32 (nMinerConfirmationWindow params); Threshold := i32 (nRuleChangeActivationThreshold params)
|}.

(** One cache per deployment. *)
Abbreviation VersionBitsCache := (DeploymentPos → ThresholdConditionCache).
Definition set_cache (cache : VersionBitsCache) (pos : DeploymentPos) (c : ThresholdConditionCache) : VersionBitsCache :=
  λ q, match pos, q with
       | DEPLOYMENT_TESTDUMMY, DEPLOYMENT_TESTDUMMY | DEPLOYMENT_CSV, DEPLOYMENT_CSV | DEPLOYMENT_SEGWIT, DEPLOYMENT_SEGWIT => c
       | _, _ => cache q
       end.
Definition Clear (cache : VersionBitsCache) : VersionBitsCache := λ _, ∅.

Section Deployments.
Context (m : BlockMap) (params : vb_params).
Definition VersionBitsState (p : option uint256) (pos : DeploymentPos) (cache : VersionBitsCache)
  : result chain_error (ThresholdState * VersionBitsCache) :=
  let* r := GetStateFor m (VersionBitsConditionChecker params pos) p (cache pos) in
  Ok (r.1, set_cache cache pos r.2).
Definition VersionBitsStatistics (p : option uint256) (pos : DeploymentPos) : result chain_error BIP9Stats :=
  GetStateStatisticsFor m (VersionBitsConditionChecker params pos) p.
Definition VersionBitsStateSinceHeight (p : option uint256) (pos : DeploymentPos) (cache : VersionBitsCache)
  : result chain_error (Z * VersionBitsCache) :=
  let* r := GetStateSinceHeightFor m (VersionBitsConditionChecker params pos) p (cache pos) in
  Ok (r.1, set_cache cache pos r.2).

Fixpoint block_version_loop (p : option uint256) (l : list DeploymentPos) (nVersion : Z) (cache : VersionBitsCache)
  : result chain_error (Z * VersionBitsCache) :=
  match l with
  | [] => Ok (nVersion, cache)
  | pos :: l =>
      let* r := VersionBitsState p pos cache in
      block_version_loop p l
        (if bool_decide (r.1 = LOCKED_IN ∨ r.1 = STARTED) then i32 (nVersion |' VersionBitsMask params pos) else nVersion) r.2
  end.
Definition ComputeBlockVersion (p : option uint256) (cache : VersionBitsCache) : result chain_error (Z * VersionBitsCache) :=
  block_version_loop p [DEPLOYMENT_TESTDUMMY; DEPLOYMENT_CSV; DEPLOYMENT_SEGWIT] VERSIONBITS_TOP_BITS cache.

Definition IsWitnessEnabled (p : option uint256) (cache : VersionBitsCache) : result chain_error (bool * VersionBitsCache) :=
  let* r := VersionBitsState p DEPLOYMENT_SEGWIT cache in Ok (bool_decide (r.1 = ACTIVE), r.2).
Definition IsNullDummyEnabled (p : option uint256) (cache : VersionBitsCache) : result chain_error (bool * VersionBitsCache) :=
  let* r := VersionBitsState p DEPLOYMENT_SEGWIT cache in Ok (bool_decide (r.1 = ACTIVE), r.2).
Definition IsScriptWitnessEnabled : bool := negb (nTimeout (vDeployments params DEPLOYMENT_SEGWIT) =? 0).

(** [hash] is [None] for a candidate block that has no entry yet. *)
Definition GetBlockScriptFlags (BIP16Exception : uint256) (BIP66Height BIP65Height : Z) (hash : option uint256)
    (b : CBlockIndex) (cache : VersionBitsCache) : result chain_error (Z * VersionBitsCache) :=
  let flags := SCRIPT_VERIFY_NONE in
  let flags := if IsNull_hash BIP16Exception
                  || match hash with None => true | Some h => negb (bool_decide (h = BIP16Exception)) end
               then flags |' SCRIPT_VERIFY_P2SH else flags in
  let flags := if negb (flags &' SCRIPT_VERIFY_P2SH =? 0) && IsScriptWitnessEnabled
               then flags |' SCRIPT_VERIFY_WITNESS else flags in
  let flags := if nHeight b >=? BIP66Height then flags |' SCRIPT_VERIFY_DERSIG else flags in
  let flags := if nHeight b >=? BIP65Height then flags |' SCRIPT_VERIFY_CHECKLOCKTIMEVERIFY else flags in
  let* r := VersionBitsState (pprev b) DEPLOYMENT_CSV cache in
  let flags := if bool_decide (r.1 = ACTIVE) then flags |' SCRIPT_VERIFY_CHECKSEQUENCEVERIFY else flags in
  let* n := IsNullDummyEnabled (pprev b) r.2 in
  Ok (if n.1 then flags |' SCRIPT_VERIFY_NULLDUMMY else flags, n.2).
End Deployments.
