(* ===== verification/VersionBitsFacts.v ===== *)
(** * Version bits: the cached walk computes the states of BIP 9 *)
From S2P Require Import Prelude ArithUint256 Script Interpreter InterpreterFacts InterpreterSpecs Serialize Transaction Block Chain ChainFacts VersionBits.

(** Every block is later than the median time past of its predecessor: what the
    contextual check of a header asks of staked blocks. *)
Definition times_ok (m : BlockMap) : Prop :=
  ∀ p b q t, m !! p = Some b → pprev b = Some q → GetMedianTimePast m q = Ok t → t < nTime b.

Lemma GetMedianTimePast_ok m p b : index_ok m → m !! p = Some b → ∃ t, GetMedianTimePast m p = Ok t.
Proof.
  intros Hix Hp. unfold GetMedianTimePast. destruct (last_times_ok m nMedianTimeSpan p Hix) as (l & -> & _); [by eexists|]. by eexists.
Qed.
Lemma median_back m k : ∀ p b q t,
  index_ok m → times_ok m → m !! p = Some b → back m p k = Some q → GetMedianTimePast m p = Ok t →
  ∃ t', GetMedianTimePast m q = Ok t' ∧ t' ≤ t.
Proof.
  induction k as [|k IH]; intros p b q t Hix Htm Hp Hb Ht; [injection Hb as <-; exists t; split; [done|lia]|].
  destruct (Hix p b Hp) as (_ & Hl & _). unfold link_ok in Hl. cbn [back] in Hb. rewrite Hp in Hb.
  destruct (pprev b) as [r|] eqn:Hpp; [|done]. simpl in Hb. destruct Hl as (c & Hr & _).
  destruct (GetMedianTimePast_ok m r c Hix Hr) as [u Hu].
  destruct (median_time_monotone m p b r u Hix Hp Hpp Hu) as (t1 & Ht1 & Hle); [by eapply Htm|].
  destruct (IH r c q u Hix Htm Hr Hb Hu) as (t' & Ht' & Hle'). exists t'. split; [done|]. assert (t1 = t) as <- by congruence. lia.
Qed.

Section Spec.
Context (m : BlockMap) (ck : AbstractThresholdConditionChecker).
Context (Hix : index_ok m) (Htm : times_ok m) (HP : 0 < Period ck) (HT : BeginTime ck ≤ EndTime ck).

(** BIP 9 without cache: the state after [n] whole periods, the last of which
    ends with the block [p]. *)
Fixpoint bip9_state (n : nat) (p : option uint256) : result chain_error ThresholdState :=
  match n, p with
  | S n, Some q =>
      let* b := deref m q in
      let* a := GetAncestor m q (nHeight b - Period ck) in
      let* st := bip9_state n a in
      next_state m ck st q
  | _, _ => Ok DEFINED
  end.
Definition periods (b : CBlockIndex) : nat := Z.to_nat ((nHeight b + 1) / Period ck).
(** The state of the block after [p]. *)
Definition state_after (p : option uint256) : result chain_error ThresholdState :=
  let* p := period_parent m ck p in
  match p with None => Ok DEFINED | Some q => let* b := deref m q in bip9_state (periods b) (Some q) end.

(** ** Last blocks of periods *)

Definition boundary (q : uint256) (b : CBlockIndex) : Prop := m !! q = Some b ∧ (nHeight b + 1) mod Period ck = 0.

Lemma boundary_prev q b : boundary q b →
  (nHeight b < Period ck ∧ periods b = 1%nat ∧ GetAncestor m q (nHeight b - Period ck) = Ok None) ∨
  ∃ a c, boundary a c ∧ nHeight c = nHeight b - Period ck ∧ periods b = S (periods c) ∧
    GetAncestor m q (nHeight b - Period ck) = Ok (Some a) ∧ back m q (Z.to_nat (Period ck)) = Some a.
Proof.
  intros [Hq Hmod]. pose proof (Hix q b Hq) as (H0 & _).
  apply Z.mod_divide in Hmod as [z Hz]; [|lia].
  assert ((nHeight b + 1) / Period ck = z) as Hdiv by (rewrite Hz; apply Z.div_mul; lia).
  destruct (decide (nHeight b < Period ck)).
  - left. split_and!; [done|unfold periods; rewrite Hdiv; assert (z = 1) as -> by nia; done|].
    unfold GetAncestor, deref. rewrite Hq. cbn [rbind]. by replace (_ || _) with true by lia.
  - right. destruct (GetAncestor_walks m q b (nHeight b - Period ck) Hix Hq) as (a & Ha & Hb); [lia|].
    destruct (back_height_inv m _ q b a Hix Hq Hb) as (_ & c & Hc & Hh). exists a, c.
    assert (nHeight c + 1 = (z - 1) * Period ck) as Hz' by lia. split_and!.
    + split; [done|]. rewrite Hz'. apply Z.mod_mul. lia.
    + lia.
    + unfold periods. rewrite Hdiv, Hz', Z.div_mul by lia. lia.
    + done.
    + rewrite <- Hb. f_equal. lia.
Qed.
Lemma period_parent_spec p b : m !! p = Some b →
  ∃ r, period_parent m ck (Some p) = Ok r ∧
    match r with
    | None => nHeight b + 1 < Period ck
    | Some q => ∃ c, boundary q c ∧ nHeight c = nHeight b - (nHeight b + 1) mod Period ck ∧
        back m p (Z.to_nat ((nHeight b + 1) mod Period ck)) = Some q
    end.
Proof.
  intros Hp. pose proof (Hix p b Hp) as (H0 & _). unfold period_parent, deref. rewrite Hp. cbn [rbind].
  pose proof (Z.mod_pos_bound (nHeight b + 1) (Period ck) HP). pose proof (Z.div_mod (nHeight b + 1) (Period ck)).
  destruct (decide (nHeight b < (nHeight b + 1) mod Period ck)) as [Hlt|].
  - exists None. split; [|nia]. unfold GetAncestor, deref. rewrite Hp. cbn [rbind]. by replace (_ || _) with true by lia.
  - destruct (GetAncestor_walks m p b (nHeight b - (nHeight b + 1) mod Period ck) Hix Hp) as (q & -> & Hb); [lia|].
    exists (Some q). split; [done|]. destruct (back_height_inv m _ p b q Hix Hp Hb) as (_ & c & Hc & Hh). exists c. split_and!; [|lia|].
    + split; [done|]. rewrite Hh. replace (nHeight b - _ + 1) with (((nHeight b + 1) / Period ck) * Period ck) by lia. apply Z.mod_mul. lia.
    + rewrite <- Hb. f_equal. lia.
Qed.

(** ** The transition *)

Lemma count_signals_ok (n : nat) : ∀ p b, m !! p = Some b → Z.of_nat n ≤ nHeight b + 1 →
  ∃ c, count_signals m ck n (Some p) = Ok c ∧ 0 ≤ c ≤ Z.of_nat n.
Proof.
  induction n as [|n IH]; intros p b Hp Hn; cbn [count_signals]; [exists 0; split; [done|lia]|].
  unfold deref. rewrite Hp. cbn [rbind]. destruct (Hix p b Hp) as (_ & Hl & _). unfold link_ok in Hl.
  destruct (pprev b) as [q|].
  - destruct Hl as (c & Hq & Hh). destruct (IH q c Hq) as (k & -> & Hk); [lia|]. cbn [rbind]. eexists. split; [done|].
    destruct (Condition ck b); lia.
  - assert (n = 0)%nat as -> by lia. cbn. eexists. split; [done|]. destruct (Condition ck b); lia.
Qed.
Inductive bip9_step : ThresholdState → ThresholdState → Prop :=
| defined_started : bip9_step DEFINED STARTED
| defined_failed : bip9_step DEFINED FAILED
| started_failed : bip9_step STARTED FAILED
| started_locked_in : bip9_step STARTED LOCKED_IN
| locked_in_active : bip9_step LOCKED_IN ACTIVE.

Lemma next_state_ok st q b : boundary q b → ∃ st', next_state m ck st q = Ok st' ∧ (st' = st ∨ bip9_step st st').
Proof.
  intros Hb. pose proof Hb as [Hq _]. destruct (GetMedianTimePast_ok m q b Hix Hq) as [t Ht].
  assert (Period ck ≤ nHeight b + 1) as Hh.
  { pose proof (Hix q b Hq) as (? & _). destruct Hb as [_ Hmod]. apply Z.mod_divide in Hmod as [z Hz]; [|lia]. assert (0 < z) by nia. nia. }
  destruct st; cbn [next_state]; rewrite ?Ht; cbn [rbind].
  - eexists. split; [done|]. repeat case_match; auto using bip9_step.
  - case_match; [eexists; split; [done|]; auto using bip9_step|].
    destruct (count_signals_ok (Z.to_nat (Period ck)) q b Hq) as (c & -> & _); [lia|]. cbn [rbind].
    eexists. split; [done|]. case_match; auto using bip9_step.
  - eexists. split; [done|]. auto using bip9_step.
  - eexists. split; [done|]. auto.
  - eexists. split; [done|]. auto.
Qed.

Lemma bip9_state_ok (n : nat) : ∀ q b, boundary q b → periods b = n → ∃ st, bip9_state n (Some q) = Ok st.
Proof.
  induction n as [|n IH]; intros q b Hb Hn; cbn [bip9_state]; [by eexists|].
  unfold deref. rewrite (proj1 Hb). cbn [rbind].
  destruct (boundary_prev q b Hb) as [(_ & _ & ->)|(a & c & Hac & _ & Hpc & -> & _)]; cbn [rbind].
  - assert (bip9_state n None = Ok DEFINED) as -> by (by destruct n). cbn [rbind].
    destruct (next_state_ok DEFINED q b Hb) as (st & -> & _). by eexists.
  - destruct (IH a c Hac) as (st & ->); [congruence|]. cbn [rbind].
    destruct (next_state_ok st q b Hb) as (st' & -> & _). by eexists.
Qed.
(** Before the start time every deployment is merely defined. *)
Lemma bip9_state_early (n : nat) : ∀ q b t, boundary q b → periods b = n → GetMedianTimePast m q = Ok t → t < BeginTime ck →
  bip9_state n (Some q) = Ok DEFINED.
Proof.
  induction n as [|n IH]; intros q b t Hb Hn Ht Hlt; cbn [bip9_state]; [done|].
  unfold deref. rewrite (proj1 Hb). cbn [rbind].
  assert (next_state m ck DEFINED q = Ok DEFINED) as Hns.
  { cbn [next_state]. rewrite Ht. cbn [rbind]. replace (t >=? EndTime ck) with false by lia. by replace (t >=? BeginTime ck) with false by lia. }
  destruct (boundary_prev q b Hb) as [(_ & _ & ->)|(a & c & Hac & _ & Hpc & -> & Hbk)]; cbn [rbind].
  - by assert (bip9_state n None = Ok DEFINED) as -> by (by destruct n).
  - destruct (median_back m _ q b a t Hix Htm (proj1 Hb) Hbk Ht) as (t' & Ht' & Hle).
    rewrite (IH a c t' Hac) by (done || lia || congruence). done.
Qed.

(** ** The cache *)

(** The state recorded for a key is that of BIP 9. *)
Definition is_state (p : option uint256) (st : ThresholdState) : Prop :=
  match p with
  | None => st = DEFINED
  | Some q => ∃ b, boundary q b ∧ bip9_state (periods b) (Some q) = Ok st
  end.
Definition cache_ok (cache : ThresholdConditionCache) : Prop := ∀ p st, cache !! p = Some st → is_state p st.
Lemma cache_ok_insert cache p st : cache_ok cache → is_state p st → cache_ok (<[p := st]> cache).
Proof. intros Hc Hp q st' [[<- <-]|[_ Hq]]%lookup_insert_Some; [done|by apply Hc]. Qed.

(** [l] climbs from [p] by whole periods. *)
Fixpoint climbs (p : option uint256) (l : list uint256) : Prop :=
  match l with
  | [] => True
  | q :: l => (∃ b, boundary q b ∧ GetAncestor m q (nHeight b - Period ck) = Ok p) ∧ climbs (Some q) l
  end.
Definition top (p : option uint256) (l : list uint256) : option uint256 := match last l with Some q => Some q | None => p end.
Lemma top_cons p q l : top p (q :: l) = top (Some q) l.
Proof. unfold top. destruct l as [|x l]; [done|]. rewrite last_cons_cons. by destruct (last (x :: l)) eqn:E; [|apply last_None in E]. Qed.

Lemma is_state_next p st q b : is_state p st → boundary q b → GetAncestor m q (nHeight b - Period ck) = Ok p →
  ∃ st', next_state m ck st q = Ok st' ∧ is_state (Some q) st'.
Proof.
  intros Hp Hb Ha. destruct (next_state_ok st q b Hb) as (st' & Hn & _). exists st'. split; [done|]. exists b. split; [done|].
  destruct (boundary_prev q b Hb) as [(_ & -> & Ha')|(a & c & Hac & _ & -> & Ha' & _)]; cbn [bip9_state];
    unfold deref; rewrite (proj1 Hb); cbn [rbind]; rewrite Ha' in *; injection Ha as <-; cbn [rbind].
  - cbn in Hp. by subst st.
  - destruct Hp as (c' & Hc' & Hst). assert (c' = c) as -> by (destruct Hc', Hac; congruence). rewrite Hst. done.
Qed.

Lemma walk_back_spec (fuel : nat) : ∀ cache p l,
  cache_ok cache → climbs p l → match p with None => True | Some q => ∃ b, boundary q b ∧ nHeight b + 1 ≤ Z.of_nat fuel end →
  ∃ cache' p' l' st, walk_back m ck fuel cache p l = Ok (cache', p', l') ∧ cache_ok cache' ∧ climbs p' l' ∧
    top p' l' = top p l ∧ cache' !! p' = Some st.
Proof.
  induction fuel as [|fuel IH]; intros cache p l Hc Hl Hp; cbn [walk_back];
    (destruct (cache !! p) as [st|] eqn:Hlook; [by exists cache, p, l, st|]); (destruct p as [q|];
    [destruct Hp as (b & Hb & Hf)|exists (<[None := DEFINED]> cache), None, l, DEFINED; split_and!; [done|by apply cache_ok_insert|done|done|by rewrite lookup_insert_eq]]);
    pose proof (Hix q b (proj1 Hb)) as (H0 & _); [lia|].
  destruct (GetMedianTimePast_ok m q b Hix (proj1 Hb)) as [t Ht]. rewrite Ht. cbn [rbind].
  destruct (Z.ltb_spec t (BeginTime ck)).
  { exists (<[Some q := DEFINED]> cache), (Some q), l, DEFINED. split_and!; [done| |done|done|by rewrite lookup_insert_eq].
    apply cache_ok_insert; [done|]. exists b. split; [done|]. by eapply bip9_state_early. }
  unfold deref. rewrite (proj1 Hb). cbn [rbind].
  destruct (boundary_prev q b Hb) as [(_ & _ & Ha)|(a & c & Hac & Hh & _ & Ha & _)]; rewrite Ha; cbn [rbind].
  - destruct (IH cache None (q :: l)) as (c' & p' & l' & st & -> & ? & ? & Htop & ?); [done|split; [by exists b|done]|done|].
    exists c', p', l', st. by rewrite top_cons in Htop.
  - destruct (IH cache (Some a) (q :: l)) as (c' & p' & l' & st & -> & ? & ? & Htop & ?); [done|split; [by exists b|done]| |].
    { exists c. split; [done|lia]. }
    exists c', p', l', st. by rewrite top_cons in Htop.
Qed.
Lemma walk_forward_spec l : ∀ cache p st, cache_ok cache → is_state p st → climbs p l →
  ∃ st' cache', walk_forward m ck cache st l = Ok (st', cache') ∧ cache_ok cache' ∧ is_state (top p l) st'.
Proof.
  induction l as [|q l IH]; intros cache p st Hc Hp Hl; cbn [walk_forward]; [by exists st, cache|].
  destruct Hl as [(b & Hb & Ha) Hl]. destruct (is_state_next p st q b Hp Hb Ha) as (st1 & -> & Hst1). cbn [rbind].
  destruct (IH (<[Some q := st1]> cache) (Some q) st1) as (st' & c' & -> & ? & ?); [by apply cache_ok_insert|done|done|].
  exists st', c'. by rewrite top_cons.
Qed.

Definition known_or_null (p : option uint256) : Prop := match p with None => True | Some q => ∃ b, m !! q = Some b end.
Lemma GetStateFor_spec p cache : BeginTime ck ≠ ALWAYS_ACTIVE → cache_ok cache → known_or_null p →
  ∃ st cache' r, GetStateFor m ck p cache = Ok (st, cache') ∧ cache_ok cache' ∧ state_after p = Ok st ∧
    period_parent m ck p = Ok r ∧ is_state r st.
Proof.
  intros Hna Hc Hp. unfold GetStateFor, state_after. rewrite (proj2 (Z.eqb_neq _ _) Hna).
  assert (∃ r, period_parent m ck p = Ok r ∧ match r with None => True | Some q => ∃ c, boundary q c end) as (r & Hr & Hb).
  { destruct p as [q|]; [|by eexists]. destruct Hp as [b Hb]. destruct (period_parent_spec q b Hb) as (r & Hr & Hs).
    exists r. split; [done|]. destruct r as [x|]; [|done]. destruct Hs as (c & ? & _). by exists c. }
  rewrite Hr. cbn [rbind]. set (fuel := match r with Some _ => _ | None => _ end).
  assert (∃ f, fuel = Ok f ∧ match r with None => True | Some q => ∃ b, boundary q b ∧ nHeight b + 1 ≤ Z.of_nat f end) as (f & -> & Hf).
  { unfold fuel. destruct r as [q|]; [|by eexists]. destruct Hb as [c Hbc]. unfold deref. rewrite (proj1 Hbc). cbn [rbind].
    eexists. split; [done|]. exists c. split; [done|lia]. }
  cbn [rbind]. destruct (walk_back_spec f cache r []) as (c1 & p1 & l1 & st1 & -> & Hc1 & Hl1 & Htop & Hlook); [done|done|done|].
  cbn [rbind]. rewrite Hlook.
  destruct (walk_forward_spec l1 c1 p1 st1) as (st & c2 & -> & Hc2 & Hst); [done|by apply Hc1|done|].
  rewrite Htop in Hst. exists st, c2, r. split_and!; [done|done| |done|done]. cbn [top last] in Hst. destruct r as [q|]; [|cbn in Hst; by subst].
  destruct Hst as (b & Hbq & Hs). unfold deref. rewrite (proj1 Hbq). done.
Qed.

(** ** How states evolve *)

Lemma bip9_state_descends j : ∀ q b a c st st', boundary q b → boundary a c →
  back m q (j * Z.to_nat (Period ck)) = Some a → is_state (Some a) st → is_state (Some q) st' → rtc bip9_step st st'.
Proof.
  induction j as [|j IH]; intros q b a c st st' Hb Hac Hbk (c' & Hc' & Hs) (b' & Hb' & Hs').
  { injection Hbk as ->. assert (c' = b') as -> by (destruct Hc', Hb'; congruence). replace st' with st by congruence. done. }
  assert (b' = b) as -> by (destruct Hb, Hb'; congruence).
  destruct (boundary_prev q b Hb) as [(Hlow & Hn & Ha)|(x & d & Hx & Hh & Hn & Ha & Hxb)].
  { destruct (back_height_inv m _ q b a Hix (proj1 Hb) Hbk) as (Hle & _). pose proof (Hix q b (proj1 Hb)). nia. }
  assert (back m x (j * Z.to_nat (Period ck)) = Some a) as Hxa.
  { replace (S j * Z.to_nat (Period ck))%nat with (Z.to_nat (Period ck) + j * Z.to_nat (Period ck))%nat in Hbk by lia.
    by rewrite back_add, Hxb in Hbk. }
  destruct (bip9_state_ok (periods d) x d Hx eq_refl) as [stx Hstx].
  assert (rtc bip9_step st stx) as H1 by (eapply (IH x d a c); [done|done|done|by exists c'|by exists d]).
  rewrite Hn in Hs'. cbn [bip9_state] in Hs'. unfold deref in Hs'. rewrite (proj1 Hb) in Hs'. cbn [rbind] in Hs'.
  rewrite Ha in Hs'. cbn [rbind] in Hs'. rewrite Hstx in Hs'. cbn [rbind] in Hs'.
  destruct (next_state_ok stx q b Hb) as (st2 & Hst2 & Hstep). assert (st2 = st') as <- by congruence.
  destruct Hstep as [->|Hstep]; [done|]. etransitivity; [done|]. by apply rtc_once.
Qed.

Lemma rtc_from_defined (n : nat) : ∀ q b st, boundary q b → periods b = n → bip9_state n (Some q) = Ok st → rtc bip9_step DEFINED st.
Proof.
  induction n as [|n IH]; intros q b st Hb Hn Hs; cbn [bip9_state] in Hs; [injection Hs as <-; done|].
  unfold deref in Hs. rewrite (proj1 Hb) in Hs. cbn [rbind] in Hs.
  destruct (boundary_prev q b Hb) as [(_ & Hn' & Ha)|(a & c & Hac & _ & Hpc & Ha & _)]; rewrite Ha in Hs; cbn [rbind] in Hs.
  - assert (bip9_state n None = Ok DEFINED) as E by (by destruct n). rewrite E in Hs. cbn [rbind] in Hs.
    destruct (next_state_ok DEFINED q b Hb) as (st' & Hst & Hstep). assert (st' = st) as -> by congruence.
    destruct Hstep as [->|]; [done|by apply rtc_once].
  - destruct (bip9_state_ok n a c Hac) as [sa Hsa]; [congruence|]. rewrite Hsa in Hs. cbn [rbind] in Hs.
    destruct (next_state_ok sa q b Hb) as (st' & Hst & Hstep). assert (st' = st) as -> by congruence.
    assert (rtc bip9_step DEFINED sa) by (eapply IH; [done|congruence|done]).
    destruct Hstep as [->|]; [done|]. etransitivity; [done|by apply rtc_once].
Qed.

Lemma state_after_evolves p b p' b' k st st' :
  m !! p = Some b → m !! p' = Some b' → back m p' k = Some p →
  state_after (Some p) = Ok st → state_after (Some p') = Ok st' → rtc bip9_step st st'.
Proof.
  intros Hp Hp' Hk Hst Hst'. unfold state_after in *.
  destruct (period_parent_spec p b Hp) as (r & Hr & Hs). destruct (period_parent_spec p' b' Hp') as (r' & Hr' & Hs').
  rewrite Hr in Hst. rewrite Hr' in Hst'. cbn [rbind] in Hst, Hst'.
  destruct (back_height_inv m k p' b' p Hix Hp' Hk) as (Hkb & b2 & Hb2 & Hh). assert (b2 = b) as -> by congruence.
  pose proof (Hix p b Hp) as (H0 & _). destruct r as [q|].
  2:{ injection Hst as <-. destruct r' as [q'|]; [|by injection Hst' as <-]. destruct Hs' as (c' & Hq' & _).
      unfold deref in Hst'. rewrite (proj1 Hq') in Hst'. by eapply rtc_from_defined. }
  destruct Hs as (c & Hq & Hhc & Hbc). unfold deref in Hst. rewrite (proj1 Hq) in Hst. cbn [rbind] in Hst.
  pose proof (Z.mod_pos_bound (nHeight b + 1) (Period ck) HP). pose proof (Z.div_mod (nHeight b + 1) (Period ck)).
  pose proof (Z.mod_pos_bound (nHeight b' + 1) (Period ck) HP). pose proof (Z.div_mod (nHeight b' + 1) (Period ck)).
  assert ((nHeight b + 1) / Period ck ≤ (nHeight b' + 1) / Period ck) as Hdle by (apply Z.div_le_mono; lia).
  destruct r' as [q'|].
  2:{ rewrite (Z.div_small (nHeight b' + 1)) in * by lia. pose proof (Hix q c (proj1 Hq)). nia. }
  destruct Hs' as (c' & Hq' & Hhc' & Hbc'). unfold deref in Hst'. rewrite (proj1 Hq') in Hst'. cbn [rbind] in Hst'.
  assert (back m p' (k + Z.to_nat ((nHeight b + 1) mod Period ck)) = Some q) as Hpq by (by rewrite back_add, Hk).
  set (j := Z.to_nat ((nHeight b' + 1) / Period ck - (nHeight b + 1) / Period ck)).
  apply (bip9_state_descends j q' c' q c st st'); [done|done| |by exists c|by exists c'].
  replace (k + Z.to_nat ((nHeight b + 1) mod Period ck))%nat
    with (Z.to_nat ((nHeight b' + 1) mod Period ck) + j * Z.to_nat (Period ck))%nat in Hpq by nia.
  by rewrite back_add, Hbc' in Hpq.
Qed.

(** ** The height a state begins at *)

Lemma is_state_fun p st st' : is_state p st → is_state p st' → st = st'.
Proof.
  destruct p as [q|]; cbn; [|by intros -> ->]. intros (b & Hb & H1) (b' & Hb' & H2).
  assert (b' = b) as -> by (destruct Hb, Hb'; congruence). congruence.
Qed.
Lemma GetStateFor_boundary q b cache : BeginTime ck ≠ ALWAYS_ACTIVE → cache_ok cache → boundary q b →
  ∃ st cache', GetStateFor m ck (Some q) cache = Ok (st, cache') ∧ cache_ok cache' ∧ is_state (Some q) st.
Proof.
  intros Hna Hc Hb. destruct (GetStateFor_spec (Some q) cache Hna Hc) as (st & c' & r & Hg & Hc' & _ & Hr & Hs); [by exists b; apply Hb|].
  exists st, c'. split_and!; [done|done|]. replace (Some q) with r; [done|].
  unfold period_parent, deref in Hr. rewrite (proj1 Hb) in Hr. cbn [rbind] in Hr. rewrite (proj2 Hb), Z.sub_0_r in Hr.
  pose proof (Hix q b (proj1 Hb)) as (H0 & _).
  destruct (GetAncestor_walks m q b (nHeight b) Hix (proj1 Hb)) as (x & Hx & Hbk); [lia|]. rewrite Hx in Hr.
  rewrite Z.sub_diag in Hbk. injection Hbk as <-. congruence.
Qed.
Definition since_ok (p : uint256) (st : ThresholdState) (r : Z) : Prop :=
  ∃ k q b, back m p k = Some q ∧ boundary q b ∧ r = nHeight b + 1 ∧ is_state (Some q) st ∧
    ∃ a, GetAncestor m q (nHeight b - Period ck) = Ok a ∧ ¬ is_state a st.
Lemma since_loop_spec (fuel : nat) : ∀ st p b cache,
  BeginTime ck ≠ ALWAYS_ACTIVE → cache_ok cache → boundary p b → is_state (Some p) st → st ≠ DEFINED → nHeight b + 1 ≤ Z.of_nat fuel →
  ∃ r cache', since_loop m ck fuel st p cache = Ok (r, cache') ∧ cache_ok cache' ∧ since_ok p st r.
Proof.
  induction fuel as [|fuel IH]; intros st p b cache Hna Hc Hb Hst Hnd Hf; cbn [since_loop];
    pose proof (Hix p b (proj1 Hb)) as (H0 & _); [lia|].
  unfold deref. rewrite (proj1 Hb). cbn [rbind].
  destruct (boundary_prev p b Hb) as [(_ & _ & Ha)|(a & c & Hac & Hh & _ & Ha & Hbk)]; rewrite Ha; cbn [rbind].
  - eexists _, cache. split_and!; [done|done|]. exists 0%nat, p, b. split_and!; [done..|]. exists None. by split.
  - destruct (GetStateFor_boundary a c cache Hna Hc Hac) as (sa & c1 & -> & Hc1 & Hsa). cbn [rbind fst snd].
    case_bool_decide as Heq.
    + subst sa. destruct (IH st a c c1 Hna Hc1 Hac Hsa Hnd) as (r & c2 & -> & Hc2 & k & q & d & Hk & Hrest); [lia|].
      exists r, c2. split_and!; [done|done|]. exists (Z.to_nat (Period ck) + k)%nat, q, d. split; [|done]. by rewrite back_add, Hbk.
    + eexists _, c1. split_and!; [done|done|]. exists 0%nat, p, b. split_and!; [done..|]. exists (Some a). split; [done|].
      intros Hs. apply Heq. by eapply is_state_fun.
Qed.
End Spec.

(** ** Main statements *)

(** C20: the cached walk computes BIP 9.  For a consistent index whose block times
    pass the contextual check, a positive period and a start not after the
    timeout, [GetStateFor] with any consistent cache ends, returns the state
    that counting every period from the genesis block gives, and leaves a
    consistent cache: neither the cache nor the shortcut before the start time
    can be observed. *)
Theorem get_state_for_correct m ck p cache :
  index_ok m → times_ok m → 0 < Period ck → BeginTime ck ≤ EndTime ck → BeginTime ck ≠ ALWAYS_ACTIVE →
  cache_ok m ck cache → known_or_null m p →
  ∃ st cache', GetStateFor m ck p cache = Ok (st, cache') ∧ state_after m ck p = Ok st ∧ cache_ok m ck cache'.
Proof.
  intros Hix Htm HP HT Hna Hc Hp.
  destruct (GetStateFor_spec m ck Hix Htm HP HT p cache Hna Hc Hp) as (st & c' & r & H1 & H2 & H3 & _). by exists st, c'.
Qed.

(** A deployment only moves forward.  From a block to any of its descendants
    the states [GetStateFor] answers, each with a consistent cache, follow zero
    or more of the steps from defined to started, from started to locked in,
    from locked in to active, or to failed from defined or started; so active
    and failed are final. *)
Theorem deployment_state_machine m ck p b p' b' k cache cache' :
  index_ok m → times_ok m → 0 < Period ck → BeginTime ck ≤ EndTime ck → BeginTime ck ≠ ALWAYS_ACTIVE →
  cache_ok m ck cache → cache_ok m ck cache' →
  m !! p = Some b → m !! p' = Some b' → back m p' k = Some p →
  ∃ st c st' c', GetStateFor m ck (Some p) cache = Ok (st, c) ∧ GetStateFor m ck (Some p') cache' = Ok (st', c') ∧
    rtc bip9_step st st' ∧ (st = ACTIVE → st' = ACTIVE) ∧ (st = FAILED → st' = FAILED).
Proof.
  intros Hix Htm HP HT Hna Hc Hc' Hp Hp' Hk.
  destruct (GetStateFor_spec m ck Hix Htm HP HT (Some p) cache Hna Hc) as (st & c & x & H1 & _ & Hst & _); [by exists b|].
  destruct (GetStateFor_spec m ck Hix Htm HP HT (Some p') cache' Hna Hc') as (st' & c' & x' & H1' & _ & Hst' & _); [by exists b'|].
  pose proof (state_after_evolves m ck Hix HP p b p' b' k st st' Hp Hp' Hk Hst Hst') as Hr. exists st, c, st', c'.
  split_and!; [done|done|done| |]; intros ->; inversion Hr as [|? ? ? Hstep]; [done|inversion Hstep|done|inversion Hstep].
Qed.

(** [GetStateSinceHeightFor] returns the height of the first block in the
    current state: the block before it ends a period in the state, and the
    period before that one was in another state. *)
Theorem state_since_height_correct m ck p b cache st :
  index_ok m → times_ok m → 0 < Period ck → BeginTime ck ≤ EndTime ck → BeginTime ck ≠ ALWAYS_ACTIVE →
  cache_ok m ck cache → m !! p = Some b → state_after m ck (Some p) = Ok st →
  ∃ r cache', GetStateSinceHeightFor m ck (Some p) cache = Ok (r, cache') ∧ cache_ok m ck cache' ∧
    (st = DEFINED → r = 0) ∧ (st ≠ DEFINED → since_ok m ck p st r).
Proof.
  intros Hix Htm HP HT Hna Hc Hp Hst. unfold GetStateSinceHeightFor. rewrite (proj2 (Z.eqb_neq _ _) Hna).
  destruct (GetStateFor_spec m ck Hix Htm HP HT (Some p) cache Hna Hc) as (st1 & c1 & x & -> & Hc1 & Hst1 & Hx & His); [by exists b|].
  assert (st1 = st) as -> by congruence. cbn [rbind fst snd]. case_bool_decide as Hd; [exists 0, c1; by split_and!|].
  destruct (period_parent_spec m ck Hix HP p b Hp) as (x' & Hx' & Hs). assert (x' = x) as -> by congruence. rewrite Hx. cbn [rbind].
  destruct x as [q|]; [|done]. destruct Hs as (c & Hq & _ & Hbk). unfold deref. rewrite (proj1 Hq). cbn [rbind].
  destruct (since_loop_spec m ck Hix Htm HP HT (Z.to_nat (nHeight c + 1)) st q c c1) as (r & c2 & -> & Hc2 & k & y & d & Hk & Hrest); [done..|lia|].
  exists r, c2. split_and!; [done|done|done|]. intros _. eexists _, y, d. split; [|done]. rewrite back_add, Hbk. exact Hk.
Qed.

(** ** Examples: a deployment with periods of one block *)

Definition sample_checker : AbstractThresholdConditionChecker := mk_checker (λ _, true) 50 1000 1 1.
Lemma sample_times_ok : times_ok sample_index.
Proof.
  intros p b q t Hp Hpp Hq. unfold sample_index in Hp.
  apply lookup_insert_Some in Hp as [[<- <-]|[_ Hp]]; [|apply lookup_insert_Some in Hp as [[<- <-]|[_ Hp]]];
    [injection Hpp as <-; vm_compute in Hq; by injection Hq as <-..|]. by apply lookup_singleton_Some in Hp as [<- <-].
Qed.
Lemma get_state_for_correct_witness :
  ∃ st cache', GetStateFor sample_index sample_checker (Some hash_b) ∅ = Ok (st, cache') ∧
    state_after sample_index sample_checker (Some hash_b) = Ok st.
Proof.
  destruct (get_state_for_correct sample_index sample_checker (Some hash_b) ∅) as (st & c & H1 & H2 & _);
    [apply sample_index_ok|apply sample_times_ok|done|done|done|done|by eexists|]. by exists st, c.
Defined.
Lemma deployment_state_machine_witness :
  ∃ st c st' c', GetStateFor sample_index sample_checker (Some hash_g) ∅ = Ok (st, c) ∧
    GetStateFor sample_index sample_checker (Some hash_b) ∅ = Ok (st', c') ∧ rtc bip9_step st st'.
Proof.
  destruct (deployment_state_machine sample_index sample_checker hash_g (sample_entry None None 0 50) hash_b
    (sample_entry (Some hash_g) (Some hash_g) 1 200) 1 ∅ ∅) as (st & c & st' & c' & H1 & H2 & H3 & _);
    [apply sample_index_ok|apply sample_times_ok|done|done|done|done|done|reflexivity..|]. by exists st, c, st', c'.
Defined.
Lemma state_since_height_correct_witness :
  ∃ r cache', GetStateSinceHeightFor sample_index sample_checker (Some hash_b) ∅ = Ok (r, cache') ∧
    since_ok sample_index sample_checker hash_b LOCKED_IN r.
Proof.
  destruct (state_since_height_correct sample_index sample_checker hash_b (sample_entry (Some hash_g) (Some hash_g) 1 200) ∅ LOCKED_IN)
    as (r & c & H1 & _ & _ & H2); [apply sample_index_ok|apply sample_times_ok|done|done|done|done|reflexivity|vm_compute; reflexivity|].
  exists r, c. split; [exact H1|by apply H2].
Defined.
