(* ===== verification/Activate.v ===== *)
(** * Choosing the active chain (CChainState of validation.cpp)

    The chain state keeps the block index, the active chain, and the set of
    candidate tips ordered by work, time of receipt and address.
    [FindMostWorkChain] picks the best candidate whose blocks are all usable,
    [ActivateBestChainStep] disconnects to the fork and connects towards it, and
    [ActivateBestChain] repeats this until the best candidate is the tip.

    Validating and applying the content of a block is the interface [Ledger]:
    what [ConnectBlock], [DisconnectBlock] and the writing of the coins answer.
    The address of an index entry, the last tie breaker, is the argument [addr].
    The memory pool, the notifications and the set of entries to be written to
    disk are not part of this state. *)
From S2P Require Import Prelude ArithUint256 Script Interpreter InterpreterFacts InterpreterSpecs Serialize Transaction Block Chain ChainFacts.
Import BaseUint.

(** ** What the chain selection asks of validation *)

(** The outcome of connecting a block: the new coins, a violated consensus rule
    (with [CorruptionPossible]), or an error of the system. *)
Inductive verdict (L : Type) :=
| Connected (ledger : L)
| Invalid (corruption : bool)
| SystemError.
Arguments Connected {L} ledger.
Arguments Invalid {L} corruption.
Arguments SystemError {L}.

Class Ledger (L : Type) := {
  connect_block : BlockMap → L → uint256 → verdict L;
  disconnect_block : BlockMap → L → uint256 → option L
}.
(** Validity belongs to the block: a rejected block is not valid, a connected one
    is.  A rejection never leaves open that the block is only corrupt on disk:
    [ConnectBlock] aborts the node in that case. *)
Class LedgerLaws (L : Type) `{Ledger L} (block_valid : uint256 → Prop) : Prop := {
  rejected_invalid m l p c : connect_block m l p = Invalid c → c = false ∧ ¬ block_valid p;
  connected_valid m l p l' : connect_block m l p = Connected l' → block_valid p
}.

(** ** [std::set] with a comparator, as its elements in ascending order *)

Section OrderedSet.
Context {A : Type} (less : A → A → bool).
Fixpoint set_insert (x : A) (l : list A) : list A :=
  match l with
  | [] => [x]
  | y :: k => if less x y then x :: l else if less y x then y :: set_insert x k else l
  end.
Fixpoint set_erase (x : A) (l : list A) : list A :=
  match l with
  | [] => []
  | y :: k => if less x y then l else if less y x then y :: set_erase x k else k
  end.
End OrderedSet.

Record CChainState := mk_state {
  index : BlockMap; setBlockIndexCandidates : list uint256; m_failed_blocks : gset uint256;
  chainActive : CChain; mapBlocksUnlinked : list (uint256 * uint256); pindexBestInvalid : option uint256;
  nBlockSequenceId : Z; nBlockReverseSequenceId : Z; nLastPreciousChainwork : base_uint
}.
Definition set_index (s : CChainState) (m : BlockMap) : CChainState :=
  mk_state m (setBlockIndexCandidates s) (m_failed_blocks s) (chainActive s) (mapBlocksUnlinked s) (pindexBestInvalid s)
    (nBlockSequenceId s) (nBlockReverseSequenceId s) (nLastPreciousChainwork s).
Definition set_candidates (s : CChainState) (l : list uint256) : CChainState :=
  mk_state (index s) l (m_failed_blocks s) (chainActive s) (mapBlocksUnlinked s) (pindexBestInvalid s)
    (nBlockSequenceId s) (nBlockReverseSequenceId s) (nLastPreciousChainwork s).
Definition set_failed (s : CChainState) (f : gset uint256) : CChainState :=
  mk_state (index s) (setBlockIndexCandidates s) f (chainActive s) (mapBlocksUnlinked s) (pindexBestInvalid s)
    (nBlockSequenceId s) (nBlockReverseSequenceId s) (nLastPreciousChainwork s).
Definition set_chain (s : CChainState) (c : CChain) : CChainState :=
  mk_state (index s) (setBlockIndexCandidates s) (m_failed_blocks s) c (mapBlocksUnlinked s) (pindexBestInvalid s)
    (nBlockSequenceId s) (nBlockReverseSequenceId s) (nLastPreciousChainwork s).
Definition set_unlinked (s : CChainState) (u : list (uint256 * uint256)) : CChainState :=
  mk_state (index s) (setBlockIndexCandidates s) (m_failed_blocks s) (chainActive s) u (pindexBestInvalid s)
    (nBlockSequenceId s) (nBlockReverseSequenceId s) (nLastPreciousChainwork s).
Definition set_best_invalid (s : CChainState) (p : option uint256) : CChainState :=
  mk_state (index s) (setBlockIndexCandidates s) (m_failed_blocks s) (chainActive s) (mapBlocksUnlinked s) p
    (nBlockSequenceId s) (nBlockReverseSequenceId s) (nLastPreciousChainwork s).
Definition set_sequence (s : CChainState) (i r : Z) (w : base_uint) : CChainState :=
  mk_state (index s) (setBlockIndexCandidates s) (m_failed_blocks s) (chainActive s) (mapBlocksUnlinked s)
    (pindexBestInvalid s) i r w.

(** [pindex->nStatus |= flag] and the fields set when the data arrives. *)
Definition or_status (m : BlockMap) (p : uint256) (flag : Z) : BlockMap :=
  alter (λ b, set_status b (nStatus b |' flag)) p m.
Definition set_chain_tx (b : CBlockIndex) (tx chaintx seq : Z) : CBlockIndex :=
  mk_index (pprev b) (pskip b) (nHeight b) (nChainWork b) (nStatus b) (nTime b) (nBits b) (nTimeMax b) (prevoutStake b)
    (nStakeModifier b) (nVersion_idx b) tx chaintx seq.

Definition failed (b : CBlockIndex) : bool := negb (nStatus b &' BLOCK_FAILED_MASK =? 0).
Definition missing (b : CBlockIndex) : bool := nStatus b &' BLOCK_HAVE_DATA =? 0.

Section ChainState.
Context (addr : uint256 → Z).

Definition CBlockIndexWorkComparator (m : BlockMap) (pa pb : uint256) : bool :=
  match m !! pa, m !! pb with
  | Some a, Some b =>
      if op_gt (nChainWork a) (nChainWork b) then false
      else if op_lt (nChainWork a) (nChainWork b) then true
      else if nSequenceId a <? nSequenceId b then false
      else if nSequenceId a >? nSequenceId b then true
      else if addr pa <? addr pb then false
      else if addr pa >? addr pb then true
      else false
  | _, _ => false
  end.
Definition insert_candidate (s : CChainState) (p : uint256) : CChainState :=
  set_candidates s (set_insert (CBlockIndexWorkComparator (index s)) p (setBlockIndexCandidates s)).
Definition erase_candidate (s : CChainState) (p : uint256) : CChainState :=
  set_candidates s (set_erase (CBlockIndexWorkComparator (index s)) p (setBlockIndexCandidates s)).

(** ** [FindMostWorkChain] *)

(** The walk from a candidate to the active chain: the first block that failed
    or misses its data, if any. *)
Fixpoint test_path (s : CChainState) (fuel : nat) (pindexTest : option uint256) : result chain_error (option uint256) :=
  match pindexTest with
  | None => Ok None
  | Some p =>
      let* here := Contains (index s) (chainActive s) p in
      if here then Ok None
      else match fuel with
      | O => Err no_progress
      | S fuel =>
          let* b := deref (index s) p in
          if negb (negb (nChainTx b =? 0) || (nHeight b =? 0)) then Err assertion_failed
          else if failed b || missing b then Ok (Some p)
          else test_path s fuel (pprev b)
      end
  end.

(** [while (pindexTest != pindexFailed)]. *)
Fixpoint remove_chain (s : CChainState) (fuel : nat) (pindexTest pindexFailed : uint256) (fFailedChain fMissingData : bool)
  : result chain_error CChainState :=
  if bool_decide (pindexTest = pindexFailed) then Ok s
  else match fuel with
  | O => Err no_progress
  | S fuel =>
      let* b := deref (index s) pindexFailed in
      match pprev b with
      | None => Err dangling
      | Some q =>
          let s := if fFailedChain then set_index s (or_status (index s) pindexFailed BLOCK_FAILED_CHILD)
                   else if fMissingData then set_unlinked s ((q, pindexFailed) :: mapBlocksUnlinked s) else s in
          remove_chain (erase_candidate s pindexFailed) fuel pindexTest q fFailedChain fMissingData
      end
  end.

Definition better_invalid (s : CChainState) (p : uint256) : result chain_error bool :=
  match pindexBestInvalid s with
  | None => Ok true
  | Some i => let* b := deref (index s) p in let* c := deref (index s) i in Ok (op_gt (nChainWork b) (nChainWork c))
  end.

Fixpoint FindMostWorkChain (fuel : nat) (s : CChainState) : result chain_error (option uint256 * CChainState) :=
  match last (setBlockIndexCandidates s) with
  | None => Ok (None, s)
  | Some pindexNew =>
      let* b := deref (index s) pindexNew in
      let* bad := test_path s (Z.to_nat (nHeight b + 1)) (Some pindexNew) in
      match bad with
      | None => Ok (Some pindexNew, s)
      | Some pindexTest =>
          let* t := deref (index s) pindexTest in
          let* newer := if failed t then better_invalid s pindexNew else Ok false in
          let s := if newer : bool then set_best_invalid s (Some pindexNew) else s in
          let* s := remove_chain s (Z.to_nat (nHeight b + 1)) pindexTest pindexNew (failed t) (missing t) in
          let s := erase_candidate s pindexTest in
          match fuel with
          | O => Err no_progress
          | S fuel => FindMostWorkChain fuel s
          end
      end
  end.

(** ** Candidates *)

Fixpoint drop_worse (less : uint256 → uint256 → bool) (tip : uint256) (l : list uint256) : list uint256 :=
  match l with
  | [] => []
  | x :: k => if less x tip then drop_worse less tip k else l
  end.
Definition PruneBlockIndexCandidates (s : CChainState) : result chain_error CChainState :=
  match Tip (chainActive s) with
  | None => Err dangling
  | Some tip =>
      let l := drop_worse (CBlockIndexWorkComparator (index s)) tip (setBlockIndexCandidates s) in
      match l with [] => Err assertion_failed | _ => Ok (set_candidates s l) end
  end.

(** [InvalidChainFound] asserts that there is a tip. *)
Definition InvalidChainFound (s : CChainState) (p : uint256) : result chain_error CChainState :=
  let* newer := better_invalid s p in
  match Tip (chainActive s) with
  | None => Err assertion_failed
  | Some _ => Ok (if newer : bool then set_best_invalid s (Some p) else s)
  end.
Definition InvalidBlockFound (s : CChainState) (p : uint256) (corruption : bool) : result chain_error CChainState :=
  if corruption then Ok s
  else
    let s := set_index s (or_status (index s) p BLOCK_FAILED_VALID) in
    let s := set_failed s ({[p]} ∪ m_failed_blocks s) in
    InvalidChainFound (erase_candidate s p) p.

(** ** Connecting and disconnecting a tip *)

Context `{Ledger L} (hashGenesisBlock : uint256).

(** [None]: the block could not be read, disconnected or written. *)
Definition DisconnectTip (s : CChainState) (l : L) : result chain_error (option (CChainState * L)) :=
  match Tip (chainActive s) with
  | None => Err assertion_failed
  | Some pindexDelete =>
      match disconnect_block (index s) l pindexDelete with
      | None => Ok None
      | Some l =>
          let* b := deref (index s) pindexDelete in
          let* c := SetTip (index s) (chainActive s) (pprev b) in
          Ok (Some (set_chain s c, l))
      end
  end.

(** The marks [ConnectBlock] leaves on the entry of a block other than the
    genesis block. *)
Definition mark_connected (b : CBlockIndex) : CBlockIndex :=
  let b := set_status b (nStatus b |' BLOCK_HAVE_UNDO) in
  if negb (IsValid b BLOCK_VALID_SCRIPTS) then (RaiseValidity b BLOCK_VALID_SCRIPTS).2 else b.

Inductive connect_result :=
| tip_connected (s : CChainState) (l : L)
| tip_invalid (corruption : bool) (s : CChainState)
| tip_error.

Definition ConnectTip (s : CChainState) (l : L) (pindexNew : uint256) : result chain_error connect_result :=
  let* b := deref (index s) pindexNew in
  if negb (bool_decide (pprev b = Tip (chainActive s))) then Err assertion_failed
  else match connect_block (index s) l pindexNew with
  | SystemError => Ok tip_error
  | Invalid corruption => let* s := InvalidBlockFound s pindexNew corruption in Ok (tip_invalid corruption s)
  | Connected l =>
      let m := if bool_decide (pindexNew = hashGenesisBlock) then index s else alter mark_connected pindexNew (index s) in
      let s := set_index s m in
      let* c := SetTip m (chainActive s) (Some pindexNew) in
      Ok (tip_connected (set_chain s c) l)
  end.

(** ** One step towards the best candidate *)

(** [None]: a tip could not be disconnected. *)
Fixpoint disconnect_to (fuel : nat) (s : CChainState) (l : L) (pindexFork : option uint256)
  : result chain_error (option (CChainState * L)) :=
  match Tip (chainActive s) with
  | None => Ok (Some (s, l))
  | Some t =>
      if bool_decide (Some t = pindexFork) then Ok (Some (s, l))
      else match fuel with
      | O => Err no_progress
      | S fuel =>
          let* r := DisconnectTip s l in
          match r with None => Ok None | Some (s, l) => disconnect_to fuel s l pindexFork end
      end
  end.

(** The blocks from [pindexIter] down to above height [nHeight], highest first. *)
Fixpoint to_connect (m : BlockMap) (fuel : nat) (pindexIter : option uint256) (nHeight' : Z) : result chain_error (list uint256) :=
  match pindexIter with
  | None => Ok []
  | Some p =>
      let* b := deref m p in
      if nHeight b =? nHeight' then Ok []
      else match fuel with
      | O => Err no_progress
      | S fuel => let* l := to_connect m fuel (pprev b) nHeight' in Ok (p :: l)
      end
  end.

(** How the loop over a batch ends: all connected, a better position reached, an
    invalid block found, an error of the system. *)
Inductive batch_end := batch_done | batch_better | batch_invalid | batch_error.

(** [front] is the highest block of the batch. *)
Fixpoint connect_batch (s : CChainState) (l : L) (pindexOldTip : option uint256) (front : uint256) (batch : list uint256)
  : result chain_error (batch_end * CChainState * L) :=
  match batch with
  | [] => Ok (batch_done, s, l)
  | p :: batch =>
      let* r := ConnectTip s l p in
      match r with
      | tip_error => Ok (batch_error, s, l)
      | tip_invalid corruption s =>
          let* s := if corruption then Ok s else InvalidChainFound s front in
          Ok (batch_invalid, s, l)
      | tip_connected s l =>
          let* s := PruneBlockIndexCandidates s in
          let* better := match pindexOldTip, Tip (chainActive s) with
            | None, _ => Ok true
            | Some _, None => Err dangling
            | Some old, Some t =>
                let* a := deref (index s) t in let* b := deref (index s) old in Ok (op_gt (nChainWork a) (nChainWork b))
            end in
          if better : bool then Ok (batch_better, s, l) else connect_batch s l pindexOldTip front batch
      end
  end.

Fixpoint connect_loop (fuel : nat) (s : CChainState) (l : L) (pindexOldTip : option uint256) (pindexMostWork : uint256) (nHeight' : Z)
  : result chain_error (batch_end * CChainState * L) :=
  let* w := deref (index s) pindexMostWork in
  if nHeight' =? nHeight w then Ok (batch_done, s, l)
  else match fuel with
  | O => Err no_progress
  | S fuel =>
      let nTargetHeight := Z.min (nHeight' + 32) (nHeight w) in
      let* pindexIter := GetAncestor (index s) pindexMostWork nTargetHeight in
      let* vpindexToConnect := to_connect (index s) (Z.to_nat (nTargetHeight - nHeight')) pindexIter nHeight' in
      let* r := connect_batch s l pindexOldTip (hd pindexMostWork vpindexToConnect) (rev vpindexToConnect) in
      match r with
      | (batch_done, s, l) => connect_loop fuel s l pindexOldTip pindexMostWork nTargetHeight
      | _ => Ok r
      end
  end.

(** The flag is [fInvalidFound]; [None] is the result false. *)
Definition ActivateBestChainStep (s : CChainState) (l : L) (pindexMostWork : uint256)
  : result chain_error (option bool * CChainState * L) :=
  let pindexOldTip := Tip (chainActive s) in
  let* pindexFork := FindFork (index s) (chainActive s) (Some pindexMostWork) in
  let* r := disconnect_to (length (chainActive s)) s l pindexFork in
  match r with
  | None => Ok (None, s, l)
  | Some (s, l) =>
      let* nHeight' := match pindexFork with None => Ok (-1) | Some f => let* b := deref (index s) f in Ok (nHeight b) end in
      let* w := deref (index s) pindexMostWork in
      let* r := connect_loop (Z.to_nat (nHeight w - nHeight')) s l pindexOldTip pindexMostWork nHeight' in
      let '(e, s, l) := r in
      Ok (match e with batch_error => None | batch_invalid => Some true | _ => Some false end, s, l)
  end.

(** ** [ActivateBestChain]

    The two nested loops, one iteration of the inner one per unit of fuel:
    [starting_tip] is the tip at the start of the outer iteration,
    [blocks_connected] whether the inner loop has made a step since. *)
Definition worse_than_start (s : CChainState) (starting_tip : option uint256) : bool :=
  match Tip (chainActive s), starting_tip with
  | None, _ => true
  | Some t, Some st => CBlockIndexWorkComparator (index s) t st
  | Some _, None => false
  end.
Fixpoint activate_loop (fuel : nat) (s : CChainState) (l : L) (starting_tip : option uint256) (blocks_connected : bool)
    (pindexMostWork : option uint256) : result chain_error (bool * CChainState * L) :=
  match fuel with
  | O => Err no_progress
  | S fuel =>
      let* r := match pindexMostWork with
                | None => FindMostWorkChain (length (setBlockIndexCandidates s)) s
                | Some p => Ok (Some p, s)
                end in
      let '(pindexMostWork, s) := r in
      if bool_decide (pindexMostWork = None ∨ pindexMostWork = Tip (chainActive s)) then
        (* break *)
        if negb blocks_connected then Ok (true, s, l)
        else if bool_decide (Tip (chainActive s) = pindexMostWork) then Ok (true, s, l)
        else activate_loop fuel s l (Tip (chainActive s)) false pindexMostWork
      else match pindexMostWork with
      | None => Ok (true, s, l)
      | Some p =>
          let* r := ActivateBestChainStep s l p in
          match r with
          | (None, s, l) => Ok (false, s, l)
          | (Some fInvalidFound, s, l) =>
              let pindexMostWork := if fInvalidFound : bool then None else Some p in
              if worse_than_start s starting_tip then activate_loop fuel s l starting_tip true pindexMostWork
              else if bool_decide (Tip (chainActive s) = pindexMostWork) then Ok (true, s, l)
              else activate_loop fuel s l (Tip (chainActive s)) false pindexMostWork
          end
      end
  end.
Definition ActivateBestChain (fuel : nat) (s : CChainState) (l : L) : result chain_error (bool * CChainState * L) :=
  activate_loop fuel s l (Tip (chainActive s)) false None.

(** ** The data of a block arrives *)

(** The entry after its data was stored; [witness] is [IsWitnessEnabled] of its
    predecessor. *)
Definition received_entry (b : CBlockIndex) (ntx : Z) (witness : bool) : CBlockIndex :=
  let b := set_chain_tx b (u32 ntx) 0 (nSequenceId b) in
  let b := set_status b (nStatus b |' BLOCK_HAVE_DATA) in
  let b := if witness then set_status b (nStatus b |' BLOCK_OPT_WITNESS) else b in
  (RaiseValidity b BLOCK_VALID_TRANSACTIONS).2.

(** One element of the queue: its history is complete. *)
Definition link_block (s : CChainState) (p : uint256) : result chain_error CChainState :=
  let* b := deref (index s) p in
  let* base := match pprev b with None => Ok 0 | Some q => let* c := deref (index s) q in Ok (nChainTx c) end in
  let m := <[p := set_chain_tx b (nTx b) (u32 (base + nTx b)) (nBlockSequenceId s)]> (index s) in
  let s := set_sequence (set_index s m) (i32 (nBlockSequenceId s + 1)) (nBlockReverseSequenceId s) (nLastPreciousChainwork s) in
  Ok (match Tip (chainActive s) with
      | Some t => if negb (CBlockIndexWorkComparator m p t) then insert_candidate s p else s
      | None => insert_candidate s p
      end).
Fixpoint link_queue (fuel : nat) (s : CChainState) (queue : list uint256) : result chain_error CChainState :=
  match queue with
  | [] => Ok s
  | p :: queue =>
      match fuel with
      | O => Err no_progress
      | S fuel =>
          let* s := link_block s p in
          let children := snd <$> filter (λ e, e.1 = p) (mapBlocksUnlinked s) in
          let s := set_unlinked s (filter (λ e, e.1 ≠ p) (mapBlocksUnlinked s)) in
          link_queue fuel s (queue ++ children)
      end
  end.
Definition ReceivedBlockTransactions (s : CChainState) (p : uint256) (ntx : Z) (witness : bool) : result chain_error CChainState :=
  let* b := deref (index s) p in
  let s := set_index s (<[p := received_entry b ntx witness]> (index s)) in
  let* linked := match pprev b with
                 | None => Ok true
                 | Some q => let* c := deref (index s) q in Ok (negb (nChainTx c =? 0))
                 end in
  if linked : bool then link_queue (S (length (mapBlocksUnlinked s))) s [p]
  else match pprev b with
  | Some q => let* c := deref (index s) q in
      Ok (if IsValid c BLOCK_VALID_TREE then set_unlinked s (mapBlocksUnlinked s ++ [(q, p)]) else s)
  | None => Ok s
  end.

(** ** Manual changes *)

(** The part of [PreciousBlock] before it calls [ActivateBestChain]. *)
Definition PreciousBlock (s : CChainState) (p : uint256) : result chain_error CChainState :=
  let* b := deref (index s) p in
  match Tip (chainActive s) with
  | None => Err dangling
  | Some t =>
      let* tb := deref (index s) t in
      if op_lt (nChainWork b) (nChainWork tb) then Ok s
      else
        let rev := if op_gt (nChainWork tb) (nLastPreciousChainwork s) then -1 else nBlockReverseSequenceId s in
        let s := erase_candidate s p in
        let b := set_chain_tx b (nTx b) (nChainTx b) rev in
        let s := set_index s (<[p := b]> (index s)) in
        let s := set_sequence s (nBlockSequenceId s) (if rev >? - 2 ^ 31 then rev - 1 else rev) (nChainWork tb) in
        if IsValid b BLOCK_VALID_TRANSACTIONS && negb (nChainTx b =? 0)
        then PruneBlockIndexCandidates (insert_candidate s p) else Ok s
  end.

(** The loops of [InvalidateBlock]: leave the chain of [p], mark what was left. *)
Fixpoint disconnect_from (fuel : nat) (s : CChainState) (l : L) (p : uint256) : result chain_error (option (CChainState * L)) :=
  let* here := Contains (index s) (chainActive s) p in
  if here then
    match fuel with
    | O => Err no_progress
    | S fuel =>
        let* r := DisconnectTip s l in
        match r with None => Ok None | Some (s, l) => disconnect_from fuel s l p end
    end
  else Ok (Some (s, l)).
Fixpoint mark_descendants (fuel : nat) (s : CChainState) (walk : option uint256) (p : uint256) : result chain_error CChainState :=
  match walk with
  | None => Err dangling
  | Some w =>
      if bool_decide (w = p) then Ok s
      else match fuel with
      | O => Err no_progress
      | S fuel =>
          let* b := deref (index s) w in
          let s := set_index s (or_status (index s) w BLOCK_FAILED_CHILD) in
          mark_descendants fuel (erase_candidate s w) (pprev b) p
      end
  end.
(** One entry visited by the loop over the index that refills the candidates. *)
Definition refill_candidate (p : uint256) (b : CBlockIndex) (s : CChainState) : CChainState :=
  if IsValid b BLOCK_VALID_TRANSACTIONS && negb (nChainTx b =? 0)
     && negb (match Tip (chainActive s) with Some t => CBlockIndexWorkComparator (index s) p t | None => false end)
  then insert_candidate s p else s.
Definition InvalidateBlock (s : CChainState) (l : L) (p : uint256) : result chain_error (bool * CChainState * L) :=
  let* was_in_chain := Contains (index s) (chainActive s) p in
  let invalid_walk_tip := Tip (chainActive s) in
  let* r := disconnect_from (length (chainActive s)) s l p in
  match r with
  | None => Ok (false, s, l)
  | Some (s, l) =>
      let* b := deref (index s) p in
      let* s := if was_in_chain : bool then mark_descendants (length (map_to_list (index s))) s invalid_walk_tip p else Ok s in
      let s := erase_candidate (set_index s (or_status (index s) p BLOCK_FAILED_VALID)) p in
      let s := set_failed s ({[p]} ∪ m_failed_blocks s) in
      let s := map_fold refill_candidate s (index s) in
      let* s := InvalidChainFound s p in
      Ok (true, s, l)
  end.
End ChainState.
