(* ===== verification/ActivateFacts.v ===== *)
(** * Choosing the active chain: correctness

    [less] is a strict total order on the entries of the index, so the candidate
    set is a sorted list without repetitions.  [usable] says that a block can be
    reached from the active chain through blocks that have their data and have
    not failed.  The invariant [state_ok] is kept by every step; with it the
    loop ends with a tip that no usable block beats. *)
From S2P Require Import Prelude ArithUint256 Script Interpreter InterpreterFacts InterpreterSpecs Serialize Transaction Block Chain ChainFacts Activate.
Import BaseUint.

(** ** Ordered sets *)

Section OrderedSet.
Context {A : Type} (less : A → A → bool) (D : A → Prop).
Hypothesis less_irrefl : ∀ x, D x → less x x = false.
Hypothesis less_trans : ∀ x y z, D x → D y → D z → less x y = true → less y z = true → less x z = true.
Hypothesis less_total : ∀ x y, D x → D y → less x y = false → less y x = false → x = y.

Definition ascending (l : list A) : Prop := StronglySorted (λ x y, less x y = true) l ∧ Forall D l.

Lemma ascending_cons x l : ascending (x :: l) ↔ D x ∧ Forall (λ y, less x y = true) l ∧ ascending l.
Proof.
  unfold ascending. rewrite Forall_cons. split.
  - intros [Hs%StronglySorted_inv [Hx Hl]]. tauto.
  - intros (Hx & Hl & Hs & Hd). split_and!; [by constructor|done|done].
Qed.
Lemma set_erase_elem x y l : D x → ascending l → y ∈ set_erase less x l ↔ y ∈ l ∧ y ≠ x.
Proof.
  intros Hx. induction l as [|z l IH]; intros Hl; cbn [set_erase]; [set_solver|].
  apply ascending_cons in Hl as (Hz & Hmin & Hl). rewrite Forall_forall in Hmin.
  assert (∀ w, w ∈ l → D w) as Hd by (apply Forall_forall, Hl).
  destruct (less x z) eqn:Hxz.
  - split; [|naive_solver]. intros Hy. split; [done|]. intros ->. apply elem_of_cons in Hy as [->|Hy].
    + by rewrite less_irrefl in Hxz.
    + assert (less x x = true) by eauto. by rewrite less_irrefl in *.
  - destruct (less z x) eqn:Hzx.
    + rewrite elem_of_cons, IH, elem_of_cons by done. split; [|naive_solver].
      intros [->|?]; [|naive_solver]. split; [by left|]. intros ->. by rewrite less_irrefl in Hzx.
    + assert (x = z) as <- by eauto. rewrite elem_of_cons. split.
      * intros Hy. split; [by right|]. intros ->. specialize (Hmin x Hy). by rewrite less_irrefl in Hmin.
      * by intros [[->|?] ?].
Qed.
Lemma set_erase_ascending x l : D x → ascending l → ascending (set_erase less x l).
Proof.
  intros Hx. induction l as [|z l IH]; intros Hl; cbn [set_erase]; [done|].
  pose proof Hl as (Hz & Hmin & Hl')%ascending_cons.
  destruct (less x z); [done|]. destruct (less z x) eqn:?; [|done].
  apply ascending_cons. split_and!; [done| |by apply IH].
  rewrite Forall_forall in *. intros y Hy. apply set_erase_elem in Hy as [Hy _]; auto.
Qed.
Lemma set_erase_length x l : (length (set_erase less x l) ≤ length l)%nat.
Proof. induction l as [|z l IH]; cbn [set_erase]; [done|]. destruct (less x z), (less z x); cbn [length]; lia. Qed.
Lemma set_erase_shorter x l : D x → ascending l → x ∈ l → (length (set_erase less x l) < length l)%nat.
Proof.
  intros Hx. induction l as [|z l IH]; intros Hl Hin; cbn [set_erase]; [by apply elem_of_nil in Hin|].
  apply ascending_cons in Hl as (Hz & Hmin & Hl). rewrite Forall_forall in Hmin.
  assert (∀ w, w ∈ l → D w) as Hd by (apply Forall_forall, Hl).
  apply elem_of_cons in Hin as [->|Hin].
  - rewrite less_irrefl by done. cbn [length]. lia.
  - destruct (less x z) eqn:Hxz; [|destruct (less z x); cbn [length]; [specialize (IH Hl Hin)|]; lia].
    assert (less x x = true) by eauto. by rewrite less_irrefl in *.
Qed.
Lemma set_insert_elem x y l : D x → ascending l → y ∈ set_insert less x l ↔ y = x ∨ y ∈ l.
Proof.
  intros Hx. induction l as [|z l IH]; intros Hl; cbn [set_insert]; [set_solver|].
  apply ascending_cons in Hl as (Hz & Hmin & Hl).
  destruct (less x z) eqn:?; [set_solver|]. destruct (less z x) eqn:?; [rewrite !elem_of_cons, IH by done; tauto|].
  assert (x = z) as <- by eauto. set_solver.
Qed.
Lemma set_insert_ascending x l : D x → ascending l → ascending (set_insert less x l).
Proof.
  intros Hx. induction l as [|z l IH]; intros Hl; cbn [set_insert]; [by split; repeat constructor|].
  pose proof Hl as (Hz & Hmin & Hl')%ascending_cons. rewrite Forall_forall in Hmin.
  assert (∀ w, w ∈ l → D w) as Hd by (apply Forall_forall, Hl').
  destruct (less x z) eqn:?.
  - apply ascending_cons. split_and!; [done| |done]. apply Forall_cons. split; [done|]. apply Forall_forall. eauto.
  - destruct (less z x) eqn:?; [|done]. apply ascending_cons. split_and!; [done| |by apply IH].
    apply Forall_forall. intros y Hy. apply set_insert_elem in Hy as [->|Hy]; auto.
Qed.
Lemma ascending_last l x : ascending l → last l = Some x → ∀ y, y ∈ l → less x y = false.
Proof.
  induction l as [|z l IH]; [done|]. intros (Hz & Hmin & Hl)%ascending_cons Hlast y Hy.
  rewrite Forall_forall in Hmin. assert (∀ w, w ∈ l → D w) as Hd by (apply Forall_forall, Hl).
  destruct l as [|w l]; [injection Hlast as ->; apply list_elem_of_singleton in Hy as ->; by apply less_irrefl|].
  rewrite last_cons_cons in Hlast. apply elem_of_cons in Hy as [->|Hy]; [|by apply IH].
  assert (x ∈ w :: l) by (by apply last_Some_elem_of in Hlast).
  destruct (less x z) eqn:?; [|done]. assert (less z z = true) by eauto. by rewrite less_irrefl in *.
Qed.
End OrderedSet.

(** ** The index up to the status of its entries *)

Definition skeleton (m : BlockMap) : BlockMap := (λ b, set_status b 0) <$> m.
(** Two indexes that differ in status only. *)
Definition same_shape (m m' : BlockMap) : Prop := skeleton m = skeleton m'.
#[global] Instance same_shape_equiv : Equivalence same_shape.
Proof. unfold same_shape. split; [by intros m|by intros m m'|intros m1 m2 m3; congruence]. Qed.

Lemma skeleton_lookup m p : skeleton m !! p = (λ b, set_status b 0) <$> m !! p.
Proof. apply lookup_fmap. Qed.
Lemma same_shape_lookup m m' p b : same_shape m m' → m !! p = Some b →
  ∃ b', m' !! p = Some b' ∧ set_status b 0 = set_status b' 0.
Proof.
  intros Hs Hp. pose proof (skeleton_lookup m p) as H1. pose proof (skeleton_lookup m' p) as H2.
  red in Hs. rewrite <- Hs, H1, Hp in H2. simpl in H2. destruct (m' !! p) as [b'|]; [|done]. injection H2 as ?. exists b'. split; [done|].
  destruct b, b'. cbn in *. by subst.
Qed.
Lemma set_status_fields b b' : set_status b 0 = set_status b' 0 →
  pprev b = pprev b' ∧ pskip b = pskip b' ∧ nHeight b = nHeight b' ∧ nChainWork b = nChainWork b' ∧
  nChainTx b = nChainTx b' ∧ nSequenceId b = nSequenceId b'.
Proof. destruct b, b'. intros [=]. by subst. Qed.

Lemma back_skeleton m k : ∀ p, back (skeleton m) p k = back m p k.
Proof.
  induction k as [|k IH]; intros p; [done|]. cbn [back]. rewrite skeleton_lookup.
  destruct (m !! p) as [b|]; [|done]. cbn. destruct (pprev b); [apply IH|done].
Qed.
#[global] Instance back_proper : Proper (same_shape ==> eq ==> eq ==> eq) back.
Proof. intros m m' Hs p _ <- k _ <-. red in Hs. by rewrite <- (back_skeleton m), Hs, back_skeleton. Qed.
Lemma contains_skeleton m c p : contains (skeleton m) c p = contains m c p.
Proof. unfold contains. rewrite skeleton_lookup. by destruct (m !! p). Qed.
#[global] Instance contains_proper : Proper (same_shape ==> eq ==> eq ==> eq) contains.
Proof. intros m m' Hs c _ <- p _ <-. red in Hs. by rewrite <- (contains_skeleton m), Hs, contains_skeleton. Qed.
#[global] Instance index_ok_proper : Proper (same_shape ==> iff) index_ok.
Proof.
  assert (∀ m m', same_shape m m' → index_ok m → index_ok m') as Himp.
  { intros m m' Hs Hok p b' Hp. destruct (same_shape_lookup m' m p b') as (b & Hb & Hf); [done|done|].
    apply set_status_fields in Hf as (E1 & E2 & E3 & _). destruct (Hok p b Hb) as (H1 & H2 & H3).
    rewrite E1, E2, E3. split_and!; [done| |intros s Hsk; rewrite <- Hs; by apply H3]. unfold link_ok in *. rewrite E1, E3.
    destruct (pprev b) as [q|]; [|done]. destruct H2 as (c & Hc & Hh).
    destruct (same_shape_lookup m m' q c Hs Hc) as (c' & Hc' & (_ & _ & E & _)%set_status_fields).
    exists c'. split; [done|lia]. }
  intros m m' Hs. split; apply Himp; [done|by symmetry].
Qed.
#[global] Instance chain_ok_proper : Proper (same_shape ==> eq ==> iff) chain_ok.
Proof.
  assert (∀ m m' c, same_shape m m' → chain_ok m c → chain_ok m' c) as Himp.
  { intros m m' c Hs Hok i q Hi. destruct (Hok i q Hi) as (b & Hb & Hh & Hall).
    destruct (same_shape_lookup m m' q b Hs Hb) as (b' & Hb' & (_ & _ & E & _)%set_status_fields).
    exists b'. split_and!; [done|congruence|]. intros j Hj. rewrite Hall by done. by rewrite Hs. }
  intros m m' Hs c _ <-. split; apply Himp; [done|by symmetry].
Qed.
Lemma same_shape_alter (f : CBlockIndex → CBlockIndex) p m :
  (∀ b, set_status (f b) 0 = set_status b 0) → same_shape (alter f p m) m.
Proof.
  intros Hf. apply map_eq. intros q. rewrite !skeleton_lookup. destruct (decide (p = q)) as [<-|Hne].
  - rewrite lookup_alter_eq. destruct (m !! p); [|done]. simpl. by rewrite Hf.
  - by rewrite lookup_alter_ne.
Qed.
Lemma same_shape_or m p flag : same_shape (or_status m p flag) m.
Proof. by apply same_shape_alter. Qed.

(** Work grows along the chain, and a block whose history is complete has a
    predecessor whose history is complete. *)
Definition shape_ok (m : BlockMap) : Prop :=
  index_ok m ∧ ∀ p b, m !! p = Some b → wf (nChainWork b) ∧
    ∀ q c, pprev b = Some q → m !! q = Some c →
      value (nChainWork c) < value (nChainWork b) ∧ (nChainTx b ≠ 0 → nChainTx c ≠ 0).
#[global] Instance shape_ok_proper : Proper (same_shape ==> iff) shape_ok.
Proof.
  assert (∀ m m', same_shape m m' → shape_ok m → shape_ok m') as Himp.
  { intros m m' Hs [Hok Hall]. split; [by rewrite <- Hs|]. intros p b' Hp.
    destruct (same_shape_lookup m' m p b') as (b & Hb & (E1 & _ & _ & E2 & E3 & _)%set_status_fields); [done|done|].
    destruct (Hall p b Hb) as [Hw Hq]. rewrite E1, E2, E3. split; [done|]. intros q c' Hpp Hc'.
    destruct (same_shape_lookup m' m q c') as (c & Hc & (_ & _ & _ & E4 & E5 & _)%set_status_fields); [done|done|].
    rewrite E4, E5. by eapply Hq. }
  intros m m' Hs. split; apply Himp; [done|by symmetry].
Qed.

(** Properties of all ancestors follow from the step to the predecessor. *)
Lemma back_prev m p b q k t : m !! p = Some b → pprev b = Some q → back m q k = Some t → back m p (S k) = Some t.
Proof. intros Hp Hpp Hb. cbn [back]. by rewrite Hp, Hpp. Qed.
Lemma back_known m p b k t : index_ok m → m !! p = Some b → back m p k = Some t → ∃ c, m !! t = Some c.
Proof. intros Hok Hp Hb. destruct (back_height_inv m k p b t Hok Hp Hb) as (_ & c & Hc & _). by exists c. Qed.
Lemma back_work m k : ∀ p b t c,
  shape_ok m → m !! p = Some b → back m p k = Some t → m !! t = Some c →
  value (nChainWork c) ≤ value (nChainWork b) ∧ (k ≠ 0%nat → value (nChainWork c) < value (nChainWork b)) ∧
  (nChainTx b ≠ 0 → nChainTx c ≠ 0).
Proof.
  induction k as [|k IH]; intros p b t c Hok Hp Hb Ht.
  { injection Hb as <-. assert (b = c) as <- by congruence. split_and!; [lia|done|done]. }
  destruct Hok as [Hix Hall]. destruct (Hix p b Hp) as (_ & Hl & _). unfold link_ok in Hl.
  cbn [back] in Hb. rewrite Hp in Hb. destruct (pprev b) as [q|] eqn:Hpp; [|done]. simpl in Hb.
  destruct Hl as (d & Hq & _). destruct (proj2 (Hall p b Hp) q d Hpp Hq) as [H1 H2].
  destruct (IH q d t c (conj Hix Hall) Hq Hb Ht) as (H3 & _ & H4). split_and!; [lia|lia|auto].
Qed.

(** ** The order of the candidates *)

Section Order.
Context (addr : uint256 → Z) `{!Inj (=) (=) addr}.
Abbreviation less := (CBlockIndexWorkComparator addr).

Lemma less_spec m pa pb a b :
  shape_ok m → m !! pa = Some a → m !! pb = Some b →
  less m pa pb = true ↔
  value (nChainWork a) < value (nChainWork b) ∨
  value (nChainWork a) = value (nChainWork b) ∧
    (nSequenceId b < nSequenceId a ∨ nSequenceId b = nSequenceId a ∧ addr pb < addr pa).
Proof.
  intros [_ Hok] Ha Hb. unfold CBlockIndexWorkComparator. rewrite Ha, Hb.
  rewrite op_gt_spec, op_lt_spec by (by eapply Hok). repeat case_match; lia.
Qed.
Lemma less_known m pa pb : less m pa pb = true → is_Some (m !! pa) ∧ is_Some (m !! pb).
Proof. unfold CBlockIndexWorkComparator. destruct (m !! pa), (m !! pb); done. Qed.
#[global] Instance less_proper : Proper (same_shape ==> eq ==> eq ==> eq) less.
Proof.
  intros m m' Hs pa _ <- pb _ <-. unfold CBlockIndexWorkComparator.
  destruct (m !! pa) as [a|] eqn:Ha; [|destruct (m' !! pa) as [a'|] eqn:Ha'; [|done]].
  2:{ symmetry in Hs. destruct (same_shape_lookup m' m pa a' Hs Ha') as (? & ? & _). congruence. }
  destruct (same_shape_lookup m m' pa a Hs Ha) as (a' & -> & (_ & _ & _ & E1 & _ & E2)%set_status_fields).
  destruct (m !! pb) as [b|] eqn:Hb; [|destruct (m' !! pb) as [b'|] eqn:Hb'; [|done]].
  2:{ symmetry in Hs. destruct (same_shape_lookup m' m pb b' Hs Hb') as (? & ? & _). congruence. }
  destruct (same_shape_lookup m m' pb b Hs Hb) as (b' & -> & (_ & _ & _ & E3 & _ & E4)%set_status_fields).
  by rewrite E1, E2, E3, E4.
Qed.

Definition known (m : BlockMap) (p : uint256) : Prop := is_Some (m !! p).
Lemma less_irrefl m p : shape_ok m → less m p p = false.
Proof.
  intros Hok. destruct (m !! p) as [b|] eqn:Hp; [|unfold CBlockIndexWorkComparator; by rewrite Hp].
  rewrite <- not_true_iff_false, less_spec by done. lia.
Qed.
Lemma less_trans m x y z :
  shape_ok m → known m x → known m y → known m z → less m x y = true → less m y z = true → less m x z = true.
Proof.
  intros Hok [a Ha] [b Hb] [c Hc]. rewrite !less_spec by done. lia.
Qed.
Lemma less_total m x y : shape_ok m → known m x → known m y → less m x y = false → less m y x = false → x = y.
Proof.
  intros Hok [a Ha] [b Hb] H1 H2. apply (inj addr).
  rewrite <- not_true_iff_false, less_spec in H1 by done. rewrite <- not_true_iff_false, less_spec in H2 by done. lia.
Qed.
(** Not worse than something better is better. *)
Lemma less_weak m x y z :
  shape_ok m → known m x → known m y → known m z → less m x y = false → less m x z = true → less m y z = true.
Proof.
  intros Hok Hx Hy Hz H1 H2. destruct (less m y x) eqn:H3; [by apply (less_trans m y x z)|].
  by rewrite (less_total m y x Hok Hy Hx H3 H1).
Qed.
(** A descendant is better than its ancestors. *)
Lemma less_back m p b k t : shape_ok m → m !! p = Some b → back m p (S k) = Some t → less m t p = true.
Proof.
  intros Hok Hp Hb. destruct (back_known m p b (S k) t (proj1 Hok) Hp Hb) as (c & Hc).
  apply (less_spec m t p c b); [done..|]. left. by eapply (back_work m (S k)).
Qed.

(** The candidates of a state, sorted. *)
Definition sorted_candidates (m : BlockMap) (l : list uint256) : Prop :=
  ascending (less m) (λ p, ∃ b, m !! p = Some b ∧ nChainTx b ≠ 0) l.
#[global] Instance sorted_candidates_proper : Proper (same_shape ==> eq ==> iff) sorted_candidates.
Proof.
  assert (∀ m m' l, same_shape m m' → sorted_candidates m l → sorted_candidates m' l) as Himp.
  { intros m m' l Hs [H1 H2]. split.
    - induction H1 as [|x l Hl IH Hx]; constructor; [apply IH; by inversion H2|].
      eapply Forall_impl; [exact Hx|]. intros y Hy. cbn in *. by rewrite <- Hs.
    - eapply Forall_impl; [exact H2|]. intros p (b & Hb & Ht).
      destruct (same_shape_lookup m m' p b Hs Hb) as (b' & Hb' & (_ & _ & _ & _ & E & _)%set_status_fields).
      exists b'. split; [done|congruence]. }
  intros m m' Hs l _ <-. split; apply Himp; [done|by symmetry].
Qed.
Lemma erase_elem m p b x l :
  shape_ok m → sorted_candidates m l → m !! p = Some b → nChainTx b ≠ 0 →
  x ∈ set_erase (less m) p l ↔ x ∈ l ∧ x ≠ p.
Proof.
  intros Hok Hl Hp Ht. eapply set_erase_elem; [| | | |exact Hl]; cbn.
  - intros y _. by apply less_irrefl.
  - intros u v w (? & ? & _) (? & ? & _) (? & ? & _). apply less_trans; [done|by eexists..].
  - intros u v (? & ? & _) (? & ? & _). apply less_total; [done|by eexists..].
  - by exists b.
Qed.
Lemma erase_sorted m p b l :
  shape_ok m → sorted_candidates m l → m !! p = Some b → nChainTx b ≠ 0 →
  sorted_candidates m (set_erase (less m) p l).
Proof.
  intros Hok Hl Hp Ht. eapply set_erase_ascending; [| | | |exact Hl]; cbn.
  - intros y _. by apply less_irrefl.
  - intros u v w (? & ? & _) (? & ? & _) (? & ? & _). apply less_trans; [done|by eexists..].
  - intros u v (? & ? & _) (? & ? & _). apply less_total; [done|by eexists..].
  - by exists b.
Qed.
Lemma erase_shorter m p b l :
  shape_ok m → sorted_candidates m l → m !! p = Some b → nChainTx b ≠ 0 → p ∈ l →
  (length (set_erase (less m) p l) < length l)%nat.
Proof.
  intros Hok Hl Hp Ht. eapply set_erase_shorter; [| | |exact Hl]; cbn.
  - intros y _. by apply less_irrefl.
  - intros u v w (? & ? & _) (? & ? & _) (? & ? & _). apply less_trans; [done|by eexists..].
  - by exists b.
Qed.
Lemma candidates_last m l p : shape_ok m → sorted_candidates m l → last l = Some p → ∀ q, q ∈ l → less m p q = false.
Proof.
  intros Hok Hl. eapply ascending_last; [| |exact Hl]; cbn.
  - intros y _. by apply less_irrefl.
  - intros u v w (? & ? & _) (? & ? & _) (? & ? & _). apply less_trans; [done|by eexists..].
Qed.
Lemma candidates_elem m l p : sorted_candidates m l → p ∈ l → ∃ b, m !! p = Some b ∧ nChainTx b ≠ 0.
Proof. intros [_ Hd]. rewrite Forall_forall in Hd. apply Hd. Qed.

(** ** Usable blocks *)

Definition good (b : CBlockIndex) : Prop := failed b = false ∧ missing b = false.
Definition usable (m : BlockMap) (c : CChain) (p : uint256) : Prop :=
  ∀ k t b, back m p k = Some t → m !! t = Some b → contains m c t = false → good b.

(** A chain contains the ancestors of what it contains. *)
Lemma contains_back m c p k t :
  index_ok m → chain_ok m c → contains m c p = true → back m p k = Some t → contains m c t = true.
Proof.
  intros Hix Hc Hp Hb. unfold contains in *. destruct (m !! p) as [b|] eqn:Hlp; [|done].
  apply bool_decide_eq_true in Hp. destruct (Hc _ _ Hp) as (b' & Hb' & _ & Hall).
  destruct (back_height_inv m k p b t Hix Hlp Hb) as (Hk & d & Hd & Hh). rewrite Hd, Hh.
  apply bool_decide_eq_true. rewrite Hall by lia.
  replace (Z.to_nat (nHeight b - (nHeight b - Z.of_nat k))) with k by lia. done.
Qed.
Lemma usable_active m c p : index_ok m → chain_ok m c → contains m c p = true → usable m c p.
Proof. intros Hix Hc Hp k t b Hb _ Hn. by rewrite (contains_back m c p k t Hix Hc Hp Hb) in Hn. Qed.
Lemma usable_cons m c p b q :
  m !! p = Some b → pprev b = Some q → usable m c q → (contains m c p = false → good b) → usable m c p.
Proof.
  intros Hp Hpp Hu Hg [|k] t d Hb Ht Hn.
  - injection Hb as <-. replace d with b by congruence. auto.
  - cbn [back] in Hb. rewrite Hp, Hpp in Hb. by eapply Hu.
Qed.

Lemma usable_back m c p k t : usable m c p → back m p k = Some t → usable m c t.
Proof. intros Hu Hb j u b Hj. apply (Hu (k + j)%nat). by rewrite back_add, Hb. Qed.
Lemma blocked_unusable m c p k t b :
  back m p k = Some t → m !! t = Some b → contains m c t = false → ¬ good b → ¬ usable m c p.
Proof. intros Hb Ht Hn Hg Hu. by apply Hg, (Hu k t b). Qed.

Lemma failed_or b flag : flag &' BLOCK_FAILED_MASK ≠ 0 → failed (set_status b (nStatus b |' flag)) = true.
Proof.
  intros Hf. unfold failed. cbn [nStatus set_status]. rewrite Z.land_lor_distr_l.
  apply negb_true_iff, Z.eqb_neq. rewrite Z.lor_eq_0_iff. tauto.
Qed.
Lemma failed_mono b flag : failed b = true → failed (set_status b (nStatus b |' flag)) = true.
Proof.
  unfold failed. cbn [nStatus set_status]. rewrite Z.land_lor_distr_l, !negb_true_iff, !Z.eqb_neq, Z.lor_eq_0_iff. tauto.
Qed.

Lemma candidates_nodup m l : shape_ok m → sorted_candidates m l → NoDup l.
Proof.
  intros Hok [Hs _]. induction Hs as [|x l _ IH Hx]; constructor; [|done].
  intros Hin. rewrite Forall_forall in Hx. specialize (Hx x Hin). by rewrite less_irrefl in Hx.
Qed.
Lemma shorter_without (l l' : list uint256) p : NoDup l' → (∀ q, q ∈ l' → q ∈ l) → p ∈ l → p ∉ l' → (length l' < length l)%nat.
Proof.
  intros Hnd Hsub Hp Hn. change (length l' < length l)%nat with (length (p :: l') ≤ length l)%nat.
  apply submseteq_length, NoDup_submseteq; [by constructor|]. intros q [->|Hq]%elem_of_cons; auto.
Qed.

(** ** [FindMostWorkChain] *)

Definition invalid_known (s : CChainState) : Prop := ∀ p, pindexBestInvalid s = Some p → known (index s) p.
Definition find_ok (s : CChainState) : Prop :=
  shape_ok (index s) ∧ chain_ok (index s) (chainActive s) ∧ sorted_candidates (index s) (setBlockIndexCandidates s) ∧
  invalid_known s.

Abbreviation usable_in s := (usable (index s) (chainActive s)).
(** [s'] forgets unusable candidates of [s] and marks unusable blocks. *)
Record shrinks (s s' : CChainState) : Prop := {
  sh_shape : same_shape (index s) (index s');
  sh_chain : chainActive s' = chainActive s;
  sh_status p b : index s !! p = Some b → index s' !! p = Some b ∨
    ¬ usable_in s p ∧ index s' !! p = Some (set_status b (nStatus b |' BLOCK_FAILED_CHILD));
  sh_sorted : sorted_candidates (index s') (setBlockIndexCandidates s');
  sh_sub q : q ∈ setBlockIndexCandidates s' → q ∈ setBlockIndexCandidates s;
  sh_gone q : q ∈ setBlockIndexCandidates s → q ∉ setBlockIndexCandidates s' → ¬ usable_in s q;
  sh_invalid : invalid_known s'
}.
Lemma shrinks_ok s s' : find_ok s → shrinks s s' → find_ok s'.
Proof.
  intros (H1 & H2 & H3 & H4) [Hs Hc _ Hsort _ _ Hi]. unfold find_ok. rewrite Hc, <- Hs. split_and!; [done..| |done].
  by rewrite Hs.
Qed.
Lemma shrinks_usable s s' q : shrinks s s' → usable_in s' q ↔ usable_in s q.
Proof.
  intros Hsh. pose proof (sh_shape _ _ Hsh) as Hs. rewrite (sh_chain _ _ Hsh). split; intros Hu k t b Hb Ht Hn.
  - destruct (sh_status _ _ Hsh t b Ht) as [Ht'|(Hnu & Ht')].
    + apply (Hu k t b); [by rewrite <- Hs|done|by rewrite <- Hs].
    + destruct (Hu k t _ (eq_trans (eq_sym (back_proper _ _ Hs q q eq_refl k k eq_refl)) Hb) Ht') as [Hf _]; [by rewrite <- Hs|].
      by rewrite failed_or in Hf.
  - destruct (same_shape_lookup (index s') (index s) t b) as (d & Hd & _); [by symmetry|done|].
    rewrite <- Hs in Hb, Hn. destruct (sh_status _ _ Hsh t d Hd) as [Ht'|(Hnu & Ht')].
    + apply (Hu k t b); [done| |done]. congruence.
    + exfalso. apply Hnu. by eapply usable_back.
Qed.
Lemma shrinks_trans s1 s2 s3 : shrinks s1 s2 → shrinks s2 s3 → shrinks s1 s3.
Proof.
  intros H1 H2. destruct H2 as [Hs Hc Hst Hso Hsub Hg Hi]. split.
  - etransitivity; [apply H1|done].
  - rewrite Hc. apply H1.
  - intros p b Hp. destruct (sh_status _ _ H1 p b Hp) as [Hp2|(Hu & Hp2)]; destruct (Hst p _ Hp2) as [Hp3|(Hu' & Hp3)].
    + by left.
    + right. split; [|done]. by rewrite <- (shrinks_usable s1 s2 p H1).
    + by right.
    + right. split; [done|]. rewrite Hp3. f_equal. unfold set_status. cbn. by rewrite <- Z.lor_assoc, Z.lor_diag.
  - done.
  - intros q Hq. by apply H1, Hsub.
  - intros q Hq Hn. destruct (decide (q ∈ setBlockIndexCandidates s2)).
    + rewrite <- (shrinks_usable s1 s2 q H1). by apply Hg.
    + by apply H1.
  - done.
Qed.
Lemma shrinks_refl s : find_ok s → shrinks s s.
Proof. intros (_ & _ & H3 & H4). split; auto; done. Qed.
Lemma shrinks_erase s p b :
  find_ok s → index s !! p = Some b → nChainTx b ≠ 0 → ¬ usable_in s p → shrinks s (erase_candidate addr s p).
Proof.
  intros (H1 & H2 & H3 & H4) Hp Ht Hu. split; cbn.
  - done.
  - done.
  - intros q c Hq. by left.
  - by eapply erase_sorted.
  - intros q Hq. by eapply erase_elem in Hq as [Hq _].
  - intros q Hq Hn. destruct (decide (q = p)) as [->|]; [done|]. destruct Hn. by eapply erase_elem.
  - done.
Qed.
Lemma shrinks_mark s p : find_ok s → ¬ usable_in s p →
  shrinks s (set_index s (or_status (index s) p BLOCK_FAILED_CHILD)).
Proof.
  intros (H1 & H2 & H3 & H4) Hu. pose proof (same_shape_or (index s) p BLOCK_FAILED_CHILD) as Hs. split; cbn.
  - by symmetry.
  - done.
  - intros q b Hq. unfold or_status. destruct (decide (p = q)) as [<-|Hne].
    + right. split; [done|]. by rewrite lookup_alter_eq, Hq.
    + left. by rewrite lookup_alter_ne.
  - by rewrite Hs.
  - done.
  - done.
  - intros q Hq. destruct (H4 q Hq) as [b Hb]. symmetry in Hs.
    destruct (same_shape_lookup _ _ q b Hs Hb) as (b' & ? & _). by exists b'.
Qed.
Lemma shrinks_unlinked s u : find_ok s → shrinks s (set_unlinked s u).
Proof. intros (_ & _ & H3 & H4). split; cbn; auto; done. Qed.
Lemma shrinks_invalid s p : find_ok s → known (index s) p → shrinks s (set_best_invalid s (Some p)).
Proof. intros (_ & _ & H3 & H4) Hp. split; cbn; auto; try done. by intros q [= <-]. Qed.

(** A block that stops the walk from [p] to the active chain. *)
Definition blocks_path (s : CChainState) (p t : uint256) : Prop :=
  ∃ k d, back (index s) p k = Some t ∧ index s !! t = Some d ∧
    contains (index s) (chainActive s) t = false ∧ ¬ good d.
Lemma blocks_path_unusable s p t : blocks_path s p t → ¬ usable_in s p.
Proof. intros (k & d & ? & ? & ? & ?). by eapply blocked_unusable. Qed.

Lemma test_path_spec s (fuel : nat) : ∀ p b,
  find_ok s → index s !! p = Some b → nChainTx b ≠ 0 → nHeight b < Z.of_nat fuel →
  ∃ r, test_path s fuel (Some p) = Ok r ∧
    match r with None => usable_in s p | Some t => blocks_path s p t end.
Proof.
  induction fuel as [|fuel IH]; intros p b Hok Hp Ht Hf;
    pose proof Hok as ((Hix & Hsh) & Hc & _); pose proof (Hix p b Hp) as (H0 & Hl & _); [lia|].
  cbn [test_path]. rewrite (Contains_contains _ _ _ _ Hp). cbn [rbind].
  destruct (contains (index s) (chainActive s) p) eqn:Hin.
  { exists None. split; [done|]. by apply usable_active. }
  unfold deref. rewrite Hp. cbn [rbind]. replace (nChainTx b =? 0) with false by lia. cbn [negb orb].
  destruct (failed b || missing b) eqn:Hbad.
  { exists (Some p). split; [done|]. exists 0%nat, b. split_and!; [done..|]. intros [H1 H2]. by rewrite H1, H2 in Hbad. }
  apply orb_false_iff in Hbad as Hgood. unfold link_ok in Hl. destruct (pprev b) as [q|] eqn:Hpp.
  - destruct Hl as (c & Hq & Hh). destruct (proj2 (Hsh p b Hp) q c Hpp Hq) as [_ Htx].
    destruct (IH q c Hok Hq (Htx Ht) ltac:(lia)) as (r & Hr & Hspec). exists r. split; [done|].
    destruct r as [t|]; [|by eapply usable_cons].
    destruct Hspec as (k & d & Hb & Hrest). exists (S k), d. split; [|done]. by eapply back_prev.
  - exists None. split; [by destruct fuel|]. intros [|k] t d Hb Hd _.
    + injection Hb as <-. replace d with b by congruence. done.
    + cbn [back] in Hb. by rewrite Hp, Hpp in Hb.
Qed.

Lemma remove_chain_spec t (ff fm : bool) (fuel : nat) : ∀ s p b k,
  find_ok s → index s !! p = Some b → nChainTx b ≠ 0 → back (index s) p k = Some t → (k ≤ fuel)%nat →
  blocks_path s t t →
  ∃ s', remove_chain addr s fuel t p ff fm = Ok s' ∧ shrinks s s' ∧
    (p ≠ t → p ∉ setBlockIndexCandidates s').
Proof.
  induction fuel as [|fuel IH]; intros s p b k Hok Hp Ht Hb Hk Hblk; cbn [remove_chain]; unfold deref.
  { assert (k = 0)%nat as -> by lia. injection Hb as ->. rewrite bool_decide_eq_true_2 by done.
    exists s. split_and!; [done|by apply shrinks_refl|done]. }
  case_bool_decide as Hpt; [exists s; split_and!; [done|by apply shrinks_refl|congruence]|].
  rewrite Hp. cbn [rbind]. destruct k as [|k]; [injection Hb as ->; congruence|].
  assert (¬ usable_in s p) as Hu.
  { destruct Hblk as (j & d & Hj & Hrest). apply (blocks_path_unusable s p t). exists (S k + j)%nat, d.
    split; [|done]. by rewrite back_add, Hb. }
  cbn [back] in Hb. rewrite Hp in Hb. destruct (pprev b) as [q|] eqn:Hpp; [|done]. simpl in Hb.
  set (s1 := if ff then _ else _).
  assert (shrinks s s1) as H1.
  { unfold s1. destruct ff; [by apply shrinks_mark|]. destruct fm; [by apply shrinks_unlinked|by apply shrinks_refl]. }
  pose proof (shrinks_ok _ _ Hok H1) as Hok1. pose proof (sh_shape _ _ H1) as Hs1.
  destruct (same_shape_lookup _ _ p b Hs1 Hp) as (b1 & Hp1 & (_ & _ & _ & _ & E & _)%set_status_fields).
  assert (shrinks s1 (erase_candidate addr s1 p)) as H2.
  { apply shrinks_erase with b1; [done|done|congruence|]. by rewrite (shrinks_usable s s1 p H1). }
  pose proof (shrinks_trans _ _ _ H1 H2) as H12. pose proof (shrinks_ok _ _ Hok H12) as Hok2.
  destruct Hok as ((Hix & Hsh) & Hc & _). destruct (Hix p b Hp) as (_ & Hl & _). unfold link_ok in Hl. rewrite Hpp in Hl.
  destruct Hl as (c & Hq & Hh). destruct (proj2 (Hsh p b Hp) q c Hpp Hq) as [_ Htx].
  destruct (same_shape_lookup _ _ q c (sh_shape _ _ H12) Hq) as (c2 & Hq2 & (_ & _ & _ & _ & E2 & _)%set_status_fields).
  destruct (IH (erase_candidate addr s1 p) q c2 k) as (s' & Hr & H3 & _); [done|done|rewrite <- E2; auto| |lia| |].
  - by rewrite <- (sh_shape _ _ H12).
  - destruct Hblk as (j & d & Hj & Hd & Hn & Hg). destruct (same_shape_lookup _ _ t d (sh_shape _ _ H12) Hd) as (d' & Hd' & _).
    exists j, d'. rewrite (sh_chain _ _ H12).
    split_and!; [by rewrite <- (sh_shape _ _ H12)|done|by rewrite <- (sh_shape _ _ H12)|]. intros Hg'.
    destruct (sh_status _ _ H12 t d Hd) as [E3|(_ & E3)]; [congruence|].
    assert (d' = set_status d (nStatus d |' BLOCK_FAILED_CHILD)) as -> by congruence.
    destruct Hg' as [Hg' _]. by rewrite failed_or in Hg'.
  - exists s'. split_and!; [done|by eapply shrinks_trans|]. intros _ Hin. apply (sh_sub _ _ H3) in Hin. cbn in Hin.
    eapply erase_elem in Hin as [_ Hne]; [done|apply Hok1|apply Hok1|exact Hp1|congruence].
Qed.

Lemma FindMostWorkChain_spec (fuel : nat) : ∀ s,
  find_ok s → (length (setBlockIndexCandidates s) ≤ fuel)%nat →
  ∃ r s', FindMostWorkChain addr fuel s = Ok (r, s') ∧ shrinks s s' ∧ r = last (setBlockIndexCandidates s') ∧
    ∀ p, r = Some p → usable_in s p.
Proof.
  induction fuel as [|fuel IH]; intros s Hok Hf; cbn [FindMostWorkChain];
    (destruct (last (setBlockIndexCandidates s)) as [p|] eqn:Hlast;
      [|exists None, s; split_and!; [done|by apply shrinks_refl|done|done]]);
    pose proof (last_Some_elem_of _ _ Hlast) as Hin;
    [destruct (setBlockIndexCandidates s); [by apply elem_of_nil in Hin|cbn in Hf; lia]|].
  pose proof Hok as (Hsh & Hc & Hso & Hinv). destruct (candidates_elem _ _ _ Hso Hin) as (b & Hp & Ht).
  unfold deref at 1. rewrite Hp. cbn [rbind]. pose proof (proj1 Hsh p b Hp) as (H0 & _).
  destruct (test_path_spec s (Z.to_nat (nHeight b + 1)) p b) as (bad & -> & Hbad); [done..|lia|]. cbn [rbind].
  destruct bad as [t|]; [|exists (Some p), s; split_and!; [done|by apply shrinks_refl|done|by intros ? [= <-]]].
  pose proof Hbad as (k & d & Hb & Hd & Hn & Hg). unfold deref at 1. rewrite Hd. cbn [rbind].
  set (newer := if failed d then _ else _).
  assert (∃ v, newer = Ok v) as (v & ->).
  { unfold newer. destruct (failed d); [|by eexists]. unfold better_invalid.
    destruct (pindexBestInvalid s) as [i|] eqn:Hi; [|by eexists]. destruct (Hinv i Hi) as [e He].
    unfold deref. rewrite Hp, He. by eexists. }
  cbn [rbind]. set (s1 := if v then _ else s).
  assert (shrinks s s1) as H1.
  { unfold s1. destruct v; [|by apply shrinks_refl]. apply shrinks_invalid; [done|by exists b]. }
  assert (index s1 = index s ∧ chainActive s1 = chainActive s) as [Ei Ec] by (unfold s1; by destruct v).
  destruct (back_height_inv _ k p b t (proj1 Hsh) Hp Hb) as (Hk & _).
  destruct (remove_chain_spec t (failed d) (missing d) (Z.to_nat (nHeight b + 1)) s1 p b k) as (s2 & -> & H2 & Hne).
  { by eapply shrinks_ok. } { by rewrite Ei. } { done. } { by rewrite Ei. } { lia. }
  { exists 0%nat, d. rewrite Ei, Ec. done. }
  cbn [rbind]. pose proof (shrinks_trans _ _ _ H1 H2) as H12. pose proof (shrinks_ok _ _ Hok H12) as Hok2.
  assert (nChainTx d ≠ 0) as Htd by (by eapply (back_work _ k p b t d Hsh Hp Hb Hd)).
  destruct (same_shape_lookup _ _ t d (sh_shape _ _ H12) Hd) as (d2 & Hd2 & (_ & _ & _ & _ & E & _)%set_status_fields).
  assert (shrinks s2 (erase_candidate addr s2 t)) as H3.
  { apply shrinks_erase with d2; [done|done|congruence|]. rewrite (shrinks_usable s s2 t H12).
    apply (blocks_path_unusable s t t). by exists 0%nat, d. }
  pose proof (shrinks_trans _ _ _ H12 H3) as H13. pose proof (shrinks_ok _ _ Hok H13) as Hok3.
  assert (p ∉ setBlockIndexCandidates (erase_candidate addr s2 t)) as Hout.
  { intros Hp3. eapply erase_elem in Hp3 as [Hp2 Hpt]; [by apply Hne|apply Hok2|apply Hok2|exact Hd2|congruence]. }
  destruct (IH (erase_candidate addr s2 t)) as (r & s' & -> & H4 & Hr & Hu); [done| |].
  { pose proof Hok3 as (Hsh3 & _ & Hso3 & _).
    pose proof (shorter_without _ _ p (candidates_nodup _ _ Hsh3 Hso3) (sh_sub _ _ H13) Hin Hout). lia. }
  exists r, s'. split_and!; [done|by eapply shrinks_trans|done|]. intros q Hq.
  rewrite <- (shrinks_usable _ _ q H13). auto.
Qed.

(** ** The tip *)

Lemma Tip_at c : c ≠ [] → at_height c (Height c) = Tip c.
Proof.
  intros Hne. destruct (snoc_cases c) as [|(k & x & ->)]; [done|]. unfold at_height, Height, Tip.
  rewrite last_snoc, length_app. cbn [length].
  destruct (_ || _) eqn:Hr; [exfalso; clear Hne; apply orb_true_iff in Hr as [Hr%Z.ltb_lt|Hr%Z.geb_le]; lia|]. rewrite lookup_app_r by lia.
  replace (Z.to_nat _ - length k)%nat with 0%nat by lia. done.
Qed.
Lemma Tip_spec m c t : chain_ok m c → Tip c = Some t →
  ∃ b, m !! t = Some b ∧ nHeight b = Height c ∧ ∀ j, 0 ≤ j ≤ nHeight b → at_height c j = back m t (Z.to_nat (nHeight b - j)).
Proof.
  intros Hc Ht. assert (c ≠ []) as Hne by (by intros ->).
  rewrite <- (Tip_at c Hne) in Ht. destruct (Hc _ _ Ht) as (b & Hb & Hh & Hall). exists b. rewrite Hh. done.
Qed.
(** The blocks of the active chain are the ancestors of its tip. *)
Lemma contains_tip m c t q : index_ok m → chain_ok m c → Tip c = Some t →
  contains m c q = true ↔ ∃ k, back m t k = Some q.
Proof.
  intros Hix Hc Ht. destruct (Tip_spec m c t Hc Ht) as (b & Hb & Hh & Hall). split.
  - unfold contains. destruct (m !! q) as [d|] eqn:Hd; [|done]. intros Hq%bool_decide_eq_true.
    pose proof (at_height_range _ _ _ Hq) as Hr. unfold Height in Hh. rewrite Hall in Hq by lia. by eexists.
  - intros [k Hk]. apply (contains_back m c t k q Hix Hc); [|done]. unfold contains. rewrite Hb.
    apply bool_decide_eq_true. rewrite Hall by (pose proof (Hix t b Hb); lia). by rewrite Z.sub_diag.
Qed.
Lemma SetTip_tip m c p b : index_ok m → chain_ok m c → m !! p = Some b →
  ∃ c', SetTip m c (Some p) = Ok c' ∧ chain_ok m c' ∧ Tip c' = Some p.
Proof.
  intros Hix Hc Hp. destruct (SetTip_spec m c p b Hix Hc Hp) as (c' & Hs & Hok & Hh & Hall).
  exists c'. split_and!; [done|done|]. pose proof (Hix p b Hp) as (H0 & _).
  rewrite <- Tip_at by (intros ->; unfold Height in Hh; cbn in Hh; lia).
  rewrite Hh, Hall by lia. by rewrite Z.sub_diag.
Qed.
(** Of two ancestors the higher one is a descendant of the lower one. *)
Lemma back_between m p b i j q r : index_ok m → m !! p = Some b → back m p i = Some q → back m p j = Some r →
  (i ≤ j)%nat → back m q (j - i) = Some r.
Proof.
  intros Hix Hp Hq Hr Hij. replace j with (i + (j - i))%nat in Hr by lia. by rewrite back_add, Hq in Hr.
Qed.
Lemma back_root m p b : index_ok m → m !! p = Some b →
  ∃ k r d, back m p k = Some r ∧ m !! r = Some d ∧ pprev d = None ∧ nHeight d = 0.
Proof.
  intros Hix Hp. pose proof (Hix p b Hp) as (H0 & _).
  destruct (back_height m (Z.to_nat (nHeight b)) p b) as (r & d & Hr & Hd & Hh); [done..|lia|].
  exists (Z.to_nat (nHeight b)), r, d. split_and!; [done..| |lia].
  destruct (Hix r d Hd) as (_ & Hl & _). unfold link_ok in Hl. destruct (pprev d) as [x|]; [|done].
  destruct Hl as (e & He & ?). pose proof (Hix x e He). lia.
Qed.
End Order.

(** ** The invariant *)

Section Activation.
Context (addr : uint256 → Z) `{!Inj (=) (=) addr}.
Context `{LG : Ledger L} (block_valid : uint256 → Prop) `{!LedgerLaws L block_valid} (hashGenesisBlock : uint256).
Abbreviation less := (CBlockIndexWorkComparator addr).
Abbreviation usable_in s := (usable (index s) (chainActive s)).
Abbreviation on_chain s := (contains (index s) (chainActive s)).

Definition solid (m : BlockMap) (p : uint256) : Prop := ∃ b, m !! p = Some b ∧ good b ∧ block_valid p.
(** There is a tip, every tree of the index starts in the active chain, and the
    active chain is made of valid blocks with their data. *)
Definition anchored (s : CChainState) : Prop :=
  (∃ t, Tip (chainActive s) = Some t) ∧
  (∀ p b, index s !! p = Some b → pprev b = None → on_chain s p = true) ∧
  (∀ q, on_chain s q = true → solid (index s) q).
(** [T] is a block that was active; every usable block as good as [T] is a
    candidate. *)
Definition complete_from (s : CChainState) (T : uint256) : Prop :=
  (∃ b, index s !! T = Some b ∧ nChainTx b ≠ 0) ∧
  (∀ k q, back (index s) T k = Some q → solid (index s) q) ∧
  (∀ q b, index s !! q = Some b → nChainTx b ≠ 0 → usable_in s q → less (index s) q T = false →
     q ∈ setBlockIndexCandidates s).
Definition state_ok (s : CChainState) : Prop :=
  find_ok addr s ∧ anchored s ∧ ∃ T, complete_from s T.

Lemma solid_usable s q : (∀ k t, back (index s) q k = Some t → solid (index s) t) → usable_in s q.
Proof. intros Hall k t b Hb Ht _. destruct (Hall k t Hb) as (b' & Hb' & Hg & _). congruence. Qed.
Lemma threshold_candidate s T : shape_ok (index s) → complete_from s T → T ∈ setBlockIndexCandidates s.
Proof.
  intros Hsh ((b & Hb & Ht) & Hs & Hc). apply (Hc T b); [done|done|by apply solid_usable|by apply less_irrefl].
Qed.

(** What the end of the loop gives: when no candidate beats the tip, no usable
    block of the index does. *)
Lemma tip_is_best s t :
  state_ok s → Tip (chainActive s) = Some t → last (setBlockIndexCandidates s) = Some t →
  ∀ q b, index s !! q = Some b → nChainTx b ≠ 0 → usable_in s q → less (index s) t q = false.
Proof.
  intros ((Hsh & Hc & Hso & _) & _ & T & HT) Ht Hlast q b Hq Htx Hu.
  pose proof (threshold_candidate s T Hsh HT) as HTin. destruct HT as ((d & Hd & _) & _ & Hcom).
  pose proof (candidates_last addr _ _ _ Hsh Hso Hlast) as Hbest.
  destruct (Tip_spec _ _ _ Hc Ht) as (e & He & _).
  destruct (less (index s) q T) eqn:HqT; [|by apply Hbest, (Hcom q b)].
  destruct (less (index s) t q) eqn:Htq; [|done].
  assert (less (index s) t T = true) by (by apply (less_trans addr _ t q T); [done|eexists|eexists|eexists|done|done]).
  by rewrite Hbest in *.
Qed.

(** ** Changes that keep the invariant *)

Lemma complete_mono s s' T T' :
  shape_ok (index s) → complete_from s T → same_shape (index s) (index s') →
  (∀ q, usable_in s' q → usable_in s q) →
  T' = T ∨ less (index s) T T' = true →
  (∃ b, index s' !! T' = Some b ∧ nChainTx b ≠ 0) →
  (∀ k q, back (index s') T' k = Some q → solid (index s') q) →
  (∀ q, q ∈ setBlockIndexCandidates s → usable_in s' q → less (index s') q T' = false → q ∈ setBlockIndexCandidates s') →
  complete_from s' T'.
Proof.
  intros Hsh ((d & Hd & Htd) & Hs & Hcom) Hsame Hu HT (e & He & Hte) Hsol Hcand. split_and!; [by exists e|done|].
  intros q b' Hq Htx Huq Hl. apply Hcand; [|done|done].
  destruct (same_shape_lookup _ _ q b' (symmetry Hsame) Hq) as (b & Hb & (_ & _ & _ & _ & E & _)%set_status_fields).
  destruct (same_shape_lookup _ _ T' e (symmetry Hsame) He) as (e' & He' & _).
  apply (Hcom q b); [done|congruence|by apply Hu|]. rewrite <- Hsame in Hl. destruct HT as [->|HT]; [done|].
  destruct (less (index s) q T) eqn:HqT; [|done]. rewrite <- Hl. symmetry.
  apply (less_trans addr _ q T T'); [done|by eexists|by eexists|by eexists|done|done].
Qed.

Lemma state_ok_shrinks s s' : state_ok s → shrinks addr s s' → state_ok s'.
Proof.
  intros (Hok & (Htip & Hroot & Hact) & T & HT) Hsh. pose proof (sh_shape _ _ _ Hsh) as Hs. pose proof Hok as (Hshape & Hc & _).
  assert (∀ q, usable_in s q → solid (index s) q → solid (index s') q) as Hkeep.
  { intros q Hu (b & Hb & Hg & Hv). destruct (sh_status _ _ _ Hsh q b Hb) as [Hb'|[Hn _]]; [by exists b|done]. }
  split; [by eapply shrinks_ok|]. split.
  - unfold anchored. rewrite (sh_chain _ _ _ Hsh). split_and!; [done| |].
    + intros p b' Hp Hpp. destruct (same_shape_lookup _ _ p b' (symmetry Hs) Hp) as (b & Hb & (E & _)%set_status_fields).
      rewrite <- Hs. apply (Hroot p b); [done|congruence].
    + intros q Hq. rewrite <- Hs in Hq. apply Hkeep; [|by apply Hact]. by apply usable_active; [apply Hshape| |].
  - exists T. pose proof HT as ((b & Hb & Htx) & Hsol & _). assert (usable_in s T) as HuT by (by apply solid_usable).
    eapply complete_mono; [done|exact HT|done| |by left| | |].
    + intros q. by rewrite (shrinks_usable addr s s' q Hsh).
    + destruct (same_shape_lookup _ _ T b Hs Hb) as (b' & Hb' & (_ & _ & _ & _ & E & _)%set_status_fields).
      exists b'. split; [done|congruence].
    + intros k q Hq. rewrite <- Hs in Hq. apply Hkeep; [by eapply usable_back|by eapply Hsol].
    + intros q Hq Hu _. rewrite (shrinks_usable addr s s' q Hsh) in Hu.
      destruct (decide (q ∈ setBlockIndexCandidates s')); [done|]. by destruct (sh_gone _ _ _ Hsh q).
Qed.

(** The blocks that have not failed. *)
Definition unfailed (m : BlockMap) : gset uint256 := filter (λ p, failed <$> m !! p = Some false) (dom m).
Lemma elem_of_unfailed m p : p ∈ unfailed m ↔ ∃ b, m !! p = Some b ∧ failed b = false.
Proof.
  unfold unfailed. rewrite elem_of_filter, elem_of_dom, fmap_Some. split.
  - intros [(b & Hb & E) _]. by exists b.
  - intros (b & Hb & E). split; [by exists b|by exists b].
Qed.
Lemma unfailed_shrinks s s' : shrinks addr s s' → unfailed (index s') ⊆ unfailed (index s).
Proof.
  intros Hsh p. rewrite !elem_of_unfailed. intros (b' & Hb' & Hf).
  destruct (same_shape_lookup _ _ p b' (symmetry (sh_shape _ _ _ Hsh)) Hb') as (b & Hb & _). exists b. split; [done|].
  destruct (sh_status _ _ _ Hsh p b Hb) as [E|[_ E]]; [congruence|].
  assert (b' = set_status b (nStatus b |' BLOCK_FAILED_CHILD)) as -> by congruence. by rewrite failed_or in Hf.
Qed.

(** Moving the tip to another block of the index: the usable blocks are those
    that were usable, if the blocks that leave the chain are only reached
    through it, or the new ones are good. *)
Lemma usable_retip m c c' t t' q : index_ok m → chain_ok m c → chain_ok m c' → Tip c = Some t → Tip c' = Some t' →
  (∀ x b, m !! x = Some b → contains m c' x = true → contains m c x = false → good b) →
  usable m c' q → usable m c q.
Proof.
  intros Hix Hc Hc' Ht Ht' Hnew Hu k x b Hb Hx Hn. destruct (contains m c' x) eqn:Hc2; [|by eapply Hu].
  by eapply Hnew.
Qed.

Lemma anchored_retip s c' t t' k :
  index_ok (index s) → chain_ok (index s) (chainActive s) → chain_ok (index s) c' →
  anchored s → Tip (chainActive s) = Some t → Tip c' = Some t' → back (index s) t k = Some t' →
  anchored (set_chain s c').
Proof.
  intros Hix Hc Hc' (_ & Hroot & Hact) Ht Ht' Hk. split_and!; cbn; [by exists t'| |].
  - intros p b Hp Hpp. specialize (Hroot p b Hp Hpp). rewrite (contains_tip _ _ _ _ Hix Hc Ht) in Hroot. destruct Hroot as [j Hj].
    apply (contains_tip _ _ _ _ Hix Hc' Ht'). destruct (Tip_spec _ _ _ Hc Ht) as (d & Hd & _).
    assert (k ≤ j)%nat as Hkj.
    { destruct (back_height_inv _ j t d p Hix Hd Hj) as (_ & b' & Hb' & Hhp). assert (b' = b) as -> by congruence.
      destruct (back_height_inv _ k t d t' Hix Hd Hk) as (Hkd & _). destruct (Hix p b Hp) as (_ & Hl & _).
      unfold link_ok in Hl. rewrite Hpp in Hl. lia. }
    exists (j - k)%nat. by eapply back_between.
  - intros q Hq. apply Hact. rewrite (contains_tip _ _ _ _ Hix Hc' Ht') in Hq. destruct Hq as [j Hj].
    apply (contains_tip _ _ _ _ Hix Hc Ht). exists (k + j)%nat. by rewrite back_add, Hk.
Qed.

Lemma state_ok_retreat s c' t t' k :
  state_ok s → chain_ok (index s) c' → Tip (chainActive s) = Some t → Tip c' = Some t' → back (index s) t k = Some t' →
  state_ok (set_chain s c').
Proof.
  intros ((Hsh & Hc & Hso & Hinv) & Han & T & HT) Hc' Ht Ht' Hk. pose proof (proj1 Hsh) as Hix. split_and!.
  - by split_and!.
  - by eapply anchored_retip.
  - exists T. pose proof HT as (Hb & Hsol & _). eapply complete_mono; [exact Hsh|exact HT|done| |by left|done|done|done].
    intros q. cbn. apply (usable_retip _ _ _ t t'); [done..|]. intros x b _ Hx Hn.
    rewrite (contains_tip _ _ _ _ Hix Hc' Ht') in Hx. destruct Hx as [j Hj].
    assert (contains (index s) (chainActive s) x = true) by
      (apply (contains_tip _ _ _ _ Hix Hc Ht); exists (k + j)%nat; by rewrite back_add, Hk). congruence.
Qed.

Lemma disconnect_to_spec f (fuel : nat) : ∀ s l t k,
  index_ok (index s) → chain_ok (index s) (chainActive s) → Tip (chainActive s) = Some t →
  back (index s) t k = Some f → (k ≤ fuel)%nat →
  ∃ r, disconnect_to fuel s l (Some f) = Ok r ∧
    ∀ s' l', r = Some (s', l') → ∃ c', s' = set_chain s c' ∧ chain_ok (index s) c' ∧ Tip c' = Some f.
Proof.
  induction fuel as [|fuel IH]; intros s l t k Hix Hc Ht Hb Hk; cbn [disconnect_to]; rewrite Ht.
  { assert (k = 0)%nat as -> by lia. injection Hb as ->. rewrite bool_decide_eq_true_2 by done. eexists. split; [done|].
    intros s' l' [= <- <-]. exists (chainActive s). by destruct s. }
  case_bool_decide as Heq.
  { injection Heq as ->. eexists. split; [done|]. intros s' l' [= <- <-]. exists (chainActive s). by destruct s. }
  destruct k as [|k]; [injection Hb as ->; congruence|].
  destruct (Tip_spec _ _ _ Hc Ht) as (b & Hlt & _). cbn [back] in Hb. rewrite Hlt in Hb.
  unfold DisconnectTip. rewrite Ht. destruct (disconnect_block _ l t) as [l1|]; [|by eexists].
  unfold deref. rewrite Hlt. cbn [rbind]. destruct (pprev b) as [q|] eqn:Hpp; [|done]. simpl in Hb.
  destruct (Hix t b Hlt) as (_ & Hl & _). unfold link_ok in Hl. rewrite Hpp in Hl. destruct Hl as (d & Hq & _).
  destruct (SetTip_tip _ (chainActive s) q d Hix Hc Hq) as (c1 & -> & Hc1 & Ht1). cbn [rbind].
  destruct (IH (set_chain s c1) l1 q k) as (r & Hr & Hspec); [done..|lia|]. exists r. split; [done|].
  intros s' l' Hr'. destruct (Hspec s' l' Hr') as (c' & -> & Hc' & Ht'). by exists c'.
Qed.

(** ** Paths to connect *)

(** [l] goes up from [f], each block on top of the one before. *)
Fixpoint path (m : BlockMap) (f : uint256) (l : list uint256) : Prop :=
  match l with
  | [] => True
  | x :: l => (∃ b, m !! x = Some b ∧ pprev b = Some f) ∧ path m x l
  end.
Definition path_end (f : uint256) (l : list uint256) : uint256 := default f (last l).
Lemma path_end_cons f x l : path_end f (x :: l) = path_end x l.
Proof. unfold path_end. destruct l as [|y l]; [done|]. rewrite last_cons_cons. by destruct (last (y :: l)) eqn:E; [|apply last_None in E]. Qed.
Lemma path_snoc m f l p b : path m f l → m !! p = Some b → pprev b = Some (path_end f l) → path m f (l ++ [p]).
Proof.
  revert f. induction l as [|x l IH]; intros f; cbn [path app].
  - intros _ Hp Hpp. split; [by exists b|done].
  - intros [Hx Hl] Hp Hpp. split; [done|]. apply IH; [done..|]. by rewrite <- (path_end_cons f).
Qed.
Lemma path_proper m m' l : ∀ f, same_shape m m' → path m f l → path m' f l.
Proof.
  induction l as [|x l IH]; intros f Hs; cbn [path]; [done|]. intros [(b & Hb & Hpp) Hl]. split; [|by apply IH].
  destruct (same_shape_lookup _ _ x b Hs Hb) as (b' & Hb' & (E & _)%set_status_fields). exists b'. split; [done|congruence].
Qed.
Lemma path_back m l : ∀ f, path m f l → back m (path_end f l) (length l) = Some f.
Proof.
  induction l as [|x l IH]; intros f; cbn [path length]; [done|]. intros [(b & Hb & Hpp) Hl].
  rewrite path_end_cons. replace (S (length l)) with (length l + 1)%nat by lia. rewrite back_add, (IH x Hl). cbn. by rewrite Hb, Hpp.
Qed.

Lemma to_connect_spec m (fuel : nat) : ∀ p b f h,
  index_ok m → m !! p = Some b → back m p (Z.to_nat (nHeight b - h)) = Some f → 0 ≤ h ≤ nHeight b →
  nHeight b - h ≤ Z.of_nat fuel →
  ∃ l, to_connect m fuel (Some p) h = Ok l ∧ path m f (rev l) ∧ path_end f (rev l) = p.
Proof.
  induction fuel as [|fuel IH]; intros p b f h Hix Hp Hb Hh Hf; cbn [to_connect]; unfold deref; rewrite Hp; cbn [rbind].
  { replace (nHeight b =? h) with true by lia. exists []. replace (Z.to_nat (nHeight b - h)) with 0%nat in Hb by lia.
    injection Hb as ->. done. }
  destruct (Z.eqb_spec (nHeight b) h) as [E|E].
  { exists []. replace (Z.to_nat (nHeight b - h)) with 0%nat in Hb by lia. injection Hb as ->. done. }
  replace (Z.to_nat (nHeight b - h)) with (S (Z.to_nat (nHeight b - 1 - h))) in Hb by lia. cbn [back] in Hb. rewrite Hp in Hb.
  destruct (Hix p b Hp) as (_ & Hl & _). unfold link_ok in Hl. destruct (pprev b) as [q|] eqn:Hpp; [|done].
  destruct Hl as (c & Hq & Hhc). simpl in Hb. replace (nHeight b - 1) with (nHeight c) in Hb by lia.
  destruct (IH q c f h) as (l & -> & Hpath & Hend); [done..|lia|lia|]. cbn [rbind]. exists (p :: l). split; [done|].
  cbn [rev]. split.
  - eapply path_snoc; [done|exact Hp|]. by rewrite Hend.
  - unfold path_end. by rewrite last_snoc.
Qed.

(** ** A rejected block *)

Lemma lookup_or_status m p flag q b : or_status m p flag !! q = Some b →
  ∃ d, m !! q = Some d ∧ (q ≠ p ∧ b = d ∨ q = p ∧ b = set_status d (nStatus d |' flag)).
Proof.
  unfold or_status. destruct (decide (p = q)) as [<-|Hne].
  - rewrite lookup_alter_eq. intros (d & Hd & ->)%fmap_Some. exists d. tauto.
  - rewrite lookup_alter_ne by done. intros Hq. exists b. split; [done|left; by split].
Qed.
Lemma or_status_ne m p flag q : q ≠ p → or_status m p flag !! q = m !! q.
Proof. intros. unfold or_status. by rewrite lookup_alter_ne. Qed.

Lemma state_ok_invalid s p : state_ok s → known (index s) p → state_ok (set_best_invalid s (Some p)).
Proof.
  intros (Hok & Han & T & HT) Hp. apply (state_ok_shrinks s); [|by apply shrinks_invalid].
  split_and!; [done|done|by exists T].
Qed.
Lemma better_invalid_spec s p : find_ok addr s → known (index s) p → ∃ v, better_invalid s p = Ok v.
Proof.
  intros (_ & _ & _ & Hinv) [b Hp]. unfold better_invalid. destruct (pindexBestInvalid s) as [i|] eqn:Hi; [|by eexists].
  destruct (Hinv i Hi) as [e He]. unfold deref. rewrite Hp, He. by eexists.
Qed.
Lemma InvalidChainFound_spec s p : state_ok s → known (index s) p →
  ∃ s', InvalidChainFound s p = Ok s' ∧ state_ok s' ∧ index s' = index s.
Proof.
  intros Hok Hp. unfold InvalidChainFound. destruct (better_invalid_spec s p (proj1 Hok) Hp) as [v ->]. cbn [rbind].
  pose proof Hok as (_ & ((t & ->) & _) & _). eexists. split; [done|]. destruct v; [|done].
  split; [by apply state_ok_invalid|done].
Qed.

Lemma InvalidBlockFound_spec s x b :
  state_ok s → index s !! x = Some b → nChainTx b ≠ 0 → failed b = false → ¬ block_valid x →
  ∃ s', InvalidBlockFound addr s x false = Ok s' ∧ state_ok s' ∧ same_shape (index s) (index s') ∧
    unfailed (index s') ⊂ unfailed (index s).
Proof.
  intros Hok Hx Htx Hfail Hv. unfold InvalidBlockFound. pose proof Hok as ((Hsh & Hc & Hso & Hinv) & (Htip & Hroot & Hact) & T & HT).
  set (m' := or_status (index s) x BLOCK_FAILED_VALID).
  set (s1 := erase_candidate addr (set_failed (set_index s m') ({[x]} ∪ m_failed_blocks s)) x).
  pose proof (same_shape_or (index s) x BLOCK_FAILED_VALID) as Hs. symmetry in Hs. fold m' in Hs.
  assert (Hx' : m' !! x = Some (set_status b (nStatus b |' BLOCK_FAILED_VALID))).
  { unfold m', or_status. by rewrite lookup_alter_eq, Hx. }
  assert (Hxoff : on_chain s x = false).
  { destruct (on_chain s x) eqn:E; [|done]. destruct (Hact x E) as (? & _ & _ & ?). done. }
  assert (Hkeep : ∀ q, solid (index s) q → solid m' q).
  { intros q (d & Hd & Hg & Hvq). exists d. split; [|done]. unfold m'. by rewrite or_status_ne by congruence. }
  assert (Hxbad : ¬ usable m' (chainActive s) x).
  { eapply (blocked_unusable _ _ x 0 x); [done|exact Hx'|by rewrite <- Hs|]. intros [Hg _]. by rewrite failed_or in Hg. }
  assert (Hshape' : shape_ok m') by (by rewrite <- Hs).
  assert (state_ok s1) as Hok1.
  { split_and!.
    - unfold find_ok, s1. cbn. split_and!; [done|by rewrite <- Hs| |].
      + eapply erase_sorted; [done|done|by rewrite <- Hs|exact Hx'|done].
      + intros q Hq. destruct (Hinv q Hq) as [d Hd]. destruct (same_shape_lookup _ _ q d Hs Hd) as (d' & ? & _). by exists d'.
    - split_and!; cbn; [done| |].
      + intros p d' Hp Hpp. destruct (same_shape_lookup _ _ p d' (symmetry Hs) Hp) as (d & Hd & (E & _)%set_status_fields).
        rewrite <- Hs. apply (Hroot p d); [done|congruence].
      + intros q Hq. rewrite <- Hs in Hq. by apply Hkeep, Hact.
    - exists T. pose proof HT as ((d & Hd & Htd) & Hsol & _). eapply complete_mono; [exact Hsh|exact HT|exact Hs| |by left| | |]; cbn.
      + intros q Hu k t e Hb Ht Hn. destruct (decide (t = x)) as [->|Hne].
        { destruct (Hu k x _ (eq_trans (eq_sym (back_proper _ _ Hs q q eq_refl k k eq_refl)) Hb) Hx') as [Hg _];
            [by rewrite <- Hs|]. by rewrite failed_or in Hg. }
        apply (Hu k t e); [by rewrite <- Hs|unfold m'; by rewrite or_status_ne|by rewrite <- Hs].
      + destruct (same_shape_lookup _ _ T d Hs Hd) as (d' & Hd' & (_ & _ & _ & _ & E & _)%set_status_fields).
        exists d'. split; [done|congruence].
      + intros k q Hq. rewrite <- Hs in Hq. by eapply Hkeep, Hsol.
      + intros q Hq Hu _. eapply erase_elem; [done|done|by rewrite <- Hs|exact Hx'|done|]. split; [done|]. by intros ->. }
  destruct (InvalidChainFound_spec s1 x) as (s' & Hr & Hok' & Ei); [done|by eexists|].
  exists s'. split_and!; [done|done|by rewrite Ei|]. rewrite Ei. change (index s1) with m'. split.
  - intros q. rewrite !elem_of_unfailed. intros (d' & Hd' & Hf). unfold m' in Hd'.
    apply lookup_or_status in Hd' as (d & Hd & [[_ ->]|[-> ->]]); [by exists d|]. by rewrite failed_or in Hf.
  - intros Hsub. assert (x ∈ unfailed m') as Hin by (apply Hsub, elem_of_unfailed; by exists b).
    apply elem_of_unfailed in Hin as (d & Hd & Hf). rewrite Hx' in Hd. injection Hd as <-. by rewrite failed_or in Hf.
Qed.

(** ** A connected block *)

Lemma mark_connected_spec b :
  set_status (mark_connected b) 0 = set_status b 0 ∧ failed (mark_connected b) = failed b ∧ missing (mark_connected b) = missing b.
Proof.
  assert (∀ x mask, mask &' u32 (Z.lnot BLOCK_VALID_MASK) = mask → BLOCK_VALID_SCRIPTS &' mask = 0 →
    ((x &' u32 (Z.lnot BLOCK_VALID_MASK)) |' BLOCK_VALID_SCRIPTS) &' mask = x &' mask) as Hmask.
  { intros x mask H1 H2. rewrite Z.land_lor_distr_l, H2, Z.lor_0_r, <- Z.land_assoc. f_equal.
    by rewrite Z.land_comm. }
  assert (∀ mask, BLOCK_HAVE_UNDO &' mask = 0 → (nStatus b |' BLOCK_HAVE_UNDO) &' mask = nStatus b &' mask) as Hundo.
  { intros mask H1. by rewrite Z.land_lor_distr_l, H1, Z.lor_0_r. }
  unfold mark_connected, RaiseValidity, failed, missing. set (b' := set_status b _).
  assert (set_status b' 0 = set_status b 0 ∧ nStatus b' &' BLOCK_FAILED_MASK = nStatus b &' BLOCK_FAILED_MASK ∧
    nStatus b' &' BLOCK_HAVE_DATA = nStatus b &' BLOCK_HAVE_DATA) as (E1 & E2 & E3) by (by split_and!; [|apply Hundo..]).
  repeat case_match; cbn [snd]; rewrite ?E2, ?E3; try done. cbn [nStatus set_status].
  rewrite !Hmask, E2, E3 by done. done.
Qed.

(** Marks that leave failures and data alone. *)
Lemma state_ok_regood s m' : state_ok s → same_shape (index s) m' →
  (∀ p b b', index s !! p = Some b → m' !! p = Some b' → failed b' = failed b ∧ missing b' = missing b) →
  state_ok (set_index s m') ∧ (∀ q, usable_in (set_index s m') q ↔ usable_in s q) ∧ unfailed m' = unfailed (index s).
Proof.
  intros ((Hsh & Hc & Hso & Hinv) & (Htip & Hroot & Hact) & T & HT) Hs Hgood.
  assert (∀ p b, index s !! p = Some b → ∃ b', m' !! p = Some b' ∧ failed b' = failed b ∧ missing b' = missing b) as Hfwd.
  { intros p b Hb. destruct (same_shape_lookup _ _ p b Hs Hb) as (b' & Hb' & _). exists b'. split; [done|by eapply Hgood]. }
  assert (∀ p b', m' !! p = Some b' → ∃ b, index s !! p = Some b ∧ failed b' = failed b ∧ missing b' = missing b) as Hbwd.
  { intros p b' Hb'. destruct (same_shape_lookup _ _ p b' (symmetry Hs) Hb') as (b & Hb & _). exists b. split; [done|by eapply Hgood]. }
  assert (∀ q, usable m' (chainActive s) q ↔ usable_in s q) as Husable.
  { intros q. split; intros Hu k t b Hb Ht Hn.
    - destruct (Hfwd t b Ht) as (b' & Hb' & E1 & E2). unfold good. rewrite <- E1, <- E2.
      apply (Hu k t b'); [by rewrite <- Hs|done|by rewrite <- Hs].
    - destruct (Hbwd t b Ht) as (b' & Hb' & E1 & E2). unfold good. rewrite E1, E2.
      apply (Hu k t b'); [by rewrite Hs|done|by rewrite Hs]. }
  assert (∀ q, solid (index s) q → solid m' q) as Hkeep.
  { intros q (b & Hb & [Hg1 Hg2] & Hv). destruct (Hfwd q b Hb) as (b' & Hb' & E1 & E2). exists b'.
    unfold good. rewrite E1, E2. done. }
  split_and!.
  - split_and!.
    + split_and!; cbn; [by rewrite <- Hs|by rewrite <- Hs|by rewrite <- Hs|].
      intros q Hq. destruct (Hinv q Hq) as [d Hd]. destruct (Hfwd q d Hd) as (d' & ? & _). by exists d'.
    + split_and!; cbn; [done| |].
      * intros p d' Hp Hpp. destruct (same_shape_lookup _ _ p d' (symmetry Hs) Hp) as (d & Hd & (E & _)%set_status_fields).
        rewrite <- Hs. apply (Hroot p d); [done|congruence].
      * intros q Hq. rewrite <- Hs in Hq. by apply Hkeep, Hact.
    + exists T. pose proof HT as ((d & Hd & Htd) & Hsol & _).
      eapply complete_mono; [exact Hsh|exact HT|exact Hs| |by left| | |done]; cbn.
      * intros q. by rewrite Husable.
      * destruct (same_shape_lookup _ _ T d Hs Hd) as (d' & Hd' & (_ & _ & _ & _ & E & _)%set_status_fields).
        exists d'. split; [done|congruence].
      * intros k q Hq. rewrite <- Hs in Hq. by eapply Hkeep, Hsol.
  - done.
  - apply set_eq. intros q. rewrite !elem_of_unfailed. split.
    + intros (b' & Hb' & Hf). destruct (Hbwd q b' Hb') as (b & Hb & E & _). exists b. split; [done|congruence].
    + intros (b & Hb & Hf). destruct (Hfwd q b Hb) as (b' & Hb' & E & _). exists b'. split; [done|congruence].
Qed.

(** The tip moves to a child. *)
Lemma state_ok_advance s c' f x b :
  state_ok s → Tip (chainActive s) = Some f → index s !! x = Some b → pprev b = Some f → good b → block_valid x →
  chain_ok (index s) c' → Tip c' = Some x →
  state_ok (set_chain s c') ∧ (∀ q, usable_in s q → usable_in (set_chain s c') q).
Proof.
  intros ((Hsh & Hc & Hso & Hinv) & (Htip & Hroot & Hact) & T & HT) Hf Hx Hpp Hg Hv Hc' Ht'. pose proof (proj1 Hsh) as Hix.
  assert (∀ q, contains (index s) c' q = true ↔ q = x ∨ on_chain s q = true) as Hmem.
  { intros q. rewrite (contains_tip _ _ _ _ Hix Hc' Ht'), (contains_tip _ _ _ _ Hix Hc Hf). split.
    - intros [[|k] Hk]; [left; by injection Hk|right]. cbn [back] in Hk. rewrite Hx, Hpp in Hk. by exists k.
    - intros [->|[k Hk]]; [by exists 0%nat|]. exists (S k). by eapply back_prev. }
  split_and!.
  - split_and!.
    + by split_and!.
    + split_and!; cbn; [by exists x| |].
      * intros p d Hp Hd. apply Hmem. right. by eapply Hroot.
      * intros q [->|Hq]%Hmem; [by exists b|by apply Hact].
    + exists T. pose proof HT as (Hb & Hsol & _). eapply complete_mono; [exact Hsh|exact HT|done| |by left|done|done|done].
      intros q. cbn. apply (usable_retip _ _ _ f x); [done..|]. intros y d Hy [->|Hq]%Hmem Hn; congruence.
  - intros q Hu k t d Hb Ht Hn. apply (Hu k t d); [done..|]. destruct (on_chain s t) eqn:E; [|done].
    assert (contains (index s) c' t = true) by (apply Hmem; by right). cbn in Hn. congruence.
Qed.

(** Dropping the candidates worse than the tip. *)
Lemma drop_worse_elem m tip l q : shape_ok m → sorted_candidates addr m l → known m tip →
  q ∈ drop_worse (less m) tip l ↔ q ∈ l ∧ less m q tip = false.
Proof.
  intros Hsh Hso Htip. induction l as [|x l IH]; cbn [drop_worse]; [set_solver|].
  pose proof Hso as (Hx & Hmin & Hl)%ascending_cons. rewrite Forall_forall in Hmin.
  destruct (less m x tip) eqn:Hxt.
  - rewrite IH, elem_of_cons by done. split; [tauto|]. intros [[->|?] ?]; [congruence|done].
  - split; [|tauto]. intros Hq. split; [done|]. apply elem_of_cons in Hq as [->|Hq]; [done|].
    destruct (less m q tip) eqn:E; [|done]. rewrite <- Hxt. symmetry.
    destruct Hx as (? & ? & _). destruct (candidates_elem addr _ _ _ Hl Hq) as (? & ? & _).
    apply (less_trans addr _ x q tip); [done|by eexists|by eexists|done|by apply Hmin|done].
Qed.
Lemma drop_worse_suffix lt tip l : ∃ k, l = k ++ drop_worse lt tip l.
Proof.
  induction l as [|x l [k IH]]; cbn [drop_worse]; [by exists []|].
  destruct (lt x tip); [|by exists []]. exists (x :: k). cbn. by rewrite <- IH.
Qed.
Lemma drop_worse_sorted m tip l : sorted_candidates addr m l → sorted_candidates addr m (drop_worse (less m) tip l).
Proof.
  intros Hso. induction l as [|x l IH]; cbn [drop_worse]; [done|]. destruct (less m x tip); [|done].
  apply IH. by apply ascending_cons in Hso as (_ & _ & ?).
Qed.

Lemma PruneBlockIndexCandidates_spec s x p b k :
  state_ok s → Tip (chainActive s) = Some x → last (setBlockIndexCandidates s) = Some p →
  index s !! p = Some b → back (index s) p k = Some x → nChainTx b ≠ 0 →
  ∃ l, PruneBlockIndexCandidates addr s = Ok (set_candidates s l) ∧ state_ok (set_candidates s l) ∧ last l = Some p.
Proof.
  intros ((Hsh & Hc & Hso & Hinv) & Han & T & HT) Hx Hlast Hp Hb Htx. unfold PruneBlockIndexCandidates. rewrite Hx.
  destruct (Tip_spec _ _ _ Hc Hx) as (d & Hd & _).
  set (l := drop_worse _ _ _). assert (p ∈ l) as Hin.
  { apply drop_worse_elem; [done|done|by eexists|]. split; [by apply last_Some_elem_of|].
    destruct k as [|k]; [injection Hb as ->; by apply less_irrefl|].
    pose proof (less_back addr _ _ _ _ _ Hsh Hp Hb) as Hl. destruct (less (index s) p x) eqn:E; [|done].
    rewrite <- (less_irrefl addr (index s) p Hsh). symmetry. by apply (less_trans addr _ p x p); [done|eexists|eexists|eexists|done|done]. }
  assert (last l = Some p) as Hlast'.
  { destruct (drop_worse_suffix (less (index s)) x (setBlockIndexCandidates s)) as [j Hj]. fold l in Hj.
    rewrite Hj in Hlast. rewrite last_app in Hlast. by destruct (last l) eqn:E; [|apply last_None in E as ->; by apply elem_of_nil in Hin]. }
  exists l. split_and!; [by destruct l; [apply elem_of_nil in Hin|]| |done]. split_and!; [|done|].
  - split_and!; [done|done|by apply drop_worse_sorted|done].
  - pose proof HT as ((e & He & Hte) & Hsol & _). destruct (less (index s) T x) eqn:HTx.
    + exists x. eapply complete_mono; [exact Hsh|exact HT|done|done|by right| | |]; cbn.
      * exists d. split; [done|]. by eapply (back_work _ k p b x d Hsh Hp Hb Hd).
      * intros j q Hq. apply Han. apply (contains_tip _ _ _ _ (proj1 Hsh) Hc Hx). by exists j.
      * intros q Hq _ Hl. by apply drop_worse_elem; [| |eexists|].
    + exists T. eapply complete_mono; [exact Hsh|exact HT|done|done|by left|by exists e|done|]; cbn.
      intros q Hq _ Hl. apply drop_worse_elem; [done|done|by eexists|]. split; [done|].
      destruct (less (index s) q x) eqn:E; [|done]. rewrite <- HTx. symmetry.
      destruct (candidates_elem addr _ _ _ Hso Hq) as (? & ? & _).
      apply (less_weak addr _ q T x); [done|by eexists|by eexists|by eexists|done|done].
Qed.

(** ** Towards the best candidate *)

(** [p] is the last candidate and usable. *)
Definition target (s : CChainState) (p : uint256) : Prop :=
  last (setBlockIndexCandidates s) = Some p ∧ usable_in s p.
Lemma target_known s p : state_ok s → target s p → ∃ b, index s !! p = Some b ∧ nChainTx b ≠ 0.
Proof. intros ((_ & _ & Hso & _) & _) [Hl _]. by apply (candidates_elem addr _ _ _ Hso), last_Some_elem_of. Qed.

Lemma state_ok_tip s : state_ok s → ∃ t b, Tip (chainActive s) = Some t ∧ index s !! t = Some b.
Proof. intros ((_ & Hc & _) & ((t & Ht) & _) & _). destruct (Tip_spec _ _ _ Hc Ht) as (b & Hb & _). by exists t, b. Qed.

(** Connecting the child [x] of the tip on the way to [p]. *)
Lemma ConnectTip_spec s l f x b p k :
  state_ok s → target s p → Tip (chainActive s) = Some f → index s !! x = Some b → pprev b = Some f →
  back (index s) p k = Some x →
  ∃ r, ConnectTip addr hashGenesisBlock s l x = Ok r ∧
    match r with
    | tip_error => True
    | tip_invalid c s' => c = false ∧ state_ok s' ∧ same_shape (index s) (index s') ∧ unfailed (index s') ⊂ unfailed (index s)
    | tip_connected s' l' => state_ok s' ∧ target s' p ∧ Tip (chainActive s') = Some x ∧
        same_shape (index s) (index s') ∧ unfailed (index s') = unfailed (index s)
    end.
Proof.
  intros Hok Htar Hf Hx Hpp Hk. pose proof Hok as ((Hsh & Hc & _) & (_ & _ & Hact) & _). pose proof Htar as [Hlast Hu].
  destruct (target_known s p Hok Htar) as (d & Hp & Htp).
  assert (nChainTx b ≠ 0) as Htx by (by eapply (back_work _ k p d x b Hsh Hp Hk Hx)).
  assert (good b) as Hg.
  { destruct (on_chain s x) eqn:E; [|by eapply Hu]. destruct (Hact x E) as (b' & Hb' & ? & _). congruence. }
  unfold ConnectTip, deref. rewrite Hx. cbn [rbind]. rewrite bool_decide_eq_true_2 by congruence. cbn [negb].
  destruct (connect_block (index s) l x) as [l'|c|] eqn:Hv; [| |by eexists].
  - set (m' := if bool_decide _ then _ else _).
    assert (same_shape (index s) m' ∧ ∀ q a a', index s !! q = Some a → m' !! q = Some a' → failed a' = failed a ∧ missing a' = missing a) as [Hs Hgood].
    { unfold m'. case_bool_decide; [split; [done|naive_solver]|]. split.
      - symmetry. apply same_shape_alter. intros a. apply mark_connected_spec.
      - intros q a a' Ha. destruct (decide (x = q)) as [<-|Hne].
        + rewrite lookup_alter_eq, Ha. intros [= <-]. apply mark_connected_spec.
        + rewrite lookup_alter_ne, Ha by done. by intros [= <-]. }
    destruct (state_ok_regood s m' Hok Hs Hgood) as (Hok1 & Hu1 & Hun). cbn [chainActive set_index].
    destruct (same_shape_lookup _ _ x b Hs Hx) as (b' & Hx' & (E & _)%set_status_fields).
    destruct (SetTip_tip m' (chainActive s) x b') as (c' & -> & Hc' & Ht'); [by rewrite <- Hs; apply Hsh|by rewrite <- Hs|done|].
    cbn [rbind]. eexists. split; [done|]. cbn.
    destruct (state_ok_advance (set_index s m') c' f x b') as [Hok2 Hu2]; try done; [congruence| |by eapply connected_valid|].
    { destruct (Hgood x b b' Hx Hx') as [E1 E2]. unfold good. by rewrite E1, E2. }
    split_and!; [done| |done|done|done]. split; [done|]. apply Hu2. by rewrite Hu1.
  - destruct (rejected_invalid _ _ _ _ Hv) as [-> Hnv].
    destruct (InvalidBlockFound_spec s x b Hok Hx Htx (proj1 Hg) Hnv) as (s' & -> & ?). cbn [rbind]. by eexists.
Qed.

(** How a run of connections ends. *)
Definition batch_spec (s : CChainState) (p : uint256) (n : nat) (dest : uint256) (r : batch_end * CChainState * L) : Prop :=
  let '(e, s', _) := r in
  match e with
  | batch_error => True
  | batch_invalid => state_ok s' ∧ unfailed (index s') ⊂ unfailed (index s)
  | batch_done => state_ok s' ∧ target s' p ∧ Tip (chainActive s') = Some dest ∧
      same_shape (index s) (index s') ∧ unfailed (index s') = unfailed (index s)
  | batch_better => state_ok s' ∧ target s' p ∧ same_shape (index s) (index s') ∧ unfailed (index s') = unfailed (index s) ∧
      ∃ i x, (i < n)%nat ∧ back (index s) p i = Some x ∧ Tip (chainActive s') = Some x
  end.

Lemma connect_batch_spec old front p j batch : ∀ s l f,
  state_ok s → target s p → Tip (chainActive s) = Some f → path (index s) f batch →
  back (index s) p j = Some (path_end f batch) → (∀ o, old = Some o → known (index s) o) → known (index s) front →
  ∃ r, connect_batch addr hashGenesisBlock s l old front batch = Ok r ∧ batch_spec s p (j + length batch) (path_end f batch) r.
Proof.
  induction batch as [|x batch IH]; intros s l f Hok Htar Hf Hpath Hj Hold Hfront; cbn [connect_batch].
  { eexists. split; [done|]. done. }
  destruct Hpath as [(b & Hx & Hpp) Hpath]. rewrite path_end_cons in *.
  assert (back (index s) p (j + length batch) = Some x) as Hbx.
  { rewrite back_add, Hj. cbn. by apply path_back. }
  destruct (ConnectTip_spec s l f x b p _ Hok Htar Hf Hx Hpp Hbx) as (r & -> & Hr). cbn [rbind].
  destruct r as [s1 l1|c s1|].
  - destruct Hr as (Hok1 & Htar1 & Ht1 & Hs1 & Hun1). destruct (target_known s1 p Hok1 Htar1) as (d & Hp & Htp).
    destruct (PruneBlockIndexCandidates_spec s1 x p d (j + length batch)) as (cl & -> & Hok2 & Hl2); try done.
    { apply Htar1. } { by rewrite <- Hs1. }
    cbn [rbind]. assert (target (set_candidates s1 cl) p) as Htar2 by (split; [done|apply Htar1]).
    set (better := match old with Some _ => _ | None => _ end).
    assert (∃ v, better = Ok v) as (v & ->).
    { unfold better. cbn [chainActive set_candidates index]. rewrite Ht1. destruct old as [o|]; [|by eexists].
      destruct (Hold o eq_refl) as [e He]. destruct (same_shape_lookup _ _ _ _ Hs1 He) as (e' & He' & _).
      destruct (same_shape_lookup _ _ _ _ Hs1 Hx) as (b' & Hx' & _). unfold deref. rewrite Hx', He'. by eexists. }
    cbn [rbind]. destruct v.
    + eexists. split; [done|]. cbn. split_and!; [done|done|done|done|]. exists (j + length batch)%nat, x. split_and!; [lia|done|done].
    + destruct (IH (set_candidates s1 cl) l1 x) as (r & -> & Hr); try done.
      { by eapply path_proper. } { cbn. by rewrite <- Hs1. }
      { intros o Ho. destruct (Hold o Ho) as [e He]. destruct (same_shape_lookup _ _ _ _ Hs1 He) as (e' & He' & _). by exists e'. }
      { destruct Hfront as [e He]. destruct (same_shape_lookup _ _ _ _ Hs1 He) as (e' & He' & _). by exists e'. }
      exists r. split; [done|]. destruct r as [[e s2] l2]. unfold batch_spec in *. cbn [index set_candidates] in Hr. rewrite Hun1 in Hr.
      destruct e; [| |done|done].
      * destruct Hr as (? & ? & ? & ? & ?). split_and!; try done. by etransitivity.
      * destruct Hr as (? & ? & ? & ? & i & y & ? & Hi & ?). split_and!; try done; [by etransitivity|].
        exists i, y. rewrite <- Hs1 in Hi. split_and!; [cbn [length]; lia|done|done].
  - destruct Hr as (-> & Hok1 & Hs1 & Hun1). destruct Hfront as [e He]. destruct (same_shape_lookup _ _ _ _ Hs1 He) as (e' & He' & _).
    destruct (InvalidChainFound_spec s1 front Hok1) as (s2 & -> & Hok2 & E); [by exists e'|]. cbn [rbind].
    eexists. split; [done|]. cbn. by rewrite E.
  - eexists. split; [done|]. done.
Qed.

Lemma connect_loop_spec old p (fuel : nat) : ∀ s l f d k,
  state_ok s → target s p → Tip (chainActive s) = Some f → index s !! f = Some d →
  back (index s) p k = Some f → (k ≤ fuel)%nat → (∀ o, old = Some o → known (index s) o) →
  ∃ r, connect_loop addr hashGenesisBlock fuel s l old p (nHeight d) = Ok r ∧ batch_spec s p k p r.
Proof.
  induction fuel as [|fuel IH]; intros s l f d k Hok Htar Hf Hd Hk Hfuel Hold; cbn [connect_loop];
    destruct (target_known s p Hok Htar) as (w & Hp & Htp); pose proof Hok as ((Hsh & Hc & _) & _); pose proof (proj1 Hsh) as Hix;
    destruct (back_height_inv _ k p w f Hix Hp Hk) as (Hkw & d' & Hd' & Hh); assert (d' = d) as -> by congruence;
    unfold deref at 1; rewrite Hp; cbn [rbind].
  { assert (k = 0)%nat as -> by lia. injection Hk as ->. replace (_ =? _) with true by lia. by eexists. }
  destruct (Z.eqb_spec (nHeight d) (nHeight w)) as [E|E].
  { assert (k = 0)%nat as -> by lia. injection Hk as ->. by eexists. }
  set (h := Z.min _ _). pose proof (Hix f d Hd) as (Hd0 & _).
  destruct (GetAncestor_walks _ p w h Hix Hp) as (q & -> & Hq); [lia|]. cbn [rbind].
  destruct (back_height_inv _ _ p w q Hix Hp Hq) as (_ & e & He & Hhe).
  destruct (to_connect_spec (index s) (Z.to_nat (h - nHeight d)) q e f (nHeight d)) as (lst & -> & Hpath & Hend); [done|done| |lia|lia|].
  { rewrite <- (back_between _ p w _ k q f Hix Hp Hq Hk) by lia. f_equal. lia. }
  cbn [rbind]. assert (length (rev lst) = Z.to_nat (h - nHeight d)) as Hlen.
  { pose proof (path_back _ _ _ Hpath) as Hpb. rewrite Hend in Hpb.
    destruct (back_height_inv _ _ q e f Hix He Hpb) as (_ & d2 & Hd2 & Hh2). assert (d2 = d) as -> by congruence. lia. }
  destruct (connect_batch_spec old (hd p lst) p (Z.to_nat (nHeight w - h)) (rev lst) s l f) as (r & -> & Hr); try done.
  { by rewrite Hend. }
  { destruct lst as [|x lst]; [by exists w|]. cbn in Hend. unfold path_end in Hend. rewrite last_snoc in Hend. cbn in Hend. subst x. by exists e. }
  cbn [rbind]. rewrite Hend in Hr. destruct r as [[[] s1] l1]; unfold batch_spec in Hr.
  - destruct Hr as (Hok1 & Htar1 & Ht1 & Hs1 & Hun1).
    destruct (same_shape_lookup _ _ q e Hs1 He) as (e1 & He1 & (_ & _ & E1 & _)%set_status_fields).
    destruct (IH s1 l1 q e1 (Z.to_nat (nHeight w - h))) as (r & Hr & Hspec); try done.
    { by rewrite <- Hs1. } { lia. }
    { intros o Ho. destruct (Hold o Ho) as [a Ha]. destruct (same_shape_lookup _ _ _ _ Hs1 Ha) as (a' & Ha' & _). by exists a'. }
    exists r. replace h with (nHeight e1) by lia. split; [done|]. destruct r as [[e' s2] l2]. unfold batch_spec in *.
    rewrite Hun1 in Hspec. destruct e'; [| |done|done].
    + destruct Hspec as (? & ? & ? & ? & ?). split_and!; try done. by etransitivity.
    + destruct Hspec as (? & ? & ? & ? & i & y & ? & Hi & ?). split_and!; try done; [by etransitivity|].
      exists i, y. rewrite <- Hs1 in Hi. split_and!; [lia|done|done].
  - eexists. split; [done|]. destruct Hr as (? & ? & ? & ? & i & y & ? & Hi & ?). split_and!; try done. exists i, y. split_and!; [lia|done|done].
  - by eexists.
  - by eexists.
Qed.

Lemma fork_exists s p b : state_ok s → index s !! p = Some b →
  ∃ f, FindFork (index s) (chainActive s) (Some p) = Ok (Some f) ∧ nearest (index s) (chainActive s) p (Some f).
Proof.
  intros ((Hsh & Hc & _) & (_ & Hroot & _) & _) Hp. pose proof (proj1 Hsh) as Hix.
  destruct (FindFork_spec (index s) (chainActive s) p b Hix Hp) as ([f|] & Hf & Hn); [by exists f|].
  destruct (back_root _ p b Hix Hp) as (k & r & d & Hk & Hr & Hpp & _). specialize (Hn k r Hk).
  rewrite (Hroot r d Hr Hpp) in Hn. done.
Qed.

Lemma ActivateBestChainStep_spec s l p t :
  state_ok s → target s p → Tip (chainActive s) = Some t →
  ∃ r s' l', ActivateBestChainStep addr hashGenesisBlock s l p = Ok (r, s', l') ∧
    match r with
    | None => True
    | Some true => state_ok s' ∧ unfailed (index s') ⊂ unfailed (index s)
    | Some false => state_ok s' ∧ target s' p ∧ same_shape (index s) (index s') ∧ unfailed (index s') = unfailed (index s) ∧
        ∃ i x, back (index s) p i = Some x ∧ Tip (chainActive s') = Some x ∧
          ∀ k, back (index s) p k = Some t → t ≠ p → (i < k)%nat
    end.
Proof.
  intros Hok Htar Ht. pose proof Htar as [Hlast Hu]. destruct (target_known s p Hok Htar) as (w & Hp & Htp).
  pose proof Hok as ((Hsh & Hc & _) & _). pose proof (proj1 Hsh) as Hix. destruct (Tip_spec _ _ _ Hc Ht) as (d & Hd & Hdh & _).
  unfold ActivateBestChainStep. destruct (fork_exists s p w Hok Hp) as (f & -> & (n & Hn & Hfc & Hmin)). cbn [rbind].
  pose proof Hfc as Hft. rewrite (contains_tip _ _ _ _ Hix Hc Ht) in Hft. destruct Hft as [k Hk].
  destruct (back_height_inv _ k t d f Hix Hd Hk) as (Hkd & df & Hdf & Hhf).
  destruct (disconnect_to_spec f (length (chainActive s)) s l t k) as (r & -> & Hr); [done..|unfold Height in Hdh; lia|]. cbn [rbind].
  destruct r as [[s1 l1]|]; [|by eexists _, _, _]. destruct (Hr s1 l1 eq_refl) as (c' & -> & Hc' & Hf').
  cbn [index set_chain]. unfold deref. rewrite Hdf, Hp. cbn [rbind].
  pose proof (state_ok_retreat s c' t f k Hok Hc' Ht Hf' Hk) as Hok1.
  assert (target (set_chain s c') p) as Htar1.
  { split; [done|]. intros j x b Hj Hx Hnx. apply (Hu j x b); [done|done|]. cbn in *.
    destruct (contains (index s) (chainActive s) x) eqn:E; [|done]. rewrite <- Hnx. symmetry.
    apply (contains_tip _ _ _ _ Hix Hc' Hf'). exists (j - n)%nat. apply (back_between _ p w n j f x Hix Hp Hn Hj). by eapply Hmin. }
  destruct (back_height_inv _ n p w f Hix Hp Hn) as (_ & df' & Hdf' & Hhw). assert (df' = df) as -> by congruence.
  rewrite Ht. destruct (connect_loop_spec (Some t) p (Z.to_nat (nHeight w - nHeight df)) (set_chain s c') l1 f df n) as (r & -> & Hspec); try done.
  { lia. } { intros o [= <-]. by exists d. }
  cbn [rbind]. destruct r as [[e s'] l']. eexists _, s', l'. split; [done|]. unfold batch_spec in Hspec. cbn [index set_chain] in Hspec.
  assert (∀ k', back (index s) p k' = Some t → (n = k')%nat) as Htip.
  { intros k' Hk'. destruct (back_height_inv _ k' p w t Hix Hp Hk') as (_ & d' & Hd' & Hh'). assert (d' = d) as -> by congruence.
    assert (n ≤ k')%nat by (eapply Hmin; [done|]; apply (contains_tip _ _ _ _ Hix Hc Ht); by exists 0%nat). lia. }
  destruct e; [| |done|done].
  - destruct Hspec as (? & ? & ? & ? & ?). split_and!; try done. exists 0%nat, p. split_and!; [done|done|].
    intros [|k'] Hk' Hne; [injection Hk' as ->; done|lia].
  - destruct Hspec as (? & ? & ? & ? & i & x & Hi & Hx & ?). split_and!; try done. exists i, x. split_and!; [done|done|].
    intros k' Hk' _. by rewrite <- (Htip k' Hk').
Qed.

(** ** [ActivateBestChain] ends with the best chain *)

Definition best_reached (r : bool * CChainState * L) : Prop :=
  let '(ok, s', _) := r in ok = true → state_ok s' ∧ ∃ t, Tip (chainActive s') = Some t ∧ last (setBlockIndexCandidates s') = Some t.
Definition ends (s : CChainState) (l : L) (start : option uint256) (bc : bool) (mw : option uint256) : Prop :=
  ∃ n r, (∀ fuel, (n ≤ fuel)%nat → activate_loop addr hashGenesisBlock fuel s l start bc mw = Ok r) ∧ best_reached r.

(** One iteration of the loop with a chosen target. *)
Lemma ends_step s l start bc p t :
  state_ok s → target s p → Tip (chainActive s) = Some t →
  (∀ s' l' start' bc', state_ok s' → unfailed (index s') ⊂ unfailed (index s) → ends s' l' start' bc' None) →
  (∀ s' l' start' bc' i x, state_ok s' → target s' p → unfailed (index s') = unfailed (index s) →
     back (index s') p i = Some x → Tip (chainActive s') = Some x → t ≠ p → (∀ k, back (index s) p k = Some t → (i < k)%nat) →
     ends s' l' start' bc' (Some p)) →
  ends s l start bc (Some p).
Proof.
  intros Hok Htar Ht Hinv Hnext. destruct (decide (p = t)) as [->|Hne].
  { exists 1%nat, (true, s, l). split; [|intros _; split; [done|]; exists t; split; [done|apply Htar]].
    intros [|fuel] Hf; [lia|]. cbn [activate_loop rbind]. rewrite bool_decide_eq_true_2 by (rewrite Ht; by right).
    destruct bc; [|done]. cbn. by rewrite bool_decide_eq_true_2. }
  destruct (ActivateBestChainStep_spec s l p t Hok Htar Ht) as (r & s' & l' & Hstep & Hr).
  set (go := λ st b mw, ends s' l' st b mw).
  assert (∀ st' b' mw', ends s' l' st' b' mw' →
    (∀ fuel, activate_loop addr hashGenesisBlock (S fuel) s l start bc (Some p) = activate_loop addr hashGenesisBlock fuel s' l' st' b' mw') →
    ends s l start bc (Some p)) as Hgo.
  { intros st' b' mw' (n & res & Hall & Hres) Heq. exists (S n), res. split; [|done]. intros [|fuel] Hf; [lia|].
    rewrite Heq. apply Hall. lia. }
  assert (∀ fuel, activate_loop addr hashGenesisBlock (S fuel) s l start bc (Some p) =
    match r with
    | None => Ok (false, s', l')
    | Some inv => let mw := if inv : bool then None else Some p in
        if worse_than_start addr s' start then activate_loop addr hashGenesisBlock fuel s' l' start true mw
        else if bool_decide (Tip (chainActive s') = mw) then Ok (true, s', l')
        else activate_loop addr hashGenesisBlock fuel s' l' (Tip (chainActive s')) false mw
    end) as Hunf.
  { intros fuel. cbn [activate_loop rbind]. rewrite bool_decide_eq_false_2 by (rewrite Ht; naive_solver).
    rewrite Hstep. cbn [rbind]. by destruct r. }
  clear Hstep. destruct r as [[]|].
  - destruct Hr as [Hok' Hsub]. destruct (state_ok_tip s' Hok') as (x & d & Hx & _).
    destruct (worse_than_start addr s' start) eqn:Hw.
    + apply (Hgo start true None); [by apply Hinv|]. intros. by rewrite Hunf, ?Hw.
    + apply (Hgo (Tip (chainActive s')) false None); [by apply Hinv|]. intros. rewrite Hunf. cbn zeta.
      by rewrite bool_decide_eq_false_2 by (by rewrite Hx).
  - destruct Hr as (Hok' & Htar' & Hs & Hun & i & x & Hi & Hx & Hlt). rewrite Hs in Hi.
    destruct (decide (x = p)) as [->|Hxp].
    + exists 2%nat, (true, s', l'). split; [|intros _; split; [done|]; exists p; split; [done|apply Htar']].
      intros [|[|fuel]] Hf; [lia..|]. rewrite Hunf. cbn zeta. rewrite Hx. destruct (worse_than_start addr s' start).
      * cbn [activate_loop rbind]. rewrite Hx, bool_decide_eq_true_2 by (by right). cbn. by rewrite bool_decide_eq_true_2.
      * by rewrite bool_decide_eq_true_2.
    + destruct (worse_than_start addr s' start) eqn:Hw.
      * apply (Hgo start true (Some p)); [eapply Hnext; eauto|]. intros. by rewrite Hunf, ?Hw.
      * apply (Hgo (Tip (chainActive s')) false (Some p)); [eapply Hnext; eauto|]. intros. rewrite Hunf. cbn zeta.
        by rewrite bool_decide_eq_false_2 by (rewrite Hx; naive_solver).
  - exists 1%nat, (false, s', l'). split; [|done]. intros [|fuel] Hf; [lia|]. by rewrite Hunf.
Qed.

Lemma activate_loop_ends (N : nat) : ∀ s l start bc,
  state_ok s → (base.size (unfailed (index s)) < N)%nat → ends s l start bc None.
Proof.
  induction N as [|N IH]; intros s l start bc Hok HN; [lia|].
  assert (∀ s0 s' l' start' bc', unfailed (index s0) ⊆ unfailed (index s) → state_ok s' → unfailed (index s') ⊂ unfailed (index s0) →
    ends s' l' start' bc' None) as Hinv.
  { intros s0 s' l' start' bc' H0 Hok' Hsub. apply IH; [done|]. apply subset_size in Hsub. apply subseteq_size in H0. lia. }
  (* the tip is an ancestor of the target *)
  assert (∀ k s1 l1 st1 b1 p x, state_ok s1 → target s1 p → unfailed (index s1) ⊆ unfailed (index s) →
    back (index s1) p k = Some x → Tip (chainActive s1) = Some x → ends s1 l1 st1 b1 (Some p)) as Hdown.
  { induction k as [k IHk] using lt_wf_ind. intros s1 l1 st1 b1 p x Hok1 Htar1 Hun1 Hk Hx.
    eapply ends_step; [done|done|done|by eauto|]. intros s2 l2 st2 b2 i y Hok2 Htar2 Hun2 Hi Hy Hxp Hlt.
    apply (IHk i (Hlt k Hk) s2 l2 st2 b2 p y); [done|done|by rewrite Hun2|done|done]. }
  pose proof Hok as (Hfind & _). destruct (FindMostWorkChain_spec addr (length (setBlockIndexCandidates s)) s Hfind) as (r & s1 & Hr & Hsh & Hlast & Hu); [lia|].
  pose proof (state_ok_shrinks s s1 Hok Hsh) as Hok1. pose proof (unfailed_shrinks s s1 Hsh) as Hun1.
  destruct r as [p|].
  2:{ destruct Hok1 as ((Hshape & _) & _ & T & HT). pose proof (threshold_candidate s1 T Hshape HT) as Hin.
      symmetry in Hlast. apply last_None in Hlast. rewrite Hlast in Hin. by apply elem_of_nil in Hin. }
  assert (target s1 p) as Htar by (split; [done|]; rewrite (shrinks_usable addr s s1 p Hsh); by apply Hu).
  destruct (state_ok_tip s1 Hok1) as (t & d & Ht & _).
  destruct (ends_step s1 l start bc p t) as (n & res & Hall & Hres); [done|done|done|by eauto| |].
  { intros s2 l2 st2 b2 i y Hok2 Htar2 Hun2 Hi Hy _ _. apply (Hdown i s2 l2 st2 b2 p y); [done|done|by rewrite Hun2|done|done]. }
  exists (S n), res. split; [|done]. intros [|fuel] Hf; [lia|]. rewrite <- (Hall (S fuel)) by lia. cbn [activate_loop]. by rewrite Hr.
Qed.
End Activation.

(** ** Main statements *)

(** The best candidate is found.  From a consistent state [FindMostWorkChain]
    ends after at most one round per candidate and returns the last candidate
    left, whose path to the active chain has all its data and no failed block;
    what it removed from the candidates was unusable, what it marked as failed
    was unusable, and the active chain and the usable blocks are as before. *)
Theorem find_most_work_chain_correct (addr : uint256 → Z) (Haddr : Inj (=) (=) addr) s :
  find_ok addr s →
  ∃ r s', FindMostWorkChain addr (length (setBlockIndexCandidates s)) s = Ok (r, s') ∧ find_ok addr s' ∧
    chainActive s' = chainActive s ∧
    (∀ q, usable (index s') (chainActive s') q ↔ usable (index s) (chainActive s) q) ∧
    (∀ q, q ∈ setBlockIndexCandidates s' → q ∈ setBlockIndexCandidates s) ∧
    match r with
    | Some p => p ∈ setBlockIndexCandidates s ∧ usable (index s) (chainActive s) p ∧
        ∀ q, q ∈ setBlockIndexCandidates s → usable (index s) (chainActive s) q →
          CBlockIndexWorkComparator addr (index s) p q = false
    | None => ∀ q, q ∈ setBlockIndexCandidates s → ¬ usable (index s) (chainActive s) q
    end.
Proof.
  intros Hok. destruct (FindMostWorkChain_spec addr (length (setBlockIndexCandidates s)) s Hok) as (r & s' & Hr & Hsh & Hlast & Hu); [lia|].
  pose proof (shrinks_ok addr _ _ Hok Hsh) as Hok'. exists r, s'. split_and!; [done|done|apply Hsh| |apply Hsh|].
  - intros q. by apply (shrinks_usable addr).
  - destruct r as [p|].
    + symmetry in Hlast. split_and!; [by apply (sh_sub _ _ _ Hsh), last_Some_elem_of|by apply Hu|].
      intros q Hq Huq. destruct (decide (q ∈ setBlockIndexCandidates s')) as [Hin|Hout]; [|by destruct (sh_gone _ _ _ Hsh q)].
      rewrite (sh_shape _ _ _ Hsh). destruct Hok' as (Hshape & _ & Hso & _). by eapply candidates_last.
    + intros q Hq Huq. symmetry in Hlast. apply last_None in Hlast. destruct (sh_gone _ _ _ Hsh q Hq); [|done].
      rewrite Hlast. apply not_elem_of_nil.
Qed.

(** C1: the best chain becomes active.  From a consistent state
    [ActivateBestChain] ends, whatever blocks validation rejects on the way;
    unless an error of the system stops it, the state is consistent again and
    no block of the index with a complete history, all data, and no failed
    block between it and the active chain is better than the tip. *)
Theorem activate_best_chain_correct (addr : uint256 → Z) (Haddr : Inj (=) (=) addr) (L : Type) (LG : Ledger L)
    (block_valid : uint256 → Prop) (Hlaws : LedgerLaws L block_valid) hashGenesisBlock s l :
  state_ok addr block_valid s →
  ∃ n ok s' l', (∀ fuel, (n ≤ fuel)%nat → ActivateBestChain addr hashGenesisBlock fuel s l = Ok (ok, s', l')) ∧
    (ok = true → state_ok addr block_valid s' ∧ ∃ t, Tip (chainActive s') = Some t ∧
       ∀ q b, index s' !! q = Some b → nChainTx b ≠ 0 → usable (index s') (chainActive s') q →
         CBlockIndexWorkComparator addr (index s') t q = false).
Proof.
  intros Hok. destruct (activate_loop_ends addr block_valid hashGenesisBlock _ s l (Tip (chainActive s)) false Hok (Nat.lt_succ_diag_r _))
    as (n & [[ok s'] l'] & Hall & Hbest). exists n, ok, s', l'. split; [done|].
  intros E. destruct (Hbest E) as (Hok' & t & Ht & Hlast). split; [done|]. exists t. split; [done|].
  by apply (tip_is_best addr block_valid).
Qed.

(** ** Example: a block that extends the genesis block *)

Definition tree_entry (prev : option uint256) (height work : Z) : CBlockIndex :=
  mk_index prev None height (of_u64 work) (BLOCK_VALID_TRANSACTIONS |' BLOCK_HAVE_DATA) 0 0 0 null_outpoint null_hash 1 1 (height + 1) 1.
Definition two_blocks : CChainState :=
  mk_state (<[hash_a := tree_entry (Some hash_g) 1 7]> {[hash_g := tree_entry None 0 5]}) [hash_g; hash_a] ∅
    [Some hash_g] [] None 2 (-1) zero.
#[global] Instance accept_all : Ledger unit := {| connect_block _ _ _ := Connected tt; disconnect_block _ _ _ := Some tt |}.
#[global] Instance accept_all_laws : LedgerLaws unit (λ _, True).
Proof. split; [by intros|done]. Qed.
(** An address for each entry. *)
Definition tree_addr (p : uint256) : Z := Zpos (encode p).
#[global] Instance tree_addr_inj : Inj (=) (=) tree_addr.
Proof. intros p q [= E]. by apply encode_inj. Qed.

Lemma two_blocks_lookup p b : index two_blocks !! p = Some b →
  p = hash_a ∧ b = tree_entry (Some hash_g) 1 7 ∨ p = hash_g ∧ b = tree_entry None 0 5.
Proof. cbn. intros [[<- <-]|[_ [<- <-]%lookup_singleton_Some]]%lookup_insert_Some; tauto. Qed.
Lemma two_blocks_shape : shape_ok (index two_blocks).
Proof.
  split.
  - intros p b [[-> ->]|[-> ->]]%two_blocks_lookup; split_and!; try done. by eexists.
  - intros p b [[-> ->]|[-> ->]]%two_blocks_lookup; (split; [by apply value_of_u64|]); [|done].
    intros q c [= <-] [[? _]|[_ ->]]%two_blocks_lookup; [done|]. split; [reflexivity|done].
Qed.

Lemma two_blocks_ok : state_ok tree_addr (λ _, True) two_blocks.
Proof.
  assert (∀ q, contains (index two_blocks) (chainActive two_blocks) q = true → q = hash_g) as Hon.
  { intros q. unfold contains. destruct (index two_blocks !! q) as [b|] eqn:E; [|done].
    by apply two_blocks_lookup in E as [[-> ->]|[-> ->]]. }
  assert (∀ q b, index two_blocks !! q = Some b → solid (λ _, True) (index two_blocks) q) as Hsolid.
  { intros q b [[-> ->]|[-> ->]]%two_blocks_lookup; by eexists. }
  pose proof two_blocks_shape as Hsh. split_and!.
  - split_and!; [done| | |done].
    + intros i q Hi. pose proof (at_height_range _ _ _ Hi) as Hr. cbn in Hr. assert (i = 0) as -> by lia. injection Hi as <-.
      eexists. split_and!; [reflexivity..|]. intros j Hj. by assert (j = 0) as -> by lia.
    + split; [repeat constructor|]. repeat constructor; by eexists.
  - split_and!; [by eexists| |].
    + by intros p b [[-> ->]|[-> ->]]%two_blocks_lookup.
    + intros q ->%Hon. by eapply Hsolid.
  - exists hash_g. split_and!; [by eexists| |].
    + intros [|k] q Hq; [injection Hq as <-; by eapply Hsolid|done].
    + intros q b [[-> ->]|[-> ->]]%two_blocks_lookup _ _ _; [apply list_elem_of_further|]; apply list_elem_of_here.
Qed.

Lemma find_most_work_chain_correct_witness :
  ∃ r s', FindMostWorkChain tree_addr 2 two_blocks = Ok (r, s') ∧ chainActive s' = [Some hash_g].
Proof.
  destruct (find_most_work_chain_correct tree_addr tree_addr_inj two_blocks (proj1 two_blocks_ok)) as (r & s' & Hr & _ & Hc & _).
  exists r, s'. split; [exact Hr|exact Hc].
Defined.

Lemma activate_best_chain_correct_witness :
  ∃ n ok s' l', ∀ fuel, (n ≤ fuel)%nat → ActivateBestChain tree_addr hash_g fuel two_blocks tt = Ok (ok, s', l').
Proof.
  destruct (activate_best_chain_correct tree_addr tree_addr_inj unit accept_all (λ _, True) accept_all_laws hash_g two_blocks tt two_blocks_ok)
    as (n & ok & s' & l' & H & _).
  exists n, ok, s', l'. exact H.
Defined.
(** The run itself: the second block becomes the tip. *)
Example activate_two_blocks :
  (λ '(ok, s', _), (ok, Tip (chainActive s'))) <$>
    (match ActivateBestChain tree_addr hash_g 3 two_blocks tt with Ok r => Some r | Err _ => None end) = Some (true, Some hash_a).
Proof. vm_compute. reflexivity. Qed.
