(* ===== verification/BlockChecks.v ===== *)
(** * Checks of blocks (validation.cpp)

    The checks of a block that need no coins: its header against work or stake,
    its shape, its witness commitment and its reward.  A rejection records what
    the code writes into [CValidationState].  The time, the state of the initial
    download, the coins of the tip, the scripts of past stakers, and the
    primitives of the curve are arguments. *)
From stdpp Require Import strings.
From S2P Require Import Prelude ArithUint256 Script Interpreter InterpreterFacts InterpreterSpecs StandardScripts Serialize Transaction SigHash Standard Coins CoinsFacts Block Chain ChainFacts TxVerify Pow Pos VersionBits.
Import BaseUint.

(** ** Parameters and rejections *)

Record consensus_params := mk_consensus {
  pow_params : Params; vb : vb_params; hashGenesisBlock : uint256; nSubsidyHalvingInterval : Z;
  BIP34Height : Z; BIP65Height : Z; BIP66Height : Z; nLastPOWBlock : Z; nFirstMPoSBlock : Z;
  nMPoSRewardRecipients : Z; nEnableHeaderSignatureHeight : Z
}.

Definition REJECT_INVALID : Z := 0x10.
Definition REJECT_OBSOLETE : Z := 0x11.
Definition REJECT_CHECKPOINT : Z := 0x43.

(** [DoS]: the level added, the code, the reason and [corruptionPossible] of the
    state ([Invalid] is the level 0).  [silent]: the result is false and the state
    records no violation.  [crash]: no result. *)
Inductive block_reject :=
| DoS (level code : Z) (reason : string) (corruption : bool)
| silent
| crash (e : chain_error).
Definition bad (level : Z) (reason : string) : block_reject := DoS level REJECT_INVALID reason false.
Definition corrupt (reason : string) : block_reject := DoS 100 REJECT_INVALID reason true.

Definition FutureDrift (nTime : Z) : Z := u32 (u32 nTime + 15).
(** The version of the blocks of the second kind. *)
Definition SW_VERSION : Z := 0x20000002.

(** What [CheckTransaction] writes into the state. *)
Definition tx_reject_state (tx : CTransaction) (e : tx_reject) : block_reject :=
  match e with
  | bad_txns_vin_empty => bad 10 "bad-txns-vin-empty"
  | bad_txns_vout_empty => bad (if size (vout tx) =? 0 then 10 else 100) "bad-txns-vout-empty"
  | bad_txns_oversize => bad 100 "bad-txns-oversize"
  | bad_txns_vout_negative => bad 100 "bad-txns-vout-negative"
  | bad_txns_vout_toolarge => bad 100 "bad-txns-vout-toolarge"
  | bad_txns_txouttotal_toolarge => bad 100 "bad-txns-txouttotal-toolarge"
  | bad_txns_contract_nonstandard => bad 100 "bad-txns-contract-nonstandard"
  | bad_txns_inputs_duplicate => bad 100 "bad-txns-inputs-duplicate"
  | bad_cb_length => bad 100 "bad-cb-length"
  | bad_txns_prevout_null => bad 10 "bad-txns-prevout-null"
  | bad_txns_inputs_missingorspent => bad 100 "bad-txns-inputs-missingorspent"
  | bad_txns_premature_spend_of_coinbase => bad 0 "bad-txns-premature-spend-of-coinbase"
  | bad_txns_inputvalues_outofrange => bad 100 "bad-txns-inputvalues-outofrange"
  | bad_txns_in_belowout => bad 100 "bad-txns-in-belowout"
  | bad_txns_fee_outofrange => bad 100 "bad-txns-fee-outofrange"
  | assert_fails | throws => crash assertion_failed
  end.
Definition with_tx {A} (tx : CTransaction) (r : result tx_reject A) : result block_reject A :=
  match r with Ok a => Ok a | Err e => Err (tx_reject_state tx e) end.

(** ** The witness commitment *)

Definition commitment_header : bytes := [OP_RETURN; 0x24; 0xaa; 0x21; 0xa9; 0xed].
Definition is_commitment (o : CTxOut) : bool :=
  (size (scriptPubKey o) >=? 38) && bool_decide (take 6 (scriptPubKey o) = commitment_header).
(** The loop over the outputs from number [o] on; [commitpos] is the last match. *)
Fixpoint commitment_loop (outs : list CTxOut) (o : nat) (commitpos : option nat) : option nat :=
  match outs with
  | [] => commitpos
  | x :: outs => commitment_loop outs (S o) (if is_commitment x then Some o else commitpos)
  end.
(** [None] is the result -1. *)
Definition GetWitnessCommitmentIndex (block : CBlock) : option nat :=
  match vtx block with
  | [] => None
  | cb :: _ => commitment_loop (vout cb) 0 None
  end.

Definition CheckFirstCoinstakeOutput (block : CBlock) : bool :=
  match vtx block with
  | [] => false
  | cb :: _ =>
      match GetWitnessCommitmentIndex block, vout cb with
      | None, [o] => IsEmpty_txout o
      | Some _, [o; w] => IsEmpty_txout o && (nValue w =? 0)
      | _, _ => false
      end
  end.

Definition zero_nonce : bytes := replicate 32 0.
(** Replacing the first transaction. *)
Definition set_coinbase (block : CBlock) (cb : CTransaction) : CBlock := mk_block (header block) (cb :: tail (vtx block)).
Definition set_first_witness (tx : CTransaction) (stack : list bytes) : option CTransaction :=
  match vin tx with
  | [] => None
  | i :: l => Some (mk_tx (mk_txin (prevout i) (scriptSig i) (nSequence i) stack :: l) (vout tx) (nVersion tx) (nLockTime tx))
  end.
(** [stack.resize(1)] keeps the first element, which is then overwritten. *)
Definition UpdateUncommittedBlockStructures (m : BlockMap) (params : consensus_params) (cache : VersionBitsCache)
    (block : CBlock) (pindexPrev : option uint256) : result chain_error (CBlock * VersionBitsCache) :=
  match GetWitnessCommitmentIndex block, vtx block with
  | Some _, cb :: _ =>
      let* r := IsWitnessEnabled m (vb params) pindexPrev cache in
      if r.1 && negb (HasWitness cb) then
        match set_first_witness cb [zero_nonce] with
        | None => Err dangling
        | Some cb => Ok (set_coinbase block cb, r.2)
        end
      else Ok (block, r.2)
  | _, _ => Ok (block, cache)
  end.

Section Commitment.
Context `{C : Crypto} (m : BlockMap) (params : consensus_params).

Definition commitment_output (witnessroot : uint256) : CTxOut :=
  mk_txout 0 (commitment_header ++ CHash256 (witnessroot ++ zero_nonce)).
(** The commitment (empty if none was made) and the changed block. *)
Definition GenerateCoinbaseCommitment (cache : VersionBitsCache) (block : CBlock) (pindexPrev : option uint256) (fProofOfStake : bool)
  : result chain_error (bytes * CBlock * VersionBitsCache) :=
  let* r :=
    if negb (nTimeout (vDeployments (vb params) DEPLOYMENT_SEGWIT) =? 0) then
      match GetWitnessCommitmentIndex block with
      | Some _ => Ok ([], block)
      | None =>
          match BlockWitnessMerkleRoot block (Some fProofOfStake), vtx block with
          | Some (witnessroot, _), cb :: _ =>
              let out := commitment_output witnessroot in
              Ok (scriptPubKey out, set_coinbase block (mk_tx (vin cb) (vout cb ++ [out]) (nVersion cb) (nLockTime cb)))
          | _, _ => Err dangling
          end
      end
    else Ok ([], block) in
  let* u := UpdateUncommittedBlockStructures m params cache r.2 pindexPrev in
  Ok (r.1, u.1, u.2).

(** The last part of [ContextualCheckBlock]: [segwit] is whether the deployment
    is active. *)
Definition check_witness (segwit : bool) (block : CBlock) : result block_reject unit :=
  let no_witness := require (forallb (λ tx, negb (HasWitness tx)) (vtx block)) (corrupt "unexpected-witness") in
  match (if segwit then GetWitnessCommitmentIndex block else None), vtx block with
  | Some commitpos, cb :: _ =>
      match BlockWitnessMerkleRoot block None, vin cb with
      | Some (hashWitness, _), i :: _ =>
          match scriptWitness i with
          | [nonce] =>
              let* _ := require (size nonce =? 32) (corrupt "bad-witness-nonce-size") in
              require (bool_decide (CHash256 (hashWitness ++ nonce)
                                    = take 32 (drop 6 (scriptPubKey (nth commitpos (vout cb) null_txout)))))
                      (corrupt "bad-witness-merkle-match")
          | _ => Err (corrupt "bad-witness-nonce-size")
          end
      | _, _ => Err (crash dangling)
      end
  | _, _ => no_witness
  end.

(** ** [ContextualCheckBlock] *)

(** All transactions are final and the coinbase starts with the height. *)
Definition check_final (block : CBlock) (nHeight nLockTimeCutoff : Z) : result block_reject unit :=
  require (forallb (λ tx, IsFinalTx tx nHeight nLockTimeCutoff) (vtx block)) (bad 10 "bad-txns-nonfinal").
Definition coinbase_script (block : CBlock) : option bytes :=
  match vtx block with
  | cb :: _ => match vin cb with i :: _ => Some (scriptSig i) | [] => None end
  | [] => None
  end.
Definition height_prefix (nHeight : Z) (script : bytes) : bool :=
  let expect := push_int64 [] nHeight in
  negb (size script <? size expect) && bool_decide (take (length expect) script = expect).
Definition check_height (block : CBlock) (nHeight : Z) : result block_reject unit :=
  if nHeight >=? BIP34Height params then
    match coinbase_script block with
    | None => Err (crash dangling)
    | Some script => require (height_prefix nHeight script) (bad 100 "bad-cb-height")
    end
  else Ok tt.

Definition ContextualCheckBlock (cache : VersionBitsCache) (block : CBlock) (pindexPrev : option uint256)
  : result block_reject unit * VersionBitsCache :=
  match VersionBitsState m (vb params) pindexPrev DEPLOYMENT_CSV cache with
  | Err e => (Err (crash e), cache)
  | Ok (csv, cache) =>
      let first :=
        match (let* nHeight := match pindexPrev with None => Ok 0 | Some p => let* b := deref m p in Ok (nHeight b + 1) end in
               let* cutoff := if bool_decide (csv = ACTIVE) then
                                match pindexPrev with None => Err dangling | Some p => GetMedianTimePast m p end
                              else Ok (nTime_blk (header block)) in
               Ok (nHeight, cutoff)) with
        | Err e => Err (crash e)
        | Ok (nHeight, cutoff) =>
            let* _ := check_final block nHeight cutoff in check_height block nHeight
        end in
      match first with
      | Err e => (Err e, cache)
      | Ok _ =>
          match VersionBitsState m (vb params) pindexPrev DEPLOYMENT_SEGWIT cache with
          | Err e => (Err (crash e), cache)
          | Ok (segwit, cache) => (check_witness (bool_decide (segwit = ACTIVE)) block, cache)
          end
      end
  end.
End Commitment.

(** ** Headers *)

Section Headers.
Context `{C : Crypto} {V : Type} `{CoinsView V} (m : BlockMap) (params : consensus_params) (dgp : dgp_params).
Context (spent_coin : uint256 → COutPoint → option Coin) (recover : uint256 → bytes → Z → bool → option bytes).
Context (Verify : bytes → uint256 → bytes → bool) (initial_download : bool) (adjusted_time : Z).
Implicit Types c : CCoinsViewCache V.

Definition CheckHeaderPoW (block : CBlockHeader) : bool :=
  CheckProofOfWork (GetBlockHash block) (nBits_blk block) (pow_params params) false.

(** The part both kinds share: the predecessor is known and, from some height on,
    the key recovered from the signature owns the stake.  [kernel] is
    [CheckKernel] or [CheckKernelSW]. *)
Definition header_stake c (block : CBlockHeader)
    (kernel : CCoinsViewCache V → uint256 → Z → Z → COutPoint → gmap COutPoint CStakeCache → result chain_error (bool * CCoinsViewCache V))
  : result chain_error (bool * CCoinsViewCache V) :=
  match m !! hashPrevBlock block with
  | None => Ok (false, c)
  | Some prev =>
      let '(ok, c) := if nHeight prev >=? nEnableHeaderSignatureHeight params
                      then CheckRecoveredPubKeyFromBlockSignature (spent_coin (hashPrevBlock block)) recover block c
                      else (true, c) in
      if negb ok then Ok (false, c)
      else kernel c (hashPrevBlock block) (nBits_blk block) (StakeTime block) (prevoutStake_blk block) ∅
  end.
Definition CheckHeaderPoS c (block : CBlockHeader) : result chain_error (bool * CCoinsViewCache V) :=
  header_stake c block (CheckKernel m (spent_coin (hashPrevBlock block))).
Definition CheckHeaderPoSSW c (block : CBlockHeader) : result chain_error (bool * CCoinsViewCache V) :=
  header_stake c block CheckKernelSW.
Definition CheckHeaderProof c (block : CBlockHeader) : result chain_error (bool * CCoinsViewCache V) :=
  if IsProofOfWork_header block then Ok (CheckHeaderPoW block, c)
  else if IsProofOfStake_header block then CheckHeaderPoS c block
  else Ok (false, c).
(** The entry of an index loaded from disk, stored under [hash]. *)
Definition CheckIndexProof (hash : uint256) (b : CBlockIndex) : bool :=
  if IsProofOfStake b then true else CheckProofOfWork hash (nBits b) (pow_params params) false.

Definition CheckBlockHeader c (block : CBlockHeader) (fCheckPOW fCheckPOS : bool) : result block_reject unit * CCoinsViewCache V :=
  if fCheckPOW && IsProofOfWork_header block && negb (CheckHeaderPoW block) then (Err (bad 50 "high-hash"), c)
  else if fCheckPOS && negb initial_download && IsProofOfStake_header block then
    match CheckHeaderPoS c block with
    | Err e => (Err (crash e), c)
    | Ok (ok, c) =>
        (require (negb (negb ok && negb (nVersion_blk block =? SW_VERSION))) (bad 50 "bad-cb-header"), c)
    end
  else (Ok tt, c).

(** ** The signature of a block *)

(** [None] is the result false. *)
Definition GetBlockPublicKey (block : CBlock) : result chain_error (option bytes) :=
  if IsProofOfWork_header (header block) then Ok None
  else if size (vchBlockSig (header block)) =? 0 then Ok None
  else match (cs ← vtx block !! 1%nat; vout cs !! 1%nat) with
  | None => Err dangling
  | Some txout =>
      match Solver (scriptPubKey txout) false with
      | None => Ok None
      | Some (TX_PUBKEY, vSolutions) => match vSolutions with k :: _ => Ok (Some k) | [] => Err dangling end
      | Some _ =>
          let '(ok, opcode, _, pc) := GetScriptOp (scriptPubKey txout) in
          if negb ok then Ok None
          else if negb (opcode =? OP_RETURN) then Ok None
          else
            let '(ok, _, vchPubKey, _) := GetScriptOp pc in
            if negb ok then Ok None
            else if negb (IsCompressedOrUncompressedPubKey vchPubKey) then Ok None
            else Ok (Some vchPubKey)
      end
  end.
Definition CheckBlockSignature (block : CBlock) : result chain_error bool :=
  if IsProofOfWork_header (header block) then Ok (size (vchBlockSig (header block)) =? 0)
  else
    let* k := GetBlockPublicKey block in
    match k with
    | None => Ok false
    | Some vchPubKey =>
        Ok (match CPubKey vchPubKey with
            | None => false
            | Some pubkey => Verify pubkey (GetHashWithoutSign (header block)) (vchBlockSig (header block))
            end)
    end.
Definition IsCanonicalBlockSignature (block : CBlockHeader) (checkLowS : bool) : bool :=
  if IsProofOfWork_header block then size (vchBlockSig block) =? 0
  else if checkLowS then is_ok (IsLowDERSignature (vchBlockSig block) false) else is_ok (IsDERSignature (vchBlockSig block) false).
Definition CheckCanonicalBlockSignature (block : CBlockHeader) : bool :=
  let ret := IsCanonicalBlockSignature block false in
  if ret then IsCanonicalBlockSignature block true else ret.

(** ** [CheckBlock] *)

Definition check_merkle (block : CBlock) : result block_reject unit :=
  let '(hashMerkleRoot2, mutated) := BlockMerkleRoot block in
  let* _ := require (bool_decide (hashMerkleRoot (header block) = hashMerkleRoot2)) (corrupt "bad-txnmrklroot") in
  require (negb mutated) (corrupt "bad-txns-duplicate").
Definition has_contract (tx : CTransaction) : bool := HasOpSpend_tx tx || HasCreateOrCall tx.
Definition check_coinbase (block : CBlock) : result block_reject unit :=
  match vtx block with
  | [] => Err (bad 100 "bad-cb-missing")
  | cb :: rest =>
      let* _ := require (IsCoinBase cb) (bad 100 "bad-cb-missing") in
      let* _ := require (forallb (λ tx, negb (IsCoinBase tx)) rest) (bad 100 "bad-cb-multiple") in
      require (negb (has_contract cb)) (bad 100 "bad-cb-contract")
  end.
Definition stakes_prevout (block : CBlock) (cs : CTransaction) : bool :=
  match vin cs with [] => false | i :: _ => bool_decide (prevoutStake_blk (header block) = prevout i) end.
Definition check_coinstake (block : CBlock) : result block_reject unit :=
  if IsProofOfStake_header (header block) then
    let* _ := require (CheckFirstCoinstakeOutput block) (bad 100 "bad-cb-missing") in
    match vtx block with
    | _ :: cs :: rest =>
        let* _ := require (IsCoinStake cs) (bad 100 "bad-cs-missing") in
        let* _ := require (stakes_prevout block cs) (bad 100 "bad-cs-invalid") in
        let* _ := require (forallb (λ tx, negb (IsCoinStake tx)) rest) (bad 100 "bad-cs-multiple") in
        require (negb (has_contract cs)) (bad 100 "bad-cs-contract")
    | _ => Err (bad 100 "bad-cs-missing")
    end
  else Ok tt.
Definition check_signature (block : CBlock) (fCheckSig : bool) : result block_reject unit :=
  if fCheckSig then
    match CheckBlockSignature block with
    | Err e => Err (crash e)
    | Ok ok => require ok (bad 100 "bad-blk-signature")
    end
  else Ok tt.
Fixpoint check_transactions (txs : list CTransaction) (lastWasContract : bool) : result block_reject unit :=
  match txs with
  | [] => Ok tt
  | tx :: txs =>
      let* _ := with_tx tx (CheckTransaction dgp tx true) in
      let* _ := require (negb (HasOpSpend_tx tx && negb lastWasContract)) (bad 100 "bad-opspend-tx") in
      check_transactions txs (HasCreateOrCall tx || HasOpSpend_tx tx)
  end.
Definition block_sigops (txs : list CTransaction) : Z := foldl (λ n tx, u32 (n + GetLegacySigOpCount tx)) 0 txs.

(** The checks after that of the header. *)
Definition check_body (block : CBlock) (fCheckMerkleRoot fCheckSig : bool) : result block_reject unit :=
  let* _ := require (negb (IsProofOfStake_header (header block) && (nTime_blk (header block) >? FutureDrift adjusted_time))) silent in
  let* _ := if fCheckMerkleRoot then check_merkle block else Ok tt in
  let* _ := check_coinbase block in
  let* _ := check_coinstake block in
  let* _ := check_signature block fCheckSig in
  let* _ := check_transactions (vtx block) false in
  require (negb (u32 (block_sigops (vtx block) * WITNESS_SCALE_FACTOR) >? dgpMaxBlockSigOps dgp)) (bad 100 "bad-blk-sigops").

(** [CheckBlock] and [CheckBlockSW] have the same text but for the last argument
    of [CheckBlockHeader].  The result is the new value of [block.fChecked]. *)
Definition check_block c (fCheckPOS fChecked : bool) (block : CBlock) (fCheckPOW fCheckMerkleRoot fCheckSig : bool)
  : result block_reject bool * CCoinsViewCache V :=
  if fChecked then (Ok true, c)
  else match CheckBlockHeader c (header block) fCheckPOW fCheckPOS with
  | (Err e, c) => (Err e, c)
  | (Ok _, c) => (let* _ := check_body block fCheckMerkleRoot fCheckSig in Ok (fCheckPOW && fCheckMerkleRoot), c)
  end.
Definition CheckBlock c := check_block c false.
Definition CheckBlockSW c := check_block c true.

(** ** Rewards *)

Definition GetBlockSubsidy (nHeight : Z) : Z :=
  if nHeight <=? nLastPOWBlock params then 10000 * COIN
  else
    let halvings := (nHeight - nLastPOWBlock params - 1) ÷ nSubsidyHalvingInterval params in
    if halvings >=? 7 then 0 else (1 * COIN) >>' halvings.

(** [std::find] and [erase] for each output in turn. *)
Fixpoint erase_one (o : CTxOut) (l : list CTxOut) : option (list CTxOut) :=
  match l with
  | [] => None
  | x :: l => if bool_decide (x = o) then Some l else k ← erase_one o l; Some (x :: k)
  end.
Fixpoint erase_each (outs vTempVouts : list CTxOut) : option (list CTxOut) :=
  match outs with
  | [] => Some vTempVouts
  | o :: outs => k ← erase_one o vTempVouts; erase_each outs k
  end.

(** [mpos_scripts h] is what [GetMPoSOutputScripts] answers for the height [h];
    [testnet] whether the option is set. *)
Definition CheckReward (testnet : bool) (mpos_scripts : Z → option (list CScript)) (block : CBlock)
    (nHeight nFees gasRefunds nActualStakeReward : Z) (vouts : list CTxOut) (utxo_interest : Z) : result block_reject unit :=
  if negb testnet && (nHeight <? 194830) then Ok tt
  else
    let* _ := require (negb ((nHeight >? (if testnet then 71000 else 241000)) && (utxo_interest >? 0))) silent in
    match vtx block !! (if IsProofOfStake_header (header block) then 1 else 0)%nat with
    | None => Err (crash dangling)
    | Some tx =>
        match erase_each vouts (vout tx) with
        | None => Err (DoS 100 0 "" false)
        | Some vTempVouts =>
            let blockReward := i64 (nFees + GetBlockSubsidy nHeight) in
            if IsProofOfWork_header (header block) then
              match GetValueOut tx with
              | Err _ => Err (crash assertion_failed)
              | Ok out => require (negb (out >? blockReward)) (bad 100 "bad-cb-amount")
              end
            else
              let* _ := require (negb (i64 (nActualStakeReward - utxo_interest) >? blockReward)) (bad 100 "bad-cs-amount") in
              let rewardRecipients := if nHeight - 1 >=? nFirstMPoSBlock params then nMPoSRewardRecipients params else 1 in
              let* _ := require (negb (rewardRecipients <? 1)) silent in
              if rewardRecipients =? 1 then Ok tt
              else
                let* _ := require (negb (blockReward <? gasRefunds)) (bad 100 "bad-cs-gas-greater-than-reward") in
                let splitReward := i64 (blockReward - gasRefunds) ÷ rewardRecipients in
                match mpos_scripts (nHeight - 1) with
                | None => Err silent
                | Some mposScriptList =>
                    match erase_each (mk_txout splitReward <$> mposScriptList) vTempVouts with
                    | None => Err (bad 100 "bad-cs-mpos-missing")
                    | Some _ => Ok tt
                    end
                end
        end
    end.

(** Prices are 256-bit integers. *)
Definition CheckMinGasPrice (gasPrices : list Z) (minGasPrice : Z) : bool :=
  forallb (λ p, negb (p <? minGasPrice)) gasPrices.
End Headers.
