(* ===== verification/BlockChecksFacts.v ===== *)
(** * What the block checks accept *)
From stdpp Require Import strings.
From S2P Require Import Prelude ArithUint256 Script Interpreter InterpreterFacts InterpreterSpecs StandardScripts Serialize Transaction SigHash Standard Coins CoinsFacts Block Chain ChainFacts TxVerify Pow Pos VersionBits VersionBitsFacts BlockChecks.
Import BaseUint.

(** ** Signature operations never overflow in a block of bounded size *)

Definition script_bytes (tx : CTransaction) : Z :=
  sum_of (λ i, size (scriptSig i)) (vin tx) + sum_of (λ o, size (scriptPubKey o)) (vout tx).
(** The number of signature operations, added up without wrap-around. *)
Definition sigops (tx : CTransaction) : Z :=
  sum_of (λ i, GetSigOpCount (scriptSig i) false) (vin tx) + sum_of (λ o, GetSigOpCount (scriptPubKey o) false) (vout tx).

Lemma sum_of_bounds {A} (f g : A → Z) (k : Z) l : (∀ x, 0 ≤ f x ≤ k * g x) → 0 ≤ sum_of f l ≤ k * sum_of g l.
Proof. intros Hf. induction l as [|x l IH]; simpl; [lia|]. specialize (Hf x). lia. Qed.
Lemma u32_le x : 0 ≤ x → 0 ≤ u32 x ≤ x.
Proof. intros. unfold u32, wrap. split; [apply Z.mod_pos_bound; lia|apply Z.mod_le; lia]. Qed.
Lemma foldl_u32 {A} (f : A → Z) l : ∀ n, u32 (foldl (λ n x, u32 (n + f x)) n l) = u32 (n + sum_of f l).
Proof.
  induction l as [|x l IH]; intros n; simpl; [by rewrite Z.add_0_r|].
  rewrite IH. unfold u32, wrap. rewrite Zplus_mod_idemp_l. f_equal. lia.
Qed.
Lemma foldl_u32_small {A} (f : A → Z) l n : 0 ≤ n < 2 ^ 32 → foldl (λ n x, u32 (n + f x)) n l = u32 (n + sum_of f l).
Proof.
  intros Hn. rewrite <- foldl_u32. symmetry. apply wrap_small. revert n Hn.
  induction l as [|x l IH]; intros n Hn; simpl; [done|]. apply IH. apply (wrap_range 32); lia.
Qed.

Lemma GetSigOpCount_loop_bound fuel : ∀ last pc n, 0 ≤ n → 
  0 ≤ GetSigOpCount_loop fuel false last pc n ≤ n + 20 * size pc.
Proof.
  induction fuel as [|fuel IH]; intros last pc n Hn; cbn [GetSigOpCount_loop]; [pose proof (size_nonneg pc); lia|].
  destruct pc as [|b pc]; [unfold size; simpl; lia|].
  destruct (GetScriptOp (b :: pc)) as [[[ok op] v] pc'] eqn:Hop. destruct ok; cbn [negb]; [|pose proof (size_nonneg (b :: pc)); lia].
  apply GetScriptOp_consumes in Hop as [Hlen _]. cbn [andb].
  assert (size pc' + 1 ≤ size (b :: pc)) as Hs by (unfold size; lia).
  assert (∀ k, 0 ≤ k → k ≤ n + 20 → 0 ≤ GetSigOpCount_loop fuel false op pc' k ≤ n + 20 * size (b :: pc)) as Hk.
  { intros k ? ?. destruct (IH op pc' k); [done|]. split; [done|]. lia. }
  repeat case_match; apply Hk; rewrite ?Z.add_0_r; try lia.
  - apply u32_le; lia.
  - pose proof (u32_le (n + 1)); lia.
  - apply u32_le; unfold MAX_PUBKEYS_PER_MULTISIG; lia.
  - pose proof (u32_le (n + MAX_PUBKEYS_PER_MULTISIG)). unfold MAX_PUBKEYS_PER_MULTISIG in *; lia.
Qed.
Lemma GetSigOpCount_bound s : 0 ≤ GetSigOpCount s false ≤ 20 * size s.
Proof. by apply GetSigOpCount_loop_bound. Qed.
Lemma sigops_bound tx : 0 ≤ sigops tx ≤ 20 * script_bytes tx.
Proof.
  unfold sigops, script_bytes.
  pose proof (sum_of_bounds (λ i, GetSigOpCount (scriptSig i) false) (λ i, size (scriptSig i)) 20 (vin tx) (λ i, GetSigOpCount_bound _)).
  pose proof (sum_of_bounds (λ o, GetSigOpCount (scriptPubKey o) false) (λ o, size (scriptPubKey o)) 20 (vout tx) (λ o, GetSigOpCount_bound _)).
  lia.
Qed.
Lemma GetLegacySigOpCount_mod tx : GetLegacySigOpCount tx = u32 (sigops tx).
Proof.
  unfold GetLegacySigOpCount, sigops. rewrite foldl_u32_small.
  - rewrite foldl_u32_small by lia. unfold u32, wrap. by rewrite Zplus_mod_idemp_l, Z.add_0_l.
  - rewrite foldl_u32_small by lia. apply (wrap_range 32). lia.
Qed.
Lemma block_sigops_exact txs :
  80 * sum_of script_bytes txs < 2 ^ 32 → u32 (block_sigops txs * WITNESS_SCALE_FACTOR) = 4 * sum_of sigops txs.
Proof.
  intros Hb. pose proof (sum_of_bounds sigops script_bytes 20 txs sigops_bound).
  unfold block_sigops. rewrite foldl_u32_small by lia. rewrite Z.add_0_l.
  assert (∀ l, u32 (sum_of GetLegacySigOpCount l) = u32 (sum_of sigops l)) as ->.
  { induction l as [|tx l IH]; simpl; [done|]. rewrite GetLegacySigOpCount_mod. unfold u32, wrap in *.
    rewrite Zplus_mod_idemp_l, Zplus_mod, IH, <- Zplus_mod. done. }
  unfold WITNESS_SCALE_FACTOR. unfold u32, wrap in *. rewrite Z.mul_mod_idemp_l, Z.mod_small by lia. lia.
Qed.

(** ** [CheckBlock] *)

(** A transaction that spends a contract's coins follows a transaction that
    touches contracts. *)
Definition follows_contract (txs : list CTransaction) : Prop :=
  ∀ i tx, txs !! i = Some tx → HasOpSpend_tx tx = true →
    ∃ j prev, i = S j ∧ txs !! j = Some prev ∧ has_contract prev = true.

Lemma check_transactions_spec dgp txs last :
  check_transactions dgp txs last = Ok tt ↔
  Forall (λ tx, CheckTransaction dgp tx true = Ok tt) txs ∧
  (∀ i tx, txs !! i = Some tx → HasOpSpend_tx tx = true →
     (i = 0%nat ∧ last = true) ∨ ∃ j prev, i = S j ∧ txs !! j = Some prev ∧ has_contract prev = true).
Proof.
  revert last. induction txs as [|tx txs IH]; intros last; cbn [check_transactions]; [by split|].
  autorewrite with results. rewrite IH, Forall_cons. clear IH.
  assert (with_tx tx (CheckTransaction dgp tx true) = Ok tt ↔ CheckTransaction dgp tx true = Ok tt) as ->.
  { unfold with_tx. destruct (CheckTransaction dgp tx true) as [[]|]; naive_solver. }
  assert (HasCreateOrCall tx || HasOpSpend_tx tx = has_contract tx) as -> by apply orb_comm.
  split.
  - intros (H1 & H2 & H3 & H4). split_and!; [done|done|]. intros [|i] t Ht Hs.
    + injection Ht as <-. left. rewrite Hs in H2. by destruct last.
    + right. exists i. destruct (H4 i t Ht Hs) as [[-> Hc]|(j & prev & -> & Hj & Hc)]; [by exists tx|by exists prev].
  - intros ((H1 & H2) & H3). split_and!; [done| |done|].
    + destruct (HasOpSpend_tx tx) eqn:Hs; [|done]. by destruct (H3 0%nat tx eq_refl Hs) as [[_ ->]|(j & ? & [=] & _)].
    + intros i t Ht Hs. destruct (H3 (S i) t Ht Hs) as [[[=] _]|(j & prev & [= <-] & Hj & Hc)].
      destruct i as [|i]; [left; split; [done|]; by injection Hj as ->|right; by exists i, prev].
Qed.

Lemma check_merkle_spec `{C : Crypto} block : check_merkle block = Ok tt ↔ BlockMerkleRoot block = (hashMerkleRoot (header block), false).
Proof.
  unfold check_merkle. destruct (BlockMerkleRoot block) as [r mu]. autorewrite with results. rewrite bool_decide_eq_true, negb_true_iff.
  naive_solver.
Qed.

Section Accepts.
Context `{C : Crypto} {V : Type} `{CoinsView V} (m : BlockMap) (params : consensus_params) (dgp : dgp_params).
Context (spent_coin : uint256 → COutPoint → option Coin) (recover : uint256 → bytes → Z → bool → option bytes).
Context (Verify : bytes → uint256 → bytes → bool) (initial_download : bool) (adjusted_time : Z).

(** The first transaction is the only coinbase, and free of contracts. *)
Definition coinbase_first (txs : list CTransaction) : Prop :=
  ∃ cb rest, txs = cb :: rest ∧ IsCoinBase cb = true ∧ Forall (λ tx, IsCoinBase tx = false) rest ∧ has_contract cb = false.
(** The second one is the only coin stake, spends what the header stakes, is free
    of contracts, and the coinbase pays nothing. *)
Definition coinstake_second (block : CBlock) : Prop :=
  ∃ cb cs rest i ins, vtx block = cb :: cs :: rest ∧ CheckFirstCoinstakeOutput block = true ∧ IsCoinStake cs = true ∧
    vin cs = i :: ins ∧ prevout i = prevoutStake_blk (header block) ∧
    Forall (λ tx, IsCoinStake tx = false) rest ∧ has_contract cs = false.
(** A block of work carries no signature, one of stake the signature of the key
    its coin stake names. *)
Definition signed (block : CBlock) : Prop :=
  if IsProofOfStake_header (header block) then
    ∃ k pubkey, GetBlockPublicKey block = Ok (Some k) ∧ CPubKey k = Some pubkey ∧
      Verify pubkey (GetHashWithoutSign (header block)) (vchBlockSig (header block)) = true
  else vchBlockSig (header block) = [].

Record block_ok (block : CBlock) : Prop := {
  ok_work : IsProofOfStake_header (header block) = false → CheckHeaderPoW params (header block) = true;
  ok_time : IsProofOfStake_header (header block) = true → nTime_blk (header block) ≤ FutureDrift adjusted_time;
  ok_root : BlockMerkleRoot block = (hashMerkleRoot (header block), false);
  ok_coinbase : coinbase_first (vtx block);
  ok_coinstake : IsProofOfStake_header (header block) = true → coinstake_second block;
  ok_signed : signed block;
  ok_transactions : Forall (λ tx, CheckTransaction dgp tx true = Ok tt) (vtx block);
  ok_spends : follows_contract (vtx block);
  ok_sigops : 4 * sum_of sigops (vtx block) ≤ dgpMaxBlockSigOps dgp
}.

Lemma forallb_negb {A} (f : A → bool) l : forallb (λ x, negb (f x)) l = true ↔ Forall (λ x, f x = false) l.
Proof. rewrite forallb_forall, Forall_forall. setoid_rewrite negb_true_iff. by setoid_rewrite list_elem_of_In. Qed.

Lemma check_coinbase_spec block : check_coinbase block = Ok tt ↔ coinbase_first (vtx block).
Proof.
  unfold check_coinbase, coinbase_first. destruct (vtx block) as [|cb rest]; [naive_solver|].
  autorewrite with results. rewrite forallb_negb, negb_true_iff. naive_solver.
Qed.
Lemma check_coinstake_spec block :
  check_coinstake block = Ok tt ↔ (IsProofOfStake_header (header block) = true → coinstake_second block).
Proof.
  unfold check_coinstake. destruct (IsProofOfStake_header (header block)); [|done]. autorewrite with results.
  unfold coinstake_second, stakes_prevout. destruct (vtx block) as [|cb [|cs rest]]; [naive_solver..|].
  autorewrite with results. rewrite forallb_negb, negb_true_iff.
  split.
  - intros (Hf & Hcs & Hp & Hr & Hc) _. destruct (vin cs) as [|i ins] eqn:Hi; [done|]. apply bool_decide_eq_true in Hp.
    by exists cb, cs, rest, i, ins.
  - intros Hs. destruct (Hs eq_refl) as (? & ? & ? & i & ins & [= <- <- <-] & Hf & Hcs & Hi & Hp & Hr & Hc).
    rewrite Hi, bool_decide_eq_true. by split_and!.
Qed.
Lemma check_signature_spec block : check_signature Verify block true = Ok tt ↔ signed block.
Proof.
  unfold check_signature, CheckBlockSignature, signed, IsProofOfWork_header. destruct (IsProofOfStake_header (header block)); cbn [negb].
  - destruct (GetBlockPublicKey block) as [[k|]|]; cbn [rbind]; [|naive_solver..]. rewrite require_Ok.
    destruct (CPubKey k) eqn:E; naive_solver.
  - rewrite require_Ok. destruct (vchBlockSig (header block)) as [|x l]; [done|]. rewrite size_cons. pose proof (size_nonneg l).
    split; [lia|done].
Qed.

Lemma CheckBlock_spec (c : CCoinsViewCache V) block :
  80 * sum_of script_bytes (vtx block) < 2 ^ 32 →
  (CheckBlock m params dgp spent_coin recover Verify initial_download adjusted_time c false block true true true).1 = Ok true ↔
  block_ok block.
Proof.
  intros Hb. unfold CheckBlock, check_block, CheckBlockHeader. cbn [andb].
  assert (check_body dgp Verify adjusted_time block true true = Ok tt ∧
          (IsProofOfStake_header (header block) = false → CheckHeaderPoW params (header block) = true) ↔ block_ok block) as <-.
  { unfold check_body. autorewrite with results.
    rewrite check_merkle_spec, check_coinbase_spec, check_coinstake_spec, check_signature_spec, check_transactions_spec, block_sigops_exact by done.
    rewrite !negb_true_iff, andb_false_iff, !Z.gtb_ltb, !Z.ltb_ge.
    assert ((∀ i tx, vtx block !! i = Some tx → HasOpSpend_tx tx = true → (i = 0%nat ∧ false = true) ∨
      ∃ j prev, i = S j ∧ vtx block !! j = Some prev ∧ has_contract prev = true) ↔ follows_contract (vtx block)) as ->.
    { unfold follows_contract. split; intros Hf i tx Hi Hs; [by destruct (Hf i tx Hi Hs) as [[? ?]|?]|right; eauto]. }
    split; [intros ((? & ? & ? & ? & ? & [? ?] & ?) & ?); constructor; try done|intros []; split_and!; try done].
    - by destruct (IsProofOfStake_header (header block)) eqn:E; naive_solver.
    - destruct (IsProofOfStake_header (header block)); [right; auto|by left]. }
  unfold IsProofOfWork_header. destruct (IsProofOfStake_header (header block)), (CheckHeaderPoW params (header block)); cbn [negb andb fst];
    destruct (check_body dgp Verify adjusted_time block true true) as [[]|]; cbn [rbind]; naive_solver.
Qed.
End Accepts.

(** ** The commitment a miner makes is the one that is checked *)

Lemma commitment_loop_snoc x : ∀ l o p,
  commitment_loop (l ++ [x]) o p = if is_commitment x then Some (o + length l)%nat else commitment_loop l o p.
Proof.
  induction l as [|y l IH]; intros o p; simpl; [by rewrite Nat.add_0_r|]. rewrite IH. destruct (is_commitment x); [|done].
  f_equal. lia.
Qed.

Section Commitments.
Context `{C : Crypto} `{!CryptoSizes C}.

Lemma commitment_output_hash r : take 32 (drop 6 (scriptPubKey (commitment_output r))) = CHash256 (r ++ zero_nonce).
Proof.
  unfold commitment_output. cbn [scriptPubKey commitment_header app drop]. apply take_ge.
  pose proof (CSHA256_size (CSHA256 (r ++ zero_nonce))) as Hs. unfold size in Hs. unfold CHash256. lia.
Qed.
Lemma commitment_output_is r : is_commitment (commitment_output r) = true.
Proof.
  unfold is_commitment, commitment_output. cbn [scriptPubKey]. rewrite size_app. unfold CHash256. rewrite CSHA256_size.
  by rewrite bool_decide_true.
Qed.
Lemma BlockWitnessMerkleRoot_body block cb cb' rest p : vtx block = cb :: rest →
  BlockWitnessMerkleRoot (set_coinbase block cb') p = BlockWitnessMerkleRoot block p.
Proof. intros E. unfold BlockWitnessMerkleRoot, set_coinbase. cbn [header vtx]. by rewrite E. Qed.
Lemma BlockWitnessMerkleRoot_defined block cb rest p :
  vtx block = cb :: rest → (p = true → rest ≠ []) → ∃ root mu, BlockWitnessMerkleRoot block (Some p) = Some (root, mu).
Proof.
  intros E Hp. unfold BlockWitnessMerkleRoot. rewrite E. cbn [default]. destruct p, rest as [|r rest]; [by destruct Hp| | |];
    match goal with |- context [Some (ComputeMerkleRoot ?l)] => destruct (ComputeMerkleRoot l) as [a b]; by exists a, b end.
Qed.

Lemma GenerateCoinbaseCommitment_spec m params cache cache' block cb i ins rest pindexPrev :
  vtx block = cb :: rest → vin cb = i :: ins → HasWitness cb = false → GetWitnessCommitmentIndex block = None →
  (IsProofOfStake_header (header block) = true → rest ≠ []) →
  IsScriptWitnessEnabled (vb params) = true → IsWitnessEnabled m (vb params) pindexPrev cache = Ok (true, cache') →
  ∃ commitment cb',
    GenerateCoinbaseCommitment m params cache block pindexPrev (IsProofOfStake_header (header block))
      = Ok (commitment, set_coinbase block cb', cache') ∧
    check_witness true (set_coinbase block cb') = Ok tt ∧
    GetHash cb' = GetHash (mk_tx (vin cb) (vout cb ++ [mk_txout 0 commitment]) (nVersion cb) (nLockTime cb)) ∧
    (CheckFirstCoinstakeOutput block = true → CheckFirstCoinstakeOutput (set_coinbase block cb') = true).
Proof.
  intros E Ei Hw Hn Hp Ht He. unfold GenerateCoinbaseCommitment. unfold IsScriptWitnessEnabled in Ht. rewrite Ht, Hn, E.
  destruct (BlockWitnessMerkleRoot_defined block cb rest _ E Hp) as (root & mu & Hr). rewrite Hr. cbn [rbind snd fst].
  set (out := commitment_output root).
  set (nonced := mk_txin (prevout i) (scriptSig i) (nSequence i) [zero_nonce] :: ins).
  assert (∀ v, GetWitnessCommitmentIndex (set_coinbase block (mk_tx v (vout cb ++ [out]) (nVersion cb) (nLockTime cb))) = Some (length (vout cb))) as Hix.
  { intros v. unfold GetWitnessCommitmentIndex, set_coinbase. cbn [vtx vout].
    rewrite commitment_loop_snoc. unfold out. by rewrite commitment_output_is. }
  unfold UpdateUncommittedBlockStructures. rewrite Hix. unfold set_coinbase at 1. cbn [vtx]. rewrite He. cbn [rbind fst snd].
  assert (HasWitness (mk_tx (vin cb) (vout cb ++ [out]) (nVersion cb) (nLockTime cb)) = false) as -> by exact Hw. cbn [negb andb].
  unfold set_first_witness. cbn [vin]. rewrite Ei. cbn [vout nVersion nLockTime rbind fst snd]. fold nonced.
  eexists _, _. split; [reflexivity|]. split_and!.
  - unfold check_witness. rewrite Hix. cbn [set_coinbase vtx vin nonced scriptWitness vout].
    rewrite (BlockWitnessMerkleRoot_body block cb _ rest None E).
    assert (BlockWitnessMerkleRoot block None = Some (root, mu)) as -> by exact Hr.
    rewrite nth_middle. change (size zero_nonce =? 32) with true. cbn [require rbind].
    unfold out. by rewrite commitment_output_hash, bool_decide_true.
  - unfold GetHash. by f_equal.
  - unfold CheckFirstCoinstakeOutput. rewrite Hix, Hn, E. cbn [set_coinbase vtx vout].
    destruct (vout cb) as [|o [|]]; [done| |done]. cbn [app]. intros ->. done.
Qed.
End Commitments.

(** ** Subsidies *)

(** What the blocks of heights 1 to [n] create. *)
Definition total_subsidy (params : consensus_params) (n : nat) : Z :=
  sum_of (λ h, GetBlockSubsidy params (Z.of_nat h)) (seq 1 n).
Lemma total_subsidy_S params n : total_subsidy params (S n) = total_subsidy params n + GetBlockSubsidy params (Z.of_nat n + 1).
Proof.
  unfold total_subsidy. rewrite seq_S, sum_of_app. unfold sum_of at 2. cbn [foldr]. rewrite Z.add_0_r. do 2 f_equal. lia.
Qed.

Section Subsidy.
Context (params : consensus_params) (H0 : 0 ≤ nLastPOWBlock params) (HI : 0 < nSubsidyHalvingInterval params).
Abbreviation I := (nSubsidyHalvingInterval params).

Definition era (k : Z) : Z := k / I.
Definition era_subsidy (q : Z) : Z := COIN / 2 ^ q.
Lemma era_subsidy_halves q : 0 ≤ q → 0 ≤ 2 * era_subsidy (q + 1) ≤ era_subsidy q.
Proof.
  intros Hq. unfold era_subsidy. replace (2 ^ (q + 1)) with (2 ^ q * 2) by (rewrite Z.pow_add_r; lia).
  rewrite <- Z.div_div by lia. pose proof (Z.mul_div_le (COIN / 2 ^ q) 2).
  assert (0 ≤ COIN / 2 ^ q) by (apply Z.div_pos; [done|lia]). assert (0 ≤ COIN / 2 ^ q / 2) by (apply Z.div_pos; lia). lia.
Qed.
Lemma era_subsidy_nonneg q : 0 ≤ q → 0 ≤ era_subsidy q ≤ COIN.
Proof.
  intros. unfold era_subsidy. pose proof (Z.pow_pos_nonneg 2 q).
  split; [apply Z.div_pos; [done|lia]|apply Z.div_le_upper_bound; [lia|unfold COIN; lia]].
Qed.

Lemma GetBlockSubsidy_staked k : 0 ≤ k →
  GetBlockSubsidy params (nLastPOWBlock params + 1 + k) = if era k <? 7 then era_subsidy (era k) else 0.
Proof.
  intros Hk. unfold GetBlockSubsidy, era, era_subsidy. replace (nLastPOWBlock params + 1 + k <=? nLastPOWBlock params) with false by lia.
  replace (nLastPOWBlock params + 1 + k - nLastPOWBlock params - 1) with k by lia. rewrite Z.quot_div_nonneg by lia.
  assert (0 ≤ k / I) by (apply Z.div_pos; lia). rewrite Z.geb_leb, Z.leb_antisym. destruct (k / I <? 7); [|done]. cbn [negb].
  by rewrite Z.mul_1_l, shr_div by lia.
Qed.

(** What the staked blocks from number [k] on can still create. *)
Definition remaining (k : Z) : Z := ((era k + 1) * I - k) * era_subsidy (era k) + I * era_subsidy (era k).
Lemma era_bounds k : 0 ≤ k → 0 ≤ era k ∧ era k * I ≤ k < (era k + 1) * I.
Proof.
  intros. unfold era. split; [apply Z.div_pos; lia|]. pose proof (Z.div_mod k I). pose proof (Z.mod_pos_bound k I). nia.
Qed.
Lemma remaining_nonneg k : 0 ≤ k → 0 ≤ remaining k.
Proof. intros Hk. pose proof (era_bounds k Hk). unfold remaining. pose proof (era_subsidy_nonneg (era k)). nia. Qed.
Lemma remaining_step k : 0 ≤ k → remaining (k + 1) + GetBlockSubsidy params (nLastPOWBlock params + 1 + k) ≤ remaining k.
Proof.
  intros Hk. rewrite GetBlockSubsidy_staked by done. pose proof (era_bounds k Hk) as (Hq & Hlo & Hhi).
  pose proof (era_subsidy_nonneg (era k) Hq) as Hs.
  assert ((if era k <? 7 then era_subsidy (era k) else 0) ≤ era_subsidy (era k)) as Hle by (destruct (era k <? 7); lia).
  destruct (decide (k + 1 < (era k + 1) * I)) as [Hin|Hout].
  - assert (era (k + 1) = era k) as E by (unfold era at 1; symmetry; apply (Z.div_unique_pos _ _ _ (k + 1 - I * era k)); lia).
    unfold remaining. rewrite E. nia.
  - assert (era (k + 1) = era k + 1) as E by (unfold era at 1; symmetry; apply (Z.div_unique_pos _ _ _ 0); lia).
    unfold remaining. rewrite E. pose proof (era_subsidy_halves (era k) Hq). nia.
Qed.

Lemma GetBlockSubsidy_bounds h : 0 ≤ GetBlockSubsidy params h ≤ 10000 * COIN.
Proof.
  destruct (decide (h ≤ nLastPOWBlock params)).
  - unfold GetBlockSubsidy. replace (h <=? nLastPOWBlock params) with true by lia. by vm_compute.
  - replace h with (nLastPOWBlock params + 1 + (h - nLastPOWBlock params - 1)) by lia. rewrite GetBlockSubsidy_staked by lia.
    pose proof (era_subsidy_nonneg (era (h - nLastPOWBlock params - 1))). pose proof (era_bounds (h - nLastPOWBlock params - 1)).
    unfold COIN in *. destruct (era (h - nLastPOWBlock params - 1) <? 7); lia.
Qed.
Lemma total_subsidy_pow n : Z.of_nat n ≤ nLastPOWBlock params → total_subsidy params n = 10000 * COIN * Z.of_nat n.
Proof.
  induction n as [|n IH]; intros Hn; [done|]. rewrite total_subsidy_S, IH by lia. unfold GetBlockSubsidy.
  replace (Z.of_nat n + 1 <=? nLastPOWBlock params) with true by lia. lia.
Qed.
Lemma total_subsidy_pos (k : nat) :
  total_subsidy params (Z.to_nat (nLastPOWBlock params) + k) + remaining (Z.of_nat k)
  ≤ 10000 * COIN * nLastPOWBlock params + 2 * COIN * I.
Proof.
  induction k as [|k IH].
  - rewrite Nat.add_0_r, total_subsidy_pow by lia. unfold remaining, era, era_subsidy. rewrite Z.div_0_l by lia.
    change (COIN / 2 ^ 0) with COIN. rewrite Z2Nat.id by lia. nia.
  - rewrite Nat.add_succ_r, total_subsidy_S. pose proof (remaining_step (Z.of_nat k)).
    replace (Z.of_nat (Z.to_nat (nLastPOWBlock params) + k) + 1) with (nLastPOWBlock params + 1 + Z.of_nat k) by lia.
    replace (Z.of_nat (S k)) with (Z.of_nat k + 1) by lia. lia.
Qed.
Lemma total_subsidy_bound n : total_subsidy params n ≤ 10000 * COIN * nLastPOWBlock params + 2 * COIN * I.
Proof.
  destruct (decide (Z.of_nat n ≤ nLastPOWBlock params)).
  - rewrite total_subsidy_pow by done. unfold COIN. nia.
  - replace n with (Z.to_nat (nLastPOWBlock params) + (n - Z.to_nat (nLastPOWBlock params)))%nat by lia.
    pose proof (total_subsidy_pos (n - Z.to_nat (nLastPOWBlock params))).
    pose proof (remaining_nonneg (Z.of_nat (n - Z.to_nat (nLastPOWBlock params)))). lia.
Qed.
End Subsidy.

(** ** Rewards *)

Lemma erase_one_spec o l : match erase_one o l with Some k => l ≡ₚ o :: k | None => o ∉ l end.
Proof.
  induction l as [|x l IH]; cbn [erase_one]; [apply not_elem_of_nil|]. case_bool_decide as Hx; [by rewrite Hx|].
  destruct (erase_one o l) as [k|]; simpl.
  - rewrite IH. apply Permutation_swap.
  - intros [->|?]%elem_of_cons; done.
Qed.
Lemma erase_each_spec outs : ∀ l, match erase_each outs l with Some k => l ≡ₚ outs ++ k | None => ¬ outs ⊆+ l end.
Proof.
  induction outs as [|o outs IH]; intros l; cbn [erase_each]; [done|]. pose proof (erase_one_spec o l) as Ho.
  destruct (erase_one o l) as [k|]; simpl.
  - specialize (IH k). destruct (erase_each outs k) as [j|]; [by rewrite Ho, IH|].
    rewrite Ho. intros Hs. apply IH. by apply (submseteq_app_inv_l outs k [o]).
  - intros Hs. apply Ho. by apply (elem_of_submseteq (o :: outs)); [apply list_elem_of_here|].
Qed.
Lemma erase_each_twice a b l :
  (∃ k j, erase_each a l = Some k ∧ erase_each b k = Some j) ↔ a ++ b ⊆+ l.
Proof.
  pose proof (erase_each_spec a l) as Ha. destruct (erase_each a l) as [k|].
  - pose proof (erase_each_spec b k) as Hb. split.
    + intros (? & j & [= <-] & E). rewrite E in Hb. rewrite Ha, Hb, app_assoc. apply submseteq_inserts_r. done.
    + rewrite Ha. intros Hs%submseteq_app_inv_l. destruct (erase_each b k) as [j|] eqn:E; [by exists k, j|by destruct Hb].
  - split; [by intros (? & ? & [=] & _)|]. intros Hs. destruct Ha. etrans; [|exact Hs]. by apply submseteq_inserts_r.
Qed.

Section Rewards.
Context (params : consensus_params) (testnet : bool) (mpos_scripts : Z → option (list CScript)).

(** How many share the reward of a block of this height. *)
Definition recipients (nHeight : Z) : Z := if nHeight - 1 >=? nFirstMPoSBlock params then nMPoSRewardRecipients params else 1.
(** The reward is paid out as the rules ask: the interest has stopped, fees and
    subsidy bound the stake reward, the refunds [vouts] and an equal share for
    each of the past stakers are distinct outputs of the coin stake. *)
Definition reward_ok (block : CBlock) (nHeight nFees gasRefunds nActualStakeReward : Z) (vouts : list CTxOut) (utxo_interest : Z) : Prop :=
  let blockReward := nFees + GetBlockSubsidy params nHeight in
  (nHeight > (if testnet then 71000 else 241000) → utxo_interest ≤ 0) ∧
  1 ≤ recipients nHeight ∧
  ∃ cs, vtx block !! 1%nat = Some cs ∧ nActualStakeReward - utxo_interest ≤ blockReward ∧
    ∃ shares, vouts ++ shares ⊆+ vout cs ∧
      if recipients nHeight =? 1 then shares = []
      else gasRefunds ≤ blockReward ∧ ∃ scripts, mpos_scripts (nHeight - 1) = Some scripts ∧
             shares = mk_txout ((blockReward - gasRefunds) / recipients nHeight) <$> scripts.

Lemma CheckReward_spec block nHeight nFees gasRefunds nActualStakeReward vouts utxo_interest :
  0 < nSubsidyHalvingInterval params → IsProofOfStake_header (header block) = true → testnet = true ∨ 194830 ≤ nHeight →
  0 ≤ nFees ≤ MAX_MONEY → 0 ≤ gasRefunds ≤ MAX_MONEY → - MAX_MONEY ≤ nActualStakeReward ≤ MAX_MONEY → 0 ≤ utxo_interest ≤ MAX_MONEY →
  CheckReward params testnet mpos_scripts block nHeight nFees gasRefunds nActualStakeReward vouts utxo_interest = Ok tt ↔
  reward_ok block nHeight nFees gasRefunds nActualStakeReward vouts utxo_interest.
Proof.
  intros HI Hs Hh Hf Hg Ha Hu. unfold CheckReward, reward_ok. fold (recipients nHeight). cbv zeta.
  assert (negb testnet && (nHeight <? 194830) = false) as -> by (destruct testnet; simpl; [done|lia]).
  pose proof (GetBlockSubsidy_bounds params HI nHeight) as Hsub. assert (MAX_MONEY < 2 ^ 60) as Hm by done.
  assert (10000 * COIN < 2 ^ 60) as Hc by done. set (sub := GetBlockSubsidy params nHeight) in *.
  unfold IsProofOfWork_header. rewrite Hs. cbn [negb]. autorewrite with results. rewrite negb_true_iff, andb_false_iff.
  assert (∀ b : Z, (nHeight >? b) = false ∨ (utxo_interest >? 0) = false ↔ (nHeight > b → utxo_interest ≤ 0)) as -> by lia.
  destruct (vtx block !! 1%nat) as [cs|]; [|split; [by intros [_ ?]|by intros (_ & _ & ? & [=] & _)]].
  rewrite !(i64_small (nFees + sub)), !(i64_small (nActualStakeReward - utxo_interest)) by lia.
  pose proof (erase_each_spec vouts (vout cs)) as He.
  assert (∀ P : Prop, (∃ t, Some cs = Some t ∧ P) ↔ P) as _ by naive_solver.
  assert (Hsplit : ∀ P : list CTxOut → Prop, (∃ shares, vouts ++ shares ⊆+ vout cs ∧ P shares) →
                   ∃ k, erase_each vouts (vout cs) = Some k).
  { intros P (sh & Hsh & _). destruct (erase_each vouts (vout cs)) as [k|]; [by exists k|]. destruct He.
    etrans; [|exact Hsh]. by apply submseteq_inserts_r. }
  destruct (erase_each vouts (vout cs)) as [k|] eqn:E1; [|].
  2:{ split; [by intros [_ ?]|]. intros (_ & _ & t & [= <-] & _ & Hx). by destruct (Hsplit _ Hx). }
  autorewrite with results. rewrite !negb_true_iff, Z.gtb_ltb, !Z.ltb_ge. split.
  - intros (Hi & Hr & Hn & Hk). split_and!; [done|done|]. exists cs. split_and!; [done|done|].
    destruct (recipients nHeight =? 1) eqn:Hone.
    + exists []. split; [|done]. rewrite app_nil_r, He. by apply submseteq_inserts_r.
    + autorewrite with results in Hk. rewrite negb_true_iff, Z.ltb_ge in Hk. destruct Hk as [Hge Hk].
      rewrite i64_small, Z.quot_div_nonneg in Hk by lia. destruct (mpos_scripts (nHeight - 1)) as [l|]; [|done].
      destruct (erase_each _ k) as [j|] eqn:E2 in Hk; [|done]. eexists. split; [|split; [done|by exists l]].
      apply erase_each_twice. by exists k, j.
  - intros (Hi & Hr & t & [= <-] & Hn & sh & Hsh & Hone). split_and!; [done|done|done|].
    destruct (recipients nHeight =? 1) eqn:Hr1; [done|]. destruct Hone as (Hge & l & -> & ->).
    autorewrite with results. rewrite negb_true_iff, Z.ltb_ge. split; [done|]. rewrite i64_small, Z.quot_div_nonneg by lia.
    apply erase_each_twice in Hsh as (k' & j & [= <-]%(eq_trans (eq_sym E1)) & ->). done.
Qed.
End Rewards.

(** ** Main statements *)

(** C9: [CheckBlock] accepts a block exactly when it is well formed.  Its work or
    time is right, its transactions hash to the root without duplicates, it
    starts with the only coinbase (and, staked, continues with the only coin
    stake, which spends the staked output), it is signed, every transaction
    passes its own checks, contract spends follow contract transactions, and
    four times the signature operations stay within the limit: the 32-bit
    counters cannot wrap as long as the scripts have less than 2^32 / 80 bytes. *)
Theorem check_block_accepts `{C : Crypto} {V : Type} `{CoinsView V} m params dgp spent_coin recover Verify initial_download
    adjusted_time (c : CCoinsViewCache V) block :
  80 * sum_of script_bytes (vtx block) < 2 ^ 32 →
  (CheckBlock m params dgp spent_coin recover Verify initial_download adjusted_time c false block true true true).1 = Ok true ↔
  block_ok params dgp Verify adjusted_time block.
Proof. apply CheckBlock_spec. Qed.

(** The witness commitment that [GenerateCoinbaseCommitment] adds to a block
    without one is the commitment [ContextualCheckBlock] asks for once the
    deployment is active; the coinbase keeps its inputs apart from the reserved
    value in the witness, and a staked block keeps the empty coinbase that
    [CheckBlock] wants. *)
Theorem generated_commitment_accepted (C : Crypto) (Csizes : CryptoSizes C) m params cache cache' block cb i ins rest pindexPrev :
  vtx block = cb :: rest → vin cb = i :: ins → HasWitness cb = false → GetWitnessCommitmentIndex block = None →
  (IsProofOfStake_header (header block) = true → rest ≠ []) →
  IsScriptWitnessEnabled (vb params) = true → IsWitnessEnabled m (vb params) pindexPrev cache = Ok (true, cache') →
  ∃ commitment cb',
    GenerateCoinbaseCommitment m params cache block pindexPrev (IsProofOfStake_header (header block))
      = Ok (commitment, set_coinbase block cb', cache') ∧
    check_witness true (set_coinbase block cb') = Ok tt ∧
    GetHash cb' = GetHash (mk_tx (vin cb) (vout cb ++ [mk_txout 0 commitment]) (nVersion cb) (nLockTime cb)) ∧
    (CheckFirstCoinstakeOutput block = true → CheckFirstCoinstakeOutput (set_coinbase block cb') = true).
Proof. apply GenerateCoinbaseCommitment_spec. Qed.

(** The money supply is bounded.  Every subsidy lies between nothing and ten
    thousand coins, and however long the chain grows the subsidies of its blocks
    add up to at most ten thousand coins for each block of work and two coins
    for each block of the first halving interval; with the parameters of the
    main network this is less than [MAX_MONEY]. *)
Theorem subsidy_bounded params n :
  0 ≤ nLastPOWBlock params → 0 < nSubsidyHalvingInterval params →
  (∀ h, 0 ≤ GetBlockSubsidy params h ≤ 10000 * COIN) ∧
  total_subsidy params n ≤ 10000 * COIN * nLastPOWBlock params + 2 * COIN * nSubsidyHalvingInterval params ∧
  (nLastPOWBlock params = 10000 → nSubsidyHalvingInterval params = 985500 → total_subsidy params n < MAX_MONEY).
Proof.
  intros H0 HI. split_and!; [by apply GetBlockSubsidy_bounds|by apply total_subsidy_bound|].
  intros E1 E2. pose proof (total_subsidy_bound params H0 HI n) as Hb. rewrite E1, E2 in Hb. unfold MAX_MONEY, COIN, CENT in *. lia.
Qed.

(** Past the heights it waves through, [CheckReward] accepts a staked block
    exactly when no interest is paid after its end, the coin stake earns at most
    fees and subsidy, and its outputs contain, each counted once, the gas refunds
    and an equal share of the rest of the reward for every past staker the
    rules name.  No addition overflows for amounts in the money range. *)
Theorem check_reward_exact params testnet mpos_scripts block nHeight nFees gasRefunds nActualStakeReward vouts utxo_interest :
  0 < nSubsidyHalvingInterval params → IsProofOfStake_header (header block) = true → testnet = true ∨ 194830 ≤ nHeight →
  0 ≤ nFees ≤ MAX_MONEY → 0 ≤ gasRefunds ≤ MAX_MONEY → - MAX_MONEY ≤ nActualStakeReward ≤ MAX_MONEY → 0 ≤ utxo_interest ≤ MAX_MONEY →
  CheckReward params testnet mpos_scripts block nHeight nFees gasRefunds nActualStakeReward vouts utxo_interest = Ok tt ↔
  reward_ok params testnet mpos_scripts block nHeight nFees gasRefunds nActualStakeReward vouts utxo_interest.
Proof. apply CheckReward_spec. Qed.

(** ** Examples *)

Definition sample_consensus : consensus_params :=
  mk_consensus main_params (mk_vb_params 1 1 (λ _, mk_deployment 1 ALWAYS_ACTIVE NO_TIMEOUT)) null_hash 985500 0 0 0 10000 10100 5 399100.
Definition sample_coinbase : CTransaction :=
  mk_tx [mk_txin null_outpoint [OP_1; OP_1] SEQUENCE_FINAL []] [mk_txout 5000 [OP_DUP]] 2 0.
Definition sample_block : CBlock :=
  mk_block (mk_header 4 null_hash (GetHash (H := toy_crypto) sample_coinbase) 300 0x1f00ffff 0 null_hash null_hash null_outpoint [])
    [sample_coinbase].
Lemma check_block_accepts_witness : block_ok (C := toy_crypto) sample_consensus default_dgp (λ _ _ _, false) 0 sample_block.
Proof.
  apply (check_block_accepts (C := toy_crypto) sample_index sample_consensus default_dgp (λ _ _, None) (λ _ _ _ _, None) (λ _ _ _, false)
    false 0 sample_cache sample_block); vm_compute; reflexivity.
Defined.
Lemma generated_commitment_accepted_witness :
  ∃ commitment cb', GenerateCoinbaseCommitment (C := toy_crypto) sample_index sample_consensus (λ _, ∅) sample_block (Some hash_b) false
      = Ok (commitment, set_coinbase sample_block cb', set_cache (λ _, ∅) DEPLOYMENT_SEGWIT ∅) ∧
    check_witness (C := toy_crypto) true (set_coinbase sample_block cb') = Ok tt.
Proof.
  destruct (generated_commitment_accepted toy_crypto toy_sizes sample_index sample_consensus (λ _, ∅)
    (set_cache (λ _, ∅) DEPLOYMENT_SEGWIT ∅) sample_block sample_coinbase
    (mk_txin null_outpoint [OP_1; OP_1] SEQUENCE_FINAL []) [] [] (Some hash_b)) as (co & cb' & H1 & H2 & _);
    [reflexivity..|discriminate|reflexivity|reflexivity|]. by exists co, cb'.
Defined.
Lemma subsidy_bounded_witness : total_subsidy sample_consensus 20000 < MAX_MONEY.
Proof. apply (subsidy_bounded sample_consensus 20000); done. Defined.

(** A staked block at a height of shared rewards: one coin, five recipients. *)
Definition sample_coinstake : CTransaction :=
  mk_tx [mk_txin sample_outpoint [] SEQUENCE_FINAL []]
    (mk_txout 0 [] :: mk_txout 20000000 [OP_1] :: replicate 4 (mk_txout 20000000 [OP_RETURN])) 2 0.
Definition sample_staked : CBlock :=
  mk_block (mk_header 4 null_hash null_hash 300 0x1d00ffff 0 null_hash null_hash sample_outpoint []) [sample_coinbase; sample_coinstake].
Lemma check_reward_exact_witness :
  reward_ok sample_consensus false (λ _, Some (replicate 4 [OP_RETURN])) sample_staked 300000 0 0 100000000 [] 0.
Proof.
  apply (check_reward_exact sample_consensus false (λ _, Some (replicate 4 [OP_RETURN])) sample_staked 300000 0 0 100000000 [] 0);
    first [done|by right|vm_compute; done].
Defined.
