(* ===== verification/Headers.v ===== *)
(** * Accepting headers and blocks (validation.cpp, checkpoints.cpp)

    How a header enters the block index and how the data of a block is accepted:
    the checkpoints, the contextual checks, [AcceptBlockHeader],
    [ProcessNewBlockHeaders] and [AcceptBlock].  The state of the node is the
    chain state with the best header, the stakes seen, the coins of the tip and
    the caches these functions fill.  The functions return the result together
    with the state they leave, because rejections change the state too. *)
From stdpp Require Import strings.
From S2P Require Import Prelude ArithUint256 Script Interpreter InterpreterFacts InterpreterSpecs StandardScripts Serialize Transaction SigHash Standard Coins CoinsFacts Block Chain ChainFacts TxVerify Pow Pos VersionBits Activate BlockChecks.
Import BaseUint.

(** ** Checkpoints (checkpoints.cpp) *)

Definition nCheckpointSpan : Z := 500.
(** [std::map<int, uint256>], in ascending order of heights. *)
Abbreviation MapCheckpoints := (list (Z * uint256)).

Definition CheckHardened (checkpoints : MapCheckpoints) (nHeight : Z) (hash : uint256) : bool :=
  match List.find (λ e : Z * uint256, e.1 =? nHeight) checkpoints with
  | None => true
  | Some e => bool_decide (hash = e.2)
  end.
Definition GetLastCheckpoint (m : BlockMap) (checkpoints : MapCheckpoints) : option CBlockIndex :=
  match List.find (λ e : Z * uint256, bool_decide (is_Some (m !! e.2))) (rev checkpoints) with
  | None => None
  | Some e => m !! e.2
  end.
Fixpoint sync_loop (m : BlockMap) (fuel : nat) (p : uint256) (best : Z) : result chain_error uint256 :=
  let* b := deref m p in
  match pprev b with
  | None => Ok p
  | Some q =>
      if nHeight b + nCheckpointSpan >? best then
        match fuel with O => Err no_progress | S fuel => sync_loop m fuel q best end
      else Ok p
  end.
Definition AutoSelectSyncCheckpoint (m : BlockMap) (c : CChain) : result chain_error uint256 :=
  match Tip c with
  | None => Err dangling
  | Some t => let* b := deref m t in sync_loop m (Z.to_nat (nHeight b)) t (nHeight b)
  end.
Definition CheckSync (m : BlockMap) (c : CChain) (nHeight : Z) : result chain_error bool :=
  if nHeight =? 0 then Ok true
  else
    let* p := AutoSelectSyncCheckpoint m c in
    let* b := deref m p in
    Ok (negb (nHeight <=? Chain.nHeight b)).

(** ** The initial download *)

(** The answer and the new value of [latchToFalse]. *)
Definition IsInitialBlockDownload (latchToFalse importing : bool) (tip : option CBlockIndex) (nMinimumChainWork : base_uint)
    (now nMaxTipAge : Z) : bool * bool :=
  if latchToFalse then (false, true)
  else if importing then (true, false)
  else match tip with
  | None => (true, false)
  | Some b =>
      if op_lt (nChainWork b) nMinimumChainWork then (true, false)
      else if GetBlockTime b <? now - nMaxTipAge then (true, false)
      else (false, true)
  end.

(** ** The state *)

Section Node.
Context `{C : Crypto} {V : Type} `{CoinsView V}.

Record node_state := mk_node {
  chainstate : CChainState; bestHeader : option uint256; stakesSeen : list (COutPoint * Z);
  pcoinsTip : CCoinsViewCache V; versionbitscache : VersionBitsCache; hashProofs : gmap uint256 uint256
}.
Definition node_index (s : node_state) : BlockMap := index (chainstate s).
Definition set_chainstate (s : node_state) (cs : CChainState) : node_state :=
  mk_node cs (bestHeader s) (stakesSeen s) (pcoinsTip s) (versionbitscache s) (hashProofs s).
Definition set_coins (s : node_state) (c : CCoinsViewCache V) : node_state :=
  mk_node (chainstate s) (bestHeader s) (stakesSeen s) c (versionbitscache s) (hashProofs s).
Definition set_versionbits (s : node_state) (v : VersionBitsCache) : node_state :=
  mk_node (chainstate s) (bestHeader s) (stakesSeen s) (pcoinsTip s) v (hashProofs s).
Definition set_proof (s : node_state) (p hashProof : uint256) : node_state :=
  mk_node (chainstate s) (bestHeader s) (stakesSeen s) (pcoinsTip s) (versionbitscache s) (<[p := hashProof]> (hashProofs s)).

Definition node_tree (s : node_state) : block_tree := mk_tree (node_index s) (bestHeader s) (stakesSeen s).
Definition set_tree (s : node_state) (t : block_tree) : node_state :=
  mk_node (set_index (chainstate s) (mapBlockIndex t)) (pindexBestHeader t) (setStakeSeen t) (pcoinsTip s) (versionbitscache s)
    (hashProofs s).

Context (params : consensus_params) (dgp : dgp_params) (addr : uint256 → Z).
Context (checkpoints : MapCheckpoints) (fCheckpointsEnabled : bool).
Context (spent_coin : uint256 → COutPoint → option Coin) (recover : uint256 → bytes → Z → bool → option bytes).
Context (Verify : bytes → uint256 → bytes → bool) (initial_download : bool) (adjusted_time : Z).

(** A result of the index where the code has none crashes. *)
Definition or_crash {A} (r : result chain_error A) : result block_reject A :=
  match r with Ok a => Ok a | Err e => Err (crash e) end.

(** ** [ContextualCheckBlockHeader] *)

Definition required_bits (m : BlockMap) (block : CBlockHeader) (pindexPrev : option uint256) : result chain_error Z :=
  (if nVersion_blk block =? SW_VERSION then GetNextWorkRequiredSW else GetNextWorkRequired)
    m pindexPrev (nTime_blk block) (pow_params params) (IsProofOfStake_header block).
Definition check_checkpoints (m : BlockMap) (block : CBlockHeader) (nHeight : Z) : result block_reject unit :=
  if fCheckpointsEnabled then
    let* _ := require (match GetLastCheckpoint m checkpoints with
                       | Some b => negb (nHeight <? Chain.nHeight b)
                       | None => true
                       end) (DoS 100 REJECT_CHECKPOINT "bad-fork-prior-to-checkpoint" false) in
    require (CheckHardened checkpoints nHeight (GetBlockHash block)) (DoS 100 REJECT_CHECKPOINT "bad-fork-hardened-checkpoint" false)
  else Ok tt.
Definition check_version (block : CBlockHeader) (nHeight : Z) : result block_reject unit :=
  require (negb (((nVersion_blk block <? 2) && (nHeight >=? BIP34Height params))
              || ((nVersion_blk block <? 3) && (nHeight >=? BIP66Height params))
              || ((nVersion_blk block <? 4) && (nHeight >=? BIP65Height params)))) (DoS 0 REJECT_OBSOLETE "bad-version" false).
(** The time of a staked block; that of a block of work is not checked. *)
Definition check_time (m : BlockMap) (block : CBlockHeader) (pindexPrev : uint256) : result block_reject unit :=
  if IsProofOfStake_header block then
    let* t := or_crash (GetMedianTimePast m pindexPrev) in
    let* _ := require (negb (nTime_blk block <=? t)) (bad 0 "time-too-old") in
    require (negb (nTime_blk block >? FutureDrift adjusted_time)) (bad 0 "time-too-new")
  else Ok tt.
Definition ContextualCheckBlockHeader (m : BlockMap) (c : CChain) (block : CBlockHeader) (pindexPrev : uint256) : result block_reject unit :=
  let* prev := or_crash (deref m pindexPrev) in
  let nHeight := nHeight prev + 1 in
  let* bits := or_crash (required_bits m block (Some pindexPrev)) in
  let* _ := require (nBits_blk block =? bits)
              (bad 100 (if nVersion_blk block =? SW_VERSION then "SW bad-diffbits" else "bad-diffbits")) in
  let* _ := check_checkpoints m block nHeight in
  let* sync := or_crash (CheckSync m c nHeight) in
  let* _ := require sync (DoS 1 REJECT_CHECKPOINT "bad-fork-prior-to-synch-checkpoint" false) in
  let* _ := check_time m block pindexPrev in
  check_version block nHeight.

(** ** [AcceptBlockHeader] *)

(** [invalid_walk]: mark the blocks down to the failed one. *)
Fixpoint mark_failed_child (m : BlockMap) (fuel : nat) (invalid_walk failedit : uint256) : result chain_error BlockMap :=
  if bool_decide (invalid_walk = failedit) then Ok m
  else match fuel with
  | O => Err no_progress
  | S fuel =>
      let* b := deref m invalid_walk in
      match pprev b with
      | None => Err dangling
      | Some q => mark_failed_child (or_status m invalid_walk BLOCK_FAILED_CHILD) fuel q failedit
      end
  end.
(** The loop over [m_failed_blocks]: the first one that is an ancestor. *)
Fixpoint find_failed (m : BlockMap) (pindexPrev : uint256) (l : list uint256) : result chain_error (option uint256) :=
  match l with
  | [] => Ok None
  | f :: l =>
      let* b := deref m f in
      let* a := GetAncestor m pindexPrev (nHeight b) in
      if bool_decide (a = Some f) then
        if nStatus b &' BLOCK_FAILED_VALID =? 0 then Err assertion_failed else Ok (Some f)
      else find_failed m pindexPrev l
  end.
(** A set of pointers is traversed in the order of the addresses. *)
Definition address_le (a b : uint256) : Prop := (addr a ≤ addr b)%Z.
#[local] Instance address_le_dec : RelDecision address_le := λ a b, Z_le_dec (addr a) (addr b).
Definition by_address (f : gset uint256) : list uint256 := merge_sort address_le (elements f).

Definition check_timestamp_mask (block : CBlockHeader) : bool :=
  if nVersion_blk block =? SW_VERSION then CheckCoinStakeTimestampSW (nTime_blk block) else CheckCoinStakeTimestamp (nTime_blk block).
Definition check_kind (block : CBlockHeader) (nHeight : Z) : result block_reject unit :=
  let* _ := require (negb (IsProofOfWork_header block && (nHeight >? nLastPOWBlock params))) (bad 100 "reject-pow") in
  if IsProofOfStake_header block then
    let* _ := require (negb (nHeight <? COINBASE_MATURITY)) (bad 100 "reject-pos") in
    require (check_timestamp_mask block) (bad 100 "timestamp-invalid")
  else Ok tt.
(** A header that does not extend the tip is not older than the checkpoint. *)
Definition check_fork_time (m : BlockMap) (c : CChain) (block : CBlockHeader) : result block_reject unit :=
  match Tip c with
  | Some t =>
      if bool_decide (hashPrevBlock block = t) then Ok tt
      else
        let* p := or_crash (AutoSelectSyncCheckpoint m c) in
        let* b := or_crash (deref m p) in
        require (negb (nTime_blk block - nTime b <? 0)) (bad 1 "older-than-checkpoint")
  | None => Ok tt
  end.
(** The checks up to the contextual ones: the predecessor is known and not failed. *)
Definition check_parent (m : BlockMap) (c : CChain) (block : CBlockHeader) : result block_reject CBlockIndex :=
  let* _ := check_fork_time m c block in
  let* _ := require (CheckCanonicalBlockSignature block) (bad 100 "bad-signature-encoding") in
  match m !! hashPrevBlock block with
  | None => Err (DoS 10 0 "prev-blk-not-found" false)
  | Some prev =>
      let* _ := require (negb (failed prev)) (bad 100 "bad-prevblk") in
      let* _ := ContextualCheckBlockHeader m c block (hashPrevBlock block) in
      Ok prev
  end.

Definition add_header (s : node_state) (block : CBlockHeader) : result block_reject uint256 * node_state :=
  match AddToBlockIndex (node_tree s) block with
  | Err e => (Err (crash e), s)
  | Ok (p, t) => (Ok p, set_tree s t)
  end.
(** A header that is new: all its checks, then it is added. *)
Definition accept_new_header (s : node_state) (block : CBlockHeader) : result block_reject uint256 * node_state :=
  let m := node_index s in
  let cs := chainstate s in
  match check_parent m (chainActive cs) block with
  | Err e => (Err e, s)
  | Ok prev =>
      match (if IsValid prev BLOCK_VALID_SCRIPTS then Ok None
             else find_failed m (hashPrevBlock block) (by_address (m_failed_blocks cs))) with
      | Err e => (Err (crash e), s)
      | Ok (Some f) =>
          match mark_failed_child m (Z.to_nat (nHeight prev + 1)) (hashPrevBlock block) f with
          | Err e => (Err (crash e), s)
          | Ok m => (Err (bad 100 "bad-prevblk"), set_chainstate s (set_index cs m))
          end
      | Ok None =>
          match check_kind block (nHeight prev + 1) with
          | Err e => (Err e, s)
          | Ok _ =>
              match CheckBlockHeader m params spent_coin recover initial_download (pcoinsTip s) block true true with
              | (Err e, c) => (Err e, set_coins s c)
              | (Ok _, c) => add_header (set_coins s c) block
              end
          end
      end
  end.
(** The result is the entry [*ppindex]. *)
Definition AcceptBlockHeader (s : node_state) (block : CBlockHeader) : result block_reject uint256 * node_state :=
  let hash := GetBlockHash block in
  if bool_decide (hash = hashGenesisBlock params) then add_header s block
  else match node_index s !! hash with
  | Some b => if failed b then (Err (DoS 0 0 "duplicate" false), s) else (Ok hash, s)
  | None => accept_new_header s block
  end.

(** ** [ProcessNewBlockHeaders] *)

(** The result is the entry of the last header ([*ppindex]); the code counts from
    the first header, [fInstantBan] is set once a stake was seen twice.  [busy] is
    [fReindex || fImporting]. *)
Definition stake_seen (s : node_state) (busy : bool) (h : CBlockHeader) : bool :=
  negb busy && negb initial_download && IsProofOfStake_header h
  && bool_decide ((prevoutStake_blk h, nTime_blk h) ∈ stakesSeen s) && negb (bool_decide (is_Some (node_index s !! GetBlockHash h))).
Definition instant_ban (e : block_reject) : block_reject :=
  match e with
  | DoS level _ reason _ => DoS (level + 100) REJECT_INVALID reason false
  | silent => DoS 100 REJECT_INVALID "" false
  | crash e => crash e
  end.
Fixpoint headers_loop (s : node_state) (busy : bool) (headers : list CBlockHeader) (fInstantBan : bool) (last : option uint256)
  : result block_reject (option uint256) * node_state :=
  match headers with
  | [] => (Ok last, s)
  | h :: headers =>
      let seen := stake_seen s busy h in
      if seen && bool_decide (headers = []) then (Err (bad (if fInstantBan then 100 else 0) "dupe-stake"), s)
      else
        let fInstantBan := fInstantBan || seen in
        match AcceptBlockHeader s h with
        | (Err e, s) => (Err (if fInstantBan then instant_ban e else e), s)
        | (Ok p, s) => headers_loop s busy headers fInstantBan (Some p)
        end
  end.
Definition too_new (h : CBlockHeader) : bool := IsProofOfStake_header h && (nTime_blk h >? FutureDrift adjusted_time).
Definition ProcessNewBlockHeaders (s : node_state) (busy : bool) (headers : list CBlockHeader)
  : result block_reject (option uint256) * node_state :=
  if negb initial_download && (size headers >? 1) && match last headers with Some h => too_new h | None => false end
  then (Err (bad 0 "time-too-new"), s)
  else headers_loop s busy headers false None.

(** ** [UpdateHashProof] *)

(** What a failing [CheckProofOfStake] leaves in the state. *)
Definition stake_reject (e : stake_error) : block_reject :=
  match e with
  | not_coinstake => silent
  | kernel_failed => DoS 1 0 "" false
  | index_error => crash dangling
  | _ => DoS 100 0 "" false
  end.
(** The proof hash recorded for the entry [p]. *)
Definition UpdateHashProof (m : BlockMap) (block : CBlock) (p : uint256) (view : CCoinsViewCache V)
  : result block_reject uint256 * CCoinsViewCache V :=
  let h := header block in
  let first :=
    let* b := or_crash (deref m p) in
    let* _ := require (negb (IsProofOfWork_header h && (nHeight b >? nLastPOWBlock params))) (DoS 100 0 "" false) in
    let* _ := require (negb (IsProofOfStake_header h && negb (check_timestamp_mask h))) (DoS 50 0 "" false) in
    let* bits := or_crash (required_bits m h (pprev b)) in
    let* _ := require (nBits_blk h =? bits) (DoS 100 0 "" false) in
    Ok b in
  match first with
  | Err e => (Err e, view)
  | Ok b =>
      if IsProofOfStake_header h && negb (nVersion_blk h =? SW_VERSION) then
        match pprev b, vtx block with
        | Some q, _ :: cs :: _ =>
            match CheckProofOfStake m Verify view q cs (nBits_blk h) (nTime_blk h) with
            | (Err e, view) => (Err (stake_reject e), view)
            | (Ok r, view) => (Ok r.1, view)
            end
        | _, _ => (Err (crash dangling), view)
        end
      else (Ok (if IsProofOfWork_header h then GetBlockHash h else null_hash), view)
  end.

(** Whether the stake of a header can be checked now; not called at present. *)
Fixpoint near_tip (m : BlockMap) (n : nat) (prev : option uint256) (tip : option uint256) : result chain_error bool :=
  match n with
  | O => Ok false
  | S n =>
      if bool_decide (prev = tip) then Ok true
      else match prev with
           | None => Err dangling
           | Some p => let* b := deref m p in near_tip m n (pprev b) tip
           end
  end.
Definition CheckPOS (m : BlockMap) (c : CChain) (block : CBlockHeader) (pindexPrev : uint256) : result chain_error bool :=
  let* b := deref m pindexPrev in
  let diff := nHeight b + 1 - Height c in
  if IsProofOfStake_header block && negb initial_download && (diff <? COINBASE_MATURITY) then
    if diff <? - COINBASE_MATURITY then Ok true
    else near_tip m (Z.to_nat COINBASE_MATURITY) (Some pindexPrev) (Tip c)
  else Ok false.

(** ** [AcceptBlock] *)

Definition MIN_BLOCKS_TO_KEEP : Z := 288.
Context (nMinimumChainWork : base_uint).

(** The checks between the header and the download logic. *)
Definition check_position (m : BlockMap) (c : CChain) (block : CBlock) (b : CBlockIndex) : result block_reject unit :=
  let h := header block in
  let* prev := if nHeight b >? 0 then
                 match m !! hashPrevBlock h with None => Err (DoS 10 0 "" false) | Some q => Ok (Some q) end
               else Ok None in
  let* _ := require (negb (IsProofOfWork_header h && (nHeight b >? nLastPOWBlock params))) (DoS 100 0 "" false) in
  let* sync := or_crash (CheckSync m c (nHeight b)) in
  let* _ := require sync silent in
  let* _ := require (match prev with
                     | Some q => negb (IsProofOfStake_header h
                                       && ((nTime_blk h <=? nTime q) || (FutureDrift (nTime_blk h) <? nTime q)))
                     | None => true
                     end) silent in
  let* _ := require (negb (too_new h)) silent in
  match check_height params block (nHeight b) with
  | Err (DoS level _ _ _) => Err (DoS level 0 "" false)
  | r => r
  end.
(** Whether the data of the block is wanted. *)
Definition wanted (s : CChainState) (b : CBlockIndex) (fRequested : bool) : result chain_error bool :=
  let* fHasMoreWork := match Tip (chainActive s) with
                       | None => Ok true
                       | Some t => let* tb := deref (index s) t in Ok (op_gt (nChainWork b) (nChainWork tb))
                       end in
  let fTooFarAhead := nHeight b >? i32 (Height (chainActive s) + MIN_BLOCKS_TO_KEEP) in
  Ok (if negb (nStatus b &' BLOCK_HAVE_DATA =? 0) then false
      else fRequested || ((nTx b =? 0) && fHasMoreWork && negb fTooFarAhead && negb (op_lt (nChainWork b) nMinimumChainWork))).
(** [state.IsInvalid() && !state.CorruptionPossible()]. *)
Definition permanent (e : block_reject) : bool := match e with DoS _ _ _ corruption => negb corruption | _ => false end.

(** [CheckBlock] and [ContextualCheckBlock] on the data of the entry [b]. *)
Definition check_data (s : node_state) (fChecked : bool) (block : CBlock) (b : CBlockIndex) : result block_reject unit * node_state :=
  let m := node_index s in
  match CheckBlock m params dgp spent_coin recover Verify initial_download adjusted_time (pcoinsTip s) fChecked block true true true with
  | (Err e, c) => (Err e, set_coins s c)
  | (Ok _, c) =>
      let '(r, v) := ContextualCheckBlock m params (versionbitscache s) block (pprev b) in (r, set_versionbits (set_coins s c) v)
  end.
(** The block is stored and its data recorded. *)
Definition receive_data (s : node_state) (block : CBlock) (p : uint256) (b : CBlockIndex) : result block_reject uint256 * node_state :=
  match IsWitnessEnabled (node_index s) (vb params) (pprev b) (versionbitscache s) with
  | Err e => (Err (crash e), s)
  | Ok (witness, v) =>
      match ReceivedBlockTransactions addr (chainstate s) p (size (vtx block)) witness with
      | Err e => (Err (crash e), s)
      | Ok cs => (Ok p, set_versionbits (set_chainstate s cs) v)
      end
  end.

(** [stored] is whether the block could be written to disk; [fChecked] is
    [block.fChecked]. *)
Definition AcceptBlock (s : node_state) (fChecked : bool) (block : CBlock) (fRequested stored : bool)
  : result block_reject uint256 * node_state :=
  match AcceptBlockHeader s (header block) with
  | (Err e, s) => (Err e, s)
  | (Ok p, s) =>
      let '(proof, s) :=
        if IsProofOfWork_header (header block) then
          match UpdateHashProof (node_index s) block p (pcoinsTip s) with
          | (Err e, c) => (Err e, set_coins s c)
          | (Ok hashProof, c) => (Ok tt, set_proof (set_coins s c) p hashProof)
          end
        else (Ok tt, s) in
      match (let* _ := proof in
             let* b := or_crash (deref (node_index s) p) in
             let* _ := check_position (node_index s) (chainActive (chainstate s)) block b in
             let* want := or_crash (wanted (chainstate s) b fRequested) in
             Ok (b, want)) with
      | Err e => (Err e, s)
      | Ok (_, false) => (Ok p, s)
      | Ok (b, true) =>
          let '(checked, s) := if nVersion_blk (header block) =? SW_VERSION then (Ok tt, s) else check_data s fChecked block b in
          match checked with
          | Err e => (Err e, if permanent e then set_chainstate s (set_index (chainstate s) (or_status (node_index s) p BLOCK_FAILED_VALID)) else s)
          | Ok _ => if stored then receive_data s block p b else (Err silent, s)
          end
      end
  end.
End Node.
Arguments node_state V : clear implicits.
