(* ===== verification/HeadersFacts.v ===== *)
(** * What headers and blocks the node accepts *)
From stdpp Require Import strings.
From S2P Require Import Prelude ArithUint256 Script Interpreter InterpreterFacts InterpreterSpecs StandardScripts Serialize Transaction SigHash Standard Coins CoinsFacts Block Chain ChainFacts TxVerify Pow Pos VersionBits Activate ActivateFacts BlockChecks BlockChecksFacts Headers.
Import BaseUint.

(** ** The synchronized checkpoint is 500 blocks below the tip *)

Definition sync_height (c : CChain) : Z := Z.max 0 (Height c - nCheckpointSpan).

Lemma sync_loop_spec m best (fuel : nat) : ∀ p b,
  index_ok m → m !! p = Some b → Z.max 0 (best - nCheckpointSpan) ≤ nHeight b ≤ Z.of_nat fuel →
  ∃ q c k, sync_loop m fuel p best = Ok q ∧ m !! q = Some c ∧ nHeight c = Z.max 0 (best - nCheckpointSpan) ∧ back m p k = Some q.
Proof.
  induction fuel as [|fuel IH]; intros p b Hok Hp Hh; pose proof (Hok p b Hp) as (H0 & Hl & _); unfold link_ok in Hl;
    cbn [sync_loop]; unfold deref at 1; rewrite Hp; cbn [rbind]; destruct (pprev b) as [q|] eqn:Hq.
  - destruct Hl as (c & Hc & E). pose proof (Hok q c Hc) as (? & _). lia.
  - exists p, b, 0%nat. split_and!; [done|done|unfold nCheckpointSpan in *; lia|done].
  - destruct Hl as (c & Hc & E). destruct (Z.gtb_spec (nHeight b + nCheckpointSpan) best).
    + destruct (IH q c Hok Hc) as (r & d & k & H1 & H2 & H3 & H4); [pose proof (Hok q c Hc) as (? & _); unfold nCheckpointSpan in *; lia|].
      exists r, d, (S k). split_and!; [done|done|done|]. cbn [back]. by rewrite Hp, Hq.
    + exists p, b, 0%nat. split_and!; [done|done|unfold nCheckpointSpan in *; lia|done].
  - exists p, b, 0%nat. split_and!; [done|done|unfold nCheckpointSpan in *; lia|done].
Qed.
Lemma AutoSelectSyncCheckpoint_spec m c t : index_ok m → chain_ok m c → Tip c = Some t →
  ∃ q b, AutoSelectSyncCheckpoint m c = Ok q ∧ m !! q = Some b ∧ nHeight b = sync_height c ∧ at_height c (sync_height c) = Some q.
Proof.
  intros Hix Hc Ht. destruct (Tip_spec m c t Hc Ht) as (b & Hb & Hh & Hall). unfold AutoSelectSyncCheckpoint, sync_height. rewrite Ht.
  unfold deref. rewrite Hb. cbn [rbind]. pose proof (Hix t b Hb) as (H0 & _).
  destruct (sync_loop_spec m (nHeight b) (Z.to_nat (nHeight b)) t b Hix Hb) as (q & d & k & H1 & H2 & H3 & H4);
    [unfold nCheckpointSpan; lia|]. exists q, d. rewrite <- Hh. split_and!; [done|done|done|].
  rewrite Hall by (unfold nCheckpointSpan; lia). destruct (back_height_inv m k t b q Hix Hb H4) as (? & ? & E & ?). simplify_eq.
  rewrite <- H4. f_equal. lia.
Qed.
Lemma CheckSync_spec m c t h : index_ok m → chain_ok m c → Tip c = Some t → 0 ≤ h →
  CheckSync m c h = Ok ((h =? 0) || (sync_height c <? h)).
Proof.
  intros Hix Hc Ht Hh. unfold CheckSync. destruct (h =? 0); [done|].
  destruct (AutoSelectSyncCheckpoint_spec m c t Hix Hc Ht) as (q & b & -> & Hb & Eh & _). cbn [rbind]. unfold deref. rewrite Hb. cbn [rbind orb].
  by rewrite Eh, <- Z.ltb_antisym.
Qed.

(** ** Failed ancestors *)

Definition failed_known (m : BlockMap) (f : gset uint256) : Prop :=
  ∀ p, p ∈ f → ∃ b, m !! p = Some b ∧ nStatus b &' BLOCK_FAILED_VALID ≠ 0.
(** A block found invalid is an ancestor of [p]. *)
Definition has_failed_ancestor (m : BlockMap) (f : gset uint256) (p : uint256) : Prop := ∃ k q, q ∈ f ∧ back m p k = Some q.

Lemma GetAncestor_is m p b q c : index_ok m → m !! p = Some b → m !! q = Some c →
  ∃ a, GetAncestor m p (nHeight c) = Ok a ∧ (a = Some q ↔ ∃ k, back m p k = Some q).
Proof.
  intros Hix Hp Hq. pose proof (Hix p b Hp) as (Hb0 & _). pose proof (Hix q c Hq) as (Hc0 & _).
  destruct (decide (nHeight c ≤ nHeight b)) as [Hle|Hgt].
  - destruct (GetAncestor_walks m p b (nHeight c) Hix Hp) as (a & -> & Ha); [lia|]. exists (Some a). split; [done|]. split.
    + intros [= ->]. eauto.
    + intros (k & Hk). destruct (back_height_inv m k p b q Hix Hp Hk) as (? & d & Hd & E). simplify_eq.
      rewrite <- Ha, <- Hk. f_equal. lia.
  - exists None. unfold GetAncestor, deref. rewrite Hp. cbn [rbind]. replace (nHeight c >? nHeight b) with true by lia.
    split; [done|]. split; [done|]. intros (k & Hk). destruct (back_height_inv m k p b q Hix Hp Hk) as (? & d & Hd & E). simplify_eq. lia.
Qed.
Lemma find_failed_spec m p b l :
  index_ok m → m !! p = Some b → (∀ f, f ∈ l → ∃ d, m !! f = Some d ∧ nStatus d &' BLOCK_FAILED_VALID ≠ 0) →
  ∃ r, find_failed m p l = Ok r ∧
    match r with Some f => f ∈ l ∧ ∃ k, back m p k = Some f | None => ∀ f k, f ∈ l → back m p k ≠ Some f end.
Proof.
  intros Hix Hp. induction l as [|f l IH]; intros Hl; cbn [find_failed].
  { exists None. split; [done|]. intros ? ? ?%elem_of_nil. done. }
  destruct (Hl f) as (d & Hd & Hst); [apply list_elem_of_here|]. unfold deref. rewrite Hd. cbn [rbind].
  destruct (GetAncestor_is m p b f d Hix Hp Hd) as (a & -> & Ha). cbn [rbind]. case_bool_decide as Haf.
  - rewrite (proj2 (Z.eqb_neq _ _) Hst). exists (Some f). split; [done|]. split; [apply list_elem_of_here|by apply Ha].
  - destruct IH as (r & -> & Hr); [intros g Hg; apply Hl; by apply list_elem_of_further|]. exists r. split; [done|]. destruct r as [g|].
    + destruct Hr as [? ?]. split; [by apply list_elem_of_further|done].
    + intros g k [->|Hg]%elem_of_cons; [intros Hk; apply Haf, Ha; eauto|by apply Hr].
Qed.

(** Marking the blocks between [p] and the failed block [f]. *)
Definition marked (m m' : BlockMap) (f : uint256) : Prop :=
  same_shape m' m ∧ ∀ q b', m' !! q = Some b' → m !! q = Some b' ∨
    ∃ b k, m !! q = Some b ∧ b' = set_status b (nStatus b |' BLOCK_FAILED_CHILD) ∧ back m q (S k) = Some f.
Lemma mark_failed_child_spec (fuel : nat) : ∀ m p b f k, index_ok m → m !! p = Some b → back m p k = Some f → (k ≤ fuel)%nat →
  ∃ m', mark_failed_child m fuel p f = Ok m' ∧ marked m m' f.
Proof.
  assert (∀ m f, marked m m f) as Hrefl by (intros; split; [done|by left]).
  induction fuel as [|fuel IH]; intros m p b f k Hix Hp Hk Hle; cbn [mark_failed_child]; (case_bool_decide as Hpf; [by exists m|]).
  { destruct k; [|lia]. injection Hk as ->. done. }
  destruct k as [|k]; [injection Hk as ->; done|]. unfold deref. rewrite Hp. cbn [rbind]. pose proof Hk as Hk0. cbn [back] in Hk. rewrite Hp in Hk.
  destruct (pprev b) as [q|] eqn:Hq; [|done]. simpl in Hk.
  pose proof (same_shape_or m p BLOCK_FAILED_CHILD) as Hsame. set (m1 := or_status m p BLOCK_FAILED_CHILD) in *.
  destruct (Hix p b Hp) as (_ & Hl & _). unfold link_ok in Hl. rewrite Hq in Hl. destruct Hl as (c & Hc & _).
  destruct (same_shape_lookup m m1 q c (symmetry Hsame) Hc) as (c1 & Hc1 & _).
  destruct (IH m1 q c1 f k) as (m' & -> & Hs' & Hm'); [by rewrite Hsame|done|by rewrite Hsame|lia|]. exists m'. split; [done|].
  assert (index_ok m1) as Hix1 by (by rewrite Hsame).
  split; [by etrans|]. intros r d Hr. destruct (Hm' r d Hr) as [H1|(d1 & j & H1 & H2 & H3)].
  - unfold m1, or_status in H1. destruct (decide (r = p)) as [->|Hrp]; [|left; by rewrite lookup_alter_ne in H1].
    rewrite lookup_alter_eq, Hp in H1. injection H1 as <-. right. by exists b, k.
  - unfold m1, or_status in H1. destruct (decide (r = p)) as [->|Hrp].
    + rewrite lookup_alter_eq, Hp in H1. injection H1 as <-. right. exists b, k. split_and!; [done| |done].
      rewrite H2. unfold set_status. cbn. by rewrite <- Z.lor_assoc, Z.lor_diag.
    + rewrite lookup_alter_ne in H1 by done. right. exists d1, j. split_and!; [done|done|]. by rewrite <- Hsame.
Qed.

(** ** New headers *)

Lemma tree_ok_same m1 m2 best st : same_shape m1 m2 → tree_ok (mk_tree m1 best st) → tree_ok (mk_tree m2 best st).
Proof.
  intros Hs (Hok & Hen & Hbest). cbn [mapBlockIndex] in *. split_and!; cbn [mapBlockIndex].
  - by rewrite <- Hs.
  - intros p b Hp. destruct (same_shape_lookup m2 m1 p b (symmetry Hs) Hp) as (b1 & Hp1 & E).
    pose proof (Hen p b1 Hp1) as He. injection E as E1 E2 E3 E4 E5 E6 E7 E8 E9 E10 E11 E12 E13. unfold entry_ok, parent_work, parent_time in *.
    rewrite E4, E5, E6, E7. enough (∀ x, parent m2 b = Some x → ∃ y, parent m1 b1 = Some y ∧ nChainWork y = nChainWork x ∧ nTimeMax y = nTimeMax x) as Hpar.
    { destruct (parent m2 b) as [x|] eqn:Ex.
      - destruct (Hpar x eq_refl) as (y & Ey & Ew & Et). by rewrite Ey, Ew, Et in He.
      - destruct (parent m1 b1) as [y|] eqn:Ey; [|done]. unfold parent in Ex, Ey. rewrite E1 in Ex.
        destruct (pprev b1) as [q|]; [|done]. simpl in Ex, Ey. destruct (same_shape_lookup m1 m2 q y Hs Ey) as (? & ? & _). congruence. }
    intros x Hx. unfold parent in *. rewrite E1 in Hx. destruct (pprev b1) as [q|]; [|done]. simpl in Hx |- *.
    destruct (same_shape_lookup m2 m1 q x (symmetry Hs) Hx) as (y & Hy & Exy). exists y. injection Exy as ? ? ? ? ? ? ? ? ? ? ? ? ?. done.
  - unfold best_ok in *. cbn [pindexBestHeader mapBlockIndex] in *. destruct best as [p|].
    + destruct Hbest as (b & Hb & Hmax). destruct (same_shape_lookup m1 m2 p b Hs Hb) as (b2 & Hb2 & E). exists b2. split; [done|].
      intros q c2 Hc2. destruct (same_shape_lookup m2 m1 q c2 (symmetry Hs) Hc2) as (c & Hc & E'). specialize (Hmax q c Hc).
      injection E as ? ? ? Ew ? ? ? ? ? ? ? ? ?. injection E' as ? ? ? Ew' ? ? ? ? ? ? ? ? ?. by rewrite <- Ew, Ew'.
    + rewrite Hbest in Hs. apply map_empty. intros q. destruct (m2 !! q) as [b|] eqn:Hq; [|done].
      destruct (same_shape_lookup m2 ∅ q b (symmetry Hs) Hq) as (? & ? & _). by rewrite lookup_empty in *.
Qed.

Section Node.
Context `{C : Crypto} {V : Type} `{CoinsView V}.
Context (params : consensus_params) (addr : uint256 → Z) (checkpoints : MapCheckpoints) (fCheckpointsEnabled : bool).
Context (spent_coin : uint256 → COutPoint → option Coin) (recover : uint256 → bytes → Z → bool → option bytes).
Context (initial_download : bool) (adjusted_time : Z).
Abbreviation Accept := (AcceptBlockHeader params addr checkpoints fCheckpointsEnabled spent_coin recover initial_download adjusted_time).
Abbreviation AcceptNew := (accept_new_header params addr checkpoints fCheckpointsEnabled spent_coin recover initial_download adjusted_time).

(** The block index, the active chain and the failed blocks are consistent. *)
Record node_ok (s : node_state V) (t : uint256) : Prop := {
  node_tree_ok : tree_ok (node_tree s);
  node_chain_ok : chain_ok (node_index s) (chainActive (chainstate s));
  node_tip : Tip (chainActive (chainstate s)) = Some t;
  node_failed : failed_known (node_index s) (m_failed_blocks (chainstate s))
}.

Lemma or_crash_Ok {A} (r : result chain_error A) a : or_crash r = Ok a ↔ r = Ok a.
Proof. destruct r; simpl; naive_solver. Qed.
Lemma check_fork_time_spec s t block : node_ok s t →
  check_fork_time (node_index s) (chainActive (chainstate s)) block = Ok tt ↔
  (hashPrevBlock block ≠ t → ∃ q b, at_height (chainActive (chainstate s)) (sync_height (chainActive (chainstate s))) = Some q ∧
     node_index s !! q = Some b ∧ nTime b ≤ nTime_blk block).
Proof.
  intros []. unfold check_fork_time. rewrite node_tip0. case_bool_decide as E; [done|].
  destruct (AutoSelectSyncCheckpoint_spec (node_index s) _ t (proj1 node_tree_ok0) node_chain_ok0 node_tip0) as (q & b & -> & Hb & _ & Hq).
  cbn [or_crash rbind]. unfold deref. rewrite Hb. cbn [or_crash rbind]. rewrite require_Ok, negb_true_iff, Z.ltb_ge. split.
  - intros Hle _. exists q, b. split_and!; [done|done|lia].
  - intros Hf. destruct (Hf E) as (q' & b' & Hq' & Hb' & Hle). rewrite Hq in Hq'. simplify_eq. lia.
Qed.
Lemma check_checkpoints_spec m block h :
  check_checkpoints checkpoints fCheckpointsEnabled m block h = Ok tt ↔
  (fCheckpointsEnabled = true →
     (∀ b, GetLastCheckpoint m checkpoints = Some b → nHeight b ≤ h) ∧ CheckHardened checkpoints h (GetBlockHash block) = true).
Proof.
  unfold check_checkpoints. destruct fCheckpointsEnabled; [|done]. autorewrite with results.
  destruct (GetLastCheckpoint m checkpoints) as [b|].
  - rewrite negb_true_iff, Z.ltb_ge. naive_solver.
  - naive_solver.
Qed.
Lemma check_kind_spec block h :
  check_kind params block h = Ok tt ↔
  (IsProofOfStake_header block = false → h ≤ nLastPOWBlock params) ∧
  (IsProofOfStake_header block = true → COINBASE_MATURITY ≤ h ∧ check_timestamp_mask block = true).
Proof.
  unfold check_kind, IsProofOfWork_header. autorewrite with results. rewrite negb_true_iff.
  destruct (IsProofOfStake_header block); cbn [negb andb]; autorewrite with results; rewrite ?negb_true_iff, ?Z.ltb_ge, ?Z.gtb_ltb, ?Z.ltb_ge; naive_solver.
Qed.
Lemma check_time_spec m block p :
  check_time adjusted_time m block p = Ok tt ↔
  (IsProofOfStake_header block = true → ∃ mtp, GetMedianTimePast m p = Ok mtp ∧ mtp < nTime_blk block ≤ FutureDrift adjusted_time).
Proof.
  unfold check_time. destruct (IsProofOfStake_header block); [|done]. rewrite rbind_Ok. setoid_rewrite or_crash_Ok. setoid_rewrite seq_Ok.
  setoid_rewrite require_Ok. setoid_rewrite negb_true_iff. setoid_rewrite Z.leb_gt. setoid_rewrite Z.gtb_ltb. setoid_rewrite Z.ltb_ge.
  split; [|naive_solver]. intros (a & ? & ? & ?) _. exists a. split; [done|lia].
Qed.

(** The conditions that need the headers before the block only. *)
Record context_ok (s : node_state V) (t : uint256) (block : CBlockHeader) (prev : CBlockIndex) : Prop := {
  c_sync : sync_height (chainActive (chainstate s)) < nHeight prev + 1;
  c_bits : required_bits params (node_index s) block (Some (hashPrevBlock block)) = Ok (nBits_blk block);
  c_checkpoints : fCheckpointsEnabled = true →
     (∀ b, GetLastCheckpoint (node_index s) checkpoints = Some b → nHeight b ≤ nHeight prev + 1) ∧
     CheckHardened checkpoints (nHeight prev + 1) (GetBlockHash block) = true;
  c_version : check_version params block (nHeight prev + 1) = Ok tt;
  c_time : IsProofOfStake_header block = true →
     ∃ mtp, GetMedianTimePast (node_index s) (hashPrevBlock block) = Ok mtp ∧ mtp < nTime_blk block ≤ FutureDrift adjusted_time
}.
Lemma ContextualCheckBlockHeader_spec s t block prev : node_ok s t → node_index s !! hashPrevBlock block = Some prev →
  ContextualCheckBlockHeader params checkpoints fCheckpointsEnabled adjusted_time (node_index s) (chainActive (chainstate s)) block
    (hashPrevBlock block) = Ok tt ↔ context_ok s t block prev.
Proof.
  intros [Ht Hc Htip Hf] Hp. unfold ContextualCheckBlockHeader, deref. rewrite Hp. cbn [or_crash rbind].
  pose proof (proj1 Ht _ _ Hp) as (H0 & _). rewrite (CheckSync_spec (node_index s) _ t _ (proj1 Ht) Hc Htip) by lia. cbn [or_crash rbind].
  replace (nHeight prev + 1 =? 0) with false by lia. cbn [orb].
  destruct (required_bits params (node_index s) block (Some (hashPrevBlock block))) as [bits|] eqn:Hbits; cbn [or_crash rbind].
  2:{ split; [done|]. intros [? ? _ _ _]. congruence. }
  autorewrite with results. rewrite check_checkpoints_spec, check_time_spec, Z.eqb_eq, Z.ltb_lt. split.
  - intros (<- & ? & ? & ? & ?). by constructor.
  - intros [? E ? ? ?]. rewrite Hbits in E. injection E as ->. by split_and!.
Qed.

Lemma check_parent_spec s t block prev : node_ok s t →
  check_parent params checkpoints fCheckpointsEnabled adjusted_time (node_index s) (chainActive (chainstate s)) block = Ok prev ↔
  node_index s !! hashPrevBlock block = Some prev ∧ failed prev = false ∧ CheckCanonicalBlockSignature block = true ∧
  (hashPrevBlock block ≠ t → ∃ q b, at_height (chainActive (chainstate s)) (sync_height (chainActive (chainstate s))) = Some q ∧
     node_index s !! q = Some b ∧ nTime b ≤ nTime_blk block) ∧
  context_ok s t block prev.
Proof.
  intros Hok. unfold check_parent. autorewrite with results. rewrite (check_fork_time_spec s t block Hok).
  destruct (node_index s !! hashPrevBlock block) as [pb|] eqn:Hprev; [|naive_solver]. autorewrite with results.
  rewrite negb_true_iff, (ContextualCheckBlockHeader_spec s t block pb Hok Hprev). naive_solver.
Qed.
(** What a new header has to satisfy, [prev] being the entry before it. *)
Record header_ok (s : node_state V) (t : uint256) (block : CBlockHeader) (prev : CBlockIndex) : Prop := {
  h_parent : node_index s !! hashPrevBlock block = Some prev;
  h_not_failed : failed prev = false;
  h_ancestors : IsValid prev BLOCK_VALID_SCRIPTS = true ∨ ¬ has_failed_ancestor (node_index s) (m_failed_blocks (chainstate s)) (hashPrevBlock block);
  h_encoding : CheckCanonicalBlockSignature block = true;
  h_fork : hashPrevBlock block ≠ t → ∃ q b, at_height (chainActive (chainstate s)) (sync_height (chainActive (chainstate s))) = Some q ∧
             node_index s !! q = Some b ∧ nTime b ≤ nTime_blk block;
  h_context : context_ok s t block prev;
  h_work : IsProofOfStake_header block = false → nHeight prev + 1 ≤ nLastPOWBlock params ∧ CheckHeaderPoW params block = true;
  h_stake : IsProofOfStake_header block = true →
     COINBASE_MATURITY ≤ nHeight prev + 1 ∧ check_timestamp_mask block = true ∧
     (initial_download = false → ∃ ok c, CheckHeaderPoS (node_index s) params spent_coin recover (pcoinsTip s) block = Ok (ok, c) ∧
        (ok = true ∨ nVersion_blk block = SW_VERSION))
}.

Lemma CheckBlockHeader_spec m c block :
  (CheckBlockHeader m params spent_coin recover initial_download c block true true).1 = Ok tt ↔
  (IsProofOfStake_header block = false → CheckHeaderPoW params block = true) ∧
  (IsProofOfStake_header block = true → initial_download = false →
     ∃ ok c', CheckHeaderPoS m params spent_coin recover c block = Ok (ok, c') ∧ (ok = true ∨ nVersion_blk block = SW_VERSION)).
Proof.
  unfold CheckBlockHeader, IsProofOfWork_header. destruct (IsProofOfStake_header block); cbn [negb andb].
  - destruct initial_download; cbn [negb andb fst]; [split; [intros _; split; done|done]|].
    destruct (CheckHeaderPoS m params spent_coin recover c block) as [[ok c']|]; cbn [fst].
    + rewrite require_Ok, negb_true_iff, andb_false_iff, !negb_false_iff, Z.eqb_eq. split.
      * intros Hor. split; [done|]. intros _ _. by exists ok, c'.
      * intros [_ Hs]. destruct (Hs eq_refl eq_refl) as (? & ? & [= <- <-] & ?). done.
    + split; [done|]. intros [_ Hs]. by destruct (Hs eq_refl eq_refl) as (? & ? & [=] & _).
  - rewrite andb_false_r. destruct (CheckHeaderPoW params block); cbn [negb fst]; split; [intros _; split; [done|intros [=]]|done|intros [=]|].
    intros [Hs _]. by specialize (Hs eq_refl).
Qed.

Lemma by_address_elem f p : p ∈ by_address addr f ↔ p ∈ f.
Proof. unfold by_address. rewrite merge_sort_Permutation. apply elem_of_elements. Qed.

(** A new header is accepted exactly when it satisfies [header_ok]; it is then
    added, and a rejected one leaves at most marks on descendants of a failed
    block. *)
Lemma accept_new_header_spec s t block :
  node_ok s t → in_u 32 (nBits_blk block) → hashPrevBlock block ≠ GetBlockHash block → node_index s !! GetBlockHash block = None →
  ∃ r s', AcceptNew s block = (r, s') ∧
    ((∃ p, r = Ok p) ↔ ∃ prev, header_ok s t block prev) ∧
    chainActive (chainstate s') = chainActive (chainstate s) ∧ m_failed_blocks (chainstate s') = m_failed_blocks (chainstate s) ∧
    tree_ok (node_tree s') ∧
    match r with
    | Ok p => p = GetBlockHash block ∧ ∃ prev b, header_ok s t block prev ∧ node_index s' = <[p := b]> (node_index s) ∧
        pprev b = Some (hashPrevBlock block) ∧ nTime b = nTime_blk block
    | Err _ => node_index s' = node_index s ∨ ∃ f, f ∈ m_failed_blocks (chainstate s) ∧ marked (node_index s) (node_index s') f
    end.
Proof.
  intros Hok Hbits Hne Hnew. unfold accept_new_header.
  destruct (check_parent params checkpoints fCheckpointsEnabled adjusted_time (node_index s) (chainActive (chainstate s)) block) as [prev|e] eqn:Hpar.
  2:{ eexists _, s. split; [done|]. split_and!; [|done|done|apply Hok|by left]. split; [by intros []|]. intros (prev & []).
      assert (check_parent params checkpoints fCheckpointsEnabled adjusted_time (node_index s) (chainActive (chainstate s)) block = Ok prev)
        by (apply (check_parent_spec s t); [done|by split_and!]). congruence. }
  pose proof Hpar as (Hp & Hnf & Henc & Hfork & Hctx)%(check_parent_spec s t); [|done].
  assert (∀ prev', header_ok s t block prev' → prev' = prev) as Hfun by (intros prev' []; congruence).
  pose proof Hok as [Ht Hc Htip Hfl]. pose proof (proj1 Ht) as Hix. change (mapBlockIndex (node_tree s)) with (node_index s) in Hix.
  destruct (find_failed_spec (node_index s) (hashPrevBlock block) prev (by_address addr (m_failed_blocks (chainstate s))) Hix Hp) as (r & Hr & Hrs).
  { intros f Hf%by_address_elem. by apply Hfl. }
  set (walk := if IsValid prev BLOCK_VALID_SCRIPTS then Ok None else find_failed _ _ _).
  assert (∃ w, walk = Ok w ∧ match w with
    | Some f => f ∈ m_failed_blocks (chainstate s) ∧ IsValid prev BLOCK_VALID_SCRIPTS = false ∧ ∃ k, back (node_index s) (hashPrevBlock block) k = Some f
    | None => IsValid prev BLOCK_VALID_SCRIPTS = true ∨ ¬ has_failed_ancestor (node_index s) (m_failed_blocks (chainstate s)) (hashPrevBlock block)
    end) as (w & -> & Hw).
  { unfold walk. destruct (IsValid prev BLOCK_VALID_SCRIPTS); [exists None; split; [done|by left]|]. exists r. split; [done|].
    destruct r as [f|]; [destruct Hrs as [?%by_address_elem ?]; by split_and!|right].
    intros (k & q & Hq & Hk). apply (Hrs q k); [by apply by_address_elem|done]. }
  destruct w as [f|].
  { destruct Hw as (Hf & Hv & k & Hk). pose proof (back_height_inv _ k _ prev f Hix Hp Hk) as (Hkle & _).
    destruct (mark_failed_child_spec (Z.to_nat (nHeight prev + 1)) (node_index s) (hashPrevBlock block) prev f k Hix Hp Hk) as (m' & -> & Hm); [lia|].
    eexists _, _. split; [done|]. split_and!; [|done|done| |].
    - split; [by intros []|]. intros (prev' & Hh). pose proof (Hfun _ Hh) as ->. destruct (h_ancestors _ _ _ _ Hh) as [?|Hno]; [congruence|].
      destruct Hno. by exists k, f.
    - apply (tree_ok_same (node_index s)); [by symmetry; apply Hm|done].
    - right. by exists f. }
  destruct (check_kind params block (nHeight prev + 1)) as [[]|e] eqn:Hkind.
  2:{ eexists _, s. split; [done|]. split_and!; [|done|done|done|by left]. split; [by intros []|]. intros (prev' & Hh). pose proof (Hfun _ Hh) as ->.
      assert (check_kind params block (nHeight prev + 1) = Ok tt); [|congruence].
      apply check_kind_spec. destruct Hh as [_ _ _ _ _ _ Hwork Hstake].
      split; [apply Hwork|]. intros E. by destruct (Hstake E) as (? & ? & _). }
  pose proof Hkind as [Hk1 Hk2]%check_kind_spec.
  pose proof (CheckBlockHeader_spec (node_index s) (pcoinsTip s) block) as Hcb.
  destruct (CheckBlockHeader (node_index s) params spent_coin recover initial_download (pcoinsTip s) block true true) as [[[]|e] c]; cbn [fst] in Hcb.
  2:{ eexists _, _. split; [done|]. split_and!; [|done|done|done|by left]. split; [by intros []|]. intros (prev' & [_ _ _ _ _ _ Hwork Hstake]).
      assert (Err e = Ok tt); [|done]. apply Hcb. split; [apply Hwork|]. intros E. by destruct (Hstake E) as (_ & _ & ?). }
  destruct (AddToBlockIndex_spec (node_tree s) block Ht Hbits Hne) as (tr & b & Hadd & Htr & Hb & Hch).
  destruct (Hch Hnew) as (Hm & Hpp & _ & Htime & _). cbn [mapBlockIndex node_tree] in Hpp. rewrite Hp in Hpp. simpl in Hpp.
  assert (header_ok s t block prev) as Hh.
  { apply proj1 in Hcb. destruct (Hcb eq_refl) as [Hc1 Hc2]. constructor; try done.
    - intros E. split; [by apply Hk1|by apply Hc1].
    - intros E. destruct (Hk2 E) as [? ?]. split_and!; [done|done|by apply Hc2]. }
  unfold add_header. change (node_tree (set_coins s c)) with (node_tree s). rewrite Hadd. eexists _, _. split; [done|].
  split_and!; [|done|done|by destruct tr|done|exists prev, b; by split_and!]. split; [by exists prev|eauto].
Qed.

(** ** The invariant of the node *)

Lemma chain_ok_insert m c h b : index_ok m → m !! h = None → chain_ok m c → chain_ok (<[h := b]> m) c.
Proof.
  intros Hix Hh Hc i q Hq. destruct (Hc i q Hq) as (d & Hd & Hi & Hall). exists d. split_and!; [by rewrite lookup_insert_ne by congruence|done|].
  intros j Hj. rewrite Hall by done. by rewrite back_insert.
Qed.
Lemma marked_failed m m' f s : marked m m' f → failed_known m s → failed_known m' s.
Proof.
  intros [Hs Hm] Hk p Hp. destruct (Hk p Hp) as (b & Hb & Hst). destruct (same_shape_lookup m m' p b (symmetry Hs) Hb) as (b' & Hb' & _).
  exists b'. split; [done|]. destruct (Hm p b' Hb') as [Hsame|(d & k & Hd & -> & _)]; simplify_eq; [done|]. unfold set_status. cbn [nStatus].
  rewrite Z.land_lor_distr_l. change (BLOCK_FAILED_CHILD &' BLOCK_FAILED_VALID) with 0. by rewrite Z.lor_0_r.
Qed.

Definition parsed_header (h : CBlockHeader) : Prop := in_u 32 (nBits_blk h) ∧ hashPrevBlock h ≠ GetBlockHash h.
(** How accepting headers changes the node: the active chain and the failed blocks
    stay, no entry disappears or changes other than in status, and every new
    entry lies above the synchronized checkpoint. *)
Record extends (s s' : node_state V) : Prop := {
  e_chain : chainActive (chainstate s') = chainActive (chainstate s);
  e_failed : m_failed_blocks (chainstate s') = m_failed_blocks (chainstate s);
  e_old : ∀ p b, node_index s !! p = Some b → ∃ b', node_index s' !! p = Some b' ∧ set_status b 0 = set_status b' 0;
  e_new : ∀ p b, node_index s' !! p = Some b → node_index s !! p = None → sync_height (chainActive (chainstate s)) < nHeight b
}.
Lemma extends_refl s : extends s s.
Proof. split; [done|done|eauto|]. intros. congruence. Qed.
Lemma extends_trans s1 s2 s3 : extends s1 s2 → extends s2 s3 → extends s1 s3.
Proof.
  intros [H1 H2 H3 H4] [H1' H2' H3' H4']. split; [congruence|congruence| |].
  - intros p b Hb. destruct (H3 p b Hb) as (b2 & Hb2 & E). destruct (H3' p b2 Hb2) as (b3 & Hb3 & E'). exists b3. split; [done|congruence].
  - intros p b Hb Hn. destruct (node_index s2 !! p) as [b2|] eqn:Hb2; [|rewrite <- H1; by apply (H4' p)].
    destruct (H3' p b2 Hb2) as (b' & Hb' & (_ & _ & Eh & _)%set_status_fields).
    assert (b' = b) as -> by congruence. rewrite <- Eh. by apply (H4 p).
Qed.
Lemma extends_marked s s' f : chainActive (chainstate s') = chainActive (chainstate s) →
  m_failed_blocks (chainstate s') = m_failed_blocks (chainstate s) → marked (node_index s) (node_index s') f → extends s s'.
Proof.
  intros E1 E2 [Hs _]. split; [done|done| |].
  - intros p b Hb. by apply (same_shape_lookup (node_index s)).
  - intros p b Hb Hn. destruct (same_shape_lookup (node_index s') (node_index s) p b Hs Hb) as (? & ? & _). congruence.
Qed.

Lemma AcceptBlockHeader_invariant s t block r s' :
  node_ok s t → parsed_header block → is_Some (node_index s !! hashGenesisBlock params) → Accept s block = (r, s') →
  node_ok s' t ∧ extends s s' ∧ (∀ p, r = Ok p → p = GetBlockHash block ∧ is_Some (node_index s' !! p)).
Proof.
  intros Hok [Hbits Hne] [g Hg] Hacc. unfold AcceptBlockHeader in Hacc. case_bool_decide as Hgen.
  { unfold add_header, AddToBlockIndex in Hacc. cbn [mapBlockIndex node_tree] in Hacc. rewrite Hgen, Hg in Hacc. injection Hacc as <- <-.
    replace (set_tree s (node_tree s)) with s by (by destruct s as [[]]). split_and!; [done|apply extends_refl|]. intros p [= <-]. by rewrite Hgen, Hg. }
  destruct (node_index s !! GetBlockHash block) as [b|] eqn:Hb.
  { destruct (failed b); injection Hacc as <- <-; (split_and!; [done|apply extends_refl|intros p [=]]); subst. by rewrite Hb. }
  destruct (accept_new_header_spec s t block Hok Hbits Hne Hb) as (r1 & s1 & Hr & _ & Hc & Hf & Ht & Hres). rewrite Hr in Hacc. injection Hacc as <- <-.
  pose proof Hok as [Htr Hch Htip Hfl]. pose proof (proj1 Htr) as Hix. change (mapBlockIndex (node_tree s)) with (node_index s) in Hix.
  destruct r1 as [p|e].
  - destruct Hres as (-> & prev & b & Hh & Hm & Hpp & _). split_and!; [split; rewrite ?Hc, ?Hf, ?Hm| |].
    + done.
    + by apply chain_ok_insert.
    + done.
    + intros q Hq. destruct (Hfl q Hq) as (d & Hd & Hst). exists d. by rewrite lookup_insert_ne by congruence.
    + split; [done|done| |]; rewrite Hm.
      * intros q d Hq. exists d. by rewrite lookup_insert_ne by congruence.
      * intros q d [[<- <-]|[_ ?]]%lookup_insert_Some Hn; [|congruence]. pose proof (proj1 Ht) as Hix'.
        change (mapBlockIndex (node_tree s1)) with (node_index s1) in Hix'. rewrite Hm in Hix'.
        destruct (Hix' (GetBlockHash block) b) as (_ & Hl & _); [apply lookup_insert_eq|]. unfold link_ok in Hl. rewrite Hpp in Hl.
        destruct Hl as (q' & Hq' & ->). rewrite lookup_insert_ne in Hq' by done. destruct Hh as [Hpar _ _ _ _ [Hsync _ _ _ _] _ _]. simplify_eq. done.
    + intros p [= <-]. rewrite Hm, lookup_insert_eq. by split.
  - destruct Hres as [Hm|(f & Hfm & Hm)].
    + split_and!; [split; rewrite ?Hc, ?Hf, ?Hm; done| |done]. split; [done|done| |]; rewrite Hm; [eauto|]. intros. congruence.
    + split_and!; [split; rewrite ?Hc, ?Hf|by eapply extends_marked|done].
      * done.
      * destruct Hm as [Hs _]. by rewrite Hs.
      * done.
      * by eapply marked_failed.
Qed.
Lemma headers_loop_invariant busy hs : ∀ s t ban last r s',
  node_ok s t → Forall parsed_header hs → is_Some (node_index s !! hashGenesisBlock params) →
  headers_loop params addr checkpoints fCheckpointsEnabled spent_coin recover initial_download adjusted_time s busy hs ban last = (r, s') →
  node_ok s' t ∧ extends s s' ∧ (∀ p, r = Ok p → Forall (λ h, is_Some (node_index s' !! GetBlockHash h)) hs).
Proof.
  induction hs as [|h hs IH]; intros s t ban l r s' Hok Hall Hg Hrun; cbn [headers_loop] in Hrun.
  { injection Hrun as <- <-. split_and!; [done|apply extends_refl|done]. }
  apply Forall_cons in Hall as [Hh Hall]. destruct (stake_seen initial_download s busy h && bool_decide (hs = [])).
  { injection Hrun as <- <-. split_and!; [done|apply extends_refl|done]. }
  destruct (Accept s h) as [r1 s1] eqn:Hacc. destruct (AcceptBlockHeader_invariant s t h r1 s1 Hok Hh Hg Hacc) as (Hok1 & Hex & Hin).
  destruct r1 as [p|e]; [|injection Hrun as <- <-; by split_and!].
  destruct (Hin p eq_refl) as (-> & Hp). assert (is_Some (node_index s1 !! hashGenesisBlock params)) as Hg1.
  { destruct Hg as [g Hg]. destruct (e_old _ _ Hex _ _ Hg) as (? & ? & _). eauto. }
  destruct (IH s1 t _ _ r s' Hok1 Hall Hg1 Hrun) as (Hok2 & Hex2 & Hin2).
  split_and!; [done|by eapply extends_trans|]. intros p Hr. constructor; [|by eapply Hin2].
  destruct Hp as [b Hb]. destruct (e_old _ _ Hex2 _ _ Hb) as (? & ? & _). eauto.
Qed.

(** C25: A new header enters the block index exactly when it satisfies all header
    rules: a known predecessor that has not failed and has no failed ancestor
    (unless it was fully validated), a canonical signature, the required
    difficulty, the checkpoints, the time and version rules, its kind's height
    limits, and its work or stake (whose failure the blocks of version
    0x20000002 are forgiven). *)
Theorem accept_header_iff s t block :
  node_ok s t → parsed_header block → GetBlockHash block ≠ hashGenesisBlock params → node_index s !! GetBlockHash block = None →
  (∃ p s', Accept s block = (Ok p, s')) ↔ ∃ prev, header_ok s t block prev.
Proof.
  intros Hok [Hbits Hne] Hgen Hnew. unfold AcceptBlockHeader. rewrite bool_decide_false, Hnew by done.
  destruct (accept_new_header_spec s t block Hok Hbits Hne Hnew) as (r & s' & -> & Hiff & _). rewrite <- Hiff. naive_solver.
Qed.

(** C11: processing headers keeps the node consistent and never rewrites history.
    Whatever list of headers a peer sends, the block tree, the active chain and
    the failed blocks stay consistent, old entries change in status only, the
    active chain is untouched, every new entry lies less than 500 blocks below
    the tip (above the synchronized checkpoint), and when the call succeeds
    every header of the list is in the index. *)
Theorem process_headers_safe s t busy headers :
  node_ok s t → Forall parsed_header headers → is_Some (node_index s !! hashGenesisBlock params) →
  let r := ProcessNewBlockHeaders params addr checkpoints fCheckpointsEnabled spent_coin recover initial_download adjusted_time s busy headers in
  node_ok r.2 t ∧ extends s r.2 ∧ (is_ok r.1 = true → Forall (λ h, is_Some (node_index r.2 !! GetBlockHash h)) headers).
Proof.
  intros Hok Hall Hg r. unfold r, ProcessNewBlockHeaders. case_match; [split_and!; [done|apply extends_refl|done]|].
  destruct (headers_loop _ _ _ _ _ _ _ _ _ _ _ _ _) as [[p|e] s'] eqn:Hrun;
    (destruct (headers_loop_invariant _ _ _ _ _ _ _ _ Hok Hall Hg Hrun) as (? & ? & Hin); split_and!; [done|done|]); [|done].
  intros _. by eapply Hin.
Qed.
End Node.

(** ** Examples: a node that knows the genesis block only *)

Definition genesis_header : CBlockHeader :=
  mk_header 1 null_hash null_hash 60 0x1f00ffff 0 null_hash null_hash null_outpoint [].
Definition genesis_hash : uint256 := GetBlockHash (H := toy_crypto) genesis_header.
Definition genesis_entry : CBlockIndex :=
  mk_index None None 0 (of_u64 0x10001) 2 60 0x1f00ffff 60 null_outpoint null_hash 1 0 0 0.
Definition sample_node : node_state CCoinsViewDB :=
  mk_node (Activate.mk_state {[genesis_hash := genesis_entry]} [genesis_hash] ∅ [Some genesis_hash] [] None 1 (-1) zero)
    (Some genesis_hash) [] sample_cache (λ _, ∅) ∅.
Lemma sample_node_ok : node_ok sample_node genesis_hash.
Proof.
  split; [| |done|by intros p ?%elem_of_empty].
  - destruct (AddToBlockIndex_spec (C := toy_crypto) (mk_tree ∅ None []) genesis_header) as (t & b & H1 & H2 & _).
    + split_and!; [intros p b; simpl; by rewrite lookup_empty..|done].
    + split; [vm_compute; discriminate|reflexivity].
    + vm_compute. discriminate.
    + assert (AddToBlockIndex (H := toy_crypto) (mk_tree ∅ None []) genesis_header = Ok (genesis_hash, node_tree sample_node)) as E
        by (vm_compute; reflexivity).
      assert (t = node_tree sample_node) as <- by congruence. exact H2.
  - intros i q Hq. pose proof (at_height_range _ _ _ Hq) as Hr. simpl in Hr. assert (i = 0) as -> by lia. injection Hq as <-.
    exists genesis_entry. split_and!; [reflexivity..|]. intros j Hj. assert (j = 0) as -> by lia. reflexivity.
Qed.
Definition genesis_params : consensus_params :=
  mk_consensus main_params (mk_vb_params 1 1 (λ _, mk_deployment 1 ALWAYS_ACTIVE NO_TIMEOUT)) genesis_hash 985500 0 0 0 10000 10100 5 399100.
(** A block of work on top of it, and one without enough work. *)
Definition next_header (bits : Z) : CBlockHeader :=
  mk_header 4 genesis_hash null_hash 300 bits 0 null_hash null_hash null_outpoint [].
Lemma next_header_parsed : parsed_header (C := toy_crypto) (next_header 0x1f00ffff).
Proof. split; [split; [vm_compute; discriminate|reflexivity]|vm_compute; discriminate]. Qed.

Lemma accept_header_iff_witness :
  ∃ prev, header_ok (C := toy_crypto) genesis_params [] true (λ _ _, None) (λ _ _ _ _, None) false 300 sample_node genesis_hash
    (next_header 0x1f00ffff) prev.
Proof.
  apply (accept_header_iff (C := toy_crypto) genesis_params (λ _, 0) [] true (λ _ _, None) (λ _ _ _ _, None) false 300 sample_node genesis_hash
    (next_header 0x1f00ffff)); [apply sample_node_ok|apply next_header_parsed|vm_compute; discriminate|vm_compute; reflexivity|].
  eexists _, _. vm_compute. reflexivity.
Defined.
Lemma process_headers_safe_witness :
  Forall (λ h, is_Some (node_index (ProcessNewBlockHeaders (C := toy_crypto) genesis_params (λ _, 0) [] true (λ _ _, None) (λ _ _ _ _, None) false 300
    sample_node false [next_header 0x1f00ffff]).2 !! GetBlockHash (H := toy_crypto) h)) [next_header 0x1f00ffff].
Proof.
  apply (process_headers_safe (C := toy_crypto) genesis_params (λ _, 0) [] true (λ _ _, None) (λ _ _ _ _, None) false 300 sample_node genesis_hash
    false [next_header 0x1f00ffff]); [apply sample_node_ok|constructor; [apply next_header_parsed|constructor]|by eexists|vm_compute; reflexivity].
Defined.
