(* ===== verification/BlockVerdict.v ===== *)
(** * A permanent verdict belongs to the header

    [AcceptBlock] marks a header as failed for good when [CheckBlock] or
    [ContextualCheckBlock] rejects its block without reporting a possible
    corruption.  The comment in [CheckBlock] asks that none of its checks look at
    witness data, because the header does not commit to it.  Both are verified
    here: the checks give the same answer on a block stripped of its witnesses,
    and a verdict that is not a corruption is the same for every block with the
    header. *)
From stdpp Require Import strings.
From S2P Require Import Prelude ArithUint256 Script Interpreter InterpreterFacts InterpreterSpecs StandardScripts Serialize Transaction SigHash Standard Coins CoinsFacts Block Chain ChainFacts TxVerify Pow Pos VersionBits Activate ActivateFacts BlockChecks BlockChecksFacts Headers HeadersFacts.
Import BaseUint.

Definition strip_block (b : CBlock) : CBlock := mk_block (header b) (strip <$> vtx b).

(** ** The checks do not see witnesses *)

Lemma existsb_strip_in (f : CTxIn → bool) l : (∀ i, f (strip_in i) = f i) → existsb f (strip_in <$> l) = existsb f l.
Proof. intros Hf. induction l as [|x l IH]; [done|]. cbn [existsb fmap list_fmap]. by rewrite Hf, <- IH. Qed.
Lemma forallb_strip_in (f : CTxIn → bool) l : (∀ i, f (strip_in i) = f i) → forallb f (strip_in <$> l) = forallb f l.
Proof. intros Hf. induction l as [|x l IH]; [done|]. cbn [forallb fmap list_fmap]. by rewrite Hf, <- IH. Qed.
Lemma IsCoinBase_strip tx : IsCoinBase (strip tx) = IsCoinBase tx.
Proof. unfold IsCoinBase, strip. cbn [vin vout]. by destruct (vin tx) as [|i [|]]. Qed.
Lemma IsCoinStake_strip tx : IsCoinStake (strip tx) = IsCoinStake tx.
Proof. unfold IsCoinStake, strip. cbn [vin vout]. by destruct (vin tx). Qed.
Lemma HasOpSpend_strip tx : HasOpSpend_tx (strip tx) = HasOpSpend_tx tx.
Proof. unfold HasOpSpend_tx, strip. cbn [vin]. by apply existsb_strip_in. Qed.
Lemma has_contract_strip tx : has_contract (strip tx) = has_contract tx.
Proof. unfold has_contract. by rewrite HasOpSpend_strip. Qed.
Lemma sigops_strip tx : GetLegacySigOpCount (strip tx) = GetLegacySigOpCount tx.
Proof.
  unfold GetLegacySigOpCount, strip. cbn [vin vout]. f_equal. generalize 0. induction (vin tx) as [|i l IH]; intros n; [done|]. apply IH.
Qed.
Lemma prevouts_strip tx : map prevout (vin (strip tx)) = map prevout (vin tx).
Proof. unfold strip. cbn [vin]. induction (vin tx) as [|i l IH]; [done|]. cbn [map fmap list_fmap]. by rewrite <- IH. Qed.
Lemma check_prevouts_strip tx : check_prevouts (strip tx) = check_prevouts tx.
Proof.
  unfold check_prevouts. rewrite IsCoinBase_strip. unfold strip. cbn [vin]. destruct (IsCoinBase tx).
  - by destruct (vin tx).
  - f_equal. by apply forallb_strip_in.
Qed.
Lemma CheckTransaction_strip dgp tx dup : CheckTransaction dgp (strip tx) dup = CheckTransaction dgp tx dup.
Proof.
  unfold CheckTransaction. rewrite SerializeTransaction_strip, IsCoinBase_strip, IsCoinStake_strip, prevouts_strip, check_prevouts_strip.
  unfold strip. cbn [vin vout]. unfold size at 1. by rewrite length_fmap.
Qed.
Lemma IsFinalTx_strip tx h t : IsFinalTx (strip tx) h t = IsFinalTx tx h t.
Proof.
  unfold IsFinalTx, strip. cbn [vin nLockTime]. repeat (case_match; [done|]). by apply forallb_strip_in.
Qed.
Lemma forallb_strip (f : CTransaction → bool) l : (∀ tx, f (strip tx) = f tx) → forallb f (strip <$> l) = forallb f l.
Proof. intros Hf. induction l as [|x l IH]; [done|]. cbn [forallb fmap list_fmap]. by rewrite Hf, <- IH. Qed.

Section Strip.
Context `{C : Crypto} (params : consensus_params) (dgp : dgp_params) (Verify : bytes → uint256 → bytes → bool) (adjusted_time : Z).

Lemma BlockMerkleRoot_strip b : BlockMerkleRoot (strip_block b) = BlockMerkleRoot b.
Proof.
  unfold BlockMerkleRoot, strip_block. cbn [vtx]. f_equal. rewrite <- list_fmap_compose. apply list_fmap_ext. intros i tx _. simpl.
  unfold GetHash. by rewrite SerializeTransaction_strip.
Qed.
Lemma CheckFirstCoinstakeOutput_strip b : CheckFirstCoinstakeOutput (strip_block b) = CheckFirstCoinstakeOutput b.
Proof. unfold CheckFirstCoinstakeOutput, GetWitnessCommitmentIndex, strip_block. cbn [vtx]. by destruct (vtx b). Qed.
Lemma check_coinbase_strip b : check_coinbase (strip_block b) = check_coinbase b.
Proof.
  unfold check_coinbase, strip_block. cbn [vtx]. destruct (vtx b) as [|cb rest]; [done|]. cbn [fmap list_fmap].
  rewrite IsCoinBase_strip, has_contract_strip, forallb_strip; [done|]. intros. by rewrite IsCoinBase_strip.
Qed.
Lemma check_coinstake_strip b : check_coinstake (strip_block b) = check_coinstake b.
Proof.
  unfold check_coinstake. rewrite CheckFirstCoinstakeOutput_strip. unfold stakes_prevout, strip_block. cbn [header vtx].
  destruct (vtx b) as [|cb [|cs rest]]; [done..|]. cbn [fmap list_fmap].
  rewrite IsCoinStake_strip, has_contract_strip, forallb_strip by (intros; by rewrite IsCoinStake_strip).
  unfold strip at 1. cbn [vin]. by destruct (vin cs).
Qed.
Lemma check_signature_strip b s : check_signature Verify (strip_block b) s = check_signature Verify b s.
Proof.
  unfold check_signature, CheckBlockSignature, GetBlockPublicKey, strip_block. cbn [header vtx].
  replace (((strip <$> vtx b) !! 1%nat) ≫= λ cs, vout cs !! 1%nat) with ((vtx b !! 1%nat) ≫= λ cs, vout cs !! 1%nat); [done|].
  rewrite list_lookup_fmap. by destruct (vtx b !! 1%nat).
Qed.
Lemma check_transactions_strip l : ∀ last, check_transactions dgp (strip <$> l) last = check_transactions dgp l last.
Proof.
  induction l as [|tx l IH]; intros last; [done|]. cbn [fmap list_fmap check_transactions]. rewrite CheckTransaction_strip, HasOpSpend_strip.
  unfold with_tx, tx_reject_state. destruct (CheckTransaction dgp tx true); cbn [rbind]; [|done]. by rewrite IH.
Qed.
Lemma block_sigops_strip l : block_sigops (strip <$> l) = block_sigops l.
Proof. unfold block_sigops. generalize 0. induction l as [|tx l IH]; intros n; [done|]. cbn [foldl fmap list_fmap]. rewrite sigops_strip. apply IH. Qed.
Lemma check_body_strip b mr sg : check_body dgp Verify adjusted_time (strip_block b) mr sg = check_body dgp Verify adjusted_time b mr sg.
Proof.
  unfold check_body. rewrite check_coinbase_strip, check_coinstake_strip, check_signature_strip.
  assert (check_merkle (strip_block b) = check_merkle b) as -> by (unfold check_merkle; by rewrite BlockMerkleRoot_strip).
  unfold strip_block. cbn [header vtx]. by rewrite check_transactions_strip, block_sigops_strip.
Qed.
Lemma check_final_strip b h t : check_final (strip_block b) h t = check_final b h t.
Proof. unfold check_final, strip_block. cbn [vtx]. by rewrite forallb_strip by (intros; apply IsFinalTx_strip). Qed.
Lemma check_height_strip b h : check_height params (strip_block b) h = check_height params b h.
Proof.
  unfold check_height, coinbase_script, strip_block. cbn [vtx]. destruct (vtx b) as [|cb rest]; [done|]. cbn [fmap list_fmap].
  unfold strip. cbn [vin]. by destruct (vin cb).
Qed.
End Strip.

(** ** The header determines the stripped transactions *)

Lemma SerializeTransaction_strip_inj t1 t2 : tx_wf t1 → tx_wf t2 →
  SerializeTransaction false t1 = SerializeTransaction false t2 → strip t1 = strip t2.
Proof.
  intros H1 H2 E. pose proof (tx_read_basic false t1 [] H1 eq_refl) as R1. pose proof (tx_read_basic false t2 [] H2 eq_refl) as R2.
  rewrite E in R1. congruence.
Qed.
Lemma txids_bind `{C : Crypto} l1 : ∀ l2, Forall tx_wf l1 → Forall tx_wf l2 → GetHash <$> l1 = GetHash <$> l2 →
  strip <$> l1 = strip <$> l2 ∨ collision C.
Proof.
  induction l1 as [|t1 l1 IH]; intros [|t2 l2] H1 H2 E; try done; [by left|]. injection E as E1 E2.
  apply Forall_cons in H1 as [W1 H1]. apply Forall_cons in H2 as [W2 H2].
  destruct (IH l2 H1 H2 E2) as [E'|]; [|by right]. apply CHash256_inj in E1 as [E1|]; [|by right].
  left. cbn [fmap list_fmap]. f_equal; [by apply SerializeTransaction_strip_inj|done].
Qed.
Lemma merkle_binds_block `{C : Crypto} `{!CryptoSizes C} b1 b2 :
  header b1 = header b2 → vtx b1 ≠ [] → vtx b2 ≠ [] → Forall tx_wf (vtx b1) → Forall tx_wf (vtx b2) →
  Nat.log2_up (length (vtx b1)) = Nat.log2_up (length (vtx b2)) →
  check_merkle b1 = Ok tt → check_merkle b2 = Ok tt → strip_block b1 = strip_block b2 ∨ collision C.
Proof.
  intros Hh N1 N2 W1 W2 Hlog M1%check_merkle_spec M2%check_merkle_spec. unfold BlockMerkleRoot in *.
  assert (∀ l, hash_sized (GetHash <$> l)) as Hsz.
  { intros l. apply Forall_fmap, Forall_true. intros tx. apply CSHA256_size. }
  assert (GetHash <$> vtx b1 = GetHash <$> vtx b2 ∨ collision C) as [E|]; [|  |by right].
  { apply ComputeMerkleRoot_binds; rewrite ?length_fmap, ?M1, ?M2; cbn [fst snd]; try done; [by intros ?%fmap_nil_inv..|by rewrite Hh]. }
  destruct (txids_bind _ _ W1 W2 E) as [E'|]; [left|by right]. unfold strip_block. by rewrite Hh, E'.
Qed.

(** ** Verdicts *)

Definition corruption_possible (e : block_reject) : bool := match e with DoS _ _ _ c => c | _ => false end.

Section Verdict.
Context `{C : Crypto} `{!CryptoSizes C} {V : Type} `{CoinsView V}.
Context (params : consensus_params) (dgp : dgp_params) (spent_coin : uint256 → COutPoint → option Coin)
  (recover : uint256 → bytes → Z → bool → option bytes) (Verify : bytes → uint256 → bytes → bool) (initial_download : bool) (adjusted_time : Z).

Lemma check_witness_corrupt segwit b e : check_witness segwit b = Err e → permanent e = false.
Proof.
  unfold check_witness. intros E. repeat (case_match; simplify_eq; try done); unfold require in E;
    repeat (destruct (_ : bool) in E; simpl in E; simplify_eq; try done).
  all: repeat (case_match; simpl in *; simplify_eq; try done).
Qed.

Lemma check_merkle_corrupt b e : check_merkle b = Err e → corruption_possible e = true.
Proof. unfold check_merkle. destruct (BlockMerkleRoot b). intros E. by repeat (destruct (_ : bool) in E; simplify_eq/=). Qed.

(** What the checks before that of the Merkle root say depends on the header. *)
Definition before_root (h : CBlockHeader) : result block_reject unit :=
  require (negb (IsProofOfStake_header h && (nTime_blk h >? FutureDrift adjusted_time))) silent.
Lemma before_root_silent h e : before_root h = Err e → permanent e = false.
Proof. unfold before_root, require. case_match; [done|]. by intros [= <-]. Qed.
Lemma check_body_split b : ∃ rest,
  check_body dgp Verify adjusted_time b true true = (let* _ := before_root (header b) in let* _ := check_merkle b in rest).
Proof. by eexists. Qed.

Lemma ContextualCheckBlock_permanent m cache b1 b2 p e :
  strip_block b1 = strip_block b2 → (ContextualCheckBlock m params cache b1 p).1 = Err e → permanent e = true →
  (ContextualCheckBlock m params cache b2 p).1 = Err e.
Proof.
  intros Es. assert (header b1 = header b2) as Eh by (unfold strip_block in Es; congruence). unfold ContextualCheckBlock. rewrite Eh.
  destruct (VersionBitsState m (vb params) p DEPLOYMENT_CSV cache) as [[csv c1]|]; [|done].
  set (pos := (let* nHeight := _ in _)). destruct pos as [[h t]|]; [|done].
  assert ((let* _ := check_final b1 h t in check_height params b1 h) = (let* _ := check_final b2 h t in check_height params b2 h)) as ->.
  { rewrite <- (check_final_strip b1), <- (check_final_strip b2), <- (check_height_strip params b1), <- (check_height_strip params b2). by rewrite Es. }
  destruct (let* _ := check_final b2 h t in check_height params b2 h) as [u|]; [|done].
  destruct (VersionBitsState m (vb params) p DEPLOYMENT_SEGWIT c1) as [[sw c2]|]; [|done]. cbn [fst].
  intros Hw%check_witness_corrupt. congruence.
Qed.

Lemma check_data_strip s b1 b2 b e :
  strip_block b1 = strip_block b2 →
  (check_data params dgp spent_coin recover Verify initial_download adjusted_time s false b1 b).1 = Err e → permanent e = true →
  (check_data params dgp spent_coin recover Verify initial_download adjusted_time s false b2 b).1 = Err e.
Proof.
  intros Es. assert (header b1 = header b2) as Eh by (unfold strip_block in Es; congruence).
  unfold check_data, CheckBlock, check_block. rewrite Eh.
  destruct (CheckBlockHeader _ _ _ _ _ _ _ _ _) as [[[]|] c]; [|done].
  rewrite <- (check_body_strip _ _ _ b1), <- (check_body_strip _ _ _ b2), Es.
  destruct (check_body _ _ _ _ _ _); cbn [rbind fst snd]; [|done].
  destruct (ContextualCheckBlock _ _ _ b1 _) as [r1 v1] eqn:E1, (ContextualCheckBlock _ _ _ b2 _) as [r2 v2] eqn:E2. cbn [fst].
  intros -> Hp. pose proof (ContextualCheckBlock_permanent _ _ _ _ _ e Es (f_equal fst E1) Hp) as Hq. by rewrite E2 in Hq.
Qed.

(** C10: a block is marked invalid for good only with reason.  When the checks of
    [AcceptBlock] reject the data of a header permanently (a violation without a
    possible corruption), then every other block with the same header and a
    Merkle tree of the same depth is rejected too, with the same reason or as
    corrupted data, unless the double hash has a collision; so a peer cannot
    ruin a valid header by sending other transactions or witnesses with it. *)
Theorem permanent_verdict_of_header s b1 b2 b e :
  header b1 = header b2 → vtx b1 ≠ [] → vtx b2 ≠ [] → Forall tx_wf (vtx b1) → Forall tx_wf (vtx b2) →
  Nat.log2_up (length (vtx b1)) = Nat.log2_up (length (vtx b2)) →
  (check_data params dgp spent_coin recover Verify initial_download adjusted_time s false b1 b).1 = Err e → permanent e = true →
  (∃ e', (check_data params dgp spent_coin recover Verify initial_download adjusted_time s false b2 b).1 = Err e' ∧
     (e' = e ∨ corruption_possible e' = true)) ∨ collision C.
Proof.
  intros Hh N1 N2 W1 W2 Hlog He Hp.
  destruct (CheckBlockHeader (node_index s) params spent_coin recover initial_download (pcoinsTip s) (header b2) true false) as [[[]|e0] c] eqn:E0.
  2:{ left. exists e. split; [|by left]. revert He. unfold check_data, CheckBlock, check_block. by rewrite Hh, E0. }
  destruct (check_merkle b1) as [[]|e1] eqn:M1; [destruct (check_merkle b2) as [[]|e2] eqn:M2|].
  - destruct (merkle_binds_block b1 b2) as [Es|]; [done..|left|by right]. exists e. split; [by eapply check_data_strip|by left].
  - left. revert He. unfold check_data, CheckBlock, check_block. rewrite Hh, E0.
    destruct (check_body_split b1) as (r1 & ->), (check_body_split b2) as (r2 & ->). rewrite Hh, M1, M2.
    destruct (before_root (header b2)) as [[]|e0]; cbn [rbind fst]; intros E; [|injection E as ->; eauto].
    exists e2. split; [done|right]. by eapply check_merkle_corrupt.
  - exfalso. revert He. unfold check_data, CheckBlock, check_block. rewrite Hh, E0.
    destruct (check_body_split b1) as (r1 & ->). rewrite Hh, M1. apply check_merkle_corrupt in M1.
    destruct (before_root (header b2)) as [[]|e0] eqn:R; cbn [rbind fst]; intros [= ->].
    + destruct e as [? ? ? []| |]; done.
    + apply before_root_silent in R. congruence.
Qed.
End Verdict.

(** ** Example: a block without a coinbase, with and without its witness *)

Definition bad_header : CBlockHeader :=
  mk_header 4 null_hash (GetHash (H := toy_crypto) sample_tx) 300 0x1f00ffff 0 null_hash null_hash null_outpoint [].
Lemma permanent_verdict_of_header_witness :
  (∃ e, (check_data (C := toy_crypto) genesis_params default_dgp (λ _ _, None) (λ _ _ _ _, None) (λ _ _ _, false) false 300 sample_node false
    (mk_block bad_header [strip sample_tx]) genesis_entry).1 = Err e ∧ (e = bad 100 "bad-cb-missing" ∨ corruption_possible e = true))
  ∨ collision toy_crypto.
Proof.
  apply (permanent_verdict_of_header (C := toy_crypto) genesis_params default_dgp (λ _ _, None) (λ _ _ _ _, None) (λ _ _ _, false) false 300 sample_node
    (mk_block bad_header [sample_tx]) (mk_block bad_header [strip sample_tx]) genesis_entry (bad 100 "bad-cb-missing"));
    [done|done|done|constructor; [apply sample_tx_wf|constructor]|constructor; [solve_tx_wf|constructor]|done|vm_compute; reflexivity|done].
Defined.
