(* ===== verification/Contracts.v ===== *)
(** * Contract transactions (validation.cpp, silubium/silubiumtransaction.h)

    How the contract outputs of a transaction become calls of the virtual machine
    and how [ConnectBlock] checks a call before it is executed.  What a failing
    evaluation leaves on the stack, which the converter does not look at before it
    parses it, is the argument [failed_stack]. *)
From stdpp Require Import strings.
From S2P Require Import Prelude ArithUint256 Script Interpreter InterpreterFacts InterpreterSpecs StandardScripts Serialize Transaction SigHash Standard Coins Block Chain TxVerify BlockChecks.

(** ** Addresses and 256-bit numbers *)

Definition u256 (x : Z) : Z := wrap 256 x.
Abbreviation Address := bytes.
Definition zero_address : Address := replicate 20 0.
(** [dev::Address(bytes)]: other lengths give the zero address. *)
Definition to_Address (b : bytes) : Address := if size b =? 20 then b else zero_address.

(** ** The version of a call *)

Record VersionVM := mk_vm { format : Z; rootVM : Z; vmVersion : Z; flagOptions : Z }.
#[global] Instance VersionVM_eq_dec : EqDecision VersionVM.
Proof. solve_decision. Defined.
(** The fields of the packed structure on a little-endian machine. *)
Definition toRaw (v : VersionVM) : Z := format v |' (rootVM v <<' 2) |' (vmVersion v <<' 8) |' (flagOptions v <<' 16).
Definition fromRaw (val : Z) : VersionVM := mk_vm (val &' 3) ((val >>' 2) &' 63) ((val >>' 8) &' 0xff) ((val >>' 16) &' 0xffff).
Definition GetNoExec : VersionVM := mk_vm 0 0 0 0.
Definition GetEVMDefault : VersionVM := mk_vm 0 1 0 0.

(** ** Calls *)

Record EthTransactionParams := mk_etp {
  etp_version : VersionVM; gasLimit : Z; etp_gasPrice : Z; code : bytes; receiveAddress : Address
}.
(** [dest] is [None] for a creation. *)
Record SilubiumTransaction := mk_qtx {
  value : Z; gasPrice : Z; gas : Z; dest : option Address; data : bytes; sender : Address;
  hashWith : uint256; nVout : Z; version : VersionVM
}.
(** The output scripts the wallet makes: [createcontract] and [sendtocontract]. *)
Definition create_script (p : EthTransactionParams) : CScript :=
  push_opcode (push_data (push_data (push_data (push_data [] (ScriptNum.serialize (toRaw (etp_version p))))
    (ScriptNum.serialize (gasLimit p))) (ScriptNum.serialize (etp_gasPrice p))) (code p)) OP_CREATE.
Definition call_script (p : EthTransactionParams) : CScript :=
  push_opcode (push_data (push_data (push_data (push_data (push_data [] (ScriptNum.serialize (toRaw (etp_version p))))
    (ScriptNum.serialize (gasLimit p))) (ScriptNum.serialize (etp_gasPrice p))) (code p)) (receiveAddress p)) OP_CALL.
Definition INT64_MAX : Z := 2 ^ 63 - 1.
Definition UINT32_MAX : Z := 2 ^ 32 - 1.
Definition UINT64_MAX : Z := 2 ^ 64 - 1.
Definition MINIMUM_GAS_LIMIT : Z := 10000.

Definition SCRIPT_EXEC_BYTE_CODE : Z := 1 <<' 30.

Section Convert.
Context `{C : Crypto} {V : Type} `{CoinsView V} (failed_stack : stack_t → CScript → stack_t).
Implicit Types c : CCoinsViewCache V.

(** The script of the first input's coin: of a transaction of the block if it is
    there, else from the view. *)
Definition sender_script c (tx : CTransaction) (blockTxs : list CTransaction) : result chain_error (CScript * CCoinsViewCache V) :=
  match vin tx with
  | [] => Err dangling
  | i :: _ =>
      match List.find (λ btx, bool_decide (GetHash btx = hash (prevout i))) blockTxs with
      | Some btx => match vout btx !! Z.to_nat (n (prevout i)) with
                    | Some o => Ok (scriptPubKey o, c)
                    | None => Err dangling
                    end
      | None => let '(cn, c) := AccessCoin c (prevout i) in Ok (scriptPubKey (out cn), c)
      end
  end.
Definition key_address (script : CScript) : bytes :=
  match Solver script false, ExtractDestination script with
  | Some (TX_PUBKEY, _), Some (CKeyID k) | Some (TX_PUBKEYHASH, _), Some (CKeyID k) => k
  | _, _ => []
  end.
Definition GetSenderAddress c (tx : CTransaction) (blockTxs : list CTransaction) : result chain_error (bytes * CCoinsViewCache V) :=
  let* r := sender_script c tx blockTxs in Ok (key_address r.1, r.2).

(** The sender of a contract transaction must be a key. *)
Definition CheckSenderScript c (tx : CTransaction) : result chain_error (bool * CCoinsViewCache V) :=
  match vin tx with
  | [] => Err dangling
  | i :: _ =>
      let '(cn, c) := AccessCoin c (prevout i) in
      Ok (IsPayToPubkeyHash (scriptPubKey (out cn)) || IsPayToPubkey (scriptPubKey (out cn)), c)
  end.

(** The opcode and the stack below the rest of the script; [None] is the result
    false.  The stack is that of the converter, shared by all outputs. *)
Definition receiveStack (stack : stack_t) (scriptPubKey : CScript) : result chain_error (option (Z * stack_t)) :=
  let stack := match EvalScript BaseSignatureChecker SCRIPT_EXEC_BYTE_CODE BASE stack scriptPubKey with
               | Ok s => s
               | Err _ => failed_stack stack scriptPubKey
               end in
  match stack with
  | [] => Ok None
  | [] :: _ => Err dangling
  | (opcode :: _) :: stack =>
      if ((opcode =? OP_CREATE) && (size stack <? 4)) || ((opcode =? OP_CALL) && (size stack <? 5)) then Ok None
      else Ok (Some (opcode, stack))
  end.
Definition gas_number (vch : bytes) : option Z := match ScriptNum.vch_to_uint64 vch with Ok v => Some v | Err _ => None end.
(** The rest of the parser after the address of a call. *)
Definition parse_params (receiveAddress : Address) (stack : stack_t) : option (EthTransactionParams * stack_t) :=
  match stack with
  | code :: vchPrice :: vchLimit :: vchVersion :: stack =>
      if size code <? 1 then None
      else
        gasPrice ← gas_number vchPrice;
        gasLimit ← gas_number vchLimit;
        if (gasPrice >? INT64_MAX) || (gasLimit >? INT64_MAX) then None
        else if negb (gasPrice =? 0) && (gasLimit >? INT64_MAX / gasPrice) then None
        else if size vchVersion >? 4 then None
        else
          raw ← gas_number vchVersion;
          Some (mk_etp (fromRaw (u32 raw)) gasLimit gasPrice code receiveAddress, stack)
  | _ => None
  end.
Definition parseEthTXParams (opcode : Z) (stack : stack_t) : option (EthTransactionParams * stack_t) :=
  if opcode =? OP_CALL then parse_params (to_Address (stacktop stack 1)) (tail stack)
  else parse_params zero_address stack.
Definition createEthTX c (opcode : Z) (txBit : CTransaction) (blockTxs : list CTransaction) (etp : EthTransactionParams)
    (nOut : Z) (o : CTxOut) : result chain_error (SilubiumTransaction * CCoinsViewCache V) :=
  let* r := GetSenderAddress c txBit blockTxs in
  let dest := if bool_decide (receiveAddress etp = zero_address) && negb (opcode =? OP_CALL) then None else Some (receiveAddress etp) in
  Ok (mk_qtx (u256 (nValue o)) (etp_gasPrice etp) (gasLimit etp) dest (code etp) (to_Address r.1) (GetHash txBit) nOut (etp_version etp), r.2).

(** The loop over the outputs; [None] is the result false. *)
Fixpoint extraction_loop c (txBit : CTransaction) (blockTxs : list CTransaction) (i : Z) (outs : list CTxOut) (stack : stack_t)
  : result chain_error (option (list (SilubiumTransaction * EthTransactionParams)) * CCoinsViewCache V) :=
  match outs with
  | [] => Ok (Some [], c)
  | o :: outs =>
      if HasOpCreate (scriptPubKey o) || HasOpCall (scriptPubKey o) then
        let* r := receiveStack stack (scriptPubKey o) in
        match r with
        | None => Ok (None, c)
        | Some (opcode, stack) =>
            match parseEthTXParams opcode stack with
            | None => Ok (None, c)
            | Some (params, stack) =>
                let* t := createEthTX c opcode txBit blockTxs params i o in
                let* q := extraction_loop t.2 txBit blockTxs (i + 1) outs stack in
                Ok (match q.1 with Some l => Some ((t.1, params) :: l) | None => None end, q.2)
            end
        end
      else extraction_loop c txBit blockTxs (i + 1) outs stack
  end.
Definition extractionSilubiumTransactions c (txBit : CTransaction) (blockTxs : list CTransaction)
  : result chain_error (option (list (SilubiumTransaction * EthTransactionParams)) * CCoinsViewCache V) :=
  extraction_loop c txBit blockTxs 0 (vout txBit) [].
End Convert.

(** ** The checks of [ConnectBlock] before a call is executed *)

(** The loop over the calls of a transaction; the result is [nonZeroVersion]. *)
Definition check_version_vm (v : VersionVM) (nonZeroVersion : bool) : result block_reject bool :=
  let* _ := require (format v =? 0) (bad 100 "bad-tx-version-format") in
  let* _ := require (negb ((rootVM v =? 0) && nonZeroVersion)) (bad 100 "bad-tx-mixed-zero-versions") in
  let* _ := require ((rootVM v =? 0) || (rootVM v =? 1)) (bad 100 "bad-tx-version-rootvm") in
  let* _ := require (vmVersion v =? 0) (bad 100 "bad-tx-version-vmversion") in
  let* _ := require (flagOptions v =? 0) (bad 100 "bad-tx-version-flags") in
  Ok (nonZeroVersion || negb (rootVM v =? 0)).
Fixpoint check_calls (minGasPrice blockGasLimit nTxFee : Z) (qtxs : list SilubiumTransaction) (sumGas gasAllTxs : Z) (nonZeroVersion : bool)
  : result block_reject bool :=
  match qtxs with
  | [] => Ok nonZeroVersion
  | q :: qtxs =>
      let sumGas := u256 (sumGas + u256 (gas q * gasPrice q)) in
      let* _ := require (negb (sumGas >? INT64_MAX)) (bad 100 "bad-tx-gas-stipend-overflow") in
      let* _ := require (negb (sumGas >? u256 nTxFee)) (bad 100 "bad-txns-fee-notenough") in
      let v := version q in
      let* nonZeroVersion := check_version_vm v nonZeroVersion in
      let* _ := require (negb ((gas q <? MINIMUM_GAS_LIMIT) && negb (rootVM v =? 0))) (bad 100 "bad-tx-too-little-gas") in
      let* _ := require (negb (gas q >? UINT32_MAX)) (bad 100 "bad-tx-too-much-gas") in
      let gasAllTxs := u256 (gasAllTxs + gas q) in
      let* _ := require (negb (gasAllTxs >? blockGasLimit)) (bad 1 "bad-txns-gas-exceeds-blockgaslimit") in
      let* _ := require (negb (negb (rootVM v =? 0) && (u64 (gasPrice q) <? minGasPrice))) (bad 100 "bad-tx-low-gas-price") in
      check_calls minGasPrice blockGasLimit nTxFee qtxs sumGas gasAllTxs nonZeroVersion
  end.
