(* ===== verification/ContractState.v ===== *)
(** * Contract state (silubium/silubiumstate.cpp, validation.cpp)

    The record of the coins each account holds, the transaction that condenses
    the transfers of a call, the execution of a call and the refunds of gas.  The
    virtual machine, with the trie of its accounts, is the interface
    [Executive]. *)
From stdpp Require Import strings sorting.
From S2P Require Import Prelude ArithUint256 Script Interpreter Serialize Transaction SigHash Standard Coins Block Chain Pow Pos BlockChecks Contracts.

(** ** Ordered maps of addresses *)

(** [operator<] of addresses, as [<=]. *)
Fixpoint address_leb (a b : Address) : bool :=
  match a, b with
  | x :: a, y :: b => (x <? y) || ((x =? y) && address_leb a b)
  | [], _ => true
  | _ :: _, [] => false
  end.
Definition address_le (a b : Address) : Prop := address_leb a b.
#[global] Instance address_le_dec : RelDecision address_le := λ a b, _.
Definition entry_le {A} (p q : Address * A) : Prop := address_le p.1 q.1.
#[global] Instance entry_le_dec {A} : RelDecision (@entry_le A) := λ p q, _.
(** The entries in the order of [std::map]. *)
Definition ordered {A} (m : gmap Address A) : list (Address * A) := merge_sort entry_le (map_to_list m).
Definition ordered_set (s : gset Address) : list Address := merge_sort address_le (elements s).

(** ** Coins of the accounts *)

Record TransferInfo := mk_transfer { from : Address; to : Address; ti_value : Z }.
Record Vin := mk_vin { vin_hash : uint256; vin_nVout : Z; vin_value : Z; alive : Z }.
#[global] Instance Vin_eq_dec : EqDecision Vin.
Proof. solve_decision. Defined.
Definition default_vin : Vin := mk_vin null_hash 0 0 0.

Record EnvInfo := mk_env {
  env_number : Z; env_timestamp : Z; env_difficulty : Z; lastHashes : list uint256; env_gasLimit : Z; env_author : Address
}.
Record ExecutionResult := mk_res { gasUsed : Z; excepted : bool }.
(** What a call does besides its result. *)
Record call_effects (G : Type) := mk_effects {
  ce_accounts : G; ce_transfers : list TransferInfo; ce_killed : list Address; ce_deleted : gset Address
}.
Arguments mk_effects {G} _ _ _ _.
Arguments ce_accounts {G} _.
Arguments ce_transfers {G} _.
Arguments ce_killed {G} _.
Arguments ce_deleted {G} _.

(** The accounts, their cache and trie, and a run of the machine for a call; the
    run has the result [Err] where it throws. *)
Class Executive (G : Type) := {
  addressInUse : G → Address → bool;
  account_alive : G → Address → bool;
  credit : G → Address → Z → G;
  run_call : G → EnvInfo → SilubiumTransaction → Address → result unit ExecutionResult * call_effects G;
  kill_account : G → Address → G;
  revert_call : G → G;
  clear_accounts : G → G;
  commit_accounts : bool → G → G;
  commit_dbs : G → G;
  EIP158ForkBlock : Z;
  rootHash : G → uint256;
  utxo_root : gmap Address Vin → uint256
}.

Record SilubiumState (G : Type) := mk_state {
  accounts : G; cacheUTXO : gmap Address Vin; stateUTXO : gmap Address Vin; deleteAddresses : gset Address
}.
Arguments mk_state {G} _ _ _ _.
Arguments accounts {G} _.
Arguments cacheUTXO {G} _.
Arguments stateUTXO {G} _.
Arguments deleteAddresses {G} _.

Section State.
Context `{C : Crypto} {G : Type} `{Executive G}.
Implicit Types s : SilubiumState G.

Definition set_cache s (m : gmap Address Vin) : SilubiumState G := mk_state (accounts s) m (stateUTXO s) (deleteAddresses s).
Definition set_accounts s (g : G) : SilubiumState G := mk_state g (cacheUTXO s) (stateUTXO s) (deleteAddresses s).

(** [SilubiumState::vin]: an entry of the trie is copied into the cache. *)
Definition state_vin s (a : Address) : option Vin * SilubiumState G :=
  match cacheUTXO s !! a with
  | Some v => (Some v, s)
  | None => match stateUTXO s !! a with
            | Some v => (Some v, set_cache s (<[a := v]> (cacheUTXO s)))
            | None => (None, s)
            end
  end.
Definition dead (v : Vin) : Vin := mk_vin (vin_hash v) (vin_nVout v) (vin_value v) 0.
Definition kill_vin s (a : Address) : SilubiumState G :=
  match state_vin s a with
  | (Some v, s) => set_cache s (<[a := dead v]> (cacheUTXO s))
  | (None, s) => s
  end.
Definition kill s (a : Address) : SilubiumState G := kill_vin (set_accounts s (kill_account (accounts s) a)) a.
Definition deleteAccounts s (addrs : gset Address) : SilubiumState G := foldl kill s (ordered_set addrs).

Definition update_one s (p : Address * Vin) : SilubiumState G :=
  match state_vin s p.1 with
  | (Some _, s) => set_cache s (<[p.1 := p.2]> (cacheUTXO s))
  | (None, s) => if alive p.2 >? 0 then set_cache s (<[p.1 := p.2]> (cacheUTXO s)) else s
  end.
Definition updateUTXO s (vins : gmap Address Vin) : SilubiumState G := foldl update_one s (ordered vins).

(** [silubium::commit]. *)
Definition commit_one (trie : gmap Address Vin) (p : Address * Vin) : gmap Address Vin :=
  if alive p.2 =? 0 then delete p.1 trie else <[p.1 := p.2]> trie.
Definition commit (cache trie : gmap Address Vin) : gmap Address Vin := foldl commit_one trie (ordered cache).

(** The address of a new contract. *)
Definition createSilubiumAddress (hashTx : uint256) (voutNumber : Z) : Address :=
  CRIPEMD160 (CSHA256 (hashTx ++ WriteLE32 voutNumber)).

(** ** The condensing transaction *)

Record CondensingTX := mk_ctx {
  plusMinusInfo : gmap Address (Z * Z); balances : gmap Address Z; nVouts : gmap Address Z; vins : gmap Address Vin;
  voutOverflow : bool
}.
Definition select_transfer (t : SilubiumTransaction) (p : gmap Address Vin * SilubiumState G) (ti : TransferInfo)
  : gmap Address Vin * SilubiumState G :=
  let '(vins, s) := p in
  let '(vins, s) :=
    match vins !! from ti with
    | Some _ => (vins, s)
    | None =>
        let '(v, s) := state_vin s (from ti) in
        let vins := match v with Some v => <[from ti := v]> vins | None => vins end in
        (if bool_decide (from ti = sender t) && (value t >? 0)
         then <[from ti := mk_vin (hashWith t) (nVout t) (value t) 1]> vins else vins, s)
    end in
  match vins !! to ti with
  | Some _ => (vins, s)
  | None => let '(v, s) := state_vin s (to ti) in
            (match v with Some v => <[to ti := v]> vins | None => vins end, s)
  end.
Definition selectionVin (t : SilubiumTransaction) (transfers : list TransferInfo) s : gmap Address Vin * SilubiumState G :=
  foldl (select_transfer t) (∅, s) transfers.
Definition plus_minus (m : gmap Address (Z * Z)) (ti : TransferInfo) : gmap Address (Z * Z) :=
  let m := match m !! from ti with
           | None => <[from ti := (0, ti_value ti)]> m
           | Some (p, q) => <[from ti := (p, u256 (q + ti_value ti))]> m
           end in
  match m !! to ti with
  | None => <[to ti := (ti_value ti, 0)]> m
  | Some (p, q) => <[to ti := (u256 (p + ti_value ti), q)]> m
  end.
Definition calculatePlusAndMinus (transfers : list TransferInfo) : gmap Address (Z * Z) := foldl plus_minus ∅ transfers.

(** Whether the coin of an address is spent by the transaction. *)
Definition counted (deleted : gset Address) (a : Address) (v : Vin) : bool :=
  negb (alive v =? 0) || negb (bool_decide (a ∈ deleted)).
(** The loop over [plusMinusInfo]; the look-ups insert default entries. *)
Fixpoint create_balances (deleted : gset Address) (l : list (Address * (Z * Z))) (vins : gmap Address Vin) (balances : gmap Address Z)
  : bool * gmap Address Vin * gmap Address Z :=
  match l with
  | [] => (true, vins, balances)
  | (a, (plus, minus)) :: l =>
      let v := default default_vin (vins !! a) in
      let vins := <[a := v]> vins in
      let balance := u256 ((if counted deleted a v then vin_value v else 0) + plus) in
      if balance <? minus then (false, vins, balances)
      else create_balances deleted l vins (<[a := u256 (balance - minus)]> balances)
  end.
Definition spend_vin (v : Vin) : CTxIn := mk_txin (mk_outpoint (vin_hash v) (vin_nVout v)) (push_opcode [] OP_SPEND) SEQUENCE_FINAL [].
Definition createVins (deleted : gset Address) (vins : gmap Address Vin) : list CTxIn :=
  map (λ p, spend_vin p.2) (List.filter (λ p, (vin_value p.2 >? 0) && counted deleted p.1 p.2) (ordered vins)).
Definition pay_to_key (a : Address) : CScript :=
  push_opcode (push_opcode (push_data (push_opcode (push_opcode [] OP_DUP) OP_HASH160) a) OP_EQUALVERIFY) OP_CHECKSIG.
(** A contract output that is not executed. *)
Definition pay_to_contract (a : Address) : CScript :=
  push_opcode (push_data (push_data (push_data (push_data (push_data [] [0]) [0]) [0]) [0]) a) OP_CALL.
Definition account_script (g : G) (a : Address) : CScript := if account_alive g a then pay_to_contract a else pay_to_key a.
Definition MAX_CONTRACT_VOUTS : Z := 1000.
(** The loop over [balances]: the outputs, their indices, and whether there are
    too many. *)
Fixpoint create_vout (g : G) (l : list (Address * Z)) (count : Z) (nVouts : gmap Address Z) : list CTxOut * gmap Address Z * bool :=
  match l with
  | [] => ([], nVouts, false)
  | (a, b) :: l =>
      let '(new, nVouts, count) :=
        if b >? 0 then ([mk_txout (i64 b) (account_script g a)], <[a := u32 count]> nVouts, count + 1) else ([], nVouts, count) in
      if count >? MAX_CONTRACT_VOUTS then (new, nVouts, true)
      else let '(outs, nVouts, over) := create_vout g l count nVouts in (new ++ outs, nVouts, over)
  end.
Definition null_tx : CTransaction := mk_tx [] [] 2 0.
Definition createCondensingTX (t : SilubiumTransaction) (transfers : list TransferInfo) (deleted : gset Address) s
  : CTransaction * CondensingTX * SilubiumState G :=
  let '(vs, s) := selectionVin t transfers s in
  let pm := calculatePlusAndMinus transfers in
  match create_balances deleted (ordered pm) vs ∅ with
  | (false, vs, bs) => (null_tx, mk_ctx pm bs ∅ vs false, s)
  | (true, vs, bs) =>
      let ins := createVins deleted vs in
      let '(outs, nv, over) := create_vout (accounts s) (ordered bs) 0 ∅ in
      (match ins, outs with
       | [], _ | _, [] => null_tx
       | _, _ => mk_tx ins outs 2 0
       end, mk_ctx pm bs nv vs over, s)
  end.
(** [CondensingTX::createVin]: what the accounts hold after the transaction. *)
Definition new_vin (t : SilubiumTransaction) (ctx : CondensingTX) (tx : CTransaction) (m : gmap Address Vin) (p : Address * Z) : gmap Address Vin :=
  if bool_decide (p.1 = sender t) then m
  else if p.2 >? 0 then <[p.1 := mk_vin (GetHash tx) (default 0 (nVouts ctx !! p.1)) p.2 1]> m
  else <[p.1 := mk_vin (GetHash tx) 0 0 0]> m.
Definition createVin (t : SilubiumTransaction) (ctx : CondensingTX) (tx : CTransaction) : gmap Address Vin :=
  foldl (new_vin t ctx tx) ∅ (ordered (balances ctx)).

(** ** Executing a call *)

(** What the machine reports of a call: its result, and the transaction that moves
    coins between accounts, the default transaction if there is none. *)
Record ResultExecute := mk_exec { execRes : ExecutionResult; exec_tx : CTransaction }.
Definition apply_effects s (e : call_effects G) : SilubiumState G :=
  let s := foldl kill_vin s (ce_killed e) in
  mk_state (ce_accounts e) (cacheUTXO s) (stateUTXO s) (deleteAddresses s ∪ ce_deleted e).
Definition clear_caches s : SilubiumState G := mk_state (clear_accounts (accounts s)) ∅ (stateUTXO s) (deleteAddresses s).
Definition commit_state (env : EnvInfo) s : SilubiumState G :=
  mk_state (commit_accounts (env_number env >=? EIP158ForkBlock) (accounts s)) ∅ (commit (cacheUTXO s) (stateUTXO s)) (deleteAddresses s).
Definition isCreation (t : SilubiumTransaction) : bool := match dest t with None => true | Some _ => false end.

(** The body of [try]; [Err] where it throws, with [voutLimit]. *)
Definition try_call (permanent : bool) s (env : EnvInfo) (t : SilubiumTransaction) (newAddress : Address)
  : result bool ResultExecute * SilubiumState G :=
  if isCreation t && negb (value t =? 0) then (Err false, s)
  else
    let '(r, e) := run_call (accounts s) env t newAddress in
    let s := apply_effects s e in
    match r with
    | Err _ => (Err false, s)
    | Ok res =>
        if negb permanent then (Ok (mk_exec res null_tx), clear_caches s)
        else
          let s := deleteAccounts s (deleteAddresses s) in
          if excepted res then (Ok (mk_exec res null_tx), commit_state env s)
          else
            let '(tx, ctx, s) := createCondensingTX t (ce_transfers e) (deleteAddresses s) s in
            if voutOverflow ctx then (Err true, set_accounts s (revert_call (accounts s)))
            else (Ok (mk_exec res tx), commit_state env (updateUTXO s (createVin t ctx tx)))
    end.
(** The coins sent with a call, sent back to the sender. *)
Definition value_refund (t : SilubiumTransaction) : CTransaction :=
  mk_tx [mk_txin (mk_outpoint (hashWith t) (nVout t)) (push_opcode [] OP_SPEND) SEQUENCE_FINAL []]
    [mk_txout (i64 (value t)) (pay_to_key (sender t))] 2 0.
(** [height] is that of the active chain, [fix_height] [nFixUTXOCacheHFHeight]. *)
Definition execute (height fix_height : Z) (permanent : bool) s (env : EnvInfo) (t : SilubiumTransaction)
  : result chain_error (ResultExecute * SilubiumState G) :=
  if negb (toRaw (version t) =? toRaw GetEVMDefault) then Err assertion_failed
  else
    let g := credit (accounts s) (sender t) (u256 (value t + u256 (gas t * gasPrice t))) in
    let newAddress := if isCreation t then createSilubiumAddress (hashWith t) (nVout t) else zero_address in
    let s := mk_state g (cacheUTXO s) (stateUTXO s) ({[sender t]} ∪ ({[env_author env]} ∪ deleteAddresses s)) in
    match try_call permanent s env t newAddress with
    | (Ok r, s) => Ok (r, s)
    | (Err voutLimit, s) =>
        let s := if (height <? fix_height) && permanent
                 then let s := deleteAccounts s (deleteAddresses s) in set_accounts s (commit_accounts true (accounts s))
                 else clear_caches s in
        Ok (if voutLimit then mk_exec (mk_res (gas t) false) (if value t >? 0 then value_refund t else null_tx)
            else mk_exec (mk_res (gas t) true) null_tx, s)
    end.

(** The hashes of the last blocks, at most [n] of them. *)
Fixpoint last_hashes (m : BlockMap) (n : nat) (tip : option uint256) : result chain_error (list uint256) :=
  match n, tip with
  | S n, Some p => let* b := deref m p in let* l := last_hashes m n (pprev b) in Ok (p :: l)
  | _, _ => Ok []
  end.
Definition EthAddrFromScript (script : CScript) : Address := to_Address (key_address script).
Definition BuildEVMEnvironment (m : BlockMap) (block : CBlock) (blockGasLimit : Z) (pindex : uint256) : result chain_error EnvInfo :=
  let* tip := deref m pindex in
  let* l := last_hashes m 256 (Some pindex) in
  let k := (if IsProofOfStake_header (header block) then 1 else 0)%nat in
  match (tx ← vtx block !! k; vout tx !! k) with
  | None => Err dangling
  | Some o => Ok (mk_env (nHeight tip + 1) (nTime_blk (header block)) (nBits_blk (header block))
                    (l ++ replicate (256 - length l) null_hash) blockGasLimit (EthAddrFromScript (scriptPubKey o)))
  end.

(** The loop of [performByteCode]; [None] is the result false. *)
Fixpoint perform (height fix_height : Z) (environment : result chain_error EnvInfo) s (txs : list SilubiumTransaction)
  : result chain_error (option (list ResultExecute) * SilubiumState G) :=
  match txs with
  | [] => Ok (Some [], s)
  | t :: txs =>
      if negb (toRaw (version t) =? toRaw GetEVMDefault) then Ok (None, s)
      else
        let* env := environment in
        let unknown := match dest t with Some a => negb (addressInUse (accounts s) a) | None => false end in
        let* r := if unknown then Ok (mk_exec (mk_res 0 true) null_tx, s) else execute height fix_height true s env t in
        let* q := perform height fix_height environment r.2 txs in
        Ok (match q.1 with Some l => Some (r.1 :: l) | None => None end, q.2)
  end.
Definition performByteCode (height fix_height : Z) (m : BlockMap) (block : CBlock) (blockGasLimit : Z) (pindex : uint256) s
    (txs : list SilubiumTransaction) : result chain_error (option (list ResultExecute) * SilubiumState G) :=
  let* r := perform height fix_height (BuildEVMEnvironment m block blockGasLimit pindex) s txs in
  match r with
  | (None, s) => Ok (None, s)
  | (Some l, s) => Ok (Some l, mk_state (commit_dbs (accounts s)) (cacheUTXO s) (stateUTXO s) ∅)
  end.

(** ** Gas refunds *)

Record ByteCodeExecResult := mk_bcer {
  usedGas : Z; refundSender : Z; refundOutputs : list CTxOut; valueTransfers : list CTransaction
}.
(** One round of [processingResults]; [None] is the result false. *)
Definition process_result (t : SilubiumTransaction) (r : ResultExecute) (b : ByteCodeExecResult) : option ByteCodeExecResult :=
  let used := u64 (gasUsed (execRes r)) in
  b ← (if excepted (execRes r) then
         Some (mk_bcer (u64 (usedGas b + used)) (refundSender b) (refundOutputs b)
                 (valueTransfers b ++ (if value t >? 0 then [value_refund t] else [])))
       else if (gas t >? UINT64_MAX) || (gasUsed (execRes r) >? UINT64_MAX) || (gasPrice t >? UINT64_MAX) then None
       else
         let amount := i64 (u64 (u64 (u64 (gas t) - used) * u64 (gasPrice t))) in
         if amount <? 0 then None
         else if amount >? 0 then
           Some (mk_bcer (u64 (usedGas b + used)) (i64 (refundSender b + amount))
                   (refundOutputs b ++ [mk_txout amount (pay_to_key (sender t))]) (valueTransfers b))
         else Some (mk_bcer (u64 (usedGas b + used)) (refundSender b) (refundOutputs b) (valueTransfers b)));
  Some (if bool_decide (GetHash (exec_tx r) = GetHash null_tx) then b
        else mk_bcer (usedGas b) (refundSender b) (refundOutputs b) (valueTransfers b ++ [exec_tx r])).
Fixpoint process_results (l : list (SilubiumTransaction * ResultExecute)) (b : ByteCodeExecResult) : option ByteCodeExecResult :=
  match l with
  | [] => Some b
  | (t, r) :: l => b ← process_result t r b; process_results l b
  end.
Definition processingResults (txs : list SilubiumTransaction) (results : list ResultExecute) : option ByteCodeExecResult :=
  process_results (zip txs results) (mk_bcer 0 0 [] []).
End State.
