(* ===== verification/ContractsFacts.v ===== *)
(** * Facts about contract transactions

    The parameters of a call survive the trip through the script that carries
    them, and the gas that is refunded never exceeds the fee of the transaction. *)
From stdpp Require Import strings sorting.
From S2P Require Import Prelude ArithUint256 Script Interpreter InterpreterFacts InterpreterSpecs StandardScripts Serialize Transaction SigHash Standard Coins CoinsFacts Block Chain TxVerify Pow ChainFacts BlockChecks BlockChecksFacts Contracts ContractState.

(** ** Numbers and versions in a script *)

Lemma serialize_nonneg v k b :
  0 < v < 2 ^ 63 → bytes_ok k → 0 < b < 256 → (length k ≤ 7)%nat → le_value (k ++ [b]) = v →
  ScriptNum.serialize v = if b <? 128 then k ++ [b] else (k ++ [b]) ++ [0].
Proof.
  intros Hv Hk Hb Hl Hval. rewrite (ScriptNumFacts.serialize_digits v k b) by (done || lia).
  rewrite (proj2 (Z.ltb_ge v 0)) by lia. case_match; [done|]. by rewrite <- app_assoc.
Qed.
Lemma gas_number_snoc k b : bytes_ok k → 0 ≤ b < 128 → (length k ≤ 7)%nat → gas_number (k ++ [b]) = Some (le_value (k ++ [b])).
Proof.
  intros Hk Hb Hl. unfold gas_number, ScriptNum.vch_to_uint64. rewrite size_app. unfold size. cbn [length].
  rewrite Z.gtb_ltb, (proj2 (Z.ltb_ge _ _)) by lia.
  assert (bytes_ok (k ++ [b])) as Hok by (apply bytes_ok_snoc; unfold is_byte; split; [done|lia]).
  rewrite ScriptNumFacts.le_or_value, ScriptNumFacts.back_bit7_snoc by (done || unfold is_byte; lia).
  rewrite (proj2 (Z.leb_gt 128 b)) by lia.
  pose proof (le_value_range _ Hok) as Hr. rewrite length_app in Hr. cbn [length] in Hr.
  assert (256 ^ Z.of_nat (length k + 1) ≤ 256 ^ 8) by (apply Z.pow_le_mono_r; lia).
  rewrite u64_small by lia. by destruct k.
Qed.
(** A gas number is read back as it was written. *)
Lemma gas_number_serialize v : 0 ≤ v < 2 ^ 63 → gas_number (ScriptNum.serialize v) = Some v.
Proof.
  intros Hv. destruct (decide (v = 0)) as [->|Hne]; [done|].
  destruct (ScriptNumFacts.abs_bytes_snoc v) as (k & b & _ & Hk & Hb & Hl & Hval); [lia|].
  rewrite (serialize_nonneg v k b) by (done || lia). destruct (Z.ltb_spec b 128).
  - rewrite gas_number_snoc by (done || lia). by rewrite Hval.
  - assert (length k ≤ 6)%nat as Hl6.
    { destruct (decide (length k = 7%nat)) as [E|]; [|lia]. rewrite le_value_snoc, E in Hval.
      change (256 ^ Z.of_nat 7) with (2 ^ 56) in Hval. pose proof (le_value_range k Hk). lia. }
    rewrite gas_number_snoc; [|apply bytes_ok_snoc; split; [done|unfold is_byte; lia]|lia|rewrite length_app; cbn; lia].
    rewrite le_value_snoc, Hval. f_equal. lia.
Qed.
Lemma serialize_size v : 0 ≤ v < 2 ^ 63 → size (ScriptNum.serialize v) ≤ 8 ∧ (v < 2 ^ 31 → size (ScriptNum.serialize v) ≤ 4).
Proof.
  intros Hv. destruct (decide (v = 0)) as [->|Hne]; [by split; vm_compute|].
  destruct (ScriptNumFacts.abs_bytes_snoc v) as (k & b & _ & Hk & Hb & Hl & Hval); [lia|].
  rewrite (serialize_nonneg v k b) by (done || lia). rewrite le_value_snoc in Hval.
  pose proof (le_value_range k Hk).
  assert (∀ j, j ≤ Z.of_nat (length k) → 256 ^ j ≤ 256 ^ Z.of_nat (length k)) as Hm by (intros; apply Z.pow_le_mono_r; lia).
  unfold size. destruct (Z.ltb_spec b 128); rewrite ?length_app; cbn [length].
  - split; [lia|]. intros. destruct (decide (4 ≤ Z.of_nat (length k))) as [H4|]; [|lia]. specialize (Hm 4 H4). lia.
  - split.
    + destruct (decide (7 ≤ Z.of_nat (length k))) as [H4|]; [|lia]. specialize (Hm 7 H4). lia.
    + intros. destruct (decide (3 ≤ Z.of_nat (length k))) as [H4|]; [|lia]. specialize (Hm 3 H4). lia.
Qed.

Definition version_ok (v : VersionVM) : Prop :=
  0 ≤ format v < 4 ∧ 0 ≤ rootVM v < 64 ∧ 0 ≤ vmVersion v < 256 ∧ 0 ≤ flagOptions v < 2 ^ 15.
Lemma toRaw_sum v : version_ok v → toRaw v = format v + 4 * rootVM v + 2 ^ 8 * vmVersion v + 2 ^ 16 * flagOptions v.
Proof.
  intros (? & ? & ? & ?). unfold toRaw. rewrite !shl_mul by lia.
  rewrite (Z.lor_comm (format v)), lor_add_disjoint by lia.
  rewrite (Z.lor_comm _ (vmVersion v * _)), lor_add_disjoint by lia.
  rewrite (Z.lor_comm _ (flagOptions v * _)), lor_add_disjoint by lia. lia.
Qed.
Lemma fromRaw_toRaw v : version_ok v → fromRaw (toRaw v) = v.
Proof.
  intros Hv. rewrite toRaw_sum by done. destruct Hv as (? & ? & ? & ?), v as [f r m o]. cbn in *. unfold fromRaw.
  change 3 with (2 ^ 2 - 1). change 63 with (2 ^ 6 - 1). change 0xff with (2 ^ 8 - 1). change 0xffff with (2 ^ 16 - 1).
  rewrite !land_mask, !shr_div by lia. f_equal; Z.to_euclidean_division_equations; lia.
Qed.
Lemma toRaw_range v : version_ok v → 0 ≤ toRaw v < 2 ^ 31.
Proof. intros Hv. rewrite toRaw_sum by done. destruct Hv as (? & ? & ? & ?). lia. Qed.

(** ** Contract scripts *)

Lemma pushes_cons d ds : pushes (d :: ds) = push_data [] d ++ pushes ds.
Proof. done. Qed.
Lemma push_data_app script d : push_data script d = script ++ push_data [] d.
Proof. done. Qed.
Definition create_args (p : EthTransactionParams) : list valtype :=
  [ScriptNum.serialize (toRaw (etp_version p)); ScriptNum.serialize (gasLimit p); ScriptNum.serialize (etp_gasPrice p); code p].
Lemma create_script_pushes p : create_script p = pushes (create_args p) ++ [OP_CREATE].
Proof.
  unfold create_script, create_args, push_opcode. rewrite !(push_data_app (push_data _ _)), !pushes_cons, <- !app_assoc. done.
Qed.
Lemma call_script_pushes p : call_script p = pushes (create_args p ++ [receiveAddress p]) ++ [OP_CALL].
Proof.
  unfold call_script, create_args, push_opcode. cbn [app]. rewrite !(push_data_app (push_data _ _)), !pushes_cons, <- !app_assoc. done.
Qed.

Lemma push_opcode_for_le n : 0 ≤ n → push_opcode_for n ≤ OP_PUSHDATA4.
Proof. intros. unfold push_opcode_for, OP_PUSHDATA1, OP_PUSHDATA2, OP_PUSHDATA4. repeat case_match; lia. Qed.
Lemma Find_loop_pushes ds op rest n fuel :
  Forall (λ d, size d < 2 ^ 32) ds → OP_PUSHDATA4 < op →
  Find_loop (length ds + fuel) op (pushes ds ++ rest) n = Find_loop fuel op rest n.
Proof.
  intros Hd Hop. induction Hd as [|d ds Hd _ IH]; [done|]. cbn [length Nat.add Find_loop].
  rewrite pushes_cons, <- app_assoc.
  destruct (push_data [] d ++ pushes ds ++ rest) eqn:E; [by apply app_eq_nil in E as [?%push_data_ne _]|].
  rewrite <- E, GetScriptOp_push by done. pose proof (push_opcode_for_le (size d) (size_nonneg d)).
  by rewrite (proj2 (Z.eqb_neq _ op)) by lia.
Qed.
Lemma pushes_length ds : (length ds ≤ length (pushes ds))%nat.
Proof.
  induction ds as [|d ds IH]; [done|]. rewrite pushes_cons, length_app. pose proof (push_data_ne d) as Hd.
  destruct (push_data [] d); [done|]. cbn [length]. lia.
Qed.
Lemma Find_contract ds op op' :
  Forall (λ d, size d < 2 ^ 32) ds → OP_PUSHDATA4 < op → OP_PUSHDATA4 < op' →
  Find (pushes ds ++ [op]) op' = if op =? op' then 1 else 0.
Proof.
  intros Hd Hop Hop'. unfold Find. rewrite length_app. cbn [length].
  replace (length (pushes ds) + 1)%nat with (length ds + (S (length (pushes ds) - length ds)))%nat
    by (pose proof (pushes_length ds); lia).
  rewrite Find_loop_pushes by done. cbn [Find_loop GetScriptOp].
  rewrite (proj2 (Z.leb_gt op OP_PUSHDATA4)) by lia.
  by destruct (_ - _)%nat, (op =? op').
Qed.
Lemma push_data_size d : size d < 2 ^ 32 → size (push_data [] d) ≤ size d + 5.
Proof.
  intros. unfold push_data. cbn [app]. rewrite size_app.
  repeat case_match; unfold size; cbn; lia.
Qed.

(** Parameters that a script can carry. *)
Definition params_ok (p : EthTransactionParams) : Prop :=
  version_ok (etp_version p) ∧ 0 ≤ gasLimit p ∧ 0 ≤ etp_gasPrice p ≤ INT64_MAX ∧ gasLimit p ≤ INT64_MAX ∧
  gasLimit p * etp_gasPrice p ≤ INT64_MAX ∧ 1 ≤ size (code p) ≤ MAX_SCRIPT_ELEMENT_SIZE ∧ size (receiveAddress p) = 20.

Lemma params_push_ok p : params_ok p → forallb (push_ok SCRIPT_EXEC_BYTE_CODE) (create_args p ++ [receiveAddress p]) = true.
Proof.
  intros (Hv & Hl & Hp & Hl' & _ & Hc & Ha). pose proof (toRaw_range _ Hv). unfold INT64_MAX in *.
  destruct (serialize_size (toRaw (etp_version p))) as [Hs1 _]; [lia|].
  destruct (serialize_size (gasLimit p)) as [Hs2 _]; [lia|].
  destruct (serialize_size (etp_gasPrice p)) as [Hs3 _]; [lia|].
  unfold push_ok, create_args. cbn [forallb app]. change (fRequireMinimal SCRIPT_EXEC_BYTE_CODE) with false. cbn [implb].
  unfold MAX_SCRIPT_ELEMENT_SIZE in *. rewrite !andb_true_iff, !Z.leb_le. lia.
Qed.
Lemma pushes_size ds : Forall (λ d, size d < 2 ^ 32) ds → size (pushes ds) ≤ foldr (λ d n, size d + 5 + n) 0 ds.
Proof.
  induction 1 as [|d ds Hd _ IH]; [done|]. rewrite pushes_cons, size_app. pose proof (push_data_size d Hd). cbn [foldr]. lia.
Qed.
Lemma params_size p : params_ok p → size (pushes (create_args p ++ [receiveAddress p])) + 1 ≤ MAX_SCRIPT_SIZE.
Proof.
  intros Hp. pose proof (pushes_size _ (push_ok_size _ _ (params_push_ok p Hp))) as Hs. cbn [create_args app foldr] in Hs.
  destruct Hp as (Hv & Hl & Hp & Hl' & _ & Hc & Ha). pose proof (toRaw_range _ Hv). unfold INT64_MAX in *.
  destruct (serialize_size (toRaw (etp_version p))) as [Hs1 _]; [lia|].
  destruct (serialize_size (gasLimit p)) as [Hs2 _]; [lia|].
  destruct (serialize_size (etp_gasPrice p)) as [Hs3 _]; [lia|].
  unfold MAX_SCRIPT_ELEMENT_SIZE, MAX_SCRIPT_SIZE, create_args, app in *. lia.
Qed.

(** ** The converter reads what the wallet writes *)

Lemma parse_args p stack : params_ok p → parse_params (receiveAddress p) (rev (create_args p) ++ stack) = Some (p, stack).
Proof.
  intros (Hv & Hl & Hp & Hl' & Hm & Hc & Ha). pose proof (toRaw_range _ Hv). unfold INT64_MAX in *.
  unfold parse_params, create_args. cbn [rev app].
  rewrite !gas_number_serialize by lia. rewrite (proj2 (Z.ltb_ge _ _)) by lia. cbn [mbind option_bind].
  destruct (serialize_size (toRaw (etp_version p))) as [_ Hs]; [lia|]. specialize (Hs ltac:(lia)).
  unfold INT64_MAX. rewrite !Z.gtb_ltb, !(proj2 (Z.ltb_ge (2 ^ 63 - 1) _)), (proj2 (Z.ltb_ge 4 _)) by lia. cbn [orb].
  assert (negb (etp_gasPrice p =? 0) && ((2 ^ 63 - 1) / etp_gasPrice p <? gasLimit p) = false) as ->.
  { destruct (Z.eqb_spec (etp_gasPrice p) 0); [done|]. cbn [negb andb].
    apply Z.ltb_ge, Z.div_le_lower_bound; lia. }
  rewrite u32_small, fromRaw_toRaw by (done || lia). by destruct p.
Qed.
Lemma to_Address_20 a : size a = 20 → to_Address a = a.
Proof. intros Ha. unfold to_Address. by rewrite Ha. Qed.
Lemma parse_create_args p stack :
  params_ok p → receiveAddress p = zero_address → parseEthTXParams OP_CREATE (rev (create_args p) ++ stack) = Some (p, stack).
Proof. intros Hp Hz. unfold parseEthTXParams. change (OP_CREATE =? OP_CALL) with false. rewrite <- Hz. by apply parse_args. Qed.
Lemma parse_call_args p stack :
  params_ok p → parseEthTXParams OP_CALL (receiveAddress p :: rev (create_args p) ++ stack) = Some (p, stack).
Proof.
  intros Hp. unfold parseEthTXParams. change (OP_CALL =? OP_CALL) with true.
  change (stacktop (receiveAddress p :: _) 1) with (receiveAddress p).
  rewrite to_Address_20 by apply Hp. by apply parse_args.
Qed.

Section Converter.
Context `{C : Crypto} {V : Type} `{CoinsView V} (failed_stack : stack_t → CScript → stack_t).
Implicit Types c : CCoinsViewCache V.

(** What an output carries: nothing, a creation or a call. *)
Definition output_carries (o : CTxOut) (x : option (bool * EthTransactionParams)) : Prop :=
  match x with
  | None => HasOpCreate (scriptPubKey o) = false ∧ HasOpCall (scriptPubKey o) = false
  | Some (true, p) => params_ok p ∧ scriptPubKey o = call_script p
  | Some (false, p) => params_ok p ∧ receiveAddress p = zero_address ∧ scriptPubKey o = create_script p
  end.
(** The calls of the outputs from index [i] on. *)
Fixpoint calls_from (tx : CTransaction) (a : bytes) (i : Z) (outs : list CTxOut) (xs : list (option (bool * EthTransactionParams)))
  : list (SilubiumTransaction * EthTransactionParams) :=
  match outs, xs with
  | o :: outs, Some (call, p) :: xs =>
      (mk_qtx (u256 (nValue o)) (etp_gasPrice p) (gasLimit p) (if call then Some (receiveAddress p) else None) (code p)
         (to_Address a) (GetHash tx) i (etp_version p), p) :: calls_from tx a (i + 1) outs xs
  | _ :: outs, None :: xs => calls_from tx a (i + 1) outs xs
  | _, _ => []
  end.

Lemma receiveStack_contract ds op :
  op = OP_CREATE ∧ size ds = 4 ∨ op = OP_CALL ∧ size ds = 5 →
  forallb (push_ok SCRIPT_EXEC_BYTE_CODE) ds = true → size (pushes ds) + 1 ≤ MAX_SCRIPT_SIZE →
  receiveStack failed_stack [] (pushes ds ++ [op]) = Ok (Some (op, rev ds)).
Proof.
  intros Hop Hd Hs. unfold receiveStack. rewrite contract_eval; [|naive_solver|done|..].
  - rewrite app_nil_r. assert (size (rev ds) = size ds) as -> by (unfold size; by rewrite length_rev).
    by destruct Hop as [[-> ->]|[-> ->]].
  - destruct Hop as [[_ ->]|[_ ->]]; vm_compute; discriminate.
  - rewrite size_app. unfold size at 2. cbn. lia.
Qed.
Lemma carried_call o (call : bool) p :
  output_carries o (Some (call, p)) →
  HasOpCreate (scriptPubKey o) || HasOpCall (scriptPubKey o) = true ∧
  ∃ op stack, receiveStack failed_stack [] (scriptPubKey o) = Ok (Some (op, stack)) ∧ parseEthTXParams op stack = Some (p, []) ∧
    op = (if call then OP_CALL else OP_CREATE) ∧ (call = false → receiveAddress p = zero_address).
Proof.
  unfold HasOpCreate, HasOpCall. destruct call; cbn [output_carries].
  - intros [Hp ->]. rewrite call_script_pushes. pose proof (params_push_ok p Hp) as Hd.
    rewrite !Find_contract by (done || eapply push_ok_size, Hd). split; [done|].
    exists OP_CALL, (rev (create_args p ++ [receiveAddress p])). split; [|rewrite rev_app_distr; cbn [rev app]; split_and!; try done].
    + apply receiveStack_contract; [by right|done|by apply params_size].
    + rewrite <- (parse_call_args p []) by done. by rewrite app_nil_r.
  - intros (Hp & Hz & ->). rewrite create_script_pushes. pose proof (params_push_ok p Hp) as Hd.
    rewrite forallb_app in Hd. apply andb_true_iff in Hd as [Hd _].
    rewrite !Find_contract by (done || eapply push_ok_size, Hd). split; [done|].
    exists OP_CREATE, (rev (create_args p)). split_and!; try done.
    + apply receiveStack_contract; [by left|done|]. pose proof (params_size p Hp) as Hs.
      unfold pushes in Hs. rewrite fmap_app, concat_app, size_app in Hs. pose proof (size_nonneg (concat (push_data [] <$> [receiveAddress p]))).
      unfold pushes. lia.
    + rewrite <- (parse_create_args p []) by done. by rewrite app_nil_r.
Qed.

Lemma createEthTX_carried c tx blockTxs a op (call : bool) p i o :
  GetSenderAddress c tx blockTxs = Ok (a, c) → op = (if call then OP_CALL else OP_CREATE) →
  (call = false → receiveAddress p = zero_address) →
  createEthTX c op tx blockTxs p i o = Ok (mk_qtx (u256 (nValue o)) (etp_gasPrice p) (gasLimit p)
    (if call then Some (receiveAddress p) else None) (code p) (to_Address a) (GetHash tx) i (etp_version p), c).
Proof.
  intros Hs -> Hz. unfold createEthTX. rewrite Hs. cbn [rbind fst snd]. destruct call.
  - by rewrite andb_false_r.
  - by rewrite bool_decide_eq_true_2 by auto.
Qed.
Lemma extraction_loop_carried c tx blockTxs a outs : ∀ xs i,
  GetSenderAddress c tx blockTxs = Ok (a, c) → Forall2 output_carries outs xs →
  extraction_loop failed_stack c tx blockTxs i outs [] = Ok (Some (calls_from tx a i outs xs), c).
Proof.
  induction outs as [|o outs IH]; intros xs i Hs Hx; inversion Hx as [|? [[call p]|] ? ? Ho Hr]; subst; [done|..];
    cbn [extraction_loop calls_from].
  - destruct (carried_call o call p Ho) as (-> & op & stack & -> & Hp & Hop & Hz). cbn [rbind]. rewrite Hp.
    rewrite (createEthTX_carried c tx blockTxs a op call p i o Hs Hop Hz). cbn [rbind fst snd].
    by rewrite (IH _ (i + 1) Hs Hr).
  - destruct Ho as [-> ->]. by apply IH.
Qed.
End Converter.

(** ** Gas *)

(** The gas and its price as the converter lets them through. *)
Definition call_ok (q : SilubiumTransaction) : Prop :=
  0 ≤ gas q ∧ 0 ≤ gasPrice q ≤ INT64_MAX ∧ gas q * gasPrice q ≤ INT64_MAX.

Lemma gas_number_nonneg v n : gas_number v = Some n → 0 ≤ n.
Proof.
  unfold gas_number, ScriptNum.vch_to_uint64. intros Hn.
  assert (∀ x, 0 ≤ u64 x) by (intros; apply (wrap_range 64); lia).
  repeat case_match; simplify_eq; done.
Qed.
Lemma parse_params_range a stack p stack' :
  parse_params a stack = Some (p, stack') →
  0 ≤ gasLimit p ∧ 0 ≤ etp_gasPrice p ≤ INT64_MAX ∧ gasLimit p * etp_gasPrice p ≤ INT64_MAX.
Proof.
  unfold parse_params. intros Hp. destruct stack as [|cd [|vp [|vl [|vv st]]]]; try done.
  destruct (size cd <? 1); [done|]. apply bind_Some in Hp as (price & Hprice & Hp). apply bind_Some in Hp as (limit & Hlimit & Hp).
  apply gas_number_nonneg in Hprice. apply gas_number_nonneg in Hlimit.
  destruct (_ || _) eqn:Emax; [done|]. apply orb_false_iff in Emax as [E1 E2]. rewrite Z.gtb_ltb, Z.ltb_ge in E1, E2.
  destruct (_ && _) eqn:Emul; [done|]. destruct (_ >? 4); [done|]. apply bind_Some in Hp as (raw & _ & [= <- _]). cbn.
  split_and!; try done. destruct (Z.eqb_spec price 0) as [->|Hne]; [unfold INT64_MAX; lia|]. cbn [negb andb] in Emul.
  rewrite Z.gtb_ltb, Z.ltb_ge in Emul. pose proof (Z.mul_div_le INT64_MAX price). nia.
Qed.

Section Calls.
Context `{C : Crypto} {V : Type} `{CoinsView V} (failed_stack : stack_t → CScript → stack_t).

Lemma extraction_loop_ok outs : ∀ (c : CCoinsViewCache V) tx blockTxs i stack l c',
  extraction_loop failed_stack c tx blockTxs i outs stack = Ok (Some l, c') → Forall call_ok l.*1.
Proof.
  induction outs as [|o outs IH]; intros c tx blockTxs i stack l c' He; cbn [extraction_loop] in He.
  { injection He as <- _. constructor. }
  destruct (_ || _); [|by eapply IH]. apply rbind_Ok in He as ([[op st]|] & _ & He); [|done].
  destruct (parseEthTXParams op st) as [[p st']|] eqn:Hp; [|done].
  apply rbind_Ok in He as ([t c1] & Ht & He). apply rbind_Ok in He as ([[l'|] c2] & Hl & He); [|done].
  injection He as <- _. rewrite fmap_cons. constructor; [|by eapply IH]. cbn [fst].
  unfold createEthTX in Ht. apply rbind_Ok in Ht as (? & _ & [= <- _]).
  assert (∃ a st'', parse_params a st'' = Some (p, st')) as (a & st'' & Hq)
    by (unfold parseEthTXParams in Hp; destruct (op =? OP_CALL); eexists _, _; exact Hp).
  by apply parse_params_range in Hq.
Qed.
End Calls.

(** Accepted calls are paid for and fit into the block. *)
Lemma check_calls_covered minGasPrice limit fee qs : ∀ sum all nz nz',
  Forall call_ok qs → 0 ≤ sum ≤ INT64_MAX → sum ≤ fee → 0 ≤ fee < 2 ^ 63 → 0 ≤ all ≤ limit → limit < 2 ^ 64 →
  check_calls minGasPrice limit fee qs sum all nz = Ok nz' →
  sum + sum_of (λ q, gas q * gasPrice q) qs ≤ fee ∧ all + sum_of gas qs ≤ limit.
Proof.
  induction qs as [|q qs IH]; intros sum all nz nz' Hok Hsum Hfee Hr Hall Hlim Hc; [unfold sum_of; cbn; lia|].
  apply Forall_cons in Hok as [(Hg & Hp & Hm) Hok]. cbn [check_calls] in Hc. unfold INT64_MAX, UINT32_MAX in *.
  assert (0 ≤ gas q * gasPrice q) by lia.
  assert (u256 (gas q * gasPrice q) = gas q * gasPrice q) as Hu by (apply wrap_small; unfold in_u; lia).
  assert (u256 (sum + gas q * gasPrice q) = sum + gas q * gasPrice q) as Hu' by (apply wrap_small; unfold in_u; lia).
  assert (u256 fee = fee) as Hf by (apply wrap_small; unfold in_u; lia). rewrite Hu, Hu', Hf in Hc.
  apply seq_Ok in Hc as [Hs1 Hc]. apply seq_Ok in Hc as [Hs2 Hc]. apply rbind_Ok in Hc as (v & _ & Hc).
  apply seq_Ok in Hc as [_ Hc]. apply seq_Ok in Hc as [Hs3 Hc]. apply seq_Ok in Hc as [Hs4 Hc]. apply seq_Ok in Hc as [_ Hc].
  rewrite require_Ok, negb_true_iff, Z.gtb_ltb, Z.ltb_ge in Hs1, Hs2, Hs3, Hs4.
  assert (u256 (all + gas q) = all + gas q) as Ha by (apply wrap_small; unfold in_u; lia). rewrite Ha in *.
  apply IH in Hc; [|done|lia..]. rewrite !sum_of_cons. lia.
Qed.

(** ** Refunds *)

(** What the virtual machine promises: it never uses more gas than the call has. *)
Class ExecutiveLaws (G : Type) `{Executive G} : Prop :=
  run_gas g env t a res e : 0 ≤ gas t → run_call g env t a = (Ok res, e) → 0 ≤ gasUsed res ≤ gas t.

Definition used (p : SilubiumTransaction * ResultExecute) : Z := gasUsed (execRes p.2).
Definition refund (p : SilubiumTransaction * ResultExecute) : Z :=
  if excepted (execRes p.2) then 0 else (gas p.1 - used p) * gasPrice p.1.
Definition refund_out (p : SilubiumTransaction * ResultExecute) : list CTxOut :=
  if refund p >? 0 then [mk_txout (refund p) (pay_to_key (sender p.1))] else [].
Definition paid (p : SilubiumTransaction * ResultExecute) : Prop := call_ok p.1 ∧ 0 ≤ used p ≤ gas p.1.

Lemma refund_range p : paid p → 0 ≤ refund p ≤ gas p.1 * gasPrice p.1.
Proof. intros [(? & ? & ?) ?]. unfold refund. case_match; nia. Qed.
Lemma sum_refund_out l : Forall paid l → sum_of nValue (l ≫= refund_out) = sum_of refund l.
Proof.
  induction 1 as [|p l Hp _ IH]; [done|]. rewrite bind_cons, sum_of_app, sum_of_cons, IH. f_equal. apply refund_range in Hp.
  unfold refund_out. rewrite Z.gtb_ltb. destruct (Z.ltb_spec 0 (refund p)); unfold sum_of; cbn; lia.
Qed.

Section Refunds.
Context `{C : Crypto} {G : Type} `{ExecutiveLaws G}.

Lemma execute_gas height fix_height s env t r s' :
  0 ≤ gas t → execute height fix_height true s env t = Ok (r, s') → 0 ≤ gasUsed (execRes r) ≤ gas t.
Proof.
  intros Hg He. unfold execute in He. destruct (negb _); [done|].
  destruct (try_call _ _ _ _ _) as [[r'|vl] s1] eqn:Ht.
  - injection He as <- _. unfold try_call in Ht. destruct (_ && _); [done|]. destruct (run_call _ _ _ _) as [[res|] e] eqn:Hr; [|done].
    apply (run_gas _ _ _ _ _ _ Hg) in Hr. cbn [negb] in Ht. destruct (excepted res); [by injection Ht as <- _|].
    destruct (createCondensingTX _ _ _ _) as [[tx ctx] s2]. destruct (voutOverflow ctx); [done|]. by injection Ht as <- _.
  - injection He as <- _. destruct vl; cbn; lia.
Qed.
Lemma perform_gas height fix_height env txs : ∀ s l s',
  Forall (λ t, 0 ≤ gas t) txs → perform height fix_height env s txs = Ok (Some l, s') →
  Forall2 (λ t r, 0 ≤ gasUsed (execRes r) ≤ gas t) txs l.
Proof.
  induction txs as [|t txs IH]; intros s l s' Hg Hp; cbn [perform] in Hp; [injection Hp as <- _; constructor|].
  apply Forall_cons in Hg as [Hg Hgs]. destruct (negb _); [done|]. apply rbind_Ok in Hp as (e & _ & Hp).
  apply rbind_Ok in Hp as ([r s1] & Hr & Hp). apply rbind_Ok in Hp as ([[q|] s2] & Hq & Hp); [|done].
  injection Hp as <- _. constructor; [|by eapply IH]. cbn [fst].
  destruct (match dest t with Some _ => _ | None => _ end); [injection Hr as <- _; cbn; lia|by eapply execute_gas].
Qed.

Lemma process_result_paid t r b :
  paid (t, r) → gas t < 2 ^ 64 → 0 ≤ usedGas b → usedGas b + gas t < 2 ^ 64 → 0 ≤ refundSender b →
  refundSender b + gas t * gasPrice t ≤ INT64_MAX →
  ∃ b', process_result t r b = Some b' ∧ usedGas b' = usedGas b + used (t, r) ∧
    refundSender b' = refundSender b + refund (t, r) ∧ refundOutputs b' = refundOutputs b ++ refund_out (t, r).
Proof.
  intros Hp Hg Hu Hu' Hr Hr'. pose proof (refund_range _ Hp) as Hrange. destruct Hp as [(Hg0 & Hp & Hm) Hused].
  unfold refund_out, refund in *. unfold used, INT64_MAX in *. cbn [fst snd] in *.
  unfold process_result. rewrite !(u64_small (gasUsed _)), (u64_small (_ + _)) by lia.
  destruct (excepted (execRes r)); cbn [mbind option_bind].
  { change (0 >? 0) with false. cbv iota. rewrite app_nil_r, Z.add_0_r.
    case_bool_decide; eexists; (split; [reflexivity|]); cbn [usedGas refundSender refundOutputs]; done. }
  unfold UINT64_MAX. rewrite !(Z.gtb_ltb _ (2 ^ 64 - 1)), !(proj2 (Z.ltb_ge (2 ^ 64 - 1) _)) by lia. cbn [orb].
  rewrite (u64_small (gas t)), (u64_small (gas t - _)), (u64_small (gasPrice t)) by lia.
  rewrite (u64_small (_ * _)), (i64_small (_ * _)), (i64_small (_ + _)) by lia.
  rewrite (proj2 (Z.ltb_ge _ 0)) by lia. rewrite Z.gtb_ltb. set (x := (_ - _) * gasPrice t) in *. clearbody x.
  destruct (Z.ltb_spec 0 x); cbn [mbind option_bind]; case_bool_decide; eexists; (split; [reflexivity|]);
    cbn [usedGas refundSender refundOutputs]; rewrite ?app_nil_r; split_and!; done || lia.
Qed.
Lemma process_results_paid l : ∀ b,
  Forall paid l → 0 ≤ usedGas b → usedGas b + sum_of (λ p, gas p.1) l < 2 ^ 64 → 0 ≤ refundSender b →
  refundSender b + sum_of (λ p, gas p.1 * gasPrice p.1) l ≤ INT64_MAX →
  ∃ b', process_results l b = Some b' ∧ usedGas b' = usedGas b + sum_of used l ∧
    refundSender b' = refundSender b + sum_of refund l ∧ refundOutputs b' = refundOutputs b ++ (l ≫= refund_out).
Proof.
  induction l as [|[t r] l IH]; intros b Hl Hu Hu' Hr Hr'.
  { exists b. cbn. rewrite app_nil_r. split_and!; done || lia. }
  apply Forall_cons in Hl as [Hp Hl]. rewrite sum_of_cons in Hu', Hr'. cbn [fst] in Hu', Hr'.
  assert (0 ≤ sum_of (λ p, gas p.1) l ∧ 0 ≤ sum_of (λ p, gas p.1 * gasPrice p.1) l) as [Hn1 Hn2].
  { rewrite Forall_forall in Hl. split; apply sum_of_nonneg; intros x Hx; destruct (Hl x Hx) as [(? & ? & ?) ?]; lia. }
  pose proof (refund_range _ Hp) as Hrr. pose proof Hp as [(Hg & ? & ?) Hused]. cbn [fst] in *.
  destruct (process_result_paid t r b Hp) as (b1 & Hb1 & Hu1 & Hr1 & Ho1); [lia..|].
  destruct (IH b1) as (b2 & Hb2 & Hu2 & Hr2 & Ho2); [done|lia..|].
  exists b2. cbn [process_results]. rewrite Hb1. cbn [mbind option_bind]. split; [done|].
  rewrite !sum_of_cons, bind_cons, Hu2, Hr2, Ho2, Hu1, Hr1, Ho1, app_assoc. split_and!; done || lia.
Qed.
Lemma zip_paid qs rs :
  Forall call_ok qs → Forall2 (λ t r, 0 ≤ gasUsed (execRes r) ≤ gas t) qs rs → Forall paid (zip qs rs) ∧ (zip qs rs).*1 = qs.
Proof.
  intros Hq Hr. induction Hr as [|q r qs rs Hqr _ IH]; [by split|]. apply Forall_cons in Hq as [Hq Hqs].
  destruct (IH Hqs) as [IH1 IH2]. split; [by constructor|]. cbn. by rewrite IH2.
Qed.
Lemma refunds_spec `{CoinsView V} failed_stack (c c' : CCoinsViewCache V) tx blockTxs calls minGasPrice limit fee nz
    height fix_height m block pindex s results s' :
  extractionSilubiumTransactions failed_stack c tx blockTxs = Ok (Some calls, c') →
  0 ≤ fee < 2 ^ 63 → 0 ≤ limit < 2 ^ 64 →
  check_calls minGasPrice limit fee calls.*1 0 0 false = Ok nz →
  performByteCode height fix_height m block limit pindex s calls.*1 = Ok (Some results, s') →
  ∃ b, processingResults calls.*1 results = Some b ∧
    refundOutputs b = zip calls.*1 results ≫= refund_out ∧
    refundSender b = sum_of nValue (refundOutputs b) ∧ 0 ≤ refundSender b ≤ fee ∧
    usedGas b = sum_of used (zip calls.*1 results) ∧ usedGas b ≤ limit.
Proof.
  intros He Hfee Hlim Hc Hp. apply extraction_loop_ok in He. set (qs := calls.*1) in *.
  apply check_calls_covered in Hc as [Hsum Hgas]; [|done|unfold INT64_MAX; lia..].
  unfold performByteCode in Hp. apply rbind_Ok in Hp as ([[l|] s1] & Hp & Hr); [|done]. injection Hr as -> _.
  apply perform_gas in Hp; [|by eapply Forall_impl; [exact He|intros ? (? & _)]].
  destruct (zip_paid qs results He Hp) as [Hz Hfst].
  assert (sum_of (λ p, gas p.1) (zip qs results) = sum_of gas qs) as E1 by (rewrite <- Hfst at 2; by rewrite sum_of_fmap).
  assert (sum_of (λ p, gas p.1 * gasPrice p.1) (zip qs results) = sum_of (λ q, gas q * gasPrice q) qs) as E2
    by (rewrite <- Hfst at 2; by rewrite sum_of_fmap).
  destruct (process_results_paid (zip qs results) (mk_bcer 0 0 [] [])) as (b & Hb & Hu & Hr & Ho);
    [done|rewrite ?E1, ?E2; cbn [usedGas refundSender]; unfold INT64_MAX; lia..|].
  cbn [usedGas refundSender refundOutputs app] in *. exists b. split; [done|].
  rewrite Ho, sum_refund_out by done. rewrite Forall_forall in Hz.
  assert (sum_of refund (zip qs results) ≤ sum_of (λ p, gas p.1 * gasPrice p.1) (zip qs results))
    by (apply sum_of_le; intros x Hx; apply refund_range, Hz, Hx).
  assert (0 ≤ sum_of refund (zip qs results)) by (apply sum_of_nonneg; intros x Hx; apply refund_range, Hz, Hx).
  assert (sum_of used (zip qs results) ≤ sum_of (λ p, gas p.1) (zip qs results))
    by (apply sum_of_le; intros x Hx; destruct (Hz x Hx); lia).
  split_and!; try done; lia.
Qed.
End Refunds.

(** ** Main statements *)

(** The converter reads what the wallet writes.  If every output of a
    transaction either carries no call or was built by [createcontract] or
    [sendtocontract] from parameters that a script can carry, the conversion
    succeeds and gives, in the order of the outputs, exactly one call per contract
    output, with its value, gas, price, code, destination and version. *)
Theorem converter_roundtrip (C : Crypto) (V : Type) (HV : CoinsView V) failed_stack (c : CCoinsViewCache V) tx blockTxs a xs :
  GetSenderAddress c tx blockTxs = Ok (a, c) → Forall2 output_carries (vout tx) xs →
  extractionSilubiumTransactions failed_stack c tx blockTxs = Ok (Some (calls_from tx a 0 (vout tx) xs), c).
Proof. intros Hs Hx. by apply extraction_loop_carried. Qed.

(** C23: gas refunds are covered by the fee.  When [ConnectBlock] has converted the
    outputs of a transaction, accepted the gas of its calls against the fee and
    executed them, the results are processed without failure or wrap-around: each
    call that succeeded is refunded its unused gas at its own price, the refunds
    add up to [refundSender], which the fee of the transaction covers, and the gas
    used fits the block. *)
Theorem gas_refunds_covered (C : Crypto) (G : Type) (HG : Executive G) (HL : ExecutiveLaws G) (V : Type) (HV : CoinsView V)
    failed_stack (c c' : CCoinsViewCache V) tx blockTxs calls minGasPrice limit fee nz height fix_height m block pindex s results s' :
  extractionSilubiumTransactions failed_stack c tx blockTxs = Ok (Some calls, c') →
  0 ≤ fee < 2 ^ 63 → 0 ≤ limit < 2 ^ 64 →
  check_calls minGasPrice limit fee calls.*1 0 0 false = Ok nz →
  performByteCode height fix_height m block limit pindex s calls.*1 = Ok (Some results, s') →
  ∃ b, processingResults calls.*1 results = Some b ∧
    refundOutputs b = zip calls.*1 results ≫= refund_out ∧
    refundSender b = sum_of nValue (refundOutputs b) ∧ 0 ≤ refundSender b ≤ fee ∧
    usedGas b = sum_of used (zip calls.*1 results) ∧ usedGas b ≤ limit.
Proof. exact (refunds_spec failed_stack c c' tx blockTxs calls minGasPrice limit fee nz height fix_height m block pindex s results s'). Qed.

(** ** Witnesses *)

(** A machine that uses half of the gas of a call and moves its value to its
    destination; the accounts whose address starts with 7 are contracts. *)
Definition toy_executive : Executive unit := {|
  addressInUse _ _ := true;
  account_alive _ a := bool_decide (head a = Some 7);
  credit g _ _ := g;
  run_call g _ t a := (Ok (mk_res (gas t / 2) false),
    mk_effects g (if value t >? 0 then [mk_transfer (sender t) (default a (dest t)) (value t)] else []) [] ∅);
  kill_account g _ := g;
  revert_call g := g;
  clear_accounts g := g;
  commit_accounts _ g := g;
  commit_dbs g := g;
  EIP158ForkBlock := 0;
  rootHash _ := replicate 32 0;
  utxo_root _ := replicate 32 0
|}.
#[global] Instance toy_laws : @ExecutiveLaws unit toy_executive.
Proof.
  intros g env t a res e Hg Hr. cbn in Hr. injection Hr as <- _. cbn.
  split; [apply Z.div_pos; lia|apply Z.div_le_upper_bound; lia].
Qed.
Definition caller : Address := replicate 20 5.
Definition contract_address : Address := replicate 20 7.
Definition call_outpoint : COutPoint := mk_outpoint (replicate 32 3) 1.
Definition call_cache : CCoinsViewCache CCoinsViewDB :=
  mk_cache sample_db {[ call_outpoint := mk_entry (new_coin (mk_txout 1000000 (pay_to_key caller)) 7 false false) false false ]} (replicate 32 1).
Definition call_params : EthTransactionParams := mk_etp GetEVMDefault 20000 40 [1; 2; 3; 4] contract_address.
Definition call_tx : CTransaction :=
  mk_tx [mk_txin call_outpoint [] SEQUENCE_FINAL []] [mk_txout 700 (call_script call_params); mk_txout 10 (pay_to_key caller)] 2 0.
Definition sample_call : SilubiumTransaction :=
  mk_qtx 700 40 20000 (Some contract_address) [1; 2; 3; 4] caller (GetHash (H:=toy_crypto) call_tx) 0 GetEVMDefault.
Definition no_stack : stack_t → CScript → stack_t := λ s _, s.

Lemma converter_roundtrip_witness :
  extractionSilubiumTransactions (C:=toy_crypto) no_stack call_cache call_tx [] = Ok (Some [(sample_call, call_params)], call_cache).
Proof.
  apply (converter_roundtrip toy_crypto CCoinsViewDB _ no_stack call_cache call_tx [] caller [Some (true, call_params); None]).
  - vm_compute. reflexivity.
  - constructor; [|constructor; [|constructor]].
    + split; [|reflexivity]. repeat split; vm_compute; congruence.
    + split; reflexivity.
Defined.

Definition empty_state : SilubiumState unit := mk_state tt ∅ ∅ ∅.
Definition run_sample : result chain_error (option (list ResultExecute) * SilubiumState unit) :=
  performByteCode (C:=toy_crypto) (H:=toy_executive) 500000 100000 sample_index sample_block 40000000 hash_b empty_state [sample_call].
Lemma gas_refunds_covered_witness :
  ∃ results s b, run_sample = Ok (Some results, s) ∧
    processingResults (C:=toy_crypto) [sample_call] results = Some b ∧ refundSender b ≤ 999290.
Proof.
  destruct run_sample as [[[results|] s]|] eqn:E; [|vm_compute in E; discriminate..].
  destruct (gas_refunds_covered toy_crypto unit toy_executive toy_laws CCoinsViewDB _ no_stack call_cache call_cache call_tx []
    [(sample_call, call_params)] 40 40000000 999290 true 500000 100000 sample_index sample_block hash_b empty_state results s)
    as (b & Hb & _ & _ & [_ Hle] & _); [vm_compute; reflexivity|lia|lia|vm_compute; reflexivity|exact E|].
  exists results, s, b. split; [reflexivity|]. split; [exact Hb|exact Hle].
Defined.
