(* ===== verification/CondensingFacts.v ===== *)
(** * The condensing transaction conserves value

    The transfers of a call are condensed into one transaction: it spends the
    coins of the accounts involved, pays every account its new balance, and the
    record of the coins of the accounts points at its outputs afterwards. *)
From stdpp Require Import strings sorting.
From S2P Require Import Prelude ArithUint256 Script Interpreter InterpreterFacts Serialize Transaction SigHash Coins CoinsFacts Block Chain ChainFacts BlockChecks BlockChecksFacts Contracts ContractState ContractsFacts.

(** ** Sums over maps *)

Section MapSum.
Context {A : Type}.
Implicit Types (f : Address → A → Z) (m : gmap Address A).

Definition map_sum f m : Z := sum_of (λ p, f p.1 p.2) (map_to_list m).

Lemma map_sum_empty f : map_sum f ∅ = 0.
Proof. unfold map_sum. by rewrite map_to_list_empty. Qed.
Lemma map_sum_insert_new f m a x : m !! a = None → map_sum f (<[a := x]> m) = f a x + map_sum f m.
Proof. intros Ha. unfold map_sum. by rewrite (sum_of_perm _ _ _ (map_to_list_insert m a x Ha)). Qed.
Lemma map_sum_delete f m a x : m !! a = Some x → map_sum f m = f a x + map_sum f (delete a m).
Proof.
  intros Ha. rewrite <- (map_sum_insert_new f (delete a m)) by apply lookup_delete_eq.
  by rewrite insert_delete_id by done.
Qed.
Lemma map_sum_insert f m a x : map_sum f (<[a := x]> m) = f a x + map_sum f m - from_option (f a) 0 (m !! a).
Proof.
  destruct (m !! a) as [y|] eqn:E; cbn.
  - rewrite <- insert_delete_eq, map_sum_insert_new by apply lookup_delete_eq. rewrite (map_sum_delete f m a y E). lia.
  - rewrite map_sum_insert_new by done. lia.
Qed.
Lemma ordered_perm m : ordered m ≡ₚ map_to_list m.
Proof. apply merge_sort_Permutation. Qed.
Lemma elem_of_ordered m a x : (a, x) ∈ ordered m ↔ m !! a = Some x.
Proof. rewrite ordered_perm. apply elem_of_map_to_list. Qed.
Lemma NoDup_ordered m : NoDup (ordered m).*1.
Proof. rewrite ordered_perm. apply NoDup_fst_map_to_list. Qed.
Lemma sum_ordered f m : sum_of (λ p, f p.1 p.2) (ordered m) = map_sum f m.
Proof. apply sum_of_perm, ordered_perm. Qed.
Lemma map_sum_nonneg f m : (∀ a x, m !! a = Some x → 0 ≤ f a x) → 0 ≤ map_sum f m.
Proof. intros Hf. apply sum_of_nonneg. intros [a x] Hx%elem_of_map_to_list. by apply Hf. Qed.
Lemma map_sum_le f m a x : (∀ b y, m !! b = Some y → 0 ≤ f b y) → m !! a = Some x → f a x ≤ map_sum f m.
Proof.
  intros Hf Ha. rewrite (map_sum_delete f m a x Ha).
  enough (0 ≤ map_sum f (delete a m)) by lia. apply map_sum_nonneg. intros b y [_ Hy]%lookup_delete_Some. by apply Hf.
Qed.
End MapSum.

(** ** Plus and minus *)

(** After transfers of [total]: both columns add up to it. *)
Definition pm_ok (total : Z) (m : gmap Address (Z * Z)) : Prop :=
  map_sum (λ _ x, x.1) m = total ∧ map_sum (λ _ x, x.2) m = total ∧ ∀ a x, m !! a = Some x → 0 ≤ x.1 ∧ 0 ≤ x.2.
Lemma pm_ok_le total m a x : pm_ok total m → m !! a = Some x → x.1 ≤ total ∧ x.2 ≤ total.
Proof.
  intros (H1 & H2 & Hn) Ha. split; [rewrite <- H1; apply (map_sum_le (λ _ x, x.1) m a x)|rewrite <- H2; apply (map_sum_le (λ _ x, x.2) m a x)];
    try done; intros b y Hy; by apply (Hn b).
Qed.
(** The two updates of a round, on one column each. *)
Lemma minus_ok m a v plus minus :
  0 ≤ v → 0 ≤ minus → minus + v < 2 ^ 256 → map_sum (λ _ x, x.1) m = plus → map_sum (λ _ x, x.2) m = minus →
  (∀ a x, m !! a = Some x → 0 ≤ x.1 ∧ 0 ≤ x.2) →
  let m' := match m !! a with None => <[a := (0, v)]> m | Some (p, q) => <[a := (p, u256 (q + v))]> m end in
  map_sum (λ _ x, x.1) m' = plus ∧ map_sum (λ _ x, x.2) m' = minus + v ∧ (∀ a x, m' !! a = Some x → 0 ≤ x.1 ∧ 0 ≤ x.2) ∧
  dom m' = {[a]} ∪ dom m.
Proof.
  intros Hv Hm Hlt H1 H2 Hn. destruct (m !! a) as [[p q]|] eqn:E; cbn.
  - destruct (Hn a _ E) as [Hp Hq]. cbn in Hp, Hq.
    assert (q ≤ minus) as Hle by (rewrite <- H2; apply (map_sum_le (λ _ x, x.2) m a (p, q)); [intros b y Hy; by apply (Hn b)|done]).
    assert (u256 (q + v) = q + v) as -> by (apply wrap_small; unfold in_u; lia).
    rewrite !map_sum_insert, E, dom_insert_L. cbn. split_and!; [lia..| |done].
    intros b x [[-> <-]|[_ Hx]]%lookup_insert_Some; [cbn; lia|by apply (Hn b)].
  - rewrite !map_sum_insert, E, dom_insert_L. cbn. split_and!; [lia..| |done].
    intros b x [[-> <-]|[_ Hx]]%lookup_insert_Some; [cbn; lia|by apply (Hn b)].
Qed.
Lemma plus_ok m a v plus minus :
  0 ≤ v → 0 ≤ plus → plus + v < 2 ^ 256 → map_sum (λ _ x, x.1) m = plus → map_sum (λ _ x, x.2) m = minus →
  (∀ a x, m !! a = Some x → 0 ≤ x.1 ∧ 0 ≤ x.2) →
  let m' := match m !! a with None => <[a := (v, 0)]> m | Some (p, q) => <[a := (u256 (p + v), q)]> m end in
  map_sum (λ _ x, x.1) m' = plus + v ∧ map_sum (λ _ x, x.2) m' = minus ∧ (∀ a x, m' !! a = Some x → 0 ≤ x.1 ∧ 0 ≤ x.2) ∧
  dom m' = {[a]} ∪ dom m.
Proof.
  intros Hv Hm Hlt H1 H2 Hn. destruct (m !! a) as [[p q]|] eqn:E; cbn.
  - destruct (Hn a _ E) as [Hp Hq]. cbn in Hp, Hq.
    assert (p ≤ plus) as Hle by (rewrite <- H1; apply (map_sum_le (λ _ x, x.1) m a (p, q)); [intros b y Hy; by apply (Hn b)|done]).
    assert (u256 (p + v) = p + v) as -> by (apply wrap_small; unfold in_u; lia).
    rewrite !map_sum_insert, E, dom_insert_L. cbn. split_and!; [lia..| |done].
    intros b x [[-> <-]|[_ Hx]]%lookup_insert_Some; [cbn; lia|by apply (Hn b)].
  - rewrite !map_sum_insert, E, dom_insert_L. cbn. split_and!; [lia..| |done].
    intros b x [[-> <-]|[_ Hx]]%lookup_insert_Some; [cbn; lia|by apply (Hn b)].
Qed.
Lemma plus_minus_ok total m ti :
  pm_ok total m → 0 ≤ total → 0 ≤ ti_value ti → total + ti_value ti < 2 ^ 256 →
  pm_ok (total + ti_value ti) (plus_minus m ti) ∧ dom (plus_minus m ti) = {[from ti; to ti]} ∪ dom m.
Proof.
  intros (H1 & H2 & Hn) H0 Hv Hlt. unfold plus_minus.
  destruct (minus_ok m (from ti) (ti_value ti) total total Hv H0 Hlt H1 H2 Hn) as (A1 & A2 & An & Ad).
  set (m1 := match m !! from ti with None => _ | Some _ => _ end) in *.
  destruct (plus_ok m1 (to ti) (ti_value ti) total (total + ti_value ti) Hv H0 Hlt A1 A2 An) as (B1 & B2 & Bn & Bd).
  split; [done|]. rewrite Bd, Ad. set_solver.
Qed.
Definition parties (transfers : list TransferInfo) : gset Address := ⋃ ((λ ti, {[from ti; to ti]}) <$> transfers).
Lemma plus_minus_loop transfers : ∀ total m,
  pm_ok total m → 0 ≤ total → Forall (λ ti, 0 ≤ ti_value ti) transfers → total + sum_of ti_value transfers < 2 ^ 256 →
  pm_ok (total + sum_of ti_value transfers) (foldl plus_minus m transfers) ∧
  dom (foldl plus_minus m transfers) = dom m ∪ parties transfers.
Proof.
  induction transfers as [|ti l IH]; intros total m Hm H0 Hv Hlt.
  { unfold sum_of. cbn. rewrite Z.add_0_r. split; [done|]. unfold parties. cbn. set_solver. }
  apply Forall_cons in Hv as [Hti Hv]. rewrite sum_of_cons in *.
  assert (0 ≤ sum_of ti_value l) by (apply sum_of_nonneg; by apply Forall_forall).
  destruct (plus_minus_ok total m ti Hm H0 Hti) as [Hm' Hd']; [lia|].
  destruct (IH _ _ Hm') as [IH1 IH2]; [lia|done|lia|]. cbn [foldl]. split.
  - by replace (total + (ti_value ti + sum_of ti_value l)) with (total + ti_value ti + sum_of ti_value l) by lia.
  - rewrite IH2, Hd'. unfold parties. cbn. set_solver.
Qed.
Lemma calculatePlusAndMinus_ok transfers :
  Forall (λ ti, 0 ≤ ti_value ti) transfers → sum_of ti_value transfers < 2 ^ 256 →
  pm_ok (sum_of ti_value transfers) (calculatePlusAndMinus transfers) ∧ dom (calculatePlusAndMinus transfers) = parties transfers.
Proof.
  intros Hv Hlt. destruct (plus_minus_loop transfers 0 ∅) as [H1 H2]; [|done|done|done|].
  - split_and!; [apply map_sum_empty..|]. intros a x. by rewrite lookup_empty.
  - split; [done|]. unfold calculatePlusAndMinus. rewrite H2. set_solver.
Qed.

(** ** Balances *)

(** The coins an address brings into the transaction. *)
Definition worth (deleted : gset Address) (a : Address) (v : Vin) : Z := if counted deleted a v then vin_value v else 0.
Definition held (deleted : gset Address) (vs : gmap Address Vin) (a : Address) : Z := worth deleted a (default default_vin (vs !! a)).
Definition values_ok (vs : gmap Address Vin) : Prop := ∀ a v, vs !! a = Some v → 0 ≤ vin_value v.

Lemma worth_default deleted a : worth deleted a default_vin = 0.
Proof. unfold worth. by destruct (counted _ _ _). Qed.
Lemma held_nonneg deleted vs a : values_ok vs → 0 ≤ held deleted vs a.
Proof.
  intros Hv. unfold held. destruct (vs !! a) as [v|] eqn:E; cbn [default]; [|by rewrite worth_default].
  unfold worth. case_match; [by eapply Hv|done].
Qed.
Lemma held_insert deleted vs a b : held deleted (<[a := default default_vin (vs !! a)]> vs) b = held deleted vs b.
Proof. unfold held. destruct (decide (a = b)) as [->|]; [by rewrite lookup_insert_eq|by rewrite lookup_insert_ne]. Qed.
(** All that the addresses of [l] hold, when there are no others. *)
Lemma sum_held deleted l : ∀ vs, NoDup l → dom vs ⊆ list_to_set l → sum_of (held deleted vs) l = map_sum (worth deleted) vs.
Proof.
  induction l as [|a l IH]; intros vs Hnd Hd.
  { assert (vs = ∅) as -> by (apply dom_empty_inv_L; set_solver). by rewrite map_sum_empty. }
  apply NoDup_cons in Hnd as [Ha Hnd]. rewrite sum_of_cons.
  assert (sum_of (held deleted vs) l = sum_of (held deleted (delete a vs)) l) as ->.
  { apply sum_of_ext. intros b Hb. unfold held. rewrite lookup_delete_ne by (intros ->; done). done. }
  rewrite IH; [|done|rewrite dom_delete_L; set_solver].
  unfold held at 1. destruct (vs !! a) as [v|] eqn:E; cbn [default].
  - by rewrite (map_sum_delete _ vs a v E).
  - rewrite worth_default. by rewrite delete_id by done.
Qed.

(** No address sends more than it holds and receives. *)
Definition affordable (deleted : gset Address) (vs : gmap Address Vin) (l : list (Address * (Z * Z))) : Prop :=
  ∀ a p q, (a, (p, q)) ∈ l → q ≤ held deleted vs a + p.
Definition net (deleted : gset Address) (vs : gmap Address Vin) (x : Address * (Z * Z)) : Z := held deleted vs x.1 + x.2.1 - x.2.2.

(** The loop over [plusMinusInfo]: it fails exactly when an address cannot pay,
    and else gives every address its net balance. *)
Lemma create_balances_spec deleted l : ∀ vs bs,
  NoDup l.*1 → (∀ a p q, (a, (p, q)) ∈ l → 0 ≤ held deleted vs a ∧ 0 ≤ p ∧ 0 ≤ q ∧ held deleted vs a + p < 2 ^ 256) →
  (∀ a, a ∈ l.*1 → bs !! a = None) →
  let '(ok, vs', bs') := create_balances deleted l vs bs in
  if ok then
    affordable deleted vs l ∧ (∀ x, x ∈ l → bs' !! x.1 = Some (net deleted vs x)) ∧ (∀ a, a ∉ l.*1 → bs' !! a = bs !! a) ∧
    map_sum (λ _ b, b) bs' = map_sum (λ _ b, b) bs + sum_of (net deleted vs) l ∧
    (∀ a, vs' !! a = if bool_decide (a ∈ l.*1) then Some (default default_vin (vs !! a)) else vs !! a) ∧
    map_sum (worth deleted) vs' = map_sum (worth deleted) vs
  else ¬ affordable deleted vs l.
Proof.
  induction l as [|[a [p q]] l IH]; intros vs bs Hnd Hr Hbs; cbn [create_balances].
  { split_and!; [intros ? ? ? ?%elem_of_nil; done|intros ? ?%elem_of_nil; done|done|unfold sum_of; cbn; lia|done|done]. }
  rewrite fmap_cons in Hnd. apply NoDup_cons in Hnd as [Ha Hnd]. cbn [fst] in Ha.
  destruct (Hr a p q (list_elem_of_here _ _)) as (Hh & Hp & Hq & Hlt).
  change (if counted deleted a (default default_vin (vs !! a)) then vin_value (default default_vin (vs !! a)) else 0) with (held deleted vs a).
  assert (u256 (held deleted vs a + p) = held deleted vs a + p) as -> by (apply wrap_small; unfold in_u; lia).
  destruct (Z.ltb_spec (held deleted vs a + p) q) as [Hno|Hle].
  { intros Haff. specialize (Haff a p q (list_elem_of_here _ _)). lia. }
  assert (u256 (held deleted vs a + p - q) = held deleted vs a + p - q) as -> by (apply wrap_small; unfold in_u; lia).
  set (vs1 := <[a := default default_vin (vs !! a)]> vs). set (bs1 := <[a := held deleted vs a + p - q]> bs).
  assert (∀ b, held deleted vs1 b = held deleted vs b) as Hheld by (intros; apply held_insert).
  specialize (IH vs1 bs1 Hnd). destruct (create_balances deleted l vs1 bs1) as [[ok vs'] bs'].
  assert (∀ l', affordable deleted vs1 l' ↔ affordable deleted vs l') as Haff
    by (intros l'; unfold affordable; by setoid_rewrite Hheld).
  destruct ok; [|intros Hall; apply IH; [..|apply Haff; intros b p' q' Hb; apply Hall; by apply list_elem_of_further]].
  - destruct IH as (I1 & I2 & I3 & I4 & I5 & I6).
    { intros b p' q' Hb. rewrite Hheld. apply Hr. by apply list_elem_of_further. }
    { intros b Hb. unfold bs1. rewrite lookup_insert_ne by (intros ->; done). apply Hbs. by apply list_elem_of_further. }
    assert (∀ x, net deleted vs1 x = net deleted vs x) as Hnet by (intros; unfold net; by rewrite Hheld).
    split_and!.
    + intros b p' q' [[= -> -> ->]|Hb]%elem_of_cons; [done|]. by apply Haff in I1; apply I1.
    + intros x [->|Hx]%elem_of_cons; [|rewrite <- Hnet; by apply I2]. cbn [fst]. rewrite I3 by done.
      unfold bs1. by rewrite lookup_insert_eq.
    + intros b Hb. rewrite fmap_cons, not_elem_of_cons in Hb. destruct Hb as [Hne Hb]. rewrite I3 by done. unfold bs1. by rewrite lookup_insert_ne.
    + rewrite I4. unfold bs1. rewrite map_sum_insert, Hbs by apply list_elem_of_here. rewrite sum_of_cons.
      rewrite (sum_of_ext (net deleted vs1) (net deleted vs)) by (intros; apply Hnet). change (net deleted vs (a, (p, q))) with (held deleted vs a + p - q). cbn [from_option]. lia.
    + intros b. rewrite I5. unfold vs1. rewrite fmap_cons. cbn [fst]. destruct (decide (a = b)) as [->|Hne].
      * rewrite lookup_insert_eq. rewrite (bool_decide_eq_true_2 (b ∈ b :: _)) by apply list_elem_of_here.
        by case_bool_decide.
      * rewrite lookup_insert_ne by done. by rewrite (bool_decide_ext (b ∈ l.*1) (b ∈ a :: l.*1)) by set_solver.
    + rewrite I6. unfold vs1. rewrite map_sum_insert. destruct (vs !! a) as [v|]; cbn; rewrite ?worth_default; lia.
  - intros b p' q' Hb. rewrite Hheld. apply Hr. by apply list_elem_of_further.
  - intros b Hb. unfold bs1. rewrite lookup_insert_ne by (intros ->; done). apply Hbs. by apply list_elem_of_further.
Qed.

(** ** The record of coins *)

Section Record.
Context `{C : Crypto} {G : Type} `{Executive G}.
Implicit Types s : SilubiumState G.

(** What an account holds: the cache shadows the trie. *)
Definition vin_of s (a : Address) : option Vin :=
  match cacheUTXO s !! a with Some v => Some v | None => stateUTXO s !! a end.
(** A state that differs only in what the cache repeats of the trie. *)
Definition same_coins s s' : Prop :=
  accounts s' = accounts s ∧ stateUTXO s' = stateUTXO s ∧ deleteAddresses s' = deleteAddresses s ∧ ∀ a, vin_of s' a = vin_of s a.

Lemma same_coins_refl s : same_coins s s.
Proof. done. Qed.
Lemma same_coins_trans s1 s2 s3 : same_coins s1 s2 → same_coins s2 s3 → same_coins s1 s3.
Proof. intros (? & ? & ? & Hv) (? & ? & ? & Hw). split_and!; try congruence. Qed.
Lemma state_vin_spec s a : ∃ s', state_vin s a = (vin_of s a, s') ∧ same_coins s s'.
Proof.
  unfold state_vin, vin_of. destruct (cacheUTXO s !! a) as [v|] eqn:E; [exists s; split; done|].
  destruct (stateUTXO s !! a) as [v|] eqn:E'; [|exists s; split; done].
  eexists. split; [done|]. split_and!; try done. intros b. unfold vin_of. cbn.
  destruct (decide (a = b)) as [<-|]; [by rewrite lookup_insert_eq, E|by rewrite lookup_insert_ne].
Qed.

(** Assignment of one entry, and of all. *)
Definition assign (v : Vin) (o : option Vin) : option Vin :=
  match o with Some _ => Some v | None => if alive v >? 0 then Some v else None end.
Lemma update_one_spec s a v :
  accounts (update_one s (a, v)) = accounts s ∧ stateUTXO (update_one s (a, v)) = stateUTXO s ∧
  ∀ b, vin_of (update_one s (a, v)) b = if bool_decide (b = a) then assign v (vin_of s a) else vin_of s b.
Proof.
  unfold update_one. cbn [fst snd]. destruct (state_vin_spec s a) as (s' & -> & (Ha & Hs & _ & Hv)).
  assert (∀ w b, vin_of (ContractState.set_cache s' (<[a := w]> (cacheUTXO s'))) b = if bool_decide (b = a) then Some w else vin_of s b) as Hset.
  { intros w b. rewrite <- Hv. unfold vin_of. cbn. case_bool_decide as Hb; [subst; by rewrite lookup_insert_eq|by rewrite lookup_insert_ne]. }
  destruct (vin_of s a) as [w|] eqn:E; cbn [assign].
  - split_and!; [done..|apply Hset].
  - case_match; (split_and!; [done|done|]); [apply Hset|].
    intros b. rewrite Hv. case_bool_decide as Hb; [by subst|done].
Qed.
Lemma update_loop_spec l : ∀ s, NoDup l.*1 →
  let s' := foldl update_one s l in
  accounts s' = accounts s ∧ stateUTXO s' = stateUTXO s ∧
  (∀ a v, (a, v) ∈ l → vin_of s' a = assign v (vin_of s a)) ∧ (∀ a, a ∉ l.*1 → vin_of s' a = vin_of s a).
Proof.
  induction l as [|[a v] l IH]; intros s Hnd; cbn [foldl].
  { split_and!; try done. intros ? ? ?%elem_of_nil. done. }
  rewrite fmap_cons in Hnd. apply NoDup_cons in Hnd as [Ha Hnd]. cbn [fst] in Ha.
  destruct (update_one_spec s a v) as (U1 & U2 & U3). destruct (IH (update_one s (a, v)) Hnd) as (I1 & I2 & I3 & I4).
  split_and!; [by rewrite I1|by rewrite I2|..].
  - intros b w [[= -> ->]|Hb]%elem_of_cons.
    + rewrite I4 by done. by rewrite U3, bool_decide_eq_true_2.
    + rewrite (I3 b w Hb), U3, bool_decide_eq_false_2; [done|]. intros ->. apply Ha. by apply (list_elem_of_fmap_2 fst _ (a, w)).
  - intros b Hb. rewrite fmap_cons, not_elem_of_cons in Hb. destruct Hb as [Hne Hb].
    by rewrite I4, U3, bool_decide_eq_false_2.
Qed.
Lemma updateUTXO_spec s m a :
  vin_of (updateUTXO s m) a = match m !! a with Some v => assign v (vin_of s a) | None => vin_of s a end ∧
  stateUTXO (updateUTXO s m) = stateUTXO s ∧ accounts (updateUTXO s m) = accounts s.
Proof.
  destruct (update_loop_spec (ordered m) s (NoDup_ordered m)) as (U1 & U2 & U3 & U4). unfold updateUTXO. split; [|done].
  destruct (m !! a) as [v|] eqn:E.
  - apply U3. by apply elem_of_ordered.
  - apply U4. intros ([b v] & -> & Hv)%list_elem_of_fmap. apply elem_of_ordered in Hv. cbn in E. by rewrite E in Hv.
Qed.

(** Writing the cache back keeps the living entries. *)
Definition living (o : option Vin) : option Vin := v ← o; if alive v =? 0 then None else Some v.
Lemma commit_loop_spec l : ∀ trie a, NoDup l.*1 →
  (∀ v, (a, v) ∈ l → foldl commit_one trie l !! a = living (Some v)) ∧ (a ∉ l.*1 → foldl commit_one trie l !! a = trie !! a).
Proof.
  induction l as [|[b w] l IH]; intros trie a Hnd; [split; [intros ? ?%elem_of_nil|]; done|].
  rewrite fmap_cons in Hnd. apply NoDup_cons in Hnd as [Hb Hnd]. cbn [fst] in Hb. cbn [foldl].
  destruct (IH (commit_one trie (b, w)) a Hnd) as [I1 I2]. split.
  - intros v [[= -> ->]|Hv]%elem_of_cons; [|by apply I1]. rewrite I2 by done. unfold commit_one, living. cbn.
    case_match; [by rewrite lookup_delete_eq|by rewrite lookup_insert_eq].
  - rewrite fmap_cons, not_elem_of_cons. intros [Hne Ha]. rewrite I2 by done. unfold commit_one. cbn in *.
    case_match; [by rewrite lookup_delete_ne|by rewrite lookup_insert_ne].
Qed.
Lemma commit_spec cache trie a :
  commit cache trie !! a = match cache !! a with Some v => living (Some v) | None => trie !! a end.
Proof.
  destruct (commit_loop_spec (ordered cache) trie a (NoDup_ordered cache)) as [H1 H2]. unfold commit.
  destruct (cache !! a) as [v|] eqn:E.
  - apply H1. by apply elem_of_ordered.
  - apply H2. intros ([b v] & -> & Hv)%list_elem_of_fmap. apply elem_of_ordered in Hv. cbn in E. by rewrite E in Hv.
Qed.
(** No dead entry is in the trie. *)
Definition trie_ok s : Prop := ∀ a v, stateUTXO s !! a = Some v → alive v ≠ 0.
Lemma commit_state_spec env s a : trie_ok s → vin_of (commit_state env s) a = living (vin_of s a) ∧ trie_ok (commit_state env s).
Proof.
  intros Ht. assert (∀ b, commit (cacheUTXO s) (stateUTXO s) !! b = living (vin_of s b)) as Hc.
  { intros b. rewrite commit_spec. unfold vin_of. destruct (cacheUTXO s !! b); [done|].
    destruct (stateUTXO s !! b) as [v|] eqn:E; [|done]. cbn. by rewrite (proj2 (Z.eqb_neq _ _)) by (by apply (Ht b)). }
  split; [unfold vin_of at 1; cbn; by rewrite lookup_empty|].
  intros b v Hv. cbn in Hv. rewrite Hc in Hv. unfold living in Hv. apply bind_Some in Hv as (w & _ & Hv).
  destruct (Z.eqb_spec (alive w) 0); [done|]. by injection Hv as <-.
Qed.
End Record.

(** ** Inputs and outputs *)

Section Condense.
Context `{C : Crypto} {G : Type} `{Executive G}.
Implicit Types s : SilubiumState G.

(** Where a selected coin comes from: the record, or the output of the call. *)
Definition origin (t : SilubiumTransaction) s (a : Address) (v : Vin) : Prop :=
  vin_of s a = Some v ∨ (a = sender t ∧ value t > 0 ∧ v = mk_vin (hashWith t) (nVout t) (value t) 1).
Definition selected (t : SilubiumTransaction) s (vs : gmap Address Vin) : Prop := ∀ a v, vs !! a = Some v → origin t s a v.

Lemma select_transfer_spec t s0 s vs ti :
  same_coins s0 s → selected t s0 vs →
  let '(vs', s') := select_transfer t (vs, s) ti in
  same_coins s0 s' ∧ selected t s0 vs' ∧ dom vs' ⊆ {[from ti; to ti]} ∪ dom vs.
Proof.
  intros Hsame Hsel. unfold select_transfer.
  assert (∀ s1 a, same_coins s0 s1 → ∃ s2, state_vin s1 a = (vin_of s0 a, s2) ∧ same_coins s0 s2) as Hvin.
  { intros s1 a H1. destruct (state_vin_spec s1 a) as (s2 & -> & H2). exists s2. split; [|by eapply same_coins_trans].
    destruct H1 as (_ & _ & _ & Hv). by rewrite Hv. }
  assert (∀ vs1 a, selected t s0 vs1 → selected t s0 (match vin_of s0 a with Some v => <[a := v]> vs1 | None => vs1 end) ∧
      dom (match vin_of s0 a with Some v => <[a := v]> vs1 | None => vs1 end) ⊆ {[a]} ∪ dom vs1) as Hins.
  { intros vs1 a H1. destruct (vin_of s0 a) as [v|] eqn:E; [|split; [done|set_solver]]. split; [|rewrite dom_insert_L; set_solver].
    intros b w [[<- <-]|[_ Hw]]%lookup_insert_Some; [by left|by apply H1]. }
  assert (∀ vs1 s1, same_coins s0 s1 → selected t s0 vs1 → dom vs1 ⊆ {[from ti]} ∪ dom vs →
    let '(vs', s') := match vs1 !! to ti with
      | Some _ => (vs1, s1)
      | None => let '(v, s2) := state_vin s1 (to ti) in (match v with Some v => <[to ti := v]> vs1 | None => vs1 end, s2) end in
    same_coins s0 s' ∧ selected t s0 vs' ∧ dom vs' ⊆ {[from ti; to ti]} ∪ dom vs) as Hto.
  { intros vs1 s1 H1 H2 H3. destruct (vs1 !! to ti); [split_and!; [done|done|set_solver]|].
    destruct (Hvin s1 (to ti) H1) as (s2 & -> & Hs2). destruct (Hins vs1 (to ti) H2) as [H4 H5]. split_and!; [done|done|].
    etransitivity; [exact H5|]. clear -H3. set_solver. }
  destruct (vs !! from ti); [apply Hto; [done|done|set_solver]|].
  destruct (Hvin s (from ti) Hsame) as (s1 & -> & Hs1). destruct (Hins vs (from ti) Hsel) as [H4 H5].
  destruct (bool_decide (from ti = sender t)) eqn:Es; cbn [andb]; [|by apply Hto].
  rewrite Z.gtb_ltb. destruct (Z.ltb_spec 0 (value t)); [|by apply Hto]. apply Hto; [done| |rewrite dom_insert_L; set_solver].
  intros b w [[<- <-]|[_ Hw]]%lookup_insert_Some; [|by apply H4]. right. apply bool_decide_eq_true in Es. split_and!; [done|lia|done].
Qed.
Lemma selection_loop t s0 transfers : ∀ vs s,
  same_coins s0 s → selected t s0 vs →
  let '(vs', s') := foldl (select_transfer t) (vs, s) transfers in
  same_coins s0 s' ∧ selected t s0 vs' ∧ dom vs' ⊆ dom vs ∪ parties transfers.
Proof.
  induction transfers as [|ti l IH]; intros vs s Hs Hsel; cbn [foldl]; [split_and!; [done|done|set_solver]|].
  pose proof (select_transfer_spec t s0 s vs ti Hs Hsel) as Hone. destruct (select_transfer t (vs, s) ti) as [vs1 s1].
  destruct Hone as (H1 & H2 & H3). specialize (IH vs1 s1 H1 H2). destruct (foldl _ _ _) as [vs2 s2].
  destruct IH as (I1 & I2 & I3). split_and!; [done|done|]. unfold parties in *. cbn. set_solver.
Qed.
Lemma selectionVin_spec t s transfers :
  let '(vs, s') := selectionVin t transfers s in same_coins s s' ∧ selected t s vs ∧ dom vs ⊆ parties transfers.
Proof.
  pose proof (selection_loop t s transfers ∅ s (same_coins_refl s)) as Hl. unfold selectionVin.
  destruct (foldl _ _ _) as [vs s']. destruct Hl as (H1 & H2 & H3); [by intros a v; rewrite lookup_empty|].
  split_and!; [done|done|set_solver].
Qed.

(** The coins the transaction spends. *)
Definition spent_vins (deleted : gset Address) (vs : gmap Address Vin) : list Vin :=
  (List.filter (λ p, (vin_value p.2 >? 0) && counted deleted p.1 p.2) (ordered vs)).*2.
Lemma createVins_spent deleted vs : createVins deleted vs = spend_vin <$> spent_vins deleted vs.
Proof. unfold createVins, spent_vins. rewrite <- list_fmap_compose. done. Qed.
Lemma sum_spent deleted vs : values_ok vs → sum_of vin_value (spent_vins deleted vs) = map_sum (worth deleted) vs.
Proof.
  intros Hv. unfold spent_vins. rewrite sum_of_fmap. rewrite <- sum_ordered.
  assert (∀ a v, (a, v) ∈ ordered vs → 0 ≤ vin_value v) as Hn by (intros a v Hx%elem_of_ordered; by apply (Hv a)).
  induction (ordered vs) as [|[a v] l IH]; [done|]. cbn [List.filter fst snd]. rewrite sum_of_cons, <- IH by (intros b w Hw; eapply Hn; by apply list_elem_of_further).
  specialize (Hn a v (list_elem_of_here _ _)). unfold worth. cbn [fst snd]. rewrite Z.gtb_ltb.
  destruct (Z.ltb_spec 0 (vin_value v)), (counted deleted a v); cbn [andb]; rewrite ?sum_of_cons; cbn [snd]; lia.
Qed.

(** The loop over the balances. *)
Lemma create_vout_spec (g : G) l : ∀ count nv outs nv',
  0 ≤ count ≤ MAX_CONTRACT_VOUTS → NoDup l.*1 → (∀ a b, (a, b) ∈ l → 0 ≤ b ≤ INT64_MAX) → create_vout g l count nv = (outs, nv', false) →
  count + size outs ≤ MAX_CONTRACT_VOUTS ∧ sum_of nValue outs = sum_of snd l ∧ (∀ a, a ∉ l.*1 → nv' !! a = nv !! a) ∧
  ∀ a b, (a, b) ∈ l → 0 < b → ∃ k : nat, nv' !! a = Some (count + Z.of_nat k) ∧ outs !! k = Some (mk_txout b (account_script g a)).
Proof.
  induction l as [|[a b] l IH]; intros count nv outs nv' Hc Hnd Hb Hl; cbn [create_vout] in Hl.
  { injection Hl as <- <-. split_and!; [unfold size; cbn; lia|done|done|intros ? ? ?%elem_of_nil; done]. }
  rewrite fmap_cons in Hnd. apply NoDup_cons in Hnd as [Ha Hnd]. cbn [fst] in Ha.
  pose proof (Hb a b (list_elem_of_here _ _)) as Hba. unfold INT64_MAX, MAX_CONTRACT_VOUTS in *.
  rewrite (Z.gtb_ltb b) in Hl. destruct (Z.ltb_spec 0 b) as [Hpos|Hz].
  - rewrite Z.gtb_ltb in Hl. destruct (Z.ltb_spec 1000 (count + 1)); [done|].
    destruct (create_vout g l (count + 1) (<[a := u32 count]> nv)) as [[outs1 nv1] over] eqn:E. injection Hl as <- <- ->.
    destruct (IH (count + 1) _ _ _ ltac:(lia) Hnd (λ x y Hx, Hb x y (list_elem_of_further _ _ _ Hx)) E) as (I1 & I2 & I3 & I4).
    cbn [app]. rewrite size_cons, !sum_of_cons, I2, i64_small by lia. cbn [nValue snd]. split_and!; [lia|done|..].
    + intros x Hx. rewrite fmap_cons, not_elem_of_cons in Hx. destruct Hx as [Hne Hx]. rewrite I3 by done. by rewrite lookup_insert_ne.
    + intros x y [[= -> ->]|Hx]%elem_of_cons Hy.
      * exists 0%nat. rewrite I3, lookup_insert_eq, u32_small by (done || lia). by rewrite Z.add_0_r.
      * destruct (I4 x y Hx Hy) as (k & Hk1 & Hk2). exists (S k). rewrite Hk1. split; [f_equal; lia|done].
  - rewrite Z.gtb_ltb in Hl. destruct (Z.ltb_spec 1000 count); [done|].
    destruct (create_vout g l count nv) as [[outs1 nv1] over] eqn:E. injection Hl as <- <- ->.
    destruct (IH count _ _ _ ltac:(lia) Hnd (λ x y Hx, Hb x y (list_elem_of_further _ _ _ Hx)) E) as (I1 & I2 & I3 & I4).
    cbn [app]. rewrite sum_of_cons. cbn [snd]. split_and!; [lia|lia|..].
    + intros x Hx. rewrite fmap_cons, not_elem_of_cons in Hx. destruct Hx as [Hne Hx]. by rewrite I3.
    + intros x y [[= -> ->]|Hx]%elem_of_cons Hy; [lia|by apply I4].
Qed.

(** What the accounts hold after the transaction. *)
Lemma new_vin_loop t ctx tx l : ∀ m a, NoDup l.*1 →
  (∀ b, (a, b) ∈ l → a ≠ sender t → foldl (new_vin t ctx tx) m l !! a =
     Some (if b >? 0 then mk_vin (GetHash tx) (default 0 (nVouts ctx !! a)) b 1 else mk_vin (GetHash tx) 0 0 0)) ∧
  (a ∉ l.*1 ∨ a = sender t → foldl (new_vin t ctx tx) m l !! a = m !! a).
Proof.
  induction l as [|[b w] l IH]; intros m a Hnd; [split; [intros ? ?%elem_of_nil|]; done|].
  rewrite fmap_cons in Hnd. apply NoDup_cons in Hnd as [Hb Hnd]. cbn [fst] in Hb. cbn [foldl].
  destruct (IH (new_vin t ctx tx m (b, w)) a Hnd) as [I1 I2].
  assert (∀ c, c ≠ b ∨ c = sender t → new_vin t ctx tx m (b, w) !! c = m !! c) as Hother.
  { intros c Hc. unfold new_vin. cbn. case_bool_decide; [done|]. case_match; rewrite lookup_insert_ne; naive_solver. }
  split.
  - intros x [[= -> ->]|Hx]%elem_of_cons Hs; [|by apply I1]. rewrite I2 by (by left). unfold new_vin. cbn.
    rewrite bool_decide_eq_false_2 by done. case_match; by rewrite lookup_insert_eq.
  - rewrite fmap_cons, not_elem_of_cons. cbn [fst]. intros Ha. rewrite I2 by naive_solver. apply Hother. naive_solver.
Qed.
Lemma createVin_spec t ctx tx a :
  createVin t ctx tx !! a =
    if bool_decide (a = sender t) then None
    else b ← balances ctx !! a;
         Some (if b >? 0 then mk_vin (GetHash tx) (default 0 (nVouts ctx !! a)) b 1 else mk_vin (GetHash tx) 0 0 0).
Proof.
  unfold createVin. destruct (new_vin_loop t ctx tx (ordered (balances ctx)) ∅ a (NoDup_ordered _)) as [H1 H2].
  case_bool_decide as Hs; [rewrite H2 by (by right); apply lookup_empty|].
  destruct (balances ctx !! a) as [b|] eqn:E; cbn.
  - apply H1; [by apply elem_of_ordered|done].
  - rewrite H2; [apply lookup_empty|]. left. intros ([c v] & -> & Hv)%list_elem_of_fmap. apply elem_of_ordered in Hv.
    cbn in E. by rewrite E in Hv.
Qed.

(** ** The transaction as a whole *)

Definition coins_ok s : Prop := ∀ a v, vin_of s a = Some v → 0 ≤ vin_value v.
Definition transfers_ok (transfers : list TransferInfo) : Prop :=
  Forall (λ ti, 0 ≤ ti_value ti) transfers ∧ sum_of ti_value transfers < 2 ^ 255.
(** Every account can pay, with the coins selected for it. *)
Definition can_pay (t : SilubiumTransaction) (transfers : list TransferInfo) (deleted : gset Address) s : Prop :=
  ∀ a p q, calculatePlusAndMinus transfers !! a = Some (p, q) → q ≤ held deleted (selectionVin t transfers s).1 a + p.
(** What the selected coins are worth. *)
Definition stake (t : SilubiumTransaction) (transfers : list TransferInfo) (deleted : gset Address) s : Z :=
  map_sum (worth deleted) (selectionVin t transfers s).1.

Lemma selected_values t s vs : coins_ok s → selected t s vs → values_ok vs.
Proof. intros Hc Hs a v Hv. destruct (Hs a v Hv) as [Ho|(_ & ? & ->)]; [by apply (Hc a)|cbn; lia]. Qed.
Lemma held_le deleted vs a : values_ok vs → held deleted vs a ≤ map_sum (worth deleted) vs.
Proof.
  intros Hv. assert (∀ b w, vs !! b = Some w → 0 ≤ worth deleted b w) as Hn.
  { intros b w Hw. unfold worth. case_match; [by eapply Hv|done]. }
  unfold held. destruct (vs !! a) as [v|] eqn:E; cbn [default]; [by apply map_sum_le|].
  rewrite worth_default. by apply map_sum_nonneg.
Qed.

Section Spec.
Context (t : SilubiumTransaction) (transfers : list TransferInfo) (deleted : gset Address) (s : SilubiumState G).
Hypothesis Hcoins : coins_ok s.
Hypothesis Htransfers : transfers_ok transfers.
Hypothesis Hstake : stake t transfers deleted s ≤ INT64_MAX.
Abbreviation vs := (selectionVin t transfers s).1.
Abbreviation pm := (calculatePlusAndMinus transfers).

Lemma vs_spec : same_coins s (selectionVin t transfers s).2 ∧ selected t s vs ∧ values_ok vs ∧ dom vs ⊆ parties transfers.
Proof.
  pose proof (selectionVin_spec t s transfers) as Hs. destruct (selectionVin t transfers s) as [vs' s']. cbn.
  destruct Hs as (? & Hsel & ?). split_and!; try done. by eapply selected_values.
Qed.
Lemma pm_spec : pm_ok (sum_of ti_value transfers) pm ∧ dom pm = parties transfers.
Proof. destruct Htransfers as [? ?]. apply calculatePlusAndMinus_ok; [done|lia]. Qed.
Lemma pm_range a p q : (a, (p, q)) ∈ ordered pm → 0 ≤ held deleted vs a ∧ 0 ≤ p ∧ 0 ≤ q ∧ held deleted vs a + p < 2 ^ 256.
Proof.
  intros Hx%elem_of_ordered. destruct vs_spec as (_ & _ & Hv & _), pm_spec as [Hpm _].
  pose proof (pm_ok_le _ _ _ _ Hpm Hx) as [Hp _]. destruct Hpm as (_ & _ & Hn). destruct (Hn a _ Hx). cbn in *.
  pose proof (held_nonneg deleted _ a Hv). pose proof (held_le deleted _ a Hv). unfold stake, INT64_MAX in Hstake.
  destruct Htransfers as [_ ?]. lia.
Qed.
Lemma sum_net : sum_of (net deleted vs) (ordered pm) = stake t transfers deleted s.
Proof.
  destruct vs_spec as (_ & _ & _ & Hd), pm_spec as [(H1 & H2 & _) Hdom].
  assert (sum_of (net deleted vs) (ordered pm) =
    sum_of (held deleted vs) (ordered pm).*1 + sum_of (λ x, x.2.1) (ordered pm) - sum_of (λ x, x.2.2) (ordered pm)) as ->.
  { rewrite sum_of_fmap. unfold net. induction (ordered pm) as [|x l IH]; [done|]. rewrite !sum_of_cons, IH. lia. }
  rewrite (sum_ordered (λ _ x, x.1)), (sum_ordered (λ _ x, x.2)), H1, H2.
  rewrite sum_held; [unfold stake; lia|apply NoDup_ordered|]. rewrite <- Hdom in Hd. intros a Ha. apply Hd in Ha.
  apply elem_of_dom in Ha as [x Hx]. rewrite elem_of_list_to_set. apply elem_of_ordered in Hx. by apply (list_elem_of_fmap_2 fst _ (a, x)).
Qed.

Lemma balances_spec :
  let '(ok, vs', bs) := create_balances deleted (ordered pm) vs ∅ in
  if ok then
    can_pay t transfers deleted s ∧ dom bs = parties transfers ∧ map_sum (λ _ b, b) bs = stake t transfers deleted s ∧
    (∀ a b, bs !! a = Some b → 0 ≤ b ≤ INT64_MAX) ∧
    (∀ a p q, pm !! a = Some (p, q) → bs !! a = Some (held deleted vs a + p - q)) ∧
    values_ok vs' ∧ map_sum (worth deleted) vs' = stake t transfers deleted s ∧
    ∀ a v, vs' !! a = Some v → 0 < vin_value v → origin t s a v
  else ¬ can_pay t transfers deleted s.
Proof.
  destruct vs_spec as (_ & Hsel & Hv & Hd), pm_spec as [Hpm Hdom].
  pose proof (create_balances_spec deleted (ordered pm) vs ∅ (NoDup_ordered _) pm_range (λ a _, lookup_empty a)) as Hb.
  destruct (create_balances deleted (ordered pm) vs ∅) as [[ok vs'] bs].
  assert (affordable deleted vs (ordered pm) ↔ can_pay t transfers deleted s) as Haff.
  { unfold affordable, can_pay. setoid_rewrite elem_of_ordered. done. }
  destruct ok; [|by rewrite <- Haff]. destruct Hb as (B1 & B2 & B3 & B4 & B5 & B6).
  assert (∀ a p q, pm !! a = Some (p, q) → bs !! a = Some (held deleted vs a + p - q)) as Hbs.
  { intros a p q Hx%elem_of_ordered. by apply (B2 (a, (p, q))). }
  assert (∀ a, bs !! a = None ↔ pm !! a = None) as Hnone.
  { intros a. destruct (pm !! a) as [[p q]|] eqn:E; [rewrite (Hbs _ _ _ E); naive_solver|]. split; [done|]. intros _.
    rewrite B3; [apply lookup_empty|]. intros ([b x] & -> & Hx)%list_elem_of_fmap. apply elem_of_ordered in Hx. cbn in E. by rewrite E in Hx. }
  assert (∀ a b, bs !! a = Some b → 0 ≤ b) as Hnn.
  { intros a b Hb. destruct (pm !! a) as [[p q]|] eqn:E; [|apply Hnone in E; congruence].
    rewrite (Hbs _ _ _ E) in Hb. injection Hb as <-. apply Haff in B1. specialize (B1 a p q E). lia. }
  split_and!; try done.
  - by apply Haff.
  - rewrite <- Hdom. apply set_eq. intros a. rewrite !elem_of_dom, <- !not_eq_None_Some. by rewrite Hnone.
  - rewrite B4, map_sum_empty. apply sum_net.
  - intros a b Hb. split; [by eapply Hnn|]. etransitivity; [apply (map_sum_le (λ _ b, b) bs a b Hnn Hb)|].
    rewrite B4, map_sum_empty, Z.add_0_l, sum_net. done.
  - intros a v. rewrite B5. case_bool_decide; [|apply Hv]. intros [= <-].
    destruct (vs !! a) as [w|] eqn:E; cbn; [by apply (Hv a)|done].
  - intros a v. rewrite B5. case_bool_decide; [|intros; by apply Hsel]. intros [= <-].
    destruct (vs !! a) as [w|] eqn:E; cbn; [intros; by apply Hsel|lia].
Qed.
End Spec.

(** The outputs of a transaction that is not cut off. *)
Definition pays (g : G) (ctx : CondensingTX) (outs : list CTxOut) : Prop :=
  ∀ a b, balances ctx !! a = Some b → 0 < b →
    ∃ k : nat, nVouts ctx !! a = Some (Z.of_nat k) ∧ outs !! k = Some (mk_txout b (account_script g a)).
Lemma sum_pos_nil {A} (f : A → Z) l : (∀ x, x ∈ l → 0 < f x) → sum_of f l = 0 → l = [].
Proof.
  destruct l as [|x l]; [done|]. intros Hf Hs. rewrite sum_of_cons in Hs. pose proof (Hf x (list_elem_of_here _ _)).
  enough (0 ≤ sum_of f l) by lia. apply sum_of_nonneg. intros y Hy. specialize (Hf y (list_elem_of_further _ _ _ Hy)). lia.
Qed.
Lemma spent_pos deleted vs v : v ∈ spent_vins deleted vs → ∃ a, vs !! a = Some v ∧ 0 < vin_value v.
Proof.
  intros ([a w] & -> & Hw)%list_elem_of_fmap. apply list_elem_of_In, filter_In in Hw as [Hw Hp].
  apply list_elem_of_In, elem_of_ordered in Hw. exists a. cbn in *. split; [done|]. rewrite Z.gtb_ltb in Hp. lia.
Qed.
Lemma create_vout_pos (g : G) l : ∀ count nv outs nv' over,
  (∀ a b, (a, b) ∈ l → 0 ≤ b ≤ INT64_MAX) → create_vout g l count nv = (outs, nv', over) → ∀ o, o ∈ outs → 0 < nValue o.
Proof.
  induction l as [|[a b] l IH]; intros count nv outs nv' over Hb Hl o Ho; cbn [create_vout] in Hl.
  { injection Hl as <- _ _. by apply elem_of_nil in Ho. }
  pose proof (Hb a b (list_elem_of_here _ _)) as Hba. unfold INT64_MAX in *.
  assert (∀ x y, (x, y) ∈ l → 0 ≤ y ≤ 2 ^ 63 - 1) as Hb' by (intros x y Hx; apply (Hb x); by apply list_elem_of_further).
  rewrite (Z.gtb_ltb b) in Hl.
  destruct (Z.ltb_spec 0 b) as [Hpos|Hz].
  - rewrite i64_small in Hl by lia. destruct (_ >? _); [injection Hl as <- _ _; apply list_elem_of_singleton in Ho as ->; done|].
    destruct (create_vout g l _ _) as [[outs1 nv1] over1] eqn:E. injection Hl as <- _ _.
    apply elem_of_cons in Ho as [->|Ho]; [done|]. by eapply IH.
  - destruct (_ >? _); [injection Hl as <- _ _; by apply elem_of_nil in Ho|].
    destruct (create_vout g l _ _) as [[outs1 nv1] over1] eqn:E. injection Hl as <- _ _. by eapply IH.
Qed.

Lemma createCondensingTX_spec t transfers deleted s tx ctx s' :
  coins_ok s → transfers_ok transfers → stake t transfers deleted s ≤ INT64_MAX →
  createCondensingTX t transfers deleted s = (tx, ctx, s') →
  same_coins s s' ∧ (¬ can_pay t transfers deleted s → tx = null_tx) ∧
  (can_pay t transfers deleted s → dom (balances ctx) = parties transfers ∧
    (∀ a p q, calculatePlusAndMinus transfers !! a = Some (p, q) →
       balances ctx !! a = Some (held deleted (selectionVin t transfers s).1 a + p - q)) ∧
    (voutOverflow ctx = false →
      vin tx = spend_vin <$> spent_vins deleted (vins ctx) ∧
      sum_of nValue (vout tx) = sum_of vin_value (spent_vins deleted (vins ctx)) ∧
      (∀ v, v ∈ spent_vins deleted (vins ctx) → ∃ a, origin t s a v) ∧ pays (accounts s) ctx (vout tx))).
Proof.
  intros Hc Ht Hst He. pose proof (balances_spec t transfers deleted s Hc Ht Hst) as Hb.
  destruct (vs_spec t transfers s Hc) as (Hsame & _). unfold createCondensingTX in He.
  destruct (selectionVin t transfers s) as [vs s1] eqn:Esel. cbn [fst snd] in *.
  destruct (create_balances deleted (ordered (calculatePlusAndMinus transfers)) vs ∅) as [[[] vs'] bs].
  2: { injection He as <- <- <-. split_and!; [done|done|intros Hcp; by apply Hb in Hcp]. }
  destruct Hb as (Hpay & Hdom & Hsum & Hrange & Hbal & Hv & Hworth & Horig).
  destruct Hsame as (Hacc & Hsame). rewrite Hacc in He.
  destruct (create_vout (accounts s) (ordered bs) 0 ∅) as [[outs nv] over] eqn:Ev. injection He as <- <- <-.
  cbn [balances voutOverflow vins nVouts]. split; [done|]. split; [done|]. intros _. split; [done|]. split; [done|]. intros ->.
  assert (∀ a b, (a, b) ∈ ordered bs → 0 ≤ b ≤ INT64_MAX) as Hrange' by (intros a b Hx%elem_of_ordered; by apply (Hrange a)).
  pose proof (create_vout_pos _ _ _ _ _ _ _ Hrange' Ev) as Hpos.
  apply create_vout_spec in Ev as (_ & Eout & _ & Epay); [|unfold MAX_CONTRACT_VOUTS; lia|apply NoDup_ordered|done].
  assert (sum_of nValue outs = sum_of vin_value (spent_vins deleted vs')) as Heq.
  { rewrite sum_spent, Hworth, Eout, <- Hsum by done. apply (sum_ordered (λ _ b, b)). }
  assert (∀ v, v ∈ spent_vins deleted vs' → ∃ a, origin t s a v) as Hor.
  { intros v (a & Ha & Hp)%spent_pos. exists a. by apply Horig. }
  assert (∀ tx', vin tx' = spend_vin <$> spent_vins deleted vs' → vout tx' = outs →
    vin tx' = spend_vin <$> spent_vins deleted vs' ∧ sum_of nValue (vout tx') = sum_of vin_value (spent_vins deleted vs') ∧
    (∀ v, v ∈ spent_vins deleted vs' → ∃ a, origin t s a v) ∧ pays (accounts s) (mk_ctx (calculatePlusAndMinus transfers) bs nv vs' false) (vout tx')) as Hfin.
  { intros tx' H1 H2. rewrite H2. split_and!; try done. intros a b Hx%elem_of_ordered Hp. by apply Epay. }
  rewrite createVins_spent. destruct (spent_vins deleted vs') as [|v0 l0] eqn:Esp.
  - cbn in Heq. apply sum_pos_nil in Heq; [|done]. subst outs. by apply Hfin.
  - destruct outs as [|o outs]; [|by apply Hfin]. symmetry in Heq. rewrite <- Esp in Heq. apply sum_pos_nil in Heq; [congruence|].
    intros v (a & _ & Hp)%spent_pos. done.
Qed.
End Condense.

(** ** Main statements *)

(** C6: the condensing transaction conserves value.  When every account can pay
    what it sends and the outputs are not too many, the transaction spends exactly
    the recorded coins of the accounts involved and the output of the call, and its
    outputs are worth as much as its inputs; the amounts do not wrap around.  If an
    account cannot pay there is no transaction. *)
Theorem condensing_conserves (C : Crypto) (G : Type) (HG : Executive G) t transfers deleted (s s' : SilubiumState G) tx ctx :
  coins_ok s → transfers_ok transfers → stake t transfers deleted s ≤ INT64_MAX →
  createCondensingTX t transfers deleted s = (tx, ctx, s') →
  (¬ can_pay t transfers deleted s → tx = null_tx) ∧
  (can_pay t transfers deleted s → voutOverflow ctx = false →
    vin tx = spend_vin <$> spent_vins deleted (vins ctx) ∧ (∀ v, v ∈ spent_vins deleted (vins ctx) → ∃ a, origin t s a v) ∧
    sum_of nValue (vout tx) = sum_of vin_value (spent_vins deleted (vins ctx))).
Proof.
  intros Hc Ht Hst He. destruct (createCondensingTX_spec t transfers deleted s tx ctx s' Hc Ht Hst He) as (_ & Hno & Hyes).
  split; [done|]. intros Hp Ho. destruct (Hyes Hp) as (_ & _ & Hx). destruct (Hx Ho) as (? & ? & ? & _). done.
Qed.

(** C24: the record of coins follows the transaction.  When every account can pay what
    it sends, the coins are worth at most the largest amount and the outputs are not
    too many: the committed record of every account that took part, other than the
    sender, points at the output of the condensing transaction that pays it its new
    balance (what it held, plus what it received, minus what it sent), or is empty
    when that is zero.  The sender, which [createVin] leaves out, and the accounts that
    took no part keep their living record, even when the sender receives value. *)
Theorem contract_coins_tracked (C : Crypto) (G : Type) (HG : Executive G) env t transfers deleted (s s' : SilubiumState G) tx ctx :
  coins_ok s → trie_ok s → transfers_ok transfers → stake t transfers deleted s ≤ INT64_MAX →
  can_pay t transfers deleted s → createCondensingTX t transfers deleted s = (tx, ctx, s') → voutOverflow ctx = false →
  let after := vin_of (commit_state env (updateUTXO s' (createVin t ctx tx))) in
  (∀ a p q, calculatePlusAndMinus transfers !! a = Some (p, q) → a ≠ sender t →
    let b := held deleted (selectionVin t transfers s).1 a + p - q in
    if decide (b = 0) then after a = None
    else ∃ k : nat, after a = Some (mk_vin (GetHash tx) (Z.of_nat k) b 1) ∧ vout tx !! k = Some (mk_txout b (account_script (accounts s) a))) ∧
  ∀ a, a ∉ parties transfers ∨ a = sender t → after a = living (vin_of s a).
Proof.
  intros Hc Htr Ht Hst Hp He Ho after.
  destruct (createCondensingTX_spec t transfers deleted s tx ctx s' Hc Ht Hst He) as ((_ & Htrie & _ & Hsame) & _ & Hyes).
  destruct (Hyes Hp) as (Hdom & Hbal & Hx). destruct (Hx Ho) as (_ & _ & _ & Hpays).
  assert (∀ a, after a = living (match createVin t ctx tx !! a with Some v => assign v (vin_of s a) | None => vin_of s a end)) as Hafter.
  { intros a. unfold after. destruct (updateUTXO_spec s' (createVin t ctx tx) a) as (U1 & U2 & _).
    destruct (commit_state_spec env (updateUTXO s' (createVin t ctx tx)) a) as [-> _]; [unfold trie_ok; by rewrite U2, Htrie|].
    rewrite U1. by rewrite Hsame. }
  split.
  - intros a p q Ha Hs b. specialize (Hbal a p q Ha). specialize (Hp a p q Ha). specialize (Hpays a b Hbal).
    rewrite Hafter, createVin_spec, bool_decide_eq_false_2, Hbal by done. cbn [mbind option_bind]. fold b.
    case_decide as Hb; rewrite Z.gtb_ltb.
    + rewrite (proj2 (Z.ltb_ge 0 b)) by lia. by destruct (vin_of s a).
    + destruct Hpays as (k & Hk1 & Hk2); [lia|]. rewrite (proj2 (Z.ltb_lt 0 b)), Hk1 by lia. cbn [default].
      exists k. split; [|done]. by destruct (vin_of s a).
  - intros a Ha. rewrite Hafter, createVin_spec. case_bool_decide as Hs; [done|]. destruct Ha as [Ha|]; [|done]. rewrite <- Hdom, not_elem_of_dom in Ha. by rewrite Ha.
Qed.

(** ** Witnesses *)

(** The sample call, from an account without a record to a contract that holds
    300 and pays 250 to another key. *)
Definition held_state : SilubiumState unit :=
  mk_state tt ∅ {[ contract_address := mk_vin (replicate 32 4) 2 300 1 ]} {[ caller ]}.
Definition payee : Address := replicate 20 9.
Definition sample_transfers : list TransferInfo :=
  [mk_transfer caller contract_address 700; mk_transfer contract_address payee 250].
Definition condensed : CTransaction * CondensingTX * SilubiumState unit :=
  createCondensingTX (H:=toy_executive) sample_call sample_transfers {[ caller ]} held_state.

Lemma held_state_ok : coins_ok held_state ∧ trie_ok held_state.
Proof.
  split; intros a v; unfold vin_of; cbn; rewrite ?lookup_empty; intros [<- <-]%lookup_singleton_Some; cbn; lia.
Qed.
Lemma sample_transfers_ok : transfers_ok sample_transfers.
Proof. split; [repeat constructor; cbn; lia|vm_compute; reflexivity]. Qed.
Lemma sample_stake : stake sample_call sample_transfers {[ caller ]} held_state = 1000.
Proof. vm_compute. reflexivity. Qed.
Lemma sample_can_pay : can_pay sample_call sample_transfers {[ caller ]} held_state.
Proof.
  intros a p q Ha. apply elem_of_map_to_list in Ha. vm_compute in Ha.
  repeat (apply elem_of_cons in Ha as [Ha|Ha]; [injection Ha as -> -> ->; vm_compute; discriminate|]). by apply elem_of_nil in Ha.
Qed.
Lemma condensed_parts : condensed = (condensed.1.1, condensed.1.2, condensed.2).
Proof. by destruct condensed as [[]]. Qed.
Lemma condensed_fits : voutOverflow condensed.1.2 = false ∧ sum_of vin_value (spent_vins {[ caller ]} (vins condensed.1.2)) = 1000.
Proof. vm_compute. done. Qed.
Lemma condensing_conserves_witness : sum_of nValue (vout condensed.1.1) = 1000.
Proof.
  destruct condensed_fits as [Ho Hs]. rewrite <- Hs.
  apply (condensing_conserves toy_crypto unit toy_executive sample_call sample_transfers {[ caller ]} held_state condensed.2 condensed.1.1 condensed.1.2
    (proj1 held_state_ok) sample_transfers_ok); [by rewrite sample_stake|exact condensed_parts|exact sample_can_pay|exact Ho].
Defined.
Lemma contract_coins_tracked_witness :
  ∃ k, vin_of (commit_state (H:=toy_executive) (mk_env 1 0 0 [] 0 zero_address)
         (updateUTXO condensed.2 (createVin (C:=toy_crypto) sample_call condensed.1.2 condensed.1.1))) contract_address
       = Some (mk_vin (GetHash (H:=toy_crypto) condensed.1.1) k 750 1).
Proof.
  destruct (contract_coins_tracked toy_crypto unit toy_executive (mk_env 1 0 0 [] 0 zero_address) sample_call sample_transfers
    {[ caller ]} held_state condensed.2 condensed.1.1 condensed.1.2 (proj1 held_state_ok) (proj2 held_state_ok) sample_transfers_ok) as [Ht _];
    [by rewrite sample_stake|exact sample_can_pay|exact condensed_parts|exact (proj1 condensed_fits)|].
  destruct (Ht contract_address 700 250) as (k & Hk & _); [vm_compute; reflexivity|vm_compute; discriminate|].
  exists (Z.of_nat k). exact Hk.
Defined.
