(* ===== verification/ConnectBlock.v ===== *)
(** * Connecting a block (validation.cpp)

    [ConnectBlock] with the checks of inputs and scripts, the execution of
    contracts and the comparison with the block the contracts imply.  It runs in a
    monad of errors over the state it changes: the view of the coins, the coins of
    the tip that the header check reads, the contract state, the caches of the
    deployments and the size limits.  Values that contracts govern, the scripts of
    past stakers, the caches of verified scripts and the writing of undo data are
    arguments. *)
From stdpp Require Import strings.
From S2P Require Import Prelude ArithUint256 Script Interpreter Serialize Transaction SigHash Standard Coins Block Chain TxVerify Pow Pos VersionBits Activate BlockChecks Headers Contracts ContractState.
Import BaseUint.

(** ** The monad *)

(** [rejected]: what the validation state records; [aborted]: [AbortNode]. *)
Inductive connect_error := rejected (e : block_reject) | aborted.

Section Monad.
Context {S : Type}.
Definition M (A : Type) : Type := S → result connect_error A * S.
Definition ret {A} (a : A) : M A := λ s, (Ok a, s).
Definition bind {A B} (x : M A) (k : A → M B) : M B :=
  λ s, match x s with (Ok a, s) => k a s | (Err e, s) => (Err e, s) end.
Definition throw {A} (e : connect_error) : M A := λ s, (Err e, s).
Definition reject {A} (e : block_reject) : M A := throw (rejected e).
(** [if (!b) return state.DoS(...)]. *)
Definition guard (b : bool) (e : block_reject) : M unit := if b then ret tt else reject e.
Definition pure {A} (r : result block_reject A) : M A := match r with Ok a => ret a | Err e => reject e end.
(** A result the code has no alternative to. *)
Definition sure {E A} (r : result E A) : M A :=
  match r with Ok a => ret a | Err _ => reject (crash assertion_failed) end.
Definition get : M S := λ s, (Ok s, s).
Definition modify (f : S → S) : M unit := λ s, (Ok tt, f s).
End Monad.
Arguments M S A : clear implicits.
Notation "'let!' x := m 'in' k" := (bind m (λ x, k)) (at level 10, x binder, m at level 100, k at level 200) : cxx_scope.

(** ** State and effects *)

Record connect_state (V T G : Type) := mk_connect {
  view : CCoinsViewCache V; tip_coins : CCoinsViewCache T; contracts : SilubiumState G; deployments : VersionBitsCache; limits : dgp_params
}.
Arguments mk_connect {V T G} _ _ _ _ _.
Arguments view {V T G} _.
Arguments tip_coins {V T G} _.
Arguments contracts {V T G} _.
Arguments deployments {V T G} _.
Arguments limits {V T G} _.

(** A script check that is left to the queue: the coin, the transaction, the
    input and the flags. *)
Record CScriptCheck := mk_check { m_tx_out : CTxOut; ptxTo : CTransaction; nIn : nat; nFlags : Z }.
(** What the loop over the transactions adds up. *)
Record gas_tally := mk_gas { blockGasUsed : Z; gasRefunds : Z; checkVouts : list CTxOut; checkVtx : list CTransaction }.
Record tally := mk_tally {
  nFees : Z; nActualStakeReward : Z; utxo_interest : Z; nSigOpsCost : Z; nValueIn : Z; nValueOut : Z; gas_of : gas_tally;
  vtxundo : list (list Coin); queue : list CScriptCheck
}.
Definition no_tally : tally := mk_tally 0 0 0 0 0 0 (mk_gas 0 0 [] []) [] [].
(** What the block leaves besides the state: the undo data, the change of the
    money supply, the proof hash and the entry of the stake index. *)
Record block_effects := mk_effects { undo_data : list (list Coin); supply_change : Z; hashProof : uint256; stake_index : Z * bytes }.

(** The sizes that are limited. *)
Definition block_size (fAllowWitness : bool) (b : CBlock) : Z :=
  size (SerializeHeader true (header b)) + size (WriteCompactSize (size (vtx b)))
  + foldr (λ tx n, size (SerializeTransaction fAllowWitness tx) + n) 0 (vtx b).
Definition GetBlockWeight (b : CBlock) : Z := block_size false b * (WITNESS_SCALE_FACTOR - 1) + block_size true b.

Definition REJECT_NONSTANDARD : Z := 0x40.
Definition STANDARD_NOT_MANDATORY_VERIFY_FLAGS : Z :=
  SCRIPT_VERIFY_DERSIG |' SCRIPT_VERIFY_STRICTENC |' SCRIPT_VERIFY_MINIMALDATA |' SCRIPT_VERIFY_NULLDUMMY
  |' SCRIPT_VERIFY_DISCOURAGE_UPGRADABLE_NOPS |' SCRIPT_VERIFY_CLEANSTACK |' SCRIPT_VERIFY_MINIMALIF |' SCRIPT_VERIFY_NULLFAIL
  |' SCRIPT_VERIFY_CHECKLOCKTIMEVERIFY |' SCRIPT_VERIFY_CHECKSEQUENCEVERIFY |' SCRIPT_VERIFY_LOW_S |' SCRIPT_VERIFY_WITNESS
  |' SCRIPT_VERIFY_DISCOURAGE_UPGRADABLE_WITNESS_PROGRAM |' SCRIPT_VERIFY_WITNESS_PUBKEYTYPE |' SCRIPT_VERIFY_CONST_SCRIPTCODE.
Definition BIP34_IMPLIES_BIP30_LIMIT : Z := 1983702.

(** ** What the functions read but do not change *)

(** [verified]: the script execution cache holds the entry of a transaction and
    flags.  [sig_ok] is [CPubKey::Verify].  [active_height] is the height of the
    active chain, [threads] whether script checks are queued.  The gas schedule and
    the limits are those that contracts govern; [mpos_scripts] answers
    [GetMPoSOutputScripts]; [undo_written] is whether the undo data could be
    written; [reset_roots] puts the contract state back to a block. *)
Record environment (G : Type) := mk_environment {
  verified : uint256 → Z → bool; sig_ok : bytes → uint256 → bytes → bool; failed_stack : stack_t → CScript → stack_t;
  active_height : Z; nFixUTXOCacheHFHeight : Z; threads : bool;
  gas_schedule : SilubiumState G → Z → SilubiumState G;
  getBlockSize : SilubiumState G → Z → Z; getMinGasPrice : SilubiumState G → Z → Z; getBlockGasLimit : SilubiumState G → Z → Z;
  checkpoints : MapCheckpoints; fCheckpointsEnabled : bool;
  spent_coin : uint256 → COutPoint → option Coin; recover : uint256 → bytes → Z → bool → option bytes;
  initial_download : bool; adjusted_time : Z;
  hashAssumeValid : uint256; best_header : option uint256; nMinimumChainWork : base_uint;
  BIP16Exception : uint256; BIP34Hash : uint256; testnet : bool; mpos_scripts : Z → option (list CScript);
  undo_written : bool; reset_roots : SilubiumState G → uint256 → SilubiumState G
}.
Arguments verified {G} _ _ _.
Arguments sig_ok {G} _ _ _ _.
Arguments failed_stack {G} _ _ _.
Arguments active_height {G} _.
Arguments nFixUTXOCacheHFHeight {G} _.
Arguments threads {G} _.
Arguments gas_schedule {G} _ _ _.
Arguments getBlockSize {G} _ _ _.
Arguments getMinGasPrice {G} _ _ _.
Arguments getBlockGasLimit {G} _ _ _.
Arguments checkpoints {G} _.
Arguments fCheckpointsEnabled {G} _.
Arguments spent_coin {G} _ _ _.
Arguments recover {G} _ _ _ _ _.
Arguments initial_download {G} _.
Arguments adjusted_time {G} _.
Arguments hashAssumeValid {G} _.
Arguments best_header {G} _.
Arguments nMinimumChainWork {G} _.
Arguments BIP16Exception {G} _.
Arguments BIP34Hash {G} _.
Arguments testnet {G} _.
Arguments mpos_scripts {G} _ _.
Arguments undo_written {G} _.
Arguments reset_roots {G} _ _ _.

Section Connect.
Context `{C : Crypto} {V : Type} `{CoinsView V} {T : Type} `{CoinsView T} {G : Type} `{Executive G}.
Abbreviation state := (connect_state V T G).
Abbreviation CM := (M state).

Definition set_view (s : state) (c : CCoinsViewCache V) : state := mk_connect c (tip_coins s) (contracts s) (deployments s) (limits s).
Definition set_tip_coins (s : state) (c : CCoinsViewCache T) : state := mk_connect (view s) c (contracts s) (deployments s) (limits s).
Definition set_contracts (s : state) (g : SilubiumState G) : state := mk_connect (view s) (tip_coins s) g (deployments s) (limits s).
Definition set_deployments (s : state) (v : VersionBitsCache) : state := mk_connect (view s) (tip_coins s) (contracts s) v (limits s).
Definition set_limits (s : state) (d : dgp_params) : state := mk_connect (view s) (tip_coins s) (contracts s) (deployments s) d.

(** Operations on the coins of the view: total ones, checks, and ones that must
    succeed. *)
Definition on_view {A} (f : CCoinsViewCache V → A * CCoinsViewCache V) : CM A :=
  λ s, let '(a, c) := f (view s) in (Ok a, set_view s c).
Definition check_view {A} (f : CCoinsViewCache V → result block_reject A * CCoinsViewCache V) : CM A :=
  λ s, let '(r, c) := f (view s) in
       (match r with Ok a => Ok a | Err e => Err (rejected e) end, set_view s c).
Definition sure_view {E A} (f : CCoinsViewCache V → result E (A * CCoinsViewCache V)) : CM A :=
  λ s, match f (view s) with
       | Ok (a, c) => (Ok a, set_view s c)
       | Err _ => (Err (rejected (crash assertion_failed)), s)
       end.
Definition on_deployments {A} (f : VersionBitsCache → result chain_error (A * VersionBitsCache)) : CM A :=
  λ s, match f (deployments s) with
       | Ok (a, v) => (Ok a, set_deployments s v)
       | Err e => (Err (rejected (crash e)), s)
       end.
Definition on_contracts {A} (f : SilubiumState G → result chain_error (A * SilubiumState G)) : CM A :=
  λ s, match f (contracts s) with
       | Ok (a, g) => (Ok a, set_contracts s g)
       | Err e => (Err (rejected (crash e)), s)
       end.

(** ** Inputs and scripts *)

Context (env : environment G).

Definition run_check (k : CScriptCheck) : bool :=
  let input := nth (nIn k) (vin (ptxTo k)) no_txin in
  is_ok (VerifyScript (TransactionSignatureChecker (sig_ok env) (ptxTo k) (nIn k) (nValue (m_tx_out k)) (Some (Precompute (ptxTo k))))
           (nFlags k) (scriptSig input) (scriptPubKey (m_tx_out k)) (scriptWitness input)).
(** One input, checked now. *)
Definition check_inline (k : CScriptCheck) : result block_reject unit :=
  if run_check k then Ok tt
  else if negb (nFlags k &' STANDARD_NOT_MANDATORY_VERIFY_FLAGS =? 0)
          && run_check (mk_check (m_tx_out k) (ptxTo k) (nIn k) (nFlags k &' u32 (Z.lnot STANDARD_NOT_MANDATORY_VERIFY_FLAGS)))
  then Err (DoS 0 REJECT_NONSTANDARD "non-mandatory-script-verify-flag" false)
  else Err (bad 100 "mandatory-script-verify-flag-failed").
Fixpoint check_scripts (tx : CTransaction) (flags : Z) (defer : bool) (i : nat) (l : list CTxIn) : CM (list CScriptCheck) :=
  match l with
  | [] => ret []
  | txin :: l =>
      let! cn := on_view (λ c, AccessCoin c (prevout txin)) in
      let! _ := guard (negb (IsSpent cn)) (crash assertion_failed) in
      let check := mk_check (out cn) tx i flags in
      let! _ := if defer then ret tt else pure (check_inline check) in
      let! rest := check_scripts tx flags defer (S i) l in
      ret (if defer then check :: rest else rest)
  end.
(** The checks that are left to the queue; [defer] is [pvChecks != nullptr]. *)
Definition CheckInputs (tx : CTransaction) (fScriptChecks : bool) (flags : Z) (defer : bool) : CM (list CScriptCheck) :=
  if IsCoinBase tx || negb fScriptChecks || verified env (GetWitnessHash tx) flags then ret []
  else check_scripts tx flags defer 0 (vin tx).

(** ** One transaction *)

Context (m : BlockMap) (params : consensus_params) (block : CBlock) (pindex : uint256) (entry : CBlockIndex).

Fixpoint prev_heights (l : list CTxIn) : CM (list Z) :=
  match l with
  | [] => ret []
  | i :: l => let! cn := on_view (λ c, AccessCoin c (prevout i)) in
              let! rest := prev_heights l in ret (Coins.nHeight cn :: rest)
  end.
Definition connect_fee (tx : CTransaction) (nLockTimeFlags nFees : Z) : CM Z :=
  if IsCoinBase tx then ret nFees
  else
    let! txfee := check_view (λ c, let '(r, c) := CheckTxInputs c tx (nHeight entry) in (with_tx tx r, c)) in
    let nFees := i64 (nFees + default 0 txfee) in
    let! _ := guard (MoneyRange nFees) (bad 100 "bad-txns-accumulated-fee-outofrange") in
    let! heights := prev_heights (vin tx) in
    let! final := pure (or_crash (SequenceLocks m tx nLockTimeFlags heights pindex)) in
    let! _ := guard final (bad 100 "bad-txns-nonfinal") in
    ret nFees.
Definition connect_sigops (tx : CTransaction) (flags nSigOpsCost : Z) : CM Z :=
  let! cost := sure_view (λ c, GetTransactionSigOpCost c tx flags) in
  let! s := get in
  let total := i64 (nSigOpsCost + cost) in
  let! _ := guard (negb (total >? dgpMaxBlockSigOps (limits s))) (bad 100 "bad-blk-sigops") in
  ret total.
(** The reward a coin stake takes, and the interest its last output claims. *)
Definition interest (tx : CTransaction) (utxo_interest : Z) : Z :=
  if size (vout tx) >? nMPoSRewardRecipients params then
    match back (vout tx) with
    | Some o => match Solver (scriptPubKey o) false, ExtractDestination (scriptPubKey o) with
                | Some (TX_PUBKEY, _), Some _ => nValue o
                | _, _ => utxo_interest
                end
    | None => utxo_interest
    end
  else utxo_interest.
Definition connect_stake (tx : CTransaction) (reward utxo_interest : Z) : CM (Z * Z) :=
  if IsCoinBase tx || negb (IsCoinStake tx) then ret (reward, utxo_interest)
  else
    let! out := sure (GetValueOut tx) in
    let! value := on_view (λ c, GetValueIn c tx) in
    ret (i64 (out - value), interest tx utxo_interest).
(** A contract output is spent by OP_SPEND only. *)
Fixpoint contract_spends (l : list CTxIn) : CM unit :=
  match l with
  | [] => ret tt
  | i :: l =>
      let! _ := if HasOpSpend (scriptSig i) then ret tt
                else let! cn := on_view (λ c, AccessCoin c (prevout i)) in
                     guard (negb (HasOpCreate (scriptPubKey (out cn)) || HasOpCall (scriptPubKey (out cn))))
                       (bad 100 "bad-txns-invalid-contract-spend") in
      contract_spends l
  end.
Definition connect_scripts (tx : CTransaction) (fScriptChecks : bool) (flags : Z) : CM (list CScriptCheck) :=
  if IsCoinBase tx then ret []
  else
    let! checks := CheckInputs tx fScriptChecks flags (negb (HasOpSpend_tx tx || HasCreateOrCall tx) && threads env) in
    let! _ := contract_spends (vin tx) in
    ret checks.
Definition connect_values (tx : CTransaction) (nValueIn nValueOut : Z) : CM (Z * Z) :=
  if IsCoinBase tx then
    let! out := sure (GetValueOut tx) in ret (nValueIn, u64 (nValueOut + out))
  else
    let! value := on_view (λ c, GetValueIn c tx) in
    let! out := sure (GetValueOut tx) in
    ret (u64 (nValueIn + value), u64 (nValueOut + out)).

(** ** Contracts *)

Definition connect_contract (tx : CTransaction) (minGasPrice blockGasLimit : Z) (g : gas_tally) : CM gas_tally :=
  let g := if HasOpSpend_tx tx then g else mk_gas (blockGasUsed g) (gasRefunds g) (checkVouts g) (checkVtx g ++ [tx]) in
  if negb (HasCreateOrCall tx && negb (HasOpSpend_tx tx)) then ret g
  else
    let! sender_ok := sure_view (λ c, CheckSenderScript c tx) in
    let! _ := guard sender_ok (bad 100 "bad-txns-invalid-sender-script") in
    let! calls := sure_view (λ c, extractionSilubiumTransactions (failed_stack env) c tx (vtx block)) in
    match calls with
    | None => reject (bad 100 "bad-tx-bad-contract-format")
    | Some calls =>
        let! _ := guard (CheckMinGasPrice (etp_gasPrice <$> calls.*2) minGasPrice) (bad 100 "bad-tx-low-gas-price") in
        let! value := on_view (λ c, GetValueIn c tx) in
        let! out := sure (GetValueOut tx) in
        let! nonZeroVersion := pure (check_calls minGasPrice blockGasLimit (i64 (value - out)) calls.*1 0 0 false) in
        let! _ := guard (nonZeroVersion || HasOpSpend_tx tx) (bad 100 "bad-tx-improper-version-0") in
        let! prev := match pprev entry with Some q => ret q | None => reject (crash dangling) end in
        let! results := on_contracts (λ e, performByteCode (active_height env) (nFixUTXOCacheHFHeight env) m block blockGasLimit prev e calls.*1) in
        match results with
        | None => reject (bad 100 "bad-tx-unknown-error")
        | Some results =>
            match processingResults calls.*1 results with
            | None => reject (bad 100 "bad-vm-exec-processing")
            | Some b =>
                let used := u64 (blockGasUsed g + usedGas b) in
                let! _ := guard (negb (used >? blockGasLimit)) (bad 1000 "bad-blk-gaslimit") in
                ret (mk_gas used (foldl (λ n o, i64 (n + nValue o)) (gasRefunds g) (refundOutputs b))
                       (checkVouts g ++ refundOutputs b) (checkVtx g ++ valueTransfers b))
            end
        end
    end.

Definition connect_tx (fScriptChecks : bool) (flags nLockTimeFlags minGasPrice blockGasLimit : Z) (tx : CTransaction) (t : tally) : CM tally :=
  let! fees := connect_fee tx nLockTimeFlags (nFees t) in
  let! sigops := connect_sigops tx flags (nSigOpsCost t) in
  let! stake := connect_stake tx (nActualStakeReward t) (utxo_interest t) in
  let! checks := connect_scripts tx fScriptChecks flags in
  let! values := connect_values tx (nValueIn t) (nValueOut t) in
  let! gas := connect_contract tx minGasPrice blockGasLimit (gas_of t) in
  let! spent := sure_view (λ c, UpdateCoins c tx (nHeight entry)) in
  ret (mk_tally fees stake.1 stake.2 sigops values.1 values.2 gas (vtxundo t ++ [spent]) (queue t ++ checks)).
Fixpoint connect_txs (fScriptChecks : bool) (flags nLockTimeFlags minGasPrice blockGasLimit : Z) (txs : list CTransaction) (t : tally) : CM tally :=
  match txs with
  | [] => ret t
  | tx :: txs =>
      let! t := connect_tx fScriptChecks flags nLockTimeFlags minGasPrice blockGasLimit tx t in
      connect_txs fScriptChecks flags nLockTimeFlags minGasPrice blockGasLimit txs t
  end.

(** ** The block *)

(** The limits that depend on contracts; the result is the gas price and limit. *)
Definition read_limits : CM (Z * Z) :=
  let! _ := modify (λ s, set_contracts s (gas_schedule env (contracts s) (nHeight entry + 1))) in
  let! s := get in
  let sizeBlockDGP := getBlockSize env (contracts s) (nHeight entry + 1) in
  let max_size := if sizeBlockDGP =? 0 then dgpMaxBlockSize (limits s) else sizeBlockDGP in
  let d := limits s in
  let! _ := modify (λ s, set_limits s (updateBlockSizeParams
              (mk_dgp (dgpMaxBlockSerSize d) (dgpMaxBlockWeight d) max_size (dgpMaxBlockSigOps d) (dgpMaxProtoMsgLength d) (dgpMaxTxSigOps d))
              max_size)) in
  ret (getMinGasPrice env (contracts s) (nHeight entry + 1), getBlockGasLimit env (contracts s) (nHeight entry + 1)).
Definition check_sizes : CM unit :=
  let! s := get in
  let! _ := guard (negb (bool_decide (vtx block = []) || (size (vtx block) >? dgpMaxBlockSize (limits s))
                         || (block_size false block >? dgpMaxBlockSize (limits s)))) (bad 100 "bad-blk-length") in
  guard (negb (GetBlockWeight block >? dgpMaxBlockWeight (limits s))) (bad 100 "bad-blk-weight").
(** [CheckBlock] once more; a failure that may be corruption aborts the node. *)
Definition recheck (fJustCheck fChecked : bool) : CM unit :=
  let! s := get in
  let version_sw := nVersion_blk (header block) =? SW_VERSION in
  let '(r, c) := (if version_sw then CheckBlockSW else CheckBlock) m params (limits s) (spent_coin env) (recover env) (sig_ok env) (initial_download env) (adjusted_time env)
                   (tip_coins s) fChecked block (negb fJustCheck) (negb fJustCheck) true in
  let! _ := modify (λ s, set_tip_coins s c) in
  match r with
  | Ok _ => ret tt
  | Err (crash e) => reject (crash e)
  | Err e => if version_sw || match e with DoS _ _ _ corruption => corruption | _ => false end then throw aborted else reject e
  end.
(** Whether the scripts have to be verified. *)
Definition need_scripts : result chain_error bool :=
  if IsNull_hash (hashAssumeValid env) then Ok true
  else match m !! hashAssumeValid env with
  | None => Ok true
  | Some _ =>
      let* a := GetAncestor m (hashAssumeValid env) (nHeight entry) in
      if negb (bool_decide (a = Some pindex)) then Ok true
      else match best_header env with
      | None => Err dangling
      | Some h =>
          let* a := GetAncestor m h (nHeight entry) in
          let* best := deref m h in
          if negb (bool_decide (a = Some pindex)) || op_lt (nChainWork best) (nMinimumChainWork env) then Ok true
          else let* t := GetBlockProofEquivalentTime (nPowTargetSpacing (pow_params params)) best entry best in
               Ok (t <=? 60 * 60 * 24 * 7 * 2)
      end
  end.
(** No transaction replaces one with unspent outputs. *)
Fixpoint no_overwrite (l : list COutPoint) : CM unit :=
  match l with
  | [] => ret tt
  | o :: l =>
      let! have := on_view (λ c, HaveCoin c o) in
      let! _ := guard (negb have) (bad 100 "bad-txns-BIP30") in no_overwrite l
  end.
Definition outpoints (tx : CTransaction) : list COutPoint := imap (λ i _, mk_outpoint (GetHash tx) (Z.of_nat i)) (vout tx).
(** [fEnforceBIP30] starts as [!pindex->phashBlock], and the entry has a hash. *)
Definition check_bip30 : CM unit :=
  match pprev entry with
  | None => reject (crash assertion_failed)
  | Some q =>
      let! a := pure (or_crash (GetAncestor m q (BIP34Height params))) in
      let fEnforceBIP30 := false && negb (bool_decide (a = Some (BIP34Hash env))) in
      if fEnforceBIP30 || (nHeight entry >=? BIP34_IMPLIES_BIP30_LIMIT) then no_overwrite (vtx block ≫= outpoints) else ret tt
  end.
Definition script_flags : CM (Z * Z) :=
  let! csv := on_deployments (VersionBitsState m (vb params) (pprev entry) DEPLOYMENT_CSV) in
  let nLockTimeFlags := if bool_decide (csv = ACTIVE) then LOCKTIME_VERIFY_SEQUENCE else 0 in
  let! flags := on_deployments (GetBlockScriptFlags m (vb params) (BIP16Exception env) (BIP66Height params) (BIP65Height params) (Some pindex) entry) in
  ret (flags, nLockTimeFlags).
(** A failing [CheckReward] is reported once more. *)
Definition reward_reject (e : block_reject) : block_reject :=
  match e with
  | DoS level _ _ _ => DoS (level + 100) 0 "" false
  | silent => DoS 100 0 "" false
  | crash e => crash e
  end.
(** The block that the transactions and the contract state imply. *)
Definition expected_header (t : tally) (s : state) : CBlockHeader :=
  let h := header block in
  mk_header (nVersion_blk h) (hashPrevBlock h) (BlockMerkleRoot (mk_block h (checkVtx (gas_of t)))).1 (nTime_blk h) (nBits_blk h) (nNonce h)
    (rootHash (accounts (contracts s))) (utxo_root (stateUTXO (contracts s))) (prevoutStake_blk h) (vchBlockSig h).
Definition check_totals (fJustCheck : bool) (t : tally) : CM unit :=
  let! _ := guard (negb (nFees t <? gasRefunds (gas_of t))) (bad 1000 "bad-blk-fees-greater-gasrefund") in
  let! _ := match CheckReward params (testnet env) (mpos_scripts env) block (nHeight entry) (nFees t) (gasRefunds (gas_of t)) (nActualStakeReward t)
                    (checkVouts (gas_of t)) (utxo_interest t) with
            | Ok _ => ret tt
            | Err e => reject (reward_reject e)
            end in
  let! _ := guard (forallb run_check (queue t)) (bad 100 "block-validation-failed") in
  let! s := get in
  guard (fJustCheck || bool_decide (GetBlockHash (expected_header t s) = GetBlockHash (header block)))
    (bad 100 "incorrect-transactions-or-hashes-block").
(** The key of the staker, for later rewards. *)
Definition stake_key : CM (Z * bytes) :=
  let none := (nHeight entry, replicate 20 0) in
  if IsProofOfStake_header (header block) then
    let! k := pure (or_crash (GetBlockPublicKey block)) in
    ret (match k with Some key => (nHeight entry, CHash160 (default [] (CPubKey key))) | None => none end)
  else ret none.

(** From the transactions on. *)
Definition connect_body (fJustCheck : bool) (minGasPrice blockGasLimit : Z) (proof : uint256) : CM block_effects :=
  let! fScriptChecks := pure (or_crash need_scripts) in
  let! _ := check_bip30 in
  let! f := script_flags in
  let! t := connect_txs fScriptChecks f.1 f.2 minGasPrice blockGasLimit (vtx block) no_tally in
  let! _ := check_totals fJustCheck t in
  if fJustCheck then
    let! _ := modify (λ s, set_contracts s (reset_roots env (contracts s) (default null_hash (pprev entry)))) in
    ret (mk_effects (tail (vtxundo t)) 0 proof (0, []))
  else
    let! _ := if undo_written env then ret tt else throw aborted in
    let! k := stake_key in
    let! _ := modify (λ s, set_view s (SetBestBlock (view s) pindex)) in
    ret (mk_effects (tail (vtxundo t)) (u64 (nValueOut t - nValueIn t)) proof k).
(** [fChecked] is [block.fChecked].  [active_height] is the height of the active
    chain. *)
Definition ConnectBlock (fJustCheck fChecked : bool) : CM block_effects :=
  let! _ := guard (bool_decide (pindex = GetBlockHash (header block))) (crash assertion_failed) in
  let! d := read_limits in
  let! _ := guard (negb (fCheckpointsEnabled env) || CheckHardened (checkpoints env) (nHeight entry) (GetBlockHash (header block)))
              (DoS 100 REJECT_CHECKPOINT "bad-fork-hardened-checkpoint" false) in
  let! _ := check_sizes in
  let! _ := if IsProofOfStake_header (header block) && (nHeight entry >? nEnableHeaderSignatureHeight params)
            then let! ok := on_view (CheckBlockInputPubKeyMatchesOutputPubKey block) in
                 guard ok (bad 100 "bad-blk-coinstake-input-output-mismatch")
            else ret tt in
  let! _ := recheck fJustCheck fChecked in
  let! s := get in
  let! _ := guard ((nVersion_blk (header block) =? SW_VERSION)
                   || bool_decide (default null_hash (pprev entry) = cache_GetBestBlock (view s))) (crash assertion_failed) in
  if bool_decide (GetBlockHash (header block) = hashGenesisBlock params) then
    let! _ := if fJustCheck then ret tt else modify (λ s, set_view s (SetBestBlock (view s) pindex)) in
    ret (mk_effects [] 0 null_hash (0, []))
  else
    let! proof := check_view (λ c, UpdateHashProof params (sig_ok env) m block pindex c) in
    connect_body fJustCheck d.1 d.2 proof.
End Connect.
