(* ===== verification/ConnectBlockFacts.v ===== *)
(** * What connecting a block does to the coins

    Every step of [ConnectBlock] but [UpdateCoins] leaves the coins the view shows
    as they are, so an accepted block changes them as its transactions say; and a
    staked block creates no more than the subsidy. *)
From stdpp Require Import strings.
From S2P Require Import Prelude ArithUint256 Script Interpreter InterpreterFacts Serialize Transaction SigHash Standard Coins CoinsFacts Block Chain ChainFacts TxVerify Pow Pos VersionBits Activate BlockChecks BlockChecksFacts Headers Contracts ContractState ContractsFacts ConnectBlock.

(** ** The monad *)

Section MonadFacts.
Context {S : Type}.
Lemma bind_inv {A B} (x : M S A) (k : A → M S B) s b s' :
  bind x k s = (Ok b, s') → ∃ a s1, x s = (Ok a, s1) ∧ k a s1 = (Ok b, s').
Proof. unfold bind. destruct (x s) as [[a|] s1]; [by eauto|done]. Qed.
Lemma guard_inv (b : bool) e (s s' : S) (u : unit) : guard b e s = (Ok u, s') → b = true ∧ s' = s.
Proof. unfold guard. destruct b; [by intros [= _ <-]|done]. Qed.
Lemma pure_inv {A} (r : result block_reject A) (s s' : S) a : pure r s = (Ok a, s') → r = Ok a ∧ s' = s.
Proof. unfold pure. destruct r; [by intros [= <- <-]|done]. Qed.
Lemma sure_inv {E A} (r : result E A) (s s' : S) a : sure r s = (Ok a, s') → r = Ok a ∧ s' = s.
Proof. unfold sure. destruct r; [by intros [= <- <-]|done]. Qed.
Lemma ret_inv {A} (x : A) (s s' : S) a : ret x s = (Ok a, s') → x = a ∧ s' = s.
Proof. by intros [= <- <-]. Qed.
End MonadFacts.

(** Take apart a run that ended well. *)
Ltac inv_run :=
  repeat match goal with
  | H : bind _ _ _ = (Ok _, _) |- _ => apply bind_inv in H as (? & ? & ? & H)
  | H : guard _ _ _ = (Ok _, _) |- _ => apply guard_inv in H as [? ->]
  | H : pure _ _ = (Ok _, _) |- _ => apply pure_inv in H as [? ->]
  | H : sure _ _ = (Ok _, _) |- _ => apply sure_inv in H as [? ->]
  | H : ret _ _ = (Ok _, _) |- _ => apply ret_inv in H as [? ->]
  | H : get _ = (Ok _, _) |- _ => injection H as <- <-
  | H : modify _ _ = (Ok _, _) |- _ => injection H as ? <-
  | H : reject _ _ = (Ok _, _) |- _ => discriminate H
  | H : throw _ _ = (Ok _, _) |- _ => discriminate H
  end.

(** ** Steps that leave the coins as they are *)

Section Quiet.
Context `{C : Crypto} {V : Type} `{HV : CoinsView V} `{HL : !CoinsViewLaws V} {T : Type} `{HT : CoinsView T} {G : Type} `{HG : Executive G}.
Abbreviation state := (connect_state V T G).
Implicit Types (s : state) (c : CCoinsViewCache V).

Definition keeps s s' : Prop := becomes (view s) (view s') (shows (view s)).
Definition quiet {A} (x : M state A) : Prop := ∀ s a s', cache_ok (view s) → x s = (Ok a, s') → keeps s s'.
Lemma becomes_keep c c1 c2 : becomes c c1 (shows c) → becomes c1 c2 (shows c1) → becomes c c2 (shows c).
Proof. intros Hb Hb'. eapply becomes_trans; [exact Hb|]. eapply becomes_same; [exact Hb'|apply Hb]. Qed.
Lemma keeps_trans s s1 s2 : keeps s s1 → keeps s1 s2 → keeps s s2.
Proof. apply becomes_keep. Qed.

Lemma quiet_ret {A} (a : A) : quiet (ret a).
Proof. intros s b s' Hc [= _ <-]. by apply becomes_refl. Qed.
Lemma quiet_bind {A B} (x : M state A) (k : A → M state B) : quiet x → (∀ a, quiet (k a)) → quiet (bind x k).
Proof.
  intros Hx Hk s b s' Hc (a & s1 & H1 & H2)%bind_inv. pose proof (Hx _ _ _ Hc H1) as Hs. eapply keeps_trans; [exact Hs|].
  eapply Hk; [apply Hs|exact H2].
Qed.
Lemma quiet_throw {A} e : quiet (throw e : M state A).
Proof. by intros s a s' _ [=]. Qed.
Lemma quiet_reject {A} e : quiet (reject e : M state A).
Proof. apply quiet_throw. Qed.
Lemma quiet_guard b e : quiet (guard b e).
Proof. unfold guard. destruct b; [apply quiet_ret|apply quiet_reject]. Qed.
Lemma quiet_pure {A} (r : result block_reject A) : quiet (pure r).
Proof. destruct r; [apply quiet_ret|apply quiet_reject]. Qed.
Lemma quiet_sure {E A} (r : result E A) : quiet (sure r).
Proof. destruct r; [apply quiet_ret|apply quiet_reject]. Qed.
Lemma quiet_get : quiet (get : M state state).
Proof. intros s a s' Hc [= _ <-]. by apply becomes_refl. Qed.
Lemma quiet_modify (f : state → state) : (∀ s, view (f s) = view s) → quiet (modify f).
Proof. intros Hf s a s' Hc [= _ <-]. unfold keeps. rewrite Hf. by apply becomes_refl. Qed.
Lemma quiet_on_view {A} (f : CCoinsViewCache V → A * CCoinsViewCache V) :
  (∀ c, cache_ok c → becomes c (f c).2 (shows c)) → quiet (on_view f).
Proof. intros Hf s a s' Hc Hx. unfold on_view in Hx. specialize (Hf _ Hc). destruct (f (view s)) as [x c']. by injection Hx as _ <-. Qed.
Lemma quiet_check_view {A} (f : CCoinsViewCache V → result block_reject A * CCoinsViewCache V) :
  (∀ c, cache_ok c → becomes c (f c).2 (shows c)) → quiet (check_view f).
Proof. intros Hf s a s' Hc Hx. unfold check_view in Hx. specialize (Hf _ Hc). destruct (f (view s)) as [x c']. by injection Hx as _ <-. Qed.
Lemma quiet_sure_view {E A} (f : CCoinsViewCache V → result E (A * CCoinsViewCache V)) :
  (∀ c a c', cache_ok c → f c = Ok (a, c') → becomes c c' (shows c)) → quiet (sure_view f).
Proof.
  intros Hf s a s' Hc Hx. unfold sure_view in Hx. destruct (f (view s)) as [[x c']|] eqn:Ef; [|done].
  injection Hx as _ <-. by eapply Hf.
Qed.
Lemma quiet_on_deployments {A} (f : VersionBitsCache → result chain_error (A * VersionBitsCache)) : quiet (on_deployments f).
Proof. intros s a s' Hc Hx. unfold on_deployments in Hx. destruct (f _) as [[x v]|]; [|done]. injection Hx as _ <-. by apply becomes_refl. Qed.
Lemma quiet_on_contracts {A} (f : SilubiumState G → result chain_error (A * SilubiumState G)) : quiet (on_contracts f).
Proof. intros s a s' Hc Hx. unfold on_contracts in Hx. destruct (f _) as [[x v]|]; [|done]. injection Hx as _ <-. by apply becomes_refl. Qed.
End Quiet.

Create HintDb quiet.
#[export] Hint Resolve quiet_ret quiet_throw quiet_reject quiet_guard quiet_pure quiet_sure quiet_get quiet_on_deployments quiet_on_contracts : quiet.
(** Split a step into its parts and leave those that touch the view. *)
Ltac quiet_steps :=
  repeat first
    [ progress auto with quiet
    | apply quiet_bind; [|intros ?]
    | match goal with |- quiet (if ?b then _ else _) => destruct b end
    | match goal with |- quiet (match ?x with _ => _ end) => destruct x end ].

(** ** Functions that only look at the coins *)

Section Looks.
Context `{C : Crypto} {V : Type} `{HV : CoinsView V} `{HL : !CoinsViewLaws V}.
Implicit Types c : CCoinsViewCache V.

Lemma AccessCoin_keep c o : cache_ok c → becomes c (AccessCoin c o).2 (shows c).
Proof. intros Hc. by destruct (AccessCoin_shows c o Hc) as (cn & c' & -> & Hb & _). Qed.
Lemma HaveCoin_keep c o : cache_ok c → becomes c (HaveCoin c o).2 (shows c).
Proof. intros Hc. by destruct (HaveCoin_shows c o Hc) as (c' & -> & Hb). Qed.
Lemma GetValueIn_loop l : ∀ c acc,
  cache_ok c →
  let r := foldl (λ r txin, let '(cn, c) := AccessCoin r.2 (prevout txin) in (i64 (r.1 + nValue (out cn)), c)) (acc, c) l in
  becomes c r.2 (shows c) ∧
  ∀ h, 0 ≤ acc → Forall (input_ok (shows c) h) l → acc + value_in (shows c) l ≤ MAX_MONEY → r.1 = acc + value_in (shows c) l.
Proof.
  assert (MAX_MONEY < 2 ^ 62) as Hmax by done.
  induction l as [|i l IH]; intros c acc Hc; cbn [foldl].
  { split; [by apply becomes_refl|]. intros. cbn. lia. }
  destruct (AccessCoin_shows c (prevout i) Hc) as (cn & c1 & Ha & Hb & Hcn). cbn [fst snd]. rewrite Ha.
  destruct (IH c1 (i64 (acc + nValue (out cn)))) as [Hb' Hv]; [apply Hb|]. split; [by eapply becomes_keep|].
  intros h H0 [(cn' & Hi & Hm & _) Hl]%Forall_cons Hle. rewrite Hcn in Hi. destruct (IsSpent cn); [done|]. injection Hi as <-.
  cbn [value_in foldr] in Hle |- *. fold (value_in (shows c) l) in Hle |- *. rewrite Hcn in Hle |- *.
  pose proof (value_in_nonneg _ _ _ Hl). apply MoneyRange_spec in Hm.
  assert (value_in (shows c1) l = value_in (shows c) l) as Heq.
  { unfold value_in. destruct Hb as (_ & _ & _ & Hs). clear -Hs. induction l as [|j l IHl]; [done|]. cbn. by rewrite IHl, (Hs (prevout j)). }
  rewrite (Hv h); rewrite ?Heq, ?i64_small by lia; [lia|lia| |lia].
  eapply Forall_impl; [exact Hl|]. intros j (cj & Hj & ?). exists cj. split; [|done]. destruct Hb as (_ & _ & _ & Hs). by rewrite Hs.
Qed.
Lemma GetValueIn_keep c tx : cache_ok c → becomes c (GetValueIn c tx).2 (shows c).
Proof. intros Hc. unfold GetValueIn. destruct (IsCoinBase tx); [by apply becomes_refl|]. by apply GetValueIn_loop. Qed.
Lemma GetValueIn_exact c tx h :
  cache_ok c → IsCoinBase tx = false → Forall (input_ok (shows c) h) (vin tx) → value_in (shows c) (vin tx) ≤ MAX_MONEY →
  (GetValueIn c tx).1 = value_in (shows c) (vin tx).
Proof.
  intros Hc Hcb Hl Hle. unfold GetValueIn. rewrite Hcb. destruct (GetValueIn_loop (vin tx) c 0 Hc) as [_ Hv].
  by rewrite (Hv h).
Qed.

Lemma p2sh_sigops_keep l : ∀ c n r c', cache_ok c → p2sh_sigops c l n = Ok (r, c') → becomes c c' (shows c).
Proof.
  induction l as [|i l IH]; intros c n r c' Hc Hx; cbn [p2sh_sigops] in Hx; [injection Hx as _ <-; by apply becomes_refl|].
  destruct (AccessCoin_shows c (prevout i) Hc) as (cn & c1 & Ha & Hb & _). rewrite Ha in Hx. destruct (IsSpent cn); [done|].
  eapply becomes_keep; [exact Hb|]. eapply IH; [apply Hb|exact Hx].
Qed.
Lemma witness_sigops_keep l : ∀ c f n r c', cache_ok c → witness_sigops c l f n = Ok (r, c') → becomes c c' (shows c).
Proof.
  induction l as [|i l IH]; intros c f n r c' Hc Hx; cbn [witness_sigops] in Hx; [injection Hx as _ <-; by apply becomes_refl|].
  destruct (AccessCoin_shows c (prevout i) Hc) as (cn & c1 & Ha & Hb & _). rewrite Ha in Hx. destruct (IsSpent cn); [done|].
  destruct (CountWitnessSigOps _ _ _ _); [|done]. eapply becomes_keep; [exact Hb|]. eapply IH; [apply Hb|exact Hx].
Qed.
Lemma sigops_keep c tx f r c' : cache_ok c → GetTransactionSigOpCost c tx f = Ok (r, c') → becomes c c' (shows c).
Proof.
  intros Hc Hx. unfold GetTransactionSigOpCost in Hx. destruct (IsCoinBase tx) eqn:Hcb; [injection Hx as _ <-; by apply becomes_refl|].
  apply rbind_Ok in Hx as ([k c1] & Hp & Hx). assert (becomes c c1 (shows c)) as Hb.
  { destruct (negb _); [|injection Hp as _ <-; by apply becomes_refl]. apply rbind_Ok in Hp as ([k' c2] & Hp & [= _ <-]).
    unfold GetP2SHSigOpCount in Hp. rewrite Hcb in Hp. by eapply p2sh_sigops_keep. }
  eapply becomes_keep; [exact Hb|]. eapply witness_sigops_keep; [apply Hb|exact Hx].
Qed.

(** [CheckTxInputs] of any transaction but a coinbase. *)
Lemma CheckTxInputs_shows c tx h :
  cache_ok c → IsCoinBase tx = false →
  ∃ r c', CheckTxInputs c tx h = (r, c') ∧ becomes c c' (shows c) ∧
    ∀ x, r = Ok x → Forall (input_ok (shows c) h) (vin tx) ∧ value_in (shows c) (vin tx) ≤ MAX_MONEY ∧
                    tally_fee tx (value_in (shows c) (vin tx)) = Ok x.
Proof.
  intros Hc Hcb. unfold CheckTxInputs, HaveInputs. rewrite Hcb.
  destruct (have_inputs_shows (vin tx) c (shows c) Hc) as (b & c1 & -> & Hb & _); [done|]. pose proof Hb as (Hc1 & _ & _ & Hs1).
  destruct b; cbn [negb]; [|by do 2 eexists].
  destruct (check_inputs_shows h (vin tx) c1 (shows c) 0) as (r & c2 & -> & Hb2 & Hv); [done|done|done|].
  do 2 eexists. split; [done|]. split; [by eapply becomes_trans|]. intros x (v & Hr & Ht)%rbind_Ok.
  apply Hv in Hr as (Hin & -> & Hle). by split_and!.
Qed.
Lemma CheckSenderScript_keep c tx b c' : cache_ok c → CheckSenderScript c tx = Ok (b, c') → becomes c c' (shows c).
Proof.
  intros Hc Hx. unfold CheckSenderScript in Hx. destruct (vin tx) as [|i l]; [done|].
  destruct (AccessCoin_shows c (prevout i) Hc) as (cn & c1 & Ha & Hb & _). rewrite Ha in Hx. by injection Hx as _ <-.
Qed.
Lemma createEthTX_keep c op tx btxs p i o t c' : cache_ok c → createEthTX c op tx btxs p i o = Ok (t, c') → becomes c c' (shows c).
Proof.
  intros Hc Hx. unfold createEthTX, GetSenderAddress, sender_script in Hx. destruct (vin tx) as [|j l]; [done|].
  destruct (List.find _ _).
  - destruct (vout c0 !! _); [|done]. cbn in Hx. injection Hx as _ <-. by apply becomes_refl.
  - destruct (AccessCoin_shows c (prevout j) Hc) as (cn & c1 & Ha & Hb & _). rewrite Ha in Hx. cbn in Hx. by injection Hx as _ <-.
Qed.
Lemma extraction_keep fs outs : ∀ c tx btxs i st r c', cache_ok c → extraction_loop fs c tx btxs i outs st = Ok (r, c') → becomes c c' (shows c).
Proof.
  induction outs as [|o outs IH]; intros c tx btxs i st r c' Hc Hx; cbn [extraction_loop] in Hx; [injection Hx as _ <-; by apply becomes_refl|].
  destruct (_ || _); [|by eapply IH]. apply rbind_Ok in Hx as ([[op st']|] & _ & Hx); [|injection Hx as _ <-; by apply becomes_refl].
  destruct (parseEthTXParams _ _) as [[p st'']|]; [|injection Hx as _ <-; by apply becomes_refl].
  apply rbind_Ok in Hx as ([t c1] & Ht & Hx). apply rbind_Ok in Hx as ([q c2] & Hq & [= _ <-]).
  apply createEthTX_keep in Ht; [|done]. eapply becomes_keep; [exact Ht|]. eapply IH; [apply Ht|exact Hq].
Qed.
Lemma input_output_keep b c : cache_ok c → becomes c (CheckBlockInputPubKeyMatchesOutputPubKey b c).2 (shows c).
Proof.
  intros Hc. unfold CheckBlockInputPubKeyMatchesOutputPubKey.
  destruct (GetCoin_shows c (prevoutStake_blk (header b)) Hc) as (c' & -> & Hb). done.
Qed.
Lemma UpdateHashProof_keep params sig m b p c : cache_ok c → becomes c (UpdateHashProof params sig m b p c).2 (shows c).
Proof.
  intros Hc. unfold UpdateHashProof. destruct (rbind (or_crash (deref m p)) _) as [e|]; [|by apply becomes_refl].
  destruct (_ && _); [|by apply becomes_refl]. destruct (pprev e) as [q|], (vtx b) as [|cb [|cs l]]; try by apply becomes_refl.
  unfold CheckProofOfStake. destruct (IsCoinStake cs); [|by apply becomes_refl]. destruct (vin cs) as [|i ins]; [by apply becomes_refl|].
  destruct (GetCoin_shows c (prevout i) Hc) as (c' & -> & Hb). case_match; case_match; naive_solver.
Qed.
End Looks.

(** ** The steps of a transaction *)

Section Steps.
Context `{C : Crypto} {V : Type} `{HV : CoinsView V} `{HL : !CoinsViewLaws V} {T : Type} `{HT : CoinsView T} {G : Type} `{HG : Executive G}.
Context (env : environment G) (m : BlockMap) (params : consensus_params) (block : CBlock) (pindex : uint256) (entry : CBlockIndex).
Abbreviation state := (connect_state V T G).
Implicit Types s : state.
#[local] Hint Resolve AccessCoin_keep HaveCoin_keep GetValueIn_keep input_output_keep : core.

Lemma quiet_access o : quiet (on_view (λ c, AccessCoin c o) : M state Coin).
Proof. apply quiet_on_view. auto. Qed.
#[local] Hint Resolve quiet_access : quiet.
Lemma quiet_prev_heights l : quiet (prev_heights l : M state (list Z)).
Proof. induction l as [|i l IH]; cbn [prev_heights]; quiet_steps. Qed.
Lemma quiet_contract_spends l : quiet (contract_spends l : M state unit).
Proof. induction l as [|i l IH]; cbn [contract_spends]; quiet_steps. Qed.
Lemma quiet_check_scripts tx flags defer l : ∀ i, quiet (check_scripts env tx flags defer i l : M state (list CScriptCheck)).
Proof. induction l as [|j l IH]; intros i; cbn [check_scripts]; quiet_steps. Qed.
#[local] Hint Resolve quiet_prev_heights quiet_contract_spends quiet_check_scripts : quiet.
Lemma quiet_value_in tx : quiet (on_view (λ c, GetValueIn c tx) : M state Z).
Proof. apply quiet_on_view. auto. Qed.
Lemma quiet_sigops tx flags : quiet (sure_view (λ c, GetTransactionSigOpCost c tx flags) : M state Z).
Proof. apply quiet_sure_view. intros. by eapply sigops_keep. Qed.
#[local] Hint Resolve quiet_value_in quiet_sigops : quiet.

Lemma quiet_connect_sigops tx flags n : quiet (connect_sigops tx flags n : M state Z).
Proof. unfold connect_sigops. quiet_steps. Qed.
Lemma quiet_connect_stake tx r i : quiet (connect_stake params tx r i : M state (Z * Z)).
Proof. unfold connect_stake. quiet_steps. Qed.
Lemma quiet_connect_scripts tx f flags : quiet (connect_scripts env tx f flags : M state (list CScriptCheck)).
Proof. unfold connect_scripts, CheckInputs. quiet_steps. Qed.
Lemma quiet_connect_values tx a b : quiet (connect_values tx a b : M state (Z * Z)).
Proof. unfold connect_values. quiet_steps. Qed.
Lemma quiet_connect_contract tx p l g : quiet (connect_contract env m block entry tx p l g : M state gas_tally).
Proof.
  unfold connect_contract. quiet_steps.
  - apply quiet_sure_view. intros. by eapply CheckSenderScript_keep.
  - apply quiet_sure_view. intros. by eapply extraction_keep.
Qed.
Lemma quiet_no_overwrite l : quiet (no_overwrite l : M state unit).
Proof. induction l as [|o l IH]; cbn [no_overwrite]; quiet_steps. apply quiet_on_view. auto. Qed.
#[local] Hint Resolve quiet_no_overwrite : quiet.
Lemma quiet_check_bip30 : quiet (check_bip30 env m params block entry : M state unit).
Proof. unfold check_bip30. quiet_steps. Qed.
Lemma quiet_script_flags : quiet (script_flags env m params pindex entry : M state (Z * Z)).
Proof. unfold script_flags. quiet_steps. Qed.
Lemma quiet_check_totals j t : quiet (check_totals env params block entry j t : M state unit).
Proof. unfold check_totals. quiet_steps. Qed.
Lemma quiet_recheck j f : quiet (recheck env m params block j f : M state unit).
Proof. unfold recheck. quiet_steps. by apply quiet_modify. Qed.
Lemma quiet_read_limits : quiet (read_limits env entry : M state (Z * Z)).
Proof. unfold read_limits. quiet_steps; by apply quiet_modify. Qed.
Lemma quiet_check_sizes : quiet (check_sizes block : M state unit).
Proof. unfold check_sizes. quiet_steps. Qed.
Lemma quiet_stake_key : quiet (stake_key block entry : M state (Z * bytes)).
Proof. unfold stake_key. quiet_steps. Qed.
End Steps.

(** ** What a transaction adds *)

Section Transactions.
Context `{C : Crypto} {V : Type} `{HV : CoinsView V} `{HL : !CoinsViewLaws V} {T : Type} `{HT : CoinsView T} {G : Type} `{HG : Executive G}.
Context (env : environment G) (m : BlockMap) (params : consensus_params) (block : CBlock) (pindex : uint256) (entry : CBlockIndex).
Abbreviation state := (connect_state V T G).
Implicit Types (s : state) (σ : coins).
Abbreviation height := (nHeight entry).

(** The values of the coins a transaction spends. *)
Definition spent_value σ (tx : CTransaction) : Z := if IsCoinBase tx then 0 else value_in σ (vin tx).
Lemma value_in_same σ τ l : σ ≐ τ → value_in σ l = value_in τ l.
Proof. intros Hs. unfold value_in. induction l as [|i l IH]; [done|]. cbn [foldr]. by rewrite IH, (Hs (prevout i)). Qed.
Lemma input_ok_same σ τ h l : σ ≐ τ → Forall (input_ok σ h) l → Forall (input_ok τ h) l.
Proof. intros Hs Hl. eapply Forall_impl; [exact Hl|]. intros i (cn & Hi & ?). exists cn. split; [by rewrite <- (Hs (prevout i))|done]. Qed.
Lemma sum_undo σ h l : Forall (input_ok σ h) l → sum_of (λ cn, nValue (out cn)) (undo_of σ l) = value_in σ l.
Proof.
  induction 1 as [|i l (cn & Hi & _) _ IH]; [done|]. unfold undo_of. cbn [map]. fold (undo_of σ l).
  rewrite sum_of_cons, IH. cbn [value_in foldr]. by rewrite Hi.
Qed.
Lemma on_view_inv {A} (f : CCoinsViewCache V → A * CCoinsViewCache V) s a s' :
  on_view f s = (Ok a, s') → (f (view s)).1 = a ∧ s' = set_view s (f (view s)).2.
Proof. unfold on_view. destruct (f (view s)). by intros [= <- <-]. Qed.
Lemma GetValueOut_inv tx v :
  GetValueOut tx = Ok v → Forall (λ o, MoneyRange (nValue o) = true) (vout tx) ∧ v = total (vout tx) ∧ 0 ≤ v ≤ MAX_MONEY.
Proof.
  intros Hv. apply (GetValueOut_loop_spec (vout tx) 0) in Hv as (Ho & -> & Hle); [|done].
  pose proof (total_nonneg _ Ho). split_and!; [done|lia..].
Qed.

(** The inputs of a transaction whose fee was accepted. *)
Definition paid_inputs σ (tx : CTransaction) : Prop :=
  IsCoinBase tx = false → Forall (input_ok σ height) (vin tx) ∧ value_in σ (vin tx) ≤ MAX_MONEY.
Lemma paid_inputs_keep s s' tx : keeps s s' → paid_inputs (shows (view s)) tx → paid_inputs (shows (view s')) tx.
Proof.
  intros (_ & _ & _ & Hs) Hp Hcb. destruct (Hp Hcb) as [Hin Hle]. symmetry in Hs. split; [by eapply input_ok_same|].
  by rewrite <- (value_in_same _ _ _ Hs).
Qed.
Lemma connect_fee_spec s tx lf fees fees' s' :
  cache_ok (view s) → 0 ≤ fees ≤ MAX_MONEY → connect_fee m pindex entry tx lf fees s = (Ok fees', s') →
  keeps s s' ∧ 0 ≤ fees' ≤ MAX_MONEY ∧ paid_inputs (shows (view s)) tx ∧
  fees' = if IsCoinBase tx || IsCoinStake tx then fees else fees + value_in (shows (view s)) (vin tx) - total (vout tx).
Proof.
  intros Hc Hf Hx. unfold connect_fee in Hx. destruct (IsCoinBase tx) eqn:Hcb; cbn [orb].
  { apply ret_inv in Hx as [<- ->]. split_and!; [by apply becomes_refl|lia|lia|congruence|done]. }
  apply bind_inv in Hx as (fee & s1 & Hfee & Hx). unfold check_view in Hfee.
  destruct (CheckTxInputs_shows (view s) tx height Hc Hcb) as (r & c1 & Hr & Hb & Hok). rewrite Hr in Hfee.
  destruct r as [x|]; [|done]. injection Hfee as <- <-. destruct (Hok x eq_refl) as (Hin & Hle & Ht). clear Hok Hr.
  apply bind_inv in Hx as ([] & s2 & Hg & Hx). apply guard_inv in Hg as [Hm ->]. apply MoneyRange_spec in Hm.
  apply bind_inv in Hx as (hs & s3 & Hh & Hx). pose proof (quiet_prev_heights (vin tx) (set_view s c1) _ _ (proj1 Hb) Hh) as Hk.
  apply bind_inv in Hx as (fin & s4 & Hs & Hx). apply pure_inv in Hs as [_ ->].
  apply bind_inv in Hx as ([] & s5 & Hg & Hx). apply guard_inv in Hg as [_ ->]. apply ret_inv in Hx as [<- ->].
  split; [exact (becomes_keep _ c1 _ Hb Hk)|]. split; [done|]. split; [done|].
  assert (MAX_MONEY < 2 ^ 62) as Hmax by done. destruct (IsCoinStake tx) eqn:Hcs.
  - unfold tally_fee in Ht. rewrite Hcs in Ht. injection Ht as <-. cbn [from_option id]. rewrite i64_small; lia.
  - unfold tally_fee in Ht. rewrite Hcs in Ht. cbn [negb] in Ht. destruct (GetValueOut tx) as [v|] eqn:Hv; [|done].
    apply GetValueOut_inv in Hv as (_ & -> & Hv). destruct (Z.ltb_spec (value_in (shows (view s)) (vin tx)) (total (vout tx))); [done|].
    cbv zeta in Ht. rewrite i64_small in Ht by lia. destruct (negb _); [done|]. injection Ht as <-. cbn [from_option id] in *.
    rewrite i64_small by lia. lia.
Qed.
Lemma interest_range tx i : 0 ≤ i ≤ MAX_MONEY → Forall (λ o, MoneyRange (nValue o) = true) (vout tx) → 0 ≤ interest params tx i ≤ MAX_MONEY.
Proof.
  intros Hi Ho. unfold interest. destruct (_ >? _); [|done]. destruct (Script.back (vout tx)) as [o|] eqn:Hb; [|done].
  assert (0 ≤ nValue o ≤ MAX_MONEY).
  { apply MoneyRange_spec. rewrite Forall_forall in Ho. apply Ho. unfold Script.back in Hb. by apply last_Some_elem_of. }
  repeat case_match; done.
Qed.
Lemma connect_stake_spec s tx r i r' i' s' :
  cache_ok (view s) → paid_inputs (shows (view s)) tx → 0 ≤ i ≤ MAX_MONEY → connect_stake params tx r i s = (Ok (r', i'), s') →
  0 ≤ i' ≤ MAX_MONEY ∧
  if IsCoinStake tx && negb (IsCoinBase tx) then r' = total (vout tx) - value_in (shows (view s)) (vin tx) ∧ - MAX_MONEY ≤ r' ≤ MAX_MONEY
  else r' = r ∧ i' = i.
Proof.
  intros Hc Hp Hi Hx. unfold connect_stake in Hx. destruct (IsCoinBase tx) eqn:Hcb; cbn [orb negb].
  { rewrite andb_false_r. by apply ret_inv in Hx as [[= <- <-] ->]. }
  destruct (IsCoinStake tx) eqn:Hcs; cbn [negb andb orb] in *; [|by apply ret_inv in Hx as [[= <- <-] ->]].
  inv_run. match goal with Hv : GetValueOut tx = Ok _ |- _ => apply GetValueOut_inv in Hv as (Ho & -> & Hv) end.
  match goal with Hv : on_view _ _ = _ |- _ => apply on_view_inv in Hv as [<- ->] end.
  match goal with Hr : _ = (r', i') |- _ => injection Hr as <- <- end.
  destruct (Hp Hcb) as [Hin Hle]. rewrite (GetValueIn_exact _ _ height) by done.
  pose proof (value_in_nonneg _ _ _ Hin). assert (MAX_MONEY < 2 ^ 62) as Hmax by done.
  rewrite i64_small by lia. split; [by apply interest_range|]. split; [done|lia].
Qed.
Lemma connect_values_spec s tx a b a' b' s' :
  cache_ok (view s) → paid_inputs (shows (view s)) tx → connect_values tx a b s = (Ok (a', b'), s') →
  Forall (λ o, MoneyRange (nValue o) = true) (vout tx) ∧
  u64 (b' - a') = u64 (b - a + (total (vout tx) - spent_value (shows (view s)) tx)).
Proof.
  intros Hc Hp Hx. unfold connect_values in Hx. unfold spent_value. destruct (IsCoinBase tx) eqn:Hcb; inv_run;
    match goal with Hv : GetValueOut tx = Ok _ |- _ => apply GetValueOut_inv in Hv as (Ho & -> & Hv) end;
    match goal with Hr : _ = (a', b') |- _ => injection Hr as <- <- end; (split; [done|]).
  - rewrite u64_sub_l. f_equal. lia.
  - match goal with Hv : on_view _ _ = _ |- _ => apply on_view_inv in Hv as [<- ->] end.
    destruct (Hp Hcb) as [Hin Hle]. rewrite (GetValueIn_exact _ _ height) by done.
    rewrite u64_sub_l, u64_sub_r. f_equal. lia.
Qed.

(** What is known of a transaction before it is connected: its inputs are distinct
    and none of its outputs exists yet. *)
Definition fresh_tx σ (tx : CTransaction) : Prop :=
  NoDup (map prevout (vin tx)) ∧ ∀ i, σ (mk_outpoint (GetHash tx) i) = None.
Lemma paid_connectable σ tx :
  fresh_tx σ tx → paid_inputs σ tx → Forall (λ o, MoneyRange (nValue o) = true) (vout tx) → connectable σ tx.
Proof.
  intros [Hnd Hnew] Hp Ho. split_and!.
  - intros Hcb. destruct (Hp Hcb) as [Hin _]. split; [done|]. eapply Forall_impl; [exact Hin|]. intros i (cn & -> & _). by eexists.
  - intros j _. apply Hnew.
  - eapply Forall_impl; [exact Ho|]. intros o Hm%MoneyRange_spec. unfold IsNull_txout. lia.
Qed.

(** The scripts of [tx] were checked on the coins [σ], with [cks] left over. *)
Definition scripts_run σ (fsc : bool) (fl : Z) (tx : CTransaction) (cks : list CScriptCheck) : Prop :=
  ∃ s s' : state, cache_ok (view s) ∧ shows (view s) ≐ σ ∧ connect_scripts env tx fsc fl s = (Ok cks, s').

(** The counters of the loop are in range. *)
Definition tally_ok (t : tally) : Prop :=
  0 ≤ nFees t ≤ MAX_MONEY ∧ 0 ≤ utxo_interest t ≤ MAX_MONEY ∧ - MAX_MONEY ≤ nActualStakeReward t ≤ MAX_MONEY.
(** What a transaction creates: its outputs less what it spends. *)
Definition creates σ (tx : CTransaction) : Z := total (vout tx) - spent_value σ tx.
Lemma creates_same σ τ tx : σ ≐ τ → creates σ tx = creates τ tx.
Proof. intros Hs. unfold creates, spent_value. by rewrite (value_in_same _ _ _ Hs). Qed.
Lemma fresh_tx_same σ τ tx : τ ≐ σ → fresh_tx σ tx → fresh_tx τ tx.
Proof. intros Hs [? Hnew]. split; [done|]. intros i. by rewrite (Hs (mk_outpoint (GetHash tx) i)). Qed.

Lemma connect_tx_spec fsc fl lf mgp bgl tx t s t' s' :
  cache_ok (view s) → tally_ok t → fresh_tx (shows (view s)) tx →
  connect_tx env m params block pindex entry fsc fl lf mgp bgl tx t s = (Ok t', s') →
  let σ := shows (view s) in
  tally_ok t' ∧ connectable σ tx ∧ becomes (view s) (view s') (spec_update σ tx height) ∧
  vtxundo t' = vtxundo t ++ [if IsCoinBase tx then [] else undo_of σ (vin tx)] ∧
  sum_of (λ cn, nValue (out cn)) (if IsCoinBase tx then [] else undo_of σ (vin tx)) = spent_value σ tx ∧
  u64 (nValueOut t' - nValueIn t') = u64 (nValueOut t - nValueIn t + creates σ tx) ∧
  (if IsCoinStake tx then nActualStakeReward t' = creates σ tx ∧ nFees t' = nFees t
   else nActualStakeReward t' = nActualStakeReward t ∧
        if IsCoinBase tx then nFees t' = nFees t else nFees t' = nFees t - creates σ tx) ∧
  ∃ cks, queue t' = queue t ++ cks ∧ scripts_run σ fsc fl tx cks.
Proof.
  intros Hc (Hf & Hi & Hr) Hfresh Hx σ. unfold connect_tx in Hx.
  apply bind_inv in Hx as (fees & s1 & Hfee & Hx). apply connect_fee_spec in Hfee as (K1 & Hf' & Hpaid & Hfees); [|done|done].
  apply bind_inv in Hx as (sg & s2 & Hsig & Hx). pose proof (quiet_connect_sigops _ _ _ _ _ _ (proj1 K1) Hsig) as K2.
  pose proof (keeps_trans _ _ _ K1 K2) as K12. clear K1 K2 Hsig.
  apply bind_inv in Hx as ([r' i'] & s3 & Hst & Hx). pose proof (quiet_connect_stake params _ _ _ _ _ _ (proj1 K12) Hst) as K3.
  apply connect_stake_spec in Hst as [Hi' Hst]; [|apply K12|by eapply paid_inputs_keep|done].
  pose proof (keeps_trans _ _ _ K12 K3) as K13. clear K3.
  apply bind_inv in Hx as (cks & s4 & Hck & Hx). pose proof (quiet_connect_scripts env _ _ _ _ _ _ (proj1 K13) Hck) as K4.
  assert (scripts_run σ fsc fl tx cks) as Hrun by (exists s3, s4; split_and!; [apply K13..|done]).
  pose proof (keeps_trans _ _ _ K13 K4) as K14. clear K4 K13 Hck.
  apply bind_inv in Hx as ([a b] & s5 & Hv & Hx). pose proof (quiet_connect_values _ _ _ _ _ _ (proj1 K14) Hv) as K5.
  apply connect_values_spec in Hv as [Hout Hv]; [|apply K14|by eapply paid_inputs_keep].
  pose proof (keeps_trans _ _ _ K14 K5) as K15. clear K5.
  apply bind_inv in Hx as (g & s6 & Hg & Hx). pose proof (quiet_connect_contract env m block entry _ _ _ _ _ _ _ (proj1 K15) Hg) as K6.
  pose proof (keeps_trans _ _ _ K15 K6) as K16. clear K6 K15 Hg.
  assert (∀ s7, keeps s s7 → shows (view s7) ≐ σ) as Hsame by (by intros s7 (_ & _ & _ & ?)).
  assert (∀ s7, keeps s s7 → spent_value (shows (view s7)) tx = spent_value σ tx) as Hsv.
  { intros s7 Hk. unfold spent_value. by rewrite (value_in_same _ _ _ (Hsame _ Hk)). }
  rewrite (Hsv _ K14) in Hv. rewrite (value_in_same _ _ _ (Hsame _ K12)) in Hst.
  assert (connectable σ tx) as Hcon by (by apply paid_connectable).
  apply bind_inv in Hx as (spent & s7 & Hup & Hx). apply ret_inv in Hx as [<- ->]. unfold sure_view in Hup.
  destruct (UpdateCoins_shows (view s6) tx height (proj1 K16)) as (c7 & HU & HB).
  { eapply connectable_same; [symmetry; by apply Hsame|done]. }
  rewrite HU in Hup. injection Hup as <- <-. rewrite (undo_of_same _ _ _ (Hsame _ K16)).
  cbn [nFees nActualStakeReward utxo_interest nValueIn nValueOut vtxundo fst snd].
  split; [|split; [done|split; [|split; [done|split; [|split; [done|split; [|by exists cks]]]]]]].
  - unfold tally_ok. cbn [nFees nActualStakeReward utxo_interest].
    destruct (IsCoinStake tx && negb (IsCoinBase tx)); [lia|]. destruct Hst as [-> _]. lia.
  - eapply becomes_trans; [exact K16|]. eapply becomes_same; [exact HB|]. by rewrite (Hsame _ K16).
  - unfold spent_value. destruct (IsCoinBase tx) eqn:Hcb; [done|]. destruct (Hpaid Hcb) as [Hin _]. by eapply sum_undo.
  - unfold creates, spent_value. destruct (IsCoinBase tx) eqn:Hcb.
    + rewrite (coinbase_coinstake_exclusive tx Hcb) in *. cbn in Hst, Hfees. tauto.
    + destruct (IsCoinStake tx); cbn in Hst, Hfees; [tauto|]. split; [tauto|]. rewrite Hfees. fold σ. lia.
Qed.

(** ** All transactions of a block *)

(** The ids are distinct and name no unspent output. *)
Definition fresh_block σ (txs : list CTransaction) : Prop :=
  NoDup (GetHash <$> txs) ∧ Forall (fresh_tx σ) txs.
Lemma spec_add_other txid h cb cs outs : ∀ σ i o, Transaction.hash o ≠ txid → spec_add σ txid i outs h cb cs o = σ o.
Proof.
  induction outs as [|x outs IH]; intros σ i o Ho; cbn [spec_add]; [done|]. rewrite IH by done. case_match; [done|].
  apply upd_ne. by intros <-.
Qed.
Lemma fresh_step σ tx txs : fresh_block σ (tx :: txs) → fresh_tx σ tx ∧ fresh_block (spec_update σ tx height) txs.
Proof.
  intros [Hnd [Htx Hall]%Forall_cons]. split; [done|]. rewrite fmap_cons, NoDup_cons in Hnd. destruct Hnd as [Hni Hnd]. split; [done|].
  rewrite Forall_forall in Hall |- *. intros tx' Hin. destruct (Hall tx' Hin) as [Hp Hnew]. split; [done|]. intros i.
  unfold spec_update. rewrite spec_add_other.
  - destruct (IsCoinBase tx); [apply Hnew|]. rewrite spec_spend_lookup. case_decide; [done|apply Hnew].
  - cbn. intros Heq. apply Hni. rewrite <- Heq. by apply list_elem_of_fmap_2.
Qed.
Lemma fresh_same σ τ txs : σ ≐ τ → fresh_block σ txs → fresh_block τ txs.
Proof.
  intros Hs [Hnd Hall]. split; [done|]. eapply Forall_impl; [exact Hall|]. intros tx [Hp Hnew]. split; [done|].
  intros i. by rewrite <- (Hs (mk_outpoint (GetHash tx) i)).
Qed.

(** What the transactions of a list create together. *)
Fixpoint created σ (txs : list CTransaction) : Z :=
  match txs with [] => 0 | tx :: txs => creates σ tx + created (spec_update σ tx height) txs end.
Definition undo_value (l : list (list Coin)) : Z := sum_of (sum_of (λ cn, nValue (out cn))) l.
Definition ordinary (tx : CTransaction) : Prop := IsCoinBase tx = false ∧ IsCoinStake tx = false.

Lemma connect_txs_spec fsc fl lf mgp bgl txs : ∀ t s t' s' σ,
  cache_ok (view s) → shows (view s) ≐ σ → tally_ok t → fresh_block σ txs →
  connect_txs env m params block pindex entry fsc fl lf mgp bgl txs t s = (Ok t', s') →
  tally_ok t' ∧ connectable_txs σ height txs ∧ becomes (view s) (view s') (spec_txs σ height txs) ∧
  vtxundo t' = vtxundo t ++ undos σ height txs ∧
  sum_of (λ tx, total (vout tx)) txs - undo_value (undos σ height txs) = created σ txs ∧
  u64 (nValueOut t' - nValueIn t') = u64 (nValueOut t - nValueIn t + created σ txs) ∧
  (Forall ordinary txs → nActualStakeReward t' = nActualStakeReward t ∧ nFees t' = nFees t - created σ txs) ∧
  (∃ q, queue t' = queue t ++ q) ∧
  (∀ k tx, txs !! k = Some tx → ∃ cks, cks ⊆ queue t' ∧ scripts_run (spec_txs σ height (take k txs)) fsc fl tx cks).
Proof.
  induction txs as [|tx txs IH]; intros t s t' s' σ Hc Hs Ht Hfr Hx; cbn [connect_txs] in Hx.
  { apply ret_inv in Hx as [<- ->]. cbn [connectable_txs spec_txs undos created]. rewrite app_nil_r, !Z.sub_0_r, Z.add_0_r.
    split_and!; try done. by exists []; rewrite app_nil_r. }
  apply bind_inv in Hx as (t1 & s1 & H1 & Hx). destruct (fresh_step _ _ _ Hfr) as [Hf1 Hf2].
  apply connect_tx_spec in H1 as (Ht1 & Hcon & Hb & Hu & Hsum & Hv & Hk & cks & Hq & Hrun); [|done|done|by apply (fresh_tx_same σ)].
  rewrite (creates_same _ _ _ Hs) in Hv, Hk. rewrite (undo_of_same _ _ _ Hs) in Hu, Hsum.
  destruct (IH t1 s1 t' s' (spec_update σ tx height)) as (I1 & I2 & I3 & I4 & I5 & I6 & I7 & [q I8] & I9); [apply Hb| |done|done|done|].
  { destruct Hb as (_ & _ & _ & Hb). by rewrite Hb, Hs. }
  cbn [connectable_txs spec_txs undos created]. split_and!; try done.
  - by eapply connectable_same.
  - by eapply becomes_trans.
  - by rewrite I4, Hu, <- app_assoc.
  - unfold undo_value in *. rewrite !sum_of_cons, Hsum. unfold creates in *. unfold spent_value in *. rewrite (value_in_same _ _ _ Hs). lia.
  - rewrite I6. rewrite <- u64_add_l, Hv, u64_add_l. f_equal. lia.
  - intros [[Hcb Hcs] Hord]%Forall_cons. rewrite Hcb, Hcs in Hk. destruct (I7 Hord) as [-> ->]. destruct Hk as [-> ->]. split; [done|lia].
  - exists (cks ++ q). by rewrite I8, Hq, <- app_assoc.
  - intros [|k] x Hk'; [|by apply I9]. injection Hk' as <-. exists cks. split; [rewrite I8, Hq; set_solver|].
    destruct Hrun as (s3 & s4 & ? & Hs3 & ?). exists s3, s4. split_and!; [done|by rewrite Hs3|done].
Qed.

(** ** Scripts *)

(** Each input spends a coin, its script accepts, and a contract output is spent
    by OP_SPEND only. *)
Definition input_verified σ (fl : Z) (tx : CTransaction) (i : nat) (txin : CTxIn) : Prop :=
  ∃ cn, σ (prevout txin) = Some cn ∧ run_check env (mk_check (out cn) tx i fl) = true.
Definition contract_spent σ (txin : CTxIn) : Prop :=
  ∀ cn, σ (prevout txin) = Some cn → HasOpCreate (scriptPubKey (out cn)) || HasOpCall (scriptPubKey (out cn)) = true →
    HasOpSpend (scriptSig txin) = true.
Lemma input_verified_same σ τ fl tx i txin : σ ≐ τ → input_verified σ fl tx i txin → input_verified τ fl tx i txin.
Proof. intros Hs (cn & Hi & Hk). exists cn. split; [by rewrite <- (Hs (prevout txin))|done]. Qed.

Lemma check_scripts_spec tx fl defer l : ∀ j s cks s' σ,
  cache_ok (view s) → shows (view s) ≐ σ → check_scripts env tx fl defer j l s = (Ok cks, s') → forallb (run_check env) cks = true →
  ∀ i txin, l !! i = Some txin → input_verified σ fl tx (j + i) txin.
Proof.
  induction l as [|x l IH]; intros j s cks s' σ Hc Hs Hx Hall i txin Hi; [by destruct i|]. cbn [check_scripts] in Hx.
  apply bind_inv in Hx as (cn & s1 & Ha & Hx). pose proof (quiet_access _ _ _ _ Hc Ha) as Hk. apply on_view_inv in Ha as [Hcn _].
  destruct (AccessCoin_shows (view s) (prevout x) Hc) as (cn' & c1 & Hac & _ & Hshow). rewrite Hac in Hcn. cbn in Hcn. subst cn'.
  apply bind_inv in Hx as ([] & s2 & Hg & Hx). apply guard_inv in Hg as [Hsp ->]. apply negb_true_iff in Hsp. rewrite Hsp in Hshow.
  apply bind_inv in Hx as ([] & s3 & Hrun & Hx). apply bind_inv in Hx as (rest & s4 & Hrest & Hx). apply ret_inv in Hx as [<- ->].
  assert (s3 = s1 ∧ (defer = false → run_check env (mk_check (out cn) tx j fl) = true)) as [-> Hinline].
  { destruct defer; [by apply ret_inv in Hrun as [_ ->]|]. apply pure_inv in Hrun as [Hr ->]. split; [done|]. intros _.
    unfold check_inline in Hr. destruct (run_check env _); [done|]. by destruct (_ && _). }
  assert (run_check env (mk_check (out cn) tx j fl) = true ∧ forallb (run_check env) rest = true) as [Hone Hmore].
  { destruct defer; [by apply andb_true_iff in Hall|by split; [apply Hinline|]]. }
  destruct i as [|i].
  - injection Hi as <-. exists cn. rewrite <- (Hs (prevout x)), Nat.add_0_r. done.
  - rewrite Nat.add_succ_r, <- Nat.add_succ_l. eapply (IH (S j) s1); [apply Hk| |exact Hrest|done|done].
    destruct Hk as (_ & _ & _ & Hk). by rewrite Hk.
Qed.
Lemma contract_spends_spec l : ∀ s u s' σ,
  cache_ok (view s) → shows (view s) ≐ σ → contract_spends l s = (Ok u, s') → Forall (contract_spent σ) l.
Proof.
  induction l as [|x l IH]; intros s u s' σ Hc Hs Hx; [constructor|]. cbn [contract_spends] in Hx.
  apply bind_inv in Hx as ([] & s1 & H1 & Hx).
  assert (keeps s s1 ∧ contract_spent σ x) as [Hk Hone].
  { destruct (HasOpSpend (scriptSig x)) eqn:Hsp; [apply ret_inv in H1 as [_ ->]; split; [by apply becomes_refl|by intros ? ? ?]|].
    apply bind_inv in H1 as (cn & s2 & Ha & Hg). apply guard_inv in Hg as [Hno ->]. split; [by eapply quiet_access|].
    apply on_view_inv in Ha as [Hcn _]. destruct (AccessCoin_shows (view s) (prevout x) Hc) as (cn' & c1 & Hac & _ & Hshow).
    rewrite Hac in Hcn. cbn in Hcn. subst cn'. intros cn0 Hcn0. rewrite <- (Hs (prevout x)), Hshow in Hcn0.
    destruct (IsSpent cn); [done|]. injection Hcn0 as <-. apply negb_true_iff in Hno. by rewrite Hno. }
  constructor; [done|]. eapply (IH s1); [apply Hk| |exact Hx]. destruct Hk as (_ & _ & _ & Hk). by rewrite Hk.
Qed.
Lemma scripts_run_spec σ fl tx cks :
  scripts_run σ true fl tx cks → IsCoinBase tx = false → forallb (run_check env) cks = true →
  Forall (contract_spent σ) (vin tx) ∧
  (verified env (GetWitnessHash tx) fl = false → ∀ i txin, vin tx !! i = Some txin → input_verified σ fl tx i txin).
Proof.
  intros (s & s' & Hc & Hs & Hx) Hcb Hall. unfold connect_scripts in Hx. rewrite Hcb in Hx.
  apply bind_inv in Hx as (l & s1 & Hci & Hx). apply bind_inv in Hx as (u & s2 & Hsp & Hx). apply ret_inv in Hx as [-> ->].
  unfold CheckInputs in Hci. rewrite Hcb in Hci. cbn [orb negb] in Hci.
  destruct (verified env (GetWitnessHash tx) fl) eqn:Hv.
  - apply ret_inv in Hci as [_ ->]. split; [by eapply contract_spends_spec|done].
  - pose proof (quiet_check_scripts env tx fl _ (vin tx) 0 _ _ _ Hc Hci) as Hk. split.
    + eapply contract_spends_spec; [apply Hk| |exact Hsp]. destruct Hk as (_ & _ & _ & Hk). by rewrite Hk.
    + intros _. by eapply (check_scripts_spec tx fl _ (vin tx) 0 s).
Qed.
End Transactions.

(** ** Blocks *)

Section Blocks.
Context `{C : Crypto} {V : Type} `{HV : CoinsView V} `{HL : !CoinsViewLaws V} {T : Type} `{HT : CoinsView T} {G : Type} `{HG : Executive G}.
Context (env : environment G) (m : BlockMap) (params : consensus_params) (block : CBlock) (pindex : uint256) (entry : CBlockIndex).
Abbreviation state := (connect_state V T G).
Implicit Types (s : state) (σ : coins).
Abbreviation height := (nHeight entry).

(** A connected block was checked, and its transactions were connected on a view
    that showed the same coins as before. *)
Record connected s (eff : block_effects) s' : Prop := {
  c_body : ∃ d now, check_body d (sig_ok env) now block true true = Ok tt;
  c_run : ∃ s1 t s2 fsc fl lf mgp bgl,
    keeps s s1 ∧ need_scripts env m params pindex entry = Ok fsc ∧
    (∃ v v', GetBlockScriptFlags m (vb params) (BIP16Exception env) (BIP66Height params) (BIP65Height params) (Some pindex) entry v = Ok (fl, v')) ∧
    connect_txs env m params block pindex entry fsc fl lf mgp bgl (vtx block) no_tally s1 = (Ok t, s2) ∧
    forallb (run_check env) (queue t) = true ∧
    CheckReward params (testnet env) (mpos_scripts env) block height (nFees t) (gasRefunds (gas_of t)) (nActualStakeReward t)
      (checkVouts (gas_of t)) (utxo_interest t) = Ok tt ∧
    GetBlockHash (expected_header block t s2) = GetBlockHash (header block) ∧
    undo_data eff = tail (vtxundo t) ∧ supply_change eff = u64 (nValueOut t - nValueIn t) ∧
    view s' = SetBestBlock (view s2) pindex
}.

(** [block.fChecked] is only set by a [CheckBlock] that succeeded. *)
Definition checked_before (fChecked : bool) : Prop :=
  fChecked = true → ∃ d now, check_body d (sig_ok env) now block true true = Ok tt.
Lemma recheck_inv fChecked s u s' :
  checked_before fChecked → recheck env m params block false fChecked s = (Ok u, s') →
  ∃ d now, check_body d (sig_ok env) now block true true = Ok tt.
Proof.
  intros Hchk Hx. destruct fChecked; [by apply Hchk|]. unfold recheck in Hx. apply bind_inv in Hx as (s0 & s1 & [= <- <-] & Hx).
  exists (limits s), (adjusted_time env).
  assert (∀ pos c0 r c, check_block m params (limits s) (spent_coin env) (recover env) (sig_ok env) (initial_download env) (adjusted_time env)
            c0 pos false block true true true = (Ok r, c) → check_body (limits s) (sig_ok env) (adjusted_time env) block true true = Ok tt) as Hb.
  { intros pos c0 r c Hcb. unfold check_block in Hcb. destruct (CheckBlockHeader _ _ _ _ _ _ _ _) as [[?|?] c2]; [|done].
    injection Hcb as Hcb _. by destruct (check_body _ _ _ _ _ _) as [[]|]. }
  unfold CheckBlockSW, CheckBlock in Hx.
  destruct (nVersion_blk (header block) =? SW_VERSION); destruct (check_block _ _ _ _ _ _ _ _ _ _ _ _ _ _ _) as [[r|e] c] eqn:Hr;
    try (by eapply Hb); apply bind_inv in Hx as ([] & s2 & _ & Hx).
  - by destruct e.
  - destruct e as [? ? ? []| |]; done.
Qed.
Lemma check_totals_inv t s u s' :
  check_totals env params block entry false t s = (Ok u, s') →
  s' = s ∧ forallb (run_check env) (queue t) = true ∧
  CheckReward params (testnet env) (mpos_scripts env) block height (nFees t) (gasRefunds (gas_of t)) (nActualStakeReward t)
    (checkVouts (gas_of t)) (utxo_interest t) = Ok tt ∧
  GetBlockHash (expected_header block t s) = GetBlockHash (header block).
Proof.
  intros Hx. unfold check_totals in Hx. apply bind_inv in Hx as ([] & s1 & Hg & Hx). apply guard_inv in Hg as [_ ->].
  apply bind_inv in Hx as ([] & s2 & Hr & Hx). destruct (CheckReward _ _ _ _ _ _ _ _ _ _) as [[]|]; [|done].
  apply ret_inv in Hr as [_ ->]. apply bind_inv in Hx as ([] & s3 & Hg & Hx). apply guard_inv in Hg as [Hq ->].
  apply bind_inv in Hx as (s4 & s5 & [= <- <-] & Hx). apply guard_inv in Hx as [He ->]. apply bool_decide_eq_true in He. done.
Qed.
Lemma ConnectBlock_inv fChecked s eff s' :
  cache_ok (view s) → GetBlockHash (header block) ≠ hashGenesisBlock params → checked_before fChecked →
  ConnectBlock env m params block pindex entry false fChecked s = (Ok eff, s') → connected s eff s'.
Proof.
  intros Hc Hgen Hchk Hx. unfold ConnectBlock in Hx.
  apply bind_inv in Hx as ([] & s1 & Hg & Hx). apply guard_inv in Hg as [_ ->].
  apply bind_inv in Hx as (d & s2 & Hd & Hx). pose proof (quiet_read_limits env entry _ _ _ Hc Hd) as K.
  apply bind_inv in Hx as ([] & s3 & Hg & Hx). apply guard_inv in Hg as [_ ->].
  apply bind_inv in Hx as ([] & s4 & Hg4 & Hx). pose proof (keeps_trans _ _ _ K (quiet_check_sizes block _ _ _ (proj1 K) Hg4)) as K4.
  apply bind_inv in Hx as ([] & s5 & Hg5 & Hx). assert (keeps s s5) as K5.
  { eapply keeps_trans; [exact K4|]. destruct (_ && _); [|by eapply quiet_ret; [apply K4|exact Hg5]].
    eapply (quiet_bind (on_view (CheckBlockInputPubKeyMatchesOutputPubKey block)));
      [apply quiet_on_view; intros; by apply input_output_keep|intros ok; apply quiet_guard|apply K4|exact Hg5]. }
  apply bind_inv in Hx as ([] & s6 & Hrc & Hx). pose proof (keeps_trans _ _ _ K5 (quiet_recheck env m params block _ _ _ _ _ (proj1 K5) Hrc)) as K6.
  apply recheck_inv in Hrc; [|done]. apply bind_inv in Hx as (s7 & s8 & [= <- <-] & Hx). apply bind_inv in Hx as ([] & s9 & Hg & Hx).
  apply guard_inv in Hg as [_ ->]. rewrite bool_decide_eq_false_2 in Hx by done.
  apply bind_inv in Hx as (proof & s10 & Hp & Hx).
  assert (keeps s s10) as K10.
  { eapply keeps_trans; [exact K6|]. eapply (quiet_check_view (λ c, UpdateHashProof params (sig_ok env) m block pindex c));
      [intros; by apply UpdateHashProof_keep|apply K6|exact Hp]. }
  unfold connect_body in Hx. apply bind_inv in Hx as (fsc & s11 & Hf & Hx). apply pure_inv in Hf as [Hf ->].
  apply bind_inv in Hx as ([] & s12 & Hb & Hx). pose proof (keeps_trans _ _ _ K10 (quiet_check_bip30 env m params block entry _ _ _ (proj1 K10) Hb)) as K12.
  apply bind_inv in Hx as ([fl lf] & s13 & Hfl & Hx).
  pose proof (keeps_trans _ _ _ K12 (quiet_script_flags env m params pindex entry _ _ _ (proj1 K12) Hfl)) as K13.
  apply bind_inv in Hx as (t & s14 & Ht & Hx). apply bind_inv in Hx as ([] & s15 & Htot & Hx). apply check_totals_inv in Htot as (-> & Hq & Hr & Hh).
  cbn [fst snd] in Ht. apply bind_inv in Hx as ([] & s16 & Hu & Hx). apply bind_inv in Hx as (k & s17 & Hk & Hx).
  apply bind_inv in Hx as ([] & s18 & [= <-] & Hx). apply ret_inv in Hx as [<- ->]. split; [exact Hrc|].
  assert (s17 = s14) as ->.
  { destruct (undo_written env); [|done]. apply ret_inv in Hu as [_ ->]. unfold stake_key in Hk.
    destruct (IsProofOfStake_header _); [|by apply ret_inv in Hk as [_ ->]]. apply bind_inv in Hk as (? & ? & Hk & Hk').
    apply pure_inv in Hk as [_ ->]. by apply ret_inv in Hk' as [_ ->]. }
  assert (need_scripts env m params pindex entry = Ok fsc) as Hns.
  { destruct (need_scripts env m params pindex entry); [by injection Hf as ->|done]. }
  exists s13, t, s14, fsc, fl, lf, d.1, d.2. split_and!; try done.
  unfold script_flags in Hfl. apply bind_inv in Hfl as (csv & s20 & _ & Hfl). apply bind_inv in Hfl as (fl' & s21 & Hfl & Hret).
  apply ret_inv in Hret as [[= -> _] _]. unfold on_deployments in Hfl. destruct (GetBlockScriptFlags _ _ _ _ _ _ _ _) as [[x v']|] eqn:E; [|done].
  injection Hfl as -> _. by do 2 eexists.
Qed.

(** No transaction of the block has the id of another or of an unspent output. *)
Definition new_ids σ : Prop :=
  NoDup (GetHash <$> vtx block) ∧ ∀ tx i, tx ∈ vtx block → σ (mk_outpoint (GetHash tx) i) = None.
Lemma check_body_shape d now :
  check_body d (sig_ok env) now block true true = Ok tt →
  coinbase_first (vtx block) ∧ (IsProofOfStake_header (header block) = true → coinstake_second block) ∧
  Forall (λ tx, NoDup (map prevout (vin tx))) (vtx block).
Proof.
  unfold check_body. autorewrite with results.
  rewrite check_coinbase_spec, check_coinstake_spec, check_transactions_spec. intros (_ & _ & Hcb & Hcs & _ & [Htx _] & _).
  split_and!; [done|done|]. eapply Forall_impl; [exact Htx|]. intros tx Ht. cbn beta in Ht.
  unfold CheckTransaction in Ht. autorewrite with results in Ht. destruct Ht as (_ & _ & _ & _ & Hn & _).
  by apply no_duplicates_spec in Hn as [? _].
Qed.
Lemma new_ids_fresh σ : new_ids σ → Forall (λ tx, NoDup (map prevout (vin tx))) (vtx block) → fresh_block σ (vtx block).
Proof.
  intros [Hnd Hnew] Hp. split; [done|]. rewrite Forall_forall in Hp |- *. intros tx Htx. split; [by apply Hp|]. intros i. by apply Hnew.
Qed.
Lemma no_tally_ok : tally_ok no_tally.
Proof. unfold tally_ok. cbn. unfold MAX_MONEY, COIN, CENT. lia. Qed.

(** What a connected block does to the coins the view shows. *)
Lemma connected_coins s eff s' :
  cache_ok (view s) → new_ids (shows (view s)) → connected s eff s' →
  let σ := shows (view s) in
  connectable_txs σ height (vtx block) ∧ cache_ok (view s') ∧ shows (view s') ≐ spec_txs σ height (vtx block) ∧
  hashBlock (view s') = pindex ∧ undo_data eff = tail (undos σ height (vtx block)).
Proof.
  intros Hc Hnew [(d & now & Hbody) (s1 & t & s2 & fsc & fl & lf & mgp & bgl & K & _ & _ & Ht & _ & _ & _ & Hu & _ & Hv)] σ.
  apply check_body_shape in Hbody as (_ & _ & Hp). pose proof (new_ids_fresh _ Hnew Hp) as Hfr.
  apply (connect_txs_spec _ _ _ _ _ _ _ _ _ _ _ _ _ _ _ _ σ) in Ht as (_ & Hcon & (Hok & _ & _ & Hb) & Hun & _); [|apply K|apply K|apply no_tally_ok|done].
  rewrite Hv, Hu, Hun. split_and!; done.
Qed.
Lemma reward_bound t :
  0 < nSubsidyHalvingInterval params → IsProofOfStake_header (header block) = true → height > (if testnet env then 71000 else 241000) →
  tally_ok t →
  CheckReward params (testnet env) (mpos_scripts env) block height (nFees t) (gasRefunds (gas_of t)) (nActualStakeReward t)
    (checkVouts (gas_of t)) (utxo_interest t) = Ok tt →
  nActualStakeReward t ≤ nFees t + GetBlockSubsidy params height.
Proof.
  intros HI Hpos Hh (Hf & Hi & Hr) Hx. unfold CheckReward in Hx. assert (MAX_MONEY < 2 ^ 60) as Hm by done.
  assert (10000 * COIN < 2 ^ 60) as Hcoin by done.
  pose proof (GetBlockSubsidy_bounds params HI height) as Hsub.
  assert (negb (testnet env) && (height <? 194830) = false) as E by (destruct (testnet env); cbn; lia). rewrite E in Hx.
  apply seq_Ok in Hx as [Hint Hx]. rewrite require_Ok, negb_true_iff, andb_false_iff in Hint.
  assert (utxo_interest t = 0) as H0 by (destruct Hint; lia). destruct (vtx block !! _); [|done]. destruct (erase_each _ _); [|done].
  unfold IsProofOfWork_header in Hx. rewrite Hpos in Hx. cbn [negb] in Hx. apply seq_Ok in Hx as [Hle _].
  rewrite require_Ok, negb_true_iff, Z.gtb_ltb, Z.ltb_ge, H0, !i64_small in Hle by lia. lia.
Qed.
(** The coinbase of a staked block pays nothing. *)
Lemma coinbase_empty cb rest : vtx block = cb :: rest → CheckFirstCoinstakeOutput block = true → total (vout cb) = 0.
Proof.
  intros E Hf. unfold CheckFirstCoinstakeOutput in Hf. rewrite E in Hf. unfold total.
  destruct (GetWitnessCommitmentIndex block), (vout cb) as [|o [|w []]]; try done; cbn.
  - apply andb_true_iff in Hf as [Ho Hw]. unfold IsEmpty_txout in Ho. lia.
  - unfold IsEmpty_txout in Hf. lia.
Qed.
(** In a staked block the reward of the coin stake and the fees are all that the
    transactions create. *)
Lemma staked_created fsc fl lf mgp bgl cb cs rest s t s' σ :
  cache_ok (view s) → shows (view s) ≐ σ → fresh_block σ (cb :: cs :: rest) →
  IsCoinBase cb = true → total (vout cb) = 0 → IsCoinStake cs = true → Forall ordinary rest →
  connect_txs env m params block pindex entry fsc fl lf mgp bgl (cb :: cs :: rest) no_tally s = (Ok t, s') →
  created entry σ (cb :: cs :: rest) = nActualStakeReward t - nFees t.
Proof.
  intros Hc Hs Hfr Hcb H0 Hcs Hord Hx. cbn [connect_txs] in Hx.
  apply bind_inv in Hx as (t1 & s1 & H1 & Hx). apply bind_inv in Hx as (t2 & s2 & H2 & Hx).
  destruct (fresh_step entry _ _ _ Hfr) as [F1 Hfr1]. destruct (fresh_step entry _ _ _ Hfr1) as [F2 Hfr2].
  apply connect_tx_spec in H1 as (T1 & _ & (Hc1 & _ & _ & B1) & _ & _ & _ & K1 & _);
    [|done|apply no_tally_ok|by apply (fresh_tx_same σ)].
  rewrite (coinbase_coinstake_exclusive cb Hcb), Hcb in K1. destruct K1 as [_ K1].
  assert (shows (view s1) ≐ spec_update σ cb height) as S1 by (by rewrite B1, Hs).
  apply connect_tx_spec in H2 as (T2 & _ & (Hc2 & _ & _ & B2) & _ & _ & _ & K2 & _);
    [|done|done|by apply (fresh_tx_same (spec_update σ cb height))].
  rewrite Hcs, (creates_same _ _ _ S1) in K2. destruct K2 as [R2 K2].
  apply (connect_txs_spec _ _ _ _ _ _ _ _ _ _ _ _ _ _ _ _ (spec_update (spec_update σ cb height) cs height)) in Hx
    as (_ & _ & _ & _ & _ & _ & Ho & _); [|done|by rewrite B2, S1|done|done].
  destruct (Ho Hord) as [-> ->]. cbn [created]. rewrite K2, K1, R2. unfold creates at 1, spent_value. rewrite Hcb, H0. cbn [nFees no_tally]. lia.
Qed.
Lemma connected_created s eff s' :
  0 < nSubsidyHalvingInterval params → IsProofOfStake_header (header block) = true → height > (if testnet env then 71000 else 241000) →
  cache_ok (view s) → new_ids (shows (view s)) → connected s eff s' →
  sum_of (λ tx, total (vout tx)) (vtx block) - undo_value (undo_data eff) ≤ GetBlockSubsidy params height ∧
  supply_change eff = u64 (sum_of (λ tx, total (vout tx)) (vtx block) - undo_value (undo_data eff)).
Proof.
  intros HI Hpos Hh Hc Hnew [(d & now & Hbody) (s1 & t & s2 & fsc & fl & lf & mgp & bgl & K & _ & _ & Ht & _ & Hr & _ & Hu & Hsup & _)].
  set (σ := shows (view s)) in *. apply check_body_shape in Hbody as (Hcb & Hcs & Hp).
  pose proof (new_ids_fresh _ Hnew Hp) as Hfr.
  destruct (Hcs Hpos) as (cb & cs & rest & i & ins & E & Hfirst & Hstk & _ & _ & Hnostk & _).
  destruct Hcb as (cb' & rest' & E' & Hcb & Hncb & _). rewrite E in E'. injection E' as <- <-. apply Forall_cons in Hncb as [Hcscb Hncb].
  pose proof (connect_txs_spec _ _ _ _ _ _ _ _ _ _ _ _ _ _ _ _ σ (proj1 K) (proj2 (proj2 (proj2 K))) no_tally_ok Hfr Ht) as (Htok & _ & _ & Hun & Hcr & Hval & _).
  assert (sum_of (λ tx, total (vout tx)) (vtx block) - undo_value (undo_data eff) = created entry σ (vtx block)) as Heq.
  { rewrite Hu, Hun, <- Hcr. f_equal. rewrite E. cbn [undos app no_tally vtxundo tail]. rewrite Hcb. done. }
  rewrite Heq. split; [|by rewrite Hsup, Hval]. rewrite E in Ht, Hfr |- *.
  rewrite (staked_created fsc fl lf mgp bgl cb cs rest s1 t s2 σ); [|apply K|apply K|done|done|by eapply coinbase_empty|done| |done].
  - pose proof (reward_bound t HI Hpos Hh Htok Hr). lia.
  - rewrite Forall_forall in *. intros tx Htx. split; [by apply Hncb|by apply Hnostk].
Qed.

(** Taking the block back. *)
Lemma connected_disconnect s eff s' MAX prevHash :
  cache_ok (view s) → new_ids (shows (view s)) → connected s eff s' →
  0 < height < 2 ^ 30 → IsNull_hash pindex = false → all_restorable (shows (view s)) →
  ∃ c2, DisconnectBlock MAX (vtx block) pindex prevHash height (Some (undo_data eff)) (view s') = Ok (DISCONNECT_OK, c2) ∧
    cache_ok c2 ∧ shows c2 ≐ shows (view s) ∧ hashBlock c2 = prevHash.
Proof.
  intros Hc Hnew Hx Hh Hp Hr. destruct (connected_coins s eff s' Hc Hnew Hx) as (Hcon & Hc' & Hs' & Hbest & Hu).
  destruct (c_body _ _ _ Hx) as (d & now & Hbody). apply check_body_shape in Hbody as ((cb & rest & E & Hcb & Hncb & _) & _).
  rewrite Hu, E in *. cbn [undos tail] in *. by apply DisconnectBlock_shows.
Qed.
(** The scripts of the transactions of a connected block. *)
Lemma connected_scripts s eff s' :
  cache_ok (view s) → new_ids (shows (view s)) → connected s eff s' → need_scripts env m params pindex entry = Ok true →
  ∃ fl v v', GetBlockScriptFlags m (vb params) (BIP16Exception env) (BIP66Height params) (BIP65Height params) (Some pindex) entry v = Ok (fl, v') ∧
    ∀ k tx, vtx block !! k = Some tx → IsCoinBase tx = false →
      let σ := spec_txs (shows (view s)) height (take k (vtx block)) in
      Forall (contract_spent σ) (vin tx) ∧
      (verified env (GetWitnessHash tx) fl = false → ∀ i txin, vin tx !! i = Some txin → input_verified env σ fl tx i txin).
Proof.
  intros Hc Hnew [(d & now & Hbody) (s1 & t & s2 & fsc & fl & lf & mgp & bgl & K & Hns & (v & v' & Hfl) & Ht & Hq & _)] Hns'.
  rewrite Hns in Hns'. injection Hns' as ->. apply check_body_shape in Hbody as (_ & _ & Hp). pose proof (new_ids_fresh _ Hnew Hp) as Hfr.
  exists fl, v, v'. split; [done|]. intros k tx Hk Hcb σ.
  apply (connect_txs_spec _ _ _ _ _ _ _ _ _ _ _ _ _ _ _ _ (shows (view s))) in Ht as (_ & _ & _ & _ & _ & _ & _ & _ & Hall);
    [|apply K|apply K|apply no_tally_ok|done].
  destruct (Hall k tx Hk) as (cks & Hsub & Hrun). eapply scripts_run_spec; [exact Hrun|done|].
  apply forallb_forall. intros x Hx. rewrite forallb_forall in Hq. apply Hq, list_elem_of_In, Hsub. by apply list_elem_of_In.
Qed.
End Blocks.
