(* ===== verification/ConnectBlockSpecs.v ===== *)
(** * What an accepted block guarantees

    The theorems about [ConnectBlock] and a staked block that it accepts. *)
From stdpp Require Import strings.
From S2P Require Import Prelude ArithUint256 Script Interpreter InterpreterFacts Serialize Transaction SigHash Standard Coins CoinsFacts Block Chain ChainFacts TxVerify Pow Pos VersionBits Activate BlockChecks BlockChecksFacts Headers Contracts ContractState ContractsFacts ConnectBlock ConnectBlockFacts.

Section Blocks.
Context `{C : Crypto} {V : Type} `{HV : CoinsView V} `{HL : !CoinsViewLaws V} {T : Type} `{HT : CoinsView T} {G : Type} `{HG : Executive G}.
Context (env : environment G) (m : BlockMap) (params : consensus_params) (block : CBlock) (pindex : uint256) (entry : CBlockIndex).
Implicit Types s : connect_state V T G.
Context (Hgenesis : GetBlockHash (header block) ≠ hashGenesisBlock params) (fChecked : bool) (Hchecked : checked_before env block fChecked).

(** C2: no staked block creates money beyond the subsidy.  When [ConnectBlock]
    accepts a staked block past the height where interest ended, the values of
    all outputs exceed the values of all coins spent, as the undo data records
    them, by at most the subsidy; and the change of the money supply that is
    stored with the block is exactly that difference.  None of the sums of fees,
    rewards and values wraps around.  The ids of the block are new ([new_ids]): none
    occurs twice in it or has an unspent output.  [ConnectBlock] checks the latter only
    from height 1983702 on; before, it rests on the heights in the coinbases (BIP 34)
    and on the hash function. *)
Theorem connect_block_no_inflation s eff s' :
  0 < nSubsidyHalvingInterval params → IsProofOfStake_header (header block) = true →
  nHeight entry > (if testnet env then 71000 else 241000) →
  cache_ok (view s) → new_ids block (shows (view s)) →
  ConnectBlock env m params block pindex entry false fChecked s = (Ok eff, s') →
  let issued := sum_of (λ tx, total (vout tx)) (vtx block) - undo_value (undo_data eff) in
  issued ≤ GetBlockSubsidy params (nHeight entry) ∧ supply_change eff = u64 issued.
Proof. intros HI Hpos Hh Hc Hnew Hx. eapply connected_created; [done..|]. by eapply ConnectBlock_inv. Qed.

(** C3: an accepted block changes the coins as its transactions say, and can be
    taken back.  After [ConnectBlock] the view shows the coins of before with each
    transaction applied in order, and the block is its best block; disconnecting
    the block with the undo data that was written is clean and brings back
    exactly the coins of before and the previous best block.  Neither the checks
    nor the execution of contracts touch the coins.

    This holds for a block other than the genesis block, of a height from 1 to
    2^30 - 1 and with a hash that is not zero; when each coin of before has a height
    other than zero and a script that can be spent ([all_restorable]); and when no id
    of the block occurs twice in it or has an unspent output ([new_ids]).  The last is
    not enforced by [ConnectBlock] below height 1983702: there it rests on BIP 34 and
    the hash function, and a coin that a block overwrote would not be brought back. *)
Theorem connect_block_refines_coins s eff s' MAX prevHash :
  cache_ok (view s) → new_ids block (shows (view s)) →
  ConnectBlock env m params block pindex entry false fChecked s = (Ok eff, s') →
  0 < nHeight entry < 2 ^ 30 → IsNull_hash pindex = false → all_restorable (shows (view s)) →
  shows (view s') ≐ spec_txs (shows (view s)) (nHeight entry) (vtx block) ∧ hashBlock (view s') = pindex ∧
  ∃ c, DisconnectBlock MAX (vtx block) pindex prevHash (nHeight entry) (Some (undo_data eff)) (view s') = Ok (DISCONNECT_OK, c) ∧
    cache_ok c ∧ shows c ≐ shows (view s) ∧ hashBlock c = prevHash.
Proof.
  intros Hc Hnew Hx Hh Hp Hr. assert (connected env m params block pindex entry s eff s') as K by (by eapply ConnectBlock_inv).
  destruct (connected_coins env m params block pindex entry s eff s' Hc Hnew K) as (_ & _ & Hs & Hb & _).
  split_and!; [done..|]. by eapply connected_disconnect.
Qed.

(** C4: every coin an accepted block spends was released by its script.  Unless
    the block is buried under an assumed-valid one, each input of each
    transaction, other than of those whose scripts were verified before with the
    same flags, satisfies [VerifyScript] against the coin that exists at that
    point of the block; and an output that holds a contract is spent by OP_SPEND
    only.  It makes no difference which checks are queued for the threads.  The ids
    of the block are new ([new_ids]): none occurs twice in it or has an unspent
    output. *)
Theorem connect_block_verifies_scripts s eff s' :
  cache_ok (view s) → new_ids block (shows (view s)) → need_scripts env m params pindex entry = Ok true →
  ConnectBlock env m params block pindex entry false fChecked s = (Ok eff, s') →
  ∃ fl v v', GetBlockScriptFlags m (vb params) (BIP16Exception env) (BIP66Height params) (BIP65Height params) (Some pindex) entry v = Ok (fl, v') ∧
    ∀ k tx, vtx block !! k = Some tx → IsCoinBase tx = false →
      let σ := spec_txs (shows (view s)) (nHeight entry) (take k (vtx block)) in
      Forall (contract_spent σ) (vin tx) ∧
      (verified env (GetWitnessHash tx) fl = false → ∀ i txin, vin tx !! i = Some txin → input_verified env σ fl tx i txin).
Proof. intros Hc Hnew Hns Hx. eapply connected_scripts; [done..| |done]. by eapply ConnectBlock_inv. Qed.
End Blocks.

(** ** Example: a staked block with a payment *)

Definition stake_outpoint : COutPoint := mk_outpoint (replicate 32 9) 3.
Definition spend_outpoint : COutPoint := mk_outpoint (replicate 32 8) 0.
Definition stake_db : CCoinsViewDB :=
  mk_db {[ stake_outpoint := new_coin (mk_txout 5000 [OP_1]) 239616 false false;
           spend_outpoint := new_coin (mk_txout 7000 [OP_1]) 240990 false false ]} (replicate 32 4) [].
Definition stake_view : CCoinsViewCache CCoinsViewDB := mk_cache stake_db ∅ (replicate 32 4).
Definition staker_script : CScript := 33 :: 2 :: replicate 32 6 ++ [OP_CHECKSIG].
Definition block_coinbase : CTransaction := mk_tx [mk_txin null_outpoint [1; 1] SEQUENCE_FINAL []] [mk_txout 0 []] 2 0.
Definition block_stake : CTransaction :=
  mk_tx [mk_txin stake_outpoint [] SEQUENCE_FINAL []] [mk_txout 0 []; mk_txout 100005500 staker_script] 2 0.
Definition block_payment : CTransaction := mk_tx [mk_txin spend_outpoint [] SEQUENCE_FINAL []] [mk_txout 6500 [OP_1; OP_1]] 2 0.
Definition stake_params : consensus_params :=
  mk_consensus main_params (mk_vb_params 1 1 (λ _, mk_deployment 1 ALWAYS_ACTIVE NO_TIMEOUT)) null_hash 985500 300000 0 0 10000 500000 5 399100.
Definition stake_index_entry (p : option uint256) (height time : Z) : CBlockIndex :=
  mk_index p p height (BaseUint.of_u64 9) 0 time 0x207fffff time null_outpoint null_hash 4 1 1 0.
Definition staked_header (root : uint256) : CBlockHeader :=
  mk_header 4 (replicate 32 4) root 1600 0x1d00ffff 0 null_hash null_hash stake_outpoint [1].
Definition staked_block : CBlock :=
  let txs := [block_coinbase; block_stake; block_payment] in
  mk_block (staked_header (BlockMerkleRoot (H := toy_crypto) (mk_block (staked_header []) txs)).1) txs.
Definition staked_hash : uint256 := GetBlockHash (H := toy_crypto) (header staked_block).
Definition staked_entry : CBlockIndex := stake_index_entry (Some (replicate 32 4)) 241001 1600.
(** The entries that the checks visit: the predecessor, and its ancestors along the
    skip pointers down to the block of the stake. *)
Definition stake_map : BlockMap :=
  list_to_map ([(staked_hash, staked_entry);
                (replicate 32 4, stake_index_entry (Some (replicate 32 5)) 241000 1500);
                (replicate 32 5, stake_index_entry (Some (replicate 32 6)) 240992 1400);
                (replicate 32 6, stake_index_entry (Some (replicate 32 7)) 240960 1300);
                (replicate 32 7, stake_index_entry (Some (replicate 32 8)) 240896 1200);
                (replicate 32 8, stake_index_entry (Some (replicate 32 9)) 240640 1100);
                (replicate 32 9, stake_index_entry None 239616 50)]).
Definition no_checks : environment unit := {|
  verified _ _ := false; sig_ok _ _ _ := true; failed_stack := no_stack; active_height := 241000; nFixUTXOCacheHFHeight := 100000; threads := true;
  gas_schedule s _ := s; getBlockSize _ _ := 0; getMinGasPrice _ _ := 40; getBlockGasLimit _ _ := 40000000;
  checkpoints := []; fCheckpointsEnabled := true; spent_coin _ _ := None; recover _ _ _ _ := None; initial_download := false; adjusted_time := 1600;
  hashAssumeValid := null_hash; best_header := None; nMinimumChainWork := BaseUint.of_u64 0; BIP16Exception := null_hash; BIP34Hash := null_hash;
  testnet := false; mpos_scripts _ := None; undo_written := true; reset_roots s _ := s
|}.
Definition before_block : connect_state CCoinsViewDB CCoinsViewDB unit :=
  mk_connect stake_view stake_view empty_state (λ _, ∅) default_dgp.
Definition after_block : result connect_error block_effects * connect_state CCoinsViewDB CCoinsViewDB unit :=
  ConnectBlock (C := toy_crypto) (H1 := toy_executive) no_checks stake_map stake_params staked_block staked_hash staked_entry false false before_block.

Lemma stake_db_coins o cn :
  GetCoin stake_db o = Some cn → (o = stake_outpoint ∨ o = spend_outpoint) ∧ IsSpent cn = false ∧ restorable cn.
Proof.
  cbn. intros [[<- <-]|[_ [<- <-]%lookup_singleton_Some]]%lookup_insert_Some; (split; [by auto|by split; vm_compute]).
Qed.
Lemma stake_view_ok : cache_ok stake_view.
Proof.
  split; [|intros o e; simpl; by rewrite lookup_empty]. split; [done|]. intros o cn (_ & ? & _)%stake_db_coins. done.
Qed.
Lemma stake_restorable : all_restorable (shows stake_view).
Proof. by intros o cn (_ & _ & ?)%stake_db_coins. Qed.
Lemma staked_ids : new_ids (C := toy_crypto) staked_block (shows stake_view).
Proof.
  split; [apply (bool_decide_unpack _); vm_compute; exact I|]. intros tx i Htx.
  destruct (shows stake_view _) as [cn|] eqn:E; [exfalso|done].
  change (GetCoin stake_db (mk_outpoint (GetHash (H := toy_crypto) tx) i) = Some cn) in E. apply stake_db_coins in E as [E _].
  cbn [vtx staked_block] in Htx. rewrite !elem_of_cons in Htx. destruct Htx as [->|[->|[->|[]%not_elem_of_nil]]];
    destruct E as [E|E]; apply (f_equal Transaction.hash) in E; vm_compute in E; discriminate.
Qed.
Lemma after_block_ok : is_ok after_block.1 = true.
Proof. vm_compute. reflexivity. Qed.
Lemma staked_hash_fresh : GetBlockHash (H := toy_crypto) (header staked_block) ≠ hashGenesisBlock stake_params.
Proof. vm_compute. discriminate. Qed.
Lemma unchecked : checked_before (C := toy_crypto) no_checks staked_block false.
Proof. discriminate. Qed.

Lemma connect_block_no_inflation_witness :
  ∃ eff s, after_block = (Ok eff, s) ∧ sum_of (λ tx, total (vout tx)) (vtx staked_block) - undo_value (undo_data eff) ≤ COIN.
Proof.
  pose proof after_block_ok as Hok. destruct after_block as [[eff|e] s] eqn:E; [clear Hok|discriminate Hok].
  destruct (connect_block_no_inflation (C := toy_crypto) (HG := toy_executive) no_checks stake_map stake_params staked_block staked_hash staked_entry
    staked_hash_fresh false unchecked before_block eff s) as [Hi _];
    [vm_compute; reflexivity..|exact stake_view_ok|exact staked_ids|exact E|]. exists eff, s. split; [reflexivity|exact Hi].
Defined.
Lemma connect_block_refines_coins_witness :
  ∃ eff s c, after_block = (Ok eff, s) ∧
    DisconnectBlock (H0 := toy_crypto) 1000 (vtx staked_block) staked_hash (replicate 32 4) 241001 (Some (undo_data eff)) (view s)
      = Ok (DISCONNECT_OK, c) ∧ shows c ≐ shows stake_view.
Proof.
  pose proof after_block_ok as Hok. destruct after_block as [[eff|e] s] eqn:E; [clear Hok|discriminate Hok].
  destruct (connect_block_refines_coins (C := toy_crypto) (HG := toy_executive) no_checks stake_map stake_params staked_block staked_hash staked_entry
    staked_hash_fresh false unchecked before_block eff s 1000 (replicate 32 4)) as (_ & _ & c & Hd & _ & Hs & _);
    [exact stake_view_ok|exact staked_ids|exact E|vm_compute; split; reflexivity|vm_compute; reflexivity|exact stake_restorable|].
  exists eff, s, c. split; [reflexivity|]. split; [exact Hd|exact Hs].
Defined.
Lemma connect_block_verifies_scripts_witness :
  ∃ fl, input_verified (C := toy_crypto) no_checks (spec_txs (H1 := toy_crypto) (shows stake_view) 241001 [block_coinbase; block_stake]) fl
          block_payment 0 (mk_txin spend_outpoint [] SEQUENCE_FINAL []).
Proof.
  pose proof after_block_ok as Hok. destruct after_block as [[eff|e] s] eqn:E; [clear Hok|discriminate Hok].
  destruct (connect_block_verifies_scripts (C := toy_crypto) (HG := toy_executive) no_checks stake_map stake_params staked_block staked_hash staked_entry
    staked_hash_fresh false unchecked before_block eff s) as (fl & v & v' & _ & Hall);
    [exact stake_view_ok|exact staked_ids|vm_compute; reflexivity|exact E|]. exists fl. exact (proj2 (Hall 2%nat block_payment eq_refl eq_refl) eq_refl 0%nat _ eq_refl).
Defined.
