(* ===== verification/Hasher.v ===== *)
(** * Streaming hash functions (crypto/common.h, the classes of crypto/)

    The hashers keep a state, a buffer of 64 bytes and a count of bytes.  Data of
    any sizes may be written one after the other; [Finalize] pads.  The section is
    over the transformation of a chunk; the theorem says that a hasher computes the
    iterated transformation of the padded message, however it was cut. *)
From S2P Require Import Prelude ArithUint256 Script Serialize.

(** ** Big-endian words *)

Definition ReadBE32 (p : bytes) (off : nat) : Z := ReadLE32 (rev (take 4 (drop off p))) 0.
Definition WriteBE32 (x : Z) : bytes := rev (WriteLE32 x).
Definition WriteLE64 (x : Z) : bytes := ser_writedata64 x.
Definition WriteBE64 (x : Z) : bytes := rev (WriteLE64 x).

(** ** Hashers *)

Record hasher (St : Type) := mk_hasher { hs : St; buf : bytes; count : Z }.
Arguments mk_hasher {St} _ _ _.
Arguments hs {St} _.
Arguments buf {St} _.
Arguments count {St} _.

(** [memcpy(buf + off, data, data.size())]. *)
Definition memcpy (b : bytes) (off : nat) (data : bytes) : bytes := take off b ++ data ++ drop (off + length data) b.

Section Hasher.
Context {St : Type} (Transform : St → bytes → St).
Implicit Types (h : hasher St) (s : St) (data m : bytes).

(** [n] chunks. *)
Fixpoint transform_blocks (n : nat) s data : St :=
  match n with
  | O => s
  | S n => transform_blocks n (Transform s (take 64 data)) (drop 64 data)
  end.
(** The first part of [Write]: fill the buffer and process it. *)
Definition fill_buffer h data : hasher St * bytes * nat :=
  let bufsize := Z.to_nat (count h mod 64) in
  if negb (bufsize =? 0)%nat && (64 <=? bufsize + length data)%nat then
    let n := (64 - bufsize)%nat in
    let b := memcpy (buf h) bufsize (take n data) in
    (mk_hasher (Transform (hs h) b) b (u64 (count h + Z.of_nat n)), drop n data, O)
  else (h, data, bufsize).
(** The last part: keep what remains. *)
Definition keep_rest h (bufsize : nat) data : hasher St :=
  match data with
  | [] => h
  | _ => mk_hasher (hs h) (memcpy (buf h) bufsize data) (u64 (count h + Z.of_nat (length data)))
  end.
(** [Write] with a transformation of several chunks at a time. *)
Definition Write_blocks h data : hasher St :=
  let '(h, data, bufsize) := fill_buffer h data in
  let '(h, data) :=
    if (64 <=? length data)%nat then
      let blocks := (length data / 64)%nat in
      (mk_hasher (transform_blocks blocks (hs h) data) (buf h) (u64 (count h + Z.of_nat (64 * blocks))), drop (64 * blocks) data)
    else (h, data) in
  keep_rest h bufsize data.
(** [Write] with a loop over chunks; [fuel] bounds their number. *)
Fixpoint chunk_loop (fuel : nat) h data : hasher St * bytes :=
  match fuel with
  | O => (h, data)
  | S fuel =>
      if (64 <=? length data)%nat
      then chunk_loop fuel (mk_hasher (Transform (hs h) (take 64 data)) (buf h) (u64 (count h + 64))) (drop 64 data)
      else (h, data)
  end.
Definition Write_loop h data : hasher St :=
  let '(h, data, bufsize) := fill_buffer h data in
  let '(h, data) := chunk_loop (length data) h data in
  keep_rest h bufsize data.

Definition pad_block : bytes := 0x80 :: replicate 63 0.
(** The state from which the digest is written. *)
Definition Finalize_with (Write : hasher St → bytes → hasher St) (encode : Z → bytes) h : St :=
  let sizedesc := encode (u64 (count h <<' 3)) in
  let h := Write h (take (Z.to_nat (1 + (119 - count h mod 64) mod 64)) pad_block) in
  hs (Write h sizedesc).

(** ** The padded message *)

Definition padded (encode : Z → bytes) m : bytes :=
  m ++ take (Z.to_nat (1 + (119 - size m mod 64) mod 64)) pad_block ++ encode (u64 (8 * size m)).
(** The iterated transformation. *)
Definition iterate (init : St) m : St := transform_blocks (length m / 64) init m.

(** What a hasher holds after the bytes [m]. *)
Definition hashed (init : St) h m : Prop :=
  ∃ k m1 m2, m = m1 ++ m2 ∧ length m1 = (64 * k)%nat ∧ (length m2 < 64)%nat ∧ length (buf h) = 64%nat ∧
    hs h = transform_blocks k init m1 ∧ take (length m2) (buf h) = m2 ∧ count h = u64 (size m).

Lemma transform_app k : ∀ n s a b, length a = (64 * k)%nat → transform_blocks (k + n) s (a ++ b) = transform_blocks n (transform_blocks k s a) b.
Proof.
  induction k as [|k IH]; intros n s a b Ha; cbn [transform_blocks Nat.add].
  - by destruct a.
  - rewrite take_app_le, drop_app_le by lia. rewrite IH; [done|]. rewrite length_drop. lia.
Qed.
Lemma transform_take n s a : (64 * n ≤ length a)%nat → transform_blocks n s (take (64 * n) a) = transform_blocks n s a.
Proof.
  intros Hl. pose proof (transform_app n 0 s (take (64 * n) a) (drop (64 * n) a)) as E.
  rewrite take_drop, Nat.add_0_r in E. rewrite E by (rewrite length_take; lia). done.
Qed.
Lemma u64_mod64 x : u64 x mod 64 = x mod 64.
Proof. unfold u64, wrap. rewrite <- Znumtheory.Zmod_div_mod; [done|lia|done|]. by exists (2 ^ 58). Qed.
Lemma memcpy_length b off data : (off + length data ≤ length b)%nat → length (memcpy b off data) = length b.
Proof. intros Hl. unfold memcpy. rewrite !length_app, length_take, length_drop. lia. Qed.
Lemma memcpy_take b off data : (off ≤ length b)%nat → take (off + length data) (memcpy b off data) = take off b ++ data.
Proof.
  intros Hl. unfold memcpy. rewrite app_assoc, take_app_le by (rewrite length_app, length_take; lia).
  apply take_ge. rewrite length_app, length_take. lia.
Qed.

(** A hasher with an empty buffer and a count. *)
Lemma keep_rest_hashed init h m1 k bufsize data m2 :
  length m1 = (64 * k)%nat → length (buf h) = 64%nat → hs h = transform_blocks k init m1 →
  bufsize = length m2 → take bufsize (buf h) = m2 → count h = u64 (size (m1 ++ m2)) → (length m2 + length data < 64)%nat →
  hashed init (keep_rest h bufsize data) (m1 ++ m2 ++ data).
Proof.
  intros Hm1 Hb Hs -> Ht Hn Hd. exists k, m1, (m2 ++ data). destruct data as [|x data].
  { rewrite app_nil_r. cbn [keep_rest]. split_and!; try done. lia. }
  cbn [keep_rest hs buf count]. rewrite length_app. split_and!; try done.
  - rewrite memcpy_length; [done|]. lia.
  - rewrite memcpy_take by lia. by rewrite Ht.
  - rewrite Hn, u64_add_l. f_equal. unfold size. rewrite !length_app. lia.
Qed.
Lemma fill_buffer_hashed init h m data h' data' bufsize :
  hashed init h m → fill_buffer h data = (h', data', bufsize) →
  ∃ k m1 m2, m ++ data = m1 ++ m2 ++ data' ∧ length m1 = (64 * k)%nat ∧ length (buf h') = 64%nat ∧ hs h' = transform_blocks k init m1 ∧
    bufsize = length m2 ∧ take bufsize (buf h') = m2 ∧ count h' = u64 (size (m1 ++ m2)) ∧
    (m2 = [] ∨ (length m2 + length data' < 64)%nat).
Proof.
  intros (k & m1 & m2 & -> & Hm1 & Hm2 & Hb & Hs & Ht & Hn). unfold fill_buffer.
  assert (Z.to_nat (count h mod 64) = length m2) as ->.
  { rewrite Hn, u64_mod64. unfold size. rewrite length_app, Hm1.
    replace (Z.of_nat (64 * k + length m2)) with (Z.of_nat (length m2) + Z.of_nat k * 64) by lia. rewrite Z_mod_plus_full, Z.mod_small; lia. }
  destruct (negb _ && _) eqn:E; intros [= <- <- <-].
  - apply andb_true_iff in E as [E1 E2]. apply Nat.leb_le in E2. set (n := (64 - length m2)%nat).
    assert (length (take n data) = n) as Hn' by (rewrite length_take; lia).
    exists (k + 1)%nat, (m1 ++ m2 ++ take n data), []. rewrite app_nil_r. cbn [buf hs count length take].
    assert (memcpy (buf h) (length m2) (take n data) = m2 ++ take n data) as Hmc.
    { rewrite <- (take_ge (memcpy _ _ _) (length m2 + length (take n data))) by (rewrite memcpy_length; lia).
      rewrite memcpy_take by lia. by rewrite Ht. }
    rewrite Hmc. split_and!; try done.
    + cbn [app]. by rewrite <- !app_assoc, take_drop.
    + rewrite !length_app. lia.
    + rewrite length_app. lia.
    + rewrite transform_app by done. cbn [transform_blocks]. rewrite (take_ge (m2 ++ take n data)) by (rewrite length_app; lia). by rewrite Hs.
    + rewrite Hn, u64_add_l. f_equal. unfold size. rewrite !length_app. lia.
    + by left.
  - exists k, m1, m2. split_and!; try done; [by rewrite <- app_assoc|].
    apply andb_false_iff in E as [E|E]; [left; destruct m2; [done|discriminate]|right; apply Nat.leb_gt in E; lia].
Qed.

(** Whole chunks, then the rest. *)
Lemma chunks_hashed init h m1 k d n :
  length m1 = (64 * k)%nat → length (buf h) = 64%nat → hs h = transform_blocks k init m1 → count h = u64 (size m1) →
  (64 * n ≤ length d < 64 * n + 64)%nat →
  hashed init (keep_rest (mk_hasher (transform_blocks n (hs h) d) (buf h) (u64 (count h + Z.of_nat (64 * n)))) 0 (drop (64 * n) d)) (m1 ++ d).
Proof.
  intros Hm1 Hb Hs Hn Hr. rewrite <- (take_drop (64 * n) d) at 3. rewrite app_assoc.
  apply (keep_rest_hashed init _ (m1 ++ take (64 * n) d) (k + n) 0 (drop (64 * n) d) []); try done; cbn [buf hs count].
  - rewrite length_app, length_take. lia.
  - rewrite transform_app by done. rewrite <- Hs. symmetry. apply transform_take. lia.
  - rewrite Hn, u64_add_l, app_nil_r. f_equal. unfold size. rewrite length_app, length_take. lia.
  - cbn [length]. rewrite length_drop. lia.
Qed.
Lemma div64 n : (64 * (n / 64) ≤ n < 64 * (n / 64) + 64)%nat.
Proof. pose proof (Nat.div_mod n 64). pose proof (Nat.mod_upper_bound n 64). lia. Qed.
Lemma Write_blocks_hashed init h m data : hashed init h m → hashed init (Write_blocks h data) (m ++ data).
Proof.
  intros Hh. unfold Write_blocks. destruct (fill_buffer h data) as [[h1 d1] bufsize] eqn:E.
  destruct (fill_buffer_hashed _ _ _ _ _ _ _ Hh E) as (k & m1 & m2 & -> & Hm1 & Hb & Hs & -> & Ht & Hn & Hm2).
  destruct (Nat.leb_spec 64 (length d1)).
  - destruct Hm2 as [->|]; [|lia]. rewrite app_nil_r in Hn. eapply chunks_hashed; try done. apply div64.
  - eapply keep_rest_hashed; try done. destruct Hm2 as [->|?]; cbn; lia.
Qed.
Lemma chunk_loop_blocks fuel : ∀ h data,
  (length data < 64 * fuel + 64)%nat → in_u 64 (count h) →
  let n := (length data / 64)%nat in
  chunk_loop fuel h data = (mk_hasher (transform_blocks n (hs h) data) (buf h) (u64 (count h + Z.of_nat (64 * n))), drop (64 * n) data).
Proof.
  induction fuel as [|fuel IH]; intros h data Hl Hc n; subst n.
  { rewrite Nat.div_small by lia. cbn. rewrite Z.add_0_r, u64_small by done. by destruct h. }
  cbn [chunk_loop]. destruct (Nat.leb_spec 64 (length data)).
  - replace (length data) with (1 * 64 + (length data - 64))%nat by lia. rewrite Nat.div_add_l by done.
    rewrite <- length_drop. rewrite IH; [|rewrite length_drop; lia|apply wrap_range; lia]. cbn [transform_blocks hs buf count Nat.add].
    rewrite u64_add_l, drop_drop. f_equal; [|f_equal; lia]. f_equal. f_equal. lia.
  - rewrite Nat.div_small by lia. cbn. rewrite Z.add_0_r, u64_small by done. by destruct h.
Qed.
Lemma hashed_count init h m : hashed init h m → in_u 64 (count h).
Proof. intros (k & m1 & m2 & _ & _ & _ & _ & _ & _ & ->). apply wrap_range. lia. Qed.
Lemma Write_loop_hashed init h m data : hashed init h m → hashed init (Write_loop h data) (m ++ data).
Proof.
  intros Hh. unfold Write_loop. destruct (fill_buffer h data) as [[h1 d1] bufsize] eqn:E.
  destruct (fill_buffer_hashed _ _ _ _ _ _ _ Hh E) as (k & m1 & m2 & -> & Hm1 & Hb & Hs & -> & Ht & Hn & Hm2).
  rewrite chunk_loop_blocks; [|lia|rewrite Hn; apply wrap_range; lia].
  destruct Hm2 as [->|Hlt].
  - rewrite app_nil_r in Hn. eapply chunks_hashed; try done. apply div64.
  - rewrite Nat.div_small by lia. cbn [transform_blocks Nat.mul]. rewrite Z.add_0_r, drop_0, u64_small by (rewrite Hn; apply wrap_range; lia).
    eapply keep_rest_hashed; try done.
Qed.

(** ** Finishing *)

Lemma padded_length encode m : (∀ x, length (encode x) = 8%nat) → ∃ k, length (padded encode m) = (64 * k)%nat.
Proof.
  intros He. unfold padded. rewrite !length_app, length_take, He. cbn [pad_block length]. rewrite length_replicate. unfold size.
  exists (Z.to_nat ((Z.of_nat (length m) + 72) / 64)).
  pose proof (Z.mod_pos_bound (119 - Z.of_nat (length m) mod 64) 64). rewrite Nat.min_l by lia.
  Z.to_euclidean_division_equations. lia.
Qed.
Lemma iterate_app init m1 m2 k n : length m1 = (64 * k)%nat → length m2 = (64 * n)%nat → iterate init (m1 ++ m2) = transform_blocks n (transform_blocks k init m1) m2.
Proof.
  intros H1 H2. unfold iterate. rewrite length_app, H1, H2, <- Nat.mul_add_distr_l, Nat.mul_comm, Nat.div_mul by done.
  by apply transform_app.
Qed.
(** However the message was written, the state at the end is the iterated
    transformation of the padded message. *)
Lemma Finalize_hashed (Write : hasher St → bytes → hasher St) (encode : Z → bytes) init h m :
  (∀ h m data, hashed init h m → hashed init (Write h data) (m ++ data)) → (∀ x, length (encode x) = 8%nat) →
  hashed init h m → Finalize_with Write encode h = iterate init (padded encode m).
Proof.
  intros HW He Hh. unfold Finalize_with. pose proof Hh as (k & m1 & m2 & _ & _ & _ & _ & _ & _ & Hc).
  assert (u64 (count h <<' 3) = u64 (8 * size m)) as ->.
  { rewrite Hc, shl_mul by lia. unfold u64, wrap. rewrite Zmult_mod_idemp_l. f_equal. lia. }
  rewrite Hc, u64_mod64. apply HW with (data := take (Z.to_nat (1 + (119 - size m mod 64) mod 64)) pad_block) in Hh.
  apply HW with (data := encode (u64 (8 * size m))) in Hh. rewrite <- app_assoc in Hh. fold (padded encode m) in Hh.
  destruct Hh as (k' & m1' & m2' & E & Hm1 & Hm2 & _ & Hs & _). rewrite Hs.
  destruct (padded_length encode m He) as [n Hn]. rewrite E in Hn |- *. rewrite length_app, Hm1 in Hn.
  assert (m2' = []) as -> by (apply nil_length_inv; lia). rewrite app_nil_r. unfold iterate. f_equal.
  rewrite Hm1, Nat.mul_comm, Nat.div_mul; done.
Qed.
Lemma new_hashed init junk : length junk = 64%nat → hashed init (mk_hasher init junk 0) [].
Proof. intros Hj. exists 0%nat, [], []. split_and!; try done. cbn. lia. Qed.
Lemma writes_hashed (Write : hasher St → bytes → hasher St) init chunks : ∀ h m,
  (∀ h m data, hashed init h m → hashed init (Write h data) (m ++ data)) →
  hashed init h m → hashed init (foldl Write h chunks) (m ++ mjoin chunks).
Proof.
  induction chunks as [|c l IH]; intros h m HW Hh; cbn [foldl mjoin list_join]; [by rewrite app_nil_r|].
  cbn. rewrite app_assoc. by apply IH; [|apply HW].
Qed.
End Hasher.
