(* ===== verification/Sha256.v ===== *)
(** * SHA-256 (crypto/sha256.h, crypto/sha256.cpp)

    The transformation of the source keeps eight registers, whose roles rotate from
    line to line, and a window of sixteen words that is updated in place.  Each line
    [Round(...)] is a [line]: the register in the role of [a], the constant, and the
    word with what happens to the window.  [TransformD64] is the double hash of 64
    bytes with the constant parts worked out beforehand.  The variants for vector
    instructions are arguments of [SHA256D64]. *)
From S2P Require Import Prelude ArithUint256 Script Interpreter Serialize Hasher.

(** ** Rounds *)

Definition Ch (x y z : Z) : Z := z ^' (x &' (y ^' z)).
Definition Maj (x y z : Z) : Z := (x &' y) |' (z &' (x |' y)).
Definition Sigma0 (x : Z) : Z :=
  ((x >>' 2) |' u32 (x <<' 30)) ^' ((x >>' 13) |' u32 (x <<' 19)) ^' ((x >>' 22) |' u32 (x <<' 10)).
Definition Sigma1 (x : Z) : Z :=
  ((x >>' 6) |' u32 (x <<' 26)) ^' ((x >>' 11) |' u32 (x <<' 21)) ^' ((x >>' 25) |' u32 (x <<' 7)).
Definition sigma0 (x : Z) : Z := ((x >>' 7) |' u32 (x <<' 25)) ^' ((x >>' 18) |' u32 (x <<' 14)) ^' (x >>' 3).
Definition sigma1 (x : Z) : Z := ((x >>' 17) |' u32 (x <<' 15)) ^' ((x >>' 19) |' u32 (x <<' 13)) ^' (x >>' 10).

(** The new values of [d] and [h]. *)
Definition Round (a b c d e f g h k : Z) : Z * Z :=
  let t1 := u32 (h + Sigma1 e + Ch e f g + k) in
  let t2 := u32 (Sigma0 a + Maj a b c) in
  (u32 (d + t1), u32 (t1 + t2)).

Definition Initialize : list Z :=
  [0x6a09e667; 0xbb67ae85; 0x3c6ef372; 0xa54ff53a; 0x510e527f; 0x9b05688c; 0x1f83d9ab; 0x5be0cd19].

(** What is added up for a word: [ReadBE32(chunk + off)], [w_i], [sigma0(w_i)],
    [sigma1(w_i)] or a constant. *)
Inductive term := Rd (off : nat) | Wd (i : nat) | Sg0 (i : nat) | Sg1 (i : nat) | Cst (c : Z).
(** [w_i = ...], [w_i += ...], or a value that is not kept. *)
Inductive word := Set_ (i : nat) (l : list term) | Add_ (i : nat) (l : list term) | Val (l : list term).
Record line := mk_line { first : nat; constant : Z; arg : word }.
Definition ra := mk_line 0.
Definition rb := mk_line 1.
Definition rc := mk_line 2.
Definition rd := mk_line 3.
Definition re := mk_line 4.
Definition rf := mk_line 5.
Definition rg := mk_line 6.
Definition rh := mk_line 7.

Definition term_value (chunk : bytes) (w : list Z) (t : term) : Z :=
  match t with
  | Rd off => ReadBE32 chunk off
  | Wd i => nth i w 0
  | Sg0 i => sigma0 (nth i w 0)
  | Sg1 i => sigma1 (nth i w 0)
  | Cst c => c
  end.
Definition terms_value (chunk : bytes) (w : list Z) (l : list term) : Z := sum_of (term_value chunk w) l.
(** The value of a word and the window after it. *)
Definition word_value (chunk : bytes) (w : list Z) (x : word) : Z * list Z :=
  match x with
  | Set_ i l => let v := u32 (terms_value chunk w l) in (v, <[i := v]> w)
  | Add_ i l => let v := u32 (nth i w 0 + terms_value chunk w l) in (v, <[i := v]> w)
  | Val l => (u32 (terms_value chunk w l), w)
  end.
Definition run_line (chunk : bytes) (st : list Z * list Z) (l : line) : list Z * list Z :=
  let '(regs, w) := st in
  let '(x, w) := word_value chunk w (arg l) in
  let r i := nth ((first l + i) mod 8) regs 0 in
  let k := u32 (constant l + x) in
  let '(d, h) := (Round (r 0) (r 1) (r 2) (r 3) (r 4) (r 5) (r 6) (r 7) k)%nat in
  (<[((first l + 3) mod 8)%nat := d]> (<[((first l + 7) mod 8)%nat := h]> regs), w).
Definition run_lines (chunk : bytes) (st : list Z * list Z) (l : list line) : list Z * list Z := foldl (run_line chunk) st l.
Definition add_words : list Z → list Z → list Z := zip_with (λ x y, u32 (x + y)).

(** The rounds of [Transform]. *)
Definition Transform_rounds : list line := [
  ra 0x428a2f98 (Set_ 0 [Rd 0]);
  rh 0x71374491 (Set_ 1 [Rd 4]);
  rg 0xb5c0fbcf (Set_ 2 [Rd 8]);
  rf 0xe9b5dba5 (Set_ 3 [Rd 12]);
  re 0x3956c25b (Set_ 4 [Rd 16]);
  rd 0x59f111f1 (Set_ 5 [Rd 20]);
  rc 0x923f82a4 (Set_ 6 [Rd 24]);
  rb 0xab1c5ed5 (Set_ 7 [Rd 28]);
  ra 0xd807aa98 (Set_ 8 [Rd 32]);
  rh 0x12835b01 (Set_ 9 [Rd 36]);
  rg 0x243185be (Set_ 10 [Rd 40]);
  rf 0x550c7dc3 (Set_ 11 [Rd 44]);
  re 0x72be5d74 (Set_ 12 [Rd 48]);
  rd 0x80deb1fe (Set_ 13 [Rd 52]);
  rc 0x9bdc06a7 (Set_ 14 [Rd 56]);
  rb 0xc19bf174 (Set_ 15 [Rd 60]);
  ra 0xe49b69c1 (Add_ 0 [Sg1 14; Wd 9; Sg0 1]);
  rh 0xefbe4786 (Add_ 1 [Sg1 15; Wd 10; Sg0 2]);
  rg 0x0fc19dc6 (Add_ 2 [Sg1 0; Wd 11; Sg0 3]);
  rf 0x240ca1cc (Add_ 3 [Sg1 1; Wd 12; Sg0 4]);
  re 0x2de92c6f (Add_ 4 [Sg1 2; Wd 13; Sg0 5]);
  rd 0x4a7484aa (Add_ 5 [Sg1 3; Wd 14; Sg0 6]);
  rc 0x5cb0a9dc (Add_ 6 [Sg1 4; Wd 15; Sg0 7]);
  rb 0x76f988da (Add_ 7 [Sg1 5; Wd 0; Sg0 8]);
  ra 0x983e5152 (Add_ 8 [Sg1 6; Wd 1; Sg0 9]);
  rh 0xa831c66d (Add_ 9 [Sg1 7; Wd 2; Sg0 10]);
  rg 0xb00327c8 (Add_ 10 [Sg1 8; Wd 3; Sg0 11]);
  rf 0xbf597fc7 (Add_ 11 [Sg1 9; Wd 4; Sg0 12]);
  re 0xc6e00bf3 (Add_ 12 [Sg1 10; Wd 5; Sg0 13]);
  rd 0xd5a79147 (Add_ 13 [Sg1 11; Wd 6; Sg0 14]);
  rc 0x06ca6351 (Add_ 14 [Sg1 12; Wd 7; Sg0 15]);
  rb 0x14292967 (Add_ 15 [Sg1 13; Wd 8; Sg0 0]);
  ra 0x27b70a85 (Add_ 0 [Sg1 14; Wd 9; Sg0 1]);
  rh 0x2e1b2138 (Add_ 1 [Sg1 15; Wd 10; Sg0 2]);
  rg 0x4d2c6dfc (Add_ 2 [Sg1 0; Wd 11; Sg0 3]);
  rf 0x53380d13 (Add_ 3 [Sg1 1; Wd 12; Sg0 4]);
  re 0x650a7354 (Add_ 4 [Sg1 2; Wd 13; Sg0 5]);
  rd 0x766a0abb (Add_ 5 [Sg1 3; Wd 14; Sg0 6]);
  rc 0x81c2c92e (Add_ 6 [Sg1 4; Wd 15; Sg0 7]);
  rb 0x92722c85 (Add_ 7 [Sg1 5; Wd 0; Sg0 8]);
  ra 0xa2bfe8a1 (Add_ 8 [Sg1 6; Wd 1; Sg0 9]);
  rh 0xa81a664b (Add_ 9 [Sg1 7; Wd 2; Sg0 10]);
  rg 0xc24b8b70 (Add_ 10 [Sg1 8; Wd 3; Sg0 11]);
  rf 0xc76c51a3 (Add_ 11 [Sg1 9; Wd 4; Sg0 12]);
  re 0xd192e819 (Add_ 12 [Sg1 10; Wd 5; Sg0 13]);
  rd 0xd6990624 (Add_ 13 [Sg1 11; Wd 6; Sg0 14]);
  rc 0xf40e3585 (Add_ 14 [Sg1 12; Wd 7; Sg0 15]);
  rb 0x106aa070 (Add_ 15 [Sg1 13; Wd 8; Sg0 0]);
  ra 0x19a4c116 (Add_ 0 [Sg1 14; Wd 9; Sg0 1]);
  rh 0x1e376c08 (Add_ 1 [Sg1 15; Wd 10; Sg0 2]);
  rg 0x2748774c (Add_ 2 [Sg1 0; Wd 11; Sg0 3]);
  rf 0x34b0bcb5 (Add_ 3 [Sg1 1; Wd 12; Sg0 4]);
  re 0x391c0cb3 (Add_ 4 [Sg1 2; Wd 13; Sg0 5]);
  rd 0x4ed8aa4a (Add_ 5 [Sg1 3; Wd 14; Sg0 6]);
  rc 0x5b9cca4f (Add_ 6 [Sg1 4; Wd 15; Sg0 7]);
  rb 0x682e6ff3 (Add_ 7 [Sg1 5; Wd 0; Sg0 8]);
  ra 0x748f82ee (Add_ 8 [Sg1 6; Wd 1; Sg0 9]);
  rh 0x78a5636f (Add_ 9 [Sg1 7; Wd 2; Sg0 10]);
  rg 0x84c87814 (Add_ 10 [Sg1 8; Wd 3; Sg0 11]);
  rf 0x8cc70208 (Add_ 11 [Sg1 9; Wd 4; Sg0 12]);
  re 0x90befffa (Add_ 12 [Sg1 10; Wd 5; Sg0 13]);
  rd 0xa4506ceb (Add_ 13 [Sg1 11; Wd 6; Sg0 14]);
  rc 0xbef9a3f7 (Val [Wd 14; Sg1 12; Wd 7; Sg0 15]);
  rb 0xc67178f2 (Val [Wd 15; Sg1 13; Wd 8; Sg0 0])
].

(** The rounds of [TransformD64], transform 1. *)
Definition D64_rounds1 : list line := [
  ra 0x428a2f98 (Set_ 0 [Rd 0]);
  rh 0x71374491 (Set_ 1 [Rd 4]);
  rg 0xb5c0fbcf (Set_ 2 [Rd 8]);
  rf 0xe9b5dba5 (Set_ 3 [Rd 12]);
  re 0x3956c25b (Set_ 4 [Rd 16]);
  rd 0x59f111f1 (Set_ 5 [Rd 20]);
  rc 0x923f82a4 (Set_ 6 [Rd 24]);
  rb 0xab1c5ed5 (Set_ 7 [Rd 28]);
  ra 0xd807aa98 (Set_ 8 [Rd 32]);
  rh 0x12835b01 (Set_ 9 [Rd 36]);
  rg 0x243185be (Set_ 10 [Rd 40]);
  rf 0x550c7dc3 (Set_ 11 [Rd 44]);
  re 0x72be5d74 (Set_ 12 [Rd 48]);
  rd 0x80deb1fe (Set_ 13 [Rd 52]);
  rc 0x9bdc06a7 (Set_ 14 [Rd 56]);
  rb 0xc19bf174 (Set_ 15 [Rd 60]);
  ra 0xe49b69c1 (Add_ 0 [Sg1 14; Wd 9; Sg0 1]);
  rh 0xefbe4786 (Add_ 1 [Sg1 15; Wd 10; Sg0 2]);
  rg 0x0fc19dc6 (Add_ 2 [Sg1 0; Wd 11; Sg0 3]);
  rf 0x240ca1cc (Add_ 3 [Sg1 1; Wd 12; Sg0 4]);
  re 0x2de92c6f (Add_ 4 [Sg1 2; Wd 13; Sg0 5]);
  rd 0x4a7484aa (Add_ 5 [Sg1 3; Wd 14; Sg0 6]);
  rc 0x5cb0a9dc (Add_ 6 [Sg1 4; Wd 15; Sg0 7]);
  rb 0x76f988da (Add_ 7 [Sg1 5; Wd 0; Sg0 8]);
  ra 0x983e5152 (Add_ 8 [Sg1 6; Wd 1; Sg0 9]);
  rh 0xa831c66d (Add_ 9 [Sg1 7; Wd 2; Sg0 10]);
  rg 0xb00327c8 (Add_ 10 [Sg1 8; Wd 3; Sg0 11]);
  rf 0xbf597fc7 (Add_ 11 [Sg1 9; Wd 4; Sg0 12]);
  re 0xc6e00bf3 (Add_ 12 [Sg1 10; Wd 5; Sg0 13]);
  rd 0xd5a79147 (Add_ 13 [Sg1 11; Wd 6; Sg0 14]);
  rc 0x06ca6351 (Add_ 14 [Sg1 12; Wd 7; Sg0 15]);
  rb 0x14292967 (Add_ 15 [Sg1 13; Wd 8; Sg0 0]);
  ra 0x27b70a85 (Add_ 0 [Sg1 14; Wd 9; Sg0 1]);
  rh 0x2e1b2138 (Add_ 1 [Sg1 15; Wd 10; Sg0 2]);
  rg 0x4d2c6dfc (Add_ 2 [Sg1 0; Wd 11; Sg0 3]);
  rf 0x53380d13 (Add_ 3 [Sg1 1; Wd 12; Sg0 4]);
  re 0x650a7354 (Add_ 4 [Sg1 2; Wd 13; Sg0 5]);
  rd 0x766a0abb (Add_ 5 [Sg1 3; Wd 14; Sg0 6]);
  rc 0x81c2c92e (Add_ 6 [Sg1 4; Wd 15; Sg0 7]);
  rb 0x92722c85 (Add_ 7 [Sg1 5; Wd 0; Sg0 8]);
  ra 0xa2bfe8a1 (Add_ 8 [Sg1 6; Wd 1; Sg0 9]);
  rh 0xa81a664b (Add_ 9 [Sg1 7; Wd 2; Sg0 10]);
  rg 0xc24b8b70 (Add_ 10 [Sg1 8; Wd 3; Sg0 11]);
  rf 0xc76c51a3 (Add_ 11 [Sg1 9; Wd 4; Sg0 12]);
  re 0xd192e819 (Add_ 12 [Sg1 10; Wd 5; Sg0 13]);
  rd 0xd6990624 (Add_ 13 [Sg1 11; Wd 6; Sg0 14]);
  rc 0xf40e3585 (Add_ 14 [Sg1 12; Wd 7; Sg0 15]);
  rb 0x106aa070 (Add_ 15 [Sg1 13; Wd 8; Sg0 0]);
  ra 0x19a4c116 (Add_ 0 [Sg1 14; Wd 9; Sg0 1]);
  rh 0x1e376c08 (Add_ 1 [Sg1 15; Wd 10; Sg0 2]);
  rg 0x2748774c (Add_ 2 [Sg1 0; Wd 11; Sg0 3]);
  rf 0x34b0bcb5 (Add_ 3 [Sg1 1; Wd 12; Sg0 4]);
  re 0x391c0cb3 (Add_ 4 [Sg1 2; Wd 13; Sg0 5]);
  rd 0x4ed8aa4a (Add_ 5 [Sg1 3; Wd 14; Sg0 6]);
  rc 0x5b9cca4f (Add_ 6 [Sg1 4; Wd 15; Sg0 7]);
  rb 0x682e6ff3 (Add_ 7 [Sg1 5; Wd 0; Sg0 8]);
  ra 0x748f82ee (Add_ 8 [Sg1 6; Wd 1; Sg0 9]);
  rh 0x78a5636f (Add_ 9 [Sg1 7; Wd 2; Sg0 10]);
  rg 0x84c87814 (Add_ 10 [Sg1 8; Wd 3; Sg0 11]);
  rf 0x8cc70208 (Add_ 11 [Sg1 9; Wd 4; Sg0 12]);
  re 0x90befffa (Add_ 12 [Sg1 10; Wd 5; Sg0 13]);
  rd 0xa4506ceb (Add_ 13 [Sg1 11; Wd 6; Sg0 14]);
  rc 0xbef9a3f7 (Val [Wd 14; Sg1 12; Wd 7; Sg0 15]);
  rb 0xc67178f2 (Val [Wd 15; Sg1 13; Wd 8; Sg0 0])
].

(** Transform 2: the padding of 64 bytes is in the constants. *)
Definition D64_rounds2 : list line := [
  ra 0xc28a2f98 (Val []);
  rh 0x71374491 (Val []);
  rg 0xb5c0fbcf (Val []);
  rf 0xe9b5dba5 (Val []);
  re 0x3956c25b (Val []);
  rd 0x59f111f1 (Val []);
  rc 0x923f82a4 (Val []);
  rb 0xab1c5ed5 (Val []);
  ra 0xd807aa98 (Val []);
  rh 0x12835b01 (Val []);
  rg 0x243185be (Val []);
  rf 0x550c7dc3 (Val []);
  re 0x72be5d74 (Val []);
  rd 0x80deb1fe (Val []);
  rc 0x9bdc06a7 (Val []);
  rb 0xc19bf374 (Val []);
  ra 0x649b69c1 (Val []);
  rh 0xf0fe4786 (Val []);
  rg 0x0fe1edc6 (Val []);
  rf 0x240cf254 (Val []);
  re 0x4fe9346f (Val []);
  rd 0x6cc984be (Val []);
  rc 0x61b9411e (Val []);
  rb 0x16f988fa (Val []);
  ra 0xf2c65152 (Val []);
  rh 0xa88e5a6d (Val []);
  rg 0xb019fc65 (Val []);
  rf 0xb9d99ec7 (Val []);
  re 0x9a1231c3 (Val []);
  rd 0xe70eeaa0 (Val []);
  rc 0xfdb1232b (Val []);
  rb 0xc7353eb0 (Val []);
  ra 0x3069bad5 (Val []);
  rh 0xcb976d5f (Val []);
  rg 0x5a0f118f (Val []);
  rf 0xdc1eeefd (Val []);
  re 0x0a35b689 (Val []);
  rd 0xde0b7a04 (Val []);
  rc 0x58f4ca9d (Val []);
  rb 0xe15d5b16 (Val []);
  ra 0x007f3e86 (Val []);
  rh 0x37088980 (Val []);
  rg 0xa507ea32 (Val []);
  rf 0x6fab9537 (Val []);
  re 0x17406110 (Val []);
  rd 0x0d8cd6f1 (Val []);
  rc 0xcdaa3b6d (Val []);
  rb 0xc0bbbe37 (Val []);
  ra 0x83613bda (Val []);
  rh 0xdb48a363 (Val []);
  rg 0x0b02e931 (Val []);
  rf 0x6fd15ca7 (Val []);
  re 0x521afaca (Val []);
  rd 0x31338431 (Val []);
  rc 0x6ed41a95 (Val []);
  rb 0x6d437890 (Val []);
  ra 0xc39c91f2 (Val []);
  rh 0x9eccabbd (Val []);
  rg 0xb5c9a0e6 (Val []);
  rf 0x532fb63c (Val []);
  re 0xd2c741c6 (Val []);
  rd 0x07237ea3 (Val []);
  rc 0xa4954b68 (Val []);
  rb 0x4c191d76 (Val [])
].

(** Transform 3: a digest and its padding. *)
Definition D64_rounds3 : list line := [
  ra 0x428a2f98 (Val [Wd 0]);
  rh 0x71374491 (Val [Wd 1]);
  rg 0xb5c0fbcf (Val [Wd 2]);
  rf 0xe9b5dba5 (Val [Wd 3]);
  re 0x3956c25b (Val [Wd 4]);
  rd 0x59f111f1 (Val [Wd 5]);
  rc 0x923f82a4 (Val [Wd 6]);
  rb 0xab1c5ed5 (Val [Wd 7]);
  ra 0x5807aa98 (Val []);
  rh 0x12835b01 (Val []);
  rg 0x243185be (Val []);
  rf 0x550c7dc3 (Val []);
  re 0x72be5d74 (Val []);
  rd 0x80deb1fe (Val []);
  rc 0x9bdc06a7 (Val []);
  rb 0xc19bf274 (Val []);
  ra 0xe49b69c1 (Add_ 0 [Sg0 1]);
  rh 0xefbe4786 (Add_ 1 [Cst 0xa00000; Sg0 2]);
  rg 0x0fc19dc6 (Add_ 2 [Sg1 0; Sg0 3]);
  rf 0x240ca1cc (Add_ 3 [Sg1 1; Sg0 4]);
  re 0x2de92c6f (Add_ 4 [Sg1 2; Sg0 5]);
  rd 0x4a7484aa (Add_ 5 [Sg1 3; Sg0 6]);
  rc 0x5cb0a9dc (Add_ 6 [Sg1 4; Cst 0x100; Sg0 7]);
  rb 0x76f988da (Add_ 7 [Sg1 5; Wd 0; Cst 0x11002000]);
  ra 0x983e5152 (Set_ 8 [Cst 0x80000000; Sg1 6; Wd 1]);
  rh 0xa831c66d (Set_ 9 [Sg1 7; Wd 2]);
  rg 0xb00327c8 (Set_ 10 [Sg1 8; Wd 3]);
  rf 0xbf597fc7 (Set_ 11 [Sg1 9; Wd 4]);
  re 0xc6e00bf3 (Set_ 12 [Sg1 10; Wd 5]);
  rd 0xd5a79147 (Set_ 13 [Sg1 11; Wd 6]);
  rc 0x06ca6351 (Set_ 14 [Sg1 12; Wd 7; Cst 0x400022]);
  rb 0x14292967 (Set_ 15 [Cst 0x100; Sg1 13; Wd 8; Sg0 0]);
  ra 0x27b70a85 (Add_ 0 [Sg1 14; Wd 9; Sg0 1]);
  rh 0x2e1b2138 (Add_ 1 [Sg1 15; Wd 10; Sg0 2]);
  rg 0x4d2c6dfc (Add_ 2 [Sg1 0; Wd 11; Sg0 3]);
  rf 0x53380d13 (Add_ 3 [Sg1 1; Wd 12; Sg0 4]);
  re 0x650a7354 (Add_ 4 [Sg1 2; Wd 13; Sg0 5]);
  rd 0x766a0abb (Add_ 5 [Sg1 3; Wd 14; Sg0 6]);
  rc 0x81c2c92e (Add_ 6 [Sg1 4; Wd 15; Sg0 7]);
  rb 0x92722c85 (Add_ 7 [Sg1 5; Wd 0; Sg0 8]);
  ra 0xa2bfe8a1 (Add_ 8 [Sg1 6; Wd 1; Sg0 9]);
  rh 0xa81a664b (Add_ 9 [Sg1 7; Wd 2; Sg0 10]);
  rg 0xc24b8b70 (Add_ 10 [Sg1 8; Wd 3; Sg0 11]);
  rf 0xc76c51a3 (Add_ 11 [Sg1 9; Wd 4; Sg0 12]);
  re 0xd192e819 (Add_ 12 [Sg1 10; Wd 5; Sg0 13]);
  rd 0xd6990624 (Add_ 13 [Sg1 11; Wd 6; Sg0 14]);
  rc 0xf40e3585 (Add_ 14 [Sg1 12; Wd 7; Sg0 15]);
  rb 0x106aa070 (Add_ 15 [Sg1 13; Wd 8; Sg0 0]);
  ra 0x19a4c116 (Add_ 0 [Sg1 14; Wd 9; Sg0 1]);
  rh 0x1e376c08 (Add_ 1 [Sg1 15; Wd 10; Sg0 2]);
  rg 0x2748774c (Add_ 2 [Sg1 0; Wd 11; Sg0 3]);
  rf 0x34b0bcb5 (Add_ 3 [Sg1 1; Wd 12; Sg0 4]);
  re 0x391c0cb3 (Add_ 4 [Sg1 2; Wd 13; Sg0 5]);
  rd 0x4ed8aa4a (Add_ 5 [Sg1 3; Wd 14; Sg0 6]);
  rc 0x5b9cca4f (Add_ 6 [Sg1 4; Wd 15; Sg0 7]);
  rb 0x682e6ff3 (Add_ 7 [Sg1 5; Wd 0; Sg0 8]);
  ra 0x748f82ee (Add_ 8 [Sg1 6; Wd 1; Sg0 9]);
  rh 0x78a5636f (Add_ 9 [Sg1 7; Wd 2; Sg0 10]);
  rg 0x84c87814 (Add_ 10 [Sg1 8; Wd 3; Sg0 11]);
  rf 0x8cc70208 (Add_ 11 [Sg1 9; Wd 4; Sg0 12]);
  re 0x90befffa (Add_ 12 [Sg1 10; Wd 5; Sg0 13]);
  rd 0xa4506ceb (Add_ 13 [Sg1 11; Wd 6; Sg0 14]);
  rc 0xbef9a3f7 (Val [Wd 14; Sg1 12; Wd 7; Sg0 15]);
  rb 0xc67178f2 (Val [Wd 15; Sg1 13; Wd 8; Sg0 0])
].

(** ** The transformations *)

(** The words are not initialized before the first lines set them. *)
Definition no_words : list Z := replicate 16 0.
Definition Transform (s : list Z) (chunk : bytes) : list Z :=
  add_words s (run_lines chunk (s, no_words) Transform_rounds).1.

Definition TransformD64 (input : bytes) : bytes :=
  let '(regs, w) := run_lines input (Initialize, no_words) D64_rounds1 in
  let t := add_words regs Initialize in
  let '(regs, w) := run_lines input (t, w) D64_rounds2 in
  let w := add_words t regs ++ drop 8 w in
  let '(regs, w) := run_lines input (Initialize, w) D64_rounds3 in
  add_words regs Initialize ≫= WriteBE32.

Definition padding1 : bytes := 0x80 :: replicate 61 0 ++ [2; 0].
Definition TransformD64Wrapper (tr : list Z → bytes → list Z) (input : bytes) : bytes :=
  let s := tr (tr Initialize input) padding1 in
  let buffer2 := (s ≫= WriteBE32) ++ 0x80 :: replicate 29 0 ++ [1; 0] in
  tr Initialize buffer2 ≫= WriteBE32.

(** A loop of [SHA256D64] that hashes [ways] blocks at a time. *)
Fixpoint d64_loop (fuel : nat) (ways : nat) (hash : bytes → bytes) (input : bytes) (blocks : nat) : bytes * bytes * nat :=
  match fuel with
  | O => ([], input, blocks)
  | S fuel =>
      if (ways <=? blocks)%nat then
        let '(out, input', blocks') := d64_loop fuel ways hash (drop (64 * ways) input) (blocks - ways) in
        (hash (take (64 * ways) input) ++ out, input', blocks')
      else ([], input, blocks)
  end.
Definition d64_ways (ways : nat) (hash : option (bytes → bytes)) (st : bytes * bytes * nat) : bytes * bytes * nat :=
  let '(out, input, blocks) := st in
  match hash with
  | None => st
  | Some hash => let '(o, input, blocks) := d64_loop blocks ways hash input blocks in (out ++ o, input, blocks)
  end.
(** [way8], [way4], [way2]: the implementations that were found at start. *)
Definition SHA256D64 (way8 way4 way2 : option (bytes → bytes)) (way1 : bytes → bytes) (input : bytes) (blocks : nat) : bytes :=
  (d64_ways 1 (Some way1) (d64_ways 2 way2 (d64_ways 4 way4 (d64_ways 8 way8 ([], input, blocks))))).1.1.

(** ** The class [CSHA256] *)

Abbreviation sha256_state := (hasher (list Z)).
Definition new_CSHA256 (junk : bytes) : sha256_state := mk_hasher Initialize junk 0.
Definition Write (h : sha256_state) (data : bytes) : sha256_state := Write_blocks Transform h data.
Definition Finalize (h : sha256_state) : bytes := Finalize_with Write WriteBE64 h ≫= WriteBE32.
Definition Reset (h : sha256_state) : sha256_state := mk_hasher Initialize (buf h) 0.
(** A message hashed in one piece. *)
Definition SHA256 (m : bytes) : bytes := Finalize (Write (new_CSHA256 (replicate 64 0)) m).
