(* ===== verification/Sha256Facts.v ===== *)
(** * SHA-256 is SHA-256

    The definition of FIPS 180-4 and the proof that the source computes it, for
    messages written in any pieces, and for the double hash of 64 bytes. *)
From S2P Require Import Prelude ArithUint256 Script Interpreter Serialize Hasher Sha256.

(** ** FIPS 180-4 *)

Module Fips.
Definition rotr (n x : Z) : Z := (x >>' n) |' u32 (x <<' (32 - n)).
Definition not32 (x : Z) : Z := x ^' (2 ^ 32 - 1).
Definition ch (x y z : Z) : Z := (x &' y) ^' (not32 x &' z).
Definition maj (x y z : Z) : Z := (x &' y) ^' (x &' z) ^' (y &' z).
Definition Sum0 (x : Z) : Z := rotr 2 x ^' rotr 13 x ^' rotr 22 x.
Definition Sum1 (x : Z) : Z := rotr 6 x ^' rotr 11 x ^' rotr 25 x.
Definition sum0 (x : Z) : Z := rotr 7 x ^' rotr 18 x ^' (x >>' 3).
Definition sum1 (x : Z) : Z := rotr 17 x ^' rotr 19 x ^' (x >>' 10).
(** The first 64 primes, and the first 32 bits of the fractional part of the [k]-th
    root of a prime; [n] bits are enough for the root of [x]. *)
Definition is_prime (n : nat) : bool := forallb (λ d, negb (n mod d =? 0)%nat) (seq 2 (n - 2)).
Definition primes : list Z := Z.of_nat <$> filter (λ n, is_prime n = true) (seq 2 310).
Fixpoint root (k : Z) (n : nat) (x r : Z) : Z :=
  match n with
  | O => r
  | S n => let r' := r + 2 ^ Z.of_nat n in root k n x (if r' ^ k <=? x then r' else r)
  end.
Definition root_fraction (k p : Z) : Z := root k 35 (p * 2 ^ (32 * k)) 0 mod 2 ^ 32.
(** The constants of the rounds: the cube roots. *)
Definition K : list Z := Eval vm_compute in root_fraction 3 <$> primes.
(** The message schedule, extended by [n] words from its last sixteen. *)
Fixpoint schedule (n : nat) (w : list Z) : list Z :=
  match n with
  | O => w
  | S n => let t := length w in
           schedule n (w ++ [u32 (sum1 (nth (t - 2) w 0) + nth (t - 7) w 0 + sum0 (nth (t - 15) w 0) + nth (t - 16) w 0)])
  end.
Definition message_words (block : bytes) : list Z := (λ i, ReadBE32 block (4 * i)) <$> seq 0 16.
Definition step (st : list Z) (kw : Z * Z) : list Z :=
  match st with
  | [a; b; c; d; e; f; g; h] =>
      let T1 := u32 (h + Sum1 e + ch e f g + kw.1 + kw.2) in
      let T2 := u32 (Sum0 a + maj a b c) in
      [u32 (T1 + T2); a; b; c; u32 (d + T1); e; f; g]
  | _ => st
  end.
Definition compress (H : list Z) (W : list Z) : list Z := add_words H (foldl step H (zip K W)).
Definition block (H : list Z) (b : bytes) : list Z := compress H (schedule 48 (message_words b)).
(** The initial value: the square roots. *)
Definition H0 : list Z := Eval vm_compute in root_fraction 2 <$> take 8 primes.
(** The padding: a bit, zeros up to 448 bits modulo 512, and the length in bits. *)
Definition pad (m : bytes) : bytes := m ++ 0x80 :: replicate (Z.to_nat ((55 - size m) mod 64)) 0 ++ WriteBE64 (8 * size m).
(** All blocks of a padded message. *)
Fixpoint blocks (n : nat) (H : list Z) (m : bytes) : list Z :=
  match n with O => H | S n => blocks n (block H (take 64 m)) (drop 64 m) end.
Definition sha256 (m : bytes) : bytes := blocks (length (pad m) / 64) H0 (pad m) ≫= WriteBE32.
End Fips.

(** ** Words *)

Definition words (l : list Z) : Prop := Forall (in_u 32) l.
Lemma u32_range x : in_u 32 (u32 x).
Proof. apply wrap_range. lia. Qed.
#[local] Hint Resolve u32_range : core.
Lemma Ch_fips x y z : in_u 32 z → Ch x y z = Fips.ch x y z.
Proof.
  intros Hz. unfold Ch, Fips.ch, Fips.not32. apply Z.bits_inj'. intros n Hn. rewrite !Z.lxor_spec, !Z.land_spec, !Z.lxor_spec.
  change (2 ^ 32 - 1) with (Z.ones 32). rewrite Z.testbit_ones by lia.
  destruct (Z.ltb_spec n 32) as [Hlt|Hge]; [destruct (Z.testbit x n), (Z.testbit y n), (Z.testbit z n), (0 <=? n) eqn:E; try done; lia|].
  rewrite (testbit_high 32 z n) by done. by destruct (Z.testbit x n), (Z.testbit y n), (0 <=? n).
Qed.
Lemma Maj_fips x y z : Maj x y z = Fips.maj x y z.
Proof.
  unfold Maj, Fips.maj. apply Z.bits_inj'. intros n Hn. rewrite !Z.lor_spec, !Z.lxor_spec, !Z.land_spec, !Z.lor_spec.
  by destruct (Z.testbit x n), (Z.testbit y n), (Z.testbit z n).
Qed.

(** ** The rounds of the source, line by line *)

Definition std_word (t : nat) : word :=
  if (t <? 16)%nat then Set_ t [Rd (4 * t)]
  else if (t <? 62)%nat then Add_ (t mod 16) [Sg1 ((t + 14) mod 16); Wd ((t + 9) mod 16); Sg0 ((t + 1) mod 16)]
  else Val [Wd (t mod 16); Sg1 ((t + 14) mod 16); Wd ((t + 9) mod 16); Sg0 ((t + 1) mod 16)].
Definition std_line (t : nat) : line := mk_line (7 * t mod 8) (nth t Fips.K 0) (std_word t).
Lemma Transform_rounds_std : Transform_rounds = std_line <$> seq 0 64.
Proof. vm_compute. reflexivity. Qed.
Lemma D64_rounds1_std : D64_rounds1 = Transform_rounds.
Proof. reflexivity. Qed.

(** The registers in the order of their roles when [r] is the first. *)
Definition roles (r : nat) (regs : list Z) : list Z := (λ j, nth ((r + j) mod 8) regs 0) <$> seq 0 8.
Lemma length_8 {A} (l : list A) : length l = 8%nat → ∃ a b c d e f g h, l = [a; b; c; d; e; f; g; h].
Proof. destruct l as [|? [|? [|? [|? [|? [|? [|? [|? [|]]]]]]]]]; try done. intros _. by repeat eexists. Qed.
Lemma u32_add_r x y : u32 (x + u32 y) = u32 (x + y).
Proof. unfold u32, wrap. apply Zplus_mod_idemp_r. Qed.
Lemma u32_add_l x y : u32 (u32 x + y) = u32 (x + y).
Proof. unfold u32, wrap. apply Zplus_mod_idemp_l. Qed.
Lemma Round_fips a b c d e f g h k v :
  in_u 32 g → Fips.step [a; b; c; d; e; f; g; h] (k, v) =
  let '(d', h') := Round a b c d e f g h (u32 (k + v)) in [h'; a; b; c; d'; e; f; g].
Proof.
  intros Hg. unfold Round, Fips.step. cbn [fst snd]. rewrite <- Ch_fips by done. rewrite <- Maj_fips.
  change (Fips.Sum0 a) with (Sigma0 a). change (Fips.Sum1 e) with (Sigma1 e).
  rewrite (u32_add_r (h + _ + _) (k + v)). by rewrite Z.add_assoc.
Qed.
Lemma run_line_roles chunk regs w r k x v w' :
  (r < 8)%nat → length regs = 8%nat → words regs → word_value chunk w x = (v, w') →
  ∃ regs', run_line chunk (regs, w) (mk_line r k x) = (regs', w') ∧ length regs' = 8%nat ∧ words regs' ∧
    roles ((r + 7) mod 8) regs' = Fips.step (roles r regs) (k, v).
Proof.
  intros Hr Hl Hw Hx. unfold run_line. cbn [first constant arg]. rewrite Hx.
  destruct (length_8 _ Hl) as (a & b & c & d & e & f & g & h & ->).
  unfold words in Hw. rewrite !Forall_cons in Hw. destruct Hw as (? & ? & ? & ? & ? & ? & ? & ? & _).
  do 8 (destruct r as [|r]; [cbn -[Round Fips.step u32 Z.add]; rewrite Round_fips by done; unfold Round; eexists;
    split; [reflexivity|]; split; [reflexivity|]; split; [unfold words; rewrite !Forall_cons; split_and!; auto|reflexivity]|]). lia.
Qed.

(** ** The window and the schedule *)

Lemma schedule_length n : ∀ w, length (Fips.schedule n w) = (length w + n)%nat.
Proof. induction n as [|n IH]; intros w; cbn; [lia|]. rewrite IH, length_app. cbn. lia. Qed.
Lemma schedule_prefix n : ∀ w, ∃ l, Fips.schedule n w = w ++ l.
Proof.
  induction n as [|n IH]; intros w; cbn [Fips.schedule]; [by exists []; rewrite app_nil_r|].
  destruct (IH (w ++ [u32 (Fips.sum1 (nth (length w - 2) w 0) + nth (length w - 7) w 0 + Fips.sum0 (nth (length w - 15) w 0) + nth (length w - 16) w 0)])) as [l ->].
  rewrite <- app_assoc. by eexists.
Qed.
Lemma schedule_nth n : ∀ w t, (16 ≤ length w)%nat → (length w ≤ t < length w + n)%nat →
  let W := Fips.schedule n w in
  nth t W 0 = u32 (Fips.sum1 (nth (t - 2) W 0) + nth (t - 7) W 0 + Fips.sum0 (nth (t - 15) W 0) + nth (t - 16) W 0).
Proof.
  induction n as [|n IH]; intros w t Hl Ht W; [lia|]. subst W. cbn [Fips.schedule]. set (x := u32 _).
  destruct (decide (t = length w)) as [->|Hne]; [|apply IH; rewrite length_app; cbn; lia].
  destruct (schedule_prefix n (w ++ [x])) as [l ->]. rewrite <- app_assoc.
  rewrite (app_nth2 w), Nat.sub_diag by lia. rewrite !(app_nth1 w) by lia. reflexivity.
Qed.
Lemma message_words_length b : length (Fips.message_words b) = 16%nat.
Proof. done. Qed.
Lemma message_words_nth b t : (t < 16)%nat → nth t (Fips.message_words b) 0 = ReadBE32 b (4 * t).
Proof.
  intros Ht. unfold Fips.message_words.
  rewrite (nth_indep _ 0 (ReadBE32 b (4 * 0))) by done. rewrite (map_nth (λ i, ReadBE32 b (4 * i))), seq_nth by done. reflexivity.
Qed.
Definition W (b : bytes) : list Z := Fips.schedule 48 (Fips.message_words b).
Lemma W_length b : length (W b) = 64%nat.
Proof. unfold W. by rewrite schedule_length. Qed.
Lemma W_first b t : (t < 16)%nat → nth t (W b) 0 = ReadBE32 b (4 * t).
Proof.
  intros Ht. unfold W. destruct (schedule_prefix 48 (Fips.message_words b)) as [l ->].
  rewrite app_nth1 by done. by apply message_words_nth.
Qed.
Lemma sigma0_fips x : sigma0 x = Fips.sum0 x.
Proof. done. Qed.
Lemma sigma1_fips x : sigma1 x = Fips.sum1 x.
Proof. done. Qed.
Lemma W_next b t : (16 ≤ t < 64)%nat →
  nth t (W b) 0 = u32 (sigma1 (nth (t - 2) (W b) 0) + nth (t - 7) (W b) 0 + sigma0 (nth (t - 15) (W b) 0) + nth (t - 16) (W b) 0).
Proof.
  intros Ht. rewrite sigma0_fips, sigma1_fips. unfold W. generalize (message_words_length b). generalize (Fips.message_words b).
  intros w Hw. apply (schedule_nth 48 w t); lia.
Qed.
(** What the rounds need of the words. *)
Definition is_schedule (b : bytes) (ws : list Z) : Prop :=
  (∀ t, (t < 16)%nat → nth t ws 0 = ReadBE32 b (4 * t)) ∧
  (∀ t, (16 ≤ t < 64)%nat →
    nth t ws 0 = u32 (sigma1 (nth (t - 2) ws 0) + nth (t - 7) ws 0 + sigma0 (nth (t - 15) ws 0) + nth (t - 16) ws 0)).
Lemma W_schedule b : is_schedule b (W b).
Proof. split; [apply W_first|apply W_next]. Qed.

(** Before line [t] the window holds the last sixteen words; those from [n] on are
    not kept. *)
Definition window (n : nat) (ws : list Z) (t : nat) (w : list Z) : Prop :=
  length w = 16%nat ∧ ∀ j, (j < t)%nat → (t ≤ j + 16)%nat → (j < n)%nat → nth (j mod 16) w 0 = nth j ws 0.
Lemma mod16_ne j t : (j < t)%nat → (t < j + 16)%nat → (j mod 16 ≠ t mod 16)%nat.
Proof.
  intros H1 H2 E. pose proof (Nat.div_mod j 16 ltac:(lia)). pose proof (Nat.div_mod t 16 ltac:(lia)).
  assert (j / 16 = t / 16 ∨ j / 16 < t / 16)%nat as [?|?] by lia; lia.
Qed.
Lemma window_insert n ws t w : window n ws t w → window n ws (S t) (<[(t mod 16)%nat := nth t ws 0]> w).
Proof.
  intros [Hl Hw]. split; [by rewrite length_insert|]. intros j Hj1 Hj2 Hj3. pose proof (Nat.mod_upper_bound t 16 ltac:(lia)).
  rewrite nth_lookup. destruct (decide (j = t)) as [->|Hne].
  - by rewrite list_lookup_insert_eq by lia.
  - rewrite list_lookup_insert_ne by (apply not_eq_sym, mod16_ne; lia). rewrite <- nth_lookup. apply Hw; lia.
Qed.
(** The slots read at line [t]. *)
Lemma window_reads b ws t w : is_schedule b ws → window 62 ws t w → (16 ≤ t < 64)%nat →
  nth t ws 0 = u32 (sigma1 (nth ((t + 14) mod 16) w 0) + nth ((t + 9) mod 16) w 0 + sigma0 (nth ((t + 1) mod 16) w 0) + nth (t mod 16) w 0).
Proof.
  intros [_ Hn] [Hl Hw] Ht. rewrite (Hn t) by lia. rewrite <- !Hw by lia.
  assert (∀ k, (k ≤ t)%nat → (k ≤ 16)%nat → ((t - k) mod 16 = (t + (16 - k)) mod 16)%nat) as Hk.
  { intros k Hk Hk'. replace (t + (16 - k))%nat with (t - k + 1 * 16)%nat by lia. by rewrite Nat.Div0.mod_add. }
  rewrite !Hk by lia. cbn [Nat.sub]. by rewrite Nat.add_0_r.
Qed.
Lemma ReadBE32_range b off : bytes_ok b → in_u 32 (ReadBE32 b off).
Proof.
  intros Hb. unfold ReadBE32. set (l := rev (take 4 (drop off b))).
  assert (bytes_ok l) as Hl by (unfold l; by apply List.Forall_rev, Forall_take, Forall_drop).
  assert (∀ i, is_byte (nth i l 0)) as Hn.
  { intros i. destruct (nth_in_or_default i l 0) as [Hi|Hi]; [|by rewrite Hi]. eapply List.Forall_forall in Hl; [exact Hl|done]. }
  unfold ReadLE32. rewrite le32_sum by done. cbn [Nat.add].
  pose proof (Hn 0%nat). pose proof (Hn 1%nat). pose proof (Hn 2%nat). pose proof (Hn 3%nat). unfold is_byte, in_u in *. lia.
Qed.
Lemma std_word_value b ws t w :
  is_schedule b ws → bytes_ok b → (t < 64)%nat → window 62 ws t w → ∃ w', word_value b w (std_word t) = (nth t ws 0, w') ∧ window 62 ws (S t) w'.
Proof.
  intros Hs Hb Ht [Hl Hw]. unfold std_word. destruct (Nat.ltb_spec t 16); [|destruct (Nat.ltb_spec t 62)].
  - cbn [word_value terms_value sum_of foldr term_value]. rewrite Z.add_0_r, u32_small by (by apply ReadBE32_range).
    rewrite <- (proj1 Hs) by done. eexists. split; [reflexivity|]. pose proof (window_insert 62 ws t w (conj Hl Hw)) as Hi. by rewrite Nat.mod_small in Hi by done.
  - pose proof (window_reads b ws t w Hs (conj Hl Hw)) as E. cbn [word_value]. cbv zeta. unfold terms_value, sum_of. cbn [foldr term_value].
    match goal with |- context [u32 ?x] => replace (u32 x) with (nth t ws 0) by (rewrite E by lia; f_equal; lia) end.
    eexists. split; [reflexivity|]. by apply window_insert.
  - pose proof (window_reads b ws t w Hs (conj Hl Hw)) as E. cbn [word_value]. exists w. split; [|split; [done|]].
    + f_equal. rewrite E by lia. f_equal. cbn. lia.
    + intros j Hj1 Hj2 Hj3. apply Hw; lia.
Qed.

(** ** The transformation is the block function *)

Lemma roles_0 regs : length regs = 8%nat → roles 0 regs = regs.
Proof. intros Hl. by destruct (length_8 _ Hl) as (a & b & c & d & e & f & g & h & ->). Qed.
Lemma first_next t : ((7 * t mod 8 + 7) mod 8 = 7 * S t mod 8)%nat.
Proof. replace (7 * S t)%nat with (7 * t + 7)%nat by lia. by rewrite Nat.Div0.add_mod_idemp_l. Qed.
Lemma run_lines_std b ws n : ∀ t regs w,
  is_schedule b ws → bytes_ok b → (t + n ≤ 64)%nat → length regs = 8%nat → words regs → window 62 ws t w →
  ∃ regs' w', run_lines b (regs, w) (std_line <$> seq t n) = (regs', w') ∧ length regs' = 8%nat ∧ words regs' ∧
    roles (7 * (t + n) mod 8) regs' = foldl Fips.step (roles (7 * t mod 8) regs) ((λ j, (nth j Fips.K 0, nth j ws 0)) <$> seq t n).
Proof.
  unfold run_lines. induction n as [|n IH]; intros t regs w Hs Hb Hn Hl Hr Hw.
  { exists regs, w. rewrite Nat.add_0_r. by split_and!. }
  cbn [seq fmap list_fmap foldl]. destruct (std_word_value b ws t w Hs Hb ltac:(lia) Hw) as (w1 & Hv & Hw1).
  destruct (run_line_roles b regs w (7 * t mod 8) (nth t Fips.K 0) (std_word t) _ _ (Nat.mod_upper_bound (7 * t) 8 ltac:(lia)) Hl Hr Hv) as (regs1 & E1 & Hl1 & Hr1 & Ho).
  fold (std_line t) in E1. rewrite E1. destruct (IH (S t) regs1 w1 Hs Hb ltac:(lia) Hl1 Hr1 Hw1) as (regs' & w' & E & Hl' & Hr' & Ho').
  exists regs', w'. rewrite E. split_and!; try done. replace (t + S n)%nat with (S t + n)%nat by lia. rewrite Ho'. f_equal.
  by rewrite <- first_next, Ho.
Qed.
Lemma zip_seq (l k : list Z) n : length l = n → length k = n → zip l k = (λ j, (nth j l 0, nth j k 0)) <$> seq 0 n.
Proof.
  intros Hl Hk. apply list_eq. intros i. rewrite list_lookup_fmap, lookup_zip_with. destruct (decide (i < n)%nat).
  - rewrite lookup_seq_lt by done. cbn.
    destruct (lookup_lt_is_Some_2 l i) as [x E]; [lia|]. destruct (lookup_lt_is_Some_2 k i) as [y E']; [lia|].
    rewrite E, E'. cbn. by rewrite !nth_lookup, E, E'.
  - rewrite lookup_seq_ge by lia. rewrite (lookup_ge_None_2 l i) by lia. reflexivity.
Qed.
Lemma block_W s b : Fips.block s b = add_words s (foldl Fips.step s (zip Fips.K (W b))).
Proof. unfold Fips.block, Fips.compress, W. reflexivity. Qed.
Lemma add_words_words s r : words (add_words s r).
Proof. unfold words, add_words. revert r. induction s as [|x s IH]; intros [|y r]; constructor; auto. Qed.
(** The transformation of the source is the block function of the standard. *)
Lemma Transform_fips s b : bytes_ok b → length s = 8%nat → words s → Transform s b = Fips.block s b.
Proof.
  intros Hb Hl Hs. rewrite block_W. unfold Transform. rewrite Transform_rounds_std.
  generalize (W_length b). generalize (W_schedule b). generalize (W b). intros ws Hsch Hws.
  destruct (run_lines_std b ws 64 0 s no_words Hsch Hb ltac:(lia) Hl Hs) as (regs & w & E & Hl' & Hr' & Ho).
  { split; [done|]. intros j Hj. lia. }
  rewrite E. cbn [fst]. rewrite (zip_seq Fips.K ws 64 eq_refl Hws).
  change (7 * 0 mod 8)%nat with 0%nat in Ho. change (7 * (0 + 64) mod 8)%nat with 0%nat in Ho.
  rewrite !roles_0 in Ho by done. by rewrite Ho.
Qed.
Lemma step_length st kw : length (Fips.step st kw) = length st.
Proof. by destruct st as [|? [|? [|? [|? [|? [|? [|? [|? [|]]]]]]]]]. Qed.
Lemma block_length s b : length (Fips.block s b) = length s.
Proof.
  rewrite block_W. generalize (zip Fips.K (W b)). intros l. unfold add_words. rewrite length_zip_with.
  assert (∀ st, length (foldl Fips.step st l) = length st) as E; [|rewrite E; lia].
  induction l as [|x l IH]; intros st; [done|]. cbn [foldl]. by rewrite IH, step_length.
Qed.
Lemma block_words s b : words (Fips.block s b).
Proof. rewrite block_W. apply add_words_words. Qed.
#[local] Hint Resolve block_words : core.
(** All blocks. *)
Lemma transform_blocks_fips n : ∀ s m, bytes_ok m → length s = 8%nat → words s → transform_blocks Transform n s m = Fips.blocks n s m.
Proof.
  induction n as [|n IH]; intros s m Hm Hl Hs; [done|]. cbn [transform_blocks Fips.blocks].
  rewrite Transform_fips by (try done; by apply Forall_take). apply IH; [by apply Forall_drop|by rewrite block_length|auto].
Qed.
(** ** The padding *)
Lemma take_pad_block k : (k < 64)%nat → take (S k) pad_block = 0x80 :: replicate k 0.
Proof. intros Hk. unfold pad_block. cbn [take]. by rewrite take_replicate, Nat.min_l by lia. Qed.
(** The padding of a message, for either order of the bytes of its length. *)
Lemma padded_eq encode m : size m < 2 ^ 61 →
  padded encode m = m ++ 0x80 :: replicate (Z.to_nat ((55 - size m) mod 64)) 0 ++ encode (8 * size m).
Proof.
  intros Hm. assert (0 ≤ size m) by (unfold size; lia). unfold padded. rewrite u64_small by (unfold in_u; lia). f_equal.
  replace ((119 - size m mod 64) mod 64) with ((55 - size m) mod 64).
  2:{ rewrite (Zminus_mod 119), Zmod_mod, <- Zminus_mod. replace (119 - size m) with (55 - size m + 1 * 64) by lia. by rewrite Z_mod_plus_full. }
  pose proof (Z.mod_pos_bound (55 - size m) 64 ltac:(lia)).
  rewrite Z2Nat.inj_add, take_pad_block by lia. done.
Qed.
Lemma padded_fips m : size m < 2 ^ 61 → padded WriteBE64 m = Fips.pad m.
Proof. intros Hm. by rewrite padded_eq. Qed.

(** ** The class [CSHA256] *)

Lemma WriteBE64_length x : length (WriteBE64 x) = 8%nat.
Proof. unfold WriteBE64. rewrite length_rev. apply (ser_writedata_length 8). Qed.
Lemma WriteBE64_ok x : bytes_ok (WriteBE64 x).
Proof. apply List.Forall_rev, ser_writedata_ok. Qed.
Lemma WriteBE32_ok x : bytes_ok (WriteBE32 x).
Proof. apply List.Forall_rev. unfold WriteLE32. repeat constructor; apply u8_byte. Qed.
Lemma digest_ok s : bytes_ok (s ≫= WriteBE32).
Proof. apply Forall_bind, Forall_true. intros x. apply WriteBE32_ok. Qed.
Lemma pad_ok m : bytes_ok m → bytes_ok (Fips.pad m).
Proof.
  intros Hm. unfold Fips.pad. apply Forall_app. split; [done|]. constructor; [done|]. apply Forall_app.
  split; [by apply Forall_replicate|apply WriteBE64_ok].
Qed.
Lemma Initialize_words : length Initialize = 8%nat ∧ words Initialize.
Proof. split; [done|]. unfold words, Initialize. rewrite !Forall_cons. split_and!; try done; constructor. Qed.
Lemma iterate_fips m : bytes_ok m → iterate Transform Initialize m = Fips.blocks (length m / 64) Fips.H0 m.
Proof. intros Hm. apply transform_blocks_fips; [done|apply Initialize_words..]. Qed.
Lemma Finalize_fips h m :
  bytes_ok m → size m < 2 ^ 61 → hashed Transform Initialize h m → Finalize h = Fips.sha256 m.
Proof.
  intros Hm Hs Hh. unfold Finalize, Fips.sha256.
  rewrite (Finalize_hashed Transform Write WriteBE64 Initialize h m); [|intros; by apply Write_blocks_hashed|apply WriteBE64_length|done].
  by rewrite padded_fips, iterate_fips by (try done; by apply pad_ok).
Qed.
Lemma SHA256_fips m : bytes_ok m → size m < 2 ^ 61 → SHA256 m = Fips.sha256 m.
Proof. intros Hm Hs. apply Finalize_fips; try done. apply (Write_blocks_hashed Transform Initialize _ [] m). by apply new_hashed. Qed.

(** C28: [CSHA256] computes SHA-256 of FIPS 180-4.  Whatever the buffer held, and
    however the message is cut into pieces for [Write] (empty ones, ones that end
    inside a block, ones longer than many blocks), [Finalize] gives the hash of the
    whole; and the same for an object used again after [Reset]. *)
Theorem sha256_correct junk h chunks :
  length junk = 64%nat → length (buf h) = 64%nat → bytes_ok (mjoin chunks) → size (mjoin chunks) < 2 ^ 61 →
  Finalize (foldl Write (new_CSHA256 junk) chunks) = Fips.sha256 (mjoin chunks) ∧
  Finalize (foldl Write (Reset h) chunks) = Fips.sha256 (mjoin chunks).
Proof.
  intros Hj Hh Hm Hs. split; (apply Finalize_fips; [done..|]); apply (writes_hashed Transform Write Initialize chunks _ []);
    try (intros; by apply Write_blocks_hashed); by apply new_hashed.
Qed.
(** The message "abc", written in pieces. *)
Lemma sha256_correct_witness :
  Finalize (foldl Write (new_CSHA256 (replicate 64 7)) [[97]; []; [98; 99]]) = Fips.sha256 [97; 98; 99] ∧
  Fips.sha256 [97; 98; 99] = [
    0xba; 0x78; 0x16; 0xbf; 0x8f; 0x01; 0xcf; 0xea; 0x41; 0x41; 0x40; 0xde; 0x5d; 0xae; 0x22; 0x23;
    0xb0; 0x03; 0x61; 0xa3; 0x96; 0x17; 0x7a; 0x9c; 0xb4; 0x10; 0xff; 0x61; 0xf2; 0x00; 0x15; 0xad].
Proof.
  split; [|vm_compute; reflexivity].
  refine (proj1 (sha256_correct (replicate 64 7) (new_CSHA256 (replicate 64 0)) [[97]; []; [98; 99]] eq_refl eq_refl _ eq_refl)).
  by repeat constructor.
Defined.
