(* ===== verification/Sha256D64.v ===== *)
(** * The double hash of 64 bytes

    [TransformD64] folds the padding into the constants of its second and third
    transformation and leaves out the terms that are zero.  It is shown to compute
    SHA-256 of SHA-256, and so are [TransformD64Wrapper] and [SHA256D64]. *)
From S2P Require Import Prelude ArithUint256 Script Interpreter Serialize Hasher Sha256 Sha256Facts.

(** ** Values and registers apart *)

(** The words of a list of lines and the window after them. *)
Fixpoint line_words (chunk : bytes) (w : list Z) (ls : list line) : list Z * list Z :=
  match ls with
  | [] => ([], w)
  | l :: ls => let '(v, w1) := word_value chunk w (arg l) in let '(vs, w2) := line_words chunk w1 ls in (v :: vs, w2)
  end.
(** The roles rotate by one register at each line. *)
Fixpoint rotating (t : nat) (ls : list line) : bool :=
  match ls with [] => true | l :: ls => (first l =? 7 * t mod 8)%nat && rotating (S t) ls end.
(** What a line adds to the state: the sum of its constant and its word. *)
Definition line_sums (ls : list line) (vs : list Z) : list Z := zip_with (λ l v, u32 (constant l + v)) ls vs.
Definition steps (st : list Z) (sums : list Z) : list Z := foldl (λ st x, Fips.step st (x, 0)) st sums.

Lemma step_sum st k v : Fips.step st (k, v) = Fips.step st (u32 (k + v), 0).
Proof.
  destruct st as [|a [|b [|c [|d [|e [|f [|g [|h [|]]]]]]]]]; try reflexivity. unfold Fips.step. cbn [fst snd].
  rewrite Z.add_0_r, (u32_add_r (h + _ + _) (k + v)), Z.add_assoc. reflexivity.
Qed.
Lemma steps_zip st ks vs : foldl Fips.step st (zip ks vs) = steps st (zip_with (λ k v, u32 (k + v)) ks vs).
Proof.
  unfold steps. revert st vs. induction ks as [|k ks IH]; intros st [|v vs]; try reflexivity. cbn [zip_with foldl].
  rewrite step_sum. apply IH.
Qed.
Lemma run_lines_steps chunk ls : ∀ t regs w vs w',
  rotating t ls = true → length regs = 8%nat → words regs → line_words chunk w ls = (vs, w') →
  ∃ regs', run_lines chunk (regs, w) ls = (regs', w') ∧ length regs' = 8%nat ∧ words regs' ∧
    roles (7 * (t + length ls) mod 8) regs' = steps (roles (7 * t mod 8) regs) (line_sums ls vs).
Proof.
  unfold run_lines. induction ls as [|l ls IH]; intros t regs w vs w' Hr Hl Hw Hv.
  { cbn in Hv. injection Hv as <- <-. exists regs. rewrite Nat.add_0_r. by split_and!. }
  cbn [rotating] in Hr. apply andb_true_iff in Hr as [Hf Hr]. apply Nat.eqb_eq in Hf. cbn [line_words] in Hv.
  destruct (word_value chunk w (arg l)) as [v w1] eqn:E1. destruct (line_words chunk w1 ls) as [vs1 w2] eqn:E2. injection Hv as <- <-.
  destruct (run_line_roles chunk regs w (first l) (constant l) (arg l) v w1) as (regs1 & E & Hl1 & Hw1 & Ho);
    [rewrite Hf; by apply Nat.mod_upper_bound|done..|].
  destruct (IH (S t) regs1 w1 vs1 w2 Hr Hl1 Hw1 E2) as (regs' & E' & Hl' & Hw' & Ho').
  exists regs'. destruct l as [f k a]. cbn [first constant arg] in *. cbn [foldl]. rewrite E. split_and!; try done.
  cbn [length]. replace (t + S (length ls))%nat with (S t + length ls)%nat by lia. rewrite Ho'. cbn [line_sums zip_with constant]. unfold steps. cbn [foldl].
  fold (steps (Fips.step (roles (7 * t mod 8) regs) (u32 (k + v), 0)) (line_sums ls vs1)).
  unfold steps, line_sums. f_equal. by rewrite <- step_sum, <- first_next, <- Hf, Ho.
Qed.
(** Sixty-four lines bring the roles back. *)
Lemma run_lines_64 chunk ls regs w vs w' :
  length ls = 64%nat → rotating 0 ls = true → length regs = 8%nat → words regs → line_words chunk w ls = (vs, w') →
  run_lines chunk (regs, w) ls = (steps regs (line_sums ls vs), w') ∧ length (steps regs (line_sums ls vs)) = 8%nat.
Proof.
  intros Hn Hr Hl Hw Hv. destruct (run_lines_steps chunk ls 0 regs w vs w' Hr Hl Hw Hv) as (regs' & E & Hl' & _ & Ho).
  rewrite Hn in Ho. change (7 * (0 + 64) mod 8)%nat with 0%nat in Ho. change (7 * 0 mod 8)%nat with 0%nat in Ho.
  rewrite !roles_0 in Ho by done. by rewrite <- Ho.
Qed.
Lemma block_steps s b : Fips.block s b = add_words s (steps s (zip_with (λ k v, u32 (k + v)) Fips.K (W b))).
Proof. by rewrite block_W, steps_zip. Qed.
Lemma add_words_comm s r : add_words s r = add_words r s.
Proof. unfold add_words. revert r. induction s as [|x s IH]; intros [|y r]; try reflexivity. cbn. by rewrite IH, Z.add_comm. Qed.
Lemma line_words_val0 chunk w ls : Forall (λ l, arg l = Val []) ls → line_words chunk w ls = (replicate (length ls) 0, w).
Proof. induction 1 as [|l ls Hl _ IH]; [done|]. cbn [line_words length replicate]. rewrite Hl. cbn. by rewrite IH. Qed.

(** ** The second transformation: the block of padding *)

Lemma D64_rounds2_padding : line_sums D64_rounds2 (replicate 64 0) = zip_with (λ k v, u32 (k + v)) Fips.K (W padding1).
Proof. vm_compute. reflexivity. Qed.
Lemma D64_transform2 chunk t w : length t = 8%nat → words t →
  ∃ regs, run_lines chunk (t, w) D64_rounds2 = (regs, w) ∧ add_words t regs = Fips.block t padding1.
Proof.
  intros Hl Hw. assert (line_words chunk w D64_rounds2 = (replicate 64 0, w)) as E0.
  { apply (line_words_val0 chunk w D64_rounds2). unfold D64_rounds2. repeat constructor. }
  destruct (run_lines_64 chunk D64_rounds2 t w _ w eq_refl eq_refl Hl Hw E0) as [E _].
  eexists. split; [exact E|]. by rewrite D64_rounds2_padding, <- block_steps.
Qed.

(** ** The third transformation: a digest and its padding *)

(** The block that ends the second hash. *)
Definition digest_block (d : list Z) : bytes := (d ≫= WriteBE32) ++ 0x80 :: replicate 29 0 ++ [1; 0].
Lemma ReadBE32_Write x pre rest : in_u 32 x → ReadBE32 (pre ++ WriteBE32 x ++ rest) (length pre) = x.
Proof.
  intros Hx. unfold ReadBE32. rewrite drop_app_length, take_app_le by done. rewrite take_ge by done. unfold WriteBE32. rewrite rev_involutive.
  rewrite <- (app_nil_r (WriteLE32 x)). by apply ReadLE32_Write.
Qed.
Lemma digest_block_words d i : length d = 8%nat → words d → (i < 8)%nat → ReadBE32 (digest_block d) (4 * i) = nth i d 0.
Proof.
  intros Hl Hd Hi. unfold digest_block. set (rest := 0x80 :: _).
  destruct (nth_split d 0 (n := i)) as (l1 & l2 & E & El); [lia|]. rewrite E at 1. rewrite bind_app, bind_cons, <- !app_assoc.
  assert (length (l1 ≫= WriteBE32) = (4 * i)%nat) as <-.
  { rewrite <- El. clear. induction l1 as [|x l IH]; [done|]. rewrite bind_cons, length_app, IH. cbn. lia. }
  apply ReadBE32_Write. unfold words in Hd. rewrite E in Hd. apply Forall_app in Hd as [_ Hd]. by apply Forall_cons in Hd as [? _].
Qed.
(** The words of such a block: the digest, a bit, zeros and the length. *)
Record d64_words (d ws : list Z) : Prop := {
  dw_first : ∀ i, (i < 8)%nat → nth i ws 0 = nth i d 0;
  dw_pad : ∀ i, (8 ≤ i < 16)%nat → nth i ws 0 = nth (i - 8) [0x80000000; 0; 0; 0; 0; 0; 0; 0x100] 0;
  dw_next : ∀ t, (16 ≤ t < 64)%nat →
    nth t ws 0 = u32 (sigma1 (nth (t - 2) ws 0) + nth (t - 7) ws 0 + sigma0 (nth (t - 15) ws 0) + nth (t - 16) ws 0) }.
Lemma digest_block_d64 d : length d = 8%nat → words d → d64_words d (W (digest_block d)).
Proof.
  intros Hl Hd. split.
  - intros i Hi. rewrite W_first by lia. by apply digest_block_words.
  - intros i Hi. rewrite W_first by lia. unfold digest_block.
    destruct (length_8 _ Hl) as (a & b & c & e & f & g & h & k & ->). cbn [mbind list_bind app WriteBE32 WriteLE32 rev].
    do 16 (destruct i as [|i]; [try lia; vm_compute; reflexivity|]). lia.
  - intros t Ht. by apply W_next.
Qed.
(** One line at a time. *)
Lemma line_words_cons chunk w r k x ls v vs w1 w2 :
  word_value chunk w x = (v, w1) → line_words chunk w1 ls = (vs, w2) → line_words chunk w (mk_line r k x :: ls) = (v :: vs, w2).
Proof. intros E1 E2. cbn [line_words arg]. by rewrite E1, E2. Qed.
Lemma word_set chunk w i l v : v = u32 (terms_value chunk w l) → word_value chunk w (Set_ i l) = (v, <[i := v]> w).
Proof. by intros ->. Qed.
Lemma word_add chunk w i l v : v = u32 (nth i w 0 + terms_value chunk w l) → word_value chunk w (Add_ i l) = (v, <[i := v]> w).
Proof. by intros ->. Qed.
Lemma word_val chunk w l v : v = u32 (terms_value chunk w l) → word_value chunk w (Val l) = (v, w).
Proof. by intros ->. Qed.
Lemma padding_sigmas : sigma0 0 = 0 ∧ sigma1 0 = 0 ∧ sigma1 0x100 = 0xa00000 ∧ sigma0 0x80000000 = 0x11002000 ∧ sigma0 0x100 = 0x400022 ∧ sigma1 0x80000000 = 0x205000.
Proof. split_and!; vm_compute; reflexivity. Qed.
(** The lines before the padding is used up give the words of the schedule. *)
Lemma D64_rounds3_start chunk d ws junk :
  d64_words d ws → length d = 8%nat → words d → length junk = 8%nat →
  line_words chunk (d ++ junk) (take 32 D64_rounds3) =
    (d ++ replicate 8 0 ++ ((λ i, nth i ws 0) <$> seq 16 16), (λ i, nth i ws 0) <$> seq 16 16).
Proof.
  intros [Hf Hp Hn] Hd Hw Hj. destruct padding_sigmas as (S1 & S2 & S3 & S4 & S5 & S6).
  destruct (length_8 _ Hd) as (x0 & x1 & x2 & x3 & x4 & x5 & x6 & x7 & ->).
  destruct (length_8 _ Hj) as (j0 & j1 & j2 & j3 & j4 & j5 & j6 & j7 & ->).
  unfold words in Hw. rewrite !Forall_cons in Hw. destruct Hw as (? & ? & ? & ? & ? & ? & ? & ? & _).
  cbn [seq fmap list_fmap app replicate take D64_rounds3].
  do 8 (eapply line_words_cons; [apply word_val; unfold terms_value; cbn; rewrite Z.add_0_r, u32_small by done; reflexivity|]).
  do 8 (eapply line_words_cons; [apply word_val; reflexivity|]).
  pose proof (Hp 8%nat ltac:(lia)) as P8. pose proof (Hp 9%nat ltac:(lia)) as P9. pose proof (Hp 10%nat ltac:(lia)) as P10.
  pose proof (Hp 11%nat ltac:(lia)) as P11. pose proof (Hp 12%nat ltac:(lia)) as P12. pose proof (Hp 13%nat ltac:(lia)) as P13.
  pose proof (Hp 14%nat ltac:(lia)) as P14. pose proof (Hp 15%nat ltac:(lia)) as P15.
  cbn [Nat.sub nth] in P8, P9, P10, P11, P12, P13, P14, P15.
  do 16 (eapply line_words_cons;
    [first [apply word_add|apply word_set]; rewrite Hn by lia; cbn [Nat.sub]; rewrite ?P8, ?P9, ?P10, ?P11, ?P12, ?P13, ?P14, ?P15;
     repeat match goal with |- context [nth ?i ws 0] => rewrite (Hf i) by lia end;
     unfold terms_value, sum_of; cbn [foldr term_value nth]; f_equal; lia|]; cbn [insert list_insert]).
  reflexivity.
Qed.
Lemma line_words_app chunk l1 : ∀ w l2 v1 w1 v2 w2,
  line_words chunk w l1 = (v1, w1) → line_words chunk w1 l2 = (v2, w2) → line_words chunk w (l1 ++ l2) = (v1 ++ v2, w2).
Proof.
  induction l1 as [|[r k x] l1 IH]; intros w l2 v1 w1 v2 w2 E1 E2; [by injection E1 as <- <-|]. cbn [app line_words arg] in *.
  destruct (word_value chunk w x) as [v w'] eqn:E. destruct (line_words chunk w' l1) as [vs w''] eqn:E'. injection E1 as <- <-.
  by rewrite (IH _ _ _ _ _ _ E' E2).
Qed.
(** From the seventeenth line on the chunk is not read. *)
Lemma std_word_chunk c c' w t : (16 ≤ t)%nat → word_value c w (std_word t) = word_value c' w (std_word t).
Proof. intros Ht. unfold std_word. rewrite (proj2 (Nat.ltb_ge t 16)) by done. by destruct (t <? 62)%nat. Qed.
Lemma line_words_std c b ws n : ∀ t w, is_schedule b ws → bytes_ok b → (16 ≤ t)%nat → (t + n ≤ 64)%nat → window 62 ws t w →
  ∃ w', line_words c w (std_line <$> seq t n) = ((λ i, nth i ws 0) <$> seq t n, w').
Proof.
  induction n as [|n IH]; intros t w Hs Hb Ht Hn Hw; [by exists w|]. cbn [seq fmap list_fmap].
  destruct (std_word_value b ws t w Hs Hb ltac:(lia) Hw) as (w1 & Hv & Hw1). rewrite (std_word_chunk b c) in Hv by done.
  destruct (IH (S t) w1 Hs Hb ltac:(lia) ltac:(lia) Hw1) as [w' E]. exists w'. by apply (line_words_cons _ _ _ _ _ _ _ _ w1).
Qed.
Lemma D64_rounds3_split : D64_rounds3 = take 32 D64_rounds3 ++ (std_line <$> seq 32 32).
Proof. vm_compute. reflexivity. Qed.
Lemma window_32 ws : window 62 ws 32 ((λ i, nth i ws 0) <$> seq 16 16).
Proof.
  split; [done|]. intros j H1 H2 _. do 16 (destruct j as [|j]; [lia|]). do 16 (destruct j as [|j]; [reflexivity|]). lia.
Qed.
(** The sums of the third transformation. *)
Lemma D64_rounds3_sums d ws : length d = 8%nat → d64_words d ws → length ws = 64%nat →
  line_sums D64_rounds3 (d ++ replicate 8 0 ++ ((λ i, nth i ws 0) <$> seq 16 48)) = zip_with (λ k v, u32 (k + v)) Fips.K ws.
Proof.
  intros Hd [Hf Hp _] Hl. unfold line_sums.
  assert (ws = d ++ [0x80000000; 0; 0; 0; 0; 0; 0; 0x100] ++ drop 16 ws) as E.
  { rewrite <- (take_drop 16 ws) at 1. rewrite (app_assoc d). f_equal. destruct (length_8 _ Hd) as (x0 & x1 & x2 & x3 & x4 & x5 & x6 & x7 & ->).
    apply list_eq. intros i. destruct (decide (i < 16)%nat); [|rewrite (lookup_ge_None_2 (take 16 ws)) by (rewrite length_take; lia); by rewrite lookup_ge_None_2 by (cbn; lia)].
    rewrite lookup_take_lt by done. destruct (lookup_lt_is_Some_2 ws i) as [y Ey]; [lia|]. rewrite Ey.
    assert (y = nth i ws 0) as -> by (by rewrite nth_lookup, Ey).
    destruct (decide (i < 8)%nat); [rewrite Hf by lia|rewrite Hp by lia]; do 16 (destruct i as [|i]; [try reflexivity; lia|]); lia. }
  assert ((λ i, nth i ws 0) <$> seq 16 48 = drop 16 ws) as ->.
  { apply list_eq. intros i. rewrite list_lookup_fmap, lookup_drop. destruct (decide (i < 48)%nat).
    - rewrite lookup_seq_lt by done. cbn [fmap option_fmap option_map]. rewrite nth_lookup.
      destruct (lookup_lt_is_Some_2 ws (16 + i)) as [y ->]; [lia|]. reflexivity.
    - rewrite lookup_seq_ge by lia. by rewrite lookup_ge_None_2 by lia. }
  rewrite E at 2. generalize (drop 16 ws). intros r. destruct (length_8 _ Hd) as (x0 & x1 & x2 & x3 & x4 & x5 & x6 & x7 & ->).
  rewrite <- (take_drop 16 D64_rounds3), <- (take_drop 16 Fips.K), !app_assoc, !zip_with_app by reflexivity. f_equal.
Qed.
Lemma digest_block_ok d : bytes_ok (digest_block d).
Proof. apply Forall_app. split; [apply digest_ok|]. constructor; [done|]. apply Forall_app. split; [by apply Forall_replicate|by repeat constructor]. Qed.
(** The third transformation is the block function on the digest. *)
Lemma D64_transform3 chunk d junk : length d = 8%nat → words d → length junk = 8%nat →
  ∃ regs w, run_lines chunk (Initialize, d ++ junk) D64_rounds3 = (regs, w) ∧ add_words regs Initialize = Fips.block Fips.H0 (digest_block d).
Proof.
  intros Hd Hw Hj. pose proof (digest_block_d64 d Hd Hw) as Hws. pose proof (W_schedule (digest_block d)) as Hs.
  pose proof (digest_block_ok d) as Hb.
  pose proof (W_length (digest_block d)) as HL. change Fips.H0 with Initialize. rewrite block_steps, add_words_comm. revert Hws Hs HL. generalize (W (digest_block d)). intros ws Hws Hs HL.
  pose proof (D64_rounds3_start chunk d ws junk Hws Hd Hw Hj) as E1.
  destruct (line_words_std chunk _ ws 32 32 _ Hs Hb ltac:(lia) ltac:(lia) (window_32 ws)) as [w' E2].
  pose proof (line_words_app _ _ _ _ _ _ _ _ E1 E2) as E. rewrite <- D64_rounds3_split, <- !app_assoc, <- fmap_app in E.
  change (seq 16 16 ++ seq 32 32) with (seq 16 48) in E.
  destruct (run_lines_64 chunk D64_rounds3 Initialize _ _ _ eq_refl eq_refl (proj1 Initialize_words) (proj2 Initialize_words) E) as [E' _].
  eexists _, _. split; [exact E'|]. rewrite D64_rounds3_sums by assumption. reflexivity.
Qed.

(** ** Double hashes *)

(** SHA-256 of SHA-256. *)
Definition sha256d (m : bytes) : bytes := Fips.sha256 (Fips.sha256 m).
Lemma blocks_one H b : length b = 64%nat → Fips.blocks 1 H b = Fips.block H b.
Proof. intros Hb. cbn [Fips.blocks]. by rewrite take_ge by lia. Qed.
Lemma sha256_64 m : length m = 64%nat → Fips.sha256 m = Fips.block (Fips.block Fips.H0 m) padding1 ≫= WriteBE32.
Proof.
  intros Hm. unfold Fips.sha256, Fips.pad, size. rewrite Hm. change (0x80 :: _ ++ _) with padding1.
  rewrite length_app, Hm. change ((64 + length padding1) / 64)%nat with 2%nat. cbn [Fips.blocks].
  rewrite take_app_le, drop_app_le, take_ge, drop_ge by lia. reflexivity.
Qed.
Lemma digest_length d : length (d ≫= WriteBE32) = (4 * length d)%nat.
Proof. induction d as [|x d IH]; [done|]. rewrite bind_cons, length_app, IH. cbn. lia. Qed.
Lemma sha256_digest d : length d = 8%nat → Fips.sha256 (d ≫= WriteBE32) = Fips.block Fips.H0 (digest_block d) ≫= WriteBE32.
Proof.
  intros Hd. unfold Fips.sha256, Fips.pad, size. rewrite digest_length, Hd. change (0x80 :: _ ++ _) with (0x80 :: replicate 29 0 ++ [1; 0]).
  fold (digest_block d). assert (length (digest_block d) = 64%nat) as E by (unfold digest_block; rewrite length_app, digest_length, Hd; reflexivity).
  rewrite E. change (64 / 64)%nat with 1%nat. by rewrite blocks_one.
Qed.
Lemma sha256d_64 m : length m = 64%nat →
  sha256d m = Fips.block Fips.H0 (digest_block (Fips.block (Fips.block Fips.H0 m) padding1)) ≫= WriteBE32.
Proof. intros Hm. unfold sha256d. rewrite (sha256_64 m) by done. apply sha256_digest. by rewrite !block_length. Qed.
Lemma run_lines_window chunk ls : ∀ st, length (run_lines chunk st ls).2 = length st.2.
Proof.
  unfold run_lines. induction ls as [|l ls IH]; intros [regs w]; [done|]. cbn [foldl]. rewrite IH. unfold run_line.
  destruct l as [r k [i x|i x|x]]; cbn [arg word_value]; unfold Round; cbn [snd]; by rewrite ?length_insert.
Qed.
Lemma H0_Initialize : Fips.H0 = Initialize.
Proof. reflexivity. Qed.
Lemma block_8 s b : length s = 8%nat → length (Fips.block s b) = 8%nat.
Proof. intros Hs. by rewrite block_length. Qed.
#[local] Hint Resolve block_8 block_words : core.
Lemma D64_transform1 input : bytes_ok input →
  ∃ regs w, run_lines input (Initialize, no_words) D64_rounds1 = (regs, w) ∧ add_words regs Initialize = Fips.block Fips.H0 input ∧ length w = 16%nat.
Proof.
  intros Hb. rewrite D64_rounds1_std, H0_Initialize, <- (Transform_fips Initialize input Hb (proj1 Initialize_words) (proj2 Initialize_words)).
  unfold Transform. pose proof (run_lines_window input Transform_rounds (Initialize, no_words)) as Hw. revert Hw.
  generalize (run_lines input (Initialize, no_words) Transform_rounds). intros [regs w] Hw. exists regs, w. split_and!; [reflexivity| |exact Hw].
  apply add_words_comm.
Qed.
Lemma TransformD64_sha256d input : length input = 64%nat → bytes_ok input → TransformD64 input = sha256d input.
Proof.
  intros Hl Hb. rewrite sha256d_64 by done. unfold TransformD64.
  destruct (D64_transform1 input Hb) as (regs & w & E1 & Et & Hw). rewrite E1, Et. clear E1 Et.
  pose proof (proj1 Initialize_words) as Hi. rewrite <- H0_Initialize in Hi.
  destruct (D64_transform2 input (Fips.block Fips.H0 input) w) as (regs2 & E2 & E3); [auto..|]. rewrite E2, E3. clear E2 E3.
  destruct (D64_transform3 input (Fips.block (Fips.block Fips.H0 input) padding1) (drop 8 w)) as (regs3 & w3 & E4 & E5);
    [auto..|rewrite length_drop, Hw; reflexivity|].
  by rewrite E4, E5.
Qed.
(** The same through any transformation that is the block function. *)
Lemma TransformD64Wrapper_eq tr input :
  TransformD64Wrapper tr input = tr Initialize (digest_block (tr (tr Initialize input) padding1)) ≫= WriteBE32.
Proof. reflexivity. Qed.
Lemma padding1_ok : bytes_ok padding1.
Proof. by repeat constructor. Qed.
Lemma TransformD64Wrapper_sha256d input : length input = 64%nat → bytes_ok input → TransformD64Wrapper Transform input = sha256d input.
Proof.
  intros Hl Hb. rewrite sha256d_64, TransformD64Wrapper_eq, H0_Initialize by done. pose proof Initialize_words as [Hi Hw].
  rewrite (Transform_fips Initialize input) by done. rewrite (Transform_fips (Fips.block Initialize input) padding1); [|apply padding1_ok|auto..].
  rewrite Transform_fips; [reflexivity|apply digest_block_ok|done..].
Qed.

(** ** Many blocks *)

(** Blocks of 64 bytes, each hashed on its own. *)
Fixpoint each_block (n : nat) (hash : bytes → bytes) (input : bytes) : bytes :=
  match n with O => [] | S n => hash (take 64 input) ++ each_block n hash (drop 64 input) end.
(** What is asked of an implementation that takes [ways] blocks at a time. *)
Definition hashes_blocks (ways : nat) (hash : bytes → bytes) : Prop :=
  ∀ input, length input = (64 * ways)%nat → bytes_ok input → hash input = each_block ways sha256d input.
Lemma each_block_app k : ∀ n hash input, (64 * k ≤ length input)%nat →
  each_block (k + n) hash input = each_block k hash (take (64 * k) input) ++ each_block n hash (drop (64 * k) input).
Proof.
  induction k as [|k IH]; intros n hash input Hl; [done|]. cbn [each_block Nat.add]. rewrite IH by (rewrite length_drop; lia).
  rewrite <- app_assoc, take_take, Nat.min_l, drop_drop, take_drop_commute by lia.
  replace (64 + 64 * k)%nat with (64 * S k)%nat by lia. reflexivity.
Qed.
Lemma d64_loop_blocks fuel ways hash : ∀ input blocks out input' blocks',
  hashes_blocks ways hash → (0 < ways)%nat → (blocks ≤ fuel)%nat → length input = (64 * blocks)%nat → bytes_ok input →
  d64_loop fuel ways hash input blocks = (out, input', blocks') →
  (blocks' < ways)%nat ∧ length input' = (64 * blocks')%nat ∧ bytes_ok input' ∧
  each_block blocks sha256d input = out ++ each_block blocks' sha256d input'.
Proof.
  induction fuel as [|fuel IH]; intros input blocks out input' blocks' Hh Hw Hf Hl Hb E; cbn [d64_loop] in E.
  { injection E as <- <- <-. by split_and!; [lia|..]. }
  destruct (Nat.leb_spec ways blocks) as [Hle|Hlt]; [|injection E as <- <- <-; by split_and!].
  destruct (d64_loop fuel ways hash _ _) as [[o i'] b'] eqn:E'. injection E as <- <- <-.
  apply IH in E' as (H1 & H2 & H3 & H4); try done; [|lia|rewrite length_drop; lia|by apply Forall_drop]. split_and!; try done.
  rewrite <- app_assoc, <- H4. replace blocks with (ways + (blocks - ways))%nat at 1 by lia. rewrite each_block_app by lia. f_equal.
  symmetry. apply Hh; [rewrite length_take; lia|by apply Forall_take].
Qed.
Lemma d64_ways_blocks ways hash out input blocks out' input' blocks' :
  (∀ h, hash = Some h → hashes_blocks ways h) → (0 < ways)%nat → length input = (64 * blocks)%nat → bytes_ok input →
  d64_ways ways hash (out, input, blocks) = (out', input', blocks') →
  (is_Some hash → (blocks' < ways)%nat) ∧ length input' = (64 * blocks')%nat ∧ bytes_ok input' ∧
  out ++ each_block blocks sha256d input = out' ++ each_block blocks' sha256d input'.
Proof.
  intros Hh Hw Hl Hb E. destruct hash as [h|]; cbn [d64_ways] in E.
  - destruct (d64_loop blocks ways h input blocks) as [[o i'] b'] eqn:E'. injection E as <- <- <-.
    apply d64_loop_blocks in E' as (H1 & H2 & H3 & H4); try done; [|by apply Hh]. rewrite H4, app_assoc. by split_and!.
  - injection E as <- <- <-. by split_and!.
Qed.
Lemma SHA256D64_ways way8 way4 way2 way1 input blocks :
  (∀ h, way8 = Some h → hashes_blocks 8 h) → (∀ h, way4 = Some h → hashes_blocks 4 h) → (∀ h, way2 = Some h → hashes_blocks 2 h) → hashes_blocks 1 way1 →
  length input = (64 * blocks)%nat → bytes_ok input →
  SHA256D64 way8 way4 way2 way1 input blocks = each_block blocks sha256d input.
Proof.
  intros H8 H4 H2 H1 Hl Hb. unfold SHA256D64.
  destruct (d64_ways 8 way8 _) as [[o8 i8] b8] eqn:E8. apply d64_ways_blocks in E8 as (_ & L8 & B8 & X8); [|done|lia|done..].
  destruct (d64_ways 4 way4 _) as [[o4 i4] b4] eqn:E4. apply d64_ways_blocks in E4 as (_ & L4 & B4 & X4); [|done|lia|done..].
  destruct (d64_ways 2 way2 _) as [[o2 i2] b2] eqn:E2. apply d64_ways_blocks in E2 as (_ & L2 & B2 & X2); [|done|lia|done..].
  destruct (d64_ways 1 (Some way1) _) as [[o1 i1] b1] eqn:E1. apply d64_ways_blocks in E1 as (Z1 & L1 & B1 & X1); [|by intros h [= <-]|lia|done..].
  specialize (Z1 ltac:(by eexists)). replace b1 with 0%nat in * by lia. cbn [each_block fst] in *. rewrite app_nil_r in X1. by rewrite <- X1, <- X2, <- X4, <- X8.
Qed.
Lemma TransformD64_1way : hashes_blocks 1 TransformD64.
Proof. intros m Hm Hok. cbn [each_block]. rewrite take_ge, app_nil_r by lia. by apply TransformD64_sha256d. Qed.
Lemma Wrapper_1way : hashes_blocks 1 (TransformD64Wrapper Transform).
Proof. intros m Hm Hok. cbn [each_block]. rewrite take_ge, app_nil_r by lia. by apply TransformD64Wrapper_sha256d. Qed.
(** [SHA256D64] double-hashes each block of 64 bytes: with the portable
    [TransformD64] for single blocks, and with any implementations for two, four and
    eight blocks at a time that do so for their blocks (or none), the output is the
    concatenation of the double hashes, for every number of blocks.  The portable
    routine and its generic wrapper are SHA-256 of SHA-256, though the first has the
    padding worked into its constants. *)
Theorem SHA256D64_correct way8 way4 way2 input blocks :
  (∀ h, way8 = Some h → hashes_blocks 8 h) → (∀ h, way4 = Some h → hashes_blocks 4 h) → (∀ h, way2 = Some h → hashes_blocks 2 h) →
  length input = (64 * blocks)%nat → bytes_ok input →
  SHA256D64 way8 way4 way2 TransformD64 input blocks = each_block blocks sha256d input ∧
  SHA256D64 way8 way4 way2 (TransformD64Wrapper Transform) input blocks = each_block blocks sha256d input.
Proof. intros. split; apply SHA256D64_ways; try done; [apply TransformD64_1way|apply Wrapper_1way]. Qed.
Lemma TransformD64_2way : hashes_blocks 2 (each_block 2 TransformD64).
Proof.
  intros m Hm Hok. cbn [each_block]. rewrite !TransformD64_sha256d; [done|..];
    repeat first [apply Forall_take|apply Forall_drop|done]; rewrite ?length_take, ?length_drop; lia.
Qed.
Lemma seqZ_ok n : 0 ≤ n ≤ 256 → bytes_ok (seqZ 0 n).
Proof. intros Hn. apply Forall_forall. intros x Hx. apply elem_of_seqZ in Hx. unfold is_byte. lia. Qed.
Lemma no_way n h : None = Some h → hashes_blocks n h.
Proof. discriminate. Qed.
Lemma one_way n h' h : hashes_blocks n h' → Some h' = Some h → hashes_blocks n h.
Proof. by intros ? [= <-]. Qed.
(** Three blocks, two of them at a time. *)
Lemma SHA256D64_correct_witness :
  SHA256D64 None None (Some (each_block 2 TransformD64)) TransformD64 (seqZ 0 192) 3 = each_block 3 sha256d (seqZ 0 192).
Proof.
  exact (proj1 (SHA256D64_correct None None (Some (each_block 2 TransformD64)) (seqZ 0 192) 3 (no_way 8) (no_way 4)
    (λ h, one_way 2 _ h TransformD64_2way) eq_refl (seqZ_ok 192 ltac:(lia)))).
Defined.
