(* ===== verification/Ripemd160.v ===== *)
(** * RIPEMD-160 (crypto/ripemd160.h, crypto/ripemd160.cpp)

    Two lines of eighty rounds on the same words.  The five registers of a line
    rotate their roles; [second] says which line a round belongs to. *)
From S2P Require Import Prelude ArithUint256 Script Serialize Hasher.

Definition not32 (x : Z) : Z := x ^' (2 ^ 32 - 1).
Definition f1 (x y z : Z) : Z := x ^' y ^' z.
Definition f2 (x y z : Z) : Z := (x &' y) |' (not32 x &' z).
Definition f3 (x y z : Z) : Z := (x |' not32 y) ^' z.
Definition f4 (x y z : Z) : Z := (x &' z) |' (y &' not32 z).
Definition f5 (x y z : Z) : Z := x ^' (y |' not32 z).
Definition Initialize : list Z := [0x67452301; 0xEFCDAB89; 0x98BADCFE; 0x10325476; 0xC3D2E1F0].
Definition rol (x i : Z) : Z := u32 (x <<' i) |' (x >>' (32 - i)).
(** The new values of [a] and [c]. *)
Definition Round (a c e f x k r : Z) : Z * Z := (u32 (rol (u32 (a + f + x + k)) r + e), rol c 10).

(** A round: the function and the constant, the register in the role of [a], the
    number of the word and the rotation. *)
Record rline := mk_rline { second : bool; fn : Z → Z → Z → Z; rk : Z; rfirst : nat; rword : nat; rrot : Z }.
Definition R11 := mk_rline false f1 0.
Definition R21 := mk_rline false f2 0x5A827999.
Definition R31 := mk_rline false f3 0x6ED9EBA1.
Definition R41 := mk_rline false f4 0x8F1BBCDC.
Definition R51 := mk_rline false f5 0xA953FD4E.
Definition R12 := mk_rline true f5 0x50A28BE6.
Definition R22 := mk_rline true f4 0x5C4DD124.
Definition R32 := mk_rline true f3 0x6D703EF3.
Definition R42 := mk_rline true f2 0x7A6D76E9.
Definition R52 := mk_rline true f1 0.
Definition ra : nat := 0.
Definition rb : nat := 1.
Definition rc : nat := 2.
Definition rd : nat := 3.
Definition re : nat := 4.

Definition run_round (w regs : list Z) (l : rline) : list Z :=
  let r i := nth ((rfirst l + i) mod 5) regs 0 in
  let '(a, c) := Round (r 0%nat) (r 2%nat) (r 4%nat) (fn l (r 1%nat) (r 2%nat) (r 3%nat)) (nth (rword l) w 0) (rk l) (rrot l) in
  <[((rfirst l + 2) mod 5)%nat := c]> (<[((rfirst l + 0) mod 5)%nat := a]> regs).
Definition run_rline (w : list Z) (st : list Z * list Z) (l : rline) : list Z * list Z :=
  if second l then (st.1, run_round w st.2 l) else (run_round w st.1 l, st.2).

Definition Transform_rounds : list rline := [
  R11 ra 0 11; R12 ra 5 8;
  R11 re 1 14; R12 re 14 9;
  R11 rd 2 15; R12 rd 7 9;
  R11 rc 3 12; R12 rc 0 11;
  R11 rb 4 5; R12 rb 9 13;
  R11 ra 5 8; R12 ra 2 15;
  R11 re 6 7; R12 re 11 15;
  R11 rd 7 9; R12 rd 4 5;
  R11 rc 8 11; R12 rc 13 7;
  R11 rb 9 13; R12 rb 6 7;
  R11 ra 10 14; R12 ra 15 8;
  R11 re 11 15; R12 re 8 11;
  R11 rd 12 6; R12 rd 1 14;
  R11 rc 13 7; R12 rc 10 14;
  R11 rb 14 9; R12 rb 3 12;
  R11 ra 15 8; R12 ra 12 6;
  R21 re 7 7; R22 re 6 9;
  R21 rd 4 6; R22 rd 11 13;
  R21 rc 13 8; R22 rc 3 15;
  R21 rb 1 13; R22 rb 7 7;
  R21 ra 10 11; R22 ra 0 12;
  R21 re 6 9; R22 re 13 8;
  R21 rd 15 7; R22 rd 5 9;
  R21 rc 3 15; R22 rc 10 11;
  R21 rb 12 7; R22 rb 14 7;
  R21 ra 0 12; R22 ra 15 7;
  R21 re 9 15; R22 re 8 12;
  R21 rd 5 9; R22 rd 12 7;
  R21 rc 2 11; R22 rc 4 6;
  R21 rb 14 7; R22 rb 9 15;
  R21 ra 11 13; R22 ra 1 13;
  R21 re 8 12; R22 re 2 11;
  R31 rd 3 11; R32 rd 15 9;
  R31 rc 10 13; R32 rc 5 7;
  R31 rb 14 6; R32 rb 1 15;
  R31 ra 4 7; R32 ra 3 11;
  R31 re 9 14; R32 re 7 8;
  R31 rd 15 9; R32 rd 14 6;
  R31 rc 8 13; R32 rc 6 6;
  R31 rb 1 15; R32 rb 9 14;
  R31 ra 2 14; R32 ra 11 12;
  R31 re 7 8; R32 re 8 13;
  R31 rd 0 13; R32 rd 12 5;
  R31 rc 6 6; R32 rc 2 14;
  R31 rb 13 5; R32 rb 10 13;
  R31 ra 11 12; R32 ra 0 13;
  R31 re 5 7; R32 re 4 7;
  R31 rd 12 5; R32 rd 13 5;
  R41 rc 1 11; R42 rc 8 15;
  R41 rb 9 12; R42 rb 6 5;
  R41 ra 11 14; R42 ra 4 8;
  R41 re 10 15; R42 re 1 11;
  R41 rd 0 14; R42 rd 3 14;
  R41 rc 8 15; R42 rc 11 14;
  R41 rb 12 9; R42 rb 15 6;
  R41 ra 4 8; R42 ra 0 14;
  R41 re 13 9; R42 re 5 6;
  R41 rd 3 14; R42 rd 12 9;
  R41 rc 7 5; R42 rc 2 12;
  R41 rb 15 6; R42 rb 13 9;
  R41 ra 14 8; R42 ra 9 12;
  R41 re 5 6; R42 re 7 5;
  R41 rd 6 5; R42 rd 10 15;
  R41 rc 2 12; R42 rc 14 8;
  R51 rb 4 9; R52 rb 12 8;
  R51 ra 0 15; R52 ra 15 5;
  R51 re 5 5; R52 re 10 12;
  R51 rd 9 11; R52 rd 4 9;
  R51 rc 7 6; R52 rc 1 12;
  R51 rb 12 8; R52 rb 5 5;
  R51 ra 2 13; R52 ra 8 14;
  R51 re 10 12; R52 re 7 6;
  R51 rd 14 5; R52 rd 6 8;
  R51 rc 1 12; R52 rc 2 13;
  R51 rb 3 13; R52 rb 13 6;
  R51 ra 8 14; R52 ra 14 5;
  R51 re 11 11; R52 re 0 15;
  R51 rd 6 8; R52 rd 3 13;
  R51 rc 15 5; R52 rc 9 11;
  R51 rb 13 6; R52 rb 11 11
].
(** The two lines are added to the state with its words rotated. *)
Definition combine (s r1 r2 : list Z) : list Z :=
  (λ i, u32 (nth ((i + 1) mod 5) s 0 + nth ((i + 2) mod 5) r1 0 + nth ((i + 3) mod 5) r2 0)) <$> seq 0 5.
Definition chunk_words (chunk : bytes) : list Z := (λ i, ReadLE32 chunk (4 * i)) <$> seq 0 16.
Definition Transform (s : list Z) (chunk : bytes) : list Z :=
  let '(r1, r2) := foldl (run_rline (chunk_words chunk)) (s, s) Transform_rounds in combine s r1 r2.

(** ** The class [CRIPEMD160] *)

Definition new_CRIPEMD160 (junk : bytes) : hasher (list Z) := mk_hasher Initialize junk 0.
Definition Write (h : hasher (list Z)) (data : bytes) : hasher (list Z) := Write_loop Transform h data.
Definition Finalize (h : hasher (list Z)) : bytes := Finalize_with Write WriteLE64 h ≫= WriteLE32.
Definition Reset (h : hasher (list Z)) : hasher (list Z) := mk_hasher Initialize (buf h) 0.
(** A message hashed in one piece. *)
Definition RIPEMD160 (m : bytes) : bytes := Finalize (Write (new_CRIPEMD160 (replicate 64 0)) m).
