(* ===== verification/Sha1.v ===== *)
(** * SHA-1 (crypto/sha1.h, crypto/sha1.cpp)

    Eighty rounds on five registers whose roles rotate, and a window of sixteen words
    that is updated in place. *)
From S2P Require Import Prelude ArithUint256 Script Serialize Hasher.

(** The new values of [e] and [b]. *)
Definition Round (a b e f k w : Z) : Z * Z :=
  (u32 (e + ((u32 (a <<' 5) |' (a >>' 27)) + f + k + w)), u32 (b <<' 30) |' (b >>' 2)).
Definition f1 (b c d : Z) : Z := d ^' (b &' (c ^' d)).
Definition f2 (b c d : Z) : Z := b ^' c ^' d.
Definition f3 (b c d : Z) : Z := (b &' c) |' (d &' (b |' c)).
Definition left (x : Z) : Z := u32 (x <<' 1) |' (x >>' 31).
Definition Initialize : list Z := [0x67452301; 0xEFCDAB89; 0x98BADCFE; 0x10325476; 0xC3D2E1F0].
Definition k1 : Z := 0x5A827999.
Definition k2 : Z := 0x6ED9EBA1.
Definition k3 : Z := 0x8F1BBCDC.
Definition k4 : Z := 0xCA62C1D6.

(** The word of a round: [w_i = ReadBE32(chunk + off)], [w_i = left(...)], or a
    value that is not kept. *)
Inductive sword := Read (i off : nat) | Left (i w x y z : nat) | Last (w x y z : nat).
Record sline := mk_sline { sfirst : nat; fn : Z → Z → Z → Z; sk : Z; sarg : sword }.
Definition ra := mk_sline 0.
Definition rb := mk_sline 1.
Definition rc := mk_sline 2.
Definition rd := mk_sline 3.
Definition re := mk_sline 4.
Definition mix (v : list Z) (w x y z : nat) : Z := left (nth w v 0 ^' nth x v 0 ^' nth y v 0 ^' nth z v 0).
Definition sword_value (chunk : bytes) (v : list Z) (a : sword) : Z * list Z :=
  match a with
  | Read i off => let x := ReadBE32 chunk off in (x, <[i := x]> v)
  | Left i w x y z => let m := mix v w x y z in (m, <[i := m]> v)
  | Last w x y z => (mix v w x y z, v)
  end.
Definition run_sline (chunk : bytes) (st : list Z * list Z) (l : sline) : list Z * list Z :=
  let '(regs, v) := st in
  let r i := nth ((sfirst l + i) mod 5) regs 0 in
  let '(w, v) := sword_value chunk v (sarg l) in
  let '(e, b) := (Round (r 0) (r 1) (r 4) (fn l (r 1) (r 2) (r 3)) (sk l) w)%nat in
  (<[((sfirst l + 1) mod 5)%nat := b]> (<[((sfirst l + 4) mod 5)%nat := e]> regs), v).

Definition Transform_rounds : list sline := [
  ra f1 k1 (Read 0 0);
  re f1 k1 (Read 1 4);
  rd f1 k1 (Read 2 8);
  rc f1 k1 (Read 3 12);
  rb f1 k1 (Read 4 16);
  ra f1 k1 (Read 5 20);
  re f1 k1 (Read 6 24);
  rd f1 k1 (Read 7 28);
  rc f1 k1 (Read 8 32);
  rb f1 k1 (Read 9 36);
  ra f1 k1 (Read 10 40);
  re f1 k1 (Read 11 44);
  rd f1 k1 (Read 12 48);
  rc f1 k1 (Read 13 52);
  rb f1 k1 (Read 14 56);
  ra f1 k1 (Read 15 60);
  re f1 k1 (Left 0 0 13 8 2);
  rd f1 k1 (Left 1 1 14 9 3);
  rc f1 k1 (Left 2 2 15 10 4);
  rb f1 k1 (Left 3 3 0 11 5);
  ra f2 k2 (Left 4 4 1 12 6);
  re f2 k2 (Left 5 5 2 13 7);
  rd f2 k2 (Left 6 6 3 14 8);
  rc f2 k2 (Left 7 7 4 15 9);
  rb f2 k2 (Left 8 8 5 0 10);
  ra f2 k2 (Left 9 9 6 1 11);
  re f2 k2 (Left 10 10 7 2 12);
  rd f2 k2 (Left 11 11 8 3 13);
  rc f2 k2 (Left 12 12 9 4 14);
  rb f2 k2 (Left 13 13 10 5 15);
  ra f2 k2 (Left 14 14 11 6 0);
  re f2 k2 (Left 15 15 12 7 1);
  rd f2 k2 (Left 0 0 13 8 2);
  rc f2 k2 (Left 1 1 14 9 3);
  rb f2 k2 (Left 2 2 15 10 4);
  ra f2 k2 (Left 3 3 0 11 5);
  re f2 k2 (Left 4 4 1 12 6);
  rd f2 k2 (Left 5 5 2 13 7);
  rc f2 k2 (Left 6 6 3 14 8);
  rb f2 k2 (Left 7 7 4 15 9);
  ra f3 k3 (Left 8 8 5 0 10);
  re f3 k3 (Left 9 9 6 1 11);
  rd f3 k3 (Left 10 10 7 2 12);
  rc f3 k3 (Left 11 11 8 3 13);
  rb f3 k3 (Left 12 12 9 4 14);
  ra f3 k3 (Left 13 13 10 5 15);
  re f3 k3 (Left 14 14 11 6 0);
  rd f3 k3 (Left 15 15 12 7 1);
  rc f3 k3 (Left 0 0 13 8 2);
  rb f3 k3 (Left 1 1 14 9 3);
  ra f3 k3 (Left 2 2 15 10 4);
  re f3 k3 (Left 3 3 0 11 5);
  rd f3 k3 (Left 4 4 1 12 6);
  rc f3 k3 (Left 5 5 2 13 7);
  rb f3 k3 (Left 6 6 3 14 8);
  ra f3 k3 (Left 7 7 4 15 9);
  re f3 k3 (Left 8 8 5 0 10);
  rd f3 k3 (Left 9 9 6 1 11);
  rc f3 k3 (Left 10 10 7 2 12);
  rb f3 k3 (Left 11 11 8 3 13);
  ra f2 k4 (Left 12 12 9 4 14);
  re f2 k4 (Left 13 13 10 5 15);
  rd f2 k4 (Left 14 14 11 6 0);
  rc f2 k4 (Left 15 15 12 7 1);
  rb f2 k4 (Left 0 0 13 8 2);
  ra f2 k4 (Left 1 1 14 9 3);
  re f2 k4 (Left 2 2 15 10 4);
  rd f2 k4 (Left 3 3 0 11 5);
  rc f2 k4 (Left 4 4 1 12 6);
  rb f2 k4 (Left 5 5 2 13 7);
  ra f2 k4 (Left 6 6 3 14 8);
  re f2 k4 (Left 7 7 4 15 9);
  rd f2 k4 (Left 8 8 5 0 10);
  rc f2 k4 (Left 9 9 6 1 11);
  rb f2 k4 (Left 10 10 7 2 12);
  ra f2 k4 (Left 11 11 8 3 13);
  re f2 k4 (Left 12 12 9 4 14);
  rd f2 k4 (Last 13 10 5 15);
  rc f2 k4 (Last 14 11 6 0);
  rb f2 k4 (Last 15 12 7 1)
].
(** The words are not initialized before the first rounds set them. *)
Definition no_words : list Z := replicate 16 0.
Definition Transform (s : list Z) (chunk : bytes) : list Z :=
  zip_with (λ x y, u32 (x + y)) s (foldl (run_sline chunk) (s, no_words) Transform_rounds).1.

(** ** The class [CSHA1] *)

Definition new_CSHA1 (junk : bytes) : hasher (list Z) := mk_hasher Initialize junk 0.
Definition Write (h : hasher (list Z)) (data : bytes) : hasher (list Z) := Write_loop Transform h data.
Definition Finalize (h : hasher (list Z)) : bytes := Finalize_with Write WriteBE64 h ≫= WriteBE32.
Definition Reset (h : hasher (list Z)) : hasher (list Z) := mk_hasher Initialize (buf h) 0.
(** A message hashed in one piece. *)
Definition SHA1 (m : bytes) : bytes := Finalize (Write (new_CSHA1 (replicate 64 0)) m).
