(* ===== verification/HashFacts.v ===== *)
(** * RIPEMD-160 and SHA-1 compute what they are named after

    The definition of RIPEMD-160 with its permutations and that of SHA-1 in FIPS
    180-4, and the proofs that the unrolled rounds of the source compute them for
    messages written in any pieces. *)
From S2P Require Import Prelude ArithUint256 Script Interpreter Serialize Hasher Sha256 Sha256Facts Ripemd160 Sha1.

(** ** Five registers whose roles rotate *)

Definition roles5 (r : nat) (regs : list Z) : list Z := (λ j, nth ((r + j) mod 5) regs 0) <$> seq 0 5.
Lemma length_5 {A} (l : list A) : length l = 5%nat → ∃ a b c d e, l = [a; b; c; d; e].
Proof. destruct l as [|? [|? [|? [|? [|? [|]]]]]]; try done. intros _. by repeat eexists. Qed.
Lemma roles5_0 regs : length regs = 5%nat → roles5 0 regs = regs.
Proof. intros Hl. by destruct (length_5 _ Hl) as (a & b & c & d & e & ->). Qed.
Lemma first5_next t : ((4 * t mod 5 + 4) mod 5 = 4 * S t mod 5)%nat.
Proof. replace (4 * S t)%nat with (4 * t + 4)%nat by lia. by rewrite Nat.Div0.add_mod_idemp_l. Qed.

(** ** RIPEMD-160 *)

Module Rmd.
(** The permutations of the words. *)
Definition rho (i : nat) : nat := (nth i [7; 4; 13; 1; 10; 6; 15; 3; 12; 0; 9; 5; 2; 14; 11; 8] 0)%nat.
Definition pi (i : nat) : nat := (9 * i + 5) mod 16.
Definition word (right : bool) (t : nat) : nat := (Nat.iter (t / 16) rho (if right then pi (t mod 16) else t mod 16))%nat.
(** The functions, in the other order on the right. *)
Definition f (right : bool) (t : nat) : Z → Z → Z → Z :=
  nth (if right then 4 - t / 16 else t / 16)%nat
    [λ x y z, x ^' y ^' z; λ x y z, (x &' y) |' ((x ^' (2 ^ 32 - 1)) &' z); λ x y z, (x |' (y ^' (2 ^ 32 - 1))) ^' z;
     λ x y z, (x &' z) |' (y &' (z ^' (2 ^ 32 - 1))); λ x y z, x ^' (y |' (z ^' (2 ^ 32 - 1)))] (λ x y z, 0).
Definition K (right : bool) (t : nat) : Z :=
  nth (t / 16) (if right then [0x50A28BE6; 0x5C4DD124; 0x6D703EF3; 0x7A6D76E9; 0] else [0; 0x5A827999; 0x6ED9EBA1; 0x8F1BBCDC; 0xA953FD4E]) 0.
(** The rotations, by round and word. *)
Definition shifts : list (list Z) := [
  [11; 14; 15; 12; 5; 8; 7; 9; 11; 13; 14; 15; 6; 7; 9; 8];
  [12; 13; 11; 15; 6; 9; 9; 7; 12; 15; 11; 13; 7; 8; 7; 7];
  [13; 15; 14; 11; 7; 7; 6; 8; 13; 14; 13; 12; 5; 5; 6; 9];
  [14; 11; 12; 14; 8; 6; 5; 5; 15; 12; 15; 14; 9; 9; 8; 6];
  [15; 12; 13; 13; 9; 5; 8; 6; 14; 11; 12; 11; 8; 6; 5; 5]].
Definition shift (right : bool) (t : nat) : Z := nth (word right t) (nth (t / 16) shifts []) 0.
Definition rol (s x : Z) : Z := u32 (x <<' s) |' (x >>' (32 - s)).
Definition step (right : bool) (X : list Z) (st : list Z) (t : nat) : list Z :=
  match st with
  | [A; B; C; D; E] =>
      let T := u32 (rol (shift right t) (u32 (A + f right t B C D + nth (word right t) X 0 + K right t)) + E) in [E; T; B; rol 10 C; D]
  | _ => st
  end.
Definition X (block : bytes) : list Z := (λ i, ReadLE32 block (4 * i)) <$> seq 0 16.
(** Both lines are added to the state. *)
Definition finish (H l r : list Z) : list Z :=
  match H, l, r with
  | [h0; h1; h2; h3; h4], [A; B; C; D; E], [A'; B'; C'; D'; E'] =>
      [u32 (h1 + C + D'); u32 (h2 + D + E'); u32 (h3 + E + A'); u32 (h4 + A + B'); u32 (h0 + B + C')]
  | _, _, _ => H
  end.
Definition block (H : list Z) (b : bytes) : list Z :=
  finish H (foldl (step false (X b)) H (seq 0 80)) (foldl (step true (X b)) H (seq 0 80)).
Definition H0 : list Z := [0x67452301; 0xEFCDAB89; 0x98BADCFE; 0x10325476; 0xC3D2E1F0].
Definition pad (m : bytes) : bytes := m ++ 0x80 :: replicate (Z.to_nat ((55 - size m) mod 64)) 0 ++ WriteLE64 (8 * size m).
Fixpoint blocks (n : nat) (H : list Z) (m : bytes) : list Z :=
  match n with O => H | S n => blocks n (block H (take 64 m)) (drop 64 m) end.
Definition ripemd160 (m : bytes) : bytes := blocks (length (pad m) / 64) H0 (pad m) ≫= WriteLE32.
End Rmd.

Definition std_rline (right : bool) (t : nat) : rline :=
  mk_rline right (Rmd.f right t) (Rmd.K right t) (4 * t mod 5) (Rmd.word right t) (Rmd.shift right t).
Lemma left_rounds : List.filter (λ l, negb (second l)) Ripemd160.Transform_rounds = std_rline false <$> seq 0 80.
Proof. vm_compute. reflexivity. Qed.
Lemma right_rounds : List.filter second Ripemd160.Transform_rounds = std_rline true <$> seq 0 80.
Proof. vm_compute. reflexivity. Qed.
(** The two lines do not meet. *)
Lemma run_rlines_split w ls : ∀ s1 s2,
  foldl (run_rline w) (s1, s2) ls =
    (foldl (run_round w) s1 (List.filter (λ l, negb (second l)) ls), foldl (run_round w) s2 (List.filter second ls)).
Proof. induction ls as [|l ls IH]; intros s1 s2; [done|]. cbn [foldl List.filter]. unfold run_rline at 2. by destruct (second l); cbn [negb fst snd foldl]; rewrite IH. Qed.
Lemma run_round_roles w regs right t : length regs = 5%nat →
  length (run_round w regs (std_rline right t)) = 5%nat ∧
  roles5 (4 * S t mod 5) (run_round w regs (std_rline right t)) = Rmd.step right w (roles5 (4 * t mod 5) regs) t.
Proof.
  intros Hl. rewrite <- first5_next. unfold run_round, std_rline, Ripemd160.Round. cbn [rfirst fn rword rk rrot].
  pose proof (Nat.mod_upper_bound (4 * t) 5 ltac:(lia)) as Hr. destruct (length_5 _ Hl) as (a & b & c & d & e & ->).
  split; [by rewrite !length_insert|]. revert Hr. generalize (4 * t mod 5)%nat. intros r Hr.
  do 5 (destruct r as [|r]; [reflexivity|]). lia.
Qed.
Lemma run_rounds_roles w right n : ∀ t regs, length regs = 5%nat →
  let regs' := foldl (run_round w) regs (std_rline right <$> seq t n) in
  length regs' = 5%nat ∧ roles5 (4 * (t + n) mod 5) regs' = foldl (Rmd.step right w) (roles5 (4 * t mod 5) regs) (seq t n).
Proof.
  induction n as [|n IH]; intros t regs Hl regs'; subst regs'; [by rewrite Nat.add_0_r|]. cbn [seq fmap list_fmap foldl].
  destruct (run_round_roles w regs right t Hl) as [Hl' Ho]. destruct (IH (S t) _ Hl') as [Hl'' Ho']. split; [done|].
  replace (t + S n)%nat with (S t + n)%nat by lia. by rewrite Ho', Ho.
Qed.
Lemma run_rounds_80 w right regs : length regs = 5%nat →
  foldl (run_round w) regs (std_rline right <$> seq 0 80) = foldl (Rmd.step right w) regs (seq 0 80) ∧
  length (foldl (Rmd.step right w) regs (seq 0 80)) = 5%nat.
Proof.
  intros Hl. destruct (run_rounds_roles w right 80 0 regs Hl) as [Hl' Ho].
  change (4 * 0 mod 5)%nat with 0%nat in Ho. change (4 * (0 + 80) mod 5)%nat with 0%nat in Ho. rewrite !roles5_0 in Ho by done.
  rewrite <- Ho. by split.
Qed.
Lemma combine_finish s r1 r2 : length s = 5%nat → length r1 = 5%nat → length r2 = 5%nat →
  combine s r1 r2 = Rmd.finish s r1 r2 ∧ length (Rmd.finish s r1 r2) = 5%nat.
Proof.
  intros Hl H1 H2. destruct (length_5 _ Hl) as (a & b & c & d & e & ->), (length_5 _ H1) as (a1 & b1 & c1 & d1 & e1 & ->),
    (length_5 _ H2) as (a2 & b2 & c2 & d2 & e2 & ->). split; reflexivity.
Qed.
Lemma Transform_rmd s b : length s = 5%nat → Ripemd160.Transform s b = Rmd.block s b ∧ length (Rmd.block s b) = 5%nat.
Proof.
  intros Hl. unfold Ripemd160.Transform, Rmd.block. change (Rmd.X b) with (chunk_words b). rewrite run_rlines_split, left_rounds, right_rounds.
  destruct (run_rounds_80 (chunk_words b) false s Hl) as [-> H1]. destruct (run_rounds_80 (chunk_words b) true s Hl) as [-> H2].
  by apply combine_finish.
Qed.
Lemma transform_blocks_rmd n : ∀ s m, length s = 5%nat → transform_blocks Ripemd160.Transform n s m = Rmd.blocks n s m.
Proof.
  induction n as [|n IH]; intros s m Hl; [done|]. cbn [transform_blocks Rmd.blocks].
  destruct (Transform_rmd s (take 64 m) Hl) as [-> Hl']. by apply IH.
Qed.
Lemma Finalize_rmd h m : size m < 2 ^ 61 → hashed Ripemd160.Transform Ripemd160.Initialize h m → Ripemd160.Finalize h = Rmd.ripemd160 m.
Proof.
  intros Hs Hh. unfold Ripemd160.Finalize, Rmd.ripemd160.
  rewrite (Finalize_hashed Ripemd160.Transform Ripemd160.Write WriteLE64 Ripemd160.Initialize h m);
    [|intros; by apply Write_loop_hashed|apply (ser_writedata_length 8)|done].
  rewrite padded_eq by done. fold (Rmd.pad m). unfold iterate. by rewrite transform_blocks_rmd.
Qed.
(** [CRIPEMD160] computes RIPEMD-160: the 160 unrolled rounds of its two lines
    are those that the permutations of the words and the tables of rotations define,
    and a message may be written in any pieces, also after [Reset]. *)
Theorem ripemd160_correct junk h chunks :
  length junk = 64%nat → length (buf h) = 64%nat → size (mjoin chunks) < 2 ^ 61 →
  Ripemd160.Finalize (foldl Ripemd160.Write (new_CRIPEMD160 junk) chunks) = Rmd.ripemd160 (mjoin chunks) ∧
  Ripemd160.Finalize (foldl Ripemd160.Write (Ripemd160.Reset h) chunks) = Rmd.ripemd160 (mjoin chunks).
Proof.
  intros Hj Hh Hs. split; (apply Finalize_rmd; [done|]);
    apply (writes_hashed Ripemd160.Transform Ripemd160.Write Ripemd160.Initialize chunks _ []);
    try (intros; by apply Write_loop_hashed); by apply new_hashed.
Qed.
(** The message "abc", in pieces. *)
Lemma ripemd160_correct_witness :
  Ripemd160.Finalize (foldl Ripemd160.Write (new_CRIPEMD160 (replicate 64 7)) [[97]; []; [98; 99]]) = Rmd.ripemd160 [97; 98; 99] ∧
  Rmd.ripemd160 [97; 98; 99] = [142; 178; 8; 247; 224; 93; 152; 122; 155; 4; 74; 142; 152; 198; 176; 135; 241; 90; 11; 252].
Proof.
  split; [|vm_compute; reflexivity].
  exact (proj1 (ripemd160_correct (replicate 64 7) (new_CRIPEMD160 (replicate 64 0)) [[97]; []; [98; 99]] eq_refl eq_refl eq_refl)).
Defined.

(** ** SHA-1 *)

Module Fips1.
Definition rotl (n x : Z) : Z := u32 (x <<' n) |' (x >>' (32 - n)).
Definition parity (x y z : Z) : Z := x ^' y ^' z.
Definition f (t : nat) : Z → Z → Z → Z :=
  if (t <? 20)%nat then Fips.ch else if (t <? 40)%nat then parity else if (t <? 60)%nat then Fips.maj else parity.
Definition K (t : nat) : Z :=
  if (t <? 20)%nat then 0x5A827999 else if (t <? 40)%nat then 0x6ED9EBA1 else if (t <? 60)%nat then 0x8F1BBCDC else 0xCA62C1D6.
Fixpoint schedule (n : nat) (w : list Z) : list Z :=
  match n with
  | O => w
  | S n => let t := length w in
           schedule n (w ++ [rotl 1 (nth (t - 3) w 0 ^' nth (t - 8) w 0 ^' nth (t - 14) w 0 ^' nth (t - 16) w 0)])
  end.
Definition step (W : list Z) (st : list Z) (t : nat) : list Z :=
  match st with
  | [a; b; c; d; e] => [u32 (rotl 5 a + f t b c d + e + K t + nth t W 0); a; rotl 30 b; c; d]
  | _ => st
  end.
Definition block (H : list Z) (b : bytes) : list Z :=
  add_words H (foldl (step (schedule 64 (Fips.message_words b))) H (seq 0 80)).
Definition H0 : list Z := [0x67452301; 0xEFCDAB89; 0x98BADCFE; 0x10325476; 0xC3D2E1F0].
Fixpoint blocks (n : nat) (H : list Z) (m : bytes) : list Z :=
  match n with O => H | S n => blocks n (block H (take 64 m)) (drop 64 m) end.
Definition sha1 (m : bytes) : bytes := blocks (length (Fips.pad m) / 64) H0 (Fips.pad m) ≫= WriteBE32.
End Fips1.

Definition std_sword (t : nat) : sword :=
  if (t <? 16)%nat then Read t (4 * t)
  else if (t <? 77)%nat then Left (t mod 16) (t mod 16) ((t + 13) mod 16) ((t + 8) mod 16) ((t + 2) mod 16)
  else Last (t mod 16) ((t + 13) mod 16) ((t + 8) mod 16) ((t + 2) mod 16).
Definition std_f (t : nat) : Z → Z → Z → Z :=
  if (t <? 20)%nat then Sha1.f1 else if (t <? 40)%nat then Sha1.f2 else if (t <? 60)%nat then Sha1.f3 else Sha1.f2.
Definition std_sline (t : nat) : sline := mk_sline (4 * t mod 5) (std_f t) (Fips1.K t) (std_sword t).
Lemma sha1_rounds : Sha1.Transform_rounds = std_sline <$> seq 0 80.
Proof. vm_compute. reflexivity. Qed.
Lemma std_f_fips t x y z : in_u 32 z → std_f t x y z = Fips1.f t x y z.
Proof.
  intros Hz. unfold std_f, Fips1.f. destruct (t <? 20)%nat; [by apply Ch_fips|]. destruct (t <? 40)%nat; [done|].
  destruct (t <? 60)%nat; [apply Maj_fips|done].
Qed.
Lemma rotl_range n x : in_u 32 x → 0 ≤ n ≤ 32 → in_u 32 (Fips1.rotl n x).
Proof.
  intros Hx Hn. apply lor_range; [lia|apply u32_range|]. unfold in_u in *. rewrite shr_div by lia.
  split; [apply Z.div_pos; lia|]. apply Z.div_lt_upper_bound; nia.
Qed.
Lemma run_sline_roles chunk regs v t w v' :
  length regs = 5%nat → words regs → sword_value chunk v (std_sword t) = (w, v') →
  ∀ W, nth t W 0 = w →
  ∃ regs', run_sline chunk (regs, v) (std_sline t) = (regs', v') ∧ length regs' = 5%nat ∧ words regs' ∧
    roles5 (4 * S t mod 5) regs' = Fips1.step W (roles5 (4 * t mod 5) regs) t.
Proof.
  intros Hl Hw Hv W HW. rewrite <- first5_next. unfold run_sline, std_sline, Sha1.Round. cbn [sfirst fn sk sarg]. rewrite Hv.
  pose proof (Nat.mod_upper_bound (4 * t) 5 ltac:(lia)) as Hr. destruct (length_5 _ Hl) as (a & b & c & d & e & ->).
  unfold words in Hw. rewrite !Forall_cons in Hw. destruct Hw as (? & ? & ? & ? & ? & _). eexists. split; [reflexivity|].
  split; [by rewrite !length_insert|]. revert Hr. generalize (4 * t mod 5)%nat. intros r Hr.
  do 5 (destruct r as [|r]; [cbn -[u32 Fips1.step std_f Z.add Z.lor Z.shiftl Z.shiftr]; rewrite std_f_fips by done; split;
    [unfold words; rewrite !Forall_cons; split_and!; auto using u32_range; by apply (rotl_range 30)
    |unfold Fips1.step; rewrite HW; do 2 f_equal; unfold Fips1.rotl; change (32 - 5) with 27; lia]|]). lia.
Qed.

(** *** The schedule and the window *)

Lemma schedule1_length n : ∀ w, length (Fips1.schedule n w) = (length w + n)%nat.
Proof. induction n as [|n IH]; intros w; cbn; [lia|]. rewrite IH, length_app. cbn. lia. Qed.
Lemma schedule1_prefix n : ∀ w, ∃ l, Fips1.schedule n w = w ++ l.
Proof.
  induction n as [|n IH]; intros w; cbn [Fips1.schedule]; [by exists []; rewrite app_nil_r|].
  match goal with |- context [w ++ [?x]] => destruct (IH (w ++ [x])) as [l ->] end. rewrite <- app_assoc. by eexists.
Qed.
Lemma schedule1_nth n : ∀ w t, (16 ≤ length w)%nat → (length w ≤ t < length w + n)%nat →
  let W := Fips1.schedule n w in
  nth t W 0 = Fips1.rotl 1 (nth (t - 3) W 0 ^' nth (t - 8) W 0 ^' nth (t - 14) W 0 ^' nth (t - 16) W 0).
Proof.
  induction n as [|n IH]; intros w t Hl Ht W; [lia|]. subst W. cbn [Fips1.schedule]. set (x := Fips1.rotl 1 _).
  destruct (decide (t = length w)) as [->|Hne]; [|apply IH; rewrite length_app; cbn; lia].
  destruct (schedule1_prefix n (w ++ [x])) as [l ->]. rewrite <- app_assoc.
  rewrite (app_nth2 w), Nat.sub_diag by lia. rewrite !(app_nth1 w) by lia. reflexivity.
Qed.
(** What the rounds need of the words. *)
Definition is_schedule1 (b : bytes) (ws : list Z) : Prop :=
  (∀ t, (t < 16)%nat → nth t ws 0 = ReadBE32 b (4 * t)) ∧
  (∀ t, (16 ≤ t < 80)%nat → nth t ws 0 = left (nth (t - 3) ws 0 ^' nth (t - 8) ws 0 ^' nth (t - 14) ws 0 ^' nth (t - 16) ws 0)).
Lemma left_rotl x : left x = Fips1.rotl 1 x.
Proof. reflexivity. Qed.
Lemma schedule1_ok b : is_schedule1 b (Fips1.schedule 64 (Fips.message_words b)).
Proof.
  pose proof (message_words_length b) as Hl. pose proof (message_words_nth b) as Hn. revert Hl Hn. generalize (Fips.message_words b). intros w Hl Hn.
  split; intros t Ht; [|rewrite left_rotl; apply (schedule1_nth 64 w t); lia].
  destruct (schedule1_prefix 64 w) as [l ->]. rewrite app_nth1 by lia. by apply Hn.
Qed.
Lemma window_mix b ws t w : is_schedule1 b ws → window 77 ws t w → (16 ≤ t < 80)%nat →
  mix w (t mod 16) ((t + 13) mod 16) ((t + 8) mod 16) ((t + 2) mod 16) = nth t ws 0.
Proof.
  intros [_ Hn] [Hl Hw] Ht. rewrite (Hn t) by lia. rewrite <- !Hw by lia.
  assert (∀ k, (k ≤ t)%nat → (k ≤ 16)%nat → ((t - k) mod 16 = (t + (16 - k)) mod 16)%nat) as Hk.
  { intros k Hk Hk'. replace (t + (16 - k))%nat with (t - k + 1 * 16)%nat by lia. by rewrite Nat.Div0.mod_add. }
  rewrite !Hk by lia. cbn [Nat.sub]. rewrite Nat.add_0_r. unfold mix. f_equal.
  apply Z.bits_inj'. intros i _. rewrite !Z.lxor_spec.
  by destruct (Z.testbit _ _), (Z.testbit _ _), (Z.testbit _ _), (Z.testbit _ _).
Qed.
Lemma std_sword_value b ws t w :
  is_schedule1 b ws → (t < 80)%nat → window 77 ws t w →
  ∃ w', sword_value b w (std_sword t) = (nth t ws 0, w') ∧ window 77 ws (S t) w'.
Proof.
  intros Hs Ht Hw. unfold std_sword. destruct (Nat.ltb_spec t 16); [|destruct (Nat.ltb_spec t 77)]; cbn [sword_value]; cbv zeta.
  - rewrite <- (proj1 Hs) by done. eexists. split; [reflexivity|]. pose proof (window_insert 77 ws t w Hw) as Hi. by rewrite Nat.mod_small in Hi by done.
  - rewrite (window_mix b ws) by (done || lia). eexists. split; [reflexivity|]. by apply window_insert.
  - rewrite (window_mix b ws) by (done || lia). eexists. split; [reflexivity|]. destruct Hw as [Hl Hw]. split; [done|].
    intros j Hj1 Hj2 Hj3. apply Hw; lia.
Qed.
Lemma run_slines_std b ws n : ∀ t regs w,
  is_schedule1 b ws → (t + n ≤ 80)%nat → length regs = 5%nat → words regs → window 77 ws t w →
  let '(regs', _) := foldl (run_sline b) (regs, w) (std_sline <$> seq t n) in
  length regs' = 5%nat ∧ roles5 (4 * (t + n) mod 5) regs' = foldl (Fips1.step ws) (roles5 (4 * t mod 5) regs) (seq t n).
Proof.
  induction n as [|n IH]; intros t regs w Hs Hn Hl Hr Hw; [cbn [seq fmap list_fmap foldl]; by rewrite Nat.add_0_r|].
  cbn [seq fmap list_fmap foldl]. destruct (std_sword_value b ws t w Hs ltac:(lia) Hw) as (w1 & Hv & Hw1).
  destruct (run_sline_roles b regs w t _ _ Hl Hr Hv ws eq_refl) as (regs1 & E1 & Hl1 & Hr1 & Ho). rewrite E1.
  replace (t + S n)%nat with (S t + n)%nat by lia. rewrite <- Ho. apply IH; try done. lia.
Qed.
Lemma Transform_sha1 s b : length s = 5%nat → words s → Sha1.Transform s b = Fips1.block s b ∧ length (Fips1.block s b) = 5%nat ∧ words (Fips1.block s b).
Proof.
  intros Hl Hs. unfold Sha1.Transform, Fips1.block. fold (add_words s). rewrite sha1_rounds.
  generalize (schedule1_ok b). generalize (Fips1.schedule 64 (Fips.message_words b)). intros ws Hws.
  pose proof (run_slines_std b ws 80 0 s Sha1.no_words Hws ltac:(lia) Hl Hs) as H.
  assert (window 77 ws 0 Sha1.no_words) as Hw0 by (split; [done|]; intros j Hj; lia). specialize (H Hw0).
  destruct (foldl (run_sline b) _ _) as [regs v]. destruct H as [Hl' Ho].
  change (4 * 0 mod 5)%nat with 0%nat in Ho. change (4 * (0 + 80) mod 5)%nat with 0%nat in Ho. rewrite !roles5_0 in Ho by done.
  rewrite <- Ho. split_and!; [done| |apply add_words_words]. unfold add_words. rewrite length_zip_with. lia.
Qed.
Lemma transform_blocks_sha1 n : ∀ s m, length s = 5%nat → words s → transform_blocks Sha1.Transform n s m = Fips1.blocks n s m.
Proof.
  induction n as [|n IH]; intros s m Hl Hs; [done|]. cbn [transform_blocks Fips1.blocks].
  destruct (Transform_sha1 s (take 64 m) Hl Hs) as (-> & Hl' & Hs'). by apply IH.
Qed.
Lemma Finalize_sha1 h m : size m < 2 ^ 61 → hashed Sha1.Transform Sha1.Initialize h m → Sha1.Finalize h = Fips1.sha1 m.
Proof.
  intros Hs Hh. unfold Sha1.Finalize, Fips1.sha1.
  rewrite (Finalize_hashed Sha1.Transform Sha1.Write WriteBE64 Sha1.Initialize h m); [|intros; by apply Write_loop_hashed|apply WriteBE64_length|done].
  rewrite padded_fips by done. unfold iterate. rewrite transform_blocks_sha1; [done..|].
  unfold words, Sha1.Initialize. rewrite !Forall_cons. by split_and!.
Qed.
(** [CSHA1] computes SHA-1 of FIPS 180-4, for a message written in any pieces,
    also after [Reset]. *)
Theorem sha1_correct junk h chunks :
  length junk = 64%nat → length (buf h) = 64%nat → size (mjoin chunks) < 2 ^ 61 →
  Sha1.Finalize (foldl Sha1.Write (new_CSHA1 junk) chunks) = Fips1.sha1 (mjoin chunks) ∧
  Sha1.Finalize (foldl Sha1.Write (Sha1.Reset h) chunks) = Fips1.sha1 (mjoin chunks).
Proof.
  intros Hj Hh Hs. split; (apply Finalize_sha1; [done|]);
    apply (writes_hashed Sha1.Transform Sha1.Write Sha1.Initialize chunks _ []);
    try (intros; by apply Write_loop_hashed); by apply new_hashed.
Qed.
(** The message "abc", in pieces. *)
Lemma sha1_correct_witness :
  Sha1.Finalize (foldl Sha1.Write (new_CSHA1 (replicate 64 7)) [[97]; []; [98; 99]]) = Fips1.sha1 [97; 98; 99] ∧
  Fips1.sha1 [97; 98; 99] = [169; 153; 62; 54; 71; 6; 129; 106; 186; 62; 37; 113; 120; 80; 194; 108; 156; 208; 216; 157].
Proof.
  split; [|vm_compute; reflexivity].
  exact (proj1 (sha1_correct (replicate 64 7) (new_CSHA1 (replicate 64 0)) [[97]; []; [98; 99]] eq_refl eq_refl eq_refl)).
Defined.
