(* ===== verification/HashFunctions.v ===== *)
(** * The hash functions of the program (hash.h) as an instance of [Crypto]

    The rest of the development is over any [Crypto]; here its hash functions are
    those of the source.  [CHash256] and [CHash160] are the two compositions. *)
From S2P Require Import Prelude ArithUint256 Script Interpreter InterpreterSpecs Serialize Transaction Block.
From S2P Require Import Hasher Sha256 Sha256Facts Sha256D64 Ripemd160 Sha1 HashFacts.

(** What is asked of the hash functions besides sizes: their results are bytes. *)
Class CryptoBytes (C : Crypto) : Prop := { CSHA256_bytes m : bytes_ok (CSHA256 m); CRIPEMD160_bytes m : bytes_ok (CRIPEMD160 m) }.

(** [CheckLowS] is a function of the elliptic curve library. *)
Definition Hashes (lowS : bytes → bool) : Crypto :=
  {| CSHA256 := SHA256; CSHA1 := SHA1; CRIPEMD160 := RIPEMD160; CheckLowS := lowS |}.

(** ** The compositions *)

(** The object after [Finalize]. *)
Definition finalized (h : sha256_state) : sha256_state :=
  let sizedesc := WriteBE64 (u64 (count h <<' 3)) in
  Sha256.Write (Sha256.Write h (take (Z.to_nat (1 + (119 - count h mod 64) mod 64)) pad_block)) sizedesc.
Definition CHash256_Finalize (h : sha256_state) : bytes :=
  Sha256.Finalize (Sha256.Write (Sha256.Reset (finalized h)) (Sha256.Finalize h)).
(** [junk] is the buffer of the new [CRIPEMD160]. *)
Definition CHash160_Finalize (junk : bytes) (h : sha256_state) : bytes :=
  Ripemd160.Finalize (Ripemd160.Write (new_CRIPEMD160 junk) (Sha256.Finalize h)).

Lemma transform_blocks_length (T : list Z → bytes → list Z) k : (∀ s b, length s = k → length (T s b) = k) →
  ∀ n s m, length s = k → length (transform_blocks T n s m) = k.
Proof. intros HT n. induction n as [|n IH]; intros s m Hs; [done|]. cbn. apply IH. by apply HT. Qed.
Lemma run_lines_regs chunk ls : ∀ st, length (run_lines chunk st ls).1 = length st.1.
Proof.
  unfold run_lines. induction ls as [|l ls IH]; intros [regs w]; [done|]. cbn [foldl]. rewrite IH. unfold run_line.
  destruct (word_value chunk w (arg l)). unfold Sha256.Round. cbn [fst]. by rewrite !length_insert.
Qed.
Lemma Transform_length s b : length s = 8%nat → length (Sha256.Transform s b) = 8%nat.
Proof. intros Hs. unfold Sha256.Transform, add_words. rewrite length_zip_with, run_lines_regs. cbn [fst]. lia. Qed.
Lemma run_slines_regs chunk ls : ∀ st, length (foldl (run_sline chunk) st ls).1 = length st.1.
Proof.
  induction ls as [|l ls IH]; intros [regs w]; [done|]. cbn [foldl]. rewrite IH. unfold run_sline.
  destruct (sword_value chunk w (sarg l)). unfold Sha1.Round. cbn [fst]. by rewrite !length_insert.
Qed.
Lemma Transform1_length s b : length s = 5%nat → length (Sha1.Transform s b) = 5%nat.
Proof. intros Hs. unfold Sha1.Transform. rewrite length_zip_with, run_slines_regs. cbn [fst]. lia. Qed.
Lemma digestLE_length d : length (d ≫= WriteLE32) = (4 * length d)%nat.
Proof. induction d as [|x d IH]; [done|]. rewrite bind_cons, length_app, IH. cbn. lia. Qed.
Lemma digestLE_ok d : bytes_ok (d ≫= WriteLE32).
Proof. apply Forall_bind, Forall_true. intros x. unfold WriteLE32. repeat constructor; apply u8_byte. Qed.
Lemma new_write_hashed (T : list Z → bytes → list Z) init m : hashed T init (Write_loop T (mk_hasher init (replicate 64 0) 0) m) m.
Proof. apply (Write_loop_hashed T init _ [] m). by apply new_hashed. Qed.
#[export] Instance Hashes_sizes lowS : CryptoSizes (Hashes lowS).
Proof.
  split; intros m; cbn [CSHA256 CSHA1 CRIPEMD160 Hashes]; unfold size.
  - unfold SHA256, Sha256.Finalize. rewrite digest_length.
    rewrite (Finalize_hashed Sha256.Transform Sha256.Write WriteBE64 Sha256.Initialize _ m);
      [|intros; by apply Write_blocks_hashed|apply WriteBE64_length|apply (Write_blocks_hashed Sha256.Transform Sha256.Initialize _ [] m); by apply new_hashed].
    unfold iterate. by rewrite (transform_blocks_length Sha256.Transform 8 Transform_length).
  - unfold SHA1, Sha1.Finalize. rewrite digest_length.
    rewrite (Finalize_hashed Sha1.Transform Sha1.Write WriteBE64 Sha1.Initialize _ m); [|intros; by apply Write_loop_hashed|apply WriteBE64_length|apply new_write_hashed].
    unfold iterate. by rewrite (transform_blocks_length Sha1.Transform 5 Transform1_length).
  - unfold RIPEMD160, Ripemd160.Finalize. rewrite digestLE_length.
    rewrite (Finalize_hashed Ripemd160.Transform Ripemd160.Write WriteLE64 Ripemd160.Initialize _ m);
      [|intros; by apply Write_loop_hashed|apply (ser_writedata_length 8)|apply new_write_hashed].
    unfold iterate. rewrite (transform_blocks_length Ripemd160.Transform 5); [done|intros s b Hs|done].
    destruct (Transform_rmd s b Hs) as [-> ?]. done.
Qed.
#[export] Instance Hashes_bytes lowS : CryptoBytes (Hashes lowS).
Proof. split; intros m; cbn [CSHA256 CRIPEMD160 Hashes]; [apply digest_ok|apply digestLE_ok]. Qed.

(** ** What they compute *)

Lemma hashed_buf (T : list Z → bytes → list Z) init h m : hashed T init h m → length (buf h) = 64%nat.
Proof. by intros (k & m1 & m2 & _ & _ & _ & H & _). Qed.
Lemma sha_writes junk chunks : length junk = 64%nat → hashed Sha256.Transform Sha256.Initialize (foldl Sha256.Write (new_CSHA256 junk) chunks) (mjoin chunks).
Proof.
  intros Hj. apply (writes_hashed Sha256.Transform Sha256.Write Sha256.Initialize chunks _ []); [intros; by apply Write_blocks_hashed|by apply new_hashed].
Qed.
Lemma sha256_ok m : bytes_ok (Fips.sha256 m).
Proof. apply digest_ok. Qed.
Lemma blocks_length n : ∀ s m, length (Fips.blocks n s m) = length s.
Proof. induction n as [|n IH]; intros s m; [done|]. cbn [Fips.blocks]. by rewrite IH, block_length. Qed.
Lemma sha256_size m : size (Fips.sha256 m) = 32.
Proof. unfold size, Fips.sha256. by rewrite digest_length, blocks_length. Qed.
Lemma finalized_buf h m : hashed Sha256.Transform Sha256.Initialize h m → length (buf (finalized h)) = 64%nat.
Proof. intros Hh. unfold finalized, Sha256.Write. eapply hashed_buf. by apply Write_blocks_hashed, Write_blocks_hashed. Qed.
Lemma reset_write h m : length (buf h) = 64%nat → hashed Sha256.Transform Sha256.Initialize (Sha256.Write (Sha256.Reset h) m) m.
Proof. intros Hh. apply (Write_blocks_hashed Sha256.Transform Sha256.Initialize _ [] m). by apply new_hashed. Qed.
(** The two hashers of hash.h: an object of [CHash256] to which a message is
    written in pieces gives SHA-256 of SHA-256 of it, though the inner object is used
    again after its digest was taken; [CHash160] gives RIPEMD-160 of SHA-256. *)
Theorem hash256_hash160_correct junk junk' chunks :
  length junk = 64%nat → length junk' = 64%nat → bytes_ok (mjoin chunks) → size (mjoin chunks) < 2 ^ 61 →
  let h := foldl Sha256.Write (new_CSHA256 junk) chunks in
  CHash256_Finalize h = Fips.sha256 (Fips.sha256 (mjoin chunks)) ∧
  CHash160_Finalize junk' h = Rmd.ripemd160 (Fips.sha256 (mjoin chunks)).
Proof.
  intros Hj Hj' Hm Hs h. pose proof (sha_writes junk chunks Hj) as Hh. fold h in Hh. pose proof (Finalize_fips h _ Hm Hs Hh) as E.
  pose proof (sha256_size (mjoin chunks)). unfold CHash256_Finalize, CHash160_Finalize. rewrite E. split.
  - apply Finalize_fips; [apply sha256_ok|lia|]. apply reset_write. by apply (finalized_buf h (mjoin chunks)).
  - apply Finalize_rmd; [lia|]. apply (Write_loop_hashed Ripemd160.Transform Ripemd160.Initialize _ [] _). by apply new_hashed.
Qed.
Lemma hash256_hash160_correct_witness :
  CHash256_Finalize (foldl Sha256.Write (new_CSHA256 (replicate 64 1)) [[97]; [98; 99]]) = Fips.sha256 (Fips.sha256 [97; 98; 99]).
Proof.
  refine (proj1 (hash256_hash160_correct (replicate 64 1) (replicate 64 2) [[97]; [98; 99]] eq_refl eq_refl _ eq_refl)).
  by repeat constructor.
Defined.

(** ** A level of the Merkle tree *)

Lemma CHash256_sha256d lowS m : bytes_ok m → size m < 2 ^ 61 → @CHash256 (Hashes lowS) m = sha256d m.
Proof.
  intros Hm Hs. unfold CHash256, sha256d. cbn [CSHA256 Hashes]. rewrite (SHA256_fips m) by done. apply SHA256_fips; [apply sha256_ok|].
  pose proof (sha256_size m). lia.
Qed.
Definition hashes_ok (l : list bytes) : Prop := Forall (λ h, bytes_ok h ∧ length h = 32%nat) l.
Lemma each_block_pairs lowS n : ∀ l, hashes_ok l → length l = (2 * n)%nat →
  each_block n sha256d (concat l) = concat (@Block.SHA256D64 (Hashes lowS) l).
Proof.
  induction n as [|n IH]; intros l Hl Hn; [by destruct l|]. destruct l as [|a [|b l]]; [discriminate Hn|cbn in Hn; lia|].
  apply Forall_cons in Hl as [[Ha La] Hl]. apply Forall_cons in Hl as [[Hb Lb] Hl]. cbn [length] in Hn.
  cbn [each_block Block.SHA256D64 concat]. rewrite !app_assoc. rewrite take_app_le, drop_app_le by (rewrite length_app; lia).
  rewrite take_ge, drop_ge by (rewrite length_app; lia). cbn [app]. rewrite IH by (done || lia).
  rewrite CHash256_sha256d; [done|by apply Forall_app|unfold size; rewrite length_app, La, Lb; done].
Qed.
Lemma concat_hashes l : hashes_ok l → bytes_ok (concat l) ∧ length (concat l) = (32 * length l)%nat.
Proof.
  induction 1 as [|h l [Hh Lh] _ [IH1 IH2]]; [by split; [apply Forall_nil|]|]. cbn [concat length]. rewrite length_app.
  split; [by apply Forall_app|lia].
Qed.
(** A level of the Merkle tree: on the concatenation of an even number of hashes
    [SHA256D64], with any vector routines that are right for their blocks, gives the
    hashes of the pairs that [ComputeMerkleRoot] goes on with. *)
Theorem merkle_level way8 way4 way2 lowS l n :
  (∀ h, way8 = Some h → hashes_blocks 8 h) → (∀ h, way4 = Some h → hashes_blocks 4 h) → (∀ h, way2 = Some h → hashes_blocks 2 h) →
  hashes_ok l → length l = (2 * n)%nat →
  Sha256.SHA256D64 way8 way4 way2 TransformD64 (concat l) n = concat (@Block.SHA256D64 (Hashes lowS) l).
Proof.
  intros H8 H4 H2 Hl Hn. destruct (concat_hashes l Hl) as [Hb Hc]. rewrite <- (each_block_pairs lowS n) by done.
  apply SHA256D64_ways; try done; [apply TransformD64_1way|lia].
Qed.
Lemma merkle_level_witness :
  Sha256.SHA256D64 None None (Some (each_block 2 TransformD64)) TransformD64 (concat (replicate 6 (replicate 32 9))) 3 =
    concat (@Block.SHA256D64 (Hashes (λ _, true)) (replicate 6 (replicate 32 9))).
Proof.
  refine (merkle_level None None (Some (each_block 2 TransformD64)) (λ _, true) (replicate 6 (replicate 32 9)) 3 (no_way 8) (no_way 4)
    (λ h, one_way 2 _ h TransformD64_2way) _ eq_refl).
  apply Forall_replicate. split; [by apply Forall_replicate|done].
Defined.
