(* ===== verification/Strings.v ===== *)
(** * Text encodings (utilstrencodings.h, utilstrencodings.cpp, uint256.cpp)

    Strings are lists of character codes.  A [const char*] is the list of its
    characters before the terminating zero, which reads as 0 past the end. *)
From S2P Require Import Prelude ArithUint256 Script Serialize.

(** The characters of a literal. *)
Definition chars (s : string) : bytes := (λ a, Z.of_N (Ascii.N_of_ascii a)) <$> String.list_ascii_of_string s.
(** [c_str()]: what a reader of a C string sees. *)
Fixpoint c_str (s : bytes) : bytes :=
  match s with
  | [] => []
  | c :: s => if c =? 0 then [] else c :: c_str s
  end.
(** [isspace] in the C locale. *)
Definition isspace (c : Z) : bool := (c =? 32) || (9 <=? c) && (c <=? 13).
Fixpoint skip_spaces (s : bytes) : bytes :=
  match s with
  | c :: s' => if isspace c then skip_spaces s' else s
  | [] => []
  end.

(** ** Hexadecimal *)

Definition p_util_hexdigit : list Z := [
  -1; -1; -1; -1; -1; -1; -1; -1; -1; -1; -1; -1; -1; -1; -1; -1; -1; -1; -1; -1; -1; -1; -1; -1; -1; -1; -1; -1; -1; -1; -1; -1;
  -1; -1; -1; -1; -1; -1; -1; -1; -1; -1; -1; -1; -1; -1; -1; -1; 0; 1; 2; 3; 4; 5; 6; 7; 8; 9; -1; -1; -1; -1; -1; -1;
  -1; 10; 11; 12; 13; 14; 15; -1; -1; -1; -1; -1; -1; -1; -1; -1; -1; -1; -1; -1; -1; -1; -1; -1; -1; -1; -1; -1; -1; -1; -1; -1;
  -1; 10; 11; 12; 13; 14; 15; -1; -1; -1; -1; -1; -1; -1; -1; -1; -1; -1; -1; -1; -1; -1; -1; -1; -1; -1; -1; -1; -1; -1; -1; -1;
  -1; -1; -1; -1; -1; -1; -1; -1; -1; -1; -1; -1; -1; -1; -1; -1; -1; -1; -1; -1; -1; -1; -1; -1; -1; -1; -1; -1; -1; -1; -1; -1;
  -1; -1; -1; -1; -1; -1; -1; -1; -1; -1; -1; -1; -1; -1; -1; -1; -1; -1; -1; -1; -1; -1; -1; -1; -1; -1; -1; -1; -1; -1; -1; -1;
  -1; -1; -1; -1; -1; -1; -1; -1; -1; -1; -1; -1; -1; -1; -1; -1; -1; -1; -1; -1; -1; -1; -1; -1; -1; -1; -1; -1; -1; -1; -1; -1;
  -1; -1; -1; -1; -1; -1; -1; -1; -1; -1; -1; -1; -1; -1; -1; -1; -1; -1; -1; -1; -1; -1; -1; -1; -1; -1; -1; -1; -1; -1; -1; -1].
Definition HexDigit (c : Z) : Z := nth (Z.to_nat c) p_util_hexdigit (-1).
Definition IsHex (str : bytes) : bool :=
  forallb (λ c, 0 <=? HexDigit c) str && (0 <? size str) && (size str mod 2 =? 0).
Definition IsHexNumber (str : bytes) : bool :=
  let starting_location :=
    match str with
    | a :: b :: _ :: _ => if (a =? 48) && (b =? 120) then 2%nat else 0%nat
    | _ => 0%nat
    end in
  forallb (λ c, 0 <=? HexDigit c) (drop starting_location str) && (Z.of_nat starting_location <? size str).
(** Each round reads a byte, after spaces; [fuel] bounds the rounds. *)
Fixpoint ParseHex_loop (fuel : nat) (psz : bytes) : bytes :=
  match fuel with
  | O => []
  | S fuel =>
      match skip_spaces psz with
      | a :: rest =>
          if HexDigit a =? -1 then [] else
          match rest with
          | b :: rest =>
              if HexDigit b =? -1 then [] else (u8 (HexDigit a <<' 4) |' HexDigit b) :: ParseHex_loop fuel rest
          | [] => []
          end
      | [] => []
      end
  end.
Definition ParseHex (str : bytes) : bytes := let psz := c_str str in ParseHex_loop (S (length psz)) psz.
Definition hexmap : bytes := chars "0123456789abcdef".
Definition hex_char (v : Z) : Z := nth (Z.to_nat v) hexmap 0.
Definition HexStr (b : bytes) (fSpaces : bool) : bytes :=
  concat (imap (λ i val, (if fSpaces && negb (i =? 0)%nat then [32] else []) ++ [hex_char (val >>' 4); hex_char (val &' 15)]) b).

(** *** [base_blob] and hexadecimal *)

Definition GetHex (b : bytes) : bytes := HexStr (rev b) false.
(** The digits from the last one; [width] bytes are filled. *)
Fixpoint SetHex_loop (width : nat) (digits : list Z) : bytes :=
  match width with
  | O => []
  | S width =>
      match digits with
      | lo :: hi :: rest => (lo |' u8 (hi <<' 4)) :: SetHex_loop width rest
      | [lo] => lo :: replicate width 0
      | [] => replicate (S width) 0
      end
  end.
Fixpoint hex_prefix (s : bytes) : list Z :=
  match s with
  | c :: s => if HexDigit c =? -1 then [] else HexDigit c :: hex_prefix s
  | [] => []
  end.
Definition skip_0x (psz : bytes) : bytes :=
  match psz with
  | a :: b :: rest => if (a =? 48) && ((b =? 120) || (b =? 88)) then rest else psz
  | _ => psz
  end.
Definition SetHex (width : nat) (psz : bytes) : bytes :=
  SetHex_loop width (rev (hex_prefix (skip_0x (skip_spaces psz)))).
Definition uint256S (str : bytes) : bytes := SetHex 32 (c_str str).

(** ** Groups of bits *)

(** The inner loop of [ConvertBits]; at most [fuel] groups are complete. *)
Fixpoint flush (tobits acc : Z) (fuel : nat) (bits : Z) : list Z * Z :=
  match fuel with
  | O => ([], bits)
  | S fuel =>
      if tobits <=? bits then
        let bits := bits - tobits in
        let '(out, bits') := flush tobits acc fuel bits in
        ((acc >>' bits) &' (2 ^ tobits - 1) :: out, bits')
      else ([], bits)
  end.
(** What is written, and the accumulator with its number of bits at the end. *)
Fixpoint convert_loop (frombits tobits acc bits : Z) (input : list Z) : list Z * Z * Z :=
  match input with
  | [] => ([], acc, bits)
  | v :: input =>
      let acc := (u64 (acc <<' frombits) |' v) &' (2 ^ (frombits + tobits - 1) - 1) in
      let bits := bits + frombits in
      let '(out, bits) := flush tobits acc (Z.to_nat bits) bits in
      let '(out', acc, bits) := convert_loop frombits tobits acc bits input in
      (out ++ out', acc, bits)
  end.
(** The groups and the result. *)
Definition ConvertBits (frombits tobits : Z) (pad : bool) (input : list Z) : list Z * bool :=
  let '(out, acc, bits) := convert_loop frombits tobits 0 0 input in
  let rest := u64 (acc <<' (tobits - bits)) &' (2 ^ tobits - 1) in
  if pad then (if negb (bits =? 0) then (out ++ [rest], true) else (out, true))
  else if (frombits <=? bits) || negb (rest =? 0) then (out, false)
  else (out, true).

(** ** Base 64 and base 32 *)

(** [while (str.size() % n) str += '='] *)
Definition pad_with (n : nat) (str : bytes) : bytes := str ++ replicate ((n - length str mod n) mod n) 61.
Definition pbase64 : bytes := chars "ABCDEFGHIJKLMNOPQRSTUVWXYZabcdefghijklmnopqrstuvwxyz0123456789+/".
Definition EncodeBase64 (pch : bytes) : bytes := pad_with 4 ((λ v, nth (Z.to_nat v) pbase64 0) <$> (ConvertBits 8 6 true pch).1).
Definition decode64_table : list Z := [
  -1; -1; -1; -1; -1; -1; -1; -1; -1; -1; -1; -1; -1; -1; -1; -1; -1; -1; -1; -1; -1; -1; -1; -1; -1; -1; -1; -1; -1; -1; -1; -1;
  -1; -1; -1; -1; -1; -1; -1; -1; -1; -1; -1; 62; -1; -1; -1; 63; 52; 53; 54; 55; 56; 57; 58; 59; 60; 61; -1; -1; -1; -1; -1; -1;
  -1; 0; 1; 2; 3; 4; 5; 6; 7; 8; 9; 10; 11; 12; 13; 14; 15; 16; 17; 18; 19; 20; 21; 22; 23; 24; 25; -1; -1; -1; -1; -1;
  -1; 26; 27; 28; 29; 30; 31; 32; 33; 34; 35; 36; 37; 38; 39; 40; 41; 42; 43; 44; 45; 46; 47; 48; 49; 50; 51; -1; -1; -1; -1; -1;
  -1; -1; -1; -1; -1; -1; -1; -1; -1; -1; -1; -1; -1; -1; -1; -1; -1; -1; -1; -1; -1; -1; -1; -1; -1; -1; -1; -1; -1; -1; -1; -1;
  -1; -1; -1; -1; -1; -1; -1; -1; -1; -1; -1; -1; -1; -1; -1; -1; -1; -1; -1; -1; -1; -1; -1; -1; -1; -1; -1; -1; -1; -1; -1; -1;
  -1; -1; -1; -1; -1; -1; -1; -1; -1; -1; -1; -1; -1; -1; -1; -1; -1; -1; -1; -1; -1; -1; -1; -1; -1; -1; -1; -1; -1; -1; -1; -1;
  -1; -1; -1; -1; -1; -1; -1; -1; -1; -1; -1; -1; -1; -1; -1; -1; -1; -1; -1; -1; -1; -1; -1; -1; -1; -1; -1; -1; -1; -1; -1; -1].
(** The values of the characters of the alphabet, and what follows them. *)
Fixpoint take_values (table : list Z) (p : bytes) : list Z * bytes :=
  match p with
  | [] => ([], [])
  | c :: p' =>
      let x := nth (Z.to_nat c) table (-1) in
      if x =? -1 then ([], p) else let '(val, rest) := take_values table p' in (x :: val, rest)
  end.
(** The decoders: the bytes, and whether the input was valid.  [n] characters make
    up a group. *)
Definition decode_base (table : list Z) (frombits n : Z) (p : bytes) : bytes * bool :=
  let '(val, q) := take_values table p in
  let '(ret, valid) := ConvertBits frombits 8 false val in
  (ret, valid && forallb (λ c, c =? 61) q && ((size val + size q) mod n =? 0) && (size q <? n)).
Definition DecodeBase64 (p : bytes) : bytes * bool := decode_base decode64_table 6 4 p.
Definition pbase32 : bytes := chars "abcdefghijklmnopqrstuvwxyz234567".
Definition EncodeBase32 (pch : bytes) : bytes := pad_with 8 ((λ v, nth (Z.to_nat v) pbase32 0) <$> (ConvertBits 8 5 true pch).1).
Definition decode32_table : list Z := [
  -1; -1; -1; -1; -1; -1; -1; -1; -1; -1; -1; -1; -1; -1; -1; -1; -1; -1; -1; -1; -1; -1; -1; -1; -1; -1; -1; -1; -1; -1; -1; -1;
  -1; -1; -1; -1; -1; -1; -1; -1; -1; -1; -1; -1; -1; -1; -1; -1; -1; -1; 26; 27; 28; 29; 30; 31; -1; -1; -1; -1; -1; -1; -1; -1;
  -1; 0; 1; 2; 3; 4; 5; 6; 7; 8; 9; 10; 11; 12; 13; 14; 15; 16; 17; 18; 19; 20; 21; 22; 23; 24; 25; -1; -1; -1; -1; -1;
  -1; 0; 1; 2; 3; 4; 5; 6; 7; 8; 9; 10; 11; 12; 13; 14; 15; 16; 17; 18; 19; 20; 21; 22; 23; 24; 25; -1; -1; -1; -1; -1;
  -1; -1; -1; -1; -1; -1; -1; -1; -1; -1; -1; -1; -1; -1; -1; -1; -1; -1; -1; -1; -1; -1; -1; -1; -1; -1; -1; -1; -1; -1; -1; -1;
  -1; -1; -1; -1; -1; -1; -1; -1; -1; -1; -1; -1; -1; -1; -1; -1; -1; -1; -1; -1; -1; -1; -1; -1; -1; -1; -1; -1; -1; -1; -1; -1;
  -1; -1; -1; -1; -1; -1; -1; -1; -1; -1; -1; -1; -1; -1; -1; -1; -1; -1; -1; -1; -1; -1; -1; -1; -1; -1; -1; -1; -1; -1; -1; -1;
  -1; -1; -1; -1; -1; -1; -1; -1; -1; -1; -1; -1; -1; -1; -1; -1; -1; -1; -1; -1; -1; -1; -1; -1; -1; -1; -1; -1; -1; -1; -1; -1].
Definition DecodeBase32 (p : bytes) : bytes * bool := decode_base decode32_table 5 8 p.
