(* ===== verification/StringsFacts.v ===== *)
(** * Text encodings are inverse to their decodings

    [ConvertBits] keeps the number that its groups of bits write; hence the round
    trips of base 64, base 32 and of the payload of addresses. *)
From S2P Require Import Prelude ArithUint256 Script Interpreter InterpreterSpecs Serialize Strings.

(** ** Numbers in base [B], the highest digit first *)

Definition digits_ok (B : Z) (l : list Z) : Prop := Forall (λ v, 0 ≤ v < B) l.
Definition bev (B : Z) (l : list Z) : Z := foldl (λ a v, a * B + v) 0 l.
Lemma bev_snoc B l x : bev B (l ++ [x]) = bev B l * B + x.
Proof. unfold bev. by rewrite foldl_app. Qed.
Lemma size_snoc {A} (l : list A) x : size (l ++ [x]) = size l + 1.
Proof. by rewrite size_app. Qed.
Lemma bev_app B l k : bev B (l ++ k) = bev B l * B ^ size k + bev B k.
Proof.
  induction k as [|x k IH] using rev_ind; [rewrite app_nil_r; change (size []) with 0; change (bev B []) with 0; rewrite Z.pow_0_r; lia|].
  pose proof (size_nonneg k). rewrite app_assoc, !bev_snoc, IH, size_snoc, Z.pow_add_r, Z.pow_1_r by lia. lia.
Qed.
Lemma bev_range B l : 0 ≤ B → digits_ok B l → 0 ≤ bev B l < B ^ size l.
Proof.
  intros HB. induction l as [|x l IH] using rev_ind; intros Hl; [by cbn|]. pose proof (size_nonneg l).
  apply Forall_app in Hl as [Hl [Hx _]%Forall_cons]. specialize (IH Hl). rewrite bev_snoc, size_snoc, Z.pow_add_r, Z.pow_1_r by lia. nia.
Qed.
Lemma bev_inj B : ∀ l k, digits_ok B l → digits_ok B k → length l = length k → bev B l = bev B k → l = k.
Proof.
  intros l. induction l as [|x l IH] using rev_ind; intros k Hl Hk Hn E; [by destruct k|].
  destruct (decide (k = [])) as [->|Hne]; [rewrite length_app in Hn; cbn in Hn; lia|].
  destruct (exists_last Hne) as (k' & y & ->). rewrite !length_app in Hn. cbn [length] in Hn. rewrite !bev_snoc in E.
  apply Forall_app in Hl as [Hl [Hx _]%Forall_cons]. apply Forall_app in Hk as [Hk [Hy _]%Forall_cons].
  assert (bev B l = bev B k' ∧ x = y) as [E1 ->].
  { revert E. generalize (bev B l), (bev B k'). intros u v E. assert (u = v) by nia. subst v. split; lia. }
  f_equal. apply IH; try done. lia.
Qed.
(** *** Groups of [w] bits *)

Abbreviation be w := (bev (2 ^ w)).
Abbreviation groups_ok w := (digits_ok (2 ^ w)).
Lemma be_app w l k : 0 ≤ w → be w (l ++ k) = be w l * 2 ^ (w * size k) + be w k.
Proof. intros Hw. pose proof (size_nonneg k). by rewrite bev_app, Z.pow_mul_r by lia. Qed.

(** ** [ConvertBits] *)

Lemma flush_spec tobits acc : 0 < tobits → 0 ≤ acc → ∀ fuel bits out bits',
  0 ≤ bits → bits < Z.of_nat fuel * tobits + tobits → flush tobits acc fuel bits = (out, bits') →
  0 ≤ bits' < tobits ∧ groups_ok tobits out ∧ bits = size out * tobits + bits' ∧
  acc mod 2 ^ bits = be tobits out * 2 ^ bits' + acc mod 2 ^ bits'.
Proof.
  intros Ht Ha fuel. induction fuel as [|fuel IH]; intros bits out bits' Hb Hf E; cbn [flush] in E.
  { injection E as <- <-. split_and!; [lia|lia|by apply Forall_nil|change (size []) with 0; lia|change (be tobits []) with 0; lia]. }
  destruct (Z.leb_spec tobits bits); [|injection E as <- <-; split_and!; [lia|lia|by apply Forall_nil|change (size []) with 0; lia|change (be tobits []) with 0; lia]].
  destruct (flush tobits acc fuel (bits - tobits)) as [out1 b1] eqn:E1. injection E as <- <-.
  apply IH in E1 as (H1 & H2 & H3 & H4); [|lia..]. set (b2 := bits - tobits) in *.
  rewrite land_mask, shr_div by lia. set (g := (acc / 2 ^ b2) mod 2 ^ tobits).
  assert (0 ≤ g < 2 ^ tobits) as Hg by (apply Z.mod_pos_bound; apply Z.pow_pos_nonneg; lia).
  split_and!; [lia|lia|by constructor|unfold size in *; cbn [length]; lia|].
  change (g :: out1) with ([g] ++ out1). rewrite be_app by lia.
  replace (be tobits [g]) with g by (cbn; lia). replace bits with (b2 + tobits) by lia.
  rewrite Z.pow_add_r by lia. rewrite Z.rem_mul_r by lia. fold g. rewrite H4, H3.
  rewrite (Z.pow_add_r 2 (size out1 * tobits)) by (unfold size; lia). rewrite (Z.mul_comm tobits). lia.
Qed.
Section Convert.
Context (from to : Z) (Hfrom : 1 ≤ from ≤ 8) (Hto : 1 ≤ to ≤ 8).

Lemma accumulate acc bits v :
  0 ≤ bits < to → 0 ≤ acc < 2 ^ (from + to - 1) → 0 ≤ v < 2 ^ from →
  let acc' := (u64 (acc <<' from) |' v) &' (2 ^ (from + to - 1) - 1) in
  0 ≤ acc' < 2 ^ (from + to - 1) ∧ acc' mod 2 ^ (bits + from) = (acc mod 2 ^ bits) * 2 ^ from + v.
Proof.
  intros Hb Ha Hv acc'. subst acc'. rewrite land_mask by lia. split; [apply Z.mod_pos_bound, Z.pow_pos_nonneg; lia|].
  rewrite shl_mul by lia. rewrite u64_small.
  2:{ assert (2 ^ (from + to - 1) ≤ 2 ^ 15) by (apply Z.pow_le_mono_r; lia). assert (2 ^ from ≤ 2 ^ 8) by (apply Z.pow_le_mono_r; lia).
      unfold in_u. nia. }
  rewrite lor_add_disjoint by lia. rewrite <- Znumtheory.Zmod_div_mod.
  - rewrite (Z.add_comm bits), Z.pow_add_r, Z.rem_mul_r by lia.
    rewrite (Z.add_comm _ v), Z_mod_plus_full, Z.div_add, Z.div_small, (Z.mod_small v) by lia. rewrite Z.add_0_l. lia.
  - apply Z.pow_pos_nonneg; lia.
  - apply Z.pow_pos_nonneg; lia.
  - exists (2 ^ (from + to - 1 - (bits + from))). rewrite <- Z.pow_add_r by lia. f_equal. lia.
Qed.
Lemma convert_loop_spec input : ∀ acc bits out acc' bits',
  groups_ok from input → 0 ≤ bits < to → 0 ≤ acc < 2 ^ (from + to - 1) → convert_loop from to acc bits input = (out, acc', bits') →
  0 ≤ bits' < to ∧ 0 ≤ acc' < 2 ^ (from + to - 1) ∧ groups_ok to out ∧ bits + from * size input = size out * to + bits' ∧
  (acc mod 2 ^ bits) * 2 ^ (from * size input) + be from input = be to out * 2 ^ bits' + acc' mod 2 ^ bits'.
Proof.
  induction input as [|v input IH]; intros acc bits out acc' bits' Hi Hb Ha E; cbn [convert_loop] in E.
  { injection E as <- <- <-. split_and!; try lia; [by apply Forall_nil|change (size []) with 0; lia|change (size []) with 0; change (be from []) with 0; change (be to []) with 0; rewrite Z.mul_0_r; lia]. }
  apply Forall_cons in Hi as [Hv Hi]. destruct (accumulate acc bits v Hb Ha Hv) as [Ha1 Em].
  set (acc1 := (u64 (acc <<' from) |' v) &' (2 ^ (from + to - 1) - 1)) in *.
  destruct (flush to acc1 (Z.to_nat (bits + from)) (bits + from)) as [o1 b1] eqn:E1.
  apply flush_spec in E1 as (H1 & H2 & H3 & H4); [|lia|lia|lia|nia].
  destruct (convert_loop from to acc1 b1 input) as [[o2 a2] b2] eqn:E2. injection E as <- <- <-.
  apply IH in E2 as (G1 & G2 & G3 & G4 & G5); [|done|lia|lia].
  assert (size (v :: input) = 1 + size input) as -> by (unfold size; cbn [length]; lia).
  split_and!; try lia; [by apply Forall_app|rewrite size_app; lia|].
  rewrite be_app by lia. change (v :: input) with ([v] ++ input). rewrite be_app by lia. replace (be from [v]) with v by (cbn; lia).
  assert (0 ≤ size input) by (unfold size; lia). assert (0 ≤ size o2) by (unfold size; lia).
  rewrite Z.mul_add_distr_l, Z.mul_1_r, Z.pow_add_r by lia. rewrite Em in H4.
  transitivity ((acc mod 2 ^ bits * 2 ^ from + v) * 2 ^ (from * size input) + be from input); [lia|]. rewrite H4.
  transitivity (be to o1 * 2 ^ (b1 + from * size input) + (acc1 mod 2 ^ b1 * 2 ^ (from * size input) + be from input)); [rewrite Z.pow_add_r by lia; lia|].
  rewrite G5, G4, Z.pow_add_r, (Z.mul_comm to) by lia. lia.
Qed.
(** The groups left over. *)
Lemma rest_spec acc bits : 0 ≤ bits < to → 0 ≤ acc < 2 ^ (from + to - 1) →
  u64 (acc <<' (to - bits)) &' (2 ^ to - 1) = (acc mod 2 ^ bits) * 2 ^ (to - bits).
Proof.
  intros Hb Ha. rewrite land_mask, shl_mul by lia. rewrite u64_small.
  2:{ assert (2 ^ (from + to - 1) ≤ 2 ^ 15) by (apply Z.pow_le_mono_r; lia). assert (2 ^ (to - bits) ≤ 2 ^ 8) by (apply Z.pow_le_mono_r; lia).
      assert (0 < 2 ^ (to - bits)) by (apply Z.pow_pos_nonneg; lia). unfold in_u. nia. }
  replace to with (bits + (to - bits)) at 2 by lia. rewrite Z.pow_add_r by lia. rewrite Z.mul_mod_distr_r; [done|..]; apply Z.pow_nonzero; lia.
Qed.
Lemma ConvertBits_pad input : groups_ok from input → ∃ out p,
  ConvertBits from to true input = (out, true) ∧ groups_ok to out ∧ 0 ≤ p < to ∧ size out * to = from * size input + p ∧ be to out = be from input * 2 ^ p.
Proof.
  intros Hi. unfold ConvertBits. destruct (convert_loop from to 0 0 input) as [[o a] b] eqn:E.
  apply convert_loop_spec in E as (H1 & H2 & H3 & H4 & H5); [|done|lia|split; [lia|apply Z.pow_pos_nonneg; lia]].
  rewrite Zmod_0_l, Z.mul_0_l, !Z.add_0_l in *. rewrite rest_spec by lia. destruct (Z.eqb_spec b 0) as [->|Hb]; cbn [negb].
  - exists o, 0. change (2 ^ 0) with 1 in *. rewrite Z.mod_1_r in H5. split_and!; try done; lia.
  - exists (o ++ [a mod 2 ^ b * 2 ^ (to - b)]), (to - b).
    pose proof (Z.mod_pos_bound a (2 ^ b) ltac:(apply Z.pow_pos_nonneg; lia)) as Hr.
    assert (2 ^ to = 2 ^ b * 2 ^ (to - b)) as Ep by (rewrite <- Z.pow_add_r by lia; f_equal; lia).
    assert (0 < 2 ^ (to - b)) by (apply Z.pow_pos_nonneg; lia).
    split_and!; try lia; [done| | |].
    + apply Forall_app. split; [done|]. constructor; [|constructor]. rewrite Ep. nia.
    + rewrite size_app. change (size [_]) with 1. lia.
    + rewrite bev_snoc, H5, Ep. lia.
Qed.
Lemma ConvertBits_nopad input out r : groups_ok from input → ConvertBits from to false input = (out, r) → ∃ p rest,
  groups_ok to out ∧ 0 ≤ p < to ∧ 0 ≤ rest < 2 ^ p ∧ from * size input = size out * to + p ∧ be from input = be to out * 2 ^ p + rest ∧
  r = (p <? from) && (rest =? 0).
Proof.
  intros Hi. unfold ConvertBits. destruct (convert_loop from to 0 0 input) as [[o a] b] eqn:E.
  apply convert_loop_spec in E as (H1 & H2 & H3 & H4 & H5); [|done|lia|split; [lia|apply Z.pow_pos_nonneg; lia]].
  rewrite Zmod_0_l, Z.mul_0_l, !Z.add_0_l in *. rewrite rest_spec by lia. intros Er.
  assert (0 < 2 ^ (to - b)) by (apply Z.pow_pos_nonneg; lia).
  exists b, (a mod 2 ^ b). assert (out = o ∧ r = (b <? from) && (a mod 2 ^ b =? 0)) as [-> ->].
  { replace (a mod 2 ^ b * 2 ^ (to - b) =? 0) with (a mod 2 ^ b =? 0) in Er.
    2:{ destruct (Z.eqb_spec (a mod 2 ^ b) 0) as [->|], (Z.eqb_spec (a mod 2 ^ b * 2 ^ (to - b)) 0); nia. }
    destruct (Z.leb_spec from b), (Z.ltb_spec b from), (a mod 2 ^ b =? 0); try lia; cbn in Er; naive_solver. }
  pose proof (Z.mod_pos_bound a (2 ^ b) ltac:(apply Z.pow_pos_nonneg; lia)). split_and!; try done; lia.
Qed.
End Convert.

(** ** Round trips of groups of bits *)

Lemma groups_bytes l : groups_ok 8 l ↔ bytes_ok l.
Proof. done. Qed.
Lemma div_unique k a b p q : 0 < k → 0 ≤ p < k → 0 ≤ q < k → a * k + p = b * k + q → a = b ∧ p = q.
Proof. intros. assert (a = b) by nia. subst. lia. Qed.
Lemma convert_there_and_back k d l : 1 ≤ k ≤ 8 → bytes_ok d → ConvertBits 8 k true d = (l, true) →
  groups_ok k l ∧ ConvertBits k 8 false l = (d, true).
Proof.
  intros Hk Hd E. destruct (ConvertBits_pad 8 k ltac:(lia) ltac:(lia) d Hd) as (l' & p & E' & Hl & Hp & Hn & Hv).
  rewrite E in E'. injection E' as <-. split; [done|]. destruct (ConvertBits k 8 false l) as [d' r] eqn:Er.
  destruct (ConvertBits_nopad k 8 ltac:(lia) ltac:(lia) l d' r Hl Er) as (q & rest & Hd' & Hq & Hr & Hn' & Hv' & ->).
  destruct (div_unique 8 (size d) (size d') p q) as [Hs <-]; try lia. rewrite Hv in Hv'.
  assert (0 < 2 ^ p) by (apply Z.pow_pos_nonneg; lia).
  destruct (div_unique (2 ^ p) (be 8 d) (be 8 d') 0 rest) as [Hb <-]; try lia.
  rewrite (bev_inj (2 ^ 8) d' d) by (try done; unfold size in Hs; lia). f_equal.
  by rewrite (proj2 (Z.ltb_lt p k)), Z.eqb_refl by lia.
Qed.
Lemma convert_back_and_there k d l : 1 ≤ k ≤ 8 → groups_ok k l → ConvertBits k 8 false l = (d, true) →
  bytes_ok d ∧ ConvertBits 8 k true d = (l, true).
Proof.
  intros Hk Hl E. destruct (ConvertBits_nopad k 8 ltac:(lia) ltac:(lia) l d true Hl E) as (q & rest & Hd & Hq & Hr & Hn & Hv & Et).
  symmetry in Et. apply andb_true_iff in Et as [Hq'%Z.ltb_lt ->%Z.eqb_eq]. split; [done|].
  destruct (ConvertBits_pad 8 k ltac:(lia) ltac:(lia) d Hd) as (l' & p & E' & Hl' & Hp & Hn' & Hv'). rewrite E'. f_equal.
  destruct (div_unique k (size l) (size l') p q) as [Hs ->]; try lia.
  symmetry. apply (bev_inj (2 ^ k)); try done; [unfold size in Hs; lia|lia].
Qed.

(** ** Alphabets *)

(** A table that gives back the position of each character. *)
Definition alphabet_ok (n : nat) (alphabet table : list Z) : bool :=
  forallb (λ v, nth (Z.to_nat (nth v alphabet 0)) table (-1) =? Z.of_nat v) (seq 0 n).
Lemma alphabet_nth n alphabet table v : alphabet_ok n alphabet table = true → 0 ≤ v < Z.of_nat n →
  nth (Z.to_nat (nth (Z.to_nat v) alphabet 0)) table (-1) = v.
Proof.
  intros H Hv. unfold alphabet_ok in H. rewrite forallb_forall in H. specialize (H (Z.to_nat v)). rewrite in_seq in H.
  specialize (H ltac:(lia)). apply Z.eqb_eq in H. lia.
Qed.
(** A table without other characters than those of the alphabet. *)
Definition table_ok (n : nat) (alphabet table : list Z) : bool :=
  (length table =? 256)%nat &&
  forallb (λ c, let x := nth c table (-1) in (x =? -1) || (0 <=? x) && (x <? Z.of_nat n) && (nth (Z.to_nat x) alphabet 0 =? Z.of_nat c)) (seq 0 256).
Lemma table_nth n alphabet table c x : table_ok n alphabet table = true →
  nth (Z.to_nat c) table (-1) = x → x ≠ -1 → 0 ≤ c → 0 ≤ x < Z.of_nat n ∧ nth (Z.to_nat x) alphabet 0 = c.
Proof.
  intros [Hl%Nat.eqb_eq H]%andb_true_iff E Hx Hc. rewrite forallb_forall in H. destruct (decide (Z.to_nat c < 256)%nat) as [Hlt|].
  - specialize (H (Z.to_nat c)). rewrite in_seq in H. specialize (H ltac:(lia)). cbv zeta in H. rewrite E in H.
    destruct (Z.eqb_spec x (-1)); [done|]. cbn [orb] in H. rewrite !andb_true_iff, Z.leb_le, Z.ltb_lt, Z.eqb_eq in H. lia.
  - rewrite nth_overflow in E; [lia|]. lia.
Qed.
Lemma take_values_app n alphabet table vs q : alphabet_ok n alphabet table = true → Forall (λ v, 0 ≤ v < Z.of_nat n) vs →
  (∀ c, head q = Some c → nth (Z.to_nat c) table (-1) = -1) →
  take_values table (((λ v, nth (Z.to_nat v) alphabet 0) <$> vs) ++ q) = (vs, q).
Proof.
  intros Ha Hv Hq. induction Hv as [|v vs Hv _ IH]; cbn [fmap list_fmap app take_values].
  - destruct q as [|c q]; [done|]. cbn [take_values]. by rewrite Hq.
  - rewrite (alphabet_nth n) by done. destruct (Z.eqb_spec v (-1)); [lia|]. by rewrite IH.
Qed.
Lemma pad_length n m : (0 < n)%nat → ((m + (n - m mod n) mod n) mod n = 0 ∧ (n - m mod n) mod n < n)%nat.
Proof.
  intros Hn. split; [|by apply Nat.mod_upper_bound; lia]. pose proof (Nat.mod_upper_bound m n ltac:(lia)).
  rewrite Nat.Div0.add_mod_idemp_r. rewrite (Nat.div_mod m n) at 1 by lia.
  replace (n * (m / n) + m mod n + (n - m mod n))%nat with ((m / n + 1) * n)%nat by lia. apply Nat.Div0.mod_mul.
Qed.
Lemma decode_base_encode n alphabet table frombits g b :
  1 ≤ frombits ≤ 8 → Z.of_nat n = 2 ^ frombits → (0 < g)%nat → alphabet_ok n alphabet table = true → nth 61 table (-1) = -1 → bytes_ok b →
  decode_base table frombits (Z.of_nat g) (pad_with g ((λ v, nth (Z.to_nat v) alphabet 0) <$> (ConvertBits 8 frombits true b).1)) = (b, true).
Proof.
  intros Hf Hn Hg Ha H61 Hb. destruct (ConvertBits_pad 8 frombits ltac:(lia) ltac:(lia) b Hb) as (l & p & E & _). rewrite E. cbn [fst].
  destruct (convert_there_and_back frombits b l Hf Hb E) as [Hl E']. unfold decode_base, pad_with.
  destruct (pad_length g (length ((λ v, nth (Z.to_nat v) alphabet 0) <$> l)) Hg) as [H1 H2].
  rewrite (take_values_app n), E'; [|done|by rewrite Hn|].
  - rewrite length_fmap in *. f_equal. rewrite !andb_true_iff. split_and!; [done|apply forallb_forall|apply Z.eqb_eq|apply Z.ltb_lt].
    + intros x Hx. apply list_elem_of_In, elem_of_replicate in Hx as [-> _]. done.
    + unfold size. rewrite length_replicate, <- Nat2Z.inj_add, <- Nat2Z.inj_mod. by rewrite H1.
    + unfold size. rewrite length_replicate. lia.
  - intros c. rewrite length_fmap. destruct ((g - length l mod g) mod g)%nat; [done|]. by intros [= <-].
Qed.

(** ** Base 64 and base 32 *)

Lemma base64_alphabet : alphabet_ok 64 pbase64 decode64_table = true.
Proof. vm_compute. reflexivity. Qed.
Lemma base32_alphabet : alphabet_ok 32 pbase32 decode32_table = true.
Proof. vm_compute. reflexivity. Qed.
Lemma base64_table c x : nth (Z.to_nat c) decode64_table (-1) = x → x ≠ -1 → 0 ≤ c → 0 ≤ x < 64 ∧ nth (Z.to_nat x) pbase64 0 = c.
Proof. apply (table_nth 64). vm_compute. reflexivity. Qed.
Lemma take_values64 p : bytes_ok p → ∀ val q, take_values decode64_table p = (val, q) →
  groups_ok 6 val ∧ p = ((λ v, nth (Z.to_nat v) pbase64 0) <$> val) ++ q.
Proof.
  induction 1 as [|c p Hc _ IH]; intros val q E; cbn [take_values] in E; [injection E as <- <-; by split; [apply Forall_nil|]|].
  remember (nth (Z.to_nat c) decode64_table (-1)) as x eqn:Ex. destruct (Z.eqb_spec x (-1)) as [|Hx]; [injection E as <- <-; by split; [apply Forall_nil|]|].
  destruct (take_values decode64_table p) as [v q'] eqn:E'. injection E as <- <-. destruct (IH v q' eq_refl) as [Hv ->].
  unfold is_byte in Hc. destruct (base64_table c x (eq_sym Ex) Hx ltac:(lia)) as [H1 H2]. split; [by constructor|]. by rewrite fmap_cons, H2.
Qed.
(** Base 64 and base 32 are inverse to their decoders: what is encoded decodes,
    as valid, to the bytes it was made from; and base 64 is canonical, a string that
    the decoder accepts is the encoding of what it decodes to, padding included. *)
Theorem base64_base32_roundtrip b s :
  bytes_ok b → bytes_ok s →
  DecodeBase64 (EncodeBase64 b) = (b, true) ∧ DecodeBase32 (EncodeBase32 b) = (b, true) ∧
  (DecodeBase64 s = (b, true) → s = EncodeBase64 b).
Proof.
  intros Hb Hs. split_and!.
  - apply (decode_base_encode 64 pbase64 decode64_table 6 4); try done; lia.
  - apply (decode_base_encode 32 pbase32 decode32_table 5 8); try done; lia.
  - unfold DecodeBase64, decode_base. destruct (take_values decode64_table s) as [val q] eqn:E. destruct (take_values64 s Hs val q E) as [Hv ->].
    destruct (ConvertBits 6 8 false val) as [ret valid] eqn:Ec. intros [= -> Hok]. rewrite !andb_true_iff in Hok. destruct Hok as [[[-> Hq] Hn] Hl].
    destruct (convert_back_and_there 6 b val ltac:(lia) Hv Ec) as [_ E2]. unfold EncodeBase64. rewrite E2. cbn [fst]. unfold pad_with. f_equal.
    assert (q = replicate (length q) 61) as Eq.
    { clear -Hq. induction q as [|c q IH]; [done|]. cbn in Hq |- *. apply andb_true_iff in Hq as [->%Z.eqb_eq Hq]. f_equal. by apply IH. }
    rewrite Eq at 1. f_equal. apply Z.ltb_lt in Hl. apply Z.eqb_eq in Hn. unfold size in *. rewrite length_fmap.
    change 4 with (Z.of_nat 4) in Hn. rewrite <- Nat2Z.inj_add, <- Nat2Z.inj_mod in Hn. change 0 with (Z.of_nat 0) in Hn. apply Nat2Z.inj in Hn.
    pose proof (Nat.div_mod (length val + length q) 4 ltac:(lia)). pose proof (Nat.div_mod (length val) 4 ltac:(lia)). 
    pose proof (Nat.mod_upper_bound (length val) 4 ltac:(lia)). destruct (decide (length val mod 4 = 0)%nat) as [E0|].
    + rewrite E0. change ((4 - 0) mod 4)%nat with 0%nat. lia.
    + rewrite Nat.mod_small by lia. lia.
Qed.
Lemma base64_base32_roundtrip_witness :
  DecodeBase64 (chars "Zm9vYmFyIQ==") = (chars "foobar!", true) ∧ chars "Zm9vYmFyIQ==" = EncodeBase64 (chars "foobar!").
Proof.
  split; [vm_compute; reflexivity|].
  apply (base64_base32_roundtrip (chars "foobar!") (chars "Zm9vYmFyIQ==")); [| |vm_compute; reflexivity];
    unfold bytes_ok; vm_compute; repeat constructor; discriminate.
Defined.

(** ** Hexadecimal *)

Definition hexbyte (v : Z) : bytes := [hex_char (v >>' 4); hex_char (v &' 15)].
(** What a byte of text gives back. *)
Definition hexbyte_ok (v : Z) : bool :=
  let a := hex_char (v >>' 4) in let b := hex_char (v &' 15) in
  (HexDigit a =? v >>' 4) && (HexDigit b =? v &' 15) && (u8 ((v >>' 4) <<' 4) |' (v &' 15) =? v) && ((v &' 15) |' u8 ((v >>' 4) <<' 4) =? v) &&
  negb (isspace a) && negb (a =? 0) && negb (b =? 0) && negb (HexDigit a =? -1) && negb (HexDigit b =? -1) && negb (b =? 120) && negb (b =? 88).
Lemma hexbyte_all v : is_byte v → hexbyte_ok v = true.
Proof.
  intros Hv. assert (forallb (λ n, hexbyte_ok (Z.of_nat n)) (seq 0 256) = true) as H by (vm_compute; reflexivity).
  rewrite forallb_forall in H. specialize (H (Z.to_nat v)). rewrite in_seq in H. unfold is_byte in Hv.
  specialize (H ltac:(lia)). by rewrite Z2Nat.id in H by lia.
Qed.
Ltac hexbyte Hv :=
  pose proof (hexbyte_all _ Hv) as Hx; unfold hexbyte_ok in Hx; cbv zeta in Hx;
  rewrite !andb_true_iff, !negb_true_iff, !Z.eqb_eq in Hx;
  destruct Hx as ((((((((((Hx1 & Hx2) & Hx3) & Hx4) & Hx5) & Hx6) & Hx7) & Hx8) & Hx9) & Hx10) & Hx11).
Definition hex_piece (fSpaces : bool) (i : nat) (v : Z) : bytes := (if fSpaces && negb (i =? 0)%nat then [32] else []) ++ hexbyte v.
Lemma pieces_shift fSpaces b k : imap ((λ i, hex_piece fSpaces (k + i)) ∘ S) b = imap (λ i, hex_piece fSpaces (S k + i)) b.
Proof. apply imap_ext. intros i x _. unfold compose. by replace (k + S i)%nat with (S k + i)%nat by lia. Qed.
Lemma ParseHex_pieces fSpaces b : bytes_ok b → ∀ k fuel, (length b < fuel)%nat →
  ParseHex_loop fuel (concat (imap (λ i, hex_piece fSpaces (k + i)) b)) = b.
Proof.
  induction 1 as [|v b Hv _ IH]; intros k [|fuel] Hf; cbn [length] in Hf; try lia; [done|].
  rewrite imap_cons. cbn [concat]. unfold hex_piece at 1. hexbyte Hv. cbn [ParseHex_loop].
  assert (∀ rest, skip_spaces ((if fSpaces && negb (k + 0 =? 0)%nat then [32] else []) ++ hexbyte v ++ rest) = hexbyte v ++ rest) as Es.
  { intros rest. unfold hexbyte. destruct (fSpaces && _); cbn [app skip_spaces]; [change (isspace 32) with true; cbv iota; cbn [skip_spaces]|];
      by rewrite Hx5. }
  rewrite <- app_assoc, Es. unfold hexbyte. cbn [app]. rewrite Hx8, Hx9, Hx1, Hx2, Hx3. f_equal.
  rewrite pieces_shift. apply IH. lia.
Qed.
Lemma c_str_nonzero s : Forall (λ c, c ≠ 0) s → c_str s = s.
Proof. induction 1 as [|c s Hc _ IH]; [done|]. cbn. destruct (Z.eqb_spec c 0); [done|]. by rewrite IH. Qed.
Lemma pieces_nonzero fSpaces b : bytes_ok b → ∀ k, Forall (λ c, c ≠ 0) (concat (imap (λ i, hex_piece fSpaces (k + i)) b)).
Proof.
  induction 1 as [|v b Hv _ IH]; intros k; [by apply Forall_nil|]. rewrite imap_cons. cbn [concat]. apply Forall_app. split.
  - hexbyte Hv. apply Z.eqb_neq in Hx6, Hx7. unfold hex_piece, hexbyte. apply Forall_app. split; [destruct (fSpaces && _)|]; by repeat constructor.
  - rewrite pieces_shift. apply IH.
Qed.
Lemma HexStr_pieces b fSpaces : HexStr b fSpaces = concat (imap (λ i, hex_piece fSpaces (0 + i)) b).
Proof. done. Qed.
Lemma pieces_length fSpaces b : ∀ k, (length b ≤ length (concat (imap (λ i, hex_piece fSpaces (k + i)) b)))%nat.
Proof.
  induction b as [|v b IH]; intros k; [done|]. rewrite imap_cons. cbn [concat length]. rewrite length_app.
  specialize (IH (S k)). rewrite pieces_shift.
  unfold hex_piece at 1. rewrite length_app. cbn [length hexbyte]. lia.
Qed.
Lemma HexStr_false b : HexStr b false = concat (hexbyte <$> b).
Proof.
  rewrite HexStr_pieces. f_equal. generalize 0%nat. induction b as [|v b IH]; intros k; [done|].
  rewrite imap_cons, pieces_shift, fmap_cons. f_equal. apply IH.
Qed.
(** The digits of a number, from the last. *)
Lemma SetHex_digits h : bytes_ok h → SetHex_loop (length h) (concat ((λ v, [v &' 15; v >>' 4]) <$> h)) = h.
Proof. induction 1 as [|v h Hv _ IH]; [done|]. cbn [length SetHex_loop fmap list_fmap concat app]. hexbyte Hv. by rewrite Hx4, IH. Qed.
Lemma hex_prefix_pieces h : bytes_ok h → hex_prefix (concat (hexbyte <$> h)) = concat ((λ v, [v >>' 4; v &' 15]) <$> h).
Proof.
  induction 1 as [|v h Hv _ IH]; [done|]. cbn [fmap list_fmap concat]. hexbyte Hv. unfold hexbyte at 1. cbn [app hex_prefix].
  rewrite Hx8, Hx9, Hx1, Hx2. by rewrite IH.
Qed.
Lemma rev_pairs h : rev (concat ((λ v, [v >>' 4; v &' 15]) <$> rev h)) = concat ((λ v, [v &' 15; v >>' 4]) <$> h).
Proof.
  induction h as [|v h IH]; [done|]. cbn [rev fmap list_fmap concat]. rewrite fmap_app, concat_app, rev_app_distr, IH. done.
Qed.
(** Hexadecimal text: [ParseHex] of what [HexStr] writes, with or without
    spaces, is the bytes; and [uint256S] reads back what [GetHex] prints. *)
Theorem hex_roundtrip b h fSpaces :
  bytes_ok b → bytes_ok h → length h = 32%nat →
  ParseHex (HexStr b fSpaces) = b ∧ uint256S (GetHex h) = h.
Proof.
  intros Hb Hh Hl. split.
  - unfold ParseHex. rewrite HexStr_pieces, c_str_nonzero by (by apply pieces_nonzero).
    apply ParseHex_pieces; [done|]. pose proof (pieces_length fSpaces b 0). lia.
  - assert (bytes_ok (rev h)) as Hr by (by apply List.Forall_rev). unfold uint256S, GetHex, SetHex.
    rewrite c_str_nonzero by (rewrite HexStr_pieces; by apply pieces_nonzero). rewrite HexStr_false.
    assert (skip_0x (skip_spaces (concat (hexbyte <$> rev h))) = concat (hexbyte <$> rev h)) as ->.
    { destruct (rev h) as [|v l]; [done|]. apply Forall_cons in Hr as [Hv _]. hexbyte Hv. cbn [fmap list_fmap concat]. unfold hexbyte at 1 3.
      cbn [app skip_spaces]. rewrite Hx5. cbn [skip_0x]. by rewrite Hx10, Hx11, andb_false_r. }
    rewrite hex_prefix_pieces, rev_pairs by done. rewrite <- Hl at 1. by apply SetHex_digits.
Qed.
Lemma hex_roundtrip_witness : ParseHex (HexStr [0; 171; 255] true) = [0; 171; 255] ∧ HexStr [0; 171; 255] true = chars "00 ab ff" ∧
  uint256S (GetHex (seqZ 1 32)) = seqZ 1 32.
Proof.
  split_and!; [|vm_compute; reflexivity|].
  - apply (hex_roundtrip [0; 171; 255] (replicate 32 0) true); [by repeat constructor|by apply Forall_replicate|reflexivity].
  - apply (hex_roundtrip [] (seqZ 1 32) false); [by apply Forall_nil| |reflexivity].
    unfold bytes_ok. vm_compute. repeat constructor; discriminate.
Defined.
