(* ===== verification/Base58.v ===== *)
(** * Base 58 (base58.cpp)

    Numbers in base 58 and in base 256.  The vectors [b256] and [b58] are walked from
    their last element and are written that way here: the lowest digit first.  An
    assertion that fails is [None]; that none does is a theorem. *)
From S2P Require Import Prelude ArithUint256 Script Interpreter Serialize Strings.

Definition pszBase58 : bytes := chars "123456789ABCDEFGHJKLMNPQRSTUVWXYZabcdefghijkmnopqrstuvwxyz".
Definition mapBase58 : list Z := [
  -1; -1; -1; -1; -1; -1; -1; -1; -1; -1; -1; -1; -1; -1; -1; -1; -1; -1; -1; -1; -1; -1; -1; -1; -1; -1; -1; -1; -1; -1; -1; -1;
  -1; -1; -1; -1; -1; -1; -1; -1; -1; -1; -1; -1; -1; -1; -1; -1; -1; 0; 1; 2; 3; 4; 5; 6; 7; 8; -1; -1; -1; -1; -1; -1;
  -1; 9; 10; 11; 12; 13; 14; 15; 16; -1; 17; 18; 19; 20; 21; -1; 22; 23; 24; 25; 26; 27; 28; 29; 30; 31; 32; -1; -1; -1; -1; -1;
  -1; 33; 34; 35; 36; 37; 38; 39; 40; 41; 42; 43; -1; 44; 45; 46; 47; 48; 49; 50; 51; 52; 53; 54; 55; 56; 57; -1; -1; -1; -1; -1;
  -1; -1; -1; -1; -1; -1; -1; -1; -1; -1; -1; -1; -1; -1; -1; -1; -1; -1; -1; -1; -1; -1; -1; -1; -1; -1; -1; -1; -1; -1; -1; -1;
  -1; -1; -1; -1; -1; -1; -1; -1; -1; -1; -1; -1; -1; -1; -1; -1; -1; -1; -1; -1; -1; -1; -1; -1; -1; -1; -1; -1; -1; -1; -1; -1;
  -1; -1; -1; -1; -1; -1; -1; -1; -1; -1; -1; -1; -1; -1; -1; -1; -1; -1; -1; -1; -1; -1; -1; -1; -1; -1; -1; -1; -1; -1; -1; -1;
  -1; -1; -1; -1; -1; -1; -1; -1; -1; -1; -1; -1; -1; -1; -1; -1; -1; -1; -1; -1; -1; -1; -1; -1; -1; -1; -1; -1; -1; -1; -1; -1].

(** The inner loop: [vector = vector * mul + carry] in base [base]; the vector, the
    carry and the number of digits touched. *)
Fixpoint carry_loop (mul base : Z) (length : nat) (carry : Z) (i : nat) (v : list Z) : list Z * Z * nat :=
  match v with
  | [] => ([], carry, i)
  | d :: v' =>
      if negb (carry =? 0) || (i <? length)%nat then
        let c := carry + mul * d in
        let '(r, carry', i') := carry_loop mul base length (c / base) (S i) v' in (c mod base :: r, carry', i')
      else (v, carry, i)
  end.
(** One digit more; the assertion [carry == 0]. *)
Definition push_digit (mul base : Z) (st : list Z * nat) (digit : Z) : option (list Z * nat) :=
  let '(v, length) := st in
  let '(v, carry, i) := carry_loop mul base length digit 0 v in
  if carry =? 0 then Some (v, i) else None.
Fixpoint push_digits (mul base : Z) (st : list Z * nat) (digits : list Z) : option (list Z * nat) :=
  match digits with
  | [] => Some st
  | d :: digits => st ← push_digit mul base st d; push_digits mul base st digits
  end.
(** The digits from the first that is not zero. *)
Fixpoint skip_zeroes (v : list Z) : nat * list Z :=
  match v with
  | d :: v' => if d =? 0 then let '(n, r) := skip_zeroes v' in (S n, r) else (O, v)
  | [] => (O, [])
  end.
(** From [begin() + (size - length)] on, past the zeros, to [end()]. *)
Definition significant (st : list Z * nat) : list Z := (skip_zeroes (rev (take st.2 st.1))).2.

Fixpoint skip_ones (psz : bytes) : nat * bytes :=
  match psz with
  | c :: psz' => if c =? 49 then let '(n, r) := skip_ones psz' in (S n, r) else (O, psz)
  | [] => (O, [])
  end.
(** The loop over the characters: [None] for a failed assertion, [Some None] for an
    invalid character, and else the vector, its length and what is left. *)
Fixpoint decode_loop (st : list Z * nat) (psz : bytes) : option (option (list Z * nat * bytes)) :=
  match psz with
  | [] => Some (Some (st, []))
  | c :: psz' =>
      if isspace c then Some (Some (st, psz))
      else
        let carry := nth (Z.to_nat c) mapBase58 (-1) in
        if carry =? -1 then Some None
        else st ← push_digit 58 256 st carry; decode_loop st psz'
  end.
(** [None]: the assertion.  [Some None]: the result [false].  The sizes are computed
    in [int]; strings are shorter than 2^31. *)
Definition DecodeBase58 (psz : bytes) : option (option bytes) :=
  let '(zeroes, psz) := skip_ones (skip_spaces psz) in
  let sz := Z.to_nat (size psz * 733 / 1000 + 1) in
  match decode_loop (replicate sz 0, O) psz with
  | None => None
  | Some None => Some None
  | Some (Some (st, rest)) =>
      if negb (bool_decide (skip_spaces rest = [])) then Some None
      else Some (Some (replicate zeroes 0 ++ significant st))
  end.
Definition EncodeBase58 (p : bytes) : option bytes :=
  let '(zeroes, p) := skip_zeroes p in
  let sz := Z.to_nat (size p * 138 / 100 + 1) in
  st ← push_digits 256 58 (replicate sz 0, O) p;
  Some (replicate zeroes 49 ++ ((λ d, nth (Z.to_nat d) pszBase58 0) <$> significant st)).

Section Check.
Context `{Crypto}.
(** The result has "SL" in front. *)
Definition EncodeBase58Check (vchIn : bytes) : option bytes :=
  s ← EncodeBase58 (vchIn ++ take 4 (CHash256 vchIn)); Some (chars "SL" ++ s).
(** Two characters are skipped when the string has 36. *)
Definition DecodeBase58Check (psz : bytes) : option (option bytes) :=
  let psz := if size psz =? 36 then drop 2 psz else psz in
  r ← DecodeBase58 psz;
  match r with
  | None => Some None
  | Some vchRet =>
      if size vchRet <? 4 then Some None
      else
        let n := (length vchRet - 4)%nat in
        if negb (bool_decide (take 4 (CHash256 (take n vchRet)) = drop n vchRet)) then Some None
        else Some (Some (take n vchRet))
  end.
End Check.
