(* ===== verification/Base58Facts.v ===== *)
(** * Base 58 is a bijection, and what the prefix "SL" makes of it

    Both conversions keep the number and the leading zeros, their vectors are large
    enough, and so they are inverse to each other. *)
From S2P Require Import Prelude ArithUint256 Script Interpreter InterpreterSpecs Serialize Strings StringsFacts Base58.

(** ** The lowest digit first *)

Definition lev (B : Z) (l : list Z) : Z := foldr (λ d a, d + B * a) 0 l.
Lemma lev_rev B l : lev B l = bev B (rev l).
Proof. induction l as [|d l IH]; [done|]. cbn [lev foldr rev]. fold (lev B l). rewrite bev_snoc, IH. lia. Qed.
Lemma lev_range B l : 0 ≤ B → digits_ok B l → 0 ≤ lev B l < B ^ size l.
Proof.
  intros HB Hl. rewrite lev_rev. replace (size l) with (size (rev l)) by (unfold size; by rewrite length_rev).
  apply bev_range; [done|by apply List.Forall_rev].
Qed.
Lemma lev_zeros B l : Forall (λ d, d = 0) l → lev B l = 0.
Proof. induction 1 as [|d l -> _ IH]; [done|]. cbn. fold (lev B l). lia. Qed.
(** The inner loop. *)
Lemma carry_loop_spec mul B length : 0 < B → 0 ≤ mul → ∀ v carry i r c i',
  digits_ok B v → 0 ≤ carry → Forall (λ d, d = 0) (drop (length - i) v) → carry_loop mul B length carry i v = (r, c, i') →
  digits_ok B r ∧ List.length r = List.length v ∧ 0 ≤ c ∧ lev B r + B ^ size v * c = mul * lev B v + carry ∧
  (i ≤ i')%nat ∧ Forall (λ d, d = 0) (drop (i' - i) r).
Proof.
  intros HB Hm. induction v as [|d v IH]; intros carry i r c i' Hv Hc Hz E; cbn [carry_loop] in E.
  { injection E as <- <- <-. split_and!; try done; [change (size []) with 0; change (lev B []) with 0; rewrite Z.pow_0_r; lia|rewrite drop_nil; by apply Forall_nil]. }
  apply Forall_cons in Hv as [Hd Hv]. destruct (negb (carry =? 0) || (i <? length)%nat) eqn:Et.
  - destruct (carry_loop mul B length ((carry + mul * d) / B) (S i) v) as [[r1 c1] i1] eqn:E1. injection E as <- <- <-.
    apply IH in E1 as (H1 & H2 & H3 & H4 & H5 & H6); [|done|apply Z.div_pos; nia|].
    + pose proof (Z.mod_pos_bound (carry + mul * d) B HB). pose proof (Z.div_mod (carry + mul * d) B ltac:(lia)) as Ed.
      split_and!; [by constructor|cbn; lia|done| |lia|].
      * change (d :: v) with ([d] ++ v). rewrite size_app. change (size [d]) with 1. pose proof (size_nonneg v).
        rewrite Z.pow_add_r, Z.pow_1_r by lia. cbn [lev foldr app]. fold (lev B r1) (lev B v). nia.
      * replace (i1 - i)%nat with (S (i1 - S i)) by lia. done.
    + destruct (length - i)%nat as [|n] eqn:En; [|replace (length - S i)%nat with n by lia; done].
      replace (length - S i)%nat with O by lia. rewrite drop_0 in *. by apply Forall_cons in Hz as [_ ?].
  - injection E as <- <- <-. apply orb_false_iff in Et as [->%negb_false_iff%Z.eqb_eq Hi%Nat.ltb_ge].
    replace (length - i)%nat with O in Hz by lia. rewrite drop_0 in Hz. rewrite Nat.sub_diag, drop_0.
    split_and!; try done; [by constructor|]. rewrite lev_zeros by done. lia.
Qed.
(** One digit and all digits, when the vector is large enough. *)
Definition vector_ok (B : Z) (sz : nat) (st : list Z * nat) (value : Z) : Prop :=
  digits_ok B st.1 ∧ length st.1 = sz ∧ lev B st.1 = value ∧ Forall (λ d, d = 0) (drop st.2 st.1).
Lemma push_digit_spec mul B sz st value d : 0 < B → 0 ≤ mul → 0 ≤ d → vector_ok B sz st value → value * mul + d < B ^ Z.of_nat sz →
  ∃ st', push_digit mul B st d = Some st' ∧ vector_ok B sz st' (value * mul + d).
Proof.
  intros HB Hm Hd (H1 & H2 & H3 & H4) Hlt. destruct st as [v n]. cbn [fst snd] in *. unfold push_digit.
  destruct (carry_loop mul B n d 0 v) as [[r c] i'] eqn:E.
  apply carry_loop_spec in E as (G1 & G2 & G3 & G4 & _ & G6); try done; [|by rewrite Nat.sub_0_r]. rewrite Nat.sub_0_r in G6.
  pose proof (lev_range B r ltac:(lia) G1). unfold size in *. rewrite H2, H3 in *. assert (0 < B ^ Z.of_nat sz) by (apply Z.pow_pos_nonneg; lia).
  assert (c = 0) as -> by nia. cbn [Z.eqb]. eexists. split; [reflexivity|]. split_and!; cbn [fst snd]; try done; lia.
Qed.
Lemma vector_start B sz : vector_ok B sz (replicate sz 0, O) 0 ↔ (0 < B ∨ sz = O).
Proof.
  split; [intros (H & _); destruct sz; [by right|]; left; apply Forall_cons in H as [? _]; lia|].
  intros HB. unfold vector_ok. cbn [fst snd]. split_and!.
  - destruct HB as [HB| ->]; [apply Forall_replicate; lia|by apply Forall_nil].
  - by rewrite length_replicate.
  - apply lev_zeros, Forall_replicate. done.
  - rewrite drop_0. by apply Forall_replicate.
Qed.
Lemma push_digits_spec mul B sz digits : 0 < B → 0 < mul → ∀ st value, digits_ok mul digits → vector_ok B sz st value → 0 ≤ value →
  (value + 1) * mul ^ size digits ≤ B ^ Z.of_nat sz →
  ∃ st', push_digits mul B st digits = Some st' ∧ vector_ok B sz st' (value * mul ^ size digits + bev mul digits).
Proof.
  intros HB Hm. induction digits as [|d digits IH]; intros st value Hd Hs Hv Hlt.
  { exists st. split; [done|]. change (size []) with 0. change (bev mul []) with 0. by rewrite Z.pow_0_r, Z.mul_1_r, Z.add_0_r. }
  apply Forall_cons in Hd as [Hd1 Hd]. pose proof (size_nonneg digits). assert (size (d :: digits) = 1 + size digits) as Esz by (unfold size; cbn [length]; lia).
  rewrite Esz, Z.pow_add_r, Z.pow_1_r in Hlt by lia. assert (0 < mul ^ size digits) by (apply Z.pow_pos_nonneg; lia).
  destruct (push_digit_spec mul B sz st value d) as (st1 & E1 & Hs1); try done; [lia|lia|nia|].
  destruct (IH st1 (value * mul + d) Hd Hs1) as (st' & E & Hs'); [nia|nia|].
  exists st'. cbn [push_digits]. rewrite E1. cbn [mbind option_bind]. split; [done|].
  replace (value * mul ^ size (d :: digits) + bev mul (d :: digits)) with ((value * mul + d) * mul ^ size digits + bev mul digits); [done|].
  change (d :: digits) with ([d] ++ digits) at 2. rewrite bev_app, Esz, Z.pow_add_r, Z.pow_1_r by lia. replace (bev mul [d]) with d by (cbn; lia). lia.
Qed.

(** ** Digits without leading zeros *)

Definition normal (B : Z) (l : list Z) : Prop := digits_ok B l ∧ head l ≠ Some 0.
Lemma skip_zeroes_spec l : l = replicate (skip_zeroes l).1 0 ++ (skip_zeroes l).2 ∧ head (skip_zeroes l).2 ≠ Some 0.
Proof.
  induction l as [|d l [IH1 IH2]]; [done|]. cbn [skip_zeroes]. destruct (Z.eqb_spec d 0) as [->|Hd].
  - destruct (skip_zeroes l) as [n r]. cbn [fst snd replicate app] in *. split; [by f_equal|done].
  - cbn. split; [done|congruence].
Qed.
Lemma skip_zeroes_app n l : head l ≠ Some 0 → skip_zeroes (replicate n 0 ++ l) = (n, l).
Proof.
  intros Hl. induction n as [|n IH]; cbn [replicate app skip_zeroes].
  - destruct l as [|d l]; [done|]. cbn. destruct (Z.eqb_spec d 0) as [->|]; [done|done].
  - by rewrite Z.eqb_refl, IH.
Qed.
Lemma bev_zeros B n l : bev B (replicate n 0 ++ l) = bev B l.
Proof.
  rewrite bev_app. assert (bev B (replicate n 0) = 0) as ->; [|lia]. induction n as [|n IH]; [done|].
  rewrite replicate_S_end, bev_snoc, IH. lia.
Qed.
Lemma significant_spec B sz st value : vector_ok B sz st value → normal B (significant st) ∧ bev B (significant st) = value.
Proof.
  intros (H1 & H2 & H3 & H4). destruct st as [v n]. cbn [fst snd] in *. unfold significant. cbn [fst snd].
  destruct (skip_zeroes_spec (rev (take n v))) as [E Hh]. assert (digits_ok B (rev (take n v))) as Hr by (apply List.Forall_rev; by apply Forall_take).
  split; [split; [|done]|].
  - rewrite E in Hr. by apply Forall_app in Hr as [_ ?].
  - rewrite <- (bev_zeros B (skip_zeroes (rev (take n v))).1), <- E, <- lev_rev, <- H3. rewrite <- (take_drop n v) at 2.
    rewrite !lev_rev, rev_app_distr, bev_app, <- (lev_rev B (drop n v)), lev_zeros by done. lia.
Qed.
(** The number determines the digits. *)
Lemma normal_range B l : 1 < B → normal B l → l ≠ [] → B ^ (size l - 1) ≤ bev B l < B ^ size l.
Proof.
  intros HB [Hd Hh] Hne. split; [|apply bev_range; [lia|done]]. destruct l as [|d l]; [done|]. apply Forall_cons in Hd as [Hd Hl].
  change (d :: l) with ([d] ++ l). rewrite bev_app, size_app. change (size [d]) with 1. replace (1 + size l - 1) with (size l) by lia.
  replace (bev B [d]) with d by (cbn; lia). pose proof (bev_range B l ltac:(lia) Hl). assert (d ≠ 0) by (intros ->; done).
  assert (0 < B ^ size l) by (apply Z.pow_pos_nonneg; [lia|apply size_nonneg]). nia.
Qed.
Lemma normal_inj B l k : 1 < B → normal B l → normal B k → bev B l = bev B k → l = k.
Proof.
  intros HB Hl Hk E. destruct (decide (l = [])) as [->|Hl0], (decide (k = [])) as [->|Hk0]; [done|..].
  - destruct (normal_range B k HB Hk Hk0) as [H _]. assert (0 < B ^ (size k - 1)); [|cbn in E; lia].
    apply Z.pow_pos_nonneg; [lia|]. destruct k; [done|unfold size; cbn; lia].
  - destruct (normal_range B l HB Hl Hl0) as [H _]. assert (0 < B ^ (size l - 1)); [|cbn in E; lia].
    apply Z.pow_pos_nonneg; [lia|]. destruct l; [done|unfold size; cbn; lia].
  - destruct (normal_range B l HB Hl Hl0) as [L1 L2], (normal_range B k HB Hk Hk0) as [K1 K2].
    assert (size l = size k) as Es.
    { assert (size l - 1 < size k) by (apply (Z.pow_lt_mono_r_iff B); [lia|apply size_nonneg|lia]).
      assert (size k - 1 < size l) by (apply (Z.pow_lt_mono_r_iff B); [lia|apply size_nonneg|lia]). lia. }
    apply (bev_inj B); [apply Hl|apply Hk|unfold size in Es; lia|done].
Qed.

(** ** The vectors are large enough *)

Lemma pow_root a b n : 0 < n → 0 ≤ a → 0 ≤ b → a ^ n ≤ b ^ n → a ≤ b.
Proof. intros Hn Ha Hb H. by apply (Z.pow_le_mono_l_iff a b n). Qed.
(** [x^q <= y^p] is enough for [n * p / q + 1] digits. *)
Lemma capacity x y p q n : 0 < x → 1 < y → 0 < q → 0 ≤ p → x ^ q ≤ y ^ p → 0 ≤ n → x ^ n ≤ y ^ (n * p / q + 1).
Proof.
  intros Hx Hy Hq Hp H Hn. assert (0 ≤ n * p / q) by (apply Z.div_pos; nia).
  apply (pow_root _ _ q); [lia|apply Z.pow_nonneg; lia|apply Z.pow_nonneg; lia|].
  rewrite <- !Z.pow_mul_r by lia. transitivity ((x ^ q) ^ n); [rewrite <- Z.pow_mul_r by lia; by rewrite Z.mul_comm|].
  transitivity ((y ^ p) ^ n); [apply Z.pow_le_mono_l; split; [apply Z.pow_nonneg; lia|done]|].
  rewrite <- Z.pow_mul_r by lia. apply Z.pow_le_mono_r; [lia|]. pose proof (Z.div_mod (n * p) q ltac:(lia)). pose proof (Z.mod_pos_bound (n * p) q Hq). nia.
Qed.
Lemma capacity_decode n : 0 ≤ n → 58 ^ n ≤ 256 ^ (n * 733 / 1000 + 1).
Proof. intros Hn. apply capacity; [lia|lia|lia|lia|apply Z.leb_le; vm_compute; reflexivity|done]. Qed.
Lemma capacity_encode n : 0 ≤ n → 256 ^ n ≤ 58 ^ (n * 138 / 100 + 1).
Proof. intros Hn. apply capacity; [lia|lia|lia|lia|apply Z.leb_le; vm_compute; reflexivity|done]. Qed.

(** ** Characters *)

Abbreviation chars58 ds := ((λ d, nth (Z.to_nat d) pszBase58 0) <$> ds).
Lemma char_value d : 0 ≤ d < 58 → let c := nth (Z.to_nat d) pszBase58 0 in
  nth (Z.to_nat c) mapBase58 (-1) = d ∧ isspace c = false ∧ (c = 49 ↔ d = 0) ∧ 0 < c < 128.
Proof.
  intros Hd c. subst c. split; [apply (alphabet_nth 58); [vm_compute; reflexivity|lia]|].
  assert (forallb (λ d, let c := nth d pszBase58 0 in negb (isspace c) && Bool.eqb (c =? 49) (d =? 0)%nat && (0 <? c) && (c <? 128)) (seq 0 58) = true) as H
    by (vm_compute; reflexivity).
  rewrite forallb_forall in H. specialize (H (Z.to_nat d)). rewrite in_seq in H. specialize (H ltac:(lia)). cbv zeta in H.
  rewrite !andb_true_iff, negb_true_iff, eqb_true_iff, !Z.ltb_lt in H. destruct H as [[[H1 H2] H3] H4]. split_and!; try done.
  destruct (Z.eqb_spec (nth (Z.to_nat d) pszBase58 0) 49), (Nat.eqb_spec (Z.to_nat d) 0); try done; split; intros; lia.
Qed.
Lemma value_char c d : nth (Z.to_nat c) mapBase58 (-1) = d → d ≠ -1 → 0 ≤ c → 0 ≤ d < 58 ∧ nth (Z.to_nat d) pszBase58 0 = c.
Proof. apply (table_nth 58). vm_compute. reflexivity. Qed.
(** The end of the digits: the end or a space. *)
Definition ends (rest : bytes) : Prop := match rest with [] => True | c :: _ => isspace c = true end.
Lemma decode_loop_digits ds rest : digits_ok 58 ds → ends rest → ∀ st,
  decode_loop st (chars58 ds ++ rest) = match push_digits 58 256 st ds with None => None | Some st' => Some (Some (st', rest)) end.
Proof.
  intros Hd Hr. induction Hd as [|d ds Hd _ IH]; intros st.
  - cbn [fmap list_fmap app push_digits]. destruct rest as [|c rest]; [done|]. cbn in Hr |- *. by rewrite Hr.
  - rewrite fmap_cons. cbn [app decode_loop push_digits]. destruct (char_value d Hd) as (-> & -> & _).
    destruct (Z.eqb_spec d (-1)); [lia|]. destruct (push_digit 58 256 st d) as [st'|]; cbn [mbind option_bind]; [apply IH|done].
Qed.
(** What the loop reads: digits, up to the end or a space. *)
Lemma decode_split psz : bytes_ok psz →
  ∃ ds rest, psz = chars58 ds ++ rest ∧ digits_ok 58 ds ∧
    (ends rest ∨ ∃ c r, rest = c :: r ∧ isspace c = false ∧ nth (Z.to_nat c) mapBase58 (-1) = -1).
Proof.
  induction 1 as [|c psz Hc _ (ds & rest & -> & Hd & IH)]; [exists [], []; split_and!; [done|by apply Forall_nil|by left]|].
  destruct (isspace c) eqn:Es; [exists [], (c :: chars58 ds ++ rest); split_and!; [done|by apply Forall_nil|by left]|].
  remember (nth (Z.to_nat c) mapBase58 (-1)) as d eqn:Ed. destruct (decide (d = -1)) as [Hn|Hn].
  - exists [], (c :: chars58 ds ++ rest). split_and!; [done|by apply Forall_nil|]. right. eexists _, _. split_and!; [done|done|congruence].
  - unfold is_byte in Hc. destruct (value_char c d (eq_sym Ed) Hn ltac:(lia)) as [H1 H2]. exists (d :: ds), rest. rewrite fmap_cons, H2.
    split_and!; [done|by constructor|done].
Qed.
Lemma decode_loop_invalid ds c r : digits_ok 58 ds → isspace c = false → nth (Z.to_nat c) mapBase58 (-1) = -1 → ∀ st,
  decode_loop st (chars58 ds ++ c :: r) = match push_digits 58 256 st ds with None => None | Some _ => Some None end.
Proof.
  intros Hd Hc Hn. induction Hd as [|d ds Hd _ IH]; intros st.
  - cbn [fmap list_fmap app push_digits decode_loop]. by rewrite Hc, Hn.
  - rewrite fmap_cons. cbn [app decode_loop push_digits]. destruct (char_value d Hd) as (-> & -> & _).
    destruct (Z.eqb_spec d (-1)); [lia|]. destruct (push_digit 58 256 st d) as [st'|]; cbn [mbind option_bind]; [apply IH|done].
Qed.
(** The digits pushed into a vector sized for [n] of them. *)
Lemma decode_push ds n : digits_ok 58 ds → size ds ≤ n →
  ∃ st, push_digits 58 256 (replicate (Z.to_nat (n * 733 / 1000 + 1)) 0, O) ds = Some st ∧
    normal 256 (significant st) ∧ bev 256 (significant st) = bev 58 ds.
Proof.
  intros Hd Hn. set (sz := Z.to_nat (n * 733 / 1000 + 1)). pose proof (size_nonneg ds).
  destruct (push_digits_spec 58 256 sz ds ltac:(lia) ltac:(lia) (replicate sz 0, O) 0) as (st & E & Hs); [done|apply vector_start; lia|lia| |].
  { transitivity (58 ^ n); [rewrite Z.mul_1_l; apply Z.pow_le_mono_r; lia|]. subst sz. rewrite Z2Nat.id by (pose proof (Z.div_pos (n * 733) 1000); lia).
    apply capacity_decode. lia. }
  exists st. split; [done|]. rewrite Z.mul_0_l, Z.add_0_l in Hs. by apply significant_spec in Hs.
Qed.
Lemma encode_push p : bytes_ok p →
  ∃ st, push_digits 256 58 (replicate (Z.to_nat (size p * 138 / 100 + 1)) 0, O) p = Some st ∧
    normal 58 (significant st) ∧ bev 58 (significant st) = bev 256 p.
Proof.
  intros Hp. set (sz := Z.to_nat (size p * 138 / 100 + 1)). pose proof (size_nonneg p).
  destruct (push_digits_spec 256 58 sz p ltac:(lia) ltac:(lia) (replicate sz 0, O) 0) as (st & E & Hs); [done|apply vector_start; lia|lia| |].
  { rewrite Z.mul_1_l. subst sz. rewrite Z2Nat.id by (pose proof (Z.div_pos (size p * 138) 100); lia). by apply capacity_encode. }
  exists st. split; [done|]. rewrite Z.mul_0_l, Z.add_0_l in Hs. by apply significant_spec in Hs.
Qed.

(** ** Inverse to each other *)

Lemma skip_spaces_app lead s : Forall (λ c, isspace c = true) lead → skip_spaces (lead ++ s) = skip_spaces s.
Proof. induction 1 as [|c lead Hc _ IH]; [done|]. cbn [app skip_spaces]. by rewrite Hc. Qed.
Lemma skip_spaces_none s : (∀ c, head s = Some c → isspace c = false) → skip_spaces s = s.
Proof. intros H. destruct s as [|c s]; [done|]. cbn. by rewrite H. Qed.
Lemma skip_spaces_split s : ∃ lead, s = lead ++ skip_spaces s ∧ Forall (λ c, isspace c = true) lead ∧ (∀ c, head (skip_spaces s) = Some c → isspace c = false).
Proof.
  induction s as [|c s (lead & E & Hl & Hh)]; [exists []; split_and!; [done|by apply Forall_nil|done]|]. cbn [skip_spaces].
  destruct (isspace c) eqn:Ec; [|exists []; split_and!; [done|by apply Forall_nil|by intros ? [= <-]]].
  exists (c :: lead). split_and!; [cbn; by f_equal|by constructor|done].
Qed.
Lemma skip_ones_app z s : head s ≠ Some 49 → skip_ones (replicate z 49 ++ s) = (z, s).
Proof.
  intros Hs. induction z as [|z IH]; cbn [replicate app skip_ones]; [|by rewrite Z.eqb_refl, IH].
  destruct s as [|c s]; [done|]. cbn. destruct (Z.eqb_spec c 49) as [->|]; done.
Qed.
Lemma skip_ones_spec s : s = replicate (skip_ones s).1 49 ++ (skip_ones s).2 ∧ head (skip_ones s).2 ≠ Some 49.
Proof.
  induction s as [|c s [IH1 IH2]]; [done|]. cbn [skip_ones]. destruct (Z.eqb_spec c 49) as [->|Hc].
  - destruct (skip_ones s) as [n r]. cbn [fst snd replicate app] in *. split; [by f_equal|done].
  - cbn. split; [done|congruence].
Qed.
(** The head of the digits' text. *)
Lemma chars58_head ds rest : digits_ok 58 ds → ends rest →
  (head (chars58 ds ++ rest) ≠ Some 49 ↔ head ds ≠ Some 0) ∧ (ds ≠ [] → ∀ c, head (chars58 ds ++ rest) = Some c → isspace c = false).
Proof.
  intros Hd Hr. destruct ds as [|d ds].
  - split; [|done]. cbn. split; [done|]. intros _. destruct rest as [|c rest]; [done|]. cbn in Hr |- *. intros [= ->]. discriminate Hr.
  - apply Forall_cons in Hd as [Hd _]. destruct (char_value d Hd) as (_ & Hs & Hz & _). cbn [fmap list_fmap app head]. split; [|by intros _ c [= <-]].
    split; intros H [= E]; apply H; f_equal; by apply Hz.
Qed.
Lemma spaces_ends trail : Forall (λ c, isspace c = true) trail → ends trail ∧ skip_spaces trail = [].
Proof.
  intros H. split; [destruct H; done|]. rewrite <- (app_nil_r trail). by rewrite skip_spaces_app.
Qed.
Lemma decode_body z ds trail :
  Forall (λ c, isspace c = true) trail → normal 58 ds →
  ∃ b, normal 256 b ∧ bev 256 b = bev 58 ds ∧
    ∀ psz, skip_spaces psz = replicate z 49 ++ chars58 ds ++ trail → DecodeBase58 psz = Some (Some (replicate z 0 ++ b)).
Proof.
  intros Ht [Hd Hh]. destruct (spaces_ends trail Ht) as [He Hs]. set (n := size (chars58 ds ++ trail)).
  destruct (decode_push ds n Hd) as (st & E & Hn & Hv). { subst n. rewrite size_app. pose proof (size_nonneg trail). unfold size at 2. rewrite length_fmap. unfold size in *. lia. }
  exists (significant st). split_and!; try done. intros psz Ep. unfold DecodeBase58. rewrite Ep, skip_ones_app by (by apply (chars58_head ds trail Hd He)).
  rewrite (decode_loop_digits ds trail Hd He). fold n. rewrite E, Hs. done.
Qed.
Lemma decode_normal lead z ds trail :
  Forall (λ c, isspace c = true) lead → Forall (λ c, isspace c = true) trail → normal 58 ds →
  ∃ b, normal 256 b ∧ bev 256 b = bev 58 ds ∧ DecodeBase58 (lead ++ replicate z 49 ++ chars58 ds ++ trail) = Some (Some (replicate z 0 ++ b)).
Proof.
  intros Hl Ht Hds. assert (∃ trail', Forall (λ c, isspace c = true) trail' ∧
    skip_spaces (lead ++ replicate z 49 ++ chars58 ds ++ trail) = replicate z 49 ++ chars58 ds ++ trail') as (trail' & Ht' & Es).
  { destruct (spaces_ends trail Ht) as [He Hs]. destruct Hds as [Hd _]. destruct z as [|z]; [|exists trail; split; [done|]; by rewrite skip_spaces_app].
    destruct ds as [|d ds]; [exists []; split; [by apply Forall_nil|]; cbn; by rewrite skip_spaces_app|].
    exists trail. split; [done|]. rewrite skip_spaces_app by done. apply skip_spaces_none. cbn [replicate app]. by apply chars58_head. }
  destruct (decode_body z ds trail' Ht' Hds) as (b & Hb & Hv & E). exists b. split_and!; try done. by apply E.
Qed.
Lemma encode_normal z b : normal 256 b →
  ∃ ds, normal 58 ds ∧ bev 58 ds = bev 256 b ∧ EncodeBase58 (replicate z 0 ++ b) = Some (replicate z 49 ++ chars58 ds).
Proof.
  intros [Hb Hh]. destruct (encode_push b Hb) as (st & E & Hn & Hv). exists (significant st). split_and!; try done.
  unfold EncodeBase58. rewrite skip_zeroes_app by done. rewrite E. done.
Qed.
(** Any bytes are zeros and a number. *)
Lemma normal_split b : bytes_ok b → ∃ z b', b = replicate z 0 ++ b' ∧ normal 256 b'.
Proof.
  intros Hb. destruct (skip_zeroes_spec b) as [E Hh]. exists (skip_zeroes b).1, (skip_zeroes b).2. split_and!; try done.
  split; [|done]. rewrite E in Hb. by apply Forall_app in Hb as [_ ?].
Qed.
Lemma base58_encode_decode b : bytes_ok b → ∃ z ds, EncodeBase58 b = Some (replicate z 49 ++ chars58 ds) ∧ normal 58 ds ∧
  ∀ lead trail, Forall (λ c, isspace c = true) lead → Forall (λ c, isspace c = true) trail →
    DecodeBase58 (lead ++ (replicate z 49 ++ chars58 ds) ++ trail) = Some (Some b).
Proof.
  intros Hb. destruct (normal_split b Hb) as (z & b' & -> & Hn). destruct (encode_normal z b' Hn) as (ds & Hds & Hv & E).
  exists z, ds. split_and!; try done. intros lead trail Hl Ht. destruct (decode_normal lead z ds trail Hl Ht Hds) as (b2 & Hb2 & Hv2 & E2).
  rewrite <- app_assoc, E2. do 3 f_equal. apply (normal_inj 256); [lia|done|done|congruence].
Qed.
(** What a string that is not rejected looks like. *)
Lemma base58_decode_encode s : bytes_ok s → ∃ r, DecodeBase58 s = Some r ∧ ∀ b, r = Some b →
  bytes_ok b ∧ ∃ lead s' trail, s = lead ++ s' ++ trail ∧ Forall (λ c, isspace c = true) lead ∧ Forall (λ c, isspace c = true) trail ∧ EncodeBase58 b = Some s'.
Proof.
  intros Hs. destruct (skip_spaces_split s) as (lead & Es & Hl & Hh). set (p := skip_spaces s) in *.
  assert (bytes_ok p) as Hp by (rewrite Es in Hs; by apply Forall_app in Hs as [_ ?]).
  destruct (skip_ones_spec p) as [Eo Ho]. remember (skip_ones p) as zq eqn:Ez. destruct zq as [z q]. cbn [fst snd] in *.
  assert (bytes_ok q) as Hq by (rewrite Eo in Hp; by apply Forall_app in Hp as [_ ?]).
  destruct (decode_split q Hq) as (ds & rest & Eq & Hd & Hr).
  assert (DecodeBase58 s = match decode_loop (replicate (Z.to_nat (size q * 733 / 1000 + 1)) 0, O) q with
      | None => None | Some None => Some None
      | Some (Some (st, rest)) => if negb (bool_decide (skip_spaces rest = [])) then Some None else Some (Some (replicate z 0 ++ significant st)) end) as ->.
  { unfold DecodeBase58. fold p. by rewrite <- Ez. }
  destruct (decode_push ds (size q) Hd) as (st & E & Hn & Hv).
  { rewrite Eq, size_app. pose proof (size_nonneg rest). unfold size at 2. rewrite length_fmap. unfold size in *. lia. }
  revert E. generalize (replicate (Z.to_nat (size q * 733 / 1000 + 1)) 0, O). intros st0 E. rewrite Eq. destruct Hr as [He|(c & r & -> & Hc & Hm)]; [|rewrite decode_loop_invalid, E by done; by exists None].
  rewrite decode_loop_digits, E by done. case_bool_decide as Hsp; cbn [negb]; [|by exists None]. eexists. split; [done|]. intros b [= <-].
  destruct (skip_spaces_split rest) as (trail & Et & Ht & _). rewrite Hsp, app_nil_r in Et. subst trail.
  split; [apply Forall_app; split; [by apply Forall_replicate|apply Hn]|].
  assert (normal 58 ds) as Hds. { split; [done|]. rewrite Eq in Ho. by apply (chars58_head ds rest Hd He). }
  destruct (encode_normal z (significant st) Hn) as (ds' & Hds' & Hv' & Ee). exists lead, (replicate z 49 ++ chars58 ds'), rest. split_and!; try done.
  rewrite (normal_inj 58 ds' ds) by (done || lia || congruence). by rewrite Es, Eo, Eq, <- app_assoc.
Qed.
(** C29: base 58 text and bytes correspond one to one: every byte string has an
    encoding, which decodes to it, also between spaces; every string that decodes is,
    up to spaces around it, the encoding of its value; and no string or byte string
    makes an assertion of the two conversions fail. *)
Theorem base58_bijection b s : bytes_ok b → bytes_ok s →
  (∃ e, EncodeBase58 b = Some e ∧ ∀ lead trail, Forall (λ c, isspace c = true) lead → Forall (λ c, isspace c = true) trail →
     DecodeBase58 (lead ++ e ++ trail) = Some (Some b)) ∧
  (∃ r, DecodeBase58 s = Some r ∧ ∀ v, r = Some v →
     ∃ lead e trail, s = lead ++ e ++ trail ∧ Forall (λ c, isspace c = true) lead ∧ Forall (λ c, isspace c = true) trail ∧ EncodeBase58 v = Some e).
Proof.
  intros Hb Hs. split.
  - destruct (base58_encode_decode b Hb) as (z & ds & E & _ & H). by eexists.
  - destruct (base58_decode_encode s Hs) as (r & E & H). exists r. split; [done|]. intros v Hv. apply (H v Hv).
Qed.
Lemma chars_ok s : forallb (λ c, (0 <=? c) && (c <? 256)) (chars s) = true → bytes_ok (chars s).
Proof.
  intros H. rewrite forallb_forall in H. apply List.Forall_forall. intros c Hc. specialize (H c Hc).
  rewrite andb_true_iff, Z.leb_le, Z.ltb_lt in H. done.
Qed.
Lemma base58_bijection_witness :
  EncodeBase58 (chars "Hello World!") = Some (chars "2NEpo7TZRRrLZSi2U") ∧
  DecodeBase58 ([32] ++ chars "2NEpo7TZRRrLZSi2U" ++ [10]) = Some (Some (chars "Hello World!")).
Proof.
  destruct (base58_bijection (chars "Hello World!") (chars "2NEpo7TZRRrLZSi2U")) as [(e & E & H) _];
    [by apply chars_ok; vm_compute|by apply chars_ok; vm_compute|].
  assert (EncodeBase58 (chars "Hello World!") = Some (chars "2NEpo7TZRRrLZSi2U")) as E' by (vm_compute; reflexivity).
  split; [done|]. rewrite E in E'. injection E' as ->. apply H; by repeat constructor.
Defined.
