(* ===== verification/Bech32.v ===== *)
(** * Bech32 (bech32.cpp)

    Text with a checksum that is a remainder of polynomials over the field of 32
    elements; the encoding, the decoding, and the proofs that they are inverse and
    that the checksum detects a changed symbol. *)
From S2P Require Import Prelude ArithUint256 Script Interpreter InterpreterSpecs Serialize Strings StringsFacts.

Definition CHARSET : bytes := chars "qpzry9x8gf2tvdw0s3jn54khce6mua7l".
Definition CHARSET_REV : list Z := [
  -1; -1; -1; -1; -1; -1; -1; -1; -1; -1; -1; -1; -1; -1; -1; -1; -1; -1; -1; -1; -1; -1; -1; -1; -1; -1; -1; -1; -1; -1; -1; -1;
  -1; -1; -1; -1; -1; -1; -1; -1; -1; -1; -1; -1; -1; -1; -1; -1; 15; -1; 10; 17; 21; 20; 26; 30; 7; 5; -1; -1; -1; -1; -1; -1;
  -1; 29; -1; 24; 13; 25; 9; 8; 23; -1; 18; 22; 31; 27; 19; -1; 1; 0; 3; 16; 11; 28; 12; 14; 6; 4; 2; -1; -1; -1; -1; -1;
  -1; 29; -1; 24; 13; 25; 9; 8; 23; -1; 18; 22; 31; 27; 19; -1; 1; 0; 3; 16; 11; 28; 12; 14; 6; 4; 2; -1; -1; -1; -1; -1].

(** The five conditional additions. *)
Definition add_if (c0 bit k c : Z) : Z := if (c0 &' bit) =? 0 then c else c ^' k.
Definition polymod_step (c v_i : Z) : Z :=
  let c0 := u8 (c >>' 25) in
  let c := u32 ((c &' 0x1ffffff) <<' 5) ^' v_i in
  add_if c0 16 0x2a1462b3 (add_if c0 8 0x3d4233dd (add_if c0 4 0x1ea119fa (add_if c0 2 0x26508e6d (add_if c0 1 0x3b6a57b2 c)))).
Definition PolyMod (v : list Z) : Z := foldl polymod_step 1 v.
Definition LowerCase (c : Z) : Z := if (65 <=? c) && (c <=? 90) then (c - 65) + 97 else c.
Definition ExpandHRP (hrp : bytes) : list Z := ((λ c, c >>' 5) <$> hrp) ++ 0 :: ((λ c, c &' 0x1f) <$> hrp).
Definition VerifyChecksum (hrp : bytes) (values : list Z) : bool := PolyMod (ExpandHRP hrp ++ values) =? 1.
Definition CreateChecksum (hrp : bytes) (values : list Z) : list Z :=
  let mod_ := PolyMod (ExpandHRP hrp ++ values ++ replicate 6 0) ^' 1 in
  (λ i, (mod_ >>' (5 * (5 - Z.of_nat i))) &' 31) <$> seq 0 6.
Definition Encode (hrp : bytes) (values : list Z) : bytes :=
  hrp ++ 49 :: ((λ c, nth (Z.to_nat c) CHARSET 0) <$> values ++ CreateChecksum hrp values).

(** The cases seen, or [None] for a character that is refused. *)
Fixpoint scan_cases (str : bytes) (lower upper : bool) : option (bool * bool) :=
  match str with
  | [] => Some (lower, upper)
  | c :: str =>
      if (97 <=? c) && (c <=? 122) then scan_cases str true upper
      else if (65 <=? c) && (c <=? 90) then scan_cases str lower true
      else if (c <? 33) || (126 <? c) then None
      else scan_cases str lower upper
  end.
(** [str.rfind('1')]: the position of the last '1'. *)
Fixpoint rfind_one (str : bytes) : option nat :=
  match str with
  | [] => None
  | c :: str =>
      match rfind_one str with
      | Some p => Some (S p)
      | None => if c =? 49 then Some O else None
      end
  end.
Fixpoint rev_values (str : bytes) : option (list Z) :=
  match str with
  | [] => Some []
  | c :: str =>
      let rev := nth (Z.to_nat c) CHARSET_REV (-1) in
      if rev =? -1 then None else l ← rev_values str; Some (rev :: l)
  end.
(** The empty pair is [([], [])]. *)
Definition Decode (str : bytes) : bytes * list Z :=
  match scan_cases str false false with
  | None => ([], [])
  | Some (lower, upper) =>
      if lower && upper then ([], [])
      else
        match rfind_one str with
        | None => ([], [])
        | Some pos =>
            if (90 <? size str) || (pos =? 0)%nat || (length str <? pos + 7)%nat then ([], [])
            else
              match rev_values (drop (S pos) str) with
              | None => ([], [])
              | Some values =>
                  let hrp := LowerCase <$> take pos str in
                  if negb (VerifyChecksum hrp values) then ([], [])
                  else (hrp, take (length values - 6) values)
              end
        end
  end.

(** ** The checksum is linear *)

(** Equations of sums of bits. *)
Ltac lxor_ring := apply Z.bits_inj'; intros ? _; rewrite ?Z.lxor_spec, ?Z.bits_0; btauto.
(** What the bits shifted out add. *)
Definition when (b : bool) (k : Z) : Z := if b then k else 0.
Definition sel (x : Z) : Z :=
  when (Z.testbit x 0) 0x3b6a57b2 ^' when (Z.testbit x 1) 0x26508e6d ^' when (Z.testbit x 2) 0x1ea119fa ^'
  when (Z.testbit x 3) 0x3d4233dd ^' when (Z.testbit x 4) 0x2a1462b3.
Definition shift (c : Z) : Z := (c mod 2 ^ 25) * 2 ^ 5 ^' sel (c / 2 ^ 25).
Lemma add_if_when c0 bit i k c : bit = 2 ^ i → 0 ≤ i → add_if c0 bit k c = c ^' when (Z.testbit c0 i) k.
Proof.
  intros -> Hi. unfold add_if, when. destruct (Z.testbit c0 i) eqn:E.
  - destruct (Z.eqb_spec (c0 &' 2 ^ i) 0) as [H|]; [|done]. apply (f_equal (λ z, Z.testbit z i)) in H.
    rewrite Z.land_spec, E, Z.pow2_bits_true, Z.bits_0 in H by done. discriminate H.
  - assert (c0 &' 2 ^ i = 0) as ->; [|by rewrite Z.lxor_0_r]. apply Z.bits_inj'. intros n Hn. rewrite Z.land_spec, Z.bits_0.
    destruct (decide (n = i)) as [->|]; [by rewrite E|]. by rewrite Z.pow2_bits_false, andb_false_r by done.
Qed.
Lemma polymod_shift c v : in_u 30 c → polymod_step c v = shift c ^' v.
Proof.
  intros Hc. unfold polymod_step, shift, sel. change 0x1ffffff with (2 ^ 25 - 1). rewrite land_mask, shr_div, shl_mul by lia.
  assert (u8 (c / 2 ^ 25) = c / 2 ^ 25) as ->.
  { apply (wrap_small 8). unfold in_u in *. split; [apply Z.div_pos; lia|apply Z.div_lt_upper_bound; lia]. }
  pose proof (Z.mod_pos_bound c (2 ^ 25) ltac:(lia)). rewrite u32_small by lia.
  rewrite (add_if_when _ 16 4), (add_if_when _ 8 3), (add_if_when _ 4 2), (add_if_when _ 2 1), (add_if_when _ 1 0) by (done || lia).
  lxor_ring.
Qed.
Lemma when_xor a b k : when (xorb a b) k = when a k ^' when b k.
Proof. destruct a, b; cbn [when xorb]; by rewrite ?Z.lxor_0_l, ?Z.lxor_0_r, ?Z.lxor_nilpotent. Qed.
Lemma lxor_swap a b c d : (a ^' b) ^' (c ^' d) = (a ^' c) ^' (b ^' d).
Proof. lxor_ring. Qed.
Lemma sel_xor a b : sel (a ^' b) = sel a ^' sel b.
Proof. unfold sel. rewrite !Z.lxor_spec, !when_xor. lxor_ring. Qed.
Lemma shift_xor a b : shift (a ^' b) = shift a ^' shift b.
Proof.
  unfold shift. rewrite lxor_swap, <- sel_xor. f_equal.
  - rewrite <- !Z.land_ones, <- !Z.shiftl_mul_pow2, <- Z.shiftl_lxor by lia. f_equal. apply Z.bits_inj'. intros n Hn.
    rewrite !Z.land_spec, !Z.lxor_spec, !Z.land_spec. by destruct (Z.testbit a n), (Z.testbit b n), (Z.testbit (Z.ones 25) n).
  - f_equal. rewrite <- !Z.shiftr_div_pow2 by lia. apply Z.shiftr_lxor.
Qed.
Lemma lxor_u30 x y : in_u 30 x → in_u 30 y → in_u 30 (x ^' y).
Proof. by apply lxor_range. Qed.
Lemma sel_range x : 0 ≤ x < 32 → in_u 30 (sel x) ∧ (sel x mod 32 = 0 → x = 0).
Proof.
  intros Hx. assert (forallb (λ n, let s := sel (Z.of_nat n) in (0 <=? s) && (s <? 2 ^ 30) && (negb (s mod 32 =? 0) || (n =? 0)%nat)) (seq 0 32) = true) as H
    by (vm_compute; reflexivity).
  rewrite forallb_forall in H. specialize (H (Z.to_nat x)). rewrite in_seq in H. specialize (H ltac:(lia)). cbv zeta in H. rewrite Z2Nat.id in H by lia.
  rewrite !andb_true_iff, orb_true_iff, negb_true_iff, Z.leb_le, Z.ltb_lt, Z.eqb_neq, Nat.eqb_eq in H. unfold in_u. split; [lia|]. intros E. lia.
Qed.
Lemma shift_u30 c : in_u 30 c → in_u 30 (shift c).
Proof.
  intros Hc. unfold shift, in_u in *. pose proof (Z.mod_pos_bound c (2 ^ 25) ltac:(lia)). apply lxor_u30; [unfold in_u; lia|].
  apply sel_range. split; [apply Z.div_pos; lia|apply Z.div_lt_upper_bound; lia].
Qed.
Lemma shift_small c : 0 ≤ c < 2 ^ 25 → shift c = c * 2 ^ 5.
Proof. intros Hc. unfold shift. rewrite Z.mod_small, Z.div_small by lia. change (sel 0) with 0. by rewrite Z.lxor_0_r. Qed.
(** Nothing else than zero is shifted to zero. *)
Lemma shift_kernel c : in_u 30 c → shift c = 0 → c = 0.
Proof.
  unfold in_u. intros Hc E. assert (0 ≤ c / 2 ^ 25 < 32) as Hq by (split; [apply Z.div_pos; lia|apply Z.div_lt_upper_bound; lia]).
  destruct (sel_range _ Hq) as [_ Hs]. assert (c / 2 ^ 25 = 0) as E0.
  { apply Hs. unfold shift in E. apply Z.lxor_eq in E. rewrite <- E. change 32 with (2 ^ 5). apply Z_mod_mult. }
  assert (c < 2 ^ 25) by (apply Z.div_small_iff in E0; lia). rewrite shift_small in E by lia. lia.
Qed.
(** Both lists at once. *)
Definition symbols (l : list Z) : Prop := digits_ok 32 l.
Lemma polymod_range l : symbols l → ∀ c, in_u 30 c → in_u 30 (foldl polymod_step c l).
Proof.
  induction 1 as [|v l Hv _ IH]; intros c Hc; [done|]. cbn [foldl]. apply IH. rewrite polymod_shift by done.
  apply lxor_u30; [by apply shift_u30|unfold in_u; lia].
Qed.
Lemma polymod_xor vs : ∀ ws a b, symbols vs → symbols ws → length vs = length ws → in_u 30 a → in_u 30 b →
  foldl polymod_step (a ^' b) (zip_with Z.lxor vs ws) = foldl polymod_step a vs ^' foldl polymod_step b ws.
Proof.
  induction vs as [|v vs IH]; intros [|w ws] a b Hv Hw Hl Ha Hb; try done. apply Forall_cons in Hv as [Hv Hvs]. apply Forall_cons in Hw as [Hw Hws].
  cbn [zip_with foldl]. rewrite !polymod_shift by (try done; by apply lxor_u30). rewrite shift_xor, lxor_swap.
  apply IH; try done; [cbn in Hl; lia|..]; (apply lxor_u30; [by apply shift_u30|unfold in_u; lia]).
Qed.
(** Up to six symbols after zero are packed without a reduction. *)
Lemma polymod_pack l : symbols l → (length l ≤ 6)%nat → foldl polymod_step 0 l = bev 32 l.
Proof.
  induction l as [|x l IH] using rev_ind; intros Hs Hl; [done|]. rewrite length_app in Hl. cbn [length] in Hl.
  apply Forall_app in Hs as [Hs [Hx _]%Forall_cons]. rewrite foldl_app. cbn [foldl]. rewrite IH, bev_snoc by (done || lia).
  pose proof (bev_range 32 l ltac:(lia) Hs) as Hr. assert (32 ^ size l ≤ 2 ^ 25).
  { change 32 with (2 ^ 5). rewrite <- Z.pow_mul_r by (unfold size; lia). apply Z.pow_le_mono_r; unfold size; lia. }
  rewrite polymod_shift, shift_small by (unfold in_u; lia).
  rewrite <- Z.add_nocarry_lxor; [lia|]. apply Z.bits_inj'. intros n Hn. rewrite Z.land_spec, Z.bits_0, Z.mul_pow2_bits by lia.
  destruct (Z.ltb_spec n 5); [by rewrite (Z.testbit_neg_r _ (n - 5)) by lia|].
  rewrite (testbit_high 5 x n); [by rewrite andb_false_r|unfold in_u; lia|lia].
Qed.

(** ** Checksums *)

Lemma zip_zeros_l l : zip_with Z.lxor (replicate (length l) 0) l = l.
Proof. induction l as [|x l IH]; [done|]. cbn. by rewrite IH. Qed.
Lemma zip_same l : zip_with Z.lxor l l = replicate (length l) 0.
Proof. induction l as [|x l IH]; [done|]. cbn. by rewrite Z.lxor_nilpotent, IH. Qed.
Lemma zip_xor_ok l k : symbols l → symbols k → symbols (zip_with Z.lxor l k).
Proof.
  intros Hl. revert k. induction Hl as [|x l Hx _ IH]; intros k Hk; [by apply Forall_nil|]. destruct k as [|y k]; [by apply Forall_nil|].
  apply Forall_cons in Hk as [Hy Hk]. cbn. constructor; [|by apply IH].
  assert (∀ x y, 0 ≤ x < 32 → 0 ≤ y < 32 → 0 ≤ x ^' y < 32) as H; [|by apply H]. clear. intros x y Hx Hy.
  assert (forallb (λ x, forallb (λ y, (0 <=? Z.of_nat x ^' Z.of_nat y) && (Z.of_nat x ^' Z.of_nat y <? 32)) (seq 0 32)) (seq 0 32) = true) as H by (vm_compute; reflexivity).
  rewrite forallb_forall in H. specialize (H (Z.to_nat x)). rewrite in_seq in H. specialize (H ltac:(lia)). rewrite forallb_forall in H.
  specialize (H (Z.to_nat y)). rewrite in_seq in H. specialize (H ltac:(lia)). rewrite !Z2Nat.id, andb_true_iff, Z.leb_le, Z.ltb_lt in H by lia. lia.
Qed.
Lemma zeros_ok n : symbols (replicate n 0).
Proof. apply Forall_replicate. lia. Qed.
(** The last six symbols are added to the checksum. *)
Lemma polymod_tail l t : symbols l → symbols t → length t = 6%nat → PolyMod (l ++ t) = PolyMod (l ++ replicate 6 0) ^' bev 32 t.
Proof.
  intros Hl Ht Hn. unfold PolyMod. rewrite !foldl_app. set (c := foldl polymod_step 1 l).
  assert (in_u 30 c) as Hc by (by apply polymod_range). rewrite <- (polymod_pack t) by (done || lia).
  rewrite <- (Z.lxor_0_r c) at 1. rewrite <- (zip_zeros_l t) at 1. rewrite Hn. apply polymod_xor; try done; apply zeros_ok.
Qed.
Lemma checksum_pack m : in_u 30 m → let t := (λ i, (m >>' (5 * (5 - Z.of_nat i))) &' 31) <$> seq 0 6 in symbols t ∧ bev 32 t = m.
Proof.
  intros Hm t. subst t. cbn [seq fmap list_fmap]. change 31 with (2 ^ 5 - 1). rewrite !land_mask, !shr_div by lia.
  split; [unfold symbols, digits_ok; repeat constructor; apply Z.mod_pos_bound; lia|]. unfold bev. cbn [foldl].
  change (5 * (5 - Z.of_nat 0)) with 25. change (5 * (5 - Z.of_nat 1)) with 20. change (5 * (5 - Z.of_nat 2)) with 15.
  change (5 * (5 - Z.of_nat 3)) with 10. change (5 * (5 - Z.of_nat 4)) with 5. change (5 * (5 - Z.of_nat 5)) with 0.
  unfold in_u in Hm. Z.to_euclidean_division_equations. lia.
Qed.
Definition hrp_ok (hrp : bytes) : Prop := Forall (λ c, 33 ≤ c ≤ 126 ∧ ¬ 65 ≤ c ≤ 90) hrp.
Lemma ExpandHRP_ok hrp : Forall (λ c, 0 ≤ c < 256) hrp → symbols (ExpandHRP hrp).
Proof.
  intros Hh. unfold ExpandHRP. change 0x1f with (2 ^ 5 - 1). apply Forall_app. split; [|constructor; [lia|]]; apply Forall_fmap; eapply Forall_impl; try done;
    intros c Hc; cbn beta in *; unfold compose; [rewrite shr_div by lia; split; [apply Z.div_pos; lia|apply Z.div_lt_upper_bound; lia]|rewrite land_mask by lia; apply Z.mod_pos_bound; lia].
Qed.
(** The checksum that is written is the one and only that verifies. *)
Lemma checksum_unique hrp values t : Forall (λ c, 0 ≤ c < 256) hrp → symbols values → symbols t → length t = 6%nat →
  VerifyChecksum hrp (values ++ t) = true ↔ t = CreateChecksum hrp values.
Proof.
  intros Hh Hv Ht Hn. unfold VerifyChecksum, CreateChecksum. rewrite Z.eqb_eq, !app_assoc.
  assert (symbols (ExpandHRP hrp ++ values)) as Hl by (apply Forall_app; split; [by apply ExpandHRP_ok|done]).
  rewrite (polymod_tail _ t) by done. set (P := PolyMod _). assert (in_u 30 P) as HP by (apply polymod_range; [apply Forall_app; split; [done|apply zeros_ok]|done]).
  destruct (checksum_pack (P ^' 1)) as [Hs Hp]; [by apply lxor_u30|]. split.
  - intros E. apply (bev_inj 32); try done. rewrite Hp, <- E. lxor_ring.
  - intros ->. rewrite Hp. lxor_ring.
Qed.
(** Two texts that verify and differ only inside six symbols are the same. *)
Lemma burst_unique hrp l1 e1 e2 l2 :
  Forall (λ c, 0 ≤ c < 256) hrp → symbols l1 → symbols e1 → symbols e2 → symbols l2 → length e1 = length e2 → (length e1 ≤ 6)%nat →
  VerifyChecksum hrp (l1 ++ e1 ++ l2) = true → VerifyChecksum hrp (l1 ++ e2 ++ l2) = true → e1 = e2.
Proof.
  intros Hh H1 He1 He2 H2 Hl Hn. unfold VerifyChecksum, PolyMod. rewrite !Z.eqb_eq, !foldl_app. set (c := foldl polymod_step _ l1). intros V1 V2.
  assert (in_u 30 c) as Hc by (apply polymod_range; [done|]; apply polymod_range; [by apply ExpandHRP_ok|done]).
  assert (foldl polymod_step (foldl polymod_step 0 (zip_with Z.lxor e1 e2)) (replicate (length l2) 0) = 0) as E0.
  { rewrite <- (zip_same l2). rewrite <- (Z.lxor_nilpotent 1) at 2. rewrite <- V1 at 1. rewrite <- V2 at 1.
    rewrite <- !polymod_xor by (done || by apply polymod_range). by rewrite Z.lxor_nilpotent. }
  assert (length (zip_with Z.lxor e1 e2) = length e1) as Hz by (rewrite length_zip_with; lia).
  rewrite polymod_pack in E0 by (first [by apply zip_xor_ok|lia]).
  assert (∀ n x, in_u 30 x → foldl polymod_step x (replicate n 0) = 0 → x = 0) as Hk.
  { clear. induction n as [|n IH]; intros x Hx E; [done|]. cbn [replicate foldl] in E. rewrite polymod_shift, Z.lxor_0_r in E by done.
    apply shift_kernel; [done|]. apply IH; [by apply shift_u30|done]. }
  apply Hk in E0.
  - apply (bev_inj 32); try done. rewrite <- !polymod_pack by (done || lia). apply Z.lxor_eq.
    rewrite <- polymod_xor, Z.lxor_0_r by done. by rewrite polymod_pack by (first [by apply zip_xor_ok|lia]).
  - rewrite <- polymod_pack by (first [by apply zip_xor_ok|lia]). apply polymod_range; [by apply zip_xor_ok|done].
Qed.

(** ** Round trips *)

Lemma charset_char v : 0 ≤ v < 32 → let c := nth (Z.to_nat v) CHARSET 0 in
  nth (Z.to_nat c) CHARSET_REV (-1) = v ∧ 33 ≤ c ≤ 126 ∧ ¬ 65 ≤ c ≤ 90 ∧ c ≠ 49.
Proof.
  intros Hv c. subst c. split; [apply (alphabet_nth 32); [vm_compute; reflexivity|lia]|].
  assert (forallb (λ v, let c := nth v CHARSET 0 in (33 <=? c) && (c <=? 126) && negb ((65 <=? c) && (c <=? 90)) && negb (c =? 49)) (seq 0 32) = true) as H
    by (vm_compute; reflexivity).
  rewrite forallb_forall in H. specialize (H (Z.to_nat v)). rewrite in_seq in H. specialize (H ltac:(lia)). cbv zeta in H.
  rewrite !andb_true_iff, !negb_true_iff, andb_false_iff, !Z.leb_le, !Z.leb_gt, Z.eqb_neq in H. lia.
Qed.
Lemma rev_char c v : 0 ≤ c ≤ 126 → nth (Z.to_nat c) CHARSET_REV (-1) = v → v ≠ -1 → 0 ≤ v < 32 ∧ nth (Z.to_nat v) CHARSET 0 = LowerCase c ∧ LowerCase c ≠ 49.
Proof.
  intros Hc E Hv. assert (forallb (λ c, let v := nth c CHARSET_REV (-1) in (v =? -1) ||
      (0 <=? v) && (v <? 32) && (nth (Z.to_nat v) CHARSET 0 =? LowerCase (Z.of_nat c)) && negb (LowerCase (Z.of_nat c) =? 49)) (seq 0 128) = true) as H
    by (vm_compute; reflexivity).
  rewrite forallb_forall in H. specialize (H (Z.to_nat c)). rewrite in_seq in H. specialize (H ltac:(lia)). cbv zeta in H. rewrite Z2Nat.id in H by lia.
  rewrite E in H. destruct (Z.eqb_spec v (-1)); [done|]. cbn [orb] in H. rewrite !andb_true_iff, negb_true_iff, Z.leb_le, Z.ltb_lt, Z.eqb_eq, Z.eqb_neq in H. lia.
Qed.
Lemma scan_lower s : hrp_ok s → ∀ l u, ∃ l', scan_cases s l u = Some (l', u).
Proof.
  induction 1 as [|c s Hc _ IH]; intros l u; [by exists l|]. cbn [scan_cases]. destruct ((97 <=? c) && (c <=? 122)); [apply IH|].
  destruct (Z.leb_spec 65 c), (Z.leb_spec c 90); cbn [andb]; try lia; (destruct (Z.ltb_spec c 33), (Z.ltb_spec 126 c); try lia; cbn [orb]; apply IH).
Qed.
Lemma rfind_none s : Forall (λ c, c ≠ 49) s → rfind_one s = None.
Proof. induction 1 as [|c s Hc _ IH]; [done|]. cbn. rewrite IH. by destruct (Z.eqb_spec c 49). Qed.
Lemma rfind_app hrp s : Forall (λ c, c ≠ 49) s → rfind_one (hrp ++ 49 :: s) = Some (length hrp).
Proof. intros Hs. induction hrp as [|c hrp IH]; cbn; [by rewrite rfind_none|]. by rewrite IH. Qed.
Lemma rev_values_chars l : symbols l → rev_values ((λ v, nth (Z.to_nat v) CHARSET 0) <$> l) = Some l.
Proof.
  induction 1 as [|v l Hv _ IH]; [done|]. rewrite fmap_cons. cbn [rev_values]. destruct (charset_char v Hv) as (-> & _).
  destruct (Z.eqb_spec v (-1)); [lia|]. by rewrite IH.
Qed.
Lemma hrp_lower hrp : hrp_ok hrp → LowerCase <$> hrp = hrp.
Proof.
  induction 1 as [|c hrp Hc _ IH]; [done|]. rewrite fmap_cons, IH. f_equal. unfold LowerCase.
  destruct (Z.leb_spec 65 c), (Z.leb_spec c 90); try lia; done.
Qed.
Lemma hrp_bytes hrp : hrp_ok hrp → Forall (λ c, 0 ≤ c < 256) hrp.
Proof. intros H. eapply Forall_impl; [exact H|]. cbn. lia. Qed.
Lemma CreateChecksum_ok hrp values : Forall (λ c, 0 ≤ c < 256) hrp → symbols values → symbols (CreateChecksum hrp values) ∧ length (CreateChecksum hrp values) = 6%nat.
Proof.
  intros Hh Hv. unfold CreateChecksum. split; [|done]. apply checksum_pack, lxor_u30; [|done]. apply polymod_range; [|done].
  apply Forall_app. split; [by apply ExpandHRP_ok|]. apply Forall_app. split; [done|apply zeros_ok].
Qed.
Lemma bc_bytes : Forall (λ c, 0 ≤ c < 256) (chars "bc").
Proof. unfold chars. cbn. by repeat constructor. Qed.
(** The checksum of Bech32 detects every error within six neighbouring symbols:
    of two texts of the same length that differ, and differ only inside a stretch of
    at most six symbols, the second does not verify when the first does. *)
Theorem bech32_burst_detected hrp l1 e1 e2 l2 :
  Forall (λ c, 0 ≤ c < 256) hrp → symbols l1 → symbols e1 → symbols e2 → symbols l2 → length e1 = length e2 → (length e1 ≤ 6)%nat →
  VerifyChecksum hrp (l1 ++ e1 ++ l2) = true → e1 ≠ e2 → VerifyChecksum hrp (l1 ++ e2 ++ l2) = false.
Proof.
  intros Hh H1 He1 He2 H2 Hl Hn V Hne. apply not_true_is_false. intros V2. apply Hne. by apply (burst_unique hrp l1 e1 e2 l2).
Qed.
Lemma bech32_burst_detected_witness :
  VerifyChecksum (chars "bc") ([0] ++ [14; 21] ++ [15] ++ CreateChecksum (chars "bc") [0; 14; 20; 15]) = false.
Proof.
  apply (bech32_burst_detected (chars "bc") [0] [14; 20] [14; 21] ([15] ++ CreateChecksum (chars "bc") [0; 14; 20; 15]));
    [apply bc_bytes|by repeat constructor|by repeat constructor|by repeat constructor| |done|cbn; lia|vm_compute; reflexivity|done].
  apply Forall_app. split; [by repeat constructor|]. apply CreateChecksum_ok; [apply bc_bytes|by repeat constructor].
Defined.
Lemma Decode_Encode hrp values :
  hrp_ok hrp → hrp ≠ [] → symbols values → (length hrp + length values + 7 ≤ 90)%nat → Decode (Encode hrp values) = (hrp, values).
Proof.
  intros Hh Hne Hv Hl. pose proof (hrp_bytes hrp Hh) as Hb. destruct (CreateChecksum_ok hrp values Hb Hv) as [Hc Hn].
  unfold Decode, Encode. set (cs := CreateChecksum hrp values) in *. assert (symbols (values ++ cs)) as Hs by (by apply Forall_app).
  set (tail := _ <$> values ++ cs). assert (length tail = (length values + 6)%nat) as Lt by (subst tail; rewrite length_fmap, length_app; lia).
  assert (Forall (λ c, (33 ≤ c ≤ 126 ∧ ¬ 65 ≤ c ≤ 90) ∧ c ≠ 49) tail) as Ht.
  { apply Forall_fmap. eapply Forall_impl; [exact Hs|]. intros v Hv'. destruct (charset_char v Hv') as (_ & ? & ? & ?). cbn. tauto. }
  assert (hrp_ok (hrp ++ 49 :: tail)) as Ho.
  { apply Forall_app. split; [done|]. constructor; [lia|]. eapply Forall_impl; [exact Ht|]. cbn. tauto. }
  destruct (scan_lower _ Ho false false) as [l' ->]. rewrite andb_false_r, rfind_app by (eapply Forall_impl; [exact Ht|]; cbn; tauto).
  rewrite (proj2 (Z.ltb_ge 90 _)), (proj2 (Nat.eqb_neq _ _)), (proj2 (Nat.ltb_ge _ _));
    [|rewrite length_app; cbn [length]; lia|by destruct hrp|unfold size; rewrite length_app; cbn [length]; lia]. cbn [orb].
  rewrite drop_app_ge by lia. replace (S (length hrp) - length hrp)%nat with 1%nat by lia. cbn [drop].
  subst tail. rewrite drop_0, rev_values_chars, take_app_length, hrp_lower by done. rewrite (proj2 (checksum_unique hrp values cs Hb Hv Hc Hn)) by done.
  cbn [negb]. f_equal. rewrite length_app, Hn. rewrite take_app_le by lia. apply take_ge. lia.
Qed.
(** What a text that is not refused looks like. *)
Lemma scan_range s : ∀ l u r, scan_cases s l u = Some r → Forall (λ c, 33 ≤ c ≤ 126) s.
Proof.
  induction s as [|c s IH]; intros l u r E; [by apply Forall_nil|]. cbn [scan_cases] in E.
  destruct (Z.leb_spec 97 c), (Z.leb_spec c 122), (Z.leb_spec 65 c), (Z.leb_spec c 90), (Z.ltb_spec c 33), (Z.ltb_spec 126 c); cbn [andb orb] in E; try lia; try done;
    (constructor; [lia|by eapply IH]).
Qed.
Lemma rfind_split s pos : rfind_one s = Some pos → s = take pos s ++ 49 :: drop (S pos) s ∧ (pos < length s)%nat.
Proof.
  revert pos. induction s as [|c s IH]; intros pos E; [done|]. cbn [rfind_one] in E. destruct (rfind_one s) as [p|].
  - injection E as <-. destruct (IH p eq_refl) as [Es Hp]. cbn [take drop app length]. split; [by f_equal|lia].
  - destruct (Z.eqb_spec c 49) as [->|]; [|done]. injection E as <-. cbn. split; [done|lia].
Qed.
Lemma rev_values_lower s : Forall (λ c, 33 ≤ c ≤ 126) s → ∀ l, rev_values s = Some l →
  symbols l ∧ length l = length s ∧ (λ v, nth (Z.to_nat v) CHARSET 0) <$> l = LowerCase <$> s.
Proof.
  induction 1 as [|c s Hc _ IH]; intros l E; cbn [rev_values] in E; [injection E as <-; split_and!; [by apply Forall_nil|done|done]|].
  remember (nth (Z.to_nat c) CHARSET_REV (-1)) as v eqn:Ev. destruct (Z.eqb_spec v (-1)) as [|Hv]; [done|].
  destruct (rev_values s) as [l'|]; [|done]. cbn in E. injection E as <-. destruct (IH l' eq_refl) as (H1 & H2 & H3).
  destruct (rev_char c v ltac:(lia) (eq_sym Ev) Hv) as (Hr & Hl & _). rewrite !fmap_cons, H3, Hl. split_and!; [by constructor|cbn; lia|done].
Qed.
Lemma Lower_range c : 33 ≤ c ≤ 126 → 33 ≤ LowerCase c ≤ 126 ∧ ¬ 65 ≤ LowerCase c ≤ 90.
Proof. intros Hc. unfold LowerCase. destruct (Z.leb_spec 65 c), (Z.leb_spec c 90); cbn [andb]; lia. Qed.
Lemma Encode_Decode s hrp values : Decode s = (hrp, values) → hrp ≠ [] → hrp_ok hrp ∧ symbols values ∧ Encode hrp values = LowerCase <$> s.
Proof.
  intros E Hne. unfold Decode in E. destruct (scan_cases s false false) as [[l u]|] eqn:Es; [|injection E as <- <-; done].
  destruct (l && u); [injection E as <- <-; done|]. destruct (rfind_one s) as [pos|] eqn:Ef; [|injection E as <- <-; done].
  destruct (_ || _ || _) eqn:Eb; [injection E as <- <-; done|]. apply orb_false_iff in Eb as [_ Hl%Nat.ltb_ge].
  destruct (rev_values (drop (S pos) s)) as [vs|] eqn:Er; [|injection E as <- <-; done]. destruct (VerifyChecksum _ vs) eqn:Ev; [|injection E as <- <-; done].
  cbn [negb] in E. injection E as <- <-. pose proof (scan_range s _ _ _ Es) as Hr. destruct (rfind_split s pos Ef) as [Ess Hp].
  assert (Forall (λ c, 33 ≤ c ≤ 126) (drop (S pos) s)) as Hd by (by apply Forall_drop). destruct (rev_values_lower _ Hd vs Er) as (H1 & H2 & H3). rewrite length_drop in H2.
  assert (hrp_ok (LowerCase <$> take pos s)) as Hh.
  { apply Forall_fmap. eapply Forall_impl; [apply Forall_take, Hr|]. intros c Hc. by apply Lower_range. }
  set (n := (length vs - 6)%nat) in *. rewrite <- (take_drop n vs) in Ev. assert (symbols (take n vs)) as Hv by (by apply Forall_take).
  apply checksum_unique in Ev; [|by apply hrp_bytes|done|by apply Forall_drop|rewrite length_drop; lia]. split_and!; try done.
  unfold Encode. rewrite <- Ev, take_drop, H3. rewrite Ess at 3. rewrite fmap_app, fmap_cons. done.
Qed.
(** Bech32 is inverse to its decoding: a text made from a human-readable part
    (no capitals) and symbols, of at most 90 characters, decodes to them; and what a
    text decodes to encodes to that text in small letters.  In particular a text has
    one checksum. *)
Theorem bech32_roundtrip hrp values s :
  hrp_ok hrp → hrp ≠ [] → symbols values → (length hrp + length values + 7 ≤ 90)%nat →
  Decode (Encode hrp values) = (hrp, values) ∧ (Decode s = (hrp, values) → Encode hrp values = LowerCase <$> s).
Proof. intros Hh Hne Hv Hl. split; [by apply Decode_Encode|]. intros E. by apply (Encode_Decode s hrp values). Qed.
Lemma bech32_roundtrip_witness :
  Encode (chars "bc") [0; 14; 20; 15; 7; 13; 26; 0; 25; 18; 6; 11; 13; 8; 21; 4; 20; 3; 17; 2; 29; 3; 12; 29; 3; 4; 15; 24; 20; 6; 14; 30; 22] =
    LowerCase <$> chars "BC1QW508D6QEJXTDG4Y5R3ZARVARY0C5XW7KV8F3T4".
Proof.
  apply (bech32_roundtrip (chars "bc") [0; 14; 20; 15; 7; 13; 26; 0; 25; 18; 6; 11; 13; 8; 21; 4; 20; 3; 17; 2; 29; 3; 12; 29; 3; 4; 15; 24; 20; 6; 14; 30; 22]
    (chars "BC1QW508D6QEJXTDG4Y5R3ZARVARY0C5XW7KV8F3T4")); [|discriminate|by repeat constructor|vm_compute; lia|vm_compute; reflexivity].
  unfold hrp_ok, chars. cbn. repeat constructor; lia.
Defined.
