(* ===== verification/KeyIO.v ===== *)
(** * Addresses and keys as text (key_io.cpp, chainparams.cpp, key.cpp, pubkey.cpp)

    The encoder and decoder of destinations, private keys and extended keys.  [None]
    is a failed assertion; an invalid key is [Some None].  Whether 32 bytes are a
    private key is for the elliptic curve library to say. *)
From S2P Require Import Prelude ArithUint256 Script Interpreter InterpreterSpecs Serialize SigHash Standard Strings StringsFacts Base58 Base58Facts Bech32.

(** The prefixes of a chain. *)
Record ChainPrefixes := mk_prefixes {
  PUBKEY_ADDRESS : bytes; SCRIPT_ADDRESS : bytes; SECRET_KEY : bytes; EXT_PUBLIC_KEY : bytes; EXT_SECRET_KEY : bytes; Bech32HRP : bytes }.
Definition main_prefixes : ChainPrefixes := mk_prefixes [68] [130] [128] [0x04; 0x88; 0xB2; 0x1E] [0x04; 0x88; 0xAD; 0xE4] (chars "qc").
Definition testnet_prefixes : ChainPrefixes := mk_prefixes [63] [125] [239] [0x04; 0x35; 0x87; 0xCF] [0x04; 0x35; 0x83; 0x94] (chars "tq").
Definition regtest_prefixes : ChainPrefixes := mk_prefixes [120] [110] [239] [0x04; 0x35; 0x87; 0xCF] [0x04; 0x35; 0x83; 0x94] (chars "qcrt").

(** Whether [data] starts with [prefix] and has [n] bytes more, and these. *)
Definition after_prefix (prefix data : bytes) (n : nat) : option bytes :=
  if (length data =? n + length prefix)%nat && bool_decide (take (length prefix) data = prefix) then Some (drop (length prefix) data) else None.

Section KeyIO.
Context `{Crypto} (params : ChainPrefixes) (seckey_verify : bytes → bool).

Definition encode_witness (version : Z) (program : bytes) : bytes :=
  Encode (Bech32HRP params) (version :: (ConvertBits 8 5 true program).1).
Definition EncodeDestination (dest : CTxDestination) : option bytes :=
  match dest with
  | CKeyID id => EncodeBase58Check (PUBKEY_ADDRESS params ++ id)
  | CScriptID id => EncodeBase58Check (SCRIPT_ADDRESS params ++ id)
  | WitnessV0KeyHash id => Some (encode_witness 0 id)
  | WitnessV0ScriptHash id => Some (encode_witness 0 id)
  | WitnessUnknown version program =>
      if (version <? 1) || (16 <? version) || (size program <? 2) || (40 <? size program) then Some []
      else Some (encode_witness (u8 version) program)
  | CNoDestination => Some []
  end.
(** The part of [DecodeDestination] after base 58. *)
Definition decode_witness (str : bytes) : CTxDestination :=
  let '(hrp, values) := Decode str in
  match values with
  | version :: rest =>
      if bool_decide (hrp = Bech32HRP params) then
        let '(data, ok) := ConvertBits 5 8 false rest in
        if ok then
          if version =? 0 then
            if size data =? 20 then WitnessV0KeyHash data
            else if size data =? 32 then WitnessV0ScriptHash data
            else CNoDestination
          else if (16 <? version) || (size data <? 2) || (40 <? size data) then CNoDestination
          else WitnessUnknown version data
        else CNoDestination
      else CNoDestination
  | [] => CNoDestination
  end.
Definition DecodeDestination (str : bytes) : option CTxDestination :=
  r ← DecodeBase58Check (c_str str);
  Some match r with
       | Some data =>
           match after_prefix (PUBKEY_ADDRESS params) data 20 with
           | Some hash => CKeyID hash
           | None =>
               match after_prefix (SCRIPT_ADDRESS params) data 20 with
               | Some hash => CScriptID hash
               | None => decode_witness str
               end
           end
       | None => decode_witness str
       end.

(** ** Private keys *)

Record CKey := mk_key { keydata : bytes; fCompressed : bool }.
(** [Set]: an invalid key is [None]. *)
Definition CKey_Set (data : bytes) (fCompressedIn : bool) : option CKey :=
  if negb (size data =? 32) then None
  else if seckey_verify data then Some (mk_key data fCompressedIn) else None.
Definition DecodeSecret (str : bytes) : option (option CKey) :=
  r ← DecodeBase58Check (c_str str);
  Some (data ← r;
        let prefix := SECRET_KEY params in
        let n := length prefix in
        if ((length data =? 32 + n)%nat || (length data =? 33 + n)%nat && (List.last data 0 =? 1)) && bool_decide (take n data = prefix)
        then CKey_Set (take 32 (drop n data)) (length data =? 33 + n)%nat
        else None).
(** For a valid key. *)
Definition EncodeSecret (key : CKey) : option bytes :=
  EncodeBase58Check (SECRET_KEY params ++ keydata key ++ (if fCompressed key then [1] else [])).

(** ** Extended keys *)

Record CExtKey := mk_extkey { nDepth : Z; vchFingerprint : bytes; nChild : Z; chaincode : bytes; extkey : bytes }.
Definition BIP32_EXTKEY_SIZE : nat := 74.
(** The encoding of a valid private key, and of a public key. *)
Definition CExtKey_Encode (k : CExtKey) : bytes :=
  [nDepth k] ++ vchFingerprint k ++ [u8 (nChild k >>' 24); u8 (nChild k >>' 16); u8 (nChild k >>' 8); u8 (nChild k)] ++ chaincode k ++ [0] ++ extkey k.
Definition CExtPubKey_Encode (k : CExtKey) : bytes :=
  [nDepth k] ++ vchFingerprint k ++ [u8 (nChild k >>' 24); u8 (nChild k >>' 16); u8 (nChild k >>' 8); u8 (nChild k)] ++ chaincode k ++ extkey k.
Definition ext_fields (code key : bytes) : CExtKey :=
  mk_extkey (nth 0 code 0) (take 4 (drop 1 code))
    ((nth 5 code 0 <<' 24) |' (nth 6 code 0 <<' 16) |' (nth 7 code 0 <<' 8) |' nth 8 code 0) (take 32 (drop 9 code)) key.
Definition CExtKey_Decode (code : bytes) : option CExtKey :=
  if seckey_verify (drop 42 code) then Some (ext_fields code (drop 42 code)) else None.
Definition CExtPubKey_Decode (code : bytes) : option CExtKey :=
  k ← CPubKey (drop 41 code); Some (ext_fields code k).
Definition EncodeExtKey (k : CExtKey) : option bytes := EncodeBase58Check (EXT_SECRET_KEY params ++ CExtKey_Encode k).
Definition EncodeExtPubKey (k : CExtKey) : option bytes := EncodeBase58Check (EXT_PUBLIC_KEY params ++ CExtPubKey_Encode k).
Definition DecodeExtKey (str : bytes) : option (option CExtKey) :=
  r ← DecodeBase58Check (c_str str);
  Some (data ← r; code ← after_prefix (EXT_SECRET_KEY params) data BIP32_EXTKEY_SIZE; CExtKey_Decode code).
Definition DecodeExtPubKey (str : bytes) : option (option CExtKey) :=
  r ← DecodeBase58Check (c_str str);
  Some (data ← r; code ← after_prefix (EXT_PUBLIC_KEY params) data BIP32_EXTKEY_SIZE; CExtPubKey_Decode code).
End KeyIO.
