(* ===== verification/KeyIOFacts.v ===== *)
(** * Addresses survive their text, private keys do not

    Round trips of destinations on the three chains.  They rest on the length of the
    text: [DecodeBase58Check] drops the first two characters, for the prefix "SL", of
    strings of 36 characters only.  Private and extended keys make longer strings, and
    none of them is read back. *)
From S2P Require Import Prelude ArithUint256 Script Interpreter InterpreterSpecs Serialize SigHash Standard Strings StringsFacts Base58 Base58Facts Bech32 KeyIO.
From S2P Require Import Hasher Sha256 HashFunctions.

(** ** Lengths in base 58 *)

Lemma encode_length b e : bytes_ok b → EncodeBase58 b = Some e →
  size e ≤ size b * 138 / 100 + 1 ∧ (normal 256 b → b ≠ [] → 58 ^ (size e - 1) ≤ bev 256 b < 58 ^ size e).
Proof.
  intros Hb E. unfold EncodeBase58 in E. destruct (skip_zeroes_spec b) as [Eb Hh]. destruct (skip_zeroes b) as [z b'] eqn:Es. cbn [fst snd] in *.
  assert (bytes_ok b') as Hb' by (rewrite Eb in Hb; by apply Forall_app in Hb as [_ ?]).
  pose proof (size_nonneg b') as Hs. set (sz := Z.to_nat (size b' * 138 / 100 + 1)) in *.
  destruct (push_digits_spec 256 58 sz b' ltac:(lia) ltac:(lia) (replicate sz 0, O) 0) as (st & Est & Hst); [done|apply vector_start; lia|lia| |].
  { rewrite Z.mul_1_l. subst sz. rewrite Z2Nat.id by (pose proof (Z.div_pos (size b' * 138) 100); lia). by apply capacity_encode. }
  rewrite Est in E. cbn [mbind option_bind] in E. apply (inj Some) in E. subst e. rewrite Z.mul_0_l, Z.add_0_l in Hst. destruct (significant_spec _ _ _ _ Hst) as [Hn Hv].
  assert (size (replicate z 49 ++ chars58 (significant st)) = Z.of_nat z + size (significant st)) as ->.
  { unfold size. rewrite length_app, length_replicate, length_fmap. lia. }
  split.
  - destruct Hst as (_ & Hl & _). assert (size (significant st) ≤ size b' * 138 / 100 + 1).
    { destruct st as [v n]. cbn [fst snd] in *. unfold significant. cbn [fst snd].
      destruct (skip_zeroes_spec (rev (take n v))) as [Er _]. apply (f_equal length) in Er. rewrite length_app, length_replicate, length_rev, length_take in Er.
      pose proof (Z.div_pos (size b' * 138) 100 ltac:(lia) ltac:(lia)). unfold size at 1. subst sz. lia. }
    rewrite Eb, size_app. replace (size (replicate z 0)) with (Z.of_nat z) by (unfold size; by rewrite length_replicate).
    pose proof (Z.div_add (size b' * 138) (Z.of_nat z) 100 ltac:(lia)).
    assert ((size b' * 138 + Z.of_nat z * 100) / 100 ≤ ((Z.of_nat z + size b') * 138) / 100) by (apply Z.div_le_mono; lia). lia.
  - intros [_ Hhb] Hne. destruct z as [|z]; [|rewrite Eb in Hhb; by cbn in Hhb]. cbn [replicate app] in Eb. subst b'. cbn [Z.of_nat].
    rewrite Z.add_0_l, <- Hv. apply normal_range; [lia|done|]. intros E0. rewrite E0 in Hv. cbn in Hv.
    assert (normal 256 b) as Hnb by done. pose proof (normal_range 256 b ltac:(lia) Hnb Hne). 
    assert (0 < 256 ^ (size b - 1)); [|lia]. apply Z.pow_pos_nonneg; [lia|]. destruct b; [done|]. unfold size. cbn [length]. lia.
Qed.
Lemma pow_between B n a b v : 1 < B → 0 ≤ a → 0 ≤ n - 1 → B ^ a ≤ v → v < B ^ b → B ^ (n - 1) ≤ v < B ^ n → a < n ≤ b.
Proof.
  intros HB Ha Hn1 H1 H2 [H3 H4]. split.
  - apply (Z.pow_lt_mono_r_iff B); lia.
  - destruct (Z.le_gt_cases n b) as [|Hc]; [done|]. assert (b ≤ n - 1) by lia.
    assert (B ^ b ≤ B ^ (n - 1)); [|lia]. apply Z.pow_le_mono_r; lia.
Qed.
(** The text of [n] bytes that start with a byte [p] that is not zero. *)
Lemma encode_length_first p d e lo hi : bytes_ok (p :: d) → 0 < p → EncodeBase58 (p :: d) = Some e →
  0 ≤ lo → 58 ^ lo ≤ p * 256 ^ size d → (p + 1) * 256 ^ size d ≤ 58 ^ hi → lo < size e ≤ hi.
Proof.
  intros Hb Hp E Hlo H1 H2. destruct (encode_length _ _ Hb E) as [_ Hr]. destruct Hr as [R1 R2]; [split; [done|cbn; intros [= ?]; lia]|done|].
  apply Forall_cons in Hb as [Hp' Hd]. pose proof (bev_range 256 d ltac:(lia) Hd) as Hv.
  change (p :: d) with ([p] ++ d) in R1, R2. rewrite bev_app in R1, R2. replace (bev 256 [p]) with p in R1, R2 by (cbn; lia).
  assert (0 < size e). { destruct (Z.le_gt_cases (size e) 0) as [H0|]; [|done]. pose proof (size_nonneg e). replace (size e) with 0 in R2 by lia. cbn in R2. nia. }
  apply (pow_between 58 (size e) lo hi (p * 256 ^ size d + bev 256 d)); try lia; [nia..].
Qed.

(** ** Base 58 with a checksum *)

Lemma chars58_nonzero z ds : digits_ok 58 ds → Forall (λ c, c ≠ 0) (replicate z 49 ++ chars58 ds).
Proof.
  intros Hd. apply Forall_app. split; [by apply Forall_replicate|]. apply Forall_fmap. eapply Forall_impl; [exact Hd|].
  intros d Hd'. destruct (char_value d Hd') as (_ & _ & _ & Hr). cbv zeta in Hr. unfold compose. lia.
Qed.
Section Check.
Context `{C : Crypto} `{HC : !CryptoSizes C} `{HB : !CryptoBytes C}.

Definition checked (d : bytes) : bytes := d ++ take 4 (CHash256 d).
Lemma checked_ok d : bytes_ok d → bytes_ok (checked d) ∧ size (checked d) = size d + 4.
Proof.
  intros Hd. unfold checked, CHash256. split; [apply Forall_app; split; [done|]; apply Forall_take, CSHA256_bytes|].
  rewrite size_app. f_equal. pose proof (CSHA256_size (CSHA256 d)). unfold size in *. rewrite length_take. lia.
Qed.
Lemma check_body d psz : bytes_ok d → DecodeBase58 psz = Some (Some (checked d)) → size psz ≠ 36 → DecodeBase58Check psz = Some (Some d).
Proof.
  intros Hd E Hs. unfold DecodeBase58Check. apply Z.eqb_neq in Hs. rewrite Hs, E. cbn [mbind option_bind].
  destruct (checked_ok d Hd) as [_ Hn]. rewrite (proj2 (Z.ltb_ge _ _)) by (pose proof (size_nonneg d); lia).
  replace (length (checked d) - 4)%nat with (length d) by (unfold size in Hn; lia). unfold checked. rewrite take_app_length, drop_app_length.
  by rewrite bool_decide_true.
Qed.
(** Text with and without its prefix. *)
Lemma base58check d : bytes_ok d → ∃ e,
  EncodeBase58 (checked d) = Some e ∧ EncodeBase58Check d = Some (chars "SL" ++ e) ∧ Forall (λ c, c ≠ 0) e ∧
  (size e = 34 → DecodeBase58Check (chars "SL" ++ e) = Some (Some d)) ∧ (size e ≠ 36 → DecodeBase58Check e = Some (Some d)).
Proof.
  intros Hd. destruct (checked_ok d Hd) as [Hok _]. destruct (base58_encode_decode (checked d) Hok) as (z & ds & E & Hn & HD).
  specialize (HD [] [] (Forall_nil_2 _) (Forall_nil_2 _)). cbn [app] in HD. rewrite app_nil_r in HD. exists (replicate z 49 ++ chars58 ds).
  split_and!; [done| |by apply chars58_nonzero, Hn| |].
  - unfold EncodeBase58Check. fold (checked d). by rewrite E.
  - intros Hs. unfold DecodeBase58Check. rewrite size_app, Hs. change (size (chars "SL") + 34 =? 36) with true. cbv iota.
    rewrite drop_app_length' by done. rewrite <- (check_body d (replicate z 49 ++ chars58 ds)) by (done || lia). unfold DecodeBase58Check.
    by rewrite Hs.
  - intros Hs. by apply check_body.
Qed.
(** An address: a prefix byte from 3 to 143 and 20 bytes make 34 characters. *)
Lemma address_roundtrip p id : 3 ≤ p ≤ 143 → bytes_ok id → size id = 20 → ∃ s,
  EncodeBase58Check (p :: id) = Some s ∧ c_str s = s ∧ DecodeBase58Check s = Some (Some (p :: id)).
Proof.
  intros Hp Hid Hs. assert (bytes_ok (p :: id)) as Hb by (constructor; [unfold is_byte; lia|done]).
  destruct (base58check (p :: id) Hb) as (e & E & Ec & Hz & H34 & _). destruct (checked_ok (p :: id) Hb) as [Hok Hn].
  assert (size (p :: id) = 21) as H21 by (unfold size in *; cbn [length]; lia). rewrite H21 in Hn.
  change (checked (p :: id)) with (p :: (id ++ take 4 (CHash256 (p :: id)))) in *. set (d := id ++ _) in *.
  assert (size d = 24) as Hd by (unfold size in *; cbn [length] in Hn; lia).
  assert (33 < size e ≤ 34).
  { apply (encode_length_first p d e 33 34); [done|lia|done|lia|rewrite Hd; lia|rewrite Hd; lia]. }
  exists (chars "SL" ++ e). split_and!; [done| |apply H34; lia]. apply c_str_nonzero. apply Forall_app. split; [by repeat constructor|done].
Qed.
End Check.

(** ** Destinations *)

(** What the round trips need of the prefixes. *)
Record prefixes_ok (params : ChainPrefixes) : Prop := {
  po_pubkey : ∃ p, PUBKEY_ADDRESS params = [p] ∧ 3 ≤ p ≤ 143;
  po_script : ∃ p, SCRIPT_ADDRESS params = [p] ∧ 3 ≤ p ≤ 143;
  po_differ : PUBKEY_ADDRESS params ≠ SCRIPT_ADDRESS params;
  po_hrp : hrp_ok (Bech32HRP params) ∧ (2 ≤ length (Bech32HRP params) ≤ 18)%nat }.
Lemma chains_ok : prefixes_ok main_prefixes ∧ prefixes_ok testnet_prefixes ∧ prefixes_ok regtest_prefixes.
Proof.
  split_and!; (split; [eexists; split; [reflexivity|lia]|eexists; split; [reflexivity|lia]|discriminate|
    split; [unfold hrp_ok, chars; cbn; repeat constructor; lia|vm_compute; lia]]).
Qed.
(** The destinations that have an address.  Programs of unknown versions and of 2 to
    16 bytes are left out: their text is short enough to be one in base 58. *)
Definition has_address (dest : CTxDestination) : Prop :=
  match dest with
  | CNoDestination => False
  | CKeyID id | CScriptID id | WitnessV0KeyHash id => bytes_ok id ∧ size id = 20
  | WitnessV0ScriptHash id => bytes_ok id ∧ size id = 32
  | WitnessUnknown version program => 1 ≤ version ≤ 16 ∧ bytes_ok program ∧ 17 ≤ size program ≤ 40
  end.
Lemma after_prefix_app p d n : length d = n → after_prefix p (p ++ d) n = Some d.
Proof.
  intros Hd. unfold after_prefix. rewrite length_app, Hd, Nat.add_comm, Nat.eqb_refl. cbn [andb].
  by rewrite take_app_length, drop_app_length, bool_decide_true.
Qed.
Lemma after_prefix_other p q d n : length p = length q → p ≠ q → after_prefix q (p ++ d) n = None.
Proof.
  intros Hl Hne. unfold after_prefix. rewrite <- Hl, take_app_length, bool_decide_false by done. by rewrite andb_false_r.
Qed.
Section Destinations.
Context `{C : Crypto} `{HC : !CryptoSizes C} `{HB : !CryptoBytes C} (params : ChainPrefixes) (Hp : prefixes_ok params).

Lemma no_spaces s : Forall (λ c, 33 ≤ c ≤ 126) s → ∀ a b c, s = a ++ b ++ c → Forall (λ c, isspace c = true) a → Forall (λ c, isspace c = true) c → b = s.
Proof.
  intros Hs a b c E Ha Hc. assert (∀ l, Forall (λ c, 33 ≤ c ≤ 126) l → Forall (λ c, isspace c = true) l → l = []) as Hn.
  { intros [|x l] H1 H2; [done|]. apply Forall_cons in H1 as [H1 _]. apply Forall_cons in H2 as [H2 _]. unfold isspace in H2.
    rewrite orb_true_iff, andb_true_iff, Z.eqb_eq, !Z.leb_le in H2. lia. }
  rewrite E in Hs. apply Forall_app in Hs as [H1 Hs]. apply Forall_app in Hs as [_ H3].
  rewrite (Hn a), (Hn c) in E by done. cbn [app] in E. by rewrite app_nil_r in E.
Qed.
(** A long text is not an address in base 58. *)
Lemma long_not_base58 s : Forall (λ c, 33 ≤ c ≤ 126) s → 37 ≤ size s → ∃ r, DecodeBase58Check (c_str s) = Some r ∧
  match r with Some data => after_prefix (PUBKEY_ADDRESS params) data 20 = None ∧ after_prefix (SCRIPT_ADDRESS params) data 20 = None | None => True end.
Proof.
  intros Hs Hn. rewrite c_str_nonzero by (eapply Forall_impl; [exact Hs|]; cbn; lia). unfold DecodeBase58Check.
  rewrite (proj2 (Z.eqb_neq (size s) 36)) by lia. assert (bytes_ok s) as Hb by (eapply Forall_impl; [exact Hs|]; intros x Hx; cbn in Hx; unfold is_byte; lia).
  destruct (base58_decode_encode s Hb) as (r & -> & Hr). cbn [mbind option_bind]. destruct r as [v|]; [|by exists None].
  destruct (Hr v eq_refl) as (Hv & lead & e & trail & E & Hl & Ht & Ee). assert (e = s) as -> by (by eapply no_spaces).
  destruct (encode_length v s Hv Ee) as [Hlen _]. destruct (size v <? 4) eqn:E4; [by exists None|]. apply Z.ltb_ge in E4.
  destruct (negb _); [by exists None|]. eexists. split; [reflexivity|].
  assert (∀ pre, length pre = 1%nat → after_prefix pre (take (length v - 4) v) 20 = None) as Hpre.
  { intros pre Hpre. unfold after_prefix. rewrite (proj2 (Nat.eqb_neq _ _)); [done|]. rewrite length_take, Hpre. intros H25.
    assert (size v = 25) as H25' by (unfold size in *; lia). rewrite H25' in Hlen. change (25 * 138 / 100 + 1) with 35 in Hlen. lia. }
  destruct (po_pubkey params Hp) as (p & -> & _), (po_script params Hp) as (q & -> & _). split; by apply Hpre.
Qed.
Lemma witness_roundtrip version program :
  0 ≤ version < 32 → bytes_ok program → 17 ≤ size program ≤ 40 →
  let s := encode_witness params version program in
  DecodeDestination params s = Some (decode_witness params s) ∧
  decode_witness params s =
    (if version =? 0 then
       if size program =? 20 then WitnessV0KeyHash program else if size program =? 32 then WitnessV0ScriptHash program else CNoDestination
     else if (16 <? version) || (size program <? 2) || (40 <? size program) then CNoDestination else WitnessUnknown version program).
Proof.
  intros Hver Hb Hn s. destruct (po_hrp params Hp) as [Hh Hl].
  destruct (ConvertBits_pad 8 5 ltac:(lia) ltac:(lia) program Hb) as (l & p & E & Hsym & Hp5 & Hlen & _).
  destruct (convert_there_and_back 5 program l ltac:(lia) Hb E) as [_ E'].
  assert (symbols (version :: l)) as Hs by (by constructor).
  assert (28 ≤ size l ≤ 64) as Hl' by lia.
  assert (s = Encode (Bech32HRP params) (version :: l)) as Es by (subst s; unfold encode_witness; by rewrite E).
  pose proof (Decode_Encode (Bech32HRP params) (version :: l) Hh) as HD. rewrite <- Es in HD. split.
  - assert (Forall (λ c, 33 ≤ c ≤ 126) s ∧ 37 ≤ size s) as [H1 H2].
    { rewrite Es. unfold Encode. destruct (CreateChecksum_ok (Bech32HRP params) (version :: l) (hrp_bytes _ Hh) Hs) as [Hc Hc6]. split.
      - apply Forall_app. split; [eapply Forall_impl; [exact Hh|]; cbn; tauto|]. constructor; [lia|]. apply Forall_fmap.
        eapply Forall_impl; [apply Forall_app; split; [exact Hs|exact Hc]|]. intros v Hv. by apply (charset_char v Hv).
      - unfold size in *. rewrite length_app. cbn [length]. rewrite length_fmap, length_app, Hc6. cbn [length]. lia. }
    destruct (long_not_base58 s H1 H2) as (r & Er & Hr). unfold DecodeDestination. rewrite Er. cbn [mbind option_bind].
    destruct r as [data|]; [|done]. by destruct Hr as [-> ->].
  - unfold decode_witness. rewrite HD; [|intros E0; rewrite E0 in Hl; cbn in Hl; lia|done|unfold size in Hl'; cbn [length]; lia].
    rewrite bool_decide_true by done. by rewrite E'.
Qed.
Lemma EncodeDestination_ok dest : has_address dest → ∃ s, EncodeDestination params dest = Some s ∧ DecodeDestination params s = Some dest.
Proof.
  destruct (po_pubkey params Hp) as (p & Ep & Hp1), (po_script params Hp) as (q & Eq & Hq1). pose proof (po_differ params Hp) as Hd.
  destruct dest as [|id|id|id|id|version program]; cbn [has_address]; [done|..].
  - intros [Hid Hs]. destruct (address_roundtrip p id Hp1 Hid Hs) as (s & E & Ec & D). exists s. cbn [EncodeDestination]. rewrite Ep. split; [done|].
    unfold DecodeDestination. rewrite Ec, D. cbn [mbind option_bind]. rewrite Ep.
    change (p :: id) with ([p] ++ id). by rewrite after_prefix_app by (unfold size in Hs; lia).
  - intros [Hid Hs]. destruct (address_roundtrip q id Hq1 Hid Hs) as (s & E & Ec & D). exists s. cbn [EncodeDestination]. rewrite Eq. split; [done|].
    unfold DecodeDestination. rewrite Ec, D. cbn [mbind option_bind]. rewrite Ep, Eq in *.
    change (q :: id) with ([q] ++ id). rewrite after_prefix_other by (done || congruence). by rewrite after_prefix_app by (unfold size in Hs; lia).
  - intros [Hid Hs]. destruct (witness_roundtrip 0 id) as [E1 E2]; [lia|done|lia|]. eexists. split; [done|]. by rewrite E1, E2, Hs.
  - intros [Hid Hs]. destruct (witness_roundtrip 0 id) as [E1 E2]; [lia|done|lia|]. eexists. split; [done|]. by rewrite E1, E2, Hs.
  - intros (Hv & Hb & Hs). destruct (witness_roundtrip version program) as [E1 E2]; [lia|done|lia|]. exists (encode_witness params version program).
    cbn [EncodeDestination]. rewrite E1, E2. assert (u8 version = version) as -> by (apply (wrap_small 8); unfold in_u; lia).
    rewrite (proj2 (Z.ltb_ge version 1)), (proj2 (Z.ltb_ge 16 version)), (proj2 (Z.ltb_ge (size program) 2)), (proj2 (Z.ltb_ge 40 (size program))) by lia.
    rewrite (proj2 (Z.eqb_neq version 0)) by lia. by cbn [orb].
Qed.
End Destinations.

(** C30: Addresses: on each of the three chains, a key hash, a script hash, a witness
    program of version 0, or one of a later version that has 17 to 40 bytes, is given
    back by [DecodeDestination] from the text that [EncodeDestination] makes of it.
    Later versions with 2 to 16 bytes are not covered, and [CNoDestination] has no
    text.  For the hashes it matters that their text has exactly 36 characters, since
    [DecodeBase58Check] drops the first two characters, whatever they are, of a text
    of that length and of no other. *)
Theorem address_text_roundtrip `{C : Crypto} `{HC : !CryptoSizes C} `{HB : !CryptoBytes C} params dest :
  params ∈ [main_prefixes; testnet_prefixes; regtest_prefixes] → has_address dest →
  ∃ s, EncodeDestination params dest = Some s ∧ DecodeDestination params s = Some dest.
Proof.
  intros Hp Hd. destruct chains_ok as (H1 & H2 & H3). apply EncodeDestination_ok; [|done]. set_unfold in Hp. naive_solver.
Qed.
Lemma address_text_roundtrip_witness :
  ∃ s, @EncodeDestination (Hashes (λ _, true)) main_prefixes (CKeyID (replicate 20 7)) = Some s ∧
       @DecodeDestination (Hashes (λ _, true)) main_prefixes s = Some (CKeyID (replicate 20 7)).
Proof.
  apply (@address_text_roundtrip (Hashes (λ _, true)) _ _ main_prefixes (CKeyID (replicate 20 7))); [set_solver|].
  split; [by apply Forall_replicate|reflexivity].
Defined.

(** ** Private keys *)

Section Secrets.
Context `{C : Crypto} `{HC : !CryptoSizes C} `{HB : !CryptoBytes C} (params : ChainPrefixes) (seckey_verify : bytes → bool).
Context (b : Z) (Hprefix : SECRET_KEY params = [b]) (Hb : 1 ≤ b ≤ 255).

Definition key_ok (key : CKey) : Prop := bytes_ok (keydata key) ∧ size (keydata key) = 32 ∧ seckey_verify (keydata key) = true.
Definition key_payload (key : CKey) : bytes := SECRET_KEY params ++ keydata key ++ (if fCompressed key then [1] else []).
Lemma key_payload_read key : key_ok key → ∀ s, DecodeBase58Check s = Some (Some (key_payload key)) → c_str s = s →
  DecodeSecret params seckey_verify s = Some (Some key).
Proof.
  intros (Hk & Hn & Hv) s E Ec. unfold DecodeSecret. rewrite Ec, E. cbn [mbind option_bind]. f_equal. unfold key_payload. rewrite Hprefix.
  destruct key as [d c]. cbn [keydata fCompressed] in *. unfold size in Hn. assert (length d = 32%nat) as Hd by lia. cbn [app length take drop]. rewrite length_app, Hd.
  rewrite take_0, drop_0, (take_app_le d), (take_ge d) by lia. unfold CKey_Set, size. rewrite Hd, Hv.
  rewrite bool_decide_true by done. destruct c; cbn [length]; [|reflexivity].
  change (b :: d ++ [1]) with ((b :: d) ++ [1]). rewrite List.last_last. reflexivity.
Qed.
Lemma key_payload_text key : key_ok key → ∃ e,
  EncodeSecret params key = Some (chars "SL" ++ e) ∧ DecodeSecret params seckey_verify e = Some (Some key) ∧ 47 < size e ≤ 53.
Proof.
  intros Hk. pose proof Hk as (Hk1 & Hn & _). assert (bytes_ok (key_payload key)) as Hok.
  { unfold key_payload. rewrite Hprefix. apply Forall_app. split; [constructor; [unfold is_byte; lia|by apply Forall_nil]|].
    apply Forall_app. split; [done|]. destruct (fCompressed key); [by repeat constructor|by apply Forall_nil]. }
  destruct (base58check (key_payload key) Hok) as (e & E & Ec & Hz & _ & H36). destruct (checked_ok (key_payload key) Hok) as [Hok' Hn'].
  assert (47 < size e ≤ 53) as Hr.
  { assert (32 ≤ size (keydata key ++ (if fCompressed key then [1] else [])) ≤ 33) as Hs by (rewrite size_app, Hn; destruct (fCompressed key); vm_compute; split; discriminate).
    unfold key_payload in E, Hok', Hn'. rewrite Hprefix in E, Hok', Hn'. set (d := keydata key ++ _) in *.
    change (checked ([b] ++ d)) with (b :: (d ++ take 4 (CHash256 ([b] ++ d)))) in *. set (t := d ++ take 4 _) in *.
    assert (36 ≤ size t ≤ 37) as Ht by (rewrite size_app in Hn'; unfold size in *; cbn [length] in Hn'; lia).
    apply (encode_length_first b t e 47 53); [done|lia|done|lia|..].
    - transitivity (1 * 256 ^ 36); [lia|]. assert (256 ^ 36 ≤ 256 ^ size t) by (apply Z.pow_le_mono_r; lia). nia.
    - transitivity (256 * 256 ^ 37); [|lia]. assert (256 ^ size t ≤ 256 ^ 37) by (apply Z.pow_le_mono_r; lia). nia. }
  exists e. split_and!; try lia; [done|]. apply key_payload_read; [done|apply H36; lia|by apply c_str_nonzero].
Qed.
End Secrets.

(** ** Extended keys *)

Definition ext_ok (keysize : Z) (k : CExtKey) : Prop :=
  is_byte (nDepth k) ∧ bytes_ok (vchFingerprint k) ∧ size (vchFingerprint k) = 4 ∧ in_u 32 (nChild k) ∧
  bytes_ok (chaincode k) ∧ size (chaincode k) = 32 ∧ bytes_ok (extkey k) ∧ size (extkey k) = keysize.
(** The fields are read from where they were written; [mid] is what is before the key. *)
Lemma ext_fields_read k mid keysize : ext_ok keysize k →
  let code := [nDepth k] ++ vchFingerprint k ++ [u8 (nChild k >>' 24); u8 (nChild k >>' 16); u8 (nChild k >>' 8); u8 (nChild k)] ++ chaincode k ++ mid ++ extkey k in
  ext_fields code (extkey k) = k ∧ drop (41 + length mid) code = extkey k ∧ length code = (41 + length mid + Z.to_nat keysize)%nat.
Proof.
  destruct k as [n f c cc key]. intros (Hn & Hf & Lf & Hc & Hcc & Lcc & Hk & Lk). unfold ext_fields. cbn [nDepth vchFingerprint nChild chaincode extkey] in *. unfold size in *.
  destruct f as [|f0 [|f1 [|f2 [|f3 [|]]]]]; cbn [length] in Lf; try lia. cbn [app nth take drop].
  assert (length cc = 32%nat) as Lcc' by lia. split_and!.
  - f_equal.
    + rewrite (Z.lor_comm (_ |' _ |' _)), (Z.lor_comm (u8 (c >>' 24) <<' 24 |' _)), (Z.lor_comm (u8 (c >>' 24) <<' 24)).
      rewrite !Z.lor_assoc. rewrite le32_sum by apply u8_byte. by apply byte_split.
    + rewrite drop_0, take_app_le, take_ge by lia. done.
  - cbn [Nat.add drop]. rewrite (drop_app_ge cc) by lia. rewrite Lcc'. cbn [Nat.sub]. by rewrite Nat.sub_0_r, drop_app_length.
  - cbn [length]. rewrite !length_app. lia.
Qed.
Lemma code_ok keysize k mid : ext_ok keysize k → bytes_ok mid →
  bytes_ok ([nDepth k] ++ vchFingerprint k ++ [u8 (nChild k >>' 24); u8 (nChild k >>' 16); u8 (nChild k >>' 8); u8 (nChild k)] ++ chaincode k ++ mid ++ extkey k).
Proof.
  intros (Hn & Hf & _ & _ & Hcc & _ & Hk & _) Hm. unfold bytes_ok in *. rewrite !Forall_app. split_and!; try done; repeat constructor; try apply Hn; try apply u8_byte.
Qed.
(** Long payloads make long texts. *)
Lemma long_text `{C : Crypto} `{HC : !CryptoSizes C} `{HB : !CryptoBytes C} d : bytes_ok d → 30 ≤ size d → head d = Some 4 → ∃ e,
  EncodeBase58Check d = Some (chars "SL" ++ e) ∧ c_str e = e ∧ DecodeBase58Check e = Some (Some d).
Proof.
  intros Hd Hn Hh. destruct (base58check d Hd) as (e & E & Ec & Hz & _ & H36). exists e. split_and!; [done|by apply c_str_nonzero|]. apply H36.
  destruct (checked_ok d Hd) as [Hok Hs]. destruct d as [|b d]; [done|]. injection Hh as ->.
  change (checked (4 :: d)) with (4 :: (d ++ take 4 (CHash256 (4 :: d)))) in *. set (t := d ++ _) in *.
  assert (33 ≤ size t) as Ht by (unfold size in *; cbn [length] in *; lia).
  assert (36 < size e ≤ size (4 :: t) * 138 / 100 + 1) as [? _]; [|lia]. split; [|by apply encode_length].
  destruct (encode_length_first 4 t e 44 (size (4 :: t) * 138 / 100 + 1)) as [? _]; [done|lia|done|lia| | |lia].
  - assert (256 ^ 33 ≤ 256 ^ size t) by (apply Z.pow_le_mono_r; lia). lia.
  - transitivity (256 ^ size (4 :: t)); [|apply capacity_encode, size_nonneg].
    replace (size (4 :: t)) with (1 + size t) by (unfold size; cbn [length]; lia). rewrite Z.pow_add_r by (unfold size; lia). 
    assert (0 < 256 ^ size t) by (apply Z.pow_pos_nonneg; [lia|apply size_nonneg]). lia.
Qed.
(** Private and extended keys: the text that is written is "SL" and a rest that
    the decoder accepts and reads back as the key.  On each chain, for every key that
    the elliptic curve library takes, the rest alone gives the key. *)
Theorem key_text_without_prefix `{C : Crypto} `{HC : !CryptoSizes C} `{HB : !CryptoBytes C} params seckey_verify key xkey :
  params ∈ [main_prefixes; testnet_prefixes; regtest_prefixes] →
  key_ok seckey_verify key → ext_ok 32 xkey → seckey_verify (extkey xkey) = true →
  (∃ e, EncodeSecret params key = Some (chars "SL" ++ e) ∧ DecodeSecret params seckey_verify e = Some (Some key)) ∧
  (∃ e, EncodeExtKey params xkey = Some (chars "SL" ++ e) ∧ DecodeExtKey params seckey_verify e = Some (Some xkey)).
Proof.
  intros Hp Hk Hx Hv. split.
  - assert (∃ b, SECRET_KEY params = [b] ∧ 1 ≤ b ≤ 255) as (b & Eb & Hb) by (set_unfold in Hp; destruct Hp as [->|[->|[->|[]]]]; eexists; (split; [reflexivity|lia])).
    destruct (key_payload_text params seckey_verify b Eb Hb key Hk) as (e & E & D & _). by exists e.
  - destruct (ext_fields_read xkey [0] 32 Hx) as (Ef & Ed & El). cbn [length Nat.add] in Ed, El. fold (CExtKey_Encode xkey) in Ef, Ed, El.
    assert (head (EXT_SECRET_KEY params ++ CExtKey_Encode xkey) = Some 4 ∧ bytes_ok (EXT_SECRET_KEY params ++ CExtKey_Encode xkey)) as [Hh Hok].
    { assert (bytes_ok (CExtKey_Encode xkey)) by (by apply (code_ok 32 xkey [0]); [|repeat constructor]).
      set_unfold in Hp; destruct Hp as [->|[->|[->|[]]]]; (split; [done|]); apply Forall_app; (split; [|done]); by repeat constructor. }
    destruct (long_text _ Hok) as (e & E & Ec & D); [unfold size; rewrite length_app, El; lia|done|]. exists e. split; [done|].
    unfold DecodeExtKey. rewrite Ec, D. cbn [mbind option_bind]. f_equal. rewrite after_prefix_app by done. cbn [mbind option_bind].
    unfold CExtKey_Decode. by rewrite Ed, Hv, Ef.
Qed.
Definition sample_key : CKey := mk_key (replicate 32 1) true.
Definition sample_xkey : CExtKey := mk_extkey 0 (replicate 4 0) 0 (replicate 32 5) (replicate 32 1).
Lemma key_text_without_prefix_witness :
  ∃ e, @EncodeSecret (Hashes (λ _, true)) main_prefixes sample_key = Some (chars "SL" ++ e) ∧
       @DecodeSecret (Hashes (λ _, true)) main_prefixes (λ _, true) e = Some (Some sample_key).
Proof.
  apply (@key_text_without_prefix (Hashes (λ _, true)) _ _ main_prefixes (λ _, true) sample_key sample_xkey); [set_solver|..|reflexivity].
  - split_and!; [by apply Forall_replicate|reflexivity|reflexivity].
  - split_and!; try reflexivity; try (by apply Forall_replicate); done.
Defined.
(** *** The text with its prefix *)

Lemma encode_head_zero v s : EncodeBase58 (0 :: v) = Some s → head s = Some 49.
Proof.
  unfold EncodeBase58. cbn [skip_zeroes Z.eqb]. destruct (skip_zeroes v) as [z r]. destruct (push_digits _ _ _ _) as [st|]; [|done]. cbn [mbind option_bind]. by intros [= <-].
Qed.
Lemma encode_chars b e : bytes_ok b → EncodeBase58 b = Some e → Forall (λ c, 33 ≤ c ≤ 126) e.
Proof.
  intros Hb E. destruct (base58_encode_decode b Hb) as (z & ds & E' & [Hd _] & _). rewrite E in E'. injection E' as ->.
  apply Forall_app. split; [by apply Forall_replicate|]. apply Forall_fmap. eapply Forall_impl; [exact Hd|]. intros d Hd'. cbn beta in Hd'. unfold compose.
  assert (forallb (λ c, (33 <=? c) && (c <=? 126)) pszBase58 = true) as Hall by (vm_compute; reflexivity). rewrite forallb_forall in Hall.
  assert (In (nth (Z.to_nat d) pszBase58 0) pszBase58) as Hin by (apply nth_In; change (length pszBase58) with 58%nat; lia).
  apply Hall, andb_true_iff in Hin as [?%Z.leb_le ?%Z.leb_le]. done.
Qed.
Section Refused.
Context `{C : Crypto} `{HC : !CryptoSizes C} `{HB : !CryptoBytes C}.

(** A text that does not start with a one is not the text of [n] bytes when the
    smallest number with as many digits in base 58 does not fit in them. *)
Lemma decoded_size s n : Forall (λ c, 33 ≤ c ≤ 126) s → head s ≠ Some 49 → 36 < size s → 256 ^ n ≤ 58 ^ (size s - 1) →
  ∃ r, DecodeBase58Check (c_str s) = Some r ∧ ∀ data, r = Some data → n - 4 < size data.
Proof.
  intros Hs Hh Hn Hpow. rewrite c_str_nonzero by (eapply Forall_impl; [exact Hs|]; cbn; lia). unfold DecodeBase58Check.
  rewrite (proj2 (Z.eqb_neq (size s) 36)) by lia. assert (bytes_ok s) as Hb by (eapply Forall_impl; [exact Hs|]; intros x Hx; cbn in Hx; unfold is_byte; lia).
  destruct (base58_decode_encode s Hb) as (r & -> & Hr). cbn [mbind option_bind]. destruct r as [v|]; [|by exists None].
  destruct (Hr v eq_refl) as (Hv & lead & e & trail & E & Hl & Ht & Ee). assert (e = s) as -> by (by eapply no_spaces).
  destruct (size v <? 4) eqn:E4; [by exists None|]. apply Z.ltb_ge in E4. destruct (negb _); [by exists None|]. eexists. split; [reflexivity|]. intros data [= <-].
  destruct (encode_length v s Hv Ee) as [_ Hlen]. destruct Hlen as [R1 _].
  { split; [done|]. intros H0. destruct v as [|v0 v]; [done|]. injection H0 as ->. by apply encode_head_zero in Ee. } { intros ->. by vm_compute in E4. }
  pose proof (bev_range 256 v ltac:(lia) Hv) as [_ R2]. assert (n < size v); [|unfold size in *; rewrite length_take; lia].
  destruct (Z.le_gt_cases (size v) n) as [Hc|]; [|done]. assert (256 ^ size v ≤ 256 ^ n) by (apply Z.pow_le_mono_r; lia). lia.
Qed.
(** The text that [EncodeBase58Check] makes gives, with its prefix, more than [n - 4] bytes. *)
Lemma prefixed_text b d lo n : bytes_ok (b :: d) → 0 < b → 36 ≤ lo → 58 ^ lo ≤ b * 256 ^ (size d + 4) → 256 ^ n ≤ 58 ^ (lo + 2) →
  ∃ s r, EncodeBase58Check (b :: d) = Some s ∧ DecodeBase58Check (c_str s) = Some r ∧ ∀ data, r = Some data → n - 4 < size data.
Proof.
  intros Hok Hb Hlo H1 H2. destruct (base58check (b :: d) Hok) as (e & E & Ec & _). destruct (checked_ok (b :: d) Hok) as [Hok' Hn']. pose proof (encode_chars _ _ Hok' E) as Hch.
  change (checked (b :: d)) with (b :: (d ++ take 4 (CHash256 (b :: d)))) in *. set (t := d ++ take 4 _) in *.
  assert (size t = size d + 4) as Ht by (unfold size in *; cbn [length] in Hn'; lia).
  destruct (encode_length _ _ Hok' E) as [_ Hlen]. destruct Hlen as [_ R2]; [split; [done|]; cbn; intros [= ?]; lia|done|].
  assert (lo < size e) as Hsz.
  { apply (Z.pow_lt_mono_r_iff 58); [lia|apply size_nonneg|]. eapply Z.le_lt_trans; [|exact R2]. change (b :: t) with ([b] ++ t). rewrite bev_app, Ht.
    replace (bev 256 [b]) with b by (cbn; lia). apply Forall_cons in Hok' as [_ Htok]. pose proof (bev_range 256 t ltac:(lia) Htok). lia. }
  assert (size (chars "SL" ++ e) = 2 + size e) as Hse by (by rewrite size_app).
  destruct (decoded_size (chars "SL" ++ e) n) as (r & Er & Hr); [|done|lia| |by exists (chars "SL" ++ e), r].
  - apply Forall_app. split; [|done]. change (chars "SL") with [83; 76]. apply Forall_cons. split; [lia|]. apply Forall_singleton. lia.
  - transitivity (58 ^ (lo + 2)); [done|]. apply Z.pow_le_mono_r; lia.
Qed.
Lemma ext_text_refused prefix code tail : prefix = 4 :: tail → length tail = 3%nat → bytes_ok (prefix ++ code) → length code = BIP32_EXTKEY_SIZE →
  ∃ s r, EncodeBase58Check (prefix ++ code) = Some s ∧ DecodeBase58Check (c_str s) = Some r ∧ ∀ data, r = Some data → after_prefix prefix data BIP32_EXTKEY_SIZE = None.
Proof.
  intros -> Ht Hok Hc. cbn [app] in Hok. assert (size (tail ++ code) + 4 = 81) as Hs by (unfold size; rewrite length_app, Ht, Hc; reflexivity).
  destruct (prefixed_text 4 (tail ++ code) 110 82) as (s & r & E & D & Hr); [done|lia|lia|rewrite Hs; lia|lia|]. exists s, r. split_and!; [done|done|]. intros data Hd%Hr.
  unfold after_prefix. rewrite (proj2 (Nat.eqb_neq _ _)); [done|]. cbn [length]. rewrite Ht. unfold size in Hd. unfold BIP32_EXTKEY_SIZE. lia.
Qed.
Lemma secret_text_refused params seckey_verify b key : SECRET_KEY params = [b] → 128 ≤ b ≤ 255 → bytes_ok (keydata key) → size (keydata key) = 32 →
  (EncodeSecret params key ≫= DecodeSecret params seckey_verify) = Some None.
Proof.
  intros Eb Hb Hk Hn. unfold EncodeSecret, DecodeSecret. rewrite Eb. set (d := keydata key ++ _).
  assert (bytes_ok (b :: d)) as Hok by (constructor; [unfold is_byte; lia|]; apply Forall_app; split; [done|]; destruct (fCompressed key); by repeat constructor).
  assert (36 ≤ size d + 4) as Hd by (subst d; rewrite size_app; pose proof (size_nonneg (if fCompressed key then [1] else [])); lia).
  assert (256 ^ 36 ≤ 256 ^ (size d + 4)) by (apply Z.pow_le_mono_r; lia).
  destruct (prefixed_text b d 50 38) as (s & r & E & D & Hr); [done|lia|lia|nia|lia|]. cbn [app]. rewrite E. cbn [mbind option_bind]. rewrite D. cbn [mbind option_bind].
  f_equal. destruct r as [data|]; [|done]. specialize (Hr data eq_refl). cbn [length]. unfold size in Hr.
  cbn [mbind option_bind Nat.add]. rewrite (proj2 (Nat.eqb_neq (length data) 33)), (proj2 (Nat.eqb_neq (length data) 34)) by lia. done.
Qed.
End Refused.

(** C31: No key survives its own text.  On each of the three chains, whatever the hash
    functions and the elliptic curve library are: the text that [EncodeSecret] makes of
    any private key of 32 bytes, compressed or not, is refused by [DecodeSecret], and
    the texts of any extended private key and any extended public key are refused by
    [DecodeExtKey] and [DecodeExtPubKey].  The "SL" in front is taken away only from
    texts of 36 characters; these texts are longer, and with "SL" as digits they stand
    for more bytes than a key has. *)
Theorem secret_not_read_back `{C : Crypto} `{HC : !CryptoSizes C} `{HB : !CryptoBytes C} params seckey_verify key xkey xpub :
  params ∈ [main_prefixes; testnet_prefixes; regtest_prefixes] →
  bytes_ok (keydata key) → size (keydata key) = 32 → ext_ok 32 xkey → ext_ok 33 xpub →
  (EncodeSecret params key ≫= DecodeSecret params seckey_verify) = Some None ∧
  (EncodeExtKey params xkey ≫= DecodeExtKey params seckey_verify) = Some None ∧
  (EncodeExtPubKey params xpub ≫= DecodeExtPubKey params) = Some None.
Proof.
  intros Hp Hk Hn Hx Hy.
  assert ((∃ b, SECRET_KEY params = [b] ∧ 128 ≤ b ≤ 255) ∧ (∃ t, EXT_SECRET_KEY params = 4 :: t ∧ length t = 3%nat ∧ bytes_ok (4 :: t)) ∧
    ∃ t, EXT_PUBLIC_KEY params = 4 :: t ∧ length t = 3%nat ∧ bytes_ok (4 :: t)) as ((b & Eb & Hb) & (t & Et & Lt & Ht) & u & Eu & Lu & Hu).
  { set_unfold in Hp; destruct Hp as [->|[->|[->|[]]]]; (split_and!; eexists; (split; [reflexivity|]); [lia|split; [done|by repeat constructor]..]). }
  split_and!; [by apply (secret_text_refused params seckey_verify b)|..].
  - destruct (ext_fields_read xkey [0] 32 Hx) as (_ & _ & L). fold (CExtKey_Encode xkey) in L.
    destruct (ext_text_refused (EXT_SECRET_KEY params) (CExtKey_Encode xkey) t) as (s & r & E & D & Hr); [done|done| |exact L|].
    { rewrite Et. apply Forall_app. split; [done|]. apply (code_ok 32 xkey [0]); [done|by repeat constructor]. }
    unfold EncodeExtKey. rewrite E. cbn [mbind option_bind]. unfold DecodeExtKey. rewrite D. cbn [mbind option_bind]. f_equal. destruct r as [data|]; [|done]. cbn [mbind option_bind]. by rewrite Hr.
  - destruct (ext_fields_read xpub [] 33 Hy) as (_ & _ & L). cbn [app] in L. fold (CExtPubKey_Encode xpub) in L.
    destruct (ext_text_refused (EXT_PUBLIC_KEY params) (CExtPubKey_Encode xpub) u) as (s & r & E & D & Hr); [done|done| |exact L|].
    { rewrite Eu. apply Forall_app. split; [done|]. apply (code_ok 33 xpub []); [done|by constructor]. }
    unfold EncodeExtPubKey. rewrite E. cbn [mbind option_bind]. unfold DecodeExtPubKey. rewrite D. cbn [mbind option_bind]. f_equal. destruct r as [data|]; [|done]. cbn [mbind option_bind]. by rewrite Hr.
Qed.
Definition sample_xpub : CExtKey := mk_extkey 0 (replicate 4 0) 0 (replicate 32 5) (2 :: replicate 32 1).
Lemma secret_not_read_back_witness :
  (@EncodeSecret (Hashes (λ _, true)) main_prefixes sample_key ≫= @DecodeSecret (Hashes (λ _, true)) main_prefixes (λ _, true)) = Some None ∧
  (@EncodeExtKey (Hashes (λ _, true)) testnet_prefixes sample_xkey ≫= @DecodeExtKey (Hashes (λ _, true)) testnet_prefixes (λ _, true)) = Some None.
Proof.
  assert (bytes_ok (keydata sample_key)) as H1 by (by apply Forall_replicate).
  assert (ext_ok 32 sample_xkey) as H2 by (split_and!; try reflexivity; try (by apply Forall_replicate); done).
  assert (ext_ok 33 sample_xpub) as H3 by (split_and!; try reflexivity; try (by apply Forall_replicate); try done; constructor; [done|by apply Forall_replicate]).
  split.
  - apply (@secret_not_read_back (Hashes (λ _, true)) _ _ main_prefixes (λ _, true) sample_key sample_xkey sample_xpub); [set_solver|exact H1|reflexivity|exact H2|exact H3].
  - apply (@secret_not_read_back (Hashes (λ _, true)) _ _ testnet_prefixes (λ _, true) sample_key sample_xkey sample_xpub); [set_solver|exact H1|reflexivity|exact H2|exact H3].
Defined.
