(* ===== verification/Keccak.v ===== *)
(** * Keccak-256 and the encoding of data (libdevcore/SHA3.cpp, libdevcore/RLP.cpp)

    The hash of the contract state.  The permutation of the source works in place, with
    the rotations and the permutation of the lanes in one loop; it is shown to be the
    composition of the five mappings of FIPS 202. *)
From S2P Require Import Prelude ArithUint256 Script Serialize.

Definition rho : list Z := [1; 3; 6; 10; 15; 21; 28; 36; 45; 55; 2; 14; 27; 41; 56; 8; 25; 43; 62; 18; 39; 61; 20; 44].
Definition pi : list nat := [10; 7; 11; 17; 18; 3; 5; 16; 8; 21; 24; 4; 15; 23; 19; 13; 12; 2; 20; 14; 22; 9; 6; 1]%nat.
Definition RC : list Z := [
  1; 0x8082; 0x800000000000808a; 0x8000000080008000; 0x808b; 0x80000001; 0x8000000080008081; 0x8000000000008009;
  0x8a; 0x88; 0x80008009; 0x8000000a; 0x8000808b; 0x800000000000008b; 0x8000000000008089; 0x8000000000008003;
  0x8000000000008002; 0x8000000000000080; 0x800a; 0x800000008000000a; 0x8000000080008081; 0x8000000000008080; 0x80000001; 0x8000000080008008].
Definition rol64 (x s : Z) : Z := u64 (x <<' s) |' (x >>' (64 - s)).
Definition not64 (x : Z) : Z := x ^' (2 ^ 64 - 1).
(** [FOR5(v, s, e)]: the values of the variable. *)
Definition for5 (s : nat) : list nat := [0; s; 2 * s; 3 * s; 4 * s]%nat.

(** The state is 25 lanes; [b] is the small array. *)
Definition theta (a : list Z) : list Z :=
  let b := (λ x, foldl (λ v y, v ^' nth (x + y) a 0) 0 (for5 5)) <$> for5 1 in
  foldl (λ a x, foldl (λ a y, alter (λ v, v ^' (nth ((x + 4) mod 5) b 0 ^' rol64 (nth ((x + 1) mod 5) b 0) 1)) (y + x)%nat a) a (for5 5)) a (for5 1).
Definition rho_pi (a : list Z) : list Z :=
  (foldl (λ '(a, t) '(p, r), (<[p := rol64 t r]> a, nth p a 0)) (a, nth 1 a 0) (zip pi rho)).1.
Definition chi (a : list Z) : list Z :=
  foldl (λ a y, let b := (λ x, nth (y + x) a 0) <$> for5 1 in
    foldl (λ a x, <[(y + x)%nat := nth x b 0 ^' (not64 (nth ((x + 1) mod 5) b 0) &' nth ((x + 2) mod 5) b 0)]> a) a (for5 1)) a (for5 5).
Definition iota (rc : Z) (a : list Z) : list Z := alter (λ v, v ^' rc) 0%nat a.
Definition keccakf (a : list Z) : list Z := foldl (λ a rc, iota rc (chi (rho_pi (theta a)))) a RC.

(** The state as bytes, on a machine with the low byte first. *)
Fixpoint lanes (n : nat) (a : bytes) : list Z := match n with O => [] | S n => le_value (take 8 a) :: lanes n (drop 8 a) end.
Definition P (a : bytes) : bytes := keccakf (lanes 25 a) ≫= ser_writedata 8.
Definition xorin (dst src : bytes) : bytes := zip_with Z.lxor dst src ++ drop (length src) dst.
(** [foldP] over the input; [fuel] bounds the blocks. *)
Fixpoint absorb (fuel rate : nat) (a inp : bytes) : bytes * bytes :=
  match fuel with
  | O => (a, inp)
  | S fuel => if (rate <=? length inp)%nat then absorb fuel rate (P (xorin a (take rate inp))) (drop rate inp) else (a, inp)
  end.
Fixpoint squeeze (fuel rate : nat) (a : bytes) (outlen : nat) : bytes * bytes * nat :=
  match fuel with
  | O => ([], a, outlen)
  | S fuel =>
      if (rate <=? outlen)%nat
      then let '(o, a', n) := squeeze fuel rate (P a) (outlen - rate) in (take rate a ++ o, a', n)
      else ([], a, outlen)
  end.
(** [None]: the result -1. *)
Definition hash_sponge (outlen : nat) (inp : bytes) (rate : nat) (delim : Z) : option bytes :=
  if (200 <=? rate)%nat then None
  else
    let '(a, rest) := absorb (length inp) rate (replicate 200 0) inp in
    let a := alter (λ v, v ^' delim) (length rest) a in
    let a := alter (λ v, v ^' 0x80) (rate - 1)%nat a in
    let a := P (xorin a rest) in
    let '(o, a, n) := squeeze outlen rate a outlen in
    Some (o ++ take n a).
Definition sha3_256 (outlen : nat) (inp : bytes) : option bytes :=
  if (256 / 8 <? outlen)%nat then None else hash_sponge outlen inp (200 - 256 / 4) 0x01.
Definition sha3 (inp : bytes) : bytes := default [] (sha3_256 32 inp).

(** ** RLP of data *)

(** The bytes of a positive number, the highest first; [fuel] bounds them. *)
Fixpoint be_bytes (fuel : nat) (x : Z) : bytes :=
  match fuel with
  | O => []
  | S fuel => if x =? 0 then [] else be_bytes fuel (x >>' 8) ++ [x &' 255]
  end.
Definition c_rlpDataImmLenStart : Z := 0x80.
Definition c_rlpDataImmLenCount : Z := 0xc0 - 0x80 - 8.
Definition c_rlpDataIndLenZero : Z := 0x80 + c_rlpDataImmLenCount - 1.
Definition rlp (s : bytes) : bytes :=
  match s with
  | [d] => if d <? c_rlpDataImmLenStart then [d] else [u8 (1 + c_rlpDataImmLenStart); d]
  | _ =>
      if size s <? c_rlpDataImmLenCount then u8 (size s + c_rlpDataImmLenStart) :: s
      else let n := be_bytes 8 (size s) in u8 (size n + c_rlpDataIndLenZero) :: n ++ s
  end.

(** ** FIPS 202 *)

Module Fips202.
(** Lane [(x, y)] of a state. *)
Definition lane (A : list Z) (x y : nat) : Z := nth (x mod 5 + 5 * (y mod 5)) A 0.
Definition make (f : nat → nat → Z) : list Z := (λ i, f (i mod 5)%nat (i / 5)%nat) <$> seq 0 25.
Definition rot (n x : Z) : Z := u64 (x <<' n) |' (x >>' (64 - n)).
Definition column (A : list Z) (x : nat) : Z := lane A x 0 ^' lane A x 1 ^' lane A x 2 ^' lane A x 3 ^' lane A x 4.
Definition theta (A : list Z) : list Z := make (λ x y, lane A x y ^' (column A (x + 4) ^' rot 1 (column A (x + 1)))).
(** The offsets: (t + 1)(t + 2) / 2 along the walk that starts at (1, 0). *)
Fixpoint walk (n t : nat) (x y : nat) : list (nat * nat * Z) :=
  match n with O => [] | S n => (x, y, Z.of_nat ((t + 1) * (t + 2) / 2 mod 64)) :: walk n (S t) y ((2 * x + 3 * y) mod 5) end.
Definition offset (x y : nat) : Z :=
  match list_find (λ p, p.1 = (x, y)) (walk 24 0 1 0) with Some (_, p) => p.2 | None => 0 end.
Definition rho (A : list Z) : list Z := make (λ x y, if decide (x = 0%nat ∧ y = 0%nat) then lane A x y else rot (offset x y) (lane A x y)).
Definition pi (A : list Z) : list Z := make (λ x y, lane A (x + 3 * y) x).
Definition chi (A : list Z) : list Z := make (λ x y, lane A x y ^' (not64 (lane A (x + 1) y) &' lane A (x + 2) y)).
(** The constants of the rounds, from the shift register of the standard. *)
Definition rc_step (R : Z) : Z := let R := R * 2 in if Z.testbit R 8 then R ^' 0x171 else R.
Definition rc_bit (t : nat) : bool := Z.testbit (Nat.iter (t mod 255) rc_step 1) 0.
Definition round_constant (ir : nat) : Z :=
  foldl (λ v j, if rc_bit (j + 7 * ir) then v + 2 ^ (2 ^ Z.of_nat j - 1) else v) 0 (seq 0 7).
Definition iota (ir : nat) (A : list Z) : list Z := make (λ x y, if decide (x = 0%nat ∧ y = 0%nat) then lane A x y ^' round_constant ir else lane A x y).
Definition round (A : list Z) (ir : nat) : list Z := iota ir (chi (pi (rho (theta A)))).
Definition keccak_f (A : list Z) : list Z := foldl round A (seq 0 24).
(** The sponge with 136 bytes of rate, the padding 1 0* 1 after no suffix, and an
    output of 256 bits. *)
Definition f1600 (S : bytes) : bytes := keccak_f (lanes 25 S) ≫= ser_writedata 8.
Definition pad (n : nat) : bytes :=
  let q := (136 - n mod 136)%nat in if decide (q = 1%nat) then [0x81] else 0x01 :: replicate (q - 2) 0 ++ [0x80].
Fixpoint absorb (n : nat) (S m : bytes) : bytes :=
  match n with O => S | Datatypes.S n => absorb n (f1600 (zip_with Z.lxor S (take 136 m ++ replicate 64 0))) (drop 136 m) end.
Definition keccak256 (m : bytes) : bytes :=
  let p := m ++ pad (length m) in take 32 (absorb (length p / 136) (replicate 200 0) p).
End Fips202.

Lemma round_constants : RC = Fips202.round_constant <$> seq 0 24.
Proof. vm_compute. reflexivity. Qed.

(** ** The mappings agree *)

Lemma length_25 (l : list Z) : length l = 25%nat →
  ∃ a0 a1 a2 a3 a4 a5 a6 a7 a8 a9 a10 a11 a12 a13 a14 a15 a16 a17 a18 a19 a20 a21 a22 a23 a24,
    l = [a0; a1; a2; a3; a4; a5; a6; a7; a8; a9; a10; a11; a12; a13; a14; a15; a16; a17; a18; a19; a20; a21; a22; a23; a24].
Proof. intros H. do 25 (destruct l as [|? l]; [discriminate H|]). destruct l; [|discriminate H]. by repeat eexists. Qed.
Ltac lanes H := destruct (length_25 _ H) as (a0 & a1 & a2 & a3 & a4 & a5 & a6 & a7 & a8 & a9 & a10 & a11 & a12 & a13 & a14 & a15 & a16 & a17 & a18 & a19 & a20 & a21 & a22 & a23 & a24 & ->).
Lemma make_length f : length (Fips202.make f) = 25%nat.
Proof. unfold Fips202.make. by rewrite length_fmap, length_seq. Qed.
Lemma theta_fips A : length A = 25%nat → theta A = Fips202.theta A.
Proof.
  intros H. lanes H. unfold theta. cbn -[Z.lxor rol64]. rewrite !Z.lxor_0_l. reflexivity.
Qed.
(** For any rotation. *)
Lemma rho_pi_any (R : Z → Z → Z) A : length A = 25%nat →
  (foldl (λ '(a, t) '(p, r), (<[p := R t r]> a, nth p a 0)) (A, nth 1 A 0) (zip pi rho)).1 =
  Fips202.pi (Fips202.make (λ x y, if decide (x = 0%nat ∧ y = 0%nat) then Fips202.lane A x y else R (Fips202.lane A x y) (Fips202.offset x y))).
Proof. intros H. lanes H. vm_compute. reflexivity. Qed.
Lemma rho_pi_fips A : length A = 25%nat → rho_pi A = Fips202.pi (Fips202.rho A).
Proof.
  intros H. unfold rho_pi. rewrite (rho_pi_any rol64 A H). f_equal.
Qed.
Lemma chi_fips A : length A = 25%nat → chi A = Fips202.chi A.
Proof. intros H. lanes H. unfold chi. cbn -[Z.lxor not64 Z.land]. reflexivity. Qed.
Lemma iota_fips A ir : length A = 25%nat → iota (Fips202.round_constant ir) A = Fips202.iota ir A.
Proof. intros H. lanes H. unfold iota, Fips202.iota. generalize (Fips202.round_constant ir). intros c. reflexivity. Qed.
Lemma keccakf_fips A : length A = 25%nat → keccakf A = Fips202.keccak_f A.
Proof.
  unfold keccakf, Fips202.keccak_f. rewrite round_constants. generalize (seq 0 24). intros l. revert A. induction l as [|ir l IH]; intros A HA; [done|].
  cbn [fmap list_fmap foldl]. unfold Fips202.round at 2. rewrite theta_fips, rho_pi_fips by (done || apply make_length).
  rewrite chi_fips, iota_fips by apply make_length. apply IH, make_length.
Qed.

(** ** The sponge *)

Lemma lanes_length n : ∀ a, length (lanes n a) = n.
Proof. induction n as [|n IH]; intros a; [done|]. cbn [lanes length]. by rewrite IH. Qed.
Lemma P_fips a : P a = Fips202.f1600 a.
Proof. unfold P, Fips202.f1600. by rewrite keccakf_fips by apply lanes_length. Qed.
Lemma keccak_f_length A : length A = 25%nat → length (Fips202.keccak_f A) = 25%nat.
Proof.
  unfold Fips202.keccak_f. generalize (seq 0 24). intros l. revert A. induction l as [|ir l IH]; intros A HA; [done|]. cbn [foldl]. apply IH, make_length.
Qed.
Lemma f1600_length a : length (Fips202.f1600 a) = 200%nat.
Proof.
  unfold Fips202.f1600. pose proof (keccak_f_length (lanes 25 a) (lanes_length 25 a)) as H. revert H. generalize (Fips202.keccak_f (lanes 25 a)). intros l H.
  lanes H. done.
Qed.
(** Bytes by their index, zero outside. *)
Lemma nth_zip (a b : bytes) i : length a = length b → nth i (zip_with Z.lxor a b) 0 = nth i a 0 ^' nth i b 0.
Proof.
  revert b i. induction a as [|x a IH]; intros [|y b] i Hl; try done; [by destruct i|]. destruct i as [|i]; [done|]. cbn. apply IH. cbn in Hl. lia.
Qed.
Lemma nth_xorin dst src i : (length src ≤ length dst)%nat → nth i (xorin dst src) 0 = nth i dst 0 ^' nth i src 0.
Proof.
  unfold xorin. revert src i. induction dst as [|x dst IH]; intros src i Hl; [destruct src; [by destruct i|cbn in Hl; lia]|].
  destruct src as [|y src]; [cbn [zip_with app length drop]; destruct i; cbn; by rewrite Z.lxor_0_r|].
  destruct i as [|i]; [done|]. cbn in Hl |- *. apply IH. lia.
Qed.
Lemma nth_alter (a : bytes) k d i : nth i (alter (λ v, v ^' d) k a) 0 = nth i a 0 ^' (if decide (i = k ∧ (k < length a)%nat) then d else 0).
Proof.
  rewrite !nth_lookup. destruct (decide (i = k)) as [->|Hne].
  - rewrite list_lookup_alter_eq. destruct (a !! k) eqn:E; cbn.
    + rewrite decide_True; [done|]. split; [done|]. by eapply lookup_lt_Some.
    + rewrite decide_False; [done|]. intros [_ Hk]. apply lookup_ge_None_1 in E. lia.
  - rewrite list_lookup_alter_ne by done. rewrite decide_False by tauto. by rewrite Z.lxor_0_r.
Qed.
Lemma bytes_eq (a b : bytes) n : length a = n → length b = n → (∀ i, (i < n)%nat → nth i a 0 = nth i b 0) → a = b.
Proof. intros Ha Hb H. apply (nth_ext a b 0 0); [lia|]. intros i Hi. apply H. lia. Qed.
Lemma length_xorin dst src : (length src ≤ length dst)%nat → length (xorin dst src) = length dst.
Proof. intros Hl. unfold xorin. rewrite length_app, length_zip_with, length_drop. lia. Qed.
Lemma nth_zeros i n : nth i (replicate n 0) 0 = 0.
Proof. revert i. induction n as [|n IH]; intros [|i]; cbn; auto. Qed.
Lemma nth_app_zeros (l : bytes) n i : nth i (l ++ replicate n 0) 0 = nth i l 0.
Proof.
  destruct (decide (i < length l)%nat); [by rewrite app_nth1|]. rewrite app_nth2 by lia. rewrite nth_zeros. symmetry. apply nth_overflow. lia.
Qed.
Lemma xorin_block a blk : length a = 200%nat → length blk = 136%nat → xorin a blk = zip_with Z.lxor a (blk ++ replicate 64 0).
Proof.
  intros Ha Hb. assert (length (blk ++ replicate 64 0) = 200%nat) as Hl by (rewrite length_app, length_replicate; lia).
  apply (bytes_eq _ _ 200); [rewrite length_xorin; lia|rewrite length_zip_with; lia|]. intros i Hi.
  by rewrite nth_xorin, nth_zip, nth_app_zeros by lia.
Qed.
Lemma keccak_pad_length n : (n < 136)%nat → length (Fips202.pad n) = (136 - n)%nat.
Proof.
  intros Hn. unfold Fips202.pad. rewrite Nat.mod_small by done. destruct (decide _) as [->|]; [done|].
  cbn [length]. rewrite length_app, length_replicate. cbn. lia.
Qed.
Lemma nth_pad n j : (n < 136)%nat → nth j (Fips202.pad n) 0 = (if decide (j = 0%nat) then 0x01 else 0) ^' (if decide (n + j = 135)%nat then 0x80 else 0).
Proof.
  intros Hn. unfold Fips202.pad. rewrite Nat.mod_small by done. destruct (decide (136 - n = 1)%nat) as [E|E].
  - destruct j as [|j]; [rewrite !decide_True by lia; done|]. rewrite decide_False by lia. destruct (decide _); [lia|]. by destruct j.
  - destruct j as [|j]; [rewrite decide_True, decide_False by lia; done|]. cbn [nth]. rewrite decide_False by lia. rewrite Z.lxor_0_l.
    destruct (decide (n + S j = 135)%nat) as [E'|E'].
    + rewrite app_nth2, length_replicate by (rewrite length_replicate; lia). by replace (j - (136 - n - 2))%nat with 0%nat by lia.
    + destruct (decide (j < 136 - n - 2)%nat); [rewrite app_nth1 by (rewrite length_replicate; lia); apply nth_zeros|].
      apply nth_overflow. rewrite length_app, length_replicate. cbn. lia.
Qed.
(** The last block: the rest of the input, and the two bits. *)
Lemma last_block a rest : length a = 200%nat → (length rest < 136)%nat →
  xorin (alter (λ v, v ^' 0x80) 135%nat (alter (λ v, v ^' 0x01) (length rest) a)) rest =
  zip_with Z.lxor a ((rest ++ Fips202.pad (length rest)) ++ replicate 64 0).
Proof.
  intros Ha Hr. pose proof (keccak_pad_length (length rest) Hr) as Hp.
  apply (bytes_eq _ _ 200); [rewrite length_xorin; rewrite !length_alter; lia|rewrite length_zip_with, !length_app, length_replicate, Hp; lia|]. intros i Hi.
  rewrite nth_xorin, nth_zip, nth_app_zeros, !nth_alter, length_alter by (rewrite ?length_alter, ?length_app, ?length_replicate; lia).
  rewrite !Z.lxor_assoc. f_equal. destruct (decide (i < length rest)%nat) as [Hi'|Hi'].
  - rewrite app_nth1 by done. rewrite !decide_False by lia. by rewrite !Z.lxor_0_l.
  - rewrite (nth_overflow rest), app_nth2, nth_pad by lia. rewrite Z.lxor_0_r.
    destruct (decide (i = length rest ∧ _)), (decide (i - length rest = 0)%nat), (decide (i = 135%nat ∧ _)), (decide (length rest + (i - length rest) = 135)%nat); try lia; done.
Qed.
Lemma mod_136 n : (n mod 136 < 136)%nat ∧ Fips202.pad n = Fips202.pad (n mod 136).
Proof. split; [by apply Nat.mod_upper_bound|]. unfold Fips202.pad. by rewrite Nat.Div0.mod_mod. Qed.
Lemma absorb_spec fuel : ∀ a inp, length a = 200%nat → (length inp < 136 * fuel + 136)%nat →
  let '(a', rest) := absorb fuel 136 a inp in
  length a' = 200%nat ∧ length rest = (length inp mod 136)%nat ∧
  Fips202.absorb (length (inp ++ Fips202.pad (length inp)) / 136) a (inp ++ Fips202.pad (length inp)) =
    Fips202.f1600 (zip_with Z.lxor a' ((rest ++ Fips202.pad (length rest)) ++ replicate 64 0)).
Proof.
  assert (∀ a inp, length a = 200%nat → (length inp < 136)%nat → length a = 200%nat ∧ length inp = (length inp mod 136)%nat ∧
    Fips202.absorb (length (inp ++ Fips202.pad (length inp)) / 136) a (inp ++ Fips202.pad (length inp)) =
    Fips202.f1600 (zip_with Z.lxor a ((inp ++ Fips202.pad (length inp)) ++ replicate 64 0))) as Hlast.
  { intros a inp Ha Hi. split_and!; [done|by rewrite Nat.mod_small|]. rewrite length_app, keccak_pad_length by done.
    replace ((length inp + (136 - length inp)) / 136)%nat with 1%nat by (replace (length inp + (136 - length inp))%nat with 136%nat by lia; done).
    cbn [Fips202.absorb]. rewrite take_ge by (rewrite length_app, keccak_pad_length by done; lia). done. }
  induction fuel as [|fuel IH]; intros a inp Ha Hi; cbn [absorb]; [apply Hlast; [done|lia]|].
  destruct (Nat.leb_spec 136 (length inp)) as [Hle|Hlt]; [|by apply Hlast].
  rewrite P_fips, xorin_block by (try done; rewrite length_take; lia).
  specialize (IH (Fips202.f1600 (zip_with Z.lxor a (take 136 inp ++ replicate 64 0))) (drop 136 inp) (f1600_length _)).
  rewrite length_drop in IH. specialize (IH ltac:(lia)). destruct (absorb fuel 136 _ _) as [a' rest]. destruct IH as (H1 & H2 & H3).
  assert ((length inp - 136) mod 136 = length inp mod 136)%nat as Hm.
  { replace (length inp) with (length inp - 136 + 1 * 136)%nat at 2 by lia. by rewrite Nat.Div0.mod_add. }
  assert (Fips202.pad (length inp - 136) = Fips202.pad (length inp)) as Hpad by (unfold Fips202.pad; by rewrite Hm).
  split_and!; [done|by rewrite H2, Hm|]. rewrite <- H3, Hpad, !length_app, length_drop.
  replace (length inp + length (Fips202.pad (length inp)))%nat with (1 * 136 + (length inp - 136 + length (Fips202.pad (length inp))))%nat by lia.
  rewrite Nat.div_add_l by done. cbn [Nat.add Fips202.absorb]. by rewrite take_app_le, drop_app_le by lia.
Qed.
(** The hash of the contract state is Keccak-256: the in-place permutation of the
    source is the composition of the five mappings of FIPS 202 with their computed
    offsets and constants, and absorbing whole blocks and then the rest with the two
    padding bits is the sponge on the padded message. *)
Theorem keccak256_correct inp : sha3 inp = Fips202.keccak256 inp.
Proof.
  unfold sha3, sha3_256, hash_sponge, Fips202.keccak256. change (256 / 8 <? 32)%nat with false. change (200 - 256 / 4)%nat with 136%nat.
  change (200 <=? 136)%nat with false. cbv iota. pose proof (absorb_spec (length inp) (replicate 200 0) inp eq_refl ltac:(lia)) as H.
  destruct (absorb (length inp) 136 _ inp) as [a rest]. destruct H as (Ha & Hr & ->). pose proof (Nat.mod_upper_bound (length inp) 136 ltac:(lia)).
  change (136 - 1)%nat with 135%nat. rewrite last_block, P_fips by lia. set (S := Fips202.f1600 _). cbn [squeeze]. by cbn [default app].
Qed.
