(* ===== verification/Genesis.v ===== *)
(** * The first block of each chain (chainparams.cpp)

    [CreateGenesisBlock], and the assertions the program makes about its hash and its
    Merkle root when it starts, checked with the hash functions of the source. *)
From S2P Require Import Prelude ArithUint256 Script Interpreter Serialize Transaction Block Strings Keccak HashFunctions Pow.

Section Genesis.
Context `{Crypto}.

Definition genesis_tx (pszTimestamp : bytes) (genesisOutputScript : CScript) (genesisReward : Z) : CTransaction :=
  let scriptSig := push_data (push_data (push_int64 (push_int64 [] 0) 488804799) (ScriptNum.serialize 4)) pszTimestamp in
  mk_tx [mk_txin null_outpoint scriptSig SEQUENCE_FINAL []] [mk_txout genesisReward genesisOutputScript] 1 0.
Definition CreateGenesisBlock_script (pszTimestamp : bytes) (genesisOutputScript : CScript) (nTime nNonce nBits nVersion genesisReward : Z) : CBlock :=
  let txs := [genesis_tx pszTimestamp genesisOutputScript genesisReward] in
  let root := (BlockMerkleRoot (mk_block null_header txs)).1 in
  mk_block
    (mk_header nVersion null_hash root nTime nBits nNonce
       (ParseHex (chars "e965ffd002cd6ad0e2dc402b8044de833e06b23127ea8c3d80aec91410771495")) (sha3 (rlp [])) null_outpoint [])
    txs.
Definition CreateGenesisBlock (nTime nNonce nBits nVersion genesisReward : Z) : CBlock :=
  let pszTimestamp := chars "The silubium second edition(SLU) software released. The price is $0.09055" in
  let genesisOutputScript := push_opcode (push_data [] (ParseHex (chars
    "040d61d8653448c98731ee5fffd303c15e71ec2057b77f11ab3601979728cdaff2d68afbba14e4fa0bc44f2072b0b23ef63717f8cdfbe58dcd33f32b6afe98741a"))) OP_CHECKSIG in
  CreateGenesisBlock_script pszTimestamp genesisOutputScript nTime nNonce nBits nVersion genesisReward.

Definition main_genesis : CBlock := CreateGenesisBlock 1532770381 35869 0x1f00ffff 1 (50 * COIN).
Definition testnet_genesis : CBlock := CreateGenesisBlock 1532770711 7523 0x1f00ffff 1 (50 * COIN).
Definition regtest_genesis : CBlock := CreateGenesisBlock 1532770711 7523 0x1f00ffff 1 (50 * COIN).
End Genesis.

(** ** The parameters of the difficulty *)

Definition main_params : Params :=
  mk_params (uint256S (chars "0000ffffffffffffffffffffffffffffffffffffffffffffffffffffffffffff"))
    (uint256S (chars "00000000ffffffffffffffffffffffffffffffffffffffffffffffffffffffff")) false true false (2 * 64) (16 * 60).
Definition testnet_params : Params :=
  mk_params (uint256S (chars "0000ffffffffffffffffffffffffffffffffffffffffffffffffffffffffffff"))
    (uint256S (chars "0000ffffffffffffffffffffffffffffffffffffffffffffffffffffffffffff")) false true false (2 * 64) (16 * 60).
Definition regtest_params : Params :=
  mk_params (uint256S (chars "7fffffffffffffffffffffffffffffffffffffffffffffffffffffffffffffff"))
    (uint256S (chars "7fffffffffffffffffffffffffffffffffffffffffffffffffffffffffffffff")) true true true (2 * 64) (16 * 60).

(** What the constructor of each chain's parameters asserts. *)
Definition genesis_asserts `{Crypto} (b : CBlock) (block_hash merkle_root : string) : bool :=
  bool_decide (GetBlockHash (header b) = uint256S (chars block_hash)) && bool_decide (hashMerkleRoot (header b) = uint256S (chars merkle_root)).
Definition has_work `{Crypto} (b : CBlock) (params : Params) : bool :=
  CheckProofOfWork (GetBlockHash (header b)) (nBits_blk (header b)) params false.

(** The program starts: with the hash functions of the source the assertions about
    the first block of each of the three chains hold, and its header has the work that
    its target demands. *)
Theorem genesis_assertions_hold lowS :
  let C := Hashes lowS in
  (genesis_asserts main_genesis "0x00001d10d5f89e792a149a66d48a89037f8c915c29f2cfd4f251cd2bab216b3b"
     "0xb105667bffbd7e59f2f0c49e4386438caef9376b9292e119b216b04346064898" = true ∧ has_work main_genesis main_params = true) ∧
  (genesis_asserts testnet_genesis "0x00007277f7e3dd31107c9033a619b8d5885ff5da8561979754cdf1cf74f87ee5"
     "0xb105667bffbd7e59f2f0c49e4386438caef9376b9292e119b216b04346064898" = true ∧ has_work testnet_genesis testnet_params = true) ∧
  (genesis_asserts regtest_genesis "0x00007277f7e3dd31107c9033a619b8d5885ff5da8561979754cdf1cf74f87ee5"
     "0xb105667bffbd7e59f2f0c49e4386438caef9376b9292e119b216b04346064898" = true ∧ has_work regtest_genesis regtest_params = true).
Proof. cbv zeta. split_and!; vm_compute; reflexivity. Qed.
(** The parameters of the chains are those the theorems on the difficulty ask for. *)
Lemma chain_params_ok : params_ok main_params ∧ params_ok testnet_params ∧ params_ok regtest_params.
Proof. split_and!; (split; [|split; [|split; vm_compute; (split; [reflexivity || discriminate|reflexivity])]]); unfold bytes_ok; vm_compute; repeat constructor; discriminate. Qed.
