(* ===== verification/Compressor.v ===== *)
(** * Compressed coins (compressor.h/.cpp, Coin of coins.h, undo.h)

    How coins and undo records are written to disk: amounts without their trailing
    zeros, the usual scripts by their hash or key, and everything read back.  The
    operations on curve points are the class [CurveKeys]. *)
From S2P Require Import Prelude ArithUint256 Script Interpreter InterpreterFacts InterpreterSpecs Serialize Transaction Standard Coins TxVerify.

(** ** Amounts *)

(** The loop that removes zeros: the rest and their number, at most nine. *)
Fixpoint strip_zeros (fuel : nat) (n e : Z) : Z * Z :=
  match fuel with
  | O => (n, e)
  | S fuel => if (n mod 10 =? 0) && (e <? 9) then strip_zeros fuel (n / 10) (e + 1) else (n, e)
  end.
Definition CompressAmount (n : Z) : Z :=
  if n =? 0 then 0
  else
    let '(n, e) := strip_zeros 9 n 0 in
    if e <? 9 then
      let d := n mod 10 in
      let n := n / 10 in
      u64 (1 + u64 (u64 (n * 9) + d - 1) * 10 + e)
    else u64 (1 + u64 (n - 1) * 10 + 9).

Fixpoint add_zeros (e : nat) (n : Z) : Z :=
  match e with O => n | S e => add_zeros e (u64 (n * 10)) end.
Definition DecompressAmount (x : Z) : Z :=
  if x =? 0 then 0
  else
    let x := x - 1 in
    let e := x mod 10 in
    let x := x / 10 in
    let n := if e <? 9 then u64 (x / 9 * 10 + (x mod 9 + 1)) else u64 (x + 1) in
    add_zeros (Z.to_nat e) n.

(** ** Scripts *)

(** [IsFullyValid] and [Decompress] of a public key: calls into secp256k1.  A valid
    point is given by one coordinate and the parity of the other. *)
Class CurveKeys := {
  IsFullyValid : bytes → bool;
  Decompress : bytes → option bytes
}.
Class CurveKeysLaws (K : CurveKeys) : Prop := {
  Decompress_valid x y : length x = 32%nat → length y = 32%nat → IsFullyValid (4 :: x ++ y) = true →
    Decompress ((2 + nth 31 y 0 mod 2) :: x) = Some (4 :: x ++ y)
}.

Section Scripts.
Context `{K : CurveKeys}.

Definition IsToKeyID (script : CScript) : option bytes :=
  if (size script =? 25) && (at_ script 0 =? OP_DUP) && (at_ script 1 =? OP_HASH160) && (at_ script 2 =? 20)
     && (at_ script 23 =? OP_EQUALVERIFY) && (at_ script 24 =? OP_CHECKSIG)
  then Some (take 20 (drop 3 script)) else None.
Definition IsToScriptID (script : CScript) : option bytes :=
  if (size script =? 23) && (at_ script 0 =? OP_HASH160) && (at_ script 1 =? 20) && (at_ script 22 =? OP_EQUAL)
  then Some (take 20 (drop 2 script)) else None.
Definition IsToPubKey (script : CScript) : option bytes :=
  if (size script =? 35) && (at_ script 0 =? 33) && (at_ script 34 =? OP_CHECKSIG) && ((at_ script 1 =? 0x02) || (at_ script 1 =? 0x03))
  then Some (take 33 (drop 1 script))
  else if (size script =? 67) && (at_ script 0 =? 65) && (at_ script 66 =? OP_CHECKSIG) && (at_ script 1 =? 0x04) then
    let pubkey := take 65 (drop 1 script) in
    if IsFullyValid pubkey then Some pubkey else None
  else None.

Definition CompressScript (script : CScript) : option bytes :=
  match IsToKeyID script with
  | Some keyID => Some (0x00 :: keyID)
  | None =>
      match IsToScriptID script with
      | Some scriptID => Some (0x01 :: scriptID)
      | None =>
          match IsToPubKey script with
          | Some pubkey =>
              if (at_ pubkey 0 =? 0x02) || (at_ pubkey 0 =? 0x03) then Some (at_ pubkey 0 :: take 32 (drop 1 pubkey))
              else if at_ pubkey 0 =? 0x04 then Some ((0x04 |' (at_ pubkey 64 &' 0x01)) :: take 32 (drop 1 pubkey))
              else None
          | None => None
          end
      end
  end.
Definition GetSpecialScriptSize (nSize : Z) : Z :=
  if (nSize =? 0) || (nSize =? 1) then 20
  else if (nSize =? 2) || (nSize =? 3) || (nSize =? 4) || (nSize =? 5) then 32 else 0.
(** [None]: the function returns false and leaves the script alone. *)
Definition DecompressScript (nSize : Z) (inp : bytes) : option CScript :=
  if nSize =? 0x00 then Some ([OP_DUP; OP_HASH160; 20] ++ take 20 inp ++ [OP_EQUALVERIFY; OP_CHECKSIG])
  else if nSize =? 0x01 then Some ([OP_HASH160; 20] ++ take 20 inp ++ [OP_EQUAL])
  else if (nSize =? 0x02) || (nSize =? 0x03) then Some ([33; nSize] ++ take 32 inp ++ [OP_CHECKSIG])
  else if (nSize =? 0x04) || (nSize =? 0x05) then
    pubkey ← Decompress ((nSize - 2) :: take 32 inp); Some ([65] ++ pubkey ++ [OP_CHECKSIG])
  else None.

(** [CScriptCompressor]; reading changes a script, [script] before. *)
Definition nSpecialScripts : Z := 6.
Definition Serialize_script (script : CScript) : bytes :=
  match CompressScript script with
  | Some compr => compr
  | None => WriteVarInt 32 (u32 (size script + nSpecialScripts)) ++ script
  end.
Definition Unserialize_script (script : CScript) : reader CScript :=
  nSize ← ReadVarInt 32;
  if nSize <? nSpecialScripts then
    vch ← read (GetSpecialScriptSize nSize);
    mret (default script (DecompressScript nSize vch))
  else
    let nSize := nSize - nSpecialScripts in
    if nSize >? MAX_SCRIPT_SIZE then _ ← read nSize; mret (script ++ [OP_RETURN])
    else read nSize.

(** [CTxOutCompressor] *)
Definition Serialize_txout (o : CTxOut) : bytes :=
  WriteVarInt 64 (CompressAmount (u64 (nValue o))) ++ Serialize_script (scriptPubKey o).
Definition Unserialize_txout (o : CTxOut) : reader CTxOut :=
  nVal ← ReadVarInt 64;
  script ← Unserialize_script (scriptPubKey o);
  mret (mk_txout (i64 (DecompressAmount nVal)) script).

(** [Coin::Serialize] asserts that the coin is not spent. *)
Definition coin_code (c : Coin) : Z :=
  u32 (u32 (nHeight c <<' 2) + (if fCoinBase c then 1 else 0) + (if fCoinStake c then 2 else 0)).
Definition Serialize_coin (c : Coin) : option bytes :=
  if IsSpent c then None else Some (WriteVarInt 32 (coin_code c) ++ Serialize_txout (out c)).
Definition coin_of_code (code : Z) (o : CTxOut) : Coin :=
  mk_coin o (code &' 1 =? 1) ((code >>' 1) &' 1 =? 1) (code >>' 2).
Definition Unserialize_coin (c : Coin) : reader Coin :=
  code ← ReadVarInt 32;
  o ← Unserialize_txout (out c);
  mret (coin_of_code code o).

(** ** Undo records *)

(** [TxInUndoSerializer], with a zero where the version was. *)
Definition Serialize_undo (c : Coin) : bytes :=
  WriteVarInt 32 (coin_code c) ++ (if nHeight c >? 0 then ser_writedata8 0 else []) ++ Serialize_txout (out c).
Definition Unserialize_undo (c : Coin) : reader Coin :=
  nCode ← ReadVarInt 32;
  _ ← (if (nCode >>' 2) >? 0 then _ ← ReadVarInt 32; mret tt else mret tt);
  o ← Unserialize_txout (out c);
  mret (coin_of_code nCode o).

(** Computed when the program starts, from the weight limit at that time. *)
Definition MIN_TRANSACTION_INPUT_WEIGHT : Z := 4 * size (Serialize (mk_txin (mk_outpoint null_hash 0xffffffff) [] 0xffffffff [])).
Definition MAX_INPUTS_PER_BLOCK : Z := 8000000 / MIN_TRANSACTION_INPUT_WEIGHT.

Definition Serialize_txundo (vprevout : list Coin) : bytes :=
  WriteCompactSize (size vprevout) ++ concat (Serialize_undo <$> vprevout).
Definition Unserialize_txundo : reader (list Coin) :=
  count ← ReadCompactSize;
  if count >? MAX_INPUTS_PER_BLOCK then fail too_large
  else read_many (Unserialize_undo coinEmpty) (Z.to_nat count).
Definition Serialize_blockundo (vtxundo : list (list Coin)) : bytes :=
  WriteCompactSize (size vtxundo) ++ concat (Serialize_txundo <$> vtxundo).
Definition Unserialize_blockundo : reader (list (list Coin)) :=
  nSize ← ReadCompactSize; read_many Unserialize_txundo (Z.to_nat nSize).
End Scripts.

(** * Everything is read back *)

(** ** Amounts *)

Lemma strip_zeros_spec fuel : ∀ n e n' e', 0 < n → 0 ≤ e ≤ 9 → 9 - e ≤ Z.of_nat fuel → strip_zeros fuel n e = (n', e') →
  e ≤ e' ≤ 9 ∧ 0 < n' ∧ n = n' * 10 ^ (e' - e) ∧ (e' < 9 → n' mod 10 ≠ 0).
Proof.
  induction fuel as [|fuel IH]; intros n e n' e' Hn He Hf E; cbn [strip_zeros] in E.
  { injection E as <- <-. rewrite Z.sub_diag, Z.pow_0_r. lia. }
  destruct (Z.eqb_spec (n mod 10) 0) as [H0|H0]; cbn [andb] in E; [|injection E as <- <-; rewrite Z.sub_diag, Z.pow_0_r; lia].
  destruct (Z.ltb_spec e 9); [|injection E as <- <-; rewrite Z.sub_diag, Z.pow_0_r; lia].
  pose proof (Z.div_mod n 10 ltac:(lia)) as Hd. apply IH in E as (H1 & H2 & H3 & H4); [|lia..].
  split_and!; [lia|lia|lia| |done]. replace (e' - e) with (Z.succ (e' - (e + 1))) by lia. rewrite Z.pow_succ_r by lia. lia.
Qed.
Lemma add_zeros_spec e : ∀ n, 0 ≤ n → n * 10 ^ Z.of_nat e < 2 ^ 64 → add_zeros e n = n * 10 ^ Z.of_nat e.
Proof.
  induction e as [|e IH]; intros n Hn Hb; cbn [add_zeros]; [cbn; lia|]. rewrite Nat2Z.inj_succ, Z.pow_succ_r in * by lia.
  pose proof (Z.pow_pos_nonneg 10 (Z.of_nat e) ltac:(lia) ltac:(lia)). rewrite u64_small by (split; [lia|nia]). rewrite IH by lia. lia.
Qed.
(** The largest amount that the compression is sure not to overflow with. *)
Definition MAX_COMPRESSIBLE : Z := 2 ^ 64 / 10.
Lemma compress_amount_ok n : 0 ≤ n ≤ MAX_COMPRESSIBLE → 0 ≤ CompressAmount n ≤ max_u 64 ∧ DecompressAmount (CompressAmount n) = n.
Proof.
  unfold MAX_COMPRESSIBLE. change (2 ^ 64 / 10) with 1844674407370955161. intros Hn. unfold CompressAmount.
  destruct (Z.eqb_spec n 0) as [->|]; [by split; [split|]|]. destruct (strip_zeros 9 n 0) as [n' e] eqn:E.
  apply strip_zeros_spec in E as (He & Hn' & -> & Hd); [|lia..]. rewrite Z.sub_0_r in Hn |- *.
  pose proof (Z.pow_pos_nonneg 10 e ltac:(lia) ltac:(lia)) as Hp. assert (n' ≤ 1844674407370955161) by nia.
  change (max_u 64) with 18446744073709551615. destruct (Z.ltb_spec e 9) as [Hlt|Hge].
  - specialize (Hd Hlt). pose proof (Z.div_mod n' 10 ltac:(lia)) as E1. pose proof (Z.mod_pos_bound n' 10 ltac:(lia)) as E2.
    set (q := n' / 10) in *. set (d := n' mod 10) in *. assert (0 ≤ q ≤ 184467440737095516) by lia.
    rewrite (u64_small (q * 9)), (u64_small (q * 9 + d - 1)), u64_small by lia. split; [lia|]. unfold DecompressAmount.
    rewrite (proj2 (Z.eqb_neq (1 + (q * 9 + d - 1) * 10 + e) 0)) by lia.
    replace (1 + (q * 9 + d - 1) * 10 + e - 1) with (e + (q * 9 + d - 1) * 10) by lia.
    rewrite Z_mod_plus_full, Z_div_plus_full, (Z.mod_small e), (Z.div_small e 10) by lia. rewrite (proj2 (Z.ltb_lt e 9)) by lia.
    replace (0 + (q * 9 + d - 1)) with ((d - 1) + q * 9) by lia. rewrite Z_div_plus_full, Z_mod_plus_full, (Z.mod_small (d - 1)), (Z.div_small (d - 1)) by lia.
    rewrite u64_small by lia. rewrite add_zeros_spec; rewrite ?Z2Nat.id by lia; [f_equal; lia|lia|].
    replace ((0 + q) * 10 + (d - 1 + 1)) with n' by lia. lia.
  - assert (e = 9) as -> by lia. change (10 ^ 9) with 1000000000 in *. rewrite (u64_small (n' - 1)), u64_small by lia. split; [lia|]. unfold DecompressAmount.
    rewrite (proj2 (Z.eqb_neq (1 + (n' - 1) * 10 + 9) 0)) by lia. replace (1 + (n' - 1) * 10 + 9 - 1) with (9 + (n' - 1) * 10) by lia.
    rewrite Z_mod_plus_full, Z_div_plus_full by lia. change (9 mod 10) with 9. change (9 / 10) with 0. change (9 <? 9) with false. cbv iota.
    rewrite u64_small by lia. rewrite add_zeros_spec; change (10 ^ Z.of_nat (Z.to_nat 9)) with 1000000000; lia.
Qed.

(** ** Scripts *)

Lemma slice_at (s : bytes) n : ∀ i, (i + n ≤ length s)%nat → take n (drop i s) = at_ s <$> seq i n.
Proof.
  induction n as [|n IH]; intros i Hn; [by rewrite take_0|]. cbn [seq fmap list_fmap]. rewrite <- (IH (S i)) by lia.
  assert (i < length s)%nat as Hi by lia. apply lookup_lt_is_Some in Hi as [x Hx]. rewrite (drop_S _ _ _ Hx). cbn [take].
  unfold at_ at 1. by rewrite (nth_lookup_Some _ _ _ _ Hx).
Qed.
Lemma script_parts (s : bytes) i n k : length s = (i + n + k)%nat →
  s = (at_ s <$> seq 0 i) ++ take n (drop i s) ++ (at_ s <$> seq (i + n) k) ∧ length (take n (drop i s)) = n.
Proof.
  intros Hl. split; [|rewrite length_take, length_drop; lia].
  rewrite <- (slice_at s i 0), <- (slice_at s k (i + n)), drop_0 by lia. rewrite (take_ge (drop (i + n) s)) by (rewrite length_drop; lia).
  rewrite <- drop_drop, take_drop. by rewrite take_drop.
Qed.
Ltac split_bools H :=
  repeat match type of H with
  | (_ && _) = true => apply andb_true_iff in H; let H' := fresh "B" in destruct H as [H H']; split_bools H'
  | (_ || _) = true => apply orb_true_iff in H
  | (_ =? _) = true => apply Z.eqb_eq in H
  end.
Ltac use_at := repeat match goal with H : at_ _ _ = _ |- _ => rewrite H; clear H end.
Lemma parity_bit b : is_byte b → 4 |' (b &' 1) = 4 + b mod 2.
Proof.
  intros Hb. change 1 with (2 ^ 1 - 1) at 1. rewrite land_mask by lia. change (2 ^ 1) with 2.
  destruct (Z.mod_pos_bound b 2 ltac:(lia)) as [? ?]. assert (b mod 2 = 0 ∨ b mod 2 = 1) as [-> | ->] by lia; reflexivity.
Qed.

Section Facts.
Context `{K : CurveKeys} `{HK : !CurveKeysLaws K}.

Ltac short := unfold size, MAX_SCRIPT_SIZE; repeat (rewrite length_app || cbn [length]); lia.
Definition special (s compr : bytes) : Prop :=
  ∃ t body, compr = t :: body ∧ 0 ≤ t < nSpecialScripts ∧ size body = GetSpecialScriptSize t ∧
    DecompressScript t body = Some s ∧ size s ≤ MAX_SCRIPT_SIZE.
Lemma special_keyid h : length h = 20%nat → special ([OP_DUP; OP_HASH160; 20] ++ h ++ [OP_EQUALVERIFY; OP_CHECKSIG]) (0 :: h).
Proof.
  intros Hl. exists 0, h. split_and!; [done|done|done|unfold size; rewrite Hl; reflexivity| |short].
  unfold DecompressScript. cbn [Z.eqb]. by rewrite take_ge by lia.
Qed.
Lemma special_scriptid h : length h = 20%nat → special ([OP_HASH160; 20] ++ h ++ [OP_EQUAL]) (1 :: h).
Proof.
  intros Hl. exists 1, h. split_and!; [done|done|done|unfold size; rewrite Hl; reflexivity| |short].
  unfold DecompressScript. cbn [Z.eqb Pos.eqb]. by rewrite take_ge by lia.
Qed.
Lemma special_pubkey p x : length x = 32%nat → p = 2 ∨ p = 3 → special ([33; p] ++ x ++ [OP_CHECKSIG]) (p :: x).
Proof.
  intros Hl Hp. exists p, x. unfold nSpecialScripts, size.
  destruct Hp as [-> | ->]; (split_and!; [done|done|done|rewrite Hl; reflexivity| |short]; unfold DecompressScript; cbn [Z.eqb Pos.eqb orb]; by rewrite take_ge by lia).
Qed.
Lemma special_full x y : bytes_ok y → length x = 32%nat → length y = 32%nat → IsFullyValid (4 :: x ++ y) = true →
  special ([65] ++ (4 :: x ++ y) ++ [OP_CHECKSIG]) ((4 |' (nth 31 y 0 &' 1)) :: x).
Proof.
  intros Hy Hx Hl Hv. pose proof (Decompress_valid x y Hx Hl Hv) as HD.
  assert (is_byte (nth 31 y 0)) as Hb by (apply Forall_nth; [done|lia]). rewrite (parity_bit _ Hb).
  pose proof (Z.mod_pos_bound (nth 31 y 0) 2 ltac:(lia)) as Hm. exists (4 + nth 31 y 0 mod 2), x. unfold nSpecialScripts, size.
  assert (nth 31 y 0 mod 2 = 0 ∨ nth 31 y 0 mod 2 = 1) as [E|E] by lia; rewrite E in *;
    (split_and!; [done|done|done|rewrite Hx; reflexivity| |short]).
  - change (DecompressScript (4 + 0) x) with (pubkey ← Decompress (2 :: take 32 x); Some ([65] ++ pubkey ++ [OP_CHECKSIG])).
    rewrite take_ge by lia. change (2 + 0) with 2 in HD. by rewrite HD.
  - change (DecompressScript (4 + 1) x) with (pubkey ← Decompress (3 :: take 32 x); Some ([65] ++ pubkey ++ [OP_CHECKSIG])).
    rewrite take_ge by lia. change (2 + 1) with 3 in HD. by rewrite HD.
Qed.
(** A script of known length from its fixed bytes and the rest. *)
Ltac script_is s i n k := let E := fresh "E" in let El := fresh "El" in
  destruct (script_parts s i n k) as [E El]; [lia|]; cbn [seq fmap list_fmap Nat.add] in E;
  repeat match goal with H : at_ s _ = _ |- _ => rewrite H in E; clear H end.
Lemma CompressScript_ok s compr : bytes_ok s → CompressScript s = Some compr → special s compr.
Proof.
  intros Hs. unfold CompressScript, IsToKeyID, IsToScriptID, IsToPubKey, size.
  match goal with |- context [if ?b then Some _ else None] => destruct b eqn:H1 end.
  { split_bools H1. script_is s 3%nat 20%nat 2%nat. intros [= <-]. rewrite E at 1. by apply special_keyid. }
  clear H1. match goal with |- context [if ?b then Some (take 20 _) else None] => destruct b eqn:H1 end.
  { split_bools H1. script_is s 2%nat 20%nat 1%nat. intros [= <-]. rewrite E at 1. by apply special_scriptid. }
  clear H1. match goal with |- context [if ?b then Some (take 33 _) else _] => destruct b eqn:H1 end.
  { split_bools H1. replace (take 33 (drop 1 s)) with (at_ s 1 :: take 32 (drop 2 s)).
    2:{ rewrite !slice_at by lia. reflexivity. }
    set (p := at_ s 1) in *. assert (p = 2 ∨ p = 3) as Hq by lia. script_is s 2%nat 32%nat 1%nat. fold p in E.
    change (at_ (p :: take 32 (drop 2 s)) 0) with p. rewrite (proj2 (orb_true_iff _ _)) by lia. change (drop 1 (p :: take 32 (drop 2 s))) with (take 32 (drop 2 s)).
    rewrite (take_ge (take 32 (drop 2 s))) by lia. intros [= <-]. rewrite E at 1. by apply special_pubkey. }
  clear H1. destruct (_ && (at_ s 1 =? 4)) eqn:H1; [|done]. cbv zeta. destruct (IsFullyValid _) eqn:Hv; [|done].
  split_bools H1. set (x := take 32 (drop 2 s)). set (y := take 32 (drop 34 s)).
  assert (take 65 (drop 1 s) = at_ s 1 :: x ++ y) as Ek.
  { unfold x, y. rewrite !slice_at by lia. reflexivity. }
  rewrite Ek in *. assert (at_ s 1 = 4) as E4 by done. rewrite E4 in *. clear Ek.
  assert (length x = 32%nat ∧ length y = 32%nat) as [Hx Hy] by (unfold x, y; rewrite !length_take, !length_drop; lia).
  assert (s = [65] ++ (4 :: x ++ y) ++ [OP_CHECKSIG]) as E.
  { unfold x, y. rewrite !slice_at by lia. etransitivity; [apply (script_parts s 67 0 0); lia|]. cbn [seq fmap list_fmap app Nat.add take]. by use_at. }
  change (at_ (4 :: x ++ y) 0) with 4. cbn [Z.eqb Pos.eqb orb]. change (at_ (4 :: x ++ y) 64) with (nth 63 (x ++ y) 0).
  rewrite app_nth2 by lia. rewrite Hx. change (drop 1 (4 :: x ++ y)) with (x ++ y). rewrite take_app_length' by done.
  intros [= <-]. rewrite E. apply special_full; try done. by apply Forall_take, Forall_drop.
Qed.

(** *** The serializations *)

Lemma read_special t rest : 0 ≤ t < nSpecialScripts → ReadVarInt 32 (t :: rest) = Ok (t, rest).
Proof.
  unfold nSpecialScripts. intros Ht. rewrite <- (varint_roundtrip 32 t rest) by (unfold max_u; lia).
  assert (t = 0 ∨ t = 1 ∨ t = 2 ∨ t = 3 ∨ t = 4 ∨ t = 5) as Hc by lia. by destruct Hc as [->|[->|[->|[->|[->| ->]]]]].
Qed.
Lemma script_read_back s0 s rest : bytes_ok s → size s < 2 ^ 31 →
  Unserialize_script s0 (Serialize_script s ++ rest) = Ok (if size s >? MAX_SCRIPT_SIZE then s0 ++ [OP_RETURN] else s, rest).
Proof.
  intros Hs Hl. unfold Serialize_script, Unserialize_script. destruct (CompressScript s) as [compr|] eqn:E.
  - destruct (CompressScript_ok _ _ Hs E) as (t & body & -> & Ht & Hb & HD & Hm). cbn [app].
    erewrite reader_bind_step by (by apply read_special). rewrite (proj2 (Z.ltb_lt t _)) by lia.
    erewrite reader_bind_step by (by apply read_app). rewrite HD. cbn [default].
    by rewrite Z.gtb_ltb, (proj2 (Z.ltb_ge _ _)) by lia.
  - pose proof (size_nonneg s) as H0. unfold nSpecialScripts. rewrite u32_small by lia. rewrite <- app_assoc.
    erewrite reader_bind_step by (apply varint_roundtrip; unfold max_u; lia). rewrite (proj2 (Z.ltb_ge _ 6)) by lia. cbv zeta.
    rewrite Z.add_simpl_r. destruct (size s >? MAX_SCRIPT_SIZE); [|by apply read_app].
    by erewrite reader_bind_step by (by apply read_app).
Qed.

(** Outputs and coins as they occur: amounts and heights in range, scripts that may
    be spent. *)
Definition txout_ok (o : CTxOut) : Prop :=
  0 ≤ nValue o ≤ MAX_COMPRESSIBLE ∧ bytes_ok (scriptPubKey o) ∧ size (scriptPubKey o) ≤ MAX_SCRIPT_SIZE.
Definition coin_ok (c : Coin) : Prop := txout_ok (out c) ∧ in_u 30 (nHeight c).
Lemma txout_read_back o0 o rest : txout_ok o → Unserialize_txout o0 (Serialize_txout o ++ rest) = Ok (o, rest).
Proof.
  intros (Hv & Hb & Hs). unfold Unserialize_txout, Serialize_txout. rewrite <- app_assoc.
  assert (0 ≤ nValue o < 2 ^ 63) as Hr by (change MAX_COMPRESSIBLE with 1844674407370955161 in Hv; lia). rewrite u64_small by lia.
  destruct (compress_amount_ok _ Hv) as [Hc HD]. unfold MAX_SCRIPT_SIZE in Hs.
  erewrite reader_bind_step by (apply varint_roundtrip; lia). erewrite reader_bind_step by (apply script_read_back; [done|lia]).
  rewrite Z.gtb_ltb, (proj2 (Z.ltb_ge _ _)), HD by (unfold MAX_SCRIPT_SIZE; lia). rewrite i64_small by lia. by destruct o.
Qed.
Lemma coin_code_ok c : coin_ok c → 0 ≤ coin_code c ≤ max_u 32 ∧ (coin_code c >>' 2 = nHeight c) ∧ coin_of_code (coin_code c) (out c) = c.
Proof.
  intros [_ Hh]. unfold in_u in Hh. unfold coin_code, coin_of_code. rewrite shl_mul by lia. change (2 ^ 2) with 4. change (max_u 32) with (2 ^ 32 - 1).
  set (f := (if fCoinBase c then 1 else 0) + (if fCoinStake c then 2 else 0)).
  assert (0 ≤ f < 4) as Hf by (unfold f; destruct (fCoinBase c), (fCoinStake c); lia).
  rewrite (u32_small (nHeight c * 4)) by lia. replace (nHeight c * 4 + _ + _) with (f + nHeight c * 4) by lia. rewrite u32_small by lia.
  rewrite !shr_div by lia. change (2 ^ 2) with 4. rewrite Z_div_plus_full, (Z.div_small f 4) by lia. split_and!; [lia|lia|lia|].
  assert (∀ x, x &' 1 = x mod 2) as L by (intros; by apply (land_mask 1)). rewrite !L. change (2 ^ 1) with 2.
  replace (f + nHeight c * 4) with (f + (nHeight c * 2) * 2) by lia. rewrite Z_mod_plus_full, Z_div_plus_full, Z_mod_plus_full by lia.
  destruct c as [o cb cs h]. cbn [Coins.out fCoinBase fCoinStake nHeight] in *. unfold f. f_equal; by destruct cb, cs.
Qed.
Lemma coin_read_back c0 c s rest : coin_ok c → Serialize_coin c = Some s → Unserialize_coin c0 (s ++ rest) = Ok (c, rest).
Proof.
  intros Hc. unfold Serialize_coin. destruct (IsSpent c); [done|]. intros [= <-]. unfold Unserialize_coin. rewrite <- app_assoc.
  destruct (coin_code_ok c Hc) as (Hr & _ & E). erewrite reader_bind_step by (apply varint_roundtrip; lia).
  erewrite reader_bind_step by (by apply txout_read_back, Hc). by rewrite E.
Qed.
Lemma undo_read_back c0 c rest : coin_ok c → Unserialize_undo c0 (Serialize_undo c ++ rest) = Ok (c, rest).
Proof.
  intros Hc. unfold Serialize_undo, Unserialize_undo. rewrite <- !app_assoc. destruct (coin_code_ok c Hc) as (Hr & Hh & E).
  erewrite reader_bind_step by (apply varint_roundtrip; lia). rewrite Hh.
  erewrite reader_bind_step with (a := tt) (s1 := Serialize_txout (out c) ++ rest).
  - erewrite reader_bind_step by (by apply txout_read_back, Hc). by rewrite E.
  - destruct (nHeight c >? 0); [|done]. change (ser_writedata8 0) with (WriteVarInt 32 0).
    by erewrite reader_bind_step by (apply varint_roundtrip; unfold max_u; lia).
Qed.
Lemma undos_read_back l rest : Forall coin_ok l →
  read_many (Unserialize_undo coinEmpty) (length l) (concat (Serialize_undo <$> l) ++ rest) = Ok (l, rest).
Proof.
  intros Hl. revert rest. induction Hl as [|c l Hc _ IH]; intros rest; [done|]. cbn [fmap list_fmap concat length read_many]. rewrite <- app_assoc.
  erewrite reader_bind_step by (by apply undo_read_back). by erewrite reader_bind_step by apply IH.
Qed.
Lemma txundo_read_back l rest : Forall coin_ok l → size l ≤ MAX_INPUTS_PER_BLOCK → Unserialize_txundo (Serialize_txundo l ++ rest) = Ok (l, rest).
Proof.
  intros Hl Hn. unfold Unserialize_txundo, Serialize_txundo. rewrite <- app_assoc. pose proof (size_nonneg l) as H0.
  change MAX_INPUTS_PER_BLOCK with 48780 in *. erewrite reader_bind_step by (apply compact_size_write; unfold MAX_SIZE; lia).
  rewrite Z.gtb_ltb, (proj2 (Z.ltb_ge _ _)) by lia. replace (Z.to_nat (size l)) with (length l) by (unfold size; lia). by apply undos_read_back.
Qed.
Lemma blockundo_read_back ls rest : Forall (λ l, Forall coin_ok l ∧ size l ≤ MAX_INPUTS_PER_BLOCK) ls → size ls ≤ MAX_SIZE →
  Unserialize_blockundo (Serialize_blockundo ls ++ rest) = Ok (ls, rest).
Proof.
  intros Hl Hn. unfold Unserialize_blockundo, Serialize_blockundo. rewrite <- app_assoc. pose proof (size_nonneg ls) as H0.
  erewrite reader_bind_step by (apply compact_size_write; lia). replace (Z.to_nat (size ls)) with (length ls) by (unfold size; lia). clear Hn H0.
  revert rest. induction Hl as [|c l [Hc Hm] _ IH]; intros rest; [done|]. cbn [fmap list_fmap concat length read_many]. rewrite <- app_assoc.
  erewrite reader_bind_step by (by apply txundo_read_back). by erewrite reader_bind_step by apply IH.
Qed.
End Facts.

(** ** How many inputs a transaction can have *)

Lemma concat_size_ge {A} (f : A → bytes) m l : Forall (λ x, m ≤ size (f x)) l → m * size l ≤ size (concat (f <$> l)).
Proof.
  induction 1 as [|x l Hf _ IH]; [unfold size; cbn; lia|]. cbn [fmap list_fmap concat]. rewrite size_app.
  unfold size in *. cbn [length]. lia.
Qed.
Lemma txin_size i : 9 + size (hash (prevout i)) ≤ size (Serialize i).
Proof.
  cbn [Serialize txin_serial outpoint_serial]. change (Serialize (scriptSig i)) with (Serialize_bytes (scriptSig i)).
  unfold Serialize_bytes. rewrite !size_app, WriteCompactSize_size. pose proof (size_nonneg (scriptSig i)).
  change (size (ser_writedata32 (n (prevout i)))) with 4. change (size (ser_writedata32 (nSequence i))) with 4.
  unfold GetSizeOfCompactSize. repeat case_match; lia.
Qed.
Lemma inputs_bounded tx : Forall (λ i, size (hash (prevout i)) = 32) (vin tx) → 41 * size (vin tx) ≤ size (SerializeTransaction false tx).
Proof.
  intros Hh. etransitivity; [apply (concat_size_ge Serialize)|].
  { eapply Forall_impl; [exact Hh|]. cbv beta. intros i Hi. pose proof (txin_size i). lia. }
  unfold SerializeTransaction. cbn [andb Z.eqb Z.land]. change (Serialize (vin tx)) with (Serialize_vector (vin tx)). unfold Serialize_vector.
  rewrite !size_app. unfold size. lia.
Qed.
Lemma checked_inputs p tx dup : CheckTransaction p tx dup = Ok tt → Forall (λ i, size (hash (prevout i)) = 32) (vin tx) →
  size (vin tx) ≤ MAX_INPUTS_PER_BLOCK.
Proof.
  intros E Hh. pose proof (inputs_bounded tx Hh) as Hs. unfold CheckTransaction in E.
  apply seq_Ok in E as [_ E]. apply seq_Ok in E as [_ E]. apply seq_Ok in E as [E _].
  rewrite require_Ok, negb_true_iff, orb_false_iff, Z.gtb_ltb, Z.ltb_ge in E. destruct E as [E _]. unfold MAX_TRANSACTION_BASE_SIZE in E.
  change MAX_INPUTS_PER_BLOCK with 48780. lia.
Qed.

(** C32: coins and undo records are read back from disk as they were written.  A coin
    in range whose script can be spent comes back exactly, whatever the object read
    into held before: with its amount, height and flags, and its script, whichever of
    the six short forms it took.  The undo data of a block comes back too when it has
    a coin for each input of transactions that [CheckTransaction] accepts: the limit
    on records that the reader was given when the program started cannot be met,
    whatever block size is in force by then. *)
Theorem stored_coins_read_back `{K : CurveKeys} `{HK : !CurveKeysLaws K} :
  (∀ c0 c s rest, coin_ok c → Serialize_coin c = Some s → Unserialize_coin c0 (s ++ rest) = Ok (c, rest)) ∧
  (∀ undos txs rest p dup,
     Forall2 (λ u tx, length u = length (vin tx) ∧ Forall coin_ok u ∧ CheckTransaction p tx dup = Ok tt ∧
                      Forall (λ i, size (hash (prevout i)) = 32) (vin tx)) undos txs →
     size undos ≤ MAX_SIZE → Unserialize_blockundo (Serialize_blockundo undos ++ rest) = Ok (undos, rest)).
Proof.
  split; [apply coin_read_back|]. intros undos txs rest p dup Hf Hn. apply blockundo_read_back; [|done]. clear Hn.
  induction Hf as [|u tx undos txs (Hl & Hc & Hk & Hh) _ IH]; constructor; [|done]. split; [done|].
  pose proof (checked_inputs _ _ _ Hk Hh). unfold size in *. lia.
Qed.

(** A curve of one known point: the generator of secp256k1. *)
Definition generator_x : bytes := [
  0x79; 0xBE; 0x66; 0x7E; 0xF9; 0xDC; 0xBB; 0xAC; 0x55; 0xA0; 0x62; 0x95; 0xCE; 0x87; 0x0B; 0x07;
  0x02; 0x9B; 0xFC; 0xDB; 0x2D; 0xCE; 0x28; 0xD9; 0x59; 0xF2; 0x81; 0x5B; 0x16; 0xF8; 0x17; 0x98].
Definition generator_y : bytes := [
  0x48; 0x3A; 0xDA; 0x77; 0x26; 0xA3; 0xC4; 0x65; 0x5D; 0xA4; 0xFB; 0xFC; 0x0E; 0x11; 0x08; 0xA8;
  0xFD; 0x17; 0xB4; 0x48; 0xA6; 0x85; 0x54; 0x19; 0x9C; 0x47; 0xD0; 0x8F; 0xFB; 0x10; 0xD4; 0xB8].
Definition sample_curve : CurveKeys := {|
  IsFullyValid k := bool_decide (k = 4 :: generator_x ++ generator_y);
  Decompress k := if bool_decide (k = 2 :: generator_x) then Some (4 :: generator_x ++ generator_y) else None |}.
Lemma sample_curve_laws : CurveKeysLaws sample_curve.
Proof.
  split. intros x y Hx Hy Hv. apply bool_decide_eq_true_1, (app_inj_1 [4] [4]) in Hv as [_ E]; [|done].
  apply app_inj_1 in E as [-> ->]; [reflexivity|done].
Qed.
Definition stored_coin : Coin := mk_coin (mk_txout 4900000000 ([65; 4] ++ generator_x ++ generator_y ++ [OP_CHECKSIG])) false true 123456.
Definition stored_tx : CTransaction :=
  mk_tx [mk_txin (mk_outpoint (replicate 32 7) 1) [OP_1] 0xffffffff []] [mk_txout 4800000000 [OP_1]] 2 0.
Lemma stored_coin_ok : coin_ok stored_coin.
Proof.
  split; [|by split]. split_and!; [done|by apply Z.leb_le|repeat (apply Forall_cons_2 || apply Forall_nil_2); unfold is_byte, OP_CHECKSIG; lia|by apply Z.leb_le].
Qed.
Lemma stored_coins_read_back_witness :
  @Unserialize_coin sample_curve coinEmpty (default [] (@Serialize_coin sample_curve stored_coin)) = Ok (stored_coin, []) ∧
  @Serialize_coin sample_curve stored_coin = Some ([157; 145; 2] ++ [130; 65] ++ 4 :: generator_x) ∧
  @Unserialize_blockundo sample_curve (@Serialize_blockundo sample_curve [[stored_coin]] ++ [1]) = Ok ([[stored_coin]], [1]).
Proof.
  destruct (@stored_coins_read_back sample_curve sample_curve_laws) as [H1 H2]. split_and!; [| |].
  - rewrite <- (app_nil_r (default [] _)). apply H1; [exact stored_coin_ok|vm_compute; reflexivity].
  - vm_compute. reflexivity.
  - apply (H2 [[stored_coin]] [stored_tx] [1] default_dgp true); [|done].
    constructor; [|constructor]. split_and!; [reflexivity|constructor; [exact stored_coin_ok|constructor]|vm_compute; reflexivity|by repeat constructor].
Defined.
