(* ===== verification/CoinsDB.v ===== *)
(** * The coin database on disk (txdb.cpp, dbwrapper.h, CDataStream::Xor)

    Coins.v has the database as a map of coins.  Here it is what the program
    writes: keys and obfuscated values as bytes, in batches that leveldb applies one
    after the other, each at once or not at all.  A write of the cache may be stopped
    after any of its batches; the theorem says which map of coins the bytes then
    stand for. *)
From S2P Require Import Prelude ArithUint256 Script Interpreter InterpreterFacts InterpreterSpecs Serialize Transaction Coins CoinsFacts Compressor.

(** ** leveldb *)

Inductive batch_op := Put (key value : bytes) | Delete (key : bytes).
Definition apply_op (f : bytes → option bytes) (op : batch_op) : bytes → option bytes :=
  match op with
  | Put k v => λ k', if decide (k' = k) then Some v else f k'
  | Delete k => λ k', if decide (k' = k) then None else f k'
  end.
Class LevelDB (S : Type) := {
  Get : S → bytes → option bytes;
  leveldb_Write : S → list batch_op → S
}.
(** A batch is applied as a whole, its updates in their order. *)
Class LevelDBLaws (S : Type) `{LevelDB S} : Prop := {
  Get_Write s b k : Get (leveldb_Write s b) k = foldl apply_op (Get s) b k
}.

(** ** [CDBWrapper] and [CDBBatch] *)

(** [j] is the index into the key, which starts over at its end. *)
Fixpoint xor_loop (key : bytes) (j : nat) (vch : bytes) : bytes :=
  match vch with
  | [] => []
  | b :: vch => (b ^' nth j key 0) :: xor_loop key (if (S j =? length key)%nat then O else S j) vch
  end.
Definition Xor (key vch : bytes) : bytes := match key with [] => vch | _ => xor_loop key 0 vch end.

Record CDBBatch := mk_batch { batch : list batch_op; size_estimate : Z }.
Definition empty_batch : CDBBatch := mk_batch [] 0.

Section Database.
Context `{K : CurveKeys} {S : Type} `{LevelDB S} (obfuscate_key : bytes).
Implicit Types (s : S) (b : CDBBatch).

Definition longer (x : bytes) : Z := if size x >? 127 then 1 else 0.
Definition batch_Write b (ssKey ssValue : bytes) : CDBBatch :=
  let slValue := Xor obfuscate_key ssValue in
  mk_batch (batch b ++ [Put ssKey slValue])
           (size_estimate b + (3 + longer ssKey + size ssKey + longer slValue + size slValue)).
Definition batch_Erase b (ssKey : bytes) : CDBBatch :=
  mk_batch (batch b ++ [Delete ssKey]) (size_estimate b + (2 + longer ssKey + size ssKey)).
(** A value that cannot be parsed counts as not found. *)
Definition db_Read {A} (r : reader A) s (ssKey : bytes) : option A :=
  v ← Get s ssKey;
  match r (Xor obfuscate_key v) with Ok (a, _) => Some a | Err _ => None end.
Definition db_Exists s (ssKey : bytes) : bool := bool_decide (is_Some (Get s ssKey)).

(** ** [CCoinsViewDB] *)

Definition DB_COIN : Z := 67.
Definition DB_BEST_BLOCK : Z := 66.
Definition DB_HEAD_BLOCKS : Z := 72.
Definition CoinEntry (o : COutPoint) : bytes := DB_COIN :: hash o ++ WriteVarInt 32 (n o).
Definition Serialize_hashes (l : list uint256) : bytes := WriteCompactSize (size l) ++ concat l.
Definition Unserialize_hashes : reader (list uint256) := nSize ← ReadCompactSize; read_many (read 32) (Z.to_nat nSize).

Definition bytes_GetCoin s (outpoint : COutPoint) : option Coin := db_Read (Unserialize_coin coinEmpty) s (CoinEntry outpoint).
Definition bytes_HaveCoin s (outpoint : COutPoint) : bool := db_Exists s (CoinEntry outpoint).
Definition bytes_GetBestBlock s : uint256 := default null_hash (db_Read (read 32) s [DB_BEST_BLOCK]).
Definition GetHeadBlocks s : list uint256 := default [] (db_Read Unserialize_hashes s [DB_HEAD_BLOCKS]).

(** The loop over the map; a batch that has grown past [batch_size] is written. *)
Fixpoint write_coins (batch_size : Z) b (l : list (COutPoint * CCoinsCacheEntry)) : list (list batch_op) * CDBBatch :=
  match l with
  | [] => ([], b)
  | (o, e) :: l =>
      let b :=
        if DIRTY e then
          if IsSpent (coin e) then batch_Erase b (CoinEntry o)
          else batch_Write b (CoinEntry o) (default [] (Serialize_coin (coin e)))
        else b in
      if size_estimate b >? batch_size then let '(bs, b') := write_coins batch_size empty_batch l in (batch b :: bs, b')
      else write_coins batch_size b l
  end.
(** All batches of a write, in the order in which they reach leveldb. *)
Definition BatchWrite_batches (batch_size : Z) (l : list (COutPoint * CCoinsCacheEntry)) (hashBlock old_tip : uint256) : list (list batch_op) :=
  let b := batch_Erase empty_batch [DB_BEST_BLOCK] in
  let b := batch_Write b [DB_HEAD_BLOCKS] (Serialize_hashes [hashBlock; old_tip]) in
  let '(bs, b) := write_coins batch_size b l in
  let b := batch_Erase b [DB_HEAD_BLOCKS] in
  let b := batch_Write b [DB_BEST_BLOCK] hashBlock in
  bs ++ [batch b].
(** The tip before the write; [None] is a failed assertion. *)
Definition old_tip_of s (hashBlock : uint256) : option uint256 :=
  let old_tip := bytes_GetBestBlock s in
  if IsNull_hash old_tip then
    match GetHeadBlocks s with
    | [h0; h1] => if bool_decide (h0 = hashBlock) then Some h1 else None
    | _ => Some old_tip
    end
  else Some old_tip.
(** What is on disk when the write stops after [k] batches. *)
Definition bytes_BatchWrite_until (batch_size : Z) (k : nat) s (m : CCoinsMap) (hashBlock : uint256) : result coins_error S :=
  if IsNull_hash hashBlock then Err assertion
  else
    match old_tip_of s hashBlock with
    | None => Err assertion
    | Some old_tip => Ok (foldl leveldb_Write s (take k (BatchWrite_batches batch_size (map_to_list m) hashBlock old_tip)))
    end.
Definition bytes_BatchWrite (batch_size : Z) s (m : CCoinsMap) (hashBlock : uint256) : result coins_error S :=
  if IsNull_hash hashBlock then Err assertion
  else
    match old_tip_of s hashBlock with
    | None => Err assertion
    | Some old_tip => Ok (foldl leveldb_Write s (BatchWrite_batches batch_size (map_to_list m) hashBlock old_tip))
    end.
End Database.

(** ** Obfuscation *)

Lemma xor_loop_twice key vch : ∀ j, xor_loop key j (xor_loop key j vch) = vch.
Proof.
  induction vch as [|b vch IH]; intros j; [done|]. cbn [xor_loop]. rewrite IH, Z.lxor_assoc, Z.lxor_nilpotent, Z.lxor_0_r. done.
Qed.
Lemma Xor_twice key vch : Xor key (Xor key vch) = vch.
Proof. destruct key; [done|]. apply xor_loop_twice. Qed.

(** ** What the bytes stand for *)

Definition hash_ok (h : uint256) : Prop := size h = 32.
Definition key_ok (o : COutPoint) : Prop := hash_ok (hash o) ∧ in_u 32 (n o).
Lemma CoinEntry_inj o o' : key_ok o → key_ok o' → CoinEntry o = CoinEntry o' → o = o'.
Proof.
  intros [Hh Hn] [Hh' Hn'] E. unfold CoinEntry in E. apply (app_inj_1 [DB_COIN] [DB_COIN]) in E as [_ E]; [|done].
  unfold hash_ok, size in Hh, Hh'. apply app_inj_1 in E as [E1 E2]; [|lia]. destruct o as [h i], o' as [h' i']. cbn [hash n] in *. subst h'. f_equal.
  assert (Ok (i, @nil Z) = Ok (E:=ser_error) (i', [])) as [= ->]; [|done].
  unfold in_u in *. rewrite <- (varint_roundtrip 32 i []), <- (varint_roundtrip 32 i' []), E2 by (unfold max_u; lia). done.
Qed.

Section Facts.
Context `{K : CurveKeys} `{HK : !CurveKeysLaws K} {S : Type} `{HL : LevelDBLaws S} (obfuscate_key : bytes).

Definition reads {A} (r : reader A) (f : bytes → option bytes) (k : bytes) : option A :=
  v ← f k; match r (Xor obfuscate_key v) with Ok (a, _) => Some a | Err _ => None end.
Record stands_for (f : bytes → option bytes) (v : CCoinsViewDB) : Prop := {
  sf_coin o : key_ok o → reads (Unserialize_coin coinEmpty) f (CoinEntry o) = db v !! o;
  sf_best : default null_hash (reads (read 32) f [DB_BEST_BLOCK]) = db_best v;
  sf_heads : default [] (reads Unserialize_hashes f [DB_HEAD_BLOCKS]) = db_heads v }.
Lemma stands_for_same f g v : (∀ k, f k = g k) → stands_for f v → stands_for g v.
Proof.
  intros E [H1 H2 H3]. split; [intros o Ho; rewrite <- H1 by done|rewrite <- H2|rewrite <- H3]; unfold reads; by rewrite E.
Qed.
Lemma reads_put {A} (r : reader A) f k x a rest : r x = Ok (a, rest) → reads r (apply_op f (Put k (Xor obfuscate_key x))) k = Some a.
Proof. intros E. unfold reads, apply_op. rewrite decide_True by done. cbn [mbind option_bind]. by rewrite Xor_twice, E. Qed.
Lemma reads_delete {A} (r : reader A) f k : reads r (apply_op f (Delete k)) k = None.
Proof. unfold reads, apply_op. by rewrite decide_True. Qed.
Lemma reads_other {A} (r : reader A) f op k : (match op with Put k' _ => k' | Delete k' => k' end) ≠ k → reads r (apply_op f op) k = reads r f k.
Proof. intros Hne. unfold reads, apply_op. destruct op; by rewrite decide_False. Qed.

(** The keys of coins and of the two records are different. *)
Lemma entry_not_best o : CoinEntry o ≠ [DB_BEST_BLOCK].
Proof. by intros [=]. Qed.
Lemma entry_not_heads o : CoinEntry o ≠ [DB_HEAD_BLOCKS].
Proof. by intros [=]. Qed.

Definition entry_ops (p : COutPoint * CCoinsCacheEntry) : list batch_op :=
  if DIRTY p.2 then
    if IsSpent (coin p.2) then [Delete (CoinEntry p.1)] else [Put (CoinEntry p.1) (Xor obfuscate_key (default [] (Serialize_coin (coin p.2))))]
  else [].
Definition entry_wf (p : COutPoint * CCoinsCacheEntry) : Prop :=
  key_ok p.1 ∧ (DIRTY p.2 = true → IsSpent (coin p.2) = false → coin_ok (coin p.2)).
Lemma entry_ops_stand f v p : stands_for f v → entry_wf p →
  stands_for (foldl apply_op f (entry_ops p)) (mk_db (db_write (db v) p) (db_best v) (db_heads v)).
Proof.
  intros [H1 H2 H3] [Hk Hc]. destruct p as [o e]. unfold entry_ops, db_write. cbn [fst snd] in *. destruct (DIRTY e); [|by split].
  specialize (Hc eq_refl). destruct (IsSpent (coin e)) eqn:Hs; cbn [foldl].
  - split; cbn [db db_best db_heads]; [|rewrite reads_other; [done|apply entry_not_best]|rewrite reads_other; [done|apply entry_not_heads]].
    intros o' Ho'. destruct (decide (o' = o)) as [->|Hne]; [by rewrite reads_delete, lookup_delete_eq|].
    rewrite reads_other, lookup_delete_ne by congruence || (intros E; apply Hne; by apply CoinEntry_inj). by apply H1.
  - split; cbn [db db_best db_heads]; [|rewrite reads_other; [done|apply entry_not_best]|rewrite reads_other; [done|apply entry_not_heads]].
    intros o' Ho'. destruct (decide (o' = o)) as [->|Hne].
    + rewrite lookup_insert_eq. eapply reads_put. rewrite <- (app_nil_r (default [] _)). apply coin_read_back; [by apply Hc|].
      unfold Serialize_coin. by rewrite Hs.
    + rewrite reads_other, lookup_insert_ne by congruence || (intros E; apply Hne; by apply CoinEntry_inj). by apply H1.
Qed.
Lemma entries_stand l : ∀ f v, stands_for f v → Forall entry_wf l →
  stands_for (foldl apply_op f (l ≫= entry_ops)) (mk_db (foldl db_write (db v) l) (db_best v) (db_heads v)).
Proof.
  induction l as [|p l IH]; intros f v Hv Hl; [by destruct v|]. apply Forall_cons in Hl as [Hp Hl]. cbn [mbind list_bind foldl].
  rewrite foldl_app. pose proof (entry_ops_stand f v p Hv Hp) as H1. by apply (IH _ _ H1).
Qed.

(** ** Batches *)

Lemma batch_step b p :
  batch (if DIRTY p.2 then if IsSpent (coin p.2) then batch_Erase b (CoinEntry p.1)
                           else batch_Write obfuscate_key b (CoinEntry p.1) (default [] (Serialize_coin (coin p.2))) else b) =
  batch b ++ entry_ops p.
Proof. unfold entry_ops. destruct (DIRTY p.2); [by destruct (IsSpent (coin p.2))|by rewrite app_nil_r]. Qed.
(** The batches together are all updates; some of them are those of some entries. *)
Lemma write_coins_spec batch_size l : ∀ b bs b', write_coins obfuscate_key batch_size b l = (bs, b') →
  concat bs ++ batch b' = batch b ++ (l ≫= entry_ops) ∧
  ∀ k, (0 < k ≤ length bs)%nat → ∃ j, concat (take k bs) = batch b ++ (take j l ≫= entry_ops).
Proof.
  induction l as [|[o e] l IH]; intros b bs b'; cbn [write_coins].
  { intros [= <- <-]. split; [by rewrite app_nil_r|]. intros k Hk. cbn in Hk. lia. }
  set (b1 := if DIRTY e then _ else b). assert (batch b1 = batch b ++ entry_ops (o, e)) as E1 by apply (batch_step b (o, e)).
  destruct (size_estimate b1 >? batch_size).
  - destruct (write_coins obfuscate_key batch_size empty_batch l) as [bs1 b1'] eqn:E. intros [= <- <-].
    apply IH in E as [H1 H2]. cbn [batch empty_batch app] in H1, H2. split; [cbn [concat]; by rewrite <- app_assoc, H1, E1, <- app_assoc|].
    intros [|k] Hk; [lia|]. cbn [take concat length] in *. rewrite E1. destruct k as [|k].
    { exists 1%nat. cbn [take concat mbind list_bind]. by rewrite !app_nil_r. }
    destruct (H2 (Datatypes.S k)) as [j Hj]; [lia|]. exists (Datatypes.S j). cbn [take mbind list_bind]. by rewrite Hj, <- app_assoc.
  - intros E. apply IH in E as [H1 H2]. split; [by rewrite H1, E1, <- app_assoc|]. intros k Hk. destruct (H2 k Hk) as [j Hj].
    exists (Datatypes.S j). cbn [take mbind list_bind]. by rewrite Hj, E1, <- app_assoc.
Qed.
Definition opening (h old : uint256) : list batch_op :=
  [Delete [DB_BEST_BLOCK]; Put [DB_HEAD_BLOCKS] (Xor obfuscate_key (Serialize_hashes [h; old]))].
Definition closing (h : uint256) : list batch_op :=
  [Delete [DB_HEAD_BLOCKS]; Put [DB_BEST_BLOCK] (Xor obfuscate_key h)].
Lemma batches_spec batch_size l h old :
  let bs := BatchWrite_batches obfuscate_key batch_size l h old in
  concat bs = opening h old ++ (l ≫= entry_ops) ++ closing h ∧
  ∀ k, (0 < k < length bs)%nat → ∃ j, concat (take k bs) = opening h old ++ (take j l ≫= entry_ops).
Proof.
  unfold BatchWrite_batches. destruct (write_coins _ _ _ l) as [bs b] eqn:E. apply write_coins_spec in E as [H1 H2].
  cbn [batch batch_Erase batch_Write empty_batch app] in H1, H2. cbv zeta. split.
  - rewrite concat_app. cbn [concat batch batch_Erase batch_Write]. rewrite app_nil_r, <- !app_assoc, (app_assoc (concat bs)), H1. reflexivity.
  - intros k Hk. rewrite length_app in Hk. cbn in Hk. rewrite take_app_le by lia. apply H2. lia.
Qed.
Lemma foldl_write s bs k : Get (foldl leveldb_Write s bs) k = foldl apply_op (Get s) (concat bs) k.
Proof.
  revert s. assert (∀ ops f g, (∀ k, f k = g k) → ∀ k, foldl apply_op f ops k = foldl apply_op g ops k) as Hx.
  { induction ops as [|op ops IH]; intros f g E k'; [apply E|]. cbn [foldl]. apply IH. intros k''. destruct op; cbn; by rewrite E. }
  induction bs as [|b bs IH]; intros s; [done|]. cbn [foldl concat]. rewrite IH, foldl_app. apply Hx. intros k'. apply Get_Write.
Qed.

(** The two records. *)
Lemma hashes_read_back h old rest : hash_ok h → hash_ok old → Unserialize_hashes (Serialize_hashes [h; old] ++ rest) = Ok ([h; old], rest).
Proof.
  intros Hh Ho. unfold Unserialize_hashes, Serialize_hashes. rewrite <- app_assoc. change (size [h; old]) with 2.
  erewrite reader_bind_step by (apply compact_size_write; unfold MAX_SIZE; lia). change (Z.to_nat 2) with 2%nat. cbn [read_many concat].
  rewrite app_nil_r, <- app_assoc. erewrite reader_bind_step by (by apply read_app). 
  erewrite reader_bind_step; [done|]. erewrite reader_bind_step by (by apply read_app). done.
Qed.
Lemma opening_stands f v h old : stands_for f v → hash_ok h → hash_ok old →
  stands_for (foldl apply_op f (opening h old)) (mk_db (db v) null_hash [h; old]).
Proof.
  intros [H1 H2 H3] Hh Ho. unfold opening. cbn [foldl]. split; cbn [db db_best db_heads].
  - intros o Hk. rewrite !reads_other by (by intros [=]). by apply H1.
  - rewrite reads_other by done. by rewrite reads_delete.
  - erewrite reads_put; [done|]. rewrite <- (app_nil_r (Serialize_hashes _)). by apply hashes_read_back.
Qed.
Lemma closing_stands f v h : stands_for f v → hash_ok h → stands_for (foldl apply_op f (closing h)) (mk_db (db v) h []).
Proof.
  intros [H1 H2 H3] Hh. unfold closing. cbn [foldl]. split; cbn [db db_best db_heads].
  - intros o Hk. rewrite !reads_other by (by intros [=]). by apply H1.
  - erewrite reads_put; [done|]. rewrite <- (app_nil_r h) at 1. by apply read_app.
  - rewrite reads_other by done. by rewrite reads_delete.
Qed.
(** The tip before the write, as the records show it. *)
Definition old_tip (v : CCoinsViewDB) : uint256 :=
  if IsNull_hash (db_best v) then match db_heads v with [_; h1] => h1 | _ => db_best v end else db_best v.
Lemma old_tip_stands s v m h v' : stands_for (Get s) v → db_BatchWrite v m h = Ok v' → old_tip_of obfuscate_key s h = Some (old_tip v).
Proof.
  intros [_ H2 H3]. unfold db_BatchWrite, old_tip_of, old_tip. change (bytes_GetBestBlock obfuscate_key s) with (default null_hash (reads (read 32) (Get s) [DB_BEST_BLOCK])).
  change (GetHeadBlocks obfuscate_key s) with (default [] (reads Unserialize_hashes (Get s) [DB_HEAD_BLOCKS])). rewrite H2, H3.
  destruct (IsNull_hash h); [done|]. destruct (IsNull_hash (db_best v)); [|done]. destruct (db_heads v) as [|h0 [|h1 [|]]]; try done.
  cbn [length Z.of_nat andb nth]. change (Z.pos (Pos.of_succ_nat 1) =? 2) with true. cbn [andb]. by case_bool_decide.
Qed.

(** The map of coins when [j] entries have reached the disk, with the records that
    say so. *)
Definition interrupted (v : CCoinsViewDB) (m : CCoinsMap) (h : uint256) (j : nat) : CCoinsViewDB :=
  mk_db (foldl db_write (db v) (take j (map_to_list m))) null_hash [h; old_tip v].
Lemma all_batches_stand batch_size s v m h v' :
  stands_for (Get s) v → hash_ok h → hash_ok (old_tip v) → Forall entry_wf (map_to_list m) → db_BatchWrite v m h = Ok v' →
  ∃ s', bytes_BatchWrite obfuscate_key batch_size s m h = Ok s' ∧ stands_for (Get s') v'.
Proof.
  intros Hv Hh Ho Hm E. unfold bytes_BatchWrite. rewrite (old_tip_stands _ _ _ _ _ Hv E). unfold db_BatchWrite in E.
  destruct (IsNull_hash h); [done|]. eexists. split; [done|]. destruct (_ && _) in E; [done|]. injection E as <-.
  eapply stands_for_same; [intros k; symmetry; apply foldl_write|]. rewrite (proj1 (batches_spec _ _ _ _)), !foldl_app.
  apply (closing_stands _ (mk_db _ null_hash [h; old_tip v])); [|done]. by apply (entries_stand _ _ _ (opening_stands _ _ _ _ Hv Hh Ho)).
Qed.
Lemma some_batches_stand batch_size s v m h v' k :
  stands_for (Get s) v → hash_ok h → hash_ok (old_tip v) → Forall entry_wf (map_to_list m) → db_BatchWrite v m h = Ok v' →
  ∃ s', bytes_BatchWrite_until obfuscate_key batch_size k s m h = Ok s' ∧
    (stands_for (Get s') v ∨ (∃ j, stands_for (Get s') (interrupted v m h j)) ∨ stands_for (Get s') v').
Proof.
  intros Hv Hh Ho Hm E. destruct (all_batches_stand batch_size _ _ _ _ _ Hv Hh Ho Hm E) as (sa & Ea & Ha).
  unfold bytes_BatchWrite in Ea. unfold bytes_BatchWrite_until. rewrite (old_tip_stands _ _ _ _ _ Hv E) in *. destruct (IsNull_hash h); [done|].
  injection Ea as <-. eexists. split; [done|]. set (bs := BatchWrite_batches _ _ _ _ _) in *.
  destruct (decide (k = 0%nat)) as [->|Hk]; [by left|]. right. destruct (decide (length bs ≤ k)%nat); [right; by rewrite take_ge by lia|left].
  destruct (proj2 (batches_spec batch_size (map_to_list m) h (old_tip v)) k) as [j Ej]; [fold bs; lia|]. fold bs in Ej. exists j.
  eapply stands_for_same; [intros k'; symmetry; apply foldl_write|]. rewrite Ej, foldl_app. unfold interrupted.
  apply (entries_stand _ _ _ (opening_stands _ _ _ _ Hv Hh Ho)). by apply Forall_take.
Qed.

(** C33: the coin database.  While the bytes on disk stand for a map of coins, reading a
    coin finds exactly the coin of the map.  A write of the cache turns the map into
    the one that the database of Coins.v computes.  When it is stopped after any
    number of its batches, wherever the sizes made them end, the bytes stand for the
    map before, or the map after, or the map with some of the entries written: then
    the best block is gone and the two heads are on record. *)
Theorem coin_database_on_disk batch_size s v m h v' :
  stands_for (Get s) v → hash_ok h → hash_ok (old_tip v) → Forall entry_wf (map_to_list m) → db_BatchWrite v m h = Ok v' →
  (∀ o, key_ok o → bytes_GetCoin obfuscate_key s o = db v !! o) ∧
  (∃ s', bytes_BatchWrite obfuscate_key batch_size s m h = Ok s' ∧ stands_for (Get s') v') ∧
  (∀ k, ∃ s', bytes_BatchWrite_until obfuscate_key batch_size k s m h = Ok s' ∧
     (stands_for (Get s') v ∨ (∃ j, stands_for (Get s') (interrupted v m h j)) ∨ stands_for (Get s') v')).
Proof.
  intros Hv Hh Ho Hm E. split_and!; [apply Hv|by apply (all_batches_stand batch_size s v)|]. intros k. by apply (some_batches_stand batch_size s v).
Qed.
End Facts.

(** ** leveldb as a map *)

#[global] Instance map_store : LevelDB (gmap bytes bytes) := {|
  Get s k := s !! k;
  leveldb_Write s b := foldl (λ s op, match op with Put k v => <[k := v]> s | Delete k => delete k s end) s b |}.
#[global] Instance map_store_laws : LevelDBLaws (gmap bytes bytes).
Proof.
  split. cbn [Get leveldb_Write map_store]. intros s b. set (upd := λ s op, _).
  assert (∀ s (f : bytes → option bytes), (∀ k, s !! k = f k) → ∀ k, foldl upd s b !! k = foldl apply_op f b k) as H; [|intros; by apply H].
  clear s. induction b as [|op b IH]; intros s f E k; [apply E|]. cbn [foldl]. apply IH. intros k'. unfold upd, apply_op. destruct op; case_decide as Hd; subst.
  - apply lookup_insert_eq.
  - by rewrite lookup_insert_ne.
  - apply lookup_delete_eq.
  - by rewrite lookup_delete_ne.
Qed.

Definition disk_outpoint : COutPoint := mk_outpoint (replicate 32 9) 300.
Definition disk_entries : CCoinsMap := {[ disk_outpoint := mk_entry stored_coin true false ]}.
Definition disk_key : bytes := [11; 22; 33; 44; 55; 66; 77; 88].
Lemma disk_outpoint_ok : key_ok disk_outpoint.
Proof. by split. Qed.
Lemma disk_entries_wf : Forall entry_wf (map_to_list disk_entries).
Proof.
  unfold disk_entries. rewrite map_to_list_singleton. constructor; [|constructor]. split; [by split|]. intros _ _. exact stored_coin_ok.
Qed.
Lemma empty_stands : stands_for (K:=sample_curve) disk_key (Get (∅ : gmap bytes bytes)) (mk_db ∅ null_hash []).
Proof. split; [intros o _|..]; reflexivity. Qed.
(** A write of one coin into an empty database, read back as bytes. *)
Lemma coin_database_on_disk_witness :
  ∃ s', @bytes_BatchWrite sample_curve (gmap bytes bytes) _ disk_key 50 ∅ disk_entries (replicate 32 1) = Ok s' ∧
        @bytes_GetCoin sample_curve _ _ disk_key s' disk_outpoint = Some stored_coin ∧
        bytes_GetBestBlock disk_key s' = replicate 32 1.
Proof.
  destruct (@coin_database_on_disk sample_curve sample_curve_laws _ _ _ disk_key 50 ∅ (mk_db ∅ null_hash []) disk_entries (replicate 32 1)
    (mk_db {[ disk_outpoint := stored_coin ]} (replicate 32 1) [])) as (_ & (s' & E & Hs) & _).
  - exact empty_stands.
  - reflexivity.
  - reflexivity.
  - exact disk_entries_wf.
  - vm_compute. reflexivity.
  - exists s'. split; [exact E|]. split; [|exact (sf_best _ _ _ Hs)].
    etransitivity; [exact (sf_coin _ _ _ Hs disk_outpoint disk_outpoint_ok)|apply lookup_singleton_eq].
Defined.
