(* ===== verification/Replay.v ===== *)
(** * Recovery after a crash (ReplayBlocks and RollforwardBlock of validation.cpp)

    A write of the coin cache that was stopped half way (CoinsDB) is finished when
    the program starts again: the blocks between the two recorded heads are applied
    once more.  The theorems say that this restores exactly the coins of the new
    head, and that it cannot when blocks have to be taken back. *)
From S2P Require Import Prelude ArithUint256 Script Interpreter InterpreterFacts InterpreterSpecs Serialize Transaction Block Coins CoinsFacts Compressor CoinsDB Chain ChainFacts.
Import BaseUint.

(** A database that may have an unfinished write on record: the database of Coins.v
    with its operations, but not its contract, since it only accepts the write that
    finishes the other. *)
Record replay_db := mk_replay { on_disk : CCoinsViewDB }.
#[global] Instance replay_view : CoinsView replay_db := {|
  GetCoin v o := db (on_disk v) !! o;
  GetBestBlock v := db_best (on_disk v);
  BatchWrite v m h := let* d := db_BatchWrite (on_disk v) m h in Ok (mk_replay d);
  view_ok v := ∀ o c, db (on_disk v) !! o = Some c → IsSpent c = false
|}.
#[global] Instance replay_reads : CoinsViewReads replay_db.
Proof. split. intros v o c Hv. apply Hv. Qed.

Inductive replay_error := coin_failure (e : coins_error) | index_failure (e : chain_error).
Definition on_coins {A} (r : result coins_error A) : result replay_error A := match r with Ok a => Ok a | Err e => Err (coin_failure e) end.
Definition on_index {A} (r : result chain_error A) : result replay_error A := match r with Ok a => Ok a | Err e => Err (index_failure e) end.
(** A null pointer that is followed. *)
Definition non_null {A} (p : option A) : result replay_error A := match p with Some a => Ok a | None => Err (index_failure dangling) end.

Section Replay.
(** What is read from the block and undo files. *)
Context `{C : Crypto} (read_block : uint256 → option (list CTransaction)) (read_undo : uint256 → option (list (list Coin))).
Context (MAX_OUTPUTS_PER_BLOCK : Z).

Section Forward.
Context {V : Type} `{CoinsView V}.
Fixpoint rollforward_txs (c : CCoinsViewCache V) (height : Z) (vtx : list CTransaction) : result coins_error (CCoinsViewCache V) :=
  match vtx with
  | [] => Ok c
  | tx :: vtx =>
      let c := if IsCoinBase tx then c else foldl (λ c txin, (SpendCoin c (prevout txin)).2) c (vin tx) in
      let* c := AddCoins c tx height true in
      rollforward_txs c height vtx
  end.
(** [None]: the function returns false. *)
Definition RollforwardBlock (m : BlockMap) (pindex : uint256) (inputs : CCoinsViewCache V) : result replay_error (option (CCoinsViewCache V)) :=
  let* b := on_index (deref m pindex) in
  match read_block pindex with
  | None => Ok None
  | Some vtx => let* c := on_coins (rollforward_txs inputs (nHeight b) vtx) in Ok (Some c)
  end.

(** Back from the old head to the fork; at most as many blocks as the height. *)
Fixpoint rollback (m : BlockMap) (fuel : nat) (cache : CCoinsViewCache V) (pindexOld pindexFork : option uint256)
  : result replay_error (option (CCoinsViewCache V)) :=
  if decide (pindexOld = pindexFork) then Ok (Some cache)
  else match fuel with
  | O => Err (index_failure no_progress)
  | S fuel =>
      let* p := non_null pindexOld in
      let* b := on_index (deref m p) in
      let* cache :=
        if nHeight b >? 0 then
          match read_block p with
          | None => Ok None
          | Some vtx =>
              let* prev := non_null (pprev b) in
              let* r := on_coins (DisconnectBlock MAX_OUTPUTS_PER_BLOCK vtx p prev (nHeight b) (read_undo p) cache) in
              Ok (match r.1 with DISCONNECT_FAILED => None | _ => Some r.2 end)
          end
        else Ok (Some cache) in
      match cache with
      | None => Ok None
      | Some cache => rollback m fuel cache (pprev b) pindexFork
      end
  end.
(** Forward to the new head, [n] blocks from [height] on. *)
Fixpoint rollforward (m : BlockMap) (n : nat) (cache : CCoinsViewCache V) (pindexNew : uint256) (height : Z)
  : result replay_error (option (CCoinsViewCache V)) :=
  match n with
  | O => Ok (Some cache)
  | S n =>
      let* p := on_index (GetAncestor m pindexNew height) in
      let* pindex := non_null p in
      let* r := RollforwardBlock m pindex cache in
      match r with
      | None => Ok None
      | Some cache => rollforward m n cache pindexNew (height + 1)
      end
  end.
End Forward.

(** The old head and the fork, both null at the first write. *)
Definition replay_from (m : BlockMap) (h0 h1 : uint256) : result replay_error (option (option uint256 * option uint256)) :=
  if IsNull_hash h1 then Ok (Some (None, None))
  else match m !! h1 with
  | None => Ok None
  | Some _ =>
      let* f := on_index (LastCommonAncestor m h1 h0) in
      match f with
      | None => Err (index_failure assertion_failed)
      | Some f => Ok (Some (Some h1, Some f))
      end
  end.
Definition ReplayBlocks (m : BlockMap) (view : replay_db) : result replay_error (bool * replay_db) :=
  let cache := mk_cache view ∅ null_hash in
  match db_heads (on_disk view) with
  | [] => Ok (true, view)
  | [h0; h1] =>
      match m !! h0 with
      | None => Ok (false, view)
      | Some new =>
          let* start := replay_from m h0 h1 in
          match start with
          | None => Ok (false, view)
          | Some (pindexOld, pindexFork) =>
              let fuel := match pindexOld ≫= (m !!.) with Some b => Z.to_nat (nHeight b + 1) | None => O end in
              let* cache := rollback m fuel cache pindexOld pindexFork in
              match cache with
              | None => Ok (false, view)
              | Some cache =>
                  let nForkHeight := match pindexFork ≫= (m !!.) with Some b => nHeight b | None => 0 end in
                  let* cache := rollforward m (Z.to_nat (nHeight new - nForkHeight)) cache h0 (nForkHeight + 1) in
                  match cache with
                  | None => Ok (false, view)
                  | Some cache => let* cache := on_coins (Flush (SetBestBlock cache h0)) in Ok (true, base cache)
                  end
              end
          end
      end
  | _ => Ok (false, view)
  end.
End Replay.

(** ** A block's effect on one coin does not depend on the others *)

(** [F] leaves the coin at each outpoint alone, or sets it to something fixed. *)
Definition absolute (F : coins → coins) : Prop := ∀ o, (∀ s, F s o = s o) ∨ (∃ x, ∀ s, F s o = x).
Lemma absolute_compose F G : absolute F → absolute G → absolute (λ s, G (F s)).
Proof.
  intros HF HG o. destruct (HG o) as [Eg|[x Eg]]; [|right; exists x; intros s; apply Eg].
  destruct (HF o) as [Ef|[x Ef]]; [left|right; exists x]; intros s; by rewrite Eg, Ef.
Qed.
Lemma absolute_id : absolute (λ s, s).
Proof. intros o. by left. Qed.
Lemma absolute_upd o x : absolute (λ s, upd s o x).
Proof. intros o'. unfold upd. case_decide; [right; by exists x|by left]. Qed.
Lemma absolute_spend l : absolute (λ s, spec_spend s l).
Proof.
  induction l as [|i l IH]; [apply absolute_id|]. cbn [spec_spend].
  exact (absolute_compose (λ s, upd s (prevout i) None) (λ s, spec_spend s l) (absolute_upd _ _) IH).
Qed.
Lemma absolute_add txid height cb cs outs : ∀ i, absolute (λ s, spec_add s txid i outs height cb cs).
Proof.
  induction outs as [|o outs IH]; intros i; [apply absolute_id|]. cbn [spec_add].
  apply (absolute_compose (λ s, if IsUnspendable (scriptPubKey o) then s else upd s (mk_outpoint txid i) (Some (new_coin o height cb cs)))
           (λ s, spec_add s txid (i + 1) outs height cb cs)); [|apply IH].
  destruct (IsUnspendable (scriptPubKey o)); [apply absolute_id|apply absolute_upd].
Qed.

Section Coins.
Context `{C : Crypto}.
Definition spec_block (s : coins) (height : Z) (vtx : list CTransaction) : coins := foldl (λ s tx, spec_update s tx height) s vtx.
Fixpoint spec_blocks (s : coins) (height : Z) (blocks : list (list CTransaction)) : coins :=
  match blocks with [] => s | vtx :: blocks => spec_blocks (spec_block s height vtx) (height + 1) blocks end.
Lemma absolute_update tx height : absolute (λ s, spec_update s tx height).
Proof.
  unfold spec_update. apply (absolute_compose (λ s, if IsCoinBase tx then s else spec_spend s (vin tx))
    (λ s, spec_add s (GetHash tx) 0 (vout tx) height (IsCoinBase tx) (IsCoinStake tx))); [|apply absolute_add].
  destruct (IsCoinBase tx); [apply absolute_id|apply absolute_spend].
Qed.
Lemma absolute_block height vtx : absolute (λ s, spec_block s height vtx).
Proof.
  unfold spec_block. induction vtx as [|tx vtx IH]; [apply absolute_id|]. cbn [foldl].
  exact (absolute_compose (λ s, spec_update s tx height) (λ s, foldl (λ s tx, spec_update s tx height) s vtx) (absolute_update tx height) IH).
Qed.
Lemma absolute_blocks blocks : ∀ height, absolute (λ s, spec_blocks s height blocks).
Proof.
  induction blocks as [|vtx blocks IH]; intros height; [apply absolute_id|]. cbn [spec_blocks].
  exact (absolute_compose (λ s, spec_block s height vtx) (λ s, spec_blocks s (height + 1) blocks) (absolute_block height vtx) (IH _)).
Qed.
#[global] Instance spec_block_proper : Proper (same_coins ==> eq ==> eq ==> same_coins) spec_block.
Proof.
  intros s t E h ? <- vtx ? <-. unfold spec_block. revert s t E. induction vtx as [|tx vtx IH]; intros s t E; [done|]. cbn [foldl]. apply IH. by rewrite E.
Qed.
#[global] Instance spec_blocks_proper : Proper (same_coins ==> eq ==> eq ==> same_coins) spec_blocks.
Proof.
  intros s t E h ? <- bs ? <-. revert s t E h. induction bs as [|vtx bs IH]; intros s t E h; [done|]. cbn [spec_blocks]. apply IH. by rewrite E.
Qed.
(** So applying blocks again to coins some of which are already as after them gives
    the coins after them. *)
Lemma replayed s d height blocks :
  (∀ o, d o = s o ∨ d o = spec_blocks s height blocks o) → spec_blocks d height blocks ≐ spec_blocks s height blocks.
Proof.
  intros Hd o. destruct (absolute_blocks blocks height o) as [E|[x E]]; [|by rewrite !E].
  rewrite !E. destruct (Hd o) as [->|Ho]; [done|]. by rewrite Ho, E.
Qed.

(** ** Rolling forward *)

Section Forward.
Context {V : Type} `{CoinsViewReads V}.
Implicit Types c : CCoinsViewCache V.
Lemma spend_all_shows l : ∀ c, cache_ok c → becomes c (foldl (λ c i, (SpendCoin c (prevout i)).2) c l) (spec_spend (shows c) l).
Proof.
  induction l as [|i l IH]; intros c Hc; [by apply becomes_refl|]. cbn [foldl spec_spend].
  destruct (SpendCoin_shows c (prevout i) Hc) as (r & c1 & -> & Hb & _). pose proof Hb as (Hc1 & _ & _ & Hs1). cbn [snd].
  eapply becomes_trans; [exact Hb|]. eapply becomes_same; [by apply IH|]. by rewrite Hs1.
Qed.
Lemma add_checked_shows txid height cb cs outs : ∀ c i, cache_ok c → Forall (λ o, IsNull_txout o = false) outs →
  ∃ c', add_outputs c txid i outs height true cb cs = Ok c' ∧ becomes c c' (spec_add (shows c) txid i outs height cb cs).
Proof.
  induction outs as [|o outs IH]; intros c i Hc Hnull; cbn [add_outputs spec_add]; [by eexists|].
  apply Forall_cons in Hnull as [Ho Hnull]. destruct (HaveCoin_shows c (mk_outpoint txid i) Hc) as (c1 & -> & Hb).
  pose proof Hb as (Hc1 & _ & _ & Hs1). destruct (IsUnspendable (scriptPubKey o)) eqn:Hun.
  - unfold AddCoin at 1. change (IsSpent (new_coin o height cb cs)) with (IsNull_txout o). rewrite Ho.
    change (scriptPubKey (out (new_coin o height cb cs))) with (scriptPubKey o). rewrite Hun. cbn [rbind].
    destruct (IH c1 (i + 1) Hc1 Hnull) as (c2 & E & Hb2). exists c2. split; [exact E|]. eapply becomes_trans; [exact Hb|].
    eapply becomes_same; [exact Hb2|]. by rewrite Hs1.
  - destruct (AddCoin_shows c1 (mk_outpoint txid i) (new_coin o height cb cs) (bool_decide (is_Some (shows c (mk_outpoint txid i))))) as (c2 & -> & Hb2);
      [done..|intros Hf; apply bool_decide_eq_false in Hf; rewrite Hs1; by apply eq_None_not_Some|]. cbn [rbind].
    pose proof Hb2 as (Hc2 & _ & _ & Hs2). destruct (IH c2 (i + 1) Hc2 Hnull) as (c3 & E & Hb3). exists c3. split; [exact E|].
    eapply becomes_trans; [exact Hb|]. eapply becomes_trans; [exact Hb2|]. eapply becomes_same; [exact Hb3|]. by rewrite Hs2, Hs1.
Qed.
Definition outputs_ok (vtx : list CTransaction) : Prop := Forall (λ tx, Forall (λ o, IsNull_txout o = false) (vout tx)) vtx.
Lemma rollforward_txs_shows height vtx : ∀ c, cache_ok c → outputs_ok vtx →
  ∃ c', rollforward_txs c height vtx = Ok c' ∧ becomes c c' (spec_block (shows c) height vtx).
Proof.
  induction vtx as [|tx vtx IH]; intros c Hc Ho; cbn [rollforward_txs]; [by exists c|]. apply Forall_cons in Ho as [Ht Ho].
  set (c1 := if IsCoinBase tx then c else _). set (s1 := if IsCoinBase tx then shows c else spec_spend (shows c) (vin tx)).
  assert (becomes c c1 s1) as Hb by (unfold c1, s1; destruct (IsCoinBase tx); [by apply becomes_refl|by apply spend_all_shows]).
  pose proof Hb as (Hc1 & _ & _ & Hs1). unfold AddCoins.
  destruct (add_checked_shows (GetHash tx) height (IsCoinBase tx) (IsCoinStake tx) (vout tx) c1 0 Hc1 Ht) as (c2 & -> & Hb2). cbn [rbind].
  pose proof Hb2 as (Hc2 & _ & _ & Hs2). destruct (IH c2 Hc2 Ho) as (c3 & E & Hb3). exists c3. split; [exact E|].
  eapply becomes_trans; [exact Hb|]. eapply becomes_trans; [exact Hb2|]. eapply becomes_same; [exact Hb3|].
  change (spec_block (shows c2) height vtx ≐ spec_block (spec_update (shows c) tx height) height vtx). apply spec_block_proper; [|done..].
  rewrite Hs2. unfold spec_update. fold s1. by rewrite Hs1.
Qed.
End Forward.
End Coins.

(** ** What a stopped write leaves *)

Lemma db_write_some l : ∀ d o, foldl db_write d l !! o = d !! o ∨ ∃ e, (o, e) ∈ l ∧ foldl db_write d l !! o = visible e.
Proof.
  induction l as [|[o' e] l IH]; intros d o; [by left|]. cbn [foldl].
  destruct (IH (db_write d (o', e)) o) as [E|(e' & He & E)]; [|right; exists e'; split; [set_solver|done]]. rewrite E.
  destruct (decide (o' = o)) as [->|Hne]; unfold db_write; cbn [fst snd].
  - destruct (DIRTY e); [|by left]. right. exists e. split; [set_solver|]. unfold visible.
    destruct (IsSpent (coin e)); [apply lookup_delete_eq|apply lookup_insert_eq].
  - left. destruct (DIRTY e); [|done]. destruct (IsSpent (coin e)); [by rewrite lookup_delete_ne|by rewrite lookup_insert_ne].
Qed.
Lemma interrupted_coins v m h j o : 
  db (interrupted v m h j) !! o = db v !! o ∨ db (interrupted v m h j) !! o = overlay m (λ o, db v !! o) o.
Proof.
  unfold interrupted. cbn [db]. destruct (db_write_some (take j (map_to_list m)) (db v) o) as [E|(e & He & E)]; [by left|right].
  rewrite E. unfold overlay. assert ((o, e) ∈ map_to_list m) as Hm by (eapply elem_of_take in He as (i & He & _); by eapply list_elem_of_lookup_2).
  apply elem_of_map_to_list in Hm. by rewrite Hm.
Qed.

Section Recovery.
Context `{C : Crypto} (read_block : uint256 → option (list CTransaction)) (read_undo : uint256 → option (list (list Coin))) (MAX : Z).

(** The blocks of a chain from a height on are on disk. *)
Definition on_chain (idx : BlockMap) (h : uint256) (blocks : list (list CTransaction)) : Prop :=
  ∀ i vtx, blocks !! i = Some vtx → outputs_ok vtx ∧ ∃ p, back idx h (length blocks - S i) = Some p ∧ read_block p = Some vtx.
Lemma on_chain_tail idx h vtx blocks : on_chain idx h (vtx :: blocks) → on_chain idx h blocks.
Proof. intros H i v Hi. destruct (H (S i) v Hi) as (Ho & p & Hb & Hr). split; [done|]. exists p. split; [|done]. rewrite <- Hb. f_equal. Qed.
Lemma rollforward_shows {V} `{CoinsViewReads V} idx h new blocks : index_ok idx → idx !! h = Some new → ∀ (c : CCoinsViewCache V) height,
  0 ≤ height → height + size blocks = nHeight new + 1 → on_chain idx h blocks → cache_ok c →
  ∃ c', rollforward read_block idx (length blocks) c h height = Ok (Some c') ∧ becomes c c' (spec_blocks (shows c) height blocks).
Proof.
  intros Hok Hnew. induction blocks as [|vtx blocks IH]; intros c height Hh Hs Hon Hc; [by exists c|]. cbn [length rollforward].
  unfold size in Hs. cbn [length] in Hs. destruct (GetAncestor_walks idx h new height Hok Hnew) as (p & -> & Hb); [lia|]. cbn [on_index rbind non_null].
  destruct (Hon 0%nat vtx eq_refl) as (Ho & p' & Hb' & Hr). cbn [length] in Hb'.
  replace (Z.to_nat (nHeight new - height)) with (S (length blocks) - 1)%nat in Hb by lia. assert (p' = p) as -> by congruence.
  destruct (back_height_inv idx _ h new p Hok Hnew Hb) as (_ & b & Hp & Hpb). unfold RollforwardBlock, deref. rewrite Hp. cbn [on_index rbind]. rewrite Hr.
  assert (nHeight b = height) as Ehb by lia. rewrite Ehb.
  destruct (rollforward_txs_shows height vtx c Hc Ho) as (c1 & -> & Hb1). cbn [on_coins rbind]. pose proof Hb1 as (Hc1 & _ & _ & Hs1).
  destruct (IH c1 (height + 1)) as (c2 & E & Hb2); [lia|unfold size; lia|by eapply on_chain_tail|done|]. exists c2. split; [exact E|].
  eapply becomes_trans; [exact Hb1|]. eapply becomes_same; [exact Hb2|]. cbn [spec_blocks]. by rewrite Hs1.
Qed.

(** The height of the last block whose coins were on disk before the write. *)
Definition start_height (idx : BlockMap) (v : CCoinsViewDB) : Z :=
  if IsNull_hash (db_best v) then 0 else match idx !! db_best v with Some b => nHeight b | None => 0 end.
Lemma replay_from_ancestor idx h new old (k : nat) : index_ok idx → idx !! h = Some new → back idx h k = Some old → IsNull_hash old = false →
  replay_from idx h old = Ok (Some (Some old, Some old)).
Proof.
  intros Hok Hnew Hb Hn. unfold replay_from. rewrite Hn. destruct (back_height_inv idx k h new old Hok Hnew Hb) as (Hk & b & Hold & Hh). rewrite Hold.
  unfold LastCommonAncestor, deref. rewrite Hold, Hnew. cbn [rbind]. rewrite Z.gtb_ltb, (proj2 (Z.ltb_ge (nHeight new) _)) by lia. cbn [rbind].
  assert ((if nHeight new >? nHeight b then GetAncestor idx h (nHeight b) else Ok (Some h)) = Ok (Some old)) as E.
  { rewrite Z.gtb_ltb. destruct (Z.ltb_spec (nHeight b) (nHeight new)).
    - destruct (Hok old b Hold) as (Hb0 & _). destruct (GetAncestor_walks idx h new (nHeight b) Hok Hnew) as (q & -> & Hq); [lia|].
      replace (Z.to_nat (nHeight new - nHeight b)) with k in Hq by lia. congruence.
    - assert (k = 0%nat) as -> by lia. cbn in Hb. congruence. }
  rewrite E. cbn [rbind]. assert (∀ f, common_loop idx f (Some old) (Some old) = Ok (Some old)) as ->; [|done].
  intros [|f]; cbn [common_loop]; by rewrite decide_True.
Qed.

(** The last write: it is the one on record. *)
Lemma replay_flush v m h j (c : CCoinsViewCache replay_db) s :
  cache_ok c → base c = mk_replay (interrupted v m h j) → shows c ≐ s → IsNull_hash h = false →
  ∃ d, Flush (SetBestBlock c h) = Ok (mk_cache (mk_replay d) ∅ h) ∧ db_best d = h ∧ db_heads d = [] ∧ same_coins (λ o, db d !! o) s.
Proof.
  intros [Hv He] Hb Hs Hn. unfold Flush, SetBestBlock. cbn [base cacheCoins hashBlock BatchWrite replay_view].
  rewrite Hb in *. cbn [on_disk]. unfold db_BatchWrite. rewrite Hn. cbn [interrupted db_best db_heads length nth].
  rewrite bool_decide_eq_true_2 by done. cbn [negb]. rewrite !andb_false_r. cbn [rbind].
  eexists. split; [done|]. cbn [db_best db_heads db]. split_and!; [done|done|].
  destruct (db_write_spec (map_to_list (cacheCoins c)) (db (interrupted v m h j))) as [H1 _]; [apply NoDup_fst_map_to_list|by apply fits_map|done|].
  intros o. rewrite H1, over_list_map, <- Hs. unfold shows. by rewrite Hb.
Qed.
Lemma interrupted_ok v m h j : view_ok v → entries_ok m (λ o, db v !! o) → cache_ok (mk_cache (mk_replay (interrupted v m h j)) ∅ null_hash).
Proof.
  intros [_ Hv] He. split; [|intros o e; cbn; by rewrite lookup_empty]. intros o c. cbn [base on_disk].
  destruct (interrupted_coins v m h j o) as [->| ->]; [apply Hv|]. unfold overlay.
  destruct (m !! o) as [e|]; [by intros [? ?]%visible_Some|apply Hv].
Qed.
Lemma replay_start idx v m h new j : index_ok idx → idx !! h = Some new → view_ok v →
  (IsNull_hash (db_best v) = false → ∃ k, back idx h k = Some (db_best v)) →
  ∃ p, replay_from idx h (old_tip v) = Ok (Some (p, p)) ∧ match p ≫= (idx !!.) with Some b => nHeight b | None => 0 end = start_height idx v ∧
    db_heads (interrupted v m h j) = [h; old_tip v].
Proof.
  intros Hok Hnew [Hheads _] Hold. unfold old_tip, start_height. rewrite Hheads. destruct (IsNull_hash (db_best v)) eqn:Hn.
  - exists None. split_and!; [unfold replay_from; by rewrite Hn|done|]. unfold interrupted, old_tip. cbn [db_heads]. by rewrite Hn, Hheads.
  - destruct (Hold eq_refl) as [k Hk]. exists (Some (db_best v)). split_and!; [by apply (replay_from_ancestor idx h new _ k)|done|].
    unfold interrupted, old_tip. cbn [db_heads]. by rewrite Hn.
Qed.

(** C34: recovery from a crash while blocks were only added.  A database shows the
    coins of its best block (or none yet).  That block is an ancestor of the new best
    block: the cache that is written shows the coins after some more blocks on top of
    it, which are in the index and can be read from disk, and it took no block back
    (the theorem below is about writes that did).  The write is stopped when
    any number of the entries has reached the disk.  Then [ReplayBlocks] succeeds: the
    database ends with exactly the coins after those blocks, the new best block and no
    write on record. *)
Theorem replay_after_crash idx v m h new blocks j :
  index_ok idx → idx !! h = Some new → IsNull_hash h = false → view_ok v → entries_ok m (λ o, db v !! o) →
  (IsNull_hash (db_best v) = false → ∃ k, back idx h k = Some (db_best v)) →
  start_height idx v + size blocks = nHeight new → on_chain idx h blocks →
  overlay m (λ o, db v !! o) ≐ spec_blocks (λ o, db v !! o) (start_height idx v + 1) blocks →
  ∃ d, ReplayBlocks read_block read_undo MAX idx (mk_replay (interrupted v m h j)) = Ok (true, mk_replay d) ∧
    db_best d = h ∧ db_heads d = [] ∧ ∀ o, db d !! o = spec_blocks (λ o, db v !! o) (start_height idx v + 1) blocks o.
Proof.
  intros Hok Hnew Hn Hv He Hold Hsize Hon Hov. destruct (replay_start idx v m h new j Hok Hnew Hv Hold) as (p & Hp & Hh & Hheads).
  unfold ReplayBlocks. cbn [on_disk]. rewrite Hheads, Hnew, Hp. cbn [rbind]. rewrite Hh.
  set (c0 := mk_cache _ ∅ null_hash). assert (cache_ok c0) as Hc0 by (by apply interrupted_ok).
  assert (∀ f, rollback read_block read_undo MAX idx f c0 p p = Ok (Some c0)) as -> by (intros [|f]; cbn [rollback]; by rewrite decide_True).
  cbn [rbind]. assert (0 ≤ start_height idx v) as H0.
  { unfold start_height. destruct (IsNull_hash (db_best v)); [done|]. destruct (idx !! db_best v) eqn:Eb; [|done]. by apply Hok in Eb as (? & _). }
  replace (Z.to_nat (nHeight new - start_height idx v)) with (length blocks) by (unfold size in Hsize; lia).
  destruct (rollforward_shows idx h new blocks Hok Hnew c0 (start_height idx v + 1)) as (c1 & -> & Hc1 & Hb1 & _ & Hs1); [lia|lia|done|done|]. cbn [rbind].
  destruct (replay_flush v m h j c1 _ Hc1 Hb1 Hs1 Hn) as (d & -> & Hbest & Hhd & Hd). cbn [on_coins rbind base]. exists d. split_and!; [done..|].
  intros o. rewrite (Hd o). apply (replayed (λ o, db v !! o)). intros o'. rewrite <- (Hov o'). apply interrupted_coins.
Qed.

(** C35: when the stopped write also took blocks back (the old head is not below the new
    one), [ReplayBlocks] never finishes: the first block to roll back is given to
    [DisconnectBlock], which asserts that it is the best block of the view, and an
    unfinished write has erased the best block.  The program stops there at every
    start. *)
Theorem replay_of_reorganization_asserts idx v m h new old f b vtx prev j :
  idx !! h = Some new → view_ok v → db_best v = old → IsNull_hash old = false → idx !! old = Some b →
  LastCommonAncestor idx old h = Ok (Some f) → f ≠ old → 0 < nHeight b → pprev b = Some prev → read_block old = Some vtx →
  ReplayBlocks read_block read_undo MAX idx (mk_replay (interrupted v m h j)) = Err (coin_failure assertion).
Proof.
  intros Hnew [Hheads _] Hbest Hn Hb Hf Hne Hh Hprev Hr. unfold ReplayBlocks. cbn [on_disk].
  assert (old_tip v = old) as Ho by (unfold old_tip; by rewrite Hbest, Hn). unfold interrupted at 1. cbn [db_heads]. rewrite Hnew, Ho.
  unfold replay_from. rewrite Hn, Hb, Hf. cbn [on_index rbind mbind option_bind]. rewrite Hb.
  replace (Z.to_nat (nHeight b + 1)) with (S (Z.to_nat (nHeight b))) by lia. cbn [rollback]. rewrite decide_False by congruence.
  cbn [non_null rbind]. unfold deref. rewrite Hb. cbn [on_index rbind]. rewrite Z.gtb_ltb, (proj2 (Z.ltb_lt 0 _)) by lia. rewrite Hr, Hprev. cbn [non_null rbind].
  unfold DisconnectBlock, cache_GetBestBlock. cbn [hashBlock base]. change (IsNull_hash null_hash) with true. cbv iota.
  change (GetBestBlock (mk_replay (interrupted v m h j))) with null_hash. rewrite bool_decide_eq_false_2; [done|].
  intros ->. discriminate Hn.
Qed.
End Recovery.

(** ** Examples on the small index of ChainFacts *)

Definition replay_block : list CTransaction := [sample_coinbase; sample_spend].
Definition before_crash (best : uint256) : CCoinsViewDB := mk_db {[ sample_outpoint := sample_coin ]} best [].
Lemma before_crash_ok best : view_ok (before_crash best).
Proof. split; [done|]. intros o c Hc. cbn in Hc. apply lookup_singleton_Some in Hc as [_ <-]. done. Qed.
Lemma replay_block_ok : outputs_ok replay_block.
Proof. by repeat constructor. Qed.
Lemma replay_block_on_chain : on_chain (λ _, Some replay_block) sample_index hash_a [replay_block].
Proof. intros [|i] vtx; [|done]. intros [= <-]. split; [exact replay_block_ok|]. by exists hash_a. Qed.
Lemma before_crash_cache : cache_ok (mk_cache (before_crash hash_g) ∅ hash_g).
Proof. split; [apply before_crash_ok|]. intros o e. cbn. by rewrite lookup_empty. Qed.

(** A block on top of the first one was applied in the cache; one of its entries
    reached the disk. *)
Lemma replay_after_crash_witness :
  ∃ m d, overlay m (λ o, db (before_crash hash_g) !! o) sample_outpoint = None ∧
    ReplayBlocks (C:=toy_crypto) (λ _, Some replay_block) (λ _, None) 1000 sample_index (mk_replay (interrupted (before_crash hash_g) m hash_a 1))
      = Ok (true, mk_replay d) ∧ db_best d = hash_a ∧ db d !! sample_outpoint = None.
Proof.
  destruct (rollforward_txs_shows (C:=toy_crypto) 1 replay_block (mk_cache (before_crash hash_g) ∅ hash_g) before_crash_cache replay_block_ok)
    as (c1 & _ & (_ & He) & Hb & _ & Hs).
  rewrite Hb in He. cbn [base] in He.
  assert (overlay (cacheCoins c1) (λ o, db (before_crash hash_g) !! o) ≐ spec_blocks (C:=toy_crypto) (λ o, db (before_crash hash_g) !! o) 1 [replay_block]) as Hov.
  { intros o. cbn [spec_blocks]. unfold shows in Hs. rewrite Hb in Hs. exact (Hs o). }
  assert (spec_blocks (C:=toy_crypto) (λ o, db (before_crash hash_g) !! o) 1 [replay_block] sample_outpoint = None) as Hspent by (vm_compute; reflexivity).
  exists (cacheCoins c1).
  destruct (replay_after_crash (C:=toy_crypto) (λ _, Some replay_block) (λ _, None) 1000 sample_index (before_crash hash_g) (cacheCoins c1) hash_a
    (sample_entry (Some hash_g) (Some hash_g) 1 100) [replay_block] 1) as (d & E & H1 & _ & H2).
  - exact sample_index_ok.
  - vm_compute. reflexivity.
  - reflexivity.
  - apply before_crash_ok.
  - exact He.
  - intros _. exists 1%nat. vm_compute. reflexivity.
  - vm_compute. reflexivity.
  - exact replay_block_on_chain.
  - exact Hov.
  - exists d. split; [rewrite (Hov sample_outpoint); exact Hspent|]. split; [exact E|]. split; [exact H1|]. rewrite (H2 sample_outpoint). exact Hspent.
Defined.
Lemma replay_of_reorganization_asserts_witness :
  ReplayBlocks (C:=toy_crypto) (λ _, Some replay_block) (λ _, Some [[sample_coin]]) 1000 sample_index (mk_replay (interrupted (before_crash hash_b) ∅ hash_a 0))
    = Err (coin_failure assertion).
Proof.
  apply (replay_of_reorganization_asserts (C:=toy_crypto) (λ _, Some replay_block) (λ _, Some [[sample_coin]]) 1000 sample_index (before_crash hash_b) ∅ hash_a
    (sample_entry (Some hash_g) (Some hash_g) 1 100) hash_b hash_g (sample_entry (Some hash_g) (Some hash_g) 1 200) replay_block hash_g 0).
  - vm_compute. reflexivity.
  - apply before_crash_ok.
  - reflexivity.
  - reflexivity.
  - vm_compute. reflexivity.
  - vm_compute. reflexivity.
  - vm_compute. discriminate.
  - reflexivity.
  - reflexivity.
  - reflexivity.
Defined.
