(* ===== verification/PartialMerkleFacts.v ===== *)
(** * Partial Merkle trees: what is sent is extracted, and nothing else can be

    The nodes at a height are the list [level]; [CalcHash] and [ComputeMerkleRoot]
    are read off it.  Then the traversal that extracts is compared with the levels,
    once from the side of the sender and once for any message. *)
From S2P Require Import Prelude ArithUint256 Script Interpreter InterpreterFacts InterpreterSpecs Serialize Transaction Block TxVerify HashFunctions PartialMerkle.

(** ** The levels of the tree *)

Section Levels.
Context `{C : Crypto} `{CS : !CryptoSizes C}.

Fixpoint level (h : nat) (l : list uint256) : list uint256 :=
  match h with O => l | S h => next_level (level h l) end.
Lemma level_succ h l : level (S h) l = level h (next_level l).
Proof. induction h as [|h IH]; [done|]. cbn [level] in *. by rewrite IH. Qed.

Lemma SHA256D64_lookup l : ∀ i, SHA256D64 l !! i = (a ← l !! (i * 2)%nat; b ← l !! (i * 2 + 1)%nat; Some (CHash256 (a ++ b))).
Proof.
  induction l as [|x|a b l IH] using pairs_ind; intros i; cbn [SHA256D64]; [done| |].
  - destruct i; [done|]. by rewrite Nat.add_comm.
  - destruct i as [|i]; [done|]. cbn [lookup list_lookup]. rewrite IH. done.
Qed.
Lemma complete_lookup l i a : l !! (i * 2)%nat = Some a →
  complete l !! (i * 2)%nat = Some a ∧ complete l !! (i * 2 + 1)%nat = Some (default a (l !! (i * 2 + 1)%nat)).
Proof.
  intros Ha. pose proof (lookup_lt_Some _ _ _ Ha) as Hlt. unfold complete. destruct (Nat.odd (length l)) eqn:Ho.
  - rewrite !lookup_app_l by done. split; [done|]. apply Nat.odd_spec in Ho as [m Hm].
    destruct (decide (i * 2 + 1 < length l)%nat) as [H|H].
    + rewrite lookup_app_l by done. by destruct (lookup_lt_is_Some_2 _ _ H) as [b ->].
    + assert (i = m) as -> by lia. rewrite (lookup_ge_None_2 l) by lia. cbn [default from_option id].
      rewrite lookup_app_r by lia. replace (m * 2 + 1 - length l)%nat with 0%nat by lia. cbn [lookup list_lookup]. f_equal.
      destruct (snoc_cases l) as [->|(k & x & ->)]; [done|]. rewrite List.last_last. rewrite length_app in Hm. cbn [length] in Hm.
      rewrite lookup_app_r in Ha by lia. replace (m * 2 - length k)%nat with 0%nat in Ha by lia. cbn [lookup list_lookup] in Ha. by simplify_eq.
  - split; [done|]. assert (Nat.even (length l) = true) as [m Hm]%Nat.even_spec by (by rewrite <- Nat.negb_odd, Ho).
    by destruct (lookup_lt_is_Some_2 l (i * 2 + 1)%nat ltac:(lia)) as [b ->].
Qed.
Lemma next_level_lookup l i a : l !! (i * 2)%nat = Some a →
  next_level l !! i = Some (CHash256 (a ++ default a (l !! (i * 2 + 1)%nat))).
Proof. intros [H1 H2]%complete_lookup. unfold next_level. by rewrite SHA256D64_lookup, H1, H2. Qed.
(** A node has its left child, and its right child unless that is beyond the end. *)
Lemma level_children h l pos x : level (S h) l !! pos = Some x →
  ∃ a, level h l !! (pos * 2)%nat = Some a ∧ x = CHash256 (a ++ default a (level h l !! (pos * 2 + 1)%nat)).
Proof.
  intros Hx. pose proof (lookup_lt_Some _ _ _ Hx) as Hlt. cbn [level] in *.
  pose proof (next_level_length (level h l)) as Hn.
  destruct (lookup_lt_is_Some_2 (level h l) (pos * 2)%nat ltac:(lia)) as [a Ha].
  exists a. split; [done|]. rewrite (next_level_lookup _ _ _ Ha) in Hx. by simplify_eq.
Qed.
Lemma equal_pair_lookup l : ∀ i a b, equal_pair l = false → l !! (i * 2)%nat = Some a → l !! (i * 2 + 1)%nat = Some b → a ≠ b.
Proof.
  induction l as [| |x y l IH] using pairs_ind; intros i a b; cbn [equal_pair]; [done| |].
  - by destruct i; [|rewrite Nat.add_comm].
  - intros [Hxy Hl]%orb_false_iff. apply bool_decide_eq_false in Hxy. destruct i as [|i]; cbn [lookup list_lookup Nat.mul Nat.add]; [naive_solver|].
    by apply IH.
Qed.

Lemma level_length l h : Z.of_nat (length (level h l)) = (size l + 2 ^ Z.of_nat h - 1) / 2 ^ Z.of_nat h.
Proof.
  induction h as [|h IH]; cbn [level]. { change (2 ^ Z.of_nat 0) with 1. rewrite Z.div_1_r. unfold size. lia. }
  assert (Z.of_nat (length (next_level (level h l))) = (Z.of_nat (length (level h l)) + 1) / 2) as ->.
  { pose proof (next_level_length (level h l)). apply Z.div_unique with (if Nat.odd (length (level h l)) then 0 else 1); [|].
    - left. destruct (Nat.odd _); lia.
    - destruct (Nat.odd (length (level h l))) eqn:Ho; [apply Nat.odd_spec in Ho as [m Hm]; lia|].
      assert (Nat.even (length (level h l)) = true) as [m Hm]%Nat.even_spec by (by rewrite <- Nat.negb_odd, Ho). lia. }
  rewrite IH, Nat2Z.inj_succ, Z.pow_succ_r by lia. pose proof (Z.pow_pos_nonneg 2 (Z.of_nat h)).
  rewrite <- Z.div_add with (b := 1) by lia. rewrite Z.mul_1_l, Z.div_div by lia.
  rewrite (Z.mul_comm 2). f_equal. lia.
Qed.
Lemma CalcTreeWidth_level l h : size l < 2 ^ 30 → (h < 31)%nat → CalcTreeWidth (u32 (size l)) h = Z.of_nat (length (level h l)).
Proof.
  intros Hl Hh. pose proof (size_nonneg l). rewrite level_length. unfold CalcTreeWidth.
  assert (0 < 2 ^ Z.of_nat h ≤ 2 ^ 30) by (split; [apply Z.pow_pos_nonneg; lia|apply Z.pow_le_mono_r; lia]).
  rewrite Z.shiftl_1_l, shr_div, !u32_small by (rewrite ?u32_small; lia). f_equal.
Qed.

(** The loop that finds the height stops at the root. *)
Lemma tree_height_loop_spec l f h : l ≠ [] → size l ≤ 2 ^ 25 → (h ≤ 25)%nat → (26 ≤ f + h)%nat →
  let k := tree_height_loop f (u32 (size l)) h in
  (h ≤ k ≤ 25)%nat ∧ length (level k l) = 1%nat ∧ ∀ i, (h ≤ i < k)%nat → (1 < length (level i l))%nat.
Proof.
  intros Hne Hl. revert h. induction f as [|f IH]; intros h Hh Hf; [lia|]. cbn [tree_height_loop].
  rewrite CalcTreeWidth_level by lia.
  assert (0 < size l) by (destruct l; [done|unfold size; cbn [length]; lia]).
  pose proof (level_length l h) as Hw. assert (0 < 2 ^ Z.of_nat h) by (apply Z.pow_pos_nonneg; lia).
  assert (1 ≤ length (level h l))%nat.
  { enough (1 ≤ Z.of_nat (length (level h l))) by lia. rewrite Hw. apply Z.div_le_lower_bound; lia. }
  destruct (Z.gtb_spec (Z.of_nat (length (level h l))) 1) as [Hgt|Hle].
  - assert (h ≠ 25)%nat.
    { intros ->. enough ((size l + 2 ^ Z.of_nat 25 - 1) / 2 ^ Z.of_nat 25 < 2) by lia. apply Z.div_lt_upper_bound; lia. }
    destruct (IH (S h)) as (K1 & K2 & K3); [lia..|]. split_and!; [lia|lia|done|].
    intros i Hi. destruct (decide (i = h)) as [->|]; [lia|]. apply K3. lia.
  - split_and!; [lia|lia|lia|]. intros i ?. lia.
Qed.
Lemma tree_height_spec l : l ≠ [] → size l ≤ 2 ^ 25 →
  let k := tree_height (u32 (size l)) in
  (k ≤ 25)%nat ∧ length (level k l) = 1%nat ∧ ∀ i, (i < k)%nat → (1 < length (level i l))%nat.
Proof.
  intros Hne Hl. destruct (tree_height_loop_spec l 32 0) as (H1 & H2 & H3); [done|done|lia|lia|].
  unfold tree_height. split_and!; [lia|done|]. intros i ?. apply H3. lia.
Qed.

(** The root is the only node of the last level, and the flag tells equal
    neighbours at any level. *)
Lemma merkle_loop_level k : ∀ l f m,
  (∀ i, (i < k)%nat → (1 < length (level i l))%nat) → length (level k l) = 1%nat → (length l ≤ f)%nat →
  ∃ b, merkle_loop f l m = (level k l, b) ∧ (b = false → m = false ∧ ∀ i, (i < k)%nat → equal_pair (level i l) = false).
Proof.
  induction k as [|k IH]; intros l f m Hgt Hk Hf.
  - exists m. cbn [level] in *. rewrite merkle_loop_last by lia. split; [done|]. intros ->. split; [done|]. intros i ?. lia.
  - destruct (merkle_loop_step f l m) as (f' & -> & Hf'). { split; [apply (Hgt 0%nat); lia|done]. }
    destruct (IH (next_level l) f' (m || equal_pair l)) as (b & -> & Hb).
    { intros i ?. rewrite <- level_succ. apply Hgt. lia. }
    { by rewrite <- level_succ. }
    { done. }
    exists b. rewrite level_succ. split; [done|]. intros [[Hm He]%orb_false_iff Hi]%Hb. split; [done|].
    intros [|i] ?; [done|]. rewrite level_succ. apply Hi. lia.
Qed.
Lemma ComputeMerkleRoot_level l : l ≠ [] → size l ≤ 2 ^ 25 →
  let k := tree_height (u32 (size l)) in
  level k l = [(ComputeMerkleRoot l).1] ∧
  ((ComputeMerkleRoot l).2 = false → ∀ i, (i < k)%nat → equal_pair (level i l) = false).
Proof.
  intros Hne Hl k. destruct (tree_height_spec l Hne Hl) as (_ & H1 & Hgt). fold k in H1, Hgt.
  destruct (merkle_loop_level k l (length l) false Hgt H1 ltac:(lia)) as (b & E & Hb).
  unfold ComputeMerkleRoot. rewrite E. destruct (level k l) as [|r [|]] eqn:El; try done.
  split; [done|]. cbn. intros Hm. by apply Hb.
Qed.
End Levels.

(** ** Extraction from any message *)

Section Extraction.
Context `{C : Crypto} `{CS : !CryptoSizes C} (l : list uint256) (Hsz : hash_sized l) (Hl : size l ≤ 2 ^ 25).
Implicit Types t : CPartialMerkleTree.

Lemma level_sized h : hash_sized (level h l).
Proof. destruct h; [done|apply SHA256D64_sized]. Qed.
Lemma CHash256_sized x : size (CHash256 x) = 32.
Proof. apply CSHA256_size. Qed.
Lemma use_hash_sized t b pos st : hash_sized (vHash t) → size (use_hash t b pos st).1 = 32.
Proof. intros Ht. unfold use_hash. destruct (vHash t !! nHashUsed st) eqn:E; [|done]. by eapply Forall_lookup_1 in Ht. Qed.
Lemma TraverseAndExtract_sized t h : ∀ pos st, hash_sized (vHash t) → size (TraverseAndExtract t h pos st).1 = 32.
Proof.
  destruct h as [|h]; intros pos st Ht; cbn [TraverseAndExtract]; (destruct (vBits t !! nBitsUsed st) as [[]|]; [|by apply use_hash_sized|done]);
    cbn [negb]; [by apply use_hash_sized|]. repeat case_match; apply CHash256_sized.
Qed.
Lemma use_hash_bad t b pos st : ex_bad (use_hash t b pos st).2 = false → ex_bad st = false ∧ ∃ x, vHash t !! nHashUsed st = Some x.
Proof. unfold use_hash. destruct (vHash t !! nHashUsed st) as [x|]; [|done]. destruct b; cbn; eauto. Qed.
(** The flag [fBad] is never cleared. *)
Lemma TraverseAndExtract_bad t h : ∀ pos st, ex_bad (TraverseAndExtract t h pos st).2 = false → ex_bad st = false.
Proof.
  induction h as [|h IH]; intros pos st; cbn [TraverseAndExtract]; (destruct (vBits t !! nBitsUsed st) as [b|]; [|done]).
  { by intros [? _]%use_hash_bad. }
  destruct b; cbn [negb]; [|by intros [? _]%use_hash_bad].
  destruct (TraverseAndExtract t h (pos * 2) (take_bit st)) as [x s1] eqn:E1.
  assert (ex_bad s1 = false → ex_bad st = false) as H1 by (intros Hb; apply (IH (pos * 2)%nat (take_bit st)); by rewrite E1).
  destruct (Z.of_nat (pos * 2 + 1) <? CalcTreeWidth (nTransactions t) h); [|done].
  destruct (TraverseAndExtract t h (pos * 2 + 1) s1) as [y s2] eqn:E2. cbn [snd].
  intros Hb. apply H1, (IH (pos * 2 + 1)%nat). rewrite E2. by destruct (bool_decide (y = x)).
Qed.

(** [new] are matches that are transactions of the block at their positions. *)
Definition true_matches (st st' : extraction) : Prop :=
  ∃ new : list (nat * uint256), ex_match st' = ex_match st ++ new.*2 ∧ ex_index st' = ex_index st ++ (Z.of_nat <$> new.*1) ∧
    Forall (λ p, l !! p.1 = Some p.2) new.
Lemma true_matches_none st st' : ex_match st' = ex_match st → ex_index st' = ex_index st → true_matches st st'.
Proof. intros E1 E2. exists []. cbn. by rewrite !app_nil_r. Qed.
Lemma true_matches_trans st1 st2 st3 : true_matches st1 st2 → true_matches st2 st3 → true_matches st1 st3.
Proof.
  intros (k1 & M1 & I1 & F1) (k2 & M2 & I2 & F2). exists (k1 ++ k2). rewrite M2, M1, I2, I1, !fmap_app, !app_assoc.
  split_and!; [done..|by apply Forall_app].
Qed.

(** If the hash of a node comes out, the matches below it are true. *)
Lemma TraverseAndExtract_true t : nTransactions t = u32 (size l) → hash_sized (vHash t) →
  ∀ h pos st x, (h ≤ 25)%nat → level h l !! pos = Some x →
  (TraverseAndExtract t h pos st).1 = x → ex_bad (TraverseAndExtract t h pos st).2 = false →
  true_matches st (TraverseAndExtract t h pos st).2 ∨ collision C.
Proof.
  intros Hn Ht h. induction h as [|h IH]; intros pos st x Hh Hx; cbn [TraverseAndExtract];
    (destruct (vBits t !! nBitsUsed st) as [b|]; [|done]).
  { intros Hr [_ [y Hy]]%use_hash_bad. left. unfold use_hash in *. rewrite Hy in *. cbn in Hr; subst y.
    destruct b; [|by apply true_matches_none]. exists [(pos, x)]. split_and!; [done..|]. by constructor. }
  destruct b; cbn [negb]; cycle 1.
  { intros _ [_ [y Hy]]%use_hash_bad. left. apply true_matches_none; unfold use_hash; by rewrite Hy. }
  apply level_children in Hx as (a & Ha & ->).
  pose proof (TraverseAndExtract_sized t h (pos * 2) (take_bit st) Ht) as S1. pose proof (IH (pos * 2)%nat (take_bit st)) as IH1.
  pose proof (TraverseAndExtract_bad t h) as Hbad.
  destruct (TraverseAndExtract t h (pos * 2) (take_bit st)) as [y s1] eqn:E1. cbn [fst snd] in S1, IH1.
  assert (size a = 32) as Sa by (by eapply (Forall_lookup_1 _ _ _ _ (level_sized h))).
  rewrite Hn, CalcTreeWidth_level by lia. destruct (Z.ltb_spec (Z.of_nat (pos * 2 + 1)) (Z.of_nat (length (level h l)))) as [Hlt|Hge].
  - destruct (lookup_lt_is_Some_2 (level h l) (pos * 2 + 1)%nat ltac:(lia)) as [b Hb]. rewrite Hb. cbn [default from_option id].
    pose proof (IH (pos * 2 + 1)%nat s1) as IH2. specialize (Hbad (pos * 2 + 1)%nat s1).
    destruct (TraverseAndExtract t h (pos * 2 + 1) s1) as [z s2]. cbn [fst snd] in *.
    intros [E|?]%CHash256_inj Hnb; [|by right]. apply app_sized_inj in E as [-> ->]; [|done..].
    revert Hnb. destruct (bool_decide (b = a)); [done|]. intros Hnb.
    destruct (IH1 a) as [T1|?]; [lia|done|done|by apply Hbad| |by right].
    destruct (IH2 b) as [T2|?]; [lia|done..| |by right]. left. by apply (true_matches_trans _ s1).
  - rewrite (lookup_ge_None_2 (level h l) (pos * 2 + 1)) by lia. cbn [default from_option id fst snd].
    intros [E|?]%CHash256_inj Hnb; [|by right]. apply app_sized_inj in E as [-> _]; [|done..]. destruct (IH1 a) as [T1|?]; [lia|done..| |by right]. by left.
Qed.
End Extraction.

(** ** What is built *)

Lemma lookup_head {A} (pre k post : list A) x : (pre ++ (x :: k) ++ post) !! length pre = Some x.
Proof. by rewrite <- app_comm_cons, list_lookup_middle. Qed.

Section Building.
Context `{C : Crypto} `{CS : !CryptoSizes C} (l : list uint256) (vMatch : list bool).
Context (Hsz : hash_sized l) (Hl : size l ≤ 2 ^ 25).
Abbreviation n := (u32 (size l)).

(** The bits and hashes stored for the subtree of a node. *)
Inductive built : nat → nat → list bool → list uint256 → Prop :=
  | built_leaf pos x : l !! pos = Some x → built 0 pos [parent_of_match n 0 pos vMatch] [x]
  | built_pruned h pos x : level (S h) l !! pos = Some x → parent_of_match n (S h) pos vMatch = false → built (S h) pos [false] [x]
  | built_left h pos b1 h1 : parent_of_match n (S h) pos vMatch = true → built h (pos * 2) b1 h1 →
      (length (level h l) ≤ pos * 2 + 1)%nat → built (S h) pos (true :: b1) h1
  | built_both h pos b1 h1 b2 h2 : parent_of_match n (S h) pos vMatch = true → built h (pos * 2) b1 h1 →
      (pos * 2 + 1 < length (level h l))%nat → built h (pos * 2 + 1) b2 h2 →
      built (S h) pos (true :: b1 ++ b2) (h1 ++ h2).

Lemma CalcHash_level h : ∀ pos, (h ≤ 25)%nat → (pos < length (level h l))%nat → CalcHash n h pos l = level h l !! pos.
Proof.
  induction h as [|h IH]; intros pos Hh [x Hx]%lookup_lt_is_Some_2; [done|]. rewrite Hx.
  apply level_children in Hx as (a & Ha & ->). pose proof (lookup_lt_Some _ _ _ Ha).
  cbn [CalcHash]. rewrite (IH (pos * 2)%nat), Ha by lia. cbn [mbind option_bind]. rewrite CalcTreeWidth_level by lia.
  destruct (Z.ltb_spec (Z.of_nat (pos * 2 + 1)) (Z.of_nat (length (level h l)))).
  - rewrite IH by lia. by destruct (lookup_lt_is_Some_2 (level h l) (pos * 2 + 1)%nat ltac:(lia)) as [b ->].
  - by rewrite (lookup_ge_None_2 (level h l) (pos * 2 + 1)) by lia.
Qed.

Lemma TraverseAndBuild_built h : ∀ pos, (h ≤ 25)%nat → (pos < length (level h l))%nat →
  ∃ bits hashes, TraverseAndBuild n h pos l vMatch = Some (bits, hashes) ∧ built h pos bits hashes.
Proof.
  induction h as [|h IH]; intros pos Hh Hpos; destruct (lookup_lt_is_Some_2 _ _ Hpos) as [x Hx]; cbn [TraverseAndBuild].
  { rewrite CalcHash_level, Hx by done. do 2 eexists. split; [done|by constructor]. }
  destruct (parent_of_match n (S h) pos vMatch) eqn:Hp; cbn [negb]; cycle 1.
  { rewrite CalcHash_level, Hx by done. do 2 eexists. split; [done|by constructor]. }
  apply level_children in Hx as (a & Ha & _). pose proof (lookup_lt_Some _ _ _ Ha).
  destruct (IH (pos * 2)%nat) as (b1 & h1 & -> & B1); [lia|done|]. cbn [mbind option_bind]. rewrite CalcTreeWidth_level by lia.
  destruct (Z.ltb_spec (Z.of_nat (pos * 2 + 1)) (Z.of_nat (length (level h l)))).
  - destruct (IH (pos * 2 + 1)%nat) as (b2 & h2 & -> & B2); [lia..|]. do 2 eexists. split; [done|]. apply built_both; [done..|lia|done].
  - do 2 eexists. split; [done|]. cbn [fst snd]. rewrite !app_nil_r. apply built_left; [done..|lia].
Qed.

(** The positions below a node that are selected. *)
Definition selected (s k : nat) : list nat := List.filter (λ p, (Z.of_nat p <? n) && nth p vMatch false) (seq s k).
Lemma filter_existsb {A} (f : A → bool) k : existsb f k = false → List.filter f k = [].
Proof. induction k as [|x k IH]; cbn; [done|]. intros [-> ?]%orb_false_iff. by apply IH. Qed.
Lemma selected_none h pos : parent_of_match n h pos vMatch = false → selected (pos * 2 ^ h) (2 ^ h) = [].
Proof. apply filter_existsb. Qed.
Lemma selected_halves h pos :
  selected (pos * 2 ^ S h) (2 ^ S h) = selected (pos * 2 * 2 ^ h) (2 ^ h) ++ selected ((pos * 2 + 1) * 2 ^ h) (2 ^ h).
Proof.
  unfold selected. rewrite <- List.filter_app. f_equal. rewrite Nat.pow_succ_r'.
  replace (pos * (2 * 2 ^ h))%nat with (pos * 2 * 2 ^ h)%nat by lia. replace (2 * 2 ^ h)%nat with (2 ^ h + 2 ^ h)%nat by lia.
  rewrite List.seq_app. do 2 f_equal. lia.
Qed.
(** Nothing is below a node beyond the end of its level. *)
Lemma leaves_end h pos : (length (level h l) ≤ pos)%nat → size l ≤ Z.of_nat (pos * 2 ^ h).
Proof.
  intros Hp. pose proof (level_length l h) as E. assert (0 < 2 ^ Z.of_nat h) by (apply Z.pow_pos_nonneg; lia).
  rewrite Nat2Z.inj_mul, Nat2Z.inj_pow. change (Z.of_nat 2) with 2.
  assert ((size l + 2 ^ Z.of_nat h - 1) / 2 ^ Z.of_nat h ≤ Z.of_nat pos) as Hq by lia.
  pose proof (Z.div_mod (size l + 2 ^ Z.of_nat h - 1) (2 ^ Z.of_nat h)).
  pose proof (Z.mod_pos_bound (size l + 2 ^ Z.of_nat h - 1) (2 ^ Z.of_nat h)). nia.
Qed.
Lemma leaves_start h pos : (pos < length (level h l))%nat → Z.of_nat (pos * 2 ^ h) < size l.
Proof.
  intros Hp. pose proof (level_length l h) as E. assert (0 < 2 ^ Z.of_nat h) by (apply Z.pow_pos_nonneg; lia).
  rewrite Nat2Z.inj_mul, Nat2Z.inj_pow. change (Z.of_nat 2) with 2.
  assert (Z.of_nat pos + 1 ≤ (size l + 2 ^ Z.of_nat h - 1) / 2 ^ Z.of_nat h) as Hq by lia.
  pose proof (Z.div_mod (size l + 2 ^ Z.of_nat h - 1) (2 ^ Z.of_nat h)).
  pose proof (Z.mod_pos_bound (size l + 2 ^ Z.of_nat h - 1) (2 ^ Z.of_nat h)). nia.
Qed.
Lemma n_size : n = size l.
Proof. pose proof (size_nonneg l). apply u32_small. lia. Qed.
Lemma selected_beyond s k : size l ≤ Z.of_nat s → selected s k = [].
Proof.
  intros Hs. revert s Hs. induction k as [|k IH]; intros s Hs; [done|]. unfold selected in *. cbn [seq List.filter].
  rewrite n_size in *. rewrite (proj2 (Z.ltb_ge _ _)) by lia. cbn [andb]. apply IH. lia.
Qed.
Lemma selected_leaf pos : (pos < length l)%nat → selected (pos * 2 ^ 0) (2 ^ 0) = if parent_of_match n 0 pos vMatch then [pos] else [].
Proof.
  intros Hp. unfold selected, parent_of_match. cbn [Nat.pow seq List.filter existsb]. rewrite Nat.mul_1_r. by destruct (_ && _).
Qed.

(** No more hashes than transactions, and no more than bits. *)
Lemma built_sizes h pos bits hashes : built h pos bits hashes →
  hash_sized hashes ∧ (length hashes ≤ length bits)%nat ∧ (length bits < 2 ^ S h)%nat ∧
  (length hashes ≤ 2 ^ h)%nat ∧ size hashes ≤ size l - Z.of_nat (pos * 2 ^ h).
Proof.
  induction 1 as [pos x Hx|h pos x Hx Hp|h pos b1 h1 Hp B1 IH1 Hend|h pos b1 h1 b2 h2 Hp B1 IH1 Hin B2 IH2].
  - pose proof (leaves_start 0 pos (lookup_lt_Some _ _ _ Hx)). unfold size in *. cbn in *. split_and!; try lia.
    constructor; [|done]. by eapply (Forall_lookup_1 _ _ _ _ Hsz).
  - pose proof (leaves_start (S h) pos (lookup_lt_Some _ _ _ Hx)). pose proof (Nat.pow_nonzero 2 h). rewrite !Nat.pow_succ_r' in *.
    unfold size in *. cbn [length]. split_and!; try lia. constructor; [|done]. by eapply (Forall_lookup_1 _ _ _ _ (level_sized l Hsz (S h))).
  - destruct IH1 as (S1 & L1 & B & P1 & M1). rewrite !Nat.pow_succ_r' in *. unfold size in *. cbn [length]. split_and!; [done|lia..].
  - destruct IH1 as (S1 & L1 & Bo1 & P1 & M1), IH2 as (S2 & L2 & Bo2 & P2 & M2). rewrite !Nat.pow_succ_r' in *.
    unfold size in *. cbn [length]. rewrite !length_app. split_and!; [by apply Forall_app|lia..].
Qed.

(** The traversal of a message that contains what was built for a node. *)
Lemma built_extracts h pos bits hashes : built h pos bits hashes →
  (h ≤ 25)%nat → (∀ i, (i < h)%nat → equal_pair (level i l) = false) →
  ∀ t pre post pre' post' st, nTransactions t = n →
    vBits t = pre ++ bits ++ post → vHash t = pre' ++ hashes ++ post' →
    nBitsUsed st = length pre → nHashUsed st = length pre' →
    ∃ x, level h l !! pos = Some x ∧
      TraverseAndExtract t h pos st =
        (x, mk_ex (length pre + length bits) (length pre' + length hashes)
              (ex_match st ++ ((λ p, nth p l null_hash) <$> selected (pos * 2 ^ h) (2 ^ h)))
              (ex_index st ++ (Z.of_nat <$> selected (pos * 2 ^ h) (2 ^ h))) (ex_bad st)).
Proof.
  induction 1 as [pos x Hx|h pos x Hx Hp|h pos b1 h1 Hp B1 IH1 Hend|h pos b1 h1 b2 h2 Hp B1 IH1 Hin B2 IH2];
    intros Hh Heq t pre post pre' post' st Hn Hb Hv Ub Uh.
  - exists x. split; [done|]. rewrite selected_leaf by (by eapply lookup_lt_Some).
    cbn [TraverseAndExtract]. rewrite Ub, Hb, lookup_head. unfold use_hash. cbn [nHashUsed take_bit].
    rewrite Uh, Hv, lookup_head. cbn [length]. rewrite !Nat.add_1_r. unfold take_bit.
    destruct (parent_of_match n 0 pos vMatch); cbn; rewrite ?app_nil_r, Ub; [|done]. by rewrite (nth_lookup_Some _ _ _ _ Hx).
  - exists x. split; [done|]. rewrite selected_none by done.
    cbn [TraverseAndExtract]. rewrite Ub, Hb, lookup_head. cbn [negb]. unfold use_hash. cbn [nHashUsed take_bit].
    rewrite Uh, Hv, lookup_head. cbn [length]. rewrite !Nat.add_1_r. unfold take_bit. cbn. by rewrite ?app_nil_r, Ub.
  - destruct (IH1 ltac:(lia) ltac:(intros; apply Heq; lia) t (pre ++ [true]) post pre' post' (take_bit st)) as (a & Ha & E).
    { done. } { by rewrite <- app_assoc. } { done. } { cbn. rewrite length_app. cbn. lia. } { done. }
    exists (CHash256 (a ++ a)). split.
    { cbn [level]. rewrite (next_level_lookup _ _ _ Ha). by rewrite (lookup_ge_None_2 (level h l)) by lia. }
    rewrite selected_halves, (selected_beyond ((pos * 2 + 1) * 2 ^ h)), app_nil_r by (by apply leaves_end).
    cbn [TraverseAndExtract]. rewrite Ub, Hb, lookup_head. cbn [negb]. rewrite E, Hn, CalcTreeWidth_level by lia.
    rewrite (proj2 (Z.ltb_ge _ _)) by lia. cbn [ex_match ex_index ex_bad take_bit]. rewrite length_app. cbn [length]. do 2 f_equal. lia.
  - destruct (IH1 ltac:(lia) ltac:(intros; apply Heq; lia) t (pre ++ [true]) (b2 ++ post) pre' (h2 ++ post') (take_bit st)) as (a & Ha & E1).
    { done. } { rewrite Hb. cbn. by rewrite <- !app_assoc. } { by rewrite Hv, <- !app_assoc. } { cbn. rewrite length_app. cbn. lia. } { done. }
    destruct (IH2 ltac:(lia) ltac:(intros; apply Heq; lia) t (pre ++ true :: b1) post (pre' ++ h1) post'
      (TraverseAndExtract t h (pos * 2) (take_bit st)).2) as (b & Hbb & E2).
    { done. } { rewrite Hb. cbn. by rewrite <- !app_assoc. } { by rewrite Hv, <- !app_assoc. }
    { rewrite E1. cbn. rewrite !length_app. cbn. lia. } { rewrite E1. cbn. by rewrite length_app. }
    exists (CHash256 (a ++ b)). split.
    { cbn [level]. by rewrite (next_level_lookup _ _ _ Ha), Hbb. }
    rewrite selected_halves. cbn [TraverseAndExtract]. rewrite Ub, Hb, lookup_head. cbn [negb].
    rewrite E1 in *. cbn [snd ex_match ex_index ex_bad take_bit] in E2. rewrite Hn, CalcTreeWidth_level by lia.
    rewrite (proj2 (Z.ltb_lt _ _)) by lia. cbn [ex_match ex_index ex_bad take_bit]. rewrite E2. cbn beta iota. rewrite bool_decide_false.
    + cbn [ex_match ex_index ex_bad]. rewrite !fmap_app, !app_assoc, !length_app. cbn [length]. rewrite !length_app. do 2 f_equal; lia.
    + intros ->. eapply equal_pair_lookup; [|exact Ha|exact Hbb|done]. apply Heq. lia.
Qed.
End Building.

(** ** The message *)

Definition get_bit (vBytes : bytes) (p : nat) : bool := Z.testbit (nth (p / 8) vBytes 0) (Z.of_nat (p mod 8)).
Lemma land_bit x k : 0 ≤ k → negb (x &' (1 <<' k) =? 0) = Z.testbit x k.
Proof.
  intros Hk. rewrite Z.shiftl_1_l. destruct (Z.eqb_spec (x &' 2 ^ k) 0) as [E|E].
  - apply (f_equal (λ y, Z.testbit y k)) in E. rewrite Z.land_spec, Z.pow2_bits_true, andb_true_r, Z.bits_0 in E by done. by rewrite E.
  - destruct (Z.testbit x k) eqn:Hb; [done|]. destruct E. apply Z.bits_inj'. intros m Hm.
    rewrite Z.land_spec, Z.pow2_bits_eqb, Z.bits_0 by done. destruct (Z.eqb_spec k m) as [->|]; [by rewrite Hb|apply andb_false_r].
Qed.
Lemma unpack_bits_get v : unpack_bits v = get_bit v <$> seq 0 (length v * 8).
Proof. apply list_fmap_ext. intros i p _. apply land_bit. lia. Qed.
Lemma nth_alter_bit (v : bytes) i j (f : Z → Z) : (i < length v)%nat → nth j (alter f i v) 0 = if decide (i = j) then f (nth j v 0) else nth j v 0.
Proof.
  intros [x Hx]%lookup_lt_is_Some_2. rewrite !nth_lookup. destruct (decide (i = j)) as [->|Hne].
  - by rewrite list_lookup_alter_eq, Hx.
  - by rewrite list_lookup_alter_ne.
Qed.
Lemma get_pack_bit v p b q : (p / 8 < length v)%nat → get_bit (pack_bit v (p, b)) q = get_bit v q || (bool_decide (p = q) && b).
Proof.
  intros Hp. unfold get_bit, pack_bit. cbn [fst snd]. rewrite nth_alter_bit by done.
  pose proof (Nat.div_mod_eq p 8). pose proof (Nat.div_mod_eq q 8). destruct (decide (p / 8 = q / 8)%nat) as [E|E]; cycle 1.
  { rewrite bool_decide_false by congruence. by rewrite orb_false_r. }
  rewrite Z.lor_spec. f_equal. rewrite Z.shiftl_spec by lia. destruct (decide (p = q)) as [->|Hne].
  - rewrite bool_decide_true by done. replace (_ - _) with 0 by lia. by destruct b.
  - rewrite bool_decide_false by done. cbn [andb]. destruct (Z_lt_le_dec (Z.of_nat (q mod 8) - Z.of_nat (p mod 8)) 0) as [Hlt|Hge].
    + by rewrite Z.testbit_neg_r.
    + destruct b; cbn [Z.b2z]; [|apply Z.bits_0]. apply testbit_high with 1; lia.
Qed.
Lemma pack_bit_length v pb : length (pack_bit v pb) = length v.
Proof. apply length_alter. Qed.
Lemma pack_fold_get bits : ∀ s v q, (s + length bits ≤ length v * 8)%nat →
  let v' := foldl pack_bit v (zip (seq s (length bits)) bits) in
  length v' = length v ∧ get_bit v' q = get_bit v q || (bool_decide (s ≤ q)%nat && nth (q - s) bits false).
Proof.
  induction bits as [|b bits IH]; intros s v q Hs; cbn [length seq zip_with foldl].
  { split; [done|]. destruct (q - s)%nat; by rewrite andb_false_r, orb_false_r. }
  cbn [length] in Hs. destruct (IH (S s) (pack_bit v (s, b)) q) as [L G]; [rewrite pack_bit_length; lia|].
  rewrite pack_bit_length in L. split; [done|]. rewrite G, get_pack_bit by (apply Nat.Div0.div_lt_upper_bound; lia).
  rewrite <- orb_assoc. f_equal. destruct (decide (s = q)) as [->|Hne].
  - rewrite (bool_decide_true (q = q)), (bool_decide_false (S q ≤ q)%nat), (bool_decide_true (q ≤ q)%nat), Nat.sub_diag by lia. by destruct b.
  - rewrite (bool_decide_false (s = q)) by done. cbn [andb orb]. destruct (decide (S s ≤ q)%nat).
    + rewrite !bool_decide_true by lia. by replace (q - s)%nat with (S (q - S s)) by lia.
    + rewrite !bool_decide_false by lia. done.
Qed.
Lemma pack_bits_length bits : length (pack_bits bits) = ((length bits + 7) / 8)%nat.
Proof.
  destruct (pack_fold_get bits 0 (replicate ((length bits + 7) / 8) 0) 0) as [L _]; [|unfold pack_bits; by rewrite L, length_replicate].
  rewrite length_replicate. pose proof (Nat.div_mod_eq (length bits + 7) 8). pose proof (Nat.mod_upper_bound (length bits + 7) 8). lia.
Qed.
Lemma pack_bits_get bits q : get_bit (pack_bits bits) q = nth q bits false.
Proof.
  destruct (pack_fold_get bits 0 (replicate ((length bits + 7) / 8) 0) q) as [_ E].
  { rewrite length_replicate. pose proof (Nat.div_mod_eq (length bits + 7) 8). pose proof (Nat.mod_upper_bound (length bits + 7) 8). lia. }
  unfold pack_bits. rewrite E, bool_decide_true, Nat.sub_0_r by lia. cbn [andb].
  enough (get_bit (replicate ((length bits + 7) / 8) 0) q = false) as -> by done. unfold get_bit.
  destruct (nth_in_or_default (q / 8) (replicate ((length bits + 7) / 8) 0) 0) as [H| ->]; [|apply Z.bits_0].
  apply list_elem_of_In, elem_of_replicate in H as [-> _]. apply Z.bits_0.
Qed.
(** The bits come back with the padding of the last byte. *)
Lemma unpack_pack_bits bits : ∃ pad, unpack_bits (pack_bits bits) = bits ++ replicate pad false ∧ (length bits + pad = (length bits + 7) / 8 * 8)%nat.
Proof.
  assert (length bits ≤ (length bits + 7) / 8 * 8)%nat.
  { pose proof (Nat.div_mod_eq (length bits + 7) 8). pose proof (Nat.mod_upper_bound (length bits + 7) 8). lia. }
  exists ((length bits + 7) / 8 * 8 - length bits)%nat. split; [|lia]. rewrite unpack_bits_get, pack_bits_length.
  apply list_eq. intros q. rewrite list_lookup_fmap. destruct (decide (q < (length bits + 7) / 8 * 8)%nat) as [Hq|Hq].
  - rewrite lookup_seq_lt by done. cbn [fmap option_fmap option_map Nat.add]. rewrite pack_bits_get.
    destruct (decide (q < length bits)%nat) as [Hb|Hb].
    + rewrite lookup_app_l by done. destruct (lookup_lt_is_Some_2 _ _ Hb) as [x Hx]. by rewrite (nth_lookup_Some _ _ _ _ Hx).
    + rewrite lookup_app_r, lookup_replicate_2, nth_overflow by lia. done.
  - rewrite lookup_seq_ge by lia. by rewrite lookup_ge_None_2 by (rewrite length_app, length_replicate; lia).
Qed.
Lemma pack_bits_ok bits : bytes_ok (pack_bits bits).
Proof.
  unfold pack_bits. generalize (zip (seq 0 (length bits)) bits) as z. assert (bytes_ok (replicate ((length bits + 7) / 8) 0)) as H0.
  { apply Forall_replicate. unfold is_byte. lia. }
  revert H0. generalize (replicate ((length bits + 7) / 8) 0) as v. intros v Hv z. revert v Hv.
  induction z as [|[p b] z IH]; intros v Hv; cbn [foldl]; [done|]. apply IH. unfold pack_bit. cbn [fst snd].
  apply Forall_alter; [done|]. intros x _ Hx. apply (lor_range 8); [lia|done|]. pose proof (Nat.mod_upper_bound p 8).
  split; [apply Z.shiftl_nonneg; by destruct b|]. rewrite Z.shiftl_mul_pow2 by lia.
  assert (2 ^ Z.of_nat (p mod 8) ≤ 2 ^ 7) by (apply Z.pow_le_mono_r; lia). destruct b; cbn [Z.b2z]; lia.
Qed.
Lemma read_hashes_write hashes rest : hash_sized hashes → read_many (read 32) (length hashes) (concat hashes ++ rest) = Ok (hashes, rest).
Proof.
  induction 1 as [|h hs Hh _ IH]; [done|]. cbn [length read_many concat]. rewrite <- app_assoc.
  erewrite reader_bind_step by (by apply read_app). by erewrite reader_bind_step by exact IH.
Qed.
Lemma tree_serialization t rest : 0 ≤ nTransactions t < 2 ^ 32 → hash_sized (vHash t) → size (vHash t) ≤ MAX_SIZE → size (vBits t) ≤ MAX_SIZE →
  UnserializeTree (SerializeTree t ++ rest) = Ok (mk_pmt (nTransactions t) (unpack_bits (pack_bits (vBits t))) (vHash t) false, rest).
Proof.
  intros Hn Hs H1 H2. unfold UnserializeTree, SerializeTree. rewrite <- !app_assoc. pose proof (size_nonneg (vHash t)).
  erewrite reader_bind_step by (by apply readdata_write). erewrite reader_bind_step by (by apply compact_size_write).
  unfold size at 1. rewrite Nat2Z.id. erewrite reader_bind_step by (by apply read_hashes_write).
  erewrite reader_bind_step; [done|]. apply (@unserialize_serialize bytes bytes_serial bytes_laws). split; [|apply pack_bits_ok].
  unfold size in *. rewrite pack_bits_length. pose proof (Nat.Div0.div_le_upper_bound (length (vBits t) + 7) 8 (length (vBits t) + 7)). unfold MAX_SIZE in *.
  pose proof (Nat.div_mod_eq (length (vBits t) + 7) 8). lia.
Qed.

(** ** Main statements *)

Section Statements.
Context `{C : Crypto} `{CS : !CryptoSizes C}.

Lemma filter_range (f : nat → bool) n k : (n ≤ k)%nat →
  List.filter (λ i, (Z.of_nat i <? Z.of_nat n) && f i) (seq 0 k) = List.filter f (seq 0 n).
Proof.
  intros Hk. replace k with (n + (k - n))%nat by lia. rewrite List.seq_app, List.filter_app.
  rewrite (List.filter_ext_in _ f (seq 0 n)).
  - rewrite (filter_existsb (λ i, (Z.of_nat i <? Z.of_nat n) && f i)); [by rewrite app_nil_r|].
    apply not_true_iff_false. rewrite existsb_exists. intros (i & [Hi _]%in_seq & [Hlt _]%andb_true_iff). lia.
  - intros i [_ Hi]%in_seq. by rewrite (proj2 (Z.ltb_lt _ _)) by lia.
Qed.
Lemma selected_all l vMatch k : size l ≤ 2 ^ 25 → (length l ≤ 2 ^ k)%nat →
  selected l vMatch (0 * 2 ^ k) (2 ^ k) = List.filter (λ i, nth i vMatch false) (seq 0 (length l)).
Proof. intros Hl Hk. unfold selected. rewrite n_size by done. by apply filter_range. Qed.

(** The limit on the number of transactions. *)
Definition max_txs (p : dgp_params) : Z := u32 (dgpMaxBlockSize p * WITNESS_SCALE_FACTOR) / MIN_TRANSACTION_WEIGHT.
Lemma max_txs_bound p : max_txs p ≤ 2 ^ 25.
Proof.
  unfold max_txs. change MIN_TRANSACTION_WEIGHT with 240. pose proof (wrap_range 32 (dgpMaxBlockSize p * WITNESS_SCALE_FACTOR)) as H.
  fold (u32 (dgpMaxBlockSize p * WITNESS_SCALE_FACTOR)) in H. unfold in_u in H.
  apply Z.lt_succ_r, Z.div_lt_upper_bound; lia.
Qed.

Lemma built_tree_extracts p vTxid vMatch rest :
  vTxid ≠ [] → hash_sized vTxid → size vTxid ≤ max_txs p → (ComputeMerkleRoot vTxid).2 = false →
  let sel := List.filter (λ i, nth i vMatch false) (seq 0 (length vTxid)) in
  ∃ t t', new_CPartialMerkleTree vTxid vMatch = Some t ∧ UnserializeTree (SerializeTree t ++ rest) = Ok (t', rest) ∧
    ExtractMatches p t' [] = ((ComputeMerkleRoot vTxid).1, ((λ i, nth i vTxid null_hash) <$> sel, Z.of_nat <$> sel, false)).
Proof.
  intros Hne Hsz Hmax Hmut sel. pose proof (max_txs_bound p). assert (size vTxid ≤ 2 ^ 25) as Hl by lia.
  destruct (tree_height_spec vTxid Hne Hl) as (Hk & Hone & _).
  destruct (ComputeMerkleRoot_level vTxid Hne Hl) as [Hroot Heq]. specialize (Heq Hmut).
  set (k := tree_height (u32 (size vTxid))) in *.
  destruct (TraverseAndBuild_built vTxid vMatch Hl k 0 Hk ltac:(lia)) as (bits & hashes & E & B).
  destruct (built_sizes vTxid vMatch Hsz k 0 bits hashes B) as (Hs & Lh & Lb & _ & Hn).
  assert (0 < size vTxid) by (destruct vTxid; [done|unfold size; cbn [length]; lia]).
  destruct (unpack_pack_bits bits) as (pad & Eu & Lp).
  exists (mk_pmt (u32 (size vTxid)) bits hashes false), (mk_pmt (u32 (size vTxid)) (bits ++ replicate pad false) hashes false).
  assert (2 ^ S k ≤ 2 ^ 26)%nat by (apply Nat.pow_le_mono_r; lia). assert (Z.of_nat (2 ^ 26) = 2 ^ 26) by (by rewrite Nat2Z.inj_pow).
  split_and!.
  - unfold new_CPartialMerkleTree. fold k. by rewrite E.
  - rewrite <- Eu. apply tree_serialization; cbn [nTransactions vHash vBits]; rewrite ?n_size by done; [lia|done|unfold MAX_SIZE; lia|].
    unfold size, MAX_SIZE. lia.
  - destruct (built_extracts vTxid vMatch Hl k 0 bits hashes B Hk Heq (mk_pmt (u32 (size vTxid)) (bits ++ replicate pad false) hashes false)
      [] (replicate pad false) [] [] (mk_ex 0 0 [] [] false)) as (x & Hx & Ex); [done|done|by rewrite app_nil_r|done|done|].
    rewrite selected_all in Ex; [|done|].
    2:{ pose proof (leaves_end vTxid k 1 ltac:(lia)). unfold size in *. lia. }
    rewrite Hroot in Hx. cbn in Hx. injection Hx as <-.
    unfold ExtractMatches. cbn [nTransactions vHash vBits fBad]. fold (max_txs p). fold k. rewrite Ex. rewrite !n_size by done.
    rewrite (proj2 (Z.eqb_neq (size vTxid) 0)) by lia. rewrite Z.gtb_ltb, (proj2 (Z.ltb_ge (max_txs p) _)) by lia.
    rewrite Z.gtb_ltb, (proj2 (Z.ltb_ge (size vTxid) _)) by lia.
    rewrite (proj2 (Z.ltb_ge _ _)) by (unfold size; rewrite length_app; lia).
    cbn [ex_match ex_index ex_bad nBitsUsed nHashUsed length app Nat.add]. rewrite Nat.eqb_refl. cbn [negb].
    replace (_ =? _) with true; [done|]. symmetry. apply Z.eqb_eq. unfold size. rewrite length_app, length_replicate, Lp. rewrite Nat2Z.inj_mul, Nat2Z.inj_div, Nat2Z.inj_add. change (Z.of_nat 8) with 8. change (Z.of_nat 7) with 7. rewrite Z.div_add_l by lia. change (7 `div` 8) with 0. lia.
Qed.

(** *** The selection *)

Lemma select_txids {F} (rel : F → CTransaction → bool * F) txids vtx : ∀ i,
  select_txs rel None (Some txids) i vtx = ((λ tx, bool_decide (GetHash tx ∈ txids)) <$> vtx, [], None).
Proof.
  induction vtx as [|tx vtx IH]; intros i; [done|]. cbn [select_txs fmap list_fmap]. rewrite IH. by destruct (bool_decide (GetHash tx ∈ txids)).
Qed.

(** C37: A proof made for a block and a set of transaction ids, when it is sent and
    read back, gives the Merkle root of the block and exactly the ids of the set
    that are in the block, in the order of the block and with their positions.  The
    block has a transaction, no more than the limit, and a Merkle tree without equal
    neighbours, as [CheckBlock] demands. *)
Theorem merkle_block_roundtrip {F} (rel : F → CTransaction → bool * F) p block txids rest :
  vtx block ≠ [] → size (vtx block) ≤ u32 (dgpMaxBlockSize p * WITNESS_SCALE_FACTOR) / MIN_TRANSACTION_WEIGHT →
  (BlockMerkleRoot block).2 = false →
  let hash i := nth i (GetHash <$> vtx block) null_hash in
  let sel := List.filter (λ i, bool_decide (hash i ∈ txids)) (seq 0 (length (vtx block))) in
  ∃ t t', new_CMerkleBlock rel block None (Some txids) = Some (header block, t, [], None) ∧
    UnserializeTree (SerializeTree t ++ rest) = Ok (t', rest) ∧
    ExtractMatches p t' [] = ((BlockMerkleRoot block).1, (hash <$> sel, Z.of_nat <$> sel, false)).
Proof.
  intros Hne Hmax Hmut hash sel. unfold new_CMerkleBlock. rewrite select_txids.
  destruct (built_tree_extracts p (GetHash <$> vtx block) ((λ tx, bool_decide (GetHash tx ∈ txids)) <$> vtx block) rest) as (t & t' & E1 & E2 & E3).
  - by intros ?%fmap_nil_inv.
  - apply Forall_fmap, Forall_true. intros tx. apply CHash256_sized.
  - unfold size. by rewrite length_fmap.
  - done.
  - exists t, t'. rewrite E1. split_and!; [done..|]. rewrite E3, length_fmap. unfold sel, hash.
    rewrite (List.filter_ext_in _ (λ i, bool_decide (nth i (GetHash <$> vtx block) null_hash ∈ txids))); [done|].
    intros i [_ [tx Htx]%lookup_lt_is_Some_2]%in_seq.
    rewrite (nth_lookup_Some ((λ tx, bool_decide (GetHash tx ∈ txids)) <$> vtx block) i false (bool_decide (GetHash tx ∈ txids))) by (by rewrite list_lookup_fmap, Htx).
    by rewrite (nth_lookup_Some (GetHash <$> vtx block) i null_hash (GetHash tx)) by (by rewrite list_lookup_fmap, Htx).
Qed.

(** C36: A proof that a peer sends and that states the number of transactions the block
    really has ([nTransactions t = size vTxid]): if the Merkle root of the block is
    extracted from it, and that is not the zero that stands for a failure, then each
    transaction id that is extracted is the id of the transaction of the block at the
    position that is extracted with it, or the sender has found a collision of the
    double hash.  [ExtractMatches] cannot check the number, and with a smaller one the
    hashes of inner nodes pass as ids; [verifytxoutproof] compares it with the block
    index before it uses the ids. *)
Theorem merkle_proof_sound p t vTxid matches indices bad :
  vTxid ≠ [] → hash_sized vTxid → hash_sized (vHash t) → nTransactions t = size vTxid →
  ExtractMatches p t [] = ((ComputeMerkleRoot vTxid).1, (matches, indices, bad)) → (ComputeMerkleRoot vTxid).1 ≠ null_hash →
  Forall2 (λ h i, vTxid !! Z.to_nat i = Some h) matches indices ∨ collision C.
Proof.
  intros Hne Hsz Ht Hn. unfold ExtractMatches. fold (max_txs p). destruct (nTransactions t =? 0); [naive_solver|].
  destruct (Z.gtb_spec (nTransactions t) (max_txs p)); [naive_solver|]. pose proof (max_txs_bound p). assert (size vTxid ≤ 2 ^ 25) as Hl by lia.
  destruct (size (vHash t) >? nTransactions t); [naive_solver|]. destruct (size (vBits t) <? size (vHash t)); [naive_solver|].
  assert (nTransactions t = u32 (size vTxid)) as Hn' by (rewrite n_size by done; done). rewrite Hn'.
  destruct (tree_height_spec vTxid Hne Hl) as (Hk & _). destruct (ComputeMerkleRoot_level vTxid Hne Hl) as [Hroot _].
  set (k := tree_height (u32 (size vTxid))) in *.
  pose proof (TraverseAndExtract_true vTxid Hsz Hl t Hn' Ht k 0 (mk_ex 0 0 [] [] (fBad t)) (ComputeMerkleRoot vTxid).1 Hk ltac:(by rewrite Hroot)) as Htrue.
  destruct (TraverseAndExtract t k 0 _) as [root st]. cbn [fst snd] in Htrue.
  destruct (ex_bad st) eqn:Hb; [naive_solver|]. case_match; [naive_solver|]. case_match; [naive_solver|].
  intros [= Hr <- <- <-] _. destruct (Htrue Hr eq_refl) as [(new & -> & -> & Hall)|?]; [left|by right]. cbn [ex_match ex_index app].
  rewrite <- list_fmap_compose. apply Forall2_fmap, Forall_Forall2_diag. eapply Forall_impl; [exact Hall|]. cbn. intros [i h]. by rewrite Nat2Z.id.
Qed.
End Statements.

(** Three transactions whose ids differ, and the proof for the last of them, with
    the hash functions of the program. *)
Definition program_hashes : Crypto := Hashes (λ _, true).
Definition sample_txs : list CTransaction := (λ v, mk_tx [] [] v 0) <$> [1; 2; 3].
Definition sample_txids : list uint256 := GetHash (H := program_hashes) <$> sample_txs.
Definition sample_tree : CPartialMerkleTree :=
  default (mk_pmt 0 [] [] true) (new_CPartialMerkleTree (C := program_hashes) sample_txids [false; false; true]).

Lemma merkle_block_roundtrip_witness :
  let hash i := nth i sample_txids null_hash in
  let sel := List.filter (λ i, bool_decide (hash i ∈ [hash 2%nat; null_hash; hash 0%nat])) (seq 0 3) in
  ∃ t t', new_CMerkleBlock (C := program_hashes) (λ (f : unit) _, (true, f)) (mk_block null_header sample_txs) None
      (Some [hash 2%nat; null_hash; hash 0%nat]) = Some (null_header, t, [], None) ∧
    UnserializeTree (SerializeTree t ++ [1]) = Ok (t', [1]) ∧
    ExtractMatches (C := program_hashes) default_dgp t' [] =
      ((BlockMerkleRoot (H := program_hashes) (mk_block null_header sample_txs)).1, (hash <$> sel, Z.of_nat <$> sel, false)).
Proof.
  apply (merkle_block_roundtrip (C := program_hashes) (CS := Hashes_sizes _) (λ (f : unit) _, (true, f)) default_dgp (mk_block null_header sample_txs)
    [nth 2 sample_txids null_hash; null_hash; nth 0 sample_txids null_hash] [1]).
  - discriminate.
  - vm_compute. discriminate.
  - vm_compute. reflexivity.
Defined.
Lemma merkle_proof_sound_witness :
  Forall2 (λ h i, sample_txids !! Z.to_nat i = Some h) [nth 2 sample_txids null_hash] [2] ∨ collision program_hashes.
Proof.
  apply (merkle_proof_sound (C := program_hashes) (CS := Hashes_sizes _) default_dgp sample_tree sample_txids _ _ false).
  - discriminate.
  - apply Forall_fmap, Forall_true. intros tx. apply (CHash256_sized (C := program_hashes)).
  - vm_compute. repeat constructor.
  - vm_compute. reflexivity.
  - vm_compute. reflexivity.
  - vm_compute. discriminate.
Defined.
