(* ===== verification/CoinSelection.v ===== *)
(** * Coin selection (wallet/coinselection.h/.cpp, policy/feerate.cpp, SelectCoinsMinConf of wallet/wallet.cpp)

    The coins that pay for a transaction are chosen by a branch-and-bound search for
    a selection without change, or by a randomized approximation of a subset sum.
    Sorting, shuffling and the random bits are arguments. *)
From S2P Require Import Prelude ArithUint256 Script Interpreter Transaction.
Local Open Scope cxx_scope.

(** ** Fee rates *)

(** [CFeeRate] is its field [nSatoshisPerK]. *)
Definition CFeeRate : Type := Z.
Definition GetFee (nSatoshisPerK : CFeeRate) (nBytes_ : Z) : Z :=
  let nSize := i64 nBytes_ in
  let nFee := Z.quot (i64 (nSatoshisPerK * nSize)) 1000 in
  if (nFee =? 0) && negb (nSize =? 0) then
    if nSatoshisPerK >? 0 then 1 else if nSatoshisPerK <? 0 then -1 else nFee
  else nFee.

(** ** Coins and groups of coins *)

Record CInputCoin := mk_input_coin { ci_outpoint : COutPoint; ci_txout : CTxOut; ci_effective_value : Z; m_input_bytes : Z }.
Record OutputGroup := mk_group {
  m_outputs : list CInputCoin; m_from_me : bool; m_value : Z; m_depth : Z; m_ancestors : Z; m_descendants : Z;
  effective_value : Z; fee : Z; long_term_fee : Z
}.
Definition new_OutputGroup : OutputGroup := mk_group [] true 0 999 0 0 0 0 0.
Record CoinEligibilityFilter := mk_eligibility { conf_mine : Z; conf_theirs : Z; max_ancestors : Z; max_descendants : Z }.

(** [std::set<CInputCoin>]: coins are compared by their outpoints, and one that is
    there already is kept. *)
Abbreviation coin_set := (gmap COutPoint CInputCoin).
Definition set_insert (s : coin_set) (c : CInputCoin) : coin_set :=
  match s !! ci_outpoint c with Some _ => s | None => <[ci_outpoint c := c]> s end.
Definition insert_coins (dst : coin_set) (src : list CInputCoin) : coin_set := foldl set_insert dst src.

Definition Insert (g : OutputGroup) (output : CInputCoin) (depth : Z) (from_me : bool) (ancestors descendants : Z) : OutputGroup :=
  let value := i64 (m_value g + ci_effective_value output) in
  mk_group (m_outputs g ++ [output]) (m_from_me g && from_me) value (Z.min (m_depth g) depth) (u64 (m_ancestors g + ancestors))
    (Z.max (m_descendants g) descendants) value (fee g) (long_term_fee g).
(** The position of the first coin with an outpoint, or the end. *)
Fixpoint find_coin (outputs : list CInputCoin) (o : COutPoint) : nat :=
  match outputs with
  | [] => 0
  | c :: outputs => if bool_decide (ci_outpoint c = o) then 0 else S (find_coin outputs o)
  end.
(** The position stands for the iterator that is returned. *)
Definition Discard (g : OutputGroup) (output : CInputCoin) : OutputGroup * nat :=
  let it := find_coin (m_outputs g) (ci_outpoint output) in
  if (it =? length (m_outputs g))%nat then (g, it)
  else
    (mk_group (delete it (m_outputs g)) (m_from_me g) (i64 (m_value g - ci_effective_value output)) (m_depth g) (m_ancestors g)
       (m_descendants g) (i64 (effective_value g - ci_effective_value output)) (fee g) (long_term_fee g), it).
Definition EligibleForSpending (f : CoinEligibilityFilter) (g : OutputGroup) : bool :=
  (m_depth g >=? (if m_from_me g then conf_mine f else conf_theirs f)) && (m_ancestors g <=? max_ancestors f)
  && (m_descendants g <=? max_descendants f).

(** ** Branch and bound *)

Inductive selection_error := assertion_failed | out_of_range.
Definition at_ {A} (v : list A) (i : nat) : result selection_error A :=
  match v !! i with Some x => Ok x | None => Err out_of_range end.

Definition TOTAL_TRIES : Z := 100000.
(** [curr_selection] is kept with its back first. *)
Record bnb_state := mk_bnb {
  curr_selection : list bool; curr_value : Z; curr_available_value : Z; curr_waste : Z; best_selection : list bool; best_waste : Z
}.

Section BranchAndBound.
Context (utxo_pool : list OutputGroup) (actual_target cost_of_change : Z).

(** A selection that does not reach the target, exceeds the range or is more
    wasteful than the best. *)
Definition cut_off (s : bnb_state) : result selection_error bool :=
  if (i64 (curr_value s + curr_available_value s) <? actual_target) || (curr_value s >? i64 (actual_target + cost_of_change)) then Ok true
  else if curr_waste s >? best_waste s then
    let* u := at_ utxo_pool 0 in Ok (i64 (fee u - long_term_fee u) >? 0)
  else Ok false.
Definition resize_selection (v : list bool) (n : nat) : list bool := take n v ++ replicate (n - length v) false.
(** A selection within the range: its waste with the excess value decides. *)
Definition record_best (s : bnb_state) : bnb_state :=
  let excess := i64 (curr_value s - actual_target) in
  let waste := i64 (curr_waste s + excess) in
  let '(best, best_w) :=
    if waste <=? best_waste s then (resize_selection (rev (curr_selection s)) (length utxo_pool), waste)
    else (best_selection s, best_waste s) in
  mk_bnb (curr_selection s) (curr_value s) (curr_available_value s) (i64 (waste - excess)) best best_w.
(** Back to the last coin that is included. *)
Fixpoint walk_back (selection : list bool) (available : Z) : result selection_error (list bool * Z) :=
  match selection with
  | false :: selection => let* u := at_ utxo_pool (length selection) in walk_back selection (i64 (available + effective_value u))
  | _ => Ok (selection, available)
  end.
(** The flag is [false] when the whole tree was searched. *)
Definition go_back (s : bnb_state) : result selection_error (bnb_state * bool) :=
  let* r := walk_back (curr_selection s) (curr_available_value s) in
  match r.1 with
  | [] => Ok (mk_bnb [] (curr_value s) r.2 (curr_waste s) (best_selection s) (best_waste s), false)
  | _ :: selection =>
      let* u := at_ utxo_pool (length selection) in
      Ok (mk_bnb (false :: selection) (i64 (curr_value s - effective_value u)) r.2 (i64 (curr_waste s - i64 (fee u - long_term_fee u)))
            (best_selection s) (best_waste s), true)
  end.
Definition go_forward (s : bnb_state) : result selection_error (bnb_state * bool) :=
  let* u := at_ utxo_pool (length (curr_selection s)) in
  let available := i64 (curr_available_value s - effective_value u) in
  let* skip :=
    match curr_selection s with
    | false :: selection =>
        let* v := at_ utxo_pool (length selection) in Ok ((effective_value u =? effective_value v) && (fee u =? fee v))
    | _ => Ok false
    end in
  if skip then Ok (mk_bnb (false :: curr_selection s) (curr_value s) available (curr_waste s) (best_selection s) (best_waste s), true)
  else
    Ok (mk_bnb (true :: curr_selection s) (i64 (curr_value s + effective_value u)) available
          (i64 (curr_waste s + i64 (fee u - long_term_fee u))) (best_selection s) (best_waste s), true).
Definition bnb_iteration (s : bnb_state) : result selection_error (bnb_state * bool) :=
  let* cut := cut_off s in
  if cut then go_back s
  else if curr_value s >=? actual_target then go_back (record_best s)
  else go_forward s.
Fixpoint bnb_loop (tries : nat) (s : bnb_state) : result selection_error bnb_state :=
  match tries with
  | O => Ok s
  | S tries => let* r := bnb_iteration s in if r.2 then bnb_loop tries r.1 else Ok r.1
  end.
End BranchAndBound.

Fixpoint sum_available (pool : list OutputGroup) (available : Z) : result selection_error Z :=
  match pool with
  | [] => Ok available
  | u :: pool => let* _ := require (effective_value u >? 0) assertion_failed in sum_available pool (i64 (available + effective_value u))
  end.
(** The groups that a selection includes, and what they add. *)
Fixpoint collect (pool : list OutputGroup) (selection : list bool) (out_set : coin_set) (value_ret : Z) : result selection_error (coin_set * Z) :=
  match selection with
  | [] => Ok (out_set, value_ret)
  | b :: selection =>
      let rest := tail pool in
      if b then let* u := at_ pool 0 in collect rest selection (insert_coins out_set (m_outputs u)) (i64 (value_ret + m_value u))
      else collect rest selection out_set value_ret
  end.
Record selected_coins := mk_selected { sel_ok : bool; sel_set : coin_set; sel_value : Z }.

Section Solvers.
Context (sort : list OutputGroup → list OutputGroup) (shuffle : list OutputGroup → list OutputGroup) (randbool : nat → nat → bool).

(** [value_ret] is the value of the output argument before. *)
Definition SelectCoinsBnB (utxo_pool : list OutputGroup) (target_value cost_of_change value_ret not_input_fees : Z)
  : result selection_error selected_coins :=
  let actual_target := i64 (not_input_fees + target_value) in
  let* available := sum_available utxo_pool 0 in
  if available <? actual_target then Ok (mk_selected false ∅ value_ret)
  else
    let utxo_pool := sort utxo_pool in
    let* s := bnb_loop utxo_pool actual_target cost_of_change (Z.to_nat TOTAL_TRIES) (mk_bnb [] 0 available 0 [] MAX_MONEY) in
    match best_selection s with
    | [] => Ok (mk_selected false ∅ value_ret)
    | selection => let* r := collect utxo_pool selection ∅ 0 in Ok (mk_selected true r.1 r.2)
    end.

(** *** Approximation of a subset sum *)

Record approx_state := mk_approx {
  vfIncluded : list bool; nTotal : Z; fReachedTarget : bool; vfBest : list bool; nBest : Z; drawn : nat
}.
(** One group in one pass; a bit is drawn in the first pass. *)
Definition approx_group (random : nat → bool) (nTargetValue : Z) (first_pass : bool) (s : approx_state) (ig : nat * OutputGroup) : approx_state :=
  let '(i, group) := ig in
  let '(include, drawn) :=
    if first_pass then (random (drawn s), S (drawn s)) else (negb (nth i (vfIncluded s) false), drawn s) in
  if include then
    let total := i64 (nTotal s + m_value group) in
    let included := <[i := true]> (vfIncluded s) in
    if total >=? nTargetValue then
      let '(best, best_value) := if total <? nBest s then (included, total) else (vfBest s, nBest s) in
      mk_approx (<[i := false]> included) (i64 (total - m_value group)) true best best_value drawn
    else mk_approx included total (fReachedTarget s) (vfBest s) (nBest s) drawn
  else mk_approx (vfIncluded s) (nTotal s) (fReachedTarget s) (vfBest s) (nBest s) drawn.
Definition approx_pass (random : nat → bool) (groups : list OutputGroup) (nTargetValue : Z) (first_pass : bool) (s : approx_state) : approx_state :=
  foldl (approx_group random nTargetValue first_pass) s (zip (seq 0 (length groups)) groups).
Fixpoint approx_loop (random : nat → bool) (groups : list OutputGroup) (nTargetValue : Z) (iterations : nat) (s : approx_state) : approx_state :=
  match iterations with
  | O => s
  | S iterations =>
      if nBest s =? nTargetValue then s
      else
        let s := mk_approx (replicate (length groups) false) 0 false (vfBest s) (nBest s) (drawn s) in
        let s := approx_pass random groups nTargetValue true s in
        let s := if fReachedTarget s then s else approx_pass random groups nTargetValue false s in
        approx_loop random groups nTargetValue iterations s
  end.
(** [vfBest] and [nBest]. *)
Definition ApproximateBestSubset (random : nat → bool) (groups : list OutputGroup) (nTotalLower nTargetValue : Z) : list bool * Z :=
  let s := approx_loop random groups nTargetValue 1000 (mk_approx [] 0 false (replicate (length groups) true) nTotalLower 0) in
  (vfBest s, nBest s).

(** *** The fallback solver *)

Definition MIN_CHANGE : Z := CENT.
(** The groups are classified; one of exactly the target value ends the search. *)
Inductive classified := exact_group (g : OutputGroup) | classes (lowest_larger : option OutputGroup) (applicable : list OutputGroup) (nTotalLower : Z).
Fixpoint classify (nTargetValue : Z) (groups : list OutputGroup) (lowest_larger : option OutputGroup) (applicable : list OutputGroup) (nTotalLower : Z) : classified :=
  match groups with
  | [] => classes lowest_larger applicable nTotalLower
  | g :: groups =>
      if m_value g =? nTargetValue then exact_group g
      else if m_value g <? i64 (nTargetValue + MIN_CHANGE) then
        classify nTargetValue groups lowest_larger (applicable ++ [g]) (i64 (nTotalLower + m_value g))
      else if match lowest_larger with None => true | Some l => m_value g <? m_value l end then classify nTargetValue groups (Some g) applicable nTotalLower
      else classify nTargetValue groups lowest_larger applicable nTotalLower
  end.
Definition add_group (r : coin_set * Z) (g : OutputGroup) : coin_set * Z := (insert_coins r.1 (m_outputs g), i64 (r.2 + m_value g)).
Definition select_groups (groups : list OutputGroup) : selected_coins :=
  let r := foldl add_group (∅, 0) groups in mk_selected true r.1 r.2.
Definition included_groups (groups : list OutputGroup) (vf : list bool) : list OutputGroup :=
  fst <$> List.filter snd (zip groups vf).
Definition KnapsackSolver (nTargetValue : Z) (groups : list OutputGroup) : selected_coins :=
  let groups := shuffle groups in
  match classify nTargetValue groups None [] 0 with
  | exact_group g => select_groups [g]
  | classes lowest_larger applicable nTotalLower =>
      if nTotalLower =? nTargetValue then select_groups applicable
      else if nTotalLower <? nTargetValue then
        match lowest_larger with None => mk_selected false ∅ 0 | Some g => select_groups [g] end
      else
        let applicable := sort applicable in
        let '(best, best_value) := ApproximateBestSubset (randbool 0) applicable nTotalLower nTargetValue in
        let '(best, best_value) :=
          if negb (best_value =? nTargetValue) && (nTotalLower >=? i64 (nTargetValue + MIN_CHANGE))
          then ApproximateBestSubset (randbool 1) applicable nTotalLower (i64 (nTargetValue + MIN_CHANGE)) else (best, best_value) in
        match lowest_larger with
        | Some g =>
            if (negb (best_value =? nTargetValue) && (best_value <? i64 (nTargetValue + MIN_CHANGE))) || (m_value g <=? best_value)
            then select_groups [g] else select_groups (included_groups applicable best)
        | None => select_groups (included_groups applicable best)
        end
  end.

(** ** [SelectCoinsMinConf] *)

Record CoinSelectionParams := mk_selection_params {
  use_bnb : bool; change_output_size : Z; change_spend_size : Z; effective_fee : CFeeRate; tx_noinputs_size : Z
}.
Definition input_fee (rate : CFeeRate) (coin : CInputCoin) : Z := if m_input_bytes coin <? 0 then 0 else GetFee rate (m_input_bytes coin).
(** The coins of a group that are worth more than the fee to spend them are kept.
    Each round goes to the next coin or discards one, so the fuel is enough. *)
Fixpoint prepare_loop (rate long_term : CFeeRate) (fuel : nat) (it : nat) (g : OutputGroup) : OutputGroup :=
  match fuel, m_outputs g !! it with
  | S fuel, Some coin =>
      let value := i64 (nValue (ci_txout coin) - input_fee rate coin) in
      if value >? 0 then
        prepare_loop rate long_term fuel (S it)
          (mk_group (m_outputs g) (m_from_me g) (m_value g) (m_depth g) (m_ancestors g) (m_descendants g)
             (i64 (effective_value g + value)) (i64 (fee g + input_fee rate coin)) (i64 (long_term_fee g + input_fee long_term coin)))
      else let '(g, it) := Discard g coin in prepare_loop rate long_term fuel it g
  | _, _ => g
  end.
Definition prepare_group (rate long_term : CFeeRate) (g : OutputGroup) : OutputGroup :=
  prepare_loop rate long_term (S (length (m_outputs g)) * S (length (m_outputs g)))%nat 0
    (mk_group (m_outputs g) (m_from_me g) (m_value g) (m_depth g) (m_ancestors g) (m_descendants g) 0 0 0).
Definition bnb_pool (rate long_term : CFeeRate) (f : CoinEligibilityFilter) (groups : list OutputGroup) : list OutputGroup :=
  List.filter (λ g, effective_value g >? 0) (prepare_group rate long_term <$> List.filter (EligibleForSpending f) groups).
(** [long_term_feerate] and [discard_rate] come from the fee estimator; the
    second result is [bnb_used]. *)
Definition SelectCoinsMinConf (long_term_feerate discard_rate : CFeeRate) (nTargetValue : Z) (f : CoinEligibilityFilter)
    (groups : list OutputGroup) (params : CoinSelectionParams) : result selection_error (selected_coins * bool) :=
  if use_bnb params then
    let cost_of_change := i64 (GetFee discard_rate (change_spend_size params) + GetFee (effective_fee params) (change_output_size params)) in
    let utxo_pool := bnb_pool (effective_fee params) long_term_feerate f groups in
    let not_input_fees := GetFee (effective_fee params) (tx_noinputs_size params) in
    let* r := SelectCoinsBnB utxo_pool nTargetValue cost_of_change 0 not_input_fees in
    Ok (r, true)
  else Ok (KnapsackSolver nTargetValue (List.filter (EligibleForSpending f) groups), false).
End Solvers.
