(* ===== verification/CoinSelectionFacts.v ===== *)
(** * Coin selection: the searches are correct

    The loop of the branch-and-bound search is a depth-first search of the tree of
    selections; it is compared with a recursive one, which is then shown to miss no
    better selection.  The approximation keeps a selection that reaches its target. *)
From S2P Require Import Prelude ArithUint256 Script Interpreter Transaction CoinSelection.

(** ** Selections of groups *)

Abbreviation eff := effective_value.
Definition extra (u : OutputGroup) : Z := fee u - long_term_fee u.

Lemma included_app l1 l2 v1 v2 : length l1 = length v1 →
  included_groups (l1 ++ l2) (v1 ++ v2) = included_groups l1 v1 ++ included_groups l2 v2.
Proof. intros Hl. unfold included_groups. rewrite zip_with_app by done. by rewrite List.filter_app, fmap_app. Qed.
Lemma included_cons u l b v : included_groups (u :: l) (b :: v) = if b then u :: included_groups l v else included_groups l v.
Proof. unfold included_groups. cbn. by destruct b. Qed.
Lemma included_nil_l v : included_groups [] v = [].
Proof. by destruct v. Qed.
Lemma included_nil_r l : included_groups l [] = [].
Proof. by destruct l. Qed.
Lemma included_sublist l v : included_groups l v `sublist_of` l.
Proof.
  revert v. induction l as [|u l IH]; intros [|b v]; rewrite ?included_nil_l, ?included_nil_r; [done|done|apply sublist_nil_l|].
  rewrite included_cons. destruct b; [by apply sublist_skip|by apply sublist_cons].
Qed.
Lemma included_falses l n : included_groups l (replicate n false) = [].
Proof. revert n. induction l as [|u l IH]; intros [|n]; [done..|]. cbn [replicate]. by rewrite included_cons. Qed.
(** Every part of the groups is included by some selection. *)
Lemma sublist_included k l : k `sublist_of` l → ∃ v, length v = length l ∧ included_groups l v = k.
Proof.
  induction 1 as [|x k l _ (v & Hv & <-)|x k l _ (v & Hv & <-)]; [by exists []| |].
  - exists (true :: v). split; [cbn; lia|apply included_cons].
  - exists (false :: v). split; [cbn; lia|apply included_cons].
Qed.

Lemma sum_of_sublist {A} (f : A → Z) k l : k `sublist_of` l → (∀ x, x ∈ l → 0 ≤ f x) → sum_of f k ≤ sum_of f l.
Proof.
  induction 1 as [|x k l Hs IH|x k l Hs IH]; intros Hf; [done| |]; rewrite !sum_of_cons.
  - specialize (IH ltac:(set_solver)). lia.
  - specialize (IH ltac:(set_solver)). specialize (Hf x ltac:(set_solver)). lia.
Qed.
Lemma sum_of_abs {A} (f : A → Z) l : Z.abs (sum_of f l) ≤ sum_of (λ x, Z.abs (f x)) l.
Proof. induction l as [|x l IH]; [done|]. rewrite !sum_of_cons. lia. Qed.
Lemma sum_of_elem {A} (f : A → Z) l x : x ∈ l → (∀ x, x ∈ l → 0 ≤ f x) → f x ≤ sum_of f l.
Proof.
  intros Hx Hf. transitivity (sum_of f [x]); [cbn; lia|]. apply sum_of_sublist; [|done]. by apply singleton_sublist_l.
Qed.

Section Search.
Context (pool : list OutputGroup) (T cost : Z).
Context (Hne : pool ≠ []) (Hpos : ∀ u, u ∈ pool → 0 < eff u) (Hsum : sum_of eff pool ≤ 2 ^ 60).
Context (Hextra : sum_of (λ u, Z.abs (extra u)) pool ≤ 2 ^ 60) (HT : - 2 ^ 60 ≤ T ≤ 2 ^ 60) (Hcost : 0 ≤ cost ≤ 2 ^ 60).

(** *** States of the search *)

Definition value (v : list bool) : Z := sum_of eff (included_groups pool v).
Definition waste (v : list bool) : Z := sum_of extra (included_groups pool v).
Definition node (sel : list bool) (b : list bool * Z) : bnb_state :=
  mk_bnb sel (value (rev sel)) (sum_of eff (drop (length sel) pool)) (waste (rev sel)) b.1 b.2.

Lemma value_bounds v : 0 ≤ value v ≤ 2 ^ 60.
Proof.
  unfold value. pose proof (included_sublist pool v) as Hs. split.
  - apply sum_of_nonneg. intros u Hu. pose proof (Hpos u (elem_of_sublist _ _ _ Hu Hs)). lia.
  - transitivity (sum_of eff pool); [|done]. apply sum_of_sublist; [done|]. intros u Hu. specialize (Hpos u Hu). lia.
Qed.
Lemma waste_bounds v : Z.abs (waste v) ≤ 2 ^ 60.
Proof.
  unfold waste. etransitivity; [apply sum_of_abs|]. transitivity (sum_of (λ u, Z.abs (extra u)) pool); [|done].
  apply sum_of_sublist; [apply included_sublist|]. intros; lia.
Qed.
Lemma rest_bounds n : 0 ≤ sum_of eff (drop n pool) ≤ 2 ^ 60.
Proof.
  split; [apply sum_of_nonneg; intros u Hu; specialize (Hpos u (elem_of_sublist _ _ _ Hu (sublist_drop _ _))); lia|].
  transitivity (sum_of eff pool); [|done]. apply sum_of_sublist; [apply sublist_drop|]. intros u Hu. specialize (Hpos u Hu). lia.
Qed.

(** One more decision. *)
Lemma included_snoc v b u : pool !! length v = Some u →
  included_groups pool (v ++ [b]) = included_groups pool v ++ (if b then [u] else []).
Proof.
  intros Hu. pose proof (lookup_lt_Some _ _ _ Hu). rewrite <- (take_drop_middle pool (length v) u Hu).
  generalize (drop (S (length v)) pool) as k. intros k. assert (length (take (length v) pool) = length v) as Hl by (rewrite length_take; lia).
  pose proof (included_app _ (u :: k) v [] Hl) as E. rewrite app_nil_r, included_nil_r, app_nil_r in E.
  rewrite E, included_app, included_cons, included_nil_r by done. by destruct b.
Qed.
Lemma value_push sel b u : pool !! length sel = Some u → value (rev (b :: sel)) = value (rev sel) + if b then eff u else 0.
Proof.
  intros Hu. cbn [rev]. unfold value. rewrite (included_snoc _ _ u) by (by rewrite length_rev). rewrite sum_of_app. destruct b; cbn; lia.
Qed.
Lemma waste_push sel b u : pool !! length sel = Some u → waste (rev (b :: sel)) = waste (rev sel) + if b then extra u else 0.
Proof.
  intros Hu. cbn [rev]. unfold waste. rewrite (included_snoc _ _ u) by (by rewrite length_rev). rewrite sum_of_app. destruct b; cbn; lia.
Qed.
Lemma rest_push n u : pool !! n = Some u → sum_of eff (drop n pool) = eff u + sum_of eff (drop (S n) pool).
Proof. intros Hu. by rewrite (drop_S _ _ _ Hu), sum_of_cons. Qed.
Lemma extra_small u : u ∈ pool → i64 (fee u - long_term_fee u) = extra u.
Proof.
  intros Hu. pose proof (sum_of_elem (λ u, Z.abs (extra u)) pool u Hu ltac:(intros; lia)) as H. cbn in H. unfold extra in *. rewrite i64_small; lia.
Qed.

(** *** The three moves *)

Definition cut (sel : list bool) (best_w : Z) : bool :=
  (value (rev sel) + sum_of eff (drop (length sel) pool) <? T) || (value (rev sel) >? T + cost)
  || ((waste (rev sel) >? best_w) && (extra (hd new_OutputGroup pool) >? 0)).
Definition total_waste (v : list bool) : Z := waste v + (value v - T).
Definition better (sel : list bool) (b : list bool * Z) : list bool * Z :=
  if total_waste (rev sel) <=? b.2 then (resize_selection (rev sel) (length pool), total_waste (rev sel)) else b.
Definition skips (sel : list bool) (u : OutputGroup) : bool :=
  match sel with
  | false :: sel => match pool !! length sel with Some v => (eff u =? eff v) && (fee u =? fee v) | None => false end
  | _ => false
  end.
Fixpoint strip_falses (sel : list bool) : list bool := match sel with false :: sel => strip_falses sel | _ => sel end.

Lemma cut_off_node sel b : cut_off pool T cost (node sel b) = Ok (cut sel b.2).
Proof.
  pose proof (value_bounds (rev sel)). pose proof (rest_bounds (length sel)). unfold cut_off, cut. cbn [curr_value curr_available_value curr_waste best_waste node].
  rewrite !i64_small by lia. destruct (_ || _); [done|]. cbn [orb]. destruct (waste (rev sel) >? b.2); [|done].
  assert (pool !! 0%nat = Some (hd new_OutputGroup pool)) as Hhd by (revert Hne; clear; by destruct pool).
  unfold at_. rewrite Hhd. cbn [rbind andb]. by rewrite extra_small by (by eapply list_elem_of_lookup_2).
Qed.
Lemma record_best_node sel b : record_best pool T (node sel b) = node sel (better sel b).
Proof.
  pose proof (value_bounds (rev sel)). pose proof (waste_bounds (rev sel)). unfold record_best, better, total_waste.
  cbn [curr_value curr_waste curr_selection curr_available_value best_waste best_selection node]. rewrite !i64_small by (rewrite ?i64_small; lia).
  unfold node. destruct (_ <=? b.2); cbn [fst snd]; f_equal; lia.
Qed.
Lemma walk_back_node sel : (length sel ≤ length pool)%nat →
  walk_back pool sel (sum_of eff (drop (length sel) pool)) = Ok (strip_falses sel, sum_of eff (drop (length (strip_falses sel)) pool)).
Proof.
  induction sel as [|[] sel IH]; intros Hl; [done..|]. cbn [walk_back length strip_falses] in *. unfold at_.
  destruct (lookup_lt_is_Some_2 pool (length sel) ltac:(lia)) as [u Hu]. rewrite Hu. cbn [rbind].
  rewrite i64_small. { rewrite Z.add_comm, <- rest_push by done. apply IH. lia. }
  pose proof (rest_bounds (length sel)). rewrite (rest_push _ _ Hu) in *. lia.
Qed.
Lemma strip_falses_sums sel : (length sel ≤ length pool)%nat →
  value (rev (strip_falses sel)) = value (rev sel) ∧ waste (rev (strip_falses sel)) = waste (rev sel) ∧ (length (strip_falses sel) ≤ length sel)%nat.
Proof.
  induction sel as [|[] sel IH]; intros Hl; [done..|]. cbn [strip_falses length] in *. destruct (IH ltac:(lia)) as (-> & -> & ?).
  destruct (lookup_lt_is_Some_2 pool (length sel) ltac:(lia)) as [u Hu]. rewrite (value_push _ false u), (waste_push _ false u) by done.
  split_and!; lia.
Qed.
Lemma go_back_node sel b : (length sel ≤ length pool)%nat →
  go_back pool (node sel b) = match strip_falses sel with [] => Ok (node [] b, false) | _ :: sel => Ok (node (false :: sel) b, true) end.
Proof.
  intros Hl. unfold go_back. cbn [curr_selection curr_available_value node]. rewrite walk_back_node by done. cbn [rbind fst snd].
  destruct (strip_falses_sums sel Hl) as (Ev & Ew & Hs). cbn [curr_value curr_waste best_selection best_waste node].
  assert (∀ c s, strip_falses sel = c :: s → c = true) as Hc.
  { clear. induction sel as [|[] sel IH]; cbn; [done| |done]. by intros c s [= <- <-]. }
  destruct (strip_falses sel) as [|c s] eqn:E. { unfold node. by rewrite <- Ev, <- Ew. }
  rewrite (Hc c s eq_refl) in *. cbn [length] in Hs. destruct (lookup_lt_is_Some_2 pool (length s) ltac:(lia)) as [u Hu].
  unfold at_. rewrite Hu. cbn [rbind]. rewrite extra_small by (by eapply list_elem_of_lookup_2).
  rewrite (value_push s true u) in Ev by done. rewrite (waste_push s true u) in Ew by done. unfold node. cbn [length].
  rewrite (value_push s false u), (waste_push s false u) by done.
  pose proof (value_bounds (rev s)). pose proof (waste_bounds (rev s)). rewrite !i64_small by lia. do 3 f_equal; lia.
Qed.
Lemma go_forward_node sel b u : pool !! length sel = Some u → go_forward pool (node sel b) = Ok (node (negb (skips sel u) :: sel) b, true).
Proof.
  intros Hu. unfold go_forward. cbn [curr_selection curr_available_value curr_value curr_waste best_selection best_waste node]. unfold at_ at 1. rewrite Hu. cbn [rbind].
  pose proof (rest_bounds (length sel)) as Hr. pose proof (rest_bounds (S (length sel))). rewrite (rest_push _ _ Hu) in *.
  pose proof (value_bounds (rev (true :: sel))) as Hv. rewrite (value_push _ true u) in Hv by done.
  pose proof (waste_bounds (rev (true :: sel))) as Hw. rewrite (waste_push _ true u) in Hw by done.
  rewrite extra_small by (by eapply list_elem_of_lookup_2). rewrite !i64_small by lia.
  assert (∀ b', node (b' :: sel) b = mk_bnb (b' :: sel) (value (rev sel) + if b' then eff u else 0) (sum_of eff (drop (S (length sel)) pool))
    (waste (rev sel) + if b' then extra u else 0) b.1 b.2) as Hn.
  { intros b'. unfold node. by rewrite (value_push _ b' u), (waste_push _ b' u). }
  replace (match sel with false :: s => _ | _ => Ok false end) with (Ok (E := selection_error) (skips sel u)).
  - cbn [rbind]. destruct (skips sel u); cbn [negb]; rewrite Hn; do 3 f_equal; lia.
  - destruct sel as [|[] s]; [done..|]. unfold at_, skips. cbn [length] in Hu. pose proof (lookup_lt_Some _ _ _ Hu).
    destruct (lookup_lt_is_Some_2 pool (length s) ltac:(lia)) as [v ->]. done.
Qed.

(** Before the target is reached there is a group left, unless the branch is cut. *)
Lemma next_group sel w : cut sel w = false → value (rev sel) < T → ∃ u, pool !! length sel = Some u.
Proof.
  intros [[Hc _]%orb_false_iff _]%orb_false_iff Hv. destruct (pool !! length sel) as [u|] eqn:E; [by exists u|].
  apply lookup_ge_None_1 in E. rewrite drop_ge in Hc by done. cbn in Hc. lia.
Qed.
Lemma iteration_node sel b : (length sel ≤ length pool)%nat →
  bnb_iteration pool T cost (node sel b) =
    if cut sel b.2 then go_back pool (node sel b)
    else if value (rev sel) >=? T then go_back pool (node sel (better sel b))
    else go_forward pool (node sel b).
Proof. intros Hl. unfold bnb_iteration. rewrite cut_off_node. cbn [rbind]. by rewrite record_best_node. Qed.

(** *** Every selection that is kept is within the range *)

Definition in_range (v : list bool) : Prop := T ≤ value v ≤ T + cost.
Definition best_ok (b : list bool * Z) : Prop :=
  b = ([], MAX_MONEY) ∨ (length b.1 = length pool ∧ in_range b.1 ∧ b.2 = total_waste b.1).

Lemma included_pad v n : (length v ≤ length pool)%nat → included_groups pool (v ++ replicate n false) = included_groups pool v.
Proof.
  intros Hv. assert (length (take (length v) pool) = length v) as Hl by (rewrite length_take; lia).
  rewrite <- (take_drop (length v) pool). rewrite included_app by done. rewrite included_falses, app_nil_r.
  pose proof (included_app _ (drop (length v) pool) v [] Hl) as E. by rewrite app_nil_r, included_nil_r, app_nil_r in E.
Qed.
Lemma resize_sums sel : (length sel ≤ length pool)%nat →
  let v := resize_selection (rev sel) (length pool) in length v = length pool ∧ value v = value (rev sel) ∧ waste v = waste (rev sel).
Proof.
  intros Hl v. unfold v, resize_selection. rewrite take_ge by (rewrite length_rev; lia). unfold value, waste. rewrite included_pad by (rewrite length_rev; lia).
  split_and!; [|done..]. rewrite length_app, length_replicate, length_rev. lia.
Qed.
Lemma better_ok sel b w : (length sel ≤ length pool)%nat → cut sel w = false → T ≤ value (rev sel) → best_ok b → best_ok (better sel b).
Proof.
  intros Hl [[_ Hc]%orb_false_iff _]%orb_false_iff Hv Hb. unfold better. destruct (_ <=? b.2); [|done]. right.
  destruct (resize_sums sel Hl) as (H1 & H2 & H3). unfold in_range, total_waste. cbn [fst snd]. rewrite H2, H3. split_and!; lia.
Qed.
Lemma go_back_sound sel b : (length sel ≤ length pool)%nat →
  ∃ sel' go, go_back pool (node sel b) = Ok (node sel' b, go) ∧ (length sel' ≤ length pool)%nat.
Proof.
  intros Hl. rewrite go_back_node by done. destruct (strip_falses_sums sel Hl) as (_ & _ & Hs).
  destruct (strip_falses sel); do 2 eexists; (split; [done|]); cbn [length] in *; lia.
Qed.
Lemma iteration_sound sel b : (length sel ≤ length pool)%nat → best_ok b →
  ∃ sel' b' go, bnb_iteration pool T cost (node sel b) = Ok (node sel' b', go) ∧ (length sel' ≤ length pool)%nat ∧ best_ok b'.
Proof.
  intros Hl Hb. rewrite iteration_node by done. destruct (cut sel b.2) eqn:Hc.
  { destruct (go_back_sound sel b Hl) as (s & go & E & ?). by exists s, b, go. }
  destruct (Z.geb_spec (value (rev sel)) T).
  { destruct (go_back_sound sel (better sel b) Hl) as (s & go & E & ?). exists s, (better sel b), go. split_and!; [done..|].
    eapply better_ok; [done..|lia|done]. }
  destruct (next_group sel _ Hc) as [u Hu]; [lia|]. rewrite (go_forward_node _ _ u) by done.
  do 3 eexists. split_and!; [done| |done]. pose proof (lookup_lt_Some _ _ _ Hu). cbn [length]. lia.
Qed.
Lemma bnb_loop_sound tries : ∀ sel b, (length sel ≤ length pool)%nat → best_ok b →
  ∃ sel' b', bnb_loop pool T cost tries (node sel b) = Ok (node sel' b') ∧ best_ok b'.
Proof.
  induction tries as [|tries IH]; intros sel b Hl Hb; cbn [bnb_loop]; [by exists sel, b|].
  destruct (iteration_sound sel b Hl Hb) as (sel' & b' & go & -> & Hl' & Hb'). cbn [rbind fst snd].
  destruct go; [by apply IH|by exists sel', b'].
Qed.

(** *** The search of the whole tree *)

(** The number of selections visited, and the best. *)
Fixpoint explore (rest : list OutputGroup) (sel : list bool) (b : list bool * Z) : nat * (list bool * Z) :=
  if cut sel b.2 then (1%nat, b)
  else if value (rev sel) >=? T then (1%nat, better sel b)
  else match rest with
       | [] => (1%nat, b)
       | u :: rest =>
           let r1 := if skips sel u then (0%nat, b) else explore rest (true :: sel) b in
           let r2 := explore rest (false :: sel) r1.2 in
           (S (r1.1 + r2.1), r2.2)
       end.
Definition backtracked (tries : nat) (sel : list bool) (b : list bool * Z) : result selection_error bnb_state :=
  rbind (go_back pool (node sel b)) (λ r, if r.2 then bnb_loop pool T cost tries r.1 else Ok r.1).
(** The loop visits the selections below a node and goes back from it. *)
Lemma loop_explores rest : ∀ sel b tries, drop (length sel) pool = rest → (length sel ≤ length pool)%nat →
  bnb_loop pool T cost ((explore rest sel b).1 + tries) (node sel b) = backtracked tries sel (explore rest sel b).2.
Proof.
  induction rest as [|u rest IH]; intros sel b tries Hr Hl; cbn [explore].
  - destruct (cut sel b.2) eqn:Hc; [|destruct (value (rev sel) >=? T) eqn:Hv]; cbn [Nat.add bnb_loop fst snd]; rewrite iteration_node, Hc, ?Hv by done; [done..|].
    destruct (next_group sel _ Hc) as [u Hu]; [lia|]. apply drop_S in Hu. by rewrite Hr in Hu.
  - destruct (cut sel b.2) eqn:Hc; [cbn [Nat.add bnb_loop fst snd]; by rewrite iteration_node, Hc by done|].
    destruct (value (rev sel) >=? T) eqn:Hv; [cbn [Nat.add bnb_loop fst snd]; by rewrite iteration_node, Hc, Hv by done|].
    assert (pool !! length sel = Some u) as Hu.
    { rewrite <- (Nat.add_0_r (length sel)), <- lookup_drop, Hr. done. }
    pose proof (lookup_lt_Some _ _ _ Hu). assert (drop (S (length sel)) pool = rest) as Hr'.
    { apply drop_S in Hu. rewrite Hr in Hu. by injection Hu. }
    cbn [fst snd Nat.add bnb_loop]. rewrite iteration_node, Hc, Hv by done. rewrite (go_forward_node _ _ u) by done. cbn [rbind fst snd].
    destruct (skips sel u) eqn:Hs; cbn [negb fst snd Nat.add].
    + rewrite IH by (cbn [length]; done || lia). unfold backtracked. by rewrite !go_back_node by (cbn [length]; lia).
    + rewrite <- Nat.add_assoc, IH by (cbn [length]; done || lia). unfold backtracked at 1. rewrite go_back_node by (cbn [length]; lia).
      cbn [strip_falses rbind fst snd]. rewrite IH by (cbn [length]; done || lia). unfold backtracked. by rewrite !go_back_node by (cbn [length]; lia).
Qed.
Lemma explore_size rest : ∀ sel b, ((explore rest sel b).1 < 2 ^ S (length rest))%nat.
Proof.
  induction rest as [|u rest IH]; intros sel b; cbn [explore length].
  - repeat case_match; cbn; lia.
  - pose proof (Nat.pow_nonzero 2 (length rest)). rewrite !Nat.pow_succ_r'. specialize (IH (false :: sel)) as IH2. specialize (IH (true :: sel) b).
    rewrite !Nat.pow_succ_r' in *. destruct (cut sel b.2); [cbn; lia|]. destruct (value (rev sel) >=? T); [cbn; lia|].
    destruct (skips sel u); cbn [fst snd].
    + specialize (IH2 b). rewrite ?Nat.pow_succ_r' in IH2. lia.
    + specialize (IH2 (explore rest (true :: sel) b).2). rewrite ?Nat.pow_succ_r' in IH2. lia.
Qed.

(** *** Nothing better is missed *)

Context (Hsign : ∀ u v, u ∈ pool → v ∈ pool → 0 < extra u → 0 ≤ extra v) (Hsame : ∀ u v, u ∈ pool → v ∈ pool → fee u = fee v → extra u = extra v).

(** A selection within the range in which nothing follows once the target is reached. *)
Definition candidate (v : list bool) : Prop :=
  length v = length pool ∧ in_range v ∧ ∀ k, T ≤ value (take k v) → Forall (.= false) (drop k v).
Lemma included_split v1 v2 : (length v1 ≤ length pool)%nat →
  included_groups pool (v1 ++ v2) = included_groups pool v1 ++ included_groups (drop (length v1) pool) v2.
Proof.
  intros Hv. assert (length (take (length v1) pool) = length v1) as Hl by (rewrite length_take; lia).
  pose proof (included_app (take (length v1) pool) (drop (length v1) pool) v1 [] Hl) as E. rewrite included_nil_r, !app_nil_r, take_drop in E.
  rewrite E. rewrite <- included_app by done. by rewrite take_drop.
Qed.
Lemma falses_replicate v : Forall (.= false) v → v = replicate (length v) false.
Proof. induction 1 as [|b v -> _ IH]; [done|]. cbn. by f_equal. Qed.

(** Two equal neighbours can be exchanged. *)
Definition swap_pair (x : list bool) (c d : bool) (e : list bool) : list bool := x ++ c :: d :: e.
Lemma swap_sums x u v e : pool !! length x = Some v → pool !! S (length x) = Some u → eff u = eff v → fee u = fee v →
  value (swap_pair x true false e) = value (swap_pair x false true e) ∧ waste (swap_pair x true false e) = waste (swap_pair x false true e).
Proof.
  intros Hv Hu He Hf. pose proof (lookup_lt_Some _ _ _ Hu). unfold value, waste, swap_pair. rewrite !included_split by lia.
  rewrite (drop_S _ _ _ Hv), (drop_S _ _ _ Hu), !included_cons, !sum_of_app, !sum_of_cons.
  rewrite (Hsame u v) by (done || by eapply list_elem_of_lookup_2). lia.
Qed.
Lemma candidate_swap x u v e : pool !! length x = Some v → pool !! S (length x) = Some u → eff u = eff v → fee u = fee v →
  candidate (swap_pair x false true e) → candidate (swap_pair x true false e) ∧ total_waste (swap_pair x true false e) = total_waste (swap_pair x false true e).
Proof.
  intros Hv Hu He Hf (Hl & Hr & Hk). pose proof (swap_sums x u v) as Hs. unfold total_waste, in_range in *. destruct (Hs e) as [E1 E2]; [done..|].
  split; [|by rewrite E1, E2]. unfold candidate, in_range. rewrite E1. split_and!; [unfold swap_pair in *; by rewrite !length_app in *|lia..|]. intros k Hk'.
  destruct (decide (k ≤ length x)%nat) as [H1|H1].
  - exfalso. unfold swap_pair in *. rewrite take_app_le in Hk' by done. specialize (Hk k). rewrite take_app_le in Hk by done.
    specialize (Hk Hk'). rewrite drop_app_le in Hk by done. apply Forall_app in Hk as [_ Hk]. by do 2 apply Forall_cons in Hk as [? Hk].
  - destruct (decide (k = S (length x))) as [->|H2].
    + unfold swap_pair in *. rewrite take_app_ge in Hk' by lia. replace (S (length x) - length x)%nat with 1%nat in Hk' by lia. cbn [take] in Hk'.
      assert (drop (S (length x)) (x ++ true :: false :: e) = false :: e) as ->.
      { rewrite drop_app_ge by lia. by replace (S (length x) - length x)%nat with 1%nat by lia. }
      constructor; [done|]. specialize (Hk (length x + 2)%nat). rewrite take_app_add, drop_app_add in Hk. cbn [take drop] in Hk. apply Hk.
      destruct (Hs []) as [E _]; [done..|]. unfold swap_pair in E. rewrite take_0, <- E.
      replace (x ++ [true; false]) with ((x ++ [true]) ++ replicate 1 false) by (by rewrite <- app_assoc).
      unfold value. pose proof (lookup_lt_Some _ _ _ Hu). rewrite included_pad by (rewrite length_app; cbn; lia). done.
    + replace k with (length x + (2 + (k - length x - 2)))%nat in * by lia. unfold swap_pair in *.
      rewrite take_app_add in Hk'. rewrite drop_app_add. specialize (Hk (length x + (2 + (k - length x - 2)))%nat).
      rewrite take_app_add, drop_app_add in Hk. cbn [Nat.add take drop] in *. apply Hk. destruct (Hs (take (k - length x - 2) e)) as [E _]; [done..|]. by rewrite <- E.
Qed.

Lemma extension_sums sel ext : (length sel ≤ length pool)%nat →
  let k := included_groups (drop (length sel) pool) ext in
  value (rev sel ++ ext) = value (rev sel) + sum_of eff k ∧ waste (rev sel ++ ext) = waste (rev sel) + sum_of extra k ∧
  0 ≤ sum_of eff k ≤ sum_of eff (drop (length sel) pool) ∧ (∀ u, u ∈ k → u ∈ pool).
Proof.
  intros Hl k. unfold value, waste. rewrite !included_split, !sum_of_app, length_rev by (by rewrite length_rev).
  assert (∀ u, u ∈ k → u ∈ pool) as Hk.
  { intros u Hu. eapply elem_of_sublist; [exact Hu|]. etransitivity; [apply included_sublist|apply sublist_drop]. }
  split_and!; [done..| | |done].
  - apply sum_of_nonneg. intros u Hu%Hk. specialize (Hpos u Hu). lia.
  - apply sum_of_sublist; [apply included_sublist|]. intros u Hu. specialize (Hpos u (elem_of_sublist _ _ _ Hu (sublist_drop _ _))). lia.
Qed.
(** A branch that is cut holds no candidate that is better than the best. *)
Lemma cut_misses_nothing sel w ext : (length sel ≤ length pool)%nat → cut sel w = true → candidate (rev sel ++ ext) → w ≤ total_waste (rev sel ++ ext).
Proof.
  intros Hl Hc (_ & Hr & _). destruct (extension_sums sel ext Hl) as (Ev & Ew & Hb & Hk). unfold in_range, total_waste in *. rewrite Ev, Ew in *.
  unfold cut in Hc. apply orb_true_iff in Hc as [[Hc|Hc]%orb_true_iff|[Hc Hx]%andb_true_iff]; [lia..|].
  assert (0 ≤ sum_of extra (included_groups (drop (length sel) pool) ext)); [|lia].
  apply sum_of_nonneg. intros u Hu%Hk. apply (Hsign (hd new_OutputGroup pool)); [|done|lia].
  revert Hne. clear. destruct pool; [done|]. intros _. apply list_elem_of_here.
Qed.
Lemma better_best sel b ext : (length sel ≤ length pool)%nat → T ≤ value (rev sel) → candidate (rev sel ++ ext) →
  (better sel b).2 ≤ b.2 ∧ (better sel b).2 ≤ total_waste (rev sel ++ ext).
Proof.
  intros Hl Hv (_ & _ & Hk). specialize (Hk (length (rev sel))). rewrite take_app_length, drop_app_length in Hk.
  rewrite (falses_replicate ext) by auto. assert (∀ n, total_waste (rev sel ++ replicate n false) = total_waste (rev sel)) as ->.
  { intros n. unfold total_waste, value, waste. by rewrite included_pad by (by rewrite length_rev). }
  unfold better. destruct (Z.leb_spec (total_waste (rev sel)) b.2); cbn; lia.
Qed.
Lemma better_le sel b : (better sel b).2 ≤ b.2.
Proof. unfold better. destruct (Z.leb_spec (total_waste (rev sel)) b.2); cbn; lia. Qed.
Lemma explore_le rest : ∀ sel b, (explore rest sel b).2.2 ≤ b.2.
Proof.
  induction rest as [|u rest IH]; intros sel b; cbn [explore]; (destruct (cut sel b.2); [done|]); (destruct (_ >=? T); [apply better_le|]); [done|].
  cbn [snd]. etransitivity; [apply IH|]. destruct (skips sel u); [done|apply IH].
Qed.
(** What was left out with the last omitted group is no better than the best. *)
Definition omitted_no_better (sel : list bool) (w : Z) : Prop :=
  ∀ s ext, sel = false :: s → candidate (rev (true :: s) ++ ext) → w ≤ total_waste (rev (true :: s) ++ ext).
Lemma skip_no_better sel u w ext : pool !! length sel = Some u → skips sel u = true → omitted_no_better sel w →
  candidate (rev (true :: sel) ++ ext) → w ≤ total_waste (rev (true :: sel) ++ ext).
Proof.
  intros Hu Hs Hom. destruct sel as [|[] s]; [done..|]. cbn [skips length] in *. pose proof (lookup_lt_Some _ _ _ Hu).
  destruct (lookup_lt_is_Some_2 pool (length s) ltac:(lia)) as [v Hv]. rewrite Hv in Hs. apply andb_true_iff in Hs as [He Hf].
  specialize (Hom s). cbn [rev] in *. rewrite <- !app_assoc in *. cbn [app]. intros Hc.
  destruct (candidate_swap (rev s) u v ext) as [Hc' E]; rewrite ?length_rev; [done|done|lia|lia|exact Hc|]. unfold swap_pair in *. rewrite <- E.
  specialize (Hom (false :: ext) eq_refl). rewrite <- app_assoc in Hom. by apply Hom.
Qed.
Lemma explore_best rest : ∀ sel b ext, drop (length sel) pool = rest → (length sel ≤ length pool)%nat → omitted_no_better sel b.2 →
  candidate (rev sel ++ ext) → (explore rest sel b).2.2 ≤ total_waste (rev sel ++ ext).
Proof.
  induction rest as [|u rest IH]; intros sel b ext Hr Hl Hom Hc; cbn [explore].
  - destruct (cut sel b.2) eqn:Hcut; [by apply cut_misses_nothing|]. destruct (Z.geb_spec (value (rev sel)) T) as [Hv|Hv]; [apply better_best; [done|lia|done]|].
    destruct (next_group sel _ Hcut) as [u Hu]; [lia|]. apply drop_S in Hu. by rewrite Hr in Hu.
  - destruct (cut sel b.2) eqn:Hcut; [by apply cut_misses_nothing|]. destruct (Z.geb_spec (value (rev sel)) T) as [Hv|Hv]; [apply better_best; [done|lia|done]|].
    assert (pool !! length sel = Some u) as Hu by (rewrite <- (Nat.add_0_r (length sel)), <- lookup_drop, Hr; done).
    pose proof (lookup_lt_Some _ _ _ Hu). assert (drop (S (length sel)) pool = rest) as Hr' by (apply drop_S in Hu; rewrite Hr in Hu; by injection Hu).
    set (r1 := if skips sel u then (0%nat, b) else explore rest (true :: sel) b).
    assert (∀ ext, candidate (rev (true :: sel) ++ ext) → r1.2.2 ≤ total_waste (rev (true :: sel) ++ ext)) as Hr1.
    { intros e He. unfold r1. destruct (skips sel u) eqn:Hs; [by apply (skip_no_better sel u)|]. by apply IH. }
    cbn [snd]. destruct ext as [|c ext].
    { exfalso. destruct Hc as (Hc & _). rewrite app_nil_r, length_rev in Hc. lia. }
    replace (rev sel ++ c :: ext) with (rev (c :: sel) ++ ext) in * by (cbn [rev]; by rewrite <- app_assoc).
    destruct c; [etransitivity; [apply explore_le|by apply Hr1]|].
    apply IH; [done|done| |done]. intros s e [= ->]. apply Hr1.
Qed.

(** A selection within the range contains a candidate. *)
Lemma least_nat (P : nat → Prop) `{∀ n, Decision (P n)} n : P n → ∃ k, P k ∧ ∀ j, (j < k)%nat → ¬ P j.
Proof.
  induction n as [n IH] using lt_wf_ind. intros Hn. destruct (decide (Exists P (seq 0 n))) as [(j & Hj & Pj)%Exists_exists|Hno].
  - apply elem_of_seq in Hj. apply (IH j); [lia|done].
  - exists n. split; [done|]. intros j Hj Pj. apply Hno, Exists_exists. exists j. split; [apply elem_of_seq; lia|done].
Qed.
Lemma candidate_exists v : length v = length pool → in_range v →
  ∃ c, candidate c ∧ ((∀ u, u ∈ pool → 0 ≤ extra u) → total_waste c ≤ total_waste v).
Proof.
  intros Hl Hr. destruct (least_nat (λ k, T ≤ value (take k v)) (length v)) as (k & Hk & Hleast). { rewrite take_ge by lia. apply Hr. }
  exists (take k v ++ replicate (length v - k) false).
  assert (length (take k v) ≤ length pool)%nat as Hlk by (rewrite length_take; lia).
  destruct (extension_sums (rev (take k v)) (drop k v)) as (Ev & Ew & Hb & Hin); [by rewrite length_rev|].
  rewrite rev_involutive, take_drop in Ev, Ew.
  assert (value (take k v ++ replicate (length v - k) false) = value (take k v)) as Vc by (unfold value; by rewrite included_pad).
  assert (waste (take k v ++ replicate (length v - k) false) = waste (take k v)) as Wc by (unfold waste; by rewrite included_pad).
  unfold candidate, in_range, total_waste in *. rewrite Vc, Wc. split_and!.
  - rewrite length_app, length_take, length_replicate. lia.
  - done.
  - lia.
  - intros j Hj. destruct (decide (j < k)%nat) as [Hlt|Hge].
    + exfalso. apply (Hleast j Hlt). destruct (decide (j ≤ length (take k v))%nat) as [H1|H1].
      * rewrite take_app_le, take_take in Hj by done. by replace (j `min` k)%nat with j in Hj by lia.
      * rewrite length_take in H1. assert (length v < j)%nat by lia. rewrite (take_ge v) in Hk |- * by lia. done.
    + rewrite drop_app, drop_ge by (rewrite length_take; lia). apply Forall_drop, Forall_replicate. done.
  - intros Hx. assert (0 ≤ sum_of extra (included_groups (drop (length (rev (take k v))) pool) (drop k v))); [|lia].
    apply sum_of_nonneg. intros u Hu%Hin. by apply Hx.
Qed.
End Search.

(** ** [SelectCoinsBnB] *)

Lemma sum_available_sum pool : ∀ acc, (∀ u, u ∈ pool → 0 < eff u) → 0 ≤ acc → acc + sum_of eff pool ≤ 2 ^ 60 →
  sum_available pool acc = Ok (acc + sum_of eff pool).
Proof.
  induction pool as [|u pool IH]; intros acc Hpos Ha Hs; cbn [sum_available]; [cbn; f_equal; lia|]. rewrite sum_of_cons in *.
  pose proof (Hpos u (list_elem_of_here _ _)). rewrite (proj2 (Z.gtb_lt _ _)) by done. cbn [rbind require].
  assert (0 ≤ sum_of eff pool) by (apply sum_of_nonneg; intros v Hv; specialize (Hpos v (list_elem_of_further _ _ _ Hv)); lia).
  rewrite i64_small, IH by (lia || (intros; apply Hpos; by apply list_elem_of_further)). f_equal. lia.
Qed.
Lemma collect_included pool : ∀ v s r, length v = length pool → collect pool v s r = Ok (foldl add_group (s, r) (included_groups pool v)).
Proof.
  induction pool as [|u pool IH]; intros [|b v] s r Hl; try done. cbn [collect tail]. rewrite included_cons.
  destruct b; cbn [at_ lookup list_lookup rbind foldl]; apply IH; by injection Hl.
Qed.
Lemma insert_coins_app s l k : insert_coins s (l ++ k) = insert_coins (insert_coins s l) k.
Proof. apply foldl_app. Qed.
Lemma add_groups_sum l : ∀ s r, Z.abs r + sum_of (λ u, Z.abs (m_value u)) l ≤ 2 ^ 62 →
  foldl add_group (s, r) l = (insert_coins s (concat (m_outputs <$> l)), r + sum_of m_value l).
Proof.
  induction l as [|u l IH]; intros s r Hb; [cbn; f_equal; lia|]. rewrite sum_of_cons in *. cbn [foldl fmap list_fmap concat].
  assert (0 ≤ sum_of (λ u, Z.abs (m_value u)) l) by (apply sum_of_nonneg; intros; lia).
  unfold add_group at 2. cbn [fst snd]. rewrite i64_small by lia. rewrite IH by lia. rewrite insert_coins_app. f_equal. lia.
Qed.
(** What a selection of groups hands out. *)
Definition handed_out (l : list OutputGroup) : selected_coins := mk_selected true (insert_coins ∅ (concat (m_outputs <$> l))) (sum_of m_value l).

(** Groups whose sums do not overflow. *)
Definition pool_ok (pool : list OutputGroup) : Prop :=
  (∀ u, u ∈ pool → 0 < eff u) ∧ sum_of eff pool ≤ 2 ^ 60 ∧ sum_of (λ u, Z.abs (extra u)) pool ≤ 2 ^ 60 ∧ sum_of (λ u, Z.abs (m_value u)) pool ≤ 2 ^ 60.
Lemma pool_ok_perm l k : l ≡ₚ k → pool_ok l → pool_ok k.
Proof.
  intros Hp (H1 & H2 & H3 & H4). unfold pool_ok. rewrite <- !(sum_of_perm _ l k Hp). split_and!; [|done..]. intros u Hu. apply H1. by rewrite Hp.
Qed.

Section BnB.
Context (sort : list OutputGroup → list OutputGroup) (Hsort : ∀ l, sort l ≡ₚ l).
Context (pool : list OutputGroup) (target cost value_ret fees : Z).
Context (Hpool : pool_ok pool) (Ht : - 2 ^ 59 ≤ target ≤ 2 ^ 59) (Hf : - 2 ^ 59 ≤ fees ≤ 2 ^ 59) (Hc : 0 ≤ cost ≤ 2 ^ 60) (Hpay : 0 < fees + target).
Abbreviation T := (fees + target).

(** The end of the search, if it is started. *)
Lemma bnb_started : T ≤ sum_of eff pool → ∃ s b,
  bnb_loop (sort pool) T cost (Z.to_nat TOTAL_TRIES) (node (sort pool) [] ([], MAX_MONEY)) = Ok (node (sort pool) s b) ∧ best_ok (sort pool) T cost b ∧
  SelectCoinsBnB sort pool target cost value_ret fees =
    if decide (b.1 = []) then Ok (mk_selected false ∅ value_ret) else Ok (handed_out (included_groups (sort pool) b.1)).
Proof.
  intros Hs. destruct (pool_ok_perm _ _ (symmetry (Hsort pool)) Hpool) as (P1 & P2 & P3 & P4). destruct Hpool as (H1 & H2 & _ & _).
  assert (sort pool ≠ []) as Hne.
  { intros E. pose proof (Hsort pool) as Hp. rewrite E in Hp. apply Permutation_nil_l in Hp. subst. cbn in Hs. lia. }
  destruct (bnb_loop_sound (sort pool) T cost Hne P1 P2 P3 ltac:(lia) Hc (Z.to_nat TOTAL_TRIES) [] ([], MAX_MONEY)) as (s & b & E & Hb); [cbn; lia|by left|].
  exists s, b. split_and!; [done..|]. unfold SelectCoinsBnB. rewrite (i64_small T) by lia. rewrite sum_available_sum by (done || lia). cbn [rbind].
  rewrite (proj2 (Z.ltb_ge _ _)) by lia.
  assert (mk_bnb [] 0 (0 + sum_of eff pool) 0 [] MAX_MONEY = node (sort pool) [] ([], MAX_MONEY)) as ->.
  { unfold node. cbn [length drop rev fst snd]. rewrite (sum_of_perm _ _ _ (Hsort pool)). unfold value, waste. rewrite included_nil_r. done. }
  rewrite E. cbn [rbind best_selection node]. destruct b as [v w]. cbn [fst]. destruct Hb as [[= -> ->]|(Hl & _ & _)]; [done|]. cbn [fst] in Hl.
  destruct v as [|c v]. { destruct (sort pool); done. }
  rewrite decide_False by done. rewrite collect_included by done. cbn [rbind]. rewrite add_groups_sum; [done|].
  transitivity (sum_of (λ u, Z.abs (m_value u)) (sort pool)); [|lia]. apply sum_of_sublist; [apply included_sublist|]. intros; lia.
Qed.
Lemma bnb_too_little : sum_of eff pool < T → SelectCoinsBnB sort pool target cost value_ret fees = Ok (mk_selected false ∅ value_ret).
Proof.
  intros Hs. destruct Hpool as (H1 & H2 & _). unfold SelectCoinsBnB. rewrite (i64_small T) by lia. rewrite sum_available_sum by (done || lia). cbn [rbind].
  by rewrite (proj2 (Z.ltb_lt _ _)) by lia.
Qed.

(** Whatever is selected is within the range. *)
Lemma bnb_selects : SelectCoinsBnB sort pool target cost value_ret fees = Ok (mk_selected false ∅ value_ret) ∨
  ∃ sub, sub ⊆+ pool ∧ T ≤ sum_of eff sub ≤ T + cost ∧ SelectCoinsBnB sort pool target cost value_ret fees = Ok (handed_out sub).
Proof.
  destruct (Z_lt_le_dec (sum_of eff pool) T) as [Hlt|Hle]; [left; by apply bnb_too_little|].
  destruct (bnb_started Hle) as (s & b & _ & Hb & ->). destruct (decide (b.1 = [])) as [|Hne]; [by left|right].
  destruct Hb as [->|(_ & Hr & _)]; [done|]. exists (included_groups (sort pool) b.1). split_and!; [|apply Hr..|done].
  rewrite <- (Hsort pool) at 2. apply sublist_submseteq, included_sublist.
Qed.

(** With at most fifteen groups the tries are enough for the whole tree. *)
Context (Hlen : (length pool ≤ 15)%nat).
Context (Hsign : ∀ u v, u ∈ pool → v ∈ pool → 0 < extra u → 0 ≤ extra v) (Hsame : ∀ u v, u ∈ pool → v ∈ pool → fee u = fee v → extra u = extra v).
Lemma bnb_exhausts : T ≤ sum_of eff pool → ∃ s, bnb_loop (sort pool) T cost (Z.to_nat TOTAL_TRIES) (node (sort pool) [] ([], MAX_MONEY)) =
  Ok (node (sort pool) s (explore (sort pool) T cost (sort pool) [] ([], MAX_MONEY)).2).
Proof.
  intros Hs. destruct (pool_ok_perm _ _ (symmetry (Hsort pool)) Hpool) as (P1 & P2 & P3 & P4).
  assert (sort pool ≠ []) as Hne.
  { intros E. pose proof (Hsort pool) as Hp. rewrite E in Hp. apply Permutation_nil_l in Hp. rewrite <- Hp in Hs. cbn in Hs. lia. }
  pose proof (explore_size (sort pool) T cost (sort pool) [] ([], MAX_MONEY)) as Hk. set (k := (explore _ _ _ _ _ _).1) in *.
  assert (length (sort pool) = length pool) as El by (by rewrite (Hsort pool)).
  assert (2 ^ S (length (sort pool)) ≤ 2 ^ 16)%nat by (apply Nat.pow_le_mono_r; lia). assert (Z.of_nat (2 ^ 16) = 2 ^ 16) by (by rewrite Nat2Z.inj_pow).
  assert (Z.of_nat k ≤ TOTAL_TRIES) by (unfold TOTAL_TRIES; lia).
  replace (Z.to_nat TOTAL_TRIES) with (k + (Z.to_nat TOTAL_TRIES - k))%nat by lia. unfold k.
  rewrite (loop_explores (sort pool) T cost Hne P1 P2 P3 ltac:(lia) Hc (sort pool) [] ([], MAX_MONEY)) by (cbn; done || lia).
  unfold backtracked. rewrite (go_back_node (sort pool) P1 P2 P3) by (cbn; lia). cbn [strip_falses rbind fst snd]. by exists [].
Qed.
Lemma bnb_candidates sub : sub ⊆+ pool → T ≤ sum_of eff sub ≤ T + cost → ∃ c, candidate (sort pool) T cost c ∧
  total_waste (sort pool) T c ≤ sum_of (λ u, Z.abs (extra u)) pool + cost ∧
  ((∀ u, u ∈ pool → 0 ≤ extra u) → total_waste (sort pool) T c ≤ sum_of extra sub + (sum_of eff sub - T)).
Proof.
  intros Hsub Hr. destruct (pool_ok_perm _ _ (symmetry (Hsort pool)) Hpool) as (P1 & P2 & P3 & P4).
  rewrite <- (Hsort pool) in Hsub. apply submseteq_sublist_r in Hsub as (k & Hk & (v & Hl & Ev)%sublist_included).
  destruct (candidate_exists (sort pool) T cost P1 v) as (c & Hcand & Hw).
  { done. } { unfold in_range, value. by rewrite Ev, <- (sum_of_perm _ _ _ Hk). }
  exists c. split_and!; [done| |].
  - destruct Hcand as (_ & Hrc & _). unfold total_waste, in_range in *.
    assert (waste (sort pool) c ≤ sum_of (λ u, Z.abs (extra u)) pool); [|lia]. unfold waste.
    transitivity (sum_of (λ u, Z.abs (extra u)) (included_groups (sort pool) c)).
    { pose proof (sum_of_abs extra (included_groups (sort pool) c)). lia. }
    rewrite <- (sum_of_perm _ _ _ (Hsort pool)). apply sum_of_sublist; [apply included_sublist|intros; lia].
  - intros Hx. etransitivity; [apply Hw; intros u Hu; apply Hx; by rewrite <- (Hsort pool)|].
    unfold total_waste, value, waste. rewrite Ev, !(sum_of_perm _ _ _ Hk). lia.
Qed.
End BnB.

(** ** The approximation *)

Section Approximation.
Context (groups : list OutputGroup) (random : nat → bool).
Definition chosen_value (v : list bool) : Z := sum_of m_value (included_groups groups v).
Context (Hsum : sum_of (λ u, Z.abs (m_value u)) groups ≤ 2 ^ 60).

Lemma chosen_value_bounds v : Z.abs (chosen_value v) ≤ 2 ^ 60.
Proof.
  unfold chosen_value. etransitivity; [apply sum_of_abs|]. transitivity (sum_of (λ u, Z.abs (m_value u)) groups); [|done].
  apply sum_of_sublist; [apply included_sublist|intros; lia].
Qed.
Lemma chosen_insert v i g : length v = length groups → groups !! i = Some g → v !! i = Some false →
  chosen_value (<[i := true]> v) = chosen_value v + m_value g.
Proof.
  clear Hsum. intros Hl Hg Hv. assert (i < length groups)%nat as Hi by (by eapply lookup_lt_Some).
  rewrite insert_take_drop by lia. rewrite <- (take_drop_middle v i false Hv) at 3. unfold chosen_value. rewrite <- (take_drop_middle groups i g Hg).
  rewrite !included_app by (rewrite !length_take; lia). rewrite !included_cons, !sum_of_app, sum_of_cons. lia.
Qed.

(** The best selection reaches the target and is worth what is recorded. *)
Definition best_inv (t : Z) (s : approx_state) : Prop := length (vfBest s) = length groups ∧ nBest s = chosen_value (vfBest s) ∧ t ≤ nBest s.
Definition approx_inv (t : Z) (s : approx_state) : Prop :=
  best_inv t s ∧ length (vfIncluded s) = length groups ∧ nTotal s = chosen_value (vfIncluded s).
Lemma approx_group_inv t first s i g : groups !! i = Some g → approx_inv t s → (first = true → vfIncluded s !! i = Some false) →
  approx_inv t (approx_group random t first s (i, g)) ∧
  ∀ j, j ≠ i → vfIncluded (approx_group random t first s (i, g)) !! j = vfIncluded s !! j.
Proof.
  intros Hg ((B1 & B2 & B3) & Hl & Ht) Hf. assert (i < length groups)%nat as Hi by (by eapply lookup_lt_Some). unfold approx_group.
  destruct (if first then _ else _) as [include d] eqn:E. destruct include; [|done].
  assert (vfIncluded s !! i = Some false) as Hv.
  { destruct first; [by apply Hf|]. injection E as E _. apply negb_true_iff in E.
    destruct (lookup_lt_is_Some_2 (vfIncluded s) i ltac:(lia)) as [b Hb]. rewrite (nth_lookup_Some _ _ _ _ Hb) in E. by subst b. }
  pose proof (chosen_insert (vfIncluded s) i g Hl Hg Hv) as Hins. pose proof (chosen_value_bounds (vfIncluded s)). pose proof (chosen_value_bounds (<[i := true]> (vfIncluded s))).
  assert (<[i := false]> (<[i := true]> (vfIncluded s)) = vfIncluded s) as Hback by (by rewrite list_insert_insert_eq, list_insert_id).
  rewrite Ht, (i64_small (chosen_value _ + _)), <- Hins by lia. destruct (Z.geb_spec (chosen_value (<[i := true]> (vfIncluded s))) t) as [Hge|Hlt].
  - rewrite Hback, i64_small by lia. destruct (Z.ltb_spec (chosen_value (<[i := true]> (vfIncluded s))) (nBest s)); unfold approx_inv, best_inv; cbn [vfBest nBest vfIncluded nTotal];
      (split; [split_and!; rewrite ?length_insert; lia|done]).
  - unfold approx_inv, best_inv; cbn [vfBest nBest vfIncluded nTotal]. split; [split_and!; rewrite ?length_insert; done|].
    intros j Hj. by rewrite list_lookup_insert_ne.
Qed.
Lemma approx_fold_inv t first rest : ∀ k s, drop k groups = rest → approx_inv t s → (first = true → ∀ j, (k ≤ j < length groups)%nat → vfIncluded s !! j = Some false) →
  approx_inv t (foldl (approx_group random t first) s (zip (seq k (length rest)) rest)).
Proof.
  induction rest as [|g rest IH]; intros k s Hr Hs Hf; [done|]. cbn [length seq zip_with foldl].
  assert (groups !! k = Some g) as Hg by (rewrite <- (Nat.add_0_r k), <- lookup_drop, Hr; done).
  pose proof (lookup_lt_Some _ _ _ Hg). destruct (approx_group_inv t first s k g Hg Hs) as [H1 H2]; [intros; apply Hf; [done|lia]|].
  apply IH; [apply drop_S in Hg; rewrite Hr in Hg; by injection Hg|done|]. intros Hfirst j Hj. rewrite H2 by lia. apply Hf; [done|lia].
Qed.
Lemma approx_pass_inv t first s : approx_inv t s → (first = true → vfIncluded s = replicate (length groups) false) → approx_inv t (approx_pass random groups t first s).
Proof.
  intros Hs Hf. unfold approx_pass. apply (approx_fold_inv t first groups 0); [done|done|]. intros ->%Hf j ?. apply lookup_replicate_2. lia.
Qed.
Lemma approx_loop_inv t n : ∀ s, best_inv t s → best_inv t (approx_loop random groups t n s).
Proof.
  induction n as [|n IH]; intros s Hs; cbn [approx_loop]; [done|]. case_match; [done|]. apply IH.
  set (s0 := mk_approx (replicate (length groups) false) 0 false (vfBest s) (nBest s) (drawn s)).
  assert (approx_inv t s0) as H0.
  { split_and!; [apply Hs..|apply length_replicate|]. cbn. unfold chosen_value. by rewrite included_falses. }
  pose proof (approx_pass_inv t true s0 H0 (λ _, eq_refl)) as H1. destruct (fReachedTarget _); [apply H1|]. by apply (approx_pass_inv t false).
Qed.
Lemma included_trues : included_groups groups (replicate (length groups) true) = groups.
Proof. clear. induction groups as [|g l IH]; [done|]. cbn [length replicate]. by rewrite included_cons, IH. Qed.
Lemma approximation t : t ≤ sum_of m_value groups →
  let r := ApproximateBestSubset random groups (sum_of m_value groups) t in
  length r.1 = length groups ∧ r.2 = chosen_value r.1 ∧ t ≤ r.2.
Proof.
  intros Ht r. unfold r, ApproximateBestSubset. cbn [fst snd]. apply approx_loop_inv.
  split_and!; [apply length_replicate| |done]. cbn [nBest vfBest]. unfold chosen_value. by rewrite included_trues.
Qed.
End Approximation.

(** ** The fallback solver *)

Lemma sum_abs_le (l k : list OutputGroup) : l ⊆+ k → sum_of (λ u, Z.abs (m_value u)) l ≤ sum_of (λ u, Z.abs (m_value u)) k.
Proof. intros (j & Hj & Hs)%submseteq_sublist_r. rewrite (sum_of_perm _ _ _ Hj). apply sum_of_sublist; [done|intros; lia]. Qed.
Lemma select_groups_handed l : sum_of (λ u, Z.abs (m_value u)) l ≤ 2 ^ 60 → select_groups l = handed_out l.
Proof. intros Hl. unfold select_groups, handed_out. rewrite add_groups_sum by lia. done. Qed.

(** The groups below and above the target with the least change. *)
Lemma classify_spec t groups : ∀ ll app tot, - 2 ^ 59 ≤ t ≤ 2 ^ 59 → Z.abs tot + sum_of (λ u, Z.abs (m_value u)) groups ≤ 2 ^ 62 →
  match classify t groups ll app tot with
  | exact_group g => g ∈ groups ∧ m_value g = t
  | classes ll' app' tot' => ∃ lo hi, groups ≡ₚ lo ++ hi ∧ app' = app ++ lo ∧ tot' = tot + sum_of m_value lo ∧
      (∀ g, g ∈ hi → t + MIN_CHANGE ≤ m_value g) ∧ match ll' with None => ll = None ∧ hi = [] | Some g => g ∈ hi ∨ ll = Some g end
  end.
Proof.
  induction groups as [|g groups IH]; intros ll app tot Ht Hb; cbn [classify].
  { exists [], []. cbn. split_and!; [done|by rewrite app_nil_r|lia|set_solver|destruct ll; auto]. }
  rewrite sum_of_cons in Hb. assert (0 ≤ sum_of (λ u, Z.abs (m_value u)) groups) by (apply sum_of_nonneg; intros; lia).
  destruct (Z.eqb_spec (m_value g) t); [set_solver|]. rewrite (i64_small (t + MIN_CHANGE)) by (change MIN_CHANGE with 1000000; lia).
  destruct (Z.ltb_spec (m_value g) (t + MIN_CHANGE)).
  { rewrite i64_small by lia. specialize (IH ll (app ++ [g]) (tot + m_value g) Ht ltac:(lia)).
    destruct (classify _ _ _ _ _) as [|ll' app' tot']; [set_solver|]. destruct IH as (lo & hi & Hp & -> & -> & Hhi & Hll).
    exists (g :: lo), hi. rewrite <- app_assoc, sum_of_cons. split_and!; [by rewrite Hp|done|lia|done|done]. }
  assert (∀ ll2, (ll2 = ll ∨ ll2 = Some g) → (ll2 = None → False) →
    match classify t groups ll2 app tot with
    | exact_group g' => g' ∈ g :: groups ∧ m_value g' = t
    | classes ll' app' tot' => ∃ lo hi, g :: groups ≡ₚ lo ++ hi ∧ app' = app ++ lo ∧ tot' = tot + sum_of m_value lo ∧
        (∀ g, g ∈ hi → t + MIN_CHANGE ≤ m_value g) ∧ match ll' with None => ll = None ∧ hi = [] | Some g => g ∈ hi ∨ ll = Some g end
    end) as Hnext.
  { intros ll2 Hll2 Hn. specialize (IH ll2 app tot Ht ltac:(lia)). destruct (classify _ _ _ _ _) as [|ll' app' tot']; [set_solver|].
    destruct IH as (lo & hi & Hp & -> & -> & Hhi & Hll). exists lo, (g :: hi). split_and!; [by rewrite Hp, Permutation_middle|done|done|set_solver|].
    destruct ll' as [g'|]; [|by destruct Hll as [Hll _]; apply Hn in Hll]. destruct Hll as [?|?]; [set_solver|]. destruct Hll2; [set_solver|].
    left. assert (g' = g) as -> by congruence. apply list_elem_of_here. }
  destruct ll as [l|]; [|apply Hnext; [by right|done]]. destruct (m_value g <? m_value l); apply Hnext; [by right|done|by left|done].
Qed.

Section Knapsack.
Context (sort shuffle : list OutputGroup → list OutputGroup) (randbool : nat → nat → bool).
Context (Hsort : ∀ l, sort l ≡ₚ l) (Hshuffle : ∀ l, shuffle l ≡ₚ l).
Context (t : Z) (groups : list OutputGroup) (Ht : 0 < t ≤ 2 ^ 59) (Hsum : sum_of (λ u, Z.abs (m_value u)) groups ≤ 2 ^ 60).

(** The outcome: coins worth the target, with no change or at least the least
    change where that is possible; or a failure when there is too little. *)
Definition solved (r : selected_coins) : Prop :=
  (r = mk_selected false ∅ 0 ∧ sum_of m_value groups < t) ∨
  ∃ sub, sub ⊆+ groups ∧ r = handed_out sub ∧ t ≤ sum_of m_value sub ∧
    (sum_of m_value sub = t ∨ t + MIN_CHANGE ≤ sum_of m_value sub ∨ sum_of m_value groups < t + MIN_CHANGE).
Lemma solved_part sub : sub ⊆+ groups → t ≤ sum_of m_value sub →
  (sum_of m_value sub = t ∨ t + MIN_CHANGE ≤ sum_of m_value sub ∨ sum_of m_value groups < t + MIN_CHANGE) → solved (select_groups sub).
Proof. intros Hs H1 H2. right. exists sub. rewrite select_groups_handed by (pose proof (sum_abs_le _ _ Hs); lia). done. Qed.
Lemma solved_one g : g ∈ groups → m_value g = t ∨ t + MIN_CHANGE ≤ m_value g → solved (select_groups [g]).
Proof.
  intros Hg Hv. apply solved_part; [by apply singleton_submseteq_l| |]; rewrite sum_of_cons; change (sum_of m_value []) with 0; change MIN_CHANGE with 1000000 in *; lia.
Qed.
(** The end of the solver, after the approximations. *)
Lemma solved_best lo v n ll : lo ⊆+ groups → length v = length lo → n = chosen_value (sort lo) v → t ≤ n →
  (n = t ∨ t + MIN_CHANGE ≤ n ∨ sum_of m_value lo < t + MIN_CHANGE) →
  match ll with Some g => g ∈ groups ∧ t + MIN_CHANGE ≤ m_value g | None => sum_of m_value groups = sum_of m_value lo end →
  solved (match ll with
          | Some g => if (negb (n =? t) && (n <? i64 (t + MIN_CHANGE))) || (m_value g <=? n) then select_groups [g] else select_groups (included_groups (sort lo) v)
          | None => select_groups (included_groups (sort lo) v)
          end).
Proof.
  intros Hlo Hl Hn Hr Hch Hll. assert (included_groups (sort lo) v ⊆+ groups) as Hsub.
  { etransitivity; [apply sublist_submseteq, included_sublist|]. by rewrite (Hsort lo). }
  rewrite (i64_small (t + MIN_CHANGE)) by (change MIN_CHANGE with 1000000; lia). fold (chosen_value (sort lo) v) in *. unfold chosen_value in Hn.
  destruct ll as [g|].
  - destruct Hll as [Hg Hv]. destruct (_ || _) eqn:E; [apply solved_one; [done|by right]|]. apply orb_false_iff in E as [E1 E2].
    apply solved_part; [done|lia|]. rewrite <- Hn. destruct (Z.eqb_spec n t); [by left|]. right. left. cbn [negb andb] in E1. lia.
  - apply solved_part; [done|lia|]. rewrite <- Hn, Hll. lia.
Qed.
Lemma knapsack_solved : solved (KnapsackSolver sort shuffle randbool t groups).
Proof.
  unfold KnapsackSolver. pose proof (classify_spec t (shuffle groups) None [] 0 ltac:(lia)) as Hc.
  rewrite (sum_of_perm _ _ _ (Hshuffle groups)) in Hc. specialize (Hc ltac:(lia)).
  destruct (classify _ _ _ _ _) as [g|ll lo tot]. { destruct Hc as [Hg Hv]. rewrite (Hshuffle groups) in Hg. apply solved_one; auto. }
  destruct Hc as (lo' & hi & Hp & -> & -> & Hhi & Hll). cbn [app]. rewrite (Hshuffle groups) in Hp. rename lo' into lo. rewrite Z.add_0_l.
  assert (lo ⊆+ groups) as Hlo by (rewrite Hp; apply submseteq_inserts_r; done).
  assert (sum_of m_value groups = sum_of m_value lo + sum_of m_value hi) as Htot by (by rewrite (sum_of_perm _ _ _ Hp), sum_of_app).
  assert (match ll with Some g => g ∈ groups ∧ t + MIN_CHANGE ≤ m_value g | None => sum_of m_value groups = sum_of m_value lo end) as Hll'.
  { destruct ll as [g|]; [destruct Hll as [Hg|]; [|done]; split; [rewrite Hp; set_solver|by apply Hhi]|]. destruct Hll as [_ ->]. cbn in Htot. lia. }
  destruct (Z.eqb_spec (sum_of m_value lo) t) as [Heq|Hneq]; [by apply solved_part; [|lia|left]|].
  destruct (Z.ltb_spec (sum_of m_value lo) t).
  { destruct ll as [g|]; [destruct Hll'; apply solved_one; auto|]. left. split; [done|lia]. }
  assert (sum_of (λ u, Z.abs (m_value u)) (sort lo) ≤ 2 ^ 60) as Hb by (pose proof (sum_abs_le lo groups Hlo); rewrite (sum_of_perm _ _ _ (Hsort lo)); lia).
  pose proof (approximation (sort lo) (randbool 0) Hb t) as A1. pose proof (approximation (sort lo) (randbool 1) Hb (t + MIN_CHANGE)) as A2.
  rewrite (sum_of_perm m_value _ _ (Hsort lo)), (Permutation_length (Hsort lo)) in A1, A2.
  specialize (A1 ltac:(lia)). rewrite (i64_small (t + MIN_CHANGE)) by (change MIN_CHANGE with 1000000; lia).
  destruct (ApproximateBestSubset (randbool 0) _ _ _) as [v n]. cbn [fst snd] in A1. destruct A1 as (L1 & V1 & R1).
  destruct (_ && _) eqn:E.
  - apply andb_true_iff in E as [_ E]. specialize (A2 ltac:(lia)). destruct (ApproximateBestSubset (randbool 1) _ _ _) as [v2 n2]. cbn [fst snd] in A2.
    destruct A2 as (L2 & V2 & R2). pose proof (solved_best lo v2 n2 ll Hlo L2 V2) as Hs. rewrite (i64_small (t + MIN_CHANGE)) in Hs by (change MIN_CHANGE with 1000000; lia).
    apply Hs; [change MIN_CHANGE with 1000000 in *; lia|lia|done].
  - pose proof (solved_best lo v n ll Hlo L1 V1 R1) as Hs. rewrite (i64_small (t + MIN_CHANGE)) in Hs by (change MIN_CHANGE with 1000000; lia).
    apply Hs; [|done]. apply andb_false_iff in E as [E|E]; lia.
Qed.
End Knapsack.

(** ** Preparing groups for the search *)

Lemma sum_of_concat {A B} (f : B → Z) (g : A → list B) l : sum_of f (concat (g <$> l)) = sum_of (λ u, sum_of f (g u)) l.
Proof. induction l as [|u l IH]; [done|]. cbn [fmap list_fmap concat]. by rewrite sum_of_app, sum_of_cons, IH. Qed.
Lemma sum_of_filter {A} (f : A → Z) (p : A → bool) l : sum_of f l = sum_of f (List.filter p l) + sum_of f (List.filter (λ x, negb (p x)) l).
Proof. induction l as [|x l IH]; [done|]. cbn [List.filter]. destruct (p x); cbn [negb]; rewrite !sum_of_cons; lia. Qed.
Lemma filter_sublist {A} (p : A → bool) (l : list A) : List.filter p l `sublist_of` l.
Proof. induction l as [|x l IH]; [done|]. cbn [List.filter]. destruct (p x); [by apply sublist_skip|by apply sublist_cons]. Qed.
Lemma find_coin_here pre c post : ci_outpoint c ∉ (ci_outpoint <$> pre) → find_coin (pre ++ c :: post) (ci_outpoint c) = length pre.
Proof.
  induction pre as [|d pre IH]; intros Hn; cbn; [by rewrite bool_decide_true|]. rewrite bool_decide_false by set_solver. f_equal. apply IH. set_solver.
Qed.

Section Prepare.
Context (rate long_term : CFeeRate).
(** What a coin is worth when the fee to spend it is paid. *)
Definition worth (c : CInputCoin) : Z := nValue (ci_txout c) - input_fee rate c.
Definition keeps (c : CInputCoin) : bool := worth c >? 0.
Definition coin_ok (c : CInputCoin) : Prop :=
  ci_effective_value c = nValue (ci_txout c) ∧ 0 ≤ nValue (ci_txout c) ∧ 0 ≤ input_fee rate c ∧ 0 ≤ input_fee long_term c.
Local Notation total l := (sum_of (λ c, nValue (ci_txout c)) l).

Lemma totals_nonneg l : Forall coin_ok l → 0 ≤ total l ∧ 0 ≤ sum_of (input_fee rate) l ∧ 0 ≤ sum_of (input_fee long_term) l.
Proof. rewrite Forall_forall. intros Hl. split_and!; apply sum_of_nonneg; intros c (_ & ? & ? & ?)%Hl; lia. Qed.
Lemma prepare_loop_spec todo : ∀ fuel pre g, m_outputs g = pre ++ todo → NoDup (ci_outpoint <$> (pre ++ todo)) → (length todo < fuel)%nat → Forall coin_ok todo →
  Z.abs (eff g) + total todo ≤ 2 ^ 60 → Z.abs (m_value g) + total todo ≤ 2 ^ 60 →
  Z.abs (fee g) + sum_of (input_fee rate) todo ≤ 2 ^ 60 → Z.abs (long_term_fee g) + sum_of (input_fee long_term) todo ≤ 2 ^ 60 →
  let kept := List.filter keeps todo in let lost := List.filter (λ c, negb (keeps c)) todo in
  prepare_loop rate long_term fuel (length pre) g =
    mk_group (pre ++ kept) (m_from_me g) (m_value g - total lost) (m_depth g) (m_ancestors g) (m_descendants g)
      (eff g + sum_of worth kept - total lost) (fee g + sum_of (input_fee rate) kept) (long_term_fee g + sum_of (input_fee long_term) kept).
Proof.
  induction todo as [|c todo IH]; intros fuel pre g Hg Hnd Hfuel Hok B1 B2 B3 B4; (destruct fuel as [|fuel]; [cbn in Hfuel; lia|]); cbn [prepare_loop].
  { rewrite Hg, lookup_ge_None_2 by (rewrite app_nil_r; done). destruct g. cbn in *. rewrite Hg. f_equal; lia. }
  rewrite Hg, list_lookup_middle by done. apply Forall_cons in Hok as [(Hce & Hcv & Hcf & Hcl) Hok]. destruct (totals_nonneg todo Hok) as (N1 & N2 & N3).
  rewrite !sum_of_cons in *. cbn [length] in Hfuel. rewrite (i64_small (nValue _ - _)) by lia. fold (worth c). cbn [List.filter]. change (worth c >? 0) with (keeps c).
  assert (ci_outpoint c ∉ (ci_outpoint <$> pre)) as Hnew.
  { rewrite fmap_app, fmap_cons in Hnd. apply NoDup_app in Hnd as (_ & Hnd & _). intros Hin. apply (Hnd _ Hin). apply list_elem_of_here. }
  destruct (keeps c) eqn:Hw; unfold keeps in Hw; cbn [negb].
  - assert (0 < worth c ≤ nValue (ci_txout c)) by (unfold worth in *; lia). rewrite !i64_small by lia. replace (S (length pre)) with (length (pre ++ [c])) by (rewrite length_app; cbn; lia).
    rewrite IH; cbn [m_outputs m_from_me m_value m_depth m_ancestors m_descendants effective_value fee long_term_fee]; rewrite <- ?app_assoc; try done; try lia.
    rewrite !sum_of_cons. f_equal; first [lia | by rewrite <- ?app_assoc].
  - unfold Discard. rewrite Hg, find_coin_here by done. rewrite (proj2 (Nat.eqb_neq _ _)) by (rewrite length_app; cbn; lia).
    rewrite delete_middle, Hce, !i64_small by lia.
    rewrite IH; cbn [m_outputs m_from_me m_value m_depth m_ancestors m_descendants effective_value fee long_term_fee]; try done; try lia.
    + rewrite !sum_of_cons. f_equal; lia.
    + rewrite fmap_app, fmap_cons in Hnd. rewrite fmap_app. eapply sublist_NoDup; [exact Hnd|]. apply sublist_app; [done|by apply sublist_cons].
Qed.

(** A group as the wallet makes them. *)
Definition group_ok (g : OutputGroup) : Prop :=
  NoDup (ci_outpoint <$> m_outputs g) ∧ Forall coin_ok (m_outputs g) ∧ m_value g = total (m_outputs g) ∧
  total (m_outputs g) ≤ 2 ^ 58 ∧ sum_of (input_fee rate) (m_outputs g) ≤ 2 ^ 58 ∧ sum_of (input_fee long_term) (m_outputs g) ≤ 2 ^ 58.
Lemma prepare_group_spec g : group_ok g →
  let kept := List.filter keeps (m_outputs g) in let lost := List.filter (λ c, negb (keeps c)) (m_outputs g) in
  prepare_group rate long_term g =
    mk_group kept (m_from_me g) (total kept) (m_depth g) (m_ancestors g) (m_descendants g)
      (sum_of worth kept - total lost) (sum_of (input_fee rate) kept) (sum_of (input_fee long_term) kept).
Proof.
  intros (Hnd & Hok & Hv & B1 & B2 & B3) kept lost. destruct (totals_nonneg _ Hok) as (N1 & N2 & N3). unfold prepare_group.
  change 0%nat with (length (@nil CInputCoin)). rewrite (prepare_loop_spec (m_outputs g) _ []);
    cbn [m_outputs m_from_me m_value m_depth m_ancestors m_descendants effective_value fee long_term_fee app]; [|done|done|lia|done|lia..].
  rewrite Hv. f_equal; try lia. rewrite (sum_of_filter _ keeps). fold kept lost. lia.
Qed.
End Prepare.

(** ** The coins that are handed out *)

Definition outputs_of (l : list OutputGroup) : list CInputCoin := concat (m_outputs <$> l).
Definition coins_in (s : coin_set) : list CInputCoin := (map_to_list s).*2.
Lemma insert_coins_list l : ∀ s, NoDup (ci_outpoint <$> l) → (∀ c, c ∈ l → s !! ci_outpoint c = None) → coins_in (insert_coins s l) ≡ₚ coins_in s ++ l.
Proof.
  induction l as [|c l IH]; intros s Hnd Hnew; cbn [insert_coins foldl]; [by rewrite app_nil_r|]. rewrite fmap_cons in Hnd. apply NoDup_cons in Hnd as [Hc Hnd].
  unfold set_insert at 2. rewrite (Hnew c) by apply list_elem_of_here. fold (insert_coins (<[ci_outpoint c := c]> s) l). rewrite IH; [|done|].
  - pose proof (map_to_list_insert (M := gmap COutPoint) s (ci_outpoint c) c (Hnew c (list_elem_of_here _ _))) as E.
    apply (fmap_Permutation snd) in E. unfold coins_in. rewrite fmap_cons in E. etransitivity; [apply Permutation_app_tail; exact E|]. cbn. by rewrite Permutation_middle.
  - intros d Hd. rewrite lookup_insert_ne; [apply Hnew; by apply list_elem_of_further|]. intros E. apply Hc. rewrite E. by apply list_elem_of_fmap_2.
Qed.
Lemma NoDup_part {A} (l k : list A) : l ⊆+ k → NoDup k → NoDup l.
Proof. intros (j & Hj & Hs)%submseteq_sublist_r Hk. rewrite Hj. by eapply sublist_NoDup. Qed.
Lemma concat_bind {A B} (f : A → list B) l : concat (f <$> l) = l ≫= f.
Proof. induction l as [|x l IH]; [done|]. cbn. by rewrite IH. Qed.
Lemma outputs_of_part l k : l ⊆+ k → outputs_of l ⊆+ outputs_of k.
Proof. intros H. unfold outputs_of. rewrite !concat_bind. by rewrite H. Qed.
Lemma handed_out_coins sub groups : sub ⊆+ groups → NoDup (ci_outpoint <$> outputs_of groups) → coins_in (sel_set (handed_out sub)) ≡ₚ outputs_of sub.
Proof.
  intros Hs Hnd. cbn [sel_set handed_out]. fold (outputs_of sub). rewrite insert_coins_list; [done| |intros; apply lookup_empty].
  eapply NoDup_part; [|exact Hnd]. by apply fmap_submseteq, outputs_of_part.
Qed.

Section MinConf.
Context (rate long_term : CFeeRate) (f : CoinEligibilityFilter).
Local Notation total l := (sum_of (λ c, nValue (ci_txout c)) l).
(** Groups of different coins whose values and fees do not overflow. *)
Definition groups_ok (groups : list OutputGroup) : Prop :=
  NoDup (ci_outpoint <$> outputs_of groups) ∧ Forall (coin_ok rate long_term) (outputs_of groups) ∧ Forall (λ g, m_value g = total (m_outputs g)) groups ∧
  total (outputs_of groups) ≤ 2 ^ 58 ∧ sum_of (input_fee rate) (outputs_of groups) ≤ 2 ^ 58 ∧ sum_of (input_fee long_term) (outputs_of groups) ≤ 2 ^ 58.
Lemma groups_ok_part k l : k `sublist_of` l → groups_ok l → groups_ok k.
Proof.
  intros Hkl (H1 & H2 & H3 & H4 & H5 & H6). assert (outputs_of k ⊆+ outputs_of l) as Hs by (by apply outputs_of_part, sublist_submseteq).
  assert (∀ h : CInputCoin → Z, (∀ c, coin_ok rate long_term c → 0 ≤ h c) → sum_of h (outputs_of k) ≤ sum_of h (outputs_of l)) as Hsum.
  { intros h Hh. apply submseteq_sublist_r in Hs as (j & Hj & Hsj). rewrite (sum_of_perm _ _ _ Hj). apply sum_of_sublist; [done|]. rewrite Forall_forall in H2. auto. }
  split_and!.
  - eapply NoDup_part; [|exact H1]. by apply fmap_submseteq.
  - apply Forall_forall. intros c Hc. rewrite Forall_forall in H2. apply H2. by eapply elem_of_submseteq.
  - apply Forall_forall. intros g Hg. rewrite Forall_forall in H3. apply H3. by eapply elem_of_sublist.
  - etransitivity; [apply Hsum|done]. unfold coin_ok. tauto.
  - etransitivity; [apply Hsum|done]. unfold coin_ok. tauto.
  - etransitivity; [apply Hsum|done]. unfold coin_ok. tauto.
Qed.
Lemma groups_ok_one groups g : groups_ok groups → g ∈ groups → group_ok rate long_term g.
Proof.
  intros Hok Hg. apply (groups_ok_part [g]) in Hok as (H1 & H2 & H3 & H4 & H5 & H6); [|by apply singleton_sublist_l].
  unfold outputs_of in *. cbn [fmap list_fmap concat] in *. rewrite app_nil_r in *. apply Forall_cons in H3 as [H3 _]. done.
Qed.

(** The groups prepared for the search hold parts of the eligible groups. *)
Lemma bnb_pool_outputs groups : groups_ok groups → outputs_of (bnb_pool rate long_term f groups) `sublist_of` outputs_of (List.filter (EligibleForSpending f) groups).
Proof.
  intros Hok. assert (∀ g, g ∈ groups → group_ok rate long_term g) as Hg by (intros g; by apply groups_ok_one). clear Hok.
  unfold bnb_pool. induction groups as [|g groups IH]; [done|]. cbn [List.filter]. specialize (IH ltac:(set_solver)).
  destruct (EligibleForSpending f g); [|done]. cbn [fmap list_fmap List.filter].
  pose proof (prepare_group_spec rate long_term g (Hg g (list_elem_of_here _ _))) as E. destruct (_ >? 0); unfold outputs_of in *; cbn [fmap list_fmap concat].
  - apply sublist_app; [|done]. rewrite E. cbn [m_outputs]. apply filter_sublist.
  - by apply sublist_inserts_l.
Qed.
Lemma bnb_pool_member groups u : groups_ok groups → u ∈ bnb_pool rate long_term f groups →
  0 < eff u ≤ sum_of (worth rate) (m_outputs u) ∧ m_value u = total (m_outputs u) ∧
  fee u = sum_of (input_fee rate) (m_outputs u) ∧ long_term_fee u = sum_of (input_fee long_term) (m_outputs u).
Proof.
  intros Hok [Hu Hv]%list_elem_of_In%filter_In. apply list_elem_of_In, list_elem_of_fmap in Hu as (g & -> & [Hg _]%list_elem_of_In%filter_In).
  apply list_elem_of_In in Hg. pose proof (groups_ok_one _ _ Hok Hg) as Hgo. rewrite prepare_group_spec in * by done. cbn [effective_value m_outputs m_value fee long_term_fee] in *.
  destruct Hgo as (_ & Hc & _). assert (0 ≤ total (List.filter (λ c, negb (keeps rate c)) (m_outputs g))).
  { apply sum_of_nonneg. intros c [Hin _]%list_elem_of_In%filter_In. rewrite Forall_forall in Hc. apply list_elem_of_In, Hc in Hin. unfold coin_ok in Hin. lia. }
  split_and!; [lia|lia|done..].
Qed.
Lemma bnb_pool_ok groups : groups_ok groups → pool_ok (bnb_pool rate long_term f groups).
Proof.
  intros Hok. pose proof (λ u, bnb_pool_member groups u Hok) as Hm. pose proof (bnb_pool_outputs groups Hok) as Hs.
  assert (outputs_of (bnb_pool rate long_term f groups) ⊆+ outputs_of groups) as Hsub.
  { etransitivity; [by apply sublist_submseteq|]. apply outputs_of_part, sublist_submseteq, filter_sublist. }
  destruct Hok as (_ & Hc & _ & B1 & B2 & B3). rewrite Forall_forall in Hc.
  assert (∀ h : CInputCoin → Z, (∀ c, coin_ok rate long_term c → 0 ≤ h c) →
    sum_of (λ u, sum_of h (m_outputs u)) (bnb_pool rate long_term f groups) ≤ sum_of h (outputs_of groups)) as Hsum.
  { intros h Hh. rewrite <- sum_of_concat. apply submseteq_sublist_r in Hsub as (j & Hj & Hsj). unfold outputs_of in Hj at 1.
    rewrite (sum_of_perm _ _ _ Hj). apply sum_of_sublist; auto. }
  assert (∀ u c, u ∈ bnb_pool rate long_term f groups → c ∈ m_outputs u → coin_ok rate long_term c) as Hcoin.
  { intros u c Hu Hcu. apply Hc. eapply elem_of_submseteq; [|exact Hsub]. apply list_elem_of_In, in_concat. exists (m_outputs u).
    split; [|by apply list_elem_of_In]. apply list_elem_of_In. by apply list_elem_of_fmap_2. }
  pose proof (Hsum (λ c, nValue (ci_txout c)) ltac:(unfold coin_ok; tauto)) as S1. pose proof (Hsum (input_fee rate) ltac:(unfold coin_ok; tauto)) as S2.
  pose proof (Hsum (input_fee long_term) ltac:(unfold coin_ok; tauto)) as S3.
  assert (∀ u, u ∈ bnb_pool rate long_term f groups → sum_of (worth rate) (m_outputs u) ≤ total (m_outputs u) ∧
    0 ≤ total (m_outputs u) ∧ 0 ≤ sum_of (input_fee rate) (m_outputs u) ∧ 0 ≤ sum_of (input_fee long_term) (m_outputs u)) as Hparts.
  { intros u Hu. split; [apply sum_of_le; intros c Hcu; unfold worth; specialize (Hcoin u c Hu Hcu); unfold coin_ok in Hcoin; lia|].
    apply totals_nonneg, Forall_forall. intros c. by apply Hcoin. }
  split_and!.
  - intros u Hu. apply Hm in Hu. lia.
  - transitivity (sum_of (λ u, total (m_outputs u)) (bnb_pool rate long_term f groups)); [|lia]. apply sum_of_le. intros u Hu. specialize (Hm u Hu). specialize (Hparts u Hu). lia.
  - transitivity (sum_of (λ u, sum_of (input_fee rate) (m_outputs u)) (bnb_pool rate long_term f groups) + sum_of (λ u, sum_of (input_fee long_term) (m_outputs u)) (bnb_pool rate long_term f groups)); [|lia].
    clear - Hm Hparts. induction (bnb_pool rate long_term f groups) as [|u l IH]; [done|]. rewrite !sum_of_cons. specialize (IH ltac:(set_solver) ltac:(set_solver)).
    specialize (Hm u (list_elem_of_here _ _)). specialize (Hparts u (list_elem_of_here _ _)). unfold extra in *. cbn beta in *. lia.
  - transitivity (sum_of (λ u, total (m_outputs u)) (bnb_pool rate long_term f groups)); [|lia]. apply sum_of_le. intros u Hu. specialize (Hm u Hu). specialize (Hparts u Hu). lia.
Qed.
End MinConf.

(** ** Main statements *)

(** C38: The branch-and-bound search decides its problem when there are at most
    fifteen groups (whose trees the limit of tries covers): it reports failure
    exactly when no part of the groups is worth the target and the fixed fees, and
    no more than the cost of a change output above; otherwise it hands out the coins
    of such a part, and with fee rates that are not below the long-term rate none
    has a smaller waste.  Amounts do not overflow, the sign of the difference of
    the fees is the same for all groups, and equal fees come with equal long-term
    fees, as they do when both are computed from sizes.  Any order that the sort
    leaves equal groups in will do. *)
Theorem bnb_finds_best sort pool target cost value_ret fees :
  (∀ l, sort l ≡ₚ l) → pool_ok pool → - 2 ^ 59 ≤ target ≤ 2 ^ 59 → - 2 ^ 59 ≤ fees ≤ 2 ^ 59 → 0 ≤ cost ≤ 2 ^ 60 → 0 < fees + target →
  (length pool ≤ 15)%nat → sum_of (λ u, Z.abs (extra u)) pool + cost < MAX_MONEY →
  (∀ u v, u ∈ pool → v ∈ pool → 0 < extra u → 0 ≤ extra v) → (∀ u v, u ∈ pool → v ∈ pool → fee u = fee v → extra u = extra v) →
  let within sub := sub ⊆+ pool ∧ fees + target ≤ sum_of effective_value sub ≤ fees + target + cost in
  (SelectCoinsBnB sort pool target cost value_ret fees = Ok (mk_selected false ∅ value_ret) ∧ ∀ sub, ¬ within sub) ∨
  ∃ sub, within sub ∧ SelectCoinsBnB sort pool target cost value_ret fees = Ok (handed_out sub) ∧
    ((∀ u, u ∈ pool → 0 ≤ extra u) → ∀ sub', within sub' →
      sum_of extra sub + sum_of effective_value sub ≤ sum_of extra sub' + sum_of effective_value sub').
Proof.
  intros Hsort Hpool Ht Hf Hc Hpay Hlen Hmax Hsign Hsame within.
  destruct (Z_lt_le_dec (sum_of eff pool) (fees + target)) as [Hlt|Hle].
  { left. split; [by apply bnb_too_little|]. intros sub [Hsub Hr]. assert (sum_of eff sub ≤ sum_of eff pool); [|lia].
    apply submseteq_sublist_r in Hsub as (k & Hk & Hs). rewrite (sum_of_perm _ _ _ Hk). apply sum_of_sublist; [done|].
    intros u Hu. pose proof (proj1 Hpool u Hu). lia. }
  destruct (bnb_started sort Hsort pool target cost value_ret fees Hpool Ht Hf Hc Hpay Hle) as (s & b & E & Hb & ->).
  destruct (bnb_exhausts sort Hsort pool target cost fees Hpool Ht Hf Hc Hpay Hlen Hle) as (s' & E'). rewrite E in E'. apply (f_equal (λ r, match r with Ok s => best_waste s | Err _ => 0 end)) in E' as E2. cbn [best_waste node] in E2.
  destruct (pool_ok_perm _ _ (symmetry (Hsort pool)) Hpool) as (P1 & P2 & P3 & _).
  assert (sort pool ≠ []) as Hne.
  { intros En. pose proof (Hsort pool) as Hp. rewrite En in Hp. apply Permutation_nil_l in Hp. rewrite <- Hp in Hle. cbn in Hle. lia. }
  assert (∀ c, candidate (sort pool) (fees + target) cost c → b.2 ≤ total_waste (sort pool) (fees + target) c) as Hbest.
  { intros c Hcand. assert (∀ u, u ∈ sort pool → u ∈ pool) as Hin by (intros u; by rewrite (Hsort pool)). rewrite E2.
    apply (explore_best (sort pool) (fees + target) cost Hne P1 (λ u v Hu Hv, Hsign u v (Hin u Hu) (Hin v Hv)) (λ u v Hu Hv, Hsame u v (Hin u Hu) (Hin v Hv)) (sort pool) [] ([], MAX_MONEY) c); [done|cbn; lia| |done].
    by intros ? ? [=]. }
  assert (∀ sub, within sub → b.1 ≠ []) as Hfound.
  { intros sub [Hsub Hr] Hnil. destruct (bnb_candidates sort Hsort pool target cost fees Hpool Hlen sub Hsub Hr) as (c & Hcand & Hw & _).
    specialize (Hbest c Hcand). destruct Hb as [->|(Hl & _)]; [cbn in Hbest; lia|]. rewrite Hnil in Hl. by destruct (sort pool). }
  destruct (decide (b.1 = [])) as [Hnil|Hnn]; [left; split; [done|]; intros sub Hw; by apply (Hfound sub)|right].
  destruct Hb as [->|(Hl & Hr & Hw)]; [done|]. exists (included_groups (sort pool) b.1). split_and!.
  - split; [|apply Hr]. etransitivity; [apply sublist_submseteq, included_sublist|by rewrite (Hsort pool)].
  - done.
  - intros Hx sub' [Hsub' Hr']. destruct (bnb_candidates sort Hsort pool target cost fees Hpool Hlen sub' Hsub' Hr') as (c & Hcand & _ & Hw').
    specialize (Hbest c Hcand). specialize (Hw' Hx). unfold total_waste, value, waste in *. lia.
Qed.

(** The fallback solver succeeds exactly when the groups together are worth the
    target, whatever the shuffle, the sort and the random bits are: it then hands out
    the coins of a part of the groups that is worth at least the target, with no
    change or with at least [MIN_CHANGE] unless all groups together are too little
    for that. *)
Theorem knapsack_solves sort shuffle randbool target groups :
  (∀ l, sort l ≡ₚ l) → (∀ l, shuffle l ≡ₚ l) → 0 < target ≤ 2 ^ 59 → sum_of (λ g, Z.abs (m_value g)) groups ≤ 2 ^ 60 →
  let r := KnapsackSolver sort shuffle randbool target groups in
  (r = mk_selected false ∅ 0 ∧ sum_of m_value groups < target) ∨
  ∃ sub, sub ⊆+ groups ∧ r = handed_out sub ∧ target ≤ sum_of m_value sub ∧
    (sum_of m_value sub = target ∨ target + MIN_CHANGE ≤ sum_of m_value sub ∨ sum_of m_value groups < target + MIN_CHANGE).
Proof. intros Hsort Hshuffle Ht Hb. exact (knapsack_solved sort shuffle randbool Hsort Hshuffle target groups Ht Hb). Qed.

(** C39: The coins that [SelectCoinsMinConf] hands out pay for the transaction.  It
    never fails an assertion; when it reports success the coins are different coins
    of eligible groups, the value returned is theirs, and it is at least the target;
    with the branch-and-bound search they are worth the target and the fees of the
    rest of the transaction even after the fee for each of them is paid. *)
Theorem selected_coins_pay sort shuffle randbool long_term discard target f groups params :
  (∀ l, sort l ≡ₚ l) → (∀ l, shuffle l ≡ₚ l) → groups_ok (effective_fee params) long_term groups → 0 < target ≤ 2 ^ 58 →
  0 ≤ GetFee (effective_fee params) (tx_noinputs_size params) ≤ 2 ^ 58 →
  0 ≤ GetFee discard (change_spend_size params) ≤ 2 ^ 58 → 0 ≤ GetFee (effective_fee params) (change_output_size params) ≤ 2 ^ 58 →
  ∃ r, SelectCoinsMinConf sort shuffle randbool long_term discard target f groups params = Ok (r, use_bnb params) ∧
    (sel_ok r = true →
      coins_in (sel_set r) ⊆+ outputs_of (List.filter (EligibleForSpending f) groups) ∧
      sel_value r = sum_of (λ c, nValue (ci_txout c)) (coins_in (sel_set r)) ∧
      (if use_bnb params then target + GetFee (effective_fee params) (tx_noinputs_size params) ≤ sum_of (worth (effective_fee params)) (coins_in (sel_set r))
       else target ≤ sel_value r)).
Proof.
  intros Hsort Hshuffle Hok Ht Hfee Hd Hc. unfold SelectCoinsMinConf. set (rate := effective_fee params) in *.
  assert (List.filter (EligibleForSpending f) groups `sublist_of` groups) as Helig by apply filter_sublist.
  destruct (use_bnb params).
  - pose proof (bnb_pool_ok rate long_term f groups Hok) as Hpool. pose proof (bnb_pool_outputs rate long_term f groups Hok) as Hout.
    rewrite (i64_small (GetFee discard _ + _)) by lia.
    destruct (bnb_selects sort Hsort _ target (GetFee discard (change_spend_size params) + GetFee rate (change_output_size params)) 0
      (GetFee rate (tx_noinputs_size params)) Hpool) as [->|(sub & Hsub & Hr & ->)]; [lia..| |]; cbn [rbind]; eexists; (split; [done|]); [done|].
    intros _. assert (NoDup (ci_outpoint <$> outputs_of (bnb_pool rate long_term f groups))) as Hnd.
    { eapply NoDup_part; [|apply Hok]. apply fmap_submseteq. etransitivity; [by apply sublist_submseteq|]. by apply outputs_of_part, sublist_submseteq. }
    pose proof (handed_out_coins sub _ Hsub Hnd) as Hcoins. rewrite !(sum_of_perm _ _ _ Hcoins). split_and!.
    + rewrite Hcoins. etransitivity; [by apply outputs_of_part|]. by apply sublist_submseteq.
    + cbn [sel_value handed_out]. unfold outputs_of. rewrite sum_of_concat. apply sum_of_ext. intros u Hu.
      by apply (bnb_pool_member rate long_term f groups); [|eapply elem_of_submseteq].
    + unfold outputs_of. rewrite sum_of_concat. transitivity (sum_of eff sub); [lia|]. apply sum_of_le. intros u Hu.
      apply (bnb_pool_member rate long_term f groups); [done|]. by eapply elem_of_submseteq.
  - apply (groups_ok_part _ _ _ _ Helig) in Hok as (Hnd & Hcoin & Hval & Htot & _). rewrite Forall_forall in Hcoin. rewrite Forall_forall in Hval.
    set (gs := List.filter (EligibleForSpending f) groups) in *.
    assert (∀ g, g ∈ gs → 0 ≤ m_value g) as Hnonneg.
    { intros g Hg. rewrite (Hval g Hg). apply sum_of_nonneg. intros c Hcg. enough (coin_ok rate long_term c) as (_ & ? & _) by done.
      apply Hcoin. apply list_elem_of_In, in_concat. exists (m_outputs g). split; [|by apply list_elem_of_In]. apply list_elem_of_In. by apply list_elem_of_fmap_2. }
    assert (sum_of (λ g, Z.abs (m_value g)) gs ≤ 2 ^ 60) as Hb.
    { rewrite (sum_of_ext _ (λ g, sum_of (λ c, nValue (ci_txout c)) (m_outputs g))) by (intros g Hg; rewrite <- (Hval g Hg); specialize (Hnonneg g Hg); lia).
      rewrite <- sum_of_concat. fold (outputs_of gs). lia. }
    eexists. split; [done|]. destruct (knapsack_solved sort shuffle randbool Hsort Hshuffle target gs ltac:(lia) Hb) as [[-> _]|(sub & Hsub & -> & Hr & _)]; [done|].
    intros _. pose proof (handed_out_coins sub _ Hsub Hnd) as Hcoins. rewrite !(sum_of_perm _ _ _ Hcoins). split_and!.
    + rewrite Hcoins. by apply outputs_of_part.
    + cbn [sel_value handed_out]. unfold outputs_of. rewrite sum_of_concat. apply sum_of_ext. intros u Hu. apply Hval. by eapply elem_of_submseteq.
    + done.
Qed.

(** C40: The effective value of a prepared group is not that of its coins: [Discard]
    also takes the value of each coin that is not worth its fee from the sum of the
    others, which it was never added to.  So a group with dust counts for less than
    it is worth, and the search may miss it or exceed its range. *)
Theorem discarded_value_subtracted rate long_term g : group_ok rate long_term g →
  let kept := List.filter (keeps rate) (m_outputs g) in let lost := List.filter (λ c, negb (keeps rate c)) (m_outputs g) in
  m_outputs (prepare_group rate long_term g) = kept ∧
  effective_value (prepare_group rate long_term g) = sum_of (worth rate) kept - sum_of (λ c, nValue (ci_txout c)) lost.
Proof. intros Hg. by rewrite prepare_group_spec. Qed.

(** *** Sample coins *)

Definition not_below (a b : OutputGroup) : Prop := effective_value b ≤ effective_value a.
#[local] Instance not_below_dec : RelDecision not_below := λ a b, Z.le_dec (effective_value b) (effective_value a).
Definition sort_by_value (l : list OutputGroup) : list OutputGroup := merge_sort not_below l.
Lemma sort_by_value_perm l : sort_by_value l ≡ₚ l.
Proof. apply merge_sort_Permutation. Qed.
Definition sample_coin (i value : Z) : CInputCoin := mk_input_coin (mk_outpoint (replicate 32 i) 0) (mk_txout value []) value 148.
Definition sample_group (i value : Z) : OutputGroup := Insert new_OutputGroup (sample_coin i value) 10 true 0 0.
Definition sample_groups : list OutputGroup := [sample_group 1 50000; Insert (sample_group 2 30000) (sample_coin 3 100) 10 true 0 0; sample_group 4 20000].
Definition sample_filter : CoinEligibilityFilter := mk_eligibility 1 6 0 0.
Definition sample_params (bnb : bool) : CoinSelectionParams := mk_selection_params bnb 34 148 1000 10.
Definition sample_pool : list OutputGroup := bnb_pool 1000 500 sample_filter sample_groups.

Ltac each_member :=
  repeat match goal with
  | H : _ ∈ [] |- _ => by apply not_elem_of_nil in H
  | H : _ ∈ _ :: _ |- _ => apply elem_of_cons in H as [->|H]
  end.
Lemma sample_groups_ok : groups_ok 1000 500 sample_groups.
Proof.
  assert (outputs_of sample_groups = [sample_coin 1 50000; sample_coin 2 30000; sample_coin 3 100; sample_coin 4 20000]) as E by reflexivity.
  unfold groups_ok. rewrite E. split_and!.
  - apply (bool_decide_unpack _). vm_compute. exact I.
  - repeat (apply Forall_cons; split; [unfold coin_ok; split_and!; vm_compute; first [reflexivity|discriminate]|]). constructor.
  - repeat (apply Forall_cons; split; [vm_compute; reflexivity|]). constructor.
  - vm_compute. discriminate.
  - vm_compute. discriminate.
  - vm_compute. discriminate.
Qed.
Lemma sample_pool_eq : sample_pool = [
  mk_group [sample_coin 1 50000] true 50000 10 0 0 49852 148 74;
  mk_group [sample_coin 2 30000] true 30000 10 0 0 29752 148 74;
  mk_group [sample_coin 4 20000] true 20000 10 0 0 19852 148 74].
Proof. vm_compute. reflexivity. Qed.

Lemma bnb_finds_best_witness :
  let within sub := sub ⊆+ sample_pool ∧ 10 + 69600 ≤ sum_of effective_value sub ≤ 10 + 69600 + 182 in
  (SelectCoinsBnB sort_by_value sample_pool 69600 182 0 10 = Ok (mk_selected false ∅ 0) ∧ ∀ sub, ¬ within sub) ∨
  ∃ sub, within sub ∧ SelectCoinsBnB sort_by_value sample_pool 69600 182 0 10 = Ok (handed_out sub) ∧
    ((∀ u, u ∈ sample_pool → 0 ≤ extra u) → ∀ sub', within sub' →
      sum_of extra sub + sum_of effective_value sub ≤ sum_of extra sub' + sum_of effective_value sub').
Proof.
  apply (bnb_finds_best sort_by_value sample_pool 69600 182 0 10); try lia.
  - apply sort_by_value_perm.
  - exact (bnb_pool_ok 1000 500 sample_filter sample_groups sample_groups_ok).
  - rewrite sample_pool_eq. cbn. lia.
  - rewrite sample_pool_eq. vm_compute. reflexivity.
  - rewrite sample_pool_eq. intros u v Hu Hv _. each_member; vm_compute; discriminate.
  - rewrite sample_pool_eq. intros u v Hu Hv _. each_member; reflexivity.
Defined.
(** The search finds the first and the third group there. *)
Lemma sample_selection : (λ r, (sel_ok r, sel_value r)) <$> match SelectCoinsBnB sort_by_value sample_pool 69600 182 0 10 with Ok r => Some r | Err _ => None end = Some (true, 70000).
Proof. vm_compute. reflexivity. Qed.
Lemma knapsack_solves_witness :
  let r := KnapsackSolver sort_by_value (λ l, l) (λ _ i, Nat.even i) 60000 sample_groups in
  (r = mk_selected false ∅ 0 ∧ sum_of m_value sample_groups < 60000) ∨
  ∃ sub, sub ⊆+ sample_groups ∧ r = handed_out sub ∧ 60000 ≤ sum_of m_value sub ∧
    (sum_of m_value sub = 60000 ∨ 60000 + MIN_CHANGE ≤ sum_of m_value sub ∨ sum_of m_value sample_groups < 60000 + MIN_CHANGE).
Proof.
  apply (knapsack_solves sort_by_value (λ l, l) (λ _ i, Nat.even i) 60000 sample_groups); [apply sort_by_value_perm|done|lia|vm_compute; discriminate].
Defined.
Lemma selected_coins_pay_witness :
  ∃ r, SelectCoinsMinConf sort_by_value (λ l, l) (λ _ i, Nat.even i) 500 1000 69600 sample_filter sample_groups (sample_params true) = Ok (r, true) ∧
    (sel_ok r = true →
      coins_in (sel_set r) ⊆+ outputs_of (List.filter (EligibleForSpending sample_filter) sample_groups) ∧
      sel_value r = sum_of (λ c, nValue (ci_txout c)) (coins_in (sel_set r)) ∧
      69600 + GetFee 1000 10 ≤ sum_of (worth 1000) (coins_in (sel_set r))).
Proof.
  apply (selected_coins_pay sort_by_value (λ l, l) (λ _ i, Nat.even i) 500 1000 69600 sample_filter sample_groups (sample_params true));
    [apply sort_by_value_perm|done|apply sample_groups_ok|lia|vm_compute; split; discriminate..].
Defined.
Lemma discarded_value_subtracted_witness :
  let g := Insert (sample_group 2 30000) (sample_coin 3 100) 10 true 0 0 in
  m_outputs (prepare_group 1000 500 g) = [sample_coin 2 30000] ∧ effective_value (prepare_group 1000 500 g) = 29852 - 100.
Proof.
  apply (discarded_value_subtracted 1000 500 (Insert (sample_group 2 30000) (sample_coin 3 100) 10 true 0 0)).
  apply (groups_ok_one 1000 500 sample_groups); [apply sample_groups_ok|apply list_elem_of_further, list_elem_of_here].
Defined.
