(* ===== verification/Mempool.v ===== *)
(** * The memory pool (txmempool.h/.cpp)

    The transactions that wait for a block, with the links between them and, for each
    entry, the number, size and fees of its ancestors and descendants in the pool.
    An iterator into [mapTx] is the hash of its transaction; a pointer in [mapNextTx]
    is the hash of the transaction it points to.  A set is walked in some order,
    which the results do not depend on.  The fee estimator, notifications, the
    rolling minimum fee (a floating-point number), the lock points of an entry and the
    address indices are left out. *)
From S2P Require Import Prelude ArithUint256 Script Interpreter Serialize Transaction TxVerify.
Local Open Scope cxx_scope.

Abbreviation setEntries := (gset uint256).
(** A failed assertion or an iterator to nothing; [out_of_fuel] ends the model of a
    loop that goes on too long. *)
Inductive mempool_error := assertion_failed | no_such_entry | out_of_fuel.

Fixpoint fold_result {E A S} (f : S → A → result E S) (s : S) (l : list A) : result E S :=
  match l with
  | [] => Ok s
  | x :: l => let* s := f s x in fold_result f s l
  end.

(** ** Entries *)

Record CTxMemPoolEntry := mk_entry {
  tx : CTransaction; nFee : Z; nTxWeight : Z; nUsageSize : Z; nTime : Z; entryHeight : Z; spendsCoinbase : bool; sigOpCost : Z;
  feeDelta : Z; nMinGasPrice : Z;
  nCountWithDescendants : Z; nSizeWithDescendants : Z; nModFeesWithDescendants : Z;
  nCountWithAncestors : Z; nSizeWithAncestors : Z; nModFeesWithAncestors : Z; nSigOpCostWithAncestors : Z;
  vTxHashesIdx : nat
}.

Definition GetTransactionWeight (t : CTransaction) : Z :=
  i64 (u64 (size (SerializeTransaction false t) * (WITNESS_SCALE_FACTOR - 1) + size (SerializeTransaction true t))).

Section Pool.
(** [nBytesPerSigOp] is a setting; [tx_usage] and [node_usage] are the memory that the
    allocator uses for a transaction and for a node of a set. *)
Context `{C : Crypto} (nBytesPerSigOp : Z) (tx_usage : CTransaction → Z) (node_usage : Z).

Definition GetVirtualTransactionSize (nWeight nSigOpCost : Z) : Z :=
  Z.quot (i64 (Z.max nWeight (i64 (nSigOpCost * nBytesPerSigOp)) + WITNESS_SCALE_FACTOR - 1)) WITNESS_SCALE_FACTOR.
Definition GetTxSize (e : CTxMemPoolEntry) : Z := u64 (GetVirtualTransactionSize (nTxWeight e) (sigOpCost e)).
Definition GetModifiedFee (e : CTxMemPoolEntry) : Z := i64 (nFee e + feeDelta e).
Definition new_CTxMemPoolEntry (t : CTransaction) (nFee nTime entryHeight : Z) (spendsCoinbase : bool) (sigOpsCost nMinGasPrice : Z) : CTxMemPoolEntry :=
  let weight := GetTransactionWeight t in
  let txsize := u64 (GetVirtualTransactionSize weight sigOpsCost) in
  mk_entry t nFee weight (tx_usage t) nTime entryHeight spendsCoinbase sigOpsCost 0 nMinGasPrice 1 txsize nFee 1 txsize nFee sigOpsCost 0.

Definition UpdateFeeDelta (newFeeDelta : Z) (e : CTxMemPoolEntry) : CTxMemPoolEntry :=
  let d := i64 (newFeeDelta - feeDelta e) in
  mk_entry (tx e) (nFee e) (nTxWeight e) (nUsageSize e) (nTime e) (entryHeight e) (spendsCoinbase e) (sigOpCost e) newFeeDelta (nMinGasPrice e)
    (nCountWithDescendants e) (nSizeWithDescendants e) (i64 (nModFeesWithDescendants e + d))
    (nCountWithAncestors e) (nSizeWithAncestors e) (i64 (nModFeesWithAncestors e + d)) (nSigOpCostWithAncestors e) (vTxHashesIdx e).
Definition UpdateDescendantState (modifySize modifyFee modifyCount : Z) (e : CTxMemPoolEntry) : result mempool_error CTxMemPoolEntry :=
  let sz := u64 (nSizeWithDescendants e + modifySize) in
  let* _ := require (i64 sz >? 0) assertion_failed in
  let fees := i64 (nModFeesWithDescendants e + modifyFee) in
  let cnt := u64 (nCountWithDescendants e + modifyCount) in
  let* _ := require (i64 cnt >? 0) assertion_failed in
  Ok (mk_entry (tx e) (nFee e) (nTxWeight e) (nUsageSize e) (nTime e) (entryHeight e) (spendsCoinbase e) (sigOpCost e) (feeDelta e) (nMinGasPrice e)
    cnt sz fees (nCountWithAncestors e) (nSizeWithAncestors e) (nModFeesWithAncestors e) (nSigOpCostWithAncestors e) (vTxHashesIdx e)).
Definition UpdateAncestorState (modifySize modifyFee modifyCount modifySigOps : Z) (e : CTxMemPoolEntry) : result mempool_error CTxMemPoolEntry :=
  let sz := u64 (nSizeWithAncestors e + modifySize) in
  let* _ := require (i64 sz >? 0) assertion_failed in
  let fees := i64 (nModFeesWithAncestors e + modifyFee) in
  let cnt := u64 (nCountWithAncestors e + modifyCount) in
  let* _ := require (i64 cnt >? 0) assertion_failed in
  let sig := i64 (nSigOpCostWithAncestors e + modifySigOps) in
  let* _ := require (i32 sig >=? 0) assertion_failed in
  Ok (mk_entry (tx e) (nFee e) (nTxWeight e) (nUsageSize e) (nTime e) (entryHeight e) (spendsCoinbase e) (sigOpCost e) (feeDelta e) (nMinGasPrice e)
    (nCountWithDescendants e) (nSizeWithDescendants e) (nModFeesWithDescendants e) cnt sz fees sig (vTxHashesIdx e)).
Definition set_idx (i : nat) (e : CTxMemPoolEntry) : CTxMemPoolEntry :=
  mk_entry (tx e) (nFee e) (nTxWeight e) (nUsageSize e) (nTime e) (entryHeight e) (spendsCoinbase e) (sigOpCost e) (feeDelta e) (nMinGasPrice e)
    (nCountWithDescendants e) (nSizeWithDescendants e) (nModFeesWithDescendants e)
    (nCountWithAncestors e) (nSizeWithAncestors e) (nModFeesWithAncestors e) (nSigOpCostWithAncestors e) i.

(** ** The pool *)

Record TxLinks := mk_links { parents : setEntries; children : setEntries }.
Record CTxMemPool := mk_pool {
  mapTx : gmap uint256 CTxMemPoolEntry; mapLinks : gmap uint256 TxLinks; mapNextTx : gmap COutPoint uint256; mapDeltas : gmap uint256 Z;
  totalTxSize : Z; cachedInnerUsage : Z; nTransactionsUpdated : Z; vTxHashes : list (uint256 * uint256)
}.
Definition set_mapTx (p : CTxMemPool) (m : gmap uint256 CTxMemPoolEntry) : CTxMemPool :=
  mk_pool m (mapLinks p) (mapNextTx p) (mapDeltas p) (totalTxSize p) (cachedInnerUsage p) (nTransactionsUpdated p) (vTxHashes p).
Definition set_links (p : CTxMemPool) (m : gmap uint256 TxLinks) (usage : Z) : CTxMemPool :=
  mk_pool (mapTx p) m (mapNextTx p) (mapDeltas p) (totalTxSize p) usage (nTransactionsUpdated p) (vTxHashes p).
Definition set_deltas (p : CTxMemPool) (m : gmap uint256 Z) : CTxMemPool :=
  mk_pool (mapTx p) (mapLinks p) (mapNextTx p) m (totalTxSize p) (cachedInnerUsage p) (nTransactionsUpdated p) (vTxHashes p).
(** [_clear], which leaves the deltas and the list of witness hashes. *)
Definition clear_pool (p : CTxMemPool) : CTxMemPool := mk_pool ∅ ∅ ∅ (mapDeltas p) 0 0 (u32 (nTransactionsUpdated p + 1)) (vTxHashes p).
Definition new_CTxMemPool : CTxMemPool := clear_pool (mk_pool ∅ ∅ ∅ ∅ 0 0 0 []).

Definition find (p : CTxMemPool) (h : uint256) : result mempool_error CTxMemPoolEntry :=
  match mapTx p !! h with Some e => Ok e | None => Err no_such_entry end.
Definition modify_entry (h : uint256) (f : CTxMemPoolEntry → result mempool_error CTxMemPoolEntry) (p : CTxMemPool) : result mempool_error CTxMemPool :=
  let* e := find p h in let* e := f e in Ok (set_mapTx p (<[h := e]> (mapTx p))).
Definition modify_all (s : setEntries) (f : CTxMemPoolEntry → result mempool_error CTxMemPoolEntry) (p : CTxMemPool) : result mempool_error CTxMemPool :=
  fold_result (λ p h, modify_entry h f p) p (elements s).
Definition GetLinks (p : CTxMemPool) (h : uint256) : result mempool_error TxLinks :=
  match mapLinks p !! h with Some l => Ok l | None => Err assertion_failed end.
Definition GetMemPoolParents (p : CTxMemPool) (h : uint256) : result mempool_error setEntries := let* l := GetLinks p h in Ok (parents l).
Definition GetMemPoolChildren (p : CTxMemPool) (h : uint256) : result mempool_error setEntries := let* l := GetLinks p h in Ok (children l).

Definition links_at (p : CTxMemPool) (h : uint256) : TxLinks := default (mk_links ∅ ∅) (mapLinks p !! h).
Definition UpdateChild (entry child : uint256) (add : bool) (p : CTxMemPool) : CTxMemPool :=
  let l := links_at p entry in
  if add && negb (bool_decide (child ∈ children l)) then
    set_links p (<[entry := mk_links (parents l) ({[child]} ∪ children l)]> (mapLinks p)) (u64 (cachedInnerUsage p + node_usage))
  else if negb add && bool_decide (child ∈ children l) then
    set_links p (<[entry := mk_links (parents l) (children l ∖ {[child]})]> (mapLinks p)) (u64 (cachedInnerUsage p - node_usage))
  else set_links p (<[entry := l]> (mapLinks p)) (cachedInnerUsage p).
Definition UpdateParent (entry parent : uint256) (add : bool) (p : CTxMemPool) : CTxMemPool :=
  let l := links_at p entry in
  if add && negb (bool_decide (parent ∈ parents l)) then
    set_links p (<[entry := mk_links ({[parent]} ∪ parents l) (children l)]> (mapLinks p)) (u64 (cachedInnerUsage p + node_usage))
  else if negb add && bool_decide (parent ∈ parents l) then
    set_links p (<[entry := mk_links (parents l ∖ {[parent]}) (children l)]> (mapLinks p)) (u64 (cachedInnerUsage p - node_usage))
  else set_links p (<[entry := l]> (mapLinks p)) (cachedInnerUsage p).

(** ** Walking the links *)

Inductive ancestor_limit := too_many_parents | descendant_size | descendant_count | ancestor_size | too_many_ancestors.
Record limits := mk_limits { limitAncestorCount : Z; limitAncestorSize : Z; limitDescendantCount : Z; limitDescendantSize : Z }.
Definition nNoLimit : Z := 2 ^ 64 - 1.
Definition no_limits : limits := mk_limits nNoLimit nNoLimit nNoLimit nNoLimit.
Definition count (s : setEntries) : Z := Z.of_nat (stdpp.base.size s).

(** The parents in the pool, from the inputs of a transaction. *)
Fixpoint search_parents (p : CTxMemPool) (lim : limits) (ins : list CTxIn) (s : setEntries) : ancestor_limit + setEntries :=
  match ins with
  | [] => inr s
  | i :: ins =>
      match mapTx p !! hash (prevout i) with
      | Some _ =>
          let s := {[hash (prevout i)]} ∪ s in
          if u64 (count s + 1) >? limitAncestorCount lim then inl too_many_parents else search_parents p lim ins s
      | None => search_parents p lim ins s
      end
  end.
Fixpoint stage_parents (lim : limits) (l : list uint256) (stage done : setEntries) : ancestor_limit + setEntries :=
  match l with
  | [] => inr stage
  | phash :: l =>
      let stage := if bool_decide (phash ∈ done) then stage else {[phash]} ∪ stage in
      if u64 (count stage + count done + 1) >? limitAncestorCount lim then inl too_many_ancestors else stage_parents lim l stage done
  end.
(** The loop: each round moves an entry to [setAncestors], so the size of the pool
    bounds it.  The first result is the limit that was exceeded. *)
Fixpoint walk_ancestors (p : CTxMemPool) (entry : CTxMemPoolEntry) (lim : limits) (fuel : nat) (parentHashes setAncestors : setEntries) (total : Z)
  : result mempool_error (option ancestor_limit * setEntries) :=
  match elements parentHashes with
  | [] => Ok (None, setAncestors)
  | stageit :: _ =>
      match fuel with
      | O => Err out_of_fuel
      | S fuel =>
          let* e := find p stageit in
          let setAncestors := {[stageit]} ∪ setAncestors in
          let parentHashes := parentHashes ∖ {[stageit]} in
          let total := u64 (total + GetTxSize e) in
          if u64 (nSizeWithDescendants e + GetTxSize entry) >? limitDescendantSize lim then Ok (Some descendant_size, setAncestors)
          else if u64 (nCountWithDescendants e + 1) >? limitDescendantCount lim then Ok (Some descendant_count, setAncestors)
          else if total >? limitAncestorSize lim then Ok (Some ancestor_size, setAncestors)
          else
            let* ps := GetMemPoolParents p stageit in
            match stage_parents lim (elements ps) parentHashes setAncestors with
            | inl e => Ok (Some e, setAncestors)
            | inr parentHashes => walk_ancestors p entry lim fuel parentHashes setAncestors total
            end
      end
  end.
Definition CalculateMemPoolAncestors (p : CTxMemPool) (entry : CTxMemPoolEntry) (lim : limits) (fSearchForParents : bool)
  : result mempool_error (option ancestor_limit * setEntries) :=
  let* r :=
    if fSearchForParents then Ok (search_parents p lim (vin (tx entry)) ∅)
    else let* s := GetMemPoolParents p (GetHash (tx entry)) in Ok (inr s) in
  match r with
  | inl e => Ok (Some e, ∅)
  | inr s => walk_ancestors p entry lim (stdpp.base.size (mapTx p)) s ∅ (GetTxSize entry)
  end.

Fixpoint walk_descendants (p : CTxMemPool) (fuel : nat) (stage setDescendants : setEntries) : result mempool_error setEntries :=
  match elements stage with
  | [] => Ok setDescendants
  | it :: _ =>
      match fuel with
      | O => Err out_of_fuel
      | S fuel =>
          let setDescendants := {[it]} ∪ setDescendants in
          let* cs := GetMemPoolChildren p it in
          walk_descendants p fuel ((stage ∖ {[it]}) ∪ (cs ∖ setDescendants)) setDescendants
      end
  end.
Definition CalculateDescendants (p : CTxMemPool) (entryit : uint256) (setDescendants : setEntries) : result mempool_error setEntries :=
  walk_descendants p (stdpp.base.size (mapTx p)) (if bool_decide (entryit ∈ setDescendants) then ∅ else {[entryit]}) setDescendants.

(** ** Bookkeeping *)

Definition UpdateAncestorsOf (add : bool) (it : uint256) (setAncestors : setEntries) (p : CTxMemPool) : result mempool_error CTxMemPool :=
  let* parentIters := GetMemPoolParents p it in
  let p := foldl (λ p piter, UpdateChild piter it add p) p (elements parentIters) in
  let* e := find p it in
  let updateCount := if add then 1 else -1 in
  let updateSize := i64 (u64 (updateCount * GetTxSize e)) in
  let updateFee := i64 (updateCount * GetModifiedFee e) in
  modify_all setAncestors (UpdateDescendantState updateSize updateFee updateCount) p.
(** The sums over the ancestors. *)
Definition ancestor_sums (p : CTxMemPool) (l : list uint256) : result mempool_error (Z * Z * Z) :=
  fold_result (λ '(sz, fee, sig) h,
    let* e := find p h in Ok (i64 (sz + GetTxSize e), i64 (fee + GetModifiedFee e), i64 (sig + sigOpCost e))) (0, 0, 0) l.
Definition UpdateEntryForAncestors (it : uint256) (setAncestors : setEntries) (p : CTxMemPool) : result mempool_error CTxMemPool :=
  let updateCount := i64 (count setAncestors) in
  let* '(updateSize, updateFee, updateSigOpsCost) := ancestor_sums p (elements setAncestors) in
  modify_entry it (UpdateAncestorState updateSize updateFee updateCount updateSigOpsCost) p.
Definition UpdateChildrenForRemoval (it : uint256) (p : CTxMemPool) : result mempool_error CTxMemPool :=
  let* cs := GetMemPoolChildren p it in
  Ok (foldl (λ p updateIt, UpdateParent updateIt it false p) p (elements cs)).
(** The three loops of [UpdateForRemoveFromMempool]. *)
Definition remove_from_descendants (p : CTxMemPool) (removeIt : uint256) : result mempool_error CTxMemPool :=
  let* ds := CalculateDescendants p removeIt ∅ in
  let ds := ds ∖ {[removeIt]} in
  let* e := find p removeIt in
  modify_all ds (UpdateAncestorState (i64 (- i64 (GetTxSize e))) (i64 (- GetModifiedFee e)) (-1) (i32 (- sigOpCost e))) p.
Definition remove_from_ancestors (p : CTxMemPool) (removeIt : uint256) : result mempool_error CTxMemPool :=
  let* e := find p removeIt in
  let* r := CalculateMemPoolAncestors p e no_limits false in
  UpdateAncestorsOf false removeIt r.2 p.
Definition UpdateForRemoveFromMempool (entriesToRemove : setEntries) (updateDescendants : bool) (p : CTxMemPool) : result mempool_error CTxMemPool :=
  let* p := if updateDescendants then fold_result remove_from_descendants p (elements entriesToRemove) else Ok p in
  let* p := fold_result remove_from_ancestors p (elements entriesToRemove) in
  fold_result (λ p removeIt, UpdateChildrenForRemoval removeIt p) p (elements entriesToRemove).

(** ** Adding and removing *)

Definition mapNextTx_insert (h : uint256) (m : gmap COutPoint uint256) (o : COutPoint) : gmap COutPoint uint256 :=
  match m !! o with Some _ => m | None => <[o := h]> m end.
Definition insert_entry (h : uint256) (entry : CTxMemPoolEntry) (p : CTxMemPool) : CTxMemPool :=
  let e := match mapDeltas p !! h with Some delta => if delta =? 0 then entry else UpdateFeeDelta delta entry | None => entry end in
  mk_pool (<[h := e]> (mapTx p)) (<[h := mk_links ∅ ∅]> (mapLinks p))
    (foldl (mapNextTx_insert h) (mapNextTx p) (prevout <$> vin (tx entry))) (mapDeltas p)
    (totalTxSize p) (u64 (cachedInnerUsage p + nUsageSize entry)) (nTransactionsUpdated p) (vTxHashes p).
(** For a transaction that is not in the pool. *)
Definition addUnchecked (h : uint256) (entry : CTxMemPoolEntry) (setAncestors : setEntries) (p : CTxMemPool) : result mempool_error CTxMemPool :=
  let p := insert_entry h entry p in
  let setParentTransactions : setEntries := list_to_set (hash <$> (prevout <$> vin (tx entry))) in
  let p := foldl (λ p phash, match mapTx p !! phash with Some _ => UpdateParent h phash true p | None => p end) p (elements setParentTransactions) in
  let* p := UpdateAncestorsOf true h setAncestors p in
  let* p := UpdateEntryForAncestors h setAncestors p in
  let idx := length (vTxHashes p) in
  Ok (mk_pool (alter (set_idx idx) h (mapTx p)) (mapLinks p) (mapNextTx p) (mapDeltas p) (u64 (totalTxSize p + GetTxSize entry)) (cachedInnerUsage p)
        (u32 (nTransactionsUpdated p + 1)) (vTxHashes p ++ [(GetWitnessHash (tx entry), h)])).
Definition addUnchecked_searching (h : uint256) (entry : CTxMemPoolEntry) (p : CTxMemPool) : result mempool_error CTxMemPool :=
  let* r := CalculateMemPoolAncestors p entry no_limits true in addUnchecked h entry r.2 p.

(** The last hash takes the place of the one that is removed. *)
Definition drop_hash (idx : nat) (v : list (uint256 * uint256)) (m : gmap uint256 CTxMemPoolEntry) : list (uint256 * uint256) * gmap uint256 CTxMemPoolEntry :=
  if (1 <? length v)%nat then
    match last v with
    | Some b => (take (length v - 1) (<[idx := b]> v), alter (set_idx idx) b.2 m)
    | None => (v, m)
    end
  else ([], m).
Definition removeUnchecked (it : uint256) (p : CTxMemPool) : result mempool_error CTxMemPool :=
  let* e := find p it in
  let next := foldl (λ m o, delete o m) (mapNextTx p) (prevout <$> vin (tx e)) in
  let '(v, m) := drop_hash (vTxHashesIdx e) (vTxHashes p) (mapTx p) in
  let l := links_at p it in
  let usage := u64 (u64 (cachedInnerUsage p - nUsageSize e) - u64 (node_usage * count (parents l) + node_usage * count (children l))) in
  Ok (mk_pool (delete it m) (delete it (mapLinks p)) next (mapDeltas p) (u64 (totalTxSize p - GetTxSize e)) usage (u32 (nTransactionsUpdated p + 1)) v).
Definition RemoveStaged (stage : setEntries) (updateDescendants : bool) (p : CTxMemPool) : result mempool_error CTxMemPool :=
  let* p := UpdateForRemoveFromMempool stage updateDescendants p in
  fold_result (λ p it, removeUnchecked it p) p (elements stage).

Definition all_descendants (p : CTxMemPool) (s : setEntries) : result mempool_error setEntries :=
  fold_result (λ acc it, CalculateDescendants p it acc) ∅ (elements s).
(** What [removeRecursive] starts from: the transaction, or those that spend it. *)
Definition spenders (p : CTxMemPool) (origTx : CTransaction) : result mempool_error setEntries :=
  fold_result (λ s i,
    match mapNextTx p !! mk_outpoint (GetHash origTx) (Z.of_nat i) with
    | None => Ok s
    | Some h => let* _ := require (bool_decide (is_Some (mapTx p !! h))) assertion_failed in Ok ({[h]} ∪ s)
    end) ∅ (seq 0 (length (vout origTx))).
Definition removeRecursive (origTx : CTransaction) (p : CTxMemPool) : result mempool_error CTxMemPool :=
  let* txToRemove := match mapTx p !! GetHash origTx with Some _ => Ok {[GetHash origTx]} | None => spenders p origTx end in
  let* s := all_descendants p txToRemove in
  RemoveStaged s false p.
Definition ClearPrioritisation (h : uint256) (p : CTxMemPool) : CTxMemPool := set_deltas p (delete h (mapDeltas p)).
(** Transactions are compared by their hashes. *)
Definition remove_conflict (t : CTransaction) (p : CTxMemPool) (i : CTxIn) : result mempool_error CTxMemPool :=
  match mapNextTx p !! prevout i with
  | None => Ok p
  | Some h =>
      let* e := find p h in
      if bool_decide (GetHash (tx e) = GetHash t) then Ok p
      else removeRecursive (tx e) (ClearPrioritisation (GetHash (tx e)) p)
  end.
Definition removeConflicts (t : CTransaction) (p : CTxMemPool) : result mempool_error CTxMemPool := fold_result (remove_conflict t) p (vin t).
Definition remove_block_tx (p : CTxMemPool) (t : CTransaction) : result mempool_error CTxMemPool :=
  let* p := match mapTx p !! GetHash t with Some _ => RemoveStaged {[GetHash t]} true p | None => Ok p end in
  let* p := removeConflicts t p in
  Ok (ClearPrioritisation (GetHash t) p).
Definition removeForBlock (vtx : list CTransaction) (p : CTxMemPool) : result mempool_error CTxMemPool := fold_result remove_block_tx p vtx.

(** The number removed, and the pool. *)
Definition Expire (time : Z) (p : CTxMemPool) : result mempool_error (Z * CTxMemPool) :=
  let toremove : setEntries := dom (filter (λ he, nTime he.2 < time) (mapTx p)) in
  let* stage := all_descendants p toremove in
  let* p := RemoveStaged stage false p in
  Ok (count stage, p).
(** The memory in use and the entry with the lowest score, which the loop removes
    with its descendants, are arguments; each round empties the pool further. *)
Fixpoint trim_loop (usage : CTxMemPool → Z) (lowest : CTxMemPool → uint256) (sizelimit : Z) (fuel : nat) (p : CTxMemPool) : result mempool_error CTxMemPool :=
  if negb (bool_decide (mapTx p = ∅)) && (usage p >? sizelimit) then
    match fuel with
    | O => Err out_of_fuel
    | S fuel =>
        let* stage := CalculateDescendants p (lowest p) ∅ in
        let* p := RemoveStaged stage false p in
        trim_loop usage lowest sizelimit fuel p
    end
  else Ok p.
Definition TrimToSize (usage : CTxMemPool → Z) (lowest : CTxMemPool → uint256) (sizelimit : Z) (p : CTxMemPool) : result mempool_error CTxMemPool :=
  trim_loop usage lowest sizelimit (stdpp.base.size (mapTx p)) p.

Definition PrioritiseTransaction (h : uint256) (nFeeDelta : Z) (p : CTxMemPool) : result mempool_error CTxMemPool :=
  let delta := i64 (default 0 (mapDeltas p !! h) + nFeeDelta) in
  let p := set_deltas p (<[h := delta]> (mapDeltas p)) in
  match mapTx p !! h with
  | None => Ok p
  | Some _ =>
      let* p := modify_entry h (λ e, Ok (UpdateFeeDelta delta e)) p in
      let* e := find p h in
      let* r := CalculateMemPoolAncestors p e no_limits false in
      let* p := modify_all r.2 (UpdateDescendantState 0 nFeeDelta 0) p in
      let* ds := CalculateDescendants p h ∅ in
      let* p := modify_all (ds ∖ {[h]}) (UpdateAncestorState 0 nFeeDelta 0 0) p in
      Ok (mk_pool (mapTx p) (mapLinks p) (mapNextTx p) (mapDeltas p) (totalTxSize p) (cachedInnerUsage p) (u32 (nTransactionsUpdated p + 1)) (vTxHashes p))
  end.
Definition ApplyDelta (h : uint256) (nFeeDelta : Z) (p : CTxMemPool) : Z :=
  match mapDeltas p !! h with None => nFeeDelta | Some delta => i64 (nFeeDelta + delta) end.
End Pool.
