(* ===== verification/MempoolFacts.v ===== *)
(** * The memory pool: links, sums and walks

    What it means for a pool to be consistent, and lemmas on the walks over the links
    and on sums over sets of entries. *)
From S2P Require Import Prelude ArithUint256 Script Interpreter Serialize Transaction TxVerify Mempool.

(** ** Sums over sets *)

Section Sums.
Implicit Types s : setEntries.
Definition set_sum (f : uint256 → Z) s : Z := sum_of f (elements s).
Lemma set_sum_empty f : set_sum f ∅ = 0.
Proof. unfold set_sum. by rewrite elements_empty. Qed.
Lemma set_sum_disj f s1 s2 : s1 ## s2 → set_sum f (s1 ∪ s2) = set_sum f s1 + set_sum f s2.
Proof. intros H. unfold set_sum. rewrite (sum_of_perm _ _ _ (elements_disj_union s1 s2 H)). apply sum_of_app. Qed.
Lemma set_sum_singleton f h : set_sum f {[h]} = f h.
Proof. unfold set_sum. rewrite elements_singleton. cbn. lia. Qed.
Lemma set_sum_insert f s h : h ∉ s → set_sum f ({[h]} ∪ s) = f h + set_sum f s.
Proof. intros H. rewrite set_sum_disj by set_solver. by rewrite set_sum_singleton. Qed.
Lemma set_sum_delete f s h : h ∈ s → set_sum f s = f h + set_sum f (s ∖ {[h]}).
Proof. intros H. rewrite <- set_sum_insert by set_solver. f_equal. apply leibniz_equiv. intros x. destruct (decide (x = h)); set_solver. Qed.
Lemma set_sum_ext f g s : (∀ h, h ∈ s → f h = g h) → set_sum f s = set_sum g s.
Proof. intros H. apply sum_of_ext. intros h Hh. apply H. by apply elem_of_elements. Qed.
Lemma set_sum_nonneg f s : (∀ h, h ∈ s → 0 ≤ f h) → 0 ≤ set_sum f s.
Proof. intros H. apply sum_of_nonneg. intros h Hh. apply H. by apply elem_of_elements. Qed.
Lemma set_sum_subset f s1 s2 : s1 ⊆ s2 → (∀ h, h ∈ s2 → 0 ≤ f h) → set_sum f s1 ≤ set_sum f s2.
Proof.
  intros Hs Hf. rewrite (union_difference_L s1 s2 Hs), set_sum_disj by set_solver.
  pose proof (set_sum_nonneg f (s2 ∖ s1) ltac:(set_solver)). lia.
Qed.
Lemma set_sum_elem f s h : h ∈ s → (∀ h, h ∈ s → 0 ≤ f h) → f h ≤ set_sum f s.
Proof. intros Hh Hf. rewrite <- (set_sum_singleton f h). apply set_sum_subset; set_solver. Qed.
Lemma set_sum_const s : set_sum (λ _, 1) s = count s.
Proof.
  unfold set_sum, count. change (base.size s) with (length (elements s)). induction (elements s) as [|x l IH]; [done|].
  rewrite sum_of_cons, IH. cbn [length]. lia.
Qed.
End Sums.

(** ** Closures *)

Section Closure.
Context (R : uint256 → uint256 → Prop).
(** [X] is what can be reached from [roots]. *)
Definition closure (roots X : setEntries) : Prop := ∀ x, x ∈ X ↔ ∃ q, q ∈ roots ∧ rtc R q x.
(** The state of a walk: what is done and what is left. *)
Definition walk_inv (roots done stage : setEntries) : Prop :=
  stage ## done ∧ roots ⊆ done ∪ stage ∧ (∀ x, x ∈ done ∪ stage → ∃ q, q ∈ roots ∧ rtc R q x) ∧ (∀ x y, x ∈ done → R x y → y ∈ done ∪ stage).
Lemma walk_start roots : walk_inv roots ∅ roots.
Proof. split_and!; [set_solver..| |set_solver]. intros x Hx. exists x. split; [set_solver|apply rtc_refl]. Qed.
Lemma walk_step roots done stage it N : walk_inv roots done stage → it ∈ stage → (∀ y, y ∈ N ↔ R it y) →
  walk_inv roots ({[it]} ∪ done) ((stage ∖ {[it]}) ∪ (N ∖ ({[it]} ∪ done))).
Proof.
  intros (H1 & H2 & H3 & H4) Hit HN. split_and!.
  - set_solver.
  - intros x Hx. specialize (H2 x Hx). destruct (decide (x = it)); set_solver.
  - intros x Hx. destruct (decide (x ∈ done ∪ stage)) as [Hd|Hd]; [by apply H3|].
    assert (R it x) as HR by (apply HN; set_solver). destruct (H3 it) as (q & Hq & Hr); [set_solver|]. exists q. split; [done|]. by eapply rtc_r.
  - intros x y Hx HR. destruct (decide (y ∈ {[it]} ∪ done)) as [|Hy]; [set_solver|]. apply elem_of_union in Hx as [->%elem_of_singleton|Hx].
    + apply HN in HR. set_solver.
    + specialize (H4 x y Hx HR). set_solver.
Qed.
Lemma walk_end roots done : walk_inv roots done ∅ → closure roots done.
Proof.
  intros (_ & H2 & H3 & H4) x. split; [intros Hx; apply H3; set_solver|]. intros (q & Hq & Hr).
  assert (q ∈ done) as Hd by set_solver. clear Hq. induction Hr as [|q y x HR _ IH]; [done|]. apply IH. specialize (H4 q y Hd HR). set_solver.
Qed.
Lemma walk_restart roots X it : closure roots X → walk_inv ({[it]} ∪ roots) X (if bool_decide (it ∈ X) then ∅ else {[it]}).
Proof.
  intros HX. assert (∀ x y, x ∈ X → R x y → y ∈ X) as Hcl.
  { intros x y (q & Hq & Hr)%HX HR. apply HX. exists q. split; [done|]. by eapply rtc_r. }
  assert (roots ⊆ X) as Hr by (intros x Hx; apply HX; exists x; split; [done|apply rtc_refl]).
  case_bool_decide as Hit; (split_and!; [set_solver|set_solver| |]).
  - intros x Hx. destruct (proj1 (HX x)) as (q & Hq & Hrr); [set_solver|]. exists q. set_solver.
  - intros x y Hx HR. specialize (Hcl x y Hx HR). set_solver.
  - intros x [Hx| ->%elem_of_singleton]%elem_of_union; [|exists it; split; [set_solver|apply rtc_refl]].
    destruct (proj1 (HX x) Hx) as (q & Hq & Hrr). exists q. set_solver.
  - intros x y Hx HR. specialize (Hcl x y Hx HR). set_solver.
Qed.
Lemma closure_unique roots X Y : closure roots X → closure roots Y → X = Y.
Proof. intros H1 H2. apply set_eq. intros x. by rewrite (H1 x), (H2 x). Qed.
End Closure.

(** ** Folds that may fail *)

Lemma fold_result_ind {E A S} (f : S → A → result E S) (P : S → list A → Prop) l :
  (∀ s x k, P s (x :: k) → ∃ s', f s x = Ok s' ∧ P s' k) → ∀ s, P s l → ∃ s', fold_result f s l = Ok s' ∧ P s' [].
Proof.
  intros Hf. induction l as [|x l IH]; intros s Hs; [by exists s|]. cbn [fold_result]. destruct (Hf s x l Hs) as (s' & -> & Hs'). cbn [rbind]. by apply IH.
Qed.
(** For the elements of a set: [P] speaks of those that are done. *)
Lemma fold_set_ind {E S} (f : S → uint256 → result E S) (P : S → setEntries → Prop) (X : setEntries) s0 :
  P s0 ∅ → (∀ s D x, P s D → D ⊆ X → x ∈ X → x ∉ D → ∃ s', f s x = Ok s' ∧ P s' ({[x]} ∪ D)) →
  ∃ s', fold_result f s0 (elements X) = Ok s' ∧ P s' X.
Proof.
  intros H0 Hstep.
  assert (∀ l D s, P s D → D ⊆ X → NoDup l → (∀ x, x ∈ l ↔ x ∈ X ∧ x ∉ D) → ∃ s', fold_result f s l = Ok s' ∧ P s' X) as Hgen.
  { induction l as [|x l IH]; intros D s Hs HD Hnd Hl.
    - exists s. split; [done|]. replace X with D; [done|]. apply set_eq. intros y. split; [apply HD|]. intros Hy.
      destruct (decide (y ∈ D)); [done|]. by assert (y ∈ []) as ?%not_elem_of_nil by (by apply Hl).
    - apply NoDup_cons in Hnd as [Hx Hnd]. destruct (proj1 (Hl x)) as [HxX HxD]; [apply list_elem_of_here|].
      destruct (Hstep s D x Hs HD HxX HxD) as (s' & E1 & Hs'). cbn [fold_result]. rewrite E1. cbn [rbind].
      apply (IH ({[x]} ∪ D)); [done|set_solver|done|]. intros y. specialize (Hl y). rewrite elem_of_cons in Hl. destruct (decide (y = x)) as [->|]; set_solver. }
  apply (Hgen _ ∅); [done|set_solver|apply NoDup_elements|]. intros x. rewrite elem_of_elements. set_solver.
Qed.

(** ** The graph of the pool *)

Section Pool.
Context `{C : Crypto} (nB : Z) (node_usage : Z).
Implicit Types p : CTxMemPool.

Definition parent p (a b : uint256) : Prop := ∃ l, mapLinks p !! b = Some l ∧ a ∈ parents l.
Definition child p (a b : uint256) : Prop := ∃ l, mapLinks p !! a = Some l ∧ b ∈ children l.
Definition links_ok p : Prop :=
  dom (mapLinks p) = dom (mapTx p) ∧ (∀ a b, parent p a b → a ∈ dom (mapTx p)) ∧ (∀ a b, child p a b → b ∈ dom (mapTx p)).

Lemma links_Some p h : links_ok p → h ∈ dom (mapTx p) → ∃ e l, mapTx p !! h = Some e ∧ mapLinks p !! h = Some l.
Proof.
  intros (Hd & _) Hh. pose proof Hh as Hh'. rewrite <- Hd in Hh'. apply elem_of_dom in Hh as [e He]. apply elem_of_dom in Hh' as [l Hl]. eauto.
Qed.
Lemma parent_links p h l : mapLinks p !! h = Some l → ∀ a, a ∈ parents l ↔ parent p a h.
Proof. intros Hl a. unfold parent. rewrite Hl. naive_solver. Qed.
Lemma child_links p h l : mapLinks p !! h = Some l → ∀ a, a ∈ children l ↔ child p h a.
Proof. intros Hl a. unfold child. rewrite Hl. naive_solver. Qed.

Lemma stage_parents_spec lim l : ∀ stage done stage', stage_parents lim l stage done = inr stage' → stage' = stage ∪ (list_to_set l ∖ done).
Proof.
  induction l as [|x l IH]; intros stage done stage'; cbn [stage_parents list_to_set].
  { intros [= ->]. set_solver. }
  case_match; [done|]. intros ->%IH. case_bool_decide; set_solver.
Qed.
Lemma no_limit x : u64 x >? nNoLimit = false.
Proof. pose proof (wrap_range 64 x) as H. unfold u64, nNoLimit, in_u in *. lia. Qed.
Lemma stage_parents_no_limits l : ∀ stage done, ∃ stage', stage_parents no_limits l stage done = inr stage'.
Proof. induction l as [|x l IH]; intros stage done; cbn [stage_parents]; [by eexists|]. rewrite no_limit. apply IH. Qed.

(** The walk to the ancestors ends, with all of them unless a limit is exceeded. *)
Lemma walk_ancestors_spec p entry lim roots : links_ok p → ∀ fuel stage walked total,
  walk_inv (flip (parent p)) roots walked stage → walked ∪ stage ⊆ dom (mapTx p) → (base.size (dom (mapTx p)) ≤ base.size walked + fuel)%nat →
  ∃ r X, walk_ancestors nB p entry lim fuel stage walked total = Ok (r, X) ∧ (r = None → closure (flip (parent p)) roots X) ∧ (lim = no_limits → r = None).
Proof.
  intros Hok fuel. induction fuel as [|fuel IH]; intros stage walked total Hw Hsub Hsz; unfold walk_ancestors; fold (walk_ancestors nB p entry lim);
    (destruct (elements stage) as [|it l] eqn:El; [apply elements_empty_inv, leibniz_equiv in El; subst stage; exists None, walked; split_and!; [done|intros; by apply walk_end|done]|]);
    assert (it ∈ stage) as Hit by (apply elem_of_elements; rewrite El; apply list_elem_of_here).
  { exfalso. destruct Hw as (Hdis & _). assert (base.size ({[it]} ∪ walked) ≤ base.size (dom (mapTx p)))%nat as H1 by (apply subseteq_size; set_solver).
    rewrite size_union, size_singleton in H1 by set_solver. lia. }
  destruct (links_Some p it Hok) as (e & li & He & Hli); [set_solver|]. unfold find. rewrite He. cbn [rbind].
  destruct (u64 _ >? limitDescendantSize lim) eqn:E1; [do 2 eexists; split_and!; [done|done|intros ->; by rewrite no_limit in E1]|].
  destruct (u64 _ >? limitDescendantCount lim) eqn:E2; [do 2 eexists; split_and!; [done|done|intros ->; by rewrite no_limit in E2]|].
  destruct (u64 _ >? limitAncestorSize lim) eqn:E3; [do 2 eexists; split_and!; [done|done|intros ->; by rewrite no_limit in E3]|].
  unfold GetMemPoolParents, GetLinks. rewrite Hli. cbn [rbind].
  destruct (stage_parents lim _ _ _) as [er|stage'] eqn:E4.
  { do 2 eexists. split_and!; [done|done|]. intros ->. destruct (stage_parents_no_limits (elements (parents li)) (stage ∖ {[it]}) ({[it]} ∪ walked)) as [? E]. congruence. }
  apply stage_parents_spec in E4. rewrite list_to_set_elements_L in E4. subst stage'. apply IH.
  - apply walk_step; [done|done|]. intros y. unfold flip. by apply parent_links.
  - destruct Hok as (_ & Hp & _). intros x Hx. destruct (decide (x ∈ parents li)) as [Hxp|]; [|set_solver]. apply (Hp x it). by exists li.
  - destruct Hw as (Hdis & _). rewrite size_union, size_singleton by set_solver. lia.
Qed.
Lemma walk_descendants_spec p roots : links_ok p → ∀ fuel stage walked,
  walk_inv (child p) roots walked stage → walked ∪ stage ⊆ dom (mapTx p) → (base.size (dom (mapTx p)) ≤ base.size walked + fuel)%nat →
  ∃ X, walk_descendants p fuel stage walked = Ok X ∧ closure (child p) roots X ∧ X ⊆ dom (mapTx p).
Proof.
  intros Hok fuel. induction fuel as [|fuel IH]; intros stage walked Hw Hsub Hsz; unfold walk_descendants; fold (walk_descendants p);
    (destruct (elements stage) as [|it l] eqn:El; [apply elements_empty_inv, leibniz_equiv in El; subst stage; exists walked; split_and!; [done|by apply walk_end|set_solver]|]);
    assert (it ∈ stage) as Hit by (apply elem_of_elements; rewrite El; apply list_elem_of_here).
  { exfalso. destruct Hw as (Hdis & _). assert (base.size ({[it]} ∪ walked) ≤ base.size (dom (mapTx p)))%nat as H1 by (apply subseteq_size; set_solver).
    rewrite size_union, size_singleton in H1 by set_solver. lia. }
  destruct (links_Some p it Hok) as (e & li & He & Hli); [set_solver|]. unfold GetMemPoolChildren, GetLinks. rewrite Hli. cbn [rbind]. apply IH.
  - apply walk_step; [done|done|]. intros y. by apply child_links.
  - destruct Hok as (_ & _ & Hc). intros x Hx. destruct (decide (x ∈ children li)) as [Hxp|]; [|set_solver]. apply (Hc it x). by exists li.
  - destruct Hw as (Hdis & _). rewrite size_union, size_singleton by set_solver. lia.
Qed.

(** *** Changing entries *)

Lemma modify_all_spec (f : CTxMemPoolEntry → result mempool_error CTxMemPoolEntry) p (S : setEntries) :
  (∀ a, a ∈ S → ∃ e e', mapTx p !! a = Some e ∧ f e = Ok e') →
  ∃ m, modify_all S f p = Ok (set_mapTx p m) ∧ dom m = dom (mapTx p) ∧
    ∀ a e, mapTx p !! a = Some e → ∃ e', m !! a = Some e' ∧ (a ∈ S → f e = Ok e') ∧ (a ∉ S → e' = e).
Proof.
  intros Hf. unfold modify_all.
  destruct (fold_set_ind (λ p h, modify_entry h f p) (λ q D, ∃ m, q = set_mapTx p m ∧ dom m = dom (mapTx p) ∧
    ∀ a e, mapTx p !! a = Some e → ∃ e', m !! a = Some e' ∧ (a ∈ D → f e = Ok e') ∧ (a ∉ D → e' = e)) S p) as (q & -> & m & -> & Hd & Hm).
  - exists (mapTx p). split_and!; [by destruct p|done|]. intros a e He. exists e. set_solver.
  - intros q D x (m & -> & Hd & Hm) HD Hx HxD. destruct (Hf x Hx) as (e & e' & He & Hfe). destruct (Hm x e He) as (e1 & He1 & _ & Hsame).
    rewrite (Hsame HxD) in He1. unfold modify_entry, find. cbn [mapTx set_mapTx]. rewrite He1. cbn [rbind]. rewrite Hfe. cbn [rbind].
    eexists. split; [done|]. exists (<[x := e']> m). split_and!; [done| |].
    + rewrite dom_insert_L, Hd. apply elem_of_dom_2 in He. set_solver.
    + intros a ea Ha. destruct (decide (a = x)) as [->|Hne].
      * exists e'. rewrite lookup_insert_eq. assert (ea = e) as -> by congruence. set_solver.
      * destruct (Hm a ea Ha) as (ea' & Hea' & K1 & K2). exists ea'. rewrite lookup_insert_ne by done. split_and!; [done|set_solver|set_solver].
  - exists m. done.
Qed.

(** *** Changing links *)

Definition nodes (l : TxLinks) : Z := count (parents l) + count (children l).
Definition link_nodes (m : gmap uint256 TxLinks) : Z := set_sum (λ h, from_option nodes 0 (m !! h)) (dom m).
Lemma link_nodes_insert m h l l' : m !! h = Some l → link_nodes (<[h := l']> m) = link_nodes m - nodes l + nodes l'.
Proof.
  intros Hl. unfold link_nodes. pose proof (elem_of_dom_2 _ _ _ Hl) as Hd. assert (dom (<[h := l']> m) = dom m) as -> by (rewrite dom_insert_L; set_solver).
  rewrite !(set_sum_delete _ (dom m) h) by done. rewrite lookup_insert_eq, Hl. cbn [from_option].
  rewrite (set_sum_ext _ (λ h, from_option nodes 0 (m !! h)) (dom m ∖ {[h]})); [lia|]. intros x Hx. by rewrite lookup_insert_ne by set_solver.
Qed.
(** The memory in use follows the links. *)
Definition same_usage (p : CTxMemPool) (m : gmap uint256 TxLinks) (u : Z) : Prop :=
  ∀ c, cachedInnerUsage p = u64 (c + node_usage * link_nodes (mapLinks p)) → u = u64 (c + node_usage * link_nodes m).
Lemma count_insert (s : setEntries) x : x ∉ s → count ({[x]} ∪ s) = 1 + count s.
Proof. intros H. unfold count. rewrite size_union, size_singleton by set_solver. lia. Qed.
Lemma count_delete (s : setEntries) x : x ∈ s → count (s ∖ {[x]}) = count s - 1.
Proof. intros H. rewrite <- !set_sum_const. rewrite (set_sum_delete _ s x H). lia. Qed.
Definition adjust (add : bool) (x : uint256) (s : setEntries) : setEntries := if add then {[x]} ∪ s else s ∖ {[x]}.
Lemma UpdateChild_spec a x add p l : mapLinks p !! a = Some l →
  ∃ u, UpdateChild node_usage a x add p = set_links p (<[a := mk_links (parents l) (adjust add x (children l))]> (mapLinks p)) u ∧
    same_usage p (<[a := mk_links (parents l) (adjust add x (children l))]> (mapLinks p)) u.
Proof.
  intros Hl. unfold UpdateChild, links_at. rewrite Hl. cbn [default from_option id]. unfold same_usage. rewrite (link_nodes_insert _ _ _ _ Hl).
  unfold nodes. cbn [parents children]. destruct add; cbn [andb negb adjust]; case_bool_decide as Hin; cbn [negb].
  - replace ({[x]} ∪ children l) with (children l) by set_solver. eexists. split; [by destruct l|]. intros c ->. f_equal. lia.
  - eexists. split; [done|]. rewrite count_insert by done. intros c ->. rewrite u64_add_l. f_equal. lia.
  - eexists. split; [done|]. rewrite count_delete by done. intros c ->. rewrite u64_sub_l. f_equal. lia.
  - replace (children l ∖ {[x]}) with (children l) by set_solver. eexists. split; [by destruct l|]. intros c ->. f_equal. lia.
Qed.
Lemma UpdateParent_spec a x add p l : mapLinks p !! a = Some l →
  ∃ u, UpdateParent node_usage a x add p = set_links p (<[a := mk_links (adjust add x (parents l)) (children l)]> (mapLinks p)) u ∧
    same_usage p (<[a := mk_links (adjust add x (parents l)) (children l)]> (mapLinks p)) u.
Proof.
  intros Hl. unfold UpdateParent, links_at. rewrite Hl. cbn [default from_option id]. unfold same_usage. rewrite (link_nodes_insert _ _ _ _ Hl).
  unfold nodes. cbn [parents children]. destruct add; cbn [andb negb adjust]; case_bool_decide as Hin; cbn [negb].
  - replace ({[x]} ∪ parents l) with (parents l) by set_solver. eexists. split; [by destruct l|]. intros c ->. f_equal. lia.
  - eexists. split; [done|]. rewrite count_insert by done. intros c ->. rewrite u64_add_l. f_equal. lia.
  - eexists. split; [done|]. rewrite count_delete by done. intros c ->. rewrite u64_sub_l. f_equal. lia.
  - replace (parents l ∖ {[x]}) with (parents l) by set_solver. eexists. split; [by destruct l|]. intros c ->. f_equal. lia.
Qed.

Lemma same_usage_refl p : same_usage p (mapLinks p) (cachedInnerUsage p).
Proof. by intros c ->. Qed.
Lemma same_usage_trans p m u m' u' : same_usage p m u → same_usage (set_links p m u) m' u' → same_usage p m' u'.
Proof. intros H1 H2 c Hc. apply (H2 c). cbn. by apply H1. Qed.
(** A change of the links of each entry of a list. *)
Definition changed_links (g : TxLinks → TxLinks) (l : list uint256) (m m' : gmap uint256 TxLinks) : Prop :=
  ∀ a, m' !! a = if decide (a ∈ l) then g <$> m !! a else m !! a.
Lemma changed_dom g l m m' : changed_links g l m m' → dom m' = dom m.
Proof.
  intros H. apply set_eq. intros a. rewrite !elem_of_dom, (H a). case_decide; [|done]. by destruct (m !! a); split; intros [? ?]; eauto.
Qed.
Lemma fold_links (upd : uint256 → CTxMemPool → CTxMemPool) (g : TxLinks → TxLinks) :
  (∀ a p l, mapLinks p !! a = Some l → ∃ u, upd a p = set_links p (<[a := g l]> (mapLinks p)) u ∧ same_usage p (<[a := g l]> (mapLinks p)) u) →
  ∀ l p, NoDup l → (∀ a, a ∈ l → a ∈ dom (mapLinks p)) →
  ∃ m u, foldl (λ p a, upd a p) p l = set_links p m u ∧ same_usage p m u ∧ changed_links g l (mapLinks p) m.
Proof.
  intros Hupd l. induction l as [|x l IH]; intros p Hnd Hin; cbn [foldl].
  { exists (mapLinks p), (cachedInnerUsage p). split_and!; [by destruct p|apply same_usage_refl|]. intros a. by rewrite decide_False by apply not_elem_of_nil. }
  apply NoDup_cons in Hnd as [Hx Hnd]. destruct (proj1 (elem_of_dom _ _) (Hin x (list_elem_of_here _ _))) as [lx Hlx].
  destruct (Hupd x p lx Hlx) as (u1 & -> & Hu1). destruct (IH (set_links p (<[x := g lx]> (mapLinks p)) u1)) as (m & u & -> & Hu & Hm).
  { done. } { cbn. intros a Ha. rewrite dom_insert_L. specialize (Hin a (list_elem_of_further _ _ _ Ha)). set_solver. }
  exists m, u. split_and!; [done|by eapply same_usage_trans|]. cbn [mapLinks set_links] in Hm. intros a. rewrite (Hm a).
  destruct (decide (a = x)) as [->|Hne].
  - rewrite lookup_insert_eq. rewrite decide_False by done. rewrite decide_True by apply list_elem_of_here. by rewrite Hlx.
  - rewrite lookup_insert_ne by done. case_decide as H1; case_decide as H2; try done; exfalso; set_solver.
Qed.
Definition with_children (f : setEntries → setEntries) (l : TxLinks) : TxLinks := mk_links (parents l) (f (children l)).
Definition with_parents (f : setEntries → setEntries) (l : TxLinks) : TxLinks := mk_links (f (parents l)) (children l).
Lemma fold_UpdateChild x add l p : NoDup l → (∀ a, a ∈ l → a ∈ dom (mapLinks p)) →
  ∃ m u, foldl (λ p a, UpdateChild node_usage a x add p) p l = set_links p m u ∧ same_usage p m u ∧ changed_links (with_children (adjust add x)) l (mapLinks p) m.
Proof. apply (fold_links (λ a, UpdateChild node_usage a x add)). intros a q la Hla. by apply UpdateChild_spec. Qed.
Lemma fold_UpdateParent x add l p : NoDup l → (∀ a, a ∈ l → a ∈ dom (mapLinks p)) →
  ∃ m u, foldl (λ p a, UpdateParent node_usage a x add p) p l = set_links p m u ∧ same_usage p m u ∧ changed_links (with_parents (adjust add x)) l (mapLinks p) m.
Proof. apply (fold_links (λ a, UpdateParent node_usage a x add)). intros a q la Hla. by apply UpdateParent_spec. Qed.
(** The parents of a new entry. *)
Lemma fold_new_parents h l : ∀ p lh, mapLinks p !! h = Some lh →
  ∃ u, foldl (λ p phash, match mapTx p !! phash with Some _ => UpdateParent node_usage h phash true p | None => p end) p l =
      set_links p (<[h := mk_links (parents lh ∪ (list_to_set l ∩ dom (mapTx p))) (children lh)]> (mapLinks p)) u ∧
    same_usage p (<[h := mk_links (parents lh ∪ (list_to_set l ∩ dom (mapTx p))) (children lh)]> (mapLinks p)) u.
Proof.
  induction l as [|x l IH]; intros p lh Hlh; cbn [foldl list_to_set].
  { replace (parents lh ∪ (∅ ∩ dom (mapTx p))) with (parents lh) by set_solver. replace (mk_links (parents lh) (children lh)) with lh by (by destruct lh).
    rewrite insert_id by done. exists (cachedInnerUsage p). split; [by destruct p|apply same_usage_refl]. }
  destruct (mapTx p !! x) as [e|] eqn:Hx.
  - destruct (UpdateParent_spec h x true p lh Hlh) as (u1 & -> & Hu1). cbn [adjust] in *.
    destruct (IH (set_links p (<[h := mk_links ({[x]} ∪ parents lh) (children lh)]> (mapLinks p)) u1) (mk_links ({[x]} ∪ parents lh) (children lh))) as (u & -> & Hu).
    { cbn. apply lookup_insert_eq. }
    cbn [mapLinks mapTx set_links parents children] in *. rewrite insert_insert_eq in *.
    assert ({[x]} ∪ parents lh ∪ (list_to_set l ∩ dom (mapTx p)) = parents lh ∪ (({[x]} ∪ list_to_set l) ∩ dom (mapTx p))) as <- by (apply elem_of_dom_2 in Hx; set_solver).
    exists u. split; [done|by eapply same_usage_trans].
  - destruct (IH p lh Hlh) as (u & -> & Hu). assert (parents lh ∪ (list_to_set l ∩ dom (mapTx p)) = parents lh ∪ (({[x]} ∪ list_to_set l) ∩ dom (mapTx p))) as <-.
    { apply not_elem_of_dom in Hx. set_solver. }
    by exists u.
Qed.
End Pool.
