(* ===== verification/MempoolInv.v ===== *)
(** * The memory pool stays consistent

    The invariant of the pool, which is what [CTxMemPool::check] asserts and more,
    and that each operation keeps it without failing an assertion. *)
From S2P Require Import Prelude ArithUint256 Script Interpreter Serialize Transaction TxVerify Mempool MempoolFacts.

(** ** Integers *)

Lemma i64_add_l x y : i64 (i64 x + y) = i64 (x + y).
Proof.
  unfold i64, swrap. f_equal. transitivity (((x + 2 ^ (64 - 1)) mod 2 ^ 64 + y) mod 2 ^ 64); [f_equal; ring|].
  rewrite Zplus_mod_idemp_l. f_equal. ring.
Qed.
Lemma i64_add_r x y : i64 (x + i64 y) = i64 (x + y).
Proof. rewrite Z.add_comm, i64_add_l. f_equal. lia. Qed.
Lemma i64_i64 x : i64 (i64 x) = i64 x.
Proof. pose proof (i64_add_l x 0) as E. by rewrite !Z.add_0_r in E. Qed.
Lemma i64_opp x : i64 (- i64 x) = i64 (- x).
Proof.
  unfold i64, swrap. f_equal. transitivity ((2 * 2 ^ (64 - 1) - (x + 2 ^ (64 - 1)) mod 2 ^ 64) mod 2 ^ 64); [f_equal; ring|].
  rewrite Zminus_mod_idemp_r. f_equal. ring.
Qed.
Lemma i64_sub_r x y : i64 (x - i64 y) = i64 (x - y).
Proof. unfold Z.sub. rewrite <- (i64_add_r x (- i64 y)), i64_opp. apply i64_add_r. Qed.
Lemma i64_sub_l x y : i64 (i64 x - y) = i64 (x - y).
Proof. unfold Z.sub. apply i64_add_l. Qed.
Lemma i64_of_u64 x : i64 (u64 x) = i64 x.
Proof. unfold i64, u64, swrap, wrap. f_equal. rewrite Zplus_mod_idemp_l. done. Qed.

(** ** Paths *)

Lemma rtc_agree {A} (R R' : A → A → Prop) (P : A → Prop) x y :
  (∀ x y, P x → R x y ↔ R' x y) → (∀ x y, P x → R x y → P y) → P x → rtc R x y ↔ rtc R' x y.
Proof.
  intros Hag Hcl Hx. split; intros Hr; revert Hx.
  - induction Hr as [|x z y H _ IH]; intros Hx; [apply rtc_refl|]. eapply rtc_l; [by apply Hag|]. apply IH. by eapply Hcl.
  - induction Hr as [|x z y H _ IH]; intros Hx; [apply rtc_refl|]. apply (Hag x z Hx) in H. eapply rtc_l; [exact H|]. apply IH. by eapply Hcl.
Qed.

(** ** Entries without their running state *)

(** What an entry is, apart from what it records about ancestors and descendants. *)
Definition static (e : CTxMemPoolEntry) : CTxMemPoolEntry :=
  mk_entry (tx e) (nFee e) (nTxWeight e) (nUsageSize e) (nTime e) (entryHeight e) (spendsCoinbase e) (sigOpCost e) (feeDelta e) (nMinGasPrice e)
    0 0 0 0 0 0 0 (vTxHashesIdx e).
Definition ancestors_of (e : CTxMemPoolEntry) : Z * Z * Z * Z := (nCountWithAncestors e, nSizeWithAncestors e, nModFeesWithAncestors e, nSigOpCostWithAncestors e).
Definition descendants_of (e : CTxMemPoolEntry) : Z * Z * Z := (nCountWithDescendants e, nSizeWithDescendants e, nModFeesWithDescendants e).
Definition stat (p : CTxMemPool) : gmap uint256 CTxMemPoolEntry := static <$> mapTx p.
Lemma stat_dom p : dom (stat p) = dom (mapTx p).
Proof. apply dom_fmap_L. Qed.
Lemma stat_same_dom p q : stat p = stat q → dom (mapTx p) = dom (mapTx q).
Proof. intros H. by rewrite <- !stat_dom, H. Qed.
Lemma stat_lookup p q h e : stat p = stat q → mapTx p !! h = Some e → ∃ e', mapTx q !! h = Some e' ∧ static e' = static e.
Proof.
  intros Hs He. assert (stat q !! h = Some (static e)) as Hq by (rewrite <- Hs; unfold stat; by rewrite lookup_fmap, He).
  unfold stat in Hq. rewrite lookup_fmap in Hq. destruct (mapTx q !! h) as [e'|]; [|done]. cbn [fmap option_fmap option_map] in Hq. exists e'. split; congruence.
Qed.

Section Pool.
Context `{C : Crypto} (nB : Z) (node_usage : Z).
Implicit Types (p q : CTxMemPool) (m : gmap uint256 CTxMemPoolEntry).

(** ** The invariant *)

(** [a] is [x] or one of its ancestors. *)
Definition anc p (x a : uint256) : Prop := rtc (flip (parent p)) x a.
Definition prevouts (t : CTransaction) : list COutPoint := prevout <$> vin t.
(** A number of an entry; [m] is [stat] of the pool. *)
Definition value_at (m : gmap uint256 CTxMemPoolEntry) (f : CTxMemPoolEntry → Z) (h : uint256) : Z := from_option f 0 (m !! h).
Abbreviation size_at m := (value_at m (GetTxSize nB)).
Abbreviation fee_at m := (value_at m GetModifiedFee).
Abbreviation sigops_at m := (value_at m sigOpCost).

(** The links are those that the inputs give, in both directions and without cycles. *)
Record graph_ok p : Prop := {
  ok_links : links_ok p;
  ok_sym : ∀ a b, parent p a b ↔ child p a b;
  ok_acyclic : ∃ rank : uint256 → nat, ∀ a b, parent p a b → (rank a < rank b)%nat;
  ok_keys : ∀ h e, mapTx p !! h = Some e → GetHash (tx e) = h;
  ok_parents : ∀ h e, mapTx p !! h = Some e → ∀ a, parent p a h ↔ a ∈ dom (mapTx p) ∧ a ∈ (hash <$> prevouts (tx e))
}.
(** The state about ancestors and descendants. *)
Definition ancestors_state (m : gmap uint256 CTxMemPoolEntry) (s : Z * Z * Z * Z) (X : setEntries) : Prop :=
  s = (count X, set_sum (size_at m) X, i64 (set_sum (fee_at m) X), set_sum (sigops_at m) X).
Definition descendants_state (m : gmap uint256 CTxMemPoolEntry) (s : Z * Z * Z) (Y : setEntries) : Prop :=
  s = (count Y, set_sum (size_at m) Y, i64 (set_sum (fee_at m) Y)).
(** The entries record the ancestors and the descendants that a relation gives. *)
Definition ancestors_are p (m : gmap uint256 CTxMemPoolEntry) (PA : uint256 → uint256 → Prop) : Prop :=
  ∀ h e, mapTx p !! h = Some e → ∃ X : setEntries, (∀ a, a ∈ X ↔ PA h a) ∧ ancestors_state m (ancestors_of e) X.
Definition descendants_are p (m : gmap uint256 CTxMemPoolEntry) (PD : uint256 → uint256 → Prop) : Prop :=
  ∀ h e, mapTx p !! h = Some e → ∃ Y : setEntries, (∀ x, x ∈ Y ↔ PD h x) ∧ descendants_state m (descendants_of e) Y.
Definition states_ok p : Prop := ancestors_are p (stat p) (anc p) ∧ descendants_are p (stat p) (flip (anc p)).
(** Sizes and numbers that the assertions allow. *)
Definition small (m : gmap uint256 CTxMemPoolEntry) : Prop :=
  (∀ h e, m !! h = Some e → 0 < GetTxSize nB e ∧ 0 ≤ sigOpCost e) ∧
  set_sum (size_at m) (dom m) < 2 ^ 63 ∧ set_sum (sigops_at m) (dom m) < 2 ^ 31.
(** The index of the spent outputs, the list of hashes with each entry's place in it,
    and the totals. *)
Record store_ok p : Prop := {
  ok_dom : dom (mapLinks p) = dom (mapTx p);
  ok_next : ∀ o h, mapNextTx p !! o = Some h ↔ ∃ e, mapTx p !! h = Some e ∧ o ∈ prevouts (tx e);
  ok_place : ∀ h e, mapTx p !! h = Some e → vTxHashes p !! vTxHashesIdx e = Some (GetWitnessHash (tx e), h);
  ok_hash : ∀ i w h, vTxHashes p !! i = Some (w, h) → ∃ e, mapTx p !! h = Some e ∧ vTxHashesIdx e = i;
  ok_size : totalTxSize p = u64 (set_sum (size_at (stat p)) (dom (stat p)));
  ok_usage : cachedInnerUsage p = u64 (set_sum (value_at (stat p) nUsageSize) (dom (stat p)) + node_usage * link_nodes (mapLinks p))
}.
Definition deltas_ok p : Prop := ∀ h e, mapTx p !! h = Some e → feeDelta e = default 0 (mapDeltas p !! h).
(** All but the deltas, which are cleared before their transaction is removed. *)
Definition core_ok p : Prop := graph_ok p ∧ states_ok p ∧ small (stat p) ∧ store_ok p.
Definition pool_ok p : Prop := core_ok p ∧ deltas_ok p.

(** ** Consequences *)

Lemma anc_dom p x a : links_ok p → anc p x a → x = a ∨ (x ∈ dom (mapTx p) ∧ a ∈ dom (mapTx p)).
Proof.
  intros (Hd & Hp & _). induction 1 as [x|x y a H _ IH]; [by left|]. right. destruct H as (l & Hl & Hy).
  assert (x ∈ dom (mapTx p)) by (rewrite <- Hd; by eapply elem_of_dom_2). assert (y ∈ dom (mapTx p)) by (apply (Hp y x); by exists l).
  destruct IH as [->|[_ ?]]; done.
Qed.
Lemma anc_refl p x : anc p x x.
Proof. apply rtc_refl. Qed.
Lemma anc_acyclic p x a : graph_ok p → anc p x a → x ≠ a → ¬ anc p a x.
Proof.
  intros [_ _ [rank Hr] _ _] H1 Hne H2. assert (∀ x a, anc p x a → x = a ∨ (rank a < rank x)%nat) as Hlt.
  { clear -Hr. induction 1 as [x|x y a H _ IH]; [by left|]. right. specialize (Hr y x H). destruct IH as [->|]; lia. }
  destruct (Hlt _ _ H1), (Hlt _ _ H2); (congruence || lia).
Qed.
Lemma child_path p h x : (∀ a b, parent p a b ↔ child p a b) → rtc (child p) h x ↔ anc p x h.
Proof.
  intros Hs. unfold anc. split.
  - induction 1 as [|h y x H _ IH]; [apply rtc_refl|]. eapply rtc_r; [exact IH|]. by apply Hs.
  - induction 1 as [|x y h H _ IH]; [apply rtc_refl|]. eapply rtc_r; [exact IH|]. by apply Hs.
Qed.
Lemma value_at_Some m f h e : m !! h = Some e → value_at m f h = f e.
Proof. unfold value_at. by intros ->. Qed.
Lemma value_at_stat p f h e : mapTx p !! h = Some e → value_at (stat p) f h = f (static e).
Proof. intros He. apply value_at_Some. unfold stat. by rewrite lookup_fmap, He. Qed.
Lemma sizes_nonneg m : small m → (∀ h, 0 ≤ size_at m h) ∧ (∀ h, 0 ≤ sigops_at m h).
Proof. intros (H & _). split; intros h; unfold value_at; destruct (m !! h) as [e|] eqn:E; cbn; [|lia| |lia]; destruct (H h e E); lia. Qed.
Lemma size_pos m h : small m → h ∈ dom m → 0 < size_at m h.
Proof. intros (H & _) [e He]%elem_of_dom. rewrite (value_at_Some _ _ _ _ He). by apply (H h). Qed.
(** The bounds on sums over sets of entries; a set that is not empty has a positive size. *)
Lemma size_bounds m (X : setEntries) : small m → X ⊆ dom m →
  0 ≤ set_sum (size_at m) X < 2 ^ 63 ∧ 0 ≤ set_sum (sigops_at m) X < 2 ^ 31 ∧ 0 ≤ count X < 2 ^ 63.
Proof.
  intros Hs HX. pose proof (sizes_nonneg m Hs) as [N1 N2]. pose proof Hs as (_ & B1 & B2).
  pose proof (set_sum_subset (size_at m) X _ HX ltac:(auto)). pose proof (set_sum_subset (sigops_at m) X _ HX ltac:(auto)).
  pose proof (set_sum_nonneg (size_at m) X ltac:(auto)). pose proof (set_sum_nonneg (sigops_at m) X ltac:(auto)).
  assert (count X ≤ set_sum (size_at m) X); [|unfold count in *; lia].
  rewrite <- set_sum_const. apply sum_of_le. intros h Hh%elem_of_elements. pose proof (size_pos m h Hs (HX h Hh)). lia.
Qed.
Lemma size_pos_set m (X : setEntries) h : small m → X ⊆ dom m → h ∈ X → 0 < set_sum (size_at m) X ∧ 0 < count X.
Proof.
  intros Hs HX Hh. pose proof (sizes_nonneg m Hs) as [N1 _]. pose proof (size_pos m h Hs (HX h Hh)). split.
  - pose proof (set_sum_elem (size_at m) X h Hh ltac:(auto)). lia.
  - rewrite <- set_sum_const. pose proof (set_sum_elem (λ _, 1) X h Hh ltac:(intros; lia)) as H1. cbn in H1. lia.
Qed.

(** ** Updating the entries *)

(** The changes of the numbers that lead from the sums over a set to those over another. *)
Definition shifts (m : gmap uint256 CTxMemPoolEntry) (X : setEntries) (m' : gmap uint256 CTxMemPoolEntry) (X' : setEntries) (ms mf mc : Z) : Prop :=
  0 < set_sum (size_at m') X' < 2 ^ 63 ∧ 0 < count X' < 2 ^ 63 ∧ set_sum (size_at m) X + ms = set_sum (size_at m') X' ∧
  i64 (set_sum (fee_at m) X + mf) = i64 (set_sum (fee_at m') X') ∧ count X + mc = count X'.
Lemma positive_require {A} x (k : result mempool_error A) : 0 < x < 2 ^ 63 → (let* _ := require (i64 x >? 0) assertion_failed in k) = k.
Proof. intros H. rewrite i64_small by lia. by replace (x >? 0) with true by lia. Qed.
Lemma UpdateDescendantState_ok m e Y m' Y' ms mf mc : descendants_state m (descendants_of e) Y → shifts m Y m' Y' ms mf mc →
  ∃ e', UpdateDescendantState ms mf mc e = Ok e' ∧ descendants_state m' (descendants_of e') Y' ∧ static e' = static e ∧ ancestors_of e' = ancestors_of e.
Proof.
  intros [= H1 H2 H3] (B1 & B2 & E1 & E2 & E3). unfold UpdateDescendantState. rewrite H1, H2, H3, E1, E3, i64_add_l, E2, !u64_small by lia.
  rewrite !positive_require by done. eexists. split_and!; [done|done|done|done].
Qed.
Lemma UpdateAncestorState_ok m e X m' X' ms mf mc mo : ancestors_state m (ancestors_of e) X → shifts m X m' X' ms mf mc →
  set_sum (sigops_at m) X + mo = set_sum (sigops_at m') X' → 0 ≤ set_sum (sigops_at m') X' < 2 ^ 31 →
  ∃ e', UpdateAncestorState ms mf mc mo e = Ok e' ∧ ancestors_state m' (ancestors_of e') X' ∧ static e' = static e ∧ descendants_of e' = descendants_of e.
Proof.
  intros [= H1 H2 H3 H4] (B1 & B2 & E1 & E2 & E3) E4 B4. unfold UpdateAncestorState. rewrite H1, H2, H3, H4, E1, E3, E4, i64_add_l, E2, !u64_small by lia.
  rewrite !positive_require by done. rewrite (i64_small (set_sum (sigops_at m') X')), i32_small by lia.
  replace (set_sum (sigops_at m') X' >=? 0) with true by lia. cbn [require rbind]. eexists. split_and!; [done|done|done|done].
Qed.

(** Two pools with the same entries but for the state about descendants, or ancestors. *)
Definition same_but {A} (f : CTxMemPoolEntry → A) p q : Prop := stat q = stat p ∧ ∀ h e, mapTx q !! h = Some e → ∃ e0, mapTx p !! h = Some e0 ∧ f e = f e0.
Lemma modify_stat p (S : setEntries) f : (∀ a, a ∈ S → ∃ e e', mapTx p !! a = Some e ∧ f e = Ok e' ∧ static e' = static e) →
  ∃ m1, modify_all S f p = Ok (set_mapTx p m1) ∧ stat (set_mapTx p m1) = stat p ∧
    ∀ a e', m1 !! a = Some e' → ∃ e, mapTx p !! a = Some e ∧ (a ∈ S → f e = Ok e') ∧ (a ∉ S → e' = e).
Proof.
  intros Hf. destruct (modify_all_spec f p S) as (m1 & E & Hd & Hm). { intros a Ha. destruct (Hf a Ha) as (e & e' & ? & ? & _). eauto. }
  assert (∀ a e', m1 !! a = Some e' → ∃ e, mapTx p !! a = Some e ∧ (a ∈ S → f e = Ok e') ∧ (a ∉ S → e' = e)) as Hm'.
  { intros a e' Ha. pose proof (elem_of_dom_2 _ _ _ Ha) as Hin. rewrite Hd in Hin. apply elem_of_dom in Hin as [e He]. destruct (Hm a e He) as (e1 & He1 & ?).
    exists e. split; [done|]. by assert (e' = e1) as -> by congruence. }
  exists m1. split_and!; [done| |done]. unfold stat. cbn [mapTx set_mapTx]. apply map_eq. intros a. rewrite !lookup_fmap.
  destruct (m1 !! a) as [e'|] eqn:Ha.
  - destruct (Hm' a e' Ha) as (e & He & H1 & H2). rewrite He. cbn. f_equal. destruct (decide (a ∈ S)) as [Hin|Hin]; [|by rewrite (H2 Hin)].
    destruct (Hf a Hin) as (e0 & e0' & He0 & Hfe & Hs). assert (e0 = e) as -> by congruence. specialize (H1 Hin). by assert (e0' = e') as -> by congruence.
  - apply not_elem_of_dom in Ha. rewrite Hd in Ha. apply not_elem_of_dom in Ha. by rewrite Ha.
Qed.
Lemma modify_descendants_gen p m' (S : setEntries) ms mf mc (PD' : uint256 → uint256 → Prop) : S ⊆ dom (mapTx p) →
  (∀ a e, mapTx p !! a = Some e → ∃ Y' : setEntries, (∀ x, x ∈ Y' ↔ PD' a x) ∧
     if decide (a ∈ S) then ∃ m Y, descendants_state m (descendants_of e) Y ∧ shifts m Y m' Y' ms mf mc else descendants_state m' (descendants_of e) Y') →
  ∃ m1, modify_all S (UpdateDescendantState ms mf mc) p = Ok (set_mapTx p m1) ∧ same_but ancestors_of p (set_mapTx p m1) ∧ descendants_are (set_mapTx p m1) m' PD'.
Proof.
  intros HS Hstep. destruct (modify_stat p S (UpdateDescendantState ms mf mc)) as (m1 & E & Hst & Hm).
  { intros a Ha. pose proof (HS a Ha) as [e He]%elem_of_dom. destruct (Hstep a e He) as (Y' & HY' & Hsh). rewrite decide_True in Hsh by done. destruct Hsh as (m & Y & Hs & Hsh).
    destruct (UpdateDescendantState_ok _ _ _ _ _ _ _ _ Hs Hsh) as (e' & ? & _ & ? & _). eauto. }
  exists m1. split; [done|]. assert (∀ a e', m1 !! a = Some e' → ∃ e, mapTx p !! a = Some e ∧ ancestors_of e' = ancestors_of e ∧
    ∃ Y' : setEntries, (∀ x, x ∈ Y' ↔ PD' a x) ∧ descendants_state m' (descendants_of e') Y') as K.
  { intros a e' Ha. destruct (Hm a e' Ha) as (e & He & H1 & H2). exists e. split; [done|]. destruct (Hstep a e He) as (Y' & HY' & Hsh). case_decide as Hin.
    - destruct Hsh as (m & Y & Hs & Hsh). destruct (UpdateDescendantState_ok _ _ _ _ _ _ _ _ Hs Hsh) as (e1 & K1 & K2 & _ & K4). specialize (H1 Hin). assert (e' = e1) as -> by congruence. eauto.
    - rewrite (H2 Hin) in *. eauto. }
  split.
  - split; [done|]. intros a e' Ha. destruct (K a e' Ha) as (e & ? & ? & _). eauto.
  - intros a e' Ha. destruct (K a e' Ha) as (e & _ & _ & ?). eauto.
Qed.
Lemma modify_descendants p m (S : setEntries) ms mf mc PD PD' : descendants_are p m PD → S ⊆ dom (mapTx p) →
  (∀ a Y, a ∈ dom (mapTx p) → (∀ x, x ∈ Y ↔ PD a x) →
     if decide (a ∈ S) then ∃ Y', (∀ x, x ∈ Y' ↔ PD' a x) ∧ shifts m Y m Y' ms mf mc else (∀ x, x ∈ Y ↔ PD' a x)) →
  ∃ m1, modify_all S (UpdateDescendantState ms mf mc) p = Ok (set_mapTx p m1) ∧ same_but ancestors_of p (set_mapTx p m1) ∧ descendants_are (set_mapTx p m1) m PD'.
Proof.
  intros HD HS Hstep. apply modify_descendants_gen; [done|]. intros a e He. destruct (HD a e He) as (Y & HY & Hs).
  specialize (Hstep a Y (elem_of_dom_2 _ _ _ He) HY). case_decide; [|eauto]. destruct Hstep as (Y' & HY' & Hsh). eauto 6.
Qed.
Lemma modify_ancestors_gen p m' (S : setEntries) ms mf mc mo (PA' : uint256 → uint256 → Prop) : S ⊆ dom (mapTx p) →
  (∀ a e, mapTx p !! a = Some e → ∃ X' : setEntries, (∀ x, x ∈ X' ↔ PA' a x) ∧
     if decide (a ∈ S) then ∃ m X, ancestors_state m (ancestors_of e) X ∧ shifts m X m' X' ms mf mc ∧
       set_sum (sigops_at m) X + mo = set_sum (sigops_at m') X' ∧ 0 ≤ set_sum (sigops_at m') X' < 2 ^ 31
     else ancestors_state m' (ancestors_of e) X') →
  ∃ m1, modify_all S (UpdateAncestorState ms mf mc mo) p = Ok (set_mapTx p m1) ∧ same_but descendants_of p (set_mapTx p m1) ∧ ancestors_are (set_mapTx p m1) m' PA'.
Proof.
  intros HS Hstep. destruct (modify_stat p S (UpdateAncestorState ms mf mc mo)) as (m1 & E & Hst & Hm).
  { intros a Ha. pose proof (HS a Ha) as [e He]%elem_of_dom. destruct (Hstep a e He) as (Y' & HY' & Hsh). rewrite decide_True in Hsh by done. destruct Hsh as (m & Y & Hs & S1 & S2 & S3).
    destruct (UpdateAncestorState_ok _ _ _ _ _ _ _ _ _ Hs S1 S2 S3) as (e' & ? & _ & ? & _). eauto. }
  exists m1. split; [done|]. assert (∀ a e', m1 !! a = Some e' → ∃ e, mapTx p !! a = Some e ∧ descendants_of e' = descendants_of e ∧
    ∃ X' : setEntries, (∀ x, x ∈ X' ↔ PA' a x) ∧ ancestors_state m' (ancestors_of e') X') as K.
  { intros a e' Ha. destruct (Hm a e' Ha) as (e & He & H1 & H2). exists e. split; [done|]. destruct (Hstep a e He) as (Y' & HY' & Hsh). case_decide as Hin.
    - destruct Hsh as (m & Y & Hs & S1 & S2 & S3). destruct (UpdateAncestorState_ok _ _ _ _ _ _ _ _ _ Hs S1 S2 S3) as (e1 & K1 & K2 & _ & K4).
      specialize (H1 Hin). assert (e' = e1) as -> by congruence. eauto.
    - rewrite (H2 Hin) in *. eauto. }
  split.
  - split; [done|]. intros a e' Ha. destruct (K a e' Ha) as (e & ? & ? & _). eauto.
  - intros a e' Ha. destruct (K a e' Ha) as (e & _ & _ & ?). eauto.
Qed.
Lemma modify_ancestors p m (S : setEntries) ms mf mc mo PA PA' : ancestors_are p m PA → S ⊆ dom (mapTx p) →
  (∀ a X, a ∈ dom (mapTx p) → (∀ x, x ∈ X ↔ PA a x) →
     if decide (a ∈ S) then ∃ X', (∀ x, x ∈ X' ↔ PA' a x) ∧ shifts m X m X' ms mf mc ∧
       set_sum (sigops_at m) X + mo = set_sum (sigops_at m) X' ∧ 0 ≤ set_sum (sigops_at m) X' < 2 ^ 31
     else (∀ x, x ∈ X ↔ PA' a x)) →
  ∃ m1, modify_all S (UpdateAncestorState ms mf mc mo) p = Ok (set_mapTx p m1) ∧ same_but descendants_of p (set_mapTx p m1) ∧ ancestors_are (set_mapTx p m1) m PA'.
Proof.
  intros HA HS Hstep. apply modify_ancestors_gen; [done|]. intros a e He. destruct (HA a e He) as (X & HX & Hs).
  specialize (Hstep a X (elem_of_dom_2 _ _ _ He) HX). case_decide; [|eauto]. destruct Hstep as (X' & HX' & ? & ? & ?). eauto 9.
Qed.
End Pool.
