(* ===== verification/MempoolOps.v ===== *)
(** * The memory pool: adding and removing entries

    What the updates of ancestors and descendants do to the records of the entries,
    and that adding an entry, removing entries and changing a fee keep the invariant. *)
From S2P Require Import Prelude ArithUint256 Script Interpreter Serialize Transaction TxVerify Mempool MempoolFacts MempoolInv.

Section Pool.
Context `{C : Crypto} (nB : Z) (node_usage : Z).
Implicit Types (p q : CTxMemPool) (m : gmap uint256 CTxMemPoolEntry) (x h it : uint256) (S X Y : setEntries) (PA PD : uint256 → uint256 → Prop).
Abbreviation size_at m := (value_at m (GetTxSize nB)).
Abbreviation fee_at m := (value_at m GetModifiedFee).
Abbreviation sigops_at m := (value_at m sigOpCost).

(** ** One entry more, one entry less *)

Lemma shifts_add m (Y : setEntries) x : small nB m → {[x]} ∪ Y ⊆ dom m → x ∉ Y → shifts nB m Y m ({[x]} ∪ Y) (size_at m x) (fee_at m x) 1.
Proof.
  intros Hs HY Hx. pose proof (size_bounds nB m _ Hs HY) as (B1 & _ & B3). pose proof (size_pos_set nB m _ x Hs HY ltac:(set_solver)) as [P1 P2].
  rewrite !set_sum_insert, count_insert in * by done. unfold shifts. rewrite !set_sum_insert, count_insert by done. split_and!; try lia. f_equal. lia.
Qed.
Lemma shifts_remove m (Y : setEntries) x y : small nB m → Y ⊆ dom m → x ∈ Y → y ∈ Y → y ≠ x →
  shifts nB m Y m (Y ∖ {[x]}) (- size_at m x) (- fee_at m x) (-1).
Proof.
  intros Hs HY Hx Hy Hne. pose proof (size_bounds nB m (Y ∖ {[x]}) Hs ltac:(set_solver)) as (B1 & _ & B3).
  pose proof (size_pos_set nB m (Y ∖ {[x]}) y Hs ltac:(set_solver) ltac:(set_solver)) as [P1 P2].
  unfold shifts. rewrite !(set_sum_delete _ Y x), (count_delete Y x) in * by done. split_and!; try lia. f_equal. lia.
Qed.
Lemma shifts_fee m X m' X' ms mf mc : shifts nB m X m' X' ms mf mc → shifts nB m X m' X' ms (i64 mf) mc.
Proof. unfold shifts. by rewrite i64_add_r. Qed.

Lemma descendants_add p PD (S : setEntries) x : descendants_are nB p (stat p) PD → small nB (stat p) → S ⊆ dom (mapTx p) → x ∈ dom (mapTx p) →
  (∀ a y, a ∈ dom (mapTx p) → PD a y → y ∈ dom (mapTx p)) → (∀ a, a ∈ S → ¬ PD a x) →
  ∃ m1, modify_all S (UpdateDescendantState (size_at (stat p) x) (i64 (fee_at (stat p) x)) 1) p = Ok (set_mapTx p m1) ∧
    same_but ancestors_of p (set_mapTx p m1) ∧ descendants_are nB (set_mapTx p m1) (stat p) (λ a y, PD a y ∨ (a ∈ S ∧ y = x)).
Proof.
  intros HD Hs HS Hx Hdom Hno. apply (modify_descendants nB p (stat p) S _ _ _ PD); [done|done|].
  intros a Y Ha HY. case_decide as Hin.
  - exists ({[x]} ∪ Y). split; [intros y; specialize (HY y); set_solver|]. apply shifts_fee, shifts_add; [done| |].
    + rewrite stat_dom. intros y [->%elem_of_singleton|Hy]%elem_of_union; [done|]. by apply (Hdom a), HY.
    + intros Hxy%HY. by apply (Hno a).
  - intros y. specialize (HY y). set_solver.
Qed.
Lemma descendants_remove p PD (S : setEntries) x : descendants_are nB p (stat p) PD → small nB (stat p) → S ⊆ dom (mapTx p) →
  (∀ a y, a ∈ dom (mapTx p) → PD a y → y ∈ dom (mapTx p)) → (∀ a, a ∈ S → PD a x ∧ PD a a ∧ a ≠ x) →
  ∃ m1, modify_all S (UpdateDescendantState (- size_at (stat p) x) (i64 (- fee_at (stat p) x)) (-1)) p = Ok (set_mapTx p m1) ∧
    same_but ancestors_of p (set_mapTx p m1) ∧ descendants_are nB (set_mapTx p m1) (stat p) (λ a y, PD a y ∧ ¬ (a ∈ S ∧ y = x)).
Proof.
  intros HD Hs HS Hdom Hin. apply (modify_descendants nB p (stat p) S _ _ _ PD); [done|done|].
  intros a Y Ha HY. case_decide as HaS.
  - exists (Y ∖ {[x]}). split; [intros y; specialize (HY y); set_solver|]. destruct (Hin a HaS) as (H1 & H2 & H3).
    apply shifts_fee, (shifts_remove _ _ _ a); [done| |by apply HY|by apply HY|done]. rewrite stat_dom. intros y Hy. by apply (Hdom a), HY.
  - intros y. specialize (HY y). set_solver.
Qed.
Lemma ancestors_remove p PA (S : setEntries) x : ancestors_are nB p (stat p) PA → small nB (stat p) → S ⊆ dom (mapTx p) →
  (∀ a y, a ∈ dom (mapTx p) → PA a y → y ∈ dom (mapTx p)) → (∀ a, a ∈ S → PA a x ∧ PA a a ∧ a ≠ x) →
  ∃ m1, modify_all S (UpdateAncestorState (- size_at (stat p) x) (i64 (- fee_at (stat p) x)) (-1) (- sigops_at (stat p) x)) p = Ok (set_mapTx p m1) ∧
    same_but descendants_of p (set_mapTx p m1) ∧ ancestors_are nB (set_mapTx p m1) (stat p) (λ a y, PA a y ∧ ¬ (a ∈ S ∧ y = x)).
Proof.
  intros HD Hs HS Hdom Hin. apply (modify_ancestors nB p (stat p) S _ _ _ _ PA); [done|done|].
  intros a Y Ha HY. case_decide as HaS.
  - exists (Y ∖ {[x]}). split; [intros y; specialize (HY y); set_solver|]. destruct (Hin a HaS) as (H1 & H2 & H3).
    assert (Y ⊆ dom (stat p)) as HYd by (rewrite stat_dom; intros y Hy; by apply (Hdom a), HY).
    pose proof (size_bounds nB (stat p) (Y ∖ {[x]}) Hs ltac:(set_solver)) as (_ & B & _). split_and!; [|rewrite (set_sum_delete _ Y x) by (by apply HY); lia|lia|lia].
    apply shifts_fee, (shifts_remove _ _ _ a); [done|done|by apply HY|by apply HY|done].
  - intros y. specialize (HY y). set_solver.
Qed.

(** The records are kept by a change of the other half of the state. *)
Lemma ancestors_kept p q m PA : same_but ancestors_of p q → ancestors_are nB p m PA → ancestors_are nB q m PA.
Proof. intros (_ & H) HA h e He. destruct (H h e He) as (e0 & He0 & ->). by apply (HA h). Qed.
Lemma descendants_kept p q m PD : same_but descendants_of p q → descendants_are nB p m PD → descendants_are nB q m PD.
Proof. intros (_ & H) HA h e He. destruct (H h e He) as (e0 & He0 & ->). by apply (HA h). Qed.
Lemma ancestors_ext p m PA PA' : (∀ h a, h ∈ dom (mapTx p) → PA h a ↔ PA' h a) → ancestors_are nB p m PA → ancestors_are nB p m PA'.
Proof. intros H HA h e He. destruct (HA h e He) as (X & HX & Hs). exists X. split; [|done]. intros a. rewrite HX. apply H. by eapply elem_of_dom_2. Qed.
Lemma descendants_ext p m PD PD' : (∀ h a, h ∈ dom (mapTx p) → PD h a ↔ PD' h a) → descendants_are nB p m PD → descendants_are nB p m PD'.
Proof. intros H HA h e He. destruct (HA h e He) as (X & HX & Hs). exists X. split; [|done]. intros a. rewrite HX. apply H. by eapply elem_of_dom_2. Qed.

Lemma find_stat p h e : mapTx p !! h = Some e → find p h = Ok e ∧ GetTxSize nB e = size_at (stat p) h ∧ GetModifiedFee e = fee_at (stat p) h ∧ sigOpCost e = sigops_at (stat p) h.
Proof. intros He. unfold find. rewrite He. rewrite !(value_at_stat p _ h e He). done. Qed.

(** [UpdateAncestorsOf]: the links to the entry in its parents, and the state of its ancestors. *)
Lemma UpdateAncestorsOf_unfold add it X p e l : mapTx p !! it = Some e → mapLinks p !! it = Some l → parents l ⊆ dom (mapLinks p) → small nB (stat p) →
  ∃ lk u, same_usage node_usage p lk u ∧ changed_links (with_children (adjust add it)) (elements (parents l)) (mapLinks p) lk ∧
    UpdateAncestorsOf nB node_usage add it X p =
      modify_all X (UpdateDescendantState ((if add then 1 else -1) * size_at (stat p) it) (i64 ((if add then 1 else -1) * fee_at (stat p) it)) (if add then 1 else -1)) (set_links p lk u).
Proof.
  intros He Hl Hsub Hs. unfold UpdateAncestorsOf, GetMemPoolParents, GetLinks. rewrite Hl. cbn [rbind].
  destruct (fold_UpdateChild node_usage it add (elements (parents l)) p) as (lk & u & E & Hu & Hlk); [apply NoDup_elements|intros a; rewrite elem_of_elements; apply Hsub|].
  exists lk, u. split_and!; [done|done|]. rewrite E. destruct (find_stat p it e He) as (Hf & E1 & E2 & _). unfold find in *. cbn [mapTx set_links]. rewrite Hf. cbn [rbind].
  rewrite E1, E2. f_equal. f_equal. rewrite i64_of_u64, i64_small; [done|]. assert (it ∈ dom (stat p)) as Hd by (rewrite stat_dom; by eapply elem_of_dom_2).
  pose proof (size_bounds nB (stat p) {[it]} Hs ltac:(set_solver)) as (B & _). rewrite set_sum_singleton in B. destruct add; lia.
Qed.

(** ** Taking an entry out *)

(** The entries apart from their places in the list of hashes. *)
Definition unplaced p : gmap uint256 CTxMemPoolEntry := set_idx 0 <$> mapTx p.
Lemma unplaced_lookup p q h e : unplaced p = unplaced q → mapTx p !! h = Some e → ∃ e', mapTx q !! h = Some e' ∧ set_idx 0 e' = set_idx 0 e.
Proof.
  intros Hu He. assert (unplaced q !! h = Some (set_idx 0 e)) as Hq by (rewrite <- Hu; unfold unplaced; by rewrite lookup_fmap, He).
  unfold unplaced in Hq. rewrite lookup_fmap in Hq. destruct (mapTx q !! h) as [e'|]; [|done]. cbn [fmap option_fmap option_map] in Hq. exists e'. split; congruence.
Qed.
Lemma value_unplaced p f h : (∀ e, f (static e) = f (set_idx 0 e)) → value_at (stat p) f h = value_at (unplaced p) f h.
Proof. intros Hf. unfold value_at, stat, unplaced. rewrite !lookup_fmap. destruct (mapTx p !! h); cbn; [apply Hf|done]. Qed.
Lemma unplaced_dom p : dom (unplaced p) = dom (mapTx p).
Proof. apply dom_fmap_L. Qed.
(** The sum of a value that does not depend on the place, when an entry is gone. *)
Lemma value_sum_delete p q f it e : (∀ e, f (static e) = f (set_idx 0 e)) → unplaced q = delete it (unplaced p) → mapTx p !! it = Some e →
  set_sum (value_at (stat q) f) (dom (stat q)) = set_sum (value_at (stat p) f) (dom (stat p)) - f (set_idx 0 e).
Proof.
  intros Hf Hu He. rewrite !stat_dom, <- (unplaced_dom q), Hu, dom_delete_L, unplaced_dom. rewrite (set_sum_delete _ (dom (mapTx p)) it) by (by eapply elem_of_dom_2).
  rewrite (value_at_stat p f it e He), Hf. rewrite (set_sum_ext _ (value_at (stat p) f) (dom (mapTx p) ∖ {[it]})); [lia|].
  intros h Hh. rewrite !value_unplaced by done. unfold value_at. rewrite Hu, lookup_delete_ne by set_solver. done.
Qed.
Lemma link_nodes_delete (lk : gmap uint256 TxLinks) it l : lk !! it = Some l → link_nodes (delete it lk) = link_nodes lk - nodes l.
Proof.
  intros Hl. unfold link_nodes. rewrite dom_delete_L. rewrite (set_sum_delete _ (dom lk) it) by (by eapply elem_of_dom_2). rewrite Hl. cbn [from_option].
  rewrite (set_sum_ext _ (λ h, from_option nodes 0 (lk !! h)) (dom lk ∖ {[it]})); [lia|]. intros h Hh. by rewrite lookup_delete_ne by set_solver.
Qed.
Lemma foldl_delete_lookup (l : list COutPoint) : ∀ (next : gmap COutPoint uint256) (o : COutPoint), foldl (λ nx o, delete o nx) next l !! o = if decide (o ∈ l) then None else next !! o.
Proof.
  induction l as [|x l IH]; intros next o; cbn [foldl]; [by rewrite decide_False by apply not_elem_of_nil|]. rewrite IH. destruct (decide (o = x)) as [->|Hne].
  - rewrite lookup_delete_eq, (decide_True (P := x ∈ x :: l)) by apply list_elem_of_here. by case_decide.
  - rewrite lookup_delete_ne by done. case_decide; case_decide; set_solver.
Qed.

Section DropHash.
Context (p : CTxMemPool) (it : uint256) (e : CTxMemPoolEntry) (Hp : store_ok nB node_usage p) (He : mapTx p !! it = Some e).
Let v' := (drop_hash (vTxHashesIdx e) (vTxHashes p) (mapTx p)).1.
Let m' := delete it (drop_hash (vTxHashesIdx e) (vTxHashes p) (mapTx p)).2.

Lemma idx_eq h e1 i w : mapTx p !! h = Some e1 → vTxHashes p !! i = Some (w, h) → vTxHashesIdx e1 = i.
Proof. intros H1 H2. destruct (ok_hash _ _ _ Hp i w h H2) as (e2 & H3 & <-). congruence. Qed.
Lemma drop_hash_unplaced : set_idx 0 <$> m' = delete it (unplaced p).
Proof.
  unfold m', unplaced, drop_hash. rewrite fmap_delete. f_equal. destruct (1 <? length (vTxHashes p))%nat; [|done]. destruct (last (vTxHashes p)) as [b|]; [|done].
  cbn [snd]. apply map_eq. intros a. rewrite !lookup_fmap. destruct (decide (a = b.2)) as [->|]; [|by rewrite lookup_alter_ne by done].
  rewrite lookup_alter_eq. by destruct (mapTx p !! b.2).
Qed.
Lemma drop_hash_lookup h e1 : m' !! h = Some e1 → h ≠ it ∧ ∃ e0, mapTx p !! h = Some e0 ∧ tx e1 = tx e0 ∧
  (if decide (vTxHashesIdx e0 = length (vTxHashes p) - 1)%nat then vTxHashesIdx e1 = vTxHashesIdx e else vTxHashesIdx e1 = vTxHashesIdx e0).
Proof.
  unfold m'. intros [Hne Hl]%lookup_delete_Some. split; [done|]. pose proof (ok_place _ _ _ Hp) as Hpl. unfold drop_hash in Hl.
  destruct (Nat.ltb_spec 1 (length (vTxHashes p))) as [Hlen|Hlen].
  - destruct (last (vTxHashes p)) as [[w b]|] eqn:Hlast; [|apply last_None in Hlast; rewrite Hlast in Hlen; cbn in Hlen; lia]. cbn [snd] in Hl. rewrite last_lookup in Hlast.
    destruct (decide (h = b)) as [->|Hb].
    + rewrite lookup_alter_eq in Hl. destruct (mapTx p !! b) as [e0|] eqn:Hb; [|done]. cbn [fmap option_fmap option_map] in Hl. injection Hl as <-. exists e0. split_and!; [done|done|].
      rewrite decide_True; [done|]. rewrite (idx_eq b e0 _ w Hb Hlast). lia.
    + rewrite lookup_alter_ne in Hl by done. exists e1. split_and!; [done|done|]. rewrite decide_False; [done|]. intros Hi. pose proof (Hpl h e1 Hl) as Hpl1. rewrite Hi in Hpl1.
      replace (Nat.pred (length (vTxHashes p))) with (length (vTxHashes p) - 1)%nat in Hlast by lia. rewrite Hpl1 in Hlast. congruence.
  - exfalso. cbn [snd] in Hl. pose proof (Hpl h e1 Hl) as Hpl1. pose proof (Hpl it e He) as Hpl2. pose proof (lookup_lt_Some _ _ _ Hpl1). pose proof (lookup_lt_Some _ _ _ Hpl2).
    replace (vTxHashesIdx e1) with (vTxHashesIdx e) in Hpl1 by lia. congruence.
Qed.
Lemma drop_hash_list j : v' !! j = if decide (j < length (vTxHashes p) - 1)%nat then (if decide (j = vTxHashesIdx e) then last (vTxHashes p) else vTxHashes p !! j) else None.
Proof.
  pose proof (lookup_lt_Some _ _ _ (ok_place _ _ _ Hp it e He)) as Hi. unfold v', drop_hash. destruct (Nat.ltb_spec 1 (length (vTxHashes p))) as [Hlen|Hlen].
  - destruct (last (vTxHashes p)) as [b|] eqn:Hlast; [|apply last_None in Hlast; rewrite Hlast in Hlen; cbn in Hlen; lia]. cbn [fst]. case_decide as Hj.
    + rewrite lookup_take_lt by lia. case_decide as Hji; [subst j; by rewrite list_lookup_insert_eq by lia|by rewrite list_lookup_insert_ne by done].
    + apply lookup_ge_None_2. rewrite length_take, length_insert. lia.
  - cbn [fst]. case_decide; [lia|]. by rewrite lookup_nil.
Qed.
Lemma drop_hash_place h e1 : m' !! h = Some e1 → v' !! vTxHashesIdx e1 = Some (GetWitnessHash (tx e1), h).
Proof.
  intros Hl. destruct (drop_hash_lookup h e1 Hl) as (Hne & e0 & He0 & Ht & Hi). rewrite drop_hash_list, Ht. pose proof (ok_place _ _ _ Hp) as Hpl.
  pose proof (Hpl it e He) as Hit. pose proof (Hpl h e0 He0) as Hh. pose proof (lookup_lt_Some _ _ _ Hit). pose proof (lookup_lt_Some _ _ _ Hh).
  assert (vTxHashesIdx e0 ≠ vTxHashesIdx e) as Hd by (intros E; rewrite E in Hh; congruence). case_decide as Hc.
  - rewrite Hi, decide_True, decide_True by lia. rewrite last_lookup. replace (Nat.pred (length (vTxHashes p))) with (vTxHashesIdx e0) by lia. done.
  - rewrite Hi, decide_True, decide_False by lia. done.
Qed.
Lemma drop_hash_hash j w h : v' !! j = Some (w, h) → ∃ e1, m' !! h = Some e1 ∧ vTxHashesIdx e1 = j.
Proof.
  rewrite drop_hash_list. case_decide as Hj; [|done]. intros Hv. pose proof (ok_place _ _ _ Hp it e He) as Hit.
  assert (∃ i, vTxHashes p !! i = Some (w, h) ∧ i ≠ vTxHashesIdx e ∧ (if decide (i = length (vTxHashes p) - 1)%nat then j = vTxHashesIdx e else j = i)) as (i & Hi & Hie & Hc).
  { case_decide as Hje; [|exists j; split_and!; [done|done|by rewrite decide_False by lia]]. exists (length (vTxHashes p) - 1)%nat. rewrite last_lookup in Hv.
    split_and!; [by replace (length (vTxHashes p) - 1)%nat with (Nat.pred (length (vTxHashes p))) by lia|lia|by rewrite decide_True]. }
  destruct (ok_hash _ _ _ Hp i w h Hi) as (e0 & He0 & Hi0). assert (h ≠ it) as Hne by (intros ->; congruence).
  assert (is_Some (m' !! h)) as [e1 He1].
  { unfold m'. rewrite lookup_delete_ne by done. unfold drop_hash. destruct (1 <? _)%nat; [|by exists e0]. destruct (last _) as [b|]; [|by exists e0]. cbn [snd].
    destruct (decide (h = b.2)) as [->|]; [rewrite lookup_alter_eq|rewrite lookup_alter_ne by done]; rewrite He0; by eexists. }
  exists e1. split; [done|]. destruct (drop_hash_lookup h e1 He1) as (_ & e0' & He0' & _ & Hx). assert (e0' = e0) as -> by congruence. rewrite Hi0 in Hx. case_decide; congruence.
Qed.
End DropHash.

Lemma removeUnchecked_ok p it : store_ok nB node_usage p → it ∈ dom (mapTx p) →
  ∃ q, removeUnchecked nB node_usage it p = Ok q ∧ store_ok nB node_usage q ∧
    unplaced q = delete it (unplaced p) ∧ mapLinks q = delete it (mapLinks p) ∧ mapDeltas q = mapDeltas p.
Proof.
  intros Hp Hin. pose proof Hin as [e He]%elem_of_dom. rewrite <- (ok_dom _ _ _ Hp) in Hin. apply elem_of_dom in Hin as [l Hl].
  pose proof (drop_hash_unplaced p it e) as Hu. pose proof (drop_hash_lookup p it e Hp He) as Hlk. pose proof (drop_hash_place p it e Hp He) as Hpl.
  pose proof (drop_hash_hash p it e Hp He) as Hha.
  unfold removeUnchecked, find, links_at. rewrite He, Hl. cbn [rbind]. destruct (drop_hash (vTxHashesIdx e) (vTxHashes p) (mapTx p)) as [v m] eqn:Ed. cbn [fst snd] in *.
  eexists. split; [done|]. set (q := mk_pool _ _ _ _ _ _ _ _). assert (unplaced q = delete it (unplaced p)) as Huq by exact Hu. split; [|done].
  constructor; cbn [mapLinks mapTx mapNextTx vTxHashes totalTxSize cachedInnerUsage q].
  - rewrite dom_delete_L, (ok_dom _ _ _ Hp). change (delete it m) with (mapTx q). by rewrite <- (unplaced_dom q), Huq, dom_delete_L, unplaced_dom.
  - intros o h. rewrite foldl_delete_lookup. fold (prevouts (tx e)). pose proof (ok_next _ _ _ Hp) as Hn. split.
    + case_decide as Ho; [done|]. intros (e0 & He0 & Ho0)%Hn. assert (h ≠ it) as Hne by (intros ->; congruence).
      destruct (delete it m !! h) as [e1|] eqn:E1.
      * exists e1. split; [done|]. destruct (Hlk h e1 E1) as (_ & e0' & He0' & -> & _). congruence.
      * apply not_elem_of_dom in E1. exfalso. apply E1. change (delete it m) with (mapTx q). rewrite <- (unplaced_dom q), Huq, dom_delete_L, unplaced_dom. apply elem_of_dom_2 in He0. set_solver.
    + intros (e1 & He1 & Ho). destruct (Hlk h e1 He1) as (Hne & e0 & He0 & Ht & _). rewrite Ht in Ho. assert (mapNextTx p !! o = Some h) as Hoh by (apply Hn; eauto).
      rewrite decide_False; [done|]. intros Ho'. assert (mapNextTx p !! o = Some it) by (apply Hn; eauto). congruence.
  - exact Hpl.
  - exact Hha.
  - rewrite (value_sum_delete p q (GetTxSize nB) it e) by done. rewrite (ok_size _ _ _ Hp), u64_sub_l. done.
  - rewrite (value_sum_delete p q nUsageSize it e) by done. rewrite (link_nodes_delete _ _ _ Hl), (ok_usage _ _ _ Hp), u64_sub_l, u64_sub_r, <- Z.sub_add_distr, u64_sub_l. unfold nodes. cbn [nUsageSize set_idx]. f_equal. cbn [default from_option id]. lia.
Qed.

(** The entries of a set. *)
Definition taken_out p q (D : setEntries) : Prop := store_ok nB node_usage q ∧ mapDeltas q = mapDeltas p ∧
  (∀ a, unplaced q !! a = if decide (a ∈ D) then None else unplaced p !! a) ∧ (∀ a, mapLinks q !! a = if decide (a ∈ D) then None else mapLinks p !! a).
Lemma remove_all_ok p (S : setEntries) : store_ok nB node_usage p → S ⊆ dom (mapTx p) →
  ∃ q, fold_result (λ p it, removeUnchecked nB node_usage it p) p (elements S) = Ok q ∧ taken_out p q S.
Proof.
  intros Hp HS. apply (fold_set_ind _ (taken_out p)); unfold taken_out.
  - split_and!; [done|done|..]; intros a; by rewrite decide_False by set_solver.
  - intros q D x (Hq & Hd & Hu & Hl) HD Hx HxD. destruct (removeUnchecked_ok q x Hq) as (q' & -> & Hq' & Hu' & Hl' & Hd').
    { rewrite <- unplaced_dom. apply elem_of_dom. rewrite Hu, decide_False by done. apply elem_of_dom. rewrite unplaced_dom. by apply HS. }
    exists q'. split_and!; [done|done|congruence|..]; intros a; rewrite ?Hu', ?Hl'; (destruct (decide (a = x)) as [->|Hne];
      [rewrite lookup_delete_eq, decide_True by set_solver; done|rewrite lookup_delete_ne by done; rewrite ?Hu, ?Hl; case_decide; case_decide; set_solver]).
Qed.

(** ** Taking out what has been detached *)

(** Only the links and the records of the entries differ. *)
Record same_store p q : Prop := {
  ss_stat : stat q = stat p;
  ss_next : mapNextTx q = mapNextTx p; ss_hashes : vTxHashes q = vTxHashes p; ss_size : totalTxSize q = totalTxSize p; ss_deltas : mapDeltas q = mapDeltas p;
  ss_dom : dom (mapLinks q) = dom (mapLinks p);
  ss_usage : same_usage node_usage p (mapLinks q) (cachedInnerUsage q)
}.
Lemma same_store_refl p : same_store p p.
Proof. constructor; try done. apply same_usage_refl. Qed.
Lemma same_store_trans p q r : same_store p q → same_store q r → same_store p r.
Proof. intros [] []. constructor; try congruence. intros c Hc. auto. Qed.
(** The pool [q], in which the links and the state no longer mention [S]. *)
Record detached p q (S : setEntries) : Prop := {
  det_store : same_store p q;
  det_parent : ∀ a b, b ∉ S → parent q a b ↔ parent p a b ∧ a ∉ S;
  det_child : ∀ a b, a ∉ S → child q a b ↔ child p a b ∧ b ∉ S;
  det_anc : ∃ PA, ancestors_are nB q (stat p) PA ∧ ∀ h a, h ∉ S → PA h a ↔ anc p h a ∧ a ∉ S;
  det_desc : ∃ PD, descendants_are nB q (stat p) PD ∧ ∀ h a, h ∉ S → PD h a ↔ anc p a h ∧ a ∉ S;
  det_convex : ∀ x a, x ∉ S → a ∉ S → anc p x a → rtc (λ x y, parent p y x ∧ y ∉ S) x a
}.
(** What is left of [p] without [S]. *)
Definition base (e : CTxMemPoolEntry) : CTxMemPoolEntry := set_idx 0 (static e).
Record remains p q (S : setEntries) : Prop := {
  rem_entry : ∀ a, base <$> mapTx q !! a = if decide (a ∈ S) then None else base <$> mapTx p !! a;
  rem_parent : ∀ a b, parent q a b ↔ parent p a b ∧ a ∉ S ∧ b ∉ S;
  rem_deltas : mapDeltas q = mapDeltas p
}.
Lemma remains_dom p q S : remains p q S → dom (mapTx q) = dom (mapTx p) ∖ S.
Proof.
  intros [H _ _]. apply set_eq. intros a. specialize (H a). rewrite elem_of_difference, !elem_of_dom.
  destruct (mapTx q !! a), (mapTx p !! a); cbn in H; case_decide; (naive_solver || (split; [intros [? ?]|intros [[? ?] ?]]; done)).
Qed.
Lemma remains_lookup p q S h e : remains p q S → mapTx q !! h = Some e → h ∉ S ∧ ∃ e0, mapTx p !! h = Some e0 ∧ base e = base e0.
Proof.
  intros [H _ _] He. specialize (H h). rewrite He in H. case_decide; [done|]. split; [done|]. destruct (mapTx p !! h) as [e0|]; [|done].
  cbn [fmap option_fmap option_map] in H. exists e0. split; congruence.
Qed.
Lemma remains_value p q S f h : (∀ e, f e = f (base e)) → remains p q S → h ∉ S → value_at (stat q) f h = value_at (stat p) f h.
Proof.
  intros Hf [H _ _] Hh. specialize (H h). rewrite decide_False in H by done. unfold value_at, stat. rewrite !lookup_fmap.
  destruct (mapTx q !! h) as [e|], (mapTx p !! h) as [e0|]; try done. cbn [fmap option_fmap option_map from_option] in *.
  assert (base e = base e0) as E by congruence. rewrite (Hf (static e)), (Hf (static e0)). change (f (base e) = f (base e0)). by rewrite E.
Qed.
Lemma remains_anc p q S : remains p q S → (∀ x a, x ∉ S → a ∉ S → anc p x a → rtc (λ x y, parent p y x ∧ y ∉ S) x a) →
  ∀ x a, anc q x a ↔ x = a ∨ (x ∉ S ∧ a ∉ S ∧ anc p x a).
Proof.
  intros [_ Hr _] Hconv x a. split.
  - induction 1 as [|x y a H _ IH]; [by left|]. apply Hr in H as (H & Hy & Hx). right. destruct IH as [<-|(_ & Ha & IH)]; split_and!; try done; [by eapply rtc_l, rtc_refl|by eapply rtc_l].
  - intros [->|(Hx & Ha & H)]; [apply rtc_refl|]. apply Hconv in H; [|done..]. clear Ha. induction H as [|x y a [H Hy] _ IH]; [apply rtc_refl|].
    eapply rtc_l; [|by apply IH]. by apply Hr.
Qed.

Lemma detached_store p q S : detached p q S → store_ok nB node_usage p → store_ok nB node_usage q.
Proof.
  intros HD [K1 K2 K3 K4 K5 K6]. pose proof (ss_stat _ _ (det_store _ _ _ HD)) as Hst. constructor.
  - by rewrite (ss_dom _ _ (det_store _ _ _ HD)), (stat_same_dom _ _ Hst).
  - intros o h. rewrite (ss_next _ _ (det_store _ _ _ HD)), K2. split; intros (e & He & Ho).
    + destruct (stat_lookup p q h e (eq_sym Hst) He) as (e' & He' & Hs). exists e'. split; [done|]. by injection Hs as ->.
    + destruct (stat_lookup q p h e Hst He) as (e' & He' & Hs). exists e'. split; [done|]. by injection Hs as ->.
  - intros h e He. destruct (stat_lookup q p h e Hst He) as (e' & He' & Hs). rewrite (ss_hashes _ _ (det_store _ _ _ HD)). injection Hs as Ht _ _ _ _ _ _ _ _ _ Hi. rewrite <- Ht, <- Hi. by apply K3.
  - intros i w h Hv. rewrite (ss_hashes _ _ (det_store _ _ _ HD)) in Hv. destruct (K4 i w h Hv) as (e & He & Hi). destruct (stat_lookup p q h e (eq_sym Hst) He) as (e' & He' & Hs).
    exists e'. split; [done|]. injection Hs as _ _ _ _ _ _ _ _ _ _ Hs. congruence.
  - by rewrite (ss_size _ _ (det_store _ _ _ HD)), Hst.
  - rewrite Hst. by apply (ss_usage _ _ (det_store _ _ _ HD)).
Qed.
Lemma detached_remains p q q' S : detached p q S → taken_out q q' S → remains p q' S.
Proof.
  intros HD (_ & Hd & Hu & Hl). constructor.
  - intros a. specialize (Hu a). unfold unplaced in Hu. rewrite !lookup_fmap in Hu. assert (base <$> mapTx q' !! a = if decide (a ∈ S) then None else base <$> mapTx q !! a) as ->.
    { assert (∀ o : option CTxMemPoolEntry, base <$> o = static <$> (set_idx 0 <$> o)) as Hb by (intros [?|]; done). rewrite !Hb, Hu. by case_decide. }
    case_decide; [done|]. pose proof (f_equal (lookup a) (ss_stat _ _ (det_store _ _ _ HD))) as Hs. unfold stat in Hs. rewrite !lookup_fmap in Hs.
    assert (∀ o : option CTxMemPoolEntry, base <$> o = set_idx 0 <$> (static <$> o)) as Hb by (intros [?|]; done). by rewrite !Hb, Hs.
  - intros a b. unfold parent at 1. rewrite Hl. case_decide as Hb; [naive_solver|]. change (parent q a b ↔ parent p a b ∧ a ∉ S ∧ b ∉ S). rewrite (det_parent _ _ _ HD) by done. naive_solver.
  - by rewrite Hd, (ss_deltas _ _ (det_store _ _ _ HD)).
Qed.

Lemma taken_out_child p q q' S a b : detached p q S → taken_out q q' S → child q' a b ↔ child p a b ∧ a ∉ S ∧ b ∉ S.
Proof.
  intros HD (_ & _ & _ & Hl). unfold child at 1. rewrite Hl. case_decide as Ha; [naive_solver|].
  change (child q a b ↔ child p a b ∧ a ∉ S ∧ b ∉ S). rewrite (det_child _ _ _ HD) by done. naive_solver.
Qed.
Lemma taken_out_graph p q q' S : graph_ok p → detached p q S → taken_out q q' S → graph_ok q'.
Proof.
  intros [(G0 & G1 & G2) G3 [rank G4] G5 G6] HD HT. pose proof (detached_remains _ _ _ _ HD HT) as HR. pose proof (remains_dom _ _ _ HR) as Hdom.
  pose proof (rem_parent _ _ _ HR) as Hpar. pose proof (λ a b, taken_out_child _ _ _ _ a b HD HT) as Hch. constructor.
  - split_and!; [apply HT|..]; intros a b H; rewrite Hdom.
    + apply Hpar in H as (H & ? & ?). apply G1 in H. set_solver.
    + apply Hch in H as (H & ? & ?). apply G2 in H. set_solver.
  - intros a b. by rewrite Hpar, Hch, G3.
  - exists rank. intros a b (H & _)%Hpar. by apply G4.
  - intros h e He. destruct (remains_lookup _ _ _ _ _ HR He) as (_ & e0 & He0 & Hb). injection Hb as -> _ _ _ _ _ _ _ _ _. by apply G5.
  - intros h e He a. destruct (remains_lookup _ _ _ _ _ HR He) as (Hh & e0 & He0 & Hb). injection Hb as -> _ _ _ _ _ _ _ _ _.
    rewrite Hpar, (G6 h e0 He0), Hdom. set_solver.
Qed.
Lemma remains_small p q S : remains p q S → small nB (stat p) → small nB (stat q).
Proof.
  intros HR Hs. assert (∀ f, (∀ e, f e = f (base e)) → (∀ h, 0 ≤ value_at (stat p) f h) → set_sum (value_at (stat q) f) (dom (stat q)) ≤ set_sum (value_at (stat p) f) (dom (stat p))) as Hle.
  { intros f Hf Hn. rewrite !stat_dom, (remains_dom _ _ _ HR). rewrite (set_sum_ext _ (value_at (stat p) f)) by (intros h Hh; apply (remains_value _ _ _ _ _ Hf HR); set_solver).
    apply set_sum_subset; [set_solver|auto]. }
  pose proof (sizes_nonneg nB (stat p) Hs) as [N1 N2]. destruct Hs as (K1 & K2 & K3). split_and!.
  - intros h e He. unfold stat in He. rewrite lookup_fmap in He. destruct (mapTx q !! h) as [e1|] eqn:E1; [|done]. cbn [fmap option_fmap option_map] in He. injection He as <-.
    destruct (remains_lookup _ _ _ _ _ HR E1) as (_ & e0 & He0 & Hb). destruct (K1 h (static e0)) as [P1 P2]; [unfold stat; by rewrite lookup_fmap, He0|].
    change (0 < GetTxSize nB (base e0) ∧ 0 ≤ sigOpCost (base e0)) in P1 || idtac. change (0 < GetTxSize nB (base e1) ∧ 0 ≤ sigOpCost (base e1)). rewrite Hb. by split.
  - eapply Z.le_lt_trans; [|exact K2]. by apply Hle.
  - eapply Z.le_lt_trans; [|exact K3]. by apply Hle.
Qed.
Lemma remains_sums p q S (X : setEntries) : remains p q S → (∀ a, a ∈ X → a ∉ S) →
  (∀ s, ancestors_state nB (stat p) s X → ancestors_state nB (stat q) s X) ∧ (∀ s, descendants_state nB (stat p) s X → descendants_state nB (stat q) s X).
Proof.
  intros HR HX. assert (∀ f, (∀ e, f e = f (base e)) → set_sum (value_at (stat p) f) X = set_sum (value_at (stat q) f) X) as E.
  { intros f Hf. apply set_sum_ext. intros h Hh. symmetry. apply (remains_value _ _ _ _ _ Hf HR). by apply HX. }
  split; intros s; unfold ancestors_state, descendants_state; by rewrite !E.
Qed.
Lemma taken_out_state p q q' S : graph_ok p → detached p q S → taken_out q q' S → states_ok nB q'.
Proof.
  intros HG HD HT. pose proof (detached_remains _ _ _ _ HD HT) as HR. pose proof (remains_anc _ _ _ HR (det_convex _ _ _ HD)) as Hanc.
  assert (∀ h e, mapTx q' !! h = Some e → ∃ e1, mapTx q !! h = Some e1 ∧ set_idx 0 e1 = set_idx 0 e) as Hold.
  { intros h e He. destruct HT as (_ & _ & Hu & _). specialize (Hu h). unfold unplaced in Hu. rewrite !lookup_fmap, He in Hu. case_decide; [done|].
    destruct (mapTx q !! h) as [e1|]; [|done]. cbn [fmap option_fmap option_map] in Hu. exists e1. split; congruence. }
  split; intros h e He; destruct (remains_lookup _ _ _ _ _ HR He) as (Hh & _); destruct (Hold h e He) as (e1 & He1 & Hs).
  - destruct (det_anc _ _ _ HD) as (PA & HA & HPA). destruct (HA h e1 He1) as (X & HX & Hst). exists X. split.
    + intros a. rewrite HX, (HPA h a Hh), Hanc. split; [intros [??]; by right|]. intros [<-|(_ & ? & ?)]; [split; [apply anc_refl|done]|done].
    + apply (remains_sums _ _ _ _ HR); [intros a Ha; by apply HX, (HPA h a Hh) in Ha as [_ Ha]|]. replace (ancestors_of e) with (ancestors_of e1); [done|].
      change (ancestors_of (set_idx 0 e1) = ancestors_of (set_idx 0 e)). by rewrite Hs.
  - destruct (det_desc _ _ _ HD) as (PD & HA & HPD). destruct (HA h e1 He1) as (X & HX & Hst). exists X. split.
    + intros a. unfold flip. rewrite HX, (HPD h a Hh), Hanc. split; [intros [??]; by right|]. intros [<-|(? & _ & ?)]; [split; [apply anc_refl|done]|done].
    + apply (remains_sums _ _ _ _ HR); [intros a Ha; by apply HX, (HPD h a Hh) in Ha as [_ Ha]|]. replace (descendants_of e) with (descendants_of e1); [done|].
      change (descendants_of (set_idx 0 e1) = descendants_of (set_idx 0 e)). by rewrite Hs.
Qed.
Lemma taken_out_core p q S : core_ok nB node_usage p → detached p q S → S ⊆ dom (mapTx p) →
  ∃ q', fold_result (λ p it, removeUnchecked nB node_usage it p) q (elements S) = Ok q' ∧ core_ok nB node_usage q' ∧ remains p q' S.
Proof.
  intros (HG & HS & Hsm & Hst) HD Hsub. destruct (remove_all_ok q S) as (q' & E & HT).
  { by eapply detached_store. } { by rewrite (stat_same_dom _ _ (ss_stat _ _ (det_store _ _ _ HD))). }
  pose proof (detached_remains _ _ _ _ HD HT) as HR. exists q'. split_and!; [done| |done].
  split_and!; [by eapply taken_out_graph|by eapply taken_out_state|by eapply remains_small|apply HT].
Qed.
End Pool.
