(* ===== verification/MempoolRemove.v ===== *)
(** * The memory pool: removing transactions

    [RemoveStaged] on a set that is closed under descendants and on a transaction
    without parents in the pool, and [PrioritiseTransaction]. *)
From S2P Require Import Prelude ArithUint256 Script Interpreter Serialize Transaction TxVerify Mempool MempoolFacts MempoolInv MempoolOps.

Section Pool.
Context `{C : Crypto} (nB : Z) (node_usage : Z).
Implicit Types (p q : CTxMemPool) (m : gmap uint256 CTxMemPoolEntry) (x h it : uint256) (S X Y : setEntries) (PA PD : uint256 → uint256 → Prop).
Abbreviation size_at m := (value_at m (GetTxSize nB)).
Abbreviation fee_at m := (value_at m GetModifiedFee).
Abbreviation sigops_at m := (value_at m sigOpCost).

(** ** The walks in a consistent pool *)

Lemma strict_anc p x a : (∃ rank : uint256 → nat, ∀ a b, parent p a b → (rank a < rank b)%nat) → (∃ y, parent p y x ∧ anc p y a) ↔ anc p x a ∧ a ≠ x.
Proof.
  intros [rank Hr]. split.
  - intros (y & Hy & Ha). split; [by eapply rtc_l|]. intros ->. assert (∀ y z, anc p y z → (rank z ≤ rank y)%nat) as Hle.
    { clear -Hr. induction 1 as [|y z w H _ IH]; [done|]. specialize (Hr z y H). lia. }
    apply Hle in Ha. apply Hr in Hy. lia.
  - intros [Ha Hne]. inversion Ha as [|? y ? H1 H2]; subst; [done|]. by exists y.
Qed.
Lemma ancestors_found p x e : links_ok p → (∃ rank : uint256 → nat, ∀ a b, parent p a b → (rank a < rank b)%nat) → mapTx p !! x = Some e → GetHash (tx e) = x →
  ∃ X, CalculateMemPoolAncestors nB p e no_limits false = Ok (None, X) ∧ ∀ a, a ∈ X ↔ anc p x a ∧ a ≠ x.
Proof.
  intros Hok Hac He Hk. destruct (links_Some p x Hok) as (e' & l & _ & Hl); [by eapply elem_of_dom_2|]. unfold CalculateMemPoolAncestors, GetMemPoolParents, GetLinks. rewrite Hk, Hl. cbn [rbind].
  destruct (walk_ancestors_spec nB p e no_limits (parents l) Hok (base.size (mapTx p)) (parents l) ∅ (GetTxSize nB e)) as (r & X & E & HX & Hr).
  { apply walk_start. } { destruct Hok as (_ & Hp & _). intros a Ha. apply (Hp a x). exists l. set_solver. } { rewrite size_dom, size_empty. done. }
  rewrite E, (Hr eq_refl). exists X. split; [done|]. intros a. rewrite (HX (Hr eq_refl) a), <- strict_anc by done. setoid_rewrite (parent_links p x l Hl). done.
Qed.
Lemma descendants_found p (roots done : setEntries) x : links_ok p → closure (child p) roots done → done ⊆ dom (mapTx p) → x ∈ dom (mapTx p) →
  ∃ Y, CalculateDescendants p x done = Ok Y ∧ closure (child p) ({[x]} ∪ roots) Y ∧ Y ⊆ dom (mapTx p).
Proof.
  intros Hok Hcl Hsub Hx. unfold CalculateDescendants. apply walk_descendants_spec; [done|by apply walk_restart| |rewrite size_dom; lia].
  case_bool_decide; set_solver.
Qed.
Lemma links_ok_same p q : links_ok p → dom (mapTx q) = dom (mapTx p) → dom (mapLinks q) = dom (mapLinks p) →
  (∀ a b, parent q a b → parent p a b) → (∀ a b, child q a b → child p a b) → links_ok q.
Proof. intros (H1 & H2 & H3) E1 E2 Hp Hc. split_and!; [congruence|..]; intros a b H; rewrite E1; eauto. Qed.
Lemma anc_same p q x a : (∀ a b, parent q a b ↔ parent p a b) → anc q x a ↔ anc p x a.
Proof. intros H. apply (rtc_agree _ _ (λ _, True)); [|done|done]. intros ? ? _. apply H. Qed.
Lemma changed_child p q g l a b : changed_links g l (mapLinks p) (mapLinks q) → child q a b ↔ ∃ lk, mapLinks p !! a = Some lk ∧ b ∈ children (if decide (a ∈ l) then g lk else lk).
Proof. intros H. unfold child. rewrite (H a). case_decide; [|done]. destruct (mapLinks p !! a) as [lk|]; cbn; naive_solver. Qed.
Lemma changed_parent p q g l a b : changed_links g l (mapLinks p) (mapLinks q) → parent q a b ↔ ∃ lk, mapLinks p !! b = Some lk ∧ a ∈ parents (if decide (b ∈ l) then g lk else lk).
Proof. intros H. unfold parent. rewrite (H b). case_decide; [|done]. destruct (mapLinks p !! b) as [lk|]; cbn; naive_solver. Qed.

(** ** A set that is closed under descendants *)

(** After the second loop has been through [D]. *)
Record staged p q (D : setEntries) : Prop := {
  st_store : same_store node_usage p q;
  st_parent : ∀ a b, parent q a b ↔ parent p a b;
  st_child : ∀ a b, child q a b ↔ child p a b ∧ b ∉ D;
  st_anc : ancestors_are nB q (stat p) (anc p);
  st_desc : descendants_are nB q (stat p) (λ h y, anc p y h ∧ ¬ (y ∈ D ∧ y ≠ h))
}.
Lemma staged_links p q D : links_ok p → staged p q D → links_ok q.
Proof.
  intros Hok [Hss Hp Hc _ _]. eapply links_ok_same; [exact Hok|by rewrite (stat_same_dom _ _ (ss_stat _ _ _ Hss))|apply Hss|intros a b; apply Hp|intros a b; apply Hc].
Qed.
Lemma anc_in_dom p h y : graph_ok p → h ∈ dom (mapTx p) → anc p y h → y ∈ dom (mapTx p).
Proof. intros HG Hh Ha. destruct (anc_dom p y h (ok_links _ HG) Ha) as [->|[? _]]; done. Qed.
Lemma staged_step p q D x : core_ok nB node_usage p → staged p q D → x ∈ dom (mapTx p) → x ∉ D →
  ∃ q', remove_from_ancestors nB node_usage q x = Ok q' ∧ staged p q' ({[x]} ∪ D).
Proof.
  intros (HG & _ & Hsm & _) HS Hx HxD. pose proof (staged_links p q D (ok_links _ HG) HS) as Hlok. destruct HS as [Hss Hpar Hch Hanc Hdesc].
  pose proof (ss_stat _ _ _ Hss) as Hst. pose proof (stat_same_dom _ _ Hst) as Hdom. destruct (links_Some q x Hlok) as (e & l & He & Hl); [congruence|].
  destruct (stat_lookup q p x e Hst He) as (e0 & He0 & Hs). assert (GetHash (tx e) = x) as Hk by (injection Hs as Ht _; rewrite <- Ht; by apply (ok_keys _ HG)).
  unfold remove_from_ancestors, find. rewrite He. cbn [rbind]. destruct (ancestors_found q x e Hlok) as (X & EX & HX); [|done|done|].
  { destruct (ok_acyclic _ HG) as [rank Hr]. exists rank. intros a b Hab. by apply Hr, Hpar. }
  rewrite EX. cbn [rbind snd]. assert (∀ a, a ∈ X ↔ anc p x a ∧ a ≠ x) as HX' by (intros a; by rewrite HX, (anc_same p q) by done). clear HX EX.
  assert (parents l ⊆ dom (mapLinks q)) as Hpsub.
  { destruct Hlok as (E & Hp & _). intros a Ha. rewrite E. apply (Hp a x). by exists l. }
  destruct (UpdateAncestorsOf_unfold nB node_usage false x X q e l He Hl Hpsub) as (lk & u & Hu & Hlk & ->); [by rewrite Hst|].
  replace (-1 * size_at (stat q) x) with (- size_at (stat q) x) by lia. replace (-1 * fee_at (stat q) x) with (- fee_at (stat q) x) by lia.
  destruct (descendants_remove nB (set_links q lk u) (λ h y, anc p y h ∧ ¬ (y ∈ D ∧ y ≠ h)) X x) as (m1 & E & Hsb & Hd1).
  { change (stat (set_links q lk u)) with (stat q). by rewrite Hst. } { change (stat (set_links q lk u)) with (stat q). by rewrite Hst. }
  { intros a [Ha _]%HX'. cbn. rewrite Hdom. destruct (anc_dom p x a (ok_links _ HG) Ha) as [->|[_ ?]]; done. }
  { cbn. rewrite Hdom. intros a y Ha [Hy _]. by eapply anc_in_dom. }
  { intros a [Ha Hne]%HX'. split_and!; [done|naive_solver|apply anc_refl|naive_solver|done]. }
  change (stat (set_links q lk u)) with (stat q) in E. rewrite E. eexists. split; [done|]. constructor.
  - eapply same_store_trans; [exact Hss|]. destruct Hsb as [Hsb _]. constructor; try done. cbn. by eapply changed_dom.
  - intros a b. rewrite <- Hpar. rewrite (changed_parent q (set_mapTx (set_links q lk u) m1) _ _ a b Hlk). unfold parent. split; intros (lb & Hb & Ha); exists lb; (split; [done|]); by destruct (decide _).
  - intros a b. rewrite (changed_child q (set_mapTx (set_links q lk u) m1) _ _ a b Hlk). assert (b ∉ {[x]} ∪ D ↔ b ≠ x ∧ b ∉ D) as -> by set_solver. transitivity (child q a b ∧ b ≠ x); [|rewrite Hch; naive_solver]. split.
    + intros (la & Hla & Hb). case_decide as Hin; [cbn [with_children children adjust] in Hb; split; [exists la; set_solver|set_solver]|].
      split; [by exists la|]. intros ->. apply Hin, elem_of_elements. apply (parent_links q x l Hl). apply Hpar, (ok_sym _ HG). apply (Hch a x). by exists la.
    + intros [(la & Hla & Hb) Hne]. exists la. split; [done|]. case_decide; cbn; set_solver.
  - by eapply ancestors_kept.
  - rewrite <- Hst at 1. eapply descendants_ext; [|exact Hd1]. intros a y _. cbn. rewrite HX'. split.
    + intros [[Ha Hn] Hno]. split; [done|]. intros [[->%elem_of_singleton|Hy]%elem_of_union Hne]; [|by apply Hn]. apply Hno. by split_and!.
    + intros [Ha Hn]. split_and!; [done|set_solver|]. intros [[_ Hne] ->]. apply Hn. set_solver.
Qed.

Definition descendant_closed p S : Prop := S ⊆ dom (mapTx p) ∧ ∀ a b, a ∈ S → parent p a b → b ∈ S.
Lemma closed_convex p S x a : descendant_closed p S → x ∉ S → anc p x a → a ∉ S ∧ rtc (λ x y, parent p y x ∧ y ∉ S) x a.
Proof.
  intros [_ Hcl] Hx. induction 1 as [|x y a H _ IH]; [split; [done|apply rtc_refl]|]. assert (y ∉ S) as Hy by (intros Hy; by apply Hx, (Hcl y x)).
  destruct (IH Hy) as [Ha Hr]. split; [done|]. eapply rtc_l; [split; [exact H|done]|done].
Qed.
Lemma staged_detached p q S : graph_ok p → descendant_closed p S → staged p q S → detached nB node_usage p q S.
Proof.
  intros HG Hclosed [Hss Hpar Hch Hanc Hdesc]. pose proof Hclosed as [_ Hcl]. constructor; [done|..].
  - intros a b Hb. rewrite Hpar. split; [|naive_solver]. intros H. split; [done|]. intros Ha. by apply Hb, (Hcl a b).
  - intros a b _. apply Hch.
  - exists (anc p). split; [done|]. intros h a Hh. split; [|naive_solver]. intros H. split; [done|by eapply closed_convex].
  - eexists. split; [exact Hdesc|]. intros h a Hh. cbn. split; intros [H1 H2]; (split; [done|]); [intros Ha; apply H2; split; [done|congruence]|naive_solver].
  - intros x a Hx _ Ha. by eapply closed_convex.
Qed.
Lemma RemoveStaged_closed p S : core_ok nB node_usage p → descendant_closed p S →
  ∃ q, RemoveStaged nB node_usage S false p = Ok q ∧ core_ok nB node_usage q ∧ remains p q S.
Proof.
  intros Hok Hcl. pose proof Hok as (HG & HS & _ & _). destruct Hcl as [Hsub Hcl]. unfold RemoveStaged, UpdateForRemoveFromMempool. cbn [rbind].
  destruct (fold_set_ind (remove_from_ancestors nB node_usage) (staged p) S p) as (q & -> & Hst).
  { constructor; [apply same_store_refl|done|set_solver|apply HS|]. eapply descendants_ext; [|apply HS]. intros h a _. unfold flip. set_solver. }
  { intros q D x Hq _ Hx HxD. by apply staged_step; [..|apply Hsub|]. }
  cbn [rbind]. pose proof (staged_links p q S (ok_links _ HG) Hst) as Hlok.
  destruct (fold_set_ind (λ p removeIt, UpdateChildrenForRemoval node_usage removeIt p) (λ s _, s = q) S q) as (q1 & -> & ->); [done| |].
  { intros s D x -> _ Hx _. exists q. split; [|done]. unfold UpdateChildrenForRemoval, GetMemPoolChildren, GetLinks.
    destruct (links_Some q x Hlok) as (e & l & _ & Hl); [rewrite (stat_same_dom _ _ (ss_stat _ _ _ (st_store _ _ _ Hst))); by apply Hsub|]. rewrite Hl. cbn [rbind].
    replace (children l) with (∅ : setEntries); [by rewrite elements_empty|]. symmetry. apply set_eq. intros b. split; [|set_solver]. intros Hb.
    apply (child_links q x l Hl), (st_child _ _ _ Hst) in Hb as [Hb HbS]. exfalso. by apply HbS, (Hcl x b), (ok_sym _ HG). }
  cbn [rbind]. by apply taken_out_core; [|apply staged_detached|].
Qed.

(** ** A transaction without parents in the pool *)

Lemma root_detached p q t : graph_ok p → t ∈ dom (mapTx p) → (∀ a, ¬ parent p a t) →
  same_store node_usage p q → (∀ a b, parent q a b ↔ parent p a b ∧ a ≠ t) → (∀ a b, child q a b ↔ child p a b) →
  ancestors_are nB q (stat p) (λ h a, anc p h a ∧ ¬ (anc p h t ∧ h ≠ t ∧ a = t)) → descendants_are nB q (stat p) (flip (anc p)) → detached nB node_usage p q {[t]}.
Proof.
  intros HG Ht Hroot Hss Hpar Hch Hanc Hdesc. assert (∀ a, anc p t a → a = t) as Htop.
  { intros a Ha. inversion Ha as [|? y ? H1 H2]; subst; [done|]. exfalso. by apply (Hroot y). }
  constructor; [done|..].
  - intros a b Hb. rewrite Hpar. set_solver.
  - intros a b Ha. rewrite Hch. split; [|naive_solver]. intros H. split; [done|]. intros ->%elem_of_singleton. apply (Hroot a). by apply (ok_sym _ HG).
  - eexists. split; [exact Hanc|]. intros h a Hh. cbn. split; intros [H1 H2]; (split; [done|]).
    + intros ->%elem_of_singleton. apply H2. set_solver.
    + intros (_ & _ & ->). set_solver.
  - eexists. split; [exact Hdesc|]. intros h a Hh. unfold flip. split; [|naive_solver]. intros H. split; [done|]. intros ->%elem_of_singleton. apply Htop in H. set_solver.
  - intros x a _ Ha. induction 1 as [|x y a H Hya IH]; [apply rtc_refl|]. eapply rtc_l; [split; [exact H|]|by apply IH]. intros ->%elem_of_singleton. apply Htop in Hya. set_solver.
Qed.
Lemma remove_from_descendants_root p t : core_ok nB node_usage p → t ∈ dom (mapTx p) →
  ∃ m1, remove_from_descendants nB p t = Ok (set_mapTx p m1) ∧ same_but descendants_of p (set_mapTx p m1) ∧
    ancestors_are nB (set_mapTx p m1) (stat p) (λ h a, anc p h a ∧ ¬ (anc p h t ∧ h ≠ t ∧ a = t)).
Proof.
  intros (HG & HS & Hsm & _) Ht. unfold remove_from_descendants. destruct (descendants_found p ∅ ∅ t (ok_links _ HG)) as (Y & -> & HY & HYd); [|set_solver|done|].
  { intros x. split; [set_solver|]. intros (? & ? & _). set_solver. }
  cbn [rbind]. pose proof Ht as [e He]%elem_of_dom. destruct (find_stat nB p t e He) as (Hf & E1 & E2 & E3). rewrite Hf. cbn [rbind]. rewrite E1, E2, E3.
  assert (t ∈ dom (stat p)) as Htd by (by rewrite stat_dom). pose proof (size_bounds nB (stat p) {[t]} Hsm ltac:(set_solver)) as (B1 & B2 & _). rewrite !set_sum_singleton in *.
  rewrite (i64_small (size_at _ t)), (i64_small (- size_at _ t)), i32_small by lia.
  assert (∀ a, a ∈ Y ↔ anc p a t) as HYa. { intros a. rewrite (HY a). setoid_rewrite (child_path p _ _ (ok_sym _ HG)). set_solver. }
  destruct (ancestors_remove nB p (anc p) (Y ∖ {[t]}) t) as (m1 & E & Hsb & HA); [apply HS|done|set_solver| | |].
  { intros a y Ha Hy. destruct (anc_dom p a y (ok_links _ HG) Hy) as [<-|[_ ?]]; done. }
  { intros a Ha. split_and!; [apply HYa; set_solver|apply anc_refl|set_solver]. }
  exists m1. split_and!; [done|done|]. eapply ancestors_ext; [|exact HA]. intros h a _. cbn. rewrite elem_of_difference, HYa. set_solver.
Qed.
Lemma RemoveStaged_root p t : core_ok nB node_usage p → t ∈ dom (mapTx p) → (∀ a, ¬ parent p a t) →
  ∃ q, RemoveStaged nB node_usage {[t]} true p = Ok q ∧ core_ok nB node_usage q ∧ remains p q {[t]}.
Proof.
  intros Hok Ht Hroot. pose proof Hok as (HG & HS & Hsm & _). unfold RemoveStaged, UpdateForRemoveFromMempool. rewrite !elements_singleton. cbn [fold_result].
  destruct (remove_from_descendants_root p t Hok Ht) as (m1 & -> & Hsb & HA). cbn [rbind]. set (q := set_mapTx p m1) in *. pose proof (proj1 Hsb) as Hst.
  pose proof (stat_same_dom _ _ Hst) as Hdom. assert (links_ok q) as Hlok by (eapply links_ok_same; [apply HG|done|done|done|done]).
  destruct (links_Some q t Hlok) as (e & l & He & Hl); [congruence|]. destruct (stat_lookup q p t e Hst He) as (e0 & He0 & Hs).
  assert (GetHash (tx e) = t) as Hk by (injection Hs as Hte _; rewrite <- Hte; by apply (ok_keys _ HG)).
  unfold remove_from_ancestors, find. rewrite He. cbn [rbind]. destruct (ancestors_found q t e Hlok (ok_acyclic _ HG) He Hk) as (X & -> & HX). cbn [rbind snd].
  assert (X = ∅) as ->. { apply set_eq. intros a. split; [|set_solver]. intros [Ha Hne]%HX. inversion Ha as [|? y ? H1 H2]; subst; [done|]. exfalso. by apply (Hroot y). }
  assert (parents l = ∅) as Hpl. { apply set_eq. intros a. split; [|set_solver]. intros Ha. exfalso. apply (Hroot a). by exists l. }
  unfold UpdateAncestorsOf, GetMemPoolParents, GetLinks. rewrite Hl. cbn [rbind]. rewrite Hpl, elements_empty. cbn [foldl]. unfold find. rewrite He. cbn [rbind].
  unfold modify_all. rewrite elements_empty. cbn [fold_result rbind]. unfold UpdateChildrenForRemoval, GetMemPoolChildren, GetLinks. rewrite Hl. cbn [rbind].
  destruct (fold_UpdateParent node_usage t false (elements (children l)) q) as (lk & u & -> & Hu & Hlk); [apply NoDup_elements| |].
  { intros a Ha%elem_of_elements. destruct Hlok as (-> & _ & Hc). apply (Hc t a). by exists l. }
  destruct (taken_out_core nB node_usage p (set_links q lk u) {[t]} Hok) as (q' & E & Hq'); [|set_solver|].
  - apply root_detached; [done|done|done| | | |exact HA|by eapply descendants_kept, HS].
    + constructor; try done. cbn. by eapply (changed_dom _ _ (mapLinks q)).
    + intros a b. rewrite (changed_parent q (set_links q lk u) _ _ a b Hlk). change (parent p a b) with (parent q a b). split.
      * intros (lb & Hb & Ha). case_decide as Hin; [cbn in Ha; split; [exists lb; set_solver|set_solver]|]. split; [by exists lb|]. intros ->. apply Hin, elem_of_elements.
        apply (child_links q t l Hl). apply (ok_sym _ HG). by exists lb.
      * intros [(lb & Hb & Ha) Hne]. exists lb. split; [done|]. case_decide; cbn; set_solver.
    + intros a b. rewrite (changed_child q (set_links q lk u) _ _ a b Hlk). change (child p a b) with (child q a b). unfold child. split; intros (lb & Hb & Ha); exists lb; (split; [done|]); by destruct (decide _).
  - exists q'. rewrite elements_singleton in E. cbn [fold_result] in E. done.
Qed.
End Pool.
