(* ===== verification/MempoolAdd.v ===== *)
(** * The memory pool: new transactions and changed fees

    [PrioritiseTransaction] and [addUnchecked] keep the invariant. *)
From S2P Require Import Prelude ArithUint256 Script Interpreter Serialize Transaction TxVerify Mempool MempoolFacts MempoolInv MempoolOps MempoolRemove.

Section Pool.
Context `{C : Crypto} (nB : Z) (node_usage : Z).
Implicit Types (p q : CTxMemPool) (m : gmap uint256 CTxMemPoolEntry) (x h it : uint256) (S X Y : setEntries) (PA PD : uint256 → uint256 → Prop).
Abbreviation size_at m := (value_at m (GetTxSize nB)).
Abbreviation fee_at m := (value_at m GetModifiedFee).
Abbreviation sigops_at m := (value_at m sigOpCost).

(** ** Another fee *)

(** An entry without its state and without its fee delta. *)
Definition feeless (e : CTxMemPoolEntry) : CTxMemPoolEntry :=
  mk_entry (tx e) (nFee e) (nTxWeight e) (nUsageSize e) (nTime e) (entryHeight e) (spendsCoinbase e) (sigOpCost e) 0 (nMinGasPrice e) 0 0 0 0 0 0 0 (vTxHashesIdx e).
Lemma feeless_lookup m m' h e : feeless <$> m = feeless <$> m' → m !! h = Some e → ∃ e', m' !! h = Some e' ∧ feeless e' = feeless e.
Proof.
  intros Hs He. assert ((feeless <$> m') !! h = Some (feeless e)) as Hq by (rewrite <- Hs; by rewrite lookup_fmap, He).
  rewrite lookup_fmap in Hq. destruct (m' !! h) as [e'|]; [|done]. cbn [fmap option_fmap option_map] in Hq. exists e'. split; congruence.
Qed.
Lemma feeless_dom m m' : feeless <$> m = feeless <$> m' → dom m = dom m'.
Proof. intros H. by rewrite <- (dom_fmap_L feeless m), H, dom_fmap_L. Qed.
Lemma feeless_value m m' f h : (∀ e, f e = f (feeless e)) → feeless <$> m = feeless <$> m' → value_at m f h = value_at m' f h.
Proof.
  intros Hf Hs. pose proof (f_equal (lookup h) Hs) as E. rewrite !lookup_fmap in E. unfold value_at. destruct (m !! h) as [e|], (m' !! h) as [e'|]; try done.
  cbn [fmap option_fmap option_map from_option] in *. assert (feeless e = feeless e') as E' by congruence. by rewrite (Hf e), (Hf e'), E'.
Qed.
Lemma feeless_stat p q : feeless <$> mapTx p = feeless <$> mapTx q → feeless <$> stat p = feeless <$> stat q.
Proof. intros H. unfold stat. rewrite <- !map_fmap_compose. exact H. Qed.
Lemma feeless_graph p q : feeless <$> mapTx q = feeless <$> mapTx p → mapLinks q = mapLinks p → graph_ok p → graph_ok q.
Proof.
  intros Hf Hl [G1 G2 [rank G3] G4 G5]. assert (∀ a b, parent q a b ↔ parent p a b) as Hp by (intros; unfold parent; by rewrite Hl).
  assert (∀ a b, child q a b ↔ child p a b) as Hc by (intros; unfold child; by rewrite Hl). pose proof (feeless_dom _ _ Hf) as Hd. constructor.
  - eapply links_ok_same; [exact G1|done|by rewrite Hl|intros a b; apply Hp|intros a b; apply Hc].
  - intros a b. by rewrite Hp, Hc.
  - exists rank. intros a b H%Hp. by apply G3.
  - intros h e He. destruct (feeless_lookup _ _ h e Hf He) as (e' & He' & E). injection E as <- _. by apply G4.
  - intros h e He a. destruct (feeless_lookup _ _ h e Hf He) as (e' & He' & E). injection E as <- _. by rewrite Hp, Hd, (G5 h e' He').
Qed.
Lemma feeless_store p q : feeless <$> mapTx q = feeless <$> mapTx p → mapLinks q = mapLinks p → mapNextTx q = mapNextTx p → vTxHashes q = vTxHashes p →
  totalTxSize q = totalTxSize p → cachedInnerUsage q = cachedInnerUsage p → store_ok nB node_usage p → store_ok nB node_usage q.
Proof.
  intros Hf E1 E2 E3 E4 E5 [K1 K2 K3 K4 K5 K6]. pose proof (feeless_dom _ _ Hf) as Hd. pose proof (feeless_stat _ _ Hf) as Hst. constructor.
  - by rewrite E1, Hd.
  - intros o h. rewrite E2, K2. split; intros (e & He & Ho).
    + destruct (feeless_lookup _ _ h e (eq_sym Hf) He) as (e' & He' & E). exists e'. split; [done|]. by injection E as ->.
    + destruct (feeless_lookup _ _ h e Hf He) as (e' & He' & E). exists e'. split; [done|]. by injection E as ->.
  - intros h e He. destruct (feeless_lookup _ _ h e Hf He) as (e' & He' & E). injection E as <- _ _ _ _ _ _ _ _ <-. rewrite E3. by apply K3.
  - intros i w h Hv. rewrite E3 in Hv. destruct (K4 i w h Hv) as (e & He & Hi). destruct (feeless_lookup _ _ h e (eq_sym Hf) He) as (e' & He' & E). exists e'. split; [done|].
    injection E as _ _ _ _ _ _ _ _ _ ->. done.
  - rewrite E4, K5, !stat_dom, Hd. f_equal. apply set_sum_ext. intros x _. symmetry. by apply feeless_value.
  - rewrite E5, K6, !stat_dom, Hd, E1. f_equal. f_equal. apply set_sum_ext. intros x _. symmetry. by apply feeless_value.
Qed.
Lemma feeless_small m m' : feeless <$> m' = feeless <$> m → small nB m → small nB m'.
Proof.
  intros Hf (K1 & K2 & K3). pose proof (feeless_dom _ _ Hf) as Hd. split_and!.
  - intros h e He. destruct (feeless_lookup _ _ h e Hf He) as (e' & He' & E). destruct (K1 h e' He') as [P1 P2].
    change (0 < GetTxSize nB (feeless e) ∧ 0 ≤ sigOpCost (feeless e)). by rewrite <- E.
  - rewrite Hd. rewrite (set_sum_ext _ (size_at m)); [done|]. intros x _. by apply feeless_value.
  - rewrite Hd. rewrite (set_sum_ext _ (sigops_at m)); [done|]. intros x _. by apply feeless_value.
Qed.

Section Prioritise.
Context (p : CTxMemPool) (h : uint256) (e0 : CTxMemPoolEntry) (nFeeDelta : Z) (Hp : pool_ok nB node_usage p) (He0 : mapTx p !! h = Some e0).
Let delta := i64 (default 0 (mapDeltas p !! h) + nFeeDelta).
Let e1 := UpdateFeeDelta delta e0.
Let p1 := set_mapTx (set_deltas p (<[h := delta]> (mapDeltas p))) (<[h := e1]> (mapTx p)).

Lemma prioritised_feeless : feeless <$> mapTx p1 = feeless <$> mapTx p.
Proof. unfold p1. cbn [mapTx set_mapTx]. rewrite fmap_insert. apply insert_id. by rewrite lookup_fmap, He0. Qed.
Lemma prioritised_fee (X : setEntries) : i64 (set_sum (fee_at (stat p1)) X) = i64 (set_sum (fee_at (stat p)) X + (if decide (h ∈ X) then nFeeDelta else 0)).
Proof.
  assert (∀ x, x ≠ h → fee_at (stat p1) x = fee_at (stat p) x) as Hne.
  { intros x Hx. unfold value_at, stat, p1. cbn [mapTx set_mapTx]. rewrite !lookup_fmap, lookup_insert_ne by done. done. }
  assert (fee_at (stat p1) h = i64 (nFee e0 + delta)) as E1 by (rewrite (value_at_stat p1 _ h e1); [done|apply lookup_insert_eq]).
  assert (fee_at (stat p) h = i64 (nFee e0 + feeDelta e0)) as E2 by (by rewrite (value_at_stat p _ h e0)).
  case_decide as Hin.
  - rewrite !(set_sum_delete _ X h) by done. rewrite (set_sum_ext (fee_at (stat p1)) (fee_at (stat p)) (X ∖ {[h]})) by (intros x Hx; apply Hne; set_solver).
    rewrite E1, E2. destruct Hp as [_ Hdel]. rewrite (Hdel h e0 He0). unfold delta. rewrite <- Z.add_assoc, !i64_add_l, !Z.add_assoc.
    rewrite <- (Z.add_assoc (nFee e0)), (Z.add_comm (nFee e0)), <- Z.add_assoc, i64_add_l. f_equal. lia.
  - rewrite Z.add_0_r. f_equal. apply set_sum_ext. intros x Hx. apply Hne. set_solver.
Qed.
Lemma prioritised_size X : set_sum (size_at (stat p1)) X = set_sum (size_at (stat p)) X ∧ set_sum (sigops_at (stat p1)) X = set_sum (sigops_at (stat p)) X.
Proof. pose proof (feeless_stat _ _ prioritised_feeless) as E. split; apply set_sum_ext; intros x _; by apply feeless_value. Qed.
Lemma prioritised_shift X a : X ⊆ dom (mapTx p) → a ∈ X → h ∈ X → shifts nB (stat p) X (stat p1) X 0 nFeeDelta 0.
Proof.
  intros HX Ha Hh. destruct Hp as [(_ & _ & Hsm & _) _]. rewrite <- stat_dom in HX. pose proof (size_bounds nB (stat p) X Hsm HX) as (B1 & _ & B3).
  pose proof (size_pos_set nB (stat p) X a Hsm HX Ha) as [P1 P2]. destruct (prioritised_size X) as [E _]. unfold shifts. rewrite E, prioritised_fee, decide_True by done. split_and!; lia || done.
Qed.
Lemma prioritised_own s : i64 (i64 s + i64 (delta - feeDelta e0)) = i64 (s + nFeeDelta).
Proof. destruct Hp as [_ Hdel]. rewrite (Hdel h e0 He0). unfold delta. rewrite i64_add_l, i64_add_r, Z.add_sub_assoc, (Z.add_comm s), <- Z.add_sub_assoc, i64_add_l. f_equal. lia. Qed.

(** The entries after the first change: [h] itself is right, the others may miss the change. *)
Lemma prioritised_descendants X : (∀ a, a ∈ X ↔ anc p h a ∧ a ≠ h) →
  ∃ m1, modify_all X (UpdateDescendantState 0 nFeeDelta 0) p1 = Ok (set_mapTx p1 m1) ∧ same_but ancestors_of p1 (set_mapTx p1 m1) ∧
    descendants_are nB (set_mapTx p1 m1) (stat p1) (flip (anc p)).
Proof.
  intros HX. destruct Hp as [(HG & [_ HD] & _ & _) _]. pose proof (feeless_dom _ _ prioritised_feeless) as Hdom. apply modify_descendants_gen.
  { rewrite Hdom. intros a [Ha _]%HX. destruct (anc_dom p h a (ok_links _ HG) Ha) as [<-|[_ ?]]; [by eapply elem_of_dom_2|done]. }
  intros a e He. unfold p1 in He. cbn [mapTx set_mapTx] in He. apply lookup_insert_Some in He as [[<- <-]|[Hne He]].
  - destruct (HD h e0 He0) as (Y & HY & Hs). exists Y. split; [done|]. rewrite decide_False by (rewrite HX; naive_solver). injection Hs as S1 S2 S3.
    unfold descendants_state. destruct (prioritised_size Y) as [-> _]. rewrite prioritised_fee, decide_True by (apply HY, anc_refl). rewrite <- prioritised_own, <- S1, <- S2, <- S3. done.
  - destruct (HD a e He) as (Y & HY & Hs). exists Y. split; [done|]. case_decide as Hin.
    + exists (stat p), Y. split; [done|]. apply (prioritised_shift _ a); [|apply HY, anc_refl|apply HY; by apply HX].
      intros x Hx%HY. eapply anc_in_dom; [done| |exact Hx]. by eapply elem_of_dom_2.
    + injection Hs as S1 S2 S3. unfold descendants_state. destruct (prioritised_size Y) as [-> _].
      rewrite prioritised_fee, decide_False, Z.add_0_r, <- S1, <- S2, <- S3; [done|]. intros Hh%HY. apply Hin, HX. split; [exact Hh|congruence].
Qed.
Lemma prioritised_ancestors q Y : same_but ancestors_of p1 q → (∀ a, a ∈ Y ↔ anc p a h) →
  ∃ m1, modify_all (Y ∖ {[h]}) (UpdateAncestorState 0 nFeeDelta 0 0) q = Ok (set_mapTx q m1) ∧ same_but descendants_of q (set_mapTx q m1) ∧
    ancestors_are nB (set_mapTx q m1) (stat p1) (anc p).
Proof.
  intros [Hst Hsb] HY. destruct Hp as [(HG & [HA _] & Hsm & _) _]. pose proof (feeless_dom _ _ prioritised_feeless) as Hdom.
  assert (dom (mapTx q) = dom (mapTx p)) as Hdq by (rewrite <- Hdom; by apply stat_same_dom).
  apply modify_ancestors_gen.
  { rewrite Hdq. intros a [Ha _]%elem_of_difference. eapply anc_in_dom; [done|eapply elem_of_dom_2, He0|by apply HY]. }
  intros a e He. destruct (Hsb a e He) as (e' & He' & ->). unfold p1 in He'. cbn [mapTx set_mapTx] in He'. apply lookup_insert_Some in He' as [[<- <-]|[Hne He']].
  - destruct (HA h e0 He0) as (X & HX & Hs). exists X. split; [done|]. rewrite decide_False by set_solver. injection Hs as S1 S2 S3 S4.
    unfold ancestors_state. destruct (prioritised_size X) as [-> ->]. rewrite prioritised_fee, decide_True by (apply HX, anc_refl). rewrite <- prioritised_own, <- S1, <- S2, <- S3, <- S4. done.
  - destruct (HA a e' He') as (X & HX & Hs). exists X. split; [done|]. case_decide as Hin.
    + exists (stat p), X. split; [done|]. assert (X ⊆ dom (mapTx p)) as HXd.
      { intros x Hx%HX. destruct (anc_dom p a x (ok_links _ HG) Hx) as [<-|[_ ?]]; [by eapply elem_of_dom_2|done]. }
      split; [apply (prioritised_shift _ a); [done|apply HX, anc_refl|apply HX, HY; set_solver]|]. destruct (prioritised_size X) as [_ ->].
      pose proof (size_bounds nB (stat p) X Hsm ltac:(by rewrite stat_dom)). lia.
    + injection Hs as S1 S2 S3 S4. unfold ancestors_state. destruct (prioritised_size X) as [-> ->].
      rewrite prioritised_fee, decide_False, Z.add_0_r, <- S1, <- S2, <- S3, <- S4; [done|]. intros Hh%HX. apply Hin, elem_of_difference. split; [by apply HY|set_solver].
Qed.
End Prioritise.

Lemma feeless_same p q : stat q = stat p → feeless <$> mapTx q = feeless <$> mapTx p.
Proof. intros H. assert (∀ p, feeless <$> mapTx p = feeless <$> stat p) as E by (intros r; unfold stat; by rewrite <- map_fmap_compose). by rewrite !E, H. Qed.
Lemma PrioritiseTransaction_ok p h n : pool_ok nB node_usage p → ∃ q, PrioritiseTransaction nB h n p = Ok q ∧ pool_ok nB node_usage q ∧
  feeless <$> mapTx q = feeless <$> mapTx p ∧ mapDeltas q = <[h := i64 (default 0 (mapDeltas p !! h) + n)]> (mapDeltas p).
Proof.
  intros Hp. pose proof Hp as [(HG & HS & Hsm & Hst) Hdel]. unfold PrioritiseTransaction. cbn [mapTx set_deltas]. destruct (mapTx p !! h) as [e0|] eqn:He0.
  2: { eexists. split_and!; [done| |done|done]. split; [split_and!; [by apply (feeless_graph p)|exact HS|exact Hsm|by apply (feeless_store p)]|].
    intros h' e' He'. cbn. rewrite lookup_insert_ne by (intros ->; cbn in He'; congruence). by apply Hdel. }
  unfold modify_entry, find. cbn [mapTx set_deltas]. rewrite He0. cbn [rbind]. cbn [mapTx set_mapTx]. rewrite lookup_insert_eq. cbn [rbind].
  set (delta := i64 (default 0 (mapDeltas p !! h) + n)). set (p1 := set_mapTx _ _). pose proof (prioritised_feeless p h e0 n He0) as Hf. fold delta in Hf. change (feeless <$> mapTx p1 = feeless <$> mapTx p) in Hf.
  pose proof (feeless_graph p p1 Hf eq_refl HG) as HG1. destruct (ancestors_found nB p1 h (UpdateFeeDelta delta e0)) as (X & -> & HX).
  { apply HG1. } { apply HG1. } { unfold p1. cbn [mapTx set_mapTx]. apply lookup_insert_eq. } { cbn [tx UpdateFeeDelta]. by apply (ok_keys _ HG). }
  cbn [rbind snd]. destruct (prioritised_descendants p h e0 n Hp He0 X HX) as (m1 & E1 & Hsb1 & HD1). fold delta in E1, Hsb1, HD1. change (set_mapTx _ (<[h := _]> (mapTx p))) with p1 in E1, Hsb1, HD1.
  rewrite E1. cbn [rbind]. set (p2 := set_mapTx p1 m1) in *. pose proof (feeless_same _ _ (proj1 Hsb1)) as Hf2. pose proof (feeless_graph p1 p2 Hf2 eq_refl HG1) as HG2.
  destruct (descendants_found p2 ∅ ∅ h (ok_links _ HG2)) as (Y & -> & HY & HYd); [|set_solver| |].
  { intros x. split; [set_solver|]. intros (? & ? & _). set_solver. } { rewrite (feeless_dom _ _ Hf2), (feeless_dom _ _ Hf). by eapply elem_of_dom_2. }
  cbn [rbind]. assert (∀ a, a ∈ Y ↔ anc p a h) as HYa. { intros a. rewrite (HY a). setoid_rewrite (child_path p2 _ _ (ok_sym _ HG2)). set_solver. }
  destruct (prioritised_ancestors p h e0 n Hp He0 p2 Y Hsb1 HYa) as (m2 & E2 & Hsb2 & HA2). fold delta in HA2. change (set_mapTx (set_deltas _ _) (<[h := _]> (mapTx p))) with p1 in HA2.
  rewrite E2. cbn [rbind]. eexists. split; [done|]. set (q := mk_pool _ _ _ _ _ _ _ _). assert (stat q = stat p1) as Hsq by (etransitivity; [apply Hsb2|apply Hsb1]).
  assert (feeless <$> mapTx q = feeless <$> mapTx p) as Hfq by (rewrite (feeless_same _ _ Hsq); done). split_and!; [|done|done]. split.
  - split_and!; [by apply (feeless_graph p)| |by eapply feeless_small; [apply feeless_stat|]|by apply (feeless_store p)]. split; rewrite Hsq.
    + exact HA2.
    + intros a e He. apply (descendants_kept nB p2 (set_mapTx p2 m2) _ _ Hsb2 HD1 a e He).
  - intros a e He. destruct (stat_lookup q p1 a e Hsq He) as (e' & He' & E). assert (feeDelta e = feeDelta e') as -> by (by injection E). unfold p1 in He'. cbn [mapTx set_mapTx] in He'.
    change (mapDeltas q) with (<[h := delta]> (mapDeltas p)). apply lookup_insert_Some in He' as [[<- <-]|[Hne He']].
    + by rewrite lookup_insert_eq.
    + rewrite lookup_insert_ne by done. by apply Hdel.
Qed.
End Pool.
