(* ===== verification/MempoolNew.v ===== *)
(** * The memory pool: a new transaction

    [CalculateMemPoolAncestors] from the inputs of a transaction, and [addUnchecked]. *)
From S2P Require Import Prelude ArithUint256 Script Interpreter Serialize Transaction TxVerify Mempool MempoolFacts MempoolInv MempoolOps MempoolRemove.

Section Pool.
Context `{C : Crypto} (nB : Z) (node_usage : Z).
Implicit Types (p q : CTxMemPool) (m : gmap uint256 CTxMemPoolEntry) (x h it : uint256) (S X Y : setEntries) (PA PD : uint256 → uint256 → Prop).
Abbreviation size_at m := (value_at m (GetTxSize nB)).
Abbreviation fee_at m := (value_at m GetModifiedFee).
Abbreviation sigops_at m := (value_at m sigOpCost).

(** ** The ancestors that the inputs give *)

Lemma search_parents_spec p lim ins : ∀ S S', search_parents p lim ins S = inr S' → S' = S ∪ (list_to_set (hash <$> (prevout <$> ins)) ∩ dom (mapTx p)).
Proof.
  induction ins as [|i ins IH]; intros S S'; cbn [search_parents fmap list_fmap list_to_set]; [intros [= ->]; set_solver|].
  destruct (mapTx p !! hash (prevout i)) as [e|] eqn:E.
  - apply elem_of_dom_2 in E. case_match; [done|]. intros ->%IH. set_solver.
  - apply not_elem_of_dom in E. intros ->%IH. set_solver.
Qed.
Lemma search_parents_no_limits p ins : ∀ S, ∃ S', search_parents p no_limits ins S = inr S'.
Proof. induction ins as [|i ins IH]; intros S; cbn [search_parents]; [by eexists|]. case_match; [|done]. rewrite no_limit. apply IH. Qed.
(** What is found without exceeding a limit. *)
Definition new_ancestors p (t : CTransaction) X : Prop := ∀ a, a ∈ X ↔ ∃ y, (y ∈ dom (mapTx p) ∧ y ∈ (hash <$> prevouts t)) ∧ anc p y a.
Lemma new_ancestors_found p entry lim : links_ok p →
  ∃ r X, CalculateMemPoolAncestors nB p entry lim true = Ok (r, X) ∧ (r = None → new_ancestors p (tx entry) X) ∧ (lim = no_limits → r = None).
Proof.
  intros Hok. unfold CalculateMemPoolAncestors. cbn [rbind]. destruct (search_parents p lim (vin (tx entry)) ∅) as [er|S] eqn:E.
  { do 2 eexists. split_and!; [done|done|]. intros ->. destruct (search_parents_no_limits p (vin (tx entry)) ∅) as [? E']. congruence. }
  apply search_parents_spec in E. assert (∀ y, y ∈ S ↔ y ∈ dom (mapTx p) ∧ y ∈ (hash <$> prevouts (tx entry))) as HS.
  { intros y. subst S. unfold prevouts. rewrite elem_of_union, elem_of_intersection, elem_of_list_to_set. set_solver. }
  destruct (walk_ancestors_spec nB p entry lim S Hok (base.size (mapTx p)) S ∅ (GetTxSize nB entry)) as (r & X & -> & HX & Hr).
  { apply walk_start. } { intros y Hy. assert (y ∈ S) as Hy' by set_solver. by apply HS in Hy' as [? _]. } { rewrite size_dom, size_empty. done. }
  exists r, X. split_and!; [done| |done]. intros Hn a. rewrite (HX Hn a). by setoid_rewrite HS.
Qed.

(** ** The sums over the ancestors *)

Lemma ancestor_sums_ok p S : S ⊆ dom (mapTx p) →
  ancestor_sums nB p (elements S) = Ok (i64 (set_sum (size_at (stat p)) S), i64 (set_sum (fee_at (stat p)) S), i64 (set_sum (sigops_at (stat p)) S)).
Proof.
  intros HS. unfold ancestor_sums, set_sum. assert (∀ x, x ∈ elements S → x ∈ dom (mapTx p)) as Hl by (intros x Hx%elem_of_elements; by apply HS).
  change (0, 0, 0) with (i64 0, i64 0, i64 0). rewrite <- (Z.add_0_l (sum_of (size_at (stat p)) _)), <- (Z.add_0_l (sum_of (fee_at (stat p)) _)), <- (Z.add_0_l (sum_of (sigops_at (stat p)) _)).
  generalize 0 at 1 4 as a. generalize 0 at 1 3 as b. generalize 0 as c. revert Hl. induction (elements S) as [|x l IH]; intros Hl c b a; cbn [fold_result].
  { by rewrite !Z.add_0_r. }
  destruct (proj1 (elem_of_dom _ _) (Hl x (list_elem_of_here _ _))) as [e He]. destruct (find_stat nB p x e He) as (Hf & E1 & E2 & E3). rewrite Hf. cbn [rbind].
  rewrite E1, E2, E3, !i64_add_l. rewrite IH by (intros y Hy; apply Hl; by apply list_elem_of_further). rewrite !sum_of_cons, !Z.add_assoc. done.
Qed.
Lemma modify_all_one f p h : modify_all {[h]} f p = modify_entry h f p.
Proof. unfold modify_all. rewrite elements_singleton. cbn [fold_result]. by destruct (modify_entry h f p). Qed.

Lemma foldl_next h (l : list COutPoint) : ∀ (next : gmap COutPoint uint256) (o : COutPoint), (∀ o, o ∈ l → next !! o = None ∨ next !! o = Some h) →
  foldl (mapNextTx_insert h) next l !! o = if decide (o ∈ l) then Some h else next !! o.
Proof.
  induction l as [|x l IH]; intros next o Hn; cbn [foldl]; [by rewrite decide_False by apply not_elem_of_nil|].
  assert (∀ o, mapNextTx_insert h next x !! o = if decide (o = x) then Some h else next !! o) as Hx.
  { intros y. unfold mapNextTx_insert. destruct (Hn x (list_elem_of_here _ _)) as [E|E]; rewrite E.
    - case_decide as Hy; [rewrite Hy; apply lookup_insert_eq|by rewrite lookup_insert_ne]. - case_decide as Hy; [by rewrite Hy|done]. }
  rewrite IH.
  - rewrite Hx. repeat case_decide; try done; exfalso; set_solver.
  - intros y Hy. rewrite Hx. case_decide; [by right|]. apply Hn. by apply list_elem_of_further.
Qed.

(** ** The new entry *)

Record can_add p (t : CTransaction) : Prop := {
  add_new : GetHash t ∉ dom (mapTx p);
  add_no_child : ∀ h e, mapTx p !! h = Some e → GetHash t ∉ (hash <$> prevouts (tx e));
  add_no_loop : GetHash t ∉ (hash <$> prevouts t);
  add_no_conflict : ∀ o, o ∈ prevouts t → mapNextTx p !! o = None
}.
(** The numbers stay where the assertions allow them. *)
Definition entry_fits p (e : CTxMemPoolEntry) : Prop :=
  0 < GetTxSize nB e ∧ 0 ≤ sigOpCost e ∧ - 2 ^ 63 ≤ nFee e < 2 ^ 63 ∧
  set_sum (size_at (stat p)) (dom (mapTx p)) + GetTxSize nB e < 2 ^ 63 ∧ set_sum (sigops_at (stat p)) (dom (mapTx p)) + sigOpCost e < 2 ^ 31.

(** An entry as its constructor makes it. *)
Record fresh (e : CTxMemPoolEntry) : Prop := {
  fresh_delta : feeDelta e = 0;
  fresh_anc : ancestors_of e = (1, GetTxSize nB e, nFee e, sigOpCost e);
  fresh_desc : descendants_of e = (1, GetTxSize nB e, nFee e)
}.
Lemma new_CTxMemPoolEntry_fresh (tx_usage : CTransaction → Z) t fee tm ht scb sig gas : fresh (new_CTxMemPoolEntry nB tx_usage t fee tm ht scb sig gas).
Proof. unfold new_CTxMemPoolEntry. constructor; unfold ancestors_of, descendants_of, GetTxSize; cbn -[u64 GetVirtualTransactionSize GetTransactionWeight]; reflexivity. Qed.

Section Adding.
Context (p : CTxMemPool) (entry : CTxMemPoolEntry) (Hfresh : fresh entry).
Let t := tx entry.
Let h := GetHash t.
Context (X : setEntries) (Hp : pool_ok nB node_usage p) (Hadd : can_add p t) (Hfits : entry_fits p entry) (HX : new_ancestors p t X).
Let p1 := insert_entry h entry p.
Let P : setEntries := list_to_set (hash <$> prevouts t) ∩ dom (mapTx p).
Let HG : graph_ok p := proj1 (proj1 Hp).

(** The entry as it is inserted. *)
Definition same_tx (e : CTxMemPoolEntry) : Prop := tx e = t ∧ sigOpCost e = sigOpCost entry ∧ nUsageSize e = nUsageSize entry ∧ GetTxSize nB e = GetTxSize nB entry.
Lemma inserted : ∃ e, mapTx p1 = <[h := e]> (mapTx p) ∧ feeDelta e = default 0 (mapDeltas p !! h) ∧ same_tx e ∧
  ancestors_of e = (1, GetTxSize nB e, GetModifiedFee e, sigOpCost e) ∧ descendants_of e = (1, GetTxSize nB e, GetModifiedFee e).
Proof.
  pose proof Hfits as (_ & _ & Hfee & _). destruct Hfresh as [F0 F1 F2]. injection F1 as A1 A2 A3 A4. injection F2 as D1 D2 D3.
  assert (feeDelta entry = 0 ∧ same_tx entry ∧ ancestors_of entry = (1, GetTxSize nB entry, GetModifiedFee entry, sigOpCost entry) ∧ descendants_of entry = (1, GetTxSize nB entry, GetModifiedFee entry)) as H0.
  { unfold GetModifiedFee. rewrite F0, Z.add_0_r, i64_small by lia. split_and!; try done; unfold ancestors_of, descendants_of; congruence. }
  unfold p1, insert_entry. cbn [mapTx]. eexists. split; [reflexivity|]. destruct (mapDeltas p !! h) as [d|]; cbn [default from_option id]; [|exact H0].
  destruct (Z.eqb_spec d 0) as [->|]; [exact H0|]. unfold ancestors_of, descendants_of, UpdateFeeDelta, GetModifiedFee.
  cbn [feeDelta Mempool.nFee nCountWithAncestors nSizeWithAncestors nModFeesWithAncestors nSigOpCostWithAncestors nCountWithDescendants nSizeWithDescendants nModFeesWithDescendants sigOpCost].
  rewrite F0, Z.sub_0_r, !i64_add_r, A1, A2, A3, A4, D1, D2, D3. unfold same_tx. split_and!; reflexivity.
Qed.

Section Inserted.
Context (e : CTxMemPoolEntry) (Hin : mapTx p1 = <[h := e]> (mapTx p)) (Hdelta : feeDelta e = default 0 (mapDeltas p !! h)) (Htx : same_tx e).
Context (Hea : ancestors_of e = (1, GetTxSize nB e, GetModifiedFee e, sigOpCost e)) (Hed : descendants_of e = (1, GetTxSize nB e, GetModifiedFee e)).

Lemma new_dom : dom (mapTx p1) = {[h]} ∪ dom (mapTx p).
Proof. by rewrite Hin, dom_insert_L. Qed.
Lemma new_value f x : x ≠ h → value_at (stat p1) f x = value_at (stat p) f x.
Proof. intros Hne. unfold value_at, stat. by rewrite !lookup_fmap, Hin, lookup_insert_ne. Qed.
Lemma new_value_own f : value_at (stat p1) f h = f (static e).
Proof. apply (value_at_stat p1). by rewrite Hin, lookup_insert_eq. Qed.
Lemma new_sum f S : S ⊆ dom (mapTx p) → set_sum (value_at (stat p1) f) S = set_sum (value_at (stat p) f) S.
Proof. intros HS. apply set_sum_ext. intros x Hx. apply new_value. intros E. apply (add_new _ _ Hadd). fold h. rewrite <- E. by apply HS. Qed.
Lemma new_sum_all f : set_sum (value_at (stat p1) f) (dom (stat p1)) = f (static e) + set_sum (value_at (stat p) f) (dom (mapTx p)).
Proof. rewrite stat_dom, new_dom, set_sum_insert by apply (add_new _ _ Hadd). by rewrite new_value_own, new_sum. Qed.
Lemma new_small : small nB (stat p1).
Proof.
  destruct Hfits as (F1 & F2 & _ & F4 & F5). destruct Htx as (_ & T2 & _ & T4). pose proof Hp as [(_ & _ & (K1 & _) & _) _]. split_and!.
  - intros x ex. unfold stat. rewrite Hin, fmap_insert, lookup_insert_Some. intros [[<- <-]|[_ Hx]]; [|by apply (K1 x)].
    change (0 < GetTxSize nB e ∧ 0 ≤ sigOpCost e). by rewrite T4, T2.
  - rewrite new_sum_all. change (GetTxSize nB (static e)) with (GetTxSize nB e). lia.
  - rewrite new_sum_all. change (sigOpCost (static e)) with (sigOpCost e). lia.
Qed.
Lemma new_anc_own x a : anc p x a → x = h ∨ a = h → x = a.
Proof. intros Ha Hh. destruct (anc_dom p x a (ok_links _ HG) Ha) as [->|[H1 H2]]; [done|]. pose proof (add_new _ _ Hadd) as Hn. fold h in Hn. destruct Hh as [E|E]; rewrite E in *; done. Qed.
Lemma new_X_dom : X ⊆ dom (mapTx p).
Proof. intros a (y & [Hy _] & Ha)%HX. destruct (anc_dom p y a (ok_links _ HG) Ha) as [<-|[_ ?]]; done. Qed.
Lemma new_P y : y ∈ P ↔ y ∈ dom (mapTx p) ∧ y ∈ (hash <$> prevouts t).
Proof. unfold P. rewrite elem_of_intersection, elem_of_list_to_set. naive_solver. Qed.

(** The records before the ancestors are told. *)
Lemma new_records : ancestors_are nB p1 (stat p1) (anc p) ∧ descendants_are nB p1 (stat p1) (flip (anc p)).
Proof.
  pose proof Hp as [(_ & [HA HD] & _ & _) _]. assert (∀ x, anc p h x ↔ x = h) as H1 by (intros x; split; [intros H; symmetry; by apply new_anc_own; [|left]|intros E; rewrite E; apply anc_refl]).
  assert (∀ x, anc p x h ↔ x = h) as H2 by (intros x; split; [intros H; by apply new_anc_own; [|right]|intros E; rewrite E; apply anc_refl]).
  assert (∀ (e : CTxMemPoolEntry), i64 (GetModifiedFee e) = GetModifiedFee e) as Hi by (intros; apply i64_i64).
  split; intros x ex; rewrite Hin, lookup_insert_Some; intros [[<- <-]|[Hne Hx]].
  - exists {[h]}. split; [intros a; rewrite H1; set_solver|]. unfold ancestors_state. rewrite !set_sum_singleton, !new_value_own, Hea. unfold count. rewrite size_singleton.
    change (GetModifiedFee (static e)) with (GetModifiedFee e). rewrite Hi. reflexivity.
  - destruct (HA x ex Hx) as (A & HA1 & HA2). exists A. split; [done|]. unfold ancestors_state. rewrite !new_sum; [done|..];
      (intros a Ha%HA1; destruct (anc_dom p x a (ok_links _ HG) Ha) as [<-|[_ ?]]; [by eapply elem_of_dom_2|done]).
  - exists {[h]}. split; [intros a; unfold flip; rewrite H2; set_solver|]. unfold descendants_state. rewrite !set_sum_singleton, !new_value_own, Hed. unfold count. rewrite size_singleton.
    change (GetModifiedFee (static e)) with (GetModifiedFee e). rewrite Hi. reflexivity.
  - destruct (HD x ex Hx) as (A & HA1 & HA2). exists A. split; [done|]. unfold descendants_state. rewrite !new_sum; [done|..];
      (intros a Ha%HA1; eapply anc_in_dom; [done|by eapply elem_of_dom_2|exact Ha]).
Qed.

(** The links. *)
Definition new_link (a : uint256) (l : TxLinks) : TxLinks := if decide (a ∈ P) then with_children (adjust true h) l else l.
Definition linked (lk : gmap uint256 TxLinks) : Prop := lk !! h = Some (mk_links P ∅) ∧ ∀ a, a ≠ h → lk !! a = new_link a <$> mapLinks p !! a.
Lemma h_not_P : h ∉ P.
Proof. intros [Hh _]%new_P. by apply (add_new _ _ Hadd). Qed.
Lemma new_parents_linked : ∃ u, same_usage node_usage p1 (<[h := mk_links P ∅]> (mapLinks p1)) u ∧
  foldl (λ p phash, match mapTx p !! phash with Some _ => UpdateParent node_usage h phash true p | None => p end) p1 (elements (list_to_set (hash <$> prevouts t) : setEntries)) =
    set_links p1 (<[h := mk_links P ∅]> (mapLinks p1)) u.
Proof.
  destruct (fold_new_parents node_usage h (elements (list_to_set (hash <$> prevouts t) : setEntries)) p1 (mk_links ∅ ∅)) as (u & E & Hu); [apply lookup_insert_eq|].
  cbn [parents children] in *. rewrite list_to_set_elements_L in *. assert (∅ ∪ (list_to_set (hash <$> prevouts t) ∩ dom (mapTx p1)) = P) as EP.
  { apply set_eq. intros a. rewrite new_dom, new_P, !elem_of_union, elem_of_intersection, elem_of_list_to_set, elem_of_union, elem_of_singleton. split; [|naive_solver].
    intros [?|[Ha [E'|?]]]; [set_solver| |done]. exfalso. apply (add_no_loop _ _ Hadd). fold h. by rewrite <- E'. }
  rewrite EP in *. by exists u.
Qed.
Lemma new_ancestors_told : ∃ lk u m4, same_usage node_usage p1 lk u ∧ linked lk ∧
  UpdateAncestorsOf nB node_usage true h X
      (foldl (λ p phash, match mapTx p !! phash with Some _ => UpdateParent node_usage h phash true p | None => p end) p1 (elements (list_to_set (hash <$> prevouts t) : setEntries))) =
    Ok (set_mapTx (set_links p1 lk u) m4) ∧ stat (set_mapTx (set_links p1 lk u) m4) = stat p1 ∧
  ancestors_are nB (set_mapTx p1 m4) (stat p1) (anc p) ∧ descendants_are nB (set_mapTx p1 m4) (stat p1) (λ a y, anc p y a ∨ (a ∈ X ∧ y = h)).
Proof.
  destruct new_parents_linked as (u2 & Hu2 & ->). set (p2 := set_links p1 _ u2). destruct new_records as [HA HD]. pose proof new_small as Hsm. pose proof new_dom as Hd.
  assert (dom (mapLinks p2) = {[h]} ∪ dom (mapTx p)) as Hdl by (cbn; rewrite !dom_insert_L; destruct (ok_links _ HG) as (-> & _); set_solver).
  destruct (UpdateAncestorsOf_unfold nB node_usage true h X p2 e (mk_links P ∅)) as (lk & u & Hu & Hlk & ->).
  { change (mapTx p2) with (mapTx p1). by rewrite Hin, lookup_insert_eq. } { apply lookup_insert_eq. } { rewrite Hdl. intros a [Ha _]%new_P. set_solver. } { exact Hsm. }
  destruct (descendants_add nB (set_links p2 lk u) (flip (anc p)) X h) as (m4 & E & Hsb & HD4).
  { exact HD. } { exact Hsm. } { change (mapTx (set_links p2 lk u)) with (mapTx p1). rewrite Hd. pose proof new_X_dom. set_solver. } { change (mapTx (set_links p2 lk u)) with (mapTx p1). rewrite Hd. set_solver. }
  { change (mapTx (set_links p2 lk u)) with (mapTx p1). rewrite Hd. unfold flip. intros a y Ha Hy. destruct (anc_dom p y a (ok_links _ HG) Hy) as [->|[? _]]; [done|set_solver]. }
  { unfold flip. intros a Ha Hha. apply new_anc_own in Hha; [|by left]. apply (add_new _ _ Hadd). fold h. rewrite Hha. by apply new_X_dom. }
  exists lk, u, m4. rewrite !Z.mul_1_l. change (stat p2) with (stat (set_links p2 lk u)). rewrite E. cbn [rbind]. split_and!.
  - by eapply same_usage_trans.
  - split.
    + rewrite (Hlk h), decide_False by (rewrite elem_of_elements; apply h_not_P). unfold p2. cbn [mapLinks set_links]. apply lookup_insert_eq.
    + intros a Hne. rewrite (Hlk a). unfold p2, p1, insert_entry. cbn [mapLinks set_links]. rewrite !lookup_insert_ne by done. unfold new_link. case_decide as H1; case_decide as H2; rewrite elem_of_elements in H1; try done.
      by rewrite option_fmap_id.
  - done.
  - apply Hsb.
  - by apply (ancestors_kept nB (set_links p2 lk u) (set_mapTx (set_links p2 lk u) m4)).
  - exact HD4.
Qed.

Lemma shifts_own m : small nB m → {[h]} ∪ X ⊆ dom m → h ∉ X → shifts nB m {[h]} m ({[h]} ∪ X) (set_sum (size_at m) X) (i64 (set_sum (fee_at m) X)) (count X).
Proof.
  intros Hs HY Hh. pose proof (size_bounds nB m _ Hs HY) as (B1 & _ & B3). pose proof (size_pos_set nB m _ h Hs HY ltac:(set_solver)) as [P1 P2].
  apply shifts_fee. rewrite !set_sum_insert, count_insert in * by done. unfold shifts. rewrite !set_sum_insert, !set_sum_singleton, count_insert by done.
  assert (count {[h]} = 1) as E by (unfold count; by rewrite size_singleton). split_and!; lia || done.
Qed.
Lemma new_entry_told q : stat q = stat p1 → ancestors_are nB q (stat p1) (anc p) →
  ∃ m5, UpdateEntryForAncestors nB h X q = Ok (set_mapTx q m5) ∧ same_but descendants_of q (set_mapTx q m5) ∧
    ancestors_are nB (set_mapTx q m5) (stat p1) (λ x a, anc p x a ∨ (x = h ∧ a ∈ X)).
Proof.
  intros Hst HA. pose proof new_small as Hsm. pose proof (stat_same_dom _ _ Hst) as Hd. rewrite new_dom in Hd. pose proof new_X_dom as HXd.
  assert (h ∉ X) as HhX by (intros Hx; by apply (add_new _ _ Hadd), HXd). assert ({[h]} ∪ X ⊆ dom (stat p1)) as Hsub by (rewrite stat_dom, new_dom; set_solver).
  unfold UpdateEntryForAncestors. rewrite ancestor_sums_ok by (rewrite Hd; set_solver). cbn [rbind].
  pose proof (size_bounds nB (stat p1) X Hsm ltac:(set_solver)) as (B1 & B2 & B3). rewrite Hst, (i64_small (set_sum (size_at _) X)), (i64_small (set_sum (sigops_at _) X)), (i64_small (count X)) by lia.
  rewrite <- modify_all_one. eapply (modify_ancestors nB q (stat p1) {[h]}); [exact HA|rewrite Hd; set_solver|]. intros a A Ha HAa. case_decide as Hah.
  - assert (a = h) as -> by set_solver. assert (A = {[h]}) as ->.
    { apply set_eq. intros y. rewrite HAa, elem_of_singleton. split; [intros Hy; symmetry; apply new_anc_own; [done|by left]|intros E; rewrite E; apply anc_refl]. }
    exists ({[h]} ∪ X). split; [|split; [by apply shifts_own|]].
    + intros y. specialize (HAa y). set_solver.
    + pose proof (size_bounds nB (stat p1) ({[h]} ∪ X) Hsm Hsub) as (_ & B & _). split; [|lia]. by rewrite set_sum_insert, set_sum_singleton.
  - intros y. rewrite HAa. set_solver.
Qed.

(** The pool at the end. *)
Section Added.
Context (m5 : gmap uint256 CTxMemPoolEntry) (lk : gmap uint256 TxLinks) (u upd : Z).
Context (H5 : static <$> m5 = stat p1) (Hlk : linked lk) (Hu : same_usage node_usage p1 lk u).
Context (HA : ancestors_are nB (set_mapTx p1 m5) (stat p1) (λ x a, anc p x a ∨ (x = h ∧ a ∈ X))) (HD : descendants_are nB (set_mapTx p1 m5) (stat p1) (λ a y, anc p y a ∨ (a ∈ X ∧ y = h))).
Let n := length (vTxHashes p).
Let q := mk_pool (alter (set_idx n) h m5) lk (mapNextTx p1) (mapDeltas p) (u64 (totalTxSize p + GetTxSize nB entry)) u upd (vTxHashes p ++ [(GetWitnessHash t, h)]).

Lemma added_lookup x e' : mapTx q !! x = Some e' → ∃ e5, m5 !! x = Some e5 ∧
  ((x = h ∧ e' = set_idx n e5 ∧ static e5 = static e) ∨ (x ≠ h ∧ e' = e5 ∧ ∃ e0, mapTx p !! x = Some e0 ∧ static e5 = static e0)).
Proof.
  unfold q. cbn [mapTx]. intros Hx. assert (∀ e5, m5 !! x = Some e5 → ∃ e1, mapTx p1 !! x = Some e1 ∧ static e5 = static e1) as Hold.
  { intros e5 He5. pose proof (f_equal (lookup x) H5) as E. unfold stat in E. rewrite !lookup_fmap, He5 in E. destruct (mapTx p1 !! x) as [e1|]; [|done]. exists e1.
    cbn [fmap option_fmap option_map] in E. split; congruence. }
  destruct (decide (x = h)) as [E|Hne].
  - rewrite E in *. rewrite lookup_alter_eq in Hx. destruct (m5 !! h) as [e5|]; [|done]. cbn [fmap option_fmap option_map] in Hx. injection Hx as <-. exists e5. split; [done|]. left.
    split_and!; [done|done|]. destruct (Hold e5 eq_refl) as (e1 & He1 & ->). rewrite Hin, lookup_insert_eq in He1. congruence.
  - rewrite lookup_alter_ne in Hx by done. exists e'. split; [done|]. right. split_and!; [done|done|]. destruct (Hold e' Hx) as (e1 & He1 & E). rewrite Hin, lookup_insert_ne in He1 by done. eauto.
Qed.
Lemma added_back x e1 : mapTx p1 !! x = Some e1 → ∃ e', mapTx q !! x = Some e' ∧ tx e' = tx e1 ∧ vTxHashesIdx e' = if decide (x = h) then n else vTxHashesIdx e1.
Proof.
  intros Hx. pose proof (f_equal (lookup x) H5) as E. unfold stat in E. rewrite !lookup_fmap, Hx in E. destruct (m5 !! x) as [e5|] eqn:E5; [|done].
  cbn [fmap option_fmap option_map] in E. assert (static e5 = static e1) as Es by congruence. injection Es as T1 _ _ _ _ _ _ _ _ _ T2. unfold q. cbn [mapTx]. case_decide as Hh.
  - rewrite Hh in *. rewrite lookup_alter_eq, E5. by eexists.
  - rewrite lookup_alter_ne, E5 by done. by eexists.
Qed.
Lemma added_value f x : (∀ e, f (static e) = f (base e)) → value_at (stat q) f x = value_at (stat p1) f x.
Proof.
  intros Hf. rewrite <- H5. unfold value_at, stat, q. cbn [mapTx]. rewrite !lookup_fmap. destruct (decide (x = h)) as [E|Hne]; [|by rewrite lookup_alter_ne].
  rewrite E, lookup_alter_eq. destruct (m5 !! h) as [e5|]; [|done]. cbn [fmap option_fmap option_map from_option]. rewrite !Hf. done.
Qed.
Lemma added_dom : dom (mapTx q) = {[h]} ∪ dom (mapTx p).
Proof. unfold q. cbn [mapTx]. rewrite dom_alter_L. rewrite <- new_dom, <- stat_dom, <- H5. by rewrite dom_fmap_L. Qed.
Lemma added_parent a b : parent q a b ↔ parent p a b ∨ (b = h ∧ a ∈ P).
Proof.
  destruct Hlk as [L1 L2]. unfold parent at 1. cbn [mapLinks q]. destruct (decide (b = h)) as [E|Hne].
  - rewrite E, L1. split; [intros (l & [= <-] & Ha); by right|]. intros [(l & Hl & _)|[_ Ha]]; [|by eexists]. exfalso. apply (add_new _ _ Hadd). fold h.
    destruct (ok_links _ HG) as (<- & _). by eapply elem_of_dom_2.
  - rewrite (L2 b Hne). unfold parent, new_link. destruct (mapLinks p !! b) as [l|]; cbn [fmap option_fmap option_map]; [|naive_solver]. split.
    + intros (l' & [= <-] & Ha). left. exists l. split; [done|]. by case_decide.
    + intros [(l' & [= <-] & Ha)|[? _]]; [|done]. eexists. split; [done|]. by case_decide.
Qed.
Lemma added_child a b : child q a b ↔ child p a b ∨ (b = h ∧ a ∈ P).
Proof.
  destruct Hlk as [L1 L2]. unfold child at 1. cbn [mapLinks q]. destruct (decide (a = h)) as [E|Hne].
  - rewrite E, L1. split; [intros (l & [= <-] & Ha); set_solver|]. intros [(l & Hl & _)|[_ Ha]]; exfalso; [|by apply h_not_P]. apply (add_new _ _ Hadd). fold h.
    destruct (ok_links _ HG) as (<- & _). by eapply elem_of_dom_2.
  - rewrite (L2 a Hne). unfold child, new_link. destruct (mapLinks p !! a) as [l|] eqn:El; cbn [fmap option_fmap option_map].
    + split.
      * intros (l' & [= <-] & Ha). case_decide as Hc; [|left; by exists l]. cbn in Ha. destruct (decide (b = h)); [by right|]. left. exists l. set_solver.
      * intros [(l' & [= <-] & Ha)|[E Ha]]; eexists; (split; [done|]); [case_decide; cbn; set_solver|]. rewrite decide_True by done. cbn. rewrite E. set_solver.
    + split; [naive_solver|]. intros [(? & ? & _)|[_ [Ha _]%new_P]]; [done|]. exfalso. destruct (ok_links _ HG) as (Hd & _). rewrite <- Hd in Ha. by apply not_elem_of_dom in El.
Qed.
Lemma added_anc x a : anc q x a ↔ anc p x a ∨ (x = h ∧ a ∈ X).
Proof.
  split.
  - induction 1 as [|x y a H _ IH]; [left; apply anc_refl|]. apply added_parent in H as [H|[E Hy]].
    + assert (y ≠ h) as Hne by (intros E; apply (add_new _ _ Hadd); fold h; rewrite <- E; destruct (ok_links _ HG) as (_ & Hp' & _); by eapply Hp').
      destruct IH as [IH|[? _]]; [|done]. left. by eapply rtc_l.
    + right. split; [done|]. destruct IH as [IH|[E' _]]; [|exfalso; apply h_not_P; by rewrite <- E']. apply HX. exists y. by rewrite <- new_P.
  - assert (∀ x a, anc p x a → anc q x a) as Hsub.
    { intros x' a'. induction 1 as [|x' y a' H _ IH]; [apply rtc_refl|]. eapply rtc_l; [|exact IH]. unfold flip. apply added_parent. by left. }
    intros [H|[E Ha]]; [by apply Hsub|]. apply HX in Ha as (y & Hy & Ha). rewrite E. eapply rtc_l; [|by apply Hsub]. unfold flip. apply added_parent. right. by rewrite new_P.
Qed.
Lemma added_graph : graph_ok q.
Proof.
  destruct Htx as (T1 & _). constructor.
  - split_and!.
    + rewrite added_dom. destruct (ok_links _ HG) as (Hd & _). apply set_eq. intros a. unfold q. cbn [mapLinks]. rewrite elem_of_dom, elem_of_union, elem_of_singleton, <- Hd, elem_of_dom.
      destruct Hlk as [L1 L2]. destruct (decide (a = h)) as [E|Hne]; [rewrite E, L1; split; [by left|by eexists]|]. rewrite (L2 a Hne), fmap_is_Some. naive_solver.
    + intros a b [H|[_ Ha]]%added_parent; rewrite added_dom; [destruct (ok_links _ HG) as (_ & H' & _); apply H' in H|apply new_P in Ha as [? _]]; set_solver.
    + intros a b [H|[E _]]%added_child; rewrite added_dom; [destruct (ok_links _ HG) as (_ & _ & H'); apply H' in H|rewrite E]; set_solver.
  - intros a b. rewrite added_parent, added_child. by rewrite (ok_sym _ HG).
  - destruct (ok_acyclic _ HG) as [rank Hr]. exists (λ x, if decide (x = h) then Datatypes.S (list_max (rank <$> elements P)) else rank x). intros a b [H|[E Ha]]%added_parent.
    + assert (∀ x, x ∈ dom (mapTx p) → x ≠ h) as Hne by (intros x Hx E; apply (add_new _ _ Hadd); fold h; by rewrite <- E). destruct (ok_links _ HG) as (Hd & Hpd & _).
      rewrite !decide_False; [by apply Hr| |]; apply Hne; [|by eapply Hpd]. destruct H as (l & Hl & _). rewrite <- Hd. by eapply elem_of_dom_2.
    + rewrite decide_False by (intros E'; apply h_not_P; by rewrite <- E'). rewrite decide_True by done. apply Nat.lt_succ_r.
      pose proof (proj1 (list_max_le (rank <$> elements P) _) (Nat.le_refl _)) as Hle. rewrite Forall_forall in Hle. apply Hle, list_elem_of_fmap_2, elem_of_elements, Ha.
  - intros x e' Hx. destruct (added_lookup x e' Hx) as (e5 & _ & [(E & -> & Hs)|(_ & -> & e0 & He0 & Hs)]); injection Hs as Hs _.
    + cbn [tx set_idx]. rewrite Hs, T1. done.
    + rewrite Hs. by apply (ok_keys _ HG).
  - intros x e' Hx a. rewrite added_parent, added_dom. destruct (added_lookup x e' Hx) as (e5 & _ & [(E & -> & Hs)|(Hne & -> & e0 & He0 & Hs)]); injection Hs as Hs _.
    + cbn [tx set_idx]. rewrite Hs, T1, new_P. split.
      * intros [(l & Hl & _)|[_ ?]]; [|set_solver]. exfalso. apply (add_new _ _ Hadd). fold h. rewrite <- E. destruct (ok_links _ HG) as (<- & _). by eapply elem_of_dom_2.
      * intros [Ha1 Ha2]. right. split_and!; [done| |done]. apply elem_of_union in Ha1 as [Ha1%elem_of_singleton|]; [|done]. exfalso. apply (add_no_loop _ _ Hadd). fold h. by rewrite <- Ha1.
    + rewrite Hs, (ok_parents _ HG x e0 He0). pose proof (add_no_child _ _ Hadd x e0 He0) as Hnc. fold h in Hnc. set_solver.
Qed.
Lemma added_sum f S : (∀ e, f (static e) = f (base e)) → set_sum (value_at (stat q) f) S = set_sum (value_at (stat p1) f) S.
Proof. intros Hf. apply set_sum_ext. intros x _. by apply added_value. Qed.
Lemma added_states : states_ok nB q.
Proof.
  assert (∀ x e', mapTx q !! x = Some e' → ∃ e5, mapTx (set_mapTx p1 m5) !! x = Some e5 ∧ ancestors_of e5 = ancestors_of e' ∧ descendants_of e5 = descendants_of e') as Hold.
  { intros x e' Hx. destruct (added_lookup x e' Hx) as (e5 & He5 & [(_ & -> & _)|(_ & -> & _)]); by exists e5. }
  split; intros x e' Hx; destruct (Hold x e' Hx) as (e5 & He5 & E1 & E2).
  - destruct (HA x e5 He5) as (A & HA1 & HA2). exists A. split; [intros a; by rewrite HA1, added_anc|]. unfold ancestors_state. rewrite !added_sum by done. by rewrite <- E1.
  - destruct (HD x e5 He5) as (A & HA1 & HA2). exists A. split; [|unfold descendants_state; rewrite !added_sum by done; by rewrite <- E2].
    intros a. rewrite HA1. unfold flip. rewrite added_anc. naive_solver.
Qed.
Lemma added_small : small nB (stat q).
Proof.
  destruct new_small as (K1 & K2 & K3). assert (dom (stat q) = dom (stat p1)) as Hd by (rewrite !stat_dom, added_dom, new_dom; done). split_and!.
  - intros x e'. unfold stat. rewrite lookup_fmap. destruct (mapTx q !! x) as [e''|] eqn:Hx; [|done]. intros [= <-].
    destruct (added_lookup x e'' Hx) as (e5 & He5 & Hc). destruct (K1 x (static e5)) as [P1 P2]; [by rewrite <- H5, lookup_fmap, He5|]. by destruct Hc as [(_ & -> & _)|(_ & -> & _)].
  - rewrite Hd, added_sum by done. done.
  - rewrite Hd, added_sum by done. done.
Qed.
Lemma added_next o x : mapNextTx p1 !! o = Some x ↔ ∃ e', mapTx q !! x = Some e' ∧ o ∈ prevouts (tx e').
Proof.
  pose proof Hp as [(_ & _ & _ & Hst) _]. pose proof (ok_next _ _ _ Hst) as Hn. destruct Htx as (T1 & _). unfold p1, insert_entry. cbn [mapNextTx]. change (prevout <$> vin (tx entry)) with (prevouts t).
  rewrite foldl_next by (intros y Hy; left; by apply (add_no_conflict _ _ Hadd)). split.
  - case_decide as Ho.
    + intros [= E]. destruct (added_back h e) as (e' & He' & Ht & _); [by rewrite Hin, lookup_insert_eq|]. exists e'. rewrite Ht, T1. by rewrite <- E.
    + intros (e0 & He0 & Ho0)%Hn. assert (x ≠ h) as Hne by (intros E; apply (add_new _ _ Hadd); fold h; rewrite <- E; by eapply elem_of_dom_2).
      destruct (added_back x e0) as (e' & He' & Ht & _); [by rewrite Hin, lookup_insert_ne|]. exists e'. by rewrite Ht.
  - intros (e' & He' & Ho). destruct (added_lookup x e' He') as (e5 & _ & [(E & -> & Hs)|(Hne & -> & e0 & He0 & Hs)]); injection Hs as Hs _.
    + cbn [tx set_idx] in Ho. rewrite Hs, T1 in Ho. by rewrite decide_True, E.
    + rewrite Hs in Ho. assert (mapNextTx p !! o = Some x) as Hox by (apply Hn; eauto). rewrite decide_False; [done|]. intros Ho'. apply (add_no_conflict _ _ Hadd) in Ho'. congruence.
Qed.
Lemma link_nodes_new (lks : gmap uint256 TxLinks) : h ∉ dom lks → link_nodes (<[h := mk_links ∅ ∅]> lks) = link_nodes lks.
Proof.
  intros Hh. unfold link_nodes. rewrite dom_insert_L, set_sum_insert, lookup_insert_eq by done. cbn [from_option]. change (nodes (mk_links ∅ ∅)) with 0.
  rewrite Z.add_0_l. apply set_sum_ext. intros x Hx. rewrite lookup_insert_ne; [done|]. intros E. apply Hh. by rewrite E.
Qed.
Lemma added_store : store_ok nB node_usage q.
Proof.
  pose proof Hp as [(_ & _ & _ & Hst) _]. destruct Htx as (T1 & T2 & T3 & T4). pose proof (ok_place _ _ _ Hst) as Hpl. constructor.
  - apply added_graph.
  - apply added_next.
  - intros x e' Hx. unfold q. cbn [vTxHashes]. destruct (added_lookup x e' Hx) as (e5 & _ & [(E & -> & Hs)|(Hne & -> & e0 & He0 & Hs)]); injection Hs as Hs _ _ _ _ _ _ _ _ _ Hi.
    + cbn [tx set_idx vTxHashesIdx]. rewrite Hs, T1, E. unfold n. by rewrite lookup_app_r, Nat.sub_diag.
    + rewrite Hs, Hi. apply lookup_app_l_Some. by apply Hpl.
  - intros i w x. unfold q at 1. cbn [vTxHashes]. intros [Hv|[Hlen Hv]]%lookup_app_Some.
    + destruct (ok_hash _ _ _ Hst i w x Hv) as (e0 & He0 & Hi). assert (x ≠ h) as Hne by (intros E; apply (add_new _ _ Hadd); fold h; rewrite <- E; by eapply elem_of_dom_2).
      destruct (added_back x e0) as (e' & He' & _ & Hi'); [by rewrite Hin, lookup_insert_ne|]. exists e'. split; [done|]. rewrite decide_False in Hi' by done. congruence.
    + apply list_lookup_singleton_Some in Hv as [Hi [= _ E]]. destruct (added_back h e) as (e' & He' & _ & Hi'); [by rewrite Hin, lookup_insert_eq|]. exists e'. rewrite <- E. split; [done|].
      rewrite decide_True in Hi' by done. unfold n in Hi'. lia.
  - rewrite added_sum, stat_dom, added_dom, <- new_dom, <- stat_dom, new_sum_all by done. unfold q. cbn [totalTxSize]. change (GetTxSize nB (static e)) with (GetTxSize nB e).
    rewrite T4, (ok_size _ _ _ Hst), u64_add_l, stat_dom. f_equal. lia.
  - rewrite added_sum, stat_dom, added_dom, <- new_dom, <- stat_dom, new_sum_all by done. unfold q. cbn [cachedInnerUsage mapLinks]. change (nUsageSize (static e)) with (nUsageSize e). rewrite T3.
    apply Hu. unfold p1, insert_entry. cbn [cachedInnerUsage mapLinks]. rewrite link_nodes_new, (ok_usage _ _ _ Hst), u64_add_l, stat_dom; [f_equal; lia|].
    destruct (ok_links _ HG) as (-> & _). apply (add_new _ _ Hadd).
Qed.
Lemma added_ok : pool_ok nB node_usage q.
Proof.
  split; [split_and!; [apply added_graph|apply added_states|apply added_small|apply added_store]|]. intros x e' Hx.
  destruct (added_lookup x e' Hx) as (e5 & _ & [(E & -> & Hs)|(Hne & -> & e0 & He0 & Hs)]); injection Hs as _ _ _ _ _ _ _ _ Hs _; unfold q; cbn [mapDeltas feeDelta set_idx]; rewrite Hs.
  - by rewrite E.
  - pose proof Hp as [_ Hdel]. by apply Hdel.
Qed.
End Added.
End Inserted.

Lemma addUnchecked_ok : ∃ q, addUnchecked nB node_usage h entry X p = Ok q ∧ pool_ok nB node_usage q ∧ dom (mapTx q) = {[h]} ∪ dom (mapTx p) ∧
  (∀ x a, anc q x a ↔ anc p x a ∨ (x = h ∧ a ∈ X)) ∧ (∀ x, x ≠ h → static <$> mapTx q !! x = static <$> mapTx p !! x) ∧ size_at (stat q) h = GetTxSize nB entry.
Proof.
  destruct inserted as (e & Hin & Hdel & Htx & Hea & Hed). destruct (new_ancestors_told e) as (lk & u & m4 & Hu & Hlk & E4 & Hst4 & HA4 & HD4); [done..|].
  edestruct (new_entry_told e) with (q := set_mapTx (set_links p1 lk u) m4) as (m5 & E5 & Hsb5 & HA5); [done..|].
  assert (static <$> m5 = stat p1) as H5 by (etransitivity; [apply Hsb5|exact Hst4]).
  assert (descendants_are nB (set_mapTx p1 m5) (stat p1) (λ a y, anc p y a ∨ (a ∈ X ∧ y = h))) as HD5 by (by apply (descendants_kept nB (set_mapTx (set_links p1 lk u) m4) _ _ _ Hsb5)).
  eexists. split.
  { unfold addUnchecked. change (insert_entry h entry p) with p1. cbv zeta.
    replace (UpdateAncestorsOf _ _ _ _ _ _) with (Ok (E := mempool_error) (set_mapTx (set_links p1 lk u) m4)) by (symmetry; exact E4). cbn [rbind]. rewrite E5. cbn [rbind]. reflexivity. }
  split_and!.
  - by apply (added_ok e).
  - by apply (added_dom e).
  - intros x a. by apply added_anc.
  - intros x Hne. cbn [mapTx set_mapTx]. rewrite lookup_alter_ne by done. rewrite <- !lookup_fmap, H5. unfold stat. by rewrite Hin, fmap_insert, lookup_insert_ne, lookup_fmap.
  - unfold value_at, stat. cbn [mapTx set_mapTx]. rewrite lookup_fmap, lookup_alter_eq. pose proof (f_equal (lookup h) H5) as E. unfold stat in E. rewrite !lookup_fmap, Hin, lookup_insert_eq in E.
    destruct (m5 !! h) as [e5|]; [|done]. cbn [fmap option_fmap option_map from_option] in *. assert (static e5 = static e) as Es by congruence.
    change (GetTxSize nB (static e5) = GetTxSize nB entry). rewrite Es. apply Htx.
Qed.
End Adding.
End Pool.
