(* ===== verification/MempoolBlock.v ===== *)
(** * The memory pool: blocks, conflicts, expiry and trimming

    The operations that remove transactions together with what depends on them. *)
From S2P Require Import Prelude ArithUint256 Script Interpreter Serialize Transaction TxVerify Mempool MempoolFacts MempoolInv MempoolOps MempoolRemove.

Section Pool.
Context `{C : Crypto} (nB : Z) (node_usage : Z).
Implicit Types (p q : CTxMemPool) (x h it : uint256) (S X Y : setEntries) (t : CTransaction).
Abbreviation core_ok := (core_ok nB node_usage).
Abbreviation pool_ok := (pool_ok nB node_usage).

(** ** Descendants of a set *)

Lemma all_descendants_ok p S : graph_ok p → S ⊆ dom (mapTx p) →
  ∃ Y, all_descendants p S = Ok Y ∧ descendant_closed p Y ∧ ∀ x, x ∈ Y ↔ ∃ a, a ∈ S ∧ anc p x a.
Proof.
  intros HG HS. destruct (fold_set_ind (λ acc it, CalculateDescendants p it acc) (λ acc D, closure (child p) D acc ∧ acc ⊆ dom (mapTx p)) S ∅) as (Y & E & HY & Hd).
  - split; [|set_solver]. intros x. split; [set_solver|]. intros (? & ? & _). set_solver.
  - intros acc D x [Hc Hd] _ Hx _. destruct (descendants_found p D acc x (ok_links _ HG) Hc Hd (HS x Hx)) as (Y & ? & ? & ?). eauto.
  - assert (∀ x, x ∈ Y ↔ ∃ a, a ∈ S ∧ anc p x a) as HYa by (intros x; rewrite (HY x); by setoid_rewrite (child_path p _ _ (ok_sym _ HG))).
    exists Y. split_and!; [done|split; [done|]|done]. intros a b (c & Hc & Ha)%HYa Hab. apply HYa. exists c. split; [done|]. by eapply rtc_l.
Qed.

(** What is left of a pool after some removals: [q] has some of the entries of [p]. *)
Record left_of p q : Prop := {
  left_entry : ∀ a e, mapTx q !! a = Some e → ∃ e0, mapTx p !! a = Some e0 ∧ base e = base e0;
  left_parent : ∀ a b, parent q a b → parent p a b
}.
Lemma left_refl p : left_of p p.
Proof. constructor; eauto. Qed.
Lemma left_trans p q r : left_of p q → left_of q r → left_of p r.
Proof.
  intros [H1 H2] [H3 H4]. constructor; [|eauto]. intros a e He. destruct (H3 a e He) as (e1 & He1 & ->). destruct (H1 a e1 He1) as (e0 & He0 & ->). eauto.
Qed.
Lemma left_dom p q : left_of p q → dom (mapTx q) ⊆ dom (mapTx p).
Proof. intros [H _] a [e He]%elem_of_dom. destruct (H a e He) as (e0 & He0 & _). by eapply elem_of_dom_2. Qed.
Lemma remains_left p q S : remains p q S → left_of p q.
Proof. intros HR. constructor; [intros a e He; by apply (remains_lookup _ _ _ _ _ HR) in He as [_ ?]|]. intros a b H. by apply (rem_parent _ _ _ HR) in H as [H _]. Qed.
Lemma left_next p q o h : store_ok nB node_usage p → store_ok nB node_usage q → left_of p q → mapNextTx q !! o = Some h → mapNextTx p !! o = Some h.
Proof.
  intros Hp Hq [H _] (e & He & Ho)%(ok_next _ _ _ Hq). destruct (H h e He) as (e0 & He0 & Hb). apply (ok_next _ _ _ Hp). exists e0. split; [done|]. by injection Hb as <- _.
Qed.
Lemma left_deltas p q : left_of p q → mapDeltas q = mapDeltas p → deltas_ok p → deltas_ok q.
Proof. intros [H _] Hd Hok h e He. destruct (H h e He) as (e0 & He0 & Hb). rewrite Hd, <- (Hok h e0 He0). by injection Hb. Qed.

Lemma removeRecursive_ok p t : core_ok p →
  ∃ q S, removeRecursive nB node_usage t p = Ok q ∧ core_ok q ∧ remains p q S ∧ (GetHash t ∈ dom (mapTx p) → ∀ a, a ∈ S ↔ anc p a (GetHash t)).
Proof.
  intros Hok. pose proof Hok as (HG & _ & _ & Hst). unfold removeRecursive.
  assert (∃ R, (match mapTx p !! GetHash t with Some _ => Ok {[GetHash t]} | None => spenders p t end) = Ok R ∧ R ⊆ dom (mapTx p) ∧ (GetHash t ∈ dom (mapTx p) → R = {[GetHash t]})) as (R & -> & HR & Ht).
  { destruct (mapTx p !! GetHash t) as [e|] eqn:E; [exists {[GetHash t]}; apply elem_of_dom_2 in E; set_solver|].
    unfold spenders. destruct (fold_result_ind (λ (s : setEntries) i, match mapNextTx p !! mk_outpoint (GetHash t) (Z.of_nat i) with None => Ok s
      | Some h => let* _ := require (bool_decide (is_Some (mapTx p !! h))) assertion_failed in Ok ({[h]} ∪ s) end) (λ s _, s ⊆ dom (mapTx p)) (seq 0 (length (vout t)))) with (s := (∅ : setEntries)) as (R & -> & HR).
    - intros s i _ Hs. destruct (mapNextTx p !! _) as [h|] eqn:En; [|by exists s]. apply (ok_next _ _ _ Hst) in En as (e & He & _). rewrite He, bool_decide_true by (by eexists). cbn [require rbind].
      eexists. split; [done|]. apply elem_of_dom_2 in He. set_solver.
    - set_solver.
    - exists R. split_and!; [done|done|]. apply not_elem_of_dom in E. done. }
  cbn [rbind]. destruct (all_descendants_ok p R HG HR) as (S & -> & Hcl & HS). cbn [rbind].
  destruct (RemoveStaged_closed nB node_usage p S Hok Hcl) as (q & E & Hq & Hrem). exists q, S. split_and!; [done..|]. intros Hin a. rewrite HS, (Ht Hin). set_solver.
Qed.

(** ** Conflicts with a transaction *)

Lemma clear_core p h : core_ok p → core_ok (ClearPrioritisation h p).
Proof. intros (HG & HS & Hsm & [K1 K2 K3 K4 K5 K6]). split_and!; [by destruct HG|exact HS|exact Hsm|by constructor]. Qed.
Lemma clear_pool_ok p h : pool_ok p → h ∉ dom (mapTx p) → pool_ok (ClearPrioritisation h p).
Proof.
  intros [Hc Hd] Hh. split; [by apply clear_core|]. intros a e He. cbn in He |- *. rewrite lookup_delete_ne; [by apply Hd|]. intros ->. apply Hh. by eapply elem_of_dom_2.
Qed.
Lemma clear_left p h : left_of p (ClearPrioritisation h p).
Proof. constructor; [intros a e He; by exists e|done]. Qed.
Lemma remove_conflict_ok p t i : pool_ok p →
  ∃ q, remove_conflict nB node_usage t p i = Ok q ∧ pool_ok q ∧ left_of p q ∧ (∀ h, mapNextTx q !! prevout i = Some h → h = GetHash t) ∧
    (∀ a, a ∈ dom (mapTx p) → a ∉ dom (mapTx q) → ∃ h, mapNextTx p !! prevout i = Some h ∧ h ≠ GetHash t ∧ anc p a h).
Proof.
  intros Hok. pose proof Hok as [Hcore Hdel]. pose proof Hcore as (HG & _ & _ & Hst). unfold remove_conflict. destruct (mapNextTx p !! prevout i) as [h|] eqn:En.
  2: { exists p. split_and!; [done|done|apply left_refl|congruence|done]. }
  pose proof En as (e & He & Ho)%(ok_next _ _ _ Hst). unfold find. rewrite He. cbn [rbind]. pose proof (ok_keys _ HG h e He) as Hk. case_bool_decide as Heq.
  { exists p. split_and!; [done|done|apply left_refl|congruence|done]. }
  destruct (removeRecursive_ok (ClearPrioritisation (GetHash (tx e)) p) (tx e) (clear_core _ _ Hcore)) as (q & S & -> & Hq & Hrem & Hin). exists q.
  assert (left_of p q) as Hleft by (eapply left_trans; [apply clear_left|by eapply remains_left]). assert (h ∉ dom (mapTx q)) as Hh.
  { rewrite (remains_dom _ _ _ Hrem). rewrite Hk in Hin. specialize (Hin ltac:(by eapply elem_of_dom_2) h). pose proof (anc_refl (ClearPrioritisation h p) h). set_solver. }
  split_and!; [done|split; [done|]|done| |].
  - intros a ea Ha. destruct (left_entry _ _ Hleft a ea Ha) as (e0 & He0 & Hb). rewrite (rem_deltas _ _ _ Hrem). cbn. rewrite Hk. rewrite lookup_delete_ne.
    + rewrite <- (Hdel a e0 He0). by injection Hb.
    + intros ->. apply Hh. by eapply elem_of_dom_2.
  - intros h' Hh'. destruct Hq as (_ & _ & _ & Hstq). pose proof Hh' as Hh2%(left_next p q); [|done..]. assert (h' = h) as -> by congruence.
    apply (ok_next _ _ _ Hstq) in Hh' as (e' & He' & _). exfalso. apply Hh. by eapply elem_of_dom_2.
  - intros a Ha1 Ha2. exists h. split_and!; [done|congruence|]. rewrite (remains_dom _ _ _ Hrem) in Ha2. rewrite Hk in Hin. apply (Hin ltac:(by eapply elem_of_dom_2) a). cbn in Ha2. destruct (decide (a ∈ S)); [done|set_solver].
Qed.
Lemma left_anc p q x a : left_of p q → anc q x a → anc p x a.
Proof. intros [_ H]. induction 1 as [|x y a H' _ IH]; [apply rtc_refl|]. eapply rtc_l; [by apply H|done]. Qed.
(** The transactions that a transaction of a block puts out: those that spend the same
    outputs, and what depends on them. *)
Definition evicted_by p t (a : uint256) : Prop := ∃ o h, o ∈ prevouts t ∧ mapNextTx p !! o = Some h ∧ h ≠ GetHash t ∧ anc p a h.
Lemma left_evicted p q t a : store_ok nB node_usage p → store_ok nB node_usage q → left_of p q → evicted_by q t a → evicted_by p t a.
Proof. intros Hp Hq Hl (o & h & Ho & Hn & Hne & Ha). exists o, h. split_and!; [done|by eapply left_next|done|by eapply left_anc]. Qed.
Lemma pool_store p : pool_ok p → store_ok nB node_usage p.
Proof. by intros [(_ & _ & _ & H) _]. Qed.
Lemma removeConflicts_ok p t : pool_ok p →
  ∃ q, removeConflicts nB node_usage t p = Ok q ∧ pool_ok q ∧ left_of p q ∧ (∀ o h, o ∈ prevouts t → mapNextTx q !! o = Some h → h = GetHash t) ∧
    (∀ a, a ∈ dom (mapTx p) → a ∉ dom (mapTx q) → evicted_by p t a).
Proof.
  intros Hok. unfold removeConflicts. destruct (fold_result_ind (remove_conflict nB node_usage t) (λ q l, (∃ k, vin t = k ++ l) ∧ pool_ok q ∧ left_of p q ∧
    (∀ i h, i ∈ vin t → i ∉ l → mapNextTx q !! prevout i = Some h → h = GetHash t) ∧ ∀ a, a ∈ dom (mapTx p) → a ∉ dom (mapTx q) → evicted_by p t a) (vin t)) with (s := p)
    as (q & E & _ & Hq & Hl & Hn & He).
  - intros q i l ([k Hk] & Hq & Hl & Hn & He). destruct (remove_conflict_ok q t i Hq) as (q' & E & Hq' & Hl' & Hn' & He'). exists q'.
    split_and!; [done|exists (k ++ [i]); by rewrite <- app_assoc|done|by eapply left_trans| |].
    + intros j h Hj Hjl Hjn. destruct (decide (prevout j = prevout i)) as [Ee|Hne]; [rewrite Ee in Hjn; by apply Hn'|]. apply (Hn j h Hj).
      * intros [->|Hin]%elem_of_cons; [done|by apply Hjl].
      * by eapply (left_next q); [apply pool_store..| |].
    + intros a Ha1 Ha2. destruct (decide (a ∈ dom (mapTx q))) as [Ha3|]; [|by apply He]. destruct (He' a Ha3 Ha2) as (h & H1 & H2 & H3).
      apply (left_evicted p q); [by apply pool_store..|done|]. exists (prevout i), h. split_and!; [|done..]. apply list_elem_of_fmap_2. rewrite Hk. set_solver.
  - split_and!; [by exists []|done|apply left_refl|done|done].
  - exists q. split_and!; [done|done|done| |done]. intros o h Ho Hh. unfold prevouts in Ho. apply list_elem_of_fmap_1 in Ho as (i & -> & Hi). apply (Hn i h Hi); [apply not_elem_of_nil|done].
Qed.

(** ** Blocks *)

Lemma remove_block_tx_ok p t : pool_ok p → (∀ a, ¬ parent p a (GetHash t)) →
  ∃ q, remove_block_tx nB node_usage p t = Ok q ∧ pool_ok q ∧ left_of p q ∧ GetHash t ∉ dom (mapTx q) ∧ (∀ o, o ∈ prevouts t → mapNextTx q !! o = None) ∧
    (∀ a, a ∈ dom (mapTx p) → a ∉ dom (mapTx q) → a = GetHash t ∨ evicted_by p t a).
Proof.
  intros Hok Hroot. pose proof Hok as [Hcore Hdel]. unfold remove_block_tx.
  assert (∃ p1, match mapTx p !! GetHash t with Some _ => RemoveStaged nB node_usage {[GetHash t]} true p | None => Ok p end = Ok p1 ∧ pool_ok p1 ∧ left_of p p1 ∧ dom (mapTx p1) = dom (mapTx p) ∖ {[GetHash t]}) as (p1 & -> & Hp1 & Hl1 & Hd1).
  { destruct (mapTx p !! GetHash t) as [e|] eqn:E.
    - destruct (RemoveStaged_root nB node_usage p (GetHash t) Hcore) as (q & -> & Hq & Hrem); [by eapply elem_of_dom_2|done|]. exists q. pose proof (remains_left _ _ _ Hrem) as Hl.
      split_and!; [done|split; [done|eapply left_deltas; [exact Hl|by apply (rem_deltas _ _ _ Hrem)|done]]|done|by apply remains_dom].
    - exists p. split_and!; [done|split; done|apply left_refl|]. apply not_elem_of_dom in E. set_solver. }
  cbn [rbind]. destruct (removeConflicts_ok p1 t Hp1) as (p2 & -> & Hp2 & Hl2 & Hn2 & He2). cbn [rbind]. assert (GetHash t ∉ dom (mapTx p2)) as Ht by (apply left_dom in Hl2; set_solver).
  eexists. split; [done|]. assert (left_of p p2) as Hl by (by eapply left_trans). split_and!; [by apply clear_pool_ok|by eapply left_trans, clear_left|done| |].
  - intros o Ho. cbn. destruct (mapNextTx p2 !! o) as [h|] eqn:En; [|done]. exfalso. rewrite (Hn2 o h Ho En) in En. apply (ok_next _ _ _ (pool_store _ Hp2)) in En as (e & He & _). apply Ht. by eapply elem_of_dom_2.
  - intros a Ha1 Ha2. cbn in Ha2. destruct (decide (a = GetHash t)); [by left|]. right. apply (left_evicted p p1); [by apply pool_store..|done|]. apply He2; set_solver.
Qed.
(** The parents in the pool of a transaction of the block come before it in the block. *)
Definition block_in_order p (vtx : list CTransaction) : Prop :=
  ∀ k t l, vtx = k ++ t :: l → ∀ a, parent p a (GetHash t) → a ∈ (GetHash <$> k).
Lemma removeForBlock_ok p (vtx : list CTransaction) : pool_ok p → block_in_order p vtx →
  ∃ q, removeForBlock nB node_usage vtx p = Ok q ∧ pool_ok q ∧ left_of p q ∧
    (∀ t, t ∈ vtx → GetHash t ∉ dom (mapTx q) ∧ ∀ o, o ∈ prevouts t → mapNextTx q !! o = None) ∧
    (∀ a, a ∈ dom (mapTx p) → a ∉ dom (mapTx q) → ∃ t, t ∈ vtx ∧ (a = GetHash t ∨ evicted_by p t a)).
Proof.
  intros Hok Hord. unfold removeForBlock. destruct (fold_result_ind (remove_block_tx nB node_usage) (λ q l, ∃ k, vtx = k ++ l ∧ pool_ok q ∧ left_of p q ∧
    (∀ t, t ∈ k → GetHash t ∉ dom (mapTx q) ∧ ∀ o, o ∈ prevouts t → mapNextTx q !! o = None) ∧
    (∀ a, a ∈ dom (mapTx p) → a ∉ dom (mapTx q) → ∃ t, t ∈ vtx ∧ (a = GetHash t ∨ evicted_by p t a))) vtx) with (s := p) as (q & E & k & Hk & Hq & Hl & Hg & He).
  - intros q t l (k & Hk & Hq & Hl & Hg & He). destruct (remove_block_tx_ok q t Hq) as (q' & E & Hq' & Hl' & Ht & Ho & He').
    { intros a Ha. pose proof (Hord k t l Hk a (left_parent _ _ Hl _ _ Ha)) as Hin. apply list_elem_of_fmap_1 in Hin as (t' & -> & Ht'). apply (proj1 (Hg t' Ht')).
      destruct Hq as [(HG & _) _]. destruct (ok_links _ HG) as (_ & Hp & _). by eapply Hp. }
    exists q'. split; [done|]. exists (k ++ [t]). split_and!; [by rewrite <- app_assoc|done|by eapply left_trans| |].
    + intros t' [Ht'|Ht']%elem_of_app.
      * destruct (Hg t' Ht') as [G1 G2]. split; [intros Hin; by apply G1, (left_dom _ _ Hl')|]. intros o Hot. destruct (mapNextTx q' !! o) as [h|] eqn:En; [|done].
        apply (left_next q q') in En; [|by apply pool_store..|done]. rewrite (G2 o Hot) in En. done.
      * apply list_elem_of_singleton in Ht' as ->. by split.
    + intros a Ha1 Ha2. destruct (decide (a ∈ dom (mapTx q))) as [Ha3|]; [|by apply He]. exists t. split; [rewrite Hk; set_solver|].
      destruct (He' a Ha3 Ha2) as [->|Hev]; [by left|]. right. by apply (left_evicted p q); [apply pool_store..| |].
  - exists []. split_and!; [done|done|apply left_refl|set_solver|done].
  - exists q. rewrite app_nil_r in Hk. subst k. done.
Qed.

(** ** Expiry and trimming *)

Lemma pool_remove_closed p S : pool_ok p → descendant_closed p S → ∃ q, RemoveStaged nB node_usage S false p = Ok q ∧ pool_ok q ∧ left_of p q ∧ remains p q S.
Proof.
  intros [Hcore Hdel] Hcl. destruct (RemoveStaged_closed nB node_usage p S Hcore Hcl) as (q & E & Hq & Hrem). pose proof (remains_left _ _ _ Hrem) as Hl. exists q.
  split_and!; [done|split; [done|]|done|done]. eapply left_deltas; [exact Hl|by apply (rem_deltas _ _ _ Hrem)|done].
Qed.
(** What expires is what is old, with its descendants. *)
Lemma Expire_ok p time : pool_ok p → ∃ q n, Expire nB node_usage time p = Ok (n, q) ∧ pool_ok q ∧ left_of p q ∧
  (∀ h e, mapTx q !! h = Some e → time ≤ nTime e) ∧
  (∀ a, a ∈ dom (mapTx p) → a ∉ dom (mapTx q) ↔ ∃ h e, mapTx p !! h = Some e ∧ nTime e < time ∧ anc p a h).
Proof.
  intros Hok. pose proof Hok as [(HG & _) _]. unfold Expire. set (R := dom (filter _ (mapTx p))).
  assert (∀ h, h ∈ R ↔ ∃ e, mapTx p !! h = Some e ∧ nTime e < time) as HR.
  { intros h. unfold R. rewrite elem_of_dom. split; [intros [e He]; apply map_lookup_filter_Some in He; by exists e|]. intros (e & He). exists e. by apply map_lookup_filter_Some. }
  destruct (all_descendants_ok p R HG) as (S & -> & Hcl & HS). { intros h (e & He & _)%HR. by eapply elem_of_dom_2. }
  cbn [rbind]. destruct (pool_remove_closed p S Hok Hcl) as (q & -> & Hq & Hl & Hrem). cbn [rbind]. exists q, (count S). pose proof (remains_dom _ _ _ Hrem) as Hd. split_and!; [done..| |].
  - intros h e He. destruct (remains_lookup _ _ _ _ _ Hrem He) as (Hh & e0 & He0 & Hb). assert (nTime e = nTime e0) as -> by (by injection Hb). destruct (Z.le_gt_cases time (nTime e0)) as [|Hlt]; [done|].
    exfalso. apply Hh, HS. exists h. split; [apply HR; eauto|apply anc_refl].
  - intros a Ha. rewrite Hd. split.
    + intros Ha2. assert (a ∈ S) as (h & (e & He)%HR & Hah)%HS by (destruct (decide (a ∈ S)); set_solver). naive_solver.
    + intros (h & e & He & Ht & Hah). assert (a ∈ S) by (apply HS; exists h; split; [apply HR; eauto|done]). set_solver.
Qed.
(** Trimming ends, below the limit or with an empty pool. *)
Lemma trim_loop_ok (usage : CTxMemPool → Z) (lowest : CTxMemPool → uint256) limit : (∀ p, mapTx p ≠ ∅ → lowest p ∈ dom (mapTx p)) →
  ∀ fuel p, pool_ok p → (base.size (mapTx p) ≤ fuel)%nat → ∃ q, trim_loop nB node_usage usage lowest limit fuel p = Ok q ∧ pool_ok q ∧ left_of p q ∧ (mapTx q = ∅ ∨ usage q ≤ limit).
Proof.
  intros Hlow fuel. induction fuel as [|fuel IH]; intros p Hok Hsz; unfold trim_loop; fold (trim_loop nB node_usage usage lowest limit);
    (destruct (negb (bool_decide (mapTx p = ∅)) && (usage p >? limit)) eqn:Ec; [apply andb_true_iff in Ec as [Hne%negb_true_iff%bool_decide_eq_false _]|
      exists p; split_and!; [done|done|apply left_refl|]; apply andb_false_iff in Ec as [Hc|Hc]; [left; apply negb_false_iff in Hc; by apply bool_decide_eq_true in Hc|right; lia]]).
  { exfalso. apply Hne. apply map_size_empty_inv. lia. }
  pose proof Hok as [(HG & _) _]. destruct (descendants_found p ∅ ∅ (lowest p) (ok_links _ HG)) as (Y & -> & HY & HYd); [|set_solver|by apply Hlow|].
  { intros x. split; [set_solver|]. intros (? & ? & _). set_solver. }
  cbn [rbind]. destruct (pool_remove_closed p Y Hok) as (q & -> & Hq & Hl & Hrem).
  { split; [done|]. intros a b (c & Hc & Ha)%HY Hab. apply HY. exists c. split; [done|]. eapply rtc_r; [exact Ha|]. by apply (ok_sym _ HG). }
  cbn [rbind]. assert (lowest p ∈ Y) as Hin by (apply HY; exists (lowest p); split; [set_solver|apply rtc_refl]).
  destruct (IH q Hq) as (q' & E & Hq' & Hl' & Hend).
  { rewrite <- (size_dom (D := setEntries)) in Hsz |- *. rewrite (remains_dom _ _ _ Hrem). pose proof (size_difference_alt (dom (mapTx p)) Y) as Hdiff.
    assert (base.size ({[lowest p]} : setEntries) ≤ base.size (dom (mapTx p) ∩ Y))%nat as H1 by (apply subseteq_size; pose proof (Hlow p Hne); set_solver). rewrite size_singleton in H1. lia. }
  exists q'. split_and!; [done|done|by eapply left_trans|done].
Qed.
Lemma TrimToSize_ok (usage : CTxMemPool → Z) (lowest : CTxMemPool → uint256) limit p : (∀ p, mapTx p ≠ ∅ → lowest p ∈ dom (mapTx p)) → pool_ok p →
  ∃ q, TrimToSize nB node_usage usage lowest limit p = Ok q ∧ pool_ok q ∧ left_of p q ∧ (mapTx q = ∅ ∨ usage q ≤ limit).
Proof. intros Hlow Hok. by apply trim_loop_ok. Qed.
End Pool.
