(* ===== verification/MempoolAccept.v ===== *)
(** * Acceptance to the memory pool (AcceptToMemoryPoolWorker of validation.cpp)

    The part of the acceptance of a transaction that works on the pool: conflicts,
    ancestors, replacement, and the changes of the pool.  The checks of the
    transaction itself, of its inputs and of its scripts, which do not change the
    pool, are booleans. *)
From S2P Require Import Prelude ArithUint256 Script Interpreter Serialize Transaction TxVerify CoinSelection Mempool.
Local Open Scope cxx_scope.

Inductive reject_reason := txn_already_in_mempool | txn_mempool_conflict | check_failed | too_long_mempool_chain | bad_txns_spends_conflicting_tx | insufficient_fee
  | too_many_potential_replacements | replacement_adds_unconfirmed | mempool_full.

Definition new_CFeeRate (nFeePaid nBytes_ : Z) : CFeeRate :=
  let nSize := i64 nBytes_ in if nSize >? 0 then Z.quot (i64 (nFeePaid * 1000)) nSize else 0.
Definition MAX_BIP125_RBF_SEQUENCE : Z := 0xfffffffd.
Definition maxDescendantsToVisit : Z := 100.

Record accept_env := mk_env {
  fEnableReplacement : bool; incrementalRelayFee : CFeeRate; chain_limits : limits; bypass_limits : bool; test_accept : bool;
  tx_checks : bool; script_checks : bool; expire_before : Z; pool_usage : CTxMemPool → Z; lowest_score : CTxMemPool → uint256; max_usage : Z
}.

Section Accept.
Context `{C : Crypto} (nBytesPerSigOp : Z) (node_usage : Z).
Abbreviation GetTxSize := (GetTxSize nBytesPerSigOp).

(** The transactions in the pool that spend the same outputs; none, when one of them
    does not allow to be replaced. *)
Definition replacement_opt_out (enabled : bool) (t : CTransaction) : bool := negb (enabled && existsb (λ i, nSequence i <=? MAX_BIP125_RBF_SEQUENCE) (vin t)).
Fixpoint find_conflicts (enabled : bool) (p : CTxMemPool) (ins : list CTxIn) (setConflicts : setEntries) : result mempool_error (option setEntries) :=
  match ins with
  | [] => Ok (Some setConflicts)
  | txin :: ins =>
      match mapNextTx p !! prevout txin with
      | None => find_conflicts enabled p ins setConflicts
      | Some ptxConflicting =>
          let* e := find p ptxConflicting in
          if bool_decide (GetHash (tx e) ∈ setConflicts) then find_conflicts enabled p ins setConflicts
          else if replacement_opt_out enabled (tx e) then Ok None
          else find_conflicts enabled p ins ({[GetHash (tx e)]} ∪ setConflicts)
      end
  end.

(** Each transaction that is replaced must have a lower fee rate. *)
Fixpoint scan_conflicts (p : CTxMemPool) (newFeeRate : CFeeRate) (l : list uint256) (setIterConflicting setConflictsParents : setEntries) (nConflictingCount : Z)
  : option (setEntries * setEntries * Z) :=
  match l with
  | [] => Some (setIterConflicting, setConflictsParents, nConflictingCount)
  | hashConflicting :: l =>
      match mapTx p !! hashConflicting with
      | None => scan_conflicts p newFeeRate l setIterConflicting setConflictsParents nConflictingCount
      | Some mi =>
          if newFeeRate <=? new_CFeeRate (GetModifiedFee mi) (GetTxSize mi) then None
          else scan_conflicts p newFeeRate l ({[hashConflicting]} ∪ setIterConflicting)
                 (list_to_set (hash <$> (prevout <$> vin (tx mi))) ∪ setConflictsParents) (u64 (nConflictingCount + nCountWithDescendants mi))
      end
  end.
Definition conflicting_fees (p : CTxMemPool) (l : list uint256) : result mempool_error Z :=
  fold_result (λ fees h, let* e := find p h in Ok (i64 (fees + GetModifiedFee e))) 0 l.
(** The entries that a replacement puts out, or why there is no replacement. *)
Definition check_replacement (p : CTxMemPool) (t : CTransaction) (nModifiedFees nSize : Z) (incremental : CFeeRate) (setConflicts : setEntries)
  : result mempool_error (reject_reason + setEntries) :=
  if bool_decide (setConflicts = ∅) then Ok (inr ∅)
  else
    match scan_conflicts p (new_CFeeRate nModifiedFees nSize) (elements setConflicts) ∅ ∅ 0 with
    | None => Ok (inl insufficient_fee)
    | Some (setIterConflicting, setConflictsParents, nConflictingCount) =>
        if nConflictingCount <=? maxDescendantsToVisit then
          let* allConflicting := all_descendants p setIterConflicting in
          let* nConflictingFees := conflicting_fees p (elements allConflicting) in
          if existsb (λ i, negb (bool_decide (hash (prevout i) ∈ setConflictsParents)) && bool_decide (is_Some (mapTx p !! hash (prevout i)))) (vin t)
          then Ok (inl replacement_adds_unconfirmed)
          else if nModifiedFees <? nConflictingFees then Ok (inl insufficient_fee)
          else if i64 (nModifiedFees - nConflictingFees) <? GetFee incremental nSize then Ok (inl insufficient_fee)
          else Ok (inr allConflicting)
        else Ok (inl too_many_potential_replacements)
    end.

Definition LimitMempoolSize (env : accept_env) (p : CTxMemPool) : result mempool_error CTxMemPool :=
  let* '(_, p) := Expire nBytesPerSigOp node_usage (expire_before env) p in
  TrimToSize nBytesPerSigOp node_usage (pool_usage env) (lowest_score env) (max_usage env) p.

(** The pool after the call, with the reason when the transaction is not accepted. *)
Definition AcceptToMemoryPoolWorker (env : accept_env) (entry : CTxMemPoolEntry) (p : CTxMemPool) : result mempool_error (option reject_reason * CTxMemPool) :=
  let t := tx entry in
  let h := GetHash t in
  if bool_decide (is_Some (mapTx p !! h)) then Ok (Some txn_already_in_mempool, p) else
  let* conflicts := find_conflicts (fEnableReplacement env) p (vin t) ∅ in
  match conflicts with
  | None => Ok (Some txn_mempool_conflict, p)
  | Some setConflicts =>
      if negb (tx_checks env) then Ok (Some check_failed, p) else
      let nModifiedFees := ApplyDelta h (nFee entry) p in
      let nSize := u32 (GetTxSize entry) in
      let* '(limit, setAncestors) := CalculateMemPoolAncestors nBytesPerSigOp p entry (chain_limits env) true in
      match limit with
      | Some _ => Ok (Some too_long_mempool_chain, p)
      | None =>
          if existsb (λ ancestorIt, bool_decide (ancestorIt ∈ setConflicts)) (elements setAncestors) then Ok (Some bad_txns_spends_conflicting_tx, p) else
          let* r := check_replacement p t nModifiedFees nSize (incrementalRelayFee env) setConflicts in
          match r with
          | inl e => Ok (Some e, p)
          | inr allConflicting =>
              if negb (script_checks env) then Ok (Some check_failed, p) else
              if test_accept env then Ok (None, p) else
              let* p := RemoveStaged nBytesPerSigOp node_usage allConflicting false p in
              let* p := addUnchecked nBytesPerSigOp node_usage h entry setAncestors p in
              if bypass_limits env then Ok (None, p) else
              let* p := LimitMempoolSize env p in
              Ok (if bool_decide (is_Some (mapTx p !! h)) then None else Some mempool_full, p)
          end
      end
  end.
End Accept.
