(* ===== verification/MempoolAcceptFacts.v ===== *)
(** * Acceptance to the memory pool: proofs

    Acceptance keeps the pool consistent; a replacement pays for what it puts out. *)
From S2P Require Import Prelude ArithUint256 Script Interpreter Serialize Transaction TxVerify CoinSelection Mempool MempoolFacts MempoolInv MempoolOps MempoolRemove MempoolNew MempoolBlock MempoolAccept.

Section Accept.
Context `{C : Crypto} (nB : Z) (node_usage : Z).
Implicit Types (p q : CTxMemPool) (x h : uint256) (S X Y : setEntries) (t : CTransaction).
Abbreviation pool_ok := (pool_ok nB node_usage).
Abbreviation size_at m := (value_at m (GetTxSize nB)).
Abbreviation fee_at m := (value_at m GetModifiedFee).
Abbreviation sigops_at m := (value_at m sigOpCost).

(** ** Conflicts and replacements *)

Definition spends_same p t h : Prop := ∃ o, o ∈ prevouts t ∧ mapNextTx p !! o = Some h.
Lemma find_conflicts_ok p enabled ins : pool_ok p → ∀ S, ∃ r, find_conflicts enabled p ins S = Ok r ∧
  ∀ S', r = Some S' → ∀ h, h ∈ S' ↔ h ∈ S ∨ ∃ i, i ∈ ins ∧ mapNextTx p !! prevout i = Some h.
Proof.
  intros [(HG & _ & _ & Hst) _]. induction ins as [|i ins IH]; intros S; cbn [find_conflicts].
  { eexists. split; [done|]. intros S' [= <-] h. split; [by left|]. intros [?|(? & ?%not_elem_of_nil & _)]; done. }
  destruct (mapNextTx p !! prevout i) as [h0|] eqn:En.
  2: { destruct (IH S) as (r & E & Hr). exists r. split; [done|]. intros S' HS' h. rewrite (Hr S' HS' h). setoid_rewrite elem_of_cons. naive_solver congruence. }
  pose proof En as (e & He & _)%(ok_next _ _ _ Hst). unfold find. rewrite He. cbn [rbind]. rewrite (ok_keys _ HG h0 e He). case_bool_decide as Hin.
  - destruct (IH S) as (r & E & Hr). exists r. split; [done|]. intros S' HS' h. rewrite (Hr S' HS' h). setoid_rewrite elem_of_cons. naive_solver congruence.
  - destruct (replacement_opt_out enabled (tx e)); [by eexists|]. destruct (IH ({[h0]} ∪ S)) as (r & E & Hr). exists r. split; [done|]. intros S' HS' h.
    rewrite (Hr S' HS' h), elem_of_union, elem_of_singleton. setoid_rewrite elem_of_cons. naive_solver congruence.
Qed.
Lemma conflicts_found p t enabled S : pool_ok p → find_conflicts enabled p (vin t) ∅ = Ok (Some S) → (∀ h, h ∈ S ↔ spends_same p t h) ∧ S ⊆ dom (mapTx p).
Proof.
  intros Hok E. destruct (find_conflicts_ok p enabled (vin t) Hok ∅) as (r & E' & Hr). rewrite E in E'. injection E' as <-.
  assert (∀ h, h ∈ S ↔ spends_same p t h) as HS.
  { intros h. rewrite (Hr S eq_refl h). unfold spends_same, prevouts. setoid_rewrite list_elem_of_fmap. set_solver. }
  split; [done|]. intros h (o & _ & Hn)%HS. apply (ok_next _ _ _ (pool_store _ _ _ Hok)) in Hn as (e & He & _). by eapply elem_of_dom_2.
Qed.

Lemma scan_iter p rate l : ∀ iter ps cnt r, (∀ a, a ∈ l → a ∈ dom (mapTx p)) → scan_conflicts nB p rate l iter ps cnt = Some r → r.1.1 = list_to_set l ∪ iter.
Proof.
  induction l as [|x l IH]; intros iter ps cnt r Hl; cbn [scan_conflicts list_to_set]; [intros [= <-]; set_solver|].
  destruct (proj1 (elem_of_dom _ _) (Hl x (list_elem_of_here _ _))) as [e ->]. case_match; [done|]. intros ->%IH; [set_solver|]. intros a Ha. apply Hl. by apply list_elem_of_further.
Qed.
(** The count that is compared with the limit is at least the number of entries. *)
Lemma scan_conflicts_spec p rate l : pool_ok p → count (dom (mapTx p)) < 2 ^ 31 → ∀ iter ps cnt r,
  (∀ a, a ∈ l → a ∈ dom (mapTx p)) → 0 ≤ cnt → Z.of_nat (length l) * 2 ^ 31 + cnt < 2 ^ 64 →
  scan_conflicts nB p rate l iter ps cnt = Some r →
  r.2 = cnt + sum_of (value_at (mapTx p) nCountWithDescendants) l ∧
  ∀ a e, a ∈ l → mapTx p !! a = Some e → new_CFeeRate (GetModifiedFee e) (GetTxSize nB e) < rate.
Proof.
  intros Hok Hcnt. induction l as [|x l IH]; intros iter ps cnt r Hl H0 Hb; cbn [scan_conflicts].
  { intros [= <-]. cbn. split; [lia|]. intros a e ?%not_elem_of_nil. done. }
  pose proof (Hl x (list_elem_of_here _ _)) as Hxd. pose proof Hxd as [e He]%elem_of_dom. rewrite He. destruct (Z.leb_spec rate (new_CFeeRate (GetModifiedFee e) (GetTxSize nB e))) as [|Hr]; [done|].
  assert (0 ≤ nCountWithDescendants e < 2 ^ 31) as Hc.
  { pose proof Hok as [(HG & [_ HD] & _ & _) _]. destruct (HD x e He) as (Y & HY & Hs). injection Hs as -> _ _. assert (Y ⊆ dom (mapTx p)) as HYd by (intros y Hy%HY; by eapply anc_in_dom).
    apply subseteq_size in HYd. unfold count in *. lia. }
  cbn [length] in Hb. rewrite u64_small by lia. intros E. apply IH in E as (E2 & E3); [|intros a Ha; apply Hl; by apply list_elem_of_further|lia|lia].
  split; [rewrite E2, sum_of_cons, (value_at_Some _ _ _ _ He); lia|]. intros a ea [->|Ha]%elem_of_cons Hea; [congruence|by eapply E3].
Qed.
Lemma conflicting_fees_ok p S : S ⊆ dom (mapTx p) → conflicting_fees p (elements S) = Ok (i64 (set_sum (fee_at (stat p)) S)).
Proof.
  intros HS. unfold conflicting_fees, set_sum. assert (∀ x, x ∈ elements S → x ∈ dom (mapTx p)) as Hl by (intros x Hx%elem_of_elements; by apply HS).
  change 0 with (i64 0) at 1. rewrite <- (Z.add_0_l (sum_of (fee_at (stat p)) _)). generalize 0 as c. revert Hl. induction (elements S) as [|x l IH]; intros Hl c; cbn [fold_result]; [by rewrite Z.add_0_r|].
  destruct (proj1 (elem_of_dom _ _) (Hl x (list_elem_of_here _ _))) as [e He]. destruct (find_stat nB p x e He) as (Hf & _ & E2 & _). rewrite Hf. cbn [rbind].
  rewrite E2, i64_add_l. rewrite IH by (intros y Hy; apply Hl; by apply list_elem_of_further). by rewrite sum_of_cons, Z.add_assoc.
Qed.
(** The entries that are put out are the conflicts and what depends on them. *)
Definition dependants p S (Y : setEntries) : Prop := ∀ x, x ∈ Y ↔ ∃ c, c ∈ S ∧ anc p x c.
Lemma check_replacement_ok p t fees sz inc S : pool_ok p → S ⊆ dom (mapTx p) → ∃ r, check_replacement nB p t fees sz inc S = Ok r ∧
  ∀ Y, r = inr Y → dependants p S Y ∧ descendant_closed p Y.
Proof.
  intros Hok HS. pose proof Hok as [(HG & _) _]. unfold check_replacement. case_bool_decide as Hemp.
  { eexists. split; [done|]. intros Y [= <-]. subst S. split; [intros x; set_solver|split; set_solver]. }
  destruct (scan_conflicts _ _ _ _ _ _ _) as [[[iter ps] cnt]|] eqn:E; [|by eexists]. destruct (cnt <=? maxDescendantsToVisit); [|by eexists].
  apply scan_iter in E as Hit; [|intros a Ha%elem_of_elements; by apply HS]. cbn in Hit. rewrite list_to_set_elements_L, right_id_L in Hit by apply _. subst iter.
  destruct (all_descendants_ok p S HG HS) as (Y & -> & Hcl & HY). cbn [rbind]. rewrite conflicting_fees_ok by apply Hcl. cbn [rbind]. repeat case_match; eexists; (split; [done|]); by intros ? [= <-].
Qed.

(** Each dependant is counted by a conflict. *)
Lemma dependants_count p S Y : pool_ok p → S ⊆ dom (mapTx p) → dependants p S Y → count Y ≤ set_sum (value_at (mapTx p) nCountWithDescendants) S.
Proof.
  intros Hok. pose proof Hok as [(HG & [_ HD] & _ & _) _]. revert Y. induction S as [|x S Hx IH] using set_ind_L; intros Y HS HY.
  { assert (Y = ∅) as -> by (apply set_eq; intros y; rewrite (HY y); set_solver). rewrite set_sum_empty. done. }
  assert (x ∈ dom (mapTx p)) as [e He]%elem_of_dom by set_solver. destruct (HD x e He) as (Yx & HYx & Hs). injection Hs as Hs _ _. rewrite set_sum_insert, (value_at_Some _ _ _ _ He), Hs by done.
  assert (Y ⊆ Yx ∪ (Y ∖ Yx)) as Hu by (intros y Hy; destruct (decide (y ∈ Yx)); set_solver).
  destruct (all_descendants_ok p S HG ltac:(set_solver)) as (YS & _ & _ & HYS). specialize (IH YS ltac:(set_solver) HYS).
  assert (count Y ≤ count Yx + count YS); [|lia]. assert (Y ⊆ Yx ∪ YS) as Hsub.
  { intros y (c & [->%elem_of_singleton|Hc]%elem_of_union & Ha)%HY; [apply elem_of_union_l; by apply HYx|apply elem_of_union_r, HYS; eauto]. }
  apply subseteq_size in Hsub. rewrite size_union_alt in Hsub. assert (YS ∖ Yx ⊆ YS) as Hd%subseteq_size by set_solver. unfold count. lia.
Qed.
Lemma set_sum_abs_bound f S b : (∀ x, x ∈ S → Z.abs (f x) ≤ b) → Z.abs (set_sum f S) ≤ count S * b.
Proof.
  induction S as [|x S Hx IH] using set_ind_L; intros Hb; [by rewrite set_sum_empty|]. rewrite set_sum_insert, count_insert by done.
  pose proof (Hb x ltac:(set_solver)). specialize (IH ltac:(intros y Hy; apply Hb; set_solver)). lia.
Qed.
(** A replacement pays more than all that it puts out, by at least the fee for its own
    relay, has a higher fee rate than each transaction that it conflicts with, and puts
    out a limited number of entries. *)
Lemma replacement_rules p t fees sz inc S Y : pool_ok p → count (dom (mapTx p)) < 2 ^ 31 → (∀ h, h ∈ dom (mapTx p) → Z.abs (fee_at (stat p) h) ≤ MAX_MONEY) → Z.abs fees ≤ MAX_MONEY →
  S ⊆ dom (mapTx p) → S ≠ ∅ → check_replacement nB p t fees sz inc S = Ok (inr Y) →
  dependants p S Y ∧ count Y ≤ maxDescendantsToVisit ∧ 0 ≤ fees - set_sum (fee_at (stat p)) Y ∧ GetFee inc sz ≤ fees - set_sum (fee_at (stat p)) Y ∧
  (∀ h e, h ∈ S → mapTx p !! h = Some e → new_CFeeRate (GetModifiedFee e) (GetTxSize nB e) < new_CFeeRate fees sz).
Proof.
  intros Hok Hcnt Hfee Hfees HS Hne HE. pose proof Hok as [(HG & _) _]. destruct (check_replacement_ok p t fees sz inc S Hok HS) as (r & E & Hr). rewrite HE in E. injection E as <-.
  destruct (Hr Y eq_refl) as [HY [HYd _]]. split; [done|]. unfold check_replacement in HE. rewrite bool_decide_false in HE by done. destruct (scan_conflicts _ _ _ _ _ _ _) as [[[iter ps] cnt]|] eqn:E; [|done].
  assert (iter = S) as ->. { apply scan_iter in E; [|intros a Ha%elem_of_elements; by apply HS]. cbn in E. by rewrite list_to_set_elements_L, right_id_L in E by apply _. }
  apply scan_conflicts_spec in E as (Ec & Erate); [|done|done|intros a Ha%elem_of_elements; by apply HS|lia|].
  2: { apply subseteq_size in HS. unfold count in Hcnt. change (length (elements S)) with (base.size S). lia. }
  cbn in Ec. destruct (Z.leb_spec cnt maxDescendantsToVisit) as [Hmax|]; [|done]. pose proof (dependants_count p S Y Hok HS HY) as Hle. unfold set_sum in Hle.
  assert (count Y ≤ maxDescendantsToVisit) as HcY by lia. destruct (all_descendants_ok p S HG HS) as (Y' & E1 & _ & HY'). rewrite E1 in HE. cbn [rbind] in HE.
  assert (Y' = Y) as -> by (apply set_eq; intros x; by rewrite (HY x), (HY' x)). rewrite conflicting_fees_ok in HE by done. cbn [rbind] in HE.
  pose proof (set_sum_abs_bound (fee_at (stat p)) Y MAX_MONEY ltac:(intros x Hx; apply Hfee; by apply HYd)) as Hsum. unfold maxDescendantsToVisit in *.
  assert (MAX_MONEY < 2 ^ 54 ∧ 0 ≤ MAX_MONEY) as Hm by done. assert (0 ≤ count Y) by (unfold count; lia). assert (Z.abs (set_sum (fee_at (stat p)) Y) ≤ 100 * MAX_MONEY) as Hs by nia.
  rewrite !i64_small in HE by (rewrite ?i64_small; lia). destruct (existsb _ _); [done|]. destruct (Z.ltb_spec fees (set_sum (fee_at (stat p)) Y)) as [|H1]; [done|].
  destruct (Z.ltb_spec (fees - set_sum (fee_at (stat p)) Y) (GetFee inc sz)) as [|H2]; [done|]. split_and!; [done|lia|lia|]. intros h e Hh He. apply (Erate h e); [by apply elem_of_elements|done].
Qed.

(** ** Acceptance *)

Lemma entry_fits_left p q S e : small nB (stat p) → remains p q S → entry_fits nB p e → entry_fits nB q e.
Proof.
  intros Hs HR (F1 & F2 & F3 & F4 & F5). pose proof (sizes_nonneg nB (stat p) Hs) as [N1 N2].
  assert (∀ f, (∀ e, f e = f (base e)) → (∀ h, 0 ≤ value_at (stat p) f h) → set_sum (value_at (stat q) f) (dom (mapTx q)) ≤ set_sum (value_at (stat p) f) (dom (mapTx p))) as Hle.
  { intros f Hf Hn. rewrite (remains_dom _ _ _ HR). rewrite (set_sum_ext _ (value_at (stat p) f)) by (intros h Hh; apply (remains_value _ _ _ _ _ Hf HR); set_solver).
    apply set_sum_subset; [set_solver|auto]. }
  pose proof (Hle (GetTxSize nB) ltac:(done) N1). pose proof (Hle sigOpCost ltac:(done) N2). unfold entry_fits. split_and!; (done || lia).
Qed.
Lemma new_ancestors_left p q S t X : descendant_closed p S → remains p q S → X ## S → new_ancestors p t X → new_ancestors q t X.
Proof.
  intros Hcl HR Hdis HX a. rewrite (HX a), (remains_dom _ _ _ HR). pose proof (remains_anc p q S HR (λ x a Hx _ H, proj2 (closed_convex p S x a Hcl Hx H))) as Hanc. split; intros (y & [Hy1 Hy2] & Ha); exists y.
  - assert (y ∈ X) as HyX by (apply HX; exists y; split; [done|apply anc_refl]). assert (y ∉ S) as HyS by set_solver. split; [split; [set_solver|done]|].
    apply Hanc. right. split_and!; [done|by apply (closed_convex p S y a)|done].
  - split; [split; [set_solver|done]|]. apply Hanc in Ha as [->|(_ & _ & Ha)]; [apply anc_refl|done].
Qed.
(** The transaction has no children in the pool, does not spend its own outputs, and is of
    a size that the counters can hold. *)
Record tx_fits p (entry : CTxMemPoolEntry) : Prop := {
  fits_fresh : fresh nB entry;
  fits_no_child : ∀ h e, mapTx p !! h = Some e → GetHash (tx entry) ∉ (hash <$> prevouts (tx e));
  fits_no_loop : GetHash (tx entry) ∉ (hash <$> prevouts (tx entry));
  fits_entry : entry_fits nB p entry
}.
(** The conflicts are removed and the transaction is added. *)
Lemma replace_ok p entry S Y X : pool_ok p → tx_fits p entry → GetHash (tx entry) ∉ dom (mapTx p) → (∀ h, h ∈ S ↔ spends_same p (tx entry) h) →
  dependants p S Y → descendant_closed p Y → new_ancestors p (tx entry) X → X ## S →
  ∃ p1 q, RemoveStaged nB node_usage Y false p = Ok p1 ∧ pool_ok p1 ∧ remains p p1 Y ∧ X ⊆ dom (mapTx p1) ∧
    addUnchecked nB node_usage (GetHash (tx entry)) entry X p1 = Ok q ∧ pool_ok q ∧
    dom (mapTx q) = {[GetHash (tx entry)]} ∪ dom (mapTx p1) ∧ (∀ x a, anc q x a ↔ anc p1 x a ∨ (x = GetHash (tx entry) ∧ a ∈ X)) ∧
    (∀ x, x ≠ GetHash (tx entry) → static <$> mapTx q !! x = static <$> mapTx p1 !! x) ∧ value_at (stat q) (GetTxSize nB) (GetHash (tx entry)) = GetTxSize nB entry.
Proof.
  intros Hok [F1 F2 F3 F4] Hnew HS HY Hcl HX Hdis. pose proof Hok as [(HG & _ & Hsm & Hst) _]. destruct (pool_remove_closed nB node_usage p Y Hok Hcl) as (p1 & E1 & Hp1 & Hl & Hrem).
  assert (X ## Y) as HXY.
  { intros x Hx (c & Hc & Hxc)%HY. apply (Hdis c); [|done]. apply HX in Hx as (y & Hy & Hyx). apply HX. exists y. split; [done|]. unfold anc in *. by etransitivity. }
  pose proof (new_ancestors_left p p1 Y (tx entry) X Hcl Hrem HXY HX) as HX1. assert (X ⊆ dom (mapTx p1)) as HXd.
  { intros a (y & [Hy _] & Ha)%HX1. destruct Hp1 as [(HG1 & _) _]. destruct (anc_dom p1 y a (ok_links _ HG1) Ha) as [<-|[_ ?]]; done. }
  destruct (addUnchecked_ok nB node_usage p1 entry F1 X Hp1) as (q & E2 & Hq & Hd & Ha & Hs & Hz); [|by eapply entry_fits_left|done|].
  - constructor.
    + intros Hin. by apply Hnew, (left_dom _ _ Hl).
    + intros h e He. destruct (left_entry _ _ Hl h e He) as (e0 & He0 & Hb). injection Hb as -> _. by eapply F2.
    + done.
    + intros o Ho. destruct (mapNextTx p1 !! o) as [h|] eqn:En; [|done]. pose proof En as (e & He & _)%(ok_next _ _ _ (pool_store _ _ _ Hp1)). exfalso.
      apply (left_next nB node_usage p p1) in En; [|by apply pool_store..|done]. destruct (remains_lookup _ _ _ _ _ Hrem He) as [Hh _]. apply Hh, HY. exists h. split; [apply HS; by exists o|apply anc_refl].
  - exists p1, q. split_and!; done.
Qed.
Lemma LimitMempoolSize_ok env p : (∀ p, mapTx p ≠ ∅ → lowest_score env p ∈ dom (mapTx p)) → pool_ok p →
  ∃ q, LimitMempoolSize nB node_usage env p = Ok q ∧ pool_ok q ∧ left_of p q ∧ (mapTx q = ∅ ∨ pool_usage env q ≤ max_usage env).
Proof.
  intros Hlow Hok. unfold LimitMempoolSize. destruct (Expire_ok nB node_usage p (expire_before env) Hok) as (p1 & n & -> & Hp1 & Hl1 & _). cbn [rbind].
  destruct (TrimToSize_ok nB node_usage (pool_usage env) (lowest_score env) (max_usage env) p1 Hlow Hp1) as (q & E & Hq & Hl & Hend). exists q. split_and!; [done|done|by eapply left_trans|done].
Qed.
End Accept.
