(* ===== verification/MempoolLimits.v ===== *)
(** * The memory pool: limits on chains of transactions

    [CalculateMemPoolAncestors] with limits, and that no entry of the pool has more
    ancestors or descendants than they allow.  The sizes are compared only while an
    ancestor is walked, so they bound an entry together with others, not an entry that
    is alone. *)
From S2P Require Import Prelude ArithUint256 Script Interpreter Serialize Transaction TxVerify Mempool MempoolFacts MempoolInv MempoolOps MempoolRemove MempoolAdd MempoolNew MempoolBlock.

Section Limits.
Context `{C : Crypto} (nB : Z) (node_usage : Z) (lim : limits).
Implicit Types (p q : CTxMemPool) (x h : uint256) (S X Y : setEntries) (t : CTransaction).
Abbreviation pool_ok := (pool_ok nB node_usage).
Abbreviation size_at m := (value_at m (GetTxSize nB)).

(** ** What the walk checks *)

Lemma count_dom p S : small nB (stat p) → S ⊆ dom (mapTx p) → 0 ≤ count S < 2 ^ 63.
Proof. intros Hs HS. rewrite <- stat_dom in HS. by apply (size_bounds nB (stat p) S Hs HS). Qed.
Lemma search_parents_limit p ins : small nB (stat p) → ∀ S S', S ⊆ dom (mapTx p) → count S + 1 ≤ limitAncestorCount lim →
  search_parents p lim ins S = inr S' → S' ⊆ dom (mapTx p) ∧ count S' + 1 ≤ limitAncestorCount lim.
Proof.
  intros Hs. induction ins as [|i ins IH]; intros S S' HS Hc; cbn [search_parents]; [by intros [= <-]|].
  destruct (mapTx p !! hash (prevout i)) as [e|] eqn:E; [|by apply IH]. apply elem_of_dom_2 in E. assert ({[hash (prevout i)]} ∪ S ⊆ dom (mapTx p)) as HS' by set_solver.
  pose proof (count_dom p _ Hs HS'). rewrite u64_small by lia. destruct (_ >? _) eqn:El; [done|]. apply IH; [done|lia].
Qed.
Lemma stage_parents_limit p (walked : setEntries) l : small nB (stat p) → walked ⊆ dom (mapTx p) → (∀ a, a ∈ l → a ∈ dom (mapTx p)) → ∀ stage stage', stage ⊆ dom (mapTx p) →
  count stage + count walked + 1 ≤ limitAncestorCount lim → stage_parents lim l stage walked = inr stage' → count stage' + count walked + 1 ≤ limitAncestorCount lim.
Proof.
  intros Hs Hw. induction l as [|x l IH]; intros Hl stage stage' Hst Hc; cbn [stage_parents]; [by intros [= <-]|].
  set (s1 := if bool_decide _ then _ else _). assert (s1 ⊆ dom (mapTx p)) as Hs1 by (unfold s1; pose proof (Hl x (list_elem_of_here _ _)); case_bool_decide; set_solver).
  pose proof (count_dom p _ Hs Hs1). pose proof (count_dom p _ Hs Hw). rewrite u64_small by lia. destruct (_ >? _) eqn:El; [done|].
  apply IH; [intros a Ha; apply Hl; by apply list_elem_of_further|done|lia].
Qed.
Definition room p (own : Z) (a : uint256) : Prop := ∀ e, mapTx p !! a = Some e →
  nCountWithDescendants e + 1 ≤ limitDescendantCount lim ∧ nSizeWithDescendants e + own ≤ limitDescendantSize lim.
Lemma walk_ancestors_limit p entry : pool_ok p → entry_fits nB p entry → ∀ fuel stage walked X, stage ## walked → walked ∪ stage ⊆ dom (mapTx p) →
  count stage + count walked + 1 ≤ limitAncestorCount lim → (walked = ∅ ∨ GetTxSize nB entry + set_sum (size_at (stat p)) walked ≤ limitAncestorSize lim) → (∀ a, a ∈ walked → room p (GetTxSize nB entry) a) →
  walk_ancestors nB p entry lim fuel stage walked (GetTxSize nB entry + set_sum (size_at (stat p)) walked) = Ok (None, X) →
  count X + 1 ≤ limitAncestorCount lim ∧ (X = ∅ ∨ GetTxSize nB entry + set_sum (size_at (stat p)) X ≤ limitAncestorSize lim) ∧ ∀ a, a ∈ X → room p (GetTxSize nB entry) a.
Proof.
  intros Hok Hfits fuel. pose proof Hok as [(HG & [_ HD] & Hsm & _) _]. pose proof Hfits as (F1 & _ & _ & F4 & _).
  induction fuel as [|fuel IH]; intros stage walked X Hdis Hsub Hc Hs Hroom; unfold walk_ancestors; fold (walk_ancestors nB p entry lim);
    (destruct (elements stage) as [|it l] eqn:El; [intros [= <-]; split_and!; [unfold count in *; lia|done|done]|]); [done|].
  assert (it ∈ stage) as Hit by (apply elem_of_elements; rewrite El; apply list_elem_of_here). destruct (links_Some p it (ok_links _ HG)) as (e & li & He & Hli); [set_solver|].
  unfold find. rewrite He. cbn [rbind]. destruct (find_stat nB p it e He) as (_ & E1 & _). set (w' := {[it]} ∪ walked).
  assert (w' ⊆ dom (mapTx p)) as Hw' by set_solver. pose proof Hw' as Hw2. rewrite <- stat_dom in Hw2. pose proof (size_bounds nB (stat p) w' Hsm Hw2) as (B1 & _ & _).
  pose proof (sizes_nonneg nB (stat p) Hsm) as [N1 _]. pose proof (set_sum_subset (size_at (stat p)) w' _ Hw' ltac:(auto)) as Hle.
  destruct (HD it e He) as (Y & HY & Hst). injection Hst as D1 D2 _. assert (Y ⊆ dom (mapTx p)) as HYd by (intros y Hy%HY; eapply anc_in_dom; [done|by eapply elem_of_dom_2|exact Hy]).
  pose proof HYd as HYd2. rewrite <- stat_dom in HYd2. pose proof (size_bounds nB (stat p) Y Hsm HYd2) as (Y1 & _ & Y3).
  assert (set_sum (size_at (stat p)) w' = GetTxSize nB e + set_sum (size_at (stat p)) walked) as Ew by (unfold w'; rewrite set_sum_insert by set_solver; lia).
  rewrite !u64_small by lia. destruct (nSizeWithDescendants e + _ >? _) eqn:L1; [done|]. destruct (nCountWithDescendants e + 1 >? _) eqn:L2; [done|].
  destruct (_ >? limitAncestorSize lim) eqn:L3; [done|]. unfold GetMemPoolParents, GetLinks. rewrite Hli. cbn [rbind]. destruct (stage_parents lim _ _ _) as [er|stage'] eqn:Esp; [done|].
  assert (∀ a, a ∈ parents li → a ∈ dom (mapTx p)) as Hpl by (intros a Ha; destruct (ok_links _ HG) as (_ & Hp & _); apply (Hp a it); by exists li).
  pose proof (stage_parents_spec _ _ _ _ _ Esp) as Es. rewrite list_to_set_elements_L in Es. apply (stage_parents_limit p) in Esp; [|done|done|intros a Ha%elem_of_elements; by apply Hpl|set_solver|].
  2: { rewrite count_delete by done. unfold w'. rewrite count_insert by set_solver. lia. }
  replace (GetTxSize nB entry + set_sum (size_at (stat p)) walked + GetTxSize nB e) with (GetTxSize nB entry + set_sum (size_at (stat p)) w') in * by lia.
  apply IH; [subst stage'; set_solver|subst stage'; set_solver|done|right; lia|].
  intros a [->%elem_of_singleton|Ha]%elem_of_union; [|by apply Hroom]. intros e' He'. assert (e' = e) as -> by congruence. lia.
Qed.
Lemma ancestors_limited p entry X : pool_ok p → entry_fits nB p entry → 1 ≤ limitAncestorCount lim →
  CalculateMemPoolAncestors nB p entry lim true = Ok (None, X) →
  count X + 1 ≤ limitAncestorCount lim ∧ (X = ∅ ∨ GetTxSize nB entry + set_sum (size_at (stat p)) X ≤ limitAncestorSize lim) ∧ ∀ a, a ∈ X → room p (GetTxSize nB entry) a.
Proof.
  intros Hok Hfits H1. unfold CalculateMemPoolAncestors. cbn [rbind]. destruct (search_parents p lim (vin (tx entry)) ∅) as [er|S] eqn:E; [done|].
  pose proof Hok as [(_ & _ & Hsm & _) _]. apply search_parents_limit in E as [HS Hc]; [|done|set_solver|done]. replace (GetTxSize nB entry) with (GetTxSize nB entry + set_sum (size_at (stat p)) ∅) at 1 by (rewrite set_sum_empty; lia).
  apply walk_ancestors_limit; [done|done|set_solver|set_solver|change (count ∅) with 0; lia|by left|set_solver].
Qed.
(** Without a parent in the pool there is nothing to walk: no limit is looked at. *)
Lemma no_parents_no_limits p entry : (∀ i, i ∈ vin (tx entry) → mapTx p !! hash (prevout i) = None) → CalculateMemPoolAncestors nB p entry lim true = Ok (None, ∅).
Proof.
  intros Hno. unfold CalculateMemPoolAncestors. cbn [rbind]. assert (search_parents p lim (vin (tx entry)) ∅ = inr ∅) as ->; [|by destruct (base.size _)].
  revert Hno. induction (vin (tx entry)) as [|i l IH]; intros Hno; [done|]. cbn [search_parents]. rewrite (Hno i) by apply list_elem_of_here. apply IH. intros j Hj. apply Hno. by apply list_elem_of_further.
Qed.

(** ** The limits hold in the pool *)

Definition within p : Prop := ∀ h e, mapTx p !! h = Some e →
  nCountWithAncestors e ≤ limitAncestorCount lim ∧ (nCountWithAncestors e = 1 ∨ nSizeWithAncestors e ≤ limitAncestorSize lim) ∧
  nCountWithDescendants e ≤ limitDescendantCount lim ∧ (nCountWithDescendants e = 1 ∨ nSizeWithDescendants e ≤ limitDescendantSize lim).
(** No entry is new, the sizes are the same, and no link is new. *)
Definition shrinks p q : Prop := (∀ a, a ∈ dom (mapTx q) → a ∈ dom (mapTx p) ∧ size_at (stat q) a = size_at (stat p) a) ∧ ∀ a b, parent q a b → parent p a b.
Lemma left_shrinks p q : left_of p q → shrinks p q.
Proof.
  intros [H H']. split; [|done]. intros a [e He]%elem_of_dom. destruct (H a e He) as (e0 & He0 & Hb). split; [by eapply elem_of_dom_2|].
  rewrite (value_at_stat q _ a e He), (value_at_stat p _ a e0 He0). change (GetTxSize nB (base e) = GetTxSize nB (base e0)). by rewrite Hb.
Qed.
Lemma feeless_shrinks p q : graph_ok p → graph_ok q → feeless <$> mapTx q = feeless <$> mapTx p → shrinks p q.
Proof.
  intros Hp Hq Hf. pose proof (feeless_dom _ _ Hf) as Hd. split.
  - intros a Ha. split; [by rewrite <- Hd|]. apply feeless_value; [done|by apply feeless_stat].
  - intros a b Hab. assert (b ∈ dom (mapTx q)) as [e He]%elem_of_dom.
    { destruct (ok_links _ Hq) as (<- & _). destruct Hab as (l & Hl & _). by eapply elem_of_dom_2. }
    destruct (feeless_lookup _ _ b e Hf He) as (e0 & He0 & Hb). injection Hb as Ht _. apply (ok_parents _ Hp b e0 He0). rewrite <- Hd, Ht. by apply (ok_parents _ Hq b e He).
Qed.
Lemma shrinks_anc p q x a : shrinks p q → anc q x a → anc p x a.
Proof. intros [_ H]. induction 1 as [|x y a H' _ IH]; [apply rtc_refl|]. eapply rtc_l; [by apply H|done]. Qed.
Lemma shrinks_sums p q X X' : pool_ok p → shrinks p q → X' ⊆ dom (mapTx q) → X' ⊆ X → count X' ≤ count X ∧ set_sum (size_at (stat q)) X' ≤ set_sum (size_at (stat p)) X.
Proof.
  intros [(_ & _ & Hsm & _) _] [Hl _] Hd HX. pose proof (sizes_nonneg nB (stat p) Hsm) as [N1 _]. split; [apply subseteq_size in HX; unfold count; lia|].
  rewrite (set_sum_ext _ (size_at (stat p))) by (intros h Hh; by apply Hl, Hd). apply set_sum_subset; [done|auto].
Qed.
Lemma count_pos S h : h ∈ S → 1 ≤ count S.
Proof. intros Hh. assert (base.size S ≠ 0%nat); [|unfold count; lia]. intros E%size_empty_inv. by apply (E h) in Hh. Qed.
Lemma count_one S h : h ∈ S → count S = 1 → S = {[h]}.
Proof.
  intros Hh E. destruct (size_1_elem_of S) as [x Hx]; [unfold count in E; lia|]. apply leibniz_equiv in Hx. subst S. apply elem_of_singleton in Hh as ->. done.
Qed.
(** The records of an entry after others are gone. *)
Lemma shrinks_records p q h e : pool_ok p → pool_ok q → shrinks p q → mapTx q !! h = Some e → ∃ e0, mapTx p !! h = Some e0 ∧
  1 ≤ nCountWithAncestors e ≤ nCountWithAncestors e0 ∧ nSizeWithAncestors e ≤ nSizeWithAncestors e0 ∧
  1 ≤ nCountWithDescendants e ≤ nCountWithDescendants e0 ∧ nSizeWithDescendants e ≤ nSizeWithDescendants e0.
Proof.
  intros Hp Hq Hl He. pose proof Hp as [(HG & [HA HD] & _ & _) _]. pose proof Hq as [(HGq & [HAq HDq] & _ & _) _].
  assert (h ∈ dom (mapTx p)) as [e0 He0]%elem_of_dom by (apply Hl; by eapply elem_of_dom_2). exists e0. split; [done|].
  destruct (HA h e0 He0) as (X & HX & Hs), (HD h e0 He0) as (Y & HY & Ht), (HAq h e He) as (X' & HX' & Hs'), (HDq h e He) as (Y' & HY' & Ht').
  injection Hs as S1 S2 _ _. injection Ht as T1 T2 _. injection Hs' as S1' S2' _ _. injection Ht' as T1' T2' _. rewrite S1, S2, T1, T2, S1', S2', T1', T2'.
  destruct (shrinks_sums p q X X' Hp Hl) as [K1 K2].
  { intros a Ha%HX'. destruct (anc_dom q h a (ok_links _ HGq) Ha) as [<-|[_ ?]]; [by eapply elem_of_dom_2|done]. } { intros a Ha%HX'. apply HX. by eapply shrinks_anc. }
  destruct (shrinks_sums p q Y Y' Hp Hl) as [K3 K4].
  { intros a Ha%HY'. eapply anc_in_dom; [done|by eapply elem_of_dom_2|exact Ha]. } { intros a Ha%HY'. apply HY. unfold flip in *. by eapply shrinks_anc. }
  pose proof (count_pos X' h (proj2 (HX' h) (anc_refl q h))). pose proof (count_pos Y' h (proj2 (HY' h) (anc_refl q h))). lia.
Qed.
Lemma within_shrinks p q : pool_ok p → pool_ok q → shrinks p q → within p → within q.
Proof. intros Hp Hq Hl Hw h e He. destruct (shrinks_records p q h e Hp Hq Hl He) as (e0 & He0 & ?). specialize (Hw h e0 He0). lia. Qed.

(** A new entry, with room in its ancestors. *)
Lemma within_added p q h (own : Z) X : pool_ok p → pool_ok q → h ∉ dom (mapTx p) → X ⊆ dom (mapTx p) → dom (mapTx q) = {[h]} ∪ dom (mapTx p) →
  (∀ x a, anc q x a ↔ anc p x a ∨ (x = h ∧ a ∈ X)) → (∀ x, x ≠ h → static <$> mapTx q !! x = static <$> mapTx p !! x) → size_at (stat q) h = own →
  count X + 1 ≤ limitAncestorCount lim → (X = ∅ ∨ own + set_sum (size_at (stat p)) X ≤ limitAncestorSize lim) → (∀ a, a ∈ X → room p own a) →
  1 ≤ limitDescendantCount lim → within p → within q.
Proof.
  intros Hp Hq Hh HXd Hdom Hanc Hsame Hown L1 L2 Hroom L3 Hw x e He. pose proof Hp as [(HG & [HA HD] & _ & _) _]. pose proof Hq as [(_ & [HAq HDq] & _ & _) _].
  assert (∀ x a, anc p x a → x = h ∨ a = h → x = a) as Hiso by (intros x' a' Ha Hor; destruct (anc_dom p x' a' (ok_links _ HG) Ha) as [->|[? ?]]; [done|]; destruct Hor; congruence).
  assert (∀ Z, Z ⊆ dom (mapTx p) → set_sum (size_at (stat q)) Z = set_sum (size_at (stat p)) Z) as Hsum.
  { intros Z HZ. apply set_sum_ext. intros y Hy. unfold value_at, stat. rewrite !lookup_fmap, Hsame; [done|]. intros ->. by apply Hh, HZ. }
  destruct (HAq x e He) as (A & HA1 & HA2), (HDq x e He) as (D & HD1 & HD2). injection HA2 as -> -> _ _. injection HD2 as -> -> _. destruct (decide (x = h)) as [->|Hne].
  - assert (A = {[h]} ∪ X) as -> by (apply set_eq; intros a; rewrite HA1, Hanc, elem_of_union, elem_of_singleton; split;
      [intros [Ha|[_ ?]]; [left; symmetry; apply Hiso; [done|by left]|by right]|intros [->|?]; [left; apply anc_refl|by right]]).
    assert (D = {[h]}) as -> by (apply set_eq; intros a; rewrite HD1; unfold flip; rewrite Hanc, elem_of_singleton; split;
      [intros [Ha|[-> _]]; [apply Hiso; [done|by right]|done]|intros ->; left; apply anc_refl]).
    assert (h ∉ X) by (intros ?; by apply Hh, HXd). rewrite count_insert, set_sum_insert, set_sum_singleton, Hsum by done. assert (count {[h]} = 1) as -> by (unfold count; by rewrite size_singleton).
    split_and!; [lia| |lia|by left]. destruct L2 as [->|L2]; [left; done|right; lia].
  - assert (x ∈ dom (mapTx p)) as Hx by (apply elem_of_dom_2 in He; set_solver). pose proof Hx as [e0 He0]%elem_of_dom. specialize (Hw x e0 He0).
    destruct (HA x e0 He0) as (A0 & HA01 & HA02), (HD x e0 He0) as (D0 & HD01 & HD02). injection HA02 as S1 S2 _ _. injection HD02 as T1 T2 _.
    assert (A = A0) as -> by (apply set_eq; intros a; rewrite HA1, HA01, Hanc; naive_solver).
    assert (A0 ⊆ dom (mapTx p)) as HAd by (intros a Ha%HA01; destruct (anc_dom p x a (ok_links _ HG) Ha) as [<-|[_ ?]]; done).
    assert (D0 ⊆ dom (mapTx p)) as HDd by (intros a Ha%HD01; by eapply anc_in_dom). assert (h ∉ D0) by (intros ?; by apply Hh, HDd). rewrite (Hsum A0 HAd). destruct (decide (x ∈ X)) as [HxX|HxX].
    + assert (D = {[h]} ∪ D0) as -> by (apply set_eq; intros a; rewrite HD1, elem_of_union, elem_of_singleton, HD01; unfold flip; rewrite Hanc; naive_solver).
      rewrite count_insert, set_sum_insert, Hsum by done. destruct (Hroom x HxX e0 He0). lia.
    + assert (D = D0) as -> by (apply set_eq; intros a; rewrite HD1, HD01; unfold flip; rewrite Hanc; naive_solver). rewrite (Hsum D0 HDd). lia.
Qed.
End Limits.
