(* ===== verification/MempoolSafe.v ===== *)
(** * The memory pool is safe

    The pool as the node uses it, as a machine whose steps are its operations: every
    pool that is reached is consistent and within the limits on chains, no assertion
    fails, blocks and replacements take out what they must. *)
From S2P Require Import Prelude ArithUint256 Script Interpreter InterpreterFacts Serialize Transaction TxVerify CoinSelection Mempool MempoolFacts MempoolInv MempoolOps MempoolRemove MempoolAdd MempoolNew MempoolBlock MempoolAccept MempoolAcceptFacts MempoolLimits.

Section Safe.
Context `{C : Crypto} (nB : Z) (node_usage : Z) (lim : limits).
Implicit Types (p q : CTxMemPool) (x h : uint256) (S X Y : setEntries) (t : CTransaction).
Abbreviation pool_ok := (pool_ok nB node_usage).
Abbreviation size_at m := (value_at m (GetTxSize nB)).

(** ** Acceptance *)

Definition env_fits (env : accept_env) : Prop := chain_limits env = lim ∧ ∀ p, mapTx p ≠ ∅ → lowest_score env p ∈ dom (mapTx p).
(** What acceptance does to the pool: nothing, or a removal, an addition, and removals. *)
Definition accepted_to p (entry : CTxMemPoolEntry) q : Prop := ∃ X p1 p2,
  CalculateMemPoolAncestors nB p entry lim true = Ok (None, X) ∧ pool_ok p1 ∧ left_of p p1 ∧ X ⊆ dom (mapTx p1) ∧ GetHash (tx entry) ∉ dom (mapTx p1) ∧
  addUnchecked nB node_usage (GetHash (tx entry)) entry X p1 = Ok p2 ∧ pool_ok p2 ∧ dom (mapTx p2) = {[GetHash (tx entry)]} ∪ dom (mapTx p1) ∧
  (∀ x a, anc p2 x a ↔ anc p1 x a ∨ (x = GetHash (tx entry) ∧ a ∈ X)) ∧ (∀ x, x ≠ GetHash (tx entry) → static <$> mapTx p2 !! x = static <$> mapTx p1 !! x) ∧
  size_at (stat p2) (GetHash (tx entry)) = GetTxSize nB entry ∧ left_of p2 q.
Lemma accept_ok env entry p : pool_ok p → tx_fits nB p entry → env_fits env →
  ∃ r q, AcceptToMemoryPoolWorker nB node_usage env entry p = Ok (r, q) ∧ pool_ok q ∧ (q = p ∨ accepted_to p entry q).
Proof.
  intros Hok Hfits [Hlim Hlow]. assert (∀ r : option reject_reason, ∃ r' q, Ok (r, p) = Ok (E := mempool_error) (r', q) ∧ pool_ok q ∧ (q = p ∨ accepted_to p entry q)) as Hsame by (intros r; exists r, p; by split_and!; [..|left]).
  pose proof Hok as [(HG & _) _]. unfold AcceptToMemoryPoolWorker. cbv zeta. case_bool_decide as Hin; [apply Hsame|]. rewrite <- elem_of_dom in Hin.
  destruct (find_conflicts_ok nB node_usage p (fEnableReplacement env) (vin (tx entry)) Hok ∅) as (cs & Ecs & _). rewrite Ecs. cbn [rbind]. destruct cs as [S|]; [|apply Hsame].
  destruct (conflicts_found nB node_usage p (tx entry) _ S Hok Ecs) as [HS HSd]. destruct (tx_checks env); cbn [negb]; [|apply Hsame].
  destruct (new_ancestors_found nB p entry (chain_limits env) (ok_links _ HG)) as (r & X & EX & HX & _). rewrite EX. cbn [rbind]. destruct r as [l|]; [apply Hsame|]. specialize (HX eq_refl).
  destruct (existsb _ (elements X)) eqn:Eb; [apply Hsame|]. assert (X ## S) as Hdis.
  { intros a Ha HaS. apply not_true_iff_false in Eb. apply Eb, existsb_exists. exists a. split; [by apply list_elem_of_In, elem_of_elements|by apply bool_decide_eq_true]. }
  destruct (check_replacement_ok nB node_usage p (tx entry) (ApplyDelta (GetHash (tx entry)) (nFee entry) p) (u32 (GetTxSize nB entry)) (incrementalRelayFee env) S Hok HSd) as (r & -> & HY). cbn [rbind].
  destruct r as [er|Y]; [apply Hsame|]. destruct (HY Y eq_refl) as [Hdep Hcl]. destruct (script_checks env); cbn [negb]; [|apply Hsame]. destruct (test_accept env); [apply Hsame|].
  destruct (replace_ok nB node_usage p entry S Y X) as (p1 & p2 & -> & Hp1 & Hrem & HXd & E2 & Hp2 & Hd2 & Ha2 & Hs2 & Hz2); [done..|]. cbn [rbind]. rewrite E2. cbn [rbind].
  assert (∀ q, left_of p2 q → accepted_to p entry q) as Hacc.
  { intros q Hq. exists X, p1, p2. rewrite Hlim in EX. split_and!; try done; [by eapply remains_left|]. rewrite (remains_dom _ _ _ Hrem). set_solver. }
  destruct (bypass_limits env); [do 2 eexists; split_and!; [done|done|right; apply Hacc, left_refl]|].
  destruct (LimitMempoolSize_ok nB node_usage env p2 Hlow Hp2) as (q & -> & Hq & Hl & _). cbn [rbind]. do 2 eexists. split_and!; [done|done|right; by apply Hacc].
Qed.

(** ** The machine *)

Inductive mempool_op :=
| op_accept (env : accept_env) (entry : CTxMemPoolEntry)
| op_block (vtx : list CTransaction)
| op_remove (t : CTransaction)
| op_limit (env : accept_env)
| op_prioritise (h : uint256) (nFeeDelta : Z).
Definition run_op (op : mempool_op) (p : CTxMemPool) : result mempool_error CTxMemPool :=
  match op with
  | op_accept env entry => let* r := AcceptToMemoryPoolWorker nB node_usage env entry p in Ok r.2
  | op_block vtx => removeForBlock nB node_usage vtx p
  | op_remove t => removeRecursive nB node_usage t p
  | op_limit env => LimitMempoolSize nB node_usage env p
  | op_prioritise h nFeeDelta => PrioritiseTransaction nB h nFeeDelta p
  end.
(** The conditions under which the theorems follow an operation.  A transaction that is
    offered has no child in the pool and does not spend itself, and the counters have
    room for it ([tx_fits]); the limits are those of [lim] and the score that trimming
    goes by names an entry ([env_fits]); the transactions of a block come after their
    parents.  What a reorganization does ([UpdateMempoolForReorg], which adds
    transactions back below their children) is not an operation here. *)
Definition op_fits p (op : mempool_op) : Prop :=
  match op with
  | op_accept env entry => env_fits env ∧ tx_fits nB p entry
  | op_block vtx => block_in_order p vtx
  | op_remove _ => True
  | op_limit env => env_fits env
  | op_prioritise _ _ => True
  end.
Inductive reachable : CTxMemPool → Prop :=
| reach_start : reachable new_CTxMemPool
| reach_step p op q : reachable p → op_fits p op → run_op op p = Ok q → reachable q.

Lemma start_ok : pool_ok new_CTxMemPool.
Proof.
  split; [|intros h e; cbn; by rewrite lookup_empty]. assert (∀ a b, ¬ parent new_CTxMemPool a b) as Hp by (intros a b (l & Hl & _); cbn in Hl; by rewrite lookup_empty in Hl).
  assert (∀ a b, ¬ child new_CTxMemPool a b) as Hc by (intros a b (l & Hl & _); cbn in Hl; by rewrite lookup_empty in Hl). split_and!.
  - constructor; [split_and!; [done|intros a b H; by apply Hp in H|intros a b H; by apply Hc in H]|intros a b; split; intros H; [by apply Hp in H|by apply Hc in H]|exists (λ _, 0%nat); intros a b H; by apply Hp in H|..];
      intros h e; cbn; by rewrite lookup_empty.
  - split; intros h e; cbn; by rewrite lookup_empty.
  - split_and!; [intros h e; unfold stat; cbn; by rewrite lookup_fmap, lookup_empty|..]; unfold stat; cbn; rewrite fmap_empty, dom_empty_L, set_sum_empty; lia.
  - constructor; [done|..].
    + intros o h. cbn. rewrite lookup_empty. split; [done|]. intros (e & He & _). by rewrite lookup_empty in He.
    + intros h e. cbn. by rewrite lookup_empty.
    + intros i w h. cbn. by rewrite lookup_nil.
    + unfold stat. cbn. by rewrite fmap_empty, dom_empty_L, set_sum_empty.
    + unfold stat, link_nodes. cbn. rewrite fmap_empty, !dom_empty_L, !set_sum_empty. replace (0 + node_usage * 0) with 0 by lia. done.
Qed.
Lemma accepted_within p entry q : 1 ≤ limitAncestorCount lim → 1 ≤ limitDescendantCount lim →
  pool_ok p → pool_ok q → tx_fits nB p entry → accepted_to p entry q → within lim p → within lim q.
Proof.
  intros L1 L2 Hp Hq Hfits (X & p1 & p2 & EX & Hp1 & Hl1 & HXd & Hnew & E2 & Hp2 & Hd2 & Ha2 & Hs2 & Hz2 & Hl2) Hw.
  destruct (ancestors_limited nB node_usage lim p entry X Hp (fits_entry _ _ _ Hfits) L1 EX) as (A1 & A2 & A3). pose proof (left_shrinks nB _ _ Hl1) as Hsh.
  apply (within_shrinks nB node_usage lim p2 q); [done|done|by apply left_shrinks|].
  apply (within_added nB node_usage lim p1 p2 (GetHash (tx entry)) (GetTxSize nB entry) X); try done.
  - destruct (shrinks_sums nB node_usage p p1 X X Hp Hsh HXd ltac:(done)). destruct A2; [by left|right; lia].
  - intros a Ha e1 He1. destruct (shrinks_records nB node_usage p p1 a e1 Hp Hp1 Hsh He1) as (e0 & He0 & _ & _ & R1 & R2). destruct (A3 a Ha e0 He0). lia.
  - by apply (within_shrinks nB node_usage lim p p1).
Qed.
Lemma run_op_ok p op : pool_ok p → op_fits p op → ∃ q, run_op op p = Ok q ∧ pool_ok q ∧
  (1 ≤ limitAncestorCount lim → 1 ≤ limitDescendantCount lim → within lim p → within lim q).
Proof.
  intros Hok Hfits. assert (∀ q, pool_ok q → left_of p q → within lim p → within lim q) as Hleft by (intros q Hq Hl; apply (within_shrinks nB node_usage); [done|done|by apply left_shrinks]).
  destruct op as [env entry|vtx|t|env|h n]; cbn [run_op op_fits] in *.
  - destruct Hfits as [He Hf]. destruct (accept_ok env entry p Hok Hf He) as (r & q & -> & Hq & Hacc). cbn [rbind snd]. exists q. split_and!; [done|done|]. intros L1 L2 Hw.
    destruct Hacc as [->|Hacc]; [done|by apply (accepted_within p entry)].
  - destruct (removeForBlock_ok nB node_usage p vtx Hok Hfits) as (q & -> & Hq & Hl & _). exists q. split_and!; [done|done|]. intros _ _. by apply Hleft.
  - pose proof Hok as [Hcore Hdel]. destruct (removeRecursive_ok nB node_usage p t Hcore) as (q & S & -> & Hq & Hrem & _). pose proof (remains_left _ _ _ Hrem) as Hl. exists q.
    assert (pool_ok q) as Hpq by (split; [done|eapply left_deltas; [exact Hl|apply (rem_deltas _ _ _ Hrem)|done]]). split_and!; [done|done|]. intros _ _. by apply Hleft.
  - destruct (LimitMempoolSize_ok nB node_usage env p (proj2 Hfits) Hok) as (q & -> & Hq & Hl & _). exists q. split_and!; [done|done|]. intros _ _. by apply Hleft.
  - destruct (PrioritiseTransaction_ok nB node_usage p h n Hok) as (q & -> & Hq & Hf & _). exists q. split_and!; [done|done|]. intros _ _.
    apply (within_shrinks nB node_usage); [done|done|]. apply feeless_shrinks; [apply Hok|apply Hq|done].
Qed.
Lemma reachable_ok p : reachable p → pool_ok p ∧ (1 ≤ limitAncestorCount lim → 1 ≤ limitDescendantCount lim → within lim p).
Proof.
  induction 1 as [|p op q _ [Hp Hw] Hfits E]; [split; [apply start_ok|intros _ _ h e; cbn; by rewrite lookup_empty]|].
  destruct (run_op_ok p op Hp Hfits) as (q' & E' & Hq & Hwq). assert (q' = q) as -> by congruence. auto.
Qed.
End Safe.

(** ** The theorems *)

(** C12: Start from the empty pool and let transactions be accepted, blocks connected,
    transactions removed, the pool trimmed and priorities changed, in any order, where
    each transaction that is offered, in an entry as its constructor makes it, has no
    child in the pool yet, does not spend itself and leaves the counters room, the score that trimming goes by names
    an entry, and each block has its transactions after their parents.  Then the links,
    the index of spent outputs, the totals and what each entry records of its ancestors
    and descendants are those that the transactions give, and no further operation
    under these conditions fails an assertion.  Reorganizations, which add transactions
    whose children are in the pool, are not among the operations. *)
Theorem mempool_consistent (C : Crypto) (nB node_usage : Z) (lim : limits) (p : CTxMemPool) : reachable nB node_usage lim p →
  pool_ok nB node_usage p ∧ ∀ op, op_fits nB lim p op → ∃ q, run_op nB node_usage op p = Ok q.
Proof.
  intros Hr. destruct (reachable_ok nB node_usage lim p Hr) as [Hp _]. split; [done|]. intros op Hop. destruct (run_op_ok nB node_usage lim p op Hp Hop) as (q & E & _). eauto.
Qed.
(** C15: In every pool that is reached from the empty one by operations under the
    conditions of [op_fits] (an offered transaction has no child in the pool, does not
    spend itself and leaves the counters room; no reorganizations), with limits on the
    numbers that are at least one: no entry has, with itself, more ancestors or
    descendants than the limits allow; its size with its ancestors is within the limit
    unless it has no other ancestor, and its size with its descendants unless it has no
    other descendant.  The exception is real: for an entry without a parent in the pool
    [CalculateMemPoolAncestors] succeeds whatever its size and the limits are. *)
Theorem mempool_within_limits (C : Crypto) (nB node_usage : Z) (lim : limits) (p : CTxMemPool) : reachable nB node_usage lim p → 1 ≤ limitAncestorCount lim → 1 ≤ limitDescendantCount lim →
  (∀ h e, mapTx p !! h = Some e → ∃ X Y : setEntries, (∀ a, a ∈ X ↔ anc p h a) ∧ (∀ a, a ∈ Y ↔ anc p a h) ∧
    count X ≤ limitAncestorCount lim ∧ (X = {[h]} ∨ set_sum (value_at (stat p) (GetTxSize nB)) X ≤ limitAncestorSize lim) ∧
    count Y ≤ limitDescendantCount lim ∧ (Y = {[h]} ∨ set_sum (value_at (stat p) (GetTxSize nB)) Y ≤ limitDescendantSize lim)) ∧
  ∀ entry, (∀ i, i ∈ vin (tx entry) → mapTx p !! hash (prevout i) = None) → CalculateMemPoolAncestors nB p entry lim true = Ok (None, ∅).
Proof.
  intros Hr L1 L2. split; [|apply no_parents_no_limits]. intros h e He. destruct (reachable_ok nB node_usage lim p Hr) as [Hp Hw]. specialize (Hw L1 L2 h e He) as (W1 & W2 & W3 & W4).
  destruct Hp as [(_ & [HA HD] & _ & _) _]. destruct (HA h e He) as (X & HX & [= S1 S2 _ _]), (HD h e He) as (Y & HY & [= T1 T2 _]). rewrite S1, S2 in *. rewrite T1, T2 in *.
  exists X, Y. split_and!; [done|done|done| |done|].
  - destruct W2 as [W2|W2]; [left|by right]. apply count_one; [apply HX, anc_refl|done].
  - destruct W4 as [W4|W4]; [left|by right]. apply count_one; [apply HY, anc_refl|done].
Qed.
(** C13: After a block whose transactions come after their parents, no transaction of the
    block is in the pool and none of the outputs that it spends is spent in the pool;
    what else has left the pool conflicts with a transaction of the block or descends
    from a transaction that does. *)
Theorem block_clears_pool (C : Crypto) (nB node_usage : Z) (p : CTxMemPool) (vtx : list CTransaction) : pool_ok nB node_usage p → block_in_order p vtx →
  ∃ q, removeForBlock nB node_usage vtx p = Ok q ∧ pool_ok nB node_usage q ∧
    (∀ t, t ∈ vtx → GetHash t ∉ dom (mapTx q) ∧ ∀ o, o ∈ prevouts t → mapNextTx q !! o = None) ∧
    dom (mapTx q) ⊆ dom (mapTx p) ∧ (∀ a, a ∈ dom (mapTx p) → a ∉ dom (mapTx q) → ∃ t, t ∈ vtx ∧ (a = GetHash t ∨ evicted_by p t a)).
Proof.
  intros Hok Hord. destruct (removeForBlock_ok nB node_usage p vtx Hok Hord) as (q & E & Hq & Hl & Hg & He). exists q. split_and!; [done|done|done|by apply left_dom|done].
Qed.
(** C14: A replacement that is allowed pays at least the fees of everything that it puts
    out and the relay fee for its own size, has a higher fee rate than each
    transaction that it conflicts with, and puts out at most a hundred entries. *)
Theorem replacement_pays (C : Crypto) (nB node_usage : Z) (p : CTxMemPool) (t : CTransaction) (fees sz : Z) (inc : CFeeRate) (S Y : setEntries) : pool_ok nB node_usage p → count (dom (mapTx p)) < 2 ^ 31 →
  (∀ h, h ∈ dom (mapTx p) → Z.abs (value_at (stat p) GetModifiedFee h) ≤ MAX_MONEY) → Z.abs fees ≤ MAX_MONEY →
  find_conflicts true p (vin t) ∅ = Ok (Some S) → S ≠ ∅ → check_replacement nB p t fees sz inc S = Ok (inr Y) →
  (∀ x, x ∈ Y ↔ ∃ c, spends_same p t c ∧ anc p x c) ∧ count Y ≤ 100 ∧
  set_sum (value_at (stat p) GetModifiedFee) Y ≤ fees ∧ GetFee inc sz ≤ fees - set_sum (value_at (stat p) GetModifiedFee) Y ∧
  (∀ h e, spends_same p t h → mapTx p !! h = Some e → new_CFeeRate (GetModifiedFee e) (GetTxSize nB e) < new_CFeeRate fees sz).
Proof.
  intros Hok Hcnt Hfee Hfees Ec Hne E. destruct (conflicts_found nB node_usage p t true S Hok Ec) as [HS HSd].
  destruct (replacement_rules nB node_usage p t fees sz inc S Y Hok Hcnt Hfee Hfees HSd Hne E) as (R1 & R2 & R3 & R4 & R5). split_and!; [|done|lia|done|].
  - intros x. rewrite (R1 x). by setoid_rewrite HS.
  - intros h e Hh. apply R5. by apply HS.
Qed.

(** ** A pool with a payment and one that depends on it *)

Module Sample.
#[local] Instance hashes : Crypto := toy_crypto.
Definition payment : CTransaction := mk_tx [mk_txin (mk_outpoint (replicate 32 9) 0) [] 0 []] [mk_txout 5000 []] 1 0.
Definition dependant : CTransaction := mk_tx [mk_txin (mk_outpoint (GetHash payment) 0) [] 0 []] [mk_txout 4000 []] 2 0.
Definition rival : CTransaction := mk_tx [mk_txin (mk_outpoint (replicate 32 9) 0) [] 0 []] [mk_txout 1000 []] 3 0.
Definition sample_limits : limits := mk_limits 25 101000 25 101000.
Definition first_key (p : CTxMemPool) : uint256 := default [] (head (elements (dom (mapTx p)))).
Definition sample_env : accept_env := mk_env true 1000 sample_limits false false true true 0 (λ _, 0) first_key 1000.
Definition entry_of (t : CTransaction) (fee : Z) : CTxMemPoolEntry := new_CTxMemPoolEntry 20 (λ _, 100) t fee 7 1 false 4 40.
Definition accept (t : CTransaction) (fee : Z) (p : CTxMemPool) : CTxMemPool :=
  match run_op 20 8 (op_accept sample_env (entry_of t fee)) p with Ok q => q | Err _ => p end.
Definition one_payment : CTxMemPool := accept payment 1000 new_CTxMemPool.
Definition two_payments : CTxMemPool := accept dependant 1000 one_payment.

Lemma first_key_in p : mapTx p ≠ ∅ → first_key p ∈ dom (mapTx p).
Proof.
  intros Hne. unfold first_key. destruct (elements (dom (mapTx p))) as [|x l] eqn:E; [exfalso; by apply Hne, dom_empty_inv_L, leibniz_equiv, elements_empty_inv|].
  cbn. apply elem_of_elements. rewrite E. apply list_elem_of_here.
Qed.
(** The conditions of an acceptance, by evaluation. *)
Definition fits_dec (p : CTxMemPool) (e : CTxMemPoolEntry) : bool :=
  forallb (λ he, bool_decide (GetHash (tx e) ∉ (hash <$> prevouts (tx he.2)))) (map_to_list (mapTx p)) &&
  bool_decide (GetHash (tx e) ∉ (hash <$> prevouts (tx e))) &&
  bool_decide (0 < GetTxSize 20 e ∧ 0 ≤ sigOpCost e ∧ - 2 ^ 63 ≤ nFee e < 2 ^ 63 ∧ set_sum (value_at (stat p) (GetTxSize 20)) (dom (mapTx p)) + GetTxSize 20 e < 2 ^ 63 ∧
    set_sum (value_at (stat p) sigOpCost) (dom (mapTx p)) + sigOpCost e < 2 ^ 31).
Lemma accept_fits p t fee : fits_dec p (entry_of t fee) = true → op_fits 20 sample_limits p (op_accept sample_env (entry_of t fee)).
Proof.
  unfold fits_dec. rewrite !andb_true_iff, !bool_decide_eq_true, forallb_forall. intros [[H1 H2] H3]. cbn [op_fits]. split_and!.
  - split; [done|]. apply first_key_in.
  - constructor; [apply new_CTxMemPoolEntry_fresh| |done|unfold entry_fits; tauto]. intros h e He. specialize (H1 (h, e)). rewrite bool_decide_eq_true in H1. apply H1. by apply list_elem_of_In, elem_of_map_to_list.
Qed.
Lemma one_payment_reachable : reachable 20 8 sample_limits one_payment.
Proof.
  eapply reach_step; [apply reach_start|apply (accept_fits new_CTxMemPool payment 1000); vm_compute; reflexivity|]. unfold one_payment, accept.
  destruct (run_op 20 8 _ new_CTxMemPool) eqn:E; [done|]. vm_compute in E. discriminate E.
Qed.
Lemma two_payments_reachable : reachable 20 8 sample_limits two_payments.
Proof.
  eapply reach_step; [apply one_payment_reachable|apply (accept_fits one_payment dependant 1000); vm_compute; reflexivity|]. unfold two_payments, accept.
  destruct (run_op 20 8 _ one_payment) eqn:E; [done|]. vm_compute in E. discriminate E.
Qed.
Lemma no_parents p t : from_option (λ l, bool_decide (parents l = ∅)) false (mapLinks p !! GetHash t) = true → block_in_order p [t].
Proof.
  intros Hp [|t' k] t0 l Hk a (li & Hl & Ha); [|by destruct k]. injection Hk as <- _. exfalso. rewrite Hl in Hp. cbn in Hp. apply bool_decide_eq_true in Hp. rewrite Hp in Ha.
  by apply not_elem_of_empty in Ha.
Qed.
Lemma fees_bounded p : forallb (λ h, Z.abs (value_at (stat p) GetModifiedFee h) <=? MAX_MONEY) (elements (dom (mapTx p))) = true →
  ∀ h, h ∈ dom (mapTx p) → Z.abs (value_at (stat p) GetModifiedFee h) ≤ MAX_MONEY.
Proof. intros Hf h Hh. rewrite forallb_forall in Hf. apply Z.leb_le, Hf, list_elem_of_In, elem_of_elements, Hh. Qed.
Lemma two_payments_ok : pool_ok 20 8 two_payments.
Proof. exact (proj1 (reachable_ok 20 8 sample_limits two_payments two_payments_reachable)). Qed.

Lemma mempool_consistent_witness : base.size (mapTx two_payments) = 2%nat ∧ pool_ok 20 8 two_payments ∧ ∃ q, run_op 20 8 (op_prioritise (GetHash payment) 500) two_payments = Ok q.
Proof.
  destruct (mempool_consistent toy_crypto 20 8 sample_limits two_payments two_payments_reachable) as [H1 H2].
  split; [vm_compute; reflexivity|]. split; [exact H1|]. exact (H2 (op_prioritise (GetHash payment) 500) I).
Defined.
Lemma mempool_within_limits_witness : ∃ X Y : setEntries, (∀ a, a ∈ X ↔ anc two_payments (GetHash dependant) a) ∧ (∀ a, a ∈ Y ↔ anc two_payments a (GetHash dependant)) ∧
  count X ≤ 25 ∧ (X = {[GetHash dependant]} ∨ set_sum (value_at (stat two_payments) (GetTxSize 20)) X ≤ 101000).
Proof.
  destruct (mapTx two_payments !! GetHash dependant) as [e|] eqn:E; [|vm_compute in E; discriminate E].
  destruct (mempool_within_limits toy_crypto 20 8 sample_limits two_payments two_payments_reachable ltac:(vm_compute; discriminate) ltac:(vm_compute; discriminate)) as [H _].
  destruct (H (GetHash dependant) e E)
    as (X & Y & H1 & H2 & H3 & H4 & _).
  exists X, Y. split; [exact H1|]. split; [exact H2|]. split; [exact H3|exact H4].
Defined.
(** A block with the payment leaves the dependant in the pool. *)
Lemma block_clears_pool_witness : ∃ q, removeForBlock 20 8 [payment] two_payments = Ok q ∧ GetHash payment ∉ dom (mapTx q) ∧ mapNextTx q !! mk_outpoint (replicate 32 9) 0 = None.
Proof.
  destruct (block_clears_pool toy_crypto 20 8 two_payments [payment]) as (q & E & _ & H & _).
  - exact two_payments_ok.
  - apply no_parents. vm_compute. reflexivity.
  - exists q. destruct (H payment (list_elem_of_here _ _)) as [H1 H2]. split; [exact E|]. split; [exact H1|]. apply H2. apply list_elem_of_here.
Defined.
(** The rival of the payment puts out both. *)
Lemma replacement_pays_witness : check_replacement 20 two_payments rival 100000 60 1000 {[GetHash payment]} = Ok (inr {[GetHash payment; GetHash dependant]}) ∧
  set_sum (value_at (stat two_payments) GetModifiedFee) {[GetHash payment; GetHash dependant]} ≤ 100000.
Proof.
  assert (check_replacement 20 two_payments rival 100000 60 1000 {[GetHash payment]} = Ok (inr {[GetHash payment; GetHash dependant]})) as E by (vm_compute; reflexivity).
  split; [exact E|].
  destruct (replacement_pays toy_crypto 20 8 two_payments rival 100000 60 1000 {[GetHash payment]} {[GetHash payment; GetHash dependant]}) as (_ & _ & H & _).
  - exact two_payments_ok.
  - vm_compute. reflexivity.
  - apply fees_bounded. vm_compute. reflexivity.
  - vm_compute. discriminate.
  - vm_compute. reflexivity.
  - apply non_empty_singleton_L.
  - exact E.
  - exact H.
Defined.
End Sample.
